(* ===== verification/_CoqProject ===== *)
-Q . S2P
Prelude.v
IntrusiveList.v
Endian.v
Buffer.v
NetIp.v
FileContext.v
TestContext.v
ObserverContext.v
PollContext.v
InPlaceStop.v
StopToken.v
StopThreads.v
RunLoop.v
AsyncScope.v
WhenAll.v
RingContext.v
RepeatEffect.v
AsyncIo.v
NetOps.v
Transfer.v
Timeout.v
Senders.v
Adaptors.v
Task.v
Sockets.v
IoContext.v
ExecutionContext.v
FileSenders.v
Algorithms.v
DHeap.v
PriorityQueue.v
DHeapQueue.v
PairingHeap.v
PairingQueue.v
FibHeap.v
FibQueue.v
FibWalk.v
RadixHeap.v
RadixSort.v
StoreList.v
SplayHeap.v
SplayQueue.v
BinaryHeap.v
LazyHeap.v
LazyQueue.v
Partition.v
Quicksort.v
CxxSort.v
LocaleCache.v
NumPut.v
NumGet.v
NumRound.v
StreamBuf.v
StringBuf.v
StringText.v
StreamIter.v
Ios.v
StreamRun.v
OStream.v
IStream.v
StreamText.v
StreamOps.v
StreamRoundtrip.v
FileBuf.v
FileText.v
FileWide.v
FStream.v
