(* ===== verification/Prelude.v ===== *)
(** * A verification development for kuhllib

    kuhllib is a C++ library of asynchronous I/O: senders and receivers
    (src/src/nstd/execution), stop tokens (src/src/nstd/stop_token), I/O
    contexts (src/src/nstd/file), networking types (src/src/nstd/net,
    src/src/nstd/buffer, src/src/nstd/endian) and the containers they use. A
    program builds a sender, connects it to a receiver and starts the
    operation; the operation makes requests to a context, whose [run_one]
    collects results from the system and calls the continuations, which
    complete the receivers; stop tokens travel the other way and cancel
    requests. This library models the parts of that path which have state, and
    proves what makes them correct - or, where the code does not do what it
    means to, exactly what it does instead. The repository also holds three
    independent programs of which parts are modelled: the
    heaps of an old library (src/src/old-boost/heaps), the sorting
    functions of a talk (src/presentations/quicker-sorting), and a C++ run-time
    library, cxxrt (src/cxxrt-source), of which the formatting and the scanning
    of integers are modelled with the tables of the locale they use, the stream
    buffers they write to and read from, the streams themselves, and files.

    ** Files

    - Prelude: machine integers ([wrapu], [wraps]), exceptions ([result]),
      effectful handlers ([outcome]), comparison functions ([StrictWeakOrder]),
      invariants of transition systems, tactics.
    - IntrusiveList: container/intrusive_list.hpp. A store of linked nodes; each
      member function is a definition on the store; [is_list] relates it to the
      abstract sequence. The classes [QueueOps] and [QueueSpec] are the interface
      its clients (StopToken, RunLoop, ObserverContext) are verified against.
    - InPlaceStop: stop_token/in_place_stop_token.hpp, lock-free, one atomic
      access per transition. StopToken: stop_token/stop_state.hpp, stop_source,
      stop_token and stop_callback, with the spin lock, used by one thread;
      StopThreads: the same code executed by any number of threads.
    - RunLoop: execution/run_loop.{hpp,cpp}, one locked region per transition; a
      thread which waits can be woken without a notification.
    - AsyncScope: execution/async_scope.hpp, the list of the operations which wait
      for the scope to be empty; it refines a scope of two sequences.
    - FileContext: file/context.hpp, io_base.hpp, open_flags, descriptor and
      mapped_memory. The virtual functions of the context are the constructors
      of [request], and the class [FileContext] is the interface of a context.
      Its instances are TestContext (test_context.{hpp,cpp}), ObserverContext
      (observer_context.{hpp,cpp}, a decorator, for any inner context),
      PollContext (poll_context.{hpp,cpp}, on poll) and RingContext (ring.hpp and
      ring_context.{hpp,cpp}, on io_uring).
    - AsyncIo: file/async_io.hpp, the operation state of cancellable requests.
      NetOps: the senders of net/ that are such operations (async_read_some,
      async_write_some, async_receive, async_send, async_receive_from,
      async_send_to, async_accept, async_connect), each an instance of the class
      [NetOperation], with the laws [NetOperationSpec] that the theorem on their
      completion uses. Transfer: the loops async_read and async_write of
      net/async_read.hpp and async_write.hpp, built from RepeatEffect and NetOps.
    - Sockets: net/socket_base, basic_socket, stream and datagram sockets and
      acceptors, on blocking system calls, and the queue of sends of a stream
      socket. IoContext: net/io_context.hpp, net/scope.hpp,
      execution/run.hpp and the timers of timer/. FileSenders: the file/read and open senders.
    - Senders: execution/just.hpp, then.hpp, let.hpp and thread/sync_wait.hpp, the
      last as the steps of the caller and of the thread which completes.
      WhenAll, RepeatEffect and Timeout: the operation states of
      execution/when_all.hpp, repeat_effect_until.hpp and timeout.hpp.
      Adaptors: on, start_detached, inject_cancel, add_value and
      repeat_effect. Task: execution/task.hpp, the coroutine as a tree.
      ExecutionContext: executor/execution_context.hpp and its services.
    - Endian, Buffer, NetIp: the byte order conversions, buffers with the
      scatter/gather arrays, and net/ip addresses and endpoints.
    - Algorithms: the functions of algorithm/ on cursors, as functions on lists.
    - DHeap, DHeapQueue: old-boost/heaps/d_heap.{hpp,cc}; the first has the
      definitions and the invariants of the loops which move a hole, the second
      the heap as a priority queue of nodes. PairingHeap, PairingQueue: in the
      same way old-boost/heaps/p_heap.{hpp,cc}, whose nodes are related to forests.
      FibHeap, FibQueue: old-boost/heaps/f_heap.{hpp,cc}, on a store of nodes with
      an invariant for the trees detached while an operation runs; FibWalk: its
      iterators and its destructor. RadixHeap, RadixSort: old-boost/heaps/r_heap.{hpp,cc},
      rings of nodes in buckets by the highest bit. SplayHeap, SplayQueue:
      old-boost/heaps/s_heap.{hpp,cc}, a search tree of lists of equal nodes; [spl] says
      of which nodes the store consists, up to their order, so that each assignment
      replaces one of them; StoreList has the lemmas for that. LazyHeap, LazyQueue:
      old-boost/heaps/l_heap.{hpp,cc}, described in the same way. BinaryHeap:
      old-boost/heaps/p_queue.{hpp,cc}, a vector of values. PriorityQueue: the class
      [PriorityQueueSpec], the interface of all but the radix heap and the binary heap,
      and a client which sorts with a priority queue.
    - Partition, Quicksort: partition.hpp, quicksort.hpp and insertionsort.hpp of
      the talk; the class [PartitionSpec] is what the sorts need of a partition
      function, with an instance for each of the three functions.
    - CxxSort: the quicksort of cxxrt (include/cxxrt/algorithm.h). LocaleCache:
      _CS_cache (lcache.h, lcache.cc), the tables of a locale, sorted with it and
      searched by bisection. NumPut, NumGet: num_put.cc and num_get.cc for bool,
      integers and pointers, on the output and input iterators of the classes
      [OutputIterator] and [InputIteratorSpec]. NumRound: what num_get reads of
      what num_put writes.
    - StreamBuf: the stream buffer of cxxrt (include/cxxrt/streambuf.h,
      srccxx/streambuf.cc) on memory with pointers; a class derived from it is an
      instance of [SbufVirtuals], which satisfies [SbufSpec] if its virtual
      functions do what the operations expect of them. StringBuf: the string
      buffer (srccxx/sstream.cc) as such an instance. StringText: the relation of
      a string buffer and its text, and that every operation respects it.
      StreamIter: the iterators on stream buffers (isbuf_it.cc, osbuf_it.cc) as
      instances of the classes of NumPut and NumGet.
    - Ios: ios_base and basic_ios (src/ios_base.cpp, srccxx/ios.cc) on a store of
      streams, buffers and callbacks, with exceptions which keep the changes made
      before they were thrown. OStream: srccxx/ostream.cc; IStream:
      srccxx/istream.cc. StreamRun has the rules for a stream and its buffer,
      StreamText the abstract operations of an input stream on a text, StreamOps
      that the functions of IStream refine them, StreamRoundtrip the numbers which
      are written to a stream and read from it.
    - FileBuf: the file of the operating system, the facets which convert
      characters, and the file buffer (src/sysfile.cpp, src/ccodecvt.cpp,
      src/wcodecvt.cpp, srccxx/convert.cc, cvtbuf.cc, filebuf.cc), an instance of
      [SbufVirtuals]; the system calls are the parameter [SysFiles]. FileText: the
      laws of a regular file ([RegularFiles]), a file with a position as the
      specification, and the relation of a buffer and its file. FileWide: buffers
      of wide characters, and what goes wrong. FStream: srccxx/fstream.cc, the
      streams of Ios with these buffers.

    ** How code is modelled

    Sequential code is a function on an explicit state. Undefined behaviour -
    dereferencing a dead object, an empty optional, an invalid iterator - is
    [None] or [UB], std::terminate is [UB] or [None], an exception is [Throw] or
    [Exc]. Concurrent code is a transition system whose steps are the atomic
    accesses (or locked regions) of the code under sequential consistency, with
    a program counter for each thread or operation, and the theorems quantify
    over all reachable states. System calls, the clock, the kernel behind
    io_uring and the code of clients are parameters; what is assumed of them is
    stated as named hypotheses ([Environment] and [PatientSystem] in PollContext,
    [kernel_laws], [waits_end], [submits_succeed] and [client_requests] in
    RingContext, [RegularFiles] in FileText, [QueueSpec]), each of which has a
    concrete instance in a witness. Integers have the width of the code where a value can
    get there: [off_type] and [streamsize] are 64 bits wide, [gbump] and [pbump] and
    the size of the radix heap 32 bits, a longer distance or size being
    truncated or undefined as in the code; the theorems on texts in a
    buffer therefore have the length of the text as a hypothesis ([int_sized], [tb_fits]).
    Some states carry history, which
    the code does not have: the completions of a receiver ([wa_done], [ai_done],
    [to_done], [re_done]), the continuations submitted and called
    ([rc_submitted], [rc_results]), the calls of [close].

    ** What is proved

    - Conservation: no request to a poll or io_uring context is lost or answered
      twice, whatever the continuations request; [run_one] makes progress as
      long as [poll] is not left waiting, and fails when [poll] is interrupted by a
      signal; the ring is drained when submissions succeed and waits end;
      timers fire in order; operations queued in the run loop are executed once
      and in order; descriptors are closed once; the sends of a socket are
      submitted one at a time and in order.
    - Exactly-once completion under every interleaving: when_all, cancellable
      I/O operations, stop callbacks (called once, or removed, and never called
      after the removal returned in another thread, with the exceptions shown).
      The callbacks of a stop state used by several threads are executed one at a
      time, none after its destructor returned, and the spin lock does not
      deadlock; but one can be executed twice.
    - Equivalence with simpler programs: the intrusive list and the stop state
      refine abstract sequences; the observer context refines the context it
      wraps; the async scope refines its two sequences; the trampoline of
      repeat_effect_until is a plain loop, so that async_write sends the bytes of
      its buffer in order and async_read fills its buffer; then is a special case
      of let, let_value a monad, a task a nest of let_value; sync_wait returns
      the completion, in every interleaving of the two threads; address, endpoint and byte order round trips; the pairing
      heap, the Fibonacci heap and the splay heap are priority queues, and the d-heap,
      too, except for remove and a part of decrease, so that all sort alike; only the
      size is wrong after the remove of the Fibonacci heap and of the splay heap, and
      the change_top of the splay heap makes cycles. The lazy Fibonacci heap is a
      priority queue as long as only push, pop and top are used, and the binary heap
      keeps its order except in a change_top with an even number of elements. The
      radix heap sorts, too, but is no priority queue when pushes are mixed with pops.
    - Algorithms: search, the quicksorts and insertion sorts return sorted
      permutations, with the partition functions which satisfy the interface.
    - Formatting: num_put writes the digits of a number, grouped and padded as
      the locale and the flags say, and never writes in front of its buffer;
      num_get reads what num_put wrote, except for numbers of the greatest length,
      which it takes for an overflow. A string buffer is a text with two
      positions, whatever areas and arrays it has, and it frees what it
      allocates; reading or writing a block is reading or writing its
      characters, for every buffer which satisfies the interface; a number put
      into a string buffer through the iterators is the number got from it.
    - Streams: the bits which save the sentry agree with the state of a stream;
      output appends the text which the formats say and input takes the text apart
      as the abstract operations do, for any sequence of them, positioning included,
      on a string buffer;
      numbers written to a stream are read back from it, and a loop which reads
      them ends with the last one.
    - Files: as long as a position is set, or the buffer flushed, between writing
      and reading, a file buffer has the results and leaves the contents that the
      same operations on the file have; what an ofstream writes an ifstream reads
      back; a failure to open is recorded by an ifstream, and by the other
      streams only when a character cannot be put or read.
    - Bounds: the indices of the rings wrap around at 2^32, the mappings contain
      the arrays, buffers advance and saturate, the sleep time of poll; a node of rank [k] of
      a Fibonacci heap has at least [fib (k + 2)] nodes below it, itself included.
    - Hazards, theorems which exhibit the flaws of the code: the lost wakeup of
      the run loop, the notification of a destroyed condition variable in sync_wait, spinning and early return in the stop sources, swap of
      intrusive lists, a failed io_uring submission, the lost result of timeout,
      repeat_effect_until's use of a finished state, let's std::terminate.

    ** Bounds and fuel

    The loops that are not structural take fuel: [poll] and [run_one] of the poll
    context, the loop over the callbacks of a stop state, [run] of the ring
    context and of the scope, [next] of repeat_effect_until, [complete] of the
    async scope, the loops of the heaps and of the sorts. The theorems give the
    fuel which is enough - one round when work is there, the number of callbacks
    plus one, of unanswered requests plus one, of repetitions plus five, of bytes
    plus six, of elements plus one - or state that no fuel is enough, where the
    code never returns. The loops of the d-heap give themselves their fuel (the
    index plus one on the way up, the length on the way down), and the recursion
    of the pairing heap is bounded by its size, that of the Fibonacci heap and the loops
    of the radix heap by the number of slots (linking) and of nodes (cascading cuts, iterators, destructor),
    which the refinement theorems show to be enough. The loops of the input streams take as much as the text is long,
    plus three, the inserter of a buffer takes two rounds, unless no number is
    enough, and the loops over the callbacks of a stream are bounded by their number.

    ** Not modelled

    Weak memory orders; two open file buffers on one file; the compile-time machinery (concepts, customisation
    points, completion signatures, type traits); object layouts and moves of
    values, other than of descriptors, lists and mappings; threads inside of
    the I/O contexts and inner operations of repeat_effect_until that complete
    concurrently with its loop; the frame of a coroutine; the iterators of the d-heap,
    of the pairing heap and of the lazy Fibonacci heap, and the destructor of the last one.
    Of the rest of the repository: executors and associated allocators are compile-time traits; the
    replacements of standard library facilities (utility, type_traits, concepts,
    functional, iterator, memory) have no state; of the run-time library cxxrt,
    floating point numbers, the locale of a stream buffer and what a virtual
    function of a buffer changes before it throws, the facets for money, time, collation
    and messages, locale objects and the buffers on arrays of strstream.h and on
    stdio are left out, as are its string and the headers under include/sgi, which come from another
    library; tests, examples, toys, the unfinished code and the adaptors of old-boost and the
    other code of presentations (the integer and demonstration variants of the
    sorts, the small sorts) are not part of the system. *)
From stdpp Require Export prelude.
From stdpp Require Export gmap list strings relations.
From Stdlib Require Export ZArith Lia.

(** ** Machine integers

    A [w]-bit unsigned integer is a [Z] in [0 .. 2^w); arithmetic in the code
    wraps modulo [2^w]. A signed [w]-bit integer is a [Z] in
    [-2^(w-1) .. 2^(w-1)). *)
Definition wrapu (w z : Z) : Z := z `mod` 2 ^ w.

Definition wraps (w z : Z) : Z :=
  let u := wrapu w z in if decide (u < 2 ^ (w - 1))%Z then u else (u - 2 ^ w)%Z.

Definition is_uint (w z : Z) : Prop := (0 ≤ z < 2 ^ w)%Z.

#[export] Instance is_uint_dec w z : Decision (is_uint w z).
Proof. unfold is_uint. apply _. Defined.

Lemma wrapu_range w z : (0 ≤ w)%Z → is_uint w (wrapu w z).
Proof. intros. unfold is_uint, wrapu. apply Z.mod_pos_bound. lia. Qed.

Lemma wrapu_small w z : is_uint w z → wrapu w z = z.
Proof. intros. by apply Z.mod_small. Qed.

Lemma wrapu_idem w z : (0 ≤ w)%Z → wrapu w (wrapu w z) = wrapu w z.
Proof. intros. by apply wrapu_small, wrapu_range. Qed.

Lemma wraps_wrapu w v : (0 < w → - 2 ^ (w - 1) ≤ v < 2 ^ (w - 1) → wraps w (wrapu w v) = v)%Z.
Proof.
  intros Hw Hv. unfold wraps. rewrite wrapu_idem by lia. unfold wrapu.
  assert (2 ^ w = 2 * 2 ^ (w - 1))%Z as Hp.
  { rewrite <-Z.pow_succ_r by lia. f_equal. lia. }
  assert (0 < 2 ^ (w - 1))%Z by (apply Z.pow_pos_nonneg; lia).
  destruct (decide (0 ≤ v)%Z).
  - rewrite Z.mod_small by lia. rewrite decide_True; lia.
  - assert (v `mod` 2 ^ w = v + 2 ^ w)%Z as ->.
    { rewrite <-(Z.mod_small (v + 2 ^ w)%Z (2 ^ w)%Z) by lia.
      rewrite <-(Z.mul_1_l (2 ^ w)%Z) at 2. by rewrite Z.mod_add by lia. }
    rewrite decide_False; lia.
Qed.

Create HintDb kuhl.
#[export] Hint Resolve wrapu_range : kuhl.

(** Or-ing a value into the free low bits adds it. *)
Lemma lor_shiftl_add (v b k : Z) :
  (0 ≤ k)%Z → (0 ≤ b < 2 ^ k)%Z → Z.lor (Z.shiftl v k) b = (v * 2 ^ k + b)%Z.
Proof.
  intros Hk Hb.
  assert (Hl : Z.land (Z.shiftl v k) b = 0%Z).
  { apply Z.bits_inj'. intros n Hn. rewrite Z.land_spec, Z.bits_0.
    destruct (decide (n < k)%Z).
    - by rewrite Z.shiftl_spec_low.
    - rewrite andb_comm. destruct (decide (b = 0%Z)) as [->|]; [by rewrite Z.bits_0|].
      rewrite Z.bits_above_log2; [done|lia|]. apply Z.log2_lt_pow2; [lia|].
      assert (2 ^ k ≤ 2 ^ n)%Z by (apply Z.pow_le_mono_r; lia). lia. }
  rewrite <-Z.lxor_lor, <-Z.add_nocarry_lxor by done.
  by rewrite Z.shiftl_mul_pow2 by lia.
Qed.

(** Masking the low [k] bits of a shifted value. *)
Lemma land_shiftr_ones (v s k : Z) :
  (0 ≤ s)%Z → (0 ≤ k)%Z → Z.land (Z.shiftr v s) (Z.ones k) = ((v `div` 2 ^ s) `mod` 2 ^ k)%Z.
Proof. intros. by rewrite Z.land_ones, Z.shiftr_div_pow2 by lia. Qed.

(** ** Transition systems

    Reachability is stdpp's [rtc]; an inductive invariant holds in every
    reachable state. *)
Lemma rtc_invariant {A} (R : relation A) (I : A → Prop) x y :
  (∀ a b, I a → R a b → I b) → I x → rtc R x y → I y.
Proof. intros Hstep HI Hrtc. induction Hrtc; eauto. Qed.

(** Iterating a partial step function with fuel. *)
Fixpoint iter_opt {A} (n : nat) (f : A → option A) (a : A) : option A :=
  match n with
  | 0 => Some a
  | S n => a' ← f a; iter_opt n f a'
  end.

(** ** Exceptions

    The exceptions the modelled code throws; a throwing function returns a
    [result]. *)
Inductive exn :=
  | range_error
  | logic_error
  | bad_variant_access
  | bad_function_call
  | ios_failure
  | system_error (code : Z).

Inductive result (A : Type) :=
  | Ok (a : A)
  | Throw (e : exn).
Arguments Ok {A} _.
Arguments Throw {A} _.

#[export] Instance result_bind : MBind result :=
  λ A B f m, match m with Ok a => f a | Throw e => Throw e end.
#[export] Instance result_ret : MRet result := λ A, Ok.

#[export] Instance exn_eq_dec : EqDecision exn.
Proof. solve_decision. Defined.

(** ** Outcomes of effectful code

    A handler that may throw, run into undefined behaviour, or - when it
    contains an unbounded loop modelled with fuel - not finish in time. *)
Inductive outcome (A : Type) :=
  | Ret (a : A)
  | Exc (e : exn)
  | UB
  | NoFuel.
Arguments Ret {A} _.
Arguments Exc {A} _.
Arguments UB {A}.
Arguments NoFuel {A}.

#[export] Instance outcome_bind : MBind outcome :=
  λ A B f m, match m with Ret a => f a | Exc e => Exc e | UB => UB | NoFuel => NoFuel end.
#[export] Instance outcome_ret : MRet outcome := λ A, Ret.
#[export] Instance outcome_fmap : FMap outcome :=
  λ A B f m, match m with Ret a => Ret (f a) | Exc e => Exc e | UB => UB | NoFuel => NoFuel end.

(** An operation of a partial component: [None] is undefined behaviour. *)
Definition or_ub {A} (m : option A) : outcome A :=
  match m with Some a => Ret a | None => UB end.

Lemma outcome_bind_Ret_inv {A B} (m : outcome A) (f : A → outcome B) b :
  m ≫= f = Ret b → ∃ a, m = Ret a ∧ f a = Ret b.
Proof. destruct m; simpl; eauto; done. Qed.

Lemma Ret_inj {A} (a b : A) : Ret a = Ret b → a = b.
Proof. by intros [= ->]. Qed.

Lemma or_ub_Ret {A} (m : option A) a : or_ub m = Ret a ↔ m = Some a.
Proof. destruct m; simpl; split; congruence. Qed.

(** ** Comparison functions

    A strict weak order, as [std::less] and [operator<] are. *)
Class StrictWeakOrder {T} (compare : T → T → bool) := {
  swo_asym a b : compare a b = true → compare b a = false;
  swo_negtrans a b c : compare a b = false → compare b c = false → compare a c = false;
}.

Lemma swo_irrefl {T} (compare : T → T → bool) `{!StrictWeakOrder compare} a : compare a a = false.
Proof. destruct (compare a a) eqn:E; [|done]. pose proof (swo_asym a a E). congruence. Qed.

Definition Zlt_b (a b : Z) : bool := bool_decide (a < b)%Z.

#[export] Instance Z_lt_swo : StrictWeakOrder Zlt_b.
Proof.
  split; unfold Zlt_b; [intros a b ?%bool_decide_eq_true; apply bool_decide_eq_false; lia|].
  intros a b c ?%bool_decide_eq_false ?%bool_decide_eq_false. apply bool_decide_eq_false. lia.
Qed.

(** ** Lists and options *)
Lemma option_bind_Some_inv {A B} (m : option A) (f : A → option B) b :
  m ≫= f = Some b → ∃ a, m = Some a ∧ f a = Some b.
Proof. destruct m; simpl; eauto. done. Qed.

Lemma fmap_Some_eq {A B} (f : A → B) (m : option A) a b :
  f <$> m = Some b → m = Some a → f a = b.
Proof. intros H ->. by simplify_option_eq. Qed.

Lemma elem_of_last {A} (l : list A) x : last l = Some x → x ∈ l.
Proof. intros (l' & ->)%last_Some. set_solver. Qed.

Lemma filter_all {A} (P : A → Prop) `{!∀ x, Decision (P x)} (l : list A) :
  Forall P l → filter P l = l.
Proof. induction 1; [done|]. rewrite filter_cons_True by done. by f_equal. Qed.

Lemma sum_list_with_insert {A} (f : A → nat) l i x y :
  l !! i = Some x → sum_list_with f (<[i := y]> l) + f x = sum_list_with f l + f y.
Proof.
  revert i. induction l as [|z l IH]; intros [|i]; simpl; intros H; [done..| |].
  - simplify_eq. lia.
  - specialize (IH i H). lia.
Qed.

(** Case analysis on the option-valued binds and conditionals of a hypothesis
    or of the goal. *)
Ltac bind_inv H :=
  repeat match type of H with
  | _ ≫= _ = Some _ =>
      let a := fresh "a" in let E := fresh "E" in
      apply option_bind_Some_inv in H as (a & E & H)
  | _ ≫= _ = Ret _ =>
      let a := fresh "a" in let E := fresh "E" in
      apply outcome_bind_Ret_inv in H as (a & E & H)
  end.

Ltac split_ifs :=
  repeat match goal with
  | |- context [if decide ?P then _ else _] => destruct (decide P)
  | H : context [if decide ?P then _ else _] |- _ => destruct (decide P)
  end.
