(* ===== verification/IntrusiveList.v ===== *)
(** * nstd::container::intrusive_list

    The doubly linked circular list of src/src/nstd/container/intrusive_list.hpp.
    Objects carry their own links; the store maps the address of each live
    object (list heads included) to its [intrusive_list_node]. An access to an
    address outside the store is undefined behaviour and yields [None].
    [is_list] relates a store and a head to the abstract sequence of objects;
    the theorems say that each operation implements the list operation and
    leaves every other list alone. *)
From S2P Require Import Prelude.

(** ** Data *)
Definition loc := nat.

Record intrusive_list_node := Link { d_next : loc; d_prev : loc }.

Abbreviation store := (gmap loc intrusive_list_node).

Definition link_next (σ : store) (x : loc) : option loc := d_next <$> σ !! x.
Definition link_prev (σ : store) (x : loc) : option loc := d_prev <$> σ !! x.

Definition set_next (σ : store) (x v : loc) : option store :=
  l ← σ !! x; Some (<[x := Link v (d_prev l)]> σ).
Definition set_prev (σ : store) (x v : loc) : option store :=
  l ← σ !! x; Some (<[x := Link (d_next l) v]> σ).

(** ** Operations, in the order of the source *)
Definition list_connect (σ : store) (prev next : loc) : option store :=
  σ ← set_next σ prev next;
  set_prev σ next prev.

(** The constructor: the head is linked to itself. *)
Definition list_ctor (σ : store) (head : loc) : option store :=
  list_connect σ head head.

Definition list_move_ctor (σ : store) (head other : loc) : option store :=
  n ← link_next σ other;
  σ ← list_connect σ head n;
  p ← link_prev σ other;
  list_connect σ p head.

Definition list_move_assign (σ : store) (head other : loc) : option store :=
  n ← link_next σ other;
  σ ← list_connect σ head n;
  p ← link_prev σ other;
  list_connect σ p head.

Definition list_insert (σ : store) (pos obj : loc) : option (store * loc) :=
  σ ← set_next σ obj pos;
  pp ← link_prev σ pos;
  σ ← set_prev σ obj pp;
  σ ← set_prev σ pos obj;
  p ← link_prev σ obj;
  σ ← set_next σ p obj;
  Some (σ, obj).

Definition list_begin (σ : store) (head : loc) : option loc := link_next σ head.
Definition list_end (head : loc) : loc := head.
Definition list_front (σ : store) (head : loc) : option loc := link_next σ head.
Definition make_iterator (ptr : loc) : loc := ptr.
Definition iterator_next (σ : store) (it : loc) : option loc := link_next σ it.

Definition list_empty (σ : store) (head : loc) : option bool :=
  n ← link_next σ head;
  Some (bool_decide (head = n)).

Definition list_push_back (σ : store) (head obj : loc) : option store :=
  '(σ, _) ← list_insert σ (list_end head) obj;
  Some σ.

Definition list_erase (σ : store) (pos : loc) : option store :=
  p ← link_prev σ pos;
  n ← link_next σ pos;
  σ ← set_next σ p n;
  n ← link_next σ pos;
  p ← link_prev σ pos;
  σ ← set_prev σ n p;
  σ ← set_prev σ pos pos;
  set_next σ pos pos.

Definition list_pop_front (σ : store) (head : loc) : option store :=
  b ← list_begin σ head;
  list_erase σ b.

(** [swap] exchanges the two heads' own links and nothing else. *)
Definition list_swap (σ : store) (head other : loc) : option store :=
  n ← link_next σ head;
  no ← link_next σ other;
  σ ← set_next σ head no;
  σ ← set_next σ other n;
  p ← link_prev σ head;
  po ← link_prev σ other;
  σ ← set_prev σ head po;
  set_prev σ other p.

(** Walking the list from [it] to the end, as a range-for over the container
    does; [fuel] bounds the number of increments. *)
Fixpoint list_walk (fuel : nat) (σ : store) (head it : loc) : option (list loc) :=
  if decide (it = head) then Some [] else
  match fuel with
  | 0 => None
  | S fuel => n ← iterator_next σ it; (it ::.) <$> list_walk fuel σ head n
  end.

(** ** Abstraction *)
Definition conn (σ : store) (a b : loc) : Prop :=
  link_next σ a = Some b ∧ link_prev σ b = Some a.

Fixpoint chain (σ : store) (a : loc) (l : list loc) (b : loc) : Prop :=
  match l with
  | [] => conn σ a b
  | x :: l => conn σ a x ∧ chain σ x l b
  end.

Definition is_list (σ : store) (head : loc) (l : list loc) : Prop :=
  NoDup (head :: l) ∧ chain σ head l head.

(** The object an iterator to position [l2] of a list denotes. *)
Definition pos_of (head : loc) (l2 : list loc) : loc := default head (hd_error l2).

(** ** Lemmas on single link updates *)
Lemma set_next_spec σ x v σ' :
  set_next σ x v = Some σ' ↔
  is_Some (σ !! x) ∧ σ' = <[x := Link v (default 0 (link_prev σ x))]> σ.
Proof.
  unfold set_next, link_prev. destruct (σ !! x) as [l|] eqn:E; simpl.
  - split; [intros [= <-]; eauto | intros [_ ->]; done].
  - split; [done | intros [[? [=]] _]].
Qed.

Lemma set_prev_spec σ x v σ' :
  set_prev σ x v = Some σ' ↔
  is_Some (σ !! x) ∧ σ' = <[x := Link (default 0 (link_next σ x)) v]> σ.
Proof.
  unfold set_prev, link_next. destruct (σ !! x) as [l|] eqn:E; simpl.
  - split; [intros [= <-]; eauto | intros [_ ->]; done].
  - split; [done | intros [[? [=]] _]].
Qed.

Lemma set_next_total σ x v :
  is_Some (σ !! x) → ∃ σ', set_next σ x v = Some σ' ∧
    (∀ y, link_next σ' y = if decide (y = x) then Some v else link_next σ y) ∧
    (∀ y, link_prev σ' y = link_prev σ y) ∧
    (∀ y, y ≠ x → σ' !! y = σ !! y) ∧ dom σ' = dom σ.
Proof.
  intros [l Hl]. exists (<[x := Link v (d_prev l)]> σ).
  unfold set_next, link_next, link_prev. rewrite Hl. split; [done|].
  split_and!; intros.
  - rewrite lookup_insert. repeat case_decide; naive_solver.
  - rewrite lookup_insert. case_decide; subst; [by rewrite Hl|done].
  - by rewrite lookup_insert_ne.
  - rewrite dom_insert_L. apply elem_of_dom_2 in Hl. set_solver.
Qed.

Lemma set_prev_total σ x v :
  is_Some (σ !! x) → ∃ σ', set_prev σ x v = Some σ' ∧
    (∀ y, link_prev σ' y = if decide (y = x) then Some v else link_prev σ y) ∧
    (∀ y, link_next σ' y = link_next σ y) ∧
    (∀ y, y ≠ x → σ' !! y = σ !! y) ∧ dom σ' = dom σ.
Proof.
  intros [l Hl]. exists (<[x := Link (d_next l) v]> σ).
  unfold set_prev, link_next, link_prev. rewrite Hl. split; [done|].
  split_and!; intros.
  - rewrite lookup_insert. repeat case_decide; naive_solver.
  - rewrite lookup_insert. case_decide; subst; [by rewrite Hl|done].
  - by rewrite lookup_insert_ne.
  - rewrite dom_insert_L. apply elem_of_dom_2 in Hl. set_solver.
Qed.

Lemma link_next_is_Some σ x : is_Some (link_next σ x) ↔ x ∈ dom σ.
Proof. unfold link_next. rewrite elem_of_dom. by rewrite fmap_is_Some. Qed.

Lemma link_prev_is_Some σ x : is_Some (link_prev σ x) ↔ x ∈ dom σ.
Proof. unfold link_prev. rewrite elem_of_dom. by rewrite fmap_is_Some. Qed.

Lemma conn_dom σ a b : conn σ a b → a ∈ dom σ ∧ b ∈ dom σ.
Proof.
  intros [H1 H2]. rewrite <-link_next_is_Some, <-link_prev_is_Some. eauto.
Qed.

(** ** Lemmas on chains *)
Lemma chain_app σ a l1 x l2 b :
  chain σ a (l1 ++ x :: l2) b ↔ chain σ a l1 x ∧ chain σ x l2 b.
Proof. revert a. induction l1 as [|y l1 IH]; intros a; simpl; [done|]. rewrite IH. tauto. Qed.

Lemma chain_head σ a l b : chain σ a l b → link_next σ a = Some (default b (hd_error l)).
Proof. destruct l; simpl; unfold conn; naive_solver. Qed.

Lemma chain_last σ a l b : chain σ a l b → link_prev σ b = Some (default a (last l)).
Proof.
  destruct l as [|x l _] using rev_ind; simpl; [unfold conn; naive_solver|].
  rewrite last_snoc, chain_app; simpl. unfold conn. naive_solver.
Qed.

Lemma chain_dom σ a l b : chain σ a l b → a ∈ dom σ ∧ b ∈ dom σ ∧ Forall (.∈ dom σ) l.
Proof.
  revert a. induction l as [|x l IH]; intros a; simpl.
  - intros [??]%conn_dom. eauto.
  - intros [[Ha Hx]%conn_dom Hl%IH]. naive_solver.
Qed.

(** A chain looks only at the [next] of its sources and the [prev] of its
    targets. *)
Lemma chain_ext σ σ' a l b :
  (∀ y, y ∈ a :: l → link_next σ' y = link_next σ y) →
  (∀ y, y ∈ l ++ [b] → link_prev σ' y = link_prev σ y) →
  chain σ a l b → chain σ' a l b.
Proof.
  revert a. induction l as [|x l IH]; intros a Hn Hp; simpl; unfold conn.
  - rewrite Hn, Hp by set_solver. done.
  - rewrite Hn, Hp by set_solver. intros [? ?]. split; [done|].
    apply IH; [| |done]; set_solver.
Qed.

Lemma is_list_frame σ σ' head l :
  (∀ y, y ∈ head :: l → σ' !! y = σ !! y) → is_list σ head l → is_list σ' head l.
Proof.
  intros Heq [Hnd Hc]. split; [done|].
  eapply chain_ext; [| |done]; intros y Hy; unfold link_next, link_prev;
    rewrite Heq; set_solver.
Qed.

Lemma is_list_dom σ head l : is_list σ head l → Forall (.∈ dom σ) (head :: l).
Proof. intros [_ (?&?&?)%chain_dom]. by constructor. Qed.

(** The node before and the node after the cut of a chain. *)
Definition prev_of (a : loc) (l1 : list loc) : loc := default a (last l1).

Lemma prev_of_elem a l : prev_of a l ∈ a :: l.
Proof. unfold prev_of. destruct (last l) eqn:E; simpl; [apply elem_of_last in E|]; set_solver. Qed.

Lemma pos_of_elem b l : pos_of b l ∈ b :: l.
Proof. unfold pos_of. destruct l; set_solver. Qed.

Lemma chain_split σ a l1 l2 b :
  chain σ a (l1 ++ l2) b ↔ chain σ a l1 (pos_of b l2) ∧ chain σ (prev_of a l1) l2 b.
Proof.
  revert a. induction l1 as [|x l1 IH]; intros a; simpl.
  - split; [|tauto]. intros Hc. split; [|done].
    destruct l2; simpl in *; tauto.
  - rewrite IH. unfold prev_of. simpl. rewrite last_cons.
    destruct (last l1); simpl; tauto.
Qed.

(** Redirecting the last link of a chain. *)
Lemma chain_set_last σ σ' a l b b' :
  chain σ a l b → NoDup (a :: l) →
  (∀ y, y ∈ a :: l → y ≠ prev_of a l → link_next σ' y = link_next σ y) →
  (∀ y, y ∈ l → link_prev σ' y = link_prev σ y) →
  conn σ' (prev_of a l) b' → chain σ' a l b'.
Proof.
  intros Hc Hnd Hn Hp Hconn. destruct l as [|z l _] using rev_ind; [done|].
  unfold prev_of in *. rewrite last_snoc in *. simpl in *.
  rewrite chain_app in Hc |- *. split; [|done].
  rewrite app_comm_cons in Hnd. apply NoDup_app in Hnd as (_ & Hdis & _).
  eapply chain_ext; [| |apply Hc]; intros y Hy.
  - apply Hn; [set_solver|]. intros ->. apply (Hdis z); set_solver.
  - apply Hp. done.
Qed.

(** Redirecting the first link of a chain. *)
Lemma chain_set_head σ σ' a a' l b :
  chain σ a l b → NoDup (b :: l) →
  (∀ y, y ∈ l → link_next σ' y = link_next σ y) →
  (∀ y, y ∈ b :: l → y ≠ pos_of b l → link_prev σ' y = link_prev σ y) →
  conn σ' a' (pos_of b l) → chain σ' a' l b.
Proof.
  intros Hc Hnd Hn Hp Hconn. destruct l as [|z l]; [done|]. simpl in *.
  split; [done|]. apply NoDup_cons in Hnd as [Hb [Hz Hnd]%NoDup_cons].
  eapply chain_ext; [| |apply Hc]; intros y Hy.
  - by apply Hn.
  - apply Hp; [set_solver|]. set_solver.
Qed.

(** ** What [insert] and [erase] do to the links *)
Lemma list_insert_links σ pos p x :
  link_prev σ pos = Some p → p ∈ dom σ → x ∈ dom σ → x ≠ pos → x ≠ p →
  ∃ σ', list_insert σ pos x = Some (σ', x) ∧
    (∀ y, link_next σ' y = if decide (y = p) then Some x else
                           if decide (y = x) then Some pos else link_next σ y) ∧
    (∀ y, link_prev σ' y = if decide (y = pos) then Some x else
                           if decide (y = x) then Some p else link_prev σ y) ∧
    (∀ y, y ∉ [p; pos; x] → σ' !! y = σ !! y) ∧ dom σ' = dom σ.
Proof.
  intros Hp Hpd Hx Hxpos Hxp.
  assert (Hposd : pos ∈ dom σ) by (apply link_prev_is_Some; eauto).
  unfold list_insert.
  destruct (set_next_total σ x pos) as (σ1 & -> & Hn1 & Hp1 & Hf1 & Hd1);
    [by apply elem_of_dom|]; simpl.
  rewrite Hp1, Hp; simpl.
  destruct (set_prev_total σ1 x p) as (σ2 & -> & Hp2 & Hn2 & Hf2 & Hd2);
    [apply elem_of_dom; congruence|]; simpl.
  destruct (set_prev_total σ2 pos x) as (σ3 & -> & Hp3 & Hn3 & Hf3 & Hd3);
    [apply elem_of_dom; congruence|]; simpl.
  rewrite Hp3, Hp2. rewrite decide_False, decide_True by done; simpl.
  destruct (set_next_total σ3 p x) as (σ4 & -> & Hn4 & Hp4 & Hf4 & Hd4);
    [apply elem_of_dom; congruence|]; simpl.
  exists σ4. split_and!; [done|..].
  - intros y. rewrite Hn4, Hn3, Hn2, Hn1. done.
  - intros y. rewrite Hp4, Hp3, Hp2, Hp1. done.
  - intros y Hy. rewrite Hf4, Hf3, Hf2, Hf1 by set_solver. done.
  - congruence.
Qed.

Lemma list_erase_links σ pos p n :
  link_prev σ pos = Some p → link_next σ pos = Some n → p ∈ dom σ → n ∈ dom σ →
  (p = pos → n = pos) →
  ∃ σ', list_erase σ pos = Some σ' ∧
    (∀ y, link_next σ' y = if decide (y = pos) then Some pos else
                           if decide (y = p) then Some n else link_next σ y) ∧
    (∀ y, link_prev σ' y = if decide (y = pos) then Some pos else
                           if decide (y = n) then Some p else link_prev σ y) ∧
    (∀ y, y ∉ [p; n; pos] → σ' !! y = σ !! y) ∧ dom σ' = dom σ.
Proof.
  intros Hp Hn Hpd Hnd Hself.
  assert (Hposd : pos ∈ dom σ) by (apply link_prev_is_Some; eauto).
  unfold list_erase. rewrite Hp, Hn; simpl.
  destruct (set_next_total σ p n) as (σ1 & -> & Hn1 & Hp1 & Hf1 & Hd1);
    [by apply elem_of_dom|]; simpl.
  assert (link_next σ1 pos = Some n) as ->.
  { rewrite Hn1. case_decide; naive_solver. }
  simpl. rewrite Hp1, Hp; simpl.
  destruct (set_prev_total σ1 n p) as (σ2 & -> & Hp2 & Hn2 & Hf2 & Hd2);
    [apply elem_of_dom; congruence|]; simpl.
  destruct (set_prev_total σ2 pos pos) as (σ3 & -> & Hp3 & Hn3 & Hf3 & Hd3);
    [apply elem_of_dom; congruence|]; simpl.
  destruct (set_next_total σ3 pos pos) as (σ4 & -> & Hn4 & Hp4 & Hf4 & Hd4);
    [apply elem_of_dom; congruence|]; simpl.
  exists σ4. split_and!; [done|..].
  - intros y. rewrite Hn4, Hn3, Hn2, Hn1. done.
  - intros y. rewrite Hp4, Hp3, Hp2, Hp1. done.
  - intros y Hy. rewrite Hf4, Hf3, Hf2, Hf1 by set_solver. done.
  - congruence.
Qed.

(** ** Functional correctness of the operations *)

(** Freshness and disjointness goals on node addresses: subst the equalities
    first, then decide membership. *)
Ltac node_solver :=
  simplify_eq; first [done | congruence | set_solver].

Lemma is_list_cut σ head l1 l2 :
  is_list σ head (l1 ++ l2) ↔
  NoDup (head :: l1 ++ l2) ∧ chain σ head l1 (pos_of head l2) ∧
  chain σ (prev_of head l1) l2 head.
Proof. unfold is_list. by rewrite chain_split. Qed.

Lemma list_insert_spec σ head l1 l2 x :
  is_list σ head (l1 ++ l2) → x ∈ dom σ → x ∉ head :: l1 ++ l2 →
  ∃ σ', list_insert σ (pos_of head l2) x = Some (σ', x) ∧
    is_list σ' head (l1 ++ x :: l2) ∧ dom σ' = dom σ ∧
    (∀ y, y ∉ head :: x :: l1 ++ l2 → σ' !! y = σ !! y).
Proof.
  intros Hl Hx Hfresh.
  pose proof (is_list_dom _ _ _ Hl) as Hdom. rewrite Forall_forall in Hdom.
  apply is_list_cut in Hl as (Hnd & Hc1 & Hc2).
  pose proof (prev_of_elem head l1). pose proof (pos_of_elem head l2).
  destruct (list_insert_links σ (pos_of head l2) (prev_of head l1) x)
    as (σ' & Hins & Hn & Hp & Hf & Hd);
    [by apply chain_last in Hc1 | set_solver | done | set_solver | set_solver |].
  apply NoDup_cons in Hnd as [Hh (Hnd1 & Hdis & Hnd2)%NoDup_app].
  assert (pos_of head l2 ∉ l1) by (destruct l2; set_solver).
  assert (Hp2 : prev_of head l1 ∉ l2).
  { unfold prev_of. destruct (last l1) eqn:E; simpl; [apply elem_of_last in E|]; set_solver. }
  exists σ'. split_and!; [done| |done|intros y Hy; apply Hf; set_solver].
  split; [rewrite NoDup_cons, NoDup_app, NoDup_cons; set_solver|].
  apply chain_app. split.
  - eapply chain_set_last; [exact Hc1| | | |]; unfold conn; intros;
      rewrite ?Hn, ?Hp, ?NoDup_cons; split_ifs; node_solver.
  - eapply chain_set_head; [exact Hc2| | | |]; unfold conn; intros;
      rewrite ?Hn, ?Hp, ?NoDup_cons; split_ifs; node_solver.
Qed.

Lemma list_erase_spec σ head l1 x l2 :
  is_list σ head (l1 ++ x :: l2) →
  ∃ σ', list_erase σ x = Some σ' ∧ is_list σ' head (l1 ++ l2) ∧
    σ' !! x = Some (Link x x) ∧ dom σ' = dom σ ∧
    (∀ y, y ∉ head :: l1 ++ x :: l2 → σ' !! y = σ !! y).
Proof.
  intros Hl.
  pose proof (is_list_dom _ _ _ Hl) as Hdom. rewrite Forall_forall in Hdom.
  destruct Hl as [Hnd [Hc1 Hc2]%chain_app].
  pose proof (prev_of_elem head l1). pose proof (pos_of_elem head l2).
  destruct (list_erase_links σ x (prev_of head l1) (pos_of head l2))
    as (σ' & Her & Hn & Hp & Hf & Hd);
    [by apply chain_last in Hc1 | by apply chain_head in Hc2 | set_solver | set_solver | |].
  { intros Heq. apply NoDup_cons in Hnd as [Hh (Hnd1 & Hdis & Hnd2)%NoDup_app]. set_solver. }
  apply NoDup_cons in Hnd as [Hh (Hnd1 & Hdis & [Hx Hnd2]%NoDup_cons)%NoDup_app].
  assert (pos_of head l2 ∉ l1) by (destruct l2; set_solver).
  assert (prev_of head l1 ∉ l2).
  { unfold prev_of. destruct (last l1) eqn:E; simpl; [apply elem_of_last in E|]; set_solver. }
  exists σ'. split_and!; [done| | |done|intros y Hy; apply Hf; set_solver].
  - split; [rewrite NoDup_cons, NoDup_app; set_solver|].
    apply chain_split. split.
    + eapply chain_set_last; [exact Hc1| | | |]; unfold conn; intros;
        rewrite ?Hn, ?Hp, ?NoDup_cons; split_ifs; node_solver.
    + eapply chain_set_head; [exact Hc2| | | |]; unfold conn; intros;
        rewrite ?Hn, ?Hp, ?NoDup_cons; split_ifs; node_solver.
  - specialize (Hn x); specialize (Hp x). rewrite decide_True in Hn, Hp by done.
    unfold link_next, link_prev in *. destruct (σ' !! x) as [[]|]; naive_solver.
Qed.

Lemma list_ctor_spec σ head :
  head ∈ dom σ →
  ∃ σ', list_ctor σ head = Some σ' ∧ is_list σ' head [] ∧ dom σ' = dom σ ∧
    (∀ y, y ≠ head → σ' !! y = σ !! y).
Proof.
  intros Hh. unfold list_ctor, list_connect.
  destruct (set_next_total σ head head) as (σ1 & -> & Hn1 & Hp1 & Hf1 & Hd1);
    [by apply elem_of_dom|]; simpl.
  destruct (set_prev_total σ1 head head) as (σ2 & -> & Hp2 & Hn2 & Hf2 & Hd2);
    [apply elem_of_dom; congruence|]; simpl.
  exists σ2. split_and!; [done| |congruence|intros; by rewrite Hf2, Hf1].
  split; [apply NoDup_singleton|]. split; [rewrite Hn2, Hn1|rewrite Hp2]; by rewrite decide_True.
Qed.

Lemma list_push_back_spec σ head l x :
  is_list σ head l → x ∈ dom σ → x ∉ head :: l →
  ∃ σ', list_push_back σ head x = Some σ' ∧ is_list σ' head (l ++ [x]) ∧
    dom σ' = dom σ ∧ (∀ y, y ∉ head :: x :: l → σ' !! y = σ !! y).
Proof.
  intros Hl Hx Hfresh. unfold list_push_back, list_end.
  destruct (list_insert_spec σ head l [] x) as (σ' & Hins & Hl' & Hd & Hf);
    rewrite ?app_nil_r; try done.
  unfold pos_of in Hins; simpl in Hins. rewrite Hins; simpl.
  exists σ'. rewrite app_nil_r in Hf. done.
Qed.

Lemma list_front_spec σ head x l : is_list σ head (x :: l) → list_front σ head = Some x.
Proof. intros [_ Hc]. by apply chain_head in Hc. Qed.

Lemma list_empty_spec σ head l :
  is_list σ head l → list_empty σ head = Some (bool_decide (l = [])).
Proof.
  intros [Hnd Hc]. unfold list_empty. rewrite (chain_head _ _ _ _ Hc); simpl.
  destruct l as [|x l]; simpl; [by rewrite !bool_decide_true|].
  rewrite !bool_decide_false; [done..|]. intros ->. apply NoDup_cons in Hnd. set_solver.
Qed.

Lemma list_pop_front_spec σ head x l :
  is_list σ head (x :: l) →
  ∃ σ', list_pop_front σ head = Some σ' ∧ is_list σ' head l ∧
    σ' !! x = Some (Link x x) ∧ dom σ' = dom σ ∧
    (∀ y, y ∉ head :: x :: l → σ' !! y = σ !! y).
Proof.
  intros Hl. unfold list_pop_front, list_begin.
  destruct Hl as [Hnd Hc]. rewrite (chain_head _ _ _ _ Hc); simpl.
  apply (list_erase_spec σ head [] x l). by split.
Qed.

(** Popping an empty list is harmless: it unlinks the head from itself. *)
Lemma list_pop_front_empty σ head : is_list σ head [] → list_pop_front σ head = Some σ.
Proof.
  intros [_ [Hn Hp]]. unfold list_pop_front, list_begin. rewrite Hn; simpl.
  unfold link_next, link_prev in *. destruct (σ !! head) as [[n p]|] eqn:E; [|done].
  simplify_eq/=. unfold list_erase, link_next, link_prev, set_next, set_prev.
  repeat (rewrite ?E, ?lookup_insert_eq, ?insert_insert_eq; simpl).
  by rewrite insert_id.
Qed.

(** A range-for over the list visits the elements in order and stops. *)
Lemma chain_walk σ head a l :
  chain σ a l head → head ∉ l →
  ∃ it, link_next σ a = Some it ∧ list_walk (length l) σ head it = Some l.
Proof.
  revert a. induction l as [|x l IH]; intros a; simpl.
  - intros [Hn _] _. exists head. split; [done|]. simpl. by rewrite decide_True.
  - intros [[Hn _] Hc] Hh. exists x. split; [done|].
    rewrite decide_False by set_solver. unfold iterator_next.
    destruct (IH x Hc) as (it & -> & Hw); [set_solver|]. simpl. by rewrite Hw.
Qed.

(** A range-for over a list visits exactly its elements, in order, and
    reaches the end after as many increments as there are elements. *)
Theorem list_walk_spec σ head l :
  is_list σ head l →
  ∃ it, list_begin σ head = Some it ∧ list_walk (length l) σ head it = Some l.
Proof. intros [[Hh _]%NoDup_cons Hc]. by apply chain_walk. Qed.

(** ** Moving and swapping *)
Lemma list_connect_links σ a b :
  a ∈ dom σ → b ∈ dom σ →
  ∃ σ', list_connect σ a b = Some σ' ∧
    (∀ y, link_next σ' y = if decide (y = a) then Some b else link_next σ y) ∧
    (∀ y, link_prev σ' y = if decide (y = b) then Some a else link_prev σ y) ∧
    dom σ' = dom σ.
Proof.
  intros Ha Hb. unfold list_connect.
  destruct (set_next_total σ a b) as (σ1 & -> & Hn1 & Hp1 & Hf1 & Hd1);
    [by apply elem_of_dom|]; simpl.
  destruct (set_prev_total σ1 b a) as (σ2 & -> & Hp2 & Hn2 & Hf2 & Hd2);
    [apply elem_of_dom; congruence|]; simpl.
  exists σ2. split_and!; [done| | |congruence]; intros y.
  - by rewrite Hn2, Hn1.
  - by rewrite Hp2, Hp1.
Qed.

(** The links after a move: the new head is spliced in, the old head keeps
    what it had, except that moving from an empty list redirects its own
    [prev]. *)
Lemma list_move_links σ head other l :
  is_list σ other l → head ∈ dom σ → head ∉ other :: l →
  ∃ σ', list_move_ctor σ head other = Some σ' ∧ dom σ' = dom σ ∧
    is_list σ' head l ∧ link_next σ' other = Some (pos_of other l) ∧
    link_prev σ' (pos_of other l) = Some head.
Proof.
  intros Hl Hh Hfresh. pose proof (is_list_dom _ _ _ Hl) as Hdom.
  rewrite Forall_forall in Hdom. destruct Hl as [Hnd Hc].
  pose proof (prev_of_elem other l). pose proof (pos_of_elem other l).
  pose proof (chain_head _ _ _ _ Hc) as Hnext.
  pose proof (chain_last _ _ _ _ Hc) as Hprev.
  change (default other (hd_error l)) with (pos_of other l) in Hnext.
  change (default other (last l)) with (prev_of other l) in Hprev.
  unfold list_move_ctor. rewrite Hnext; simpl.
  destruct (list_connect_links σ head (pos_of other l)) as (σ1 & -> & Hn1 & Hp1 & Hd1);
    [done|by apply Hdom|]; simpl.
  rewrite Hp1, Hprev.
  destruct l as [|x l]; simpl in *.
  - rewrite decide_True by done; simpl.
    destruct (list_connect_links σ1 head head) as (σ2 & -> & Hn2 & Hp2 & Hd2); [congruence..|].
    exists σ2. split_and!; [done|congruence| | |].
    + split; [apply NoDup_singleton|]. split; [rewrite Hn2|rewrite Hp2]; by rewrite decide_True.
    + rewrite Hn2, Hn1, !decide_False by set_solver. done.
    + rewrite Hp2, Hp1, decide_False, decide_True by set_solver. done.
  - assert (other ≠ x) by (intros ->; apply NoDup_cons in Hnd as [Ho _]; apply Ho; left).
    assert (head ≠ other) by (intros ->; apply Hfresh; left).
    rewrite decide_False by done; simpl.
    destruct (list_connect_links σ1 (prev_of other (x :: l)) head)
      as (σ2 & -> & Hn2 & Hp2 & Hd2); [rewrite Hd1; by apply Hdom|by rewrite Hd1|].
    assert (Hxl : prev_of other (x :: l) = prev_of x l)
      by (unfold prev_of; rewrite last_cons; by destruct (last l)).
    pose proof (prev_of_elem x l) as Hpx. apply NoDup_cons in Hnd as [Ho Hnd].
    assert (head ≠ x) by (intros ->; apply Hfresh; by right; left).
    assert (head ≠ prev_of x l) by (intros Heq; apply Hfresh; right; by rewrite Heq).
    exists σ2. split_and!; [done|congruence| | |].
    + split; [apply NoDup_cons; split; [intros ?; apply Hfresh; by right|done]|]. split.
      * split; [rewrite Hn2, Hn1, decide_False, decide_True
               |rewrite Hp2, Hp1, decide_False, decide_True]; try done; congruence.
      * rewrite Hxl in *. eapply chain_set_last; [apply Hc|done| | |].
        -- intros y Hy Hne. rewrite Hn2, Hn1, !decide_False; [done| |done].
           intros ->. apply Hfresh. by right.
        -- intros y Hy. rewrite Hp2, Hp1, !decide_False; [done| |].
           ++ intros ->. by apply NoDup_cons in Hnd as [? _].
           ++ intros ->. apply Hfresh. by do 2 right.
        -- split; [rewrite Hn2|rewrite Hp2]; by rewrite decide_True.
    + rewrite Hn2, Hn1, Hxl, !decide_False; [done|congruence|congruence].
    + rewrite Hp2, Hp1, decide_False, decide_True; congruence.
Qed.

(** Move construction and move assignment hand all elements over in order,
    but they do not reset the source: the moved-from head still claims to be
    non-empty exactly if it was, and its links are not those of any list - not
    even of the empty one. *)
Theorem list_move_spec σ head other l :
  is_list σ other l → head ∈ dom σ → head ∉ other :: l →
  ∃ σ', list_move_ctor σ head other = Some σ' ∧
    list_move_assign σ head other = Some σ' ∧ is_list σ' head l ∧
    list_empty σ' other = Some (bool_decide (l = [])) ∧ ∀ l', ¬ is_list σ' other l'.
Proof.
  intros Hl Hh Hfresh. pose proof Hl as [Hnd _].
  destruct (list_move_links σ head other l) as (σ' & Hm & Hd & Hl' & Hn & Hp); [done..|].
  exists σ'. split_and!; [done|done|done| |].
  - unfold list_empty. rewrite Hn; simpl. f_equal. apply bool_decide_ext.
    destruct l as [|x l]; simpl; [done|]. split; [intros Heq|done].
    exfalso. apply NoDup_cons in Hnd as [Ho _]. apply Ho. rewrite Heq. left.
  - intros l' [_ Hc']. pose proof (chain_head _ _ _ _ Hc') as Hn'.
    rewrite Hn in Hn'. apply (inj Some) in Hn' as Hpos. rewrite Hpos in Hp.
    assert (link_prev σ' (default other (hd_error l')) = Some other) as Hbad
      by (destruct l'; apply Hc').
    rewrite Hp in Hbad. injection Hbad as ->. apply Hfresh. left.
Qed.

Lemma list_swap_links σ a b na nb pa pb :
  a ≠ b → σ !! a = Some (Link na pa) → σ !! b = Some (Link nb pb) →
  list_swap σ a b = Some (<[b := Link na pa]> (<[a := Link nb pb]> σ)).
Proof.
  intros Hne Ha Hb.
  unfold list_swap, link_next, link_prev, set_next, set_prev.
  repeat (rewrite ?Ha, ?Hb, ?lookup_insert_eq, ?lookup_insert_ne by done; simpl).
  f_equal. apply map_eq. intros y. rewrite !lookup_insert. by repeat case_decide.
Qed.

(** [swap] never swaps: the neighbours are not relinked, so after swapping
    two distinct lists the first head is not the head of any list, unless both
    were empty - and then it is the head of the one-element list holding the
    other head. *)
Theorem list_swap_spec σ a b la lb :
  is_list σ a la → is_list σ b lb → a ≠ b →
  (∀ y, y ∈ la → y ≠ b) → (∀ y, y ∈ lb → y ≠ a) →
  ∃ σ', list_swap σ a b = Some σ' ∧
    ∀ l, is_list σ' a l ↔ la = [] ∧ lb = [] ∧ l = [b].
Proof.
  intros [Hnda Hca] [Hndb Hcb] Hne Hb Ha.
  pose proof (chain_head _ _ _ _ Hca) as Hna. pose proof (chain_last _ _ _ _ Hca) as Hpa.
  pose proof (chain_head _ _ _ _ Hcb) as Hnb. pose proof (chain_last _ _ _ _ Hcb) as Hpb.
  unfold link_next, link_prev in Hna, Hpa, Hnb, Hpb.
  destruct (σ !! a) as [[na pa]|] eqn:Ea; [|done].
  destruct (σ !! b) as [[nb pb]|] eqn:Eb; [|done]. simplify_eq/=.
  rewrite (list_swap_links _ _ _ _ _ _ _ Hne Ea Eb). eexists; split; [done|].
  assert (Hconn : ∀ x, conn (<[b:=Link (default a (hd_error la)) (default a (last la))]>
      (<[a:=Link (default b (hd_error lb)) (default b (last lb))]> σ)) a x →
      x = b ∧ lb = [] ∧ la = []).
  { intros x [Hn Hp]. unfold link_next, link_prev in *.
    rewrite lookup_insert_ne, lookup_insert_eq in Hn by done. simplify_eq/=.
    destruct lb as [|y lb]; simpl in *.
    - rewrite lookup_insert_eq in Hp. simplify_eq/=. split_and!; [done..|].
      destruct la as [|z la _] using rev_ind; [done|].
      rewrite last_snoc in *. simplify_eq/=. apply NoDup_cons in Hnda. set_solver.
    - exfalso. destruct Hcb as [[_ Hy] _]. unfold link_prev in Hy.
      assert (y ≠ b) by (apply NoDup_cons in Hndb; set_solver).
      assert (y ≠ a) by (apply Ha; set_solver).
      rewrite !lookup_insert_ne in Hp by done. congruence. }
  intros l. split.
  - intros [Hnd Hc]. destruct l as [|x l]; simpl in Hc.
    + by destruct (Hconn a Hc).
    + destruct Hc as [Hx Hc]. destruct (Hconn x Hx) as (-> & -> & ->).
      split_and!; [done..|]. f_equal.
      pose proof (chain_head _ _ _ _ Hc) as Hn. unfold link_next in Hn.
      rewrite lookup_insert_eq in Hn. destruct l as [|z l]; [done|].
      simpl in Hn. injection Hn as Hz. exfalso.
      apply NoDup_cons in Hnd as [Hnd _]. apply Hnd. rewrite Hz. right; left.
  - intros (-> & -> & ->). split; [apply NoDup_cons; split; [|apply NoDup_singleton];
      by intros ?%list_elem_of_singleton|].
    simpl. unfold conn, link_next, link_prev.
    repeat (rewrite ?lookup_insert_eq, ?lookup_insert_ne by done; simpl). done.
Qed.

(** Object addresses for the witnesses: two heads and three elements. *)
Definition demo_store : store :=
  list_to_map [(1, Link 1 1); (2, Link 2 2); (11, Link 0 0); (12, Link 0 0); (13, Link 0 0)].

Lemma demo_is_list : is_list demo_store 1 [] ∧ is_list demo_store 2 [].
Proof. split; (split; [apply NoDup_singleton|by split]). Qed.

(** The list of nodes 11, 12 headed by 1. *)
Definition demo_two : store :=
  list_to_map [(1, Link 11 12); (2, Link 2 2); (11, Link 12 1); (12, Link 1 11); (13, Link 0 0)].

Lemma demo_two_is_list : is_list demo_two 1 [11; 12].
Proof.
  split; [|by repeat split]. by apply (bool_decide_unpack _).
Qed.

Lemma list_walk_spec_witness :
  ∃ it, list_begin demo_two 1 = Some it ∧ list_walk 2 demo_two 1 it = Some [11; 12].
Proof. exact (list_walk_spec demo_two 1 [11; 12] demo_two_is_list). Defined.

Lemma list_move_spec_witness :
  ∃ σ', list_move_ctor demo_two 13 1 = Some σ' ∧
    list_move_assign demo_two 13 1 = Some σ' ∧ is_list σ' 13 [11; 12] ∧
    list_empty σ' 1 = Some false ∧ ∀ l', ¬ is_list σ' 1 l'.
Proof.
  apply (list_move_spec demo_two 13 1 [11; 12] demo_two_is_list);
    by apply (bool_decide_unpack _).
Defined.

Lemma list_swap_spec_witness :
  ∃ σ', list_swap demo_two 1 2 = Some σ' ∧
    ∀ l, is_list σ' 1 l ↔ [11; 12] = [] ∧ [] =@{list loc} [] ∧ l = [2].
Proof.
  apply (list_swap_spec demo_two 1 2 [11; 12] [] demo_two_is_list);
    [split; [apply NoDup_singleton|by split]|done|by intros y Hy ->; revert Hy; apply (bool_decide_unpack _)|by intros y ?%elem_of_nil].
Defined.

Lemma list_erase_detached σ x : σ !! x = Some (Link x x) → list_erase σ x = Some σ.
Proof.
  intros Hx. unfold list_erase, link_prev, link_next, set_next, set_prev.
  repeat (rewrite Hx; simpl; rewrite ?(insert_id σ x (Link x x) Hx)). done.
Qed.

(** ** The interface clients use

    [run_loop], [stop_state], [observer_context] and [async_scope] need a
    queue of objects identified by their addresses: emptiness, first element,
    adding at the end, removing the first or a given element. [QueueSpec]
    states what they rely on; the list above is an instance. *)
Class QueueOps := {
  q_empty : store → loc → option bool;
  q_front : store → loc → option loc;
  q_push_back : store → loc → loc → option store;
  q_pop_front : store → loc → option store;
  q_erase : store → loc → option store;
}.

Class QueueSpec (Q : QueueOps) := {
  q_repr : store → loc → list loc → Prop;
  (** An object that was taken off its list: erasing it again does nothing. *)
  q_detached : store → loc → Prop;
  q_detached_frame σ σ' x : σ' !! x = σ !! x → q_detached σ x → q_detached σ' x;
  q_erase_detached σ x : q_detached σ x → q_erase σ x = Some σ;
  q_repr_nodup σ h l : q_repr σ h l → NoDup (h :: l);
  q_repr_dom σ h l : q_repr σ h l → Forall (.∈ dom σ) (h :: l);
  q_repr_frame σ σ' h l :
    (∀ y, y ∈ h :: l → σ' !! y = σ !! y) → q_repr σ h l → q_repr σ' h l;
  q_empty_spec σ h l : q_repr σ h l → q_empty σ h = Some (bool_decide (l = []));
  q_front_spec σ h x l : q_repr σ h (x :: l) → q_front σ h = Some x;
  q_push_back_spec σ h l x :
    q_repr σ h l → x ∈ dom σ → x ∉ h :: l →
    ∃ σ', q_push_back σ h x = Some σ' ∧ q_repr σ' h (l ++ [x]) ∧ dom σ' = dom σ ∧
      (∀ y, y ∉ h :: x :: l → σ' !! y = σ !! y);
  q_pop_front_spec σ h x l :
    q_repr σ h (x :: l) →
    ∃ σ', q_pop_front σ h = Some σ' ∧ q_repr σ' h l ∧ q_detached σ' x ∧ dom σ' = dom σ ∧
      (∀ y, y ∉ h :: x :: l → σ' !! y = σ !! y);
  q_erase_spec σ h l1 x l2 :
    q_repr σ h (l1 ++ x :: l2) →
    ∃ σ', q_erase σ x = Some σ' ∧ q_repr σ' h (l1 ++ l2) ∧ q_detached σ' x ∧ dom σ' = dom σ ∧
      (∀ y, y ∉ h :: l1 ++ x :: l2 → σ' !! y = σ !! y);
}.

#[export] Instance intrusive_list_ops : QueueOps := {|
  q_empty := list_empty;
  q_front := list_front;
  q_push_back := list_push_back;
  q_pop_front := list_pop_front;
  q_erase := list_erase;
|}.

#[export, refine] Instance intrusive_list_queue : QueueSpec intrusive_list_ops := {|
  q_repr := is_list;
  q_detached σ x := σ !! x = Some (Link x x);
|}.
Proof.
  - by intros σ σ' x ->.
  - exact list_erase_detached.
  - by intros σ h l [? _].
  - exact is_list_dom.
  - exact is_list_frame.
  - exact list_empty_spec.
  - exact list_front_spec.
  - exact list_push_back_spec.
  - intros σ h x l (σ' & ? & ? & ? & ? & ?)%list_pop_front_spec. eauto 10.
  - intros σ h l1 x l2 (σ' & ? & ? & ? & ? & ?)%list_erase_spec. eauto 10.
Defined.

(** ** Refinement of sequences of operations *)
Inductive list_op :=
  | OpInsert (before : option loc) (x : loc)
  | OpPushBack (x : loc)
  | OpErase (x : loc)
  | OpPopFront.

(** The operation on the store. *)
Definition list_op_run (head : loc) (σ : store) (op : list_op) : option store :=
  match op with
  | OpInsert before x => fst <$> list_insert σ (default (list_end head) before) x
  | OpPushBack x => list_push_back σ head x
  | OpErase x => list_erase σ x
  | OpPopFront => list_pop_front σ head
  end.

(** The operation on the abstract list; [None] when its precondition fails:
    inserted objects are allocated, not the head and in no list position yet,
    the insertion point and the erased object are elements. *)
Definition split_at (x : loc) (l : list loc) : option (list loc * list loc) :=
  '(i, _) ← list_find (x =.) l; Some (take i l, drop (S i) l).

Definition list_op_spec (head : loc) (D : gset loc) (l : list loc) (op : list_op)
    : option (list loc) :=
  let fresh x := bool_decide (x ∈ D ∧ x ∉ head :: l) in
  match op with
  | OpInsert None x | OpPushBack x => if fresh x then Some (l ++ [x]) else None
  | OpInsert (Some y) x =>
      '(l1, l2) ← split_at y l;
      if fresh x then Some (l1 ++ x :: y :: l2) else None
  | OpErase x => '(l1, l2) ← split_at x l; Some (l1 ++ l2)
  | OpPopFront => match l with [] => None | _ :: l => Some l end
  end.

Definition list_ops_run (head : loc) : store → list list_op → option store :=
  foldl (λ m op, m ≫= λ σ, list_op_run head σ op) ∘ Some.
Definition list_ops_spec (head : loc) (D : gset loc) : list loc → list list_op → option (list loc) :=
  foldl (λ m op, m ≫= λ l, list_op_spec head D l op) ∘ Some.

Lemma split_at_Some x l l1 l2 : split_at x l = Some (l1, l2) → l = l1 ++ x :: l2.
Proof.
  unfold split_at. intros H. destruct (list_find _ _) as [[i y]|] eqn:E; simplify_eq/=.
  apply list_find_Some in E as (Hi & <- & _). by rewrite take_drop_middle.
Qed.

(** The nodes an operation sequence may touch. *)
Definition list_op_nodes (op : list_op) : list loc :=
  match op with OpInsert _ x | OpPushBack x | OpErase x => [x] | OpPopFront => [] end.

Lemma list_op_refine σ head D l op l' :
  is_list σ head l → D ⊆ dom σ → list_op_spec head D l op = Some l' →
  ∃ σ', list_op_run head σ op = Some σ' ∧ is_list σ' head l' ∧ dom σ' = dom σ ∧
    (∀ y, y ∉ head :: l ++ list_op_nodes op → σ' !! y = σ !! y) ∧
    (∀ y, y ∈ l' → y ∈ l ++ list_op_nodes op).
Proof.
  intros Hl HD. destruct op as [[y|] x|x|x|]; simpl; intros Hop.
  - destruct (split_at y l) as [[l1 l2]|] eqn:E; simplify_eq/=.
    apply split_at_Some in E as ->. case_bool_decide as Hx; simplify_eq/=. destruct Hx as [Hx Hf].
    destruct (list_insert_spec σ head l1 (y :: l2) x) as (σ' & Hi & Hl' & Hd & Hfr); [done|by apply HD|done|].
    unfold pos_of in Hi; simpl in Hi. rewrite Hi. exists σ'. split_and!; [done..| |set_solver].
    intros z Hz. apply Hfr. set_solver.
  - case_bool_decide as Hx; simplify_eq/=. destruct Hx as [Hx Hf].
    destruct (list_insert_spec σ head l [] x) as (σ' & Hi & Hl' & Hd & Hfr);
      rewrite ?app_nil_r; [done|by apply HD|done|].
    unfold pos_of in Hi; simpl in Hi. unfold list_end. rewrite Hi. rewrite app_nil_r in Hfr.
    exists σ'. split_and!; [done..| |set_solver]. intros z Hz. apply Hfr. set_solver.
  - case_bool_decide as Hx; simplify_eq/=. destruct Hx as [Hx Hf].
    destruct (list_push_back_spec σ head l x) as (σ' & Hi & Hl' & Hd & Hfr); [done|by apply HD|done|].
    exists σ'. split_and!; [done..| |set_solver]. intros z Hz. apply Hfr. set_solver.
  - destruct (split_at x l) as [[l1 l2]|] eqn:E; simplify_eq/=.
    apply split_at_Some in E as ->.
    destruct (list_erase_spec σ head l1 x l2) as (σ' & Hi & Hl' & _ & Hd & Hfr); [done|].
    exists σ'. split_and!; [done..| |set_solver]. intros z Hz. apply Hfr. set_solver.
  - destruct l as [|x l]; simplify_eq/=.
    destruct (list_pop_front_spec σ head x l') as (σ' & Hi & Hl' & _ & Hd & Hfr); [done|].
    exists σ'. split_and!; [done..| |set_solver]. intros z Hz. apply Hfr. set_solver.
Qed.

(** C13: any sequence of insert, push_back, erase and pop_front that is legal on
    the abstract list runs on the pointer representation without touching a
    dead object, leaves a well-linked circular list of exactly the abstract
    result, and changes no object outside the head, the elements and the
    operands (so other lists sharing the store survive). *)
Theorem list_ops_refinement σ head D l ops l' :
  is_list σ head l → D ⊆ dom σ → list_ops_spec head D l ops = Some l' →
  ∃ σ', list_ops_run head σ ops = Some σ' ∧ is_list σ' head l' ∧
    (∀ y, y ∉ head :: l ++ (ops ≫= list_op_nodes) → σ' !! y = σ !! y).
Proof.
  unfold list_ops_spec, list_ops_run; simpl.
  revert σ l. induction ops as [|op ops IH]; intros σ l Hl HD Hops; simpl in *.
  - simplify_eq. exists σ. done.
  - destruct (list_op_spec head D l op) as [l1|] eqn:E.
    2: { exfalso. clear -Hops. by induction ops. }
    destruct (list_op_refine σ head D l op l1) as (σ1 & Hr & Hl1 & Hd & Hf & Hin); [done..|].
    rewrite Hr. destruct (IH σ1 l1) as (σ' & Hrs & Hl' & Hf'); [done|by rewrite Hd|done|].
    exists σ'. split_and!; [done..|]. intros y Hy.
    rewrite Hf', Hf; [done|set_solver|]. intros Hin'. apply Hy.
    apply elem_of_cons in Hin' as [->|[Hin'|?]%elem_of_app]; [set_solver| |set_solver].
    apply Hin in Hin'. set_solver.
Qed.

Lemma list_ops_refinement_witness :
  let ops := [OpPushBack 11; OpPushBack 12; OpInsert (Some 12) 13; OpErase 11; OpPopFront] in
  list_ops_spec 1 {[11; 12; 13]} [] ops = Some [12] ∧
  ∃ σ', list_ops_run 1 demo_store ops = Some σ' ∧ is_list σ' 1 [12] ∧
    (∀ y, y ∉ 1 :: [] ++ (ops ≫= list_op_nodes) → σ' !! y = demo_store !! y).
Proof.
  split; [by vm_compute|]. apply (list_ops_refinement demo_store 1 {[11; 12; 13]} []).
  - split; [apply NoDup_singleton|by split].
  - by apply (bool_decide_unpack _).
  - by vm_compute.
Defined.
