(* ===== verification/Endian.v ===== *)
(** * nstd::endian

    Conversion of big-endian byte sequences to native values:
    src/src/nstd/endian/{type,literals,big_to_native}.hpp. An input iterator
    range is the list of the [char]s it yields; [*it] is a [char] of either
    signedness and is converted to [uint8_t]. The conversion returns the
    value and the rest of the range, or throws [std::range_error]. *)
From S2P Require Import Prelude.
Local Open Scope Z_scope.

(** ** type.hpp *)
Inductive endian_type :=
  | uint8 | uint16 | uint32 | uint64
  | int8 | int16 | int32 | int64
  | float32 | float64.

(** [type_map]: the width, signedness and integrality of the native type. *)
Definition type_bytes (T : endian_type) : nat :=
  match T with
  | uint8 | int8 => 1
  | uint16 | int16 => 2
  | uint32 | int32 | float32 => 4
  | uint64 | int64 | float64 => 8
  end.
Definition type_bits (T : endian_type) : Z := 8 * Z.of_nat (type_bytes T).
Definition type_signed (T : endian_type) : bool :=
  match T with uint8 | uint16 | uint32 | uint64 => false | _ => true end.
Definition is_integer (T : endian_type) : bool :=
  match T with float32 | float64 => false | _ => true end.

(** ** literals.hpp: [type{}] is the enumerator 0, [uint8]. *)
Definition literal_eu (value : Z) : endian_type :=
  if value =? 8 then uint8 else if value =? 16 then uint16
  else if value =? 32 then uint32 else if value =? 64 then uint64 else uint8.
Definition literal_es (value : Z) : endian_type :=
  if value =? 8 then int8 else if value =? 16 then int16
  else if value =? 32 then int32 else if value =? 64 then int64 else uint8.
Definition literal_ef (value : Z) : endian_type :=
  if value =? 32 then float32 else if value =? 64 then float64 else uint8.

(** ** big_to_native.hpp *)

(** The integer conversion: [i] iterations remain, [value] is the accumulator
    of the unsigned type of width [w]. *)
Fixpoint convert_int_loop (w : Z) (i : nat) (value : Z) (it : list Z) : result (Z * list Z) :=
  match i with
  | O => Ok (value, it)
  | S i =>
      match it with
      | [] => Throw range_error
      | b :: it => convert_int_loop w i (wrapu w (Z.lor (Z.shiftl value 8) (wrapu 8 b))) it
      end
  end.

Definition convert_int (T : endian_type) (it : list Z) : result (Z * list Z) :=
  '(value, it) ← convert_int_loop (type_bits T) (type_bytes T) 0 it;
  Ok ((if type_signed T then wraps (type_bits T) value else value), it).

(** The other conversion fills a buffer from its end: index [i] runs down from
    the size of the type, so the buffer is built front-most byte last. The
    result is the buffer, the object representation [memcpy] gives the value. *)
Fixpoint convert_raw_loop (i : nat) (buffer : list Z) (it : list Z) : result (list Z * list Z) :=
  match i with
  | O => Ok (buffer, it)
  | S i =>
      match it with
      | [] => Throw range_error
      | b :: it => convert_raw_loop i (wrapu 8 b :: buffer) it
      end
  end.

Definition convert_raw (T : endian_type) (it : list Z) : result (list Z * list Z) :=
  convert_raw_loop (type_bytes T) [] it.

(** A native value: an integer, or the object representation of a float. *)
Inductive native_value := NInt (v : Z) | NRaw (rep : list Z).

Definition big_to_native (T : endian_type) (it : list Z) : result (native_value * list Z) :=
  if is_integer T
  then '(v, it) ← convert_int T it; Ok (NInt v, it)
  else '(rep, it) ← convert_raw T it; Ok (NRaw rep, it).

(** ** Reference: big-endian encoding of [n] bytes, and the value a list of
    bytes has most significant byte first. *)
Fixpoint be_value (bs : list Z) : Z :=
  match bs with
  | [] => 0
  | b :: bs => b * 2 ^ (8 * Z.of_nat (length bs)) + be_value bs
  end.
Fixpoint native_to_big (n : nat) (v : Z) : list Z :=
  match n with
  | O => []
  | S n => (v / 2 ^ (8 * Z.of_nat n)) `mod` 256 :: native_to_big n v
  end.

(** ** Lemmas *)
Lemma wrapu_be_step w v b bs :
  0 ≤ w →
  wrapu w (wrapu w (v * 256 + b) * 2 ^ (8 * Z.of_nat (length bs)) + be_value bs) =
  wrapu w (v * 2 ^ (8 * Z.of_nat (length (b :: bs))) + be_value (b :: bs)).
Proof.
  intros Hw. unfold wrapu. rewrite <-Z.add_mod_idemp_l, Z.mul_mod_idemp_l, Z.add_mod_idemp_l
    by (apply Z.pow_nonzero; lia).
  f_equal. simpl be_value. rewrite length_cons, Nat2Z.inj_succ.
  replace (8 * Z.succ (Z.of_nat (length bs))) with (8 + 8 * Z.of_nat (length bs)) by lia.
  rewrite Z.pow_add_r by lia. change (2 ^ 8) with 256. ring.
Qed.

Lemma convert_int_loop_value w bs v rest :
  0 ≤ w →
  convert_int_loop w (length bs) v (bs ++ rest) =
  Ok (match bs with [] => v | _ =>
        wrapu w (v * 2 ^ (8 * Z.of_nat (length bs)) + be_value (wrapu 8 <$> bs)) end, rest).
Proof.
  intros Hw. revert v. induction bs as [|b bs IH]; intros v; [done|].
  simpl length. simpl convert_int_loop.
  rewrite IH, lor_shiftl_add by (done || by apply (wrapu_range 8)).
  change (2 ^ 8) with 256.
  do 2 f_equal. destruct bs as [|b' bs].
  - rewrite fmap_cons, fmap_nil. simpl be_value. simpl length.
    f_equal. change (2 ^ (8 * Z.of_nat 1)) with 256.
    change (2 ^ (8 * Z.of_nat 0)) with 1. lia.
  - replace (length (b' :: bs)) with (length (wrapu 8 <$> b' :: bs)) by by rewrite length_fmap.
    rewrite wrapu_be_step by done. rewrite fmap_cons at 3. by rewrite !length_cons.
Qed.

Lemma convert_int_loop_short w i v it :
  (length it < i)%nat → convert_int_loop w i v it = Throw range_error.
Proof. revert v it. induction i; intros v [|b it]; simpl; intros; [lia|lia|done|apply IHi; lia]. Qed.

Lemma convert_raw_loop_value bs buf rest :
  convert_raw_loop (length bs) buf (bs ++ rest) = Ok (reverse (wrapu 8 <$> bs) ++ buf, rest).
Proof.
  revert buf. induction bs as [|b bs IH]; intros buf; [done|]. simpl. rewrite IH.
  by rewrite reverse_cons, <-app_assoc.
Qed.

Lemma convert_raw_loop_short i buf it :
  (length it < i)%nat → convert_raw_loop i buf it = Throw range_error.
Proof. revert buf it. induction i; intros buf [|b it]; simpl; intros; [lia|lia|done|apply IHi; lia]. Qed.

Lemma length_native_to_big n v : length (native_to_big n v) = n.
Proof. induction n; simpl; congruence. Qed.

Lemma be_value_native_to_big n v : be_value (native_to_big n v) = v `mod` 2 ^ (8 * Z.of_nat n).
Proof.
  induction n as [|n IH]; simpl native_to_big; simpl be_value; [by rewrite Z.mod_1_r|].
  rewrite length_native_to_big, IH, Nat2Z.inj_succ.
  replace (8 * Z.succ (Z.of_nat n)) with (8 * Z.of_nat n + 8) by lia.
  rewrite Z.pow_add_r by lia. change (2 ^ 8) with 256.
  rewrite Z.rem_mul_r by (try apply Z.pow_nonzero; lia). ring.
Qed.

Lemma native_to_big_bytes n v : wrapu 8 <$> native_to_big n v = native_to_big n v.
Proof.
  induction n as [|n IH]; [done|]. cbn [native_to_big]. rewrite fmap_cons, IH.
  f_equal. unfold wrapu. change (2 ^ 8) with 256. by rewrite Z.mod_mod.
Qed.

Lemma type_bytes_pos T : (0 < type_bytes T)%nat.
Proof. destruct T; simpl; lia. Qed.

(** The range of values the native type of [T] has. *)
Definition type_range (T : endian_type) (v : Z) : Prop :=
  if type_signed T then - 2 ^ (type_bits T - 1) ≤ v < 2 ^ (type_bits T - 1)
  else is_uint (type_bits T) v.

(** ** Properties *)

(** Converting the big-endian encoding of a value of an integer type, with
    any input behind it, gives back exactly that value - for signed types
    including the negative ones - and leaves the iterator behind the bytes
    consumed. *)
Theorem big_to_native_roundtrip T v rest :
  is_integer T = true → type_range T v →
  big_to_native T (native_to_big (type_bytes T) v ++ rest) = Ok (NInt v, rest).
Proof.
  intros HT Hv. unfold big_to_native, convert_int. rewrite HT.
  rewrite <-(length_native_to_big (type_bytes T) v) at 1.
  rewrite convert_int_loop_value by (unfold type_bits; lia).
  rewrite native_to_big_bytes, be_value_native_to_big, Z.mul_0_l, Z.add_0_l.
  change (8 * Z.of_nat (type_bytes T)) with (type_bits T).
  change (v `mod` 2 ^ type_bits T) with (wrapu (type_bits T) v).
  rewrite wrapu_idem by (unfold type_bits; lia).
  pose proof (type_bytes_pos T). destruct (native_to_big _ _) eqn:E.
  { apply (f_equal length) in E. rewrite length_native_to_big in E. simpl in E. lia. }
  clear E. simpl. unfold type_range in Hv. destruct (type_signed T).
  - rewrite wraps_wrapu; [done|unfold type_bits; lia|done].
  - by rewrite wrapu_small.
Qed.

Lemma big_to_native_roundtrip_witness :
  type_range int32 (-2) ∧
  big_to_native int32 (native_to_big 4 (-2) ++ [7]) = Ok (NInt (-2), [7]).
Proof. split; [by vm_compute|]. by apply (big_to_native_roundtrip int32 (-2) [7]). Defined.

(** The conversion throws [std::range_error] exactly when the range holds
    fewer bytes than the type has, for integers and floats alike. *)
Theorem big_to_native_range_error T it :
  big_to_native T it = Throw range_error ↔ (length it < type_bytes T)%nat.
Proof.
  unfold big_to_native, convert_int, convert_raw. split.
  - intros H. apply not_ge. intros Hge.
    rewrite <-(take_drop (type_bytes T) it) in H.
    assert (length (take (type_bytes T) it) = type_bytes T) as Hl by (rewrite length_take; lia).
    set (bs := take _ _) in *. destruct (is_integer T); revert H; rewrite <-Hl.
    + by rewrite convert_int_loop_value by (unfold type_bits; lia).
    + by rewrite convert_raw_loop_value.
  - intros Hlt. rewrite convert_int_loop_short, convert_raw_loop_short by done.
    by destruct (is_integer T).
Qed.

(** The object representation of a converted float is the input in reverse
    order, and read as a little-endian number it is the big-endian number in
    the input: both conversion strategies agree on every bit. *)
Theorem big_to_native_float_bits T bs rest :
  is_integer T = false → length bs = type_bytes T →
  ∃ rep, big_to_native T (bs ++ rest) = Ok (NRaw rep, rest) ∧
    be_value (reverse rep) = be_value (wrapu 8 <$> bs) ∧
    convert_int_loop (type_bits T) (type_bytes T) 0 (bs ++ rest) =
      Ok (wrapu (type_bits T) (be_value (reverse rep)), rest).
Proof.
  intros HT Hl. unfold big_to_native, convert_raw. rewrite HT, <-Hl.
  rewrite convert_raw_loop_value, app_nil_r. eexists; split; [done|].
  rewrite reverse_involutive. split; [done|].
  rewrite convert_int_loop_value by (unfold type_bits; lia).
  destruct bs; [|by rewrite Z.mul_0_l, Z.add_0_l].
  pose proof (type_bytes_pos T). simpl in Hl. lia.
Qed.

Lemma big_to_native_float_bits_witness :
  is_integer float32 = false ∧
  ∃ rep, big_to_native float32 ([63; 128; 0; 0] ++ []) = Ok (NRaw rep, []) ∧
    be_value (reverse rep) = be_value (wrapu 8 <$> [63; 128; 0; 0]) ∧
    convert_int_loop (type_bits float32) (type_bytes float32) 0 ([63; 128; 0; 0] ++ []) =
      Ok (wrapu (type_bits float32) (be_value (reverse rep)), []).
Proof. split; [done|]. by apply (big_to_native_float_bits float32 [63; 128; 0; 0] []). Defined.
