(* ===== verification/Buffer.v ===== *)
(** * nstd::net buffers

    src/src/nstd/buffer/{const_buffer,mutable_buffer,make_buffer}.hpp and
    src/src/nstd/net/get_iovec.hpp. A buffer is an [iovec]: the address of its
    first byte and a [size_t] length; addresses and lengths are 64-bit. Both
    buffer classes have the same representation and the same members, so one
    record models both; the conversion from mutable to const copies it. The
    meaning of a buffer is the sequence of bytes it denotes in a memory. *)
From S2P Require Import Prelude.
Local Open Scope Z_scope.

Definition size_bits : Z := 64.

Record iovec := IOVec { iov_base : Z; iov_len : Z }.

#[export] Instance iovec_eq_dec : EqDecision iovec.
Proof. solve_decision. Defined.

(** A well-formed buffer does not run past the end of the address space. *)
Definition iovec_wf (b : iovec) : Prop :=
  0 ≤ iov_base b ∧ 0 ≤ iov_len b ∧ iov_base b + iov_len b < 2 ^ size_bits.

(** [algorithm/min.hpp] *)
Definition algorithm_min (a b : Z) : Z := if b <? a then b else a.

(** ** const_buffer *)
Definition const_buffer_default : iovec := IOVec 0 0.
Definition const_buffer_ctor (d l : Z) : iovec := IOVec d l.
Definition const_buffer_data (b : iovec) : Z := iov_base b.
Definition const_buffer_size (b : iovec) : Z := iov_len b.
Definition const_buffer_of_mutable (other : iovec) : iovec :=
  IOVec (const_buffer_data other) (const_buffer_size other).
Definition const_buffer_advance (b : iovec) (n : Z) : iovec :=
  let n := algorithm_min n (const_buffer_size b) in
  IOVec (wrapu size_bits (n + iov_base b)) (wrapu size_bits (iov_len b - n)).
Definition const_buffer_plus (b : iovec) (n : Z) : iovec := const_buffer_advance b n.

(** [const_buffer const*] of a single buffer at address [p]. *)
Definition sizeof_iovec : Z := 16.
Definition const_sequence_begin (p : Z) : Z := p.
Definition const_sequence_end (p : Z) : Z := const_sequence_begin p + sizeof_iovec.

(** ** mutable_buffer *)
Definition mutable_buffer_default : iovec := IOVec 0 0.
Definition mutable_buffer_ctor (d l : Z) : iovec := IOVec d l.
Definition mutable_buffer_data (b : iovec) : Z := iov_base b.
Definition mutable_buffer_size (b : iovec) : Z := iov_len b.
Definition mutable_buffer_advance (b : iovec) (n : Z) : iovec :=
  let n := algorithm_min n (mutable_buffer_size b) in
  IOVec (wrapu size_bits (n + iov_base b)) (wrapu size_bits (iov_len b - n)).
Definition mutable_buffer_plus (b : iovec) (n : Z) : iovec := mutable_buffer_advance b n.
Definition mutable_sequence_begin (p : Z) : Z := p.
Definition mutable_sequence_end (p : Z) : Z := mutable_sequence_begin p + sizeof_iovec.

(** ** make_buffer: a contiguous container is given by the address of its
    first element (unspecified when empty), its element size and count. *)
Record container := Container { c_addr : Z; c_elem_size : Z; c_count : Z }.

Definition make_buffer (c : container) : iovec :=
  if decide (c_count c = 0) then const_buffer_default
  else const_buffer_ctor (c_addr c) (wrapu size_bits (c_elem_size c * c_count c)).

(** ** The [buffer] overloads *)
Definition buffer_ptr (d n : Z) : iovec := const_buffer_ctor d n.
Definition buffer_copy (b : iovec) : iovec := b.
(** A built-in array decays to its first element; [sizeof] is its size. *)
Definition buffer_array (c : container) : iovec :=
  const_buffer_ctor (c_addr c) (c_elem_size c * c_count c).
(** [std::array], [std::vector], [std::basic_string], [std::basic_string_view]. *)
Definition buffer_container (c : container) : iovec := make_buffer c.
Definition buffer_limit (b : iovec) (n : Z) : iovec :=
  const_buffer_ctor (const_buffer_data b) (algorithm_min (const_buffer_size b) n).
Definition buffer_array_limit (c : container) (n : Z) : iovec := buffer_limit (buffer_array c) n.
Definition buffer_container_limit (c : container) (n : Z) : iovec :=
  buffer_limit (buffer_container c) n.

Definition mutable_buffer_ptr (d n : Z) : iovec := mutable_buffer_ctor d n.
Definition mutable_buffer_copy (b : iovec) : iovec := b.
Definition mutable_buffer_array (c : container) : iovec :=
  mutable_buffer_ctor (c_addr c) (c_elem_size c * c_count c).
Definition mutable_buffer_container (c : container) : iovec := make_buffer c.
Definition mutable_buffer_limit (b : iovec) (n : Z) : iovec :=
  mutable_buffer_ctor (mutable_buffer_data b) (algorithm_min (mutable_buffer_size b) n).
Definition mutable_buffer_array_limit (c : container) (n : Z) : iovec :=
  mutable_buffer_limit (mutable_buffer_array c) n.
Definition mutable_buffer_container_limit (c : container) (n : Z) : iovec :=
  mutable_buffer_limit (mutable_buffer_container c) n.

(** ** get_iovec: the native scatter/gather array of a buffer sequence *)
Definition iovec_transform (b : iovec) : iovec :=
  IOVec (const_buffer_data b) (const_buffer_size b).
Fixpoint vector_iovec (bseq : list iovec) : list iovec :=
  match bseq with
  | [] => []
  | b :: bseq => iovec_transform b :: vector_iovec bseq
  end.
(** [array_iovec<N>]: element [I] is the transform of [begin[I]]. *)
Definition array_iovec (n : nat) (bseq : list iovec) : list iovec :=
  (λ i, iovec_transform (nth i bseq const_buffer_default)) <$> seq 0 n.

(** ** The bytes a buffer denotes *)
Definition bytes_of (mem : Z → Z) (b : iovec) : list Z :=
  (λ i, mem (iov_base b + Z.of_nat i)) <$> seq 0 (Z.to_nat (iov_len b)).

Lemma algorithm_min_spec a b : algorithm_min a b = Z.min a b.
Proof. unfold algorithm_min. destruct (Z.ltb_spec b a); lia. Qed.

Lemma advance_eq b n :
  iovec_wf b → 0 ≤ n →
  const_buffer_advance b n =
  IOVec (iov_base b + Z.min n (iov_len b)) (iov_len b - Z.min n (iov_len b)).
Proof.
  intros (?&?&?) Hn. unfold const_buffer_advance, const_buffer_size. rewrite algorithm_min_spec.
  rewrite !wrapu_small by (unfold is_uint, size_bits in *; lia). f_equal. lia.
Qed.

Lemma lookup_bytes_of mem b i :
  bytes_of mem b !! i =
  if decide (Z.of_nat i < iov_len b) then Some (mem (iov_base b + Z.of_nat i)) else None.
Proof.
  unfold bytes_of. rewrite list_lookup_fmap. case_decide.
  - rewrite lookup_seq_lt by lia. done.
  - rewrite lookup_seq_ge by lia. done.
Qed.

Lemma bytes_of_drop mem a l n :
  0 ≤ n ≤ l → bytes_of mem (IOVec (a + n) (l - n)) = drop (Z.to_nat n) (bytes_of mem (IOVec a l)).
Proof.
  intros Hn. apply list_eq. intros i. rewrite lookup_drop, !lookup_bytes_of; simpl.
  case_decide; case_decide; try lia; [|done]. do 2 f_equal. lia.
Qed.

Lemma bytes_of_take mem a l n :
  0 ≤ n ≤ l → bytes_of mem (IOVec a n) = take (Z.to_nat n) (bytes_of mem (IOVec a l)).
Proof.
  intros Hn. apply list_eq. intros i. destruct (decide (i < Z.to_nat n)%nat).
  - rewrite lookup_take_lt by done. rewrite !lookup_bytes_of; simpl.
    case_decide; case_decide; try lia. done.
  - rewrite lookup_take_ge by lia. rewrite lookup_bytes_of; simpl. case_decide; [lia|done].
Qed.

Lemma length_bytes_of mem b : length (bytes_of mem b) = Z.to_nat (iov_len b).
Proof. unfold bytes_of. by rewrite length_fmap, length_seq. Qed.

(** Advancing a buffer by [n] drops the first [n] bytes of what it denotes
    (all of them when it is shorter), stays within the original buffer - never
    wrapping around the address space - and advancing twice is advancing by the
    sum. *)
Theorem buffer_advance_spec mem b n m :
  iovec_wf b → 0 ≤ n → 0 ≤ m →
  bytes_of mem (const_buffer_plus b n) = drop (Z.to_nat n) (bytes_of mem b) ∧
  iovec_wf (const_buffer_plus b n) ∧
  iov_base (const_buffer_plus b n) + iov_len (const_buffer_plus b n) = iov_base b + iov_len b ∧
  const_buffer_plus (const_buffer_plus b n) m = const_buffer_plus b (n + m) ∧
  mutable_buffer_plus b n = const_buffer_plus b n.
Proof.
  intros Hwf Hn Hm. unfold const_buffer_plus. rewrite advance_eq by done.
  assert (Hwf' : iovec_wf (IOVec (iov_base b + Z.min n (iov_len b)) (iov_len b - Z.min n (iov_len b)))).
  { unfold iovec_wf in *; simpl. lia. }
  split_and!; [|done|simpl; lia| |].
  - destruct Hwf as (?&?&?). rewrite bytes_of_drop by lia. destruct b as [a l]; simpl in *.
    destruct (decide (n ≤ l)); [by rewrite Z.min_l by lia|].
    rewrite Z.min_r, !drop_ge; [done|..]; rewrite ?length_bytes_of; simpl; lia.
  - rewrite !advance_eq by (done || lia). simpl. unfold iovec_wf in Hwf. f_equal; lia.
  - unfold mutable_buffer_plus, mutable_buffer_advance. by rewrite <-advance_eq.
Qed.

Lemma buffer_advance_spec_witness :
  iovec_wf (IOVec 100 8) ∧
  bytes_of Z.succ (const_buffer_plus (IOVec 100 8) 3) = drop 3 (bytes_of Z.succ (IOVec 100 8)) ∧
  iovec_wf (const_buffer_plus (IOVec 100 8) 3) ∧
  iov_base (const_buffer_plus (IOVec 100 8) 3) + iov_len (const_buffer_plus (IOVec 100 8) 3) = 108 ∧
  const_buffer_plus (const_buffer_plus (IOVec 100 8) 3) 9 = const_buffer_plus (IOVec 100 8) (3 + 9) ∧
  mutable_buffer_plus (IOVec 100 8) 3 = const_buffer_plus (IOVec 100 8) 3.
Proof.
  split; [by vm_compute|]. apply (buffer_advance_spec Z.succ (IOVec 100 8) 3 9); by vm_compute.
Defined.

(** [buffer(b, n)] denotes the first [n] bytes of [b], all of them when
    [n] is at least its size, and the buffer made from a container denotes all
    bytes of its elements (the empty sequence at a null address for an empty
    container), so limiting it denotes a prefix of them. *)
Theorem buffer_limit_spec mem c n :
  0 ≤ c_addr c → 0 ≤ c_elem_size c → 0 ≤ c_count c →
  c_addr c + c_elem_size c * c_count c < 2 ^ size_bits → 0 ≤ n →
  let whole := bytes_of mem (IOVec (c_addr c) (c_elem_size c * c_count c)) in
  bytes_of mem (buffer_container c) = whole ∧
  bytes_of mem (buffer_array c) = whole ∧
  bytes_of mem (buffer_container_limit c n) = take (Z.to_nat n) whole ∧
  bytes_of mem (buffer_array_limit c n) = take (Z.to_nat n) whole ∧
  mutable_buffer_container_limit c n = buffer_container_limit c n ∧
  mutable_buffer_array_limit c n = buffer_array_limit c n.
Proof.
  intros Ha He Hc Hwf Hn whole.
  assert (Hlim : ∀ a l, 0 ≤ l → bytes_of mem (buffer_limit (IOVec a l) n) =
      take (Z.to_nat n) (bytes_of mem (IOVec a l))).
  { intros a l Hl. unfold buffer_limit, const_buffer_ctor, const_buffer_data, const_buffer_size; simpl.
    rewrite algorithm_min_spec. destruct (decide (n ≤ l)).
    - rewrite Z.min_r by lia. by apply bytes_of_take.
    - rewrite Z.min_l, take_ge by (rewrite ?length_bytes_of; simpl; lia). done. }
  assert (Hall : bytes_of mem (buffer_container c) = whole).
  { unfold buffer_container, make_buffer. case_decide as E.
    - subst whole. rewrite E, Z.mul_0_r. done.
    - unfold const_buffer_ctor. rewrite wrapu_small; [done|]. unfold is_uint. nia. }
  split_and!; [done|done| | |done|done].
  - unfold buffer_container_limit. rewrite <-Hall. destruct (buffer_container c) as [a l] eqn:E.
    apply Hlim. revert E. unfold buffer_container, make_buffer.
    case_decide; intros [= <- <-]; [lia|]. apply wrapu_range. unfold size_bits. lia.
  - apply Hlim. nia.
Qed.

Lemma buffer_limit_spec_witness :
  let c := Container 4096 4 3 in
  let whole := bytes_of Z.opp (IOVec 4096 (4 * 3)) in
  bytes_of Z.opp (buffer_container c) = whole ∧
  bytes_of Z.opp (buffer_array c) = whole ∧
  bytes_of Z.opp (buffer_container_limit c 5) = take 5 whole ∧
  bytes_of Z.opp (buffer_array_limit c 5) = take 5 whole ∧
  mutable_buffer_container_limit c 5 = buffer_container_limit c 5 ∧
  mutable_buffer_array_limit c 5 = buffer_array_limit c 5.
Proof. apply (buffer_limit_spec Z.opp (Container 4096 4 3) 5); by vm_compute. Defined.

(** The scatter/gather array handed to the system has one entry per buffer
    in order and denotes the concatenation of the buffers' bytes; the array
    form used for fixed-size sequences gives the same array as the vector
    form. *)
Theorem get_iovec_spec mem bseq :
  vector_iovec bseq ≫= bytes_of mem = bseq ≫= bytes_of mem ∧
  length (vector_iovec bseq) = length bseq ∧
  array_iovec (length bseq) bseq = vector_iovec bseq.
Proof.
  assert (Hmap : vector_iovec bseq = iovec_transform <$> bseq)
    by (induction bseq as [|b bseq IH]; [done|]; cbn [vector_iovec]; by rewrite fmap_cons, IH).
  assert (Hid : ∀ b, iovec_transform b = b) by by intros [].
  rewrite Hmap. split_and!.
  - by rewrite (list_fmap_ext _ id _ (λ _ b _, Hid b)), list_fmap_id.
  - apply length_fmap.
  - apply list_eq. intros i. unfold array_iovec. rewrite !list_lookup_fmap.
    destruct (decide (i < length bseq)%nat) as [Hi|Hi].
    + rewrite lookup_seq_lt by done. simpl. destruct (lookup_lt_is_Some_2 _ _ Hi) as [b Hb].
      rewrite Hb. simpl. by erewrite nth_lookup_Some.
    + rewrite lookup_seq_ge, lookup_ge_None_2 by lia. done.
Qed.
