(* ===== verification/NetIp.v ===== *)
(** * nstd::net::ip: addresses and endpoints

    src/src/nstd/net/ip/{address_v4,address_v6,address,basic_endpoint,tcp,udp,
    types,make_address_v4}.hpp. An IPv4 address is its four bytes, an IPv6
    address its sixteen bytes and a scope id; [address] is the variant of the
    two. The system's byte-order and parsing functions are parameters; the
    socket address structures are records whose address field holds the bytes
    in memory order (the host is little-endian where a field is read as an
    integer). *)
From S2P Require Import Prelude.
From stdpp Require Import pretty.
From Stdlib Require Import Ascii.
Local Open Scope Z_scope.

(** ** address_v4 *)
Record address_v4 := V4 { v4_b0 : Z; v4_b1 : Z; v4_b2 : Z; v4_b3 : Z }.

#[export] Instance address_v4_eq_dec : EqDecision address_v4.
Proof. solve_decision. Defined.

(** [bytes_type(t...)]: each argument is cast to [unsigned char]. *)
Definition v4_bytes_type (t0 t1 t2 t3 : Z) : address_v4 :=
  V4 (wrapu 8 t0) (wrapu 8 t1) (wrapu 8 t2) (wrapu 8 t3).

Definition address_v4_default : address_v4 := V4 0 0 0 0.
Definition address_v4_of_bytes (bytes : address_v4) : address_v4 := bytes.
Definition address_v4_of_uint (value : Z) : address_v4 :=
  v4_bytes_type (Z.land (Z.shiftr value 24) 255) (Z.land (Z.shiftr value 16) 255)
                (Z.land (Z.shiftr value 8) 255) (Z.land (Z.shiftr value 0) 255).

Definition v4_bytes (a : address_v4) : list Z := [v4_b0 a; v4_b1 a; v4_b2 a; v4_b3 a].

(** [std::array]'s [operator<] compares lexicographically. *)
Fixpoint array_ltb (l1 l2 : list Z) : bool :=
  match l1, l2 with
  | _, [] => false
  | [], _ :: _ => true
  | x :: l1, y :: l2 => if x <? y then true else if y <? x then false else array_ltb l1 l2
  end.

Definition v4_compare (a b : address_v4) : comparison :=
  if decide (v4_bytes a = v4_bytes b) then Eq
  else if array_ltb (v4_bytes a) (v4_bytes b) then Lt else Gt.

Definition v4_to_bytes (a : address_v4) : address_v4 := a.

(** [uint_least32_t] arithmetic. *)
Definition v4_to_uint (a : address_v4) : Z :=
  Z.lor (Z.lor (Z.lor
    (wrapu 32 (Z.shiftl (v4_b0 a) 24)) (wrapu 32 (Z.shiftl (v4_b1 a) 16)))
    (wrapu 32 (Z.shiftl (v4_b2 a) 8))) (wrapu 32 (Z.shiftl (v4_b3 a) 0)).

Definition v4_is_unspecified (a : address_v4) : bool := v4_to_uint a =? 0.
Definition v4_is_loopback (a : address_v4) : bool :=
  Z.land (v4_to_uint a) 0xFF000000 =? 0x7F000000.
Definition v4_is_multicast (a : address_v4) : bool :=
  Z.land (v4_to_uint a) 0xF0000000 =? 0xE0000000.

(** [ostream << int] of a byte: its decimal digits. *)
Definition print_int (b : Z) : string := pretty b.

Definition v4_to_string (a : address_v4) : string :=
  (print_int (v4_b0 a) +:+ "." +:+ (print_int (v4_b1 a) +:+ "." +:+
  (print_int (v4_b2 a) +:+ "." +:+ print_int (v4_b3 a))))%string.

Definition v4_any : address_v4 := address_v4_default.
Definition v4_loopback : address_v4 := address_v4_of_uint 0x7F000001.
Definition v4_broadcast : address_v4 := address_v4_of_uint 0xFFFFFFFF.

Definition v4_wf (a : address_v4) : Prop := Forall (is_uint 8) (v4_bytes a).

(** ** address_v6 *)
Record address_v6 := V6 { v6_bytes : list Z; v6_scope_id : Z }.

#[export] Instance address_v6_eq_dec : EqDecision address_v6.
Proof. solve_decision. Defined.

Definition address_v6_default : address_v6 := V6 (replicate 16 0) 0.
Definition address_v6_of_bytes (bytes : list Z) (scope_id : Z) : address_v6 := V6 bytes scope_id.

(** The comparison looks at the bytes only; [operator==] is defaulted and
    compares the scope id too. *)
Definition v6_compare (a b : address_v6) : comparison :=
  if decide (v6_bytes a = v6_bytes b) then Eq
  else if array_ltb (v6_bytes a) (v6_bytes b) then Lt else Gt.
Definition v6_eqb (a b : address_v6) : bool := bool_decide (a = b).

Definition v6_to_bytes (a : address_v6) : list Z := v6_bytes a.
Definition v6_set_scope_id (a : address_v6) (scope_id : Z) : address_v6 := V6 (v6_bytes a) scope_id.
Definition v6_get_scope_id (a : address_v6) : Z := v6_scope_id a.

(** The predicates the source marks TODO answer [true]. *)
Definition v6_is_unspecified (a : address_v6) : bool := true.
Definition v6_is_loopback (a : address_v6) : bool := true.
Definition v6_is_multicast (a : address_v6) : bool := true.
Definition v6_to_string (a : address_v6) : string := "".
Definition v6_any : address_v6 := address_v6_default.
Definition v6_loopback : address_v6 := address_v6_default.

(** ** address *)
Inductive address := AddrV4 (a : address_v4) | AddrV6 (a : address_v6).

#[export] Instance address_eq_dec : EqDecision address.
Proof. solve_decision. Defined.

(** The variant's default is its first alternative. *)
Definition address_default : address := AddrV4 address_v4_default.
Definition address_of_v4 (a : address_v4) : address := AddrV4 a.
Definition address_of_v6 (a : address_v6) : address := AddrV6 a.
Definition address_assign_v4 (self : address) (a : address_v4) : address := AddrV4 a.
Definition address_assign_v6 (self : address) (a : address_v6) : address := AddrV6 a.

(** [partial_ordering]: [None] is [unordered]. *)
Definition address_compare (a b : address) : option comparison :=
  match a, b with
  | AddrV4 a, AddrV4 b => Some (v4_compare a b)
  | AddrV6 a, AddrV6 b => Some (v6_compare a b)
  | _, _ => None
  end.
Definition address_is_v4 (a : address) : bool := match a with AddrV4 _ => true | _ => false end.
Definition address_is_v6 (a : address) : bool := match a with AddrV6 _ => true | _ => false end.
(** [std::get] throws [bad_variant_access] on the other alternative. *)
Definition address_to_v4 (a : address) : result address_v4 :=
  match a with AddrV4 a => Ok a | AddrV6 _ => Throw bad_variant_access end.
Definition address_to_v6 (a : address) : result address_v6 :=
  match a with AddrV6 a => Ok a | AddrV4 _ => Throw bad_variant_access end.
Definition address_is_unspecified (a : address) : bool :=
  match a with AddrV4 a => v4_is_unspecified a | AddrV6 a => v6_is_unspecified a end.
Definition address_is_loopback (a : address) : bool :=
  match a with AddrV4 a => v4_is_loopback a | AddrV6 a => v6_is_loopback a end.
Definition address_is_multicast (a : address) : bool :=
  match a with AddrV4 a => v4_is_multicast a | AddrV6 a => v6_is_multicast a end.
Definition address_to_string (a : address) : string :=
  match a with AddrV4 a => v4_to_string a | AddrV6 a => v6_to_string a end.

(** ** Socket addresses

    [sockaddr_storage] as the two structures overlay it: the family, the port
    in network representation, and the bytes behind the port in memory order -
    the address and padding of [sockaddr_in], or the flow information, the
    address and the scope of [sockaddr_in6]. *)
Record sockaddr_storage := Storage { ss_family : Z; ss_port : Z; ss_rest : list Z }.

Definition sizeof_sockaddr_in : Z := 16.
Definition sizeof_sockaddr_in6 : Z := 28.

(** Reading [sin_addr.s_addr] on a little-endian host. *)
Fixpoint le_value (bs : list Z) : Z :=
  match bs with [] => 0 | b :: bs => b + 256 * le_value bs end.
Definition sin_addr (s : sockaddr_storage) : list Z := take 4 (ss_rest s).
Definition s_addr (s : sockaddr_storage) : Z := le_value (sin_addr s).

(** Protocols: the address family. *)
Definition AF_INET : Z := 2.
Definition AF_INET6 : Z := 10.
Record protocol := Protocol { proto_family : Z }.
Definition tcp_v4 : protocol := Protocol AF_INET.
Definition tcp_v6 : protocol := Protocol AF_INET6.
Definition udp_v4 : protocol := Protocol AF_INET.
Definition udp_v6 : protocol := Protocol AF_INET6.

Record basic_endpoint := Endpoint {
  d_protocol : protocol;
  d_address : address;
  d_port : Z;
}.

Section endpoint.
(** The system's byte-order conversion of 16-bit values, and [inet_pton]
    (the result and the four bytes it stores); the fields the code leaves
    uninitialised hold [junk]. *)
Context (htons ntohs : Z → Z) (inet_pton : string → Z * address_v4) (junk : nat → list Z).
(** The protocol's [v4()] and [v6()]. *)
Context (proto_v4 proto_v6 : protocol).

Definition v4_get_address (a : address_v4) (port : Z) : sockaddr_storage * Z :=
  let tmp := reverse (v4_bytes a) in
  (Storage AF_INET (htons port) (tmp ++ junk 8), sizeof_sockaddr_in).

Definition v6_get_address (a : address_v6) (port : Z) : sockaddr_storage * Z :=
  (Storage AF_INET6 (htons port) (junk 4 ++ v6_bytes a ++ junk 4), sizeof_sockaddr_in6).

Definition address_get_address (a : address) (port : Z) : sockaddr_storage * Z :=
  match a with AddrV4 a => v4_get_address a port | AddrV6 a => v6_get_address a port end.

Definition make_address_v4 (addr : string) : address_v4 :=
  let '(rc, bytes) := inet_pton addr in
  if rc =? 0 then address_v4_default else bytes.

Definition endpoint_default : basic_endpoint := Endpoint proto_v6 address_default 0.
Definition endpoint_of_protocol (p : protocol) (port : Z) : basic_endpoint :=
  Endpoint p address_default port.
Definition endpoint_of_address (addr : address) (port : Z) : basic_endpoint :=
  Endpoint (if address_is_v4 addr then proto_v4 else proto_v6) addr port.
Definition endpoint_protocol (ep : basic_endpoint) : protocol := d_protocol ep.
Definition endpoint_address (ep : basic_endpoint) : address := d_address ep.
Definition endpoint_port (ep : basic_endpoint) : Z := d_port ep.

Definition endpoint_print (ep : basic_endpoint) : string :=
  (address_to_string (endpoint_address ep) +:+ ":" +:+ print_int (endpoint_port ep))%string.

Definition endpoint_get_address (ep : basic_endpoint) : sockaddr_storage * Z :=
  address_get_address (d_address ep) (d_port ep).

(** The protocol is left alone, and so is the address in the IPv6 case. *)
Definition endpoint_set_address (ep : basic_endpoint) (storage : sockaddr_storage) (length : Z)
    : basic_endpoint :=
  if sizeof_sockaddr_in =? length then
    Endpoint (d_protocol ep) (AddrV4 (address_v4_of_uint (s_addr storage)))
             (ntohs (ss_port storage))
  else if sizeof_sockaddr_in6 =? length then
    Endpoint (d_protocol ep) (d_address ep) (ntohs (ss_port storage))
  else ep.
End endpoint.

(** ** Lemmas *)
Lemma v4_wf_iff b0 b1 b2 b3 :
  v4_wf (V4 b0 b1 b2 b3) ↔ 0 ≤ b0 < 256 ∧ 0 ≤ b1 < 256 ∧ 0 ≤ b2 < 256 ∧ 0 ≤ b3 < 256.
Proof.
  unfold v4_wf, v4_bytes, is_uint; simpl. change (2 ^ 8) with 256.
  rewrite !Forall_cons, Forall_nil. tauto.
Qed.

Lemma v4_to_uint_eq a :
  v4_wf a → v4_to_uint a = v4_b0 a * 2 ^ 24 + v4_b1 a * 2 ^ 16 + v4_b2 a * 2 ^ 8 + v4_b3 a.
Proof.
  destruct a as [b0 b1 b2 b3]. intros (?&?&?&?)%v4_wf_iff. unfold v4_to_uint; simpl.
  rewrite !Z.shiftl_mul_pow2 by lia.
  rewrite !wrapu_small by (unfold is_uint; lia).
  assert (Hor : ∀ x y k, 0 ≤ k → 0 ≤ y < 2 ^ k → Z.lor (x * 2 ^ k) y = x * 2 ^ k + y).
  { intros x y k Hk Hy. by rewrite <-Z.shiftl_mul_pow2, lor_shiftl_add, Z.shiftl_mul_pow2 by lia. }
  rewrite (Hor b0) by lia.
  replace (b0 * 2 ^ 24 + b1 * 2 ^ 16) with ((b0 * 2 ^ 8 + b1) * 2 ^ 16) by lia.
  rewrite Hor by lia.
  replace ((b0 * 2 ^ 8 + b1) * 2 ^ 16 + b2 * 2 ^ 8) with
    (((b0 * 2 ^ 8 + b1) * 2 ^ 8 + b2) * 2 ^ 8) by lia.
  rewrite Hor by lia. lia.
Qed.

Lemma address_v4_of_uint_eq v :
  0 ≤ v → address_v4_of_uint v =
  V4 (v `div` 2 ^ 24 `mod` 256) (v `div` 2 ^ 16 `mod` 256) (v `div` 2 ^ 8 `mod` 256) (v `mod` 256).
Proof.
  intros Hv. unfold address_v4_of_uint, v4_bytes_type. change 255 with (Z.ones 8).
  rewrite !land_shiftr_ones by lia. unfold wrapu. change (2 ^ 8) with 256.
  rewrite !Z.mod_mod by lia. by rewrite Z.pow_0_r, Z.div_1_r.
Qed.

Ltac div_mod_lia := Z.div_mod_to_equations; lia.

Lemma v4_of_to_uint a : v4_wf a → address_v4_of_uint (v4_to_uint a) = a.
Proof.
  intros Hwf. pose proof Hwf as Hr. destruct a as [b0 b1 b2 b3].
  rewrite v4_to_uint_eq by done. apply v4_wf_iff in Hr as (?&?&?&?); simpl.
  rewrite address_v4_of_uint_eq by lia. f_equal; div_mod_lia.
Qed.

Lemma v4_of_uint_wf v : 0 ≤ v → v4_wf (address_v4_of_uint v).
Proof. intros. rewrite address_v4_of_uint_eq by done. apply v4_wf_iff. div_mod_lia. Qed.

Lemma v4_to_of_uint v : is_uint 32 v → v4_to_uint (address_v4_of_uint v) = v.
Proof.
  intros [Hv1 Hv2]. rewrite v4_to_uint_eq by (by apply v4_of_uint_wf).
  rewrite address_v4_of_uint_eq by done; simpl. div_mod_lia.
Qed.

(** ** Properties *)

(** The byte form and the 32-bit form of an IPv4 address determine each
    other: converting either way and back is the identity, so no two addresses
    share a number. *)
Theorem v4_uint_roundtrip a v :
  v4_wf a → is_uint 32 v →
  address_v4_of_uint (v4_to_uint a) = a ∧ is_uint 32 (v4_to_uint a) ∧
  v4_to_uint (address_v4_of_uint v) = v ∧ v4_wf (address_v4_of_uint v).
Proof.
  intros Ha Hv. split_and!; [by apply v4_of_to_uint| |by apply v4_to_of_uint|].
  - rewrite v4_to_uint_eq by done. destruct a; apply v4_wf_iff in Ha. unfold is_uint; simpl. lia.
  - apply v4_of_uint_wf. unfold is_uint in Hv. lia.
Qed.

Lemma v4_uint_roundtrip_witness :
  address_v4_of_uint (v4_to_uint (V4 192 168 1 254)) = V4 192 168 1 254 ∧
  is_uint 32 (v4_to_uint (V4 192 168 1 254)) ∧
  v4_to_uint (address_v4_of_uint 0xC0A80101) = 0xC0A80101 ∧ v4_wf (address_v4_of_uint 0xC0A80101).
Proof.
  apply (v4_uint_roundtrip (V4 192 168 1 254) 0xC0A80101); [|by vm_compute].
  apply v4_wf_iff. lia.
Defined.

(** Comparing two IPv4 addresses byte-wise orders them as their 32-bit
    numbers, so the order is total and agrees with equality. *)
Theorem v4_compare_numeric a b :
  v4_wf a → v4_wf b → v4_compare a b = (v4_to_uint a ?= v4_to_uint b).
Proof.
  intros Ha Hb. rewrite !v4_to_uint_eq by done.
  destruct a as [a0 a1 a2 a3], b as [b0 b1 b2 b3].
  apply v4_wf_iff in Ha, Hb. unfold v4_compare, v4_bytes; simpl.
  case_decide as Heq.
  - simplify_eq. by rewrite Z.compare_refl.
  - symmetry.
    destruct (Z.ltb_spec a0 b0); [apply Z.compare_lt_iff; lia|].
    destruct (Z.ltb_spec b0 a0); [apply Z.compare_gt_iff; lia|].
    destruct (Z.ltb_spec a1 b1); [apply Z.compare_lt_iff; lia|].
    destruct (Z.ltb_spec b1 a1); [apply Z.compare_gt_iff; lia|].
    destruct (Z.ltb_spec a2 b2); [apply Z.compare_lt_iff; lia|].
    destruct (Z.ltb_spec b2 a2); [apply Z.compare_gt_iff; lia|].
    destruct (Z.ltb_spec a3 b3); [apply Z.compare_lt_iff; lia|].
    destruct (Z.ltb_spec b3 a3); [apply Z.compare_gt_iff; lia|].
    exfalso. apply Heq. repeat f_equal; lia.
Qed.

Lemma v4_compare_numeric_witness :
  v4_compare (V4 10 0 0 255) (V4 10 0 1 0) =
  (v4_to_uint (V4 10 0 0 255) ?= v4_to_uint (V4 10 0 1 0)).
Proof. apply v4_compare_numeric; apply v4_wf_iff; lia. Defined.

Lemma land_high_mask (v k m : Z) :
  0 ≤ k ≤ 32 → is_uint 32 v → m = 2 ^ 32 - 2 ^ k → Z.land v m = v `div` 2 ^ k * 2 ^ k.
Proof.
  intros Hk [Hv1 Hv2] ->. assert (2 ^ 32 - 2 ^ k = Z.shiftl (Z.ones (32 - k)) k) as ->.
  { rewrite Z.shiftl_mul_pow2, Z.ones_equiv by lia. unfold Z.pred.
    replace (2 ^ 32) with (2 ^ (32 - k) * 2 ^ k) by (rewrite <-Z.pow_add_r by lia; f_equal; lia). lia. }
  apply Z.bits_inj'. intros n Hn. rewrite Z.land_spec, <-Z.shiftl_mul_pow2 by lia.
  destruct (decide (n < k)); [by rewrite !Z.shiftl_spec_low, andb_false_r by lia|].
  rewrite !Z.shiftl_spec by lia. rewrite <-Z.shiftr_div_pow2, Z.shiftr_spec by lia.
  replace (n - k + k) with n by lia.
  destruct (decide (n < 32)); [by rewrite Z.ones_spec_low, andb_true_r by lia|].
  rewrite Z.ones_spec_high by lia. rewrite andb_false_r. symmetry.
  destruct (decide (v = 0)) as [->|]; [by rewrite Z.bits_0|].
  apply Z.bits_above_log2; [lia|]. apply Z.log2_lt_pow2; [lia|].
  assert (2 ^ 32 ≤ 2 ^ n) by (apply Z.pow_le_mono_r; lia). lia.
Qed.

(** The classification of IPv4 addresses is the documented one: loopback is
    127.0.0.0/8, multicast is 224.0.0.0/4, unspecified is 0.0.0.0; the named
    constants classify accordingly, and the variant type forwards to them. *)
Theorem v4_classification a :
  v4_wf a →
  address_is_loopback (AddrV4 a) = bool_decide (v4_b0 a = 127) ∧
  address_is_multicast (AddrV4 a) = bool_decide (224 ≤ v4_b0 a < 240) ∧
  address_is_unspecified (AddrV4 a) = bool_decide (a = v4_any) ∧
  v4_is_loopback v4_loopback = true ∧ v4_is_multicast v4_broadcast = false.
Proof.
  intros Hwf. pose proof Hwf as Hr. simpl.
  unfold v4_is_loopback, v4_is_multicast, v4_is_unspecified.
  assert (is_uint 32 (v4_to_uint a)).
  { rewrite v4_to_uint_eq by done. destruct a; apply v4_wf_iff in Hr. unfold is_uint; simpl. lia. }
  rewrite (land_high_mask _ 24), (land_high_mask _ 28) by (done || lia).
  rewrite v4_to_uint_eq in * by done. destruct a as [b0 b1 b2 b3].
  apply v4_wf_iff in Hr; simpl in *. split_and!; [..|done|done].
  - apply Bool.eq_iff_eq_true. rewrite Z.eqb_eq, bool_decide_eq_true. div_mod_lia.
  - apply Bool.eq_iff_eq_true. rewrite Z.eqb_eq, bool_decide_eq_true. div_mod_lia.
  - apply Bool.eq_iff_eq_true. rewrite Z.eqb_eq, bool_decide_eq_true.
    split; [intros; unfold v4_any, address_v4_default; f_equal; lia|intros [= -> -> -> ->]; done].
Qed.

Lemma v4_classification_witness :
  address_is_loopback (AddrV4 (V4 127 8 8 8)) = true ∧
  address_is_multicast (AddrV4 (V4 127 8 8 8)) = false ∧
  address_is_unspecified (AddrV4 (V4 127 8 8 8)) = false ∧
  v4_is_loopback v4_loopback = true ∧ v4_is_multicast v4_broadcast = false.
Proof. apply (v4_classification (V4 127 8 8 8)). apply v4_wf_iff. lia. Defined.

(** ** Textual form *)

(** A string without dots in front of a dot is determined by the whole. *)
Fixpoint has_dot (s : string) : bool :=
  match s with
  | EmptyString => false
  | String c s => if decide (c = Ascii false true true true false true false false) then true else has_dot s
  end.

Lemma dot_split s1 s2 t1 t2 :
  has_dot s1 = false → has_dot s2 = false →
  (s1 +:+ "." +:+ t1 = s2 +:+ "." +:+ t2)%string → s1 = s2 ∧ t1 = t2.
Proof.
  revert s2. induction s1 as [|c s1 IH]; intros [|c2 s2]; simpl; intros H1 H2 Heq;
    simplify_eq; repeat case_decide; simplify_eq; try done.
  destruct (IH s2) as [-> ->]; done.
Qed.

Lemma print_byte_no_dot b : is_uint 8 b → has_dot (print_int b) = false.
Proof.
  intros Hb.
  assert (Hall : forallb (λ n, negb (has_dot (print_int (Z.of_nat n)))) (seq 0 256) = true)
    by (by vm_compute).
  rewrite forallb_forall in Hall. specialize (Hall (Z.to_nat b)).
  unfold is_uint in Hb. change (2 ^ 8) with 256 in Hb.
  rewrite Z2Nat.id in Hall by lia. apply negb_true_iff, Hall, in_seq. lia.
Qed.

(** The dotted decimal text identifies the address: two well-formed IPv4
    addresses print the same only if they are the same. *)
Theorem v4_to_string_inj a b :
  v4_wf a → v4_wf b → v4_to_string a = v4_to_string b → a = b.
Proof.
  destruct a as [a0 a1 a2 a3], b as [b0 b1 b2 b3]. unfold v4_wf, v4_bytes, v4_to_string.
  rewrite !Forall_cons, !Forall_nil; simpl.
  intros (?&?&?&?&_) (?&?&?&?&_) Heq.
  apply dot_split in Heq as [Hp0 Heq]; [|by apply print_byte_no_dot..].
  apply dot_split in Heq as [Hp1 Heq]; [|by apply print_byte_no_dot..].
  apply dot_split in Heq as [Hp2 Hp3]; [|by apply print_byte_no_dot..].
  unfold print_int in *. apply (inj pretty) in Hp0, Hp1, Hp2, Hp3. congruence.
Qed.

Lemma v4_to_string_inj_witness :
  v4_to_string (V4 127 0 0 1) = "127.0.0.1"%string ∧ V4 127 0 0 1 = v4_loopback.
Proof.
  split; [by vm_compute|].
  apply v4_to_string_inj; [apply v4_wf_iff; lia|by apply v4_of_uint_wf|by vm_compute].
Defined.

(** ** Socket addresses *)
Lemma le_value_v4 a :
  v4_wf a → le_value (reverse (v4_bytes a)) = v4_to_uint a.
Proof. intros. rewrite v4_to_uint_eq by done. destruct a; simpl. lia. Qed.

(** Reading back what an IPv4 endpoint wrote. *)
Lemma v4_storage_roundtrip (htons ntohs : Z → Z) junk ep ep' a port :
  (∀ p, is_uint 16 p → ntohs (htons p) = p) →
  v4_wf a → is_uint 16 port → d_address ep = AddrV4 a → d_port ep = port →
  let '(s, len) := endpoint_get_address htons junk ep in
  endpoint_set_address ntohs ep' s len = Endpoint (d_protocol ep') (AddrV4 a) port.
Proof.
  intros Hinv Ha Hp. destruct ep as [pr ad po]; simpl. intros -> ->. simpl.
  unfold endpoint_set_address. cbn [Z.eqb sizeof_sockaddr_in Pos.eqb ss_port].
  rewrite Hinv by done. do 2 f_equal. unfold s_addr, sin_addr. cbn [ss_rest].
  replace (take 4 _) with (reverse (v4_bytes a)) by (by destruct a).
  rewrite le_value_v4 by done. by apply v4_of_to_uint.
Qed.

(** Writing an IPv4 endpoint to a socket address and reading it back
    restores the address and the port, whatever the endpoint read into held
    before; its protocol is kept. The system's [ntohs] is assumed to invert
    [htons]. *)
Theorem endpoint_v4_roundtrip (htons ntohs : Z → Z) junk ep ep' a port :
  (∀ p, is_uint 16 p → ntohs (htons p) = p) →
  v4_wf a → is_uint 16 port → d_address ep = AddrV4 a → d_port ep = port →
  let '(s, len) := endpoint_get_address htons junk ep in
  endpoint_set_address ntohs ep' s len = Endpoint (d_protocol ep') (AddrV4 a) port ∧
  ss_family s = AF_INET.
Proof.
  intros Hinv Ha Hp Hea Hpo.
  pose proof (v4_storage_roundtrip htons ntohs junk ep ep' a port Hinv Ha Hp Hea Hpo) as Hrt.
  destruct ep as [pr ad po]; simpl in *. subst. split; [exact Hrt|done].
Qed.

(** The byte swap of a little-endian host. *)
Definition bswap16 (p : Z) : Z := p `mod` 256 * 256 + p `div` 256.

Lemma bswap16_involutive p : is_uint 16 p → bswap16 (bswap16 p) = p.
Proof.
  intros [Hp1 Hp2]. change (2 ^ 16) with 65536 in Hp2. unfold bswap16. div_mod_lia.
Qed.

Lemma endpoint_v4_roundtrip_witness :
  let ep := endpoint_of_address tcp_v4 tcp_v6 (AddrV4 v4_loopback) 8080 in
  let '(s, len) := endpoint_get_address bswap16 (λ n, replicate n 0) ep in
  endpoint_set_address bswap16 (endpoint_default tcp_v6) s len =
    Endpoint tcp_v6 (AddrV4 v4_loopback) 8080 ∧ ss_family s = AF_INET.
Proof.
  refine (endpoint_v4_roundtrip bswap16 bswap16 (λ n, replicate n 0)
    (endpoint_of_address tcp_v4 tcp_v6 (AddrV4 v4_loopback) 8080) (endpoint_default tcp_v6)
    v4_loopback 8080 bswap16_involutive _ _ _ _); [by apply v4_of_uint_wf|by vm_compute|done|done].
Defined.

(** The four bytes put in [sin_addr] are the address reversed, so they are
    in network order only for addresses that read the same in both directions:
    the loopback address 127.0.0.1 is handed to the system as 1.0.0.127. *)
Theorem v4_get_address_byte_order htons junk a port :
  sin_addr (v4_get_address htons junk a port).1 = reverse (v4_bytes a) ∧
  (sin_addr (v4_get_address htons junk a port).1 = v4_bytes a ↔
   v4_b0 a = v4_b3 a ∧ v4_b1 a = v4_b2 a) ∧
  sin_addr (v4_get_address htons junk v4_loopback port).1 = [1; 0; 0; 127].
Proof.
  destruct a as [a0 a1 a2 a3]. unfold sin_addr, v4_get_address, v4_bytes; simpl.
  split_and!; [done| |by vm_compute].
  split; [intros H|intros [-> ->]; done].
  change (reverse [a0; a1; a2; a3]) with [a3; a2; a1; a0] in H. by simplify_eq/=.
Qed.

(** Reading back an IPv6 endpoint loses the address: only the port is
    stored, so the result still has whatever address was there before, and the
    round trip through a default endpoint yields the IPv4 address 0.0.0.0. *)
Theorem endpoint_v6_loses_address (htons ntohs : Z → Z) junk ep ep' a :
  d_address ep = AddrV6 a →
  let '(s, len) := endpoint_get_address htons junk ep in
  endpoint_set_address ntohs ep' s len =
    Endpoint (d_protocol ep') (d_address ep') (ntohs (htons (d_port ep))) ∧
  d_address (endpoint_set_address ntohs (endpoint_default (d_protocol ep)) s len) = AddrV4 v4_any.
Proof. destruct ep; simpl. by intros ->. Qed.

Lemma endpoint_v6_loses_address_witness :
  let ep := endpoint_of_address tcp_v4 tcp_v6 (AddrV6 v6_loopback) 80 in
  let '(s, len) := endpoint_get_address bswap16 (λ n, replicate n 0) ep in
  endpoint_set_address bswap16 ep s len = Endpoint tcp_v6 (AddrV6 v6_loopback) (bswap16 (bswap16 80)) ∧
  d_address (endpoint_set_address bswap16 (endpoint_default tcp_v6) s len) = AddrV4 v4_any.
Proof.
  exact (endpoint_v6_loses_address bswap16 bswap16 (λ n, replicate n 0)
    (endpoint_of_address tcp_v4 tcp_v6 (AddrV6 v6_loopback) 80)
    (endpoint_of_address tcp_v4 tcp_v6 (AddrV6 v6_loopback) 80) v6_loopback eq_refl).
Defined.

(** Lexicographic comparison of equally long byte lists is a total order. *)
Lemma array_ltb_trichotomy l1 l2 :
  length l1 = length l2 → l1 = l2 ∨ array_ltb l1 l2 = true ∨ array_ltb l2 l1 = true.
Proof.
  revert l2. induction l1 as [|x l1 IH]; intros [|y l2]; simpl; intros Hl; simplify_eq; [by left|].
  destruct (Z.ltb_spec x y), (Z.ltb_spec y x); try lia; auto.
  assert (x = y) as -> by lia. destruct (IH l2 Hl) as [->|[?|?]]; auto.
Qed.

Lemma array_ltb_asym l1 l2 : array_ltb l1 l2 = true → array_ltb l2 l1 = false.
Proof.
  revert l2. induction l1 as [|x l1 IH]; intros [|y l2]; simpl; try done.
  destruct (Z.ltb_spec x y), (Z.ltb_spec y x); try lia; auto; done.
Qed.

Lemma array_ltb_irrefl l : array_ltb l l = false.
Proof. induction l as [|x l IH]; simpl; [done|]. by rewrite Z.ltb_irrefl. Qed.

(** The three-way comparison of [address] is unordered exactly across the
    two families, and antisymmetric within each; on IPv6 it agrees with
    [operator==] only up to the scope id - addresses differing just in their
    scope compare as equal although they are not. *)
Theorem address_compare_spec a b :
  (∀ x, (a = AddrV6 x ∨ b = AddrV6 x) → length (v6_bytes x) = 16%nat) →
  (address_compare a b = None ↔ address_is_v4 a ≠ address_is_v4 b) ∧
  address_compare b a = CompOpp <$> address_compare a b ∧
  (address_compare a b = Some Eq ↔
   a = b ∨ ∃ x y, a = AddrV6 x ∧ b = AddrV6 y ∧ v6_bytes x = v6_bytes y).
Proof.
  intros Hlen.
  assert (Hcmp : ∀ l1 l2 : list Z, length l1 = length l2 →
    let c l1 l2 := if decide (l1 = l2) then Eq else if array_ltb l1 l2 then Lt else Gt in
    c l2 l1 = CompOpp (c l1 l2) ∧ (c l1 l2 = Eq ↔ l1 = l2)).
  { intros l1 l2 Hl. simpl. destruct (decide (l1 = l2)) as [->|Hne].
    - by rewrite decide_True.
    - rewrite decide_False by done. destruct (array_ltb_trichotomy l1 l2 Hl) as [?|[E|E]]; [done|..];
        rewrite E, (array_ltb_asym _ _ E); done. }
  destruct a as [a|a], b as [b|b]; simpl; (split; [split; done|]).
  - destruct (Hcmp (v4_bytes a) (v4_bytes b) eq_refl) as [H1 H2]. unfold v4_compare.
    rewrite H1. split; [done|]. rewrite (inj_iff Some), H2. split.
    + left. destruct a, b. unfold v4_bytes in *. simpl in *. congruence.
    + intros [[= ->]|(?&?&[=]&_)]. done.
  - split; [done|]. split; [done|]. intros [?|(?&?&?&?&?)]; done.
  - split; [done|]. split; [done|]. intros [?|(?&?&?&?&?)]; done.
  - destruct (Hcmp (v6_bytes a) (v6_bytes b)) as [H1 H2].
    { rewrite (Hlen a), (Hlen b); auto. }
    unfold v6_compare. rewrite H1. split; [done|]. rewrite (inj_iff Some), H2. split.
    + intros ?. right. eauto.
    + intros [[= ->]|(?&?&[= ->]&[= ->]&?)]; done.
Qed.

Lemma address_compare_spec_witness :
  let a := AddrV6 (V6 (replicate 16 1) 0) in
  let b := AddrV6 (V6 (replicate 16 1) 3) in
  (address_compare a b = None ↔ address_is_v4 a ≠ address_is_v4 b) ∧
  address_compare b a = CompOpp <$> address_compare a b ∧
  (address_compare a b = Some Eq ↔
   a = b ∨ ∃ x y, a = AddrV6 x ∧ b = AddrV6 y ∧ v6_bytes x = v6_bytes y).
Proof. apply address_compare_spec. by intros x [[= <-]|[= <-]]. Defined.
