(* ===== verification/FileContext.v ===== *)
(** * nstd::file: open flags, descriptors and the asynchronous context interface

    Models src/src/nstd/file/open_flags.{hpp,cpp}, descriptor.{hpp,cpp},
    mapped_memory.{hpp,cpp} and context.hpp with io_base.hpp. Continuations ([io_base] objects), buffers and
    other pointees are identified by their addresses. The virtual functions of
    [context] are the constructors of [request]; a class derived from it is an
    instance of [FileContext]. *)
From S2P Require Import Prelude IntrusiveList.
Local Open Scope Z_scope.

(** ** open_flags *)
Definition open_flags := Z.

Definition flag_none : open_flags := 0x00000.
Definition flag_in : open_flags := 0x00001.
Definition flag_out : open_flags := 0x00002.
Definition flag_inout : open_flags := 0x00003.
Definition flag_all : open_flags := 0x7FFFF.

(** The single-bit enumerators, in the order of the declaration: [in], [out],
    [append], [trunc], [create], [async], [cloexec], [direct], [directory],
    [dsync], [excl], [largefile], [noattime], [noctty], [nofollow],
    [nonblock], [path], [sync], [tmpfile]. *)
Definition flag_bits : list open_flags :=
  [0x00001; 0x00002; 0x00004; 0x00008; 0x00010; 0x00020; 0x00040; 0x00080; 0x00100; 0x00200;
   0x00400; 0x00800; 0x01000; 0x02000; 0x04000; 0x08000; 0x10000; 0x20000; 0x40000].

Definition apply_binary_op (f0 f1 : open_flags) (op : Z → Z → Z) : open_flags :=
  wrapu 32 (op f0 f1).
Definition flags_compl (flags : open_flags) : open_flags := wrapu 32 (Z.lnot flags).
Definition flags_or_assign (f0 f1 : open_flags) : open_flags := apply_binary_op f0 f1 Z.lor.
Definition flags_xor_assign (f0 f1 : open_flags) : open_flags := apply_binary_op f0 f1 Z.lxor.
Definition flags_and_assign (f0 f1 : open_flags) : open_flags := apply_binary_op f0 f1 Z.land.
Definition flags_or (f0 f1 : open_flags) : open_flags := apply_binary_op f0 f1 Z.lor.
Definition flags_xor (f0 f1 : open_flags) : open_flags := apply_binary_op f0 f1 Z.lxor.
Definition flags_and (f0 f1 : open_flags) : open_flags := apply_binary_op f0 f1 Z.land.

(** The system's access modes are given by the system's headers. *)
Definition to_system (O_RDONLY O_WRONLY O_RDWR : Z) (flags : open_flags) : result Z :=
  if flags =? flag_in then Ok O_RDONLY
  else if flags =? flag_out then Ok O_WRONLY
  else if flags =? flag_inout then Ok O_RDWR
  else Throw logic_error.

(** ** descriptor

    The descriptors of the program by address, and the [close] calls made. *)
Record descriptors := Descriptors { desc_fd : gmap loc Z; desc_closed : list Z }.

Definition descriptor_ctor (d : loc) (fd : Z) (s : descriptors) : descriptors :=
  Descriptors (<[d := fd]> (desc_fd s)) (desc_closed s).
Definition descriptor_get (d : loc) (s : descriptors) : option Z := desc_fd s !! d.
Definition descriptor_is_open (d : loc) (s : descriptors) : option bool :=
  fd ← desc_fd s !! d; Some (0 <=? fd).
Definition descriptor_bool (d : loc) (s : descriptors) : option bool :=
  fd ← descriptor_get d s; Some (0 <=? fd).
Definition descriptor_close (d : loc) (s : descriptors) : option descriptors :=
  fd ← desc_fd s !! d;
  Some (if fd <? 0 then s else Descriptors (desc_fd s) (desc_closed s ++ [fd])).
Definition descriptor_move_ctor (d other : loc) (s : descriptors) : option descriptors :=
  fd ← desc_fd s !! other;
  Some (Descriptors (<[d := fd]> (<[other := -1]> (desc_fd s))) (desc_closed s)).
Definition descriptor_move_assign (d other : loc) (s : descriptors) : option descriptors :=
  if decide (d = other) then Some s else
  s ← descriptor_close d s;
  fd ← desc_fd s !! other;
  Some (Descriptors (<[d := fd]> (<[other := -1]> (desc_fd s))) (desc_closed s)).
(** The object's lifetime ends after [close]. *)
Definition descriptor_dtor (d : loc) (s : descriptors) : option descriptors :=
  s ← descriptor_close d s;
  Some (Descriptors (delete d (desc_fd s)) (desc_closed s)).

(** ** mapped_memory: base address (0 for null) and length; the mappings that
    [munmap] was called for are recorded. *)
Record mapped_memory := Mapped { mm_base : Z; mm_length : Z }.

Definition mapped_default : mapped_memory := Mapped 0 0.
(** [d_length] is not moved: it gets its default initialiser. *)
Definition mapped_move_ctor (other : mapped_memory) : mapped_memory * mapped_memory :=
  (Mapped (mm_base other) 0, Mapped 0 (mm_length other)).
Definition mapped_dtor (m : mapped_memory) : list (Z * Z) :=
  if mm_base m =? 0 then [] else [(mm_base m, mm_length m)].
Definition mapped_map (mmap : Z → Z → Z → Z) (MAP_FAILED : Z) (length fd offset : Z)
    : mapped_memory * bool :=
  let base := mmap length fd offset in
  if base =? MAP_FAILED then (Mapped 0 length, false) else (Mapped base length, true).
Definition mapped_bool (m : mapped_memory) : bool := negb (mm_base m =? 0).
Definition mapped_at_offset (m : mapped_memory) (off : Z) : Z := mm_base m + off.

(** ** context: the requests, and the interface a derived class implements *)
Definition io_base := Z.

Inductive request :=
  | RAccept (fd addr len flags : Z) (io : io_base)
  | RCancel (to_cancel : io_base) (io : io_base)
  | RConnect (fd addr len : Z) (io : io_base)
  | RNop (io : io_base)
  | ROpenAt (fd name flags : Z) (io : io_base)
  | RRead (fd vec size : Z) (io : io_base)
  | RRecvmsg (fd msg flags : Z) (io : io_base)
  | RSendmsg (fd msg flags : Z) (io : io_base)
  | RTimer (spec : Z) (io : io_base)
  | RWrite (fd vec size : Z) (io : io_base).

#[export] Instance request_eq_dec : EqDecision request.
Proof. solve_decision. Defined.

(** The continuation a request completes, and the same request for another. *)
Definition request_cont (r : request) : io_base :=
  match r with
  | RAccept _ _ _ _ io | RCancel _ io | RConnect _ _ _ io | RNop io | ROpenAt _ _ _ io
  | RRead _ _ _ io | RRecvmsg _ _ _ io | RSendmsg _ _ _ io | RTimer _ io | RWrite _ _ _ io => io
  end.

Class FileContext (S : Type) := {
  do_run_one : S → outcome (Z * S);
  do_request : request → S → outcome S;
}.

Section context.
Context {S : Type} `{!FileContext S}.

Definition context_run_one (s : S) : outcome (Z * S) := do_run_one s.
Definition context_cancel (to_cancel handler : io_base) (s : S) : outcome S :=
  do_request (RCancel to_cancel handler) s.
Definition context_nop (handler : io_base) (s : S) : outcome S := do_request (RNop handler) s.
Definition context_timer (time : Z) (handler : io_base) (s : S) : outcome S :=
  do_request (RTimer time handler) s.
Definition context_accept (fd addr len flags : Z) (handler : io_base) (s : S) : outcome S :=
  do_request (RAccept fd addr len flags handler) s.
Definition context_connect (fd addr len : Z) (handler : io_base) (s : S) : outcome S :=
  do_request (RConnect fd addr len handler) s.
Definition context_sendmsg (fd msg len : Z) (handler : io_base) (s : S) : outcome S :=
  do_request (RSendmsg fd msg len handler) s.
Definition context_recvmsg (fd msg len : Z) (handler : io_base) (s : S) : outcome S :=
  do_request (RRecvmsg fd msg len handler) s.
Definition context_read (fd vec size : Z) (handler : io_base) (s : S) : outcome S :=
  do_request (RRead fd vec size handler) s.
Definition context_write (fd vec size : Z) (handler : io_base) (s : S) : outcome S :=
  do_request (RWrite fd vec size handler) s.
Definition context_open_at (fd name flags : Z) (handler : io_base) (s : S) : outcome S :=
  do_request (ROpenAt fd name flags handler) s.
End context.

(** Calling the member function that belongs to a request. *)
Definition context_call {S} `{!FileContext S} (r : request) : S → outcome S :=
  match r with
  | RAccept fd addr len flags io => context_accept fd addr len flags io
  | RCancel to_cancel io => context_cancel to_cancel io
  | RConnect fd addr len io => context_connect fd addr len io
  | RNop io => context_nop io
  | ROpenAt fd name flags io => context_open_at fd name flags io
  | RRead fd vec size io => context_read fd vec size io
  | RRecvmsg fd msg flags io => context_recvmsg fd msg flags io
  | RSendmsg fd msg flags io => context_sendmsg fd msg flags io
  | RTimer spec io => context_timer spec io
  | RWrite fd vec size io => context_write fd vec size io
  end.

(** ** Properties of open_flags *)
Lemma apply_binary_op_small f0 f1 op :
  is_uint 32 (op f0 f1) → apply_binary_op f0 f1 op = op f0 f1.
Proof. apply wrapu_small. Qed.

Lemma uint_testbit w z : 0 ≤ w → is_uint w z ↔ 0 ≤ z ∧ ∀ n, w ≤ n → Z.testbit z n = false.
Proof.
  intros Hw. split.
  - intros [H0 H1]. split; [done|]. intros n Hn. destruct (decide (z = 0)) as [->|]; [apply Z.bits_0|].
    apply Z.bits_above_log2; [done|]. assert (Z.log2 z < w) by (apply Z.log2_lt_pow2; lia). lia.
  - intros [H0 Hb]. split; [done|]. assert (z = z `mod` 2 ^ w) as ->; [|apply Z.mod_pos_bound; lia].
    apply Z.bits_inj'. intros n Hn. destruct (decide (n < w)).
    + by rewrite Z.mod_pow2_bits_low.
    + rewrite Hb, Z.mod_pow2_bits_high by lia. done.
Qed.

Lemma flags_op_closed (op : Z → Z → Z) (b : bool → bool → bool) f g :
  (∀ x y n, Z.testbit (op x y) n = b (Z.testbit x n) (Z.testbit y n)) →
  (0 ≤ f → 0 ≤ g → 0 ≤ op f g) → b false false = false →
  is_uint 32 f → is_uint 32 g → apply_binary_op f g op = op f g.
Proof.
  intros Hop Hnn Hb Hf Hg. apply apply_binary_op_small.
  apply uint_testbit in Hf as [Hf1 Hf2]; [|lia]. apply uint_testbit in Hg as [Hg1 Hg2]; [|lia].
  apply uint_testbit; [lia|]. split; [auto|]. intros n Hn. by rewrite Hop, Hf2, Hg2 by lia.
Qed.

Lemma flags_compl_bits f n :
  0 ≤ n < 32 → Z.testbit (flags_compl f) n = negb (Z.testbit f n).
Proof. intros. unfold flags_compl, wrapu. rewrite Z.mod_pow2_bits_low, Z.lnot_spec by lia. done. Qed.

(** [open_flags] is a bitmask type: on 32-bit values the operators (and
    their assigning forms) are the bitwise ones, [~] flips every bit, the
    enumerators are the 19 distinct powers of two below [all], and [all] is
    their union. *)
Theorem open_flags_bitmask f g :
  is_uint 32 f → is_uint 32 g →
  (∀ n, Z.testbit (flags_or f g) n = Z.testbit f n || Z.testbit g n) ∧
  (∀ n, Z.testbit (flags_xor f g) n = xorb (Z.testbit f n) (Z.testbit g n)) ∧
  (∀ n, Z.testbit (flags_and f g) n = Z.testbit f n && Z.testbit g n) ∧
  flags_or_assign f g = flags_or f g ∧ flags_xor_assign f g = flags_xor f g ∧
  flags_and_assign f g = flags_and f g ∧
  flags_and f (flags_compl f) = flag_none ∧ flags_or f (flags_compl f) = 2 ^ 32 - 1 ∧
  flag_bits = (λ n, 2 ^ n) <$> seqZ 0 19 ∧ foldr flags_or flag_none flag_bits = flag_all.
Proof.
  intros Hf Hg.
  assert (Hor : ∀ x y, is_uint 32 x → is_uint 32 y → flags_or x y = Z.lor x y).
  { intros. apply (flags_op_closed Z.lor orb); auto using Z.lor_spec.
    intros. by apply Z.lor_nonneg. }
  assert (Hand : ∀ x y, is_uint 32 x → is_uint 32 y → flags_and x y = Z.land x y).
  { intros. apply (flags_op_closed Z.land andb); auto using Z.land_spec.
    intros. apply Z.land_nonneg. auto. }
  assert (Hxor : ∀ x y, is_uint 32 x → is_uint 32 y → flags_xor x y = Z.lxor x y).
  { intros. apply (flags_op_closed Z.lxor xorb); auto using Z.lxor_spec.
    intros. apply Z.lxor_nonneg. tauto. }
  assert (Hc : is_uint 32 (flags_compl f)) by (by apply wrapu_range).
  assert (Hhigh : ∀ x n, is_uint 32 x → 32 ≤ n → Z.testbit x n = false).
  { intros x n Hx Hn. apply uint_testbit in Hx as [_ Hx]; [auto|lia]. }
  split_and!; try done.
  - intros n. by rewrite Hor, Z.lor_spec.
  - intros n. by rewrite Hxor, Z.lxor_spec.
  - intros n. by rewrite Hand, Z.land_spec.
  - rewrite Hand by done. apply Z.bits_inj'. intros n Hn.
    rewrite Z.land_spec, Z.bits_0. destruct (decide (n < 32)).
    + rewrite flags_compl_bits by lia. apply andb_negb_r.
    + by rewrite Hhigh by (done || lia).
  - rewrite Hor by done. change (2 ^ 32 - 1) with (Z.ones 32). apply Z.bits_inj'. intros n Hn.
    rewrite Z.lor_spec, Z.testbit_ones_nonneg by lia. destruct (Z.ltb_spec n 32).
    + rewrite flags_compl_bits by lia. apply orb_negb_r.
    + by rewrite !Hhigh by (done || lia).
Qed.

Lemma open_flags_bitmask_witness :
  let f := 0x00013 in let g := 0x00412 in
  (∀ n, Z.testbit (flags_or f g) n = Z.testbit f n || Z.testbit g n) ∧
  (∀ n, Z.testbit (flags_xor f g) n = xorb (Z.testbit f n) (Z.testbit g n)) ∧
  (∀ n, Z.testbit (flags_and f g) n = Z.testbit f n && Z.testbit g n) ∧
  flags_or_assign f g = flags_or f g ∧ flags_xor_assign f g = flags_xor f g ∧
  flags_and_assign f g = flags_and f g ∧
  flags_and f (flags_compl f) = flag_none ∧ flags_or f (flags_compl f) = 2 ^ 32 - 1 ∧
  flag_bits = (λ n, 2 ^ n) <$> seqZ 0 19 ∧ foldr flags_or flag_none flag_bits = flag_all.
Proof. apply (open_flags_bitmask 0x00013 0x00412); by apply (bool_decide_unpack _). Defined.

(** ** Ownership of file descriptors *)
Definition held (m : gmap loc Z) : list Z := filter (λ fd, 0 ≤ fd) (map_to_list m).*2.

Lemma held_insert m d fd :
  m !! d = None → held (<[d := fd]> m) ≡ₚ filter (λ fd, 0 ≤ fd) [fd] ++ held m.
Proof.
  intros Hd. unfold held. rewrite (map_to_list_insert m d fd Hd).
  by rewrite fmap_cons, <-filter_app.
Qed.

Lemma held_delete m d fd :
  m !! d = Some fd → held m ≡ₚ filter (λ fd, 0 ≤ fd) [fd] ++ held (delete d m).
Proof.
  intros Hd. rewrite <-(insert_delete_id m d fd) at 1 by done.
  apply held_insert, lookup_delete_eq.
Qed.

Lemma held_update m d fd fd' :
  m !! d = Some fd → filter (λ fd, 0 ≤ fd) [fd] ++ held (<[d := fd']> m) ≡ₚ filter (λ fd, 0 ≤ fd) [fd'] ++ held m.
Proof.
  intros Hd. rewrite <-insert_delete_eq, held_insert by apply lookup_delete_eq.
  rewrite (held_delete m d fd Hd). by rewrite !(assoc_L (++)), (comm (++) (filter _ [fd])).
Qed.

Inductive descriptor_op :=
  | DCtor (d : loc) (fd : Z)
  | DMoveCtor (d other : loc)
  | DMoveAssign (d other : loc)
  | DDtor (d : loc).

Definition descriptor_step (s : descriptors) (op : descriptor_op) : option descriptors :=
  match op with
  | DCtor d fd => Some (descriptor_ctor d fd s)
  | DMoveCtor d other => descriptor_move_ctor d other s
  | DMoveAssign d other => descriptor_move_assign d other s
  | DDtor d => descriptor_dtor d s
  end.

(** Objects are constructed where none lives; other operands are alive. *)
Definition descriptor_op_ok (s : descriptors) (op : descriptor_op) : bool :=
  let alive d := bool_decide (d ∈ dom (desc_fd s)) in
  match op with
  | DCtor d _ => negb (alive d)
  | DMoveCtor d other => negb (alive d) && alive other
  | DMoveAssign d other => alive d && alive other
  | DDtor d => alive d
  end.

Definition op_opened (op : descriptor_op) : list Z :=
  match op with DCtor _ fd => filter (λ fd, 0 ≤ fd) [fd] | _ => [] end.

(** What the program holds or has closed. *)
Definition desc_total (s : descriptors) : list Z := held (desc_fd s) ++ desc_closed s.

Lemma descriptor_close_total s d fd :
  desc_fd s !! d = Some fd →
  ∃ s', descriptor_close d s = Some s' ∧ desc_fd s' = desc_fd s ∧
    desc_closed s' ≡ₚ filter (λ fd, 0 ≤ fd) [fd] ++ desc_closed s.
Proof.
  intros Hd. unfold descriptor_close. rewrite Hd; simpl. eexists. split; [done|].
  destruct (Z.ltb_spec fd 0); rewrite filter_cons, filter_nil; case_decide; try lia; simpl; [done|].
  split; [done|]. by rewrite (comm (++)).
Qed.

Lemma held_move m d other fd :
  other ≠ d → m !! other = Some fd →
  (∀ fdd, m !! d = Some fdd → filter (λ fd, 0 ≤ fd) [fdd] ++ held (<[d := fd]> (<[other := -1]> m)) ≡ₚ held m) ∧
  (m !! d = None → held (<[d := fd]> (<[other := -1]> m)) ≡ₚ held m).
Proof.
  intros Hne Ho.
  assert (Hm : filter (λ fd, 0 ≤ fd) [fd] ++ held (<[other:=-1]> m) ≡ₚ held m).
  { rewrite (held_update m other fd (-1) Ho). by rewrite filter_cons_False by lia. }
  split.
  - intros fdd Hd. rewrite (held_update _ d fdd fd); [done|]. by rewrite lookup_insert_ne.
  - intros Hd. rewrite held_insert; [done|]. by rewrite lookup_insert_ne.
Qed.

Lemma descriptor_step_total s op :
  descriptor_op_ok s op = true →
  ∃ s', descriptor_step s op = Some s' ∧ desc_total s' ≡ₚ op_opened op ++ desc_total s.
Proof.
  unfold desc_total. destruct op as [d fd|d other|d other|d]; simpl; rewrite ?andb_true_iff;
    unfold descriptor_move_ctor, descriptor_move_assign, descriptor_dtor.
  - intros H%negb_true_iff%bool_decide_eq_false%not_elem_of_dom. eexists; split; [done|]; simpl.
    by rewrite (held_insert _ _ _ H), <-(assoc_L (++)).
  - intros [H%negb_true_iff%bool_decide_eq_false Ho%bool_decide_eq_true].
    assert (other ≠ d) by (intros ->; done). apply not_elem_of_dom in H.
    apply elem_of_dom in Ho as [fd Ho]. rewrite Ho; simpl. eexists; split; [done|]; simpl.
    destruct (held_move (desc_fd s) d other fd) as [_ Hmv]; [done..|]. by rewrite Hmv.
  - intros [H%bool_decide_eq_true Ho%bool_decide_eq_true].
    destruct (decide (d = other)); [by eauto|].
    apply elem_of_dom in H as [fdd H]. apply elem_of_dom in Ho as [fd Ho].
    destruct (descriptor_close_total s d fdd H) as (s1 & Hcl & Hfd & Hc). rewrite Hcl; simpl.
    rewrite Hfd, Ho; simpl. eexists; split; [done|]; simpl.
    destruct (held_move (desc_fd s) d other fd) as [Hmv _]; [done..|].
    rewrite Hc, <-(Hmv fdd H). by rewrite (assoc_L (++)), (comm (++) _ (filter _ [fdd])).
  - intros H%bool_decide_eq_true. apply elem_of_dom in H as [fd H].
    destruct (descriptor_close_total s d fd H) as (s1 & Hcl & Hfd & Hc). rewrite Hcl; simpl.
    eexists; split; [done|]; simpl. rewrite Hfd, Hc, (held_delete (desc_fd s) d fd H).
    by rewrite (assoc_L (++)), (comm (++) (filter _ _)).
Qed.

(** Running operations in order, each checked against its precondition. *)
Fixpoint descriptor_run (s : descriptors) (ops : list descriptor_op) : option descriptors :=
  match ops with
  | [] => Some s
  | op :: ops =>
      if descriptor_op_ok s op then s ← descriptor_step s op; descriptor_run s ops else None
  end.

(** File descriptors are owned exclusively: after any legal sequence of
    constructions, moves, move assignments (to oneself included) and
    destructions, the descriptors held and the [close] calls made are exactly
    the ones opened; so once no object holds one, each was closed exactly
    once. *)
Theorem descriptor_no_leak ops s :
  descriptor_run (Descriptors ∅ []) ops = Some s →
  held (desc_fd s) ++ desc_closed s ≡ₚ ops ≫= op_opened ∧
  (dom (desc_fd s) = ∅ → desc_closed s ≡ₚ ops ≫= op_opened).
Proof.
  assert (Hgen : ∀ s0, descriptor_run s0 ops = Some s →
    desc_total s ≡ₚ (ops ≫= op_opened) ++ desc_total s0).
  { induction ops as [|op ops IH]; simpl; intros s0 H; [by simplify_eq|].
    destruct (descriptor_op_ok s0 op) eqn:Hok; [|done].
    destruct (descriptor_step_total s0 op Hok) as (s1 & Hs & Ht). rewrite Hs in H; simpl in H.
    rewrite (IH s1 H), Ht. by rewrite !(assoc_L (++)), (comm (++) (op_opened op)). }
  intros H. apply Hgen in H. unfold desc_total in H. simpl in H.
  unfold held at 2 in H. rewrite map_to_list_empty, !app_nil_r in H. split; [done|].
  intros Hd%dom_empty_inv_L. rewrite <-H, Hd. unfold held. by rewrite map_to_list_empty.
Qed.

Lemma descriptor_no_leak_witness :
  let ops := [DCtor 1%nat 3; DCtor 2%nat 4; DMoveAssign 1%nat 1%nat; DMoveAssign 1%nat 2%nat; DMoveCtor 5%nat 1%nat;
              DDtor 1%nat; DDtor 2%nat; DDtor 5%nat] in
  held ∅ ++ [3; 4] ≡ₚ ops ≫= op_opened ∧ (dom (∅ : gmap loc Z) = ∅ → [3; 4] ≡ₚ ops ≫= op_opened).
Proof.
  exact (descriptor_no_leak
    [DCtor 1%nat 3; DCtor 2%nat 4; DMoveAssign 1%nat 1%nat; DMoveAssign 1%nat 2%nat; DMoveCtor 5%nat 1%nat; DDtor 1%nat; DDtor 2%nat; DDtor 5%nat]
    (Descriptors ∅ [3; 4]) eq_refl).
Defined.
