(* ===== verification/TestContext.v ===== *)
(** * nstd::file::test_context

    The context used to drive tests (src/src/nstd/file/test_context.{hpp,cpp}):
    every operation calls a replaceable [std::function], which by default makes
    its continuation ready with result -1. *)
From S2P Require Import Prelude IntrusiveList FileContext.
Local Open Scope Z_scope.

(** A [std::function] member: empty, the one installed by the constructor, or
    one assigned by the user, identified by a number. *)
Inductive handler := HEmpty | HMakeReady | HUser (id : nat).

Record test_context := TestContext {
  d_ready : list (Z * Z * io_base);
  on_cancel : handler;
  on_nop : handler;
  on_timer : handler;
  on_accept : handler;
  on_connect : handler;
  on_sendmsg : handler;
  on_recvmsg : handler;
  on_read : handler;
  on_write : handler;
  on_open_at : handler;
}.

Definition tc_set_ready (r : list (Z * Z * io_base)) (s : test_context) : test_context :=
  TestContext r (on_cancel s) (on_nop s) (on_timer s) (on_accept s) (on_connect s)
    (on_sendmsg s) (on_recvmsg s) (on_read s) (on_write s) (on_open_at s).

(** The constructor installs nine of the ten handlers. *)
Definition test_context_ctor : test_context :=
  TestContext [] HMakeReady HMakeReady HMakeReady HMakeReady HMakeReady HMakeReady HMakeReady
    HMakeReady HEmpty HMakeReady.

(** [emplace_front]: the newest entry comes first. *)
Definition make_ready (rc flags : Z) (cont : io_base) (s : test_context) : test_context :=
  tc_set_ready ((rc, flags, cont) :: d_ready s) s.

Section test_context.
(** What user-assigned handlers and continuations do, to the context and to
    the rest of the program's state. *)
Context {Env : Type}.
Context (user : nat → request → test_context * Env → outcome (test_context * Env)).
Context (io_result : io_base → Z → Z → test_context * Env → outcome (test_context * Env)).

(** Calling an empty [std::function] throws. *)
Definition tc_invoke (h : handler) (r : request) (s : test_context * Env) : outcome (test_context * Env) :=
  match h with
  | HEmpty => Exc bad_function_call
  | HMakeReady => Ret (make_ready (-1) 0 (request_cont r) s.1, s.2)
  | HUser id => user id r s
  end.

Definition tc_do_run_one (s : test_context * Env) : outcome (Z * (test_context * Env)) :=
  match last (d_ready s.1) with
  | None => Ret (0, s)
  | Some (rc, flags, cont) =>
      s ← io_result cont rc flags (tc_set_ready (removelast (d_ready s.1)) s.1, s.2);
      Ret (1, s)
  end.

Definition tc_do_cancel (to_cancel cont : io_base) (s : test_context * Env) : outcome (test_context * Env) :=
  tc_invoke (on_cancel s.1) (RCancel to_cancel cont) s.
Definition tc_do_nop (cont : io_base) (s : test_context * Env) : outcome (test_context * Env) :=
  tc_invoke (on_nop s.1) (RNop cont) s.
Definition tc_do_timer (spec : Z) (cont : io_base) (s : test_context * Env) : outcome (test_context * Env) :=
  tc_invoke (on_timer s.1) (RTimer spec cont) s.
Definition tc_do_accept (fd addr len flags : Z) (cont : io_base) (s : test_context * Env)
    : outcome (test_context * Env) :=
  tc_invoke (on_accept s.1) (RAccept fd addr len flags cont) s.
Definition tc_do_connect (fd addr len : Z) (cont : io_base) (s : test_context * Env)
    : outcome (test_context * Env) :=
  tc_invoke (on_connect s.1) (RConnect fd addr len cont) s.
Definition tc_do_sendmsg (fd msg len : Z) (cont : io_base) (s : test_context * Env)
    : outcome (test_context * Env) :=
  tc_invoke (on_sendmsg s.1) (RSendmsg fd msg len cont) s.
Definition tc_do_recvmsg (fd msg len : Z) (cont : io_base) (s : test_context * Env)
    : outcome (test_context * Env) :=
  tc_invoke (on_recvmsg s.1) (RRecvmsg fd msg len cont) s.
Definition tc_do_read (fd data len : Z) (cont : io_base) (s : test_context * Env)
    : outcome (test_context * Env) :=
  tc_invoke (on_read s.1) (RRead fd data len cont) s.
Definition tc_do_write (fd data len : Z) (cont : io_base) (s : test_context * Env)
    : outcome (test_context * Env) :=
  tc_invoke (on_write s.1) (RWrite fd data len cont) s.
Definition tc_do_open_at (fd path flags : Z) (cont : io_base) (s : test_context * Env)
    : outcome (test_context * Env) :=
  tc_invoke (on_open_at s.1) (ROpenAt fd path flags cont) s.

#[export] Instance test_file_context : FileContext (test_context * Env) := {|
  do_run_one := tc_do_run_one;
  do_request r :=
    match r with
    | RAccept fd addr len flags io => tc_do_accept fd addr len flags io
    | RCancel to_cancel io => tc_do_cancel to_cancel io
    | RConnect fd addr len io => tc_do_connect fd addr len io
    | RNop io => tc_do_nop io
    | ROpenAt fd name flags io => tc_do_open_at fd name flags io
    | RRead fd vec size io => tc_do_read fd vec size io
    | RRecvmsg fd msg flags io => tc_do_recvmsg fd msg flags io
    | RSendmsg fd msg flags io => tc_do_sendmsg fd msg flags io
    | RTimer spec io => tc_do_timer spec io
    | RWrite fd vec size io => tc_do_write fd vec size io
    end;
|}.

(** ** The context as a first-in first-out queue *)

(** The pending results, oldest first. *)
Definition tc_queue (s : test_context * Env) : list (Z * Z * io_base) := reverse (d_ready s.1).

Definition is_write (r : request) : bool := match r with RWrite _ _ _ _ => true | _ => false end.

(** All handlers are the constructor's. *)
Definition tc_default (s : test_context * Env) : Prop :=
  s.1 = tc_set_ready (d_ready s.1) test_context_ctor.

Lemma tc_call_default r s :
  tc_default s → is_write r = false →
  context_call r s = Ret (make_ready (-1) 0 (request_cont r) s.1, s.2).
Proof. destruct s as [c e]. unfold tc_default. simpl. intros -> ?. by destruct r. Qed.

Fixpoint tc_call_all (rs : list request) (s : test_context * Env) : outcome (test_context * Env) :=
  match rs with [] => Ret s | r :: rs => s ← context_call r s; tc_call_all rs s end.

(** [run_one] until nothing is ready, at most [n] times. *)
Fixpoint tc_run (n : nat) (s : test_context * Env) : outcome (Z * (test_context * Env)) :=
  match n with
  | O => Ret (0, s)
  | S n =>
      '(k, s) ← context_run_one s;
      if k =? 0 then Ret (0, s) else '(m, s) ← tc_run n s; Ret (k + m, s)
  end.

Lemma tc_call_all_default rs s :
  tc_default s → Forall (λ r, is_write r = false) rs →
  ∃ s', tc_call_all rs s = Ret s' ∧ tc_default s' ∧ s'.2 = s.2 ∧
    tc_queue s' = tc_queue s ++ ((λ r, (-1, 0, request_cont r)) <$> rs).
Proof.
  intros Hs Hrs. revert s Hs. induction Hrs as [|r rs Hr _ IH]; intros s Hs; simpl.
  { exists s. by rewrite app_nil_r. }
  rewrite tc_call_default by done. simpl.
  destruct (IH (make_ready (-1) 0 (request_cont r) s.1, s.2)) as (s' & Hc & Hd & He & Hq).
  { unfold tc_default in *. simpl. by rewrite Hs. }
  exists s'. split_and!; [done..|]. rewrite Hq. unfold tc_queue, make_ready; simpl.
  by rewrite reverse_cons, <-(assoc_L (++)).
Qed.

Lemma tc_run_one_queue c e rc flags cont q :
  tc_queue (c, e) = (rc, flags, cont) :: q →
  tc_do_run_one (c, e) =
    (s' ← io_result cont rc flags (tc_set_ready (reverse q) c, e); Ret (1, s')).
Proof.
  intros Hq. unfold tc_do_run_one. simpl.
  assert (d_ready c = reverse q ++ [(rc, flags, cont)]) as ->.
  { rewrite <-(reverse_involutive (d_ready c)). unfold tc_queue in Hq. simpl in Hq.
    by rewrite Hq, reverse_cons. }
  by rewrite last_snoc, removelast_last.
Qed.
End test_context.

(** Continuations that only log their calls. *)
Definition log_result (io : io_base) (rc flags : Z)
    (s : test_context * list (io_base * Z * Z)) : outcome (test_context * list (io_base * Z * Z)) :=
  Ret (s.1, s.2 ++ [(io, rc, flags)]).

Lemma tc_run_log user c e n :
  (length (d_ready c) < n)%nat →
  tc_run user log_result n (c, e) =
    Ret (Z.of_nat (length (d_ready c)),
         (tc_set_ready [] c, e ++ ((λ '(rc, flags, io), (io, rc, flags)) <$> reverse (d_ready c)))).
Proof.
  revert c e. induction n as [|n IH]; intros c e Hn; [lia|]. cbn [tc_run].
  unfold context_run_one; cbn [do_run_one test_file_context].
  destruct (tc_queue (c, e)) as [|[[rc flags] io] q] eqn:Hq.
  - unfold tc_queue in Hq; simpl in Hq. rewrite Hq.
    assert (d_ready c = []) as Hr by (by rewrite <-(reverse_involutive (d_ready c)), Hq).
    unfold tc_do_run_one; simpl. rewrite Hr. simpl. rewrite app_nil_r.
    destruct c; simpl in *; by subst.
  - rewrite (tc_run_one_queue _ _ _ _ _ _ _ Hq). simpl.
    assert (length (d_ready c) = S (length q)) as Hl.
    { unfold tc_queue in Hq; simpl in Hq. by rewrite <-length_reverse, Hq. }
    rewrite IH by (simpl; rewrite length_reverse; lia). cbn [mbind outcome_bind].
    unfold tc_queue in Hq; simpl in Hq. rewrite Hq, Hl. simpl.
    rewrite length_reverse, reverse_involutive, <-(assoc_L (++)). simpl.
    do 2 f_equal. lia.
Qed.

Lemma tc_call_all_write user rs s :
  tc_default s → existsb is_write rs = true →
  tc_call_all user log_result rs s = Exc bad_function_call.
Proof.
  revert s. induction rs as [|r rs IH]; intros s Hs; simpl; [done|].
  destruct (is_write r) eqn:Hr; simpl; intros Hw.
  - destruct r; try done. unfold context_call, context_write, do_request; simpl.
    unfold tc_do_write, tc_invoke. by rewrite Hs.
  - rewrite tc_call_default by done. simpl. apply IH; [|done].
    unfold tc_default in *. simpl. by rewrite Hs.
Qed.

(** The default test context is a FIFO queue for every request but writes:
    a sequence of requests without a write is accepted, and running it
    completes each exactly once, in submission order, with result -1, [run_one]
    reporting one completion each time and then 0. The constructor forgets
    [on_write], so a sequence with a write throws [std::bad_function_call]. *)
Theorem test_context_fifo user rs n :
  (length rs < n)%nat →
  if existsb is_write rs then
    tc_call_all user log_result rs (test_context_ctor, []) = Exc bad_function_call
  else
    ∃ s, tc_call_all user log_result rs (test_context_ctor, []) = Ret s ∧
      tc_run user log_result n s =
        Ret (Z.of_nat (length rs),
             (test_context_ctor, (λ r, (request_cont r, -1, 0)) <$> rs)).
Proof.
  intros Hn. destruct (existsb is_write rs) eqn:Hw; [by apply tc_call_all_write|].
  assert (Hrs : Forall (λ r, is_write r = false) rs).
  { clear Hn. induction rs as [|r rs IH]; simpl in *; [done|].
    apply orb_false_iff in Hw as [??]. auto. }
  destruct (tc_call_all_default user log_result rs (test_context_ctor, [])) as ([c e] & Hc & Hd & He & Hq);
    [done..|].
  exists (c, e). split; [done|]. unfold tc_queue in Hq. simpl in Hq, He, Hd. subst e.
  assert (length (d_ready c) = length rs) as Hl by (by rewrite <-length_reverse, Hq, length_fmap).
  rewrite tc_run_log, Hl, Hq by lia.
  do 3 f_equal; [by unfold tc_default in Hd; simpl in Hd; rewrite Hd|].
  simpl. rewrite <-list_fmap_compose. done.
Qed.

Lemma test_context_fifo_witness :
  let user := λ _ _ _, UB in
  let rs := [RNop 7; RRead 3 100 2 8; RTimer 50 9] in
  ∃ s, tc_call_all user log_result rs (test_context_ctor, []) = Ret s ∧
    tc_run user log_result 4 s = Ret (3, (test_context_ctor, [(7, -1, 0); (8, -1, 0); (9, -1, 0)])).
Proof.
  apply (test_context_fifo (λ _ _ _, UB) [RNop 7; RRead 3 100 2 8; RTimer 50 9] 4). simpl; lia.
Defined.
