(* ===== verification/ObserverContext.v ===== *)
(** * nstd::file::observer_context

    The context decorator of src/src/nstd/file/observer_context.{hpp,cpp}: each
    operation is logged and forwarded to another context with a continuation
    object of its own, kept in the intrusive list [d_outstanding] until the
    result comes back. Every call into the environment - output, the other
    context, the client's continuation - is the last thing its handler does
    with the state, so a handler returns them as a list of effects in order. *)
From S2P Require Import Prelude IntrusiveList FileContext.
Local Open Scope Z_scope.

(** ** Data *)

(** The function object of a [continuation], with what it captured. *)
Inductive observer_fun :=
  | FunCancel | FunNop | FunTimer
  | FunAccept (fd : Z) | FunConnect (fd : Z) | FunSendmsg (fd : Z) | FunRecvmsg (fd : Z)
  | FunRead (fd : Z) | FunWrite (fd : Z) | FunOpenAt (fd : Z).

(** [continuation_base] without its link, and the function of the derived
    class. *)
Record continuation := Continuation { d_cont : io_base; d_fun : observer_fun }.

Record observer_context := Observer {
  oc_store : store;
  d_outstanding : loc;
  oc_objects : gmap loc continuation;
}.

(** Text written to the standard output. *)
Inductive out := OStr (s : string) | OInt (z : Z) | OHex (z : Z) | OPath (p : Z).

Inductive effect :=
  | EPrint (l : list out)
  | ERunOne
  | EUpstream (r : request)
  | EResult (io : io_base) (rc flags : Z).

(** ** Operations *)

(** [node] is the address [new] returns. *)
Definition oc_add (node : loc) (cont : io_base) (f : observer_fun) (s : observer_context)
    : option observer_context :=
  let σ := <[node := Link 0%nat 0%nat]> (oc_store s) in
  b ← list_begin σ (d_outstanding s);
  '(σ, _) ← list_insert σ b node;
  Some (Observer σ (d_outstanding s) (<[node := Continuation cont f]> (oc_objects s))).

Definition fun_call (f : observer_fun) (rc flags : Z) : list out :=
  let tail := [OInt rc; OStr ", flags="; OInt (wraps 32 flags); OStr "\n"] in
  match f with
  | FunCancel => OStr "< cancel: rc=" :: tail
  | FunNop => OStr "< nop: rc=" :: tail
  | FunTimer => OStr "< timer: rc=" :: tail
  | FunAccept fd => [OStr "< accept("; OInt fd; OStr "): rc="] ++ tail
  | FunConnect fd => [OStr "< connect("; OInt fd; OStr "): rc="] ++ tail
  | FunSendmsg fd => [OStr "< sendmsg("; OInt fd; OStr "): rc="] ++ tail
  | FunRecvmsg fd => [OStr "< recvmsg("; OInt fd; OStr "): rc="] ++ tail
  | FunRead fd => [OStr "< read("; OInt fd; OStr "): rc="] ++ tail
  | FunWrite fd => [OStr "< write("; OInt fd; OStr "): rc="] ++ tail
  | FunOpenAt fd => [OStr "< open_at("; OInt fd; OStr "): rc="] ++ tail
  end.

(** [continuation::do_result]: the object is taken off the list; it is not
    deleted. *)
Definition oc_do_result (node : loc) (rc flags : Z) (s : observer_context)
    : option (observer_context * list effect) :=
  c ← oc_objects s !! node;
  σ ← list_erase (oc_store s) (make_iterator node);
  Some (Observer σ (d_outstanding s) (oc_objects s),
        [EPrint (fun_call (d_fun c) rc flags); EResult (d_cont c) rc flags]).

(** The other context's [run_one] returns [rc]. *)
Definition oc_do_run_one (rc : Z) (s : observer_context) : observer_context * list effect :=
  (s, [EPrint [OStr "> run_one()\n"]; ERunOne; EPrint [OStr "< run_one(): rc="; OInt rc; OStr "\n"]]).

(** The address of a continuation as the other context sees it. *)
Definition node_io (node : loc) : io_base := Z.of_nat node.

Definition ENOENT : Z := 2.

(** [find_if] over the list. *)
Fixpoint oc_find (fuel : nat) (to_cancel : io_base) (s : observer_context) (it : loc)
    : option loc :=
  if decide (it = d_outstanding s) then Some it else
  match fuel with
  | O => None
  | S fuel =>
      c ← oc_objects s !! it;
      if decide (to_cancel = d_cont c) then Some it else
      n ← iterator_next (oc_store s) it; oc_find fuel to_cancel s n
  end.

Definition oc_do_cancel (node : loc) (to_cancel cont : io_base) (s : observer_context)
    : option (observer_context * list effect) :=
  b ← list_begin (oc_store s) (d_outstanding s);
  it ← oc_find (size (oc_store s)) to_cancel s b;
  if decide (it = list_end (d_outstanding s)) then Some (s, [EResult cont (- ENOENT) 0]) else
  s ← oc_add node cont FunCancel s;
  Some (s, [EUpstream (RCancel (node_io it) (node_io node))]).

Definition oc_do_nop (node : loc) (cont : io_base) (s : observer_context)
    : option (observer_context * list effect) :=
  s ← oc_add node cont FunNop s;
  Some (s, [EPrint [OStr "> nop()\n"]; EUpstream (RNop (node_io node))]).

Definition oc_do_timer (node : loc) (spec : Z) (cont : io_base) (s : observer_context)
    : option (observer_context * list effect) :=
  s ← oc_add node cont FunTimer s;
  Some (s, [EPrint [OStr "> timer()\n"]; EUpstream (RTimer spec (node_io node))]).

Definition oc_do_accept (node : loc) (fd addr len flags : Z) (cont : io_base) (s : observer_context)
    : option (observer_context * list effect) :=
  s ← oc_add node cont (FunAccept fd) s;
  Some (s, [EPrint [OStr "> accept("; OInt fd; OStr ", ...)\n"];
            EUpstream (RAccept fd addr len flags (node_io node))]).

Definition oc_do_connect (node : loc) (fd addr len : Z) (cont : io_base) (s : observer_context)
    : option (observer_context * list effect) :=
  s ← oc_add node cont (FunConnect fd) s;
  Some (s, [EPrint [OStr "> connect("; OInt fd; OStr ", ...)\n"];
            EUpstream (RConnect fd addr len (node_io node))]).

Definition oc_do_sendmsg (node : loc) (fd hdr len : Z) (cont : io_base) (s : observer_context)
    : option (observer_context * list effect) :=
  s ← oc_add node cont (FunSendmsg fd) s;
  Some (s, [EPrint [OStr "> sendmsg("; OInt fd; OStr ", ...)\n"];
            EUpstream (RSendmsg fd hdr len (node_io node))]).

Definition oc_do_recvmsg (node : loc) (fd hdr len : Z) (cont : io_base) (s : observer_context)
    : option (observer_context * list effect) :=
  s ← oc_add node cont (FunRecvmsg fd) s;
  Some (s, [EPrint [OStr "> recvmsg("; OInt fd; OStr ", ...)\n"];
            EUpstream (RRecvmsg fd hdr len (node_io node))]).

Definition oc_do_read (node : loc) (fd vec len : Z) (cont : io_base) (s : observer_context)
    : option (observer_context * list effect) :=
  s ← oc_add node cont (FunRead fd) s;
  Some (s, [EPrint [OStr "> read("; OInt fd; OStr ", ...)\n"];
            EUpstream (RRead fd vec len (node_io node))]).

(** A write is forwarded with [d_context.read]. *)
Definition oc_do_write (node : loc) (fd vec len : Z) (cont : io_base) (s : observer_context)
    : option (observer_context * list effect) :=
  s ← oc_add node cont (FunWrite fd) s;
  Some (s, [EPrint [OStr "> write("; OInt fd; OStr ", ...)\n"];
            EUpstream (RRead fd vec len (node_io node))]).

Definition oc_do_open_at (node : loc) (fd path flags : Z) (cont : io_base) (s : observer_context)
    : option (observer_context * list effect) :=
  s ← oc_add node cont (FunOpenAt fd) s;
  Some (s, [EPrint [OStr "> open_at("; OInt fd; OStr ", '"; OPath path; OStr "', "; OHex flags;
                    OStr ")\n"];
            EUpstream (ROpenAt fd path flags (node_io node))]).

Definition oc_call (node : loc) (r : request) : observer_context →
    option (observer_context * list effect) :=
  match r with
  | RAccept fd addr len flags io => oc_do_accept node fd addr len flags io
  | RCancel to_cancel io => oc_do_cancel node to_cancel io
  | RConnect fd addr len io => oc_do_connect node fd addr len io
  | RNop io => oc_do_nop node io
  | ROpenAt fd name flags io => oc_do_open_at node fd name flags io
  | RRead fd vec size io => oc_do_read node fd vec size io
  | RRecvmsg fd msg flags io => oc_do_recvmsg node fd msg flags io
  | RSendmsg fd msg flags io => oc_do_sendmsg node fd msg flags io
  | RTimer spec io => oc_do_timer node spec io
  | RWrite fd vec size io => oc_do_write node fd vec size io
  end.

(** ** What the decorator promises

    The specification keeps the forwarded operations, newest first, with the
    client's continuation, and the addresses used so far. *)
Inductive oc_event :=
  | EvCall (r : request) (node : loc)
  | EvResult (node : loc) (rc flags : Z).

Definition oc_event_run (s : observer_context) (ev : oc_event)
    : option (observer_context * list effect) :=
  match ev with
  | EvCall r node => oc_call node r s
  | EvResult node rc flags => oc_do_result node rc flags s
  end.

Record oc_spec := OcSpec { sp_pending : list (loc * io_base); sp_used : gset loc }.

(** The request that reaches the other context on behalf of the client's. *)
Definition forwarded (r : request) (io : io_base) : request :=
  match r with
  | RAccept fd addr len flags _ => RAccept fd addr len flags io
  | RCancel to_cancel _ => RCancel to_cancel io
  | RConnect fd addr len _ => RConnect fd addr len io
  | RNop _ => RNop io
  | ROpenAt fd name flags _ => ROpenAt fd name flags io
  | RRead fd vec size _ => RRead fd vec size io
  | RRecvmsg fd msg flags _ => RRecvmsg fd msg flags io
  | RSendmsg fd msg flags _ => RSendmsg fd msg flags io
  | RTimer spec _ => RTimer spec io
  | RWrite fd vec size _ => RRead fd vec size io
  end.

Definition oc_spec_step (s : oc_spec) (ev : oc_event) : option (oc_spec * list effect) :=
  match ev with
  | EvCall r node =>
      if decide (node ∈ sp_used s) then None else
      let s' := OcSpec ((node, request_cont r) :: sp_pending s) ({[node]} ∪ sp_used s) in
      match r with
      | RCancel to_cancel io =>
          match list_find (λ p, p.2 = to_cancel) (sp_pending s) with
          | None => Some (s, [EResult io (- ENOENT) 0])
          | Some (_, (n, _)) => Some (s', [EUpstream (RCancel (node_io n) (node_io node))])
          end
      | r => Some (s', [EUpstream (forwarded r (node_io node))])
      end
  | EvResult node rc flags =>
      '(i, (_, io)) ← list_find (λ p, p.1 = node) (sp_pending s);
      Some (OcSpec (take i (sp_pending s) ++ drop (S i) (sp_pending s)) (sp_used s),
            [EResult io rc flags])
  end.

Fixpoint oc_spec_run (s : oc_spec) (evs : list oc_event) : option (oc_spec * list effect) :=
  match evs with
  | [] => Some (s, [])
  | ev :: evs => '(s, e1) ← oc_spec_step s ev; '(s, e2) ← oc_spec_run s evs; Some (s, e1 ++ e2)
  end.

Fixpoint oc_run (s : observer_context) (evs : list oc_event)
    : option (observer_context * list effect) :=
  match evs with
  | [] => Some (s, [])
  | ev :: evs => '(s, e1) ← oc_event_run s ev; '(s, e2) ← oc_run s evs; Some (s, e1 ++ e2)
  end.

Definition not_print (e : effect) : bool := match e with EPrint _ => false | _ => true end.

(** ** Simulation *)
Definition oc_objects_ok (s : observer_context) (pend : list (loc * io_base)) : Prop :=
  Forall (λ p, ∃ f, oc_objects s !! p.1 = Some (Continuation p.2 f)) pend.

Record oc_rel (s : observer_context) (sp : oc_spec) : Prop := OcRel {
  rel_list : is_list (oc_store s) (d_outstanding s) (sp_pending sp).*1;
  rel_objects : oc_objects_ok s (sp_pending sp);
  rel_used : dom (oc_store s) ⊆ sp_used sp;
}.

Lemma pos_of_begin σ head l : is_list σ head l → list_begin σ head = Some (pos_of head l).
Proof. intros [_ Hc]. by apply chain_head in Hc. Qed.

Lemma oc_add_rel s sp node cont f :
  oc_rel s sp → node ∉ sp_used sp →
  ∃ s', oc_add node cont f s = Some s' ∧
    oc_rel s' (OcSpec ((node, cont) :: sp_pending sp) ({[node]} ∪ sp_used sp)).
Proof.
  intros [Hl Ho Hu] Hn. pose proof (is_list_dom _ _ _ Hl) as Hdom. rewrite Forall_forall in Hdom.
  assert (Hnl : ∀ y, y ∈ d_outstanding s :: (sp_pending sp).*1 → y ≠ node).
  { intros y Hy%Hdom ->. by apply Hn, Hu. }
  set (σ := <[node:=Link 0%nat 0%nat]> (oc_store s)).
  assert (Hl' : is_list σ (d_outstanding s) (sp_pending sp).*1).
  { eapply is_list_frame; [|exact Hl]. intros y Hy. apply lookup_insert_ne.
    intros ->. by eapply Hnl. }
  destruct (list_insert_spec σ (d_outstanding s) [] (sp_pending sp).*1 node)
    as (σ' & Hi & Hl2 & Hd & _); [done|subst σ; set_solver|by intros ?%Hnl|].
  unfold oc_add. fold σ. rewrite (pos_of_begin _ _ _ Hl'). simpl. rewrite Hi. simpl.
  eexists; split; [done|]. split; simpl.
  - done.
  - constructor; simpl; [exists f; by rewrite lookup_insert_eq|].
    apply Forall_forall. intros p Hp. unfold oc_objects_ok in Ho. rewrite Forall_forall in Ho.
    destruct (Ho p Hp) as [g Hg]. exists g. simpl. rewrite lookup_insert_ne; [done|].
    intros Heq. apply (Hnl p.1); [|done]. apply elem_of_cons. right. apply list_elem_of_fmap. eauto.
  - rewrite Hd. subst σ. rewrite dom_insert. set_solver.
Qed.

Lemma oc_find_spec s pend tc a fuel :
  chain (oc_store s) a pend.*1 (d_outstanding s) → d_outstanding s ∉ pend.*1 →
  oc_objects_ok s pend → (length pend ≤ fuel)%nat →
  ∃ it, link_next (oc_store s) a = Some it ∧
    oc_find fuel tc s it =
      Some (match list_find (λ p, p.2 = tc) pend with
            | Some (_, (n, _)) => n | None => d_outstanding s end).
Proof.
  revert a fuel. induction pend as [|[n io] pend IH]; intros a fuel; simpl.
  - intros [Hn _] _ _ _. exists (d_outstanding s). split; [done|].
    destruct fuel; simpl; by rewrite decide_True.
  - intros [[Hn _] Hc] Hh Hobj Hfuel. exists n. split; [done|].
    destruct fuel as [|fuel]; [simpl in *; lia|]. simpl.
    rewrite decide_False by set_solver.
    apply Forall_cons in Hobj as [[f Hf] Hobj]. simpl in Hf. rewrite Hf. simpl.
    destruct (IH n fuel Hc) as (it & Hit & Hfd); [set_solver|done|lia|].
    case_decide as Htc; [subst; by rewrite decide_True|].
    rewrite decide_False by (intros ->; done). unfold iterator_next. rewrite Hit. simpl.
    rewrite Hfd. destruct (list_find _ pend) as [[i [n' io']]|]; done.
Qed.

Lemma is_list_size σ head l : is_list σ head l → (length l ≤ size σ)%nat.
Proof.
  intros Hl. pose proof (is_list_dom _ _ _ Hl) as [_ Hdom]%Forall_cons.
  destruct Hl as [[_ Hnd]%NoDup_cons _].
  rewrite <-(size_dom (D:=gset loc)), <-(size_list_to_set (C:=gset loc) l) by done.
  apply subseteq_size. intros y Hy%elem_of_list_to_set. rewrite Forall_forall in Hdom. by apply Hdom.
Qed.

Lemma oc_cancel_rel s sp node tc cont sp' es :
  oc_rel s sp → oc_spec_step sp (EvCall (RCancel tc cont) node) = Some (sp', es) →
  ∃ s', oc_do_cancel node tc cont s = Some (s', es) ∧ oc_rel s' sp'.
Proof.
  intros Hrel. pose proof Hrel as [Hl Ho Hu]. simpl. case_decide as Hn; [done|].
  pose proof (is_list_dom _ _ _ Hl) as Hdom. rewrite Forall_forall in Hdom.
  pose proof Hl as [[Hh _]%NoDup_cons Hc].
  destruct (oc_find_spec s (sp_pending sp) tc (d_outstanding s) (size (oc_store s)))
    as (it & Hit & Hfd); [done..| |].
  { rewrite <-(length_fmap fst). by eapply is_list_size. }
  unfold oc_do_cancel, list_begin. rewrite Hit. simpl. rewrite Hfd. simpl.
  destruct (list_find _ (sp_pending sp)) as [[i [n io]]|] eqn:Hf.
  - intros [= <- <-]. unfold list_end.
    rewrite decide_False.
    { destruct (oc_add_rel s sp node cont FunCancel) as (s' & Ha & Hr); [done..|].
      rewrite Ha. simpl. eauto. }
    intros ->. apply Hh, list_elem_of_fmap. apply list_find_Some in Hf as [Hf _].
    exists (d_outstanding s, io). split; [done|]. by eapply list_elem_of_lookup_2.
  - unfold list_end. rewrite decide_True by done. intros [= <- <-]. eauto.
Qed.

Lemma oc_call_rel s sp r node sp' es :
  oc_rel s sp → oc_spec_step sp (EvCall r node) = Some (sp', es) →
  ∃ s' es', oc_call node r s = Some (s', es') ∧ filter not_print es' = filter not_print es ∧
    oc_rel s' sp'.
Proof.
  intros Hrel. destruct r as [| tc io| | | | | | | |];
    [|intros H; destruct (oc_cancel_rel s sp node tc io sp' es) as (s' & Hc & Hr); [done..|]; eauto|..];
    simpl; (case_decide as Hn; [done|]); intros [= <- <-];
    unfold oc_do_accept, oc_do_connect, oc_do_nop, oc_do_open_at, oc_do_read, oc_do_recvmsg,
      oc_do_sendmsg, oc_do_timer, oc_do_write;
    match goal with |- context [oc_add node ?c ?f s] =>
      destruct (oc_add_rel s sp node c f) as (s' & Ha & Hr); [done..|]; rewrite Ha; simpl end;
    by do 2 eexists.
Qed.

Lemma oc_result_rel s sp node rc flags sp' es :
  oc_rel s sp → oc_spec_step sp (EvResult node rc flags) = Some (sp', es) →
  ∃ s' es', oc_do_result node rc flags s = Some (s', es') ∧
    filter not_print es' = filter not_print es ∧ oc_rel s' sp'.
Proof.
  intros [Hl Ho Hu]. simpl.
  destruct (list_find _ (sp_pending sp)) as [[i [n io]]|] eqn:Hf; [|done]. simpl.
  apply list_find_Some in Hf as (Hi & Hn & _). simpl in Hn. subst n. intros [= <- <-].
  pose proof Hi as Hsplit. apply take_drop_middle in Hsplit.
  pose proof (Forall_lookup_1 _ _ _ _ Ho Hi) as [f Hobj]. simpl in Hobj.
  unfold oc_do_result, make_iterator. rewrite Hobj. simpl.
  destruct (list_erase_spec (oc_store s) (d_outstanding s) (take i (sp_pending sp)).*1 node
    (drop (S i) (sp_pending sp)).*1) as (σ' & He & Hl' & _ & Hd & _).
  { rewrite <-fmap_cons with (f := fst) (x := (node, io)), <-fmap_app, Hsplit. done. }
  rewrite He. simpl. do 2 eexists. split_and!; [done..|]. split; simpl.
  - by rewrite fmap_app.
  - unfold oc_objects_ok in *. simpl. rewrite <-Hsplit in Ho.
    apply Forall_app in Ho as [Ho1 [_ Ho2]%Forall_cons]. by apply Forall_app.
  - by rewrite Hd.
Qed.

(** The initial state: an empty list headed at [head]. *)
Definition oc_init (head : loc) : observer_context := Observer {[head := Link head head]} head ∅.

Lemma oc_init_rel head : oc_rel (oc_init head) (OcSpec [] {[head]}).
Proof.
  split; simpl; [|constructor|by rewrite dom_singleton_L].
  split; [apply NoDup_singleton|]. simpl. unfold conn, link_next, link_prev.
  by rewrite lookup_singleton_eq.
Qed.

(** The observer context is a transparent decorator. For every sequence of
    client calls (each allocating a fresh continuation) and results from the
    other context (each for an operation still outstanding), no handler
    touches a dead object, and apart from the text it prints it does what the
    specification says: every call is forwarded once with its arguments (a
    write, though, as a read), every result reaches the continuation of the call it belongs to once, unchanged,
    cancelling something unknown is answered with -ENOENT, and [d_outstanding]
    is exactly the list of operations not yet answered. *)
Theorem observer_context_refinement head evs sp' es :
  oc_spec_run (OcSpec [] {[head]}) evs = Some (sp', es) →
  ∃ s' es', oc_run (oc_init head) evs = Some (s', es') ∧
    filter not_print es' = filter not_print es ∧
    is_list (oc_store s') (d_outstanding s') (sp_pending sp').*1.
Proof.
  assert (Hgen : ∀ s sp, oc_rel s sp → oc_spec_run sp evs = Some (sp', es) →
    ∃ s' es', oc_run s evs = Some (s', es') ∧ filter not_print es' = filter not_print es ∧
      oc_rel s' sp').
  { revert es. induction evs as [|ev evs IH]; intros es s sp Hrel Hrun; simpl in *.
    { simplify_eq. eauto. }
    apply option_bind_Some_inv in Hrun as ([sp1 e1] & Hs & Hrun).
    apply option_bind_Some_inv in Hrun as ([sp2 e2] & Hs2 & Hrun). simplify_eq.
    assert (∃ s1 e1', oc_event_run s ev = Some (s1, e1') ∧
      filter not_print e1' = filter not_print e1 ∧ oc_rel s1 sp1) as (s1 & e1' & Hev & He1 & Hr1).
    { destruct ev; [by eapply oc_call_rel|by eapply oc_result_rel]. }
    destruct (IH e2 s1 sp1 Hr1 Hs2) as (s' & e2' & Hr2 & He2 & Hr').
    rewrite Hev. simpl. rewrite Hr2. simpl. do 2 eexists. split; [done|].
    rewrite !filter_app. split; [congruence|done]. }
  intros Hrun. destruct (Hgen _ _ (oc_init_rel head) Hrun) as (s' & es' & ? & ? & [? _ _]). eauto.
Qed.

Lemma observer_context_refinement_witness :
  let evs := [EvCall (RRead 3 100 1 50) 11%nat; EvCall (RTimer 9 51) 12%nat;
              EvCall (RCancel 50 52) 13%nat; EvResult 11%nat (-125) 0; EvResult 13%nat 0 0;
              EvCall (RCancel 50 53) 14%nat] in
  ∃ s' es', oc_run (oc_init 1%nat) evs = Some (s', es') ∧
    filter not_print es' = filter not_print
      [EUpstream (RRead 3 100 1 11); EUpstream (RTimer 9 12); EUpstream (RCancel 11 13);
       EResult 50 (-125) 0; EResult 52 0 0; EResult 53 (-2) 0] ∧
    is_list (oc_store s') (d_outstanding s') [12%nat].
Proof.
  refine (observer_context_refinement 1%nat
    [EvCall (RRead 3 100 1 50) 11%nat; EvCall (RTimer 9 51) 12%nat;
     EvCall (RCancel 50 52) 13%nat; EvResult 11%nat (-125) 0; EvResult 13%nat 0 0;
     EvCall (RCancel 50 53) 14%nat] (OcSpec [(12%nat, 51)] _) _ _).
  by vm_compute.
Defined.
