(* ===== verification/PollContext.v ===== *)
(** * nstd::file::poll_context

    The I/O context on top of poll(2): src/src/nstd/file/poll_context.{hpp,cpp}.

    System calls are parameters that act on the state [OS] of the system; the
    function objects queued in [d_outstanding] are the constructors of
    [op_fun], and [operation_call] is their call operator. Completing a
    continuation runs client code: [client] says what it does to the context.
    List nodes have an identity ([op_key]), so that an iterator kept across a
    call is the node's key, and using the iterator of an erased node is
    undefined behaviour. [d_next_poll] is [None] once it was invalidated. *)
From Stdlib Require Import Sorting.Sorted.
From S2P Require Import Prelude IntrusiveList FileContext.
Local Open Scope Z_scope.

(** ** Data *)
Inductive op_fun :=
  | FnDrainPipe
  | FnCancel (to_cancel completion : io_base)
  | FnNop (continuation : io_base)
  | FnAccept (fd address length : Z) (continuation : io_base)
  | FnConnect (fd : Z) (continuation : io_base)
  | FnSendmsg (fd msg flags : Z) (continuation : io_base)
  | FnRecvmsg (fd msg flags : Z) (continuation : io_base)
  | FnRead (fd vec length : Z) (continuation : io_base)
  | FnWrite (fd vec length : Z) (continuation : io_base).

Record operation := Operation {
  op_key : nat;
  op_fd : Z;
  op_events : Z;
  op_operation : op_fun;
  op_id : io_base;
}.

Record timer_event := TimerEvent { d_expiry : Z; d_continuation : io_base }.

Record pollfd := PollFd { pfd_fd : Z; pfd_events : Z; pfd_revents : Z }.

(** The system's constants the code uses. *)
Definition POLLIN : Z := 1.
Definition POLLOUT : Z := 4.
Definition EINTR : Z := 4.
Definition EAGAIN : Z := 11.
Definition EINVAL : Z := 22.
Definition EALREADY : Z := 114.
Definition ECANCELED : Z := 125.
(** The case labels after which an operation is tried again. The label
    [EAGAIN != EWOULDBLOCK? EWOULDBLOCK: 0] is 0 on Linux, where both are 11;
    then [EINTR], [EAGAIN], [ENETDOWN],
    [EPROTO], [ENOPROTOOPT], [EHOSTDOWN], [ENONET], [EHOSTUNREACH],
    [EOPNOTSUPP], [ENETUNREACH] for [accept]. *)
Definition EWOULDBLOCK : Z := 11.
Definition would_block : Z := if negb (EAGAIN =? EWOULDBLOCK) then EWOULDBLOCK else 0.
Definition accept_retry : list Z := [EINTR; EAGAIN; would_block; 100; 71; 92; 112; 64; 113; 95; 101].

Record poll_context {OS : Type} := PollContext {
  d_poll : list pollfd;
  d_next_poll : option nat;
  d_outstanding : list operation;
  d_timers : list timer_event;
  d_pipe : Z * Z;
  pc_keys : nat;
  pc_os : OS;
}.
Arguments poll_context : clear implicits.

Section poll_context.
Context {OS : Type}.
Implicit Types s : poll_context OS.

Definition set_poll (p : list pollfd) (n : option nat) s : poll_context OS :=
  PollContext OS p n (d_outstanding s) (d_timers s) (d_pipe s) (pc_keys s) (pc_os s).
Definition set_outstanding (l : list operation) s : poll_context OS :=
  PollContext OS (d_poll s) (d_next_poll s) l (d_timers s) (d_pipe s) (pc_keys s) (pc_os s).
Definition set_timers (t : list timer_event) s : poll_context OS :=
  PollContext OS (d_poll s) (d_next_poll s) (d_outstanding s) t (d_pipe s) (pc_keys s) (pc_os s).
Definition set_os (os : OS) s : poll_context OS :=
  PollContext OS (d_poll s) (d_next_poll s) (d_outstanding s) (d_timers s) (d_pipe s) (pc_keys s) os.

(** System calls: the result, [errno] afterwards and the new system state.
    [now] is the steady clock in nanoseconds. *)
Record syscalls := Syscalls {
  sys_pipe : OS → Z * Z * (Z * Z) * OS;
  sys_nonblock : Z → OS → OS;
  sys_close : Z → OS → OS;
  sys_now : OS → Z * OS;
  sys_pipe_read : Z → OS → OS;
  sys_pipe_write : Z → OS → OS;
  sys_poll : list pollfd → Z → OS → Z * Z * list pollfd * OS;
  sys_accept : Z → Z → Z → OS → Z * Z * OS;
  sys_connect : Z → Z → Z → OS → Z * Z * OS;
  sys_getsockopt_error : Z → OS → Z * Z * OS;
  sys_sendmsg : Z → Z → Z → OS → Z * Z * OS;
  sys_recvmsg : Z → Z → Z → OS → Z * Z * OS;
  sys_readv : Z → Z → Z → OS → Z * Z * OS;
  sys_writev : Z → Z → Z → OS → Z * Z * OS;
  sys_openat : Z → Z → Z → OS → Z * Z * OS;
}.
Context (sys : syscalls).
(** [continuation->result(res, flags)]. *)
Context (client : io_base → Z → Z → poll_context OS → poll_context OS).
(** [O_NONBLOCK] and the message flags the code adds, opaque here. *)
Context (with_send_flags with_recv_flags : Z → Z).

(** ** Timers: the priority queue's top is the earliest expiry. *)
Definition timer_ltb (a b : timer_event) : bool := d_expiry b <? d_expiry a.

Fixpoint timer_push (t : timer_event) (q : list timer_event) : list timer_event :=
  match q with
  | [] => [t]
  | u :: q => if timer_ltb u t then t :: u :: q else u :: timer_push t q
  end.

(** ** Submitting *)
Definition submit_io (fd events : Z) (op : op_fun) (id : io_base) s : poll_context OS :=
  let o := Operation (pc_keys s) fd events op id in
  let l := if 0 <=? fd then o :: d_outstanding s else d_outstanding s ++ [o] in
  PollContext OS (d_poll s) (d_next_poll s) l (d_timers s) (d_pipe s) (S (pc_keys s))
    (sys_pipe_write sys (d_pipe s).2 (pc_os s)).

(** The constructor; [completion] is the address of [d_completion]. *)
Definition poll_context_ctor (completion : io_base) (os : OS) : outcome (poll_context OS) :=
  let '(rc, errno, p, os) := sys_pipe sys os in
  if rc <? 0 then Exc (system_error errno) else
  let os := sys_nonblock sys p.2 (sys_nonblock sys p.1 os) in
  Ret (submit_io p.1 POLLIN FnDrainPipe completion
         (PollContext OS [] (Some O) [] [] p O os)).

Definition poll_context_dtor s : OS :=
  sys_close sys (d_pipe s).2 (sys_close sys (d_pipe s).1 (pc_os s)).

(** Completing with the result of a system call, unless [errno] asks to try
    again. *)
Definition complete_or_retry (retry : list Z) (cont : io_base) (r : Z * Z * OS) s
    : bool * poll_context OS :=
  let '(rc, errno, os) := r in
  let s := set_os os s in
  if 0 <=? rc then (true, client cont rc 0 s)
  else if bool_decide (errno ∈ retry) then (false, s)
  else (true, client cont (- errno) 0 s).

Definition find_key (k : nat) (l : list operation) : option (nat * operation) :=
  list_find (λ o, op_key o = k) l.
Definition erase_key (k : nat) (l : list operation) : list operation :=
  filter (λ o, op_key o ≠ k) l.

(** The function object of [do_cancel]. The iterator found before the first
    completion is used after it. *)
Definition cancel_call (to_cancel completion : io_base) s : outcome (bool * poll_context OS) :=
  match list_find (λ o, op_id o = to_cancel) (d_outstanding s) with
  | None => Ret (true, client completion (-1) 0 s)
  | Some (_, o) =>
      let s := client completion 0 0 s in
      '(_, it) ← or_ub (find_key (op_key o) (d_outstanding s));
      let s := client (op_id it) (- ECANCELED) 0 s in
      _ ← or_ub (find_key (op_key o) (d_outstanding s));
      Ret (true, set_outstanding (erase_key (op_key o) (d_outstanding s)) s)
  end.

Definition accept_call (fd address length : Z) (cont : io_base) s : bool * poll_context OS :=
  complete_or_retry accept_retry cont (sys_accept sys fd address length (pc_os s)) s.

(** [errno] after a successful [getsockopt] is what an earlier call left. *)
Definition connect_call (fd : Z) (cont : io_base) s : bool * poll_context OS :=
  let '(error, errno, os) := sys_getsockopt_error sys fd (pc_os s) in
  let s := set_os os s in
  (true, client cont (if error =? 0 then 0 else - errno) 0 s).

Definition sendmsg_call (fd msg flags : Z) (cont : io_base) s : bool * poll_context OS :=
  complete_or_retry [EAGAIN; would_block; EALREADY; EINTR] cont
    (sys_sendmsg sys fd msg (with_send_flags flags) (pc_os s)) s.

Definition recvmsg_call (fd msg flags : Z) (cont : io_base) s : bool * poll_context OS :=
  complete_or_retry [EAGAIN; would_block; EINTR] cont
    (sys_recvmsg sys fd msg (with_recv_flags flags) (pc_os s)) s.

Definition read_call (fd vec length : Z) (cont : io_base) s : bool * poll_context OS :=
  complete_or_retry [EAGAIN; would_block; EINTR] cont (sys_readv sys fd vec length (pc_os s)) s.

Definition write_call (fd vec length : Z) (cont : io_base) s : bool * poll_context OS :=
  complete_or_retry [EAGAIN; would_block; EINTR] cont (sys_writev sys fd vec length (pc_os s)) s.

Definition operation_call (f : op_fun) s : outcome (bool * poll_context OS) :=
  match f with
  | FnDrainPipe => Ret (false, set_os (sys_pipe_read sys (d_pipe s).1 (pc_os s)) s)
  | FnCancel to_cancel completion => cancel_call to_cancel completion s
  | FnNop cont => Ret (true, client cont 0 0 s)
  | FnAccept fd address length cont => Ret (accept_call fd address length cont s)
  | FnConnect fd cont => Ret (connect_call fd cont s)
  | FnSendmsg fd msg flags cont => Ret (sendmsg_call fd msg flags cont s)
  | FnRecvmsg fd msg flags cont => Ret (recvmsg_call fd msg flags cont s)
  | FnRead fd vec length cont => Ret (read_call fd vec length cont s)
  | FnWrite fd vec length cont => Ret (write_call fd vec length cont s)
  end.

(** [submit] tries the operation first. *)
Definition submit (fd events : Z) (f : op_fun) (id : io_base) s : outcome (poll_context OS) :=
  '(done, s) ← operation_call f s;
  if (done : bool) then Ret s else Ret (submit_io fd events f id s).

(** ** Running *)
Definition handle_timer s : Z * poll_context OS :=
  match d_timers s with
  | [] => (0, s)
  | top :: rest =>
      let '(now, os) := sys_now sys (pc_os s) in
      let s := set_os os s in
      if d_expiry top <=? now then (1, client (d_continuation top) 0 0 (set_timers rest s))
      else (0, s)
  end.

Definition handle_scheduled s : outcome (Z * poll_context OS) :=
  match last (d_outstanding s) with
  | Some it =>
      if op_fd it =? -1 then
        '(_, s) ← operation_call (op_operation it) s;
        _ ← or_ub (find_key (op_key it) (d_outstanding s));
        Ret (1, set_outstanding (erase_key (op_key it) (d_outstanding s)) s)
      else Ret (0, s)
  | None => Ret (0, s)
  end.

(** The inner loop of [handle_io] for the polled descriptor [p]: [rit] is at
    the head of [todo]; [true] when an operation completed. *)
Fixpoint handle_io_ops (p : pollfd) (before todo : list operation) s
    : outcome (bool * poll_context OS) :=
  match todo with
  | [] => Ret (false, s)
  | o :: todo =>
      if (pfd_fd p =? op_fd o) && negb (Z.land (pfd_revents p) (op_events o) =? 0) then
        '(done, s) ← operation_call (op_operation o) (set_outstanding (before ++ todo) s);
        if (done : bool) then Ret (true, s)
        else handle_io_ops p (before ++ [o]) todo (set_outstanding (before ++ o :: todo) s)
      else handle_io_ops p (before ++ [o]) todo s
  end.

(** The outer loop from index [i] on; the results of poll are in [ps]. *)
Fixpoint handle_io_fds (i : nat) (ps : list pollfd) s : outcome (Z * poll_context OS) :=
  match ps with
  | [] => Ret (0, set_poll (d_poll s) (Some (length (d_poll s))) s)
  | p :: ps =>
      if pfd_revents p =? 0 then handle_io_fds (S i) ps s else
      '(done, s) ← handle_io_ops p [] (d_outstanding s) (set_poll (d_poll s) (Some i) s);
      if (done : bool) then Ret (1, set_poll (d_poll s) (Some (S i)) s)
      else handle_io_fds (S i) ps s
  end.

(** [find_if] from an invalidated iterator, or from one behind the end, is
    undefined. *)
Definition handle_io s : outcome (Z * poll_context OS) :=
  i ← or_ub (d_next_poll s);
  if decide (i ≤ length (d_poll s))%nat then handle_io_fds i (drop i (d_poll s)) s else UB.

(** The descriptors up to the first operation without one. *)
Fixpoint poll_fds (l : list operation) : list pollfd :=
  match l with
  | [] => []
  | o :: l => if op_fd o <? 0 then [] else PollFd (op_fd o) (op_events o) 0 :: poll_fds l
  end.

(** The milliseconds to sleep, assigned to an [int]; the clock is read only
    when there is a timer. *)
Definition poll_sleep s : Z * poll_context OS :=
  match d_timers s with
  | [] => (-1, s)
  | top :: _ =>
      let '(now, os) := sys_now sys (pc_os s) in
      (wraps 32 (if d_expiry top <=? now then 0 else (d_expiry top - now) `quot` 1000000),
       set_os os s)
  end.

(** The loop around the system's poll: repeated while [errno] is [EINVAL],
    given up for every other failure, an interruption ([EINTR]) included. *)
Fixpoint poll_loop (fuel : nat) s : outcome (bool * poll_context OS) :=
  match fuel with
  | O => NoFuel
  | S fuel =>
      let '(sleep, s) := poll_sleep s in
      let '(rc, errno, ps, os) := sys_poll sys (d_poll s) sleep (pc_os s) in
      let s := set_poll ps (d_next_poll s) (set_os os s) in
      if 0 <=? rc then Ret (true, set_poll ps (Some O) s)
      else if negb (errno =? EINVAL) then Ret (false, s)
      else poll_loop fuel s
  end.

(** Clearing and refilling the vector invalidates [d_next_poll]. *)
Definition poll (fuel : nat) s : outcome (bool * poll_context OS) :=
  let fds := poll_fds (d_outstanding s) in
  let s := set_poll fds None s in
  if bool_decide (length fds = 1%nat ∧ d_timers s = []) then Ret (false, s)
  else poll_loop fuel s.

(** One iteration of the loop of [do_run_one]: the value returned, or none to
    go round again. *)
Definition run_one_iteration (fuel : nat) s : outcome (option Z * poll_context OS) :=
  let '(n, s) := handle_timer s in
  if negb (n =? 0) then Ret (Some 1, s) else
  '(n, s) ← handle_scheduled s;
  if negb (n =? 0) then Ret (Some 1, s) else
  '(n, s) ← handle_io s;
  if negb (n =? 0) then Ret (Some 1, s) else
  '(ok, s) ← poll fuel s;
  Ret (if (ok : bool) then None else Some 0, s).

Fixpoint pc_do_run_one (fuel : nat) s : outcome (Z * poll_context OS) :=
  match fuel with
  | O => NoFuel
  | S fuel =>
      '(r, s) ← run_one_iteration fuel s;
      match r with Some n => Ret (n, s) | None => pc_do_run_one fuel s end
  end.

(** ** The requests *)
Definition pc_do_cancel (to_cancel completion : io_base) s : poll_context OS :=
  submit_io (-1) 0 (FnCancel to_cancel completion) completion s.

Definition pc_do_nop (cont : io_base) s : poll_context OS := submit_io (-1) 0 (FnNop cont) cont s.

(** [spec] is the time specification pointed to: unsigned seconds and signed
    nanoseconds; the sum is unsigned, the time point signed. *)
Definition pc_do_timer (sec nsec : Z) (cont : io_base) s : poll_context OS :=
  let offset := wrapu 64 (sec * 1000000000 + nsec) in
  let '(now, os) := sys_now sys (pc_os s) in
  set_timers (timer_push (TimerEvent (wraps 64 (now + offset)) cont) (d_timers s)) (set_os os s).

Definition pc_do_accept (fd address length : Z) (cont : io_base) s : poll_context OS :=
  submit_io fd POLLIN (FnAccept fd address length cont) cont s.

Definition pc_do_connect (fd address length : Z) (cont : io_base) s : poll_context OS :=
  let s := set_os (sys_nonblock sys fd (pc_os s)) s in
  let '(rc, _, os) := sys_connect sys fd address length (pc_os s) in
  let s := set_os os s in
  if rc =? 0 then client cont 0 0 s
  else submit_io fd (Z.lor POLLIN POLLOUT) (FnConnect fd cont) cont s.

Definition pc_do_sendmsg (fd msg flags : Z) (cont : io_base) s : outcome (poll_context OS) :=
  submit fd POLLOUT (FnSendmsg fd msg flags cont) cont s.
Definition pc_do_recvmsg (fd msg flags : Z) (cont : io_base) s : outcome (poll_context OS) :=
  submit fd POLLIN (FnRecvmsg fd msg flags cont) cont s.
Definition pc_do_read (fd vec length : Z) (cont : io_base) s : outcome (poll_context OS) :=
  submit fd POLLIN (FnRead fd vec length cont) cont s.
Definition pc_do_write (fd vec length : Z) (cont : io_base) s : outcome (poll_context OS) :=
  submit fd POLLOUT (FnWrite fd vec length cont) cont s.

Definition pc_do_open_at (fd name flags : Z) (cont : io_base) s : poll_context OS :=
  let '(rc, errno, os) := sys_openat sys fd name flags (pc_os s) in
  client cont (if rc <? 0 then - errno else rc) 0 (set_os os s).

(** The time specification a request points to. *)
Definition pc_request (spec_at : Z → Z * Z) (r : request) s : outcome (poll_context OS) :=
  match r with
  | RAccept fd addr len _ io => Ret (pc_do_accept fd addr len io s)
  | RCancel to_cancel io => Ret (pc_do_cancel to_cancel io s)
  | RConnect fd addr len io => Ret (pc_do_connect fd addr len io s)
  | RNop io => Ret (pc_do_nop io s)
  | ROpenAt fd name flags io => Ret (pc_do_open_at fd name flags io s)
  | RRead fd vec size io => pc_do_read fd vec size io s
  | RRecvmsg fd msg flags io => pc_do_recvmsg fd msg flags io s
  | RSendmsg fd msg flags io => pc_do_sendmsg fd msg flags io s
  | RTimer spec io => Ret (let '(sec, nsec) := spec_at spec in pc_do_timer sec nsec io s)
  | RWrite fd vec size io => pc_do_write fd vec size io s
  end.

End poll_context.

(** ** Accounting

    The state of the system is observed through two logs kept in it: the
    continuations completed and the requests submitted so far. *)
Definition occ (x : io_base) (l : list io_base) : nat := length (filter (x =.) l).

Lemma occ_app x l1 l2 : occ x (l1 ++ l2) = (occ x l1 + occ x l2)%nat.
Proof. unfold occ. by rewrite filter_app, length_app. Qed.

Lemma occ_nil x : occ x [] = O.
Proof. done. Qed.

Lemma occ_cons x y l : occ x (y :: l) = (occ x [y] + occ x l)%nat.
Proof. apply (occ_app x [y] l). Qed.

Lemma occ_perm x l1 l2 : l1 ≡ₚ l2 → occ x l1 = occ x l2.
Proof. unfold occ. by intros ->. Qed.

Definition is_drain (f : op_fun) : bool := match f with FnDrainPipe => true | _ => false end.

(** The continuation an operation completes: none for the self-pipe. *)
Definition op_ios (o : operation) : list io_base :=
  if is_drain (op_operation o) then [] else [op_id o].

Section accounting.
Context {OS : Type} (sys : @syscalls OS).
Context (client : io_base → Z → Z → poll_context OS → poll_context OS).
Context (with_send_flags with_recv_flags : Z → Z).
Context (ghost : OS → list io_base * list io_base) (pipe_id : io_base).
Implicit Types s : poll_context OS.

Definition pending_ios s : list io_base :=
  (d_outstanding s ≫= op_ios) ++ (d_continuation <$> d_timers s).

Definition completed (x : io_base) s : nat := occ x (ghost (pc_os s)).1.
Definition submitted (x : io_base) s : nat := occ x (ghost (pc_os s)).2.
Definition pending (x : io_base) s : nat := occ x (pending_ios s).

(** From [s] to [s'] the balance completed + pending - submitted changed by
    the occurrences in [extra]. *)
Definition delta s s' (extra : list io_base) : Prop :=
  ∀ x, (completed x s' + pending x s' + submitted x s =
        occ x extra + completed x s + pending x s + submitted x s')%nat.

(** An operation with a descriptor, and a scheduled one. *)
Definition io_op (o : operation) : Prop :=
  0 ≤ op_fd o ∧
  match op_operation o with
  | FnDrainPipe => op_id o = pipe_id
  | FnAccept _ _ _ c | FnConnect _ c | FnSendmsg _ _ _ c | FnRecvmsg _ _ _ c
  | FnRead _ _ _ c | FnWrite _ _ _ c => op_id o = c
  | _ => False
  end.
Definition sched_op (o : operation) : Prop :=
  op_fd o = -1 ∧
  match op_operation o with
  | FnCancel tc c => op_id o = c ∧ tc ≠ c ∧ tc ≠ pipe_id
  | FnNop c => op_id o = c
  | _ => False
  end.

Definition timers_sorted (q : list timer_event) : Prop :=
  StronglySorted (λ a b, d_expiry a ≤ d_expiry b) q.

Record wf s : Prop := Wf {
  wf_split : ∃ fds sch, d_outstanding s = fds ++ sch ∧ Forall io_op fds ∧ Forall sched_op sch;
  wf_nodup : NoDup (op_key <$> d_outstanding s);
  wf_fresh : Forall (λ o, op_key o < pc_keys s)%nat (d_outstanding s);
  wf_timers : timers_sorted (d_timers s);
  wf_poll : Forall (λ p, 0 ≤ pfd_fd p) (d_poll s);
}.

(** What submitting may do: add operations at either end. *)
Record grows s s' : Prop := Grows {
  grows_poll : d_poll s' = d_poll s ∧ d_next_poll s' = d_next_poll s;
  grows_list : ∃ front back, d_outstanding s' = front ++ d_outstanding s ++ back;
}.

(** System calls leave the logs alone, and poll only sets the returned events;
    completing a continuation logs it once
    and may otherwise only submit requests. *)
Class Environment : Prop := {
  env_pipe_write fd os : ghost (sys_pipe_write sys fd os) = ghost os;
  env_pipe_read fd os : ghost (sys_pipe_read sys fd os) = ghost os;
  env_nonblock fd os : ghost (sys_nonblock sys fd os) = ghost os;
  env_now os : ghost (sys_now sys os).2 = ghost os;
  env_poll ps t os : ghost (sys_poll sys ps t os).2 = ghost os;
  env_poll_fds ps t os : pfd_fd <$> (sys_poll sys ps t os).1.2 = pfd_fd <$> ps;
  env_accept a b c os : ghost (sys_accept sys a b c os).2 = ghost os;
  env_connect a b c os : ghost (sys_connect sys a b c os).2 = ghost os;
  env_getsockopt a os : ghost (sys_getsockopt_error sys a os).2 = ghost os;
  env_sendmsg a b c os : ghost (sys_sendmsg sys a b c os).2 = ghost os;
  env_recvmsg a b c os : ghost (sys_recvmsg sys a b c os).2 = ghost os;
  env_readv a b c os : ghost (sys_readv sys a b c os).2 = ghost os;
  env_writev a b c os : ghost (sys_writev sys a b c os).2 = ghost os;
  env_openat a b c os : ghost (sys_openat sys a b c os).2 = ghost os;
  env_client cont rc flags s :
    wf s → wf (client cont rc flags s) ∧ grows s (client cont rc flags s) ∧
           delta s (client cont rc flags s) [cont];
}.
Context `{!Environment}.

(** *** Composition *)
Lemma delta_refl s : delta s s [].
Proof. intros x. unfold occ. simpl. lia. Qed.

Lemma delta_trans s1 s2 s3 e1 e2 : delta s1 s2 e1 → delta s2 s3 e2 → delta s1 s3 (e1 ++ e2).
Proof. intros H1 H2 x. specialize (H1 x). specialize (H2 x). rewrite occ_app. lia. Qed.

(** States with the same pending operations and logs. *)
Lemma delta_same s s' extra :
  ghost (pc_os s') = ghost (pc_os s) → pending_ios s' ≡ₚ extra ++ pending_ios s →
  delta s s' extra.
Proof.
  intros Hg Hp x. unfold completed, submitted, pending. rewrite Hg, (occ_perm _ _ _ Hp), occ_app. lia.
Qed.

Lemma grows_refl s : grows s s.
Proof. split; [done|]. exists [], []. by rewrite app_nil_r. Qed.

Lemma grows_trans s1 s2 s3 : grows s1 s2 → grows s2 s3 → grows s1 s3.
Proof.
  intros [[Hp1 Hn1] (f1 & b1 & Hl1)] [[Hp2 Hn2] (f2 & b2 & Hl2)]. split; [split; congruence|].
  exists (f2 ++ f1), (b1 ++ b2). by rewrite Hl2, Hl1, !(assoc_L (++)).
Qed.

(** A change of the system's state alone. *)
Lemma set_os_ok os s :
  ghost os = ghost (pc_os s) → wf s →
  wf (set_os os s) ∧ grows s (set_os os s) ∧ delta s (set_os os s) [].
Proof.
  intros Hg Hwf. split; [by destruct Hwf; split|]. split; [|by apply delta_same].
  split; [done|]. exists [], []. by rewrite app_nil_r.
Qed.

Lemma submit_io_gen fd events f id s o :
  (∀ fd os, ghost (sys_pipe_write sys fd os) = ghost os) →
  o = Operation (pc_keys s) fd events f id →
  (if decide (0 ≤ fd) then io_op o else sched_op o) → wf s →
  let s' := submit_io sys fd events f id s in
  wf s' ∧ grows s s' ∧ delta s s' (op_ios o).
Proof.
  intros Hpw -> Ho [(fds & sch & Hl & Hf & Hs) Hnd Hfr Ht Hp]. simpl.
  assert (Hfr' : Forall (λ o, op_key o < S (pc_keys s))%nat (d_outstanding s)).
  { eapply Forall_impl; [exact Hfr|]. simpl. lia. }
  assert (Hnew : pc_keys s ∉ op_key <$> d_outstanding s).
  { intros (o & Ho' & Hin)%list_elem_of_fmap. rewrite Forall_forall in Hfr. apply Hfr in Hin. lia. }
  unfold submit_io. destruct (Z.leb_spec 0 fd) as [Hfd|Hfd].
  - rewrite decide_True in Ho by done. split_and!; [split; simpl|split; simpl|].
    + rewrite Hl. exists (Operation (pc_keys s) fd events f id :: fds), sch.
      split_and!; [done|by constructor|done].
    + by constructor.
    + constructor; [simpl; lia|done].
    + done.
    + done.
    + done.
    + eexists [_], []. by rewrite app_nil_r.
    + apply delta_same; [apply Hpw|]. unfold pending_ios. simpl. by rewrite <-(assoc_L (++)).
  - rewrite decide_False in Ho by lia. split_and!; [split; simpl|split; simpl|].
    + rewrite Hl. eexists fds, (sch ++ [_]). split_and!; [by rewrite <-(assoc_L (++))|done|].
      apply Forall_app. split; [done|]. by apply Forall_singleton.
    + rewrite fmap_app, NoDup_app. split_and!; [done| |apply NoDup_singleton].
      intros k Hk ->%list_elem_of_singleton. done.
    + apply Forall_app. split; [done|]. apply Forall_singleton. simpl. lia.
    + done.
    + done.
    + done.
    + by eexists [], [_].
    + apply delta_same; [apply Hpw|]. unfold pending_ios. simpl.
      rewrite bind_app. cbn [mbind list_bind]. rewrite app_nil_r.
      rewrite (comm (++) (d_outstanding s ≫= op_ios)). by rewrite <-!(assoc_L (++)).
Qed.

Lemma submit_io_ok fd events f id s o :
  o = Operation (pc_keys s) fd events f id →
  (if decide (0 ≤ fd) then io_op o else sched_op o) → wf s →
  let s' := submit_io sys fd events f id s in
  wf s' ∧ grows s s' ∧ delta s s' (op_ios o).
Proof. apply submit_io_gen, env_pipe_write. Qed.

(** Operations that complete or ask to be retried. *)
Definition call_ok (s s' : poll_context OS) (b : bool) (cont : io_base) : Prop :=
  wf s' ∧ grows s s' ∧ delta s s' (if b then [cont] else []) ∧
  (b = false → ∃ os, ghost os = ghost (pc_os s) ∧ s' = set_os os s).

Lemma client_after_os os cont rc s :
  ghost os = ghost (pc_os s) → wf s →
  let s' := client cont rc 0 (set_os os s) in wf s' ∧ grows s s' ∧ delta s s' [cont].
Proof.
  intros Hg Hwf. destruct (set_os_ok os s Hg Hwf) as (Hwf1 & Hg1 & Hd1).
  destruct (env_client cont rc 0 _ Hwf1) as (Hwf2 & Hg2 & Hd2).
  split_and!; [done|by eapply grows_trans|by eapply (delta_trans _ _ _ [])].
Qed.

Lemma complete_or_retry_ok retry cont r s b s' :
  ghost r.2 = ghost (pc_os s) → wf s → complete_or_retry client retry cont r s = (b, s') →
  call_ok s s' b cont.
Proof.
  destruct r as [[rc errno] os]; simpl. intros Hg Hwf. unfold complete_or_retry.
  destruct (0 <=? rc); [intros [= <- <-]|case_bool_decide; intros [= <- <-]];
    try (destruct (client_after_os os cont rc s) as (?&?&?); [done..|]; by split_and!);
    try (destruct (client_after_os os cont (- errno) s) as (?&?&?); [done..|]; by split_and!).
  destruct (set_os_ok os s Hg Hwf) as (?&?&?). split_and!; eauto.
Qed.

(** An I/O operation's function, from a state its node was taken out of. *)
Lemma io_op_call o s b s' :
  io_op o → wf s →
  operation_call sys client with_send_flags with_recv_flags (op_operation o) s = Ret (b, s') →
  wf s' ∧ grows s s' ∧ delta s s' (if b then op_ios o else []) ∧
  (b = false → ∃ os, ghost os = ghost (pc_os s) ∧ s' = set_os os s).
Proof.
  intros [_ Ho] Hwf. unfold op_ios. destruct (op_operation o); try done; simpl; intros [= Hc].
  - subst. destruct (set_os_ok (sys_pipe_read sys (d_pipe s).1 (pc_os s)) s) as (?&?&?);
      [apply env_pipe_read|done|]. split_and!; [done..|]. intros _. eexists. split; [|done].
    apply env_pipe_read.
  - rewrite Ho. eapply complete_or_retry_ok; [|done|exact Hc]. apply env_accept.
  - unfold connect_call in Hc. pose proof (env_getsockopt fd (pc_os s)) as Hg.
    destruct (sys_getsockopt_error sys fd (pc_os s)) as [[error errno] os]. injection Hc as <- <-.
    rewrite Ho. destruct (client_after_os os continuation (if error =? 0 then 0 else - errno) s)
      as (?&?&?); [done..|]. by split_and!.
  - rewrite Ho. eapply complete_or_retry_ok; [|done|exact Hc]. apply env_sendmsg.
  - rewrite Ho. eapply complete_or_retry_ok; [|done|exact Hc]. apply env_recvmsg.
  - rewrite Ho. eapply complete_or_retry_ok; [|done|exact Hc]. apply env_readv.
  - rewrite Ho. eapply complete_or_retry_ok; [|done|exact Hc]. apply env_writev.
Qed.

(** *** Removing operations *)
Lemma wf_remove s l1 o l2 :
  wf s → d_outstanding s = l1 ++ o :: l2 →
  wf (set_outstanding (l1 ++ l2) s) ∧
  ∀ x, pending x s = (occ x (op_ios o) + pending x (set_outstanding (l1 ++ l2) s))%nat.
Proof.
  intros [(fds & sch & Hl & Hf & Hs) Hnd Hfr Ht Hp] Heq.
  rewrite Heq in *. split.
  - split; simpl; [| | |done..].
    + symmetry in Hl. apply app_eq_app in Hl as [l [[-> Hl]|[-> Hl]]].
      * destruct l as [|o' l]; simplify_eq/=.
        -- apply Forall_cons in Hs as [_ Hs]. exists l1, l2. rewrite app_nil_r in Hf.
           by split_and!.
        -- apply Forall_app in Hf as [Hf1 [_ Hf2]%Forall_cons].
           exists (l1 ++ l), sch. split_and!; [by rewrite (assoc_L (++))|by apply Forall_app|done].
      * rewrite Hl in Hs. apply Forall_app in Hs as [Hs1 [_ Hs2]%Forall_cons].
        exists fds, (l ++ l2). split_and!; [by rewrite (assoc_L (++))|done|by apply Forall_app].
    + rewrite fmap_app, fmap_cons in Hnd. rewrite fmap_app.
      rewrite NoDup_app, NoDup_cons in Hnd. destruct Hnd as (Hn1 & Hd & _ & Hn2).
      apply NoDup_app. split_and!; [done| |done]. intros k Hk Hk2. apply (Hd k Hk).
      by apply elem_of_cons; right.
    + apply Forall_app in Hfr as [? [_ ?]%Forall_cons]. by apply Forall_app.
  - intros x. unfold pending, pending_ios. simpl. rewrite Heq, !bind_app.
    cbn [mbind list_bind]. rewrite !occ_app. lia.
Qed.

Lemma find_key_elem l o :
  NoDup (op_key <$> l) → o ∈ l →
  ∃ l1 l2, l = l1 ++ o :: l2 ∧ find_key (op_key o) l = Some (length l1, o) ∧
    erase_key (op_key o) l = l1 ++ l2.
Proof.
  intros Hnd (l1 & l2 & ->)%list_elem_of_split. exists l1, l2.
  rewrite fmap_app, fmap_cons in Hnd.
  apply NoDup_app in Hnd as (Hnd1 & Hdis & [Hn2 Hnd2]%NoDup_cons).
  assert (H1 : ∀ y, y ∈ l1 → op_key y ≠ op_key o).
  { intros y Hy He. apply (Hdis (op_key y)); [by apply list_elem_of_fmap_2|].
    rewrite He. by apply elem_of_cons; left. }
  assert (H2 : ∀ y, y ∈ l2 → op_key y ≠ op_key o).
  { intros y Hy He. apply Hn2. rewrite <-He. by apply list_elem_of_fmap_2. }
  split_and!; [done| |].
  - unfold find_key. apply list_find_Some. rewrite lookup_app_r, Nat.sub_diag by lia.
    split_and!; [done..|]. intros j y Hj Hlt. rewrite lookup_app_l in Hj by done.
    apply H1. by eapply list_elem_of_lookup_2.
  - unfold erase_key. rewrite filter_app, filter_cons_False by auto.
    by rewrite !filter_all by (by apply Forall_forall).
Qed.

Lemma grows_elem s s' o : grows s s' → o ∈ d_outstanding s → o ∈ d_outstanding s'.
Proof.
  intros [_ (f & b & ->)] Ho. apply elem_of_app. right. apply elem_of_app. by left.
Qed.

Lemma erase_ok s o :
  wf s → o ∈ d_outstanding s →
  find_key (op_key o) (d_outstanding s) ≠ None ∧
  let s' := set_outstanding (erase_key (op_key o) (d_outstanding s)) s in
  wf s' ∧ (∀ x, pending x s = (occ x (op_ios o) + pending x s')%nat) ∧
  (∀ o', o' ∈ d_outstanding s → op_key o' ≠ op_key o → o' ∈ d_outstanding s').
Proof.
  intros Hwf Ho. destruct (find_key_elem _ _ (wf_nodup s Hwf) Ho) as (l1 & l2 & Hl & Hf & He).
  split; [by rewrite Hf|]. simpl. rewrite He.
  destruct (wf_remove s l1 o l2 Hwf Hl) as [Hwf' Hp]. split_and!; [done..|].
  intros o' Ho' Hk. rewrite <-He. unfold erase_key. by apply list_elem_of_filter.
Qed.

Lemma key_inj s o o' :
  wf s → o ∈ d_outstanding s → o' ∈ d_outstanding s → op_key o = op_key o' → o = o'.
Proof.
  intros Hwf Ho Ho' Hk.
  destruct (find_key_elem _ _ (wf_nodup s Hwf) Ho) as (? & ? & _ & Hf & _).
  destruct (find_key_elem _ _ (wf_nodup s Hwf) Ho') as (? & ? & _ & Hf' & _).
  rewrite Hk in Hf. congruence.
Qed.

Lemma wf_op_kind s o :
  wf s → o ∈ d_outstanding s → io_op o ∨ sched_op o.
Proof.
  intros [(fds & sch & -> & Hf & Hs) _ _ _ _] [Ho|Ho]%elem_of_app;
    rewrite Forall_forall in Hf, Hs; auto.
Qed.

(** *** Scheduled operations *)
Definition same_poll s s' : Prop := d_poll s' = d_poll s ∧ d_next_poll s' = d_next_poll s.

Lemma grows_same_poll s s' : grows s s' → same_poll s s'.
Proof. by intros [? _]. Qed.

Lemma sched_op_id o : sched_op o → op_ios o = [op_id o].
Proof. unfold sched_op, op_ios. by destruct (op_operation o); intros [??]. Qed.

Lemma cancel_call_ok s o tc c :
  wf s → o ∈ d_outstanding s → op_operation o = FnCancel tc c → sched_op o →
  ∃ s', cancel_call client tc c s = Ret (true, s') ∧ wf s' ∧ delta s s' [c] ∧
    o ∈ d_outstanding s' ∧ same_poll s s'.
Proof.
  intros Hwf Ho Hop [_ Hs]. rewrite Hop in Hs. destruct Hs as (Hid & Htc & Hpipe).
  unfold cancel_call. destruct (list_find _ (d_outstanding s)) as [[i t]|] eqn:Hf.
  2: { destruct (env_client c (-1) 0 s Hwf) as (? & Hg & ?). eexists; split_and!;
         [done|done|done|by eapply grows_elem|by apply grows_same_poll]. }
  apply list_find_Some in Hf as (Hi & Ht & _). apply list_elem_of_lookup_2 in Hi.
  assert (Hios : op_ios t = [tc]).
  { destruct (wf_op_kind s t Hwf Hi) as [[_ Hk]|Hk]; [|by rewrite sched_op_id, Ht].
    unfold op_ios. rewrite <-Ht. destruct (op_operation t); simpl in *; congruence. }
  destruct (env_client c 0 0 s Hwf) as (Hwf1 & Hg1 & Hd1). set (s1 := client c 0 0 s) in *.
  pose proof (grows_elem _ _ _ Hg1 Hi) as Hi1.
  destruct (find_key_elem _ _ (wf_nodup s1 Hwf1) Hi1) as (l1 & l2 & _ & Hfk & _).
  rewrite Hfk. simpl. rewrite Ht.
  destruct (env_client tc (- ECANCELED) 0 s1 Hwf1) as (Hwf2 & Hg2 & Hd2).
  set (s2 := client tc (- ECANCELED) 0 s1) in *.
  pose proof (grows_elem _ _ _ Hg2 Hi1) as Hi2.
  pose proof (grows_elem _ _ _ Hg2 (grows_elem _ _ _ Hg1 Ho)) as Ho2.
  destruct (erase_ok s2 t Hwf2 Hi2) as (Hne & Hwf3 & Hpend & Hrest).
  destruct (find_key (op_key t) (d_outstanding s2)); [|done]. simpl.
  eexists. split_and!; [done|done| | |].
  - intros x. specialize (Hd1 x). specialize (Hd2 x). specialize (Hpend x).
    rewrite Hios in Hpend. unfold completed, submitted in *. simpl in *. lia.
  - apply Hrest; [done|]. intros Hk. apply (key_inj s2 o t Hwf2 Ho2 Hi2) in Hk as ->. congruence.
  - destruct (grows_same_poll _ _ Hg1), (grows_same_poll _ _ Hg2). split; simpl; congruence.
Qed.

Lemma sched_call_ok s o :
  wf s → o ∈ d_outstanding s → sched_op o →
  ∃ b s', operation_call sys client with_send_flags with_recv_flags (op_operation o) s = Ret (b, s') ∧
    wf s' ∧ delta s s' (op_ios o) ∧ o ∈ d_outstanding s' ∧ same_poll s s'.
Proof.
  intros Hwf Ho Hs. rewrite sched_op_id by done. pose proof Hs as [_ Hk].
  destruct (op_operation o) eqn:Hop; try done; simpl.
  - destruct (cancel_call_ok s o to_cancel completion Hwf Ho Hop Hs) as (s' & ? & ? & ? & ? & ?).
    destruct Hk as [-> _]. eauto 10.
  - destruct (env_client continuation 0 0 s Hwf) as (? & Hg & ?). rewrite Hk.
    do 2 eexists. split_and!; [done|done|done|by eapply grows_elem|by apply grows_same_poll..].
Qed.

Lemma handle_scheduled_ok s :
  wf s →
  ∃ n s', handle_scheduled sys client with_send_flags with_recv_flags s = Ret (n, s') ∧
    (n = 0 ∧ s' = s ∧ Forall (λ o, op_fd o ≠ -1) (d_outstanding s) ∨
     n = 1 ∧ wf s' ∧ delta s s' [] ∧ same_poll s s').
Proof.
  intros Hwf. unfold handle_scheduled. destruct (last (d_outstanding s)) as [it|] eqn:Hl.
  2: { apply last_None in Hl. do 2 eexists; split; [done|]. left. by rewrite Hl. }
  pose proof (elem_of_last _ _ Hl) as Hit. destruct (Z.eqb_spec (op_fd it) (-1)) as [Hfd|Hfd].
  - assert (Hs : sched_op it).
    { destruct (wf_op_kind s it Hwf Hit) as [[? _]|?]; [lia|done]. }
    destruct (sched_call_ok s it Hwf Hit Hs) as (b & s1 & -> & Hwf1 & Hd1 & Hit1 & Hsp). simpl.
    destruct (erase_ok s1 it Hwf1 Hit1) as (Hne & Hwf2 & Hpend & _).
    destruct (find_key (op_key it) (d_outstanding s1)); [|done]. simpl.
    do 2 eexists. split; [done|]. right. split_and!; [done|done| |by destruct Hsp..].
    intros x. specialize (Hd1 x). specialize (Hpend x).
    rewrite occ_nil. unfold completed, submitted in *. simpl in *. lia.
  - do 2 eexists. split; [done|]. left. split_and!; [done|done|].
    destruct (wf_split s Hwf) as (fds & sch & Hspl & Hf & Hs). rewrite Hspl in *.
    destruct sch as [|o sch _] using rev_ind.
    + rewrite app_nil_r. eapply Forall_impl; [exact Hf|]. simpl. intros o [? _]. lia.
    + exfalso. rewrite (assoc_L (++)), last_snoc in Hl. simplify_eq.
      apply Forall_app in Hs as [_ [[? _] _]%Forall_cons]. done.
Qed.

(** *** Timers *)
Lemma pending_timers x s top rest :
  d_timers s = top :: rest →
  pending x s = (occ x [d_continuation top] + pending x (set_timers rest s))%nat.
Proof.
  intros Ht. unfold pending, pending_ios. cbn [d_timers d_outstanding set_timers].
  rewrite Ht, fmap_cons, !occ_app, (occ_cons x (d_continuation top)). lia.
Qed.

Lemma handle_timer_ok s :
  wf s →
  ∃ n s', handle_timer sys client s = (n, s') ∧ (n = 0 ∨ n = 1) ∧ wf s' ∧ delta s s' [] ∧ same_poll s s' ∧
    (n = 0 → d_timers s' = d_timers s ∧ d_outstanding s' = d_outstanding s).
Proof.
  intros Hwf. unfold handle_timer. destruct (d_timers s) as [|top rest] eqn:Ht.
  { do 2 eexists. split_and!; [done|by left|done|apply delta_refl|done..]. }
  pose proof (env_now (pc_os s)) as Hnow. destruct (sys_now sys (pc_os s)) as [now os]; simpl in Hnow.
  destruct (set_os_ok os s Hnow Hwf) as (Hwf1 & Hg1 & Hd1).
  destruct (d_expiry top <=? now).
  - assert (Hwf2 : wf (set_timers rest (set_os os s))).
    { destruct Hwf1. split; simpl; [done..| |done]. simpl in *. rewrite Ht in *.
      by apply StronglySorted_inv in wf_timers0 as [? _]. }
    destruct (env_client (d_continuation top) 0 0 _ Hwf2) as (Hwf3 & Hg3 & Hd3).
    destruct (grows_same_poll _ _ Hg3).
    do 2 eexists. split; [done|]. split; [by right|]. split; [done|]. split; [|by split].
    intros x. specialize (Hd1 x). specialize (Hd3 x).
    pose proof (pending_timers x s top rest Ht) as Hp.
    change (pending x (set_timers rest s)) with (pending x (set_timers rest (set_os os s))) in Hp.
    rewrite occ_nil in *. unfold completed, submitted in *. simpl in *. rewrite Hnow in *. lia.
  - do 2 eexists. split_and!; [done|by left|done|done|done..].
Qed.

(** *** Ready descriptors *)
Lemma io_op_total o s :
  io_op o →
  ∃ b s', operation_call sys client with_send_flags with_recv_flags (op_operation o) s = Ret (b, s').
Proof.
  intros [_ Ho]. destruct (op_operation o); try done; simpl; try (by do 2 eexists);
    match goal with |- context [Ret ?c] => destruct c end; by do 2 eexists.
Qed.

(** [d_next_poll] can be used: it points into the vector or behind its end. *)
Definition valid s : Prop := ∃ i, d_next_poll s = Some i ∧ (i ≤ length (d_poll s))%nat.

Lemma set_os_same_poll os s : same_poll s (set_os os s).
Proof. done. Qed.

Lemma same_poll_trans s1 s2 s3 : same_poll s1 s2 → same_poll s2 s3 → same_poll s1 s3.
Proof. intros [??] [??]. split; congruence. Qed.

Lemma handle_io_ops_ok p before todo s :
  d_outstanding s = before ++ todo → wf s → 0 ≤ pfd_fd p →
  ∃ b s', handle_io_ops sys client with_send_flags with_recv_flags p before todo s = Ret (b, s') ∧
    wf s' ∧ delta s s' [] ∧ same_poll s s'.
Proof.
  revert before s. induction todo as [|o todo IH]; intros before s Hl Hwf Hp; simpl.
  { exists false, s. split_and!; [done|done|apply delta_refl|done..]. }
  destruct ((pfd_fd p =? op_fd o) && _) eqn:Hm.
  2: { apply IH; [by rewrite <-(assoc_L (++))|done..]. }
  apply andb_true_iff in Hm as [Hfd%Z.eqb_eq _].
  assert (Ho : o ∈ d_outstanding s) by (rewrite Hl; apply elem_of_app; right; by apply elem_of_cons; left).
  assert (Hio : io_op o) by (destruct (wf_op_kind s o Hwf Ho) as [?|[? _]]; [done|lia]).
  destruct (wf_remove s before o todo Hwf Hl) as [Hwf0 Hpend].
  destruct (io_op_total o (set_outstanding (before ++ todo) s) Hio) as (b & s1 & Hc).
  rewrite Hc. simpl. destruct (io_op_call _ _ _ _ Hio Hwf0 Hc) as (Hwf1 & Hg1 & Hd1 & Hfalse).
  destruct b.
  - exists true, s1. split_and!; [done|done| |by destruct (grows_same_poll _ _ Hg1)..].
    intros x. specialize (Hd1 x). specialize (Hpend x). rewrite occ_nil.
    unfold completed, submitted in *. simpl in *. lia.
  - destruct (Hfalse eq_refl) as (os & Hos & ->). simpl in Hos.
    assert (set_outstanding (before ++ o :: todo) (set_os os (set_outstanding (before ++ todo) s)) =
            set_os os s) as ->.
    { destruct s; simpl in *. by subst. }
    destruct (set_os_ok os s Hos Hwf) as (Hwf2 & _ & Hd2).
    destruct (IH (before ++ [o]) (set_os os s)) as (b & s' & -> & Hwf' & Hd' & Hsp);
      [simpl; by rewrite <-(assoc_L (++))|done..|].
    exists b, s'. split_and!; [done|done| |by destruct Hsp..]. by eapply (delta_trans _ _ _ []).
Qed.

(** Moving [d_next_poll] only. *)
Lemma set_next_ok n s :
  wf s → wf (set_poll (d_poll s) n s) ∧ delta s (set_poll (d_poll s) n s) [].
Proof. intros [? ? ? ? ?]. split; [by split|by apply delta_same]. Qed.

Lemma handle_io_fds_ok i ps s :
  wf s → (i + length ps = length (d_poll s))%nat → Forall (λ p, 0 ≤ pfd_fd p) ps →
  ∃ n s', handle_io_fds sys client with_send_flags with_recv_flags i ps s = Ret (n, s') ∧
    (n = 0 ∨ n = 1) ∧ wf s' ∧ delta s s' [] ∧ valid s'.
Proof.
  revert i s. induction ps as [|p ps IH]; intros i s Hwf Hi Hps; simpl in *.
  { destruct (set_next_ok (Some (length (d_poll s))) s Hwf) as [??].
    do 2 eexists. split_and!; [done|by left|done..|]. eexists. by split. }
  apply Forall_cons in Hps as [Hp Hps].
  destruct (pfd_revents p =? 0); [apply IH; [done|lia|done]|].
  destruct (set_next_ok (Some i) s Hwf) as [Hwf0 Hd0].
  destruct (handle_io_ops_ok p [] (d_outstanding s) (set_poll (d_poll s) (Some i) s))
    as (b & s1 & -> & Hwf1 & Hd1 & [Hsp Hsn]); [done..|]. cbn [mbind outcome_bind].
  simpl in Hsp, Hsn.
  pose proof (delta_trans _ _ _ [] [] Hd0 Hd1) as Hd01. destruct b.
  - destruct (set_next_ok (Some (S i)) s1 Hwf1) as [??].
    do 2 eexists. split_and!; [done|by right|done|by eapply (delta_trans _ _ _ [] [])|].
    eexists. split; [done|]. simpl. rewrite Hsp. lia.
  - destruct (IH (S i) s1) as (n & s' & -> & Hn & Hwf' & Hd' & Hv); [done|rewrite Hsp; lia|done|].
    do 2 eexists. split_and!; [done|done|done|by eapply (delta_trans _ _ _ [] [])|done].
Qed.

Lemma handle_io_ok s :
  wf s → valid s →
  ∃ n s', handle_io sys client with_send_flags with_recv_flags s = Ret (n, s') ∧
    (n = 0 ∨ n = 1) ∧ wf s' ∧ delta s s' [] ∧ valid s'.
Proof.
  intros Hwf (i & Hn & Hi). unfold handle_io. rewrite Hn. simpl. rewrite decide_True by done.
  apply handle_io_fds_ok; [done|rewrite length_drop; lia|]. apply Forall_drop, Hwf.
Qed.

(** *** Polling *)
Lemma poll_fds_nonneg l : Forall (λ p, 0 ≤ pfd_fd p) (poll_fds l).
Proof.
  induction l as [|o l IH]; simpl; [constructor|].
  destruct (Z.ltb_spec (op_fd o) 0); constructor; simpl; [lia|done].
Qed.

Lemma poll_sleep_ok s :
  wf s → ∃ t s', poll_sleep sys s = (t, s') ∧ wf s' ∧ delta s s' [] ∧ same_poll s s'.
Proof.
  intros Hwf. unfold poll_sleep. destruct (d_timers s) as [|top q].
  { do 2 eexists. split_and!; [done|done|apply delta_refl|done..]. }
  pose proof (env_now (pc_os s)) as Hnow. destruct (sys_now sys (pc_os s)) as [now os]; simpl in Hnow.
  destruct (set_os_ok os s Hnow Hwf) as (?&?&?). by do 2 eexists.
Qed.

Lemma set_poll_ok ps n os s :
  ghost os = ghost (pc_os s) → Forall (λ p, 0 ≤ pfd_fd p) ps → wf s →
  wf (set_poll ps n (set_os os s)) ∧ delta s (set_poll ps n (set_os os s)) [].
Proof. intros Hg Hps [? ? ? ? ?]. split; [by split|by apply delta_same]. Qed.

Lemma poll_loop_ok fuel s :
  wf s → d_next_poll s = None →
  poll_loop sys fuel s = NoFuel ∨
  ∃ b s', poll_loop sys fuel s = Ret (b, s') ∧ wf s' ∧ delta s s' [] ∧
    if (b : bool) then valid s' else d_next_poll s' = None.
Proof.
  revert s. induction fuel as [|fuel IH]; intros s Hwf Hn; [by left|]. simpl.
  destruct (poll_sleep_ok s Hwf) as (t & s1 & -> & Hwf1 & Hd1 & [Hsp Hsn]).
  pose proof (env_poll (d_poll s1) t (pc_os s1)) as Hg.
  pose proof (env_poll_fds (d_poll s1) t (pc_os s1)) as Hfds.
  destruct (sys_poll sys (d_poll s1) t (pc_os s1)) as [[[rc errno] ps] os]. simpl in Hg, Hfds.
  assert (Hps : Forall (λ p, 0 ≤ pfd_fd p) ps).
  { apply (Forall_fmap pfd_fd (λ z, 0 ≤ z)). rewrite Hfds. apply Forall_fmap, Hwf1. }
  destruct (0 <=? rc); [|destruct (negb (errno =? EINVAL))].
  - right. destruct (set_poll_ok ps (Some O) os s1) as [??]; [done..|].
    do 2 eexists. split_and!; [done|done|by eapply (delta_trans _ _ _ [] [])|].
    eexists. split; [done|]. lia.
  - right. destruct (set_poll_ok ps (d_next_poll s1) os s1) as [??]; [done..|].
    do 2 eexists. split_and!; [done|done|by eapply (delta_trans _ _ _ [] [])|]. simpl. congruence.
  - destruct (set_poll_ok ps (d_next_poll s1) os s1) as [Hwf2 Hd2]; [done..|].
    destruct (IH _ Hwf2) as [->|(b & s' & -> & Hwf' & Hd' & Hv)]; [simpl; congruence|by left|].
    right. do 2 eexists. split_and!; [done|done| |done].
    eapply (delta_trans _ _ _ [] []); [exact Hd1|by eapply (delta_trans _ _ _ [] [])].
Qed.

Lemma poll_ok fuel s :
  wf s →
  poll sys fuel s = NoFuel ∨
  ∃ b s', poll sys fuel s = Ret (b, s') ∧ wf s' ∧ delta s s' [] ∧
    if (b : bool) then valid s' else d_next_poll s' = None.
Proof.
  intros Hwf. unfold poll.
  assert (Hwf1 : wf (set_poll (poll_fds (d_outstanding s)) None s)).
  { destruct Hwf. split; try done. apply poll_fds_nonneg. }
  assert (Hd1 : delta s (set_poll (poll_fds (d_outstanding s)) None s) []) by (by apply delta_same).
  case_bool_decide.
  - right. do 2 eexists. by split_and!.
  - destruct (poll_loop_ok fuel _ Hwf1 eq_refl) as [->|(b & s' & -> & Hwf' & Hd' & Hv)]; [by left|].
    right. do 2 eexists. split_and!; [done|done|by eapply (delta_trans _ _ _ [] [])|done].
Qed.

(** *** run_one *)
Lemma run_one_iteration_ok fuel s :
  wf s → valid s →
  run_one_iteration sys client with_send_flags with_recv_flags fuel s = NoFuel ∨
  ∃ r s', run_one_iteration sys client with_send_flags with_recv_flags fuel s = Ret (r, s') ∧
    wf s' ∧ delta s s' [] ∧
    (r = Some 1 ∧ valid s' ∨ r = None ∧ valid s' ∨ r = Some 0 ∧ d_next_poll s' = None).
Proof.
  intros Hwf Hv. unfold run_one_iteration.
  assert (Hvp : ∀ s1 s2, same_poll s1 s2 → valid s1 → valid s2).
  { intros s1 s2 [Hp Hn] (i & ? & ?). exists i. by rewrite Hn, Hp. }
  destruct (handle_timer_ok s Hwf) as (n1 & s1 & -> & [->| ->] & Hwf1 & Hd1 & Hsp1 & _); simpl.
  2: { right. do 2 eexists. split_and!; [done|done|done|]. left. by eauto. }
  destruct (handle_scheduled_ok s1 Hwf1) as (n2 & s2 & -> & [(-> & -> & _)|(-> & Hwf2 & Hd2 & Hsp2)]); simpl.
  2: { right. do 2 eexists. split_and!; [done|done|by eapply (delta_trans _ _ _ [] [])|]. left. eauto. }
  destruct (handle_io_ok s1 Hwf1) as (n3 & s3 & -> & [->| ->] & Hwf3 & Hd3 & Hv3); [by eauto|simpl..].
  2: { right. do 2 eexists. split_and!; [done|done|by eapply (delta_trans _ _ _ [] [])|]. by left. }
  pose proof (delta_trans _ _ _ [] [] Hd1 Hd3) as Hd13.
  destruct (poll_ok fuel s3 Hwf3) as [->|(b & s4 & -> & Hwf4 & Hd4 & Hv4)]; [by left|]. simpl.
  right. do 2 eexists. split_and!; [done|done|by eapply (delta_trans _ _ _ [] [])|].
  destruct b; auto.
Qed.

Abbreviation run_one := (pc_do_run_one sys client with_send_flags with_recv_flags).

(** *** Termination

    A context with something to complete: the handlers find it. *)
Definition productive s : Prop :=
  ∀ fuel, ∃ s', run_one_iteration sys client with_send_flags with_recv_flags fuel s = Ret (Some 1, s').

(** What the loop of [run_one] needs to end: a call of the system's poll fails
    for good, or leaves something to complete, or uses up some of the system's
    patience, which no other system call gives back. The patience bounds the
    polls which report nothing to complete or fail with [EINVAL]. *)
Class PatientSystem (patience : OS → nat) : Prop := {
  patience_now os : (patience (sys_now sys os).2 ≤ patience os)%nat;
  patience_pipe_read fd os : (patience (sys_pipe_read sys fd os) ≤ patience os)%nat;
  patience_accept a b c os : (patience (sys_accept sys a b c os).2 ≤ patience os)%nat;
  patience_sendmsg a b c os : (patience (sys_sendmsg sys a b c os).2 ≤ patience os)%nat;
  patience_recvmsg a b c os : (patience (sys_recvmsg sys a b c os).2 ≤ patience os)%nat;
  patience_readv a b c os : (patience (sys_readv sys a b c os).2 ≤ patience os)%nat;
  patience_writev a b c os : (patience (sys_writev sys a b c os).2 ≤ patience os)%nat;
  patience_poll t s :
    wf s →
    let '(rc, errno, ps, os) := sys_poll sys (d_poll s) t (pc_os s) in
    (rc < 0 ∧ errno ≠ EINVAL) ∨
    (0 ≤ rc ∧ productive (set_poll ps (Some O) (set_os os s))) ∨
    (patience os < patience (pc_os s))%nat;
}.

Section termination.
Context (patience : OS → nat) `{!PatientSystem patience}.

Definition patience_left s : nat := patience (pc_os s).

Lemma poll_sleep_left s : (patience_left (poll_sleep sys s).2 ≤ patience_left s)%nat.
Proof.
  unfold poll_sleep. destruct (d_timers s); [done|]. pose proof (patience_now (pc_os s)) as Hnow.
  by destruct (sys_now sys (pc_os s)).
Qed.

Lemma handle_timer_left s s' : handle_timer sys client s = (0, s') → (patience_left s' ≤ patience_left s)%nat.
Proof.
  unfold handle_timer. destruct (d_timers s); [by intros [= <-]|].
  pose proof (patience_now (pc_os s)) as Hnow. destruct (sys_now sys (pc_os s)) as [now os].
  case_match; [done|]. by intros [= <-].
Qed.

Lemma complete_or_retry_left retry cont r s s' :
  (patience r.2 ≤ patience (pc_os s))%nat →
  complete_or_retry client retry cont r s = (false, s') → (patience_left s' ≤ patience_left s)%nat.
Proof.
  destruct r as [[rc errno] os]. unfold complete_or_retry. intros Hpat.
  repeat case_match; intros [= <-]; done.
Qed.

Lemma io_op_left o s s' :
  io_op o →
  operation_call sys client with_send_flags with_recv_flags (op_operation o) s = Ret (false, s') →
  (patience_left s' ≤ patience_left s)%nat.
Proof.
  intros [_ Ho]. destruct (op_operation o); try done; simpl; intros [= Hc].
  - subst. apply (patience_pipe_read (patience := patience)).
  - by eapply complete_or_retry_left; [apply patience_accept|].
  - unfold connect_call in Hc. by destruct (sys_getsockopt_error sys fd (pc_os s)) as [[??]?].
  - by eapply complete_or_retry_left; [apply patience_sendmsg|].
  - by eapply complete_or_retry_left; [apply patience_recvmsg|].
  - by eapply complete_or_retry_left; [apply patience_readv|].
  - by eapply complete_or_retry_left; [apply patience_writev|].
Qed.

Lemma handle_io_ops_left p before todo s s' :
  d_outstanding s = before ++ todo → wf s → 0 ≤ pfd_fd p →
  handle_io_ops sys client with_send_flags with_recv_flags p before todo s = Ret (false, s') →
  (patience_left s' ≤ patience_left s)%nat.
Proof.
  revert before s. induction todo as [|o todo IH]; intros before s Hl Hwf Hp; simpl; [by intros [= <-]|].
  destruct ((pfd_fd p =? op_fd o) && _) eqn:Hm.
  2: { apply IH; [by rewrite <-(assoc_L (++))|done..]. }
  apply andb_true_iff in Hm as [Hfd%Z.eqb_eq _].
  assert (Ho : o ∈ d_outstanding s) by (rewrite Hl; apply elem_of_app; right; by apply elem_of_cons; left).
  assert (Hio : io_op o) by (destruct (wf_op_kind s o Hwf Ho) as [?|[? _]]; [done|lia]).
  destruct (wf_remove s before o todo Hwf Hl) as [Hwf0 _].
  destruct (io_op_total o (set_outstanding (before ++ todo) s) Hio) as (b & s1 & Hc).
  rewrite Hc. simpl. destruct (io_op_call _ _ _ _ Hio Hwf0 Hc) as (_ & _ & _ & Hfalse).
  destruct b; [done|]. apply io_op_left in Hc; [|done].
  destruct (Hfalse eq_refl) as (os & Hos & ->). simpl in Hos.
  assert (set_outstanding (before ++ o :: todo) (set_os os (set_outstanding (before ++ todo) s)) =
          set_os os s) as ->.
  { destruct s; simpl in *. by subst. }
  intros Hs'. apply IH in Hs'; [|simpl; by rewrite <-(assoc_L (++))| |done].
  - unfold patience_left in *. simpl in *. lia.
  - by apply set_os_ok.
Qed.

Lemma handle_io_fds_left i ps s s' :
  wf s → Forall (λ p, 0 ≤ pfd_fd p) ps →
  handle_io_fds sys client with_send_flags with_recv_flags i ps s = Ret (0, s') →
  (patience_left s' ≤ patience_left s)%nat.
Proof.
  revert i s. induction ps as [|p ps IH]; intros i s Hwf Hps; simpl; [by intros [= <-]|].
  apply Forall_cons in Hps as [Hp Hps].
  destruct (pfd_revents p =? 0); [by apply IH|].
  destruct (set_next_ok (Some i) s Hwf) as [Hwf0 _].
  pose proof (handle_io_ops_left p [] (d_outstanding s) (set_poll (d_poll s) (Some i) s)) as Hleft.
  destruct (handle_io_ops_ok p [] (d_outstanding s) (set_poll (d_poll s) (Some i) s))
    as (b & s1 & Hs1 & Hwf1 & _); [done..|]. rewrite Hs1 in Hleft |- *. simpl.
  destruct b; [done|]. intros Hs'. apply IH in Hs'; [|done..].
  specialize (Hleft s1 eq_refl Hwf0 Hp eq_refl). unfold patience_left in *. simpl in *. lia.
Qed.

Lemma poll_loop_left fuel s :
  wf s → d_next_poll s = None → (patience_left s < fuel)%nat →
  ∃ b s', poll_loop sys fuel s = Ret (b, s') ∧
    (b = true → productive s' ∨ (patience_left s' < patience_left s)%nat).
Proof.
  revert s. induction fuel as [|fuel IH]; intros s Hwf Hn Hf; [lia|]. simpl.
  pose proof (poll_sleep_left s) as Hl.
  destruct (poll_sleep_ok s Hwf) as (t & s1 & Hs1 & Hwf1 & Hd1 & [Hsp Hsn]).
  rewrite Hs1 in Hl |- *. simpl in Hl.
  pose proof (env_poll (d_poll s1) t (pc_os s1)) as Hg.
  pose proof (env_poll_fds (d_poll s1) t (pc_os s1)) as Hfds.
  pose proof (patience_poll t s1 Hwf1) as Hp.
  destruct (sys_poll sys (d_poll s1) t (pc_os s1)) as [[[rc errno] ps] os]. simpl in Hg, Hfds.
  assert (Hps : Forall (λ p, 0 ≤ pfd_fd p) ps).
  { apply (Forall_fmap pfd_fd (λ z, 0 ≤ z)). rewrite Hfds. apply Forall_fmap, Hwf1. }
  destruct (Z.leb_spec 0 rc); [|destruct (Z.eqb_spec errno EINVAL); simpl].
  - do 2 eexists. split; [done|]. intros _.
    destruct Hp as [[? _]|[[_ ?]|?]]; [lia|by left|right]. unfold patience_left in *. simpl in *. lia.
  - assert (patience os < patience_left s1)%nat as Hlt by (destruct Hp as [[_ ?]|[[? _]|?]]; [done|lia|done]).
    destruct (set_poll_ok ps (d_next_poll s1) os s1) as [Hwf2 _]; [done..|].
    destruct (IH _ Hwf2) as (b & s' & -> & Hb); [simpl; congruence|unfold patience_left in *; simpl in *; lia|].
    do 2 eexists. split; [done|]. intros ->. destruct Hb as [?|?]; [done|by left|right].
    unfold patience_left in *. simpl in *. lia.
  - by do 2 eexists.
Qed.

(** A round that has to go on used up patience, or the next one ends. *)
Lemma run_one_iteration_left fuel s :
  wf s → valid s → (patience_left s < fuel)%nat →
  ∃ r s', run_one_iteration sys client with_send_flags with_recv_flags fuel s = Ret (r, s') ∧
    (r = None → productive s' ∨ (patience_left s' < patience_left s)%nat).
Proof.
  intros Hwf Hv Hf. unfold run_one_iteration.
  destruct (handle_timer_ok s Hwf) as (n1 & s1 & Ht & [->| ->] & Hwf1 & _ & [Hp1 Hn1] & _);
    rewrite Ht; simpl; [|by do 2 eexists].
  destruct (handle_scheduled_ok s1 Hwf1) as (n2 & s2 & -> & [(-> & -> & _)|(-> & _)]); simpl;
    [|by do 2 eexists].
  assert (Hv1 : valid s1) by (destruct Hv as (i & ? & ?); exists i; by rewrite Hn1, Hp1).
  destruct (handle_io_ok s1 Hwf1) as (n3 & s3 & Hio & [->| ->] & Hwf3 & _); [done|..];
    rewrite Hio; simpl; [|by do 2 eexists].
  apply handle_timer_left in Ht. destruct Hv1 as (i & Hi & Hle).
  assert (patience_left s3 ≤ patience_left s1)%nat as Hl3.
  { unfold handle_io in Hio. rewrite Hi in Hio. simpl in Hio. rewrite decide_True in Hio by done.
    eapply handle_io_fds_left; [exact Hwf1| |exact Hio]. apply Forall_drop, Hwf1. }
  unfold poll. case_bool_decide; [by do 2 eexists|].
  assert (Hwf4 : wf (set_poll (poll_fds (d_outstanding s3)) None s3)).
  { destruct Hwf3. split; try done. apply poll_fds_nonneg. }
  destruct (poll_loop_left fuel _ Hwf4 eq_refl) as (b & s' & -> & Hb); [unfold patience_left in *; simpl in *; lia|].
  do 2 eexists. split; [done|]. destruct b; [intros _|done].
  destruct Hb as [?|?]; [done|by left|right]. unfold patience_left in *. simpl in *. lia.
Qed.

Lemma run_one_terminates fuel s :
  wf s → valid s → (patience_left s + 1 < fuel)%nat → run_one fuel s ≠ NoFuel.
Proof.
  revert s. induction fuel as [|fuel IH]; intros s Hwf Hv Hf; [lia|]. cbn [pc_do_run_one].
  destruct (run_one_iteration_left fuel s Hwf Hv) as (r & s1 & Hr & Hn); [lia|]. rewrite Hr. simpl.
  destruct r as [n|]; [done|].
  destruct (run_one_iteration_ok fuel s Hwf Hv) as [?|(r & s1' & Hr' & Hwf1 & _ & Hv1)]; [congruence|].
  assert (s1' = s1 ∧ valid s1) as [-> Hvs].
  { rewrite Hr in Hr'. simplify_eq. destruct Hv1 as [[? _]|[[_ ?]|[? _]]]; done. }
  destruct (Hn eq_refl) as [Hprod|?]; [|apply IH; [done..|lia]].
  destruct fuel as [|fuel]; [lia|]. cbn [pc_do_run_one]. destruct (Hprod fuel) as (s2 & ->). done.
Qed.
End termination.

Lemma run_one_ok fuel s :
  wf s → valid s →
  run_one fuel s = NoFuel ∨
  ∃ n s', run_one fuel s = Ret (n, s') ∧ wf s' ∧
    (n = 1 ∧ valid s' ∨ n = 0 ∧ d_next_poll s' = None) ∧ delta s s' [].
Proof.
  revert s. induction fuel as [|fuel IH]; intros s Hwf Hv; [by left|]. cbn [pc_do_run_one].
  destruct (run_one_iteration_ok fuel s Hwf Hv) as [->|(r & s1 & -> & Hwf1 & Hd1 & Hr)]; [by left|].
  simpl. destruct Hr as [[-> Hv1]|[[-> Hv1]|[-> Hv1]]].
  - right. do 2 eexists. split_and!; [done|done|by left|done].
  - destruct (IH s1 Hwf1 Hv1) as [->|(n & s' & -> & ? & ? & ?)]; [by left|].
    right. do 2 eexists. split_and!; [done..|]. by eapply (delta_trans _ _ _ [] []).
  - right. do 2 eexists. split_and!; [done|done|by right|done].
Qed.


Lemma timer_iteration fuel s top rest :
  d_timers s = top :: rest → d_expiry top ≤ (sys_now sys (pc_os s)).1 →
  ∃ s', run_one_iteration sys client with_send_flags with_recv_flags fuel s = Ret (Some 1, s').
Proof.
  intros Ht Hdue. unfold run_one_iteration, handle_timer. rewrite Ht.
  destruct (sys_now sys (pc_os s)) as [now os]; simpl in *.
  rewrite (proj2 (Z.leb_le _ _) Hdue). simpl. eauto.
Qed.

Lemma scheduled_iteration fuel s o :
  wf s → last (d_outstanding s) = Some o → op_fd o = -1 →
  ∃ s', run_one_iteration sys client with_send_flags with_recv_flags fuel s = Ret (Some 1, s').
Proof.
  intros Hwf Hl Hfd. unfold run_one_iteration.
  destruct (handle_timer_ok s Hwf) as (n1 & s1 & -> & [->| ->] & Hwf1 & _ & _ & Hz); simpl; [|eauto].
  destruct (Hz eq_refl) as [_ Hout]. rewrite <-Hout in Hl.
  destruct (handle_scheduled_ok s1 Hwf1) as (n2 & s2 & -> & [(-> & _ & Hno)|(-> & _)]); simpl; [|eauto].
  exfalso. rewrite Forall_forall in Hno. by apply (Hno o); [apply elem_of_last|].
Qed.

Lemma handle_io_fds_quiet i ps s :
  Forall (λ p, pfd_revents p = 0) ps →
  handle_io_fds sys client with_send_flags with_recv_flags i ps s =
    Ret (0, set_poll (d_poll s) (Some (length (d_poll s))) s).
Proof.
  intros Hps. revert i. induction Hps as [|p ps Hp _ IH]; intros i; simpl; [done|].
  by rewrite Hp, IH.
Qed.

Lemma idle_iteration fuel s o :
  d_timers s = [] → d_outstanding s = [o] → 0 ≤ op_fd o → valid s →
  Forall (λ p, pfd_revents p = 0) (d_poll s) →
  ∃ s', run_one_iteration sys client with_send_flags with_recv_flags fuel s = Ret (Some 0, s') ∧
    d_next_poll s' = None ∧ d_timers s' = [] ∧ d_outstanding s' = [o].
Proof.
  intros Ht Ho Hfd (i & Hn & Hi) Hps. unfold run_one_iteration, handle_timer. rewrite Ht. simpl.
  unfold handle_scheduled. rewrite Ho. simpl.
  destruct (Z.eqb_spec (op_fd o) (-1)); [lia|]. simpl.
  unfold handle_io. rewrite Hn. simpl. rewrite decide_True by done.
  rewrite handle_io_fds_quiet by (by apply Forall_drop). simpl.
  unfold poll. simpl. rewrite Ho. simpl. destruct (Z.ltb_spec (op_fd o) 0); [lia|].
  rewrite bool_decide_true by done. simpl. by eexists.
Qed.

(** The system's poll fails other than with [EINVAL], e.g. is interrupted. *)
Definition poll_fails (ps : list pollfd) (t : Z) (os : OS) : Prop :=
  let '(rc, errno, _, _) := sys_poll sys ps t os in rc < 0 ∧ errno ≠ EINVAL.

(** Two or more operations wait for a descriptor when the poll fails. *)
Lemma interrupted_iteration fuel s :
  d_timers s = [] → Forall (λ o, 0 ≤ op_fd o) (d_outstanding s) →
  (2 ≤ length (d_outstanding s))%nat → valid s → Forall (λ p, pfd_revents p = 0) (d_poll s) →
  poll_fails (poll_fds (d_outstanding s)) (-1) (pc_os s) →
  ∃ s', run_one_iteration sys client with_send_flags with_recv_flags (S fuel) s = Ret (Some 0, s') ∧
    d_next_poll s' = None ∧ d_timers s' = [] ∧ d_outstanding s' = d_outstanding s.
Proof.
  intros Ht Hfd Hlen (i & Hn & Hi) Hps Hfail. unfold run_one_iteration, handle_timer. rewrite Ht. simpl.
  unfold handle_scheduled. destruct (last (d_outstanding s)) as [o|] eqn:Hl.
  2: { apply last_None in Hl. rewrite Hl in Hlen. simpl in Hlen. lia. }
  rewrite Forall_forall in Hfd. pose proof (Hfd o (elem_of_last _ _ Hl)).
  destruct (Z.eqb_spec (op_fd o) (-1)); [lia|]. simpl.
  unfold handle_io. rewrite Hn. simpl. rewrite decide_True by done.
  rewrite handle_io_fds_quiet by (by apply Forall_drop). simpl.
  unfold poll. simpl. rewrite bool_decide_false.
  2: { intros [Hone _]. revert Hlen Hone. destruct (d_outstanding s) as [|o1 [|o2 l]]; simpl; [lia..|].
    rewrite !(proj2 (Z.ltb_ge _ _)) by (apply Hfd; set_solver). simpl. lia. }
  unfold poll_fails in Hfail. simpl. unfold poll_sleep. simpl. rewrite Ht.
  cbn [d_poll pc_os set_poll].
  destruct (sys_poll sys (poll_fds (d_outstanding s)) (-1) (pc_os s)) as [[[rc errno] ps] os].
  destruct Hfail as [Hrc He]. rewrite (proj2 (Z.leb_gt _ _)), (proj2 (Z.eqb_neq _ _)) by done.
  simpl. by eexists.
Qed.

(** Once [run_one] found nothing to do, the next call uses the iterator into
    the cleared vector. *)
Lemma invalid_iteration fuel s :
  d_timers s = [] → Forall (λ o, 0 ≤ op_fd o) (d_outstanding s) → d_next_poll s = None →
  run_one_iteration sys client with_send_flags with_recv_flags fuel s = UB.
Proof.
  intros Ht Hfd Hn. unfold run_one_iteration, handle_timer. rewrite Ht. simpl.
  unfold handle_scheduled. destruct (last (d_outstanding s)) as [o|] eqn:Hl.
  - rewrite Forall_forall in Hfd. pose proof (Hfd o (elem_of_last _ _ Hl)).
    destruct (Z.eqb_spec (op_fd o) (-1)); [lia|]. simpl. unfold handle_io. by rewrite Hn.
  - simpl. unfold handle_io. by rewrite Hn.
Qed.

(** C2: [run_one] makes progress: with an expired timer or a scheduled
    operation it returns 1 without polling; with only the self-pipe left and
    no timers it returns 0 at once. It also returns 0 when operations wait for
    their descriptors and the system's poll fails, an interruption by a signal
    included, since only [EINVAL] is tried again. An answer 0 leaves
    [d_next_poll] pointing into the cleared vector: calling [run_one] again, in
    the same state, uses the invalid iterator. *)
Theorem poll_run_one_progress fuel s :
  wf s → valid s →
  (((∃ top rest, d_timers s = top :: rest ∧ d_expiry top ≤ (sys_now sys (pc_os s)).1) ∨
    (∃ o, last (d_outstanding s) = Some o ∧ op_fd o = -1)) →
   ∃ s', run_one (S fuel) s = Ret (1, s')) ∧
  (∀ o, d_timers s = [] → d_outstanding s = [o] → 0 ≤ op_fd o →
   Forall (λ p, pfd_revents p = 0) (d_poll s) →
   ∃ s', run_one (S fuel) s = Ret (0, s') ∧ run_one (S fuel) s' = UB) ∧
  (d_timers s = [] → Forall (λ o, 0 ≤ op_fd o) (d_outstanding s) →
   (2 ≤ length (d_outstanding s))%nat → Forall (λ p, pfd_revents p = 0) (d_poll s) →
   poll_fails (poll_fds (d_outstanding s)) (-1) (pc_os s) →
   ∃ s', run_one (S (S fuel)) s = Ret (0, s') ∧ d_outstanding s' = d_outstanding s ∧
     run_one (S fuel) s' = UB).
Proof.
  intros Hwf Hv. cbn [pc_do_run_one]. split_and!.
  - intros [(top & rest & Ht & Hd)|(o & Hl & Hfd)].
    + destruct (timer_iteration fuel s top rest Ht Hd) as (s' & ->). simpl. eauto.
    + destruct (scheduled_iteration fuel s o Hwf Hl Hfd) as (s' & ->). simpl. eauto.
  - intros o Ht Ho Hfd Hps.
    destruct (idle_iteration fuel s o Ht Ho Hfd Hv Hps) as (s' & -> & Hn & Ht' & Ho'). simpl.
    exists s'. split; [done|]. rewrite invalid_iteration; [done|done| |done].
    rewrite Ho'. by constructor.
  - intros Ht Hfd Hlen Hps Hfail.
    destruct (interrupted_iteration fuel s Ht Hfd Hlen Hv Hps Hfail) as (s' & -> & Hn & Ht' & Ho'). simpl.
    exists s'. split; [done|]. split; [done|]. rewrite invalid_iteration; [done|done| |done].
    by rewrite Ho'.
Qed.

(** *** Timers *)
Lemma timer_push_perm t q : timer_push t q ≡ₚ t :: q.
Proof.
  induction q as [|u q IH]; simpl; [done|]. destruct (timer_ltb u t); [done|].
  rewrite IH. apply Permutation_swap.
Qed.

Lemma timer_push_sorted t q : timers_sorted q → timers_sorted (timer_push t q).
Proof.
  induction 1 as [|u q Hq IH Hu]; simpl; [by repeat constructor|].
  unfold timer_ltb. destruct (Z.ltb_spec (d_expiry t) (d_expiry u)).
  - constructor; [by constructor|]. constructor; [lia|]. eapply Forall_impl; [exact Hu|]. simpl. lia.
  - constructor; [done|]. rewrite timer_push_perm. constructor; [lia|done].
Qed.

(** Timers fire in order of their expiry and never early: a timer whose
    expiry is representable gets the time of the call plus its offset;
    [handle_timer] completes the earliest timer (with result 0) exactly when
    the clock has reached it, and then no other is due before it. *)
Theorem poll_timer_order s sec nsec io :
  wf s →
  let now := (sys_now sys (pc_os s)).1 in
  (0 ≤ sec * 1000000000 + nsec → 0 ≤ now → now + sec * 1000000000 + nsec < 2 ^ 63 →
   timers_sorted (d_timers (pc_do_timer sys sec nsec io s)) ∧
   d_timers (pc_do_timer sys sec nsec io s) ≡ₚ
     TimerEvent (now + sec * 1000000000 + nsec) io :: d_timers s) ∧
  match d_timers s with
  | [] => handle_timer sys client s = (0, s)
  | top :: rest =>
      let s0 := set_os (sys_now sys (pc_os s)).2 s in
      (∀ t, t ∈ rest → d_expiry top ≤ d_expiry t) ∧
      handle_timer sys client s =
        if decide (d_expiry top ≤ now)
        then (1, client (d_continuation top) 0 0 (set_timers rest s0)) else (0, s0)
  end.
Proof.
  intros Hwf. split.
  - intros H0 Hn Hlt. unfold pc_do_timer. destruct (sys_now sys (pc_os s)) as [now os]. simpl in *.
    assert (wrapu 64 (sec * 1000000000 + nsec) = sec * 1000000000 + nsec) as ->.
    { apply wrapu_small. split; [done|]. lia. }
    assert (wraps 64 (now + (sec * 1000000000 + nsec)) = now + sec * 1000000000 + nsec) as ->.
    { unfold wraps. rewrite wrapu_small by (split; lia). rewrite decide_True by lia. lia. }
    split; [apply timer_push_sorted, Hwf|apply timer_push_perm].
  - unfold handle_timer. destruct (d_timers s) as [|top rest] eqn:Ht; [done|].
    destruct (sys_now sys (pc_os s)) as [now os]. simpl. split.
    + pose proof (wf_timers s Hwf) as Hs. rewrite Ht in Hs.
      apply StronglySorted_inv in Hs as [_ Hs]. by rewrite Forall_forall in Hs.
    + destruct (Z.leb_spec (d_expiry top) now); [by rewrite decide_True|by rewrite decide_False by lia].
Qed.

(** The timeout handed to poll: none (-1) without timers, 0 when the
    earliest timer is due, else its remaining time in milliseconds, rounded
    down - provided that fits an [int]. A timer between 2^31 and 2^32
    milliseconds (25 to 49 days) away yields a negative value, that is an
    unlimited wait. *)
Theorem poll_sleep_spec s top rest :
  d_timers s = top :: rest →
  let now := (sys_now sys (pc_os s)).1 in
  let ms := (d_expiry top - now) `div` 1000000 in
  (d_expiry top ≤ now → (poll_sleep sys s).1 = 0) ∧
  (now < d_expiry top → ms < 2 ^ 31 → (poll_sleep sys s).1 = ms ∧ 0 ≤ ms) ∧
  (now < d_expiry top → 2 ^ 31 ≤ ms < 2 ^ 32 → (poll_sleep sys s).1 < 0).
Proof.
  intros Ht. unfold poll_sleep. rewrite Ht. destruct (sys_now sys (pc_os s)) as [now os]. simpl.
  split_and!.
  - intros ?. by rewrite (proj2 (Z.leb_le _ _)).
  - intros Hlt Hms. rewrite (proj2 (Z.leb_gt _ _)) by done.
    rewrite Z.quot_div_nonneg by lia.
    assert (0 ≤ (d_expiry top - now) `div` 1000000) by (apply Z.div_pos; lia).
    unfold wraps. rewrite wrapu_small by (split; lia). by rewrite decide_True by lia.
  - intros Hlt [Hms1 Hms2]. rewrite (proj2 (Z.leb_gt _ _)) by done.
    rewrite Z.quot_div_nonneg by lia.
    unfold wraps. rewrite wrapu_small by (split; lia). rewrite decide_False by lia. lia.
Qed.

(** *** Requests *)
Definition request_ok (r : request) : Prop :=
  match r with
  | RCancel tc io => tc ≠ io ∧ tc ≠ pipe_id
  | RNop _ | RTimer _ _ | ROpenAt _ _ _ _ => True
  | RAccept fd _ _ _ _ | RConnect fd _ _ _ | RRead fd _ _ _ | RWrite fd _ _ _
  | RRecvmsg fd _ _ _ | RSendmsg fd _ _ _ => 0 ≤ fd
  end.

Lemma submit_ok fd events f io s :
  let o := Operation (pc_keys s) fd events f io in
  io_op o → is_drain f = false → wf s →
  ∃ s', submit sys client with_send_flags with_recv_flags fd events f io s = Ret s' ∧
    wf s' ∧ grows s s' ∧ delta s s' [io].
Proof.
  intros o Ho Hdr Hwf. unfold submit. assert (Hios : op_ios o = [io]) by (unfold op_ios; simpl; by rewrite Hdr).
  destruct (io_op_total o s Ho) as (b & s1 & Hc). simpl in Hc. rewrite Hc. simpl.
  destruct (io_op_call o s b s1 Ho Hwf Hc) as (Hwf1 & Hg1 & Hd1 & Hf). rewrite Hios in Hd1.
  destruct b; [by eauto|].
  destruct (submit_io_ok fd events f io s1 (Operation (pc_keys s1) fd events f io)) as (Hwf2 & Hg2 & Hd2);
    [done|rewrite decide_True by (by destruct Ho); done|done|].
  eexists. split_and!; [done|done|by eapply grows_trans|].
  eapply (delta_trans _ _ _ [] [io]); [done|]. unfold op_ios in Hd2. simpl in Hd2. by rewrite Hdr in Hd2.
Qed.

Lemma pc_do_timer_ok sec nsec io s :
  wf s → let s' := pc_do_timer sys sec nsec io s in wf s' ∧ grows s s' ∧ delta s s' [io].
Proof.
  intros Hwf. simpl. unfold pc_do_timer. pose proof (env_now (pc_os s)) as Hnow.
  destruct (sys_now sys (pc_os s)) as [now os]; simpl in Hnow. split_and!.
  - destruct Hwf. split; simpl; [done..| |done]. by apply timer_push_sorted.
  - split; [done|]. exists [], []. by rewrite app_nil_r.
  - apply delta_same; [done|]. unfold pending_ios. simpl.
    rewrite timer_push_perm. simpl. by rewrite Permutation_middle.
Qed.

Lemma pc_do_connect_ok fd addr len io s :
  wf s → 0 ≤ fd →
  let s' := pc_do_connect sys client fd addr len io s in wf s' ∧ grows s s' ∧ delta s s' [io].
Proof.
  intros Hwf Hfd. simpl. unfold pc_do_connect. simpl.
  pose proof (env_nonblock fd (pc_os s)) as Hnb. set (os0 := sys_nonblock sys fd (pc_os s)) in *.
  pose proof (env_connect fd addr len os0) as Hcn.
  destruct (sys_connect sys fd addr len os0) as [[rc errno] os]; simpl in Hcn.
  assert (Hos : ghost os = ghost (pc_os s)) by congruence.
  change (set_os os (set_os os0 s)) with (set_os os s).
  destruct (rc =? 0).
  - by apply client_after_os.
  - destruct (set_os_ok os s Hos Hwf) as (Hwf1 & Hg1 & Hd1).
    destruct (submit_io_ok fd (Z.lor POLLIN POLLOUT) (FnConnect fd io) io (set_os os s)
      (Operation (pc_keys s) fd (Z.lor POLLIN POLLOUT) (FnConnect fd io) io)) as (Hwf2 & Hg2 & Hd2);
      [done|by rewrite decide_True|done|].
    split_and!; [done|by eapply grows_trans|by eapply (delta_trans _ _ _ [] [io])].
Qed.

Lemma pc_do_open_at_ok fd name flags io s :
  wf s → let s' := pc_do_open_at sys client fd name flags io s in wf s' ∧ grows s s' ∧ delta s s' [io].
Proof.
  intros Hwf. simpl. unfold pc_do_open_at. pose proof (env_openat fd name flags (pc_os s)) as Hoa.
  destruct (sys_openat sys fd name flags (pc_os s)) as [[rc errno] os]; simpl in Hoa.
  by apply client_after_os.
Qed.

(** Every request keeps the context well-formed, leaves the operations
    already queued and the poll position alone, and accounts for its own
    continuation exactly once: it is pending, or it was completed at once. So
    the requests satisfy what is assumed of continuations when they are
    completed. *)
Theorem poll_request_conservation spec_at r s :
  request_ok r → wf s →
  ∃ s', pc_request sys client with_send_flags with_recv_flags spec_at r s = Ret s' ∧
    wf s' ∧ grows s s' ∧ delta s s' [request_cont r].
Proof.
  intros Hr Hwf. destruct r; simpl in Hr |- *.
  - eexists. split; [done|].
    apply (submit_io_ok fd POLLIN (FnAccept fd addr len io) io s _ eq_refl);
      [by rewrite decide_True|done].
  - eexists. split; [done|].
    apply (submit_io_ok (-1) 0 (FnCancel to_cancel io) io s _ eq_refl);
      [rewrite decide_False by lia; by destruct Hr|done].
  - eexists. split; [done|]. by apply pc_do_connect_ok.
  - eexists. split; [done|].
    apply (submit_io_ok (-1) 0 (FnNop io) io s _ eq_refl); [by rewrite decide_False by lia|done].
  - eexists. split; [done|]. by apply pc_do_open_at_ok.
  - by apply submit_ok.
  - by apply submit_ok.
  - by apply submit_ok.
  - destruct (spec_at spec) as [sec nsec]. eexists. split; [done|]. by apply pc_do_timer_ok.
  - by apply submit_ok.
Qed.
End accounting.

(** ** A concrete environment

    The system keeps the two logs, a fixed clock and a countdown: poll fails
    with [EINVAL] until the countdown reaches 1, then reports everything, from
    when on reads succeed, and is interrupted at last. Connects succeed, the
    other operations are not ready. Completing continuation 5 submits a nop
    for 6. *)
Definition toy_os : Type := (list io_base * list io_base) * nat.
Definition toy_ghost (os : toy_os) : list io_base * list io_base := os.1.
Definition toy_patience (os : toy_os) : nat := os.2.

Definition toy_poll (ps : list pollfd) (os : toy_os) : Z * Z * list pollfd * toy_os :=
  match os.2 with
  | O => (-1, EINTR, ps, os)
  | S O => (1, 0, (λ p, PollFd (pfd_fd p) (pfd_events p) (pfd_events p)) <$> ps, (os.1, O))
  | S n => (-1, EINVAL, ps, (os.1, n))
  end.

Definition toy_sys : @syscalls toy_os := {|
  sys_pipe os := (0, 0, (3, 4), os);
  sys_nonblock _ os := os;
  sys_close _ os := os;
  sys_now os := (100, os);
  sys_pipe_read _ os := os;
  sys_pipe_write _ os := os;
  sys_poll ps _ os := toy_poll ps os;
  sys_accept _ _ _ os := (-1, EAGAIN, os);
  sys_connect _ _ _ os := (0, 0, os);
  sys_getsockopt_error _ os := (0, 0, os);
  sys_sendmsg _ _ _ os := (-1, EAGAIN, os);
  sys_recvmsg _ _ _ os := (-1, EAGAIN, os);
  sys_readv _ _ _ os := if decide (os.2 = O) then (7, 0, os) else (-1, EAGAIN, os);
  sys_writev _ _ _ os := (-1, EAGAIN, os);
  sys_openat _ _ _ os := (-1, 2, os);
|}.

Definition toy_log (cont : io_base) (s : poll_context toy_os) : poll_context toy_os :=
  set_os ((pc_os s).1.1 ++ [cont], (pc_os s).1.2, (pc_os s).2) s.
Definition toy_submit (r : io_base) (s : poll_context toy_os) : poll_context toy_os :=
  pc_do_nop toy_sys r (set_os ((pc_os s).1.1, (pc_os s).1.2 ++ [r], (pc_os s).2) s).
Definition toy_client (cont : io_base) (rc flags : Z) (s : poll_context toy_os)
    : poll_context toy_os :=
  if cont =? 5 then toy_submit 6 (toy_log cont s) else toy_log cont s.

Lemma toy_log_ok cont s :
  wf 9 s → wf 9 (toy_log cont s) ∧ grows s (toy_log cont s) ∧
    delta toy_ghost s (toy_log cont s) [cont].
Proof.
  intros [? ? ? ? ?]. split_and!; [by split|split; [done|]|].
  - exists [], []. by rewrite app_nil_r.
  - intros x. assert (pending x (toy_log cont s) = pending x s) as -> by done.
    assert (submitted toy_ghost x (toy_log cont s) = submitted toy_ghost x s) as -> by done.
    assert (completed toy_ghost x (toy_log cont s) = (completed toy_ghost x s + occ x [cont])%nat) as ->
      by apply occ_app.
    lia.
Qed.

#[export] Instance toy_environment : Environment toy_sys toy_client toy_ghost 9.
Proof.
  split; try done.
  { intros ps t [log n]. unfold toy_ghost. by destruct n as [|[|n]]. }
  { intros ps t [log n]. destruct n as [|[|n]]; [done| |done]. simpl. by rewrite <-list_fmap_compose. }
  { intros a b c os. simpl. by case_decide. }
  intros cont rc flags s Hwf. unfold toy_client.
  destruct (toy_log_ok cont s Hwf) as (Hwf1 & Hg1 & Hd1). destruct (cont =? 5); [|done].
  set (s1 := toy_log cont s) in *. unfold toy_submit, pc_do_nop.
  set (s2 := set_os (OS:=toy_os) ((pc_os s1).1.1, (pc_os s1).1.2 ++ [6], (pc_os s1).2) s1).
  set (s3 := submit_io toy_sys (-1) 0 (FnNop 6) 6 s2).
  assert (Hwf2 : wf 9 s2) by (destruct Hwf1; by split).
  assert (wf 9 s3 ∧ grows s2 s3 ∧ delta toy_ghost s2 s3 [6]) as (Hwf3 & Hg3 & Hd3).
  { apply (submit_io_gen toy_sys toy_ghost 9 (-1) 0 (FnNop 6) 6 s2 _ (λ _ _, eq_refl) eq_refl);
      [|done]. rewrite decide_False by lia. by split. }
  change (wf 9 s3 ∧ grows s s3 ∧ delta toy_ghost s s3 [cont]).
  split_and!; [done|apply (grows_trans s s1 s3 Hg1); destruct Hg3; by split|].
  intros x. specialize (Hd1 x). specialize (Hd3 x).
  change (completed toy_ghost x s2) with (completed toy_ghost x s1) in Hd3.
  change (pending x s2) with (pending x s1) in Hd3.
  assert (submitted toy_ghost x s2 = (submitted toy_ghost x s1 + occ x [6%Z])%nat) as H6.
  { apply occ_app. }
  lia.
Qed.

(** A context with a nop for 5, a cancel of it by 8 and a timer for 7. *)
Definition toy_state : poll_context toy_os :=
  PollContext toy_os [] (Some O)
    [Operation 0 3 POLLIN FnDrainPipe 9; Operation 1 (-1) 0 (FnNop 5) 5;
     Operation 2 (-1) 0 (FnCancel 5 8) 8]
    [TimerEvent 200 7] (3, 4) 3 ([], [5; 8; 7], 3%nat).

Lemma toy_state_wf : wf 9 toy_state ∧ valid toy_state.
Proof.
  split; [|exists O; split; [done|simpl; lia]]. split.
  - exists (take 1 (d_outstanding toy_state)), (drop 1 (d_outstanding toy_state)).
    split_and!; [done|by repeat constructor|]. by repeat constructor.
  - by apply (bool_decide_unpack _).
  - repeat constructor.
  - repeat constructor.
  - constructor.
Qed.

Definition toy_idle : poll_context toy_os :=
  PollContext toy_os [] (Some O) [Operation 0 3 POLLIN FnDrainPipe 9] [] (3, 4) 1 ([], [], 3%nat).

Lemma toy_idle_wf : wf 9 toy_idle ∧ valid toy_idle.
Proof.
  split; [|exists O; split; [done|simpl; lia]]. split.
  - exists (d_outstanding toy_idle), []. by split_and!; [|by repeat constructor|].
  - by apply (bool_decide_unpack _).
  - repeat constructor.
  - constructor.
  - constructor.
Qed.

(** A context with a read from descriptor 8 for 5. *)
Definition toy_reading : poll_context toy_os :=
  PollContext toy_os [] (Some O)
    [Operation 1 8 POLLIN (FnRead 8 0 1 5) 5; Operation 0 3 POLLIN FnDrainPipe 9]
    [TimerEvent 200 7] (3, 4) 2 ([], [5; 7], 2%nat).

Lemma toy_reading_wf : wf 9 toy_reading ∧ valid toy_reading.
Proof.
  split; [|exists O; split; [done|simpl; lia]]. split.
  - exists (d_outstanding toy_reading), []. by split_and!; [|by repeat constructor|].
  - by apply (bool_decide_unpack _).
  - repeat constructor.
  - repeat constructor.
  - constructor.
Qed.

#[export] Instance toy_patient : PatientSystem toy_sys toy_client id id 9 toy_patience.
Proof.
  split; try done.
  - intros a b c os. simpl. by case_decide.
  - intros t s _. simpl. unfold toy_poll, toy_patience.
    destruct (pc_os s) as [log [|[|n]]]; simpl; [by left; split|right; right; lia..].
Qed.


(** A read waits for descriptor 8 when the poll is interrupted. *)
Definition toy_interrupted : poll_context toy_os :=
  PollContext toy_os [] (Some O)
    [Operation 1 8 POLLIN (FnRead 8 0 1 5) 5; Operation 0 3 POLLIN FnDrainPipe 9]
    [] (3, 4) 2 ([], [5], O).

Lemma toy_interrupted_wf : wf 9 toy_interrupted ∧ valid toy_interrupted.
Proof.
  split; [|exists O; split; [done|simpl; lia]]. split.
  - exists (d_outstanding toy_interrupted), []. by split_and!; [|by repeat constructor|].
  - by apply (bool_decide_unpack _).
  - repeat constructor.
  - constructor.
  - constructor.
Qed.

Lemma poll_run_one_progress_witness :
  let run n := pc_do_run_one toy_sys toy_client id id n in
  (∃ s', run 1%nat toy_state = Ret (1, s')) ∧
  (∃ s', run 1%nat toy_idle = Ret (0, s') ∧ run 1%nat s' = UB) ∧
  (∃ s', run 2%nat toy_interrupted = Ret (0, s') ∧ d_outstanding s' = d_outstanding toy_interrupted ∧
     run 1%nat s' = UB).
Proof.
  destruct toy_state_wf as [Hwf1 Hv1], toy_idle_wf as [Hwf2 Hv2], toy_interrupted_wf as [Hwf3 Hv3].
  split_and!.
  - apply (poll_run_one_progress toy_sys toy_client id id toy_ghost 9 0 toy_state Hwf1 Hv1).
    right. by eexists.
  - apply (proj1 (proj2 (poll_run_one_progress toy_sys toy_client id id toy_ghost 9 0 toy_idle Hwf2 Hv2))
      (Operation 0 3 POLLIN FnDrainPipe 9)); [done|done|simpl; lia|constructor].
  - apply (poll_run_one_progress toy_sys toy_client id id toy_ghost 9 0 toy_interrupted Hwf3 Hv3);
      [done|by repeat constructor|simpl; lia|constructor|by split].
Defined.

Lemma poll_timer_order_witness :
  (0 ≤ 1 * 1000000000 + 5 → 0 ≤ 100 → 100 + 1 * 1000000000 + 5 < 2 ^ 63 →
   timers_sorted (d_timers (pc_do_timer toy_sys 1 5 11 toy_state)) ∧
   d_timers (pc_do_timer toy_sys 1 5 11 toy_state) ≡ₚ
     TimerEvent (100 + 1 * 1000000000 + 5) 11 :: d_timers toy_state) ∧
  (∀ t, t ∈ ([] : list timer_event) → 200 ≤ d_expiry t) ∧
  handle_timer toy_sys toy_client toy_state = (0, toy_state).
Proof.
  destruct toy_state_wf as [Hwf _].
  exact (poll_timer_order toy_sys toy_client 9 toy_state 1 5 11 Hwf).
Defined.

Lemma poll_sleep_spec_witness :
  (200 ≤ 100 → (poll_sleep toy_sys toy_state).1 = 0) ∧
  (100 < 200 → (200 - 100) `div` 1000000 < 2 ^ 31 →
   (poll_sleep toy_sys toy_state).1 = (200 - 100) `div` 1000000 ∧ 0 ≤ (200 - 100) `div` 1000000) ∧
  (100 < 200 → 2 ^ 31 ≤ (200 - 100) `div` 1000000 < 2 ^ 32 → (poll_sleep toy_sys toy_state).1 < 0).
Proof. exact (poll_sleep_spec toy_sys toy_state (TimerEvent 200 7) [] eq_refl). Defined.

Lemma poll_request_conservation_witness :
  ∃ s', pc_request toy_sys toy_client id id (λ _, (0, 0)) (RConnect 8 0 0 5) toy_state = Ret s' ∧
    wf 9 s' ∧ grows toy_state s' ∧ delta toy_ghost toy_state s' [5].
Proof.
  destruct toy_state_wf as [Hwf _].
  apply (poll_request_conservation toy_sys toy_client id id toy_ghost 9 (λ _, (0, 0))); [|exact Hwf].
  unfold request_ok. lia.
Defined.
