(* ===== verification/InPlaceStop.v ===== *)
(** * nstd::stop_token_ns::in_place_stop_source

    The lock-free stop source of src/src/nstd/stop_token/in_place_stop_token.hpp
    as a transition system: any number of threads call [stop], and each callback
    object is constructed ([insert]) and later destroyed ([remove]) by some
    thread. A transition is one atomic operation of one thread together with
    the accesses to its own or to locked data around it. The list head is null
    once the callbacks were called, and the marker while a thread works on the
    list. *)
From S2P Require Import Prelude.

(** ** Data *)

(** [in_place_stop_callback_base*]: null, the source's [d_marker] and [d_end],
    or a callback. *)
Inductive ptr := PNull | PMarker | PEnd | PCb (c : nat).

#[export] Instance ptr_eq_dec : EqDecision ptr.
Proof. solve_decision. Defined.

(** The members of the source and of the callbacks; [ip_log] records the
    executions of [do_call], oldest first. *)
Record in_place_stop_source := Source {
  ip_list : ptr;
  ip_stop_requested : bool;
  ip_next : gmap nat ptr;
  ip_called : gset nat;
  ip_log : list nat;
}.

Definition set_list (p : ptr) (σ : in_place_stop_source) : in_place_stop_source :=
  Source p (ip_stop_requested σ) (ip_next σ) (ip_called σ) (ip_log σ).
Definition ip_set_next (c : nat) (p : ptr) (σ : in_place_stop_source) : in_place_stop_source :=
  Source (ip_list σ) (ip_stop_requested σ) (<[c := p]> (ip_next σ)) (ip_called σ) (ip_log σ).

(** [node->d_next]; only callbacks' links are ever assigned. *)
Definition next_of (σ : in_place_stop_source) (p : ptr) : ptr :=
  match p with PCb c => default PNull (ip_next σ !! c) | _ => PNull end.

(** [call]: [d_called] is set, then [do_call] runs; the function of [d_end]
    does nothing. *)
Definition mark_called (p : ptr) (σ : in_place_stop_source) : in_place_stop_source :=
  match p with
  | PCb c => Source (ip_list σ) (ip_stop_requested σ) (ip_next σ) ({[c]} ∪ ip_called σ) (ip_log σ)
  | _ => σ
  end.
Definition run_call (p : ptr) (σ : in_place_stop_source) : in_place_stop_source :=
  match p with
  | PCb c => Source (ip_list σ) (ip_stop_requested σ) (ip_next σ) (ip_called σ) (ip_log σ ++ [c])
  | _ => σ
  end.

(** ** stop *)
Inductive stop_pc :=
  | SCas                            (* exchanging d_stop_requested *)
  | SLoad                           (* loading the head *)
  | SLoop (head : ptr)              (* the condition of the while loop *)
  | SVisit (node : ptr)             (* the condition of the for loop *)
  | SMark (node tmp : ptr)          (* node->call(): d_called = true *)
  | SRun (node tmp : ptr)           (* node->call(): do_call() *)
  | SRelease                        (* d_list = nullptr *)
  | SDone.

Definition stop_step (σ : in_place_stop_source) (pc : stop_pc)
    : option (in_place_stop_source * stop_pc) :=
  match pc with
  | SCas =>
      if ip_stop_requested σ then Some (σ, SDone)
      else Some (Source (ip_list σ) true (ip_next σ) (ip_called σ) (ip_log σ), SLoad)
  | SLoad => Some (σ, SLoop (ip_list σ))
  | SLoop head =>
      if decide (head = PNull) then Some (σ, SDone)
      else if decide (head = PMarker) then Some (σ, SLoop head)
      else if decide (ip_list σ = head) then Some (set_list PMarker σ, SVisit head)
      else Some (σ, SLoop (ip_list σ))
  | SVisit node =>
      if decide (node = PNull) then Some (σ, SRelease) else Some (σ, SMark node (next_of σ node))
  | SMark node tmp => Some (mark_called node σ, SRun node tmp)
  | SRun node tmp => Some (run_call node σ, SVisit tmp)
  | SRelease => Some (set_list PNull σ, SDone)
  | SDone => None
  end.

(** ** The life of a callback: insert, then at any time remove *)
Inductive cb_pc :=
  | CLoad                           (* insert: loading the head *)
  | CInsert (head : ptr)            (* insert: the for loop *)
  | CMark                           (* insert: callback->call() *)
  | CRun
  | CLive                           (* constructed *)
  | CCheck                          (* remove: testing d_called *)
  | CRemLoad                        (* remove: loading the head *)
  | CRemove (head : ptr)            (* remove: the body of the first loop *)
  | CWalk (head node : ptr)         (* remove: the while loop *)
  | CRelease (head : ptr)           (* remove: d_list = head *)
  | CDead.

Definition cb_step (c : nat) (σ : in_place_stop_source) (pc : cb_pc)
    : option (in_place_stop_source * cb_pc) :=
  match pc with
  | CLoad => Some (σ, CInsert (ip_list σ))
  | CInsert head =>
      if decide (head = PNull) then Some (σ, CMark) else
      let σ := ip_set_next c head σ in
      if decide (head = PMarker) then Some (σ, CInsert head)
      else if decide (ip_list σ = head) then Some (set_list (PCb c) σ, CLive)
      else Some (σ, CInsert (ip_list σ))
  | CMark => Some (mark_called (PCb c) σ, CRun)
  | CRun => Some (run_call (PCb c) σ, CLive)
  | CLive => Some (σ, CCheck)
  | CCheck => if decide (c ∈ ip_called σ) then Some (σ, CDead) else Some (σ, CRemLoad)
  | CRemLoad => Some (σ, CRemove (ip_list σ))
  | CRemove head =>
      if decide (head = PNull) then Some (σ, CDead)
      else if decide (head = PMarker) then Some (σ, CRemLoad)
      else if decide (ip_list σ = head) then
        Some (set_list PMarker σ,
              if decide (head = PCb c) then CRelease (next_of σ head) else CWalk head head)
      else Some (σ, CRemLoad)
  | CWalk head node =>
      if decide (node = PNull) then Some (σ, CRelease head)
      else if decide (next_of σ node = PCb c) then
        Some (match node with
              | PCb n => ip_set_next n (next_of σ (PCb c)) σ
              | _ => σ
              end, CRelease head)
      else Some (σ, CWalk head (next_of σ node))
  | CRelease head => Some (set_list head σ, CDead)
  | CDead => None
  end.

(** ** The system *)
Record world := World {
  w_source : in_place_stop_source;
  w_stops : gmap nat stop_pc;
  w_cbs : gmap nat cb_pc;
}.

Inductive ip_step : relation world :=
  | step_stop σ S C t pc σ' pc' :
      S !! t = Some pc → stop_step σ pc = Some (σ', pc') →
      ip_step (World σ S C) (World σ' (<[t := pc']> S) C)
  | step_cb σ S C c pc σ' pc' :
      C !! c = Some pc → cb_step c σ pc = Some (σ', pc') →
      ip_step (World σ S C) (World σ' S (<[c := pc']> C)).

(** The threads [ts] call [stop]; the callbacks are [cs]. *)
Definition ip_init (ts cs : gset nat) : world :=
  World (Source PEnd false ∅ ∅ []) (gset_to_gmap SCas ts) (gset_to_gmap CLoad cs).

Definition ip_reachable (ts cs : gset nat) (w : world) : Prop := rtc ip_step (ip_init ts cs) w.

(** ** The invariant *)

(** Which program points hold the list. *)
Definition stop_owns (pc : stop_pc) : bool :=
  match pc with SVisit _ | SMark _ _ | SRun _ _ | SRelease => true | _ => false end.
Definition cb_owns (pc : cb_pc) : bool :=
  match pc with CWalk _ _ | CRelease _ => true | _ => false end.

(** The callbacks linked from [p] up to the end. *)
Fixpoint path (nx : gmap nat ptr) (p : ptr) (l : list nat) : Prop :=
  match l with
  | [] => p = PEnd
  | c :: l => p = PCb c ∧ path nx (default PNull (nx !! c)) l
  end.

(** The callbacks the owning stop call still has to visit. *)
Definition stop_rest (nx : gmap nat ptr) (pc : stop_pc) (l : list nat) : Prop :=
  match pc with
  | SVisit node => path nx node l ∨ node = PNull ∧ l = []
  | SMark node tmp =>
      node = PEnd ∧ tmp = PNull ∧ l = [] ∨
      ∃ c l', node = PCb c ∧ l = c :: l' ∧ path nx tmp l'
  | SRun node tmp =>
      node = PEnd ∧ tmp = PNull ∧ l = [] ∨ (∃ c, node = PCb c) ∧ path nx tmp l
  | SRelease => l = []
  | _ => False
  end.

(** The list as the owning remove call has it. *)
Definition cb_rest (nx : gmap nat ptr) (c : nat) (pc : cb_pc) (l : list nat) : Prop :=
  match pc with
  | CWalk head node => path nx head l ∧ ∃ l1 l2, l = l1 ++ l2 ∧ path nx node l2 ∧ c ∈ tail l2
  | CRelease head => path nx head l
  | _ => False
  end.

Inductive owner := NoOwner | StopOwner (t : nat) | CbOwner (c : nat).

Definition running (S : gmap nat stop_pc) (c : nat) : Prop :=
  ∃ t tmp, S !! t = Some (SRun (PCb c) tmp).

(** What holds of a callback at a program point: [l] is the list of the
    callbacks registered and not yet called. *)
Definition cb_ok (σ : in_place_stop_source) (S : gmap nat stop_pc) (l : list nat)
    (c : nat) (pc : cb_pc) : Prop :=
  match pc with
  | CLoad | CRelease _ => c ∉ l ∧ c ∉ ip_called σ
  | CInsert head => c ∉ l ∧ c ∉ ip_called σ ∧ (head = PNull → ip_list σ = PNull)
  | CMark => c ∉ l ∧ c ∉ ip_called σ ∧ ip_list σ = PNull
  | CRun => c ∉ l ∧ c ∈ ip_called σ ∧ c ∉ ip_log σ ∧ ¬ running S c
  | CLive | CCheck | CRemLoad =>
      c ∈ l ∨ c ∉ l ∧ c ∈ ip_called σ ∧ (c ∈ ip_log σ ∨ running S c)
  | CRemove head =>
      (c ∈ l ∨ c ∉ l ∧ c ∈ ip_called σ ∧ (c ∈ ip_log σ ∨ running S c)) ∧
      (head = PNull → ip_list σ = PNull)
  | CWalk _ _ => c ∈ l
  | CDead => c ∉ l
  end.

Record ip_inv_at (w : world) (o : owner) (l : list nat) : Prop := IpInv {
  inv_owner_stop t pc : w_stops w !! t = Some pc → stop_owns pc = true ↔ o = StopOwner t;
  inv_owner_cb c pc : w_cbs w !! c = Some pc → cb_owns pc = true ↔ o = CbOwner c;
  inv_list :
    match o with
    | NoOwner => ip_list (w_source w) = PNull ∧ l = [] ∨
                 path (ip_next (w_source w)) (ip_list (w_source w)) l
    | StopOwner t => ip_list (w_source w) = PMarker ∧
        ∃ pc, w_stops w !! t = Some pc ∧ stop_rest (ip_next (w_source w)) pc l
    | CbOwner c => ip_list (w_source w) = PMarker ∧
        ∃ pc, w_cbs w !! c = Some pc ∧ cb_rest (ip_next (w_source w)) c pc l
    end;
  inv_nodup : NoDup l;
  inv_alive c : c ∈ l → is_Some (w_cbs w !! c) ∧ c ∉ ip_called (w_source w);
  inv_cb c pc : w_cbs w !! c = Some pc → cb_ok (w_source w) (w_stops w) l c pc;
  inv_log_called c : c ∈ ip_log (w_source w) → c ∈ ip_called (w_source w);
  inv_log : NoDup (ip_log (w_source w));
  inv_unstopped :
    (∀ t, o ≠ StopOwner t) → ip_list (w_source w) ≠ PNull → ip_called (w_source w) = ∅;
  inv_running c : running (w_stops w) c → c ∈ ip_called (w_source w) ∧ c ∉ ip_log (w_source w);
}.

Definition ip_inv (w : world) : Prop := ∃ o l, ip_inv_at w o l.

(** ** Preservation *)
Lemma running_insert_other S t pc pc' c :
  S !! t = Some pc → (∀ tmp, pc ≠ SRun (PCb c) tmp) → (∀ tmp, pc' ≠ SRun (PCb c) tmp) →
  running (<[t := pc']> S) c ↔ running S c.
Proof.
  intros Ht Hpc Hpc'. split; intros (u & tmp & Hu).
  - destruct (decide (u = t)) as [->|].
    + rewrite lookup_insert_eq in Hu. simplify_eq. by destruct (Hpc' tmp).
    + rewrite lookup_insert_ne in Hu by done. by exists u, tmp.
  - destruct (decide (u = t)) as [->|].
    + simplify_eq. by destruct (Hpc tmp).
    + exists u, tmp. by rewrite lookup_insert_ne.
Qed.

Lemma cb_ok_ext σ σ' S S' l l' c pc :
  (ip_list σ = PNull → ip_list σ' = PNull) → (c ∈ l ↔ c ∈ l') →
  (c ∈ ip_called σ ↔ c ∈ ip_called σ') → (c ∈ ip_log σ ↔ c ∈ ip_log σ') →
  (running S c ↔ running S' c) → cb_ok σ S l c pc → cb_ok σ' S' l' c pc.
Proof. intros Hn Hl Hc Hg Hr. destruct pc; simpl; tauto. Qed.

(** The links of unregistered callbacks do not matter. *)
Lemma path_insert nx p l c q : c ∉ l → path nx p l → path (<[c := q]> nx) p l.
Proof.
  revert p. induction l as [|x l IH]; intros p; simpl; [done|].
  intros [Hne Hc]%not_elem_of_cons [-> Hp]. split; [done|].
  rewrite lookup_insert_ne by done. by apply IH.
Qed.

Lemma path_not_null nx l : ¬ path nx PNull l.
Proof. by destruct l as [|? ?]; simpl; [|intros [? _]]. Qed.
Lemma path_not_marker nx l : ¬ path nx PMarker l.
Proof. by destruct l as [|? ?]; simpl; [|intros [? _]]. Qed.

(** A free, non-null list. *)
Lemma inv_free w o l :
  ip_inv_at w o l → ip_list (w_source w) ≠ PNull → ip_list (w_source w) ≠ PMarker →
  o = NoOwner ∧ path (ip_next (w_source w)) (ip_list (w_source w)) l ∧ ip_called (w_source w) = ∅.
Proof.
  intros Hinv Hn Hm. pose proof (inv_list _ _ _ Hinv) as Hl.
  destruct o; [|by destruct Hl as [? _]..].
  split; [done|]. split; [by destruct Hl as [[? _]|?]|]. by apply (inv_unstopped _ _ _ Hinv).
Qed.

Lemma inv_null w o l :
  ip_inv_at w o l → ip_list (w_source w) = PNull → o = NoOwner ∧ l = [].
Proof.
  intros Hinv Hn. pose proof (inv_list _ _ _ Hinv) as Hl. rewrite Hn in Hl.
  destruct o; [|by destruct Hl..]. split; [done|].
  destruct Hl as [[_ ?]|?%path_not_null]; done.
Qed.

(** A stop call's own steps that leave the shared data alone. *)
Lemma stop_quiet σ σ' S C t pc pc' o l :
  ip_inv_at (World σ S C) o l → S !! t = Some pc →
  stop_owns pc = false → stop_owns pc' = false →
  ip_list σ' = ip_list σ → ip_next σ' = ip_next σ → ip_called σ' = ip_called σ →
  ip_log σ' = ip_log σ →
  ip_inv_at (World σ' (<[t := pc']> S) C) o l.
Proof.
  intros [Hos Hoc Hl Hnd Hal Hcb Hlc Hlog Hun Hrun] Ht Ho Ho' El En Ec Eg; simpl in *.
  assert (Hr : ∀ c, running (<[t := pc']> S) c ↔ running S c).
  { intros c. apply running_insert_other with pc; [done|by intros tmp ->..]. }
  pose proof (Hos t pc Ht) as Htn. rewrite Ho in Htn.
  split; simpl; rewrite ?El, ?En, ?Ec, ?Eg; try done.
  - intros u pcu Hu. destruct (decide (u = t)) as [->|]; simplify_map_eq; [|by eauto].
    by rewrite Ho'.
  - destruct o; [done| |done]. destruct Hl as (? & pc0 & Hpc0 & ?). split; [done|].
    exists pc0. split; [|done]. rewrite lookup_insert_ne; [done|]. intros ->.
    destruct Htn as [_ Htn]. by discriminate Htn.
  - intros c pcc Hc. eapply cb_ok_ext, Hcb; [..|exact Hc]; by rewrite ?El, ?Ec, ?Eg.
  - intros c. rewrite Hr. apply Hrun.
Qed.

(** A stop call takes the list. *)
Lemma stop_acquire σ S C t head o l :
  ip_inv_at (World σ S C) o l → S !! t = Some (SLoop head) →
  head ≠ PNull → head ≠ PMarker → ip_list σ = head →
  ip_inv_at (World (set_list PMarker σ) (<[t := SVisit head]> S) C) (StopOwner t) l.
Proof.
  intros Hinv Ht Hn Hm <-. destruct (inv_free _ _ _ Hinv Hn Hm) as (-> & Hp & Hc0); simpl in *.
  destruct Hinv as [Hos Hoc Hl Hnd Hal Hcb Hlc Hlog Hun Hrun]; simpl in *.
  assert (Hr : ∀ c, running (<[t := SVisit (ip_list σ)]> S) c ↔ running S c)
    by (intros c; by eapply running_insert_other).
  split; simpl; try done.
  - intros u pcu Hu. destruct (decide (u = t)) as [->|]; simplify_map_eq; [done|].
    rewrite (Hos _ _ Hu). naive_solver.
  - intros c pcc Hc. rewrite (Hoc _ _ Hc). naive_solver.
  - split; [done|]. eexists. rewrite lookup_insert_eq. split; [done|]. by left.
  - intros c pcc Hc. eapply cb_ok_ext, Hcb; [..|exact Hc]; by simpl.
  - intros c. rewrite Hr. apply Hrun.
Qed.

(** Steps of the owning stop call. *)
Lemma stop_owner w o l t pc :
  ip_inv_at w o l → w_stops w !! t = Some pc → stop_owns pc = true →
  o = StopOwner t ∧ ip_list (w_source w) = PMarker ∧ stop_rest (ip_next (w_source w)) pc l.
Proof.
  intros Hinv Ht Ho. apply (inv_owner_stop _ _ _ Hinv _ _ Ht) in Ho as ->.
  destruct (inv_list _ _ _ Hinv) as (? & pc0 & Hpc0 & ?). by simplify_eq.
Qed.

(** The owner moves on without ending or starting a call. *)
Lemma stop_owner_quiet σ S C t pc pc' l :
  ip_inv_at (World σ S C) (StopOwner t) l → S !! t = Some pc →
  stop_owns pc' = true → stop_rest (ip_next σ) pc' l →
  (∀ c tmp, pc ≠ SRun (PCb c) tmp) → (∀ c tmp, pc' ≠ SRun (PCb c) tmp) →
  ip_inv_at (World σ (<[t := pc']> S) C) (StopOwner t) l.
Proof.
  intros [Hos Hoc Hl Hnd Hal Hcb Hlc Hlog Hun Hrun] Ht Ho' Hrest Hpc Hpc'; simpl in *.
  assert (Hr : ∀ c, running (<[t := pc']> S) c ↔ running S c)
    by (intros c; by eapply running_insert_other).
  split; simpl; try done.
  - intros u pcu Hu. destruct (decide (u = t)) as [->|]; simplify_map_eq; [done|by eauto].
  - destruct Hl as [? _]. split; [done|]. eexists. by rewrite lookup_insert_eq.
  - intros c pcc Hc. eapply cb_ok_ext, Hcb; [..|exact Hc]; by simpl.
  - intros c. rewrite Hr. apply Hrun.
Qed.

Lemma running_owner w o l c :
  ip_inv_at w o l → running (w_stops w) c →
  ∃ t tmp, o = StopOwner t ∧ w_stops w !! t = Some (SRun (PCb c) tmp).
Proof.
  intros Hinv (t & tmp & Ht). exists t, tmp. split; [|done].
  by apply (inv_owner_stop _ _ _ Hinv _ _ Ht).
Qed.

(** The callback at the head is marked and taken off the list. *)
Lemma stop_mark σ S C t c tmp l :
  ip_inv_at (World σ S C) (StopOwner t) (c :: l) → S !! t = Some (SMark (PCb c) tmp) →
  path (ip_next σ) tmp l →
  ip_inv_at (World (mark_called (PCb c) σ) (<[t := SRun (PCb c) tmp]> S) C) (StopOwner t) l.
Proof.
  intros Hinv Ht Hp.
  assert (Hnr : ∀ d, ¬ running S d).
  { intros d Hd. destruct (running_owner _ _ _ _ Hinv Hd) as (u & tmp' & [= ->] & Hu).
    simpl in Hu. congruence. }
  destruct Hinv as [Hos Hoc Hl Hnd Hal Hcb Hlc Hlog Hun Hrun]; simpl in *.
  assert (Hr : ∀ d, running (<[t := SRun (PCb c) tmp]> S) d ↔ d = c).
  { intros d. split; [|intros ->; exists t, tmp; by rewrite lookup_insert_eq].
    intros (u & tmp' & Hu). destruct (decide (u = t)) as [->|]; simplify_map_eq; [done|].
    destruct (Hnr d). by exists u, tmp'. }
  apply NoDup_cons in Hnd as [Hcl Hnd].
  assert (Hcc : c ∉ ip_called σ) by (apply Hal; by apply elem_of_cons; left).
  assert (Hcg : c ∉ ip_log σ) by (by intros ?%Hlc).
  split; simpl; try done.
  - intros u pcu Hu. destruct (decide (u = t)) as [->|]; simplify_map_eq; [done|by eauto].
  - destruct Hl as [? _]. split; [done|]. eexists. rewrite lookup_insert_eq. split; [done|].
    right. split; [by eexists|done].
  - intros d Hd. destruct (Hal d) as [? ?]; [by apply elem_of_cons; right|]. split; [done|].
    apply not_elem_of_union. split; [|done]. intros ->%elem_of_singleton. done.
  - intros d pcd Hd. specialize (Hcb d pcd Hd). destruct (decide (d = c)) as [->|Hne].
    + pose proof (Hoc _ _ Hd) as Hown.
      assert (c ∈ c :: l) by (by apply elem_of_cons; left).
      destruct pcd; simpl in *; try tauto; try (right; rewrite Hr; set_solver);
        try (split; [right; rewrite Hr; set_solver|tauto]); try done.
      destruct Hown as [Hown _]. by specialize (Hown eq_refl).
    + eapply cb_ok_ext; [..|exact Hcb]; simpl; [done|..]; [set_solver|set_solver|done|].
      rewrite Hr. specialize (Hnr d). tauto.
  - intros d Hd%Hlc. apply elem_of_union. by right.
  - intros Ho. by destruct (Ho t).
  - intros d ->%Hr. split; [set_solver|done].
Qed.

(** The marked callback was executed. *)
Lemma stop_run σ S C t c tmp l :
  ip_inv_at (World σ S C) (StopOwner t) l → S !! t = Some (SRun (PCb c) tmp) →
  path (ip_next σ) tmp l →
  ip_inv_at (World (run_call (PCb c) σ) (<[t := SVisit tmp]> S) C) (StopOwner t) l.
Proof.
  intros Hinv Ht Hp.
  assert (Hr0 : ∀ d, running S d ↔ d = c).
  { intros d. split; [|intros ->; by exists t, tmp]. intros Hd.
    destruct (running_owner _ _ _ _ Hinv Hd) as (u & tmp' & [= ->] & Hu). simpl in Hu. congruence. }
  destruct Hinv as [Hos Hoc Hl Hnd Hal Hcb Hlc Hlog Hun Hrun]; simpl in *.
  assert (Hr : ∀ d, ¬ running (<[t := SVisit tmp]> S) d).
  { intros d (u & tmp' & Hu). destruct (decide (u = t)) as [->|]; simplify_map_eq.
    assert (d = c) as -> by (apply Hr0; by exists u, tmp').
    apply (Hos u) in Hu as [Hu _]. specialize (Hu eq_refl). congruence. }
  destruct (Hrun c) as [Hcc Hcg]; [by apply Hr0|].
  split; simpl; try done.
  - intros u pcu Hu. destruct (decide (u = t)) as [->|]; simplify_map_eq; [done|by eauto].
  - destruct Hl as [? _]. split; [done|]. eexists. rewrite lookup_insert_eq. split; [done|]. by left.
  - intros d pcd Hd. specialize (Hcb d pcd Hd). destruct (decide (d = c)) as [->|Hne].
    + destruct pcd; simpl in *; try tauto; try (right; set_solver);
        try (split; [right; set_solver|tauto]).
      destruct Hcb as (_ & _ & _ & []). by apply Hr0.
    + eapply cb_ok_ext; [..|exact Hcb]; simpl; [done..| |]; [set_solver|].
      rewrite Hr0. specialize (Hr d). tauto.
  - intros d [Hd| ->%list_elem_of_singleton]%elem_of_app; auto.
  - apply NoDup_app. split_and!; [done| |apply NoDup_singleton].
    intros d Hd ->%list_elem_of_singleton. done.
  - intros d Hd. by destruct (Hr d).
Qed.

Lemma stop_release σ S C t :
  ip_inv_at (World σ S C) (StopOwner t) [] → S !! t = Some SRelease →
  ip_inv_at (World (set_list PNull σ) (<[t := SDone]> S) C) NoOwner [].
Proof.
  intros [Hos Hoc Hl Hnd Hal Hcb Hlc Hlog Hun Hrun] Ht; simpl in *.
  assert (Hr : ∀ c, running (<[t := SDone]> S) c ↔ running S c)
    by (intros c; by eapply running_insert_other).
  split; simpl; try done.
  - intros u pcu Hu. destruct (decide (u = t)) as [->|]; simplify_map_eq; [done|].
    rewrite (Hos _ _ Hu). naive_solver.
  - intros c pcc Hc. rewrite (Hoc _ _ Hc). naive_solver.
  - by left.
  - intros c pcc Hc. eapply cb_ok_ext, Hcb; [..|exact Hc]; by simpl.
  - intros c. rewrite Hr. apply Hrun.
Qed.

Lemma stop_step_inv σ S C t pc σ' pc' o l :
  ip_inv_at (World σ S C) o l → S !! t = Some pc → stop_step σ pc = Some (σ', pc') →
  ip_inv (World σ' (<[t := pc']> S) C).
Proof.
  intros Hinv Ht Hs. destruct pc as [| |head|node|node tmp|node tmp| |]; simpl in Hs.
  - exists o, l. destruct (ip_stop_requested σ); simplify_eq; by eapply stop_quiet.
  - exists o, l. simplify_eq. by eapply stop_quiet.
  - destruct (decide (head = PNull)); [|destruct (decide (head = PMarker));
      [|destruct (decide (ip_list σ = head))]]; simplify_eq;
      try (exists o, l; by eapply stop_quiet).
    exists (StopOwner t), l. by apply stop_acquire with o.
  - destruct (stop_owner _ _ _ _ _ Hinv Ht eq_refl) as (-> & _ & Hrest). simpl in Hrest.
    exists (StopOwner t), l. destruct (decide (node = PNull)); simplify_eq.
    + eapply stop_owner_quiet; try done. simpl.
      destruct Hrest as [?%path_not_null|[_ ?]]; done.
    + eapply stop_owner_quiet; try done. simpl. destruct Hrest as [Hp|[? _]]; [|done].
      destruct l as [|c l]; simpl in Hp; [left; by subst|]. right. destruct Hp as [-> Hp]. eauto.
  - destruct (stop_owner _ _ _ _ _ Hinv Ht eq_refl) as (-> & _ & Hrest). simpl in Hrest.
    simplify_eq. destruct Hrest as [(-> & -> & ->)|(c & l' & -> & -> & Hp)].
    + exists (StopOwner t), []. eapply stop_owner_quiet; try done. by left.
    + exists (StopOwner t), l'. by apply stop_mark.
  - destruct (stop_owner _ _ _ _ _ Hinv Ht eq_refl) as (-> & _ & Hrest). simpl in Hrest.
    simplify_eq. exists (StopOwner t), l. destruct Hrest as [(-> & -> & ->)|([c ->] & Hp)].
    + eapply stop_owner_quiet; try done. by right.
    + by apply stop_run.
  - destruct (stop_owner _ _ _ _ _ Hinv Ht eq_refl) as (-> & _ & ->). simplify_eq.
    exists NoOwner, []. by apply stop_release.
  - done.
Qed.

(** ** Steps of the callbacks *)
Lemma stop_rest_insert nx pc l c q : c ∉ l → stop_rest nx pc l → stop_rest (<[c := q]> nx) pc l.
Proof.
  intros Hc. destruct pc as [| | |node|node tmp|node tmp| |]; simpl; try done.
  - intros [?|?]; [left|by right]. by apply path_insert.
  - intros [?|(d & l' & -> & -> & ?)]; [by left|right]. exists d, l'. split_and!; [done..|].
    apply path_insert; [|done]. intros ?. apply Hc. by apply elem_of_cons; right.
  - intros [?|[? ?]]; [by left|right]. split; [done|]. by apply path_insert.
Qed.

Lemma cb_rest_insert nx d pc l c q : c ∉ l → cb_rest nx d pc l → cb_rest (<[c := q]> nx) d pc l.
Proof.
  intros Hc. destruct pc; simpl; try done; [|by apply path_insert].
  intros (Hp & l1 & l2 & -> & Hp2 & Hd). split; [by apply path_insert|].
  exists l1, l2. split_and!; [done| |done]. apply path_insert; [|done].
  intros ?. apply Hc. apply elem_of_app. by right.
Qed.

(** A callback's own steps: at most its own link, not yet in use, changes. *)
Lemma cb_quiet σ σ' S C c pc pc' o l :
  ip_inv_at (World σ S C) o l → C !! c = Some pc →
  cb_owns pc = false → cb_owns pc' = false →
  ip_list σ' = ip_list σ → ip_called σ' = ip_called σ → ip_log σ' = ip_log σ →
  (ip_next σ' = ip_next σ ∨ c ∉ l ∧ ∃ q, ip_next σ' = <[c := q]> (ip_next σ)) →
  cb_ok σ' S l c pc' →
  ip_inv_at (World σ' S (<[c := pc']> C)) o l.
Proof.
  intros [Hos Hoc Hl Hnd Hal Hcb Hlc Hlog Hun Hrun] Hc Ho Ho' El Ec Eg En Hok; simpl in *.
  pose proof (Hoc c pc Hc) as Hcn. rewrite Ho in Hcn.
  split; simpl; rewrite ?El, ?Ec, ?Eg; try done.
  - intros d pcd Hd. destruct (decide (d = c)) as [->|]; simplify_map_eq; [|by eauto].
    by rewrite Ho'.
  - destruct o as [|t|d].
    + destruct Hl as [?|Hp]; [by left|right].
      destruct En as [->|(? & q & ->)]; [done|by apply path_insert].
    + destruct Hl as (? & pc0 & ? & ?). split; [done|]. exists pc0. split; [done|].
      destruct En as [->|(? & q & ->)]; [done|by apply stop_rest_insert].
    + destruct Hl as (? & pc0 & ? & ?). split; [done|]. exists pc0. split.
      * rewrite lookup_insert_ne; [done|]. intros ->. destruct Hcn as [_ Hcn]. by discriminate Hcn.
      * destruct En as [->|(? & q & ->)]; [done|by apply cb_rest_insert].
  - intros d Hd. destruct (Hal d Hd) as [? ?]. split; [|done].
    destruct (decide (d = c)) as [->|]; [by rewrite lookup_insert_eq|by rewrite lookup_insert_ne].
  - intros d pcd Hd. destruct (decide (d = c)) as [->|]; simplify_map_eq; [done|].
    eapply cb_ok_ext, Hcb; [..|exact Hd]; by rewrite ?El, ?Ec, ?Eg.
Qed.

(** The callback becomes the head of the list. *)
Lemma cb_publish σ S C c head o l :
  ip_inv_at (World σ S C) o l → C !! c = Some (CInsert head) →
  head ≠ PNull → head ≠ PMarker → ip_list σ = head →
  ip_inv_at (World (set_list (PCb c) (ip_set_next c head σ)) S (<[c := CLive]> C)) NoOwner (c :: l).
Proof.
  intros Hinv Hc Hn Hm <-. destruct (inv_free _ _ _ Hinv Hn Hm) as (-> & Hp & Hc0); simpl in *.
  destruct Hinv as [Hos Hoc Hl Hnd Hal Hcb Hlc Hlog Hun Hrun]; simpl in *.
  destruct (Hcb _ _ Hc) as (Hcl & Hcc & _).
  split; simpl; try done.
  - intros d pcd Hd. destruct (decide (d = c)) as [->|]; simplify_map_eq; [done|by eauto].
  - right. split; [done|]. rewrite lookup_insert_eq. simpl. by apply path_insert.
  - by apply NoDup_cons.
  - intros d [->|Hd]%elem_of_cons; [by rewrite lookup_insert_eq|].
    destruct (Hal d Hd) as [? ?]. split; [|done].
    destruct (decide (d = c)) as [->|]; [by rewrite lookup_insert_eq|by rewrite lookup_insert_ne].
  - intros d pcd Hd. destruct (decide (d = c)) as [->|]; simplify_map_eq.
    + left. by apply elem_of_cons; left.
    + eapply cb_ok_ext, Hcb; [..|exact Hd]; simpl; [done| |done..].
      rewrite elem_of_cons. tauto.
Qed.

(** Registering after the stop: the callback is executed at once. *)
Lemma cb_mark σ S C c o l :
  ip_inv_at (World σ S C) o l → C !! c = Some CMark →
  ip_inv_at (World (mark_called (PCb c) σ) S (<[c := CRun]> C)) o l.
Proof.
  intros Hinv Hc. pose proof (inv_cb _ _ _ Hinv _ _ Hc) as (_ & Hcc & Hnull).
  destruct (inv_null _ _ _ Hinv Hnull) as [-> ->].
  assert (Hnr : ∀ d, ¬ running S d).
  { intros d Hd. by destruct (running_owner _ _ _ _ Hinv Hd) as (u & tmp' & ? & _). }
  destruct Hinv as [Hos Hoc Hl Hnd Hal Hcb Hlc Hlog Hun Hrun]; simpl in *.
  split; simpl; try done.
  - intros d pcd Hd. destruct (decide (d = c)) as [->|]; simplify_map_eq; [done|by eauto].
  - by intros d ?%elem_of_nil.
  - intros d pcd Hd. destruct (decide (d = c)) as [->|]; simplify_map_eq.
    + simpl. split_and!; [by apply not_elem_of_nil|set_solver|by intros ?%Hlc|apply Hnr].
    + eapply cb_ok_ext, Hcb; [..|exact Hd]; simpl; [done..| | |done]; [set_solver|done].
  - intros d ?%Hlc. apply elem_of_union. by right.
  - intros d Hd. by destruct (Hnr d).
Qed.

Lemma cb_run σ S C c o l :
  ip_inv_at (World σ S C) o l → C !! c = Some CRun →
  ip_inv_at (World (run_call (PCb c) σ) S (<[c := CLive]> C)) o l.
Proof.
  intros [Hos Hoc Hl Hnd Hal Hcb Hlc Hlog Hun Hrun] Hc; simpl in *.
  destruct (Hcb _ _ Hc) as (Hcl & Hcc & Hcg & Hcr).
  pose proof (Hoc c _ Hc) as Hcn.
  split; simpl; try done.
  - intros d pcd Hd. destruct (decide (d = c)) as [->|]; simplify_map_eq; [done|by eauto].
  - destruct o as [|t|d]; [done..|]. destruct Hl as (? & pc0 & ? & ?). split; [done|].
    exists pc0. split; [|done]. rewrite lookup_insert_ne; [done|]. intros ->.
    destruct Hcn as [_ Hcn]. by discriminate Hcn.
  - intros d Hd. destruct (Hal d Hd) as [? ?]. split; [|done].
    destruct (decide (d = c)) as [->|]; [by rewrite lookup_insert_eq|by rewrite lookup_insert_ne].
  - intros d pcd Hd. destruct (decide (d = c)) as [->|]; simplify_map_eq.
    + right. split_and!; [done..|]. left. set_solver.
    + eapply cb_ok_ext, Hcb; [..|exact Hd]; simpl; [done..| |done]. set_solver.
  - intros d [Hd| ->%list_elem_of_singleton]%elem_of_app; auto.
  - apply NoDup_app. split_and!; [done| |apply NoDup_singleton].
    intros d Hd ->%list_elem_of_singleton. done.
  - intros d Hd. destruct (Hrun d Hd) as [? ?]. split; [done|].
    intros [?| ->%list_elem_of_singleton]%elem_of_app; done.
Qed.

(** remove takes the list: the callback is still registered. *)
Lemma cb_acquire σ S C c head pc' l' o l :
  ip_inv_at (World σ S C) o l → C !! c = Some (CRemove head) →
  head ≠ PNull → head ≠ PMarker → ip_list σ = head →
  (c ∈ l → path (ip_next σ) head l →
   cb_owns pc' = true ∧ cb_rest (ip_next σ) c pc' l' ∧ NoDup l' ∧
   (∀ d, d ≠ c → d ∈ l ↔ d ∈ l') ∧ (c ∈ l' → c ∈ l) ∧ cb_ok σ S l' c pc') →
  ip_inv_at (World (set_list PMarker σ) S (<[c := pc']> C)) (CbOwner c) l'.
Proof.
  intros Hinv Hc Hn Hm <- Hnew. destruct (inv_free _ _ _ Hinv Hn Hm) as (-> & Hp & Hc0); simpl in *.
  destruct Hinv as [Hos Hoc Hl Hnd Hal Hcb Hlc Hlog Hun Hrun]; simpl in *.
  assert (Hcl : c ∈ l).
  { destruct (Hcb _ _ Hc) as [[?|(_ & Hcc & _)] _]; [done|]. rewrite Hc0 in Hcc. set_solver. }
  destruct (Hnew Hcl Hp) as (Ho' & Hrest & Hnd' & Hiff & Hsub & Hok).
  split; simpl; try done.
  - intros u pcu Hu. rewrite (Hos _ _ Hu). done.
  - intros d pcd Hd. destruct (decide (d = c)) as [->|]; simplify_map_eq; [by rewrite Ho'|].
    rewrite (Hoc _ _ Hd). naive_solver.
  - split; [done|]. eexists. by rewrite lookup_insert_eq.
  - intros d Hd. destruct (decide (d = c)) as [->|]; [rewrite lookup_insert_eq|rewrite lookup_insert_ne by done].
    + split; [done|]. by apply Hal.
    + by apply Hal, Hiff.
  - intros d pcd Hd. destruct (decide (d = c)) as [->|]; simplify_map_eq.
    + eapply cb_ok_ext, Hok; done.
    + eapply cb_ok_ext, Hcb; [..|exact Hd]; simpl; [done|by apply Hiff|done..].
Qed.

Lemma cb_owner w o l c pc :
  ip_inv_at w o l → w_cbs w !! c = Some pc → cb_owns pc = true →
  o = CbOwner c ∧ ip_list (w_source w) = PMarker ∧ cb_rest (ip_next (w_source w)) c pc l.
Proof.
  intros Hinv Hc Ho. apply (inv_owner_cb _ _ _ Hinv _ _ Hc) in Ho as ->.
  destruct (inv_list _ _ _ Hinv) as (? & pc0 & Hpc0 & ?). by simplify_eq.
Qed.

(** Steps of the owning remove: it stays the owner, or gives the list back. *)
Lemma cb_owner_step σ σ' S C c pc pc' o l l' :
  ip_inv_at (World σ S C) (CbOwner c) l → C !! c = Some pc →
  ip_called σ' = ip_called σ → ip_log σ' = ip_log σ → NoDup l' →
  (∀ d, d ≠ c → d ∈ l ↔ d ∈ l') → (c ∈ l' → c ∈ l) →
  (ip_list σ' = PNull → False) →
  (if cb_owns pc' then o = CbOwner c ∧ ip_list σ' = PMarker ∧ cb_rest (ip_next σ') c pc' l'
   else o = NoOwner ∧ path (ip_next σ') (ip_list σ') l') →
  cb_ok σ' S l' c pc' →
  ip_inv_at (World σ' S (<[c := pc']> C)) o l'.
Proof.
  intros [Hos Hoc Hl Hnd Hal Hcb Hlc Hlog Hun Hrun] Hc Ec Eg Hnd' Hiff Hsub Hnn Ho Hok; simpl in *.
  assert (Hos' : ∀ t, o ≠ StopOwner t).
  { intros t ->. by destruct (cb_owns pc'), Ho. }
  assert (Hnull : ip_list σ = PNull → ip_list σ' = PNull).
  { intros Hn. destruct Hl as [Hl _]. congruence. }
  split; simpl; rewrite ?Ec, ?Eg; try done.
  - intros u pcu Hu. rewrite (Hos _ _ Hu). split; intros Heq; [done|]. by destruct (Hos' u).
  - intros d pcd Hd. destruct (decide (d = c)) as [->|]; simplify_map_eq.
    + destruct (cb_owns pcd); destruct Ho as [-> _]; done.
    + rewrite (Hoc _ _ Hd). destruct (cb_owns pc'); destruct Ho as [-> _]; naive_solver.
  - destruct (cb_owns pc'); destruct Ho as [-> Ho]; [|by right]. destruct Ho as [? ?].
    split; [done|]. eexists. by rewrite lookup_insert_eq.
  - intros d Hd. destruct (decide (d = c)) as [->|]; [rewrite lookup_insert_eq|rewrite lookup_insert_ne by done].
    + split; [done|]. by apply Hal, Hsub.
    + by apply Hal, Hiff.
  - intros d pcd Hd. destruct (decide (d = c)) as [->|]; simplify_map_eq; [done|].
    eapply cb_ok_ext, Hcb; [..|exact Hd]; rewrite ?Ec, ?Eg; [done|by apply Hiff|done..].
  - intros _ _. apply Hun; [done|]. destruct Hl as [-> _]. done.
Qed.

(** Redirecting the link of the predecessor takes [c] out. *)
Lemma path_unlink nx p l1 n c l2 :
  NoDup (l1 ++ n :: c :: l2) → path nx p (l1 ++ n :: c :: l2) →
  path (<[n := default PNull (nx !! c)]> nx) p (l1 ++ n :: l2).
Proof.
  revert p. induction l1 as [|x l1 IH]; intros p Hnd; simpl in *.
  - apply NoDup_cons in Hnd as [Hn Hnd]. apply not_elem_of_cons in Hn as [Hnc Hn2].
    intros (-> & _ & Hp). split; [done|]. rewrite lookup_insert_eq. simpl. by apply path_insert.
  - apply NoDup_cons in Hnd as [Hx Hnd]. intros [-> Hp]. split; [done|].
    rewrite lookup_insert_ne; [by apply IH|]. intros <-. apply Hx, elem_of_app. right.
    by apply elem_of_cons; left.
Qed.

Lemma cb_walk_inv σ S C c head node σ' pc' o l :
  ip_inv_at (World σ S C) o l → C !! c = Some (CWalk head node) →
  cb_step c σ (CWalk head node) = Some (σ', pc') →
  ip_inv (World σ' S (<[c := pc']> C)).
Proof.
  intros Hinv Hc Hs.
  destruct (cb_owner _ _ _ _ _ Hinv Hc eq_refl) as (-> & Hm & Hp & l1 & l2 & -> & Hp2 & Hin).
  simpl in Hm, Hp, Hp2. pose proof (inv_nodup _ _ _ Hinv) as Hnd.
  destruct l2 as [|n l3]; [by apply elem_of_nil in Hin|]. destruct Hp2 as [-> Hp2].
  simpl in Hin, Hs. destruct (decide (PCb n = PNull)); [done|].
  destruct (inv_alive _ _ _ Hinv c) as [_ Hcc].
  { apply elem_of_app. right. by apply elem_of_cons; right. }
  destruct l3 as [|m l3]; [by apply elem_of_nil in Hin|]. destruct Hp2 as [Hm2 Hp3].
  rewrite Hm2 in Hs. destruct (decide (PCb m = PCb c)) as [[= ->]|Hne]; simplify_eq.
  - exists (CbOwner c), (l1 ++ n :: l3).
    assert (NoDup (l1 ++ n :: l3) ∧ c ∉ l1 ++ n :: l3) as [Hnd2 Hcn].
    { assert (l1 ++ n :: c :: l3 ≡ₚ c :: l1 ++ n :: l3) as Hperm.
      { rewrite (Permutation_middle l1 (n :: l3) c). by rewrite (Permutation_swap n c l3). }
      rewrite Hperm in Hnd. by apply NoDup_cons in Hnd as [? ?]. }
    eapply cb_owner_step with (l := l1 ++ n :: c :: l3); try done; simpl.
    + intros d Hd. rewrite !elem_of_app, !elem_of_cons. tauto.
    + by rewrite Hm.
    + split_and!; [done|done|]. by apply path_unlink.
  - exists (CbOwner c), (l1 ++ n :: m :: l3).
    eapply cb_owner_step with (l := l1 ++ n :: m :: l3); try done; simpl.
    + by rewrite Hm.
    + split_and!; [done|done|done|]. exists (l1 ++ [n]), (m :: l3).
      split_and!; [by rewrite <-(assoc_L (++))|done|]. simpl.
      apply elem_of_cons in Hin as [->|?]; [|done]. by destruct Hne.
    + apply elem_of_app. right. by apply elem_of_cons; right.
Qed.

(** Taking the list out of the source: the callback is its head, or is behind it. *)
Lemma cb_exchange_inv σ S C c head σ' pc' o l :
  ip_inv_at (World σ S C) o l → C !! c = Some (CRemove head) →
  cb_step c σ (CRemove head) = Some (σ', pc') →
  ip_inv (World σ' S (<[c := pc']> C)).
Proof.
  intros Hinv Hc Hs. pose proof (inv_cb _ _ _ Hinv _ _ Hc) as Hok. simpl in Hs, Hok.
  destruct Hok as [Hok Hnull]. destruct (decide (head = PNull)) as [->|Hn].
  { simplify_eq. exists o, l. eapply cb_quiet; try done; [by left|]. simpl.
    destruct (inv_null _ _ _ Hinv (Hnull eq_refl)) as [_ ->]. apply not_elem_of_nil. }
  destruct (decide (head = PMarker)) as [->|Hm]; simplify_eq.
  { exists o, l. eapply cb_quiet; try done. by left. }
  destruct (decide (ip_list σ = head)) as [Heq|]; simplify_eq.
  2: { exists o, l. eapply cb_quiet; try done. by left. }
  destruct (inv_free _ _ _ Hinv Hn Hm) as (_ & Hp & _). simpl in Hp.
  pose proof (inv_nodup _ _ _ Hinv) as Hnd.
  destruct (decide (ip_list σ = PCb c)) as [Heq|Hne].
  + destruct l as [|x l]; simpl in Hp; [congruence|]. destruct Hp as [Hx Hp].
    assert (x = c) as -> by congruence. apply NoDup_cons in Hnd as [Hcl Hnd].
    destruct (inv_alive _ _ _ Hinv c) as [_ Hcc]; [by apply elem_of_cons; left|].
    exists (CbOwner c), l. eapply cb_acquire; try done.
    intros _ _. split_and!; try done.
    * simpl. by rewrite Heq.
    * intros d Hd. rewrite elem_of_cons. tauto.
  + exists (CbOwner c), l. eapply cb_acquire; try done.
    intros Hcl _. split_and!; try done. split; [done|]. exists [], l. split_and!; [done..|].
    destruct l as [|x l]; simpl in Hp; [by apply elem_of_nil in Hcl|]. simpl.
    apply elem_of_cons in Hcl as [->|?]; [|done]. by destruct Hp as [? _].
Qed.

Lemma cb_step_inv σ S C c pc σ' pc' o l :
  ip_inv_at (World σ S C) o l → C !! c = Some pc → cb_step c σ pc = Some (σ', pc') →
  ip_inv (World σ' S (<[c := pc']> C)).
Proof.
  intros Hinv Hc Hs. pose proof (inv_cb _ _ _ Hinv _ _ Hc) as Hok. simpl in Hok.
  destruct pc as [|head| | | | | |head|head node|head|]; simpl in Hs, Hok.
  - exists o, l. simplify_eq. eapply cb_quiet; try done; [by left|]. simpl. tauto.
  - destruct (decide (head = PNull)); [|destruct (decide (head = PMarker));
      [|destruct (decide (ip_list σ = head))]]; simplify_eq.
    + exists o, l. eapply cb_quiet; try done; [by left|]. simpl. tauto.
    + exists o, l. destruct Hok as (? & ? & ?). eapply cb_quiet; try done; simpl; eauto.
    + exists NoOwner, (c :: l). by apply cb_publish with o.
    + exists o, l. destruct Hok as (? & ? & ?). eapply cb_quiet; try done; simpl; eauto.
  - exists o, l. simplify_eq. by apply cb_mark.
  - exists o, l. simplify_eq. by apply cb_run.
  - exists o, l. simplify_eq. eapply cb_quiet; try done. by left.
  - exists o, l. destruct (decide (c ∈ ip_called σ)) as [Hcc|Hcc]; simplify_eq.
    + eapply cb_quiet; try done; [by left|]. simpl. intros Hcl.
      by destruct (inv_alive _ _ _ Hinv c Hcl).
    + eapply cb_quiet; try done. by left.
  - exists o, l. simplify_eq. eapply cb_quiet; try done. by left.
  - by eapply cb_exchange_inv.
  - by eapply cb_walk_inv.
  - destruct (cb_owner _ _ _ _ _ Hinv Hc eq_refl) as (-> & Hm & Hp). simpl in Hm, Hp.
    simplify_eq. exists NoOwner, l. eapply cb_owner_step with (l := l); try done; simpl.
    + apply Hinv.
    + intros ->. by apply path_not_null in Hp.
    + by destruct Hok.
  - done.
Qed.

Lemma ip_step_inv w w' : ip_inv w → ip_step w w' → ip_inv w'.
Proof.
  intros (o & l & Hinv) Hs. destruct Hs; [by eapply stop_step_inv|by eapply cb_step_inv].
Qed.

Lemma ip_init_inv ts cs : ip_inv (ip_init ts cs).
Proof.
  exists NoOwner, []. split; simpl.
  - intros t pc [_ <-]%lookup_gset_to_gmap_Some. done.
  - intros c pc [_ <-]%lookup_gset_to_gmap_Some. done.
  - by right.
  - apply NoDup_nil_2.
  - by intros c ?%elem_of_nil.
  - intros c pc [_ <-]%lookup_gset_to_gmap_Some. simpl. split; [apply not_elem_of_nil|set_solver].
  - by intros c ?%elem_of_nil.
  - apply NoDup_nil_2.
  - done.
  - intros c (t & tmp & [_ Ht]%lookup_gset_to_gmap_Some). done.
Qed.

Lemma ip_reachable_inv ts cs w : ip_reachable ts cs w → ip_inv w.
Proof. intros Hr. eapply (rtc_invariant ip_step); [exact ip_step_inv|apply ip_init_inv|exact Hr]. Qed.

(** ** Theorems *)

(** C3: the marker is a lock and no callback runs twice: in every reachable
    state at most one thread - calling stop or remove - works on the list,
    and while one does the head is the marker; each callback was executed at
    most once, and never before [d_called] was set. *)
Theorem in_place_stop_safety ts cs w :
  ip_reachable ts cs w →
  (∀ t pc, w_stops w !! t = Some pc → stop_owns pc = true →
     ip_list (w_source w) = PMarker ∧
     (∀ t' pc', w_stops w !! t' = Some pc' → stop_owns pc' = true → t' = t) ∧
     (∀ c pc', w_cbs w !! c = Some pc' → cb_owns pc' = false)) ∧
  (∀ c pc, w_cbs w !! c = Some pc → cb_owns pc = true →
     ip_list (w_source w) = PMarker ∧
     (∀ c' pc', w_cbs w !! c' = Some pc' → cb_owns pc' = true → c' = c)) ∧
  NoDup (ip_log (w_source w)) ∧
  (∀ c, c ∈ ip_log (w_source w) → c ∈ ip_called (w_source w)).
Proof.
  intros (o & l & Hinv)%ip_reachable_inv. split_and!.
  - intros t pc Ht Ho. destruct (stop_owner _ _ _ _ _ Hinv Ht Ho) as (-> & Hm & _). split_and!.
    + done.
    + intros t' pc' Ht' Ho'. apply (inv_owner_stop _ _ _ Hinv _ _ Ht') in Ho'. congruence.
    + intros c pc' Hc. destruct (cb_owns pc') eqn:Ho'; [|done].
      by apply (inv_owner_cb _ _ _ Hinv _ _ Hc) in Ho'.
  - intros c pc Hc Ho. destruct (cb_owner _ _ _ _ _ Hinv Hc Ho) as (-> & Hm & _). split; [done|].
    intros c' pc' Hc' Ho'. apply (inv_owner_cb _ _ _ Hinv _ _ Hc') in Ho'. congruence.
  - apply Hinv.
  - apply Hinv.
Qed.

(** The constructor has returned and the destructor has not yet unlinked the
    callback. *)
Definition constructed (pc : cb_pc) : bool :=
  match pc with CLive | CCheck | CRemLoad | CRemove _ | CWalk _ _ => true | _ => false end.

(** C4: while the list is free (neither locked nor null) it links,
    duplicate-free and up to [d_end], exactly the constructed callbacks: those
    whose insert has returned and which remove has not unlinked, hence none
    that is still being inserted and none that was destroyed; and none of them
    was called. Once the list is null, the stop has executed every constructed
    callback. *)
Theorem in_place_stop_registered ts cs w :
  ip_reachable ts cs w →
  (ip_list (w_source w) ≠ PNull → ip_list (w_source w) ≠ PMarker →
   ∃ l, path (ip_next (w_source w)) (ip_list (w_source w)) l ∧ NoDup l ∧
     ip_called (w_source w) = ∅ ∧
     (∀ c, c ∈ l ↔ ∃ pc, w_cbs w !! c = Some pc ∧ constructed pc = true)) ∧
  (ip_list (w_source w) = PNull →
   ∀ c pc, w_cbs w !! c = Some pc → constructed pc = true → c ∈ ip_log (w_source w)).
Proof.
  intros (o & l & Hinv)%ip_reachable_inv. split.
  - intros Hn Hm. destruct (inv_free _ _ _ Hinv Hn Hm) as (-> & Hp & Hc0). exists l. split_and!.
    + done.
    + apply Hinv.
    + done.
    + intros c. split.
      * intros Hc. destruct (inv_alive _ _ _ Hinv _ Hc) as [[pc Hpc] _]. exists pc. split; [done|].
        pose proof (inv_cb _ _ _ Hinv _ _ Hpc) as Hok. pose proof (inv_owner_cb _ _ _ Hinv _ _ Hpc) as Ho.
        destruct pc; simpl in *; try done; try tauto.
      * intros (pc & Hpc & Hk). pose proof (inv_cb _ _ _ Hinv _ _ Hpc) as Hok.
        destruct pc; simpl in *; try done; set_solver.
  - intros Hn c pc Hpc Hk. destruct (inv_null _ _ _ Hinv Hn) as [-> ->].
    pose proof (inv_cb _ _ _ Hinv _ _ Hpc) as Hok.
    assert (∀ c, running (w_stops w) c → False) as Hnr.
    { intros d Hr. by destruct (running_owner _ _ _ _ Hinv Hr) as (? & ? & ? & _). }
    destruct pc; simpl in *; try done; set_solver.
Qed.

(** A destroyed callback that was not called stays so. *)
Definition dead_uncalled (c : nat) (w : world) : Prop :=
  w_cbs w !! c = Some CDead ∧ c ∉ ip_called (w_source w).

Lemma ip_step_dead c w w' : ip_inv w → ip_step w w' → dead_uncalled c w → dead_uncalled c w'.
Proof.
  intros (o & l & Hinv) Hs [Hd Hc]. pose proof (inv_cb _ _ _ Hinv _ _ Hd) as Hcl. simpl in Hcl.
  destruct Hs as [σ S C t pc σ' pc' Ht Hs|σ S C e pc σ' pc' He Hs]; unfold dead_uncalled; simpl in *.
  - split; [done|]. destruct pc as [| | | |node tmp|node tmp| |]; simpl in Hs; split_ifs;
      simplify_eq; try done; try (by destruct (ip_stop_requested σ); simplify_eq).
    + destruct (stop_owner _ _ _ _ _ Hinv Ht eq_refl) as (_ & _ & Hrest). simpl in Hrest.
      destruct Hrest as [(-> & _ & _)|(d & l' & -> & -> & _)]; [done|]. simpl.
      apply not_elem_of_union. split; [|done]. intros ->%elem_of_singleton. apply Hcl.
      by apply elem_of_cons; left.
    + by destruct node.
  - destruct (decide (e = c)) as [->|Hne]; [by simplify_eq|].
    rewrite lookup_insert_ne by done. split; [done|].
    destruct pc; simpl in Hs; split_ifs; simplify_eq; try done; simpl; [set_solver|by destruct node].
Qed.

(** C5: destroying a callback in time prevents its execution: once remove has
    returned for a callback that was not called, it is never executed, whatever
    stop does afterwards. *)
Theorem in_place_stop_removed ts cs w w' c :
  ip_reachable ts cs w → w_cbs w !! c = Some CDead → c ∉ ip_called (w_source w) →
  rtc ip_step w w' → c ∉ ip_log (w_source w').
Proof.
  intros Hr Hd Hc Hsteps.
  assert (ip_inv w' ∧ dead_uncalled c w') as [(o & l & Hinv) [_ Hc']].
  { eapply (rtc_invariant ip_step (λ w, ip_inv w ∧ dead_uncalled c w)); [| |exact Hsteps].
    - intros a b [Hi Hd'] Hs. split; [by eapply ip_step_inv|by eapply ip_step_dead].
    - split; [by eapply ip_reachable_inv|done]. }
  intros Hin. by apply Hc', Hinv.
Qed.

(** ** Running a schedule *)
Definition sched_step (w : world) (who : nat + nat) : option world :=
  match who with
  | inl t =>
      pc ← w_stops w !! t; '(σ, pc) ← stop_step (w_source w) pc;
      Some (World σ (<[t := pc]> (w_stops w)) (w_cbs w))
  | inr c =>
      pc ← w_cbs w !! c; '(σ, pc) ← cb_step c (w_source w) pc;
      Some (World σ (w_stops w) (<[c := pc]> (w_cbs w)))
  end.

Fixpoint sched_run (w : world) (sch : list (nat + nat)) : option world :=
  match sch with [] => Some w | who :: sch => w ← sched_step w who; sched_run w sch end.

Lemma sched_step_sound w who w' : sched_step w who = Some w' → ip_step w w'.
Proof.
  destruct w as [σ S C], who as [t|c]; simpl; intros H; bind_inv H;
    destruct a0 as [σ' pc']; simplify_eq; by econstructor.
Qed.

Lemma sched_run_sound sch w w' : sched_run w sch = Some w' → rtc ip_step w w'.
Proof.
  revert w. induction sch as [|who sch IH]; intros w H; simpl in H; [by simplify_eq|].
  bind_inv H. eapply rtc_l; [by eapply sched_step_sound|by apply IH].
Qed.

(** The loops of stop and insert never reload a head that was the marker. *)
Lemma stop_spins w w' t :
  w_stops w !! t = Some (SLoop PMarker) → rtc ip_step w w' →
  w_stops w' !! t = Some (SLoop PMarker).
Proof.
  intros Ht Hr. eapply (rtc_invariant ip_step (λ w, w_stops w !! t = Some (SLoop PMarker)));
    [|exact Ht|exact Hr].
  clear. intros a b Ha Hs. destruct Hs as [σ S C u pc σ' pc' Hu Hs|]; simpl in *; [|done].
  destruct (decide (u = t)) as [->|]; [|by rewrite lookup_insert_ne].
  simplify_eq. simpl in Hs. simplify_eq. by rewrite lookup_insert_eq.
Qed.

Lemma insert_spins w w' c :
  w_cbs w !! c = Some (CInsert PMarker) → rtc ip_step w w' →
  w_cbs w' !! c = Some (CInsert PMarker).
Proof.
  intros Hc Hr. eapply (rtc_invariant ip_step (λ w, w_cbs w !! c = Some (CInsert PMarker)));
    [|exact Hc|exact Hr].
  clear. intros a b Ha Hs. destruct Hs as [|σ S C u pc σ' pc' Hu Hs]; simpl in *; [done|].
  destruct (decide (u = c)) as [->|]; [|by rewrite lookup_insert_ne].
  simplify_eq. simpl in Hs. simplify_eq. by rewrite lookup_insert_eq.
Qed.

Lemma sched_reachable ts cs sch w :
  sched_run (ip_init ts cs) sch = Some w → ip_reachable ts cs w.
Proof. apply sched_run_sound. Qed.

(** Callback 1 registers; while its destructor works on the list, stop and the
    registration of 2 load the marker. *)
Definition spin_schedule : list (nat + nat) :=
  [inr 1; inr 1; inr 1; inr 1; inr 1; inr 1; inl 0; inl 0; inr 2; inr 1].

(** Callback 1 is destroyed between the two steps of its call. *)
Definition race_schedule : list (nat + nat) :=
  [inr 1; inr 1; inl 0; inl 0; inl 0; inl 0; inl 0; inr 1; inr 1].

(** The state after a schedule that can be run. *)
Definition after (ts cs : gset nat) (sch : list (nat + nat)) : world :=
  default (ip_init ∅ ∅) (sched_run (ip_init ts cs) sch).

Lemma after_reachable ts cs sch :
  is_Some (sched_run (ip_init ts cs) sch) → ip_reachable ts cs (after ts cs sch).
Proof. intros [w Hw]. unfold after. rewrite Hw. by eapply sched_reachable. Qed.

(** C8: two hazards of the implementation, as reachable states. Stop or insert
    can load the marker while a remove holds the list; as neither reloads the
    head then, it spins for ever although the list was given back. And remove
    can return - the callback object is gone - when [d_called] is set but the
    callback has yet to run. *)
Theorem in_place_stop_hazards :
  (∃ w, ip_reachable {[0]} {[1; 2]} w ∧ ip_list (w_source w) = PEnd ∧
     ∀ w', rtc ip_step w w' →
       w_stops w' !! 0 = Some (SLoop PMarker) ∧ w_cbs w' !! 2 = Some (CInsert PMarker)) ∧
  (∃ w w', ip_reachable {[0]} {[1]} w ∧ w_cbs w !! 1 = Some CDead ∧
     ip_step w w' ∧ ip_log (w_source w) = [] ∧ ip_log (w_source w') = [1]).
Proof.
  split.
  - exists (after {[0]} {[1; 2]} spin_schedule). split_and!.
    + apply after_reachable. vm_compute. eauto.
    + by vm_compute.
    + intros w' Hr. split; [eapply stop_spins|eapply insert_spins]; try exact Hr; by vm_compute.
  - exists (after {[0]} {[1]} race_schedule), (after {[0]} {[1]} (race_schedule ++ [inl 0])).
    split_and!; [| | | |by vm_compute].
    + apply after_reachable. vm_compute. eauto.
    + by vm_compute.
    + apply (sched_step_sound _ (inl 0)). by vm_compute.
    + by vm_compute.
Qed.

(** ** Instances: a complete run with two callbacks, the first destroyed
    before the stop. *)
Definition demo_schedule : list (nat + nat) :=
  [inr 1; inr 1; inr 2; inr 2; inr 1; inr 1; inr 1; inr 1; inr 1; inr 1;
   inl 0; inl 0; inl 0; inl 0; inl 0; inl 0; inl 0; inl 0; inl 0; inl 0; inl 0].

Definition demo_world : world := after {[0]} {[1; 2]} demo_schedule.

Lemma demo_reachable : ip_reachable {[0]} {[1; 2]} demo_world.
Proof. apply after_reachable. vm_compute. eauto. Qed.

Lemma in_place_stop_safety_witness :
  ip_log (w_source demo_world) = [2] ∧ NoDup (ip_log (w_source demo_world)).
Proof.
  split; [by vm_compute|]. apply (in_place_stop_safety {[0]} {[1; 2]}). exact demo_reachable.
Defined.

(** Two callbacks registered and a third one on its way; then all stopped. *)
Definition linked_world : world :=
  after {[0]} {[1; 2; 3]} [inr 1; inr 1; inr 2; inr 2; inr 3].

Lemma linked_reachable : ip_reachable {[0]} {[1; 2; 3]} linked_world.
Proof. apply after_reachable. vm_compute. eauto. Qed.

Lemma in_place_stop_registered_witness :
  (∃ l, path (ip_next (w_source linked_world)) (ip_list (w_source linked_world)) l ∧ NoDup l ∧
     ip_called (w_source linked_world) = ∅ ∧
     (∀ c, c ∈ l ↔ ∃ pc, w_cbs linked_world !! c = Some pc ∧ constructed pc = true)) ∧
  2 ∈ ip_log (w_source demo_world).
Proof.
  split.
  - apply (in_place_stop_registered {[0]} {[1; 2; 3]} linked_world linked_reachable); by vm_compute.
  - by apply (in_place_stop_registered {[0]} {[1; 2]} demo_world demo_reachable) with CLive; vm_compute.
Defined.

Lemma in_place_stop_removed_witness : 1 ∉ ip_log (w_source demo_world).
Proof.
  apply (in_place_stop_removed {[0]} {[1; 2]} demo_world demo_world 1 demo_reachable);
    [by vm_compute|by apply (bool_decide_unpack _)|done].
Defined.
