(* ===== verification/StopToken.v ===== *)
(** * nstd::stop_token_ns: stop_state, stop_source, stop_token, stop_callback

    The shared stop state of src/src/nstd/stop_token/stop_state.hpp with its
    spin lock [d_busy], and its handles in stop_source.{hpp,cpp},
    stop_token.hpp and stop_callback.hpp. A handle is the identity of the state
    it shares, or none. The callbacks are kept in a queue given by the
    interface [QueueOps]; the theorems use its laws [QueueSpec]. Executing a
    callback is client code acting on the whole program state. A spin loop on
    a lock that only the spinning code itself could release never ends; it is
    reported as [NoFuel]. *)
From S2P Require Import Prelude IntrusiveList.

(** ** Data *)
Record stop_state := StopState {
  st_list : loc;
  st_stop_requested : bool;
  st_busy : bool;
}.

(** The shared states, the store of the objects and the client's data. *)
Record stop_program {Env : Type} := StopProgram {
  sp_states : gmap nat stop_state;
  sp_store : store;
  sp_env : Env;
}.
Arguments stop_program : clear implicits.

Definition stop_source : Type := option nat.
Definition stop_token : Type := option nat.

(** A constructed callback: the state it shares and its iterator, which is
    default constructed when there was no state to register with. *)
Record stop_callback := StopCallback { scb_state : option nat; scb_iterator : option loc }.

Section stop_token.
Context {Env : Type} (Q : QueueOps).
Context (do_call : loc → stop_program Env → outcome (stop_program Env)).
Implicit Types p : stop_program Env.

Definition get_state (k : nat) p : outcome stop_state := or_ub (sp_states p !! k).
Definition put_state (k : nat) (st : stop_state) p : stop_program Env :=
  StopProgram Env (<[k := st]> (sp_states p)) (sp_store p) (sp_env p).
Definition put_store (σ : store) p : stop_program Env :=
  StopProgram Env (sp_states p) σ (sp_env p).

(** ** stop_state *)

(** [while (d_busy.exchange(true)) {}] and [d_busy = false]. *)
Definition busy_acquire (k : nat) p : outcome (stop_program Env) :=
  st ← get_state k p;
  if st_busy st then NoFuel
  else Ret (put_state k (StopState (st_list st) (st_stop_requested st) true) p).
Definition busy_release (k : nat) p : outcome (stop_program Env) :=
  st ← get_state k p;
  Ret (put_state k (StopState (st_list st) (st_stop_requested st) false) p).

Definition state_insert (k : nat) (callback : loc) p : outcome (stop_program Env * loc) :=
  p ← busy_acquire k p;
  st ← get_state k p;
  σ ← or_ub (q_push_back (sp_store p) (st_list st) callback);
  let p := put_store σ p in
  st ← get_state k p;
  p ← (if st_stop_requested st then do_call callback p else Ret p);
  p ← busy_release k p;
  Ret (p, callback).

Definition state_erase (k : nat) (it : loc) p : outcome (stop_program Env) :=
  p ← busy_acquire k p;
  σ ← or_ub (q_erase (sp_store p) it);
  busy_release k (put_store σ p).

(** The loop of [call], while the list is not empty. *)
Fixpoint state_call_loop (fuel k : nat) p : outcome (stop_program Env) :=
  match fuel with
  | O => NoFuel
  | S fuel =>
      st ← get_state k p;
      e ← or_ub (q_empty (sp_store p) (st_list st));
      if (e : bool) then Ret p else
      cb ← or_ub (q_front (sp_store p) (st_list st));
      p ← do_call cb p;
      σ ← or_ub (q_pop_front (sp_store p) (st_list st));
      state_call_loop fuel k (put_store σ p)
  end.

Definition state_call (fuel k : nat) p : outcome (stop_program Env) :=
  p ← busy_acquire k p;
  p ← state_call_loop fuel k p;
  busy_release k p.

(** ** stop_source: [k] and [head] are the addresses [make_shared] gets. *)
Definition stop_source_ctor (k : nat) (head : loc) p : outcome (stop_program Env * stop_source) :=
  σ ← or_ub (list_ctor (<[head := Link 0 0]> (sp_store p)) head);
  Ret (put_store σ (put_state k (StopState head false false) p), Some k).
Definition stop_source_nostop : stop_source := None.
Definition source_swap (s other : stop_source) : stop_source * stop_source := (other, s).
Definition get_token (s : stop_source) : stop_token := s.
Definition source_stop_possible (s : stop_source) : bool := bool_decide (is_Some s).
Definition source_stop_requested (s : stop_source) p : outcome bool :=
  match s with
  | Some k => st ← get_state k p; Ret (st_stop_requested st)
  | None => Ret false
  end.
Definition source_eqb (lhs rhs : stop_source) : bool := bool_decide (lhs = rhs).

(** [d_stop_requested.exchange(true)]. *)
Definition stop_exchange (k : nat) p : outcome (bool * stop_program Env) :=
  st ← get_state k p;
  Ret (st_stop_requested st, put_state k (StopState (st_list st) true (st_busy st)) p).

Definition request_stop (fuel : nat) (s : stop_source) p : outcome (bool * stop_program Env) :=
  match s with
  | None => Ret (false, p)
  | Some k =>
      '(rc, p) ← stop_exchange k p;
      if (rc : bool) then Ret (false, p) else p ← state_call fuel k p; Ret (true, p)
  end.

(** ** stop_token *)
Definition token_default : stop_token := None.
Definition token_swap (t other : stop_token) : stop_token * stop_token := (other, t).
Definition token_stop_requested (t : stop_token) p : outcome bool :=
  match t with
  | Some k => st ← get_state k p; Ret (st_stop_requested st)
  | None => Ret false
  end.
Definition token_stop_possible (t : stop_token) : bool := bool_decide (is_Some t).
Definition token_eqb (lhs rhs : stop_token) : bool := bool_decide (lhs = rhs).

(** ** stop_callback: [this] is the address of the object *)
Definition register_callback (this : loc) (state : option nat) p
    : outcome (stop_program Env * stop_callback) :=
  match state with
  | None => Ret (p, StopCallback None None)
  | Some k => '(p, it) ← state_insert k this p; Ret (p, StopCallback (Some k) (Some it))
  end.

Definition stop_callback_ctor (this : loc) (token : stop_token) p
    : outcome (stop_program Env * stop_callback) :=
  register_callback this token (put_store (<[this := Link 0 0]> (sp_store p)) p).

(** Constructing from an rvalue token leaves that one without a state. *)
Definition stop_callback_ctor_move (this : loc) (token : stop_token) p
    : outcome (stop_program Env * stop_callback * stop_token) :=
  '(p, cb) ← register_callback this token (put_store (<[this := Link 0 0]> (sp_store p)) p);
  Ret (p, cb, None).

Definition stop_callback_dtor (cb : stop_callback) p : outcome (stop_program Env) :=
  match scb_iterator cb with
  | None => Ret p
  | Some it => k ← or_ub (scb_state cb); state_erase k it p
  end.
End stop_token.

(** ** Specification

    Sequential uses of one source: callbacks are constructed with its token at
    fresh addresses and destroyed once, and stop is requested any number of
    times. *)
Inductive stop_op := OpRegister (cb : loc) | OpDeregister (cb : loc) | OpRequestStop.

Record stop_spec := StopSpec {
  ss_registered : list loc;       (* constructed, not executed by a request *)
  ss_alive : gset loc;
  ss_used : gset loc;
  ss_requested : bool;
  ss_log : list loc;              (* executed *)
}.

Definition stop_spec_step (s : stop_spec) (op : stop_op) : option stop_spec :=
  let 'StopSpec l A U r g := s in
  match op with
  | OpRegister cb =>
      if decide (cb ∈ U) then None
      else Some (StopSpec (l ++ [cb]) ({[cb]} ∪ A) ({[cb]} ∪ U) r (if r then g ++ [cb] else g))
  | OpDeregister cb =>
      if decide (cb ∈ A) then Some (StopSpec (filter (.≠ cb) l) (A ∖ {[cb]}) U r g) else None
  | OpRequestStop => if r then Some s else Some (StopSpec [] A U true (g ++ l))
  end.

(** The program's side; callbacks append themselves to a log. *)
Definition log_call (cb : loc) (p : stop_program (list loc)) : outcome (stop_program (list loc)) :=
  Ret (StopProgram (list loc) (sp_states p) (sp_store p) (sp_env p ++ [cb])).

Definition stop_op_run `{Q : QueueOps} (fuel k : nat) (p : stop_program (list loc)) (op : stop_op)
    : outcome (stop_program (list loc)) :=
  match op with
  | OpRegister cb => fst <$> stop_callback_ctor Q log_call cb (get_token (Some k)) p
  | OpDeregister cb => stop_callback_dtor Q (StopCallback (Some k) (Some cb)) p
  | OpRequestStop => snd <$> request_stop Q log_call fuel (Some k) p
  end.

(** ** Refinement *)
Section refinement.
Context `{HQ : !QueueSpec Q}.
Implicit Types p : stop_program (list loc).

Record stop_rel (k : nat) p (s : stop_spec) : Prop := StopRel {
  sr_head : loc;
  sr_state : sp_states p !! k = Some (StopState sr_head (ss_requested s) false);
  sr_list : q_repr (sp_store p) sr_head (ss_registered s);
  sr_store : dom (sp_store p) ⊆ ss_used s;
  sr_not_head c : c ∈ ss_alive s → c ≠ sr_head ∧ c ∈ ss_used s;
  sr_alive c : c ∈ ss_alive s → c ∈ ss_registered s ∨ q_detached (sp_store p) c;
  sr_registered c : c ∈ ss_registered s → c ∈ ss_alive s;
  sr_log : sp_env p = ss_log s;
  sr_log_used c : c ∈ ss_log s → c ∈ ss_used s;
  sr_log_nodup : NoDup (ss_log s);
  sr_log_empty : ss_requested s = false → ss_log s = [];
}.

(** The loop executes and removes every element, in order. *)
Lemma call_loop_spec fuel k head r p l :
  sp_states p !! k = Some (StopState head r true) → q_repr (sp_store p) head l →
  length l < fuel →
  ∃ σ, state_call_loop Q log_call fuel k p =
       Ret (StopProgram _ (sp_states p) σ (sp_env p ++ l)) ∧
    q_repr σ head [] ∧ dom σ = dom (sp_store p) ∧
    (∀ c, c ∈ l → q_detached σ c) ∧
    (∀ y, y ∉ head :: l → σ !! y = sp_store p !! y).
Proof.
  revert p l. induction fuel as [|fuel IH]; intros p l Hk Hl Hfuel; [lia|]. simpl.
  unfold get_state. rewrite Hk. simpl. rewrite (q_empty_spec _ _ _ Hl). simpl.
  destruct l as [|c l]; simpl.
  { exists (sp_store p). rewrite app_nil_r. destruct p. split_and!; try done. by intros c ?%elem_of_nil. }
  rewrite (q_front_spec _ _ _ _ Hl). simpl.
  destruct (q_pop_front_spec _ _ _ _ Hl) as (σ1 & Hpop & Hl1 & Hdet & Hdom & Hfr).
  rewrite Hpop. simpl.
  pose proof (q_repr_nodup _ _ _ Hl) as [Hh [Hcl Hnd]%NoDup_cons]%NoDup_cons.
  destruct (IH (put_store σ1 (StopProgram _ (sp_states p) (sp_store p) (sp_env p ++ [c]))) l)
    as (σ & Hrun & Hl' & Hdom' & Hdet' & Hfr'); [done|done|simpl in *; lia|].
  exists σ. rewrite Hrun. simpl. rewrite <-(assoc_L (++)). split_and!; [done|done|by rewrite Hdom'| |].
  - intros d [->|Hd]%elem_of_cons; [|by apply Hdet'].
    eapply q_detached_frame; [|exact Hdet]. apply Hfr'. simpl.
    apply not_elem_of_cons. split; [|done]. intros ->. apply Hh. by apply elem_of_cons; left.
  - intros y Hy. rewrite Hfr', <-Hfr; [done|set_solver|set_solver].
Qed.

Lemma register_rel k fuel p s cb s' :
  stop_rel k p s → stop_spec_step s (OpRegister cb) = Some s' →
  ∃ p', stop_op_run fuel k p (OpRegister cb) = Ret p' ∧ stop_rel k p' s'.
Proof.
  intros [head Hk Hl Hst Hnh Hal Hreg Hlog Hlu Hnd Hemp]. destruct s as [l A U r g]; simpl in *.
  case_decide as Hcb; [done|]. intros [= <-].
  pose proof (q_repr_dom _ _ _ Hl) as Hdom. rewrite Forall_forall in Hdom.
  assert (Hfresh : cb ∉ head :: l) by (intros ?%Hdom; by apply Hcb, Hst).
  set (σ0 := <[cb := Link 0 0]> (sp_store p)).
  assert (Hl0 : q_repr σ0 head l).
  { eapply q_repr_frame; [|exact Hl]. intros y Hy. apply lookup_insert_ne. by intros ->. }
  destruct (q_push_back_spec σ0 head l cb Hl0) as (σ & Hpush & Hl' & Hd & Hfr);
    [subst σ0; set_solver|done|].
  assert (Hdet : ∀ c, c ∈ {[cb]} ∪ A → c ∈ l ++ [cb] ∨ q_detached σ c).
  { intros c [->%elem_of_singleton|Hc]%elem_of_union; [left; set_solver|].
    destruct (Hal c Hc) as [?|Hdt]; [left; set_solver|].
    destruct (decide (c ∈ l)); [left; set_solver|]. destruct (Hnh c Hc) as [Hch HcU].
    assert (c ≠ cb) by (by intros ->).
    right. eapply q_detached_frame; [|exact Hdt]. rewrite Hfr by set_solver.
    subst σ0. by apply lookup_insert_ne. }
  assert (Hcbg : cb ∉ g) by (by intros ?%Hlu).
  unfold stop_callback_ctor, register_callback, state_insert, busy_acquire, busy_release, get_state.
  simpl. rewrite Hk. simpl. rewrite ?lookup_insert_eq. simpl. fold σ0. rewrite Hpush. simpl.
  rewrite ?lookup_insert_eq. simpl.
  destruct r; simpl; rewrite ?lookup_insert_eq; simpl; (eexists; split; [done|]);
    (eapply (StopRel _ _ _ head); simpl; rewrite ?lookup_insert_eq; try done);
    try (by rewrite Hd; subst σ0; set_solver); try (by rewrite Hlog);
    try (intros c [->%elem_of_singleton|Hc]%elem_of_union; [|destruct (Hnh c Hc)]; set_solver);
    try (intros c [Hc| ->%list_elem_of_singleton]%elem_of_app; [apply Hreg in Hc|]; set_solver).
  - intros c [Hc%Hlu| ->%list_elem_of_singleton]%elem_of_app; set_solver.
  - apply NoDup_app. split_and!; [done| |apply NoDup_singleton].
    by intros c Hc ->%list_elem_of_singleton.
  - intros c Hc%Hlu. set_solver.
Qed.

Lemma request_rel fuel k p s s' :
  stop_rel k p s → stop_spec_step s OpRequestStop = Some s' →
  length (ss_registered s) < fuel →
  ∃ p', stop_op_run fuel k p OpRequestStop = Ret p' ∧ stop_rel k p' s'.
Proof.
  intros [head Hk Hl Hst Hnh Hal Hreg Hlog Hlu Hnd Hemp]. destruct s as [l A U r g]; simpl in *.
  intros Hs Hfuel. unfold stop_exchange, get_state. rewrite Hk. simpl.
  destruct r; injection Hs as <-; simpl.
  { eexists; split; [done|]. by eapply (StopRel _ _ _ head); simpl; rewrite ?lookup_insert_eq. }
  unfold state_call, busy_acquire, busy_release, get_state. simpl.
  rewrite ?lookup_insert_eq. simpl. unfold put_state. simpl. rewrite ?insert_insert_eq.
  set (p1 := StopProgram _ (<[k := StopState head true true]> (sp_states p)) (sp_store p) (sp_env p)).
  destruct (call_loop_spec fuel k head true p1 l) as (σ & Hrun & Hl' & Hd & Hdet & Hfr);
    [by apply lookup_insert_eq|done|done|].
  rewrite Hrun. simpl. rewrite ?lookup_insert_eq. simpl.
  assert (g = []) as -> by (by apply Hemp). simpl in *.
  pose proof (q_repr_nodup _ _ _ Hl) as [_ Hndl]%NoDup_cons.
  eexists; split; [done|]. eapply (StopRel _ _ _ head); simpl; rewrite ?lookup_insert_eq; try done.
  - by rewrite Hd.
  - intros c Hc. right. destruct (decide (c ∈ l)); [by apply Hdet|].
    destruct (Hal c Hc) as [?|Hdt]; [done|]. eapply q_detached_frame; [|exact Hdt].
    apply Hfr. destruct (Hnh c Hc). set_solver.
  - by intros c ?%elem_of_nil.
  - by rewrite Hlog.
  - intros c Hc%Hreg. by apply Hnh.
Qed.

Lemma filter_ne_nodup (l : list loc) c :
  NoDup l → c ∈ l → ∃ l1 l2, l = l1 ++ c :: l2 ∧ filter (.≠ c) l = l1 ++ l2.
Proof.
  intros Hnd (l1 & l2 & ->)%list_elem_of_split. exists l1, l2. split; [done|].
  apply NoDup_app in Hnd as (_ & Hdis & [Hc2 _]%NoDup_cons).
  rewrite filter_app, filter_cons_False by auto. f_equal; apply filter_all; apply Forall_forall.
  - intros x Hx ->. apply (Hdis c Hx). by apply elem_of_cons; left.
  - by intros x Hx ->.
Qed.

Lemma deregister_rel fuel k p s cb s' :
  stop_rel k p s → stop_spec_step s (OpDeregister cb) = Some s' →
  ∃ p', stop_op_run fuel k p (OpDeregister cb) = Ret p' ∧ stop_rel k p' s'.
Proof.
  intros [head Hk Hl Hst Hnh Hal Hreg Hlog Hlu Hnd Hemp]. destruct s as [l A U r g]; simpl in *.
  case_decide as Hcb; [|done]. intros [= <-].
  pose proof (q_repr_nodup _ _ _ Hl) as [_ Hndl]%NoDup_cons.
  assert (∃ σ, q_erase (sp_store p) cb = Some σ ∧ q_repr σ head (filter (.≠ cb) l) ∧
    dom σ = dom (sp_store p) ∧
    ∀ c, c ∈ A → c ≠ cb → c ∈ filter (.≠ cb) l ∨ q_detached σ c) as (σ & He & Hl' & Hd & Hdet).
  { destruct (decide (cb ∈ l)) as [Hin|Hnin].
    - destruct (filter_ne_nodup l cb Hndl Hin) as (l1 & l2 & -> & Hf). rewrite Hf.
      destruct (q_erase_spec _ _ _ _ _ Hl) as (σ & He & Hl' & Hdt & Hd & Hfr).
      exists σ. split_and!; [done..|]. intros c Hc Hne. destruct (Hnh c Hc) as [Hch _].
      destruct (decide (c ∈ l1 ++ l2)); [by left|right].
      destruct (Hal c Hc) as [?|Hcd]; [set_solver|].
      eapply q_detached_frame; [|exact Hcd]. apply Hfr. set_solver.
    - destruct (Hal cb Hcb) as [?|Hdt]; [done|]. exists (sp_store p).
      assert (filter (.≠ cb) l = l) as ->.
      { apply filter_all, Forall_forall. by intros x Hx ->. }
      split_and!; [by apply q_erase_detached|done..|]. intros c Hc _. by apply Hal. }
  unfold stop_callback_dtor, state_erase, busy_acquire, busy_release, get_state. simpl.
  rewrite Hk. simpl. rewrite He. simpl. rewrite lookup_insert_eq. simpl.
  eexists; split; [done|]. eapply (StopRel _ _ _ head); simpl; rewrite ?lookup_insert_eq; try done.
  - by rewrite Hd.
  - intros c [Hc _]%elem_of_difference. by apply Hnh.
  - intros c [Hc Hne]%elem_of_difference. apply Hdet; set_solver.
  - intros c [Hne Hc]%list_elem_of_filter. apply Hreg in Hc. set_solver.
Qed.
End refinement.

Fixpoint stop_spec_run (s : stop_spec) (ops : list stop_op) : option stop_spec :=
  match ops with [] => Some s | op :: ops => s ← stop_spec_step s op; stop_spec_run s ops end.

Fixpoint stop_ops_run `{Q : QueueOps} (fuel k : nat) (p : stop_program (list loc))
    (ops : list stop_op) : outcome (stop_program (list loc)) :=
  match ops with
  | [] => Ret p
  | op :: ops => p ← stop_op_run fuel k p op; stop_ops_run fuel k p ops
  end.

(** A new source in an empty program. *)
Definition stop_start (k : nat) (head : loc) : outcome (stop_program (list loc)) :=
  fst <$> stop_source_ctor k head (StopProgram _ ∅ ∅ []).

Lemma stop_start_rel k head :
  ∃ p, stop_start k head = Ret p ∧ stop_rel k p (StopSpec [] ∅ {[head]} false []).
Proof.
  unfold stop_start, stop_source_ctor. simpl.
  destruct (list_ctor_spec (<[head := Link 0 0]> ∅) head) as (σ & -> & Hl & Hd & _); [set_solver|].
  simpl. eexists; split; [done|].
  eapply (StopRel _ _ _ head); simpl; try done; try (by intros c ?%elem_of_nil); try set_solver.
  - by rewrite lookup_insert_eq.
  - apply NoDup_nil_2.
Qed.

Lemma stop_op_rel `{!QueueSpec Q} fuel k p s op s' :
  stop_rel k p s → stop_spec_step s op = Some s' → length (ss_registered s) < fuel →
  ∃ p', stop_op_run fuel k p op = Ret p' ∧ stop_rel k p' s'.
Proof.
  destruct op; intros; [by eapply register_rel|by eapply deregister_rel|by eapply request_rel].
Qed.

(** The list grows by at most one callback per operation. *)
Lemma stop_spec_length s op s' :
  stop_spec_step s op = Some s' → length (ss_registered s') ≤ S (length (ss_registered s)).
Proof.
  destruct s as [l A U r g], op; simpl; [case_decide|case_decide|destruct r]; intros; simplify_eq/=;
    rewrite ?length_app; simpl; try lia.
  pose proof (length_filter (.≠ cb) l). lia.
Qed.

(** A callback alive is still to be executed, or was. *)
Definition spec_served (s : stop_spec) : Prop :=
  ∀ c, c ∈ ss_alive s → if ss_requested s then c ∈ ss_log s else c ∈ ss_registered s.

Lemma stop_spec_served s op s' : spec_served s → stop_spec_step s op = Some s' → spec_served s'.
Proof.
  unfold spec_served. destruct s as [l A U r g], op; simpl; intros Hs Hstep.
  - case_decide; simplify_eq/=. intros c [->%elem_of_singleton|Hc]%elem_of_union;
      [|apply Hs in Hc]; destruct r; set_solver.
  - case_decide; simplify_eq/=. intros c [Hc Hne]%elem_of_difference. apply Hs in Hc.
    destruct r; [done|]. apply list_elem_of_filter. set_solver.
  - destruct r; simplify_eq/=; intros c Hc%Hs; set_solver.
Qed.

(** C15: the shared stop state does what its specification says for every
    sequence of constructing callbacks, destroying them and requesting stop:
    no dead object is touched and no lock is left held, callbacks are executed
    in the order of their registration when stop is requested first (later
    requests do nothing), at once when they are registered afterwards, never
    after they were destroyed, and each at most once; after a request every
    callback alive was executed. *)
Theorem stop_token_refinement k head ops s' fuel :
  stop_spec_run (StopSpec [] ∅ {[head]} false []) ops = Some s' → length ops < fuel →
  ∃ p p' st, stop_start k head = Ret p ∧
    stop_ops_run fuel k p ops = Ret p' ∧
    sp_states p' !! k = Some st ∧ st_stop_requested st = ss_requested s' ∧ st_busy st = false ∧
    sp_env p' = ss_log s' ∧ NoDup (ss_log s') ∧
    (ss_requested s' = true → ∀ c, c ∈ ss_alive s' → c ∈ ss_log s').
Proof.
  intros Hspec Hfuel. destruct (stop_start_rel k head) as (p & Hp & Hrel).
  cut (∃ p', stop_ops_run fuel k p ops = Ret p' ∧ stop_rel k p' s' ∧ spec_served s').
  { intros (p' & Hrun & [h Hk Hl Hst Hnh Hal Hreg Hlog Hlu Hnd Hemp] & Hserved).
    exists p, p', (StopState h (ss_requested s') false). split_and!; try done.
    intros Hr c Hc%Hserved. by rewrite Hr in Hc. }
  assert (Hserved : spec_served (StopSpec [] ∅ {[head]} false [])) by (intros c; set_solver).
  clear Hp. revert Hspec Hfuel Hrel Hserved.
  assert (Hgen : ∀ s p, stop_spec_run s ops = Some s' → length (ss_registered s) + length ops < fuel →
    stop_rel k p s → spec_served s →
    ∃ p', stop_ops_run fuel k p ops = Ret p' ∧ stop_rel k p' s' ∧ spec_served s').
  { clear p. induction ops as [|op ops IH]; intros s p Hspec Hfuel Hrel Hsv; simpl in *.
    { simplify_eq. eauto. }
    apply option_bind_Some_inv in Hspec as (s1 & Hs1 & Hspec).
    destruct (stop_op_rel fuel k p s op s1) as (p1 & -> & Hrel1); [done|done|lia|]. simpl.
    pose proof (stop_spec_length _ _ _ Hs1).
    apply (IH s1 p1); [done|lia|done|by eapply stop_spec_served]. }
  intros. by eapply Hgen.
Qed.

Lemma stop_token_refinement_witness :
  let ops := [OpRegister 11; OpRegister 12; OpRegister 13; OpDeregister 12; OpRequestStop;
              OpRegister 14; OpDeregister 11; OpRequestStop] in
  ∃ p p' st, stop_start 7 1 = Ret p ∧
    stop_ops_run 9 7 p ops = Ret p' ∧
    sp_states p' !! 7 = Some st ∧ st_stop_requested st = true ∧ st_busy st = false ∧
    sp_env p' = [11; 13; 14] ∧ NoDup [11; 13; 14] ∧
    (true = true → ∀ c, c ∈ ({[11; 12; 13; 14]} ∖ {[12]} ∖ {[11]} : gset loc) → c ∈ [11; 13; 14]).
Proof.
  refine (stop_token_refinement 7 1
    [OpRegister 11; OpRegister 12; OpRegister 13; OpDeregister 12; OpRequestStop;
     OpRegister 14; OpDeregister 11; OpRequestStop]
    (StopSpec [14] ({[11; 12; 13; 14]} ∖ {[12]} ∖ {[11]}) {[1; 11; 12; 13; 14]} true [11; 13; 14]) 9 _ _).
  - by vm_compute.
  - simpl. lia.
Defined.

(** ** Hazards *)

(** A callback that destroys itself when it is executed. *)
Definition self_removing (k : nat) (cb : loc) (p : stop_program (list loc))
    : outcome (stop_program (list loc)) :=
  stop_callback_dtor intrusive_list_ops (StopCallback (Some k) (Some cb)) p.

(** Two hazards of the lock. A callback registered by another thread
    between the exchange and the call of [request_stop] sees the flag, is
    executed and listed, and is executed a second time by the request. And the
    lock is held while callbacks run: a callback whose execution destroys a
    callback of the same state (itself included) spins on it for ever,
    whatever the fuel. *)
Theorem stop_state_hazards :
  (∃ p0 p1 p2 p3, stop_start 7 1 = Ret p0 ∧ stop_exchange 7 p0 = Ret (false, p1) ∧
     stop_callback_ctor intrusive_list_ops log_call 11 (Some 7) p1 = Ret (p2, StopCallback (Some 7) (Some 11)) ∧
     state_call intrusive_list_ops log_call 2 7 p2 = Ret p3 ∧ sp_env p3 = [11; 11]) ∧
  (∃ p0 p1, stop_start 7 1 = Ret p0 ∧
     stop_callback_ctor intrusive_list_ops log_call 11 (Some 7) p0 = Ret (p1, StopCallback (Some 7) (Some 11)) ∧
     ∀ fuel, request_stop intrusive_list_ops (self_removing 7) fuel (Some 7) p1 = NoFuel).
Proof.
  split.
  - do 4 eexists. split_and!; [by vm_compute|by vm_compute|by vm_compute|by vm_compute|done].
  - do 2 eexists. split_and!; [by vm_compute|by vm_compute|]. intros [|fuel]; by vm_compute.
Qed.
