(* ===== verification/StopThreads.v ===== *)
(** * nstd::stop_token_ns::stop_state used by several threads

    The members of src/src/nstd/stop_token/stop_state.hpp, the constructor and
    the destructor of stop_callback.hpp and [request_stop] of stop_source.cpp,
    as programs which any number of threads execute. A transition is one access
    to an atomic variable, one operation on the list, or the start or the end of
    the execution of a callback; the spin locks are loops on [d_busy]. (A
    callback here is code which does not use the stop state; StopToken shows
    what happens to one which does.) The list is used through the interface
    [QueueOps], and the storage of a callback is released when its destructor
    returns. *)
From S2P Require Import Prelude IntrusiveList StopToken.

(** ** Data *)

(** The stop state and the store of the callbacks. *)
Record st_shared := StShared { sh_state : stop_state; sh_store : store }.

(** Where a thread is: before the access named. *)
Inductive st_pc :=
  | StIdle
  | InsertExchange (cb : loc)      (* while (d_busy.exchange(true)) *)
  | InsertLink (cb : loc)          (* d_list.insert(d_list.end(), callback) *)
  | InsertTest (cb : loc)          (* if (d_stop_requested) *)
  | InsertCalling (cb : loc)       (* in callback->call() *)
  | InsertRelease (cb : loc)       (* d_busy = false *)
  | EraseExchange (it : loc)
  | EraseUnlink (it : loc)         (* d_list.erase(it) *)
  | EraseRelease (it : loc)
  | StopExchange                   (* d_stop_requested.exchange(true) *)
  | CallExchange
  | CallTest                       (* while (!d_list.empty()) *)
  | CallCalling (cb : loc)         (* in d_list.front().call() *)
  | CallRelease.

(** Who executed a callback. *)
Inductive st_call := CalledByInsert (cb : loc) | CalledByStop (cb : loc).
Definition call_object (c : st_call) : loc :=
  match c with CalledByInsert cb | CalledByStop cb => cb end.

#[export] Instance st_pc_eq_dec : EqDecision st_pc.
Proof. solve_decision. Defined.
#[export] Instance st_call_eq_dec : EqDecision st_call.
Proof. solve_decision. Defined.

(** ** The code of a thread *)
Definition set_busy (b : bool) (s : st_shared) : st_shared :=
  StShared (StopState (st_list (sh_state s)) (st_stop_requested (sh_state s)) b) (sh_store s).
Definition set_requested (s : st_shared) : st_shared :=
  StShared (StopState (st_list (sh_state s)) true (st_busy (sh_state s))) (sh_store s).
Definition st_set_list (σ : store) (s : st_shared) : st_shared := StShared (sh_state s) σ.

(** One round of [while (d_busy.exchange(true)) {}]: go on to [next] if the
    lock was free. *)
Definition spin (here next : st_pc) (s : st_shared) : st_shared * st_pc * list st_call :=
  (set_busy true s, if st_busy (sh_state s) then here else next, []).

Section stop_threads.
Context (Q : QueueOps).

Definition st_insert_step (s : st_shared) (pc : st_pc) : option (st_shared * st_pc * list st_call) :=
  match pc with
  | InsertExchange cb => Some (spin pc (InsertLink cb) s)
  | InsertLink cb =>
      σ ← q_push_back (sh_store s) (st_list (sh_state s)) cb;
      Some (st_set_list σ s, InsertTest cb, [])
  | InsertTest cb =>
      Some (if st_stop_requested (sh_state s) then (s, InsertCalling cb, [CalledByInsert cb])
            else (s, InsertRelease cb, []))
  | InsertCalling cb => Some (s, InsertRelease cb, [])
  | InsertRelease cb => Some (set_busy false s, StIdle, [])
  | _ => None
  end.

Definition st_erase_step (s : st_shared) (pc : st_pc) : option (st_shared * st_pc * list st_call) :=
  match pc with
  | EraseExchange it => Some (spin pc (EraseUnlink it) s)
  | EraseUnlink it =>
      σ ← q_erase (sh_store s) it; Some (st_set_list σ s, EraseRelease it, [])
  | EraseRelease it => Some (set_busy false s, StIdle, [])
  | _ => None
  end.

(** [request_stop] calls [call] when the flag was not set before; the callback
    executed is taken off the list when it returns. *)
Definition st_stop_step (s : st_shared) (pc : st_pc) : option (st_shared * st_pc * list st_call) :=
  match pc with
  | StopExchange =>
      Some (set_requested s, if st_stop_requested (sh_state s) then StIdle else CallExchange, [])
  | CallExchange => Some (spin pc CallTest s)
  | CallTest =>
      e ← q_empty (sh_store s) (st_list (sh_state s));
      if (e : bool) then Some (s, CallRelease, [])
      else cb ← q_front (sh_store s) (st_list (sh_state s)); Some (s, CallCalling cb, [CalledByStop cb])
  | CallCalling _ =>
      σ ← q_pop_front (sh_store s) (st_list (sh_state s)); Some (st_set_list σ s, CallTest, [])
  | CallRelease => Some (set_busy false s, StIdle, [])
  | _ => None
  end.

(** [None] is undefined behaviour, or no code to execute. *)
Definition st_code_step (s : st_shared) (pc : st_pc) : option (st_shared * st_pc * list st_call) :=
  match pc with
  | StIdle => None
  | InsertExchange _ | InsertLink _ | InsertTest _ | InsertCalling _ | InsertRelease _ =>
      st_insert_step s pc
  | EraseExchange _ | EraseUnlink _ | EraseRelease _ => st_erase_step s pc
  | StopExchange | CallExchange | CallTest | CallCalling _ | CallRelease => st_stop_step s pc
  end.

(** ** The system *)

(** The threads, and what happened so far: the addresses used, the callbacks
    whose constructor returned and whose destructor was not called, those whose
    destructor returned, and the executions in order. *)
Record st_world := StWorld {
  tw_shared : st_shared;
  tw_threads : list st_pc;
  tw_used : gset loc;
  tw_alive : gset loc;
  tw_gone : gset loc;
  tw_calls : list st_call;
}.

(** What the return from a constructor or a destructor changes. *)
Definition st_return (pc : st_pc) (w : st_world) : st_world :=
  let 'StWorld s P U A G c := w in
  match pc with
  | InsertRelease cb => StWorld s P U ({[cb]} ∪ A) G c
  | EraseRelease cb => StWorld (st_set_list (delete cb (sh_store s)) s) P U A ({[cb]} ∪ G) c
  | _ => w
  end.

Definition st_run_thread (w : st_world) (t : nat) (pc : st_pc) : option st_world :=
  '(s, pc', calls) ← st_code_step (tw_shared w) pc;
  Some (st_return pc (StWorld s (<[t := pc']> (tw_threads w)) (tw_used w) (tw_alive w)
                              (tw_gone w) (tw_calls w ++ calls))).

(** A thread without work constructs a callback at a fresh address, destroys
    one, or requests stop; the others go on. *)
Inductive st_step : relation st_world :=
  | st_step_construct s P U A G c t cb :
      P !! t = Some StIdle → cb ∉ U →
      st_step (StWorld s P U A G c)
        (StWorld (st_set_list (<[cb := Link 0 0]> (sh_store s)) s) (<[t := InsertExchange cb]> P)
                 ({[cb]} ∪ U) A G c)
  | st_step_destroy s P U A G c t cb :
      P !! t = Some StIdle → cb ∈ A →
      st_step (StWorld s P U A G c) (StWorld s (<[t := EraseExchange cb]> P) U (A ∖ {[cb]}) G c)
  | st_step_request s P U A G c t :
      P !! t = Some StIdle →
      st_step (StWorld s P U A G c) (StWorld s (<[t := StopExchange]> P) U A G c)
  | st_step_code w t pc w' :
      tw_threads w !! t = Some pc → st_run_thread w t pc = Some w' → st_step w w'.

(** The same as a function of the choices: which thread does what. *)
Inductive st_choice := StConstruct (t : nat) (cb : loc) | StDestroy (t : nat) (cb : loc) | StRequest (t : nat)
  | StCode (t : nat).

Definition st_exec_step (w : st_world) (a : st_choice) : option st_world :=
  let 'StWorld s P U A G c := w in
  match a with
  | StConstruct t cb =>
      if decide (P !! t = Some StIdle ∧ cb ∉ U) then
        Some (StWorld (st_set_list (<[cb := Link 0 0]> (sh_store s)) s) (<[t := InsertExchange cb]> P)
                      ({[cb]} ∪ U) A G c)
      else None
  | StDestroy t cb =>
      if decide (P !! t = Some StIdle ∧ cb ∈ A) then
        Some (StWorld s (<[t := EraseExchange cb]> P) U (A ∖ {[cb]}) G c)
      else None
  | StRequest t =>
      if decide (P !! t = Some StIdle) then Some (StWorld s (<[t := StopExchange]> P) U A G c) else None
  | StCode t => pc ← P !! t; st_run_thread w t pc
  end.

Fixpoint st_exec (w : st_world) (choices : list st_choice) : option st_world :=
  match choices with [] => Some w | a :: choices => w ← st_exec_step w a; st_exec w choices end.

Lemma st_exec_sound w choices w' : st_exec w choices = Some w' → rtc st_step w w'.
Proof.
  revert w. induction choices as [|a choices IH]; intros w Hw; simplify_eq/=; [done|].
  apply option_bind_Some_inv in Hw as (w1 & Hstep & Hw). eapply rtc_l; [|by apply IH].
  destruct w as [s P U A G c], a as [t cb|t cb|t|t]; simpl in Hstep.
  - case_decide as Hd; [|done]. destruct Hd. simplify_eq. by constructor.
  - case_decide as Hd; [|done]. destruct Hd. simplify_eq. by constructor.
  - case_decide; [|done]. simplify_eq. by constructor.
  - apply option_bind_Some_inv in Hstep as (pc & Ht & Hrun). by eapply (st_step_code (StWorld s P U A G c)).
Qed.

(** A new stop state and [n] threads. *)
Definition st_init (σ : store) (head : loc) (n : nat) : st_world :=
  StWorld (StShared (StopState head false false) σ) (replicate n StIdle) (dom σ) ∅ ∅ [].
End stop_threads.

(** ** The lock *)
Definition in_lock (pc : st_pc) : bool :=
  match pc with
  | InsertLink _ | InsertTest _ | InsertCalling _ | InsertRelease _
  | EraseUnlink _ | EraseRelease _ | CallTest | CallCalling _ | CallRelease => true
  | _ => false
  end.

(** The lock is taken exactly when a thread is inside, and at most one is. *)
Record lock_inv (s : st_shared) (P : list st_pc) : Prop := LockInv {
  lk_busy t pc : P !! t = Some pc → in_lock pc = true → st_busy (sh_state s) = true;
  lk_unique t1 t2 pc1 pc2 :
    P !! t1 = Some pc1 → P !! t2 = Some pc2 → in_lock pc1 = true → in_lock pc2 = true → t1 = t2;
  lk_holder : st_busy (sh_state s) = true → ∃ t pc, P !! t = Some pc ∧ in_lock pc = true;
}.

Inductive lock_change (s : st_shared) (pc : st_pc) (s' : st_shared) (pc' : st_pc) : Prop :=
  | lock_same :
      in_lock pc' = in_lock pc → st_busy (sh_state s') = st_busy (sh_state s) → lock_change s pc s' pc'
  | lock_acquired :
      in_lock pc = false → st_busy (sh_state s) = false →
      in_lock pc' = true → st_busy (sh_state s') = true → lock_change s pc s' pc'
  | lock_released :
      in_lock pc = true → in_lock pc' = false → st_busy (sh_state s') = false → lock_change s pc s' pc'.

Lemma insert_threads (P : list st_pc) t pc pc' t2 pc2 :
  P !! t = Some pc → <[t := pc']> P !! t2 = Some pc2 →
  t2 = t ∧ pc2 = pc' ∨ t2 ≠ t ∧ P !! t2 = Some pc2.
Proof.
  intros Ht [(-> & -> & _)|[? ?]]%list_lookup_insert_Some; [by left|right; auto].
Qed.

Lemma lock_inv_step s P t pc s' pc' :
  lock_inv s P → P !! t = Some pc → lock_change s pc s' pc' → lock_inv s' (<[t := pc']> P).
Proof.
  intros [Hb Hu Hh] Ht Hc.
  assert (Hsame : <[t := pc']> P !! t = Some pc').
  { apply list_lookup_insert_eq. by eapply lookup_lt_Some. }
  destruct Hc as [Hl Hbusy|Hl Hfree Hl' Hbusy|Hl Hl' Hbusy].
  - assert (Hold : ∀ t2 pc2, <[t := pc']> P !! t2 = Some pc2 → in_lock pc2 = true →
      ∃ pc1, P !! t2 = Some pc1 ∧ in_lock pc1 = true).
    { intros t2 pc2 [(-> & ->)|[??]]%(insert_threads _ _ _ _ _ _ Ht) ?; [|by eauto].
      exists pc. by rewrite <-Hl. }
    split; [|intros t1 t2 pc1 pc2 H1 H2 Hi1 Hi2|rewrite Hbusy; intros (t2 & pc2 & H2 & Hin)%Hh].
    + intros t2 pc2 H2 Hi. destruct (Hold _ _ H2 Hi) as (? & ? & ?). rewrite Hbusy. eauto.
    + destruct (Hold _ _ H1 Hi1) as (? & ? & ?), (Hold _ _ H2 Hi2) as (? & ? & ?). eauto.
    + destruct (decide (t2 = t)) as [->|]; [|by exists t2, pc2; rewrite list_lookup_insert_ne].
      exists t, pc'. split; [done|]. congruence.
  - assert (Hold : ∀ t2 pc2, <[t := pc']> P !! t2 = Some pc2 → in_lock pc2 = true → t2 = t).
    { intros t2 pc2 [[]|[? H2]]%(insert_threads _ _ _ _ _ _ Ht) Hi; [done|].
      pose proof (Hb _ _ H2 Hi). congruence. }
    split; [done| |by eauto]. intros t1 t2 pc1 pc2 ????. by rewrite (Hold t1 pc1), (Hold t2 pc2).
  - assert (Hold : ∀ t2 pc2, <[t := pc']> P !! t2 = Some pc2 → in_lock pc2 = false).
    { intros t2 pc2 [[-> ->]|[Hne H2]]%(insert_threads _ _ _ _ _ _ Ht); [done|].
      destruct (in_lock pc2) eqn:Hi; [|done]. destruct Hne. eauto. }
    split; [| |congruence].
    + intros t2 pc2 H2 Hi. apply Hold in H2. congruence.
    + intros t1 t2 pc1 pc2 H1 _ Hi _. apply Hold in H1. congruence.
Qed.

(** ** The callbacks *)

(** The callback a thread constructs or destroys, and the one it executes. *)
Definition pc_object (pc : st_pc) : option loc :=
  match pc with
  | InsertExchange cb | InsertLink cb | InsertTest cb | InsertCalling cb | InsertRelease cb
  | EraseExchange cb | EraseUnlink cb | EraseRelease cb => Some cb
  | _ => None
  end.
Definition st_executing (pc : st_pc) : option loc :=
  match pc with InsertCalling cb | CallCalling cb => Some cb | _ => None end.

(** A thread which is to execute what is on the list. *)
Definition stopping (pc : st_pc) : bool :=
  match pc with CallExchange | CallTest | CallCalling _ => true | _ => false end.

(** Callbacks have one owner: the thread which constructs or destroys them. *)
Record object_inv (h : loc) (P : list st_pc) (U A G : gset loc) : Prop := ObjectInv {
  ob_state t pc cb : P !! t = Some pc → pc_object pc = Some cb → cb ∈ U ∧ cb ∉ A ∧ cb ∉ G ∧ cb ≠ h;
  ob_unique t1 t2 pc1 pc2 cb : P !! t1 = Some pc1 → P !! t2 = Some pc2 →
    pc_object pc1 = Some cb → pc_object pc2 = Some cb → t1 = t2;
  ob_alive cb : cb ∈ A → cb ∈ U ∧ cb ∉ G ∧ cb ≠ h;
  ob_gone cb : cb ∈ G → cb ∈ U;
}.

(** How many steps a thread has left, but for the callbacks on the list, which
    the thread in [call] takes two steps each for. *)
Definition st_rank (pc : st_pc) : nat :=
  match pc with
  | StIdle => 0
  | InsertExchange _ => 7 | InsertLink _ => 6 | InsertTest _ => 3 | InsertCalling _ => 2 | InsertRelease _ => 1
  | EraseExchange _ => 3 | EraseUnlink _ => 2 | EraseRelease _ => 1
  | StopExchange => 4 | CallExchange => 3 | CallTest => 2 | CallCalling _ => 1 | CallRelease => 1
  end.

Definition st_served (calls : list st_call) (cb : loc) : Prop := cb ∈ call_object <$> calls.

Section invariant.
Context `{HQ : !QueueSpec Q}.

Definition st_linked (s : st_shared) (l : list loc) (cb : loc) : Prop :=
  cb ∈ l ∨ q_detached (sh_store s) cb.

Definition thread_ok (s : st_shared) (l : list loc) (calls : list st_call) (pc : st_pc) : Prop :=
  match pc with
  | InsertExchange cb | InsertLink cb => cb ∉ l ∧ ¬ st_served calls cb ∧ cb ∈ dom (sh_store s)
  | InsertTest cb => cb ∈ l ∧ ¬ st_served calls cb
  | InsertCalling cb | InsertRelease cb => cb ∈ l
  | EraseExchange cb | EraseUnlink cb => st_linked s l cb
  | EraseRelease cb => cb ∉ l
  | CallExchange | CallTest => st_stop_requested (sh_state s) = true
  | CallCalling cb =>
      st_stop_requested (sh_state s) = true ∧ hd_error l = Some cb ∧ CalledByStop cb ∈ calls
  | StIdle | StopExchange | CallRelease => True
  end.

(** What a step on behalf of the object [o] does for the others. *)
Record st_effect (h : loc) (o : option loc) (s : st_shared) (l : list loc) (calls : list st_call)
    (s' : st_shared) (l' : list loc) (calls' : list st_call) : Prop := StEffect {
  ef_list : q_repr (sh_store s') h l';
  ef_requested : st_stop_requested (sh_state s) = true → st_stop_requested (sh_state s') = true;
  ef_linked z : z ≠ h → o ≠ Some z → st_linked s l z → st_linked s' l' z;
  ef_in z : z ∈ l' → z ∈ l ∨ o = Some z;
  ef_called z : st_served calls' z → st_served calls z ∨ z ∈ l ∨ o = Some z;
  ef_served z : st_served calls z → st_served calls' z;
  ef_popped z : z ∈ l → z ∉ l' → o = Some z ∨ st_served calls' z;
  ef_dom z : z ∈ dom (sh_store s) → o ≠ Some z → z ∈ dom (sh_store s');
  ef_dom_inv z : z ∈ dom (sh_store s') → z ∈ dom (sh_store s) ∨ o = Some z;
}.

(** Threads outside of the lock do not notice, nor do those inside when the
    list and the executions stay as they are. *)
Lemma thread_ok_other h o s l calls s' l' calls' pc :
  st_effect h o s l calls s' l' calls' → in_lock pc = false ∨ l' = l ∧ calls' = calls →
  (∀ z, pc_object pc = Some z → z ≠ h ∧ o ≠ Some z) →
  thread_ok s l calls pc → thread_ok s' l' calls' pc.
Proof.
  intros [Hl Hr Hlk Hin Hc _ _ Hd _] Hlock Ho.
  assert (Hnew : ∀ z, pc_object pc = Some z → z ∉ l ∧ ¬ st_served calls z ∧ z ∈ dom (sh_store s) →
    z ∉ l' ∧ ¬ st_served calls' z ∧ z ∈ dom (sh_store s')).
  { intros z Hz (Hcb & Hs & Hdom). destruct (Ho z Hz) as [??].
    split_and!; [by intros [?|?]%Hin|by intros [?|[?|?]]%Hc|by apply Hd]. }
  assert (Hold : ∀ z, pc_object pc = Some z → st_linked s l z → st_linked s' l' z).
  { intros z [??]%Ho. by apply Hlk. }
  destruct Hlock as [Hlock|[-> ->]];
    destruct pc as [|cb|cb|cb|cb|cb|cb|cb|cb| | | |cb| ]; simpl in *; try done; auto; naive_solver.
Qed.

Lemma object_inv_step h P U A G t pc pc' U' A' G' :
  object_inv h P U A G → P !! t = Some pc → U ⊆ U' →
  (∀ z, pc_object pc' = Some z → z ∈ U' ∧ z ∉ A' ∧ z ∉ G' ∧ z ≠ h ∧
     ∀ t2 pc2, t2 ≠ t → P !! t2 = Some pc2 → pc_object pc2 ≠ Some z) →
  (∀ z, z ∈ A' → z ∈ A ∨ pc_object pc = Some z) → (∀ z, z ∈ G' → z ∈ G ∨ pc_object pc = Some z) →
  (∀ z, z ∈ A' → z ∉ G') → object_inv h (<[t := pc']> P) U' A' G'.
Proof.
  intros [Hs Hu Ha Hg] Ht HU Ho HA HG HAG. split.
  - intros t2 pc2 cb [[-> ->]|[Hne H2]]%(insert_threads _ _ _ _ _ _ Ht) Hcb.
    { destruct (Ho cb Hcb) as (?&?&?&?&_). done. }
    destruct (Hs t2 pc2 cb H2 Hcb) as (?&HnA&HnG&?). split_and!; [set_solver| | |done].
    + intros [?|Hpc]%HA; [done|]. by apply Hne, (Hu t2 t pc2 pc cb).
    + intros [?|Hpc]%HG; [done|]. by apply Hne, (Hu t2 t pc2 pc cb).
  - intros t1 t2 pc1 pc2 cb [[-> ->]|[? H1]]%(insert_threads _ _ _ _ _ _ Ht)
      [[-> ->]|[? H2]]%(insert_threads _ _ _ _ _ _ Ht) Hc1 Hc2; [done|exfalso..|by eauto].
    + destruct (Ho cb Hc1) as (_&_&_&_&Hoth). by apply (Hoth t2 pc2).
    + destruct (Ho cb Hc2) as (_&_&_&_&Hoth). by apply (Hoth t1 pc1).
  - intros cb Hcb. split; [|split; [by apply HAG|]].
    + destruct (HA cb Hcb) as [?%Ha|Hpc%(Hs _ _ _ Ht)]; set_solver.
    + destruct (HA cb Hcb) as [?%Ha|Hpc%(Hs _ _ _ Ht)]; naive_solver.
  - intros cb [?%Hg|Hpc%(Hs _ _ _ Ht)]%HG; set_solver.
Qed.

(** ** The invariant *)
Record st_inv_at (w : st_world) (h : loc) (l : list loc) : Prop := StInv {
  si_head : st_list (sh_state (tw_shared w)) = h;
  si_list : q_repr (sh_store (tw_shared w)) h l;
  si_dom : dom (sh_store (tw_shared w)) ⊆ tw_used w;
  si_lock : lock_inv (tw_shared w) (tw_threads w);
  si_objects : object_inv h (tw_threads w) (tw_used w) (tw_alive w) (tw_gone w);
  si_thread t pc : tw_threads w !! t = Some pc → thread_ok (tw_shared w) l (tw_calls w) pc;
  si_linked cb : cb ∈ tw_alive w → st_linked (tw_shared w) l cb;
  si_gone cb : cb ∈ tw_gone w → cb ∉ l;
  si_nodup : NoDup (tw_calls w);
  si_called cb : st_served (tw_calls w) cb →
    cb ∈ tw_used w ∧ st_stop_requested (sh_state (tw_shared w)) = true;
  si_stop cb : CalledByStop cb ∈ tw_calls w → cb ∈ l →
    ∃ t, tw_threads w !! t = Some (CallCalling cb);
  si_popped cb : cb ∈ tw_alive w → cb ∉ l → st_served (tw_calls w) cb;
  si_pending cb : st_stop_requested (sh_state (tw_shared w)) = true → cb ∈ l →
    st_served (tw_calls w) cb ∨
    ∃ t pc, tw_threads w !! t = Some pc ∧ (stopping pc = true ∨ pc = InsertTest cb);
}.

Definition st_inv (w : st_world) : Prop := ∃ h l, st_inv_at w h l.

Lemma st_init_inv σ h n : q_repr σ h [] → st_inv (st_init σ h n).
Proof.
  intros Hl. exists h, []. split; simpl; try done; try (by intros ? ?%not_elem_of_empty);
    try (by intros ? ?%elem_of_nil); try (by apply NoDup_nil_2).
  - split; [|intros t1 t2 pc1 pc2 H1 _ Hi _|done].
    + by intros t pc [-> _]%lookup_replicate.
    + by apply lookup_replicate in H1 as [-> _].
  - split; try (by intros ? ?%not_elem_of_empty).
    + by intros t pc cb [-> _]%lookup_replicate.
    + by intros t1 t2 pc1 pc2 cb [-> _]%lookup_replicate.
  - by intros t pc [-> _]%lookup_replicate.
Qed.

(** *** A thread starts something *)
Lemma st_served_app c cs z : st_served (c ++ cs) z ↔ st_served c z ∨ st_served cs z.
Proof. unfold st_served. by rewrite fmap_app, elem_of_app. Qed.

Lemma effect_same h o s l calls s' cs :
  q_repr (sh_store s) h l → sh_store s' = sh_store s →
  (st_stop_requested (sh_state s) = true → st_stop_requested (sh_state s') = true) →
  (∀ z, st_served cs z → z ∈ l) →
  st_effect h o s l calls s' l (calls ++ cs).
Proof.
  intros Hl Hs Hr Hc. split; rewrite ?Hs; auto.
  - intros z _ _. unfold st_linked. by rewrite Hs.
  - intros z [?|?%Hc]%st_served_app; auto.
  - intros z ?. apply st_served_app. by left.
  - done.
Qed.

Lemma effect_none h o s l calls : q_repr (sh_store s) h l → st_effect h o s l calls s l calls.
Proof.
  intros Hl. rewrite <-(app_nil_r calls) at 2. apply effect_same; auto. by intros z ?%elem_of_nil.
Qed.

(** The calls and the list unchanged, a thread without work gets some. *)
Lemma start_inv w h l t pc' s' U' A' o :
  st_inv_at w h l → tw_threads w !! t = Some StIdle →
  st_effect h o (tw_shared w) l (tw_calls w) s' l (tw_calls w) →
  sh_state s' = sh_state (tw_shared w) → in_lock pc' = false →
  dom (sh_store s') ⊆ U' → tw_used w ⊆ U' → A' ⊆ tw_alive w → (∀ z, o = Some z → z ∉ tw_used w) →
  (∀ z, pc_object pc' = Some z → z ∈ U' ∧ z ∉ A' ∧ z ∉ tw_gone w ∧ z ≠ h ∧
     ∀ t2 pc2, t2 ≠ t → tw_threads w !! t2 = Some pc2 → pc_object pc2 ≠ Some z) →
  thread_ok s' l (tw_calls w) pc' →
  st_inv_at (StWorld s' (<[t := pc']> (tw_threads w)) U' A' (tw_gone w) (tw_calls w)) h l.
Proof.
  destruct w as [s P U A G c]; simpl.
  intros [Hh Hl Hd Hlk Hob Hth Hln Hg Hnd Hca Hst Hpo Hpe] Ht Hef Hs Hnl Hd' HU HA Ho Hpc Hok.
  assert (Hkeep : ∀ t2 pc2, P !! t2 = Some pc2 → pc2 ≠ StIdle → <[t := pc']> P !! t2 = Some pc2).
  { intros t2 pc2 H2 Hne. rewrite list_lookup_insert_ne; [done|]. intros <-. simplify_eq. }
  split; simpl; rewrite ?Hs; auto.
  - by destruct Hef.
  - apply (lock_inv_step s P t StIdle); [done..|]. by apply lock_same; rewrite ?Hs.
  - apply (object_inv_step h P U A G t StIdle); auto; destruct Hob; set_solver.
  - intros t2 pc2 [[-> ->]|[Hne H2]]%(insert_threads _ _ _ _ _ _ Ht); [done|].
    eapply thread_ok_other; [done|by right| |by eapply Hth].
    intros z Hz. destruct Hob as [Hos _ _ _]. destruct (Hos _ _ _ H2 Hz) as (?&?&?&?).
    split; [done|]. by intros ?%Ho.
  - intros cb Hcb%HA. destruct Hob as [_ _ Hoa _]. destruct (Hoa cb Hcb) as (?&?&?).
    apply (ef_linked _ _ _ _ _ _ _ _ Hef); [done| |by apply Hln]. by intros ?%Ho.
  - intros cb [? ?]%Hca. split; [set_solver|done].
  - intros cb Hc Hcb. destruct (Hst cb Hc Hcb) as [t2 H2]. exists t2. by apply Hkeep.
  - intros cb Hr Hcb. destruct (Hpe cb Hr Hcb) as [?|(t2 & pc2 & H2 & Hp)]; [by left|right].
    exists t2, pc2. split; [apply Hkeep; [done|]|done]. intros ->. by destruct Hp.
Qed.

(** *** The operations on the list *)
Lemma detached_after σ σ' h l (l' : list loc) z :
  (∀ y, y ∉ h :: l → σ' !! y = σ !! y) → z ≠ h → z ∉ l → q_detached σ z → z ∈ l' ∨ q_detached σ' z.
Proof. intros Hfr Hh Hl Hd. right. eapply q_detached_frame; [apply Hfr; set_solver|done]. Qed.

Lemma effect_push h s l c cb :
  q_repr (sh_store s) h l → cb ∈ dom (sh_store s) → cb ≠ h → cb ∉ l →
  ∃ σ, q_push_back (sh_store s) h cb = Some σ ∧ dom σ = dom (sh_store s) ∧
    st_effect h (Some cb) s l c (st_set_list σ s) (l ++ [cb]) c.
Proof.
  intros Hl Hd Hh Hn. destruct (q_push_back_spec _ _ _ cb Hl) as (σ & -> & Hl' & Hdom & Hfr);
    [done|set_solver|]. exists σ. split_and!; [done..|].
  split; simpl; auto.
  - intros z Hz Ho [Hin|Hdet]; [by left; apply elem_of_app; left|].
    destruct (decide (z ∈ l)); [by left; apply elem_of_app; left|].
    eapply (detached_after (sh_store s)); [exact Hfr|done| |done].
    rewrite not_elem_of_cons. naive_solver.
  - intros z [?| ->%list_elem_of_singleton]%elem_of_app; auto.
  - intros z Hz Hnz. destruct Hnz. by apply elem_of_app; left.
  - by rewrite Hdom.
  - rewrite Hdom. auto.
Qed.

Lemma effect_pop h s l c x :
  q_repr (sh_store s) h (x :: l) → st_served c x →
  ∃ σ, q_pop_front (sh_store s) h = Some σ ∧ dom σ = dom (sh_store s) ∧
    st_effect h None s (x :: l) c (st_set_list σ s) l c.
Proof.
  intros Hl Hx. destruct (q_pop_front_spec _ _ _ _ Hl) as (σ & -> & Hl' & Hdet & Hdom & Hfr).
  exists σ. split_and!; [done..|]. split; simpl; auto; rewrite ?Hdom; auto.
  - intros z Hz _ [[->|Hin]%elem_of_cons|Hd]; [by right|by left|].
    destruct (decide (z = x)) as [->|]; [by right|]. destruct (decide (z ∈ l)); [by left|].
    eapply (detached_after (sh_store s)); [exact Hfr|done| |done]. by apply not_elem_of_cons.
  - intros z ?. left. by apply elem_of_cons; right.
  - intros z [->|]%elem_of_cons; [by right|done].
Qed.

Lemma effect_erase h s l c x :
  q_repr (sh_store s) h l → x ≠ h → st_linked s l x →
  ∃ σ, q_erase (sh_store s) x = Some σ ∧ dom σ = dom (sh_store s) ∧
    st_effect h (Some x) s l c (st_set_list σ s) (filter (.≠ x) l) c.
Proof.
  intros Hl Hxh Hx. pose proof (q_repr_nodup _ _ _ Hl) as [_ Hnd]%NoDup_cons.
  destruct (decide (x ∈ l)) as [Hin|Hnin].
  - destruct (filter_ne_nodup l x Hnd Hin) as (l1 & l2 & -> & Hf). rewrite Hf.
    destruct (q_erase_spec _ _ _ _ _ Hl) as (σ & -> & Hl' & Hdet & Hdom & Hfr).
    exists σ. split_and!; [done..|].
    assert (Hperm : ∀ z, z ∈ l1 ++ x :: l2 ↔ z ∈ l1 ++ l2 ∨ z = x).
    { intros z. rewrite !elem_of_app, elem_of_cons. tauto. }
    split; simpl; auto; rewrite ?Hdom; auto.
    + intros z Hz Ho [[?|?]%Hperm|Hd]; [by left|congruence|].
      destruct (decide (z ∈ l1 ++ l2)) as [|Hn]; [by left|].
      eapply (detached_after (sh_store s)); [exact Hfr|done| |done]. rewrite Hperm. naive_solver.
    + intros z ?. left. apply Hperm. by left.
    + intros z [?| ->]%Hperm ?; [done|by left].
  - destruct Hx as [?|Hdet]; [done|]. exists (sh_store s). split_and!; [by apply q_erase_detached|done|].
    assert (filter (.≠ x) l = l) as -> by (apply filter_all, Forall_forall; by intros y Hy ->).
    split; simpl; auto; done.
Qed.

(** *** The code *)

(** What one step of a thread [t] at [pc] does. *)
Record code_ok (h : loc) (s : st_shared) (l : list loc) (c : list st_call) (pc : st_pc)
    (s' : st_shared) (l' : list loc) (cs : list st_call) (pc' : st_pc) : Prop := CodeOk {
  co_head : st_list (sh_state s') = h;
  co_dom : dom (sh_store s') = dom (sh_store s);
  co_effect : st_effect h (pc_object pc) s l c s' l' (c ++ cs);
  co_thread : thread_ok s' l' (c ++ cs) pc';
  co_lock : lock_change s pc s' pc';
  co_object : pc_object pc' = pc_object pc ∨ pc_object pc' = None;
  co_quiet : in_lock pc = true ∨ l' = l ∧ cs = [];
  co_fresh : NoDup (c ++ cs);
  co_called cb : st_served cs cb → cb ∈ l ∧ st_stop_requested (sh_state s') = true;
  co_linked cb : cb ∈ l' → cb ∉ l → pc' = InsertTest cb ∧ ¬ st_served c cb;
  co_stop cb : CalledByStop cb ∈ cs → pc' = CallCalling cb;
  co_requested : st_stop_requested (sh_state s') = true →
    st_stop_requested (sh_state s) = true ∨ stopping pc' = true;
  co_stopping : stopping pc = true → stopping pc' = true ∨ l' = [];
  co_calling cb : pc = CallCalling cb → cb ∉ l';
  co_test cb : pc = InsertTest cb → st_stop_requested (sh_state s) = true → st_served (c ++ cs) cb;
  co_release cb : pc = InsertRelease cb ∨ pc = EraseRelease cb → l' = l ∧ pc' = StIdle;
  co_rank : pc' = pc ∨ st_rank pc' + 2 * length l' < st_rank pc + 2 * length l;
}.

(** The list and the executions stay as they are. *)
Lemma code_ok_same h s l c pc s' pc' :
  q_repr (sh_store s) h l → NoDup c → st_list (sh_state s') = h → sh_store s' = sh_store s →
  st_stop_requested (sh_state s') = st_stop_requested (sh_state s) ∨
    st_stop_requested (sh_state s') = true ∧ stopping pc' = true →
  thread_ok s' l c pc' → lock_change s pc s' pc' → pc_object pc' = pc_object pc ∨ pc_object pc' = None →
  (stopping pc = true → stopping pc' = true ∨ l = []) → (∀ cb, pc ≠ CallCalling cb) →
  (∀ cb, pc = InsertTest cb → st_stop_requested (sh_state s) = true → st_served c cb) →
  (∀ cb, pc = InsertRelease cb ∨ pc = EraseRelease cb → pc' = StIdle) →
  pc' = pc ∨ st_rank pc' < st_rank pc →
  code_ok h s l c pc s' l [] pc'.
Proof.
  intros Hl Hnd Hh Hs Hr Hok Hlk Ho Hst Hnc Hte Hre Hrk.
  split; rewrite ?app_nil_r; auto; try (by intros cb ?%elem_of_nil).
  - by rewrite Hs.
  - rewrite <-(app_nil_r c) at 2. apply effect_same; [done..| |by intros z ?%elem_of_nil].
    intros. destruct Hr as [->|[-> _]]; done.
  - by intros cb ??.
  - intros Hr'. destruct Hr as [<-|[_ ?]]; auto.
  - intros cb ->. by destruct (Hnc cb).
  - intros cb ?. split; [done|by apply (Hre cb)].
  - destruct Hrk; [by left|right; lia].
Qed.

(** Taking the lock, or spinning. *)
Lemma code_ok_spin h s l c pc next s' pc' :
  q_repr (sh_store s) h l → NoDup c → st_list (sh_state s) = h →
  spin pc next s = (s', pc', []) → in_lock pc = false → in_lock next = true →
  pc_object next = pc_object pc → stopping pc = stopping next →
  thread_ok s l c pc → thread_ok s l c next → st_rank next < st_rank pc →
  code_ok h s l c pc s' l [] pc'.
Proof.
  intros Hl Hnd Hh Hspin Hp Hn Ho Hst Hok Hok' Hrk. unfold spin in Hspin. injection Hspin as <- <-.
  destruct (st_busy (sh_state s)) eqn:Hb.
  - assert (set_busy true s = s) as -> by (destruct s as [[???]?]; simpl in *; by rewrite Hb).
    apply code_ok_same; auto; [by apply lock_same|by intros ? ->|by intros ? ->|by intros ? [->| ->]].
  - apply code_ok_same; auto.
    + by apply lock_acquired.
    + rewrite Hst. auto.
    + by intros ? ->.
    + by intros ? ->.
    + by intros ? [->| ->].
Qed.

(** Releasing it. *)
Lemma code_ok_release h s l c pc :
  q_repr (sh_store s) h l → NoDup c → st_list (sh_state s) = h → in_lock pc = true →
  (stopping pc = false) → (∀ cb, pc ≠ InsertTest cb) → 0 < st_rank pc →
  code_ok h s l c pc (set_busy false s) l [] StIdle.
Proof.
  intros Hl Hnd Hh Hp Hst Hnt Hrk. apply code_ok_same; auto.
  - done.
  - by apply lock_released.
  - rewrite Hst. done.
  - by intros cb ->.
  - intros cb ->. by destruct (Hnt cb).
Qed.

(** What is left of a step whose parts are evident. *)
Ltac code_case := auto; try done; try (by intros ? [?|?]); try (simpl; lia); try (right; rewrite ?length_app; simpl; lia).

Lemma code_ok_insert h s l c pc s' pc' cs :
  q_repr (sh_store s) h l → NoDup c → st_list (sh_state s) = h →
  st_insert_step Q s pc = Some (s', pc', cs) → thread_ok s l c pc →
  (∀ cb, pc_object pc = Some cb → cb ≠ h) → ∃ l', code_ok h s l c pc s' l' cs pc'.
Proof.
  intros Hl Hnd Hh Hstep Hok Ho. destruct pc as [|cb|cb|cb|cb|cb|cb|cb|cb| | | |cb| ]; simpl in *; try done.
  - injection Hstep as Hs Hpc Hcs. subst cs. exists l.
    apply (code_ok_spin h s l c (InsertExchange cb) (InsertLink cb)); code_case. by rewrite <-Hs, <-Hpc.
  - destruct Hok as (Hn & Hsv & Hd). rewrite Hh in Hstep.
    destruct (effect_push h s l c cb Hl Hd) as (σ & Hpush & Hdom & Hef); [by apply Ho|done|].
    rewrite Hpush in Hstep. simplify_eq/=. exists (l ++ [cb]).
    split; simpl; rewrite ?app_nil_r; code_case; try (by intros z ?%elem_of_nil).
    + split; [|done]. apply elem_of_app. right. by apply list_elem_of_singleton.
    + by apply lock_same.
    + intros z [?| ->%list_elem_of_singleton]%elem_of_app ?; done.
  - destruct Hok as [Hin Hsv]. injection Hstep as Hstep. exists l.
    destruct (st_stop_requested (sh_state s)) eqn:Hr; simplify_eq/=.
    + split; simpl; code_case.
      * apply effect_same; [done..|]. by intros z ->%list_elem_of_singleton.
      * by apply lock_same.
      * apply NoDup_app. split_and!; [done| |apply NoDup_singleton].
        intros x Hx ->%list_elem_of_singleton. apply Hsv, list_elem_of_fmap. by exists (CalledByInsert cb).
      * by intros z ->%list_elem_of_singleton.
      * by intros z ?%list_elem_of_singleton.
      * intros z [= ->] _. apply st_served_app. right. by apply list_elem_of_singleton.
    + apply code_ok_same; code_case; [by apply lock_same|]. congruence.
  - simplify_eq. exists l. apply code_ok_same; code_case. by apply lock_same.
  - simplify_eq. exists l. apply code_ok_release; code_case.
Qed.

Lemma code_ok_erase h s l c pc s' pc' cs :
  q_repr (sh_store s) h l → NoDup c → st_list (sh_state s) = h →
  st_erase_step Q s pc = Some (s', pc', cs) → thread_ok s l c pc →
  (∀ cb, pc_object pc = Some cb → cb ≠ h) → ∃ l', code_ok h s l c pc s' l' cs pc'.
Proof.
  intros Hl Hnd Hh Hstep Hok Ho. destruct pc as [|cb|cb|cb|cb|cb|cb|cb|cb| | | |cb| ]; simpl in *; try done.
  - injection Hstep as Hs Hpc Hcs. subst cs. exists l.
    apply (code_ok_spin h s l c (EraseExchange cb) (EraseUnlink cb)); code_case. by rewrite <-Hs, <-Hpc.
  - destruct (effect_erase h s l c cb Hl) as (σ & He & Hdom & Hef); [by apply Ho|done|].
    rewrite He in Hstep. simplify_eq/=. exists (filter (.≠ cb) l).
    split; simpl; rewrite ?app_nil_r; code_case; try (by intros z ?%elem_of_nil).
    + by intros [? _]%list_elem_of_filter.
    + by apply lock_same.
    + by intros z [_ ?]%list_elem_of_filter ?.
    + right. simpl. pose proof (length_filter (.≠ cb) l). lia.
  - simplify_eq. exists l. apply code_ok_release; code_case.
Qed.

Lemma code_ok_stop h s l c pc s' pc' cs :
  q_repr (sh_store s) h l → NoDup c → st_list (sh_state s) = h →
  st_stop_step Q s pc = Some (s', pc', cs) → thread_ok s l c pc →
  (∀ cb, pc = CallTest → CalledByStop cb ∈ c → cb ∉ l) → ∃ l', code_ok h s l c pc s' l' cs pc'.
Proof.
  intros Hl Hnd Hh Hstep Hok Ho. destruct pc as [|cb|cb|cb|cb|cb|cb|cb|cb| | | |cb| ]; simpl in *; try done.
  - injection Hstep as <- <- <-. exists l. destruct (st_stop_requested (sh_state s)) eqn:Hr;
      (apply code_ok_same; simpl; code_case; by apply lock_same).
  - injection Hstep as Hs Hpc Hcs. subst cs. exists l.
    apply (code_ok_spin h s l c CallExchange CallTest); code_case. by rewrite <-Hs, <-Hpc.
  - rewrite Hh, (q_empty_spec _ _ _ Hl) in Hstep. destruct l as [|x l]; simplify_eq/=.
    { exists []. apply code_ok_same; code_case. by apply lock_same. }
    rewrite (q_front_spec _ _ _ _ Hl) in Hstep. simplify_eq/=. exists (x :: l).
    assert (Hx : x ∈ x :: l) by (by apply elem_of_cons; left).
    split; simpl; code_case.
    + apply effect_same; [done..|]. by intros z ->%list_elem_of_singleton.
    + split_and!; [done..|]. apply elem_of_app. right. by apply list_elem_of_singleton.
    + by apply lock_same.
    + apply NoDup_app. split_and!; [done| |apply NoDup_singleton].
      intros y Hy ->%list_elem_of_singleton. by apply (Ho x).
    + by intros z ->%list_elem_of_singleton.
    + by intros z [= ->]%list_elem_of_singleton.
  - destruct Hok as (Hr & Hhd & Hc). destruct l as [|x l]; simplify_eq/=.
    destruct (effect_pop (st_list (sh_state s)) s l c cb Hl) as (σ & He & Hdom & Hef).
    { apply list_elem_of_fmap. by exists (CalledByStop cb). }
    pose proof (q_repr_nodup _ _ _ Hl) as [_ [Hcl _]%NoDup_cons]%NoDup_cons.
    rewrite He in Hstep. simplify_eq/=. exists l.
    split; simpl; rewrite ?app_nil_r; code_case; try (by intros z ?%elem_of_nil).
    + by apply lock_same.
    + intros z ? Hn. destruct Hn. by apply elem_of_cons; right.
    + by intros z [= ->].
  - simplify_eq. exists l. apply code_ok_release; code_case.
Qed.

Lemma code_step_ok w h l t pc s' pc' cs :
  st_inv_at w h l → tw_threads w !! t = Some pc →
  st_code_step Q (tw_shared w) pc = Some (s', pc', cs) →
  ∃ l', code_ok h (tw_shared w) l (tw_calls w) pc s' l' cs pc'.
Proof.
  intros Hinv Ht Hstep.
  assert (Ho : ∀ cb, pc_object pc = Some cb → cb ≠ h).
  { intros cb Hcb. by destruct (ob_state _ _ _ _ _ (si_objects _ _ _ Hinv) _ _ _ Ht Hcb) as (?&?&?&?). }
  pose proof (si_thread _ _ _ Hinv _ _ Ht) as Hok. destruct Hinv.
  destruct pc; simpl in Hstep; [done|..];
    solve [by eapply code_ok_insert|by eapply code_ok_erase|eapply code_ok_stop; try done; intros cb E Hc Hcb;
      destruct (si_stop0 cb Hc Hcb) as [t2 H2]; pose proof (lk_unique _ _ si_lock0 _ _ _ _ Ht H2); simplify_eq;
      naive_solver].
Qed.

(** No step of the code is undefined. *)
Lemma code_step_total w h l t pc :
  st_inv_at w h l → tw_threads w !! t = Some pc → pc ≠ StIdle →
  is_Some (st_code_step Q (tw_shared w) pc).
Proof.
  intros Hinv Ht Hne. pose proof (si_thread _ _ _ Hinv _ _ Ht) as Hok.
  assert (Ho : ∀ cb, pc_object pc = Some cb → cb ≠ h).
  { intros cb Hcb. by destruct (ob_state _ _ _ _ _ (si_objects _ _ _ Hinv) _ _ _ Ht Hcb) as (?&?&?&?). }
  destruct Hinv as [Hh Hl _ _ _ _ _ _ _ _ _ _ _]. set (s := tw_shared w) in *.
  destruct pc as [|cb|cb|cb|cb|cb|cb|cb|cb| | | |cb| ]; simpl in *; try done; try by eexists.
  - destruct Hok as (Hn & _ & Hd). destruct (effect_push h s l [] cb Hl Hd) as (σ & He & _); auto.
    rewrite Hh, He. by eexists.
  - destruct (effect_erase h s l [] cb Hl) as (σ & He & _); auto. rewrite He. by eexists.
  - rewrite Hh, (q_empty_spec _ _ _ Hl). destruct l as [|x l]; simpl; [by eexists|].
    rewrite (q_front_spec _ _ _ _ Hl). by eexists.
  - destruct Hok as (_ & Hhd & _). destruct l as [|x l]; [done|]. rewrite Hh.
    destruct (q_pop_front_spec _ _ _ _ Hl) as (σ & He & _). rewrite He. by eexists.
Qed.

(** The invariant after a step, one part after the other. *)
Section code_inv.
Context (s : st_shared) (P : list st_pc) (U A G : gset loc) (c : list st_call) (h : loc) (l : list loc).
Context (t : nat) (pc : st_pc) (s' : st_shared) (l' : list loc) (pc' : st_pc) (cs : list st_call).
Hypothesis Hinv : st_inv_at (StWorld s P U A G c) h l.
Hypothesis Ht : P !! t = Some pc.
Hypothesis Hcode : code_ok h s l c pc s' l' cs pc'.

Lemma code_keep t2 pc2 : t2 ≠ t → P !! t2 = Some pc2 → <[t := pc']> P !! t2 = Some pc2.
Proof. intros Hne H2. by rewrite list_lookup_insert_ne. Qed.

Lemma code_me : <[t := pc']> P !! t = Some pc'.
Proof. apply list_lookup_insert_eq. by eapply lookup_lt_Some. Qed.

Lemma code_own z t2 pc2 :
  P !! t2 = Some pc2 → pc_object pc2 = Some z → z ∈ U ∧ z ∉ A ∧ z ∉ G ∧ z ≠ h.
Proof. apply (ob_state _ _ _ _ _ (si_objects _ _ _ Hinv)). Qed.

Lemma code_objects : object_inv h (<[t := pc']> P) U A G.
Proof.
  pose proof (si_objects _ _ _ Hinv) as Hob. simpl in Hob.
  apply (object_inv_step h P U A G t pc); auto; [|intros z ?; by apply (ob_alive _ _ _ _ _ Hob)].
  intros z Hz. assert (pc_object pc = Some z) as Hpc by (destruct (co_object _ _ _ _ _ _ _ _ _ Hcode); congruence).
  destruct (code_own z t pc Ht Hpc) as (?&?&?&?). split_and!; try done.
  intros t2 pc2 Hne Ht2 Hz2. by apply Hne, (ob_unique _ _ _ _ _ Hob t2 t pc2 pc z).
Qed.

Lemma code_threads t2 pc2 : <[t := pc']> P !! t2 = Some pc2 → thread_ok s' l' (c ++ cs) pc2.
Proof.
  intros [[-> ->]|[Hne H2]]%(insert_threads _ _ _ _ _ _ Ht); [by destruct Hcode|].
  eapply thread_ok_other; [by eapply co_effect| | |by apply (si_thread _ _ _ Hinv t2)].
  - destruct (co_quiet _ _ _ _ _ _ _ _ _ Hcode) as [Hq|[-> ->]]; [left|right; by rewrite app_nil_r].
    destruct (in_lock pc2) eqn:Hi; [|done]. destruct Hne.
    by eapply (lk_unique _ _ (si_lock _ _ _ Hinv)).
  - intros z Hz. split; [by destruct (code_own z t2 pc2 H2 Hz) as (?&?&?&?)|].
    intros Hz2. by apply Hne, (ob_unique _ _ _ _ _ (si_objects _ _ _ Hinv) t2 t pc2 pc z).
Qed.

Lemma code_stopped cb :
  CalledByStop cb ∈ c ++ cs → cb ∈ l' → ∃ t2, <[t := pc']> P !! t2 = Some (CallCalling cb).
Proof.
  intros [Hc|Hc]%elem_of_app Hin.
  2:{ exists t. rewrite code_me. f_equal. by eapply co_stop. }
  destruct (decide (cb ∈ l)) as [Hl0|Hn0].
  - destruct (si_stop _ _ _ Hinv cb Hc Hl0) as [t2 Ht2]. exists t2. apply code_keep; [|done]. intros E.
    simpl in Ht2. rewrite E, Ht in Ht2. injection Ht2 as E2.
    by apply (co_calling _ _ _ _ _ _ _ _ _ Hcode cb E2).
  - destruct (co_linked _ _ _ _ _ _ _ _ _ Hcode cb Hin Hn0) as [_ []].
    apply list_elem_of_fmap. by exists (CalledByStop cb).
Qed.

Lemma code_pending cb :
  st_stop_requested (sh_state s') = true → cb ∈ l' →
  st_served (c ++ cs) cb ∨
  ∃ t2 pc2, <[t := pc']> P !! t2 = Some pc2 ∧ (stopping pc2 = true ∨ pc2 = InsertTest cb).
Proof.
  intros Hr Hin. pose proof code_me as Hme. destruct (decide (cb ∈ l)) as [Hl0|Hn0].
  2:{ right. exists t, pc'. split; [done|]. right. by eapply co_linked. }
  destruct (co_requested _ _ _ _ _ _ _ _ _ Hcode Hr) as [Hr0|Hsp]; [|right; exists t, pc'; auto].
  destruct (si_pending _ _ _ Hinv cb Hr0 Hl0) as [?|(t2 & pc2 & H2 & Hp)];
    [left; apply st_served_app; by left|].
  destruct (decide (t2 = t)) as [->|Hne]; [|right; exists t2, pc2; split; [by apply code_keep|done]].
  simpl in H2. rewrite Ht in H2. injection H2 as <-. destruct Hp as [Hp| ->].
  - apply (co_stopping _ _ _ _ _ _ _ _ _ Hcode) in Hp as [?| ->]; [right; exists t, pc'; auto|].
    by apply elem_of_nil in Hin.
  - left. by apply (co_test _ _ _ _ _ _ _ _ _ Hcode).
Qed.

Lemma code_inv : st_inv_at (StWorld s' (<[t := pc']> P) U A G (c ++ cs)) h l'.
Proof.
  pose proof code_own as Hos. pose proof (co_effect _ _ _ _ _ _ _ _ _ Hcode) as Hef.
  split; simpl; try exact code_objects; try exact code_threads; try exact code_stopped;
    try exact code_pending.
  - by destruct Hcode.
  - by destruct Hef.
  - rewrite (co_dom _ _ _ _ _ _ _ _ _ Hcode). by destruct Hinv.
  - eapply lock_inv_step; [by destruct Hinv|done|by destruct Hcode].
  - intros cb Hcb. apply (ef_linked _ _ _ _ _ _ _ _ Hef).
    + by apply (ob_alive _ _ _ _ _ (si_objects _ _ _ Hinv)).
    + intros Hpc. by destruct (Hos _ _ _ Ht Hpc) as (?&?&?&?).
    + by apply (si_linked _ _ _ Hinv).
  - intros cb Hcb [Hin|Hpc]%(ef_in _ _ _ _ _ _ _ _ Hef); [by apply (si_gone _ _ _ Hinv cb)|].
    by destruct (Hos _ _ _ Ht Hpc) as (?&?&?&?).
  - by destruct Hcode.
  - intros cb [[??]%(si_called _ _ _ Hinv)|[Hc ?]%(co_called _ _ _ _ _ _ _ _ _ Hcode)]%st_served_app;
      split; auto; [by apply (ef_requested _ _ _ _ _ _ _ _ Hef)|].
    apply (si_dom _ _ _ Hinv). pose proof (q_repr_dom _ _ _ (si_list _ _ _ Hinv)) as [_ Hall]%Forall_cons.
    by rewrite Forall_forall in Hall; apply Hall.
  - intros cb Hcb Hn. destruct (decide (cb ∈ l)) as [Hin|Hn0].
    + destruct (ef_popped _ _ _ _ _ _ _ _ Hef cb Hin Hn) as [Hpc|]; [|done].
      by destruct (Hos _ _ _ Ht Hpc) as (?&?&?&?).
    + apply st_served_app. left. by apply (si_popped _ _ _ Hinv).
Qed.
End code_inv.

(** *** The constructor and the destructor return *)
Definition unowned (cb : loc) (w : st_world) (h : loc) : Prop :=
  cb ∈ tw_used w ∧ cb ∉ tw_alive w ∧ cb ∉ tw_gone w ∧ cb ≠ h ∧
  ∀ t pc, tw_threads w !! t = Some pc → pc_object pc ≠ Some cb.

Lemma constructed_inv w h l cb :
  st_inv_at w h l → unowned cb w h → cb ∈ l → st_inv_at (st_return (InsertRelease cb) w) h l.
Proof.
  destruct w as [s P U A G c]. intros Hinv (HU & HA & HG & Hh & Hfree) Hok.
  destruct Hinv as [Hhd Hl Hd Hlk [Hos Hou Hoa Hog] Hth Hln Hg Hnd Hca Hst Hpo Hpe]; simpl in *.
  split; simpl; auto; [split; auto| |].
  - intros t2 pc2 z H2 Hz. destruct (Hos t2 pc2 z H2 Hz) as (?&?&?&?). split_and!; try done.
    intros [->%elem_of_singleton|?]%elem_of_union; [by apply (Hfree t2 pc2)|done].
  - intros z [->%elem_of_singleton|?]%elem_of_union; auto.
  - intros z [->%elem_of_singleton|?]%elem_of_union; [by left|by apply Hln].
  - intros z [->%elem_of_singleton|?]%elem_of_union ?; [done|by apply Hpo].
Qed.

(** Releasing the storage of an object which is not on the list. *)
Lemma effect_delete h s l c cb :
  q_repr (sh_store s) h l → cb ≠ h → cb ∉ l →
  st_effect h (Some cb) s l c (st_set_list (delete cb (sh_store s)) s) l c.
Proof.
  intros Hl Hh Hok.
  assert (Hfr : ∀ z, z ≠ cb → delete cb (sh_store s) !! z = sh_store s !! z)
    by (intros; by rewrite lookup_delete_ne).
  split; simpl; auto; try done.
  - eapply q_repr_frame; [|done]. intros y Hy. apply Hfr. set_solver.
  - intros z _ Hz [?|Hdt]; [by left|right]. eapply q_detached_frame; [apply Hfr; congruence|done].
  - intros z Hz ?. rewrite dom_delete. set_solver.
  - intros z. rewrite dom_delete. set_solver.
Qed.

Lemma destroyed_inv w h l cb :
  st_inv_at w h l → unowned cb w h → cb ∉ l → st_inv_at (st_return (EraseRelease cb) w) h l.
Proof.
  destruct w as [s P U A G c]. intros Hinv (HU & HA & HG & Hh & Hfree) Hok.
  destruct Hinv as [Hhd Hl Hd Hlk [Hos Hou Hoa Hog] Hth Hln Hg Hnd Hca Hst Hpo Hpe]; simpl in *.
  pose proof (effect_delete h s l c cb Hl Hh Hok) as Hef.
  split; simpl; auto.
  - by destruct Hef.
  - rewrite dom_delete. set_solver.
  - by destruct Hlk; split.
  - split; auto.
    + intros t2 pc2 z H2 Hz. destruct (Hos t2 pc2 z H2 Hz) as (?&?&?&?). split_and!; try done.
      intros [->%elem_of_singleton|?]%elem_of_union; [by apply (Hfree t2 pc2)|done].
    + intros z Hz. destruct (Hoa z Hz) as (?&?&?). split_and!; try done. set_solver.
    + intros z [->%elem_of_singleton|?]%elem_of_union; auto.
  - intros t2 pc2 H2. eapply thread_ok_other; [exact Hef|by right| |by eapply Hth].
    intros z Hz. destruct (Hos t2 pc2 z H2 Hz) as (?&?&?&?). split; [done|].
    intros [= ->]. by apply (Hfree t2 pc2).
  - intros z Hz. destruct (Hoa z Hz) as (?&?&?).
    apply (ef_linked _ _ _ _ _ _ _ _ Hef); [done| |by apply Hln]. congruence.
  - intros z [->%elem_of_singleton|?]%elem_of_union; [done|by apply Hg].
Qed.

(** ** Every step keeps the invariant *)
Lemma unowned_return w h l t pc s' pc' cs :
  st_inv_at w h l → tw_threads w !! t = Some pc → pc_object pc' = None →
  ∀ cb, pc_object pc = Some cb →
  unowned cb (StWorld s' (<[t := pc']> (tw_threads w)) (tw_used w) (tw_alive w) (tw_gone w) cs) h.
Proof.
  intros Hinv Ht Hnone cb Hcb. destruct (si_objects _ _ _ Hinv) as [Hos Hou _ _].
  destruct (Hos t pc cb Ht Hcb) as (?&?&?&?). split_and!; try done. simpl.
  intros t2 pc2 [[-> ->]|[Hne Ht2]]%(insert_threads _ _ _ _ _ _ Ht); [congruence|].
  intros Ht2o. by apply Hne, (Hou t2 t pc2 pc cb).
Qed.

(** The steps left. *)
Definition st_measure (w : st_world) (l : list loc) : nat :=
  sum_list_with st_rank (tw_threads w) + 2 * length l.

Lemma return_threads pc w : tw_threads (st_return pc w) = tw_threads w.
Proof. by destruct w, pc. Qed.
Lemma return_used pc w : tw_used (st_return pc w) = tw_used w.
Proof. by destruct w, pc. Qed.

Lemma run_thread_inv w t pc w' :
  st_run_thread Q w t pc = Some w' → ∃ s' pc' cs, st_code_step Q (tw_shared w) pc = Some (s', pc', cs) ∧
  w' = st_return pc (StWorld s' (<[t := pc']> (tw_threads w)) (tw_used w) (tw_alive w) (tw_gone w)
                             (tw_calls w ++ cs)).
Proof.
  unfold st_run_thread. destruct (st_code_step _ _ _) as [[[s' pc'] cs]|]; [|done]. intros [= <-]. by do 3 eexists.
Qed.

Lemma run_thread_ok w w' h l t pc :
  st_inv_at w h l → tw_threads w !! t = Some pc → st_run_thread Q w t pc = Some w' →
  ∃ l', st_inv_at w' h l' ∧ tw_used w' = tw_used w ∧
    (tw_threads w' !! t = Some pc ∨ st_measure w' l' < st_measure w l).
Proof.
  intros Hinv Ht (s' & pc' & cs & Hstep & ->)%run_thread_inv. destruct (code_step_ok w h l t pc s' pc' cs Hinv Ht Hstep) as [l' Hcode].
  exists l'. rewrite return_threads, return_used. unfold st_measure. rewrite return_threads.
  split; [|split; [done|]].
  - pose proof (si_thread _ _ _ Hinv _ _ Ht) as Hok. destruct w as [s P U A G c].
    pose proof (code_inv _ _ _ _ _ _ _ _ _ _ _ _ _ _ Hinv Ht Hcode) as Hnew. simpl in *.
    destruct pc as [|cb|cb|cb|cb|cb|cb|cb|cb| | | |cb| ]; try done;
      (destruct (co_release _ _ _ _ _ _ _ _ _ Hcode cb) as [-> ->]; [by auto|]).
    + refine (constructed_inv _ _ _ cb Hnew _ Hok). by eapply (unowned_return (StWorld s P U A G c)).
    + refine (destroyed_inv _ _ _ cb Hnew _ Hok). by eapply (unowned_return (StWorld s P U A G c)).
  - simpl. destruct (co_rank _ _ _ _ _ _ _ _ _ Hcode) as [-> |Hrk].
    + left. apply list_lookup_insert_eq. by eapply lookup_lt_Some.
    + right. pose proof (sum_list_with_insert st_rank _ _ _ pc' Ht). lia.
Qed.

Lemma construct_inv s P U A G c h l t cb :
  st_inv_at (StWorld s P U A G c) h l → P !! t = Some StIdle → cb ∉ U →
  st_inv_at (StWorld (st_set_list (<[cb := Link 0 0]> (sh_store s)) s) (<[t := InsertExchange cb]> P)
                     ({[cb]} ∪ U) A G c) h l.
Proof.
  intros Hinv Ht Hcb. pose proof (si_list _ _ _ Hinv) as Hl. pose proof (si_dom _ _ _ Hinv) as Hd.
  destruct (si_objects _ _ _ Hinv) as [Hos _ Hoa Hog]; simpl in *.
  pose proof (q_repr_dom _ _ _ Hl) as Hall. rewrite Forall_forall in Hall.
  assert (Hcl : cb ∉ h :: l) by (intros ?%Hall; by apply Hcb, Hd).
  assert (Hch : cb ≠ h) by set_solver.
  apply (start_inv (StWorld s P U A G c) h l t (InsertExchange cb) _ ({[cb]} ∪ U) A (Some cb));
    simpl; auto; try done.
  - split; simpl; auto; try done.
    + eapply q_repr_frame; [|done]. intros y Hy. apply lookup_insert_ne. by intros ->.
    + intros z Hz Ho [?|Hdt]; [by left|right].
      eapply q_detached_frame; [apply lookup_insert_ne; congruence|done].
    + intros z Hz _. rewrite dom_insert. set_solver.
    + intros z. rewrite dom_insert. set_solver.
  - rewrite dom_insert. set_solver.
  - set_solver.
  - by intros z [= ->].
  - intros z [= ->]. split_and!; [set_solver|by intros ?%Hoa; naive_solver|by intros ?%Hog|done|].
    intros t2 pc2 _ H2 Hz. by destruct (Hos t2 pc2 z H2 Hz) as (?&?).
  - split_and!; [set_solver| |rewrite dom_insert; set_solver].
    by intros [? _]%(si_called _ _ _ Hinv).
Qed.

Lemma st_step_inv w w' : st_inv w → st_step Q w w' → st_inv w'.
Proof.
  intros (h & l & Hinv) Hstep.
  destruct Hstep as [s P U A G c t cb Ht Hcb|s P U A G c t cb Ht Hcb|s P U A G c t Ht|w0 t pc w1 Ht Hrun];
    [| | |destruct (run_thread_ok _ _ _ _ _ _ Hinv Ht Hrun) as (l' & ? & _); by exists h, l']; exists h, l; pose proof (si_list _ _ _ Hinv) as Hl;
    pose proof (si_dom _ _ _ Hinv) as Hd; simpl in *.
  - by apply construct_inv.
  - destruct (si_objects _ _ _ Hinv) as [Hos _ Hoa _]. destruct (Hoa cb Hcb) as (?&?&?).
    apply (start_inv (StWorld s P U A G c) h l t (EraseExchange cb) s U (A ∖ {[cb]}) None);
      simpl; auto using effect_none; try done; [set_solver| |by apply (si_linked _ _ _ Hinv)].
    intros z [= ->]. split_and!; [done|set_solver|done|done|].
    intros t2 pc2 _ H2 Hz. by destruct (Hos t2 pc2 z H2 Hz) as (?&?&?).
  - apply (start_inv (StWorld s P U A G c) h l t StopExchange s U A None);
      simpl; auto using effect_none; done.
Qed.

Lemma st_inv_reachable σ h n w :
  q_repr σ h [] → rtc (st_step Q) (st_init σ h n) w → st_inv w.
Proof. intros Hl. apply rtc_invariant; [apply st_step_inv|by apply st_init_inv]. Qed.

Lemma executing_in_lock pc cb : st_executing pc = Some cb → in_lock pc = true.
Proof. by destruct pc. Qed.

Lemma executing_listed w h l t pc cb :
  st_inv_at w h l → tw_threads w !! t = Some pc → st_executing pc = Some cb → cb ∈ l.
Proof.
  intros Hinv Ht Hx. pose proof (si_thread _ _ _ Hinv _ _ Ht) as Hok.
  destruct pc; simplify_eq/=; [done|]. destruct Hok as (_ & Hhd & _). destruct l; simplify_eq/=.
  by apply elem_of_cons; left.
Qed.

(** Once its destructor returned a callback is not executed any more. *)
Lemma gone_step w w' cb :
  st_inv w → cb ∈ tw_gone w → st_step Q w w' →
  cb ∈ tw_gone w' ∧ filter (λ x, call_object x = cb) (tw_calls w') = filter (λ x, call_object x = cb) (tw_calls w).
Proof.
  intros (h & l & Hinv) Hg Hstep.
  destruct Hstep as [s P U A G c t ? Ht|s P U A G c t ? Ht|s P U A G c t Ht|w0 t pc w1 Ht Hrun]; [done..|].
  apply run_thread_inv in Hrun as (s' & pc' & cs & Hstep & ->). destruct (code_step_ok w0 h l t pc s' pc' cs Hinv Ht Hstep) as [l' Hcode].
  assert (Hnone : filter (λ x, call_object x = cb) cs = []).
  { destruct (filter _ cs) as [|x xs] eqn:E; [done|]. exfalso.
    assert (x ∈ filter (λ x, call_object x = cb) cs) as [Hx Hin]%list_elem_of_filter
      by (rewrite E; by apply elem_of_cons; left).
    apply (si_gone _ _ _ Hinv cb Hg). apply (co_called _ _ _ _ _ _ _ _ _ Hcode).
    apply list_elem_of_fmap. by exists x. }
  destruct w0 as [s P U A G c], pc; simpl in *; rewrite filter_app, Hnone, app_nil_r; (split; [set_solver|done]).
Qed.

Lemma gone_forever w w' cb :
  st_inv w → cb ∈ tw_gone w → rtc (st_step Q) w w' →
  filter (λ x, call_object x = cb) (tw_calls w') = filter (λ x, call_object x = cb) (tw_calls w) ∧
  ∀ t pc, tw_threads w' !! t = Some pc → st_executing pc ≠ Some cb.
Proof.
  intros Hinv Hg Hrtc. induction Hrtc as [w|w w1 w2 Hstep _ IH].
  - split; [done|]. intros t pc Ht Hx. destruct Hinv as (h & l & Hinv).
    apply (si_gone _ _ _ Hinv cb Hg). by eapply executing_listed.
  - destruct (gone_step w w1 cb Hinv Hg Hstep) as [Hg1 Heq].
    destruct IH as [-> ?]; [by eapply st_step_inv|done|]. done.
Qed.

(** ** Progress *)

(** A step of a thread which is not a round of a spin loop. *)
Definition st_progress : relation st_world := λ w w', ∃ t pc,
  tw_threads w !! t = Some pc ∧ st_run_thread Q w t pc = Some w' ∧ tw_threads w' !! t ≠ Some pc.


Lemma progress_step w w' : st_progress w w' → st_step Q w w'.
Proof. intros (t & pc & Ht & Hrun & _). by eapply st_step_code. Qed.

Lemma progress_bound k w w' h l :
  st_inv_at w h l → nsteps st_progress k w w' → k ≤ st_measure w l.
Proof.
  revert w l. induction k as [|k IH]; intros w l Hinv Hk; [lia|].
  inversion Hk as [|? ? w1 ? (t & pc & Ht & Hrun & Hne) Hrest]; subst.
  destruct (run_thread_ok _ _ _ _ _ _ Hinv Ht Hrun) as (l1 & Hinv1 & _ & [?|Hlt]); [done|].
  pose proof (IH w1 l1 Hinv1 Hrest). lia.
Qed.

Lemma sum_rank_bound P : sum_list_with st_rank P ≤ 7 * length P.
Proof. induction P as [|pc P IH]; simpl; [lia|]. assert (st_rank pc ≤ 7) by (destruct pc; simpl; lia). lia. Qed.

(** The list is not longer than the addresses used. *)
Lemma measure_bound w h l :
  st_inv_at w h l → st_measure w l ≤ 7 * length (tw_threads w) + 2 * size (tw_used w).
Proof.
  intros Hinv. unfold st_measure. pose proof (sum_rank_bound (tw_threads w)).
  pose proof (si_list _ _ _ Hinv) as Hl. pose proof (q_repr_nodup _ _ _ Hl) as [_ Hnd]%NoDup_cons.
  assert (Hsub : list_to_set l ⊆ tw_used w).
  { intros z Hz%elem_of_list_to_set. apply (si_dom _ _ _ Hinv).
    pose proof (q_repr_dom _ _ _ Hl) as [_ Hall]%Forall_cons. rewrite Forall_forall in Hall. by apply Hall. }
  apply subseteq_size in Hsub. rewrite size_list_to_set in Hsub by done. lia.
Qed.

(** A thread at [pc] goes on, unless it waits for the lock. *)
Lemma code_moves s pc r :
  st_code_step Q s pc = Some r → in_lock pc = true ∨ st_busy (sh_state s) = false ∨ pc = StopExchange →
  r.1.2 ≠ pc.
Proof.
  intros Hstep Hor. assert (st_busy (sh_state s) = false ∨ in_lock pc = true ∨ pc = StopExchange) as [Hb|Hl]
    by tauto; destruct pc; simpl in *; try (by destruct Hl); unfold spin in *; rewrite ?Hb in Hstep;
    repeat (apply option_bind_Some_inv in Hstep as (? & _ & Hstep));
    repeat (case_match; simplify_eq/=); simplify_eq/=; try done;
    repeat (apply option_bind_Some_inv in Hstep as (? & _ & Hstep)); simplify_eq/=; try done.
Qed.

Lemma progress_at w h l t pc :
  st_inv_at w h l → tw_threads w !! t = Some pc → pc ≠ StIdle →
  in_lock pc = true ∨ st_busy (sh_state (tw_shared w)) = false ∨ pc = StopExchange →
  ∃ w', st_progress w w'.
Proof.
  intros Hinv Ht Hne Hor. destruct (code_step_total w h l t pc Hinv Ht Hne) as [r Hr].
  pose proof (code_moves _ _ _ Hr Hor) as Hmv. destruct r as [[s' pc'] cs]. simpl in Hmv.
  eexists. exists t, pc. split_and!; [done|unfold st_run_thread; by rewrite Hr|].
  rewrite return_threads. simpl. rewrite list_lookup_insert_eq by (by eapply lookup_lt_Some). congruence.
Qed.

Lemma progress_exists w t pc :
  st_inv w → tw_threads w !! t = Some pc → pc ≠ StIdle → ∃ w', st_progress w w'.
Proof.
  intros (h & l & Hinv) Ht Hne. destruct (st_busy (sh_state (tw_shared w))) eqn:Hb.
  - destruct (lk_holder _ _ (si_lock _ _ _ Hinv) Hb) as (t2 & pc2 & H2 & Hin).
    apply (progress_at w h l t2 pc2); auto. by intros ->.
  - apply (progress_at w h l t pc); auto.
Qed.
End invariant.

(** ** Properties *)

(** C7: the stop state used by any number of threads, under every interleaving
    of constructing callbacks, destroying them and requesting stop. Nothing
    undefined happens: no callback is touched after its storage was released.
    Callbacks are executed one at a time, only when stop was requested, and each
    at most twice: once by its constructor and once by the request. A destructor
    does not return while its callback is executed, and after it returned the
    callback is not executed again. *)
Theorem stop_threads_safety `{HQ : !QueueSpec Q} σ h n w :
  q_repr σ h [] → rtc (st_step Q) (st_init σ h n) w →
  (∀ t pc, tw_threads w !! t = Some pc → pc ≠ StIdle → is_Some (st_code_step Q (tw_shared w) pc)) ∧
  (∀ t1 t2 pc1 pc2 cb1 cb2, tw_threads w !! t1 = Some pc1 → tw_threads w !! t2 = Some pc2 →
     st_executing pc1 = Some cb1 → st_executing pc2 = Some cb2 → t1 = t2) ∧
  NoDup (tw_calls w) ∧
  (tw_calls w ≠ [] → st_stop_requested (sh_state (tw_shared w)) = true) ∧
  (∀ cb w', cb ∈ tw_gone w → rtc (st_step Q) w w' →
     filter (λ x, call_object x = cb) (tw_calls w') = filter (λ x, call_object x = cb) (tw_calls w) ∧
     ∀ t pc, tw_threads w' !! t = Some pc → st_executing pc ≠ Some cb).
Proof.
  intros Hl Hr. pose proof (st_inv_reachable σ h n w Hl Hr) as Hinv.
  pose proof Hinv as (h' & l & Hat). split_and!.
  - intros t pc. by eapply code_step_total.
  - intros t1 t2 pc1 pc2 cb1 cb2 H1 H2 ?%executing_in_lock ?%executing_in_lock.
    by eapply (lk_unique _ _ (si_lock _ _ _ Hat)).
  - by destruct Hat.
  - intros Hc. destruct (tw_calls w) as [|x c] eqn:E; [done|].
    apply (si_called _ _ _ Hat (call_object x)). rewrite E. unfold st_served. simpl.
    by apply elem_of_cons; left.
  - intros cb w' Hg Hrtc. by apply gone_forever.
Qed.

(** C16: the spin locks do not deadlock. Whenever a thread has something to do
    some thread can make a step which is not a round of a spin loop; there are at
    most seven of these steps for each thread and two for each callback, until
    all threads are done; and then, if stop was requested, every callback alive
    was executed. *)
Theorem stop_threads_progress `{HQ : !QueueSpec Q} σ h n w :
  q_repr σ h [] → rtc (st_step Q) (st_init σ h n) w →
  (∀ t pc, tw_threads w !! t = Some pc → pc ≠ StIdle → ∃ w', st_progress w w') ∧
  (∀ k w', nsteps st_progress k w w' → k ≤ 7 * length (tw_threads w) + 2 * size (tw_used w)) ∧
  ((∀ t pc, tw_threads w !! t = Some pc → pc = StIdle) →
   st_stop_requested (sh_state (tw_shared w)) = true → ∀ cb, cb ∈ tw_alive w → st_served (tw_calls w) cb).
Proof.
  intros Hl Hr. pose proof (st_inv_reachable σ h n w Hl Hr) as Hinv.
  pose proof Hinv as (h' & l & Hat). split_and!.
  - intros t pc. by apply progress_exists.
  - intros k w' Hk. pose proof (progress_bound k w w' h' l Hat Hk). pose proof (measure_bound w h' l Hat). lia.
  - intros Hidle Hreq cb Hcb. destruct (decide (cb ∈ l)) as [Hin|Hn]; [|by apply (si_popped _ _ _ Hat)].
    destruct (si_pending _ _ _ Hat cb Hreq Hin) as [?|(t & pc & Ht & Hp)]; [done|].
    rewrite (Hidle t pc Ht) in Hp. by destruct Hp.
Qed.

(** ** Examples *)

(** Thread 0 requests stop; thread 1 constructs a callback between the exchange
    and the call, and the callback is executed twice. Then it is destroyed. *)
Definition st_race_store : store := {[1 := Link 1 1]}.
Definition st_race_schedule : list st_choice :=
  [StRequest 0; StCode 0; StConstruct 1 11; StCode 1; StCode 1; StCode 0; StCode 1; StCode 1; StCode 1;
   StCode 0; StCode 0; StCode 0; StCode 0; StCode 0; StDestroy 1 11; StCode 1; StCode 1; StCode 1].
Definition st_race_world : st_world :=
  default (st_init st_race_store 1 2) (st_exec intrusive_list_ops (st_init st_race_store 1 2) st_race_schedule).

Lemma race_reachable : rtc (st_step intrusive_list_ops) (st_init st_race_store 1 2) st_race_world.
Proof. apply (st_exec_sound _ _ st_race_schedule). by vm_compute. Qed.

Lemma race_store_list : is_list st_race_store 1 [].
Proof. split; [apply NoDup_singleton|by split]. Qed.

Example race_calls : tw_calls st_race_world = [CalledByInsert 11; CalledByStop 11] ∧ tw_gone st_race_world = {[11]}.
Proof. by split; vm_compute. Qed.

Lemma stop_threads_safety_witness :
  NoDup (tw_calls st_race_world) ∧ st_stop_requested (sh_state (tw_shared st_race_world)) = true ∧
  ∀ w', rtc (st_step intrusive_list_ops) st_race_world w' →
    filter (λ x, call_object x = 11) (tw_calls w') = [CalledByInsert 11; CalledByStop 11].
Proof.
  destruct (stop_threads_safety (HQ:=intrusive_list_queue) st_race_store 1 2 st_race_world race_store_list race_reachable)
    as (_ & _ & Hnd & Hreq & Hgone).
  split_and!; [done|apply Hreq; by vm_compute|]. intros w' Hr.
  destruct (Hgone 11 w') as [-> _]; [by vm_compute|done|by vm_compute].
Defined.

(** Two callbacks are registered while stop was not requested, then it is. *)
Definition calm_schedule : list st_choice :=
  [StConstruct 0 11; StConstruct 1 12; StCode 1; StCode 0; StCode 1; StCode 1; StCode 1; StCode 0; StCode 0;
   StCode 0; StCode 0; StRequest 0; StCode 0; StCode 0; StCode 0; StCode 0; StCode 0; StCode 0; StCode 0;
   StCode 0].
Definition calm_world : st_world :=
  default (st_init st_race_store 1 2) (st_exec intrusive_list_ops (st_init st_race_store 1 2) calm_schedule).

Lemma calm_reachable : rtc (st_step intrusive_list_ops) (st_init st_race_store 1 2) calm_world.
Proof. apply (st_exec_sound _ _ calm_schedule). by vm_compute. Qed.

Example calm_calls : tw_calls calm_world = [CalledByStop 12; CalledByStop 11] ∧
  tw_threads calm_world = [StIdle; StIdle].
Proof. by split; vm_compute. Qed.

Lemma stop_threads_progress_witness :
  st_served (tw_calls calm_world) 11 ∧ st_served (tw_calls calm_world) 12.
Proof.
  destruct (stop_threads_progress (HQ:=intrusive_list_queue) st_race_store 1 2 calm_world race_store_list calm_reachable)
    as (_ & _ & Hserved).
  assert (Hidle : ∀ t pc, tw_threads calm_world !! t = Some pc → pc = StIdle).
  { intros [|[|t]] pc; vm_compute; congruence. }
  split; apply Hserved; solve [exact Hidle|by vm_compute].
Defined.
