(* ===== verification/RunLoop.v ===== *)
(** * nstd::execution::run_loop

    The run loop of src/src/nstd/execution/run_loop.{hpp,cpp} as a transition
    system. The queue of operation states is accessed only under [d_guard], so
    each locked region is one transition; waiting on [d_cond] is a program
    point left by a notification or spuriously, after which the predicate of
    the wait is tested again. Any number of threads may execute [run]. The queue is used through the interface [QueueOps]. *)
From S2P Require Import Prelude IntrusiveList.

(** ** Data *)
Inductive phase := Starting | Finishing.

Record run_loop := RunLoop { rl_phase : phase; rl_store : store; rl_list : loc }.

(** Handles: the loop they refer to. *)
Record rl_scheduler := Scheduler { sch_loop : nat }.
Record rl_sender := Sender { snd_loop : nat }.
Record rl_state := State { rs_loop : nat; rs_receiver : nat }.

#[export] Instance rl_scheduler_eq_dec : EqDecision rl_scheduler.
Proof. solve_decision. Defined.

(** The completion delivered to a receiver. *)
Inductive completion := SetValue | SetStopped.

(** ** Operations *)
Definition run_loop_get_scheduler (loop : nat) : rl_scheduler := Scheduler loop.
Definition scheduler_schedule (s : rl_scheduler) : rl_sender := Sender (sch_loop s).
Definition scheduler_eqb (a b : rl_scheduler) : bool := bool_decide (a = b).
Definition sender_get_completion_scheduler (s : rl_sender) : rl_scheduler := Scheduler (snd_loop s).
Definition sender_connect (s : rl_sender) (receiver : nat) : rl_state := State (snd_loop s) receiver.

(** [do_execute]: [stop_requested] is what the receiver's stop token says. *)
Definition state_do_execute (stop_requested : nat → bool) (s : rl_state) : nat * completion :=
  if stop_requested (rs_receiver s) then (rs_receiver s, SetStopped) else (rs_receiver s, SetValue).

Section run_loop.
Context (Q : QueueOps).

Definition rl_push_back (x : loc) (l : run_loop) : option run_loop :=
  σ ← q_push_back (rl_store l) (rl_list l) x; Some (RunLoop (rl_phase l) σ (rl_list l)).

(** [start] of the operation state at [x]. *)
Definition state_start (x : loc) (l : run_loop) : option run_loop := rl_push_back x l.

(** What one attempt of [pop_front] finds under the lock. *)
Inductive pop_result := PopWait | PopNull | PopItem (x : loc).

Definition rl_pop_front (l : run_loop) : option (pop_result * run_loop) :=
  e ← q_empty (rl_store l) (rl_list l);
  if (e : bool) then
    Some (match rl_phase l with Finishing => PopNull | Starting => PopWait end, l)
  else
    x ← q_front (rl_store l) (rl_list l);
    σ ← q_pop_front (rl_store l) (rl_list l);
    Some (PopItem x, RunLoop (rl_phase l) σ (rl_list l)).

Definition rl_set_finishing (l : run_loop) : run_loop :=
  RunLoop Finishing (rl_store l) (rl_list l).

(** The destructor terminates the program when work is left. *)
Definition rl_dtor (l : run_loop) : option bool :=
  e ← q_empty (rl_store l) (rl_list l); Some (negb e).

(** ** The system *)
Inductive run_pc := RPop | RWait | RExecute (x : loc) | RDone.
Inductive finish_pc := FSet | FNotify | FDone.

(** The operation states started, taken off the queue and executed, each in
    order. *)
Record rl_world := RlWorld {
  rw_loop : run_loop;
  rw_runs : gmap nat run_pc;
  rw_finish : finish_pc;
  rw_pushed : list loc;
  rw_taken : list loc;
  rw_log : list loc;
}.

Inductive rl_label :=
  | LPush (x : loc)           (* some thread starts the operation state x *)
  | LRun (t : nat)            (* the thread running t makes a step *)
  | LFinish                   (* the thread calling finish *)
  | LWake (t : nat)           (* [notify_one] picked t *)
  | LSpurious (t : nat).      (* the wait of t returns without a notification *)

Definition rl_run_step (w : rl_world) (t : nat) (pc : run_pc) : option rl_world :=
  let 'RlWorld l R f ps ts g := w in
  match pc with
  | RPop =>
      '(r, l) ← rl_pop_front l;
      Some (match r with
            | PopWait => RlWorld l (<[t := RWait]> R) f ps ts g
            | PopNull => RlWorld l (<[t := RDone]> R) f ps ts g
            | PopItem x => RlWorld l (<[t := RExecute x]> R) f ps (ts ++ [x]) g
            end)
  | RWait => None
  | RExecute x => Some (RlWorld l (<[t := RPop]> R) f ps ts (g ++ [x]))
  | RDone => None
  end.

(** [notify_one] wakes one waiting thread if there is one. *)
Definition waiting (w : rl_world) (t : nat) : Prop := rw_runs w !! t = Some RWait.

Inductive rl_step : rl_world → rl_label → rl_world → Prop :=
  | rl_step_push l R f ps ts g x l' :
      x ∉ ps → x ∈ dom (rl_store l) → x ≠ rl_list l → state_start x l = Some l' →
      rl_step (RlWorld l R f ps ts g) (LPush x) (RlWorld l' R f (ps ++ [x]) ts g)
  | rl_step_run w t pc w' :
      rw_runs w !! t = Some pc → rl_run_step w t pc = Some w' → rl_step w (LRun t) w'
  | rl_step_set l R ps ts g :
      rl_step (RlWorld l R FSet ps ts g) LFinish (RlWorld (rl_set_finishing l) R FNotify ps ts g)
  | rl_step_notify l R ps ts g t :
      R !! t = Some RWait →
      rl_step (RlWorld l R FNotify ps ts g) (LWake t) (RlWorld l (<[t := RPop]> R) FDone ps ts g)
  | rl_step_notify_none l R ps ts g :
      (∀ t, R !! t ≠ Some RWait) →
      rl_step (RlWorld l R FNotify ps ts g) LFinish (RlWorld l R FDone ps ts g)
  | rl_step_spurious l R f ps ts g t :
      R !! t = Some RWait →
      rl_step (RlWorld l R f ps ts g) (LSpurious t) (RlWorld l (<[t := RPop]> R) f ps ts g).

Definition rl_steps : relation rl_world := λ w w', ∃ a, rl_step w a w'.

(** Threads [ts] run a fresh loop; the objects are allocated in the store. *)
Definition rl_init (σ : store) (head : loc) (ts : gset nat) : rl_world :=
  RlWorld (RunLoop Starting σ head) (gset_to_gmap RPop ts) FSet [] [] [].


(** ** The invariant *)
Context `{HQ : !QueueSpec Q}.

Definition executing (w : rl_world) (x : loc) : Prop := ∃ t, rw_runs w !! t = Some (RExecute x).

Record rl_inv_at (w : rl_world) (l : list loc) : Prop := RlInv {
  ri_list : q_repr (rl_store (rw_loop w)) (rl_list (rw_loop w)) l;
  ri_pushed : rw_pushed w = rw_taken w ++ l;
  ri_nodup : NoDup (rw_pushed w);
  ri_taken x : x ∈ rw_taken w → x ∈ rw_log w ∨ executing w x;
  ri_executing t x : rw_runs w !! t = Some (RExecute x) →
    x ∈ rw_taken w ∧ x ∉ rw_log w ∧
    ∀ t', rw_runs w !! t' = Some (RExecute x) → t' = t;
  ri_log x : x ∈ rw_log w → x ∈ rw_taken w;
  ri_log_nodup : NoDup (rw_log w);
  ri_phase : rw_finish w = FSet ↔ rl_phase (rw_loop w) = Starting;
  ri_done t : rw_runs w !! t = Some RDone → rl_phase (rw_loop w) = Finishing;
}.

Definition rl_inv (w : rl_world) : Prop := ∃ l, rl_inv_at w l.

(** Attempting to pop always succeeds, and does what it says. *)
Lemma rl_pop_front_spec lp l :
  q_repr (rl_store lp) (rl_list lp) l →
  match l with
  | [] => rl_pop_front lp =
      Some (match rl_phase lp with Finishing => PopNull | Starting => PopWait end, lp)
  | x :: l' => ∃ σ, rl_pop_front lp = Some (PopItem x, RunLoop (rl_phase lp) σ (rl_list lp)) ∧
      q_repr σ (rl_list lp) l'
  end.
Proof.
  intros Hl. unfold rl_pop_front. rewrite (q_empty_spec _ _ _ Hl). simpl.
  destruct l as [|x l]; [done|]. rewrite bool_decide_false by done. simpl.
  rewrite (q_front_spec _ _ _ _ Hl). simpl.
  destruct (q_pop_front_spec _ _ _ _ Hl) as (σ & -> & Hl' & _). simpl. eauto.
Qed.

(** Moving a thread that does not execute anything, before or after. *)
Lemma rl_move lp R f ps ts g l t pc pc' :
  rl_inv_at (RlWorld lp R f ps ts g) l → R !! t = Some pc →
  (∀ x, pc ≠ RExecute x) → (∀ x, pc' ≠ RExecute x) →
  (pc' = RDone → rl_phase lp = Finishing) →
  rl_inv_at (RlWorld lp (<[t := pc']> R) f ps ts g) l.
Proof.
  intros [Hl Hp Hnd Ht Hex Hlog Hlnd Hph Hdone] Hpc Hne Hne' Hd; simpl in *.
  assert (Hiff : ∀ u x, <[t := pc']> R !! u = Some (RExecute x) ↔ R !! u = Some (RExecute x)).
  { intros u x. destruct (decide (u = t)) as [->|]; [|by rewrite lookup_insert_ne].
    rewrite lookup_insert_eq, Hpc. split; intros [= ->]; [by destruct (Hne' x)|by destruct (Hne x)]. }
  split; simpl; try done.
  - intros x Hx. destruct (Ht x Hx) as [?|[u Hu]]; [by left|right]. exists u. by apply Hiff.
  - intros u x Hu%Hiff. destruct (Hex u x Hu) as (?&?&Huniq). split_and!; [done..|].
    intros u' Hu'%Hiff. by apply Huniq.
  - intros u Hu. destruct (decide (u = t)) as [->|]; simplify_map_eq; [by apply Hd|by eapply Hdone].
Qed.

(** [pop_front] found [x] for the thread [t]. *)
Lemma rl_taken_inv lp σ R f ps ts g x l t :
  rl_inv_at (RlWorld lp R f ps ts g) (x :: l) → R !! t = Some RPop → q_repr σ (rl_list lp) l →
  rl_inv_at (RlWorld (RunLoop (rl_phase lp) σ (rl_list lp)) (<[t := RExecute x]> R) f ps (ts ++ [x]) g) l.
Proof.
  intros [_ Hp Hnd Htk Hex Hlog Hlnd Hph Hdone] Ht Hl; simpl in *.
  assert (Hx : x ∉ ts).
  { intros Hx. rewrite Hp in Hnd. apply NoDup_app in Hnd as (_ & Hdis & _).
    apply (Hdis x Hx). by apply elem_of_cons; left. }
  split; simpl; try done.
  - by rewrite <-(assoc_L (++)).
  - intros y [Hy| ->%list_elem_of_singleton]%elem_of_app.
    + destruct (Htk y Hy) as [?|[u Hu]]; [by left|right]. exists u. simpl in *.
      rewrite lookup_insert_ne; [done|]. intros ->. congruence.
    + right. exists t. simpl. by rewrite lookup_insert_eq.
  - intros u y Hu. destruct (decide (u = t)) as [->|Hne]; simplify_map_eq.
    + split_and!; [set_solver|by intros ?%Hlog|]. intros u' Hu'.
      destruct (decide (u' = t)) as [->|]; simplify_map_eq; [done|].
      by destruct (Hex u' y) as [? _].
    + destruct (Hex u y Hu) as (Hy&?&Huniq). split_and!; [set_solver|done|].
      intros u' Hu'. destruct (decide (u' = t)) as [->|]; simplify_map_eq; by apply Huniq.
  - intros y ?%Hlog. set_solver.
  - intros u Hu. destruct (decide (u = t)) as [->|]; simplify_map_eq. by eapply Hdone.
Qed.

(** The thread [t] executed [x]. *)
Lemma rl_executed_inv lp R f ps ts g x l t :
  rl_inv_at (RlWorld lp R f ps ts g) l → R !! t = Some (RExecute x) →
  rl_inv_at (RlWorld lp (<[t := RPop]> R) f ps ts (g ++ [x])) l.
Proof.
  intros [Hl Hp Hnd Htk Hex Hlog Hlnd Hph Hdone] Ht; simpl in *.
  destruct (Hex t x Ht) as (Hx & Hxg & Huniq).
  split; simpl; try done.
  - intros y Hy. destruct (Htk y Hy) as [?|[u Hu]]; [left; set_solver|]. simpl in Hu.
    destruct (decide (u = t)) as [->|]; [left; simplify_eq; set_solver|right].
    exists u. simpl. by rewrite lookup_insert_ne.
  - intros u y Hu. destruct (decide (u = t)) as [->|Hne]; simplify_map_eq.
    destruct (Hex u y Hu) as (Hy&Hyg&Huy). split_and!; [done| |].
    + intros [?| ->%list_elem_of_singleton]%elem_of_app; [done|]. by apply Hne, Huniq.
    + intros u' Hu'. destruct (decide (u' = t)) as [->|]; simplify_map_eq; by apply Huy.
  - intros y [Hy%Hlog| ->%list_elem_of_singleton]%elem_of_app; done.
  - apply NoDup_app. split_and!; [done| |apply NoDup_singleton].
    by intros y Hy ->%list_elem_of_singleton.
  - intros u Hu. destruct (decide (u = t)) as [->|]; simplify_map_eq. by eapply Hdone.
Qed.

Lemma rl_run_step_inv w l t pc w' :
  rl_inv_at w l → rw_runs w !! t = Some pc → rl_run_step w t pc = Some w' → rl_inv w'.
Proof.
  destruct w as [lp R f ps ts g]. intros Hinv Ht Hs. simpl in Ht.
  destruct pc as [| |x|]; simpl in Hs; [|done| |done].
  - pose proof (rl_pop_front_spec lp l (ri_list _ _ Hinv)) as Hpop. destruct l as [|x l].
    + rewrite Hpop in Hs. simpl in Hs. exists [].
      destruct (rl_phase lp) eqn:Hph; injection Hs as <-; by eapply rl_move.
    + destruct Hpop as (σ & Hpop & Hl). rewrite Hpop in Hs. simpl in Hs. injection Hs as <-.
      exists l. by apply rl_taken_inv.
  - injection Hs as <-. exists l. by apply rl_executed_inv.
Qed.

Lemma rl_step_inv w a w' : rl_inv w → rl_step w a w' → rl_inv w'.
Proof.
  intros [l Hinv] Hs. destruct Hs as [lp R f ps ts g x lp' Hx Hdom Hne Hstart|w t pc w' Ht Hs| | | |].
  - destruct Hinv as [Hl Hp Hnd Htk Hex Hlog Hlnd Hph Hdone]; simpl in *.
    unfold state_start, rl_push_back in Hstart.
    assert (Hfresh : x ∉ rl_list lp :: l).
    { apply not_elem_of_cons. split; [done|]. intros ?. apply Hx. rewrite Hp. set_solver. }
    destruct (q_push_back_spec _ _ _ _ Hl Hdom Hfresh) as (σ & Hpush & Hl' & _).
    rewrite Hpush in Hstart. simpl in Hstart. injection Hstart as <-.
    exists (l ++ [x]). split; simpl; try done.
    + by rewrite Hp, (assoc_L (++)).
    + apply NoDup_app. split_and!; [done| |apply NoDup_singleton].
      by intros y Hy ->%list_elem_of_singleton.
  - by eapply rl_run_step_inv.
  - exists l. destruct Hinv as [Hl Hp Hnd Htk Hex Hlog Hlnd Hph Hdone]; simpl in *. by split.
  - exists l. assert (Hinv' : rl_inv_at (RlWorld l0 R FDone ps ts g) l).
    { destruct Hinv as [Hl Hp Hnd Htk Hex Hlog Hlnd Hph Hdone]; simpl in *. split; try done.
      simpl. split; [done|]. intros ?%Hph. done. }
    by eapply rl_move.
  - exists l. destruct Hinv as [Hl Hp Hnd Htk Hex Hlog Hlnd Hph Hdone]; simpl in *. split; try done.
    simpl. split; [done|]. intros ?%Hph. done.
  - exists l. by eapply rl_move.
Qed.

Lemma rl_init_inv σ head ts : q_repr σ head [] → rl_inv (rl_init σ head ts).
Proof.
  intros Hl. exists []. split; simpl; try done; try (by intros x ?%elem_of_nil).
  - apply NoDup_nil_2.
  - by intros t x [_ ?]%lookup_gset_to_gmap_Some.
  - apply NoDup_nil_2.
  - by intros t [_ ?]%lookup_gset_to_gmap_Some.
Qed.

Definition rl_reachable (σ : store) (head : loc) (ts : gset nat) (w : rl_world) : Prop :=
  rtc rl_steps (rl_init σ head ts) w.

Lemma rl_reachable_inv σ head ts w :
  q_repr σ head [] → rl_reachable σ head ts w → rl_inv w.
Proof.
  intros Hl Hr. eapply (rtc_invariant rl_steps); [|by apply rl_init_inv|exact Hr].
  intros a b Ha [x Hs]. by eapply rl_step_inv.
Qed.

(** C10: the run loop is a FIFO queue whose work is executed exactly once: in
    every reachable state, for any number of threads starting work and running
    the loop, the operation states taken off the queue are those started
    first, in order; each of them was executed, or is being executed by one
    thread; none was executed twice. A thread about to pop can always go on,
    and [run] has returned only when the loop was told to finish. The wait for
    work may end spuriously at any time. *)
Theorem run_loop_fifo_once σ head ts w :
  q_repr σ head [] → rl_reachable σ head ts w →
  (∃ l, q_repr (rl_store (rw_loop w)) (rl_list (rw_loop w)) l ∧ rw_pushed w = rw_taken w ++ l) ∧
  (∀ x, x ∈ rw_taken w ↔ x ∈ rw_log w ∨ executing w x) ∧
  (∀ x, x ∈ rw_log w → ¬ executing w x) ∧ NoDup (rw_log w) ∧
  (∀ t, rw_runs w !! t = Some RPop → ∃ w', rl_step w (LRun t) w') ∧
  (∀ t, rw_runs w !! t = Some RDone → rl_phase (rw_loop w) = Finishing).
Proof.
  intros Hl (l & Hinv)%rl_reachable_inv; [|done]. split_and!.
  - exists l. split; apply Hinv.
  - intros x. split; [by apply (ri_taken _ _ Hinv)|].
    intros [?|[t Ht]]; [by apply (ri_log _ _ Hinv)|by apply (ri_executing _ _ Hinv t x)].
  - intros x Hx [t Ht]. by destruct (ri_executing _ _ Hinv t x Ht) as (_ & ? & _).
  - apply Hinv.
  - intros t Ht. destruct w as [lp R f ps tk g]. simpl in *.
    pose proof (rl_pop_front_spec lp l (ri_list _ _ Hinv)) as Hpop.
    assert (∃ w', rl_run_step (RlWorld lp R f ps tk g) t RPop = Some w') as [w' Hw'].
    { destruct l as [|x l]; [|destruct Hpop as (σ' & Hpop & _)]; simpl; rewrite Hpop; simpl; eauto. }
    exists w'. by econstructor.
  - apply Hinv.
Qed.

(** Only its own notification, or a spurious wakeup, gets a thread out of
    waiting. *)
Lemma waiting_stays w a w' t :
  rl_step w a w' → waiting w t → a ≠ LWake t → a ≠ LSpurious t → waiting w' t.
Proof.
  unfold waiting. intros Hs Hw Ha Hsp.
  destruct Hs as [|w u pc w' Hu Hs| |lp R ps ts g u Hu| |lp R f ps ts g u Hu]; simpl in *; try done.
  - destruct w as [lp R f ps tk g]. simpl in *. destruct (decide (u = t)) as [->|Hne].
    { by simplify_eq. }
    destruct pc as [| |x|]; simpl in Hs; [|done| |done].
    + destruct (rl_pop_front lp) as [[r lp']|]; simpl in Hs; [|done].
      destruct r; injection Hs as <-; simpl; by rewrite lookup_insert_ne.
    + injection Hs as <-. simpl. by rewrite lookup_insert_ne.
  - rewrite lookup_insert_ne; [done|]. by intros ->.
  - rewrite lookup_insert_ne; [done|]. by intros ->.
Qed.
End run_loop.

(** ** The missing notification *)

(** Steps without spurious wakeups, on which a program must not rely, and
    those of everybody but the thread calling [finish]. *)
Definition rl_strict_steps `{Q : QueueOps} : relation rl_world :=
  λ w w', ∃ a, (∀ t, a ≠ LSpurious t) ∧ rl_step Q w a w'.
Definition rl_busy_steps `{Q : QueueOps} : relation rl_world :=
  λ w w', ∃ a, a ≠ LFinish ∧ (∀ t, a ≠ LWake t) ∧ (∀ t, a ≠ LSpurious t) ∧ rl_step Q w a w'.

(** A loop headed by 1 run by the threads 0 and 5, and the object 11. *)
Definition lw_store : store := list_to_map [(1, Link 1 1); (11, Link 0 0)].

Lemma lw_store_list : is_list lw_store 1 [].
Proof. split; [apply NoDup_singleton|by split]. Qed.

Definition lw_waiting : rl_world :=
  RlWorld (RunLoop Starting lw_store 1) {[0 := RWait; 5 := RWait]} FSet [] [] [].
Definition lw_store' : store := list_to_map [(1, Link 11 11); (11, Link 1 1)].
Definition lw_pushed : rl_world :=
  RlWorld (RunLoop Starting lw_store' 1) {[0 := RWait; 5 := RWait]} FSet [11] [] [].
Definition lw_finished : rl_world :=
  RlWorld (RunLoop Finishing lw_store 1) (<[0 := RPop]> {[0 := RWait; 5 := RWait]}) FDone [] [] [].

Lemma lw_waiting_reachable : rl_reachable intrusive_list_ops lw_store 1 {[0; 5]} lw_waiting.
Proof.
  eapply rtc_l; [exists (LRun 0); by eapply rl_step_run with (t := 0)|].
  eapply rtc_l; [exists (LRun 5); by eapply rl_step_run with (t := 5)|].
  vm_compute. apply rtc_refl.
Qed.

(** Starting work does not wake the loop. Whatever the program does short
    of finishing, a thread waiting in [run] keeps waiting unless it is woken
    spuriously, and there are
    reachable states with queued work in which all threads wait; nor does
    [finish] wake more than one of them, so a second one waits for ever. *)
Theorem run_loop_lost_wakeup :
  (∀ w w' t, waiting w t → rtc (rl_busy_steps (Q := intrusive_list_ops)) w w' → waiting w' t) ∧
  (∃ w, rl_reachable intrusive_list_ops lw_store 1 {[0; 5]} w ∧
     waiting w 0 ∧ waiting w 5 ∧ list_empty (rl_store (rw_loop w)) (rl_list (rw_loop w)) = Some false) ∧
  (∃ w, rl_reachable intrusive_list_ops lw_store 1 {[0; 5]} w ∧ rw_finish w = FDone ∧
     ∀ w', rtc (rl_strict_steps (Q := intrusive_list_ops)) w w' → waiting w' 5).
Proof.
  split_and!.
  - intros w w' t Hw Hr. eapply (rtc_invariant rl_busy_steps (λ w, waiting w t)); [|exact Hw|exact Hr].
    intros a b Ha (x & _ & Hx & Hsp & Hs). by eapply waiting_stays.
  - exists lw_pushed. split_and!; [|done..].
    eapply rtc_trans; [exact lw_waiting_reachable|]. apply rtc_once. exists (LPush 11).
    apply (rl_step_push intrusive_list_ops (RunLoop Starting lw_store 1) _ FSet [] [] [] 11);
      [apply not_elem_of_nil|by apply (bool_decide_unpack _)|done|by vm_compute].
  - exists lw_finished. split_and!; [|done|].
    + eapply rtc_trans; [exact lw_waiting_reachable|].
      eapply rtc_l; [exists LFinish; apply rl_step_set|]. apply rtc_once. exists (LWake 0).
      by apply (rl_step_notify intrusive_list_ops (RunLoop Finishing lw_store 1)
        {[0 := RWait; 5 := RWait]} [] [] [] 0).
    + intros w' Hr.
      assert (waiting w' 5 ∧ rw_finish w' = FDone) as [? _]; [|done].
      eapply (rtc_invariant (rl_strict_steps (Q := intrusive_list_ops)) (λ w, waiting w 5 ∧ rw_finish w = FDone));
        [| |exact Hr]; [|by split; vm_compute].
      intros a b [Ha Hf] (x & Hsp & Hs). split.
      * eapply waiting_stays; [exact Hs|done| |done]. intros ->. by inversion Hs; subst.
      * destruct Hs as [|w0 t pc w1 Ht Hs| | | |]; simpl in *; try done.
        destruct w0 as [lp R f ps tk g]. simpl in *. subst f. destruct pc; simpl in Hs; try done.
        -- destruct (rl_pop_front _ lp) as [[r lp']|]; simpl in Hs; [|done].
           by destruct r; injection Hs as <-.
        -- by injection Hs as <-.
Qed.

Definition lw_store_taken : store := default ∅ (list_pop_front lw_store' 1).

(** The first thread woke spuriously, took the work and executes it. *)
Definition lw_taken : rl_world :=
  RlWorld (RunLoop Starting lw_store_taken 1) {[0 := RExecute 11; 5 := RWait]} FSet [11] [11] [].

Lemma lw_taken_reachable : rl_reachable intrusive_list_ops lw_store 1 {[0; 5]} lw_taken.
Proof.
  eapply rtc_trans; [exact lw_waiting_reachable|].
  eapply rtc_l; [exists (LPush 11)|].
  { apply (rl_step_push intrusive_list_ops (RunLoop Starting lw_store 1) _ FSet [] [] [] 11);
      [apply not_elem_of_nil|by apply (bool_decide_unpack _)|done|by vm_compute]. }
  eapply rtc_l; [exists (LSpurious 0); by apply rl_step_spurious|].
  apply rtc_once. exists (LRun 0). apply rl_step_run with RPop; [done|]. by vm_compute.
Qed.

Lemma run_loop_fifo_once_witness :
  (∃ l, is_list (rl_store (rw_loop lw_taken)) 1 l ∧ [11] = [11] ++ l) ∧
  (11 ∈ rw_taken lw_taken ↔ 11 ∈ rw_log lw_taken ∨ executing lw_taken 11) ∧ NoDup (rw_log lw_taken).
Proof.
  pose proof (run_loop_fifo_once intrusive_list_ops lw_store 1 {[0; 5]} lw_taken lw_store_list
    lw_taken_reachable) as (Hq & Hx & _ & Hg & _).
  split; [exact Hq|]. split; [exact (Hx 11)|exact Hg].
Defined.
