(* ===== verification/AsyncScope.v ===== *)
(** * nstd::execution::async_scope

    The scope of src/src/nstd/execution/async_scope.{hpp,cpp}: a count of the
    senders nested in it and the list of the [upon_empty] operations waiting
    for the count to become zero. [insert] and [complete] are cut where they
    take and release the mutex, so that the same thread program is run alone
    ([as_seq]) and interleaved with other threads ([as_exec]). A [state_base]
    that is not an operation state - the head of a list - completes by doing
    nothing, as the virtual function of the base class does. *)
From S2P Require Import Prelude IntrusiveList.

(** ** Data *)
(** The pointer to a scope is the address of its list. *)
Record upon_empty_sender := UponEmptySender { ue_scope : option loc }.
Record ue_state := UeState { us_scope : option loc; us_receiver : nat }.

Record async_scope := AsyncScope {
  as_store : store;
  as_on_empty : loc;
  as_outstanding : Z;
}.

(** ** Operations *)
(** [upon_empty] value-initialises the sender: the scope is a null pointer. *)
Definition async_scope_upon_empty (s : async_scope) : upon_empty_sender := UponEmptySender None.
Definition upon_empty_connect (s : upon_empty_sender) (r : nat) : ue_state := UeState (ue_scope s) r.

Definition async_scope_nest (s : async_scope) : async_scope :=
  AsyncScope (as_store s) (as_on_empty s) (wrapu 64 (as_outstanding s + 1)).

(** The destructor aborts when operations wait and terminates when senders
    are outstanding. *)
Definition async_scope_dtor (s : async_scope) : option () :=
  e ← list_empty (as_store s) (as_on_empty s);
  if (e : bool) then (if decide (as_outstanding s = 0%Z) then Some tt else None) else None.

(** The locked region of [insert]; [false] when [complete] is to be called. *)
Definition async_scope_insert (s : async_scope) (x : loc) : option (bool * async_scope) :=
  let n := wrapu 64 (as_outstanding s + 1) in
  σ ← list_push_back (as_store s) (as_on_empty s) x;
  let n := wrapu 64 (n - 1) in
  if decide (0 ≠ n)%Z then Some (true, AsyncScope σ (as_on_empty s) n)
  else
    σ ← list_erase σ (make_iterator x);
    Some (false, AsyncScope σ (as_on_empty s) n).

Definition async_scope_erase (s : async_scope) (x : loc) : option async_scope :=
  σ ← list_erase (as_store s) (make_iterator x);
  Some (AsyncScope σ (as_on_empty s) (as_outstanding s)).

(** [complete]: the local list at [h] is constructed and swapped under the
    lock; then one iteration of the loop takes its first element. *)
Definition async_scope_complete_swap (s : async_scope) (h : loc) : option async_scope :=
  σ ← list_ctor (as_store s) h;
  σ ← list_swap σ (as_on_empty s) h;
  Some (AsyncScope σ (as_on_empty s) (as_outstanding s)).

Definition async_scope_complete_next (s : async_scope) (h : loc)
    : option (option loc * async_scope) :=
  e ← list_empty (as_store s) h;
  if (e : bool) then Some (None, s)
  else
    next ← list_front (as_store s) h;
    σ ← list_pop_front (as_store s) h;
    Some (Some next, AsyncScope σ (as_on_empty s) (as_outstanding s)).

Section async_scope.
(** The operation states among the objects linked in lists. *)
Context (states : gmap loc ue_state).

(** [do_complete] calls [set_value] on the receiver of an operation state. *)
Definition state_do_complete (x : loc) : list nat :=
  match states !! x with Some st => [us_receiver st] | None => [] end.

(** ** A thread starting the operation state [x]

    [h] is where the local list of [complete] is on the thread's stack. *)
Inductive as_pc :=
  | AStart (x h : loc)
  | ASwap (x h : loc)
  | ALoop (x h : loc)
  | ACall (x h y : loc)
  | AComplete (x : loc)
  | ADone.

(** [state_base::insert], one region after the other; the receivers completed
    by a step. Calling [insert] through a null pointer is undefined. *)
Definition as_thread_step (s : async_scope) (pc : as_pc)
    : option (async_scope * as_pc * list nat) :=
  match pc with
  | AStart x h =>
      st ← states !! x;
      a ← us_scope st;
      if decide (a = as_on_empty s) then
        '(queued, s) ← async_scope_insert s x;
        Some (s, if (queued : bool) then ADone else ASwap x h, [])
      else None
  | ASwap x h => s ← async_scope_complete_swap s h; Some (s, ALoop x h, [])
  | ALoop x h =>
      '(next, s) ← async_scope_complete_next s h;
      Some (s, match next with Some y => ACall x h y | None => AComplete x end, [])
  | ACall x h y => Some (s, ALoop x h, state_do_complete y)
  | AComplete x => Some (s, ADone, state_do_complete x)
  | ADone => Some (s, ADone, [])
  end.

(** The thread alone, to its end. *)
Fixpoint as_seq (fuel : nat) (s : async_scope) (pc : as_pc) (log : list nat)
    : outcome (async_scope * list nat) :=
  match pc, fuel with
  | ADone, _ => Ret (s, log)
  | _, 0 => NoFuel
  | _, S fuel =>
      '(s, pc, done) ← or_ub (as_thread_step s pc);
      as_seq fuel s pc (log ++ done)
  end.

(** Rounds of [complete] plus the steps before and after it. *)
Definition as_start (s : async_scope) (x h : loc) (log : list nat)
    : outcome (async_scope * list nat) := as_seq 7 s (AStart x h) log.

(** ** Threads interleaved *)
Record as_world := AsWorld {
  aw_scope : async_scope;
  aw_threads : gmap nat as_pc;
  aw_log : list nat;
}.

Inductive as_label := ScopeThread (t : nat) | ScopeOther.

Definition as_exec_step (w : as_world) (a : as_label) : option as_world :=
  match a with
  | ScopeThread t =>
      pc ← aw_threads w !! t;
      '(s, pc, done) ← as_thread_step (aw_scope w) pc;
      Some (AsWorld s (<[t := pc]> (aw_threads w)) (aw_log w ++ done))
  | ScopeOther => Some (AsWorld (async_scope_nest (aw_scope w)) (aw_threads w) (aw_log w))
  end.

Fixpoint as_exec (w : as_world) (schedule : list as_label) : option as_world :=
  match schedule with
  | [] => Some w
  | a :: schedule => w ← as_exec_step w a; as_exec w schedule
  end.

(** ** The operations one after the other *)
Inductive as_op := ScopeNest | ScopeStart (x h : loc) | ScopeErase (x : loc).

Definition as_op_run (s : async_scope) (log : list nat) (op : as_op)
    : outcome (async_scope * list nat) :=
  match op with
  | ScopeNest => Ret (async_scope_nest s, log)
  | ScopeStart x h => as_start s x h log
  | ScopeErase x => s ← or_ub (async_scope_erase s x); Ret (s, log)
  end.

Fixpoint as_ops_run (s : async_scope) (log : list nat) (ops : list as_op)
    : outcome (async_scope * list nat) :=
  match ops with
  | [] => Ret (s, log)
  | op :: ops => '(s, log) ← as_op_run s log op; as_ops_run s log ops
  end.

(** The abstract scope: senders outstanding, states waiting, receivers
    completed. *)
Record as_abs := AsAbs { ab_count : Z; ab_waiting : list loc; ab_done : list nat }.

(** [None] when an operation's precondition fails: a started state belongs to
    the scope and is in no list, the stack object is neither, an erased state
    waits, and the count does not wrap around. *)
Definition as_op_spec (O : loc) (D : gset loc) (a : as_abs) (op : as_op) : option as_abs :=
  let 'AsAbs n l done := a in
  match op with
  | ScopeNest => if decide (n + 1 < 2 ^ 64)%Z then Some (AsAbs (n + 1) l done) else None
  | ScopeStart x h =>
      st ← states !! x;
      if decide (us_scope st = Some O ∧ x ∈ D ∧ h ∈ D ∧ x ∉ O :: h :: l ∧ h ∉ O :: l) then
        Some (if decide (n = 0%Z) then AsAbs n l (done ++ [us_receiver st])
              else AsAbs n (l ++ [x]) done)
      else None
  | ScopeErase x => '(l1, l2) ← split_at x l; Some (AsAbs n (l1 ++ l2) done)
  end.

Definition as_ops_spec (O : loc) (D : gset loc) (a : as_abs) (ops : list as_op) : option as_abs :=
  foldl (λ a op, a ← a; as_op_spec O D a op) (Some a) ops.

Record as_repr (D : gset loc) (s : async_scope) (log : list nat) (a : as_abs) : Prop := AsRepr {
  ar_list : is_list (as_store s) (as_on_empty s) (ab_waiting a);
  ar_dom : dom (as_store s) = D;
  ar_count : as_outstanding s = ab_count a;
  ar_range : is_uint 64 (ab_count a);
  ar_log : log = ab_done a;
  ar_zero : ab_count a = 0%Z → ab_waiting a = [];
}.

Lemma wrapu_succ_pred (n : Z) : is_uint 64 n → wrapu 64 (wrapu 64 (n + 1) - 1) = n.
Proof.
  intros Hn. unfold wrapu. rewrite Zminus_mod_idemp_l. rewrite Z.add_simpl_r. by apply wrapu_small.
Qed.

(** A state that waits: the count is not zero. *)
Lemma async_scope_insert_queued s l x :
  is_list (as_store s) (as_on_empty s) l → is_uint 64 (as_outstanding s) →
  as_outstanding s ≠ 0%Z → x ∈ dom (as_store s) → x ∉ as_on_empty s :: l →
  ∃ σ, async_scope_insert s x = Some (true, AsyncScope σ (as_on_empty s) (as_outstanding s)) ∧
    is_list σ (as_on_empty s) (l ++ [x]) ∧ dom σ = dom (as_store s).
Proof.
  intros Hl Hu H0 Hx Hfresh. unfold async_scope_insert.
  destruct (list_push_back_spec _ _ _ _ Hl Hx Hfresh) as (σ & -> & Hl' & Hd & _). simpl.
  rewrite wrapu_succ_pred by done. rewrite decide_True by done. eauto.
Qed.

(** On an empty scope the list is as it was. *)
Lemma async_scope_insert_empty s x :
  is_list (as_store s) (as_on_empty s) [] → as_outstanding s = 0%Z →
  x ∈ dom (as_store s) → x ≠ as_on_empty s →
  ∃ σ, async_scope_insert s x = Some (false, AsyncScope σ (as_on_empty s) 0) ∧
    is_list σ (as_on_empty s) [] ∧ dom σ = dom (as_store s).
Proof.
  intros Hl H0 Hx Hne. unfold async_scope_insert. rewrite H0.
  destruct (list_push_back_spec _ _ _ _ Hl Hx) as (σ & -> & Hl' & Hd & _); [set_solver|]. simpl.
  unfold make_iterator. destruct (list_erase_spec σ (as_on_empty s) [] x [] Hl') as (σ' & -> & ? & _ & ? & _).
  simpl. eexists; split_and!; [done|done|congruence].
Qed.

(** Swapping with the empty list on the stack links the two heads together;
    popping the scope's head off the local list restores both. *)
Lemma async_scope_complete_empty s h :
  is_list (as_store s) (as_on_empty s) [] → h ∈ dom (as_store s) → h ≠ as_on_empty s →
  ∃ s1 s2, async_scope_complete_swap s h = Some s1 ∧
    async_scope_complete_next s1 h = Some (Some (as_on_empty s), s2) ∧
    async_scope_complete_next s2 h = Some (None, s2) ∧
    is_list (as_store s2) (as_on_empty s) [] ∧ dom (as_store s2) = dom (as_store s) ∧
    as_on_empty s2 = as_on_empty s ∧ as_outstanding s2 = as_outstanding s.
Proof.
  destruct s as [σ O n]; simpl. intros HO Hh Hne.
  unfold async_scope_complete_swap, async_scope_complete_next; simpl.
  destruct (list_ctor_spec σ h Hh) as (σ1 & -> & Hh1 & Hd1 & Hf1). simpl.
  assert (HO1 : is_list σ1 O []).
  { eapply is_list_frame; [|exact HO]. intros y ->%list_elem_of_singleton. by apply Hf1. }
  destruct HO1 as [_ [Hn Hp]], Hh1 as [_ [Hn' Hp']]. unfold link_next, link_prev in *.
  destruct (σ1 !! O) as [[]|] eqn:EO; [|done]. destruct (σ1 !! h) as [[]|] eqn:Eh; [|done].
  simplify_eq/=. rewrite (list_swap_links σ1 O h O h O h (not_eq_sym Hne) EO Eh). simpl.
  assert (Hl : is_list (<[h:=Link O O]> (<[O:=Link h h]> σ1)) h [O]).
  { split; [apply NoDup_cons; split; [by intros ?%list_elem_of_singleton|apply NoDup_singleton]|].
    simpl. unfold conn, link_next, link_prev.
    repeat (rewrite ?lookup_insert_eq, ?lookup_insert_ne by done; simpl). done. }
  destruct (list_pop_front_spec _ _ _ _ Hl) as (σ2 & Hpop & Hl2 & HO2 & Hd2 & _).
  do 2 eexists; split; [done|]; simpl. rewrite (list_empty_spec _ _ _ Hl); simpl.
  rewrite (list_front_spec _ _ _ _ Hl), Hpop; simpl.
  split; [done|]. simpl. rewrite (list_empty_spec _ _ _ Hl2); simpl.
  split_and!; [done| | |done|done].
  2:{ rewrite Hd2, dom_insert_lookup_L; [by rewrite dom_insert_lookup_L|].
      by rewrite lookup_insert_ne, Eh by done. }
  split; [apply NoDup_singleton|]. unfold chain, conn, link_next, link_prev. by rewrite HO2.
Qed.

Lemma as_seq_step fuel s pc log s' pc' done :
  pc ≠ ADone → as_thread_step s pc = Some (s', pc', done) →
  as_seq (S fuel) s pc log = as_seq fuel s' pc' (log ++ done).
Proof. intros Hpc H. by destruct pc; [..|done]; cbn [as_seq]; rewrite H. Qed.

Lemma as_seq_done fuel s log : as_seq fuel s ADone log = Ret (s, log).
Proof. by destruct fuel. Qed.

Lemma as_start_step s x h queued s' st :
  states !! x = Some st → us_scope st = Some (as_on_empty s) →
  async_scope_insert s x = Some (queued, s') →
  as_thread_step s (AStart x h) = Some (s', if (queued : bool) then ADone else ASwap x h, []).
Proof.
  intros Hst Hsc Hins. cbn. rewrite Hst; cbn. rewrite Hsc; cbn.
  by rewrite decide_True, Hins by done.
Qed.

Lemma as_start_queued s x h log st l :
  is_list (as_store s) (as_on_empty s) l → is_uint 64 (as_outstanding s) →
  as_outstanding s ≠ 0%Z → x ∈ dom (as_store s) → x ∉ as_on_empty s :: l →
  states !! x = Some st → us_scope st = Some (as_on_empty s) →
  ∃ s', as_start s x h log = Ret (s', log) ∧ is_list (as_store s') (as_on_empty s) (l ++ [x]) ∧
    dom (as_store s') = dom (as_store s) ∧ as_on_empty s' = as_on_empty s ∧
    as_outstanding s' = as_outstanding s.
Proof.
  intros Hl Hu H0 Hx Hfresh Hst Hsc.
  destruct (async_scope_insert_queued s l x) as (σ & Hins & ? & ?); [done..|].
  unfold as_start. erewrite as_seq_step; [|done|by eapply as_start_step].
  rewrite as_seq_done, app_nil_r. by eauto 10.
Qed.

Lemma as_start_empty s x h log st :
  is_list (as_store s) (as_on_empty s) [] → as_outstanding s = 0%Z →
  x ∈ dom (as_store s) → h ∈ dom (as_store s) → x ≠ as_on_empty s → h ≠ as_on_empty s →
  states !! x = Some st → us_scope st = Some (as_on_empty s) → states !! as_on_empty s = None →
  ∃ s', as_start s x h log = Ret (s', log ++ [us_receiver st]) ∧
    is_list (as_store s') (as_on_empty s) [] ∧ dom (as_store s') = dom (as_store s) ∧
    as_on_empty s' = as_on_empty s ∧ as_outstanding s' = 0%Z.
Proof.
  intros Hl H0 Hx Hh HxO HhO Hst Hsc HO.
  destruct (async_scope_insert_empty s x) as (σ & Hins & Hl1 & Hd1); [done..|].
  destruct (async_scope_complete_empty (AsyncScope σ (as_on_empty s) 0) h)
    as (s1 & s2 & Hsw & Hn1 & Hn2 & Hl2 & Hd2 & ? & ?); [done|set_solver|done|].
  unfold as_start. erewrite as_seq_step; [|done|by eapply as_start_step].
  erewrite as_seq_step; [|done|cbn; by rewrite Hsw].
  erewrite as_seq_step; [|done|cbn; by rewrite Hn1].
  erewrite as_seq_step; [|done|done].
  erewrite as_seq_step; [|done|cbn; by rewrite Hn2].
  erewrite as_seq_step; [|done|done]. rewrite as_seq_done.
  unfold state_do_complete. simpl in *. rewrite HO, Hst, !app_nil_r.
  eexists; split; [done|]. split_and!; [done|congruence|done|done].
Qed.

Lemma as_op_refine O D s log a op a' :
  states !! O = None → as_on_empty s = O → as_repr D s log a → as_op_spec O D a op = Some a' →
  ∃ s' log', as_op_run s log op = Ret (s', log') ∧ as_on_empty s' = O ∧ as_repr D s' log' a'.
Proof.
  intros HO HsO [Hl Hd Hc Hr -> Hz] Hspec. destruct a as [n l done]; simpl in *. subst n O.
  destruct op as [|x h|x]; simpl in *.
  - case_decide; [|done]. simplify_eq. unfold async_scope_nest.
    assert (Hw : wrapu 64 (as_outstanding s + 1) = (as_outstanding s + 1)%Z).
    { apply wrapu_small. unfold is_uint in *. lia. }
    rewrite Hw. do 2 eexists; split_and!; [done..|].
    split; simpl; [done..|unfold is_uint in *; lia|done|unfold is_uint in Hr; lia].
  - destruct (states !! x) as [st|] eqn:Hst; simpl in Hspec; [|done].
    case_decide as Hpre; [|done]. destruct Hpre as (Hsc & Hx & Hh & Hfx & Hfh). simplify_eq.
    case_decide as H0.
    + rewrite (Hz H0) in *. destruct (as_start_empty s x h done st) as (s' & -> & ? & ? & ? & ?);
        [set_solver..|]. do 2 eexists; split_and!; [done..|].
      split; simpl; [congruence..|lia|done|done|done].
    + destruct (as_start_queued s x h done st l) as (s' & -> & ? & ? & ? & ?); [set_solver..|].
      do 2 eexists; split_and!; [done..|]. split; simpl; congruence.
  - destruct (split_at x l) as [[l1 l2]|] eqn:Hsp; simplify_eq/=.
    apply split_at_Some in Hsp as ->. unfold async_scope_erase, make_iterator.
    destruct (list_erase_spec _ _ _ _ _ Hl) as (σ & -> & Hl' & _ & ? & _). simpl.
    do 2 eexists; split_and!; [done..|]. split; simpl; [done|congruence|done..|].
    intros H0%Hz. by apply app_nil in H0 as [].
Qed.

(** C14: One after the other, the operations of [async_scope] behave as the
    abstract scope for any sequence of nesting senders, starting [upon_empty]
    states and erasing them: with nothing outstanding a state is completed at
    once, exactly once, and the list - although [complete] swaps it - stays
    empty and usable; otherwise it is queued, in order, and as nothing ever
    decrements the count it is never completed. *)
Theorem async_scope_refinement O D s log a ops a' :
  states !! O = None → as_on_empty s = O → as_repr D s log a → as_ops_spec O D a ops = Some a' →
  ∃ s' log', as_ops_run s log ops = Ret (s', log') ∧ as_repr D s' log' a'.
Proof.
  intros HO. revert s log a. induction ops as [|op ops IH]; intros s log a Hs Ha Hops.
  - unfold as_ops_spec in Hops. simplify_eq/=. by eauto.
  - unfold as_ops_spec in Hops. simpl in Hops.
    destruct (as_op_spec O D a op) as [a1|] eqn:E.
    + destruct (as_op_refine O D s log a op a1) as (s1 & log1 & Hrun & ? & ?); [done..|].
      cbn [as_ops_run]. rewrite Hrun. cbn. by apply (IH _ _ a1).
    + exfalso. clear -Hops. induction ops; simplify_eq/=; auto.
Qed.

(** One round on a local list whose first element is linked to itself again. *)
Lemma async_scope_complete_next_stuck s x h :
  link_next (as_store s) h = Some x → h ≠ x → as_store s !! x = Some (Link x x) →
  async_scope_complete_next s h = Some (Some x, s).
Proof.
  destruct s as [σ O n]. cbn. intros Hn Hne Hx.
  unfold async_scope_complete_next, list_empty, list_front, list_pop_front, list_begin. cbn.
  rewrite Hn. cbn. rewrite bool_decide_false by done. cbn.
  by rewrite list_erase_detached.
Qed.

Lemma async_scope_complete_stuck s x l h :
  is_list (as_store s) (as_on_empty s) (x :: l) → h ∈ dom (as_store s) →
  h ∉ as_on_empty s :: x :: l →
  ∃ s1 s2, async_scope_complete_swap s h = Some s1 ∧
    async_scope_complete_next s1 h = Some (Some x, s2) ∧
    async_scope_complete_next s2 h = Some (Some x, s2).
Proof.
  destruct s as [σ O n]; cbn. intros HO Hh Hfr.
  unfold async_scope_complete_swap; cbn.
  destruct (list_ctor_spec σ h Hh) as (σ1 & -> & [_ [Hhn Hhp]] & Hd1 & Hf1); cbn.
  apply (is_list_frame σ σ1) in HO; [|intros y Hy; apply Hf1; set_solver].
  pose proof (is_list_dom _ _ _ HO) as Hdom. rewrite Forall_forall in Hdom.
  destruct HO as [Hnd HO]. pose proof (chain_last _ _ _ _ HO) as HOp.
  pose proof (chain_head _ _ _ _ HO) as HOn. destruct HO as [[_ Hxp] Hxn%chain_head].
  unfold link_next, link_prev in Hhn, Hhp, HOp, HOn.
  destruct (σ1 !! O) as [[n' p]|] eqn:EO; [|done]. destruct (σ1 !! h) as [[]|] eqn:Eh; [|done].
  cbn in HOn, HOp, Hhn, Hhp. injection HOn as ->. injection Hhn as ->. injection Hhp as ->.
  rewrite (list_swap_links σ1 O h x h p h) by set_solver. cbn.
  set (σ2 := <[h:=Link x p]> (<[O:=Link h h]> σ1)).
  apply NoDup_cons in Hnd as [HOl [Hxl _]%NoDup_cons].
  pose proof (pos_of_elem O l) as Hy. change (default O (hd_error l)) with (pos_of O l) in Hxn.
  assert (Hd2 : dom σ2 = dom σ1).
  { unfold σ2. rewrite dom_insert_lookup_L; [by rewrite dom_insert_lookup_L|].
    rewrite lookup_insert_ne by set_solver. by rewrite Eh. }
  assert (Hx2 : σ2 !! x = σ1 !! x) by (unfold σ2; rewrite !lookup_insert_ne; set_solver).
  destruct (list_erase_links σ2 x O (pos_of O l)) as (σ3 & Her & Hn3 & Hp3 & Hf3 & _).
  { unfold link_prev in *. by rewrite Hx2. }
  { unfold link_next in *. by rewrite Hx2. }
  { rewrite Hd2. apply Hdom. set_solver. }
  { rewrite Hd2. apply Hdom. set_solver. }
  { intros ->. set_solver. }
  assert (Hh2 : link_next σ2 h = Some x) by (unfold link_next, σ2; by rewrite lookup_insert_eq).
  exists (AsyncScope σ2 O n), (AsyncScope σ3 O n). split_and!; [done| |].
  - unfold async_scope_complete_next, list_empty, list_front, list_pop_front, list_begin. cbn.
    rewrite Hh2. cbn. rewrite bool_decide_false by set_solver. cbn. by rewrite Her.
  - apply async_scope_complete_next_stuck; cbn; [|set_solver|].
    + rewrite Hn3, !decide_False by set_solver. done.
    + specialize (Hn3 x). specialize (Hp3 x). rewrite decide_True in Hn3, Hp3 by done.
      unfold link_next, link_prev in *. destruct (σ3 !! x) as [[]|]; naive_solver.
Qed.

(** A thread whose rounds keep finding the same element never finishes. *)
Lemma as_seq_stuck s x h z fuel : 
  async_scope_complete_next s h = Some (Some x, s) →
  ∀ log, as_seq fuel s (ALoop z h) log = NoFuel ∧ as_seq fuel s (ACall z h x) log = NoFuel.
Proof.
  intros H. induction fuel as [|fuel IH]; intros log; [done|]. split.
  - erewrite as_seq_step; [|done|cbn; by rewrite H]. apply IH.
  - erewrite as_seq_step; [|done|done]. apply IH.
Qed.

(** Were [complete] called while states wait it would never return: after
    [swap] the local list names the first state for ever, which is completed
    again in each iteration. *)
Theorem async_scope_complete_diverges s x l h z log fuel :
  is_list (as_store s) (as_on_empty s) (x :: l) → h ∈ dom (as_store s) →
  h ∉ as_on_empty s :: x :: l →
  as_seq fuel s (ASwap z h) log = NoFuel.
Proof.
  intros Hl Hh Hfr.
  destruct (async_scope_complete_stuck s x l h Hl Hh Hfr) as (s1 & s2 & H1 & H2 & H3).
  destruct fuel as [|fuel]; [done|]. erewrite as_seq_step; [|done|cbn; by rewrite H1].
  destruct fuel as [|fuel]; [done|]. erewrite as_seq_step; [|done|cbn; by rewrite H2].
  by eapply as_seq_stuck.
Qed.

(** A state connected from [upon_empty()] cannot be started: it calls
    [insert] through the null pointer its sender was given. *)
Theorem upon_empty_start_undefined s x h log r :
  states !! x = Some (upon_empty_connect (async_scope_upon_empty s) r) →
  as_start s x h log = UB.
Proof. intros H. unfold as_start. cbn. by rewrite H. Qed.

(** The destructor runs to its end just when nothing is outstanding and no
    state waits; a scope in which a sender was nested always terminates the
    program. *)
Theorem async_scope_dtor_spec D s log a :
  as_repr D s log a → async_scope_dtor s = Some () ↔ ab_count a = 0%Z.
Proof.
  intros [Hl _ Hc _ _ Hz]. unfold async_scope_dtor. rewrite (list_empty_spec _ _ _ Hl). cbn.
  rewrite Hc. split.
  - case_bool_decide; [|done]. by case_decide.
  - intros H0. by rewrite bool_decide_true, decide_True by auto.
Qed.
End async_scope.

(** ** Concrete scopes

    The scope's list is at 1, the threads' local lists are at 2 and 3, the
    states with the receivers 70 and 71 at 11 and 12. *)
Definition demo_scope_store : store :=
  list_to_map [(1, Link 1 1); (2, Link 0 0); (3, Link 0 0); (11, Link 0 0); (12, Link 0 0)].
Definition demo_scope : async_scope := AsyncScope demo_scope_store 1 0.
Definition demo_states : gmap loc ue_state :=
  list_to_map [(11, UeState (Some 1) 70); (12, UeState (Some 1) 71)].

Lemma demo_scope_repr : as_repr (dom demo_scope_store) demo_scope [] (AsAbs 0 [] []).
Proof. split; [split; [apply NoDup_singleton|by split]|done|done|done|done|done]. Qed.

Lemma async_scope_refinement_witness :
  ∃ s' log', as_ops_run demo_states demo_scope [] [ScopeStart 11 2; ScopeNest; ScopeStart 12 3]
      = Ret (s', log') ∧
    as_repr (dom demo_scope_store) s' log' (AsAbs 1 [12] [70]).
Proof.
  apply (async_scope_refinement demo_states 1 (dom demo_scope_store) demo_scope []
    (AsAbs 0 [] [])); [done|done|exact demo_scope_repr|by vm_compute].
Defined.

Lemma async_scope_dtor_spec_witness :
  async_scope_dtor demo_scope = Some () ↔ 0%Z = 0%Z.
Proof. exact (async_scope_dtor_spec _ _ _ _ demo_scope_repr). Defined.

Lemma upon_empty_start_undefined_witness :
  as_start {[11 := upon_empty_connect (async_scope_upon_empty demo_scope) 70]}
    demo_scope 11 2 [] = UB.
Proof. by apply (upon_empty_start_undefined _ demo_scope 11 2 [] 70). Defined.

Lemma async_scope_complete_diverges_witness :
  as_seq demo_states 100 (AsyncScope demo_two 1 1) (ASwap 12 2) [] = NoFuel.
Proof.
  apply (async_scope_complete_diverges demo_states (AsyncScope demo_two 1 1) 11 [12] 2);
    [exact demo_two_is_list|by vm_compute|by apply (bool_decide_unpack _)].
Defined.

(** Between the locked regions of [complete] the scope's list is linked to
    the local list of the completing thread. When a sender is nested and a
    second state queued in that window, the completing thread completes the
    second state although a sender is outstanding. *)
Theorem async_scope_completes_nonempty :
  ∃ schedule w, as_exec demo_states
      (AsWorld demo_scope {[1 := AStart 11 2; 2 := AStart 12 3]} []) schedule = Some w ∧
    as_outstanding (aw_scope w) = 1%Z ∧ aw_log w = [71; 70] ∧
    aw_threads w = {[1 := ADone; 2 := ADone]}.
Proof.
  exists (ScopeThread 1 :: ScopeThread 1 :: ScopeOther :: ScopeThread 2 :: replicate 6 (ScopeThread 1)).
  eexists. split; [by vm_compute|by vm_compute].
Qed.

(** Two threads starting states on an empty scope can make one of them loop
    for ever: its swap picks up the local list of the other. *)
Theorem async_scope_concurrent_spin :
  ∃ schedule w, as_exec demo_states
      (AsWorld demo_scope {[1 := AStart 11 2; 2 := AStart 12 3]} []) schedule = Some w ∧
    aw_threads w !! 1 = Some ADone ∧ aw_log w = [70] ∧ aw_threads w !! 2 = Some (ALoop 12 3) ∧
    ∀ fuel, as_seq demo_states fuel (aw_scope w) (ALoop 12 3) (aw_log w) = NoFuel.
Proof.
  exists ([ScopeThread 1; ScopeThread 1; ScopeThread 2; ScopeThread 2; ScopeThread 2; ScopeThread 2]
    ++ replicate 2 (ScopeThread 1)).
  eexists. split; [by vm_compute|]. do 3 (split; [by vm_compute|]).
  intros fuel. by apply (as_seq_stuck demo_states _ 2 3 12 fuel).
Qed.
