(* ===== verification/WhenAll.v ===== *)
(** * nstd::execution::when_all

    The state of when_all (src/src/nstd/execution/when_all.hpp) as a transition
    system: the child operations complete concurrently, each on some thread,
    and each access to the shared atomics is a transition. A child's completion
    carries a value tuple, an error, or says that it was stopped. *)
From S2P Require Import Prelude.

Section when_all.
Context {V E : Type}.

(** ** Data *)

(** What a child, or the whole, completes with. *)
Inductive wa_signal := WSetValue (args : list V) | WSetError (e : E) | WSetStopped.

Inductive completion_kind := KindValue | KindError | KindStopped.

(** [state_base] with the [d_result] of the inner states; [wa_done] records
    the completions of [d_receiver]. *)
Record when_all_state := WhenAll {
  wa_kind : completion_kind;
  wa_count : nat;
  wa_stopped : bool;                      (* d_stop_source was stopped *)
  wa_error : option E;
  wa_results : list (option (list V));
  wa_done : list wa_signal;
}.

(** The constructor for [n] senders. *)
Definition when_all_ctor (n : nat) : when_all_state :=
  WhenAll KindValue n false None (replicate n None) [].

(** [do_complete]; dereferencing an empty optional is undefined. *)
Definition wa_do_complete (s : when_all_state) : option when_all_state :=
  sig ← match wa_kind s with
        | KindValue => rs ← mapM id (wa_results s); Some (WSetValue (concat rs))
        | KindError => e ← wa_error s; Some (WSetError e)
        | KindStopped => Some WSetStopped
        end;
  Some (WhenAll (wa_kind s) (wa_count s) (wa_stopped s) (wa_error s) (wa_results s)
          (wa_done s ++ [sig])).

Definition wa_set_kind (k : completion_kind) (s : when_all_state) : when_all_state :=
  WhenAll k (wa_count s) (wa_stopped s) (wa_error s) (wa_results s) (wa_done s).
Definition wa_stop (s : when_all_state) : when_all_state :=
  WhenAll (wa_kind s) (wa_count s) true (wa_error s) (wa_results s) (wa_done s).
Definition wa_emplace_error (e : E) (s : when_all_state) : when_all_state :=
  WhenAll (wa_kind s) (wa_count s) (wa_stopped s) (Some e) (wa_results s) (wa_done s).
Definition wa_emplace_result (i : nat) (args : list V) (s : when_all_state) : when_all_state :=
  WhenAll (wa_kind s) (wa_count s) (wa_stopped s) (wa_error s) (<[i := Some args]> (wa_results s))
    (wa_done s).
Definition wa_decrement (s : when_all_state) : when_all_state :=
  WhenAll (wa_kind s) (pred (wa_count s)) (wa_stopped s) (wa_error s) (wa_results s) (wa_done s).

(** Where a child's completion call is. *)
Inductive wa_pc :=
  | PRunning                       (* not completed yet *)
  | PBegin (c : wa_signal)         (* the completion function was called *)
  | PStop (c : wa_signal)          (* exchanged d_kind: about to stop *)
  | PEmplace (e : E)               (* about to store the error *)
  | PComplete (c : wa_signal)      (* about to decrement d_count *)
  | PDoComplete (c : wa_signal)    (* it was the last *)
  | PEnd (c : wa_signal).

(** The receiver's [set_value], [set_error] and [set_stopped], then
    [complete]. *)
Definition receiver_step (i : nat) (s : when_all_state) (pc : wa_pc)
    : option (when_all_state * wa_pc) :=
  match pc with
  | PRunning => None
  | PBegin (WSetValue args) => Some (wa_emplace_result i args s, PComplete (WSetValue args))
  | PBegin (WSetError e) =>
      match wa_kind s with
      | KindValue => Some (wa_set_kind KindError s, PStop (WSetError e))
      | _ => Some (s, PComplete (WSetError e))
      end
  | PBegin WSetStopped =>
      match wa_kind s with
      | KindValue => Some (wa_set_kind KindStopped s, PStop WSetStopped)
      | _ => Some (s, PComplete WSetStopped)
      end
  | PStop (WSetError e) => Some (wa_stop s, PEmplace e)
  | PStop c => Some (wa_stop s, PComplete c)
  | PEmplace e => Some (wa_emplace_error e s, PComplete (WSetError e))
  | PComplete c =>
      let s := wa_decrement s in
      Some (s, if decide (wa_count s = 0) then PDoComplete c else PEnd c)
  | PDoComplete c => s ← wa_do_complete s; Some (s, PEnd c)
  | PEnd _ => None
  end.

(** A child may complete in any way; [on_stop] passes on a stop request of
    the outer receiver at any time. *)
Inductive wa_step : relation (when_all_state * list wa_pc) :=
  | wa_step_complete s pcs i c :
      pcs !! i = Some PRunning → wa_step (s, pcs) (s, <[i := PBegin c]> pcs)
  | wa_step_receiver s pcs i pc s' pc' :
      pcs !! i = Some pc → receiver_step i s pc = Some (s', pc') →
      wa_step (s, pcs) (s', <[i := pc']> pcs)
  | wa_step_on_stop s pcs : wa_step (s, pcs) (wa_stop s, pcs).

Definition wa_reachable (n : nat) (w : when_all_state * list wa_pc) : Prop :=
  rtc wa_step (when_all_ctor n, replicate n PRunning) w.

(** ** The invariant *)

(** The children that did not decrement the count yet. *)
Definition counted (pc : wa_pc) : bool :=
  match pc with PDoComplete _ | PEnd _ => false | _ => true end.
Definition completing (pc : wa_pc) : bool := match pc with PDoComplete _ => true | _ => false end.
(** The child won the exchange of [d_kind] and did not store its error yet. *)
Definition pending_error (pc : wa_pc) : bool :=
  match pc with PStop _ | PEmplace _ => true | _ => false end.

(** What a child completed with. *)
Definition pc_signal (pc : wa_pc) : option wa_signal :=
  match pc with
  | PRunning => None
  | PBegin c | PStop c | PComplete c | PDoComplete c | PEnd c => Some c
  | PEmplace e => Some (WSetError e)
  end.

Definition count_pc (f : wa_pc → bool) (pcs : list wa_pc) : nat :=
  sum_list_with (λ pc, Nat.b2n (f pc)) pcs.

Lemma count_pc_insert f pcs i pc pc' :
  pcs !! i = Some pc →
  count_pc f (<[i := pc']> pcs) + Nat.b2n (f pc) = count_pc f pcs + Nat.b2n (f pc').
Proof. apply (sum_list_with_insert (λ pc, Nat.b2n (f pc))). Qed.

Lemma count_pc_replicate f n pc : count_pc f (replicate n pc) = n * Nat.b2n (f pc).
Proof. unfold count_pc. induction n; simpl; lia. Qed.

Lemma count_pc_zero f pcs : count_pc f pcs = 0 ↔ ∀ i pc, pcs !! i = Some pc → f pc = false.
Proof.
  unfold count_pc. induction pcs as [|x pcs IH]; simpl; [by split|].
  split.
  - intros Hx [|i] pc H; simplify_eq/=.
    + destruct (f pc); simpl in *; [lia|done].
    + apply (proj1 IH) with i; [lia|done].
  - intros H. rewrite (H 0 x eq_refl). simpl. apply IH. intros i pc ?. by apply (H (S i)).
Qed.

(** What holds of child [i]. *)
Definition child_ok (s : when_all_state) (i : nat) (pc : wa_pc) : Prop :=
  match pc with
  | PRunning | PBegin _ => True
  | PStop (WSetValue _) => False
  | PStop (WSetError _) | PEmplace _ => wa_kind s = KindError ∧ wa_error s = None
  | PStop WSetStopped => wa_kind s = KindStopped
  | PComplete (WSetValue args) | PDoComplete (WSetValue args) | PEnd (WSetValue args) =>
      wa_results s !! i = Some (Some args)
  | PComplete _ | PDoComplete _ | PEnd _ => wa_kind s ≠ KindValue
  end.

(** The child whose exchange of [d_kind] succeeded decides. *)
Definition winner (s : when_all_state) (pcs : list wa_pc) : Prop :=
  match wa_kind s with
  | KindValue => wa_error s = None
  | KindError => ∃ i pc e, pcs !! i = Some pc ∧ pc_signal pc = Some (WSetError e) ∧
      (wa_error s = Some e ∨ wa_error s = None ∧ pending_error pc = true) ∧
      (∀ j pcj, pcs !! j = Some pcj → j ≠ i → pending_error pcj = false)
  | KindStopped => ∃ i pc, pcs !! i = Some pc ∧ pc_signal pc = Some WSetStopped
  end.

(** The outcome the children's signals allow: all values, concatenated in
    order, or a signal of a child that did not yield a value. *)
Definition outcome_of (pcs : list wa_pc) (sig : wa_signal) : Prop :=
  match sig with
  | WSetValue args =>
      ∃ argss, pc_signal <$> pcs = (λ a, Some (WSetValue a)) <$> argss ∧ args = concat argss
  | _ => ∃ i pc, pcs !! i = Some pc ∧ pc_signal pc = Some sig
  end.

Record wa_inv (w : when_all_state * list wa_pc) : Prop := {
  wi_length : length (wa_results w.1) = length w.2;
  wi_count : wa_count w.1 = count_pc counted w.2;
  wi_done : length (wa_done w.1) + count_pc completing w.2 =
              if decide (wa_count w.1 = 0) then 1 else 0;
  wi_child i pc : w.2 !! i = Some pc → child_ok w.1 i pc;
  wi_winner : winner w.1 w.2;
  wi_stop : wa_kind w.1 ≠ KindValue →
              wa_stopped w.1 = true ∨ ∃ i c, w.2 !! i = Some (PStop c);
  wi_outcome sig : sig ∈ wa_done w.1 → outcome_of w.2 sig;
}.

(** *** Frame lemmas *)
Lemma outcome_insert pcs i pc pc' sig :
  pcs !! i = Some pc → (pc_signal pc = None ∨ pc_signal pc' = pc_signal pc) →
  outcome_of pcs sig → outcome_of (<[i := pc']> pcs) sig.
Proof.
  intros Hi Hsig.
  assert (Hex : ∀ c, (∃ j q, pcs !! j = Some q ∧ pc_signal q = Some c) →
    ∃ j q, <[i := pc']> pcs !! j = Some q ∧ pc_signal q = Some c).
  { intros c (j & q & Hj & Hq). destruct (decide (j = i)) as [->|].
    - exists i, pc'. simplify_eq. split; [|destruct Hsig; congruence].
      apply list_lookup_insert_eq. by apply lookup_lt_Some in Hi.
    - exists j, q. by rewrite list_lookup_insert_ne. }
  destruct sig as [args|e|]; simpl; [|by apply Hex..].
  intros (argss & Heq & ->). exists argss. split; [|done].
  rewrite list_fmap_insert, Heq. apply list_insert_id. rewrite <-Heq.
  rewrite list_lookup_fmap, Hi. simpl. destruct Hsig as [Hn| ->]; [|done].
  assert (Hf : (pc_signal <$> pcs) !! i = Some None) by (by rewrite list_lookup_fmap, Hi; simpl; f_equal).
  rewrite Heq, list_lookup_fmap in Hf. by destruct (argss !! i).
Qed.

Lemma winner_frame s s' pcs i pc pc' :
  wa_kind s' = wa_kind s → wa_error s' = wa_error s → pcs !! i = Some pc →
  (pc_signal pc = None ∨ pc_signal pc' = pc_signal pc) →
  (wa_kind s = KindError → pending_error pc' = pending_error pc) →
  winner s pcs → winner s' (<[i := pc']> pcs).
Proof.
  unfold winner. intros -> -> Hi Hsig Hp. pose proof (lookup_lt_Some _ _ _ Hi) as Hlt.
  destruct (wa_kind s); [done|specialize (Hp eq_refl)|clear Hp].
  - intros (j & q & e & Hj & Hq & He & Hu). destruct (decide (j = i)) as [->|Hne].
    + simplify_eq. exists i, pc', e. rewrite list_lookup_insert_eq by done.
      split_and!; [done|destruct Hsig; congruence|by rewrite Hp|].
      intros k pck Hk Hki. rewrite list_lookup_insert_ne in Hk by done. eauto.
    + exists j, q, e. rewrite list_lookup_insert_ne by done. split_and!; [done..|].
      intros k pck Hk Hkj. destruct (decide (k = i)) as [->|].
      * rewrite list_lookup_insert_eq in Hk by done. simplify_eq. rewrite Hp. eauto.
      * rewrite list_lookup_insert_ne in Hk by done. eauto.
  - intros Hw. by apply (outcome_insert _ _ pc _ WSetStopped).
Qed.

Lemma child_frame s s' i pc :
  wa_kind s' = wa_kind s → wa_error s' = wa_error s → wa_results s' !! i = wa_results s !! i →
  child_ok s i pc → child_ok s' i pc.
Proof. intros Hk He Hr. destruct pc as [|c|c|e|c|c|c]; simpl; try (destruct c; simpl); by rewrite ?Hk, ?He, ?Hr. Qed.

(** A child won the exchange: none had before. *)
Lemma child_exchange s k i pc :
  wa_kind s = KindValue → k ≠ KindValue → child_ok s i pc → child_ok (wa_set_kind k s) i pc.
Proof.
  intros Hv Hk. destruct pc as [|c|c|e|c|c|c]; simpl; try (destruct c; simpl); try done.
  all: rewrite ?Hv; naive_solver.
Qed.

Lemma not_pending s i pc :
  wa_kind s = KindValue → child_ok s i pc → pending_error pc = false.
Proof.
  intros Hv. destruct pc as [|c|c|e|c|c|c]; simpl; try (destruct c; simpl); rewrite ?Hv; naive_solver.
Qed.

Lemma child_value s i pc :
  wa_kind s = KindValue → counted pc = false → child_ok s i pc →
  ∃ args, wa_results s !! i = Some (Some args) ∧ pc_signal pc = Some (WSetValue args).
Proof.
  intros Hv. destruct pc as [|c|c|e|c|c|c]; simpl; try done; destruct c; simpl; naive_solver.
Qed.

(** All results stored and all signals values: they agree. *)
Lemma collect_values (rs : list (option (list V))) (pcs : list wa_pc) :
  length rs = length pcs →
  (∀ i pc, pcs !! i = Some pc →
     ∃ args, rs !! i = Some (Some args) ∧ pc_signal pc = Some (WSetValue args)) →
  ∃ argss, mapM id rs = Some argss ∧ pc_signal <$> pcs = (λ a, Some (WSetValue a)) <$> argss.
Proof.
  revert rs. induction pcs as [|pc pcs IH]; intros [|r rs] Hl H; simplify_eq/=.
  - by exists [].
  - destruct (H 0 pc eq_refl) as (args & ? & Hs). simplify_eq/=.
    destruct (IH rs) as (argss & Hm & Heq); [lia|intros i q Hq; by apply (H (S i))|].
    exists (args :: argss). split; [|simpl; by rewrite Hs, Heq].
    apply (mapM_Some_2 id (Some args :: rs)). constructor; [done|by apply mapM_Some_1].
Qed.

(** The last child completes the whole. *)
Lemma do_complete_spec s pcs :
  wa_inv (s, pcs) → wa_count s = 0 →
  ∃ sig, wa_do_complete s = Some (WhenAll (wa_kind s) 0 (wa_stopped s) (wa_error s)
           (wa_results s) (wa_done s ++ [sig])) ∧ outcome_of pcs sig.
Proof.
  intros [Hl Hc Hd Hch Hw Hst Ho] H0; simpl in *. unfold wa_do_complete. rewrite H0 in *.
  assert (Hnc : ∀ i pc, pcs !! i = Some pc → counted pc = false) by (by apply count_pc_zero).
  unfold winner in Hw. destruct (wa_kind s) eqn:Hk.
  - destruct (collect_values (wa_results s) pcs) as (argss & Hm & Heq); [done| |].
    { intros i pc Hi. eapply child_value; eauto. }
    rewrite Hm. simpl. eexists. split; [done|]. by exists argss.
  - destruct Hw as (i & pc & e & Hi & Hs & [He|[_ Hp]] & _).
    + rewrite He. simpl. eexists. split; [done|]. simpl. eauto.
    + specialize (Hnc i pc Hi). by destruct pc.
  - simpl. eexists. split; [done|]. done.
Qed.

(** *** Preservation *)
Lemma wa_inv_init n : 0 < n → wa_inv (when_all_ctor n, replicate n PRunning).
Proof.
  intros Hn. split; simpl; try done.
  - by rewrite !length_replicate.
  - rewrite count_pc_replicate. simpl. lia.
  - rewrite count_pc_replicate. simpl. rewrite decide_False by lia. lia.
  - intros i pc [-> _]%lookup_replicate_1. done.
  - intros sig Hsig. by apply elem_of_nil in Hsig.
Qed.

(** Updating child [i]: the parts of the invariant about the other children. *)
Lemma child_insert s' (pcs : list wa_pc) i pc' :
  (∀ j pc, pcs !! j = Some pc → j ≠ i → child_ok s' j pc) → child_ok s' i pc' →
  ∀ j pc, <[i := pc']> pcs !! j = Some pc → child_ok s' j pc.
Proof.
  intros Hj Hi j pc Hpc. apply list_lookup_insert_Some in Hpc as [(-> & -> & _)|[? Hpc]]; eauto.
Qed.

(** A receiver step that leaves the count and the completions alone. *)
Lemma wa_inv_quiet s s' pcs i pc pc' :
  wa_inv (s, pcs) → pcs !! i = Some pc →
  (pc_signal pc = None ∨ pc_signal pc' = pc_signal pc) →
  counted pc = true → counted pc' = true →
  length (wa_results s') = length (wa_results s) →
  wa_count s' = wa_count s → wa_done s' = wa_done s →
  (∀ j q, pcs !! j = Some q → j ≠ i → child_ok s' j q) → child_ok s' i pc' →
  winner s' (<[i := pc']> pcs) →
  (wa_kind s' ≠ KindValue → wa_stopped s' = true ∨ ∃ j c, <[i := pc']> pcs !! j = Some (PStop c)) →
  wa_inv (s', <[i := pc']> pcs).
Proof.
  intros [Hl Hc Hd Hch Hw Hst Ho] Hi Hsig Hc1 Hc2 Hrs Hcnt Hdone Hj Hi' Hw' Hst'; simpl in *.
  pose proof (count_pc_insert counted pcs i pc pc' Hi) as Hcc.
  pose proof (count_pc_insert completing pcs i pc pc' Hi) as Hcm.
  assert (completing pc = false ∧ completing pc' = false) as [Hm1 Hm2] by (by destruct pc, pc').
  rewrite Hc1, Hc2 in Hcc. rewrite Hm1, Hm2 in Hcm. simpl in *.
  split; simpl; [| | |by eapply child_insert|done|done|].
  - by rewrite Hrs, length_insert.
  - lia.
  - rewrite Hdone, Hcnt. lia.
  - rewrite Hdone. intros sig Hs. eapply outcome_insert; eauto.
Qed.

(** The decrement of [d_count]. *)
Lemma wa_inv_decrement s pcs i c :
  wa_inv (s, pcs) → pcs !! i = Some (PComplete c) →
  wa_inv (wa_decrement s,
    <[i := if decide (wa_count (wa_decrement s) = 0) then PDoComplete c else PEnd c]> pcs).
Proof.
  intros [Hl Hc Hd Hch Hw Hst Ho] Hi; simpl in *.
  set (pc' := if decide (pred (wa_count s) = 0) then PDoComplete c else PEnd c).
  pose proof (count_pc_insert counted pcs i _ pc' Hi) as Hcc.
  pose proof (count_pc_insert completing pcs i _ pc' Hi) as Hcm.
  assert (Hct : counted pc' = false) by (unfold pc'; by destruct (decide (pred (wa_count s) = 0))).
  assert (Hcg : Nat.b2n (completing pc') = if decide (pred (wa_count s) = 0) then 1 else 0)
    by (unfold pc'; by destruct (decide (pred (wa_count s) = 0))).
  assert (Hsg : pc_signal pc' = Some c) by (unfold pc'; by destruct (decide (pred (wa_count s) = 0))).
  assert (Hpd : pending_error pc' = false) by (unfold pc'; by destruct (decide (pred (wa_count s) = 0))).
  assert (Hok : child_ok (wa_decrement s) i pc').
  { specialize (Hch i _ Hi). unfold pc'. by case_decide. }
  rewrite Hct in Hcc. rewrite Hcg in Hcm. simpl in *.
  split; simpl.
  - by rewrite length_insert.
  - lia.
  - rewrite decide_False in Hd by lia. lia.
  - eapply child_insert; [|done]. intros j q Hj _. by apply (child_frame s), Hch.
  - eapply winner_frame; eauto.
  - intros Hk. destruct (Hst Hk) as [|(j & q & Hj)]; [by left|right].
    exists j, q. rewrite list_lookup_insert_ne; [done|congruence].
  - intros sig Hs. eapply outcome_insert; [done| |by apply Ho]. right. by rewrite Hsg.
Qed.

(** The completion of [d_receiver]. *)
Lemma wa_inv_completed s s' pcs i c :
  wa_inv (s, pcs) → pcs !! i = Some (PDoComplete c) → wa_do_complete s = Some s' →
  wa_inv (s', <[i := PEnd c]> pcs).
Proof.
  intros Hinv Hi Hs'.
  pose proof (count_pc_insert counted pcs i _ (PEnd c) Hi) as Hcc.
  pose proof (count_pc_insert completing pcs i _ (PEnd c) Hi) as Hcm.
  assert (H0 : wa_count s = 0).
  { destruct Hinv as [_ _ Hd _ _ _ _]. simpl in *. case_decide; [done|lia]. }
  destruct (do_complete_spec s pcs Hinv H0) as (sig & Hd' & Hout). simplify_eq.
  destruct Hinv as [Hl Hc Hd Hch Hw Hst Ho]; simpl in *. rewrite H0 in *.
  split; simpl.
  - by rewrite length_insert.
  - lia.
  - rewrite length_app. simpl in *. lia.
  - eapply child_insert; [intros j q Hj _; by apply (child_frame s), Hch|].
    apply (child_frame s); try done. apply (Hch i _ Hi).
  - eapply winner_frame; eauto.
  - intros Hk. destruct (Hst Hk) as [|(j & q & Hj)]; [by left|right].
    exists j, q. rewrite list_lookup_insert_ne; [done|congruence].
  - intros sig' [Hs| ->%list_elem_of_singleton]%elem_of_app; eapply outcome_insert; eauto.
Qed.

(** A child that loses the exchange, or has nothing to exchange. *)
Lemma wa_inv_pass s s' pcs i pc pc' :
  wa_inv (s, pcs) → pcs !! i = Some pc →
  (pc_signal pc = None ∨ pc_signal pc' = pc_signal pc) →
  counted pc = true → counted pc' = true → pending_error pc' = pending_error pc →
  wa_kind s' = wa_kind s → wa_error s' = wa_error s → wa_count s' = wa_count s →
  wa_done s' = wa_done s →
  (wa_stopped s' = true ∨ wa_stopped s' = wa_stopped s ∧ ∀ c, pc ≠ PStop c) →
  length (wa_results s') = length (wa_results s) →
  (∀ j, j ≠ i → wa_results s' !! j = wa_results s !! j) → child_ok s' i pc' →
  wa_inv (s', <[i := pc']> pcs).
Proof.
  intros Hinv Hi Hsig Hc1 Hc2 Hp Hk He Hcnt Hdone Hstp Hrs Hj Hi'.
  eapply wa_inv_quiet; eauto; destruct Hinv as [Hl Hc Hd Hch Hw Hst Ho]; simpl in *.
  - intros j q Hq Hne. apply (child_frame s); eauto.
  - eapply winner_frame; eauto.
  - rewrite Hk. intros Hv. destruct Hstp as [|[-> Hn]]; [by left|].
    destruct (Hst Hv) as [|(j & c & Hjc)]; [by left|right]. exists j, c.
    rewrite list_lookup_insert_ne; [done|]. intros ->. simplify_eq. by eapply Hn.
Qed.

(** A child that wins the exchange. *)
Lemma wa_inv_exchange s k pcs i c :
  wa_inv (s, pcs) → pcs !! i = Some (PBegin c) → wa_kind s = KindValue →
  wa_error s = None →
  (k = KindError ∧ (∃ e, c = WSetError e) ∨ k = KindStopped ∧ c = WSetStopped) →
  wa_inv (wa_set_kind k s, <[i := PStop c]> pcs).
Proof.
  intros Hinv Hi Hv He Hk. pose proof (lookup_lt_Some _ _ _ Hi) as Hlt.
  eapply wa_inv_quiet; eauto; destruct Hinv as [Hl Hc Hd Hch Hw Hst Ho]; simpl in *.
  - intros j q Hq Hne. apply child_exchange; [done|naive_solver|by apply Hch].
  - destruct Hk as [(-> & e & ->)|[-> ->]]; simpl; [by rewrite He|done].
  - destruct Hk as [(-> & e & ->)|[-> ->]]; unfold winner; simpl.
    + exists i, (PStop (WSetError e)), e. rewrite list_lookup_insert_eq by done.
      split_and!; [done..|by right|]. intros j q Hj Hne.
      rewrite list_lookup_insert_ne in Hj by done. eapply not_pending; eauto.
    + exists i, (PStop WSetStopped). by rewrite list_lookup_insert_eq.
  - intros _. right. exists i, c. by rewrite list_lookup_insert_eq.
Qed.

(** The winner stores its error. *)
Lemma wa_inv_emplace s pcs i e :
  wa_inv (s, pcs) → pcs !! i = Some (PEmplace e) →
  wa_inv (wa_emplace_error e s, <[i := PComplete (WSetError e)]> pcs).
Proof.
  intros Hinv Hi. pose proof (lookup_lt_Some _ _ _ Hi) as Hlt.
  destruct (wi_child _ Hinv i _ Hi) as [Hk He]. simpl in Hk, He.
  assert (Hu : ∀ j q, pcs !! j = Some q → j ≠ i → pending_error q = false).
  { pose proof (wi_winner _ Hinv) as Hw. unfold winner in Hw. simpl in Hw. rewrite Hk in Hw.
    destruct Hw as (i' & q' & e' & Hi' & Hs' & He' & Hu).
    destruct (decide (i = i')) as [->|Hne]; [done|]. by specialize (Hu i _ Hi Hne). }
  eapply wa_inv_quiet; eauto; destruct Hinv as [Hl Hc Hd Hch Hw Hst Ho]; simpl in *.
  - intros j q Hq Hne. specialize (Hu j q Hq Hne). specialize (Hch j q Hq).
    by destruct q as [|c|c|e'|c|c|c]; try destruct c.
  - by rewrite Hk.
  - unfold winner. simpl. rewrite Hk. exists i, (PComplete (WSetError e)), e.
    rewrite list_lookup_insert_eq by done. split_and!; [done..|by left|].
    intros j q Hj Hne. rewrite list_lookup_insert_ne in Hj by done. eauto.
  - intros Hv. destruct (Hst Hv) as [|(j & c & Hjc)]; [by left|right]. exists j, c.
    rewrite list_lookup_insert_ne; [done|congruence].
Qed.

Lemma wa_inv_receiver s pcs i pc s' pc' :
  wa_inv (s, pcs) → pcs !! i = Some pc → receiver_step i s pc = Some (s', pc') →
  wa_inv (s', <[i := pc']> pcs).
Proof.
  intros Hinv Hi Hstep.
  pose proof (wi_child _ Hinv i _ Hi) as Hok. pose proof (wi_length _ Hinv) as Hl. simpl in Hok, Hl.
  assert (He : wa_kind s = KindValue → wa_error s = None).
  { intros Hv. pose proof (wi_winner _ Hinv) as Hw. unfold winner in Hw. simpl in Hw. by rewrite Hv in Hw. }
  destruct pc as [|c|c|e|c|c|c]; simpl in Hstep; [done| | | | | |done].
  - destruct c as [args|e|].
    + simplify_eq. eapply wa_inv_pass; eauto; simpl; try done.
      * by rewrite length_insert.
      * intros j Hj. by rewrite list_lookup_insert_ne.
      * apply list_lookup_insert_eq. rewrite Hl. by eapply lookup_lt_Some.
    + destruct (wa_kind s) eqn:Hk; simplify_eq;
        [eapply wa_inv_exchange; eauto; naive_solver|..];
        (eapply wa_inv_pass; eauto; simpl; by rewrite Hk).
    + destruct (wa_kind s) eqn:Hk; simplify_eq;
        [eapply wa_inv_exchange; eauto; naive_solver|..];
        (eapply wa_inv_pass; eauto; simpl; by rewrite Hk).
  - destruct c as [args|e|]; simplify_eq/=; [done|..].
    + eapply wa_inv_pass; eauto.
    + pose proof (lookup_lt_Some _ _ _ Hi) as Hlt.
      eapply wa_inv_quiet; eauto; destruct Hinv as [_ Hc Hd Hch Hw Hst Ho]; simpl in *.
      * intros j q Hq Hne. apply (child_frame s); eauto.
      * by rewrite Hok.
      * eapply winner_frame; eauto. simpl. by rewrite Hok.
  - simplify_eq. by apply wa_inv_emplace.
  - simplify_eq. by apply wa_inv_decrement.
  - apply option_bind_Some_inv in Hstep as (s1 & Hs1 & ?). simplify_eq.
    by eapply wa_inv_completed.
Qed.

Lemma wa_inv_step w w' : wa_inv w → wa_step w w' → wa_inv w'.
Proof.
  intros Hinv Hstep. destruct Hstep as [s pcs i c Hi|s pcs i pc s' pc' Hi Hr|s pcs].
  - eapply wa_inv_pass; eauto; simpl; done.
  - by eapply wa_inv_receiver.
  - destruct Hinv as [Hl Hc Hd Hch Hw Hst Ho]; simpl in *. split; simpl; try done.
    by left.
Qed.

Lemma wa_inv_reachable n w : 0 < n → wa_reachable n w → wa_inv w.
Proof. intros Hn. apply rtc_invariant; [apply wa_inv_step|by apply wa_inv_init]. Qed.

(** A child that started to complete is never stuck and never dereferences
    an empty optional. *)
Lemma receiver_total s pcs i pc :
  wa_inv (s, pcs) → pcs !! i = Some pc → pc ≠ PRunning → (∀ c, pc ≠ PEnd c) →
  is_Some (receiver_step i s pc).
Proof.
  intros Hinv Hi Hr He. destruct pc as [|c|c|e|c|c|c]; simpl; [done| | | |..].
  - destruct c; simpl; [done|by destruct (wa_kind s)..].
  - destruct c; done.
  - done.
  - done.
  - assert (H0 : wa_count s = 0).
    { pose proof (wi_done _ Hinv) as Hd. simpl in Hd.
      pose proof (count_pc_insert completing pcs i _ (PEnd c) Hi) as Hcm. simpl in Hcm.
      case_decide; [done|lia]. }
    destruct (do_complete_spec s pcs Hinv H0) as (sig & Hd & _). by rewrite Hd.
  - by edestruct He.
Qed.

(** ** Progress

    The steps a child's completion takes at most. *)
Definition pc_rank (pc : wa_pc) : nat :=
  match pc with
  | PRunning => 6 | PBegin _ => 5 | PStop _ => 4 | PEmplace _ => 3
  | PComplete _ => 2 | PDoComplete _ => 1 | PEnd _ => 0
  end.

Definition wa_rank (w : when_all_state * list wa_pc) : nat := sum_list_with pc_rank w.2.

Lemma receiver_rank i s pc s' pc' :
  receiver_step i s pc = Some (s', pc') → pc_rank pc' < pc_rank pc.
Proof.
  destruct pc as [|c|c|e|c|c|c]; simpl; intros H; [done|..].
  - destruct c; [|destruct (wa_kind s)..]; simplify_eq; simpl; lia.
  - destruct c; simplify_eq; simpl; lia.
  - simplify_eq; simpl; lia.
  - simplify_eq. case_decide; simpl; lia.
  - apply option_bind_Some_inv in H as (? & ? & ?). simplify_eq. simpl. lia.
  - done.
Qed.

(** ** Properties *)

(** C6: when_all of n > 0 senders completes its receiver exactly once. However
    the children's completions, their accesses to the shared atomics and stop
    requests interleave: before every child has decremented the count nothing
    was completed; once all children's completion calls returned there is one
    completion, which carries the concatenation of all children's values in
    the senders' order if all of them yielded values, and otherwise an error
    or the stopped signal which one of the children sent - and then the
    children were asked to stop. *)
Theorem when_all_completes_once (n : nat) (s : when_all_state) (pcs : list wa_pc) :
  0 < n → wa_reachable n (s, pcs) →
  ((∃ i pc, pcs !! i = Some pc ∧ counted pc = true) → wa_done s = []) ∧
  length (wa_done s) ≤ 1 ∧
  ((∀ i pc, pcs !! i = Some pc → ∃ c, pc = PEnd c) →
   ∃ sig, wa_done s = [sig] ∧ outcome_of pcs sig ∧
     ((∀ args, sig ≠ WSetValue args) → wa_stopped s = true)).
Proof.
  intros Hn Hr%wa_inv_reachable; [|done]. destruct Hr as [Hl Hc Hd Hch Hw Hst Ho]; simpl in *.
  split_and!.
  - intros (i & pc & Hi & Hp). apply nil_length_inv. rewrite decide_False in Hd; [lia|].
    intros H0. rewrite H0 in Hc. symmetry in Hc. rewrite count_pc_zero in Hc.
    specialize (Hc i pc Hi). congruence.
  - case_decide; lia.
  - intros Hend.
    assert (H0 : count_pc counted pcs = 0)
      by (apply count_pc_zero; intros i pc Hi; by destruct (Hend i pc Hi) as (? & ->)).
    assert (H1 : count_pc completing pcs = 0)
      by (apply count_pc_zero; intros i pc Hi; by destruct (Hend i pc Hi) as (? & ->)).
    rewrite decide_True in Hd by lia.
    destruct (wa_done s) as [|sig [|]]; simpl in Hd; [lia| |lia].
    exists sig. assert (Hout : outcome_of pcs sig) by set_solver. split_and!; [done..|].
    intros Hsig. destruct Hst as [|(i & c & Hi)]; [|done|by destruct (Hend _ _ Hi)].
    destruct sig as [args|e|]; [by edestruct Hsig|..]; destruct Hout as (i & pc & Hi & Hs);
      destruct (Hend i pc Hi) as (c & ->); specialize (Hch i _ Hi); simplify_eq/=; done.
Qed.

(** The completion calls of when_all's children always finish: a child
    that was completed can take its next step in every reachable state - in
    particular completing the receiver never dereferences an empty result or
    error - and each step lowers a measure of at most 6 steps per child. *)
Theorem when_all_progress (n : nat) (s : when_all_state) (pcs : list wa_pc) :
  0 < n → wa_reachable n (s, pcs) →
  (∀ i pc, pcs !! i = Some pc → pc ≠ PRunning → (∀ c, pc ≠ PEnd c) →
   ∃ s' pc', receiver_step i s pc = Some (s', pc') ∧
     wa_step (s, pcs) (s', <[i := pc']> pcs) ∧
     wa_rank (s', <[i := pc']> pcs) < wa_rank (s, pcs)) ∧
  wa_rank (s, pcs) ≤ 6 * n.
Proof.
  intros Hn Hr. split.
  - intros i pc Hi H1 H2.
    destruct (receiver_total s pcs i pc) as [[s' pc'] Hstep]; [by eapply wa_inv_reachable|done..|].
    exists s', pc'. split_and!; [done|by eapply wa_step_receiver|].
    unfold wa_rank. simpl. pose proof (sum_list_with_insert pc_rank pcs i pc pc' Hi).
    pose proof (receiver_rank _ _ _ _ _ Hstep). lia.
  - assert (Hlen : length pcs = n).
    { refine (rtc_invariant wa_step (λ w, length w.2 = n) _ _ _ _ Hr).
      - intros w w' <- []; simpl; by rewrite ?length_insert.
      - simpl. by rewrite length_replicate. }
    rewrite <-Hlen. unfold wa_rank. simpl. clear. induction pcs as [|pc pcs IH]; simpl; [lia|].
    destruct pc; simpl; lia.
Qed.
End when_all.
Arguments wa_signal : clear implicits.
Arguments wa_pc : clear implicits.
Arguments when_all_state : clear implicits.

(** *** Witnesses

    Two children: the first yields a value, then the second fails, and both
    completion calls run to their ends. *)
Definition wa_example : list (when_all_state nat nat * list (wa_pc nat nat)) :=
  let run i := λ w : when_all_state nat nat * list (wa_pc nat nat),
    match w.2 !! i with
    | Some PRunning => w
    | Some pc => match receiver_step i w.1 pc with
                 | Some (s, pc') => (s, <[i := pc']> w.2)
                 | None => w
                 end
    | None => w
    end in
  let complete i c := λ w : when_all_state nat nat * list (wa_pc nat nat),
    (w.1, <[i := PBegin c]> w.2) in
  let steps := [complete 0 (WSetValue [1; 2]); run 0; complete 1 (WSetError 7); run 1; run 1;
                run 0; run 1; run 1; run 1] in
  (fix go w fs := w :: match fs with [] => [] | f :: fs => go (f w) fs end)
    (when_all_ctor 2, replicate 2 PRunning) steps.

Definition wa_example_end : when_all_state nat nat * list (wa_pc nat nat) :=
  default (when_all_ctor 2, []) (last wa_example).

Lemma wa_example_reachable : wa_reachable 2 wa_example_end.
Proof.
  unfold wa_reachable. vm_compute wa_example_end.
  eapply rtc_l; [apply (wa_step_complete _ _ 0 (WSetValue [1; 2])); reflexivity|].
  eapply rtc_l; [eapply (wa_step_receiver _ _ 0); reflexivity|].
  eapply rtc_l; [apply (wa_step_complete _ _ 1 (WSetError 7)); reflexivity|].
  eapply rtc_l; [eapply (wa_step_receiver _ _ 1); reflexivity|].
  eapply rtc_l; [eapply (wa_step_receiver _ _ 1); reflexivity|].
  eapply rtc_l; [eapply (wa_step_receiver _ _ 0); reflexivity|].
  eapply rtc_l; [eapply (wa_step_receiver _ _ 1); reflexivity|].
  eapply rtc_l; [eapply (wa_step_receiver _ _ 1); reflexivity|].
  eapply rtc_l; [eapply (wa_step_receiver _ _ 1); reflexivity|].
  apply rtc_refl.
Qed.

Lemma when_all_completes_once_witness :
  ∃ sig, wa_done wa_example_end.1 = [sig] ∧ outcome_of wa_example_end.2 sig ∧
    ((∀ args, sig ≠ WSetValue args) → wa_stopped wa_example_end.1 = true).
Proof.
  apply (when_all_completes_once 2 wa_example_end.1 wa_example_end.2).
  - lia.
  - exact wa_example_reachable.
  - intros [|[|i]] pc Hi; vm_compute in Hi; [injection Hi as <-; eauto..|discriminate].
Defined.

Lemma when_all_progress_witness :
  wa_rank wa_example_end ≤ 6 * 2.
Proof.
  apply (when_all_progress 2 wa_example_end.1 wa_example_end.2).
  - lia.
  - exact wa_example_reachable.
Defined.
