(* ===== verification/RingContext.v ===== *)
(** * nstd::file::ring and nstd::file::ring_context

    The io_uring based context (src/src/nstd/file/ring.hpp and
    ring_context.{hpp,cpp}): requests are written to a submission ring which is
    shared with the kernel, results are read from a completion ring. The system
    call [io_uring_enter] is a parameter which maps the shared memory and the
    kernel's own state; what the code relies on is [kernel_laws]. *)
From S2P Require Import Prelude FileContext.
Local Open Scope Z_scope.

(** ** ring

    A ring with the values found behind [d_head] and [d_tail]; [r_array] is
    the mapped array. *)
Record ring (T : Type) := Ring {
  r_head : Z;
  r_tail : Z;
  r_mask : Z;
  r_array : gmap Z T;
}.
Arguments Ring {T} _ _ _ _.
Arguments r_head {T} _.
Arguments r_tail {T} _.
Arguments r_mask {T} _.
Arguments r_array {T} _.

Definition ring_mask {T} (r : ring T) (index : Z) : Z := Z.land index (r_mask r).
(** Reading outside of the array is undefined. *)
Definition ring_get {T} (r : ring T) (index : Z) : option T := r_array r !! ring_mask r index.
Definition ring_advance_head {T} (r : ring T) : ring T :=
  Ring (wrapu 32 (r_head r + 1)) (r_tail r) (r_mask r) (r_array r).
Definition ring_advance_tail {T} (r : ring T) : ring T :=
  Ring (r_head r) (wrapu 32 (r_tail r + 1)) (r_mask r) (r_array r).
Definition ring_store {T} (i : Z) (x : T) (r : ring T) : ring T :=
  Ring (r_head r) (r_tail r) (r_mask r) (<[i := x]> (r_array r)).

(** The pointers the constructor of [ring] computes. *)
Record ring_pointers := RingPointers { p_head : Z; p_tail : Z; p_mask : Z; p_array : Z }.

Definition ring_ctor (mem : mapped_memory) (head tail mask array : Z) : ring_pointers :=
  RingPointers (mapped_at_offset mem head) (mapped_at_offset mem tail)
    (mapped_at_offset mem mask) (mapped_at_offset mem array).

(** ** ring_context::setup *)

(** The fields of [io_uring_params] the system call fills in. *)
Record ring_params := RingParams {
  sq_entries : Z; sq_head : Z; sq_tail : Z; sq_mask : Z; sq_array : Z;
  cq_entries : Z; cq_head : Z; cq_tail : Z; cq_mask : Z; cq_cqes : Z;
  features : Z;
}.

Definition IORING_FEAT_SINGLE_MMAP : Z := 1.
Definition IORING_OFF_SQ_RING : Z := 0.
Definition IORING_OFF_CQ_RING : Z := 0x8000000.
Definition IORING_OFF_SQES : Z := 0x10000000.
Definition sizeof_uint32 : Z := 4.
Definition sizeof_cqe : Z := 16.
Definition sizeof_sqe : Z := 64.

Record ring_maps := RingMaps {
  m_smem : mapped_memory; m_cmem : mapped_memory; m_emem : mapped_memory;
  m_submission : ring_pointers; m_completion : ring_pointers; m_elements : Z;
}.

(** [io_uring_setup] yields a descriptor and the parameters; [errno] is the
    system's error number after a failure. Results: an error code, or the
    maps. *)
Definition ring_setup (io_uring_setup : Z → Z * ring_params) (mmap : Z → Z → Z → Z)
    (MAP_FAILED errno : Z) (size : Z) : Z + ring_maps :=
  let '(fd, params) := io_uring_setup size in
  if fd <? 0 then inl errno else
  let smap := sq_array params + sq_entries params * sizeof_uint32 in
  let cmap := cq_cqes params + cq_entries params * sizeof_cqe in
  let sqmap := sq_entries params * sizeof_sqe in
  let single_mmap := negb (Z.land (features params) IORING_FEAT_SINGLE_MMAP =? 0) in
  let '(smem, sok) := mapped_map mmap MAP_FAILED
    (if single_mmap then Z.max smap cmap else smap) fd IORING_OFF_SQ_RING in
  if negb sok then inl errno else
  let '(cmem, cok) :=
    if single_mmap then (mapped_default, true)
    else mapped_map mmap MAP_FAILED cmap fd IORING_OFF_CQ_RING in
  if negb cok then inl errno else
  let '(emem, eok) := mapped_map mmap MAP_FAILED sqmap fd IORING_OFF_SQES in
  if negb eok then inl errno else
  inr (RingMaps smem cmem emem
    (ring_ctor smem (sq_head params) (sq_tail params) (sq_mask params) (sq_array params))
    (ring_ctor (if single_mmap then smem else cmem)
       (cq_head params) (cq_tail params) (cq_mask params) (cq_cqes params))
    (mapped_at_offset emem 0)).

(** The constructor throws unless the error code is 0. *)
Definition ring_context_ctor (io_uring_setup : Z → Z * ring_params) (mmap : Z → Z → Z → Z)
    (MAP_FAILED errno : Z) (size : Z) : result (option ring_maps) :=
  match ring_setup io_uring_setup mmap MAP_FAILED errno size with
  | inl rc => if rc =? 0 then Ok None else Throw (system_error rc)
  | inr m => Ok (Some m)
  end.

(** ** ring_context *)

(** The used fields of [io_uring_sqe]: [flags] is its 8 bit wide field of
    that name (the IOSQE flags), [off] is also called [addr2], and [op_flags]
    is the union of [timeout_flags], [open_flags], [accept_flags] and
    [msg_flags]. *)
Inductive opcode :=
  | IORING_OP_NOP | IORING_OP_READV | IORING_OP_WRITEV | IORING_OP_SENDMSG | IORING_OP_RECVMSG
  | IORING_OP_TIMEOUT | IORING_OP_ACCEPT | IORING_OP_ASYNC_CANCEL | IORING_OP_CONNECT
  | IORING_OP_OPENAT.

Record sqe := Sqe {
  sqe_opcode : opcode;
  sqe_flags : Z;
  sqe_fd : Z;
  sqe_off : Z;
  sqe_addr : Z;
  sqe_len : Z;
  sqe_op_flags : Z;
  sqe_user_data : Z;
}.

Record cqe := Cqe { cqe_user_data : Z; cqe_res : Z; cqe_flags : Z }.

(** The fields of [ring_context] with the shared memory, the kernel's state
    [rc_kernel], and the history of the calls: the continuations submitted and
    the continuations, results and flags [result] was called with. *)
Record ring_context {K : Type} := RingContext {
  rc_submission : ring Z;
  rc_elements : gmap Z sqe;
  rc_completion : ring cqe;
  rc_outstanding : Z;
  rc_kernel : K;
  rc_submitted : list io_base;
  rc_results : list (io_base * Z * Z);
}.
Arguments ring_context : clear implicits.

(** The elements the operations write. *)
Definition sqe_zero (op : opcode) (cont : io_base) : sqe := Sqe op 0 0 0 0 0 0 cont.

Definition rc_sqe (r : request) : sqe :=
  match r with
  | RTimer time cont => Sqe IORING_OP_TIMEOUT 0 0 0 time 1 0 cont
  | RCancel to_cancel cont => Sqe IORING_OP_ASYNC_CANCEL 0 0 0 to_cancel 0 0 cont
  | RNop cont => sqe_zero IORING_OP_NOP cont
  | RAccept fd addr len flags cont => Sqe IORING_OP_ACCEPT (wrapu 8 flags) fd len addr 0 0 cont
  | RConnect fd addr len cont => Sqe IORING_OP_CONNECT 0 fd len addr 0 0 cont
  | RSendmsg fd addr flags cont => Sqe IORING_OP_SENDMSG (wrapu 8 flags) fd 0 addr 0 0 cont
  | RRecvmsg fd addr flags cont => Sqe IORING_OP_RECVMSG (wrapu 8 flags) fd 0 addr 0 0 cont
  | RRead fd vec size cont => Sqe IORING_OP_READV 0 fd 0 vec (wrapu 32 size) 0 cont
  | RWrite fd vec size cont => Sqe IORING_OP_WRITEV 0 fd 0 vec (wrapu 32 size) 0 cont
  | ROpenAt fd name flags cont => Sqe IORING_OP_OPENAT 0 fd 0 name 0 (wrapu 32 flags) cont
  end.

Section ring_context.
Context {K : Type}.
Implicit Types s : ring_context K.

(** The system call: the number of elements to submit, the number of
    completions to wait for, the flags, and the state. Its result is ignored
    by the code. It may change the kernel's state, the submission ring's head
    and the completion ring's tail and array. *)
Record shared := Shared {
  sh_kernel : K; sh_submission : ring Z; sh_elements : gmap Z sqe; sh_completion : ring cqe }.
Context (io_uring_enter : Z → Z → Z → shared → shared).
(** [io_base::result], which may submit further requests. *)
Context (io_result : io_base → Z → Z → ring_context K → outcome (ring_context K)).

Definition IORING_ENTER_GETEVENTS : Z := 1.

Definition rc_shared s : shared :=
  Shared (rc_kernel s) (rc_submission s) (rc_elements s) (rc_completion s).

Definition rc_enter (to_submit min_complete flags : Z) s : ring_context K :=
  let m := io_uring_enter to_submit min_complete flags (rc_shared s) in
  RingContext K (sh_submission m) (sh_elements m) (sh_completion m) (rc_outstanding s)
    (sh_kernel m) (rc_submitted s) (rc_results s).

(** [submit] up to [intern_submit]: writing the element and publishing it. *)
Definition rc_publish (op : sqe → sqe) (cont : io_base) s : outcome (ring_context K) :=
  let tail := r_tail (rc_submission s) in
  let index := ring_mask (rc_submission s) tail in
  element ← or_ub (rc_elements s !! index);
  Ret (RingContext K (ring_advance_tail (ring_store index index (rc_submission s)))
    (<[index := op element]> (rc_elements s)) (rc_completion s)
    (wrapu 32 (rc_outstanding s + 1)) (rc_kernel s)
    (rc_submitted s ++ [cont]) (rc_results s)).

Definition intern_submit s : ring_context K := rc_enter 1 0 0 s.

Definition rc_submit (op : sqe → sqe) (cont : io_base) s : outcome (ring_context K) :=
  s ← rc_publish op cont s; Ret (intern_submit s).

Definition rc_request (r : request) s : outcome (ring_context K) :=
  rc_submit (λ _, rc_sqe r) (request_cont r) s.

Definition process_result s : outcome (Z * ring_context K) :=
  let head := r_head (rc_completion s) in
  let tail := r_tail (rc_completion s) in
  if decide (head = tail) then Ret (0, s) else
  result ← or_ub (ring_get (rc_completion s) head);
  let s := RingContext K (rc_submission s) (rc_elements s) (ring_advance_head (rc_completion s))
    (wrapu 32 (rc_outstanding s - 1)) (rc_kernel s) (rc_submitted s)
    (rc_results s ++ [(cqe_user_data result, cqe_res result, cqe_flags result)]) in
  s ← io_result (cqe_user_data result) (cqe_res result) (cqe_flags result) s;
  Ret (1, s).

Definition rc_run_one s : outcome (Z * ring_context K) :=
  if decide (rc_outstanding s = 0) then Ret (0, s) else
  process_result (rc_enter 0 1 IORING_ENTER_GETEVENTS s).

Fixpoint rc_run (fuel : nat) (rc : Z) s : outcome (Z * ring_context K) :=
  match fuel with
  | O => NoFuel
  | S fuel =>
      if decide (rc_outstanding s = 0) then Ret (rc, s) else
      '(n, s) ← rc_run_one s;
      rc_run fuel (wrapu 64 (rc + n)) s
  end.

#[export] Instance ring_file_context : FileContext (ring_context K) := {|
  do_run_one := rc_run_one;
  do_request := rc_request;
|}.
End ring_context.
Arguments shared : clear implicits.

(** ** The contents of a ring *)
Section ring_contents.
Context {T : Type}.
Implicit Types r : ring T.

(** The entries between head and tail: indices wrap around at [2 ^ 32]. *)
Definition ring_count r : Z := wrapu 32 (r_tail r - r_head r).
Definition ring_slot r (j : nat) : Z := ring_mask r (wrapu 32 (r_head r + Z.of_nat j)).
Definition ring_content r : list T :=
  omap (λ j, r_array r !! ring_slot r j) (seq 0 (Z.to_nat (ring_count r))).

(** A ring of [2 ^ k] entries, all of which are mapped. *)
Record ring_wf (k : Z) r : Prop := RingWf {
  rw_size : 0 ≤ k < 32;
  rw_mask : r_mask r = Z.ones k;
  rw_head : is_uint 32 (r_head r);
  rw_tail : is_uint 32 (r_tail r);
  rw_count : ring_count r ≤ 2 ^ k;
  rw_mapped i : 0 ≤ i < 2 ^ k → is_Some (r_array r !! i);
}.

Lemma ring_mask_mod k r i : ring_wf k r → ring_mask r i = i `mod` 2 ^ k.
Proof. intros [? Hm _ _ _ _]. unfold ring_mask. by rewrite Hm, Z.land_ones by lia. Qed.

Lemma mod_wrapu k z : 0 ≤ k ≤ 32 → wrapu 32 z `mod` 2 ^ k = z `mod` 2 ^ k.
Proof.
  intros Hk. unfold wrapu. symmetry. rewrite (Z.div_mod z (2 ^ 32)) at 1 by lia.
  replace (2 ^ 32) with (2 ^ (32 - k) * 2 ^ k) at 1 by (rewrite <-Z.pow_add_r by lia; f_equal; lia).
  rewrite <-Z.mul_assoc, (Z.mul_comm (2 ^ k)), Z.mul_assoc, Z.add_comm, Z.mod_add; [done|].
  pose proof (Z.pow_pos_nonneg 2 k). lia.
Qed.

Lemma ring_slot_mod k r j : ring_wf k r → ring_slot r j = (r_head r + Z.of_nat j) `mod` 2 ^ k.
Proof.
  intros Hwf. unfold ring_slot. rewrite (ring_mask_mod k) by done. apply mod_wrapu.
  destruct Hwf. lia.
Qed.

Lemma ring_count_nonneg r : 0 ≤ ring_count r < 2 ^ 32.
Proof. apply wrapu_range. lia. Qed.

(** The free slot differs from all occupied ones. *)
Lemma ring_slot_tail k r j :
  ring_wf k r → (j < Z.to_nat (ring_count r))%nat → ring_count r < 2 ^ k →
  ring_slot r j ≠ ring_mask r (r_tail r).
Proof.
  intros Hwf Hj Hc. rewrite (ring_slot_mod k), (ring_mask_mod k) by done.
  pose proof (ring_count_nonneg r) as Hn. destruct Hwf as [Hk _ Hh Ht _ _].
  intros Heq.
  assert (Ht' : r_tail r `mod` 2 ^ k = (r_head r + ring_count r) `mod` 2 ^ k).
  { unfold ring_count. rewrite <-(mod_wrapu k (r_tail r)), <-(mod_wrapu k (r_head r + _)) by lia.
    f_equal. unfold wrapu. rewrite Zplus_mod_idemp_r. f_equal. lia. }
  rewrite Ht' in Heq.
  assert (Hd : (ring_count r - Z.of_nat j) `mod` 2 ^ k = 0).
  { replace (ring_count r - Z.of_nat j) with (r_head r + ring_count r - (r_head r + Z.of_nat j)) by lia.
    rewrite Zminus_mod, Heq, Z.sub_diag. apply Z.mod_0_l. pose proof (Z.pow_pos_nonneg 2 k). lia. }
  rewrite Z.mod_small in Hd; lia.
Qed.

Lemma ring_count_push k r :
  ring_wf k r → ring_count r < 2 ^ k →
  ring_count (ring_advance_tail r) = ring_count r + 1.
Proof.
  intros [Hk _ Hh Ht _ _] Hc. unfold ring_count in *. simpl.
  assert (2 ^ k ≤ 2 ^ 31) by (apply Z.pow_le_mono_r; lia).
  unfold wrapu in *. rewrite Zminus_mod_idemp_l.
  replace (r_tail r + 1 - r_head r) with (r_tail r - r_head r + 1) by lia.
  rewrite <-(Zplus_mod_idemp_l (r_tail r - r_head r)). apply Z.mod_small.
  pose proof (Z.mod_pos_bound (r_tail r - r_head r) (2 ^ 32)). lia.
Qed.

Lemma ring_count_pop k r :
  ring_wf k r → r_head r ≠ r_tail r →
  0 < ring_count r ∧ ring_count (ring_advance_head r) = ring_count r - 1.
Proof.
  intros [Hk _ Hh Ht _ _] Hne. unfold ring_count, wrapu, is_uint in *. simpl.
  assert (Hpos : (r_tail r - r_head r) `mod` 2 ^ 32 ≠ 0).
  { intros H0. destruct (decide (r_head r < r_tail r)).
    - rewrite Z.mod_small in H0; lia.
    - rewrite <-(Z.mod_add _ 1), Z.mod_small in H0 by lia. lia. }
  pose proof (Z.mod_pos_bound (r_tail r - r_head r) (2 ^ 32)).
  split; [lia|]. unfold wrapu. rewrite Zminus_mod_idemp_r.
  replace (r_tail r - (r_head r + 1)) with (r_tail r - r_head r - 1) by lia.
  rewrite <-(Zminus_mod_idemp_l (r_tail r - r_head r)). apply Z.mod_small. lia.
Qed.

Lemma ring_count_zero k r : ring_wf k r → ring_count r = 0 ↔ r_head r = r_tail r.
Proof.
  intros Hwf. split.
  - intros H0. destruct (decide (r_head r = r_tail r)); [done|].
    by destruct (ring_count_pop k r Hwf) as [? _]; [|lia].
  - intros Heq. unfold ring_count. by rewrite Heq, Z.sub_diag.
Qed.

Lemma ring_wf_advance_head k r :
  ring_wf k r → r_head r ≠ r_tail r → ring_wf k (ring_advance_head r).
Proof.
  intros Hwf Hne. destruct (ring_count_pop k r Hwf Hne) as [_ Hc]. destruct Hwf.
  split; try done; [by apply wrapu_range|lia].
Qed.

Lemma ring_mask_range k r i : ring_wf k r → 0 ≤ ring_mask r i < 2 ^ k.
Proof.
  intros Hwf. rewrite (ring_mask_mod k) by done. apply Z.mod_pos_bound.
  destruct Hwf. apply Z.pow_pos_nonneg; lia.
Qed.

Lemma ring_wf_push k r x :
  ring_wf k r → ring_count r < 2 ^ k →
  ring_wf k (ring_advance_tail (ring_store (ring_mask r (r_tail r)) x r)).
Proof.
  intros Hwf Hc. pose proof (ring_count_push k r Hwf Hc) as Hp. destruct Hwf as [? ? ? ? ? Hm].
  split; try done; simpl.
  - by apply wrapu_range.
  - change (ring_count (ring_advance_tail r) ≤ 2 ^ k). lia.
  - intros i Hi. destruct (decide (i = ring_mask r (r_tail r))) as [->|].
    + by rewrite lookup_insert_eq.
    + rewrite lookup_insert_ne by done. by apply Hm.
Qed.

Lemma omap_ext_seq {B} (f g : nat → option B) a b n :
  (∀ j, (j < n)%nat → f (a + j)%nat = g (b + j)%nat) → omap f (seq a n) = omap g (seq b n).
Proof.
  revert a b. induction n as [|n IH]; intros a b H; simpl; [done|].
  pose proof (H O) as H0. rewrite !Nat.add_0_r in H0. rewrite H0 by lia.
  assert (Ht : omap f (seq (S a) n) = omap g (seq (S b) n)).
  { apply IH. intros j Hj. specialize (H (S j)). rewrite !Nat.add_succ_r in H. apply H. lia. }
  destruct (g b); [by f_equal|done].
Qed.

(** Publishing appends to the contents, as long as there is space. *)
Lemma ring_content_push k r x :
  ring_wf k r → ring_count r < 2 ^ k →
  ring_content (ring_advance_tail (ring_store (ring_mask r (r_tail r)) x r)) =
    ring_content r ++ [x].
Proof.
  intros Hwf Hc. unfold ring_content.
  change (ring_count (ring_advance_tail (ring_store _ x r))) with (ring_count (ring_advance_tail r)).
  rewrite (ring_count_push k) by done. pose proof (ring_count_nonneg r).
  replace (Z.to_nat (ring_count r + 1)) with (Z.to_nat (ring_count r) + 1)%nat by lia.
  rewrite seq_app, omap_app. f_equal.
  - apply omap_ext_seq. intros j Hj. unfold ring_slot, ring_mask. simpl.
    apply lookup_insert_ne. intros Heq. by apply (ring_slot_tail k r j).
  - simpl. unfold ring_slot. simpl.
    assert (Hs : ring_mask r (wrapu 32 (r_head r + Z.of_nat (Z.to_nat (ring_count r)))) =
                 ring_mask r (r_tail r)).
    { f_equal. rewrite Z2Nat.id by lia. unfold ring_count, wrapu. rewrite Zplus_mod_idemp_r.
      replace (r_head r + (r_tail r - r_head r)) with (r_tail r) by lia.
      apply Z.mod_small. apply Hwf. }
    unfold ring_mask in *. simpl in *. by rewrite Hs, lookup_insert_eq.
Qed.

Lemma ring_slot_advance k r j :
  ring_wf k r → ring_wf k (ring_advance_head r) →
  ring_slot (ring_advance_head r) j = ring_slot r (S j).
Proof.
  intros Hwf Hwf'. rewrite !(ring_slot_mod k) by done. simpl.
  rewrite <-(mod_wrapu k (r_head r + _)), <-(mod_wrapu k (wrapu 32 _ + _)) by (destruct Hwf; lia).
  f_equal. unfold wrapu. rewrite Zplus_mod_idemp_l. f_equal. lia.
Qed.

(** Reading at the head takes the first entry. *)
Lemma ring_content_pop k r :
  ring_wf k r → r_head r ≠ r_tail r →
  ∃ x, ring_get r (r_head r) = Some x ∧
    ring_content r = x :: ring_content (ring_advance_head r).
Proof.
  intros Hwf Hne. destruct (ring_count_pop k r Hwf Hne) as [Hpos Hc].
  destruct (rw_mapped k r Hwf (ring_mask r (r_head r))) as [x Hx]; [by apply ring_mask_range|].
  exists x. split; [done|]. unfold ring_content. rewrite Hc.
  replace (Z.to_nat (ring_count r)) with (S (Z.to_nat (ring_count r - 1))) by lia.
  assert (H0 : ring_slot r 0 = ring_mask r (r_head r)).
  { unfold ring_slot. rewrite Z.add_0_r, wrapu_small; [done|apply Hwf]. }
  simpl. rewrite H0, Hx. f_equal.
  apply (omap_ext_seq _ _ 1 0). intros j Hj. simpl. f_equal.
  symmetry. apply (ring_slot_advance k); [done|by apply ring_wf_advance_head].
Qed.

Lemma ring_content_nil k r : ring_wf k r → ring_content r = [] ↔ r_head r = r_tail r.
Proof.
  intros Hwf. split.
  - intros Hn. destruct (decide (r_head r = r_tail r)); [done|].
    destruct (ring_content_pop k r Hwf) as (x & _ & Hx); [done|]. congruence.
  - intros Heq%(ring_count_zero k r Hwf). unfold ring_content. by rewrite Heq.
Qed.
End ring_contents.

(** ** The memory mapped by setup *)

(** When [setup] succeeds all three mappings exist and every entry of the
    submission ring's array, of the completion ring's array and of the
    submission elements lies within the memory mapped for it, whether the
    rings share one mapping or not. *)
Theorem ring_setup_in_bounds io_uring_setup mmap MAP_FAILED errno size m params fd i j :
  io_uring_setup size = (fd, params) →
  ring_setup io_uring_setup mmap MAP_FAILED errno size = inr m →
  0 ≤ i < sq_entries params → 0 ≤ j < cq_entries params →
  let inside mem p len := mm_base mem ≤ p ∧ p + len ≤ mm_base mem + mm_length mem in
  0 ≤ sq_array params → 0 ≤ cq_cqes params →
  0 ≤ fd ∧
  inside (m_smem m) (p_array (m_submission m) + sizeof_uint32 * i) sizeof_uint32 ∧
  (inside (m_smem m) (p_array (m_completion m) + sizeof_cqe * j) sizeof_cqe ∨
   inside (m_cmem m) (p_array (m_completion m) + sizeof_cqe * j) sizeof_cqe) ∧
  inside (m_emem m) (m_elements m + sizeof_sqe * i) sizeof_sqe.
Proof.
  intros Hset Hm Hi Hj inside Ha Hc. unfold ring_setup in Hm. rewrite Hset in Hm.
  destruct (Z.ltb_spec fd 0); [done|]. unfold mapped_map, inside in *.
  unfold sizeof_uint32, sizeof_cqe, sizeof_sqe in *.
  destruct (Z.land (features params) IORING_FEAT_SINGLE_MMAP =? 0); simpl in Hm;
    repeat match type of Hm with
    | context [if ?b then _ else _] => destruct b; simpl in Hm; try done
    end; simplify_eq/=; unfold mapped_at_offset; simpl;
    split_and!; try lia; first [left; split; lia | right; split; lia].
Qed.

Definition ring_example_params : ring_params :=
  RingParams 8 0 4 8 64 16 12 16 20 128 1.

Lemma ring_setup_in_bounds_witness :
  ∃ m, ring_setup (λ _, (3, ring_example_params)) (λ _ _ off, 4096 + off) (-1) 12 8 = inr m ∧
    mm_base (m_smem m) ≤ p_array (m_submission m) + sizeof_uint32 * 7.
Proof.
  eexists. split; [vm_compute; reflexivity|].
  apply (ring_setup_in_bounds (λ _, (3, ring_example_params)) (λ _ _ off, 4096 + off) (-1) 12 8
           _ ring_example_params 3 7 15); vm_compute; done.
Defined.

(** ** The kernel *)
Section ring_context_spec.
Context {K : Type}.
Notation shared := (shared K).
Implicit Types (m : shared) (s : ring_context K).

Context (io_uring_enter : Z → Z → Z → shared → shared).
(** The user data of the requests the kernel is working on. *)
Context (inflight : K → list Z).
(** The rings have [2 ^ k] and [2 ^ kc] entries. *)
Context (k kc : Z).

(** The elements published but not taken by the kernel. *)
Definition sq_content m : list sqe :=
  omap (λ i, sh_elements m !! i) (ring_content (sh_submission m)).

Record shared_wf m : Prop := SharedWf {
  sw_submission : ring_wf k (sh_submission m);
  sw_completion : ring_wf kc (sh_completion m);
  sw_elements i : 0 ≤ i < 2 ^ k → is_Some (sh_elements m !! i);
  sw_index j : (j < Z.to_nat (ring_count (sh_submission m)))%nat →
    r_array (sh_submission m) !! ring_slot (sh_submission m) j =
      Some (ring_slot (sh_submission m) j);
}.

(** What the kernel documents: a call takes at most [to_submit] elements, in
    order, and posts completions; each element taken is completed once, under
    its user data. *)
Record kernel_laws : Prop := KernelLaws {
  kl_conserve to_submit min_complete flags m :
    0 ≤ to_submit → shared_wf m →
    let m' := io_uring_enter to_submit min_complete flags m in
    shared_wf m' ∧ ∃ taken posted,
      Z.of_nat (length taken) ≤ to_submit ∧
      sq_content m = taken ++ sq_content m' ∧
      ring_content (sh_completion m') = ring_content (sh_completion m) ++ posted ∧
      (sqe_user_data <$> taken) ++ inflight (sh_kernel m) ≡ₚ
        (cqe_user_data <$> posted) ++ inflight (sh_kernel m');
}.

(** A submission which succeeds takes the element. *)
Definition submits_succeed : Prop :=
  ∀ m e, shared_wf m → sq_content m = [e] → sq_content (io_uring_enter 1 0 0 m) = [].

(** A wait yields a completion if there is a request to complete, or it is
    interrupted; what bounds the interruptions is the kernel's patience. *)
Definition waits_end (patience : K → nat) : Prop :=
  ∀ m, shared_wf m → inflight (sh_kernel m) ≠ [] ∨ ring_content (sh_completion m) ≠ [] →
    let m' := io_uring_enter 0 1 IORING_ENTER_GETEVENTS m in
    (ring_content (sh_completion m') ≠ [] ∧ (patience (sh_kernel m') ≤ patience (sh_kernel m))%nat) ∨
    (patience (sh_kernel m') < patience (sh_kernel m))%nat.

(** Requests made one after the other. *)
Fixpoint request_all (rs : list request) s : outcome (ring_context K) :=
  match rs with
  | [] => Ret s
  | r :: rs => s ← rc_request io_uring_enter r s; request_all rs s
  end.

(** The requests whose submission failed are stuck in the submission ring.
    Between operations [d_outstanding] counts the requests without a result,
    and each continuation submitted is stuck, in flight, completed but not
    processed, or was called. *)
Definition stuck s : list io_base := sqe_user_data <$> sq_content (rc_shared s).
Definition unanswered s : list io_base :=
  stuck s ++ inflight (rc_kernel s) ++ (cqe_user_data <$> ring_content (rc_completion s)).

(** The submission ring has space for [n] more requests. *)
Definition has_room (n : nat) s : Prop := Z.of_nat (length (stuck s) + n) ≤ 2 ^ k.

Record rc_inv s : Prop := RcInv {
  ri_shared : shared_wf (rc_shared s);
  ri_outstanding : rc_outstanding s = wrapu 32 (Z.of_nat (length (unanswered s)));
  ri_once : rc_submitted s ≡ₚ unanswered s ++ (rc_results s).*1.*1;
}.

(** The submission ring's entries are the slots themselves, all of them with
    an element. *)
Lemma ring_content_index m :
  shared_wf m → ring_content (sh_submission m) =
    ring_slot (sh_submission m) <$> seq 0 (Z.to_nat (ring_count (sh_submission m))).
Proof.
  intros [_ _ _ Hi]. unfold ring_content.
  assert (∀ j, j ∈ seq 0 (Z.to_nat (ring_count (sh_submission m))) →
    r_array (sh_submission m) !! ring_slot (sh_submission m) j = Some (ring_slot (sh_submission m) j)) as Hj.
  { intros j [_ Hj]%elem_of_seq. apply Hi. lia. }
  revert Hj. generalize (seq 0 (Z.to_nat (ring_count (sh_submission m)))). intros l.
  induction l as [|j l IH]; intros Hj; [done|]. simpl. rewrite Hj by set_solver.
  f_equal. apply IH. set_solver.
Qed.

Lemma sq_content_length m :
  shared_wf m → Z.of_nat (length (sq_content m)) = ring_count (sh_submission m).
Proof.
  intros Hwf. unfold sq_content. rewrite ring_content_index by done.
  pose proof (ring_count_nonneg (sh_submission m)) as Hn. destruct Hwf as [Hs _ He _].
  assert (∀ l, length (omap (λ i, sh_elements m !! i) (ring_slot (sh_submission m) <$> l)) = length l)
    as Hlen; [|rewrite Hlen, length_seq; lia]. intros l.
  induction l as [|j l IH]; [done|]. simpl.
  destruct (He (ring_slot (sh_submission m) j)) as [e ->]; [by apply ring_mask_range|].
  simpl. by f_equal.
Qed.

Lemma omap_ext_elem {A B} (f g : A → option B) (l : list A) : (∀ x, x ∈ l → f x = g x) → omap f l = omap g l.
Proof.
  induction l as [|x l IH]; intros H; [done|]. simpl. rewrite H by set_solver.
  destruct (g x); [f_equal|]; apply IH; set_solver.
Qed.

(** Publishing an element leaves the others in the submission ring alone. *)
Lemma rc_publish_spec op cont s :
  shared_wf (rc_shared s) → has_room 1 s →
  ∃ e s', rc_publish op cont s = Ret s' ∧ shared_wf (rc_shared s') ∧
    sq_content (rc_shared s') = sq_content (rc_shared s) ++ [op e] ∧
    rc_completion s' = rc_completion s ∧ rc_kernel s' = rc_kernel s ∧
    rc_outstanding s' = wrapu 32 (rc_outstanding s + 1) ∧
    rc_submitted s' = rc_submitted s ++ [cont] ∧ rc_results s' = rc_results s.
Proof.
  intros Hwf Hroom. pose proof (sq_content_length _ Hwf) as Hlen.
  pose proof (ring_content_index _ Hwf) as Hrc.
  destruct Hwf as [Hs Hc He Hi]; simpl in *.
  assert (Hlt : ring_count (rc_submission s) < 2 ^ k).
  { unfold has_room, stuck in Hroom. rewrite length_fmap in Hroom. lia. }
  set (idx := ring_mask (rc_submission s) (r_tail (rc_submission s))).
  assert (Hidx : 0 ≤ idx < 2 ^ k) by (by apply ring_mask_range).
  destruct (He idx Hidx) as [e Hel].
  pose proof (λ j H, ring_slot_tail k (rc_submission s) j Hs H Hlt) as Hne. fold idx in Hne.
  unfold rc_publish. fold idx. rewrite Hel. simpl. eexists e, _. split; [done|].
  split_and!; try done.
  - split; simpl; [by apply ring_wf_push|done| |].
    + intros i Hii. destruct (decide (i = idx)) as [->|]; [by rewrite lookup_insert_eq|].
      rewrite lookup_insert_ne by done. by apply He.
    + intros j Hj.
      change (ring_count (ring_advance_tail (ring_store idx idx (rc_submission s))))
        with (ring_count (ring_advance_tail (rc_submission s))) in Hj.
      rewrite (ring_count_push k) in Hj by done. pose proof (ring_count_nonneg (rc_submission s)).
      change (ring_slot (ring_advance_tail _) j) with (ring_slot (rc_submission s) j).
      destruct (decide (j < Z.to_nat (ring_count (rc_submission s)))%nat) as [Hj'|Hj'].
      * rewrite lookup_insert_ne; [by apply Hi|]. intros Heq. by apply (Hne j).
      * replace (ring_slot (rc_submission s) j) with idx; [by rewrite lookup_insert_eq|].
        unfold ring_slot, idx. f_equal.
        replace (Z.of_nat j) with (ring_count (rc_submission s)) by lia.
        unfold ring_count, wrapu. rewrite Zplus_mod_idemp_r.
        replace (r_head (rc_submission s) + (r_tail (rc_submission s) - r_head (rc_submission s)))
          with (r_tail (rc_submission s)) by lia.
        symmetry. apply Z.mod_small, Hs.
  - unfold sq_content. simpl.
    pose proof (ring_content_push k (rc_submission s) idx Hs Hlt) as Hpush. fold idx in Hpush.
    rewrite Hpush, omap_app. simpl. rewrite lookup_insert_eq. f_equal.
    rewrite Hrc. apply omap_ext_elem. intros i (j & -> & [_ Hj]%elem_of_seq)%list_elem_of_fmap.
    apply lookup_insert_ne. intros Heq. apply (Hne j); [lia|done].
Qed.

Lemma rc_enter_shared ts mc fl s :
  rc_shared (rc_enter io_uring_enter ts mc fl s) = io_uring_enter ts mc fl (rc_shared s).
Proof. unfold rc_shared, rc_enter. simpl. by destruct (io_uring_enter _ _ _ _). Qed.

Lemma intern_submit_shared s :
  rc_shared (intern_submit io_uring_enter s) = io_uring_enter 1 0 0 (rc_shared s).
Proof. apply rc_enter_shared. Qed.

Context (Hlaws : kernel_laws).

(** A system call moves requests along. *)
Lemma rc_enter_spec ts mc fl s :
  0 ≤ ts → shared_wf (rc_shared s) →
  let s' := rc_enter io_uring_enter ts mc fl s in
  shared_wf (rc_shared s') ∧ unanswered s' ≡ₚ unanswered s ∧
  ∃ taken, Z.of_nat (length taken) ≤ ts ∧
    sq_content (rc_shared s) = taken ++ sq_content (rc_shared s').
Proof.
  intros Hts Hwf s'.
  destruct (kl_conserve Hlaws ts mc fl (rc_shared s) Hts Hwf)
    as (Hwf' & taken & posted & Hlen & Htk & Hcq & Hperm).
  unfold s'. rewrite rc_enter_shared. split_and!; [done| |by exists taken].
  unfold unanswered, stuck. rewrite rc_enter_shared, Htk, fmap_app. simpl. rewrite Hcq, fmap_app.
  simpl in Hperm. rewrite (comm (++) (sqe_user_data <$> taken)), <-!(assoc_L (++)). f_equiv.
  rewrite (assoc_L (++) (sqe_user_data <$> taken)), Hperm. symmetry.
  rewrite (comm (++) (cqe_user_data <$> posted) (inflight _)), <-(assoc_L (++)). f_equiv. apply (comm (++)).
Qed.

Lemma rc_request_spec r s :
  rc_inv s → has_room 1 s →
  ∃ s', rc_request io_uring_enter r s = Ret s' ∧ rc_inv s' ∧
    rc_submitted s' = rc_submitted s ++ [request_cont r] ∧ rc_results s' = rc_results s ∧
    (length (stuck s') ≤ S (length (stuck s)))%nat ∧
    (submits_succeed → stuck s = [] → stuck s' = []).
Proof.
  intros [Hwf Hout Honce] Hroom. unfold rc_request, rc_submit.
  destruct (rc_publish_spec (λ _, rc_sqe r) (request_cont r) s Hwf Hroom)
    as (e & s1 & Hp & Hwf1 & Hsq1 & Hcq1 & Hk1 & Ho1 & Hsub1 & Hres1).
  rewrite Hp. simpl. eexists. split; [done|].
  destruct (rc_enter_spec 1 0 0 s1 ltac:(lia) Hwf1) as (Hwf2 & Hun2 & taken & _ & Htk).
  assert (Hu : sqe_user_data (rc_sqe r) = request_cont r) by (by destruct r).
  assert (Hstk : stuck s1 = stuck s ++ [request_cont r]).
  { unfold stuck. by rewrite Hsq1, fmap_app, <-Hu. }
  assert (Hun : unanswered (intern_submit io_uring_enter s1) ≡ₚ request_cont r :: unanswered s).
  { unfold intern_submit. rewrite Hun2. unfold unanswered. rewrite Hstk, Hk1, Hcq1.
    rewrite <-(assoc_L (++)). symmetry. apply Permutation_middle. }
  split_and!; [split| | | |].
  - done.
  - rewrite Hun. simpl. rewrite Ho1, Hout. unfold wrapu. rewrite Zplus_mod_idemp_l. f_equal. lia.
  - rewrite Hun. simpl. rewrite Hsub1, Hres1, Honce. by rewrite (comm (++) _ [_]).
  - done.
  - done.
  - assert (length (stuck s1) = length taken + length (stuck (intern_submit io_uring_enter s1)))%nat as Hl.
    { unfold stuck. by rewrite Htk, fmap_app, length_app, length_fmap. }
    rewrite Hstk, length_app in Hl. simpl in Hl. lia.
  - intros Hsucc Hnil. apply fmap_nil_inv in Hnil. rewrite Hnil in Hsq1. simpl in Hsq1.
    unfold stuck. rewrite intern_submit_shared. by rewrite (Hsucc _ _ Hwf1 Hsq1).
Qed.

Lemma request_all_spec rs s :
  rc_inv s → has_room (length rs) s →
  ∃ s', request_all rs s = Ret s' ∧ rc_inv s' ∧
    rc_submitted s' = rc_submitted s ++ (request_cont <$> rs) ∧ rc_results s' = rc_results s ∧
    (submits_succeed → stuck s = [] → stuck s' = []).
Proof.
  revert s. induction rs as [|r rs IH]; intros s Hinv Hroom; simpl; [exists s; by rewrite app_nil_r|].
  destruct (rc_request_spec r s Hinv) as (s1 & Hr & Hinv1 & Hsub1 & Hres1 & Hlen & Hst1).
  { unfold has_room in *. simpl in *. lia. }
  rewrite Hr. simpl.
  destruct (IH s1 Hinv1) as (s2 & Hr2 & Hinv2 & Hsub2 & Hres2 & Hst2).
  { unfold has_room in *. simpl in *. lia. }
  exists s2. split_and!; [done..| |congruence|auto]. by rewrite Hsub2, Hsub1, <-(assoc_L (++)).
Qed.

(** The wait of [run_one]. *)
Lemma rc_wait_spec s :
  rc_inv s →
  let s' := rc_enter io_uring_enter 0 1 IORING_ENTER_GETEVENTS s in
  rc_inv s' ∧ unanswered s' ≡ₚ unanswered s ∧ stuck s' = stuck s.
Proof.
  intros [Hwf Hout Honce] s'.
  destruct (rc_enter_spec 0 1 IORING_ENTER_GETEVENTS s ltac:(lia) Hwf) as (Hwf' & Hun & taken & Hl & Htk).
  fold s' in Hwf', Hun, Htk. assert (taken = []) as -> by (apply nil_length_inv; lia).
  split; [split; [done|by rewrite Hun|by rewrite Hun]|]. split; [done|]. unfold stuck. by rewrite Htk.
Qed.

(** When nothing is stuck and the waits end, it finds a completion or uses up
    patience. *)
Lemma rc_wait_finds patience s :
  waits_end patience → rc_inv s → stuck s = [] → rc_outstanding s ≠ 0 →
  let s' := rc_enter io_uring_enter 0 1 IORING_ENTER_GETEVENTS s in
  (r_head (rc_completion s') ≠ r_tail (rc_completion s') ∧
   (patience (rc_kernel s') ≤ patience (rc_kernel s))%nat) ∨
  (patience (rc_kernel s') < patience (rc_kernel s))%nat.
Proof.
  intros Hw Hinv Hst Hne s'. destruct (rc_wait_spec s Hinv) as [Hinv' _]. fold s' in Hinv'.
  destruct Hinv as [Hwf Hout Honce].
  destruct (Hw _ Hwf) as [[? ?]|?]; [|left|by right].
  - simpl. destruct (decide (unanswered s = [])) as [Hu|Hu]; [by rewrite Hu in Hout|].
    unfold unanswered in Hu. rewrite Hst in Hu. destruct (inflight (rc_kernel s)); [right|by left].
    intros Hc. by rewrite Hc in Hu.
  - split; [|done]. rewrite <-(ring_content_nil kc); [done|]. apply Hinv'.
Qed.

Context (io_result : io_base → Z → Z → ring_context K → outcome (ring_context K)).

(** A continuation does nothing to the context but make requests, at most
    [n] of them. *)
Definition client_requests (n : nat) : Prop :=
  ∀ io res flags s, ∃ rs, (length rs ≤ n)%nat ∧ io_result io res flags s = request_all rs s.

(** Processing a result that is there. *)
Lemma process_result_spec n s :
  client_requests n → rc_inv s → has_room n s →
  r_head (rc_completion s) ≠ r_tail (rc_completion s) →
  ∃ s' x res flags rs, process_result io_result s = Ret (1, s') ∧ rc_inv s' ∧
    x ∈ unanswered s ∧ rc_results s' = rc_results s ++ [(x, res, flags)] ∧
    rc_submitted s' = rc_submitted s ++ (request_cont <$> rs) ∧
    (submits_succeed → stuck s = [] → stuck s' = []).
Proof.
  intros Hclient [Hwf Hout Honce] Hroom Hne. unfold process_result. rewrite decide_False by done.
  destruct (ring_content_pop kc (rc_completion s)) as (c & Hget & Hc); [apply Hwf|done|].
  rewrite Hget. simpl.
  set (s1 := RingContext _ _ _ _ _ _ _ _).
  assert (Hun : unanswered s ≡ₚ cqe_user_data c :: unanswered s1).
  { unfold unanswered. rewrite Hc. simpl. rewrite !(assoc_L (++)). by rewrite <-Permutation_middle. }
  assert (Hinv1 : rc_inv s1).
  { split.
    - destruct Hwf as [H1 H2 H3 H4]. split; try done. by apply ring_wf_advance_head.
    - simpl. rewrite Hout, Hun. simpl. unfold wrapu. rewrite Zminus_mod_idemp_l. f_equal. lia.
    - simpl. rewrite Honce, Hun, !fmap_app. simpl. rewrite (assoc_L (++)), (comm (++) _ [_]). done. }
  destruct (Hclient (cqe_user_data c) (cqe_res c) (cqe_flags c) s1) as (rs & Hlen & Hrs).
  destruct (request_all_spec rs s1 Hinv1) as (s2 & Hr2 & Hinv2 & Hsub2 & Hres2 & Hst2).
  { unfold has_room in *. change (stuck s1) with (stuck s). lia. }
  rewrite Hrs, Hr2. simpl. exists s2, (cqe_user_data c), (cqe_res c), (cqe_flags c), rs.
  split_and!; [done..| |done|done|done].
  rewrite Hun. apply elem_of_cons. by left.
Qed.
End ring_context_spec.

(** ** Properties *)


(** A round of [run] when the continuations make no requests. *)
Lemma ring_run_round {K} enter io_result (inflight : K → list Z) k kc patience (s : ring_context K) :
  kernel_laws enter inflight k kc → waits_end enter inflight k kc patience →
  (∀ io res flags s, io_result io res flags s = Ret s) → rc_inv inflight k kc s → stuck s = [] →
  rc_outstanding s ≠ 0 →
  ∃ c s', rc_run_one enter io_result s = Ret (c, s') ∧ rc_inv inflight k kc s' ∧ stuck s' = [] ∧
    rc_submitted s' = rc_submitted s ∧
    (c = 1 ∧ length (unanswered inflight s) = S (length (unanswered inflight s')) ∧
       (patience (rc_kernel s') ≤ patience (rc_kernel s))%nat ∨
     c = 0 ∧ length (unanswered inflight s) = length (unanswered inflight s') ∧
       (patience (rc_kernel s') < patience (rc_kernel s))%nat).
Proof.
  intros Hl Hw Hq Hinv Hst Hne. unfold rc_run_one. rewrite decide_False by done.
  assert (Hc : client_requests enter io_result 0)
    by (intros io res flags s0; exists []; split; [simpl; lia|apply Hq]).
  destruct (rc_wait_spec _ _ _ _ Hl s Hinv) as (Hinv1 & Hun1 & Hst1).
  pose proof (rc_wait_finds _ _ _ _ Hl _ _ Hw Hinv Hst Hne) as Hfind.
  set (s1 := rc_enter enter 0 1 IORING_ENTER_GETEVENTS s) in *. rewrite Hst in Hst1.
  destruct (decide (r_head (rc_completion s1) = r_tail (rc_completion s1))) as [He|He].
  - exists 0, s1. unfold process_result. rewrite decide_True by done.
    destruct Hfind as [[? _]|?]; [done|]. split_and!; [done..|]. right. by rewrite Hun1.
  - assert (has_room k 0 s1) as Hroom.
    { unfold has_room. rewrite Hst1. simpl. apply Z.pow_nonneg. lia. }
    destruct (process_result_spec _ _ _ _ Hl io_result 0 s1 Hc Hinv1 Hroom He)
      as (s2 & x & res & flags & rs & Hp & Hinv2 & Hx & Hres & Hsub & _).
    assert (Hs2 : rc_submitted s2 = rc_submitted s ∧ stuck s2 = [] ∧ rc_kernel s2 = rc_kernel s1).
    { revert Hp. unfold process_result. rewrite decide_False by done.
      destruct (ring_get _ _); [|done]. simpl. rewrite Hq. simpl. intros [= <-]. done. }
    destruct Hs2 as (Hs2 & Hst2 & Hk2). exists 1, s2. split_and!; [done..|]. left.
    pose proof (Permutation_length (ri_once _ _ _ _ Hinv2)) as H2.
    pose proof (Permutation_length (ri_once _ _ _ _ Hinv)) as H1.
    rewrite Hs2, Hres, !length_app, !length_fmap, length_app in H2.
    rewrite !length_app, !length_fmap in H1.
    simpl in H2. rewrite Hk2. split_and!; [done|lia|]. destruct Hfind as [[_ ?]|?]; lia.
Qed.

(** C38: [run] drains the context. The conditions are that the kernel keeps to
    [kernel_laws], that its waits end ([waits_end]: a wait yields a completion
    unless it is interrupted, and the interruptions are bounded by the
    kernel's patience), that no submission failed so that nothing is stuck in
    the submission ring, that fewer than 2^32 requests are unanswered and that
    the continuations make no further ones.
    Then [run] returns after one round per unanswered request and at most one
    per interruption, with the number of those requests, and every
    continuation submitted was called exactly once. (A request stuck after a
    failed submission is never answered: [ring_submit_failure_hangs].) *)
Theorem ring_run_drains {K} enter io_result (inflight : K → list Z) k kc patience
    (s : ring_context K) fuel :
  kernel_laws enter inflight k kc → waits_end enter inflight k kc patience →
  (∀ io res flags s, io_result io res flags s = Ret s) → rc_inv inflight k kc s → stuck s = [] →
  Z.of_nat (length (unanswered inflight s)) < 2 ^ 32 →
  (length (unanswered inflight s) + patience (rc_kernel s) < fuel)%nat →
  ∃ s', rc_run enter io_result fuel 0 s = Ret (Z.of_nat (length (unanswered inflight s)), s') ∧
    rc_submitted s' = rc_submitted s ∧ rc_submitted s' ≡ₚ (rc_results s').*1.*1.
Proof.
  intros Hl Hw Hq Hinv Hst Hlt Hfuel.
  cut (∀ rc, 0 ≤ rc → rc + Z.of_nat (length (unanswered inflight s)) < 2 ^ 64 →
    ∃ s', rc_run enter io_result fuel rc s = Ret (rc + Z.of_nat (length (unanswered inflight s)), s') ∧
      rc_submitted s' = rc_submitted s ∧ rc_submitted s' ≡ₚ (rc_results s').*1.*1).
  { intros Hgen. apply (Hgen 0); lia. }
  revert s Hinv Hst Hlt Hfuel.
  induction fuel as [|fuel IH]; intros s Hinv Hst Hlt Hfuel rc H0 Hrc; [lia|]. simpl.
  pose proof (ri_outstanding _ _ _ _ Hinv) as Ho. rewrite wrapu_small in Ho by (split; lia).
  destruct (decide (rc_outstanding s = 0)) as [Hz|Hne].
  - assert (unanswered inflight s = []) as Hnil by (apply nil_length_inv; lia).
    exists s. rewrite Hnil, Z.add_0_r. split_and!; [done..|].
    pose proof (ri_once _ _ _ _ Hinv) as Hp. by rewrite Hnil in Hp.
  - destruct (ring_run_round _ _ _ _ _ _ _ Hl Hw Hq Hinv Hst Hne)
      as (c & s2 & Hr & Hinv2 & Hst2 & Hs2 & Hcase). rewrite Hr. simpl.
    assert (wrapu 64 (rc + c) = rc + c) as -> by (apply wrapu_small; split; lia).
    destruct (IH s2 Hinv2 Hst2) with (rc := rc + c) as (s' & Hrun & Hsub' & Hp'); [lia..|].
    exists s'. split_and!; [rewrite Hrun; do 2 f_equal; lia|congruence|done].
Qed.

(** The result of [io_uring_enter] is ignored: when the call of a
    submission fails - the memory is left as it is - the request looks made
    but was not handed to the kernel. If nothing else is unanswered, [run]
    then never returns: [run_one] submits nothing, so no result can arrive,
    while [d_outstanding] stays above 0. *)
Theorem ring_submit_failure_hangs {K} enter io_result (inflight : K → list Z) k kc
    (s : ring_context K) r :
  kernel_laws enter inflight k kc → rc_inv inflight k kc s → unanswered inflight s = [] →
  (∀ m, enter 1 0 0 m = m) →
  ∃ s', rc_request enter r s = Ret s' ∧ ∀ fuel rc, rc_run enter io_result fuel rc s' = NoFuel.
Proof.
  intros Hl [Hwf Hout Honce] Hun Hfail.
  assert (has_room k 1 s) as Hroom.
  { unfold has_room. unfold unanswered in Hun. apply app_nil in Hun as [-> _]. simpl.
    assert (0 < 2 ^ k); [apply Z.pow_pos_nonneg; [lia|]; apply Hwf|lia]. }
  destruct (rc_publish_spec enter k kc (λ _, rc_sqe r) (request_cont r) s Hwf Hroom)
    as (e & s1 & Hp & Hwf1 & Hsq1 & Hcq1 & Hk1 & Ho1 & Hsub1 & Hres1).
  unfold rc_request, rc_submit. rewrite Hp. simpl. eexists. split; [done|].
  rewrite Hun in Hout. apply app_nil in Hun as [_ [Hi Hcn%fmap_nil_inv]%app_nil].
  assert (Hgen : ∀ fuel rc (s : ring_context K), shared_wf k kc (rc_shared s) →
    rc_outstanding s ≠ 0 → inflight (rc_kernel s) = [] → ring_content (rc_completion s) = [] →
    rc_run enter io_result fuel rc s = NoFuel).
  { clear -Hl. intros fuel. induction fuel as [|fuel IH]; intros rc s Hwf Hne Hi Hc; simpl; [done|].
    rewrite decide_False by done. unfold rc_run_one. rewrite decide_False by done.
    destruct (kl_conserve _ _ _ _ Hl 0 1 IORING_ENTER_GETEVENTS (rc_shared s) ltac:(lia) Hwf)
      as (Hwf' & taken & posted & Hlen & Htk & Hcq & Hperm).
    assert (taken = []) as -> by (apply nil_length_inv; lia).
    simpl in Hperm, Hcq. rewrite Hi in Hperm. apply Permutation_nil in Hperm.
    apply app_nil in Hperm as [Hpn%fmap_nil_inv Hi']. rewrite Hpn, Hc in Hcq. simpl in Hcq.
    unfold process_result. rewrite decide_True.
    2: { simpl. apply (ring_content_nil kc); [apply Hwf'|done]. }
    simpl. apply IH; simpl; [by rewrite rc_enter_shared|done..]. }
  intros fuel rc. apply Hgen.
  - by rewrite intern_submit_shared, Hfail.
  - simpl. rewrite Ho1, Hout. done.
  - simpl. by rewrite Hfail; simpl; rewrite Hk1.
  - simpl. by rewrite Hfail; simpl; rewrite Hcq1.
Qed.

(** *** Witnesses

    A kernel that completes the requests in order with result 0. *)
Definition toy_take (m : shared (list Z)) : shared (list Z) :=
  let sq := sh_submission m in
  if decide (r_head sq = r_tail sq) then m else
  match ring_get sq (r_head sq) ≫= (λ i, sh_elements m !! i) with
  | Some e => Shared (sh_kernel m ++ [sqe_user_data e]) (ring_advance_head sq) (sh_elements m)
                (sh_completion m)
  | None => m
  end.

Definition toy_post (m : shared (list Z)) : shared (list Z) :=
  let cq := sh_completion m in
  match sh_kernel m with
  | x :: l =>
      if decide (r_head cq = r_tail cq) then
        Shared l (sh_submission m) (sh_elements m)
          (ring_advance_tail (ring_store (ring_mask cq (r_tail cq)) (Cqe x 0 0) cq))
      else m
  | [] => m
  end.

Definition toy_enter (to_submit min_complete flags : Z) (m : shared (list Z)) : shared (list Z) :=
  let m := if decide (1 ≤ to_submit) then toy_take m else m in
  if decide (flags = IORING_ENTER_GETEVENTS) then toy_post m else m.

Lemma toy_take_spec k kc m :
  shared_wf k kc m →
  shared_wf k kc (toy_take m) ∧ sh_completion (toy_take m) = sh_completion m ∧
  ∃ taken, (length taken ≤ 1)%nat ∧ sq_content m = taken ++ sq_content (toy_take m) ∧
    sh_kernel (toy_take m) = sh_kernel m ++ (sqe_user_data <$> taken) ∧
    (taken = [] → sq_content m = []).
Proof.
  intros Hwf. destruct Hwf as [Hs Hc He Hi]. unfold toy_take. case_decide as Hht.
  - split_and!; [by split|done|]. exists []. rewrite app_nil_r. split_and!; [simpl; lia|done..|].
    intros _. unfold sq_content. apply (ring_content_nil k) in Hht; [|done]. by rewrite Hht.
  - destruct (ring_content_pop k _ Hs Hht) as (x & Hx & Hcx).
    destruct (ring_count_pop k _ Hs Hht) as [Hpos Hcnt].
    assert (Hxs : x = ring_mask (sh_submission m) (r_head (sh_submission m))).
    { specialize (Hi O ltac:(lia)). unfold ring_slot in Hi.
      rewrite Z.add_0_r, wrapu_small in Hi by apply Hs. unfold ring_get in Hx. congruence. }
    destruct (He x) as [e Hel]; [rewrite Hxs; by apply ring_mask_range|].
    rewrite Hx. simpl. rewrite Hel. simpl. pose proof (ring_wf_advance_head k _ Hs Hht) as Hs'.
    split_and!; [split; simpl; try done|done|].
    + intros j Hj. rewrite (ring_slot_advance k) by done. apply Hi. lia.
    + exists [e]. split_and!; [done| |done|done].
      unfold sq_content. simpl. rewrite Hcx. simpl. by rewrite Hel.
Qed.

Lemma toy_post_spec k kc m :
  shared_wf k kc m →
  shared_wf k kc (toy_post m) ∧ sq_content (toy_post m) = sq_content m ∧
  ∃ posted, ring_content (sh_completion (toy_post m)) = ring_content (sh_completion m) ++ posted ∧
    sh_kernel m = (cqe_user_data <$> posted) ++ sh_kernel (toy_post m) ∧
    (sh_kernel m ≠ [] ∨ ring_content (sh_completion m) ≠ [] →
     ring_content (sh_completion (toy_post m)) ≠ []).
Proof.
  intros Hwf. destruct Hwf as [Hs Hc He Hi]. unfold toy_post.
  assert (Hsame : ∃ posted, ring_content (sh_completion m) = ring_content (sh_completion m) ++ posted ∧
    sh_kernel m = (cqe_user_data <$> posted) ++ sh_kernel m)
    by (exists []; by rewrite app_nil_r).
  destruct (sh_kernel m) as [|x l] eqn:Hk; [|case_decide as Hht].
  - split_and!; [by split|done|]. destruct Hsame as (p & ? & ?). exists p. rewrite Hk.
    split_and!; [done..|]. by intros [?|?].
  - assert (Hlt : ring_count (sh_completion m) < 2 ^ kc).
    { assert (ring_count (sh_completion m) = 0) as -> by (by apply (ring_count_zero kc)).
      apply Z.pow_pos_nonneg; [lia|]. apply Hc. }
    split_and!; [split; simpl; try done; by apply ring_wf_push|done|].
    exists [Cqe x 0 0]. cbn [sh_completion sh_kernel]. rewrite (ring_content_push kc) by done.
    split_and!; [done..|]. intros _ Hnil. by apply app_nil in Hnil as [_ ?].
  - split_and!; [by split|done|]. destruct Hsame as (p & ? & ?). exists p. rewrite Hk.
    split_and!; [done..|]. intros _ Hn. by apply (ring_content_nil kc) in Hn.
Qed.

Lemma toy_laws k kc : kernel_laws toy_enter id k kc.
Proof.
  split. intros ts mc fl m Hts0 Hwf. unfold toy_enter.
  assert (Hpost : ∀ m0, shared_wf k kc m0 →
    let m' := if decide (fl = IORING_ENTER_GETEVENTS) then toy_post m0 else m0 in
    shared_wf k kc m' ∧ sq_content m' = sq_content m0 ∧ ∃ posted,
      ring_content (sh_completion m') = ring_content (sh_completion m0) ++ posted ∧
      sh_kernel m0 = (cqe_user_data <$> posted) ++ sh_kernel m').
  { intros m0 Hwf0. case_decide; simpl.
    - destruct (toy_post_spec k kc m0 Hwf0) as (? & ? & p & ? & ? & _). eauto 10.
    - split_and!; [done..|]. exists []. by rewrite app_nil_r. }
  destruct (decide (1 ≤ ts)) as [Hts|Hts].
  - destruct (toy_take_spec k kc m Hwf) as (Hwf1 & Hc1 & taken & Hl & Hsq & Hker & _).
    destruct (Hpost _ Hwf1) as (Hwf2 & Hsq2 & posted & Hc2 & Hk2). split; [done|].
    exists taken, posted. rewrite Hsq2, Hc2, Hc1. split_and!; [lia|done..|].
    unfold id. rewrite <-Hk2, Hker. apply (comm (++)).
  - destruct (Hpost _ Hwf) as (Hwf2 & Hsq2 & posted & Hc2 & Hk2). split; [done|].
    exists [], posted. rewrite Hsq2, Hc2. unfold id. rewrite <-Hk2. simpl.
    by split_and!; [lia|..].
Qed.

Lemma toy_submits k kc : submits_succeed toy_enter k kc.
Proof.
  intros m e Hwf Hsq. unfold toy_enter. simpl.
  destruct (toy_take_spec k kc m Hwf) as (_ & _ & taken & Hl & Heq & _ & Hn).
  rewrite Hsq in Heq. destruct taken as [|t [|]]; simpl in *; [by rewrite Hn in Hsq|congruence|lia].
Qed.

Lemma toy_waits k kc : waits_end toy_enter id k kc (λ _, O).
Proof.
  intros m Hwf Hor. unfold toy_enter. simpl. left. split; [|lia].
  destruct (toy_post_spec k kc m Hwf) as (_ & _ & p & _ & _ & H). by apply H.
Qed.

(** A fresh context with rings of two entries whose indices are about to wrap
    around. *)
Definition ring_example : ring_context (list Z) :=
  let top := 2 ^ 32 - 1 in
  RingContext (list Z) (Ring top top 1 (<[0 := 0]> (<[1 := 0]> ∅)))
    (<[0 := sqe_zero IORING_OP_NOP 0]> (<[1 := sqe_zero IORING_OP_NOP 0]> ∅))
    (Ring top top 1 (<[0 := Cqe 0 0 0]> (<[1 := Cqe 0 0 0]> ∅))) 0 [] [] [].

Lemma ring_example_wf {T} (x : T) :
  ring_wf 1 (Ring (2 ^ 32 - 1) (2 ^ 32 - 1) 1 (<[0 := x]> (<[1 := x]> ∅))).
Proof.
  split; simpl; try done.
  intros i Hi. assert (i = 0 ∨ i = 1) as [->| ->] by (change (2 ^ 1) with 2 in Hi; lia).
  - by rewrite lookup_insert_eq.
  - by rewrite lookup_insert_ne, lookup_insert_eq.
Qed.

Lemma ring_example_inv : rc_inv id 1 1 ring_example.
Proof.
  split; [|done..]. split; [by apply ring_example_wf|by apply ring_example_wf| |].
  - apply (rw_mapped 1 (Ring 0 0 1 (rc_elements ring_example))).
    split; try done. apply (ring_example_wf (sqe_zero IORING_OP_NOP 0)).
  - intros j Hj. assert (j < 0)%nat by exact Hj. lia.
Qed.

Lemma ring_example_requests r1 r2 :
  ∃ s, request_all toy_enter [r1; r2] ring_example = Ret s ∧ rc_inv id 1 1 s ∧
    rc_submitted s = [request_cont r1; request_cont r2] ∧ stuck s = [].
Proof.
  destruct (request_all_spec toy_enter id 1 1 (toy_laws 1 1) [r1; r2] ring_example ring_example_inv)
    as (s & ? & ? & ? & _ & Hst); [done|]. exists s. split_and!; [done..|].
  apply Hst; [apply toy_submits|done].
Qed.


(** A kernel whose first wait is interrupted. *)
Definition moody_enter (to_submit min_complete flags : Z) (m : shared (list Z * nat)) : shared (list Z * nat) :=
  match sh_kernel m with
  | (l, S p) =>
      if decide (flags = IORING_ENTER_GETEVENTS) then
        Shared (l, p) (sh_submission m) (sh_elements m) (sh_completion m)
      else
        let m' := toy_enter to_submit min_complete flags (Shared l (sh_submission m) (sh_elements m) (sh_completion m)) in
        Shared (sh_kernel m', S p) (sh_submission m') (sh_elements m') (sh_completion m')
  | (l, O) =>
      let m' := toy_enter to_submit min_complete flags (Shared l (sh_submission m) (sh_elements m) (sh_completion m)) in
      Shared (sh_kernel m', O) (sh_submission m') (sh_elements m') (sh_completion m')
  end.

Definition moody_example : ring_context (list Z * nat) :=
  RingContext _ (rc_submission ring_example) (rc_elements ring_example) (rc_completion ring_example)
    0 ([], 1%nat) [] [].

Lemma moody_shared k kc (m : shared (list Z * nat)) l :
  shared_wf k kc m → shared_wf k kc (Shared l (sh_submission m) (sh_elements m) (sh_completion m) : shared (list Z)).
Proof. by intros [? ? ? ?]. Qed.

Lemma moody_laws k kc : kernel_laws moody_enter fst k kc.
Proof.
  split. intros ts mc fl [[l p] sq el cq] Hts Hwf. apply (moody_shared _ _ _ l) in Hwf. simpl in Hwf.
  destruct (kl_conserve _ _ _ _ (toy_laws k kc) ts mc fl _ Hts Hwf)
    as (Hwf' & taken & posted & Hlen & Htk & Hcq & Hperm).
  unfold moody_enter. simpl.
  destruct p as [|p]; [|case_decide].
  - split; [by destruct Hwf'|]. by exists taken, posted.
  - split; [by destruct Hwf|]. exists [], []. rewrite app_nil_r. by split_and!.
  - split; [by destruct Hwf'|]. by exists taken, posted.
Qed.

Lemma moody_waits k kc : waits_end moody_enter fst k kc snd.
Proof.
  intros [[l p] sq el cq] Hwf Hor. apply (moody_shared _ _ _ l) in Hwf. simpl in *.
  unfold moody_enter. simpl. destruct p as [|p]; [|right; simpl; lia].
  left. split; [|done]. by destruct (toy_waits k kc _ Hwf Hor) as [[? _]|?]; [|lia].
Qed.

Lemma moody_submits k kc : submits_succeed moody_enter k kc.
Proof.
  intros [[l p] sq el cq] e Hwf Hsq. apply (moody_shared _ _ _ l) in Hwf. simpl in *.
  pose proof (toy_submits k kc _ e Hwf Hsq) as H. by destruct p.
Qed.

Lemma ring_run_drains_witness :
  ∃ s s', rc_submitted s = [5; 6] ∧ rc_run moody_enter (λ _ _ _ s, Ret s) 4 0 s = Ret (2, s') ∧
    rc_submitted s' = rc_submitted s ∧ rc_submitted s' ≡ₚ (rc_results s').*1.*1.
Proof.
  destruct (request_all_spec moody_enter fst 1 1 (moody_laws 1 1) [RNop 5; RRead 3 64 1 6] moody_example)
    as (s & Hr & Hinv & Hs & _ & Hst); [|done|].
  { destruct ring_example_inv as [H1 H2 H3]. split; [by destruct H1|exact H2|exact H3]. }
  exists s. assert (Hu : unanswered fst s = [5; 6] ∧ (rc_kernel s).2 = 1%nat)
    by (vm_compute in Hr; injection Hr as <-; done). destruct Hu as [Hu Hk].
  destruct (ring_run_drains moody_enter (λ _ _ _ s, Ret s) fst 1 1 snd s 4) as (s' & Hrun & H1 & H2).
  - apply moody_laws.
  - apply moody_waits.
  - done.
  - exact Hinv.
  - apply Hst; [apply moody_submits|done].
  - rewrite Hu. done.
  - rewrite Hu, Hk. simpl. lia.
  - exists s'. rewrite Hu in Hrun. split_and!; [exact Hs|exact Hrun|exact H1|exact H2].
Defined.

Lemma ring_submit_failure_hangs_witness :
  ∃ s', rc_request (λ _ _ _ m, m) (RNop 5) ring_example = Ret s' ∧
    ∀ fuel rc, rc_run (λ _ _ _ m, m) (λ _ _ _ s, Ret s) fuel rc s' = NoFuel.
Proof.
  apply (ring_submit_failure_hangs (λ _ _ _ m, m) (λ _ _ _ s, Ret s) id 1 1 ring_example (RNop 5)).
  - split. intros ts mc fl m Hts Hwf. split; [done|]. exists [], [].
    rewrite app_nil_r. split_and!; [simpl; lia|reflexivity..].
  - exact ring_example_inv.
  - reflexivity.
  - reflexivity.
Defined.
