(* ===== verification/RepeatEffect.v ===== *)
(** * nstd::execution::repeat_effect_until

    The operation state of repeat_effect_until
    (src/src/nstd/execution/repeat_effect_until.hpp): it starts the inner
    operation again and again until the predicate holds. An inner operation may
    complete inside of its [start] - then [next] is called recursively and only
    leaves a mark for the loop that is running - or later. *)
From S2P Require Import Prelude.

Section repeat_effect_until.
Context {E : Type}.

(** ** Data *)
Inductive re_signal := RSetValue | RSetError (e : E) | RSetStopped.

(** What the rest of the program does: whether the [i]-th inner operation
    completes after its [start] returned, and with what; whether stop was
    requested and what the predicate yields or throws after it; whether
    connecting the [i]-th inner operation throws. *)
Record re_world := ReWorld {
  inner_async : nat → bool;
  inner_signal : nat → re_signal;
  re_stop_requested : nat → bool;
  re_predicate : nat → E + bool;
  connect_throws : nat → option E;
}.

(** [state]: [re_inner] is the object in [d_internal_state], [re_count] the
    number of inner operations connected, [re_done] the completions of
    [d_receiver], [re_late_write] tells whether the state was written after
    its receiver was completed. *)
Record re_state := ReState {
  re_running : bool;
  re_ready : bool;
  re_engaged : bool;
  re_inner : option nat;
  re_count : nat;
  re_done : list re_signal;
  re_late_write : bool;
}.

Definition re_ctor : re_state := ReState false false false None 0 [] false.

(** Writing to members after the completion is recorded. *)
Definition re_late (s : re_state) : bool := re_late_write s || bool_decide (re_done s ≠ []).
Definition re_set_running (b : bool) (s : re_state) : re_state :=
  ReState b (re_ready s) (re_engaged s) (re_inner s) (re_count s) (re_done s) (re_late s).
Definition re_set_ready (b : bool) (s : re_state) : re_state :=
  ReState (re_running s) b (re_engaged s) (re_inner s) (re_count s) (re_done s) (re_late s).
Definition re_complete (sig : re_signal) (s : re_state) : re_state :=
  ReState (re_running s) (re_ready s) (re_engaged s) (re_inner s) (re_count s)
    (re_done s ++ [sig]) (re_late_write s).
(** Destroying the inner operation, and connecting the next one. *)
Definition re_destroy (s : re_state) : re_state :=
  ReState (re_running s) (re_ready s) (re_engaged s) None (re_count s) (re_done s) (re_late s).
Definition re_connect (s : re_state) : re_state :=
  ReState (re_running s) (re_ready s) (re_engaged s) (Some (re_count s)) (S (re_count s))
    (re_done s) (re_late s).
Definition re_engage (s : re_state) : re_state :=
  ReState (re_running s) (re_ready s) true (re_inner s) (re_count s) (re_done s) (re_late s).

(** The destructor destroys the inner operation when [d_engaged] is set. *)
Definition re_dtor (s : re_state) : outcome re_state :=
  if re_engaged s then
    match re_inner s with Some _ => Ret (re_destroy s) | None => UB end
  else Ret s.

Section code.
Context (w : re_world).

(** [next], its loop and the [start] of the inner operation call each other.
    The loop yields the exception thrown in its body, if any. *)
Fixpoint re_next (fuel : nat) (s : re_state) : outcome re_state :=
  match fuel with
  | 0 => NoFuel
  | S fuel =>
      if re_running s then Ret (re_set_ready true s) else
      '(s, thrown) ← re_loop fuel (re_set_ready true (re_set_running true s));
      let s := re_set_running false s in
      Ret (match thrown with Some e => re_complete (RSetError e) s | None => s end)
  end
with re_loop (fuel : nat) (s : re_state) : outcome (re_state * option E) :=
  match fuel with
  | 0 => NoFuel
  | S fuel =>
      if negb (re_ready s) then Ret (s, None) else
      let s := re_set_ready false s in
      match re_inner s with
      | None => UB
      | Some i =>
          if re_stop_requested w i then Ret (re_complete RSetStopped s, None) else
          match re_predicate w i with
          | inl e => Ret (s, Some e)
          | inr true => Ret (re_complete RSetValue s, None)
          | inr false =>
              let s := re_destroy s in
              match connect_throws w (re_count s) with
              | Some e => Ret (s, Some e)
              | None => s ← re_start_inner fuel (re_connect s); re_loop fuel s
              end
          end
      end
  end
with re_start_inner (fuel : nat) (s : re_state) : outcome re_state :=
  match fuel with
  | 0 => NoFuel
  | S fuel =>
      match re_inner s with
      | None => UB
      | Some i =>
          if inner_async w i then Ret s else
          match inner_signal w i with
          | RSetValue => re_next fuel s
          | sig => Ret (re_complete sig s)
          end
      end
  end.

(** The receiver of the inner operation. *)
Definition re_receive (fuel : nat) (sig : re_signal) (s : re_state) : outcome re_state :=
  match sig with RSetValue => re_next fuel s | _ => Ret (re_complete sig s) end.

(** [start] is noexcept: an exception from [connect] calls std::terminate. *)
Definition re_start (fuel : nat) (s : re_state) : outcome re_state :=
  match connect_throws w (re_count s) with
  | Some _ => UB
  | None => re_start_inner fuel (re_engage (re_connect s))
  end.

(** Inner operations that are under way are completed, one after the other. *)
Fixpoint re_drive (rounds fuel : nat) (s : re_state) : outcome re_state :=
  match rounds with
  | 0 => NoFuel
  | S rounds =>
      match re_done s, re_inner s with
      | _ :: _, _ => Ret s
      | [], None => UB
      | [], Some i => s ← re_receive fuel (inner_signal w i) s; re_drive rounds fuel s
      end
  end.

(** ** The loop it stands for

    What the program would do as a plain loop: run the inner operation, then
    look at the stop token and at the predicate. The result is the signal and
    the number of inner operations run. *)
Fixpoint plain_loop (n i : nat) : option (re_signal * nat) :=
  match n with
  | 0 => None
  | S n =>
      match inner_signal w i with
      | RSetValue =>
          if re_stop_requested w i then Some (RSetStopped, S i) else
          match re_predicate w i with
          | inl e => Some (RSetError e, S i)
          | inr true => Some (RSetValue, S i)
          | inr false =>
              match connect_throws w (S i) with
              | Some e => Some (RSetError e, S i)
              | None => plain_loop n (S i)
              end
          end
      | sig => Some (sig, S i)
      end
  end.

(** *** What follows the completion of inner operation [i] with a value *)
Definition plain_after (n i : nat) : option (re_signal * nat) :=
  if re_stop_requested w i then Some (RSetStopped, S i) else
  match re_predicate w i with
  | inl e => Some (RSetError e, S i)
  | inr true => Some (RSetValue, S i)
  | inr false =>
      match connect_throws w (S i) with
      | Some e => Some (RSetError e, S i)
      | None => plain_loop n (S i)
      end
  end.

Lemma plain_loop_value n i :
  inner_signal w i = RSetValue → plain_loop (S n) i = plain_after n i.
Proof. simpl. by intros ->. Qed.

(** Inner operation [i] is the last one connected; nothing was completed. *)
Definition re_at (i : nat) (s : re_state) : Prop :=
  re_inner s = Some i ∧ re_count s = S i ∧ re_done s = [] ∧ re_engaged s = true ∧
  re_late_write s = false.

(** The whole completed as the plain loop does, or it waits for inner
    operation [j] to complete, with less to do. *)
Definition re_progress (n : nat) (res : re_signal * nat) (s : re_state) : Prop :=
  re_done s = [res.1] ∧ re_count s = res.2 ∨
  ∃ m j, m ≤ n ∧ inner_async w j = true ∧ plain_loop m j = Some res ∧ re_at j s.

Lemma re_at_running b i s : re_at i s → re_at i (re_set_running b s).
Proof. intros (? & ? & Hd & ? & Hl). repeat split; try done. simpl. unfold re_late. by rewrite Hl, Hd. Qed.
Lemma re_at_ready b i s : re_at i s → re_at i (re_set_ready b s).
Proof. intros (? & ? & Hd & ? & Hl). repeat split; try done. simpl. unfold re_late. by rewrite Hl, Hd. Qed.
Lemma re_at_connect i s : re_at i s → re_at (S i) (re_connect (re_destroy s)).
Proof.
  intros (? & Hc & Hd & ? & Hl). unfold re_at, re_connect, re_destroy, re_late. simpl.
  unfold re_late. rewrite Hc, Hd, Hl. done.
Qed.

(** The loop, entered after inner operation [i] completed with a value. *)
Lemma re_loop_spec n : ∀ i fuel s res,
  plain_after n i = Some res → n + 3 ≤ fuel → re_at i s → re_running s = true →
  re_ready s = true →
  ∃ s' thrown, re_loop fuel s = Ret (s', thrown) ∧
    re_progress n res (match thrown with Some e => re_complete (RSetError e) (re_set_running false s')
                       | None => re_set_running false s' end).
Proof.
  induction n as [|n IH]; intros i fuel s res Hp Hf Hat Hr Hrd;
    (destruct fuel as [|fuel]; [lia|]); pose proof Hat as (Hi & Hc & Hd & He & Hl);
    unfold plain_after in Hp; cbn [re_loop]; rewrite Hrd; simpl; rewrite Hi.
  all: destruct (re_stop_requested w i).
  1,3: simplify_eq; eexists _, None; split; [done|left; simpl; by rewrite Hd, Hc].
  all: destruct (re_predicate w i) as [e|[]].
  1,4: simplify_eq; eexists _, (Some e); split; [done|left; simpl; by rewrite Hd, Hc].
  1,3: simplify_eq; eexists _, None; split; [done|left; simpl; by rewrite Hd, Hc].
  all: rewrite Hc; destruct (connect_throws w (S i)) as [e|].
  1,3: simplify_eq; eexists _, (Some e); split; [done|left; simpl; by rewrite Hd, Hc].
  { done. }
  set (s1 := re_connect (re_destroy (re_set_ready false s))).
  assert (Hat1 : re_at (S i) s1) by (by apply re_at_connect, re_at_ready).
  destruct fuel as [|fuel]; [lia|]. cbn [re_start_inner].
  replace (re_inner s1) with (Some (S i)) by (symmetry; apply Hat1).
  assert (Hready : re_ready s1 = false) by done.
  destruct (inner_async w (S i)) eqn:Ha.
  - simpl. eexists _, None. split; [done|]. right.
    exists (S n), (S i). split_and!; [lia|done..|]. by apply re_at_running.
  - destruct (inner_signal w (S i)) eqn:Hsig.
    + destruct fuel as [|fuel]; [lia|]. cbn [re_next].
      replace (re_running s1) with true by done. cbn [mbind outcome_bind].
      rewrite plain_loop_value in Hp by done.
      destruct (IH (S i) (S (S fuel)) (re_set_ready true s1) res Hp) as (s' & thrown & Hrun & Hprog);
        [lia|by apply re_at_ready|done..|].
      exists s', thrown. split; [done|]. destruct Hprog as [?|(m & j & ? & ? & ? & ?)]; [by left|right].
      exists m, j. split_and!; [lia|done..].
    + simpl in Hp. rewrite Hsig in Hp. simplify_eq. simpl. eexists _, None. split; [done|]. left.
      destruct Hat1 as (_ & Hc1 & Hd1 & _). simpl in *. rewrite Hd. split; [done|]. simpl. congruence.
    + simpl in Hp. rewrite Hsig in Hp. simplify_eq. simpl. eexists _, None. split; [done|]. left.
      destruct Hat1 as (_ & Hc1 & Hd1 & _). simpl in *. rewrite Hd. split; [done|]. simpl. congruence.
Qed.

Lemma re_next_spec n i fuel s res :
  plain_after n i = Some res → n + 4 ≤ fuel → re_at i s → re_running s = false →
  ∃ s', re_next fuel s = Ret s' ∧ re_progress n res s'.
Proof.
  intros Hp Hf Hat Hr. destruct fuel as [|fuel]; [lia|]. cbn [re_next]. rewrite Hr.
  destruct (re_loop_spec n i fuel (re_set_ready true (re_set_running true s)) res)
    as (s' & thrown & Hrun & Hprog); [done|lia|by apply re_at_ready, re_at_running|done..|].
  rewrite Hrun. simpl. eexists. split; [done|]. by destruct thrown.
Qed.

(** The inner operation's completion while nothing is running. *)
Lemma re_receive_spec n i fuel s res :
  plain_loop (S n) i = Some res → n + 4 ≤ fuel → re_at i s → re_running s = false →
  ∃ s', re_receive fuel (inner_signal w i) s = Ret s' ∧ re_progress n res s'.
Proof.
  intros Hp Hf Hat Hr. unfold re_receive.
  destruct (inner_signal w i) eqn:Hs.
  - rewrite plain_loop_value in Hp by done. by apply (re_next_spec n i).
  - simpl in Hp. rewrite Hs in Hp. simplify_eq. eexists. split; [done|]. left.
    destruct Hat as (_ & Hc & Hd & _). simpl. by rewrite Hd, Hc.
  - simpl in Hp. rewrite Hs in Hp. simplify_eq. eexists. split; [done|]. left.
    destruct Hat as (_ & Hc & Hd & _). simpl. by rewrite Hd, Hc.
Qed.

(** [next] leaves [d_running] reset. *)
Lemma re_receive_running i fuel s s' :
  re_receive fuel (inner_signal w i) s = Ret s' → re_running s = false → re_running s' = false.
Proof.
  unfold re_receive. destruct (inner_signal w i); [|by intros [= <-]..].
  destruct fuel as [|fuel]; [done|]. cbn [re_next]. intros H Hr. rewrite Hr in H.
  apply outcome_bind_Ret_inv in H as ([s1 thrown] & _ & [= <-]). by destruct thrown.
Qed.

Lemma re_drive_spec n : ∀ rounds fuel s res,
  re_progress n res s → re_running s = false → n < rounds → n + 4 ≤ fuel →
  ∃ s', re_drive rounds fuel s = Ret s' ∧ re_done s' = [res.1] ∧ re_count s' = res.2.
Proof.
  induction n as [n IH] using lt_wf_ind. intros rounds fuel s res Hprog Hr Hro Hf.
  destruct rounds as [|rounds]; [lia|]. simpl.
  destruct Hprog as [[Hd Hc]|(m & j & Hm & _ & Hp & Hat)].
  - rewrite Hd. eauto.
  - pose proof Hat as (Hi & _ & Hd & _). rewrite Hd, Hi.
    destruct m as [|m]; [done|].
    destruct (re_receive_spec m j fuel s res Hp ltac:(lia) Hat Hr) as (s1 & Hrec & Hprog).
    rewrite Hrec. simpl. apply (IH m); [lia|done| |lia..].
    by eapply re_receive_running.
Qed.

Lemma re_start_spec n fuel res :
  plain_loop n 0 = Some res → connect_throws w 0 = None → n + 5 ≤ fuel →
  ∃ s, re_start fuel re_ctor = Ret s ∧ re_running s = false ∧ re_progress n res s.
Proof.
  intros Hp Hc Hf. unfold re_start. simpl. rewrite Hc.
  set (s0 := re_engage (re_connect re_ctor)).
  assert (Hat : re_at 0 s0) by done.
  destruct fuel as [|fuel]; [lia|]. cbn [re_start_inner].
  assert (Hi0 : re_inner s0 = Some 0) by done. rewrite Hi0. destruct (inner_async w 0) eqn:Ha.
  - exists s0. split_and!; [done..|]. right. exists n, 0. by split_and!.
  - destruct n as [|n]; [done|].
    destruct (re_receive_spec n 0 fuel s0 res Hp ltac:(lia) Hat eq_refl) as (s1 & Hrec & Hprog).
    exists s1. split_and!.
    + unfold re_receive in Hrec. by destruct (inner_signal w 0).
    + by eapply re_receive_running.
    + destruct Hprog as [?|(m & j & ? & ? & ? & ?)]; [by left|right].
      exists m, j. split_and!; [lia|done..].
Qed.
End code.

(** ** Properties *)

(** C37: repeat_effect_until behaves like the plain loop that runs the inner
    operation and then looks at the stop token and the predicate - whichever
    of the inner operations complete within their start and whichever later:
    the receiver is completed exactly once, with the plain loop's signal, after
    as many inner operations. *)
Theorem repeat_effect_until_plain_loop (w : re_world) n res rounds fuel :
  plain_loop w n 0 = Some res → connect_throws w 0 = None →
  n < rounds → n + 5 ≤ fuel →
  ∃ s s', re_start w fuel re_ctor = Ret s ∧ re_drive w rounds fuel s = Ret s' ∧
    re_done s' = [res.1] ∧ re_count s' = res.2.
Proof.
  intros Hp Hc Hro Hf.
  destruct (re_start_spec w n fuel res Hp Hc Hf) as (s & Hs & Hr & Hprog).
  destruct (re_drive_spec w n rounds fuel s res Hprog Hr Hro ltac:(lia)) as (s' & Hd & ? & ?).
  by exists s, s'.
Qed.

(** Two flaws of [next]. When stop was requested or the predicate holds,
    the state is written (the lock guard resets [d_running]) after the receiver
    was completed - although completing it may have destroyed the state. And
    when connecting the next inner operation throws, the destroyed one stays
    marked as engaged: the error is reported, but destroying the state destroys
    the inner operation a second time. *)
Theorem repeat_effect_until_hazards (w : re_world) i s fuel :
  re_at i s → re_running s = false → 3 ≤ fuel →
  (re_stop_requested w i = true ∨ re_predicate w i = inr true →
   ∃ s', re_next w fuel s = Ret s' ∧ length (re_done s') = 1 ∧ re_late_write s' = true) ∧
  (∀ e, re_stop_requested w i = false → re_predicate w i = inr false →
   connect_throws w (S i) = Some e →
   ∃ s', re_next w fuel s = Ret s' ∧ re_done s' = [RSetError e] ∧ re_dtor s' = UB).
Proof.
  intros (Hi & Hc & Hd & He & Hl) Hr Hf.
  destruct fuel as [|[|fuel]]; [lia..|]. cbn [re_next re_loop]. rewrite Hr. simpl. rewrite Hi.
  split.
  - intros [Hs|Hp].
    + rewrite Hs. simpl. eexists. split; [done|]. simpl. rewrite Hd. split; [done|].
      unfold re_late. simpl. rewrite Hd. by rewrite orb_true_r.
    + rewrite Hp. destruct (re_stop_requested w i); simpl; (eexists; split; [done|]); simpl;
        rewrite Hd; (split; [done|]); unfold re_late; simpl; rewrite Hd; by rewrite orb_true_r.
  - intros e Hs Hp Hct. rewrite Hs, Hp. simpl. rewrite Hc, Hct. simpl.
    eexists. split; [done|]. unfold re_dtor. simpl. by rewrite Hd, He.
Qed.
End repeat_effect_until.
Arguments re_signal : clear implicits.
Arguments re_state : clear implicits.
Arguments re_world : clear implicits.

(** *** Witnesses

    Every third inner operation completes later; the fifth is followed by a
    true predicate. *)
Definition re_example : re_world nat :=
  ReWorld (λ i, bool_decide (Nat.modulo i 3 = 2)) (λ _, RSetValue) (λ _, false)
    (λ i, inr (bool_decide (i = 4))) (λ _, None).

Lemma repeat_effect_until_plain_loop_witness :
  ∃ s s', re_start re_example 12 re_ctor = Ret s ∧ re_drive re_example 8 12 s = Ret s' ∧
    re_done s' = [RSetValue] ∧ re_count s' = 5.
Proof.
  apply (repeat_effect_until_plain_loop re_example 7 (RSetValue, 5) 8 12).
  - reflexivity.
  - reflexivity.
  - lia.
  - lia.
Defined.

Lemma repeat_effect_until_hazards_witness :
  let s := ReState false false true (Some 4) 5 [] false in
  ∃ s', re_next re_example 3 s = Ret s' ∧ length (re_done s') = 1 ∧ re_late_write s' = true.
Proof.
  apply (repeat_effect_until_hazards re_example 4 (ReState false false true (Some 4) 5 [] false) 3).
  - by repeat split.
  - reflexivity.
  - lia.
  - by right.
Defined.
