(* ===== verification/AsyncIo.v ===== *)
(** * nstd::file: the operation state of asynchronous I/O operations

    Models [state_base] and [receiver] of src/src/nstd/file/async_io.hpp, the
    state all of the network senders use: an operation on the context may be
    cancelled by a stop callback, which makes a cancel request with a result of
    its own; the receiver must be completed once, by whichever of the two
    results arrives last. Every access to the shared atomics is a transition. *)
From S2P Require Import Prelude.
Local Open Scope Z_scope.

(** ** Data *)

(** Completions of [d_receiver]: [complete] of the inner operation, the error
    code, or stopped. *)
Inductive ai_signal := AiComplete (result flags : Z) | AiError (code : Z) | AiStopped.

Record ai_state := AiState {
  ai_outstanding : Z;
  ai_cancelled : bool;
  ai_result : Z;
  ai_flags : Z;
  ai_done : list ai_signal;
}.

Definition ai_ctor : ai_state := AiState 0 false 0 0 [].

Definition ai_add (n : Z) (s : ai_state) : ai_state :=
  AiState (wrapu 64 (ai_outstanding s + n)) (ai_cancelled s) (ai_result s) (ai_flags s) (ai_done s).
Definition ai_complete (sig : ai_signal) (s : ai_state) : ai_state :=
  AiState (ai_outstanding s) (ai_cancelled s) (ai_result s) (ai_flags s) (ai_done s ++ [sig]).
Definition ai_set_cancelled (s : ai_state) : ai_state :=
  AiState (ai_outstanding s) true (ai_result s) (ai_flags s) (ai_done s).
Definition ai_set_result (result flags : Z) (s : ai_state) : ai_state :=
  AiState (ai_outstanding s) (ai_cancelled s) result flags (ai_done s).

(** Where the operation, and the stop callback with its cancel request, are. *)
Inductive op_pc :=
  | OpIdle                          (* the upstream sender did not complete *)
  | OpEngage                        (* counted, the callback not registered *)
  | OpStart                         (* registered, about to start *)
  | OpFlight                        (* the context works on it *)
  | OpStored (result : Z)           (* do_result stored its arguments *)
  | OpEnd (result : Z)
  | OpRefused (code : Z).           (* the upstream sender failed *)

Inductive cancel_pc :=
  | CpNone                          (* no callback *)
  | CpRegistered
  | CpCounted                       (* incremented d_outstanding to 2 *)
  | CpFlight                        (* the cancel request was made *)
  | CpMarked                        (* its do_result set d_cancelled *)
  | CpEnd
  | CpLate.                         (* called after the operation's result *)

#[export] Instance op_refused_dec pc : Decision (∃ code, pc = OpRefused code).
Proof. destruct pc; try (right; by intros [? [=]]). left. by eexists. Defined.

#[export] Instance cancel_pc_eq_dec : EqDecision cancel_pc.
Proof. solve_decision. Defined.

(** ** Operations *)

(** The receiver's [set_value]: count, register the callback, start. *)
Definition set_value_step (s : ai_state) (pc : op_pc) (cp : cancel_pc)
    : option (ai_state * op_pc * cancel_pc) :=
  match pc with
  | OpIdle => Some (ai_add 1 s, OpEngage, cp)
  | OpEngage => Some (s, OpStart, CpRegistered)
  | OpStart => Some (s, OpFlight, cp)
  | _ => None
  end.

(** The receiver's [set_error] passes an error of the upstream sender on. *)
Definition set_error_step (code : Z) (s : ai_state) (pc : op_pc) : option (ai_state * op_pc) :=
  match pc with
  | OpIdle => Some (ai_complete (AiError code) s, OpRefused code)
  | _ => None
  end.

(** [state_base::do_result]: storing the result, then counting down. *)
Definition do_result_store (result flags : Z) (s : ai_state) (pc : op_pc)
    : option (ai_state * op_pc) :=
  match pc with
  | OpFlight => Some (ai_set_result result flags s, OpStored result)
  | _ => None
  end.

Definition do_result_finish (s : ai_state) (pc : op_pc) : option (ai_state * op_pc) :=
  match pc with
  | OpStored result =>
      let s := ai_add (-1) s in
      Some (if decide (ai_outstanding s = 0) then
              if result <? 0 then
                if ai_cancelled s then ai_complete AiStopped s
                else ai_complete (AiError result) s
              else ai_complete (AiComplete result (ai_flags s)) s
            else s, OpEnd result)
  | _ => None
  end.

(** [cancel::operator()] and [cancel::do_result]. *)
Definition cancel_step (s : ai_state) (cp : cancel_pc) : option (ai_state * cancel_pc) :=
  match cp with
  | CpRegistered =>
      let s := ai_add 1 s in
      Some (s, if decide (ai_outstanding s = 2) then CpCounted else CpLate)
  | CpCounted => Some (s, CpFlight)
  | CpFlight => Some (ai_set_cancelled s, CpMarked)
  | CpMarked =>
      let s := ai_add (-1) s in
      Some (if decide (ai_outstanding s = 0) then
              if ai_result s <? 0 then ai_complete AiStopped s
              else ai_complete (AiComplete (ai_result s) (ai_flags s)) s
            else s, CpEnd)
  | _ => None
  end.

Definition ai_world : Type := ai_state * op_pc * cancel_pc.

(** The results arrive at any time with any values; a stop request may call
    the callback at any time after it was registered. *)
Inductive ai_step : relation ai_world :=
  | ai_step_set_value s pc cp s' pc' cp' :
      set_value_step s pc cp = Some (s', pc', cp') → ai_step (s, pc, cp) (s', pc', cp')
  | ai_step_set_error s pc cp code s' pc' :
      set_error_step code s pc = Some (s', pc') → ai_step (s, pc, cp) (s', pc', cp)
  | ai_step_store s pc cp result flags s' pc' :
      do_result_store result flags s pc = Some (s', pc') → ai_step (s, pc, cp) (s', pc', cp)
  | ai_step_finish s pc cp s' pc' :
      do_result_finish s pc = Some (s', pc') → ai_step (s, pc, cp) (s', pc', cp)
  | ai_step_cancel s pc cp s' cp' :
      cancel_step s cp = Some (s', cp') → ai_step (s, pc, cp) (s', pc, cp').

Definition ai_reachable : ai_world → Prop := rtc ai_step (ai_ctor, OpIdle, CpNone).

(** ** The invariant *)

Definition op_counted (pc : op_pc) : Z := match pc with OpIdle | OpEnd _ | OpRefused _ => 0 | _ => 1 end.
Definition cancel_counted (cp : cancel_pc) : Z :=
  match cp with CpCounted | CpFlight | CpMarked | CpLate => 1 | _ => 0 end.
Definition op_result (pc : op_pc) : option Z :=
  match pc with OpStored r | OpEnd r => Some r | _ => None end.

(** The operation has its result and no cancel request is under way, or the
    operation was not started because of an error. *)
Definition ai_settled (pc : op_pc) (cp : cancel_pc) : bool :=
  match pc, cp with
  | OpRefused _, _ => true
  | OpEnd _, (CpCounted | CpFlight | CpMarked) => false
  | OpEnd _, _ => true
  | _, _ => false
  end.

(** The completion the result calls for. *)
Definition ai_expected (result flags : Z) (cancelled : bool) : ai_signal :=
  if result <? 0 then if cancelled then AiStopped else AiError result
  else AiComplete result flags.

(** The callback is registered before the operation is started, and late only
    when the operation has its result. *)
Definition ai_compatible (pc : op_pc) (cp : cancel_pc) : bool :=
  match pc, cp with
  | (OpIdle | OpEngage | OpRefused _), CpNone => true
  | (OpIdle | OpEngage | OpRefused _), _ | _, CpNone => false
  | OpEnd _, CpLate => true
  | _, CpLate => false
  | _, _ => true
  end.

Definition ai_inv (w : ai_world) : Prop :=
  let '(s, pc, cp) := w in
  ai_outstanding s = op_counted pc + cancel_counted cp ∧
  ai_compatible pc cp = true ∧
  match op_result pc with Some r => ai_result s = r | None => True end ∧
  ai_cancelled s = (match cp with CpMarked | CpEnd => true | _ => false end) ∧
  ai_done s =
    if ai_settled pc cp then
      [match pc with
       | OpRefused code => AiError code
       | _ => ai_expected (ai_result s) (ai_flags s) (ai_cancelled s)
       end]
    else [].

Lemma ai_inv_step w w' : ai_inv w → ai_step w w' → ai_inv w'.
Proof.
  intros Hinv Hstep.
  destruct Hstep as [s pc cp s' pc' cp' H|s pc cp code s' pc' H|s pc cp r f s' pc' H|s pc cp s' pc' H|s pc cp s' cp' H];
    destruct Hinv as (Ho & Hn & Hr & Hc & Hd); destruct s as [o c res fl dn]; simpl in *;
    subst o c dn; destruct pc, cp; simpl in Hn; try discriminate Hn; simplify_eq/=;
    unfold ai_expected; simpl; try done;
    repeat split; simpl; try done;
    match goal with |- context [Z.ltb ?r 0] =>
      is_var r; destruct (Z.ltb r 0) eqn:E; simpl; rewrite ?E; done
    end.
Qed.

Lemma ai_inv_reachable w : ai_reachable w → ai_inv w.
Proof. apply rtc_invariant; [apply ai_inv_step|done]. Qed.

(** ** Properties *)

(** C9: an asynchronous operation completes its receiver exactly once, however
    its result, the stop callback and the cancel request's result interleave:
    nothing is completed before the operation has its result and no cancel
    request is under way; from then on there is one completion, which reports
    the operation's result if it succeeded - even when it was cancelled -, that
    it was stopped if it failed and was cancelled, and else the error; an error
    of the upstream sender is passed on. The count never wraps around. *)
Theorem async_io_completes_once (s : ai_state) (pc : op_pc) (cp : cancel_pc) :
  ai_reachable (s, pc, cp) →
  (ai_settled pc cp = false → ai_done s = []) ∧
  (∀ r, pc = OpEnd r → ai_settled pc cp = true →
     ai_done s = [ai_expected r (ai_flags s) (bool_decide (cp = CpEnd))]) ∧
  (∀ code, pc = OpRefused code → ai_done s = [AiError code]) ∧
  0 ≤ ai_outstanding s ≤ 2.
Proof.
  intros (Ho & Hn & Hr & Hc & Hd)%ai_inv_reachable. split_and!.
  - intros Hs. by rewrite Hs in Hd.
  - intros r -> Hs. rewrite Hd, Hs. simpl in Hr. subst r. rewrite Hc. by destruct cp.
  - intros code ->. by destruct cp.
  - rewrite Ho. destruct pc; simpl; destruct cp; simpl; lia.
  - rewrite Ho. destruct pc, cp; simpl in *; try done; lia.
Qed.

(** The operation comes to an end whatever the cancel request does. *)
Lemma ai_operation_ends s pc cp :
  (∀ code, pc ≠ OpRefused code) → ∃ s1 r cp1, rtc ai_step (s, pc, cp) (s1, OpEnd r, cp1).
Proof.
  intros Hnr.
  assert (Hst : ∀ s r cp, ∃ s1 r1 cp1, rtc ai_step (s, OpStored r, cp) (s1, OpEnd r1, cp1)).
  { intros s0 r0 cp0. do 3 eexists. apply rtc_once. by apply ai_step_finish. }
  assert (Hfl : ∀ s cp, ∃ s1 r1 cp1, rtc ai_step (s, OpFlight, cp) (s1, OpEnd r1, cp1)).
  { intros s0 cp0. destruct (Hst (ai_set_result 0 0 s0) 0%Z cp0) as (s1 & r1 & cp1 & H).
    do 3 eexists. eapply rtc_l; [|exact H]. by apply ai_step_store with (result := 0%Z) (flags := 0%Z). }
  assert (Hss : ∀ s cp, ∃ s1 r1 cp1, rtc ai_step (s, OpStart, cp) (s1, OpEnd r1, cp1)).
  { intros s0 cp0. destruct (Hfl s0 cp0) as (s1 & r1 & cp1 & H).
    do 3 eexists. eapply rtc_l; [|exact H]. by apply ai_step_set_value. }
  assert (Hen : ∀ s cp, ∃ s1 r1 cp1, rtc ai_step (s, OpEngage, cp) (s1, OpEnd r1, cp1)).
  { intros s0 cp0. destruct (Hss s0 CpRegistered) as (s1 & r1 & cp1 & H).
    do 3 eexists. eapply rtc_l; [|exact H]. by apply ai_step_set_value. }
  destruct pc as [| | | | | |code]; auto.
  - destruct (Hen (ai_add 1 s) cp) as (s1 & r1 & cp1 & H).
    do 3 eexists. eapply rtc_l; [|exact H]. by apply ai_step_set_value.
  - do 3 eexists. apply rtc_refl.
  - by destruct (Hnr code).
Qed.

(** And then so does the cancel request. *)
Lemma ai_cancel_ends s r cp :
  ∃ s2 cp2, rtc ai_step (s, OpEnd r, cp) (s2, OpEnd r, cp2) ∧ ai_settled (OpEnd r) cp2 = true.
Proof.
  assert (Hm : ∀ s, ∃ s2 cp2, rtc ai_step (s, OpEnd r, CpMarked) (s2, OpEnd r, cp2) ∧
    ai_settled (OpEnd r) cp2 = true).
  { intros s0. do 2 eexists. split; [apply rtc_once; by apply ai_step_cancel|done]. }
  assert (Hf : ∀ s, ∃ s2 cp2, rtc ai_step (s, OpEnd r, CpFlight) (s2, OpEnd r, cp2) ∧
    ai_settled (OpEnd r) cp2 = true).
  { intros s0. destruct (Hm (ai_set_cancelled s0)) as (s2 & cp2 & H & ?).
    do 2 eexists. split; [eapply rtc_l; [|exact H]; by apply ai_step_cancel|done]. }
  destruct cp; try (do 2 eexists; split; [apply rtc_refl|done]); auto.
  destruct (Hf s) as (s2 & cp2 & H & ?).
  do 2 eexists. split; [eapply rtc_l; [|exact H]; by apply ai_step_cancel|done].
Qed.

(** An operation can always be finished: from every reachable state the
    results that the context owes - the operation's and, if one was requested,
    the cancel request's - lead to a settled state with one completion. *)
Theorem async_io_settles (s : ai_state) (pc : op_pc) (cp : cancel_pc) :
  ai_reachable (s, pc, cp) →
  ∃ s' pc' cp', rtc ai_step (s, pc, cp) (s', pc', cp') ∧ ai_settled pc' cp' = true ∧
    length (ai_done s') = 1%nat.
Proof.
  intros Hreach. destruct (decide (∃ code, pc = OpRefused code)) as [[code ->]|Hnr].
  { exists s, (OpRefused code), cp. split_and!; [apply rtc_refl|done|].
    by apply ai_inv_reachable in Hreach as (_ & _ & _ & _ & ->). }
  destruct (ai_operation_ends s pc cp) as (s1 & r & cp1 & Hop); [naive_solver|].
  destruct (ai_cancel_ends s1 r cp1) as (s2 & cp2 & Hcp & Hset). exists s2, (OpEnd r), cp2.
  assert (Hr2 : ai_reachable (s2, OpEnd r, cp2)) by (eapply rtc_trans; [exact Hreach|by eapply rtc_trans]).
  split_and!; [by eapply rtc_trans|done|].
  apply ai_inv_reachable in Hr2 as (_ & _ & _ & _ & Hd). by rewrite Hd, Hset.
Qed.

(** *** Witnesses: the operation fails with ECANCELED after a stop request. *)
Definition ai_example : ai_state := AiState 0 true (-125) 0 [AiStopped].

Lemma ai_example_reachable : ai_reachable (ai_example, OpEnd (-125), CpEnd).
Proof.
  unfold ai_reachable.
  eapply rtc_l; [by apply ai_step_set_value|].
  eapply rtc_l; [by apply ai_step_set_value|].
  eapply rtc_l; [by apply ai_step_set_value|].
  eapply rtc_l; [by apply ai_step_cancel|].
  eapply rtc_l; [by apply ai_step_cancel|].
  eapply rtc_l; [by apply ai_step_store with (result := -125) (flags := 0)|].
  eapply rtc_l; [by apply ai_step_cancel|].
  eapply rtc_l; [by apply ai_step_finish|].
  eapply rtc_l; [by apply ai_step_cancel|].
  apply rtc_refl.
Qed.

Lemma async_io_completes_once_witness :
  ai_done ai_example = [ai_expected (-125) 0 true].
Proof.
  apply (async_io_completes_once ai_example (OpEnd (-125)) CpEnd).
  - exact ai_example_reachable.
  - reflexivity.
  - reflexivity.
Defined.

Lemma async_io_settles_witness :
  ∃ s' pc' cp', rtc ai_step (ai_ctor, OpIdle, CpNone) (s', pc', cp') ∧ ai_settled pc' cp' = true ∧
    length (ai_done s') = 1%nat.
Proof. apply (async_io_settles ai_ctor OpIdle CpNone). apply rtc_refl. Defined.
