(* ===== verification/NetOps.v ===== *)
(** * nstd::net: the operations of the network senders

    The [operation] templates of src/src/nstd/net/async_{accept,connect,
    read_some,write_some,receive,receive_from,send,send_to}.hpp, which
    file/async_io.hpp turns into senders, and hidden_names/message_flags.hpp.
    [NetOperation] is what async_io expects of an operation - connect, start and
    complete - and [NetOperationSpec] what makes it a correct one; the theorem
    about all of them composes it with the operation state of AsyncIo. Where
    the members of an operation state are in memory is the parameter [member]. *)
From S2P Require Import Prelude Buffer NetIp FileContext AsyncIo.
Local Open Scope Z_scope.

(** ** message_flags: an enumeration over [unsigned int] *)
Definition message_flags_apply (op : Z → Z → Z) (m0 m1 : Z) : Z := wrapu 32 (op m0 m1).
Definition message_flags_and (m0 m1 : Z) : Z := message_flags_apply Z.land m0 m1.
Definition message_flags_or (m0 m1 : Z) : Z := message_flags_apply Z.lor m0 m1.
Definition message_flags_xor (m0 m1 : Z) : Z := message_flags_apply Z.lxor m0 m1.
Definition message_flags_compl (m : Z) : Z := wrapu 32 (Z.lnot m).
Definition message_flags_and_assign (m0 m1 : Z) : Z := message_flags_and m0 m1.
Definition message_flags_or_assign (m0 m1 : Z) : Z := message_flags_or m0 m1.
Definition message_flags_xor_assign (m0 m1 : Z) : Z := message_flags_xor m0 m1.
(** [message_flags{}], and [static_cast<int>(flags)]. *)
Definition message_flags_none : Z := 0.
Definition message_flags_to_int (m : Z) : Z := wraps 32 m.

(** ** Data *)
Record msghdr := Msghdr {
  msg_name : Z;
  msg_namelen : Z;
  msg_iov : Z;
  msg_iovlen : Z;
}.
Definition msghdr_zero : msghdr := Msghdr 0 0 0 0.
Definition msg_set_iov (iov len : Z) (m : msghdr) : msghdr := Msghdr (msg_name m) (msg_namelen m) iov len.
Definition msg_set_name (name len : Z) (m : msghdr) : msghdr := Msghdr name len (msg_iov m) (msg_iovlen m).

(** The socket an operation works on: [native_handle()] and [protocol()]. *)
Record net_socket := NetSocket { sock_handle : Z; sock_protocol : protocol }.

(** The values sent to the receiver. *)
Inductive net_value :=
  | VNone
  | VSize (n : Z)
  | VSizeEndpoint (n : Z) (ep : basic_endpoint)
  | VSocketEndpoint (s : net_socket) (ep : basic_endpoint).

(** Members whose address is given to the system. *)
Inductive net_member := MIovec | MMsg | MAddress | MLength.

(** The descriptor a request is made for. *)
Definition request_fd (r : request) : option Z :=
  match r with
  | RAccept fd _ _ _ _ | RConnect fd _ _ _ | ROpenAt fd _ _ _ | RRead fd _ _ _
  | RRecvmsg fd _ _ _ | RSendmsg fd _ _ _ | RWrite fd _ _ _ => Some fd
  | RCancel _ _ | RNop _ | RTimer _ _ => None
  end.

(** [std::size_t(n)] of a result. *)
Definition size_t_of (n : Z) : Z := wrapu 64 n.

(** ** The interface async_io uses

    [op_fill] is what the system writes through the pointers it was given: a
    socket address and its length. *)
Class NetOperation (Args State : Type) := {
  op_connect : Z → Args → State;
  op_start : Z → net_socket → io_base → State → State * request;
  op_fill : sockaddr_storage → Z → State → State;
  op_complete : Z → Z → State → option net_value;
}.

Class NetOperationSpec {Args State} (O : NetOperation Args State) := {
  (** The one request is made for the socket, and completes the operation. *)
  op_start_cont self sock cont st : request_cont (op_start self sock cont st).2 = cont;
  op_start_fd self sock cont st :
    request_fd (op_start self sock cont st).2 = Some (sock_handle sock);
  (** A result which is not an error yields a value. *)
  op_complete_total self sock cont args addr len n flags :
    0 ≤ n → is_Some (op_complete n flags
      (op_fill addr len (op_start self sock cont (op_connect self args)).1));
}.

Section net_ops.
Context (htons ntohs : Z → Z) (junk : nat → list Z) (proto_v6 : protocol).
Context (member : Z → net_member → Z).

(** ** async_read_some and async_write_some *)
Record some_state := SomeState { some_iovec : list iovec; some_msg : msghdr }.

Definition some_fill (addr : sockaddr_storage) (len : Z) (s : some_state) : some_state := s.

Definition read_some_connect (self : Z) (bufs : list iovec) : some_state :=
  let v := vector_iovec bufs in
  SomeState v (msg_set_iov (member self MIovec) (Z.of_nat (length v)) msghdr_zero).
Definition read_some_start_socket (self : Z) (sock : net_socket) (cont : io_base) (s : some_state) : request :=
  RRecvmsg (sock_handle sock) (member self MMsg) 0 cont.
Definition read_some_start_object (self : Z) (sock : net_socket) (cont : io_base) (s : some_state) : request :=
  RRead (sock_handle sock) (member self MIovec) (Z.of_nat (length (some_iovec s))) cont.
Definition read_some_complete (n flags : Z) (s : some_state) : option net_value :=
  Some (VSize (size_t_of n)).

Definition write_some_connect (self : Z) (bufs : list iovec) : some_state :=
  let v := vector_iovec bufs in
  SomeState v (msg_set_iov (member self MIovec) (Z.of_nat (length v)) msghdr_zero).
Definition write_some_start_socket (self : Z) (sock : net_socket) (cont : io_base) (s : some_state) : request :=
  RSendmsg (sock_handle sock) (member self MMsg) 0 cont.
Definition write_some_start_object (self : Z) (sock : net_socket) (cont : io_base) (s : some_state) : request :=
  RWrite (sock_handle sock) (member self MIovec) (Z.of_nat (length (some_iovec s))) cont.
Definition write_some_complete (n flags : Z) (s : some_state) : option net_value :=
  Some (VSize (size_t_of n)).

(** ** async_receive and async_send *)
Record message_state := MessageState {
  ms_iovec : list iovec;
  ms_msg : msghdr;
  ms_flags : Z;
}.

Definition message_fill (addr : sockaddr_storage) (len : Z) (s : message_state) : message_state := s.

Definition receive_state_ctor (self : Z) (bufs : list iovec) (flags : Z) : message_state :=
  let v := vector_iovec bufs in
  MessageState v (msg_set_iov (member self MIovec) (Z.of_nat (length v)) msghdr_zero)
    (message_flags_to_int flags).
(** Without flags, and with them. *)
Definition receive_connect (self : Z) (args : list iovec * option Z) : message_state :=
  receive_state_ctor self args.1 (default message_flags_none args.2).
Definition receive_start (self : Z) (sock : net_socket) (cont : io_base) (s : message_state) : request :=
  RRecvmsg (sock_handle sock) (member self MMsg) (ms_flags s) cont.
Definition receive_complete (n flags : Z) (s : message_state) : option net_value :=
  Some (VSize (size_t_of n)).

Definition send_state_ctor (self : Z) (bufs : list iovec) (flags : Z) : message_state :=
  let v := vector_iovec bufs in
  MessageState v (msg_set_iov (member self MIovec) (Z.of_nat (length v)) msghdr_zero)
    (message_flags_to_int flags).
Definition send_connect (self : Z) (args : list iovec * option Z) : message_state :=
  send_state_ctor self args.1 (default message_flags_none args.2).
Definition send_start (self : Z) (sock : net_socket) (cont : io_base) (s : message_state) : request :=
  RSendmsg (sock_handle sock) (member self MMsg) (ms_flags s) cont.
Definition send_complete (n flags : Z) (s : message_state) : option net_value :=
  Some (VSize (size_t_of n)).

(** ** async_receive_from and async_send_to

    [d_address] of a receive operation is not initialised. *)
Record datagram_state := DatagramState {
  dg_iovec : list iovec;
  dg_address : option sockaddr_storage;
  dg_msg : msghdr;
  dg_flags : Z;
}.

Definition sizeof_sockaddr_storage : Z := 128.

Definition datagram_fill (addr : sockaddr_storage) (len : Z) (s : datagram_state) : datagram_state :=
  DatagramState (dg_iovec s) (Some addr) (msg_set_name (msg_name (dg_msg s)) len (dg_msg s)) (dg_flags s).

Definition receive_from_state_ctor (self : Z) (bufs : list iovec) (flags : Z) : datagram_state :=
  let v := vector_iovec bufs in
  DatagramState v None
    (msg_set_name (member self MAddress) sizeof_sockaddr_storage
      (msg_set_iov (member self MIovec) (Z.of_nat (length v)) msghdr_zero))
    (message_flags_to_int flags).
Definition receive_from_connect (self : Z) (args : list iovec * option Z) : datagram_state :=
  receive_from_state_ctor self args.1 (default message_flags_none args.2).
Definition receive_from_start (self : Z) (sock : net_socket) (cont : io_base) (s : datagram_state) : request :=
  RRecvmsg (sock_handle sock) (member self MMsg) (dg_flags s) cont.
Definition receive_from_complete (n flags : Z) (s : datagram_state) : option net_value :=
  addr ← dg_address s;
  Some (VSizeEndpoint (size_t_of n)
    (endpoint_set_address ntohs (endpoint_default proto_v6) addr (msg_namelen (dg_msg s)))).

Definition send_to_state_ctor (self : Z) (bufs : list iovec) (flags : Z) (ep : basic_endpoint) : datagram_state :=
  let v := vector_iovec bufs in
  let '(addr, len) := endpoint_get_address htons junk ep in
  DatagramState v (Some addr)
    (msg_set_name (member self MAddress) len
      (msg_set_iov (member self MIovec) (Z.of_nat (length v)) msghdr_zero))
    (message_flags_to_int flags).
Definition send_to_connect (self : Z) (args : list iovec * option Z * basic_endpoint) : datagram_state :=
  send_to_state_ctor self args.1.1 (default message_flags_none args.1.2) args.2.
Definition send_to_start (self : Z) (sock : net_socket) (cont : io_base) (s : datagram_state) : request :=
  RSendmsg (sock_handle sock) (member self MMsg) (dg_flags s) cont.
Definition send_to_complete (n flags : Z) (s : datagram_state) : option net_value :=
  Some (VSize (size_t_of n)).

(** ** async_accept *)
Record accept_state := AcceptState {
  ac_protocol : option protocol;
  ac_address : option sockaddr_storage;
  ac_length : Z;
}.

Definition accept_fill (addr : sockaddr_storage) (len : Z) (s : accept_state) : accept_state :=
  AcceptState (ac_protocol s) (Some addr) len.

Definition accept_connect (self : Z) (args : ()) : accept_state :=
  AcceptState None None sizeof_sockaddr_storage.
Definition accept_start (self : Z) (sock : net_socket) (cont : io_base) (s : accept_state)
    : accept_state * request :=
  (AcceptState (Some (sock_protocol sock)) (ac_address s) (ac_length s),
   RAccept (sock_handle sock) (member self MAddress) (member self MLength) 0 cont).
(** The optional protocol is dereferenced. *)
Definition accept_complete (fd flags : Z) (s : accept_state) : option net_value :=
  addr ← ac_address s;
  let ep := endpoint_set_address ntohs (endpoint_default proto_v6) addr (ac_length s) in
  pr ← ac_protocol s;
  Some (VSocketEndpoint (NetSocket fd pr) ep).

(** ** async_connect *)
Record connect_state := ConnectState { co_address : sockaddr_storage; co_length : Z }.

Definition connect_fill (addr : sockaddr_storage) (len : Z) (s : connect_state) : connect_state := s.

Definition connect_connect (self : Z) (ep : basic_endpoint) : connect_state :=
  let '(addr, len) := endpoint_get_address htons junk ep in ConnectState addr len.
Definition connect_start (self : Z) (sock : net_socket) (cont : io_base) (s : connect_state) : request :=
  RConnect (sock_handle sock) (member self MAddress) (co_length s) cont.
Definition connect_complete (n flags : Z) (s : connect_state) : option net_value := Some VNone.

(** ** The instances *)
(** Starting an operation which does not change its state. *)
Definition start_const {St} (f : Z → net_socket → io_base → St → request)
    (self : Z) (sock : net_socket) (cont : io_base) (s : St) : St * request := (s, f self sock cont s).

Definition read_some_socket_op : NetOperation (list iovec) some_state :=
  {| op_connect := read_some_connect; op_start := start_const read_some_start_socket;
     op_fill := some_fill; op_complete := read_some_complete |}.
Definition read_some_object_op : NetOperation (list iovec) some_state :=
  {| op_connect := read_some_connect; op_start := start_const read_some_start_object;
     op_fill := some_fill; op_complete := read_some_complete |}.
Definition write_some_socket_op : NetOperation (list iovec) some_state :=
  {| op_connect := write_some_connect; op_start := start_const write_some_start_socket;
     op_fill := some_fill; op_complete := write_some_complete |}.
Definition write_some_object_op : NetOperation (list iovec) some_state :=
  {| op_connect := write_some_connect; op_start := start_const write_some_start_object;
     op_fill := some_fill; op_complete := write_some_complete |}.
Definition receive_op : NetOperation (list iovec * option Z) message_state :=
  {| op_connect := receive_connect; op_start := start_const receive_start;
     op_fill := message_fill; op_complete := receive_complete |}.
Definition send_op : NetOperation (list iovec * option Z) message_state :=
  {| op_connect := send_connect; op_start := start_const send_start;
     op_fill := message_fill; op_complete := send_complete |}.
Definition receive_from_op : NetOperation (list iovec * option Z) datagram_state :=
  {| op_connect := receive_from_connect; op_start := start_const receive_from_start;
     op_fill := datagram_fill; op_complete := receive_from_complete |}.
Definition send_to_op : NetOperation (list iovec * option Z * basic_endpoint) datagram_state :=
  {| op_connect := send_to_connect; op_start := start_const send_to_start;
     op_fill := datagram_fill; op_complete := send_to_complete |}.
Definition accept_op : NetOperation () accept_state :=
  {| op_connect := accept_connect; op_start := accept_start;
     op_fill := accept_fill; op_complete := accept_complete |}.
Definition connect_op : NetOperation basic_endpoint connect_state :=
  {| op_connect := connect_connect; op_start := start_const connect_start;
     op_fill := connect_fill; op_complete := connect_complete |}.

#[export] Instance read_some_socket_spec : NetOperationSpec read_some_socket_op.
Proof. split; [done|done|by eexists]. Qed.
#[export] Instance read_some_object_spec : NetOperationSpec read_some_object_op.
Proof. split; [done|done|by eexists]. Qed.
#[export] Instance write_some_socket_spec : NetOperationSpec write_some_socket_op.
Proof. split; [done|done|by eexists]. Qed.
#[export] Instance write_some_object_spec : NetOperationSpec write_some_object_op.
Proof. split; [done|done|by eexists]. Qed.
#[export] Instance receive_spec : NetOperationSpec receive_op.
Proof. split; [done|done|by eexists]. Qed.
#[export] Instance send_spec : NetOperationSpec send_op.
Proof. split; [done|done|by eexists]. Qed.
#[export] Instance receive_from_spec : NetOperationSpec receive_from_op.
Proof. split; [done|done|by eexists]. Qed.
#[export] Instance send_to_spec : NetOperationSpec send_to_op.
Proof. split; [done|done|by eexists]. Qed.
#[export] Instance accept_spec : NetOperationSpec accept_op.
Proof. split; [done|done|by eexists]. Qed.
#[export] Instance connect_spec : NetOperationSpec connect_op.
Proof. split; [done|done|by eexists]. Qed.

(** ** Completion through async_io *)
Inductive net_signal :=
  | NetValue (v : net_value)
  | NetError (code : Z)
  | NetStopped.

(** What [state_base] delivers to the receiver, [complete] calling the
    operation's. *)
Definition net_deliver `{NetOperation Args State} (st : State) (sig : ai_signal) : option net_signal :=
  match sig with
  | AiComplete result flags => NetValue <$> op_complete result flags st
  | AiError code => Some (NetError code)
  | AiStopped => Some NetStopped
  end.

(** The operation's own state when its result arrives: connected, started, and
    the system stored a socket address where it was told to. *)
Definition net_op_state `{O : NetOperation Args State} (self : Z) (sock : net_socket) (cont : io_base)
    (args : Args) (addr : sockaddr_storage) (len : Z) : State :=
  op_fill addr len (op_start self sock cont (op_connect self args)).1.

(** Every network operation - any which satisfies [NetOperationSpec] -
    makes exactly one request, for its socket, and completes its receiver once
    it has its result and no cancel request is under way: with the operation's
    value for a result of at least zero, otherwise with the error, or stopped
    when it was cancelled. No optional which is empty is ever dereferenced. *)
Theorem net_operation_completes {Args State} (O : NetOperation Args State) `{!NetOperationSpec O}
    self sock cont args addr len s result cp :
  ai_reachable (s, OpEnd result, cp) → ai_settled (OpEnd result) cp = true →
  let st := net_op_state self sock cont args addr len in
  let r := (op_start self sock cont (op_connect self args)).2 in
  request_cont r = cont ∧ request_fd r = Some (sock_handle sock) ∧
  ∃ sig, net_deliver st <$> ai_done s = [Some sig] ∧
    (0 ≤ result → ∃ v, sig = NetValue v ∧ op_complete result (ai_flags s) st = Some v) ∧
    (result < 0 → sig = if decide (cp = CpEnd) then NetStopped else NetError result).
Proof.
  intros Hr Hset st r. split_and!; [apply op_start_cont|apply op_start_fd|].
  apply ai_inv_reachable in Hr as (_ & _ & Hres & Hc & Hd). rewrite Hset in Hd. cbn in Hres.
  rewrite Hd, Hres, Hc. unfold ai_expected. destruct (Z.ltb_spec result 0) as [Hlt|Hge].
  - exists (if decide (cp = CpEnd) then NetStopped else NetError result).
    split; [by destruct cp|split; [lia|done]].
  - destruct (op_complete_total self sock cont args addr len result (ai_flags s) Hge) as [v Hv].
    fold (net_op_state self sock cont args addr len) in Hv. exists (NetValue v).
    cbn. subst st. rewrite Hv. cbn. split; [done|]. split; [intros _; by exists v|lia].
Qed.

(** The message header describes the caller's buffers. *)
Definition msg_describes (self : Z) (bufs iov : list iovec) (m : msghdr) : Prop :=
  iov = bufs ∧ msg_iov m = member self MIovec ∧ msg_iovlen m = Z.of_nat (length bufs).

Lemma vector_iovec_id bufs : vector_iovec bufs = bufs.
Proof. induction bufs as [|[] bufs IH]; simpl; [done|]. by rewrite IH. Qed.

Lemma flags_to_int_small f : 0 ≤ f < 2 ^ 31 → message_flags_to_int f = f.
Proof.
  intros Hf. unfold message_flags_to_int, wraps. rewrite wrapu_small by (unfold is_uint; lia).
  by rewrite decide_True by (change (32 - 1) with 31; lia).
Qed.

(** The message header of each operation that transfers data describes the
    caller's buffers, in order and completely; the flags given are passed on,
    and none otherwise; a value sent is the number of bytes as it was reported. *)
Theorem net_operations_describe_buffers self sock cont bufs flags ep n f st :
  0 ≤ flags < 2 ^ 31 → 0 ≤ n < 2 ^ 31 →
  let rs := read_some_connect self bufs in
  let ws := write_some_connect self bufs in
  let rc := receive_connect self (bufs, Some flags) in
  let sd := send_connect self (bufs, Some flags) in
  let rf := receive_from_connect self (bufs, Some flags) in
  let stt := send_to_connect self (bufs, Some flags, ep) in
  msg_describes self bufs (some_iovec rs) (some_msg rs) ∧
  msg_describes self bufs (some_iovec ws) (some_msg ws) ∧
  msg_describes self bufs (ms_iovec rc) (ms_msg rc) ∧ msg_describes self bufs (ms_iovec sd) (ms_msg sd) ∧
  msg_describes self bufs (dg_iovec rf) (dg_msg rf) ∧
  msg_describes self bufs (dg_iovec stt) (dg_msg stt) ∧
  read_some_start_object self sock cont rs =
    RRead (sock_handle sock) (member self MIovec) (Z.of_nat (length bufs)) cont ∧
  receive_start self sock cont rc = RRecvmsg (sock_handle sock) (member self MMsg) flags cont ∧
  send_start self sock cont sd = RSendmsg (sock_handle sock) (member self MMsg) flags cont ∧
  ms_flags (receive_connect self (bufs, None)) = 0 ∧ ms_flags (send_connect self (bufs, None)) = 0 ∧
  msg_name (dg_msg stt) = member self MAddress ∧
  Some (dg_address stt, msg_namelen (dg_msg stt)) =
    Some (Some (endpoint_get_address htons junk ep).1, (endpoint_get_address htons junk ep).2) ∧
  read_some_complete n f st = Some (VSize n).
Proof.
  intros Hfl Hn. cbn zeta.
  unfold msg_describes, read_some_connect, write_some_connect, receive_connect, send_connect,
    receive_from_connect, send_to_connect, receive_state_ctor, send_state_ctor, receive_from_state_ctor,
    send_to_state_ctor, read_some_start_object, receive_start, send_start, read_some_complete, size_t_of.
  cbn [fst snd default]. destruct (endpoint_get_address htons junk ep) as [addr len]. simpl.
  rewrite !vector_iovec_id, !flags_to_int_small by done.
  rewrite wrapu_small by (unfold is_uint; lia). by split_and!.
Qed.

(** A datagram's endpoint survives the trip through the system: when what
    the system reports for a received datagram is what [async_send_to] stored
    for an IPv4 endpoint, [async_receive_from] sends the address and the port
    of that endpoint - with the protocol of the default endpoint. *)
Theorem datagram_endpoint_roundtrip self self' bufs bufs' fl fl' ep a port n flags :
  (∀ p, is_uint 16 p → ntohs (htons p) = p) →
  v4_wf a → is_uint 16 port → d_address ep = AddrV4 a → d_port ep = port → 0 ≤ n < 2 ^ 31 →
  let out := send_to_connect self (bufs, fl, ep) in
  let inc := receive_from_connect self' (bufs', fl') in
  ∃ addr, dg_address out = Some addr ∧
    receive_from_complete n flags (datagram_fill addr (msg_namelen (dg_msg out)) inc) =
      Some (VSizeEndpoint n (Endpoint proto_v6 (AddrV4 a) port)).
Proof.
  intros Hinv Ha Hp Hea Hpo Hn. cbn zeta.
  pose proof (v4_storage_roundtrip htons ntohs junk ep (endpoint_default proto_v6) a port Hinv Ha Hp Hea Hpo) as Hrt.
  unfold send_to_connect, send_to_state_ctor. cbn [fst snd].
  destruct (endpoint_get_address htons junk ep) as [addr len]. simpl in *.
  exists addr. split; [done|]. unfold receive_from_complete. simpl.
  unfold size_t_of. rewrite wrapu_small by (unfold is_uint; lia). by rewrite Hrt.
Qed.
End net_ops.

(** [message_flags] is a bitmask type: on 32-bit values the operators are
    the bitwise ones and the complement flips every bit. *)
Theorem message_flags_bitmask f g :
  is_uint 32 f → is_uint 32 g →
  (∀ n, Z.testbit (message_flags_and f g) n = Z.testbit f n && Z.testbit g n) ∧
  (∀ n, Z.testbit (message_flags_or f g) n = Z.testbit f n || Z.testbit g n) ∧
  (∀ n, Z.testbit (message_flags_xor f g) n = xorb (Z.testbit f n) (Z.testbit g n)) ∧
  (∀ n, 0 ≤ n < 32 → Z.testbit (message_flags_compl f) n = negb (Z.testbit f n)) ∧
  message_flags_and f (message_flags_compl f) = message_flags_none.
Proof.
  intros Hf Hg.
  assert (Hand : ∀ y, is_uint 32 y → message_flags_and f y = Z.land f y).
  { intros y Hy. apply (flags_op_closed Z.land andb); auto using Z.land_spec.
    intros. apply Z.land_nonneg. auto. }
  assert (Hor : message_flags_or f g = Z.lor f g).
  { apply (flags_op_closed Z.lor orb); auto using Z.lor_spec. intros. by apply Z.lor_nonneg. }
  assert (Hxor : message_flags_xor f g = Z.lxor f g).
  { apply (flags_op_closed Z.lxor xorb); auto using Z.lxor_spec. intros. apply Z.lxor_nonneg. tauto. }
  assert (Hcb : ∀ n, 0 ≤ n < 32 → Z.testbit (message_flags_compl f) n = negb (Z.testbit f n)).
  { intros. by apply flags_compl_bits. }
  assert (Hc : is_uint 32 (message_flags_compl f)) by (by apply wrapu_range).
  split_and!; [intros n; by rewrite Hand, Z.land_spec|intros n; by rewrite Hor, Z.lor_spec
    |intros n; by rewrite Hxor, Z.lxor_spec|done|].
  rewrite Hand by done. apply Z.bits_inj'. intros n Hn. rewrite Z.land_spec, Z.bits_0.
  destruct (decide (n < 32)).
  - rewrite Hcb by lia. apply andb_negb_r.
  - apply uint_testbit in Hf as [_ Hf]; [|lia]. by rewrite Hf by lia.
Qed.

(** ** Witnesses *)
Definition demo_member (self : Z) (m : net_member) : Z :=
  self + match m with MIovec => 0 | MMsg => 64 | MAddress => 128 | MLength => 256 end.

Lemma net_operation_completes_witness :
  let O := accept_op bswap16 tcp_v6 demo_member in
  let st := net_op_state (O := O) 4096 (NetSocket 5 tcp_v4) 77 ()
    (Storage AF_INET 80 [1; 0; 0; 127]) 16 in
  let r := (op_start (NetOperation := O) 4096 (NetSocket 5 tcp_v4) 77 (op_connect (NetOperation := O) 4096 ())).2 in
  request_cont r = 77 ∧ request_fd r = Some 5 ∧
  ∃ sig, net_deliver (H := O) st <$> ai_done ai_example = [Some sig] ∧
    (0 ≤ -125 → ∃ v, sig = NetValue v ∧ op_complete (NetOperation := O) (-125) (ai_flags ai_example) st = Some v) ∧
    (-125 < 0 → sig = if decide (CpEnd = CpEnd) then NetStopped else NetError (-125)).
Proof.
  exact (net_operation_completes (accept_op bswap16 tcp_v6 demo_member)
    4096 (NetSocket 5 tcp_v4) 77 () (Storage AF_INET 80 [1; 0; 0; 127]) 16
    ai_example (-125) CpEnd ai_example_reachable eq_refl).
Defined.

Lemma net_operations_describe_buffers_witness :
  let bufs := [IOVec 100 3; IOVec 200 5] in
  let ep := Endpoint udp_v4 (AddrV4 v4_loopback) 7 in
  let junk := λ n, replicate n 0 in
  let rs := read_some_connect demo_member 4096 bufs in
  let ws := write_some_connect demo_member 4096 bufs in
  let rc := receive_connect demo_member 4096 (bufs, Some 2) in
  let sd := send_connect demo_member 4096 (bufs, Some 2) in
  let rf := receive_from_connect demo_member 4096 (bufs, Some 2) in
  let stt := send_to_connect bswap16 junk demo_member 4096 (bufs, Some 2, ep) in
  msg_describes demo_member 4096 bufs (some_iovec rs) (some_msg rs) ∧
  msg_describes demo_member 4096 bufs (some_iovec ws) (some_msg ws) ∧
  msg_describes demo_member 4096 bufs (ms_iovec rc) (ms_msg rc) ∧
  msg_describes demo_member 4096 bufs (ms_iovec sd) (ms_msg sd) ∧
  msg_describes demo_member 4096 bufs (dg_iovec rf) (dg_msg rf) ∧
  msg_describes demo_member 4096 bufs (dg_iovec stt) (dg_msg stt) ∧
  read_some_start_object demo_member 4096 (NetSocket 5 udp_v4) 77 rs = RRead 5 4096 2 77 ∧
  receive_start demo_member 4096 (NetSocket 5 udp_v4) 77 rc = RRecvmsg 5 4160 2 77 ∧
  send_start demo_member 4096 (NetSocket 5 udp_v4) 77 sd = RSendmsg 5 4160 2 77 ∧
  ms_flags (receive_connect demo_member 4096 (bufs, None)) = 0 ∧
  ms_flags (send_connect demo_member 4096 (bufs, None)) = 0 ∧
  msg_name (dg_msg stt) = 4224 ∧
  Some (dg_address stt, msg_namelen (dg_msg stt)) =
    Some (Some (endpoint_get_address bswap16 junk ep).1, (endpoint_get_address bswap16 junk ep).2) ∧
  read_some_complete 8 0 (SomeState [] msghdr_zero) = Some (VSize 8).
Proof.
  apply (net_operations_describe_buffers bswap16 (λ n, replicate n 0) demo_member 4096
    (NetSocket 5 udp_v4) 77 [IOVec 100 3; IOVec 200 5] 2 (Endpoint udp_v4 (AddrV4 v4_loopback) 7) 8 0
    (SomeState [] msghdr_zero)); lia.
Defined.

Lemma datagram_endpoint_roundtrip_witness :
  let out := send_to_connect bswap16 (λ n, replicate n 0) demo_member 4096
    ([IOVec 100 3], None, Endpoint udp_v4 (AddrV4 v4_loopback) 8080) in
  let inc := receive_from_connect demo_member 8192 ([IOVec 300 3], None) in
  ∃ addr, dg_address out = Some addr ∧
    receive_from_complete bswap16 tcp_v6 3 0 (datagram_fill addr (msg_namelen (dg_msg out)) inc) =
      Some (VSizeEndpoint 3 (Endpoint tcp_v6 (AddrV4 v4_loopback) 8080)).
Proof.
  refine (datagram_endpoint_roundtrip bswap16 bswap16 (λ n, replicate n 0) tcp_v6 demo_member
    4096 8192 [IOVec 100 3] [IOVec 300 3] None None
    (Endpoint udp_v4 (AddrV4 v4_loopback) 8080) v4_loopback 8080 3 0 bswap16_involutive _ _ eq_refl eq_refl _);
    [by apply v4_of_uint_wf|by vm_compute|lia].
Defined.

Lemma message_flags_bitmask_witness :
  (∀ n, Z.testbit (message_flags_and 5 6) n = Z.testbit 5 n && Z.testbit 6 n) ∧
  (∀ n, Z.testbit (message_flags_or 5 6) n = Z.testbit 5 n || Z.testbit 6 n) ∧
  (∀ n, Z.testbit (message_flags_xor 5 6) n = xorb (Z.testbit 5 n) (Z.testbit 6 n)) ∧
  (∀ n, 0 ≤ n < 32 → Z.testbit (message_flags_compl 5) n = negb (Z.testbit 5 n)) ∧
  message_flags_and 5 (message_flags_compl 5) = message_flags_none.
Proof. apply (message_flags_bitmask 5 6); by apply (bool_decide_unpack _). Defined.
