(* ===== verification/Transfer.v ===== *)
(** * nstd::net::async_read and async_write

    src/src/nstd/net/async_read.hpp and async_write.hpp: one partial operation
    after the other - [async_read_some] or [async_write_some] on what is left of
    a copy of the buffer, [then] advancing it by the count - in a
    [repeat_effect_until] which ends when the buffer is empty. The components
    they are made of are modelled in RepeatEffect, Buffer and NetOps; here they
    are put together. *)
From S2P Require Import Prelude Buffer RepeatEffect NetIp FileContext NetOps.
Local Open Scope Z_scope.

(** How one of the partial operations completes. *)
Inductive transfer_result := TrCount (n : Z) | TrError (code : Z) | TrStopped.

(** The [i]-th partial operation: its completion, whether it completes after
    its start returned, and whether stop is requested after it. *)
Record transfer_io := TransferIo {
  tio_result : nat → transfer_result;
  tio_async : nat → bool;
  tio_stop : nat → bool;
}.

Section transfer.
Context (plus : iovec → Z → iovec) (io : transfer_io) (buf : iovec).

(** The captured buffer after [i] operations: [buffer += n] is called for each
    value. *)
Fixpoint transfer_buffer (i : nat) : iovec :=
  match i with
  | O => buf
  | S i => match tio_result io i with
           | TrCount n => plus (transfer_buffer i) n
           | _ => transfer_buffer i
           end
  end.

(** The operations inside of [repeat_effect_until], and its predicate
    [buffer.size() == 0]. *)
Definition transfer_signal (i : nat) : re_signal Z :=
  match tio_result io i with
  | TrCount _ => RSetValue
  | TrError code => RSetError code
  | TrStopped => RSetStopped
  end.

Definition transfer_done (i : nat) : bool := bool_decide (iov_len (transfer_buffer (S i)) = 0).

Definition transfer_world : re_world Z :=
  ReWorld (tio_async io) transfer_signal (tio_stop io) (λ i, inr (transfer_done i)) (λ _, None).

(** Starting the operation, and completing the partial operations under way. *)
Definition transfer_run (rounds fuel : nat) : outcome (re_state Z) :=
  s ← re_start transfer_world fuel re_ctor; re_drive transfer_world rounds fuel s.
End transfer.

(** The state of the [i]-th partial operation: its message is built from the
    buffer as it is then. *)
Definition async_read_operation (member : Z → net_member → Z) (self : Z) (io : transfer_io)
    (buf : iovec) (i : nat) : some_state :=
  read_some_connect member self [transfer_buffer mutable_buffer_plus io buf i].
Definition async_write_operation (member : Z → net_member → Z) (self : Z) (io : transfer_io)
    (buf : iovec) (i : nat) : some_state :=
  write_some_connect member self [transfer_buffer const_buffer_plus io buf i].

Definition async_read (io : transfer_io) (cbs : iovec) (rounds fuel : nat) : outcome (re_state Z) :=
  transfer_run mutable_buffer_plus io cbs rounds fuel.
Definition async_write (io : transfer_io) (cbs : iovec) (rounds fuel : nat) : outcome (re_state Z) :=
  transfer_run const_buffer_plus io cbs rounds fuel.

(** ** What the system does

    Every partial operation succeeds; it transfers at most what it was asked
    to, and something when asked for something. *)
Definition io_counts (plus : iovec → Z → iovec) (io : transfer_io) (buf : iovec) : Prop :=
  ∀ i, tio_stop io i = false ∧ ∃ n, tio_result io i = TrCount n ∧
    0 ≤ n ≤ iov_len (transfer_buffer plus io buf i) ∧
    (0 < iov_len (transfer_buffer plus io buf i) → 0 < n).

(** The same of the operations before the [m]-th. *)
Definition io_counts_to (m : nat) (plus : iovec → Z → iovec) (io : transfer_io) (buf : iovec) : Prop :=
  ∀ i, (i < m)%nat → tio_stop io i = false ∧ ∃ n, tio_result io i = TrCount n ∧
    0 ≤ n ≤ iov_len (transfer_buffer plus io buf i) ∧
    (0 < iov_len (transfer_buffer plus io buf i) → 0 < n).

(** The [m]-th operation fails or is stopped, or stop is requested after it. *)
Definition io_ends (plus : iovec → Z → iovec) (io : transfer_io) (buf : iovec) (m : nat) (sig : re_signal Z) : Prop :=
  match tio_result io m with
  | TrError code => sig = RSetError code
  | TrStopped => sig = RSetStopped
  | TrCount n => tio_stop io m = true ∧ sig = RSetStopped ∧
      0 ≤ n ≤ iov_len (transfer_buffer plus io buf m)
  end.

Definition count_at (io : transfer_io) (i : nat) : Z :=
  match tio_result io i with TrCount n => n | _ => 0 end.

(** The bytes the [i]-th write takes from the front of the buffer, and all the
    bytes the first [k] writes sent. *)
Definition sent_by (mem : Z → Z) (io : transfer_io) (buf : iovec) (i : nat) : list Z :=
  take (Z.to_nat (count_at io i)) (bytes_of mem (transfer_buffer const_buffer_plus io buf i)).
Definition sent (mem : Z → Z) (io : transfer_io) (buf : iovec) (k : nat) : list Z :=
  seq 0 k ≫= sent_by mem io buf.

(** A read stores a chunk of bytes at the front of the buffer. *)
Definition store_bytes (mem : Z → Z) (a : Z) (bs : list Z) : Z → Z :=
  λ x, if decide (a ≤ x) then default (mem x) (bs !! Z.to_nat (x - a)) else mem x.
Fixpoint received (mem : Z → Z) (chunks : nat → list Z) (io : transfer_io) (buf : iovec) (k : nat) : Z → Z :=
  match k with
  | O => mem
  | S k => store_bytes (received mem chunks io buf k)
             (iov_base (transfer_buffer mutable_buffer_plus io buf k)) (chunks k)
  end.

Section transfer_lemmas.
Context (plus : iovec → Z → iovec) (io : transfer_io) (buf : iovec) (m : nat).
Hypothesis plus_advance : ∀ b n, plus b n = const_buffer_advance b n.
Hypothesis buf_wf : iovec_wf buf.
Hypothesis counts : io_counts_to m plus io buf.

Fixpoint total (k : nat) : Z := match k with O => 0 | S k => total k + count_at io k end.

(** The buffer is what is left after the bytes transferred so far. *)
Lemma transfer_buffer_at k :
  (k ≤ m)%nat →
  transfer_buffer plus io buf k = IOVec (iov_base buf + total k) (iov_len buf - total k) ∧
  0 ≤ total k ≤ iov_len buf.
Proof.
  induction k as [|k IH]; intros Hkm; simpl.
  - destruct buf_wf as (?&?&?). destruct buf; simpl in *. split; [f_equal|]; lia.
  - destruct (IH ltac:(lia)) as [IHb Hk].
    destruct (counts k Hkm) as (_ & n & Hn & Hle & _). unfold count_at. rewrite Hn.
    rewrite IHb in Hle |- *. simpl in Hle. destruct buf_wf as (?&?&?).
    rewrite plus_advance, advance_eq by (unfold iovec_wf; simpl; lia). simpl.
    rewrite Z.min_l by lia. split; [f_equal; lia|lia].
Qed.

Lemma transfer_step_done k :
  (k < m)%nat → transfer_done plus io buf k = bool_decide (total (S k) = iov_len buf).
Proof.
  intros Hk. unfold transfer_done. destruct (transfer_buffer_at (S k) Hk) as [-> ?].
  apply bool_decide_ext. simpl. lia.
Qed.

Lemma total_progress k : (k < m)%nat → total k < iov_len buf → total k < total (S k).
Proof.
  intros Hkm Hk. destruct (counts k Hkm) as (_ & n & Hn & _ & Hpos).
  destruct (transfer_buffer_at k ltac:(lia)) as [Hb _]. rewrite Hb in Hpos. simpl in *.
  unfold count_at. rewrite Hn. lia.
Qed.

Lemma total_mono j k : (j ≤ k ≤ m)%nat → total j ≤ total k.
Proof.
  intros [Hjk Hkm]. induction Hjk as [|k Hjk IH]; [done|].
  destruct (counts k Hkm) as (_ & n & Hn & Hle & _). specialize (IH ltac:(lia)).
  simpl. unfold count_at. rewrite Hn. lia.
Qed.

(** Each operation before the buffer is empty transfers a byte. *)
Lemma total_at_least k : (k ≤ m)%nat → total k < iov_len buf → Z.of_nat k ≤ total k.
Proof.
  induction k as [|k IH]; intros Hkm Ht; [done|]. pose proof (total_mono k (S k) ltac:(lia)).
  pose proof (total_progress k Hkm ltac:(lia)). specialize (IH ltac:(lia) ltac:(lia)). lia.
Qed.

(** The loop ends when everything was transferred, after at most one operation
    per byte, and one for an empty buffer. *)
Lemma transfer_plain_loop n i :
  (i + Z.to_nat (iov_len buf - total i) `max` 1 ≤ m)%nat →
  (Z.to_nat (iov_len buf - total i) `max` 1 ≤ n)%nat →
  ∃ k, plain_loop (transfer_world plus io buf) n i = Some (RSetValue, k) ∧
    total k = iov_len buf ∧ (k ≤ i + Z.to_nat (iov_len buf - total i) `max` 1)%nat.
Proof.
  revert i. induction n as [|n IH]; intros i Him Hn; [lia|]. cbn [plain_loop].
  assert (i < m)%nat as Hi' by lia. destruct (counts i Hi') as (Hstop & c & Hc & _).
  assert (Hsig : inner_signal (transfer_world plus io buf) i = RSetValue).
  { cbn. unfold transfer_signal. by rewrite Hc. }
  rewrite Hsig. cbn -[transfer_done total]. rewrite Hstop, transfer_step_done by done.
  destruct (transfer_buffer_at i) as [_ Hi]; [lia|]. destruct (transfer_buffer_at (S i)) as [_ HSi]; [lia|].
  case_bool_decide as Hend; [exists (S i); split; [done|split; [done|lia]]|].
  pose proof (total_mono i (S i) ltac:(lia)).
  pose proof (total_progress i Hi' ltac:(lia)).
  destruct (IH (S i)) as (k & Hk & ? & ?); [lia..|]. exists k. split_and!; [done|done|lia].
Qed.

(** It ends early when an operation fails before everything was transferred. *)
Lemma transfer_plain_ends sig n i :
  (i ≤ m)%nat → (m - i < n)%nat → m = O ∨ total m < iov_len buf → io_ends plus io buf m sig →
  plain_loop (transfer_world plus io buf) n i = Some (sig, S m).
Proof.
  intros Him Hn Ht Hends. revert i Him Hn. induction n as [|n IH]; intros i Him Hn; [lia|]. cbn [plain_loop].
  destruct (decide (i = m)) as [->|Hne].
  - unfold io_ends in Hends. cbn -[transfer_done]. unfold transfer_signal.
    destruct (tio_result io m); [destruct Hends as (-> & -> & _)| |]; by subst.
  - destruct (counts i ltac:(lia)) as (Hstop & c & Hc & _).
    assert (Hsig : inner_signal (transfer_world plus io buf) i = RSetValue).
    { cbn. unfold transfer_signal. by rewrite Hc. }
    rewrite Hsig. cbn -[transfer_done total]. rewrite Hstop, transfer_step_done by lia.
    rewrite bool_decide_false by (pose proof (total_mono (S i) m ltac:(lia)); lia).
    apply IH; lia.
Qed.

Lemma transfer_run_plain n rounds fuel res :
  plain_loop (transfer_world plus io buf) n 0 = Some res → (n < rounds)%nat → (n + 5 ≤ fuel)%nat →
  ∃ s, transfer_run plus io buf rounds fuel = Ret s ∧ re_done s = [res.1] ∧ re_count s = res.2.
Proof.
  intros Hp Hro Hf. set (w := transfer_world plus io buf) in *.
  destruct (re_start_spec w n fuel _ Hp eq_refl Hf) as (s & Hs & Hr & Hprog).
  destruct (re_drive_spec w n rounds fuel s _ Hprog Hr Hro ltac:(lia)) as (s' & Hd & Hdone & Hc).
  exists s'. unfold transfer_run. fold w. rewrite Hs. by split_and!.
Qed.

Lemma transfer_run_ends sig rounds fuel :
  let n := (Z.to_nat (iov_len buf) `max` 1)%nat in
  (n < rounds)%nat → (n + 5 ≤ fuel)%nat → m = O ∨ total m < iov_len buf → io_ends plus io buf m sig →
  ∃ s, transfer_run plus io buf rounds fuel = Ret s ∧ re_done s = [sig] ∧ re_count s = S m ∧ (S m ≤ n)%nat.
Proof.
  intros n Hro Hf Ht Hends.
  assert (S m ≤ n)%nat as Hm.
  { destruct Ht as [->|Ht]; [lia|]. pose proof (total_at_least m (le_n m) Ht). lia. }
  destruct (transfer_run_plain (S m) rounds fuel (sig, S m)) as (s & Hs & Hd & Hc); [|lia..|].
  { apply transfer_plain_ends; [lia|lia|done|done]. }
  by exists s.
Qed.
End transfer_lemmas.

Lemma io_counts_all plus io buf m : io_counts plus io buf → io_counts_to m plus io buf.
Proof. intros H i _. apply H. Qed.

Lemma transfer_run_spec plus io buf rounds fuel :
  (∀ b n, plus b n = const_buffer_advance b n) → iovec_wf buf → io_counts plus io buf →
  let n := (Z.to_nat (iov_len buf) `max` 1)%nat in
  (n < rounds)%nat → (n + 5 ≤ fuel)%nat →
  ∃ s, transfer_run plus io buf rounds fuel = Ret s ∧ re_done s = [RSetValue] ∧
    (re_count s ≤ n)%nat ∧ total io (re_count s) = iov_len buf.
Proof.
  intros Hp Hwf Hc n Hro Hf.
  destruct (transfer_plain_loop plus io buf n Hp Hwf (io_counts_all _ _ _ n Hc) n 0) as (k & Hk & Ht & Hle);
    [simpl; lia|simpl; lia|].
  destruct (transfer_run_plain plus io buf n rounds fuel _ Hk Hro Hf) as (s & Hs & Hd & Hcs).
  exists s. simpl in *. split_and!; [done|done|lia|by rewrite Hcs].
Qed.

(** ** Properties *)

(** The bytes the first [k] writes send are the first ones of the buffer. *)
Lemma sent_prefix mem io buf m k :
  iovec_wf buf → io_counts_to m const_buffer_plus io buf → (k ≤ m)%nat →
  sent mem io buf k = take (Z.to_nat (total io k)) (bytes_of mem buf).
Proof.
  intros Hwf Hc. pose proof (transfer_buffer_at const_buffer_plus io buf m (λ _ _, eq_refl) Hwf Hc) as Hb.
  induction k as [|k IH]; intros Hkm; [by rewrite take_0|].
  unfold sent in *. rewrite seq_S, bind_app, IH by lia. cbn. rewrite app_nil_r.
  destruct (Hb k ltac:(lia)) as [Hbk Hk]. destruct (Hb (S k) Hkm) as [_ HSk].
  unfold sent_by. rewrite Hbk, bytes_of_drop by lia. simpl in HSk.
  destruct (Hc k Hkm) as (_ & n & Hn & Hle & _). unfold count_at in *. rewrite Hn in *.
  destruct buf as [a l]; simpl in *.
  rewrite Z2Nat.inj_add by lia. by rewrite take_take_drop.
Qed.

(** What the operation that ends the loop sends is next in the buffer. *)
Lemma sent_ends mem io buf m sig :
  iovec_wf buf → io_counts_to m const_buffer_plus io buf → io_ends const_buffer_plus io buf m sig →
  sent mem io buf (S m) = take (Z.to_nat (total io (S m))) (bytes_of mem buf).
Proof.
  intros Hwf Hc Hends. destruct (transfer_buffer_at const_buffer_plus io buf m (λ _ _, eq_refl) Hwf Hc m) as [Hb Hk]; [done|].
  unfold sent. rewrite seq_S, bind_app. fold (sent mem io buf m).
  rewrite (sent_prefix mem io buf m m) by done. cbn. rewrite app_nil_r.
  unfold sent_by. rewrite Hb, bytes_of_drop by lia. unfold io_ends in Hends. rewrite Hb in Hends.
  assert (0 ≤ count_at io m) as Hn by (unfold count_at; destruct (tio_result io m); lia).
  destruct buf as [a l]; simpl in *.
  rewrite Z2Nat.inj_add by lia. by rewrite take_take_drop.
Qed.

(** C27: [async_write] writes the bytes of the buffer in order, however the
    system splits them up, and whichever of the partial writes complete at once
    and whichever later. When every partial write succeeds with at most what it
    was asked to write, something unless the buffer is empty, and stop is not
    requested ([io_counts]), all the bytes are sent and the receiver is completed
    once, with a value, after at most one write per byte - and one for the empty
    buffer. When this holds of the writes before the [m]-th only, which did not
    send everything, and the [m]-th one fails or is stopped, or stop is requested
    after it, then no further write is started, the receiver is completed once,
    with that error or as stopped, and what was sent is the beginning of the
    buffer. *)
Theorem async_write_sends_buffer mem io buf rounds fuel :
  iovec_wf buf →
  let n := (Z.to_nat (iov_len buf) `max` 1)%nat in
  (n < rounds)%nat → (n + 5 ≤ fuel)%nat →
  (io_counts const_buffer_plus io buf →
   ∃ s, async_write io buf rounds fuel = Ret s ∧ re_done s = [RSetValue] ∧
     (re_count s ≤ n)%nat ∧ sent mem io buf (re_count s) = bytes_of mem buf) ∧
  (∀ m sig, io_counts_to m const_buffer_plus io buf → m = O ∨ total io m < iov_len buf →
   io_ends const_buffer_plus io buf m sig →
   ∃ s, async_write io buf rounds fuel = Ret s ∧ re_done s = [sig] ∧
     re_count s = S m ∧ (S m ≤ n)%nat ∧ sent mem io buf (S m) `prefix_of` bytes_of mem buf).
Proof.
  intros Hwf n Hro Hf. split.
  - intros Hc. destruct (transfer_run_spec const_buffer_plus io buf rounds fuel (λ _ _, eq_refl) Hwf Hc Hro Hf)
      as (s & Hs & Hd & Hn & Ht).
    exists s. split_and!; [done..|]. rewrite (sent_prefix mem io buf (re_count s)) by (done || by apply io_counts_all).
    rewrite Ht, take_ge; [done|]. by rewrite length_bytes_of.
  - intros m sig Hc Ht Hends.
    destruct (transfer_run_ends const_buffer_plus io buf m (λ _ _, eq_refl) Hwf Hc sig rounds fuel Hro Hf Ht Hends)
      as (s & Hs & Hd & Hcnt & Hle).
    exists s. split_and!; [done..|]. rewrite (sent_ends mem io buf m sig) by done.
    eexists. symmetry. apply take_drop.
Qed.

Lemma lookup_store_bytes mem a bs x :
  a ≤ x → store_bytes mem a bs x = default (mem x) (bs !! Z.to_nat (x - a)).
Proof. intros. unfold store_bytes. by rewrite decide_True. Qed.

Lemma received_prefix mem chunks io buf k :
  iovec_wf buf → io_counts mutable_buffer_plus io buf →
  (∀ i, tio_result io i = TrCount (Z.of_nat (length (chunks i)))) →
  bytes_of (received mem chunks io buf k) (IOVec (iov_base buf) (total io k)) = seq 0 k ≫= chunks.
Proof.
  intros Hwf Hc Hch. pose proof (λ k, transfer_buffer_at mutable_buffer_plus io buf k (λ _ _, eq_refl) Hwf (io_counts_all _ _ _ k Hc) k (le_n k)) as Hb.
  induction k as [|k IH]; [done|]. rewrite seq_S, bind_app, <-IH. cbn. rewrite app_nil_r.
  destruct (Hb k) as [Hbk Hk]. rewrite Hbk. unfold count_at. rewrite Hch. cbn [iov_base].
  set (m := received mem chunks io buf k). set (t := total io k) in *.
  apply list_eq. intros i. rewrite lookup_bytes_of. cbn [iov_base iov_len].
  destruct (decide (Z.of_nat i < t)) as [Hlt|Hge].
  - rewrite decide_True by lia. rewrite lookup_app_l by (rewrite length_bytes_of; simpl; lia).
    rewrite lookup_bytes_of, decide_True by (simpl; lia). f_equal.
    unfold store_bytes. by rewrite decide_False by lia.
  - rewrite lookup_app_r by (rewrite length_bytes_of; simpl; lia).
    rewrite length_bytes_of. cbn [iov_len]. case_decide.
    + rewrite lookup_store_bytes by lia. 
      replace (Z.to_nat (iov_base buf + Z.of_nat i - (iov_base buf + t))) with (i - Z.to_nat t)%nat by lia.
      destruct (lookup_lt_is_Some_2 (chunks k) (i - Z.to_nat t)%nat) as [b Hbb]; [lia|].
      by rewrite Hbb.
    + symmetry. apply lookup_ge_None_2. lia.
Qed.

(** C30: [async_read] fills the buffer: when it completes, with a value and
    exactly once, the buffer holds the chunks the system delivered, one after
    the other, and nothing is missing. *)
Theorem async_read_fills_buffer mem chunks io buf rounds fuel :
  iovec_wf buf → io_counts mutable_buffer_plus io buf →
  (∀ i, tio_result io i = TrCount (Z.of_nat (length (chunks i)))) →
  let n := (Z.to_nat (iov_len buf) `max` 1)%nat in
  (n < rounds)%nat → (n + 5 ≤ fuel)%nat →
  ∃ s, async_read io buf rounds fuel = Ret s ∧ re_done s = [RSetValue] ∧ (re_count s ≤ n)%nat ∧
    bytes_of (received mem chunks io buf (re_count s)) buf = seq 0 (re_count s) ≫= chunks ∧
    Z.of_nat (length (seq 0 (re_count s) ≫= chunks)) = iov_len buf.
Proof.
  intros Hwf Hc Hch n Hro Hf.
  destruct (transfer_run_spec mutable_buffer_plus io buf rounds fuel (λ _ _, eq_refl) Hwf Hc Hro Hf)
    as (s & Hs & Hd & Hn & Ht).
  pose proof (received_prefix mem chunks io buf (re_count s) Hwf Hc Hch) as Hp. rewrite Ht in Hp.
  exists s. split_and!; [done..| |].
  - rewrite <-Hp. by destruct buf.
  - rewrite <-Hp, length_bytes_of. destruct Hwf as (?&?&?). simpl. lia.
Qed.

(** ** The end of the stream *)
Section eof.
Context (w : re_world Z).

(** An inner operation completes later with a value, and the predicate does not
    hold: the next one is started. *)
Lemma re_receive_again i s fuel :
  re_at i s → re_running s = false → inner_signal w i = RSetValue →
  re_stop_requested w i = false → re_predicate w i = inr false → connect_throws w (S i) = None →
  inner_async w (S i) = true → (4 ≤ fuel)%nat →
  ∃ s', re_receive w fuel (inner_signal w i) s = Ret s' ∧ re_at (S i) s' ∧ re_running s' = false.
Proof.
  intros Hat Hr Hsig Hst Hp Hct Ha Hf. destruct fuel as [|[|[|[|fuel]]]]; [lia..|].
  assert (Hat1 : re_at (S i) (re_connect (re_destroy (re_set_ready false (re_set_ready true (re_set_running true s)))))).
  { by apply re_at_connect, re_at_ready, re_at_ready, re_at_running. }
  pose proof Hat as (Hi & Hc & _).
  rewrite Hsig. cbn [re_receive re_next]. rewrite Hr. cbn [re_loop].
  cbn [re_ready re_set_ready re_set_running negb re_inner]. rewrite Hi, Hst, Hp. cbn.
  rewrite Hc, Hct. cbn. rewrite Ha. cbn. eexists. split; [done|]. split; [|done].
  apply re_at_running. revert Hat1. unfold re_connect, re_destroy; cbn. by rewrite Hc.
Qed.

Lemma re_drive_forever rounds fuel i s :
  (∀ j, (i ≤ j)%nat → inner_signal w j = RSetValue ∧ re_stop_requested w j = false ∧
     re_predicate w j = inr false ∧ connect_throws w (S j) = None ∧ inner_async w (S j) = true) →
  re_at i s → re_running s = false → (4 ≤ fuel)%nat → re_drive w rounds fuel s = NoFuel.
Proof.
  revert i s. induction rounds as [|rounds IH]; intros i s Hall Hat Hr Hf; [done|]. cbn [re_drive].
  pose proof Hat as (Hi & _ & Hd & _). rewrite Hd, Hi.
  destruct (Hall i (le_n i)) as (?&?&?&?&?).
  destruct (re_receive_again i s fuel) as (s' & Hrec & ? & ?); [done..|]. rewrite Hrec. cbn.
  apply (IH (S i)); [|done..]. intros j Hj. apply Hall. lia.
Qed.
End eof.

(** [async_read] does not notice the end of the stream: once the peer is
    gone each partial read completes with zero bytes, and the operation reads
    again, without end - its receiver is never completed. *)
Theorem async_read_eof_never_completes io buf rounds fuel :
  iovec_wf buf → 0 < iov_len buf →
  (∀ i, tio_result io i = TrCount 0 ∧ tio_async io i = true ∧ tio_stop io i = false) →
  (5 ≤ fuel)%nat → async_read io buf rounds fuel = NoFuel.
Proof.
  intros Hwf Hlen Hio Hf. unfold async_read, transfer_run.
  set (w := transfer_world mutable_buffer_plus io buf).
  assert (Hb : ∀ i, transfer_buffer mutable_buffer_plus io buf i = buf).
  { induction i as [|i IH]; [done|]. cbn. destruct (Hio i) as (-> & _). rewrite IH.
    unfold mutable_buffer_plus. change (mutable_buffer_advance buf 0) with (const_buffer_advance buf 0).
    rewrite advance_eq by done. destruct buf as [a l]; simpl in *. f_equal; lia. }
  assert (Hstart : re_start w fuel re_ctor = Ret (re_engage (re_connect re_ctor))).
  { destruct fuel as [|fuel]; [lia|]. unfold re_start. cbn. by destruct (Hio 0%nat) as (_ & -> & _). }
  rewrite Hstart. cbn [mbind outcome_bind]. apply (re_drive_forever w rounds fuel 0); [|done|done|lia].
  intros j _. cbn. destruct (Hio j) as (Hr & _ & ->). destruct (Hio (S j)) as (_ & -> & _).
  unfold transfer_signal, transfer_done. rewrite Hr, Hb, bool_decide_false by lia. done.
Qed.

(** ** Witnesses: eight bytes in pieces of three and five *)
Definition demo_io : transfer_io :=
  TransferIo (λ i, TrCount (match i with O => 3 | S O => 5 | _ => 0 end)) (λ i, bool_decide (i = 1%nat))
    (λ _, false).

Lemma demo_buffer_at plus i :
  (∀ b n, plus b n = const_buffer_advance b n) →
  transfer_buffer plus demo_io (IOVec 100 8) (S (S i)) = IOVec 108 0.
Proof.
  intros Hp. induction i as [|i IH].
  - cbn. by rewrite !Hp.
  - change (plus (transfer_buffer plus demo_io (IOVec 100 8) (S (S i))) 0 = IOVec 108 0).
    rewrite IH, Hp. by vm_compute.
Qed.

Lemma demo_counts plus :
  (∀ b n, plus b n = const_buffer_advance b n) → io_counts plus demo_io (IOVec 100 8).
Proof.
  intros Hp i. split; [done|]. eexists; split; [done|].
  destruct i as [|[|i]]; [cbn; lia|cbn; rewrite Hp; replace (const_buffer_advance (IOVec 100 8) 3) with (IOVec 103 5)
    by (by vm_compute); cbn; lia|].
  rewrite demo_buffer_at by done. cbn. lia.
Qed.

(** Three bytes are written, then the connection is reset. *)
Definition broken_io : transfer_io :=
  TransferIo (λ i, match i with O => TrCount 3 | _ => TrError (-104) end) (λ _, true) (λ _, false).

Lemma async_write_sends_buffer_witness :
  (∃ s, async_write demo_io (IOVec 100 8) 9 13 = Ret s ∧ re_done s = [RSetValue] ∧
    (re_count s ≤ 8)%nat ∧ sent Z.succ demo_io (IOVec 100 8) (re_count s) = bytes_of Z.succ (IOVec 100 8)) ∧
  (∃ s, async_write broken_io (IOVec 100 8) 9 13 = Ret s ∧ re_done s = [RSetError (-104)] ∧
    re_count s = 2%nat ∧ (2 ≤ 8)%nat ∧
    sent Z.succ broken_io (IOVec 100 8) 2 `prefix_of` bytes_of Z.succ (IOVec 100 8)).
Proof.
  split.
  - apply (async_write_sends_buffer Z.succ demo_io (IOVec 100 8) 9 13);
      [by vm_compute|by vm_compute; lia|by vm_compute; lia|by apply demo_counts].
  - apply (async_write_sends_buffer Z.succ broken_io (IOVec 100 8) 9 13);
      [by vm_compute|by vm_compute; lia|by vm_compute; lia| |right; by vm_compute|done].
    intros [|i] Hi; [|lia]. split; [done|]. exists 3. split; [done|]. cbn. lia.
Defined.

Definition demo_chunks (i : nat) : list Z :=
  match i with O => [1; 2; 3] | S O => [4; 5; 6; 7; 8] | _ => [] end.

Lemma async_read_fills_buffer_witness :
  ∃ s, async_read demo_io (IOVec 100 8) 9 13 = Ret s ∧ re_done s = [RSetValue] ∧ (re_count s ≤ 8)%nat ∧
    bytes_of (received (λ _, 0) demo_chunks demo_io (IOVec 100 8) (re_count s)) (IOVec 100 8) =
      seq 0 (re_count s) ≫= demo_chunks ∧
    Z.of_nat (length (seq 0 (re_count s) ≫= demo_chunks)) = 8.
Proof.
  apply (async_read_fills_buffer (λ _, 0) demo_chunks demo_io (IOVec 100 8) 9 13);
    [by vm_compute|by apply demo_counts|by intros [|[|i]]|by vm_compute; lia|by vm_compute; lia].
Defined.

Lemma async_read_eof_never_completes_witness :
  async_read (TransferIo (λ _, TrCount 0) (λ _, true) (λ _, false)) (IOVec 100 8) 50 9 = NoFuel.
Proof.
  apply async_read_eof_never_completes; [by vm_compute|by vm_compute|done|lia].
Defined.
