(* ===== verification/Timeout.v ===== *)
(** * nstd::execution::timeout

    The operation state of timeout (src/src/nstd/execution/timeout.hpp): an inner
    sender and a timer run together and count their completions. Both may
    complete on different threads; every access to the shared members is a
    transition. *)
From S2P Require Import Prelude.
Local Open Scope Z_scope.

Section timeout.
Context {V E : Type}.

(** ** Data *)
Inductive to_signal := ToSetValue (v : V) | ToSetError (e : E) | ToSetStopped.

(** [state_base]; [to_stopped] tells whether [d_source] was stopped, [to_done]
    records the completions of [d_receiver]. *)
Record to_state := ToState {
  to_stopped : bool;
  to_values : option V;
  to_errors : option E;
  to_count : Z;
  to_done : list to_signal;
}.

Definition to_ctor : to_state := ToState false None None 0 [].

Definition to_stop (s : to_state) : to_state :=
  ToState true (to_values s) (to_errors s) (to_count s) (to_done s).
Definition to_increment (s : to_state) : to_state :=
  ToState (to_stopped s) (to_values s) (to_errors s) (wrapu 32 (to_count s + 1)) (to_done s).
Definition to_complete (sig : to_signal) (s : to_state) : to_state :=
  ToState (to_stopped s) (to_values s) (to_errors s) (to_count s) (to_done s ++ [sig]).

(** ** Operations *)

(** [timer_done] counts and then stops the source or completes. *)
Inductive timer_pc := TmRunning | TmDone | TmStop | TmComplete | TmEnd.

Definition timer_done_step (s : to_state) (tp : timer_pc) : option (to_state * timer_pc) :=
  match tp with
  | TmRunning => Some (s, TmDone)
  | TmDone =>
      let s := to_increment s in
      Some (s, if decide (to_count s = 1) then TmStop else TmComplete)
  | TmStop => Some (to_stop s, TmEnd)
  | TmComplete =>
      Some (to_complete
              match to_errors s, to_values s with
              | Some e, _ => ToSetError e
              | None, Some v => ToSetValue v
              | None, None => ToSetStopped
              end s, TmEnd)
  | TmEnd => None
  end.

(** [sender_receiver]: a value or an error is dropped; [set_stopped] stops the
    source, counts, and completes when it is second. *)
Inductive sender_pc :=
  | SnRunning
  | SnSignal (sig : to_signal)
  | SnCount
  | SnComplete
  | SnEnd (sig : to_signal).

Definition sender_step (s : to_state) (sp : sender_pc) : option (to_state * sender_pc) :=
  match sp with
  | SnRunning => None
  | SnSignal ToSetStopped => Some (to_stop s, SnCount)
  | SnSignal sig => Some (s, SnEnd sig)
  | SnCount =>
      let s := to_increment s in
      Some (s, if decide (to_count s = 2) then SnComplete else SnEnd ToSetStopped)
  | SnComplete => Some (to_complete ToSetStopped s, SnEnd ToSetStopped)
  | SnEnd _ => None
  end.

Definition to_world : Type := to_state * sender_pc * timer_pc.

(** The timer completes in one of its three ways at any time after it was
    started, and so does the inner sender. *)
Inductive to_step : relation to_world :=
  | to_step_signal s tp sig : to_step (s, SnRunning, tp) (s, SnSignal sig, tp)
  | to_step_sender s sp tp s' sp' :
      sender_step s sp = Some (s', sp') → to_step (s, sp, tp) (s', sp', tp)
  | to_step_timer s sp tp s' tp' :
      timer_done_step s tp = Some (s', tp') → to_step (s, sp, tp) (s', sp, tp').

Definition to_reachable : to_world → Prop := rtc to_step (to_ctor, SnRunning, TmRunning).

(** ** The invariant *)
Definition sender_counted (sp : sender_pc) : Z :=
  match sp with SnComplete | SnEnd ToSetStopped => 1 | _ => 0 end.
Definition timer_counted (tp : timer_pc) : Z :=
  match tp with TmRunning | TmDone => 0 | _ => 1 end.

(** Only the second of the two completes. *)
Definition to_compatible (sp : sender_pc) (tp : timer_pc) : bool :=
  match sp, tp with
  | SnComplete, (TmStop | TmEnd) => true
  | SnComplete, _ => false
  | SnEnd ToSetStopped, TmComplete => true
  | _, TmComplete => false
  | _, _ => true
  end.

(** Both counted, and the second completed. *)
Definition to_finished (sp : sender_pc) (tp : timer_pc) : bool :=
  match sp, tp with
  | SnEnd ToSetStopped, (TmStop | TmEnd) => true
  | _, _ => false
  end.

(** The source was stopped. *)
Definition to_asked (sp : sender_pc) (tp : timer_pc) : bool :=
  match sp, tp with
  | (SnCount | SnComplete | SnEnd ToSetStopped), _ | _, TmEnd => true
  | _, _ => false
  end.

Definition to_inv (w : to_world) : Prop :=
  let '(s, sp, tp) := w in
  to_count s = sender_counted sp + timer_counted tp ∧
  to_values s = None ∧ to_errors s = None ∧ to_compatible sp tp = true ∧
  to_done s = (if to_finished sp tp then [ToSetStopped] else []) ∧
  to_stopped s = to_asked sp tp || to_stopped s.

Lemma to_inv_step w w' : to_inv w → to_step w w' → to_inv w'.
Proof.
  intros Hinv Hstep.
  destruct Hstep as [s tp sig|s sp tp s' sp' H|s sp tp s' tp' H];
    destruct Hinv as (Hc & Hv & He & Hd & Hp & Hs); destruct s as [st v e c dn]; simpl in *;
    subst c v e dn.
  - destruct tp; by repeat split.
  - destruct sp as [|[]| | |]; simplify_eq/=; destruct tp; simplify_eq/=; try done; by repeat split.
  - destruct tp; simplify_eq/=; destruct sp as [|[]| | |[]]; simplify_eq/=; try done; by repeat split.
Qed.

Lemma to_inv_reachable w : to_reachable w → to_inv w.
Proof. apply rtc_invariant; [apply to_inv_step|done]. Qed.

(** ** Properties *)

(** What timeout completes with: at most once, and only with the stopped
    signal, after both the inner sender was stopped and the timer is done; the
    inner sender is asked to stop once the timer is done, and the timer once
    the sender was stopped. *)
Theorem timeout_completes_stopped (s : to_state) (sp : sender_pc) (tp : timer_pc) :
  to_reachable (s, sp, tp) →
  to_done s = (if to_finished sp tp then [ToSetStopped] else []) ∧
  (tp = TmEnd → to_stopped s = true) ∧
  (sp = SnEnd ToSetStopped → to_stopped s = true) ∧
  (sp = SnEnd ToSetStopped → tp = TmEnd → to_done s = [ToSetStopped]).
Proof.
  intros (Hc & Hv & He & Hd & Hp & Hs)%to_inv_reachable. split_and!; [done|..].
  - intros ->. rewrite Hs. by destruct sp as [|[]| | |[]].
  - intros ->. by rewrite Hs.
  - intros -> ->. by rewrite Hp.
Qed.

(** Timeout loses the result of its sender: once the inner sender completed
    with a value or an error, the receiver is never completed, whatever the
    timer does - although the state has members to keep the result in. *)
Theorem timeout_loses_result (s : to_state) (sig : to_signal) (tp : timer_pc) (w : to_world) :
  to_reachable (s, SnEnd sig, tp) → sig ≠ ToSetStopped → rtc to_step (s, SnEnd sig, tp) w →
  to_done w.1.1 = [] ∧ ∃ s' tp', w = (s', SnEnd sig, tp').
Proof.
  intros Hr Hsig Hsteps.
  assert (Hsp : ∃ s' tp', w = (s', SnEnd sig, tp')).
  { refine (rtc_invariant to_step (λ w, ∃ s' tp', w = (s', SnEnd sig, tp')) _ _ _ _ Hsteps); [|eauto].
    intros a b (s1 & tp1 & ->) Hst. inversion Hst; simplify_eq/=; eauto. }
  destruct Hsp as (s' & tp' & ->). split; [|eauto].
  assert (Hr' : to_reachable (s', SnEnd sig, tp')) by (eapply rtc_trans; [exact Hr|exact Hsteps]).
  apply to_inv_reachable in Hr' as (_ & _ & _ & _ & Hd & _). simpl. rewrite Hd. by destruct sig.
Qed.
End timeout.
Arguments to_signal : clear implicits.
Arguments to_state : clear implicits.
Arguments sender_pc : clear implicits.
Arguments to_world : clear implicits.

(** *** Witnesses *)
Lemma to_example_reachable :
  to_reachable (V := nat) (E := nat)
    (ToState true None None 2 [ToSetStopped], SnEnd ToSetStopped, TmEnd).
Proof.
  unfold to_reachable.
  eapply rtc_l; [by apply to_step_timer|].
  eapply rtc_l; [by apply to_step_timer|].
  eapply rtc_l; [apply (to_step_signal _ _ ToSetStopped)|].
  eapply rtc_l; [by apply to_step_timer|].
  eapply rtc_l; [by apply to_step_sender|].
  eapply rtc_l; [by apply to_step_sender|].
  eapply rtc_l; [by apply to_step_sender|].
  apply rtc_refl.
Qed.

Lemma timeout_completes_stopped_witness :
  to_done (ToState (V := nat) (E := nat) true None None 2 [ToSetStopped]) = [ToSetStopped].
Proof.
  apply (timeout_completes_stopped (V := nat) (E := nat) _ (SnEnd ToSetStopped) TmEnd).
  - exact to_example_reachable.
  - reflexivity.
  - reflexivity.
Defined.

Lemma timeout_loses_result_witness :
  to_done (ToState (V := nat) (E := nat) true None None 1 []) = [] ∧
    ∃ s' tp', (ToState (V := nat) (E := nat) true None None 1 [], SnEnd (V := nat) (E := nat) (ToSetValue 7%nat), TmEnd) =
      (s', SnEnd (V := nat) (E := nat) (ToSetValue 7%nat), tp').
Proof.
  apply (timeout_loses_result (V := nat) (E := nat) to_ctor (ToSetValue 7%nat) TmRunning
    (ToState true None None 1 [], SnEnd (V := nat) (E := nat) (ToSetValue 7%nat), TmEnd)).
  - eapply rtc_l; [apply (to_step_signal (E := nat) _ _ (ToSetValue 7%nat))|].
    eapply rtc_l; [by apply to_step_sender|apply rtc_refl].
  - discriminate.
  - eapply rtc_l; [by apply to_step_timer|].
    eapply rtc_l; [by apply to_step_timer|].
    eapply rtc_l; [by apply to_step_timer|apply rtc_refl].
Defined.
