(* ===== verification/Senders.v ===== *)
(** * nstd::execution: just, then, let and sync_wait

    The elementary senders (src/src/nstd/execution/just.hpp, then.hpp, let.hpp)
    and the consumer sync_wait (src/src/nstd/thread/sync_wait.hpp). A receiver
    is what its completion functions do to the state of the program, a sender
    is what connecting it to a receiver and starting the operation does. The
    completion functions and [start] are noexcept: an exception that leaves
    them calls std::terminate, which is [None]. *)
From S2P Require Import Prelude.

Section senders.
Context {V E W : Type}.

(** ** Receivers and senders *)
Inductive signal := SigValue (args : list V) | SigError (e : E) | SigStopped.
Inductive signal_tag := TagValue | TagError | TagStopped.

#[export] Instance signal_tag_eq_dec : EqDecision signal_tag.
Proof. solve_decision. Defined.

Definition tag_of (sig : signal) : signal_tag :=
  match sig with SigValue _ => TagValue | SigError _ => TagError | SigStopped => TagStopped end.

Definition receiver : Type := signal → W → option W.
Definition sender : Type := receiver → W → option W.

(** Functions called with the arguments of a completion: they throw an
    exception or yield a result. *)
Definition callable (R : Type) : Type := signal → W → (E + R) * W.

(** just, just_error and just_stopped: [start] completes. *)
Definition just_signal (sig : signal) : sender := λ r w, r sig w.
Definition just (args : list V) : sender := just_signal (SigValue args).
Definition just_error (e : E) : sender := just_signal (SigError e).
Definition just_stopped : sender := just_signal SigStopped.

(** The receiver of then, upon_error and upon_stopped: the completion of its
    tag calls the function, whose result (nothing for [void]) becomes the
    value and whose exception becomes the error; others are passed on. *)
Definition then_receiver (tag : signal_tag) (f : callable (option V)) (r : receiver) : receiver :=
  λ sig w,
    if decide (tag_of sig = tag) then
      match f sig w with
      | (inr None, w) => r (SigValue []) w
      | (inr (Some v), w) => r (SigValue [v]) w
      | (inl e, w) => r (SigError e) w
      end
    else r sig w.

Definition then_sender (tag : signal_tag) (s : sender) (f : callable (option V)) : sender :=
  λ r, s (then_receiver tag f r).

(** let_value, let_error and let_stopped: the completion of the tag calls the
    function, which yields a sender; its operation is connected to the final
    receiver and started. This happens in a noexcept function. *)
Definition inner_state_start (f : callable sender) (sig : signal) (r : receiver) (w : W) : option W :=
  match f sig w with
  | (inr s, w) => s r w
  | (inl _, _) => None
  end.

Definition let_receiver (tag : signal_tag) (f : callable sender) (r : receiver) : receiver :=
  λ sig w, if decide (tag_of sig = tag) then inner_state_start f sig r w else r sig w.

Definition let_sender (tag : signal_tag) (s : sender) (f : callable sender) : sender :=
  λ r, s (let_receiver tag f r).

(** ** Equality of receivers and senders *)
Definition receiver_equiv : relation receiver := λ r1 r2, ∀ sig w, r1 sig w = r2 sig w.
Definition sender_equiv : relation sender := λ s1 s2, ∀ r w, s1 r w = s2 r w.

#[export] Instance receiver_equiv_equivalence : Equivalence receiver_equiv.
Proof.
  split; [by intros r sig w|by intros r1 r2 H sig w|].
  intros r1 r2 r3 H1 H2 sig w. by rewrite H1, H2.
Qed.

#[export] Instance sender_equiv_equivalence : Equivalence sender_equiv.
Proof.
  split; [by intros s r w|by intros s1 s2 H r w|].
  intros s1 s2 s3 H1 H2 r w. by rewrite H1, H2.
Qed.

(** A sender knows its receiver only by what its completions do. *)
Class SenderProper (s : sender) : Prop :=
  sender_proper r1 r2 w : receiver_equiv r1 r2 → s r1 w = s r2 w.

#[export] Instance just_signal_proper sig : SenderProper (just_signal sig).
Proof. intros r1 r2 w H. apply H. Qed.

#[export] Instance then_receiver_proper tag f : Proper (receiver_equiv ==> receiver_equiv) (then_receiver tag f).
Proof.
  intros r1 r2 H sig w. unfold then_receiver. case_decide; [|apply H].
  destruct (f sig w) as [[e|[v|]] w']; apply H.
Qed.

#[export] Instance then_sender_proper tag s f `{!SenderProper s} : SenderProper (then_sender tag s f).
Proof. intros r1 r2 w H. unfold then_sender. apply sender_proper. by rewrite H. Qed.

(** The senders a function yields. *)
Definition callable_proper (f : callable sender) : Prop :=
  ∀ sig w s w', f sig w = (inr s, w') → SenderProper s.

Lemma inner_state_start_proper f sig r1 r2 w :
  callable_proper f → receiver_equiv r1 r2 →
  inner_state_start f sig r1 w = inner_state_start f sig r2 w.
Proof.
  intros Hf Hr. unfold inner_state_start. destruct (f sig w) as [[e|s] w'] eqn:Hs; [done|].
  by apply (Hf _ _ _ _ Hs).
Qed.

Lemma let_receiver_proper tag f r1 r2 :
  callable_proper f → receiver_equiv r1 r2 →
  receiver_equiv (let_receiver tag f r1) (let_receiver tag f r2).
Proof.
  intros Hf H sig w. unfold let_receiver. case_decide; [|apply H].
  by apply inner_state_start_proper.
Qed.

Lemma let_sender_proper tag s f :
  SenderProper s → callable_proper f → SenderProper (let_sender tag s f).
Proof. intros Hs Hf r1 r2 w H. unfold let_sender. apply Hs. by apply let_receiver_proper. Qed.

(** ** Functions *)

(** The arguments of a result: none for [void]. *)
Definition result_args (o : option V) : signal := SigValue (match o with Some v => [v] | None => [] end).

(** Calling [g] on the result of [f]. *)
Definition callable_compose (f g : callable (option V)) : callable (option V) :=
  λ sig w, match f sig w with
           | (inr o, w) => g (result_args o) w
           | (inl e, w) => (inl e, w)
           end.

(** A function that yields a sender instead of a result: the exceptions are
    turned into [just_error]. *)
Definition callable_sender (f : callable (option V)) : callable sender :=
  λ sig w, match f sig w with
           | (inr o, w) => (inr (just_signal (result_args o)), w)
           | (inl e, w) => (inr (just_error e), w)
           end.

Lemma then_receiver_compose f g r :
  receiver_equiv (then_receiver TagValue f (then_receiver TagValue g r))
    (then_receiver TagValue (callable_compose f g) r).
Proof.
  intros sig w. unfold then_receiver, callable_compose. case_decide; [|done].
  destruct (f sig w) as [[e|[v|]] w']; simpl; done.
Qed.

(** ** Properties *)

(** Then, upon_error and upon_stopped: applying two functions one after the
    other is applying their composition - an exception of the first skips the
    second -, completions of another tag are passed on, and each of the three
    is let_value, let_error or let_stopped of the function that yields the
    result as a sender. *)
Theorem then_laws (s : sender) (tag : signal_tag) (f g : callable (option V)) (sig : signal) :
  SenderProper s →
  sender_equiv (then_sender TagValue (then_sender TagValue s f) g)
    (then_sender TagValue s (callable_compose f g)) ∧
  (tag_of sig ≠ tag → sender_equiv (then_sender tag (just_signal sig) f) (just_signal sig)) ∧
  sender_equiv (then_sender tag s f) (let_sender tag s (callable_sender f)).
Proof.
  intros Hs. split_and!.
  - intros r w. apply Hs, then_receiver_compose.
  - intros Htag r w. unfold then_sender, just_signal, then_receiver. by rewrite decide_False.
  - intros r w. apply Hs. intros sig' w'. unfold then_receiver, let_receiver, inner_state_start.
    case_decide; [|done]. unfold callable_sender.
    by destruct (f sig' w') as [[e|[v|]] w''].
Qed.

(** C36: senders with let_value form a monad, up to what a receiver can observe:
    let_value of [just] calls the function, [just] is its neutral function,
    and nesting is associative; let_value of an error or a stopped sender is
    that sender. *)
Theorem let_value_monad (s : sender) (f g : callable sender) (args : list V) :
  SenderProper s → callable_proper f → callable_proper g →
  (∀ w r, let_sender TagValue (just args) f r w = inner_state_start f (SigValue args) r w) ∧
  sender_equiv (let_sender TagValue s (λ sig w, (inr (just_signal sig), w))) s ∧
  sender_equiv (let_sender TagValue (let_sender TagValue s f) g)
    (let_sender TagValue s (λ sig w,
       match f sig w with
       | (inr s, w) => (inr (let_sender TagValue s g), w)
       | (inl e, w) => (inl e, w)
       end)) ∧
  (∀ e, sender_equiv (let_sender TagValue (just_error e) f) (just_error e)) ∧
  sender_equiv (let_sender TagValue just_stopped f) just_stopped.
Proof.
  intros Hs Hf Hg. split_and!; try done.
  - intros r w. apply Hs. intros sig w'. unfold let_receiver. by case_decide.
  - intros r w. apply Hs. intros sig w'. unfold let_receiver, inner_state_start.
    case_decide as Htag; [|done].
    by destruct (f sig w') as [[e|s'] w''].
Qed.

(** The two treat exceptions differently. Whatever completes with the
    adaptor's tag, when the function throws then completes its receiver with
    the exception as the error, while let calls std::terminate: the exception
    leaves a noexcept completion function. *)
Theorem then_let_exceptions (tag : signal_tag) (sig : signal)
    (f : callable (option V)) (h : callable sender) (e : E) (r : receiver) (w w' : W) :
  tag_of sig = tag → f sig w = (inl e, w') → h sig w = (inl e, w') →
  then_sender tag (just_signal sig) f r w = r (SigError e) w' ∧
  let_sender tag (just_signal sig) h r w = None.
Proof.
  intros Htag Hf Hh.
  unfold then_sender, let_sender, just_signal, then_receiver, let_receiver, inner_state_start.
  by rewrite !decide_True, Hf, Hh.
Qed.
End senders.
Arguments signal : clear implicits.
Arguments receiver : clear implicits.
Arguments sender : clear implicits.
Arguments callable : clear implicits.

(** ** sync_wait

    Two threads meet in the local variables of the call: the caller, which
    starts the operation, locks the mutex and waits on the condition variable,
    and the thread which completes the receiver. One step is one access to what
    they share, so the lock, the store to [done], the release of the lock and
    the notification of [complete] can be separated by steps of the caller. *)
Section sync_wait.
Context {V E X : Type}.

(** The local variables [done], [res] and [ex] of the call. *)
Record sw_cells := SwCells { sw_done : bool; sw_res : option (list V); sw_ex : option E }.

Inductive sw_outcome := SwReturn (res : option (list V)) | SwThrow (e : E).

(** Who holds [bottleneck]. *)
Inductive sw_owner := OwnCaller | OwnCompleter.

(** What the completing thread does next: call a completion function, and
    then the steps of [complete]. *)
Inductive sw_completer := PIdle | PLock | PSet | PUnlock | PNotify | PEnd.

(** What the caller does next after [start] returned: lock the mutex, test
    [done], wait for a notification, lock again when woken, release the lock,
    destroy the variables; or it is gone. *)
Inductive sw_caller :=
  CLock | CTest | CWait | CWoken | CUnlock (o : sw_outcome) | CDestroy (o : sw_outcome) | CGone (o : sw_outcome).

(** [sw_ub]: a thread used the variables after they were destroyed. *)
Record sw_state := SwState {
  sw_vars : sw_cells; sw_mutex : option sw_owner;
  sw_caller_at : sw_caller; sw_completer_at : sw_completer; sw_ub : bool }.

Definition sw_init : sw_state := SwState (SwCells false None None) None CLock PIdle false.

(** The state of the program has the variables as a part. *)
Definition sw_world : Type := X * sw_state.

(** The completion functions. A value without arguments assigns [{}] to the
    optional result, which empties it; with arguments the result is emplaced. *)
Definition sw_store (sig : signal V E) (c : sw_cells) : sw_cells :=
  match sig with
  | SigValue [] => SwCells (sw_done c) None (sw_ex c)
  | SigValue args => SwCells (sw_done c) (Some args) (sw_ex c)
  | SigError e => SwCells (sw_done c) (sw_res c) (Some e)
  | SigStopped => c
  end.

Definition sw_call (sig : signal V E) (st : sw_state) : option sw_state :=
  match sw_completer_at st, sw_caller_at st with
  | PIdle, CGone _ => Some (SwState (sw_vars st) (sw_mutex st) (sw_caller_at st) PEnd true)
  | PIdle, caller => Some (SwState (sw_store sig (sw_vars st)) (sw_mutex st) caller PLock (sw_ub st))
  | _, _ => None
  end.

(** The next step of [complete]: the lock guard waits for a free mutex, [done]
    is set, the guard releases the mutex and the condition is notified, which
    wakes a caller that waits. *)
Definition sw_complete (st : sw_state) : option sw_state :=
  let 'SwState c m caller pc ub := st in
  match pc, caller with
  | (PIdle | PEnd), _ => None
  | _, CGone _ => Some (SwState c m caller PEnd true)
  | PLock, _ => match m with None => Some (SwState c (Some OwnCompleter) caller PSet ub) | Some _ => None end
  | PSet, _ => Some (SwState (SwCells true (sw_res c) (sw_ex c)) m caller PUnlock ub)
  | PUnlock, _ => Some (SwState c None caller PNotify ub)
  | PNotify, _ => Some (SwState c m (match caller with CWait => CWoken | _ => caller end) PEnd ub)
  end.

(** A completion in the thread of the caller, from within [start]. *)
Definition sw_receiver : receiver V E sw_world :=
  λ sig '(x, st),
    st ← sw_call sig st;
    st ← sw_complete st; st ← sw_complete st; st ← sw_complete st; st ← sw_complete st;
    Some (x, st).

(** The next step of the caller: [unique_lock], and the wait with its
    predicate, a loop which tests [done] with the mutex locked, and otherwise
    releases it and blocks. *)
Definition sw_wait (st : sw_state) : option sw_state :=
  let 'SwState c m caller pc ub := st in
  match caller with
  | CLock | CWoken =>
      match m with None => Some (SwState c (Some OwnCaller) CTest pc ub) | Some _ => None end
  | CTest =>
      if sw_done c then
        Some (SwState c m (CUnlock (match sw_ex c with Some e => SwThrow e | None => SwReturn (sw_res c) end)) pc ub)
      else Some (SwState c None CWait pc ub)
  | CUnlock o => Some (SwState c None (CDestroy o) pc ub)
  | CDestroy o => Some (SwState c m (CGone o) pc ub)
  | CWait | CGone _ => None
  end.

(** A wait may end without a notification. *)
Definition sw_spurious (st : sw_state) : option sw_state :=
  match sw_caller_at st with
  | CWait => Some (SwState (sw_vars st) (sw_mutex st) CWoken (sw_completer_at st) (sw_ub st))
  | _ => None
  end.

Variant sw_label := SwCall | SwComplete | SwCaller | SwSpurious.

#[export] Instance sw_label_eq_dec : EqDecision sw_label.
Proof. solve_decision. Defined.

Definition sw_step (sig : signal V E) (l : sw_label) (st : sw_state) : option sw_state :=
  match l with
  | SwCall => sw_call sig st
  | SwComplete => sw_complete st
  | SwCaller => sw_wait st
  | SwSpurious => sw_spurious st
  end.

Fixpoint sw_steps (sig : signal V E) (ls : list sw_label) (st : sw_state) : option sw_state :=
  match ls with
  | [] => Some st
  | l :: ls => st ← sw_step sig l st; sw_steps sig ls st
  end.

(** The call up to the return of [start], which cannot throw. *)
Definition sync_wait (s : sender V E sw_world) (x : X) : option sw_state :=
  snd <$> s sw_receiver (x, sw_init).

(** What a completion signal means for the caller. *)
Definition sw_result (sig : signal V E) : sw_outcome :=
  match sig with
  | SigValue args => SwReturn (match args with [] => None | _ => Some args end)
  | SigError e => SwThrow e
  | SigStopped => SwReturn None
  end.

(** *** The invariant of the two threads *)
Definition sw_cells_at (sig : signal V E) (pc : sw_completer) : sw_cells :=
  match pc with
  | PIdle => SwCells false None None
  | PLock | PSet => sw_store sig (SwCells false None None)
  | _ => let c := sw_store sig (SwCells false None None) in SwCells true (sw_res c) (sw_ex c)
  end.

Definition sw_owner_at (caller : sw_caller) (pc : sw_completer) : option sw_owner :=
  match pc, caller with
  | (PSet | PUnlock), _ => Some OwnCompleter
  | _, (CTest | CUnlock _) => Some OwnCaller
  | _, _ => None
  end.

Definition sw_compatible (sig : signal V E) (caller : sw_caller) (pc : sw_completer) : Prop :=
  match caller, pc with
  | CTest, (PSet | PUnlock) => False
  | CWait, PEnd => False
  | (CUnlock o | CDestroy o | CGone o), (PNotify | PEnd) => o = sw_result sig
  | (CUnlock _ | CDestroy _ | CGone _), _ => False
  | _, _ => True
  end.

Definition sw_inv (sig : signal V E) (st : sw_state) : Prop :=
  let 'SwState c m caller pc ub := st in
  c = sw_cells_at sig pc ∧ m = sw_owner_at caller pc ∧ sw_compatible sig caller pc ∧
  (ub = true → pc = PEnd ∧ ∃ o, caller = CGone o).

Definition sw_rank (st : sw_state) : nat :=
  match sw_caller_at st with
  | CLock | CWoken => 4 | CTest => 3 | CUnlock _ => 2 | CDestroy _ => 1 | CWait | CGone _ => 0
  end +
  match sw_completer_at st with
  | PIdle => 9 | PLock => 8 | PSet => 7 | PUnlock => 6 | PNotify => 5 | PEnd => 0
  end.

(** The number of wakeups without a notification. *)
Definition sw_spurious_count (ls : list sw_label) : nat := length (filter (λ l, l = SwSpurious) ls).

Lemma sw_leave (sig : signal V E) :
  let c := sw_cells_at sig PEnd in
  match sw_ex c with Some e => SwThrow e | None => SwReturn (sw_res c) end = sw_result sig.
Proof. by destruct sig as [[|v args]|e|]. Qed.

Lemma sw_not_done (sig : signal V E) (pc : sw_completer) :
  sw_done (sw_cells_at sig pc) = match pc with PUnlock | PNotify | PEnd => true | _ => false end.
Proof. by destruct pc, sig as [[|v args]|e|]. Qed.

Lemma sw_step_inv (sig : signal V E) (l : sw_label) (st st' : sw_state) :
  sw_inv sig st → sw_step sig l st = Some st' →
  sw_inv sig st' ∧ S (sw_rank st') ≤ sw_rank st + (if decide (l = SwSpurious) then 5 else 0).
Proof.
  destruct st as [c m caller pc ub]. intros (-> & -> & Hcomp & Hub).
  destruct l; simpl; unfold sw_spurious; simpl; try rewrite sw_not_done.
  all: destruct caller, pc; try done; simpl in *; intros [= <-].
  all: split; [unfold sw_inv; split_and!; simpl|unfold sw_rank; simpl; lia].
  all: try done; try apply sw_leave.
  all: intros Hu; first [by eauto|by destruct (Hub Hu) as [? [? ?]]; eauto].
Qed.

Lemma sw_steps_inv (sig : signal V E) (ls : list sw_label) (st st' : sw_state) :
  sw_inv sig st → sw_steps sig ls st = Some st' →
  sw_inv sig st' ∧ sw_rank st' + length ls ≤ sw_rank st + 5 * sw_spurious_count ls.
Proof.
  revert st. induction ls as [|l ls IH]; intros st Hinv; simpl.
  - intros [= <-]. split; [done|]. unfold sw_spurious_count. simpl. lia.
  - intros (st1 & Hl & Hls)%bind_Some.
    destruct (sw_step_inv sig l st st1 Hinv Hl) as [Hinv1 Hrank].
    destruct (IH st1 Hinv1 Hls) as [Hinv' Hrank']. split; [done|].
    unfold sw_spurious_count in *. rewrite filter_cons.
    destruct (decide (l = SwSpurious)); simpl; lia.
Qed.

(** Of the steps only the notification can find the variables destroyed. *)
Lemma sw_ub_step (sig : signal V E) (l : sw_label) (st st' : sw_state) :
  sw_inv sig st → sw_step sig l st = Some st' → sw_ub st = false → sw_ub st' = true →
  l = SwComplete ∧ sw_completer_at st = PNotify.
Proof.
  destruct st as [c m caller pc ub]. intros (-> & -> & Hcomp & _).
  destruct l; simpl; unfold sw_spurious; simpl; try rewrite sw_not_done.
  all: by destruct caller, pc; try done; simpl in *; intros [= <-] Hub; simplify_eq/=.
Qed.

(** Only a caller that is gone leaves both threads without a step. *)
Lemma sw_stuck (sig : signal V E) (st : sw_state) :
  sw_inv sig st → (∀ l, l ≠ SwSpurious → sw_step sig l st = None) →
  sw_caller_at st = CGone (sw_result sig).
Proof.
  destruct st as [c m caller pc ub]. intros (-> & -> & Hcomp & Hub) Hstuck.
  pose proof (Hstuck SwCall ltac:(done)) as Hcall.
  pose proof (Hstuck SwComplete ltac:(done)) as Hc.
  pose proof (Hstuck SwCaller ltac:(done)) as Hw.
  simpl in *. rewrite sw_not_done in Hw.
  by destruct caller, pc; simplify_eq/=.
Qed.

(** The completion from within [start]: all of [complete] has happened. *)
Definition sw_inline (sig : signal V E) : sw_state := SwState (sw_cells_at sig PEnd) None CLock PEnd false.

Lemma sw_receiver_inline (sig : signal V E) (x : X) :
  sw_receiver sig (x, sw_init) = Some (x, sw_inline sig).
Proof. by destruct sig as [[|v args]|e|]. Qed.

Lemma sw_inits_inv (sig : signal V E) : sw_inv sig sw_init ∧ sw_inv sig (sw_inline sig).
Proof. done. Qed.

(** A caller which saw [done] before the notification: it returns, and the
    condition variable is gone when it is notified. *)
Definition sw_hazard : list sw_label :=
  [SwCall; SwComplete; SwComplete; SwComplete; SwCaller; SwCaller; SwCaller; SwCaller; SwComplete].

Lemma sw_hazard_reached (sig : signal V E) :
  ∃ st, sw_steps sig sw_hazard sw_init = Some st ∧ sw_ub st = true ∧ sw_completer_at st = PEnd.
Proof. by destruct sig as [[|v args]|e|]; eexists. Qed.

(** A completion in the caller's thread is over when the caller waits. *)
Lemma sw_inline_safe (sig : signal V E) (ls : list sw_label) (st : sw_state) :
  sw_steps sig ls (sw_inline sig) = Some st → sw_ub st = false.
Proof.
  enough (∀ st0, sw_completer_at st0 = PEnd ∧ sw_ub st0 = false →
    sw_steps sig ls st0 = Some st → sw_ub st = false) as H by by apply H.
  induction ls as [|l ls IH]; intros [c m caller pc ub] [Hpc Hub]; simpl in Hpc, Hub; subst pc ub;
    simpl; [by intros [= <-]|].
  intros (st1 & Hl & Hls)%bind_Some. apply (IH st1); [|done].
  destruct l, caller; simpl in Hl; unfold sw_call, sw_spurious in Hl; simpl in Hl;
    repeat (case_match; simplify_eq/=); by simplify_eq/=.
Qed.

(** C32: sync_wait returns what its sender completes with: values are
    returned, an error is rethrown, and the empty optional is returned for the
    stopped signal - but also for a value without arguments, which the caller
    cannot tell from being stopped. The sender completes once, either in the
    caller's thread before [start] returns, or later in another thread; a
    sender which does neither is not covered. In every interleaving of the
    caller (lock, test of [done], wait, release of the lock, destruction of
    the variables) with the other thread's completion (store of the result,
    lock, store of [done], unlock, notification), with any number of spurious
    wakeups: the call does not return before the completion has set [done],
    the threads take at most 13 steps and 5 for each spurious wakeup, and when
    neither thread has a step left the call has returned with that result, so
    the caller is never left waiting. No variable is used after its
    destruction when the completion is in the caller's thread. When another
    thread completes, some interleaving does so: the notification comes after
    the unlock, when a caller which finds [done] set may have returned and
    destroyed the condition variable. No other step can be the first to use a
    destroyed variable. *)
Theorem sync_wait_spec (s : sender V E sw_world) (sig : signal V E) (x x' : X) (inline : bool) :
  s sw_receiver (x, sw_init) = (if inline then sw_receiver sig (x', sw_init) else Some (x', sw_init)) →
  ∃ st0, sync_wait s x = Some st0 ∧
  (∀ ls st, sw_steps sig ls st0 = Some st →
    length ls ≤ 13 + 5 * sw_spurious_count ls ∧
    (∀ o, sw_caller_at st = CGone o → o = sw_result sig ∧ sw_done (sw_vars st) = true) ∧
    ((∀ l, l ≠ SwSpurious → sw_step sig l st = None) → sw_caller_at st = CGone (sw_result sig)) ∧
    (sw_ub st = true → inline = false ∧ sw_caller_at st = CGone (sw_result sig)) ∧
    (∀ l st', sw_step sig l st = Some st' → sw_ub st = false → sw_ub st' = true →
       l = SwComplete ∧ sw_completer_at st = PNotify)) ∧
  (inline = false → ∃ ls st, sw_steps sig ls st0 = Some st ∧ sw_ub st = true).
Proof.
  intros Hs. exists (if inline then sw_inline sig else sw_init).
  destruct (sw_inits_inv sig) as [Hinit Hinline]. split_and!.
  - unfold sync_wait. rewrite Hs. destruct inline; [by rewrite sw_receiver_inline|done].
  - intros ls st Hrun.
    destruct (sw_steps_inv sig ls _ st (if inline return sw_inv sig (if inline then _ else _)
      then Hinline else Hinit) Hrun) as [Hinv Hrank].
    assert (∀ o, sw_caller_at st = CGone o → o = sw_result sig ∧ sw_done (sw_vars st) = true) as Hgone.
    { intros o. destruct st as [c m caller pc ub], Hinv as (-> & -> & Hcomp & _).
      simpl. rewrite sw_not_done. intros ->. by destruct pc. }
    split_and!; [|exact Hgone|by apply sw_stuck| |intros l st'; by apply sw_ub_step].
    + assert (sw_rank (if inline then sw_inline sig else sw_init) ≤ 13) by (destruct inline; cbv; lia). lia.
    + intros Hub. split.
      * destruct inline; [|done]. by rewrite (sw_inline_safe sig ls st Hrun) in Hub.
      * destruct st as [c m caller pc ub], Hinv as (_ & _ & _ & H). destruct (H Hub) as [_ [o Ho]].
        simpl in *. destruct (Hgone o Ho) as [-> _]. done.
  - intros ->. destruct (sw_hazard_reached sig) as (st & Hrun & Hub & _). eauto.
Qed.
End sync_wait.
Arguments sw_cells : clear implicits.
Arguments sw_state : clear implicits.
Arguments sw_world : clear implicits.

(** *** Witnesses *)
Definition sd_double : callable nat nat nat (option nat) :=
  λ sig w, match sig with
           | SigValue (v :: _) => (inr (Some (v + v)), S w)
           | SigValue [] => (inl 0, w)
           | _ => (inr None, w)
           end.

Lemma then_laws_witness :
  let s := just_signal (W := nat) (SigValue (E := nat) [3]) in
  sender_equiv (then_sender TagValue (then_sender TagValue s sd_double) sd_double)
    (then_sender TagValue s (callable_compose sd_double sd_double)).
Proof. apply (then_laws (just_signal (SigValue [3])) TagError sd_double sd_double SigStopped). apply _. Defined.

Lemma let_value_monad_witness :
  sender_equiv (let_sender TagValue (just (W := nat) (E := nat) [3]) (λ sig w, (inr (just_signal sig), w)))
    (just [3]).
Proof.
  apply (let_value_monad (just [3]) (callable_sender sd_double) (callable_sender sd_double) [4]).
  - apply _.
  - intros sig w s w'. unfold callable_sender.
    destruct (sd_double sig w) as [[e|o] w'']; intros [= <- _]; apply _.
  - intros sig w s w'. unfold callable_sender.
    destruct (sd_double sig w) as [[e|o] w'']; intros [= <- _]; apply _.
Defined.

Lemma then_let_exceptions_witness :
  let_sender TagValue (just_signal (SigValue (E := nat) [])) (λ _ w, (inl 0, w))
    (λ (sig : signal nat nat) w, Some w) 5 = None.
Proof.
  apply (then_let_exceptions TagValue (SigValue []) sd_double (λ _ w, (inl 0, w)) 0
    (λ _ w, Some w) 5 5); reflexivity.
Defined.

Lemma sync_wait_spec_witness :
  (∃ st, sync_wait (V := nat) (E := nat) (X := nat) (then_sender TagValue (just [3])
     (λ sig w, (inr (Some (match sig with SigValue (v :: _) => v + v | _ => 0 end)), w))) 0 = Some st ∧
     ∀ ls st', sw_steps (SigValue [6]) ls st = Some st' → sw_ub st' = false) ∧
  ∃ ls st, sw_steps (SigValue (V := nat) (E := nat) [7]) ls sw_init = Some st ∧ sw_ub st = true.
Proof.
  split.
  - destruct (sync_wait_spec (V := nat) (E := nat) (X := nat)
      (then_sender TagValue (just [3])
         (λ sig w, (inr (Some (match sig with SigValue (v :: _) => v + v | _ => 0 end)), w)))
      (SigValue [6]) 0 0 true eq_refl) as (st & Hst & H & _).
    exists st. split; [exact Hst|]. intros ls st' Hrun.
    destruct (H ls st' Hrun) as (_ & _ & _ & Hub & _). destruct (sw_ub st'); [|done].
    by destruct (Hub eq_refl).
  - destruct (sync_wait_spec (V := nat) (E := nat) (X := nat) (λ _ w, Some w) (SigValue [7]) 0 0 false
      eq_refl) as (st & [= <-] & _ & H).
    by apply H.
Defined.
