(* ===== verification/Adaptors.v ===== *)
(** * nstd::execution: inject_cancel, add_value, on, start_detached

    Sender adaptors whose receivers have an environment: the stop token and the
    scheduler a receiver names ([get_env]). src/src/nstd/execution/
    inject_cancel.hpp, add_value.hpp, on.hpp, start_detached.hpp and
    repeat_effect.hpp. Connecting is a step of its own, which may throw and
    yields the operation to be started; the completions are those of Senders.
    [None] is std::terminate or undefined behaviour. *)
From S2P Require Import Prelude Senders RepeatEffect.

Section adaptors.
Context {V E W Sch : Type}.

(** ** Environments *)
Inductive adaptor_token := NeverStop | StopToken (id : nat).

(** The results of the queries; an environment without an answer to
    [get_stop_token] has the default, a token which never stops. *)
Record env := Env { env_stop_token : adaptor_token; env_scheduler : option Sch }.

Record env_receiver := EnvReceiver { er_env : env; er_complete : receiver V E W }.

(** [connect]: terminate, an exception, or the [start] of an operation state. *)
Definition env_operation : Type := W → option W.
Record env_sender := EnvSender { es_connect : env_receiver → W → option ((E + env_operation) * W) }.

(** A connect function declared noexcept. *)
Definition noexcept_connect (c : option ((E + env_operation) * W)) : option ((E + env_operation) * W) :=
  match c with Some (inl _, _) => None | c => c end.

(** Connecting and starting; the exception is the caller's. *)
Definition run_sender (s : env_sender) (r : env_receiver) (w : W) : option (option E * W) :=
  match es_connect s r w with
  | None => None
  | Some (inl e, w) => Some (Some e, w)
  | Some (inr op, w) => (None,.) <$> op w
  end.

(** [just]: the operation completes when it is started. *)
Definition env_just (sig : signal V E) : env_sender :=
  EnvSender (λ r w, Some (inr (er_complete r sig), w)).
(** A sender of Senders, which does not look at the environment. *)
Definition env_lift (s : sender V E W) : env_sender :=
  EnvSender (λ r w, Some (inr (s (er_complete r)), w)).

(** ** inject_cancel *)
Definition inject_cancel_env (token : adaptor_token) (e : env) : env := Env token (env_scheduler e).
Definition inject_cancel_receiver (token : adaptor_token) (r : env_receiver) : env_receiver :=
  EnvReceiver (inject_cancel_env token (er_env r))
    (λ sig, match sig with
            | SigValue args => er_complete r (SigValue args)
            | SigError e => er_complete r (SigError e)
            | SigStopped => er_complete r SigStopped
            end).
Definition inject_cancel (s : env_sender) (token : adaptor_token) : env_sender :=
  EnvSender (λ r w, noexcept_connect (es_connect s (inject_cancel_receiver token r) w)).

(** ** add_value

    The values are appended to those of the upstream sender. (The overload for
    [set_stopped] has a template parameter which cannot be deduced, so upstream
    senders that may be stopped are refused by the compiler.) *)
Definition add_value_receiver (values : list V) (r : env_receiver) : env_receiver :=
  EnvReceiver (er_env r)
    (λ sig, match sig with
            | SigValue args => er_complete r (SigValue (args ++ values))
            | SigError e => er_complete r (SigError e)
            | SigStopped => er_complete r SigStopped
            end).
Definition add_value (s : env_sender) (values : list V) : env_sender :=
  EnvSender (λ r w, es_connect s (add_value_receiver values r) w).
(** The closure [add_value(values...)]. *)
Definition add_value_closure (values : list V) (s : env_sender) : env_sender := add_value s values.

(** ** on *)
(** [replace_env] answers [get_scheduler] only. *)
Definition replace_env (scheduler : Sch) (e : env) : env := Env NeverStop (Some scheduler).
Definition replace_receiver (scheduler : Sch) (r : env_receiver) : env_receiver :=
  EnvReceiver (replace_env scheduler (er_env r))
    (λ sig, match sig with
            | SigValue args => er_complete r (SigValue args)
            | SigError e => er_complete r (SigError e)
            | SigStopped => er_complete r SigStopped
            end).

(** [state_base::start], called by the scheduler's operation: an exception of
    [connect] becomes an error. *)
Definition on_state_start (scheduler : Sch) (s : env_sender) (r : env_receiver) (w : W) : option W :=
  match es_connect s (replace_receiver scheduler r) w with
  | None => None
  | Some (inl e, w) => er_complete r (SigError e) w
  | Some (inr op, w) => op w
  end.

(** The receiver of [schedule]: it has neither [set_error] nor [set_stopped]. *)
Definition schedule_receiver (scheduler : Sch) (s : env_sender) (r : env_receiver) : env_receiver :=
  EnvReceiver (er_env r)
    (λ sig w, match sig with
              | SigValue _ => on_state_start scheduler s r w
              | SigError _ | SigStopped => None
              end).

Definition on (schedule : Sch → env_sender) (scheduler : Sch) (s : env_sender) : env_sender :=
  EnvSender (λ r w, noexcept_connect (es_connect (schedule scheduler) (schedule_receiver scheduler s r) w)).

(** ** Equality of senders *)
Definition env_receiver_equiv (r1 r2 : env_receiver) : Prop :=
  er_env r1 = er_env r2 ∧ receiver_equiv (er_complete r1) (er_complete r2).

(** Senders know a receiver by its environment and its completions only. *)
Class EnvSenderProper (s : env_sender) : Prop :=
  env_sender_proper r1 r2 w : env_receiver_equiv r1 r2 → run_sender s r1 w = run_sender s r2 w.

Definition env_sender_equiv (s1 s2 : env_sender) : Prop := ∀ r w, run_sender s1 r w = run_sender s2 r w.

#[export] Instance env_sender_equiv_equivalence : Equivalence env_sender_equiv.
Proof.
  split; [by intros s r w|by intros s1 s2 H r w|]. intros s1 s2 s3 H1 H2 r w. by rewrite H1, H2.
Qed.

#[export] Instance env_receiver_equiv_equivalence : Equivalence env_receiver_equiv.
Proof.
  split.
  - by intros r.
  - intros r1 r2 [H1 H2]. split; [done|by symmetry].
  - intros r1 r2 r3 [H1 H2] [H3 H4]. split; [congruence|by etrans].
Qed.

(** A sender whose [connect] does not throw. *)
Definition connects (s : env_sender) : Prop := ∀ r w, ∃ op w', es_connect s r w = Some (inr op, w').

Lemma noexcept_connect_inr (s : env_sender) r w :
  connects s → noexcept_connect (es_connect s r w) = es_connect s r w.
Proof. intros Hs. by destruct (Hs r w) as (op & w' & ->). Qed.

#[export] Instance env_just_proper sig : EnvSenderProper (env_just sig).
Proof. intros r1 r2 w [_ H]. unfold run_sender. simpl. by rewrite H. Qed.

Lemma env_just_connects sig : connects (env_just sig).
Proof. intros r w. by eexists _, _. Qed.

Lemma inject_cancel_run s token r w :
  connects s → run_sender (inject_cancel s token) r w = run_sender s (inject_cancel_receiver token r) w.
Proof. intros Hs. unfold run_sender. cbn [es_connect inject_cancel]. by rewrite noexcept_connect_inr. Qed.

Lemma inject_cancel_connects s token : connects s → connects (inject_cancel s token).
Proof. intros Hs r w. cbn [es_connect inject_cancel]. rewrite noexcept_connect_inr by done. apply Hs. Qed.

(** [inject_cancel]: the sender sees the injected token - the innermost one
    when injected twice, and [never] injected into a receiver's own token is
    the receiver's - the scheduler of the receiver, and all completions arrive
    unchanged; a sender whose [connect] throws terminates the program. *)
Theorem inject_cancel_laws s `{!EnvSenderProper s} t1 t2 r w :
  (connects s →
   run_sender (inject_cancel (inject_cancel s t1) t2) r w = run_sender (inject_cancel s t1) r w ∧
   run_sender (inject_cancel s (env_stop_token (er_env r))) r w = run_sender s r w) ∧
  er_env (inject_cancel_receiver t1 r) = Env t1 (env_scheduler (er_env r)) ∧
  (∀ e w', es_connect s (inject_cancel_receiver t1 r) w = Some (inl e, w') →
     run_sender (inject_cancel s t1) r w = None).
Proof.
  split_and!; [|done|].
  - intros Hs. rewrite !inject_cancel_run by (done || by apply inject_cancel_connects). split.
    + apply env_sender_proper. split; [done|]. by intros [|?|] w'.
    + apply env_sender_proper. split; [by destruct r as [[] ?]|]. by intros [|?|] w'.
  - intros e w' He. unfold run_sender. cbn. by rewrite He.
Qed.

(** [add_value] appends values: adding none changes nothing, adding twice
    is adding the concatenation, and on [just] it is [just] of more values;
    errors and the environment are left alone. *)
Theorem add_value_laws s `{!EnvSenderProper s} args vs1 vs2 e :
  env_sender_equiv (add_value s []) s ∧
  env_sender_equiv (add_value (add_value s vs1) vs2) (add_value s (vs1 ++ vs2)) ∧
  env_sender_equiv (add_value (env_just (SigValue args)) vs1) (env_just (SigValue (args ++ vs1))) ∧
  env_sender_equiv (add_value (env_just (SigError e)) vs1) (env_just (SigError e)) ∧
  ∀ r, er_env (add_value_receiver vs1 r) = er_env r.
Proof.
  split_and!; [| |done|done|done].
  - intros r w. change (run_sender (add_value s []) r w) with (run_sender s (add_value_receiver [] r) w).
    apply env_sender_proper. split; [done|]. intros [args'|e'|] w'; cbn; [by rewrite app_nil_r|done..].
  - intros r w.
    change (run_sender s (add_value_receiver vs1 (add_value_receiver vs2 r)) w =
            run_sender s (add_value_receiver (vs1 ++ vs2) r) w).
    apply env_sender_proper. split; [done|].
    intros [args'|e'|] w'; cbn; [by rewrite (assoc_L (++))|done..].
Qed.

(** [on] runs the sender when the scheduler's operation completes, with that
    scheduler in its environment; its completions arrive unchanged and an
    exception of its [connect] arrives as an error. But the environment has no
    stop token any more: the sender does not see the receiver's. *)
Theorem on_spec schedule sch s r w :
  es_connect (schedule sch) (schedule_receiver sch s r) w =
    Some (inr (er_complete (schedule_receiver sch s r) (SigValue [])), w) →
  run_sender (on schedule sch s) r w =
    ((None,.) <$> match run_sender s (replace_receiver sch r) w with
                  | Some (None, w) => Some w
                  | Some (Some e, w) => er_complete r (SigError e) w
                  | None => None
                  end) ∧
  env_scheduler (er_env (replace_receiver sch r)) = Some sch ∧
  env_stop_token (er_env (replace_receiver sch r)) = NeverStop ∧
  receiver_equiv (er_complete (replace_receiver sch r)) (er_complete r).
Proof.
  intros Hsch. split_and!; [|done|done|by intros [] w'].
  unfold run_sender at 1. cbn [es_connect on]. rewrite Hsch. cbn. f_equal.
  unfold on_state_start, run_sender.
  destruct (es_connect s (replace_receiver sch r) w) as [[[e|op] w']|]; [done| |done].
  by destruct (op w').
Qed.
End adaptors.

(** ** start_detached

    The operation states allocated, and those freed so far. The receiver given
    to [connect] is copied into the operation state; the last copy owns it. *)
Record detached_heap := DetachedHeap { dh_alive : gset nat; dh_freed : list nat }.

Section start_detached.
Context {V E W : Type}.

Definition detached_new (holder : nat) (h : detached_heap) : detached_heap :=
  DetachedHeap ({[holder]} ∪ dh_alive h) (dh_freed h).
Definition detached_reset (holder : nat) (h : detached_heap) : option detached_heap :=
  if decide (holder ∈ dh_alive h)
  then Some (DetachedHeap (dh_alive h ∖ {[holder]}) (dh_freed h ++ [holder]))
  else None.

(** The receiver's completions; an error terminates the program. *)
Definition detached_receiver (holder : nat) : receiver V E (W * detached_heap) :=
  λ sig w, match sig with
           | SigValue _ | SigStopped => h ← detached_reset holder w.2; Some (w.1, h)
           | SigError _ => None
           end.

(** [copies] is how often [connect] copies the receiver: the pointer to the
    owner stays null when it does not. An exception of [connect] is thrown. *)
Definition start_detached (copies : nat) (holder : nat) (s : env_sender (V := V) (E := E) (W := W * detached_heap) (Sch := ()))
    (w : W * detached_heap) : option (option E * (W * detached_heap)) :=
  match es_connect s (EnvReceiver (Env NeverStop None) (detached_receiver holder)) w with
  | None => None
  | Some (inl e, w) => Some (Some e, w)
  | Some (inr op, w) =>
      match copies with
      | 0 => None
      | S _ => (None,.) <$> op (w.1, detached_new holder w.2)
      end
  end.

(** A detached operation frees its state exactly once, when it completes
    with values or stopped; an error terminates the program. *)
Theorem start_detached_frees copies holder sig w h :
  0 < copies → holder ∉ dh_alive h →
  match sig with
  | SigError _ => start_detached copies holder (env_just sig) (w, h) = None
  | _ => ∃ h', start_detached copies holder (env_just sig) (w, h) = Some (None, (w, h')) ∧
           dh_alive h' = dh_alive h ∧ dh_freed h' = dh_freed h ++ [holder] ∧
           detached_receiver holder sig (w, h') = None
  end.
Proof.
  intros Hc Hh. destruct copies as [|copies]; [lia|].
  assert (Hreset : ∃ h', detached_reset holder (detached_new holder h) = Some h' ∧
    dh_alive h' = dh_alive h ∧ dh_freed h' = dh_freed h ++ [holder] ∧ detached_reset holder h' = None).
  { unfold detached_reset at 1. rewrite decide_True by (simpl; set_solver).
    eexists; split; [done|]. simpl.
    assert (Heq : ({[holder]} ∪ dh_alive h) ∖ {[holder]} = dh_alive h) by set_solver.
    rewrite Heq. split_and!; [done..|]. unfold detached_reset. by rewrite decide_False. }
  destruct Hreset as (h' & Hr & Ha & Hf & Hn).
  destruct sig as [args|e|]; [|done|]; exists h'; unfold start_detached; cbn; rewrite Hr; cbn;
    (split_and!; [done..|]); by rewrite Hn.
Qed.
End start_detached.

(** ** repeat_effect: the predicate never holds *)
Definition repeat_effect {E} (w : re_world E) : re_world E :=
  ReWorld (inner_async w) (inner_signal w) (re_stop_requested w) (λ _, inr false) (connect_throws w).

(** [repeat_effect] ends only with an error or stopped: the loop never
    reports a value. *)
Theorem repeat_effect_no_value {E} (w : re_world E) n i :
  ∀ k, plain_loop (repeat_effect w) n i ≠ Some (RSetValue, k).
Proof.
  revert i. induction n as [|n IH]; intros i k; [done|]. cbn.
  destruct (inner_signal w i); [|done..].
  destruct (re_stop_requested w i); [done|].
  destruct (connect_throws w (S i)); [done|]. apply IH.
Qed.

(** ** Witnesses: a world that logs the signals *)
Definition log_receiver : env_receiver (V := nat) (E := nat) (W := list (signal nat nat)) (Sch := nat) :=
  EnvReceiver (Env (StopToken 1) (Some 5)) (λ sig w, Some (w ++ [sig])).

Lemma inject_cancel_laws_witness :
  run_sender (inject_cancel (inject_cancel (env_just (SigValue [1])) (StopToken 2)) (StopToken 3)) log_receiver []
    = run_sender (inject_cancel (env_just (SigValue [1])) (StopToken 2)) log_receiver [] ∧
  run_sender (inject_cancel (env_just (SigValue [1])) (StopToken 1)) log_receiver []
    = run_sender (env_just (SigValue [1])) log_receiver [].
Proof.
  apply (inject_cancel_laws (env_just (SigValue [1])) (StopToken 2) (StopToken 3) log_receiver []).
  apply env_just_connects.
Defined.

Lemma add_value_laws_witness :
  env_sender_equiv (Sch := nat) (add_value (W := list nat) (env_just (SigValue (E := nat) [1])) [])
    (env_just (SigValue [1])).
Proof. apply (add_value_laws (env_just (SigValue [1])) [1] [2] [3] 0). Defined.

Lemma on_spec_witness :
  run_sender (on (λ _, env_just (SigValue [])) 9 (env_just (SigValue [1]))) log_receiver [] =
    Some (None, [SigValue [1]]).
Proof.
  refine (proj1 (on_spec (λ _, env_just (SigValue [])) 9 (env_just (SigValue [1])) log_receiver [] _)).
  reflexivity.
Defined.

Lemma start_detached_frees_witness :
  ∃ h', start_detached (V := nat) (E := nat) 1 7 (env_just (SigValue [3])) ((), DetachedHeap ∅ []) = Some (None, ((), h')) ∧
    dh_alive h' = ∅ ∧ dh_freed h' = [] ++ [7] ∧
    detached_receiver (V := nat) (E := nat) 7 (SigValue [3]) ((), h') = None.
Proof.
  apply (start_detached_frees (V := nat) (E := nat) 1 7 (SigValue [3]) () (DetachedHeap ∅ []));
    [lia|set_solver].
Defined.
