(* ===== verification/Task.v ===== *)
(** * nstd::execution::task

    The coroutine type of src/src/nstd/execution/task.hpp, a sender whose
    operation runs a coroutine. A coroutine is a tree: it returns, throws,
    accesses the state of the program, or awaits a sender and goes on with the
    values. [resume] is what the promise type makes of it: each [co_await]
    connects the sender to the [awaitable]'s receiver and starts the operation,
    whose value completion resumes the coroutine. *)
From S2P Require Import Prelude Senders.

Section task.
Context {V E W : Type}.
Notation sender := (sender V E W).
Notation receiver := (receiver V E W).

(** Without arguments the coroutine returns [void]. *)
Inductive coroutine :=
  | CoReturn (args : list V)
  | CoThrow (e : E)
  | CoStep (update : W → W) (k : W → coroutine)
  | CoAwait (s : sender) (k : list V → coroutine).

(** With assertions compiled in a failing one ends the program, without them
    nothing happens. *)
Context (ndebug : bool).
Definition assert_false (w : W) : option W := if ndebug then Some w else None.

(** [awaitable::receiver]: values are stored and the coroutine [continue] is
    resumed, where [await_resume] reads them. *)
Definition awaitable_receiver (continue : list V → W → option W) : receiver :=
  λ sig w,
    match sig with
    | SigValue args => continue args w
    | SigError _ => assert_false w
    | SigStopped => assert_false w
    end.

(** [await_suspend]. *)
Definition awaitable_suspend (s : sender) (continue : list V → W → option W) (w : W) : option W :=
  s (awaitable_receiver continue) w.

(** [task_state::complete]. *)
Definition task_complete (r : receiver) (args : list V) (w : W) : option W := r (SigValue args) w.

(** Running the coroutine from where it is suspended, for the receiver the
    promise's [completion] points to; an exception calls
    [unhandled_exception]. *)
Fixpoint task_resume (c : coroutine) (r : receiver) (w : W) {struct c} : option W :=
  match c with
  | CoReturn args => task_complete r args w
  | CoThrow _ => None
  | CoStep update k => task_resume (k w) r (update w)
  | CoAwait s k => awaitable_suspend s (λ args, task_resume (k args) r) w
  end.

(** Connecting moves the handle; starting sets [completion] and resumes. *)
Definition task (c : coroutine) : sender := λ r w, task_resume c r w.

(** ** Tasks and let_value *)
(** Senders which complete with values only. *)
Class ValueSender (s : sender) : Prop :=
  value_sender r1 r2 w :
    (∀ args w, r1 (SigValue args) w = r2 (SigValue args) w) → s r1 w = s r2 w.

#[export] Instance value_sender_proper s `{!ValueSender s} : SenderProper s.
Proof. intros r1 r2 w H. apply value_sender. intros args w'. apply H. Qed.

#[export] Instance just_value_sender args : ValueSender (just args).
Proof. intros r1 r2 w H. apply H. Qed.

(** What holds of all senders a coroutine may await. *)
Fixpoint co_awaits (P : sender → Prop) (c : coroutine) : Prop :=
  match c with
  | CoReturn _ | CoThrow _ => True
  | CoStep _ k => ∀ w, co_awaits P (k w)
  | CoAwait s k => P s ∧ ∀ args, co_awaits P (k args)
  end.

(** The same program written with [let_value]. *)
Definition args_of (sig : signal V E) : list V := match sig with SigValue args => args | _ => [] end.

Fixpoint co_let (c : coroutine) : sender :=
  match c with
  | CoReturn args => just args
  | CoThrow _ => λ _ _, None
  | CoStep update k => λ r w, co_let (k w) r (update w)
  | CoAwait s k => let_sender TagValue s (λ sig w, (inr (co_let (k (args_of sig))), w))
  end.

(** Awaiting a coroutine, and going on with what it returns. *)
Fixpoint co_bind (c : coroutine) (k : list V → coroutine) : coroutine :=
  match c with
  | CoReturn args => k args
  | CoThrow e => CoThrow e
  | CoStep update k' => CoStep update (λ w, co_bind (k' w) k)
  | CoAwait s k' => CoAwait s (λ args, co_bind (k' args) k)
  end.

Lemma task_resume_proper c r1 r2 w :
  co_awaits SenderProper c → (∀ args w, r1 (SigValue args) w = r2 (SigValue args) w) →
  task_resume c r1 w = task_resume c r2 w.
Proof.
  intros Hc Hr. revert w. induction c as [args|e|update k IH|s k IH]; intros w; simpl in *; [apply Hr|done|by apply IH|].
  destruct Hc as [Hs Hk]. apply Hs. intros [args|e|] w'; simpl; [by apply IH|done..].
Qed.

(** Tasks complete with values only. *)
#[export] Instance task_value_sender c : co_awaits SenderProper c → ValueSender (task c).
Proof. intros Hc r1 r2 w Hr. by apply task_resume_proper. Qed.

Lemma task_resume_bind c k r w :
  co_awaits SenderProper c →
  task_resume (co_bind c k) r w =
  task_resume c (λ sig w, match sig with SigValue args => task_resume (k args) r w | _ => assert_false w end) w.
Proof.
  revert w. induction c as [args|e|update k' IH|s k' IH]; intros w Hc; simpl in *; [done..|by apply IH|].
  destruct Hc as [Hs Hk]. apply Hs. intros [args|e|] w'; simpl; [by apply IH|done..].
Qed.

(** A task is the program written with [let_value], as long as the senders
    it awaits complete with values; awaiting a task is running its coroutine in
    place, and awaiting [just] goes on with its values. *)
Theorem task_is_let_value (c : coroutine) (k : list V → coroutine) (args : list V) :
  co_awaits ValueSender c →
  sender_equiv (task c) (co_let c) ∧
  sender_equiv (task (CoAwait (task c) k)) (task (co_bind c k)) ∧
  sender_equiv (task (CoAwait (just args) k)) (task (k args)).
Proof.
  intros Hc.
  assert (Hp : ∀ c, co_awaits ValueSender c → co_awaits SenderProper c).
  { intros c'. induction c' as [| |update k' IH|s k' IH]; simpl; [done..|by auto|].
    intros [Hs Hk]. split; [by apply value_sender_proper|auto]. }
  split_and!; [|intros r w; symmetry; unfold task; cbn; by rewrite task_resume_bind by auto|done].
  clear k args. induction c as [args|e|update k IH|s k IH]; intros r w; simpl in *; [done..|by apply IH|].
  destruct Hc as [Hs Hk]. apply Hs. intros args w'. cbn.
  by apply (IH args (Hk args)).
Qed.

(** A task does not handle the other completions. Where [let_value] passes
    an error or the stopped signal on, awaiting a sender which completes with
    one ends the program; compiled without assertions the coroutine is never
    resumed and the receiver of the task never completed. An exception thrown
    in the coroutine ends the program although the task announces an error
    completion. *)
Theorem task_await_errors (sig : signal V E) (k : list V → coroutine) (e : E) (r : receiver) (w : W) :
  tag_of sig ≠ TagValue →
  task (CoAwait (just_signal sig) k) r w = (if ndebug then Some w else None) ∧
  let_sender TagValue (just_signal sig) (λ sig w, (inr (co_let (k (args_of sig))), w)) r w = r sig w ∧
  task (CoThrow e) r w = None.
Proof. intros Hsig. by destruct sig. Qed.
End task.
Arguments coroutine : clear implicits.

(** ** Witnesses *)
(** Awaits two senders and returns the sum of their values. *)
Definition demo_coroutine : coroutine nat nat nat :=
  CoAwait (just [3]) (λ a, CoStep S (λ w, CoAwait (just [4]) (λ b, CoReturn [list_sum (a ++ b) + w]))).

Lemma task_is_let_value_witness :
  sender_equiv (task false demo_coroutine) (co_let demo_coroutine) ∧
  task false demo_coroutine (λ sig w, match sig with SigValue [v] => Some (v * 100 + w) | _ => None end) 5 = Some 1206.
Proof.
  split; [|vm_compute; reflexivity].
  apply (task_is_let_value false demo_coroutine CoReturn []).
  cbn. split; [apply _|]. intros a w. split; [apply _|done].
Defined.

Lemma task_await_errors_witness :
  task false (CoAwait (just_stopped (V := nat) (E := nat)) CoReturn) (λ _ w, Some (S w)) 5 = None ∧
  task true (CoAwait (just_stopped (V := nat) (E := nat)) CoReturn) (λ _ w, Some (S w)) 5 = Some 5.
Proof.
  split; [apply (task_await_errors false SigStopped CoReturn 0); done|
    apply (task_await_errors true SigStopped CoReturn 0); done].
Defined.
