(* ===== verification/Sockets.v ===== *)
(** * nstd::net: sockets

    src/src/nstd/net/socket_base.{hpp,cpp}, basic_socket.hpp,
    basic_socket_acceptor.hpp, basic_stream_socket.hpp and
    basic_datagram_socket.hpp: the blocking operations, in a state-passing world
    whose system calls are parameters, and the queue of send operations of a
    stream socket, of which one at a time is submitted. *)
From S2P Require Import Prelude IntrusiveList Buffer NetIp NetOps.
Local Open Scope Z_scope.

(** The value of an [std::error_code] of the system category; 0 is no error. *)
Definition error_code := Z.

(** [family()], [type()] and [protocol()] of [ip::tcp] and [ip::udp]. *)
Record transport := Transport { tr_family : Z; tr_type : Z; tr_protocol : Z }.
Definition SOCK_STREAM : Z := 1.
Definition SOCK_DGRAM : Z := 2.
Definition IPPROTO_TCP : Z := 6.
Definition IPPROTO_UDP : Z := 17.
Definition ip_tcp (family : Z) : transport := Transport family SOCK_STREAM IPPROTO_TCP.
Definition ip_udp (family : Z) : transport := Transport family SOCK_DGRAM IPPROTO_UDP.

(** [socket_base]: the descriptor and the flags; [basic_socket] and the
    acceptor add an optional protocol. *)
Record socket_base := SocketBase { sb_descriptor : Z; sb_flags : Z }.
Record basic_socket := BasicSocket { bs_base : socket_base; bs_protocol : option transport }.

Definition socket_base_default : socket_base := SocketBase (-1) 0.
Definition socket_base_of_fd (fd : Z) : socket_base := SocketBase fd 0.
Definition socket_base_is_open (s : socket_base) : bool := 0 <=? sb_descriptor s.
Definition O_NONBLOCK : Z := 2048.
Definition socket_base_non_blocking (s : socket_base) : bool :=
  negb (Z.land (sb_flags s) O_NONBLOCK =? 0).
Definition native_handle (s : basic_socket) : Z := sb_descriptor (bs_base s).

Definition basic_socket_default : basic_socket := BasicSocket socket_base_default None.
Definition basic_socket_of_fd (p : transport) (fd : Z) : basic_socket :=
  BasicSocket (socket_base_of_fd fd) (Some p).
Definition basic_socket_is_open (s : basic_socket) : bool := socket_base_is_open (bs_base s).
Definition basic_socket_non_blocking (s : basic_socket) : bool := false.
(** Dereferences the optional. *)
Definition basic_socket_get_protocol (s : basic_socket) : option transport := bs_protocol s.

Section sockets.
(** The world, its system calls and [errno]. *)
Context {W : Type}.
Context (sys_socket : Z → Z → Z → W → Z * W) (sys_close : Z → W → W).
Context (sys_bind : Z → sockaddr_storage → Z → W → Z * W) (sys_listen : Z → Z → W → Z * W).
Context (sys_accept : Z → W → Z * W) (sys_setsockopt : Z → Z → Z → Z → W → Z * W).
Context (sys_recvmsg sys_sendmsg : Z → list iovec → Z → W → Z * W) (errno : W → Z).
Context (htons : Z → Z) (junk : nat → list Z).
(** SOL_SOCKET, SO_REUSEADDR and SOMAXCONN. *)
Context (sol_socket so_reuseaddr somaxconn : Z).

(** ** Opening *)
(** Assigning the new descriptor closes the old one. *)
Definition socket_base_open (domain type protocol : Z) (s : socket_base) (w : W)
    : socket_base * Z * W :=
  let '(fd, w) := sys_socket domain type protocol w in
  let w := if sb_descriptor s <? 0 then w else sys_close (sb_descriptor s) w in
  (SocketBase fd (sb_flags s), fd, w).

Definition socket_base_ctor (domain type protocol : Z) (w : W) : result socket_base * W :=
  let '(s, rc, w) := socket_base_open domain type protocol socket_base_default w in
  if rc <? 0 then (Throw (system_error (errno w)), w) else (Ok s, w).

(** The result of [open] is ignored. *)
Definition basic_socket_open (p : transport) (s : basic_socket) (w : W) : basic_socket * W :=
  let '(b, _, w) := socket_base_open (tr_family p) (tr_type p) (tr_protocol p) (bs_base s) w in
  (BasicSocket b (Some p), w).
Definition basic_socket_ctor (p : transport) (w : W) : basic_socket * W :=
  basic_socket_open p basic_socket_default w.

(** ** The acceptor *)
Definition acceptor_ctor (p : transport) (w : W) : result basic_socket * W :=
  match socket_base_ctor (tr_family p) (tr_type p) (tr_protocol p) w with
  | (Ok b, w) => (Ok (BasicSocket b (Some p)), w)
  | (Throw e, w) => (Throw e, w)
  end.

(** The result of [setsockopt] is ignored. *)
Definition acceptor_set_option (level name data : Z) (s : basic_socket) (w : W) : W :=
  (sys_setsockopt (native_handle s) level name data w).2.

Definition acceptor_listen (n : Z) (s : basic_socket) (w : W) : result () * W :=
  let '(rc, w) := sys_listen (native_handle s) n w in
  if negb (rc =? 0) then (Throw (system_error (errno w)), w) else (Ok (), w).

Definition acceptor_bind (ep : basic_endpoint) (s : basic_socket) (w : W) : result () * W :=
  let '(storage, size) := address_get_address htons junk (endpoint_address ep) (endpoint_port ep) in
  let '(rc, w) := sys_bind (native_handle s) storage size w in
  if negb (rc =? 0) then (Throw (system_error (errno w)), w) else (Ok (), w).

(** A member that was constructed is destroyed when the constructor throws. *)
Definition acceptor_ctor_endpoint (p : transport) (ep : basic_endpoint) (reuse : bool) (w : W)
    : result basic_socket * W :=
  match acceptor_ctor p w with
  | (Throw e, w) => (Throw e, w)
  | (Ok s, w) =>
      let w := if reuse then acceptor_set_option sol_socket so_reuseaddr 1 s w else w in
      match acceptor_bind ep s w with
      | (Throw e, w) => (Throw e, sys_close (native_handle s) w)
      | (Ok _, w) =>
          match acceptor_listen somaxconn s w with
          | (Throw e, w) => (Throw e, sys_close (native_handle s) w)
          | (Ok _, w) => (Ok s, w)
          end
      end
  end.

(** [None] when an acceptor without protocol accepts a connection. *)
Definition acceptor_accept_ec (s : basic_socket) (ec : error_code) (w : W)
    : option (basic_socket * error_code * W) :=
  let '(res, w) := sys_accept (native_handle s) w in
  if res <? 0 then Some (basic_socket_default, errno w, w)
  else p ← basic_socket_get_protocol s; Some (basic_socket_of_fd p res, ec, w).

Definition acceptor_accept (s : basic_socket) (w : W) : option (result basic_socket * W) :=
  '(rc, ec, w) ← acceptor_accept_ec s 0 w;
  Some (if negb (ec =? 0) then (Throw (system_error ec), w) else (Ok rc, w)).

(** ** Stream sockets: receive and send

    The [error_code] is written only when there is an error. *)
Definition stream_receive_flags_ec (bufs : list iovec) (flags : Z) (s : basic_socket) (ec : error_code) (w : W)
    : Z * error_code * W :=
  let '(rc, w) := sys_recvmsg (native_handle s) (vector_iovec bufs) (message_flags_to_int flags) w in
  if rc <? 0 then (0, errno w, w) else (rc, ec, w).
Definition stream_receive_flags (bufs : list iovec) (flags : Z) (s : basic_socket) (w : W) : result Z * W :=
  let '(rc, ec, w) := stream_receive_flags_ec bufs flags s 0 w in
  if negb (ec =? 0) then (Throw (system_error ec), w) else (Ok rc, w).
Definition stream_receive_ec (bufs : list iovec) (s : basic_socket) (ec : error_code) (w : W)
    : Z * error_code * W := stream_receive_flags_ec bufs message_flags_none s ec w.
Definition stream_receive (bufs : list iovec) (s : basic_socket) (w : W) : result Z * W :=
  let '(rc, ec, w) := stream_receive_ec bufs s 0 w in
  if negb (ec =? 0) then (Throw (system_error ec), w) else (Ok rc, w).
Definition stream_read_some_ec (bufs : list iovec) (s : basic_socket) (ec : error_code) (w : W)
    : Z * error_code * W := stream_receive_ec bufs s ec w.
Definition stream_read_some (bufs : list iovec) (s : basic_socket) (w : W) : result Z * W :=
  let '(rc, ec, w) := stream_read_some_ec bufs s 0 w in
  if negb (ec =? 0) then (Throw (system_error ec), w) else (Ok rc, w).

Definition stream_send_flags_ec (bufs : list iovec) (flags : Z) (s : basic_socket) (ec : error_code) (w : W)
    : Z * error_code * W :=
  let '(rc, w) := sys_sendmsg (native_handle s) (vector_iovec bufs) (message_flags_to_int flags) w in
  if rc <? 0 then (0, errno w, w) else (rc, ec, w).
Definition stream_send_flags (bufs : list iovec) (flags : Z) (s : basic_socket) (w : W) : result Z * W :=
  let '(rc, ec, w) := stream_send_flags_ec bufs flags s 0 w in
  if negb (ec =? 0) then (Throw (system_error ec), w) else (Ok rc, w).
Definition stream_send_ec (bufs : list iovec) (s : basic_socket) (ec : error_code) (w : W)
    : Z * error_code * W := stream_send_flags_ec bufs message_flags_none s ec w.
Definition stream_send (bufs : list iovec) (s : basic_socket) (w : W) : result Z * W :=
  let '(rc, ec, w) := stream_send_ec bufs s 0 w in
  if negb (ec =? 0) then (Throw (system_error ec), w) else (Ok rc, w).
Definition stream_write_some_ec (bufs : list iovec) (s : basic_socket) (ec : error_code) (w : W)
    : Z * error_code * W := stream_send_ec bufs s ec w.
Definition stream_write_some (bufs : list iovec) (s : basic_socket) (w : W) : result Z * W :=
  let '(rc, ec, w) := stream_send_ec bufs s 0 w in
  if negb (ec =? 0) then (Throw (system_error ec), w) else (Ok rc, w).

(** ** Datagram sockets *)
Definition datagram_ctor (p : transport) (w : W) : basic_socket * W := basic_socket_ctor p w.
Definition datagram_ctor_endpoint (p : transport) (ep : basic_endpoint) (w : W) : result basic_socket * W :=
  let '(s, w) := basic_socket_ctor p w in
  let '(address, socklen) := endpoint_get_address htons junk ep in
  let '(rc, w) := sys_bind (native_handle s) address socklen w in
  if negb (rc =? 0) then
    (Throw (system_error (errno w)), if native_handle s <? 0 then w else sys_close (native_handle s) w)
  else (Ok s, w).

(** ** Properties *)

(** Receiving and sending: the overloads that take an error code and those
    that throw agree - the throwing one throws exactly the error the other one
    reports - the system is given the caller's buffers in order, and a
    successful call returns the count the system reported; it leaves an error
    code which was set before as it was. *)
Theorem stream_transfer_spec bufs flags s ec w :
  0 ≤ flags < 2 ^ 31 →
  let '(rc, w') := sys_recvmsg (native_handle s) bufs flags w in
  let '(rc2, w2) := sys_sendmsg (native_handle s) bufs flags w in
  (0 ≤ rc →
     stream_receive_flags_ec bufs flags s ec w = (rc, ec, w') ∧
     stream_receive_flags bufs flags s w = (Ok rc, w')) ∧
  (rc < 0 → errno w' ≠ 0 →
     stream_receive_flags_ec bufs flags s ec w = (0, errno w', w') ∧
     stream_receive_flags bufs flags s w = (Throw (system_error (errno w')), w')) ∧
  (0 ≤ rc2 →
     stream_send_flags_ec bufs flags s ec w = (rc2, ec, w2) ∧
     stream_send_flags bufs flags s w = (Ok rc2, w2)) ∧
  (rc2 < 0 → errno w2 ≠ 0 →
     stream_send_flags_ec bufs flags s ec w = (0, errno w2, w2) ∧
     stream_send_flags bufs flags s w = (Throw (system_error (errno w2)), w2)) ∧
  stream_read_some bufs s w = stream_receive_flags bufs message_flags_none s w ∧
  stream_write_some bufs s w = stream_send_flags bufs message_flags_none s w.
Proof.
  intros Hfl.
  unfold stream_receive_flags, stream_send_flags, stream_receive_flags_ec, stream_send_flags_ec.
  rewrite vector_iovec_id, flags_to_int_small by done.
  destruct (sys_recvmsg _ bufs flags w) as [rc w'], (sys_sendmsg _ bufs flags w) as [rc2 w2].
  assert (Hz : ∀ e : Z, e ≠ 0 → (e =? 0) = false) by (intros; by apply Z.eqb_neq).
  split_and!; intros.
  - by rewrite (proj2 (Z.ltb_ge rc 0)) by lia.
  - rewrite (proj2 (Z.ltb_lt rc 0)) by lia. by rewrite Hz.
  - by rewrite (proj2 (Z.ltb_ge rc2 0)) by lia.
  - rewrite (proj2 (Z.ltb_lt rc2 0)) by lia. by rewrite Hz.
  - unfold stream_read_some, stream_read_some_ec, stream_receive_ec, stream_receive_flags_ec.
    by rewrite vector_iovec_id.
  - unfold stream_write_some, stream_send_ec, stream_send_flags_ec. by rewrite vector_iovec_id.
Qed.

(** When the system refuses to create a socket, constructing an acceptor
    throws the error, but constructing a stream or datagram socket succeeds and
    yields a closed socket whose [errno] nobody looked at. *)
Theorem socket_open_failure p w :
  let '(fd, w') := sys_socket (tr_family p) (tr_type p) (tr_protocol p) w in
  fd < 0 →
  acceptor_ctor p w = (Throw (system_error (errno w')), w') ∧
  basic_socket_ctor p w = (BasicSocket (SocketBase fd 0) (Some p), w') ∧
  basic_socket_is_open (basic_socket_ctor p w).1 = false.
Proof.
  unfold acceptor_ctor, socket_base_ctor, basic_socket_ctor, basic_socket_open, socket_base_open.
  simpl. destruct (sys_socket _ _ _ w) as [fd w']. simpl. intros Hfd.
  rewrite (proj2 (Z.ltb_lt fd 0) Hfd). split_and!; [done|done|].
  unfold basic_socket_is_open, socket_base_is_open. simpl. by apply Z.leb_gt.
Qed.

(** The acceptor made for an endpoint is bound and listening when its
    constructor returns; when binding or listening fails the error is thrown
    after its descriptor was closed, so no descriptor is leaked. *)
Theorem acceptor_ctor_endpoint_spec (p : transport) (ep : basic_endpoint) (reuse : bool) (w : W) :
  let '(fd, w1) := sys_socket (tr_family p) (tr_type p) (tr_protocol p) w in
  let w2 := if reuse then (sys_setsockopt fd sol_socket so_reuseaddr 1 w1).2 else w1 in
  let '(storage, size) := endpoint_get_address htons junk ep in
  let '(brc, w3) := sys_bind fd storage size w2 in
  let '(lrc, w4) := sys_listen fd somaxconn w3 in
  0 ≤ fd →
  (brc = 0 → lrc = 0 →
     acceptor_ctor_endpoint p ep reuse w = (Ok (basic_socket_of_fd p fd), w4)) ∧
  (brc ≠ 0 →
     acceptor_ctor_endpoint p ep reuse w = (Throw (system_error (errno w3)), sys_close fd w3)) ∧
  (brc = 0 → lrc ≠ 0 →
     acceptor_ctor_endpoint p ep reuse w = (Throw (system_error (errno w4)), sys_close fd w4)).
Proof.
  unfold acceptor_ctor_endpoint, acceptor_ctor, socket_base_ctor, socket_base_open, acceptor_bind,
    acceptor_listen, acceptor_set_option, endpoint_get_address, endpoint_address, endpoint_port. simpl.
  destruct (sys_socket _ _ _ w) as [fd w1].
  destruct (address_get_address _ _ _ _) as [storage size].
  destruct (sys_bind fd storage size _) as [brc w3] eqn:Hb.
  destruct (sys_listen fd somaxconn w3) as [lrc w4] eqn:Hl.
  intros Hfd. rewrite (proj2 (Z.ltb_ge fd 0) Hfd). simpl.
  unfold native_handle; simpl. rewrite Hb.
  split_and!.
  - intros -> ->. simpl. by rewrite Hl.
  - intros Hne%Z.eqb_neq. by rewrite Hne.
  - intros -> Hne%Z.eqb_neq. simpl. by rewrite Hl, Hne.
Qed.
End sockets.

(** ** The queue of send operations

    [op.submit()] is recorded; completions arrive later. *)
Local Close Scope Z_scope.

Record send_queue := SendQueue { sq_store : store; sq_list : loc; sq_submitted : list loc }.

Inductive send_queue_op := SendEnqueue (op : loc) | SendComplete (op : loc).

Section send_queue.
Context (Q : QueueOps).

Definition sq_submit (op : loc) (q : send_queue) : send_queue :=
  SendQueue (sq_store q) (sq_list q) (sq_submitted q ++ [op]).

Definition stream_enqueue (op : loc) (q : send_queue) : option send_queue :=
  σ ← q_push_back (sq_store q) (sq_list q) op;
  front ← q_front σ (sq_list q);
  let q := SendQueue σ (sq_list q) (sq_submitted q) in
  Some (if decide (op = front) then sq_submit op q else q).

Definition stream_complete (op : loc) (q : send_queue) : option send_queue :=
  first ← q_front (sq_store q) (sq_list q);
  let front := bool_decide (first = op) in
  σ ← q_erase (sq_store q) op;
  e ← q_empty σ (sq_list q);
  let q := SendQueue σ (sq_list q) (sq_submitted q) in
  if front && negb e then next ← q_front σ (sq_list q); Some (sq_submit next q) else Some q.

Definition send_op_run (q : send_queue) (op : send_queue_op) : option send_queue :=
  match op with SendEnqueue x => stream_enqueue x q | SendComplete x => stream_complete x q end.

Fixpoint send_ops_run (q : send_queue) (ops : list send_queue_op) : option send_queue :=
  match ops with
  | [] => Some q
  | op :: ops => q ← send_op_run q op; send_ops_run q ops
  end.

(** What clients may do: enqueue objects which were not enqueued before, and
    complete - or withdraw - objects in the queue. The second component lists
    the objects in the order they were enqueued. *)
Definition send_op_spec (head : loc) (D : gset loc) (a : list loc * list loc) (op : send_queue_op)
    : option (list loc * list loc) :=
  let '(l, enq) := a in
  match op with
  | SendEnqueue x =>
      if decide (x ∈ D ∧ x ≠ head ∧ x ∉ enq) then Some (l ++ [x], enq ++ [x]) else None
  | SendComplete x => '(l1, l2) ← split_at x l; Some (l1 ++ l2, enq)
  end.

Fixpoint send_ops_spec (head : loc) (D : gset loc) (a : list loc * list loc) (ops : list send_queue_op)
    : option (list loc * list loc) :=
  match ops with
  | [] => Some a
  | op :: ops => a ← send_op_spec head D a op; send_ops_spec head D a ops
  end.

Context `{HQ : !QueueSpec Q}.

Record send_inv (head : loc) (D : gset loc) (q : send_queue) (l enq : list loc) : Prop := SendInv {
  si_list : q_repr (sq_store q) head l;
  si_head : sq_list q = head;
  si_dom : dom (sq_store q) = D;
  si_nodup : NoDup enq;
  si_front : ∀ x, hd_error l = Some x → last (sq_submitted q) = Some x;
  si_order : sq_submitted q ++ tail l `sublist_of` enq;
}.

Lemma send_inv_elem head D q l enq x : send_inv head D q l enq → x ∈ l → x ∈ enq.
Proof.
  intros [_ _ _ _ Hf Ho] Hx. eapply sublist_subseteq; [exact Ho|].
  destruct l as [|y l]; [by apply elem_of_nil in Hx|].
  apply elem_of_app. apply elem_of_cons in Hx as [->|]; [|by right]. left.
  by apply elem_of_last, Hf.
Qed.

Lemma stream_enqueue_inv head D q l enq x :
  send_inv head D q l enq → x ∈ D → x ≠ head → x ∉ enq →
  ∃ q', stream_enqueue x q = Some q' ∧ send_inv head D q' (l ++ [x]) (enq ++ [x]).
Proof.
  intros Hinv Hx Hne Hfr. pose proof (send_inv_elem _ _ _ _ _ x Hinv) as Hel.
  destruct Hinv as [Hl Hh Hd Hnd Hf Ho]. unfold stream_enqueue. rewrite Hh.
  destruct (q_push_back_spec (sq_store q) head l x Hl) as (σ & -> & Hl' & Hd' & _);
    [by rewrite Hd|intros [->|]%elem_of_cons; auto|]. simpl.
  assert (Hnd' : NoDup (enq ++ [x])).
  { apply NoDup_app. split_and!; [done| |apply NoDup_singleton].
    by intros y Hy ->%list_elem_of_singleton. }
  destruct l as [|y l].
  - rewrite (q_front_spec σ head x [] Hl'). simpl. rewrite decide_True by done.
    eexists; split; [done|]. split; simpl in *; [done|done|congruence|done| |].
    + intros z [= <-]. by rewrite last_snoc.
    + rewrite app_nil_r in *. by apply sublist_app.
  - rewrite (q_front_spec σ head y (l ++ [x]) Hl'). simpl.
    rewrite decide_False by (intros ->; apply Hfr, Hel; left).
    eexists; split; [done|]. split; simpl in *; [done|done|congruence|done|done|].
    rewrite app_assoc. by apply sublist_app.
Qed.

Lemma stream_complete_inv head D q l1 x l2 enq :
  send_inv head D q (l1 ++ x :: l2) enq →
  ∃ q', stream_complete x q = Some q' ∧ send_inv head D q' (l1 ++ l2) enq.
Proof.
  intros [Hl Hh Hd Hnd Hf Ho]. unfold stream_complete. rewrite Hh.
  pose proof (q_repr_nodup _ _ _ Hl) as Hndl.
  destruct (q_erase_spec (sq_store q) head l1 x l2 Hl) as (σ & Her & Hl' & _ & Hd' & _).
  destruct l1 as [|y l1]; simpl in *.
  - rewrite (q_front_spec _ _ _ _ Hl), Her. simpl. rewrite (q_empty_spec _ _ _ Hl'). simpl.
    rewrite bool_decide_true by done. simpl. destruct l2 as [|z l2]; simpl.
    + eexists; split; [done|]. by split; simpl in *; [|done|congruence|..].
    + rewrite (q_front_spec _ _ _ _ Hl'). simpl. eexists; split; [done|].
      split; simpl in *; [done|done|congruence|done| |].
      * intros ? [= <-]. by rewrite last_snoc.
      * by rewrite <-app_assoc.
  - rewrite (q_front_spec _ _ _ _ Hl), Her. simpl. rewrite (q_empty_spec _ _ _ Hl'). simpl.
    rewrite bool_decide_false.
    2:{ intros ->. apply NoDup_cons in Hndl as [_ Hndl]. apply NoDup_cons in Hndl. set_solver. }
    simpl. eexists; split; [done|]. split; simpl in *; [done|done|congruence|done|done|].
    etrans; [|exact Ho]. apply sublist_app; [done|]. apply sublist_app; [done|].
    by apply sublist_cons.
Qed.

(** C12: At most one send operation of a stream socket is submitted at a time,
    and none is forgotten: whatever is enqueued, completed or withdrawn, the
    first operation of the queue has been submitted - and is the last one that
    was - the others have not; operations are submitted once, in the order in
    which they were enqueued. *)
Theorem send_queue_serial head D q ops l enq :
  q_repr (sq_store q) head [] → sq_list q = head → dom (sq_store q) = D → sq_submitted q = [] →
  send_ops_spec head D ([], []) ops = Some (l, enq) →
  ∃ q', send_ops_run q ops = Some q' ∧ q_repr (sq_store q') head l ∧
    NoDup (sq_submitted q' ++ tail l) ∧ sq_submitted q' ++ tail l `sublist_of` enq ∧
    (∀ x, hd_error l = Some x → last (sq_submitted q') = Some x).
Proof.
  intros Hl Hh Hd Hs Hspec.
  assert (Hinv : send_inv head D q [] []).
  { split; simpl; [done..|constructor|done|by rewrite Hs]. }
  assert (Hgen : ∀ l0 enq0 q, send_inv head D q l0 enq0 →
    send_ops_spec head D (l0, enq0) ops = Some (l, enq) →
    ∃ q', send_ops_run q ops = Some q' ∧ send_inv head D q' l enq).
  { clear. induction ops as [|op ops IH]; simpl; intros l0 enq0 q Hinv Hspec; [simplify_eq; eauto|].
    destruct op as [x|x]; simpl in *.
    - case_decide as Hpre; simpl in Hspec; [|done]. destruct Hpre as (?&?&?).
      destruct (stream_enqueue_inv head D q l0 enq0 x) as (q' & -> & ?); [done..|]. simpl. eauto.
    - destruct (split_at x l0) as [[l1 l2]|] eqn:E; simpl in Hspec; [|done].
      apply split_at_Some in E as ->.
      destruct (stream_complete_inv head D q l1 x l2 enq0) as (q' & -> & ?); [done..|]. simpl. eauto. }
  destruct (Hgen _ _ _ Hinv Hspec) as (q' & Hrun & [? ? ? ? ? Ho]).
  exists q'. split_and!; [done..| |done|done]. by eapply sublist_NoDup.
Qed.
End send_queue.

(** ** Witnesses: a system which counts its calls and can refuse some *)
Local Open Scope Z_scope.

Definition demo_call (fail_at : Z) (value : Z) (w : Z) : Z * Z :=
  (if w =? fail_at then -1 else value, w + 1).

Lemma stream_transfer_spec_witness :
  let s := basic_socket_of_fd (ip_tcp AF_INET) 5 in
  let recv := λ (fd : Z) (v : list iovec) (fl : Z), demo_call 0 7 in
  stream_receive_flags_ec recv (λ w, 100 + w) [IOVec 100 8] 2 s 9 0 = (0, 101, 1) ∧
  stream_receive_flags recv (λ w, 100 + w) [IOVec 100 8] 2 s 0 = (Throw (system_error 101), 1).
Proof.
  refine (proj1 (proj2 (stream_transfer_spec (λ (fd : Z) (v : list iovec) (fl : Z), demo_call 0 7)
    (λ (fd : Z) (v : list iovec) (fl : Z), demo_call 0 7) (λ w, 100 + w)
    [IOVec 100 8] 2 (basic_socket_of_fd (ip_tcp AF_INET) 5) 9 0 _)) _ _); by vm_compute.
Defined.

Lemma socket_open_failure_witness :
  let sock := λ (d t p : Z), demo_call 0 7 in
  acceptor_ctor sock (λ _ w, w) (λ w, 100 + w) (ip_tcp AF_INET) 0 = (Throw (system_error 101), 1) ∧
  basic_socket_ctor sock (λ _ w, w) (ip_tcp AF_INET) 0 =
    (BasicSocket (SocketBase (-1) 0) (Some (ip_tcp AF_INET)), 1) ∧
  basic_socket_is_open (basic_socket_ctor sock (λ _ w, w) (ip_tcp AF_INET) 0).1 = false.
Proof.
  refine (socket_open_failure (λ (d t p : Z), demo_call 0 7) (λ _ w, w) (λ w, 100 + w)
    (ip_tcp AF_INET) 0 _). by vm_compute.
Defined.

Lemma acceptor_ctor_endpoint_spec_witness :
  acceptor_ctor_endpoint (λ (d t p : Z), demo_call 9 7) (λ _ w, w + 1000) (λ (fd : Z) (a : sockaddr_storage) (n : Z), demo_call 2 0)
    (λ fd n : Z, demo_call 9 0) (λ fd l n d : Z, demo_call 9 0) (λ w, 100 + w) bswap16 (λ n, replicate n 0)
    1 2 128 (ip_tcp AF_INET) (Endpoint tcp_v4 (AddrV4 v4_loopback) 80) true 0
  = (Throw (system_error 103), 1003).
Proof.
  refine (proj1 (proj2 (acceptor_ctor_endpoint_spec (λ (d t p : Z), demo_call 9 7) (λ _ w, w + 1000)
    (λ (fd : Z) (a : sockaddr_storage) (n : Z), demo_call 2 0) (λ fd n : Z, demo_call 9 0)
    (λ fd l n d : Z, demo_call 9 0) (λ w, 100 + w) bswap16 (λ n, replicate n 0) 1 2 128
    (ip_tcp AF_INET) (Endpoint tcp_v4 (AddrV4 v4_loopback) 80) true 0 _)) _); by vm_compute.
Defined.

(** Three operations; the second is withdrawn, then the first completes. *)
Lemma send_queue_serial_witness :
  ∃ q', send_ops_run intrusive_list_ops (SendQueue demo_store 1%nat [])
      [SendEnqueue 11%nat; SendEnqueue 12%nat; SendEnqueue 13%nat; SendComplete 12%nat; SendComplete 11%nat]
      = Some q' ∧
    q_repr (sq_store q') 1%nat [13%nat] ∧
    NoDup (sq_submitted q' ++ tail [13%nat]) ∧
    sq_submitted q' ++ tail [13%nat] `sublist_of` [11%nat; 12%nat; 13%nat] ∧
    (∀ x, hd_error [13%nat] = Some x → last (sq_submitted q') = Some x).
Proof.
  apply (send_queue_serial intrusive_list_ops 1%nat (dom demo_store) (SendQueue demo_store 1%nat [])
    [SendEnqueue 11%nat; SendEnqueue 12%nat; SendEnqueue 13%nat; SendComplete 12%nat; SendComplete 11%nat]
    [13%nat] [11%nat; 12%nat; 13%nat]); [apply demo_is_list|done|done|done|by vm_compute].
Defined.
