(* ===== verification/IoContext.v ===== *)
(** * nstd::net::io_context, scope and timers

    src/src/nstd/net/io_context.{hpp,cpp}: the context programs use, which
    passes everything on to a file::context; src/src/nstd/net/scope.{hpp,cpp}:
    jobs which own themselves; src/src/nstd/execution/run.hpp; and
    src/src/nstd/timer: waitable timers and [async_wait]. They are put together
    with the contexts modelled in TestContext and PollContext. *)
From S2P Require Import Prelude FileContext TestContext PollContext.
Local Open Scope Z_scope.

(** ** io_context *)
(** Which context is owned ([d_manager]) and used ([d_context]); [None] is a
    null pointer. *)
Record io_context := IoContext { ioc_manager : option nat; ioc_context : option nat }.

(** The pointer must not be null; a failed assertion ends the program. *)
Definition io_context_of_pointer (c : option nat) : option io_context :=
  match c with Some c => Some (IoContext None (Some c)) | None => None end.
Definition io_context_of_reference (c : nat) : option io_context := io_context_of_pointer (Some c).
Definition io_context_of_unique (c : option nat) : io_context := IoContext c c.
(** [fresh] is the ring or poll context created. *)
Definition io_context_of_queue_size (fresh : nat) : io_context := IoContext (Some fresh) (Some fresh).
Definition io_context_default (fresh : nat) : option io_context :=
  let c := io_context_of_queue_size fresh in
  if bool_decide (is_Some (ioc_context c)) then Some c else None.
Definition hidden_context (c : io_context) : option nat := ioc_context c.

(** Schedulers are equal when their contexts are. *)
Record io_scheduler := IoScheduler { ios_context : nat }.
Definition io_context_scheduler (self : nat) : io_scheduler := IoScheduler self.
Definition io_scheduler_context (s : io_scheduler) : nat := ios_context s.
Definition io_scheduler_eqb (a b : io_scheduler) : bool := bool_decide (ios_context a = ios_context b).

(** [schedule]: the sender and the operation state. *)
Record io_sender := IoSender { iosnd_scheduler : io_scheduler }.
Record io_state := IoState { iost_receiver : nat; iost_scheduler : io_scheduler }.
Definition io_schedule (s : io_scheduler) : io_sender := IoSender s.
Definition io_sender_completion_scheduler (s : io_sender) : io_scheduler := iosnd_scheduler s.
Definition io_sender_connect (s : io_sender) (r : nat) : io_state := IoState r (iosnd_scheduler s).

Section io_context.
Context {S : Type} `{!FileContext S}.

(** The member functions of the scheduler hand the request to the context;
    there is none to open files or to start timers. *)
Definition io_scheduler_cancel (to_cancel cont : io_base) (s : S) : outcome S := context_cancel to_cancel cont s.
Definition io_scheduler_nop (cont : io_base) (s : S) : outcome S := context_nop cont s.
Definition io_scheduler_accept (fd addr len flags : Z) (cont : io_base) (s : S) : outcome S :=
  context_accept fd addr len flags cont s.
Definition io_scheduler_connect (fd addr len : Z) (cont : io_base) (s : S) : outcome S :=
  context_connect fd addr len cont s.
Definition io_scheduler_recvmsg (fd msg flags : Z) (cont : io_base) (s : S) : outcome S :=
  context_recvmsg fd msg flags cont s.
Definition io_scheduler_read (fd vec length : Z) (cont : io_base) (s : S) : outcome S :=
  context_read fd vec length cont s.
Definition io_scheduler_write (fd vec length : Z) (cont : io_base) (s : S) : outcome S :=
  context_write fd vec length cont s.
Definition io_scheduler_sendmsg (fd msg flags : Z) (cont : io_base) (s : S) : outcome S :=
  context_sendmsg fd msg flags cont s.

(** Starting a scheduled operation, which is its own continuation. *)
Definition io_state_start (self : io_base) (s : S) : outcome S := io_scheduler_nop self s.

Definition io_context_run_one (s : S) : outcome (Z * S) := context_run_one s.

Fixpoint io_context_run_loop (fuel : nat) (count : Z) (s : S) : outcome (Z * S) :=
  match fuel with
  | O => NoFuel
  | Datatypes.S fuel =>
      '(n, s) ← context_run_one s;
      if n =? 1 then io_context_run_loop fuel (wrapu 64 (count + 1)) s else Ret (count, s)
  end.
Definition io_context_run (fuel : nat) (s : S) : outcome (Z * S) := io_context_run_loop fuel 0 s.

(** ** execution::run: the flag [done] is part of the world *)
Definition run_receiver_complete (set_done : S → S) (s : S) : S := set_done s.

Fixpoint execution_run_loop (done : S → bool) (fuel : nat) (s : S) : outcome S :=
  match fuel with
  | O => NoFuel
  | Datatypes.S fuel =>
      if done s then Ret s
      else '(n, s) ← context_run_one s;
           if n =? 1 then execution_run_loop done fuel s else Ret s
  end.
Definition execution_run (start : S → outcome S) (done : S → bool) (fuel : nat) (s : S) : outcome S :=
  s ← start s; execution_run_loop done fuel s.

(** [execution::run] returns only when the operation is done or the context
    has run out of work - and then, with the operation still under way, its
    state is destroyed on return. *)
Theorem execution_run_spec start done fuel s s' :
  execution_run start done fuel s = Ret s' →
  done s' = true ∨ ∃ s0 n, context_run_one s0 = Ret (n, s') ∧ n ≠ 1 ∧ done s0 = false.
Proof.
  unfold execution_run. intros H. bind_inv H. clear E. rename a into s1. revert s1 H.
  induction fuel as [|fuel IH]; intros s1 H; [done|]. cbn in H.
  destruct (done s1) eqn:Hd; [simplify_eq; by left|].
  apply outcome_bind_Ret_inv in H as ([n s2] & Hr & H).
  destruct (Z.eqb_spec n 1); [by apply (IH s2)|]. simplify_eq. right. by exists s1, n.
Qed.
End io_context.

(** ** net::scope *)
Inductive scope_message :=
  | MsgErrorCode (code : Z)
  | MsgSystemError (code : Z)
  | MsgException (what : nat)
  | MsgStopped.

(** Exceptions: a [std::system_error], another [std::exception], anything else. *)
Inductive exception_ptr := ExSystem (code : Z) | ExStd (what : nat) | ExOther.

(** The jobs allocated, those deleted so far, and what was printed. *)
Record scope_env := ScopeEnv {
  se_jobs : gset io_base;
  se_deleted : list io_base;
  se_output : list scope_message;
  se_stopped : bool;
}.
Definition scope_env_empty : scope_env := ScopeEnv ∅ [] [] false.

Definition scope_new_job (job : io_base) (e : scope_env) : scope_env :=
  ScopeEnv ({[job]} ∪ se_jobs e) (se_deleted e) (se_output e) (se_stopped e).
(** Deleting a job which does not exist is undefined. *)
Definition scope_delete_job (job : io_base) (e : scope_env) : outcome scope_env :=
  if decide (job ∈ se_jobs e) then
    Ret (ScopeEnv (se_jobs e ∖ {[job]}) (se_deleted e ++ [job]) (se_output e) (se_stopped e))
  else UB.
Definition scope_print (m : scope_message) (e : scope_env) : scope_env :=
  ScopeEnv (se_jobs e) (se_deleted e) (se_output e ++ [m]) (se_stopped e).

Definition scope_handle_error_code (code : Z) (e : scope_env) : scope_env := scope_print (MsgErrorCode code) e.
(** Rethrows: an exception of another type leaves the function, which was
    called from a noexcept function. *)
Definition scope_handle_exception (ex : exception_ptr) (e : scope_env) : outcome scope_env :=
  match ex with
  | ExSystem code => Ret (scope_print (MsgSystemError code) e)
  | ExStd what => Ret (scope_print (MsgException what) e)
  | ExOther => UB
  end.
Definition scope_handle_stopped (e : scope_env) : scope_env := scope_print MsgStopped e.

Inductive job_signal := JobValue | JobErrorCode (code : Z) | JobException (ex : exception_ptr) | JobStopped.

(** The receiver's completion functions. *)
Definition scope_receive (job : io_base) (sig : job_signal) (e : scope_env) : outcome scope_env :=
  match sig with
  | JobValue => scope_delete_job job e
  | JobErrorCode code => scope_delete_job job (scope_handle_error_code code e)
  | JobException ex => e ← scope_handle_exception ex e; scope_delete_job job e
  | JobStopped => scope_delete_job job (scope_handle_stopped e)
  end.

(** [stop]: [stop_source] is what stopping the source does to the world. *)
Definition scope_stop {W} (stop_source : W → W) (s : W * scope_env) : W * scope_env :=
  (stop_source s.1, ScopeEnv (se_jobs s.2) (se_deleted s.2) (se_output s.2) true).

(** However a job completes it is deleted, exactly once; only an exception
    which is no [std::exception] terminates the program. *)
Theorem scope_job_deleted job sig e :
  job ∈ se_jobs e →
  (sig = JobException ExOther ∧ scope_receive job sig e = UB) ∨
  ∃ e', scope_receive job sig e = Ret e' ∧ se_jobs e' = se_jobs e ∖ {[job]} ∧
    se_deleted e' = se_deleted e ++ [job] ∧ scope_receive job JobValue e' = UB.
Proof.
  intros Hj.
  assert (Hdel : ∀ e0, se_jobs e0 = se_jobs e → se_deleted e0 = se_deleted e →
    ∃ e', scope_delete_job job e0 = Ret e' ∧ se_jobs e' = se_jobs e ∖ {[job]} ∧
      se_deleted e' = se_deleted e ++ [job] ∧ scope_receive job JobValue e' = UB).
  { intros e0 H1 H2. unfold scope_delete_job. rewrite decide_True by (by rewrite H1).
    eexists; split; [done|]. simpl. rewrite H1, H2. split_and!; [done..|].
    unfold scope_receive, scope_delete_job. simpl. rewrite decide_False; [done|].
    by intros [_ []%not_elem_of_singleton]%elem_of_difference. }
  destruct sig as [|code|[code|what|]|]; [right..| |right]; simpl; try (apply Hdel; done). by left.
Qed.

Section scope.
(** Handlers of the test context installed by the user. *)
Context (user : nat → request → test_context * scope_env → outcome (test_context * scope_env)).

(** The operation state inside of job [cont] is the nop operation of
    [schedule]: its result completes the scope's receiver. *)
Definition scope_io_result (cont : io_base) (rc flags : Z) (s : test_context * scope_env)
    : outcome (test_context * scope_env) :=
  e ← scope_receive cont JobValue s.2; Ret (s.1, e).

(** [scope.start(schedule(scope.scheduler()))], the new job being at [job]. *)
Definition scope_start_schedule (job : io_base) (s : test_context * scope_env)
    : outcome (test_context * scope_env) :=
  io_state_start (FileContext0 := test_file_context user scope_io_result) job (s.1, scope_new_job job s.2).

Fixpoint scope_start_all (jobs : list io_base) (s : test_context * scope_env)
    : outcome (test_context * scope_env) :=
  match jobs with [] => Ret s | job :: jobs => s ← scope_start_schedule job s; scope_start_all jobs s end.

Definition scope_run_one (s : test_context * scope_env) : outcome (Z * (test_context * scope_env)) :=
  io_context_run_one (FileContext0 := test_file_context user scope_io_result) s.
Definition scope_run (fuel : nat) (s : test_context * scope_env) : outcome (Z * (test_context * scope_env)) :=
  io_context_run (FileContext0 := test_file_context user scope_io_result) fuel s.

Lemma scope_start_all_spec jobs c e :
  tc_default (c, e) →
  ∃ c', scope_start_all jobs (c, e) = Ret (c', ScopeEnv (list_to_set jobs ∪ se_jobs e) (se_deleted e) (se_output e) (se_stopped e)) ∧
    tc_default (c', e) ∧ tc_queue (c', e) = tc_queue (c, e) ++ ((λ j, (-1, 0, j)) <$> jobs).
Proof.
  revert c e. induction jobs as [|j jobs IH]; intros c e Hd.
  { exists c. rewrite app_nil_r, list_to_set_nil, union_empty_l_L. by destruct e. }
  cbn [scope_start_all]. unfold scope_start_schedule, io_state_start, io_scheduler_nop.
  change (context_nop (FileContext0 := test_file_context user scope_io_result) j)
    with (context_call (FileContext0 := test_file_context user scope_io_result) (RNop j)).
  rewrite (tc_call_default user scope_io_result (RNop j)) by done. cbn [mbind outcome_bind fst snd request_cont].
  destruct (IH (make_ready (-1) 0 j c) (scope_new_job j e)) as (c' & Hs & Hd' & Hq).
  { unfold tc_default in *. cbn in *. by rewrite Hd. }
  exists c'. split; [|split; [done|]].
  - cbn in Hs |- *. rewrite Hs. do 2 f_equal. unfold scope_new_job. cbn. f_equal. set_solver.
  - change (tc_queue (c', e)) with (tc_queue (c', scope_new_job j e)). rewrite Hq.
    unfold tc_queue, make_ready. simpl. by rewrite reverse_cons, <-(assoc_L (++)).
Qed.

Lemma scope_run_loop_spec q c e count fuel :
  tc_queue (c, e) = (λ j, (-1, 0, j)) <$> q → NoDup q → list_to_set q ⊆ se_jobs e →
  (length q < fuel)%nat → 0 ≤ count → count + Z.of_nat (length q) < 2 ^ 64 →
  ∃ c', io_context_run_loop (FileContext0 := test_file_context user scope_io_result) fuel count (c, e) =
    Ret (count + Z.of_nat (length q),
         (c', ScopeEnv (se_jobs e ∖ list_to_set q) (se_deleted e ++ q) (se_output e) (se_stopped e))) ∧
    tc_queue (c', e) = [].
Proof.
  revert c e count fuel. induction q as [|j q IH]; intros c e count fuel Hq Hnd Hsub Hf Hc0 Hc.
  - destruct fuel as [|fuel]; [simpl in Hf; lia|]. cbn. unfold context_run_one. cbn.
    unfold tc_do_run_one. cbn. unfold tc_queue in Hq. cbn in Hq.
    assert (d_ready c = []) as -> by (by rewrite <-(reverse_involutive (d_ready c)), Hq). cbn.
    exists c. split; [|done]. rewrite Z.add_0_r, app_nil_r, difference_empty_L. by destruct e.
  - destruct fuel as [|fuel]; [lia|]. cbn [length] in *. cbn [io_context_run_loop].
    unfold context_run_one. cbn [do_run_one test_file_context].
    rewrite fmap_cons in Hq. rewrite (tc_run_one_queue _ _ _ _ _ _ _ Hq).
    apply NoDup_cons in Hnd as [Hj Hnd].
    set (c1 := tc_set_ready (reverse ((λ j, (-1, 0, j)) <$> q)) c).
    set (e1 := ScopeEnv (se_jobs e ∖ {[j]}) (se_deleted e ++ [j]) (se_output e) (se_stopped e)).
    assert (Hdel : scope_io_result j (-1) 0 (c1, e) = Ret (c1, e1)).
    { unfold scope_io_result, scope_receive, scope_delete_job. cbn [fst snd].
      by rewrite decide_True by set_solver. }
    rewrite Hdel. cbn [mbind outcome_bind]. change (1 =? 1) with true. cbv beta iota.
    destruct (IH c1 e1 (wrapu 64 (count + 1)) fuel) as (c' & Hrun & Hq').
    { unfold tc_queue. simpl. by rewrite reverse_involutive. }
    { done. }
    { cbn. set_solver. }
    { lia. }
    { by apply wrapu_range. }
    { rewrite wrapu_small by (unfold is_uint; lia). lia. }
    exists c'. rewrite Hrun. split; [|done]. rewrite wrapu_small by (unfold is_uint; lia). cbn.
    rewrite <-(assoc_L (++)). do 2 f_equal; [lia|]. f_equal. f_equal. set_solver.
Qed.

(** Jobs started in a scope with work scheduled on its context are all run
    by [scope::run], in the order in which they were started; it returns their
    number, and then every job was deleted, exactly once, and nothing leaked. *)
Theorem scope_run_all jobs fuel :
  NoDup jobs → (length jobs < fuel)%nat → Z.of_nat (length jobs) < 2 ^ 64 →
  ∃ s s', scope_start_all jobs (test_context_ctor, scope_env_empty) = Ret s ∧
    scope_run fuel s = Ret (Z.of_nat (length jobs), s') ∧
    se_deleted s'.2 = jobs ∧ se_jobs s'.2 = ∅.
Proof.
  intros Hnd Hf Hl.
  destruct (scope_start_all_spec jobs test_context_ctor scope_env_empty eq_refl)
    as (c & Hs & Hd & Hq). cbn in Hq.
  set (e := ScopeEnv (list_to_set jobs ∪ ∅) [] [] false) in *.
  destruct (scope_run_loop_spec jobs c e 0 fuel) as (c' & Hrun & _);
    [by unfold tc_queue in *|done|cbn; set_solver|done|lia|lia|].
  eexists (c, e), _. split; [exact Hs|]. split; [exact Hrun|]. cbn. split; [done|set_solver].
Qed.
End scope.

(** ** Timers: time points in nanoseconds *)
Record waitable_timer := WaitableTimer { wt_scheduler : io_scheduler; wt_time_point : Z }.
Definition waitable_timer_at (context : nat) (t : Z) : waitable_timer :=
  WaitableTimer (io_context_scheduler context) t.
Definition waitable_timer_ctor (context : nat) : waitable_timer := waitable_timer_at context 0.
Definition waitable_timer_after (context : nat) (now d : Z) : waitable_timer :=
  waitable_timer_at context (now + d).
Definition waitable_timer_get_scheduler (t : waitable_timer) : io_scheduler := wt_scheduler t.
Definition waitable_timer_expiry (t : waitable_timer) : Z := wt_time_point t.

(** Signed 64-bit arithmetic overflows with undefined behaviour. *)
Definition to_wait_duration (t now : Z) : option Z :=
  let d := t - now in if decide (- 2 ^ 63 ≤ d < 2 ^ 63) then Some d else None.

(** [async_wait]: the sender's members, and the operation state's start, which
    divides with truncation; the seconds are unsigned. *)
Definition async_wait (t : waitable_timer) : nat * Z :=
  (io_scheduler_context (waitable_timer_get_scheduler t), waitable_timer_expiry t).
Definition async_wait_time_spec (t now : Z) : option (Z * Z) :=
  nsec ← to_wait_duration t now;
  Some (wrapu 64 (nsec `quot` 1000000000), nsec `rem` 1000000000).
(** The request, [d_time] being at the given address. *)
Definition async_wait_start (d_time self : Z) : request := RTimer d_time self.
(** The result is ignored: the error code sent is always 0. *)
Definition async_wait_do_result (result flags : Z) : Z := 0.

Lemma time_spec_offset d :
  wrapu 64 (wrapu 64 (d `quot` 1000000000) * 1000000000 + d `rem` 1000000000) = wrapu 64 d.
Proof.
  unfold wrapu. rewrite <-Zplus_mod_idemp_l, Zmult_mod_idemp_l, Zplus_mod_idemp_l.
  f_equal. rewrite (Z.quot_rem' d 1000000000) at 3. lia.
Qed.

Lemma wraps_add_wrapu a b : wraps 64 (a + wrapu 64 b) = wraps 64 (a + b).
Proof. unfold wraps, wrapu. by rewrite Zplus_mod_idemp_r. Qed.

Lemma wraps_small z : - 2 ^ 63 ≤ z < 2 ^ 63 → wraps 64 z = z.
Proof.
  intros Hz. unfold wraps, wrapu. change (64 - 1) with 63.
  destruct (decide (0 ≤ z)).
  - rewrite Z.mod_small by lia. by rewrite decide_True by lia.
  - replace (z `mod` 2 ^ 64) with (z + 2 ^ 64).
    + rewrite decide_False by lia. lia.
    + rewrite <-(Z.mod_small (z + 2 ^ 64) (2 ^ 64)) by lia.
      by rewrite <-Zplus_mod_idemp_r, Z_mod_same_full, Z.add_0_r.
Qed.

(** Waiting for a time point on a poll context queues a timer which expires
    at that time point, plus the time which passed between the two readings of
    the clock - also for time points in the past, where the seconds wrap around
    and the nanoseconds are negative. Only future time points give a valid time
    specification, and every result - an error or a cancellation too - is sent
    as success. *)
Theorem async_wait_expiry {OS} (sys : syscalls (OS := OS)) (s : poll_context OS) t now cont :
  - 2 ^ 63 ≤ t - now < 2 ^ 63 →
  let '(now', os) := PollContext.sys_now sys (pc_os s) in
  - 2 ^ 63 ≤ t + (now' - now) < 2 ^ 63 →
  ∃ sec nsec, async_wait_time_spec t now = Some (sec, nsec) ∧
    pc_do_timer sys sec nsec cont s =
      set_timers (timer_push (TimerEvent (t + (now' - now)) cont) (d_timers s)) (set_os os s) ∧
    (now ≤ t → sec * 1000000000 + nsec = t - now ∧ 0 ≤ nsec < 1000000000) ∧
    (t < now → -1000000000 < nsec ≤ 0) ∧
    ∀ result flags, async_wait_do_result result flags = 0.
Proof.
  intros Hd. destruct (PollContext.sys_now sys (pc_os s)) as [now' os] eqn:Hnow. intros He.
  unfold async_wait_time_spec, to_wait_duration. rewrite decide_True by done. simpl.
  eexists _, _. split; [done|].
  pose proof (Z.quot_rem' (t - now) 1000000000) as Hqr. split_and!.
  - unfold pc_do_timer. rewrite Hnow, time_spec_offset, wraps_add_wrapu.
    do 4 f_equal. rewrite wraps_small by lia. lia.
  - intros Hle. pose proof (Z.rem_bound_pos (t - now) 1000000000 ltac:(lia) ltac:(lia)).
    assert (0 ≤ (t - now) `quot` 1000000000) by (apply Z.quot_pos; lia).
    rewrite wrapu_small by (unfold is_uint; nia). lia.
  - intros Hlt. pose proof (Z.rem_bound_pos_neg (t - now) 1000000000 ltac:(lia) ltac:(lia)). lia.
  - done.
Qed.

(** ** Witnesses *)
Lemma execution_run_spec_witness :
  let C := test_file_context (λ _ _ _, UB) log_result in
  execution_run (FileContext0 := C) (λ s, Ret s) (λ _, false) 1 (test_context_ctor, []) = Ret (test_context_ctor, []) ∧
  (false = true ∨ ∃ s0 n, context_run_one (FileContext0 := C) s0 = Ret (n, (test_context_ctor, [])) ∧
     n ≠ 1 ∧ false = false).
Proof.
  split; [done|].
  by apply (execution_run_spec (FileContext0 := test_file_context (λ _ _ _, UB) log_result)
    (λ s, Ret s) (λ _, false) 1 (test_context_ctor, []) (test_context_ctor, [])).
Defined.

Lemma scope_job_deleted_witness :
  let e := ScopeEnv {[40]} [] [] false in
  (JobStopped = JobException ExOther ∧ scope_receive 40 JobStopped e = UB) ∨
  ∃ e', scope_receive 40 JobStopped e = Ret e' ∧ se_jobs e' = se_jobs e ∖ {[40]} ∧
    se_deleted e' = [40] ∧ scope_receive 40 JobValue e' = UB.
Proof. apply (scope_job_deleted 40 JobStopped (ScopeEnv {[40]} [] [] false)). set_solver. Defined.

Lemma scope_run_all_witness :
  ∃ s s', scope_start_all (λ _ _ _, UB) [40; 50; 60] (test_context_ctor, scope_env_empty) = Ret s ∧
    scope_run (λ _ _ _, UB) 4 s = Ret (3, s') ∧ se_deleted s'.2 = [40; 50; 60] ∧ se_jobs s'.2 = ∅.
Proof.
  apply (scope_run_all (λ _ _ _, UB) [40; 50; 60] 4);
    [by apply (bool_decide_unpack _)|simpl; lia|by vm_compute].
Defined.

Definition demo_clock : syscalls (OS := Z) :=
  Syscalls (λ os, (0, 0, (3, 4), os)) (λ _ os, os) (λ _ os, os) (λ os, (os, os + 1)) (λ _ os, os) (λ _ os, os)
    (λ l _ os, (0, 0, l, os)) (λ _ _ _ os, (0, 0, os)) (λ _ _ _ os, (0, 0, os)) (λ _ os, (0, 0, os))
    (λ _ _ _ os, (0, 0, os)) (λ _ _ _ os, (0, 0, os)) (λ _ _ _ os, (0, 0, os)) (λ _ _ _ os, (0, 0, os))
    (λ _ _ _ os, (0, 0, os)).

Lemma async_wait_expiry_witness :
  let s := PollContext.PollContext Z [] None [] [] (3, 4) 0%nat 7000000500 in
  ∃ sec nsec, async_wait_time_spec 5000000000 7000000300 = Some (sec, nsec) ∧
    pc_do_timer demo_clock sec nsec 9 s =
      set_timers (timer_push (TimerEvent (5000000000 + (7000000500 - 7000000300)) 9) []) (set_os 7000000501 s) ∧
    (7000000300 ≤ 5000000000 → sec * 1000000000 + nsec = 5000000000 - 7000000300 ∧ 0 ≤ nsec < 1000000000) ∧
    (5000000000 < 7000000300 → -1000000000 < nsec ≤ 0) ∧
    ∀ result flags, async_wait_do_result result flags = 0.
Proof.
  apply (async_wait_expiry demo_clock (PollContext.PollContext Z [] None [] [] (3, 4) 0%nat 7000000500)
    5000000000 7000000300 9); by vm_compute.
Defined.
