(* ===== verification/ExecutionContext.v ===== *)
(** * nstd::net::execution_context

    The registry of services of src/src/nstd/executor/execution_context.{hpp,
    cpp}: a vector of pointers indexed by the key of a service's type. Keys are
    handed out by a counter shared by all contexts, in the order in which the
    types are first used anywhere in the program. A member function of a null
    pointer is undefined behaviour. The operations are compared with a finite
    map from keys to services. *)
From S2P Require Import Prelude.

(** ** Data *)
Inductive fork_event := ForkPrepare | ForkParent | ForkChild.

#[export] Instance fork_event_eq_dec : EqDecision fork_event.
Proof. solve_decision. Defined.

(** What is done to a service, by the identity of the object. *)
Inductive service_event :=
  | SvcShutdown (s : nat)
  | SvcFork (s : nat) (ev : fork_event)
  | SvcDelete (s : nat).

(** The static variables of [get_key], by key type, and the counter. *)
Record service_keys := ServiceKeys { sk_next : nat; sk_keys : gmap nat nat }.

Record execution_context := ExecutionContext {
  ec_running : bool;
  ec_services : list (option nat);
}.

Definition execution_context_ctor : execution_context := ExecutionContext true [].

(** ** Operations *)
Definition next_key (k : service_keys) : nat * service_keys :=
  (sk_next k, ServiceKeys (S (sk_next k)) (sk_keys k)).

(** The static variable is initialised by the first call. *)
Definition get_key (type : nat) (k : service_keys) : nat * service_keys :=
  match sk_keys k !! type with
  | Some i => (i, k)
  | None => let '(i, k) := next_key k in (i, ServiceKeys (sk_next k) (<[type := i]> (sk_keys k)))
  end.

Definition intern_has_service (index : nat) (c : execution_context) : bool :=
  match ec_services c !! index with Some (Some _) => true | _ => false end.

(** The vector grows before the service is constructed; [inr] is the exception
    its constructor throws. *)
Definition intern_make_service (index : nat) (service : nat + exn) (c : execution_context)
    : execution_context * result nat :=
  let l := ec_services c in
  let l := if decide (length l ≤ index) then resize (index + 1) None l else l in
  match service with
  | inl s => (ExecutionContext (ec_running c) (<[index := Some s]> l), Ok s)
  | inr e => (ExecutionContext (ec_running c) l, Throw e)
  end.

Definition has_service (type : nat) (k : service_keys) (c : execution_context) : bool * service_keys :=
  let '(index, k) := get_key type k in (intern_has_service index c, k).

(** [service_already_exists] is a [logic_error]. *)
Definition make_service (type : nat) (service : nat + exn) (k : service_keys) (c : execution_context)
    : service_keys * (execution_context * result nat) :=
  let '(index, k) := get_key type k in
  (k, if intern_has_service index c then (c, Throw logic_error)
      else intern_make_service index service c).

Definition use_service (type : nat) (service : nat + exn) (k : service_keys) (c : execution_context)
    : service_keys * (execution_context * result nat) :=
  let '(index, k) := get_key type k in
  (k, match ec_services c !! index with
      | Some (Some s) => (c, Ok s)
      | _ => intern_make_service index service c
      end).

(** Calling [f] for the services in order; a null pointer is undefined. *)
Fixpoint services_for_each (f : nat → service_event) (l : list (option nat)) : option (list service_event) :=
  match l with
  | [] => Some []
  | None :: _ => None
  | Some s :: l => (f s ::.) <$> services_for_each f l
  end.

Definition notify_fork (ev : fork_event) (c : execution_context) : option (list service_event) :=
  if decide (ev = ForkPrepare) then services_for_each (λ s, SvcFork s ev) (ec_services c)
  else services_for_each (λ s, SvcFork s ev) (reverse (ec_services c)).

Definition ec_shutdown (c : execution_context) : option (execution_context * list service_event) :=
  if ec_running c then
    evs ← services_for_each SvcShutdown (reverse (ec_services c));
    Some (ExecutionContext false (ec_services c), evs)
  else Some (c, []).

(** Deleting a null pointer does nothing. *)
Definition ec_destroy (c : execution_context) : execution_context * list service_event :=
  (ExecutionContext (ec_running c) [], SvcDelete <$> omap id (reverse (ec_services c))).

Definition execution_context_dtor (c : execution_context) : option (list service_event) :=
  '(c, evs) ← ec_shutdown c;
  Some (evs ++ (ec_destroy c).2).

(** ** The registry as a map *)
Definition ec_map (c : execution_context) (index : nat) : option nat := ec_services c !! index ≫= id.

Lemma intern_has_service_spec index c :
  intern_has_service index c = bool_decide (is_Some (ec_map c index)).
Proof.
  unfold intern_has_service, ec_map. by destruct (ec_services c !! index) as [[s|]|].
Qed.

Lemma lookup_grow (l : list (option nat)) index i :
  (if decide (length l ≤ index) then resize (index + 1) None l else l) !! i ≫= id = l !! i ≫= id.
Proof.
  destruct (decide (length l ≤ index)); [|done]. destruct (decide (i < length l)).
  - by rewrite lookup_resize by lia.
  - rewrite (lookup_ge_None_2 l i) by lia. simpl.
    destruct (decide (i < index + 1)).
    + by rewrite lookup_resize_new by lia.
    + by rewrite lookup_resize_old by lia.
Qed.

Lemma length_grow (l : list (option nat)) index :
  index < length (if decide (length l ≤ index) then resize (index + 1) None l else l).
Proof. case_decide; [rewrite length_resize|]; lia. Qed.

Lemma intern_make_service_map index service c :
  let '(c', r) := intern_make_service index service c in
  match service with
  | inl s => r = Ok s ∧ ∀ i, ec_map c' i = if decide (i = index) then Some s else ec_map c i
  | inr e => r = Throw e ∧ ∀ i, ec_map c' i = ec_map c i
  end.
Proof.
  unfold intern_make_service, ec_map. destruct service as [s|e]; simpl.
  - split; [done|]. intros i. destruct (decide (i = index)) as [->|Hi].
    + by rewrite list_lookup_insert_eq by apply length_grow.
    + rewrite list_lookup_insert_ne by done. apply lookup_grow.
  - split; [done|]. intros i. apply lookup_grow.
Qed.

Lemma get_key_stable type k i k' :
  get_key type k = (i, k') → get_key type k' = (i, k') ∧
    ∀ type', is_Some (sk_keys k !! type') → (get_key type' k').1 = (get_key type' k).1.
Proof.
  unfold get_key. destruct (sk_keys k !! type) as [j|] eqn:E; simpl; intros [= <- <-].
  - by rewrite E.
  - simpl. rewrite lookup_insert_eq. split; [done|]. intros type' [j Hj].
    rewrite Hj, lookup_insert_ne by congruence. by rewrite Hj.
Qed.

(** The registry is a map from the services' types to services:
    [make_service] refuses a second service of a type and otherwise adds
    exactly the new one, [use_service] returns the one there is and creates it
    if needed, [has_service] tells whether there is one, and when a service's
    constructor throws the registry is as it was. *)
Theorem services_are_a_map type service k c :
  let '(index, k') := get_key type k in
  has_service type k c = (bool_decide (is_Some (ec_map c index)), k') ∧
  (∀ s, ec_map c index = Some s →
     make_service type service k c = (k', (c, Throw logic_error)) ∧
     use_service type service k c = (k', (c, Ok s))) ∧
  (ec_map c index = None →
     ∃ c', make_service type service k c =
             (k', (c', match service with inl s => Ok s | inr e => Throw e end)) ∧
       use_service type service k c = make_service type service k c ∧
       ∀ i, ec_map c' i = match service with
                          | inl s => if decide (i = index) then Some s else ec_map c i
                          | inr _ => ec_map c i
                          end).
Proof.
  unfold has_service, make_service, use_service. destruct (get_key type k) as [index k'].
  rewrite intern_has_service_spec. split_and!; [done| |].
  - intros s Hs. rewrite bool_decide_true by (by eexists). split; [done|].
    unfold ec_map in Hs. destruct (ec_services c !! index) as [[]|]; by simplify_eq/=.
  - intros Hn. rewrite bool_decide_false by (by rewrite Hn; intros [? [=]]).
    pose proof (intern_make_service_map index service c) as Hm.
    destruct (intern_make_service index service c) as [c' r] eqn:E. exists c'.
    split_and!.
    + destruct service; by destruct Hm as [-> _].
    + f_equal. unfold ec_map in Hn. destruct (ec_services c !! index) as [[]|]; by simplify_eq/=.
    + by destruct service; destruct Hm as [_ ?].
Qed.

Lemma services_for_each_spec f l :
  services_for_each f l = if decide (None ∈ l) then None else Some (f <$> omap id l).
Proof.
  induction l as [|[s|] l IH]; cbn [services_for_each].
  - by rewrite decide_False by apply not_elem_of_nil.
  - rewrite IH. destruct (decide (None ∈ l)) as [H|H].
    + by rewrite decide_True by (by right).
    + rewrite decide_False; [done|]. by intros [[=]|]%elem_of_cons.
  - by rewrite decide_True by (by left).
Qed.

(** Destroying a context which is still running shuts every service down and
    then deletes every service, each once and in the reverse order of their
    keys - provided that the registry has no empty slot; a slot left empty makes
    the destructor call [shutdown] on a null pointer. *)
Theorem execution_context_dtor_spec c :
  ec_running c = true →
  (None ∉ ec_services c →
   execution_context_dtor c =
     Some ((SvcShutdown <$> reverse (omap id (ec_services c))) ++
           (SvcDelete <$> reverse (omap id (ec_services c))))) ∧
  (None ∈ ec_services c → execution_context_dtor c = None ∧ notify_fork ForkChild c = None).
Proof.
  intros Hr. unfold execution_context_dtor, ec_shutdown, notify_fork. rewrite Hr.
  assert (Ho : ∀ l : list (option nat), omap id (reverse l) = reverse (omap id l)).
  { induction l as [|x l IH]; [done|]. rewrite reverse_cons, omap_app, IH.
    destruct x; simpl; [by rewrite reverse_cons|by rewrite app_nil_r]. }
  rewrite !services_for_each_spec. split; intros Hn.
  - rewrite decide_False by (by rewrite elem_of_reverse). simpl. by rewrite !Ho.
  - apply elem_of_reverse in Hn. split; [by rewrite (decide_True _ _ Hn)|].
    rewrite decide_False by done. by rewrite (decide_True _ _ Hn).
Qed.

(** Such a slot needs nothing but two contexts: a service type first used
    with another context takes the lower key, and a context in which only the
    second type is made crashes when it is destroyed. *)
Theorem execution_context_key_hole a b sa sb :
  a ≠ b →
  let '(k, (other, _)) := make_service a (inl sa) (ServiceKeys 0 ∅) execution_context_ctor in
  let '(_, (c, r)) := make_service b (inl sb) k execution_context_ctor in
  r = Ok sb ∧ execution_context_dtor other = Some [SvcShutdown sa; SvcDelete sa] ∧
  execution_context_dtor c = None.
Proof.
  intros Hab. unfold make_service, get_key, next_key. simpl. rewrite lookup_empty. simpl.
  rewrite lookup_insert_ne, lookup_empty by done. simpl. done.
Qed.

(** ** Witnesses *)
Lemma execution_context_dtor_spec_witness :
  execution_context_dtor (ExecutionContext true [Some 7; Some 8]) =
    Some [SvcShutdown 8; SvcShutdown 7; SvcDelete 8; SvcDelete 7].
Proof.
  apply (execution_context_dtor_spec (ExecutionContext true [Some 7; Some 8]) eq_refl).
  by apply (bool_decide_unpack _).
Defined.

Lemma execution_context_key_hole_witness :
  let '(k, (other, _)) := make_service 1 (inl 7) (ServiceKeys 0 ∅) execution_context_ctor in
  let '(_, (c, r)) := make_service 2 (inl 8) k execution_context_ctor in
  r = Ok 8 ∧ execution_context_dtor other = Some [SvcShutdown 7; SvcDelete 7] ∧
  execution_context_dtor c = None.
Proof. by apply (execution_context_key_hole 1 2 7 8). Defined.
