(* ===== verification/FileSenders.v ===== *)
(** * nstd::file: the senders read and open

    src/src/nstd/file/read.hpp and open.hpp: receivers which make a request to
    the context when the upstream sender completes, and complete the downstream
    receiver with its result. [None] is std::terminate. *)
From S2P Require Import Prelude Buffer FileContext.
Local Open Scope Z_scope.

(** The completions of the downstream receiver. *)
Inductive file_signal :=
  | FileDescriptor (fd : Z)
  | FileRead (buffer count : Z)
  | FileError (code : Z)
  | FileStopped.

(** ** read *)
(** [d_buffer], an array of [rr_size] bytes at an address, [d_iovec[0]], and
    the descriptor kept when an rvalue is received. *)
Record read_receiver := ReadReceiver {
  rr_buffer : Z;
  rr_size : Z;
  rr_iovec : iovec;
  rr_fd : Z;
}.

(** [d_iovec()] zeroes the entry; the descriptor is empty. *)
Definition read_receiver_ctor (buffer size : Z) : read_receiver :=
  ReadReceiver buffer size (IOVec 0 0) (-1).

Definition read_do_result (res flags : Z) (r : read_receiver) : file_signal :=
  if -1 <? res then FileRead (rr_buffer r) (wrapu 64 res) else FileError (wraps 32 (- res)).

Definition read_set_iovec (r : read_receiver) : read_receiver :=
  ReadReceiver (rr_buffer r) (rr_size r) (IOVec (rr_buffer r) (rr_size r)) (rr_fd r).

(** [submit]: first the request - [read] is what the context does with the
    entry as it is then - and only then the entry is filled in. *)
Definition read_submit {S} (read : Z → iovec → S → S) (fd : Z) (r : read_receiver) (s : S)
    : read_receiver * S :=
  let s := read fd (rr_iovec r) s in (read_set_iovec r, s).

(** [set_value] with a descriptor to keep, and with one owned by another. *)
Definition read_set_value_move {S} (read : Z → iovec → S → S) (fd : Z) (r : read_receiver) (s : S)
    : read_receiver * S :=
  let r := ReadReceiver (rr_buffer r) (rr_size r) (rr_iovec r) fd in read_submit read (rr_fd r) r s.
Definition read_set_value_ref {S} (read : Z → iovec → S → S) (fd : Z) (r : read_receiver) (s : S)
    : read_receiver * S := read_submit read fd r s.
Definition read_set_error (code : Z) : file_signal := FileError code.
Definition read_set_stopped : file_signal := FileStopped.

(** *** Two kinds of contexts

    One hands the entry to the system while the request is made, as io_uring
    does with its submission, one looks at it when the file is ready, as the
    poll context does. [available] bytes can be read. *)
Definition read_count (available : Z) (v : iovec) : Z := Z.min (iov_len v) available.

(** The result of the read in either case. *)
Definition read_result (at_submission : bool) (available fd : Z) (r : read_receiver) : Z :=
  let '(r', seen) := read_set_value_move (λ fd v _, Some v) fd r None in
  read_count available (if at_submission then default (rr_iovec r') seen else rr_iovec r').

(** [read] on a context which looks at the scatter array when the file is
    ready reads up to the size of the buffer. On a context which passes it to
    the system with the request it is still empty: nothing is ever read, and
    the receiver is told that the file is at its end. *)
Theorem read_submits_before_filling available fd buffer size flags :
  0 ≤ available < 2 ^ 31 → 0 ≤ size →
  let r := read_receiver_ctor buffer size in
  let r' := (read_set_value_move (λ _ v (_ : option iovec), Some v) fd r None).1 in
  read_do_result (read_result false available fd r) flags r' = FileRead buffer (Z.min size available) ∧
  read_do_result (read_result true available fd r) flags r' = FileRead buffer 0 ∧
  rr_fd r' = fd.
Proof.
  intros Ha Hs. cbn zeta. unfold read_result, read_do_result, read_count. cbn.
  split_and!; [|by rewrite Z.min_l by lia|done].
  rewrite (proj2 (Z.ltb_lt (-1) (Z.min size available))) by lia.
  by rewrite wrapu_small by (unfold is_uint; lia).
Qed.

(** ** open *)
Record open_receiver := OpenReceiver { or_flags : open_flags; or_name : string }.

Definition open_receiver_ctor (flags : open_flags) : open_receiver := OpenReceiver flags "".

Section open.
(** The system's access modes and AT_FDCWD; where the name is kept. *)
Context (O_RDONLY O_WRONLY O_RDWR AT_FDCWD : Z) (name_at : Z).

(** The name is copied before the request is made; converting the flags may
    throw, in a noexcept function. *)
Definition open_set_value (name : string) (self : io_base) (r : open_receiver)
    : option (open_receiver * request) :=
  let r := OpenReceiver (or_flags r) name in
  match to_system O_RDONLY O_WRONLY O_RDWR (or_flags r) with
  | Ok flags => Some (r, ROpenAt AT_FDCWD name_at flags self)
  | Throw _ => None
  end.

Definition open_do_result (res flags : Z) (r : open_receiver) : file_signal :=
  if -1 <? res then FileDescriptor res else FileError (wraps 32 (- res)).
Definition open_set_error (code : Z) : file_signal := FileError code.
Definition open_set_stopped : file_signal := FileStopped.

(** [open_in], [open_out] and [open_inout] make one request with the access
    mode they name, for a name which the receiver keeps; any other flags -
    those which also say to create or to truncate the file, say - terminate the
    program. The result is the descriptor, or the positive error code. *)
Theorem open_spec flags name self res fl :
  - 2 ^ 31 < res < 2 ^ 31 →
  let r := open_receiver_ctor flags in
  (flags = flag_in → open_set_value name self r =
     Some (OpenReceiver flags name, ROpenAt AT_FDCWD name_at O_RDONLY self)) ∧
  (flags = flag_out → open_set_value name self r =
     Some (OpenReceiver flags name, ROpenAt AT_FDCWD name_at O_WRONLY self)) ∧
  (flags = flag_inout → open_set_value name self r =
     Some (OpenReceiver flags name, ROpenAt AT_FDCWD name_at O_RDWR self)) ∧
  (flags ∉ [flag_in; flag_out; flag_inout] → open_set_value name self r = None) ∧
  open_do_result res fl r = if decide (0 ≤ res) then FileDescriptor res else FileError (- res).
Proof.
  intros Hres. cbn zeta. unfold open_set_value, to_system. cbn.
  split_and!; [by intros ->..| |].
  - rewrite !not_elem_of_cons. intros (H1 & H2 & H3 & _).
    apply Z.eqb_neq in H1, H2, H3. by rewrite H1, H2, H3.
  - unfold open_do_result. case_decide.
    + by rewrite (proj2 (Z.ltb_lt (-1) res)) by lia.
    + rewrite (proj2 (Z.ltb_ge (-1) res)) by lia. f_equal.
      unfold wraps. rewrite wrapu_small by (unfold is_uint; lia).
      by rewrite decide_True by (change (32 - 1) with 31; lia).
Qed.
End open.

(** ** Witnesses *)
Lemma read_submits_before_filling_witness :
  let r := read_receiver_ctor 4096 16 in
  let r' := (read_set_value_move (λ _ v (_ : option iovec), Some v) 5 r None).1 in
  read_do_result (read_result false 100 5 r) 0 r' = FileRead 4096 16 ∧
  read_do_result (read_result true 100 5 r) 0 r' = FileRead 4096 0 ∧ rr_fd r' = 5.
Proof. apply (read_submits_before_filling 100 5 4096 16 0); lia. Defined.

Lemma open_spec_witness :
  open_set_value 0 1 2 (-100) 4096 "file" 77 (open_receiver_ctor flag_inout) =
    Some (OpenReceiver flag_inout "file", ROpenAt (-100) 4096 2 77).
Proof.
  refine (proj1 (proj2 (proj2 (open_spec 0 1 2 (-100) 4096 flag_inout "file" 77 7 0 _))) eq_refl). lia.
Defined.
