(* ===== verification/Algorithms.v ===== *)
(** * nstd::algorithm and nstd::cursor

    The algorithms of src/src/nstd/algorithm over cursors (src/src/nstd/cursor).
    A cursor is anything with [step], [key] and [at_same_pos]: the class
    [Cursor], with integers and pointers into an array as instances. Reading a
    key where there is none is undefined behaviour. [range] relates a cursor
    and an end point to the list of keys between them; the theorems state each
    algorithm on lists. Loops take fuel, and one more than the length of the
    range is enough. *)
From S2P Require Import Prelude.

(** ** Cursors *)
Class Cursor (C E K : Type) := {
  cursor_step : C → C;
  cursor_key : C → option K;
  cursor_at_same_pos : C → E → bool;
}.

(** [step(cursor, n)]. *)
Fixpoint cursor_step_n `{Cursor C E K} (n : nat) (c : C) : C :=
  match n with 0 => c | S n => cursor_step_n n (cursor_step c) end.

(** Two cursors are at the same position when both components are. *)
Definition pair_at_same_pos `{Cursor C1 E1 K1, Cursor C2 E2 K2} (p0 : C1 * C2) (p1 : E1 * E2) : bool :=
  cursor_at_same_pos p0.1 p1.1 && cursor_at_same_pos p0.2 p1.2.

(** An unsigned integer is a cursor whose key is its value. *)
#[export] Instance uint_cursor (w : Z) : Cursor Z Z Z := {|
  cursor_step c := wrapu w (c + 1);
  cursor_key c := Some c;
  cursor_at_same_pos c e := bool_decide (c = e);
|}.

(** A pointer into the array [a], as its index; also [model_single_pass]. *)
#[export] Instance array_cursor {K} (a : list K) : Cursor nat nat K := {|
  cursor_step c := S c;
  cursor_key c := a !! c;
  cursor_at_same_pos c e := bool_decide (c = e);
|}.

Definition array_begin {K} (a : list K) : nat := 0.
Definition array_end {K} (a : list K) : nat := length a.
Definition array_size {K} (a : list K) : nat := length a.

(** ** Algorithms *)
Definition algorithm_not_ {V} (p : V → bool) (v : V) : bool := negb (p v).
Definition functional_equal_to `{EqDecision V} (a b : V) : bool := bool_decide (a = b).
Definition projection_identity {V} (v : V) : V := v.

Section algorithms.
Context `{HC : Cursor C E K} {V : Type} (read : K → V).

(** [read(key(c))]. *)
Definition cursor_read (c : C) : outcome V := read <$> or_ub (cursor_key c).

Fixpoint find_if (fuel : nat) (it : C) (end_ : E) (predicate : V → bool) : outcome C :=
  match fuel with
  | 0 => NoFuel
  | S fuel =>
      if cursor_at_same_pos it end_ then Ret it
      else
        v ← cursor_read it;
        if predicate v then Ret it else find_if fuel (cursor_step it) end_ predicate
  end.

Definition find_if_not (fuel : nat) (begin : C) (end_ : E) (predicate : V → bool) : outcome C :=
  find_if fuel begin end_ (algorithm_not_ predicate).

Definition algorithm_find `{EqDecision V} (fuel : nat) (begin : C) (end_ : E) (value : V) : outcome C :=
  find_if fuel begin end_ (λ v, functional_equal_to v value).

Definition all_of (fuel : nat) (begin : C) (end_ : E) (predicate : V → bool) : outcome bool :=
  c ← find_if fuel begin end_ (algorithm_not_ predicate); Ret (cursor_at_same_pos c end_).
Definition any_of (fuel : nat) (begin : C) (end_ : E) (predicate : V → bool) : outcome bool :=
  c ← find_if fuel begin end_ predicate; Ret (negb (cursor_at_same_pos c end_)).
Definition none_of (fuel : nat) (begin : C) (end_ : E) (predicate : V → bool) : outcome bool :=
  c ← find_if fuel begin end_ predicate; Ret (cursor_at_same_pos c end_).

(** The count is a [std::size_t]. *)
Fixpoint distance_loop (fuel : nat) (it : C) (end_ : E) (rc : Z) : outcome Z :=
  match fuel with
  | 0 => NoFuel
  | S fuel =>
      if cursor_at_same_pos it end_ then Ret rc
      else distance_loop fuel (cursor_step it) end_ (wrapu 64 (rc + 1))
  end.
Definition distance (fuel : nat) (it : C) (end_ : E) : outcome Z := distance_loop fuel it end_ 0.

(** The function object and what it changes is the state [S]. *)
Fixpoint for_each {S} (fuel : nat) (cur : C) (end_ : E) (fun_ : S → V → S) (s : S) : outcome (C * S) :=
  match fuel with
  | 0 => NoFuel
  | Datatypes.S fuel =>
      if cursor_at_same_pos cur end_ then Ret (cur, s)
      else v ← cursor_read cur; for_each fuel (cursor_step cur) end_ fun_ (fun_ s v)
  end.

(** With an execution policy: [execute] runs the given function on parts of the
    range; an exception terminates the program. *)
Definition for_each_policy {S} (execute : C → E → (C → E → S → outcome S) → S → outcome S)
    (fuel : nat) (begin : C) (end_ : E) (fun_ : S → V → S) (s : S) : outcome S :=
  match execute begin end_ (λ b e s, snd <$> for_each fuel b e fun_ s) s with
  | Exc _ => UB
  | r => r
  end.
End algorithms.

Section two_ranges.
Context `{HC1 : Cursor C1 E1 K1, HC2 : Cursor C2 E2 K2} {V1 V2 : Type}.
Context (read1 : K1 → V1) (read2 : K2 → V2).

Fixpoint mismatch (fuel : nat) (cursor1 : C1) (end1 : E1) (cursor2 : C2) (end2 : E2)
    (predicate : V1 → V2 → bool) : outcome (C1 * C2) :=
  match fuel with
  | 0 => NoFuel
  | S fuel =>
      if cursor_at_same_pos cursor1 end1 then Ret (cursor1, cursor2)
      else if cursor_at_same_pos cursor2 end2 then Ret (cursor1, cursor2)
      else
        v1 ← cursor_read read1 cursor1;
        v2 ← cursor_read read2 cursor2;
        if predicate v1 v2
        then mismatch fuel (cursor_step cursor1) end1 (cursor_step cursor2) end2 predicate
        else Ret (cursor1, cursor2)
  end.

(** The loop of [search]: [begin2] is past the first key of the pattern, which
    [find_predicate] looks for. *)
Fixpoint search_loop (rounds fuel : nat) (cur1 : C1) (end1 : E1) (begin2 : C2) (end2 : E2)
    (find_predicate : V1 → bool) (predicate : V1 → V2 → bool) : outcome C1 :=
  match rounds with
  | 0 => NoFuel
  | S rounds =>
      cur1 ← find_if read1 fuel cur1 end1 find_predicate;
      if cursor_at_same_pos cur1 end1 then Ret cur1
      else
        let begin1 := cur1 in
        let cur1 := cursor_step cur1 in
        p ← mismatch fuel cur1 end1 begin2 end2 predicate;
        if cursor_at_same_pos p.2 end2 then Ret begin1
        else if cursor_at_same_pos p.1 end1 then Ret p.1
        else search_loop rounds fuel cur1 end1 begin2 end2 find_predicate predicate
  end.

Definition search (fuel : nat) (begin1 : C1) (end1 : E1) (begin2 : C2) (end2 : E2)
    (predicate : V1 → V2 → bool) : outcome C1 :=
  if cursor_at_same_pos begin2 end2 then Ret begin1
  else
    v2 ← cursor_read read2 begin2;
    search_loop fuel fuel begin1 end1 (cursor_step begin2) end2 (λ v1, predicate v1 v2) predicate.
End two_ranges.

(** ** Ranges *)
Inductive range `{Cursor C E K} : C → E → list K → Prop :=
  | range_nil c e : cursor_at_same_pos c e = true → range c e []
  | range_cons c e k l :
      cursor_at_same_pos c e = false → cursor_key c = Some k → range (cursor_step c) e l →
      range c e (k :: l).

Section ranges.
Context `{HC : Cursor C E K}.

Lemma cursor_step_n_S n (c : C) : cursor_step_n (S n) c = cursor_step (cursor_step_n n c).
Proof. revert c. induction n as [|n IH]; intros c; [done|]. cbn [cursor_step_n]. by rewrite <-IH. Qed.

Lemma range_drop n (c : C) e l : n ≤ length l → range c e l → range (cursor_step_n n c) e (drop n l).
Proof.
  revert c l. induction n as [|n IH]; intros c l Hn Hr; [done|].
  destruct Hr; simpl in *; [lia|]. apply IH; [lia|done].
Qed.

Lemma range_at_end (c : C) e l :
  range c e l → cursor_at_same_pos c e = bool_decide (l = []).
Proof. by destruct 1 as [?? ->|???? ->]. Qed.

Lemma range_at_end_n n (c : C) e l :
  n ≤ length l → range c e l → cursor_at_same_pos (cursor_step_n n c) e = bool_decide (n = length l).
Proof.
  intros Hn Hr. rewrite (range_at_end _ _ _ (range_drop _ _ _ _ Hn Hr)).
  apply bool_decide_ext. rewrite <-length_zero_iff_nil, length_drop. lia.
Qed.
End ranges.

Lemma cursor_step_n_add `{Cursor C E K} n m (c : C) :
  cursor_step_n (n + m) c = cursor_step_n m (cursor_step_n n c).
Proof. revert c. induction n; intros; simpl; auto. Qed.

(** The index of the first element which satisfies [p], or the length. *)
Fixpoint first_index {V} (p : V → bool) (l : list V) : nat :=
  match l with [] => 0 | v :: l => if p v then 0 else S (first_index p l) end.

Lemma first_index_spec {V} (p : V → bool) l :
  first_index p l ≤ length l ∧ Forall (λ v, p v = false) (take (first_index p l) l) ∧
  (∀ v, l !! first_index p l = Some v → p v = true).
Proof.
  induction l as [|v l (IH1 & IH2 & IH3)]; simpl; [split_and!; by auto|].
  destruct (p v) eqn:E; simpl.
  - split_and!; [lia|by constructor|by intros ? [= <-]].
  - split_and!; [lia|by constructor|done].
Qed.

Lemma first_index_length {V} (p : V → bool) l :
  first_index p l = length l ↔ Forall (λ v, p v = false) l.
Proof.
  induction l as [|v l IH]; simpl; [split; by auto|]. rewrite Forall_cons, <-IH.
  destruct (p v); simpl; split; [done|by intros [? ?]|intros [=]; done|intros [_ ->]; done].
Qed.

Lemma find_if_first `{HC : Cursor C E K} {V} (read : K → V) fuel (c : C) e l p :
  range c e l → length l < fuel →
  find_if read fuel c e p = Ret (cursor_step_n (first_index p (read <$> l)) c).
Proof.
  intros Hr. revert fuel. induction Hr as [c e He|c e k l He Hk Hr IH]; intros [|fuel] Hf; try lia;
    simpl in *.
  - by rewrite He.
  - rewrite He. unfold cursor_read. rewrite Hk. simpl. destruct (p (read k)); [done|].
    apply IH. lia.
Qed.

(** [find_if] returns the cursor at the first element which satisfies the
    predicate, or the end of the range, and never reads beyond it. *)
Theorem find_if_spec `{HC : Cursor C E K} {V} (read : K → V) fuel (c : C) e l p :
  range c e l → length l < fuel →
  ∃ i, find_if read fuel c e p = Ret (cursor_step_n i c) ∧ range (cursor_step_n i c) e (drop i l) ∧
    Forall (λ k, p (read k) = false) (take i l) ∧ (∀ k, l !! i = Some k → p (read k) = true) ∧
    (cursor_at_same_pos (cursor_step_n i c) e = bool_decide (i = length l)).
Proof.
  intros Hr Hf. exists (first_index p (read <$> l)).
  destruct (first_index_spec p (read <$> l)) as (Hi & Hall & Hat). rewrite length_fmap in Hi.
  split_and!; [by apply find_if_first|by apply range_drop| | |by apply range_at_end_n].
  - revert Hall. by rewrite <-fmap_take, Forall_fmap.
  - intros k Hk. apply Hat. by rewrite list_lookup_fmap, Hk.
Qed.

Lemma find_if_at_end `{HC : Cursor C E K} {V} (read : K → V) fuel (c : C) e l p :
  range c e l → length l < fuel →
  ∃ c', find_if read fuel c e p = Ret c' ∧
    (cursor_at_same_pos c' e = true ↔ Forall (λ k, p (read k) = false) l).
Proof.
  intros Hr Hf. rewrite (find_if_first _ _ _ _ _ _ Hr Hf). eexists; split; [done|].
  destruct (first_index_spec p (read <$> l)) as (Hi & _ & _). rewrite length_fmap in Hi.
  rewrite (range_at_end_n _ _ _ _ Hi Hr), bool_decide_eq_true.
  pose proof (first_index_length p (read <$> l)) as Hfl.
  by rewrite length_fmap, Forall_fmap in Hfl.
Qed.

(** [all_of], [any_of] and [none_of] decide the universal, the existential
    and the negated existential statement about the range. *)
Theorem quantifiers_spec `{HC : Cursor C E K} {V} (read : K → V) fuel (c : C) e l p :
  range c e l → length l < fuel →
  all_of read fuel c e p = Ret (forallb (λ k, p (read k)) l) ∧
  any_of read fuel c e p = Ret (existsb (λ k, p (read k)) l) ∧
  none_of read fuel c e p = Ret (negb (existsb (λ k, p (read k)) l)).
Proof.
  intros Hr Hf. unfold all_of, any_of, none_of.
  destruct (find_if_at_end read fuel c e l (algorithm_not_ p) Hr Hf) as (c1 & -> & H1).
  destruct (find_if_at_end read fuel c e l p Hr Hf) as (c2 & -> & H2). simpl.
  assert (E1 : cursor_at_same_pos c1 e = forallb (λ k, p (read k)) l).
  { apply eq_true_iff_eq. rewrite H1, forallb_forall, Forall_forall. unfold algorithm_not_.
    setoid_rewrite negb_false_iff. by setoid_rewrite list_elem_of_In. }
  assert (E2 : cursor_at_same_pos c2 e = negb (existsb (λ k, p (read k)) l)).
  { apply eq_true_iff_eq. rewrite H2, negb_true_iff, <-not_true_iff_false, existsb_exists, Forall_forall.
    setoid_rewrite list_elem_of_In. setoid_rewrite <-not_true_iff_false. naive_solver. }
  by rewrite E1, E2, negb_involutive.
Qed.

(** [distance] counts the steps to the end, modulo [2^64]; [for_each] calls
    the function on each element in order and returns the end. *)
Theorem for_each_distance_spec `{HC : Cursor C E K} {V St} (read : K → V) fuel (c : C) e l
    (fun_ : St → V → St) s :
  range c e l → length l < fuel →
  distance fuel c e = Ret (wrapu 64 (Z.of_nat (length l))) ∧
  for_each read fuel c e fun_ s = Ret (cursor_step_n (length l) c, foldl fun_ s (read <$> l)).
Proof.
  intros Hr Hf. split.
  - unfold distance.
    assert (Hgen : ∀ rc, is_uint 64 rc →
      distance_loop fuel c e rc = Ret (wrapu 64 (rc + Z.of_nat (length l)))).
    { revert fuel Hf. induction Hr as [c e He|c e k l He Hk Hr IH]; intros [|fuel] Hf rc Hrc;
        simpl in *; try lia; rewrite He.
      - rewrite Z.add_0_r. by rewrite wrapu_small.
      - rewrite IH by (first [lia|apply wrapu_range; lia]). f_equal. unfold wrapu.
        rewrite Zplus_mod_idemp_l. f_equal. lia. }
    by rewrite Hgen by done.
  - revert fuel Hf s. induction Hr as [c e He|c e k l He Hk Hr IH]; intros [|fuel] Hf s;
      simpl in *; try lia; rewrite He; [done|].
    unfold cursor_read. rewrite Hk. simpl. apply IH. lia.
Qed.

(** ** Two ranges *)
Fixpoint common_prefix {V1 V2} (p : V1 → V2 → bool) (l1 : list V1) (l2 : list V2) : nat :=
  match l1, l2 with
  | v1 :: l1, v2 :: l2 => if p v1 v2 then S (common_prefix p l1 l2) else 0
  | _, _ => 0
  end.

(** [l2] matches at the beginning of [l1]. *)
Definition prefix_match {V1 V2} (p : V1 → V2 → bool) (l1 : list V1) (l2 : list V2) : bool :=
  bool_decide (common_prefix p l1 l2 = length l2).

Lemma common_prefix_le {V1 V2} (p : V1 → V2 → bool) l1 l2 :
  common_prefix p l1 l2 ≤ length l1 ∧ common_prefix p l1 l2 ≤ length l2.
Proof.
  revert l2. induction l1 as [|v1 l1 IH]; intros [|v2 l2]; simpl; [lia..|].
  destruct (p v1 v2); [|lia]. specialize (IH l2). lia.
Qed.

Lemma prefix_match_cons {V1 V2} (p : V1 → V2 → bool) v1 l1 v2 l2 :
  prefix_match p (v1 :: l1) (v2 :: l2) = p v1 v2 && prefix_match p l1 l2.
Proof.
  unfold prefix_match; simpl. destruct (p v1 v2); simpl; [apply bool_decide_ext; lia|done].
Qed.

Lemma prefix_match_short {V1 V2} (p : V1 → V2 → bool) l1 l2 :
  length l1 < length l2 → prefix_match p l1 l2 = false.
Proof.
  intros. apply bool_decide_false. pose proof (common_prefix_le p l1 l2). lia.
Qed.

Lemma mismatch_common `{HC1 : Cursor C1 E1 K1, HC2 : Cursor C2 E2 K2} {V1 V2}
    (read1 : K1 → V1) (read2 : K2 → V2) fuel (c1 : C1) e1 l1 (c2 : C2) e2 l2 p :
  range c1 e1 l1 → range c2 e2 l2 → length l1 < fuel →
  let n := common_prefix p (read1 <$> l1) (read2 <$> l2) in
  mismatch read1 read2 fuel c1 e1 c2 e2 p = Ret (cursor_step_n n c1, cursor_step_n n c2).
Proof.
  intros Hr1. revert fuel c2 l2. induction Hr1 as [c1 e1 He1|c1 e1 k1 l1 He1 Hk1 Hr1 IH];
    intros [|fuel] c2 l2 Hr2 Hf; simpl in *; try lia; rewrite He1; [done|].
  destruct Hr2 as [c2 e2 He2|c2 e2 k2 l2 He2 Hk2 Hr2]; rewrite He2; [done|].
  unfold cursor_read. rewrite Hk1, Hk2. simpl.
  destruct (p (read1 k1) (read2 k2)); [|done]. apply IH; [done|lia].
Qed.

(** [mismatch] stops at the end of the longest common prefix of the two
    ranges, wherever the first of them ends. *)
Theorem mismatch_spec `{HC1 : Cursor C1 E1 K1, HC2 : Cursor C2 E2 K2} {V1 V2}
    (read1 : K1 → V1) (read2 : K2 → V2) fuel (c1 : C1) e1 l1 (c2 : C2) e2 l2 p :
  range c1 e1 l1 → range c2 e2 l2 → length l1 < fuel →
  ∃ n, mismatch read1 read2 fuel c1 e1 c2 e2 p = Ret (cursor_step_n n c1, cursor_step_n n c2) ∧
    Forall2 (λ k1 k2, p (read1 k1) (read2 k2) = true) (take n l1) (take n l2) ∧
    ∀ k1 k2, l1 !! n = Some k1 → l2 !! n = Some k2 → p (read1 k1) (read2 k2) = false.
Proof.
  intros Hr1 Hr2 Hf. eexists; split; [by apply mismatch_common|]. clear.
  revert l2. induction l1 as [|k1 l1 IH]; intros [|k2 l2]; simpl; [by split..|].
  destruct (p _ _) eqn:E; simpl.
  - destruct (IH l2). by repeat constructor.
  - split; [done|by intros ?? [= <-] [= <-]].
Qed.

(** Where [search] stands: nothing matches before [i], and the pattern matches
    there unless it is the end. *)
Definition search_at {V1 V2} (p : V1 → V2 → bool) (l1 : list V1) (l2 : list V2) (i : nat) : Prop :=
  i ≤ length l1 ∧ (∀ j, j < i → prefix_match p (drop j l1) l2 = false) ∧
  (i < length l1 → prefix_match p (drop i l1) l2 = true).

Section search_at.
Context {V1 V2 : Type} (p : V1 → V2 → bool) (v2 : V2) (l2 : list V2).

Lemma before_first_no_match (l1 : list V1) j :
  j < first_index (λ v1, p v1 v2) l1 → prefix_match p (drop j l1) (v2 :: l2) = false.
Proof.
  intros Hj. destruct (first_index_spec (λ v1, p v1 v2) l1) as (Hle & Hall & _).
  destruct (lookup_lt_is_Some_2 l1 j) as [v Hv]; [lia|].
  rewrite (drop_S _ _ _ Hv), prefix_match_cons.
  rewrite Forall_lookup in Hall. rewrite (Hall j v); [done|]. by rewrite lookup_take_lt.
Qed.

Lemma search_at_none (l1 : list V1) :
  first_index (λ v1, p v1 v2) l1 = length l1 → search_at p l1 (v2 :: l2) (length l1).
Proof.
  intros E. split_and!; [lia| |lia]. intros j. rewrite <-E. apply before_first_no_match.
Qed.

Lemma search_at_found (l1 : list V1) i v t :
  first_index (λ v1, p v1 v2) l1 = i → drop i l1 = v :: t → prefix_match p t l2 = true →
  search_at p l1 (v2 :: l2) i.
Proof.
  intros Hi Hd Hm. destruct (first_index_spec (λ v1, p v1 v2) l1) as (Hle & _ & Hat).
  rewrite Hi in *. split_and!; [done| |].
  - intros j. rewrite <-Hi. apply before_first_no_match.
  - intros _. rewrite Hd, prefix_match_cons, Hm, andb_true_r. apply Hat.
    by rewrite <-(Nat.add_0_r i), <-lookup_drop, Hd.
Qed.

(** The candidate at [i] fails: the search goes on behind it. *)
Lemma search_at_next (l1 : list V1) i v t i' :
  first_index (λ v1, p v1 v2) l1 = i → drop i l1 = v :: t → prefix_match p t l2 = false →
  search_at p t (v2 :: l2) i' → search_at p l1 (v2 :: l2) (S i + i').
Proof.
  intros Hi Hd Hm (Hle & Hbefore & Hat).
  assert (Ht : t = drop (S i) l1) by (by rewrite <-(Nat.add_1_r i), <-drop_drop, Hd).
  assert (Hlen : length l1 = S i + length t).
  { assert (length (drop i l1) = S (length t)) by (by rewrite Hd). rewrite length_drop in *. lia. }
  assert (Hdr : ∀ j, drop j t = drop (S i + j) l1) by (intros j; by rewrite Ht, drop_drop).
  split_and!; [lia| |].
  - intros j Hj. destruct (decide (j < i)) as [|]; [apply before_first_no_match; lia|].
    destruct (decide (j = i)) as [->|]; [by rewrite Hd, prefix_match_cons, Hm, andb_false_r|].
    replace j with (S i + (j - S i)) by lia. rewrite <-Hdr. apply Hbefore. lia.
  - intros Hj. rewrite <-Hdr. apply Hat. lia.
Qed.

Lemma search_at_short (l1 : list V1) i v t :
  first_index (λ v1, p v1 v2) l1 = i → drop i l1 = v :: t → length t < length l2 →
  search_at p l1 (v2 :: l2) (length l1).
Proof.
  intros Hi Hd Hs. split_and!; [lia| |lia]. intros j Hj.
  destruct (decide (j < i)) as [|]; [apply before_first_no_match; lia|].
  apply prefix_match_short. assert (length (drop i l1) = S (length t)) by (by rewrite Hd).
  rewrite !length_drop in *. simpl. lia.
Qed.
End search_at.

Section search.
Context `{HC1 : Cursor C1 E1 K1, HC2 : Cursor C2 E2 K2} {V1 V2 : Type}.
Context (read1 : K1 → V1) (read2 : K2 → V2) (p : V1 → V2 → bool).

Lemma search_loop_first fuel rounds (c1 : C1) e1 l1 (c2 : C2) e2 l2 v2 :
  range c1 e1 l1 → range c2 e2 l2 → length l1 < fuel → length l1 < rounds →
  ∃ i, search_loop read1 read2 rounds fuel c1 e1 c2 e2 (λ v1, p v1 v2) p = Ret (cursor_step_n i c1) ∧
    search_at p (read1 <$> l1) (v2 :: (read2 <$> l2)) i.
Proof.
  intros Hr1 Hr2. revert c1 l1 Hr1.
  induction rounds as [|rounds IH]; intros c1 l1 Hr1 Hf Hro; [lia|]. cbn [search_loop].
  rewrite (find_if_first _ _ _ _ _ _ Hr1 Hf). simpl.
  set (i := first_index (λ v1, p v1 v2) (read1 <$> l1)).
  destruct (first_index_spec (λ v1, p v1 v2) (read1 <$> l1)) as (Hi & _ & _).
  fold i in Hi. rewrite length_fmap in Hi.
  rewrite (range_at_end_n _ _ _ _ Hi Hr1). case_bool_decide as Hend.
  { eexists; split; [done|]. rewrite Hend, <-(length_fmap read1 l1). apply search_at_none.
    fold i. by rewrite length_fmap. }
  pose proof (range_drop _ _ _ _ Hi Hr1) as Hrd.
  destruct (drop i l1) as [|k t] eqn:Hd.
  { assert (length (drop i l1) = 0) by (by rewrite Hd). rewrite length_drop in *. lia. }
  inversion Hrd as [|???? He Hk Hrt]; simplify_eq.
  assert (Hdf : drop i (read1 <$> l1) = read1 k :: (read1 <$> t)) by (by rewrite <-fmap_drop, Hd).
  assert (Hlen : length l1 = S i + length t).
  { assert (length (drop i l1) = S (length t)) by (by rewrite Hd). rewrite length_drop in *. lia. }
  rewrite (mismatch_common read1 read2 fuel _ e1 t c2 e2 l2) by (done || lia). simpl.
  pose proof (common_prefix_le p (read1 <$> t) (read2 <$> l2)) as [Hn1 Hn2].
  rewrite length_fmap in Hn1. rewrite length_fmap in Hn2.
  rewrite (range_at_end_n _ _ _ _ Hn2 Hr2). case_bool_decide as Hm2.
  { eexists; split; [done|]. eapply search_at_found; [done|exact Hdf|].
    unfold prefix_match. rewrite length_fmap. by apply bool_decide_true. }
  rewrite (range_at_end_n _ _ _ _ Hn1 Hrt). case_bool_decide as Hm1.
  { exists (length l1). rewrite Hm1, <-cursor_step_n_S, <-cursor_step_n_add, <-Hlen. split; [done|].
    rewrite <-(length_fmap read1 l1). eapply search_at_short; [done|exact Hdf|].
    rewrite !length_fmap. lia. }
  destruct (IH _ t Hrt) as (i' & -> & Hat); [lia..|].
  exists (S i + i'). rewrite <-cursor_step_n_S, <-cursor_step_n_add. split; [done|].
  eapply search_at_next; [done|exact Hdf| |done].
  unfold prefix_match. rewrite length_fmap. by apply bool_decide_false.
Qed.

(** [search] returns the first position at which the second range occurs in
    the first one - the beginning when the second range is empty - and the end
    of the first range when there is none. *)
Theorem search_spec fuel (c1 : C1) e1 l1 (c2 : C2) e2 l2 :
  range c1 e1 l1 → range c2 e2 l2 → length l1 < fuel →
  ∃ i, search read1 read2 fuel c1 e1 c2 e2 p = Ret (cursor_step_n i c1) ∧ i ≤ length l1 ∧
    (∀ j, j < i → prefix_match p (drop j (read1 <$> l1)) (read2 <$> l2) = false) ∧
    (i < length l1 → prefix_match p (drop i (read1 <$> l1)) (read2 <$> l2) = true).
Proof.
  intros Hr1 Hr2 Hf. unfold search.
  destruct Hr2 as [c2 e2 He2|c2 e2 k2 l2 He2 Hk2 Hr2]; rewrite He2.
  - exists 0. split_and!; [done|lia|lia|]. intros _. by destruct l1.
  - unfold cursor_read. rewrite Hk2. simpl.
    destruct (search_loop_first fuel fuel c1 e1 l1 _ e2 l2 (read2 k2) Hr1 Hr2)
      as (i & -> & Hi & ? & ?); [done..|].
    rewrite length_fmap in *. by exists i.
Qed.
End search.

(** ** The instances *)
(** The pointers to the elements of an array. *)
Lemma array_range {K} (a : list K) n m :
  n ≤ m ≤ length a → range (H := array_cursor a) n m (take (m - n) (drop n a)).
Proof.
  remember (m - n) as d eqn:Hd. revert n Hd. induction d as [|d IH]; intros n Hd Hn; simpl.
  - apply range_nil. simpl. apply bool_decide_true. lia.
  - destruct (lookup_lt_is_Some_2 a n) as [k Hk]; [lia|].
    rewrite (drop_S _ _ _ Hk). simpl. apply range_cons; simpl.
    + apply bool_decide_false. lia.
    + done.
    + apply IH; lia.
Qed.

(** The integers from [b] to [e], wrapping around when [e] is less. *)
Lemma uint_range w b e :
  (0 ≤ w)%Z → is_uint w b → is_uint w e →
  range (H := uint_cursor w) b e (wrapu w <$> seqZ b ((e - b) `mod` 2 ^ w)).
Proof.
  intros Hw. assert (0 < 2 ^ w)%Z by (apply Z.pow_pos_nonneg; lia).
  remember (Z.to_nat ((e - b) `mod` 2 ^ w)) as d eqn:Hd. revert b Hd.
  induction d as [|d IH]; intros b Hd Hb He.
  - pose proof (Z.mod_pos_bound (e - b) (2 ^ w) ltac:(lia)).
    assert (Hm : ((e - b) `mod` 2 ^ w = 0)%Z) by lia. rewrite Hm. simpl.
    apply range_nil. simpl. apply bool_decide_true. unfold is_uint in *.
    apply Z.mod_divide in Hm as [k Hk]; [|lia].
    destruct (Z.lt_trichotomy k 0) as [|[->|]]; [nia|lia|nia].
  - pose proof (Z.mod_pos_bound (e - b) (2 ^ w) ltac:(lia)).
    assert (Hn : b ≠ e) by (intros ->; rewrite Z.sub_diag, Zmod_0_l in Hd; lia).
    assert (Hs : ((e - wrapu w (b + 1)) `mod` 2 ^ w = (e - b) `mod` 2 ^ w - 1)%Z).
    { unfold wrapu. rewrite Zminus_mod_idemp_r.
      replace (e - (b + 1))%Z with ((e - b) - 1)%Z by lia.
      rewrite <-Zminus_mod_idemp_l. apply Z.mod_small. lia. }
    rewrite seqZ_cons by lia. rewrite fmap_cons, wrapu_small by done.
    apply range_cons; simpl; [by apply bool_decide_false|done|].
    assert (Hws : is_uint w (wrapu w (b + 1))) by (by apply wrapu_range).
    specialize (IH (wrapu w (b + 1))). rewrite Hs in IH.
    replace (wrapu w <$> seqZ (Z.succ b) (Z.pred ((e - b) `mod` 2 ^ w)))
      with (wrapu w <$> seqZ (wrapu w (b + 1)) ((e - b) `mod` 2 ^ w - 1)); [apply IH; (lia || done)|].
    rewrite <-Z.sub_1_r. apply list_eq. intros i. rewrite !list_lookup_fmap.
    destruct (decide (Z.of_nat i < (e - b) `mod` 2 ^ w - 1)%Z).
    + rewrite !lookup_seqZ_lt by lia. simpl. f_equal. unfold wrapu.
      rewrite Zplus_mod_idemp_l. f_equal; lia.
    + by rewrite !lookup_seqZ_ge by lia.
Qed.

(** ** Witnesses *)
Definition demo_array : list Z := [1; 2; 1; 2; 3]%Z.

Lemma demo_array_range : range (H := array_cursor demo_array) (array_begin demo_array)
  (array_end demo_array) demo_array.
Proof. apply (array_range demo_array 0 5). simpl. lia. Qed.

Lemma demo_pattern_range : range (H := array_cursor [1; 2; 3]%Z) 0 3 [1; 2; 3]%Z.
Proof. apply (array_range [1; 2; 3]%Z 0 3). simpl. lia. Qed.

Lemma find_if_spec_witness :
  ∃ i, find_if (HC := array_cursor demo_array) projection_identity 6 0 5 (Z.eqb 2)
      = Ret (cursor_step_n (H := array_cursor demo_array) i 0) ∧
    range (H := array_cursor demo_array) (cursor_step_n (H := array_cursor demo_array) i 0) 5
      (drop i demo_array) ∧
    Forall (λ k, (2 =? projection_identity k)%Z = false) (take i demo_array) ∧
    (∀ k, demo_array !! i = Some k → (2 =? projection_identity k)%Z = true) ∧
    (cursor_at_same_pos (Cursor := array_cursor demo_array)
      (cursor_step_n (H := array_cursor demo_array) i 0) 5 = bool_decide (i = length demo_array)).
Proof.
  apply (find_if_spec (HC := array_cursor demo_array) projection_identity 6 0 5 demo_array (Z.eqb 2)
    demo_array_range). simpl. lia.
Defined.

Lemma quantifiers_spec_witness :
  all_of (HC := array_cursor demo_array) projection_identity 6 0 5 (Z.eqb 2)
    = Ret (forallb (λ k, (2 =? projection_identity k)%Z) demo_array) ∧
  any_of (HC := array_cursor demo_array) projection_identity 6 0 5 (Z.eqb 2)
    = Ret (existsb (λ k, (2 =? projection_identity k)%Z) demo_array) ∧
  none_of (HC := array_cursor demo_array) projection_identity 6 0 5 (Z.eqb 2)
    = Ret (negb (existsb (λ k, (2 =? projection_identity k)%Z) demo_array)).
Proof.
  apply (quantifiers_spec (HC := array_cursor demo_array) projection_identity 6 0 5 demo_array (Z.eqb 2)
    demo_array_range). simpl. lia.
Defined.

(** From 254 to 2 in eight bits: four steps through the wrap-around. *)
Lemma for_each_distance_spec_witness :
  distance (HC := uint_cursor 8) 5 254%Z 2%Z = Ret (wrapu 64 4) ∧
  for_each (HC := uint_cursor 8) projection_identity 5 254%Z 2%Z (λ s v, s ++ [v]) []
    = Ret (2%Z, [254; 255; 0; 1]%Z).
Proof.
  apply (for_each_distance_spec (HC := uint_cursor 8) projection_identity 5 254%Z 2%Z
    [254; 255; 0; 1]%Z (λ s v, s ++ [v]) []); [|simpl; lia].
  by apply (uint_range 8 254 2).
Defined.

Lemma mismatch_spec_witness :
  ∃ n, mismatch (HC1 := array_cursor demo_array) (HC2 := array_cursor [1; 2; 3]%Z)
      projection_identity projection_identity 6 0 5 0 3 Z.eqb
    = Ret (cursor_step_n (H := array_cursor demo_array) n 0,
           cursor_step_n (H := array_cursor [1; 2; 3]%Z) n 0) ∧
    Forall2 (λ k1 k2, (projection_identity k1 =? projection_identity k2)%Z = true)
      (take n demo_array) (take n [1; 2; 3]%Z) ∧
    ∀ k1 k2, demo_array !! n = Some k1 → [1; 2; 3]%Z !! n = Some k2 →
      (projection_identity k1 =? projection_identity k2)%Z = false.
Proof.
  apply (mismatch_spec (HC1 := array_cursor demo_array) (HC2 := array_cursor [1; 2; 3]%Z) 
    projection_identity projection_identity 6 0 5 demo_array 0 3 [1; 2; 3]%Z Z.eqb
    demo_array_range demo_pattern_range). simpl. lia.
Defined.

Lemma search_spec_witness :
  ∃ i, search (HC1 := array_cursor demo_array) (HC2 := array_cursor [1; 2; 3]%Z)
      projection_identity projection_identity 6 0 5 0 3 Z.eqb
    = Ret (cursor_step_n (H := array_cursor demo_array) i 0) ∧ i ≤ 5 ∧
    (∀ j, j < i → prefix_match Z.eqb (drop j (projection_identity <$> demo_array))
      (projection_identity <$> [1; 2; 3]%Z) = false) ∧
    (i < 5 → prefix_match Z.eqb (drop i (projection_identity <$> demo_array))
      (projection_identity <$> [1; 2; 3]%Z) = true).
Proof.
  apply (search_spec (HC1 := array_cursor demo_array) (HC2 := array_cursor [1; 2; 3]%Z)
    projection_identity projection_identity Z.eqb 6 0 5 demo_array 0 3 [1; 2; 3]%Z
    demo_array_range demo_pattern_range). simpl. lia.
Defined.
