(* ===== verification/DHeap.v ===== *)
(** * boost::d_heap

    The priority queue of src/src/old-boost/heaps/d_heap.{hpp,cc}: a heap in
    which each element has up to [d] children, with handles to the elements
    whose priority may be changed. The list [m_nodes] is a map from the handles
    (the list's iterators, which stay valid) to the nodes, [m_heap] the vector
    of handles. While an operation runs, one entry of the vector - the hole -
    is stale; [wf_at] and [ord_at] describe such states. Indices are unbounded:
    they stay below [d * length + d + 1]. *)
From S2P Require Import Prelude.

(** ** Data *)
Record dh_node (T : Type) := DhNode { dn_index : nat; dn_value : T }.
Arguments DhNode {T} _ _.
Arguments dn_index {T} _.
Arguments dn_value {T} _.

Record d_heap (T : Type) := DHeap { dh_nodes : gmap nat (dh_node T); dh_heap : list nat }.
Arguments DHeap {T} _ _.
Arguments dh_nodes {T} _.
Arguments dh_heap {T} _.

Definition d_heap_ctor {T} : d_heap T := DHeap ∅ [].

Section d_heap.
Context {T : Type} (compare : T → T → bool) (d : nat).
Implicit Types s : d_heap T.

(** ** Operations *)
(** [p->m_value], and [( *(base + i))->m_value]. *)
Definition dh_value s (p : nat) : option T := dn_value <$> dh_nodes s !! p.
Definition dh_at s (i : nat) : option T := p ← dh_heap s !! i; dh_value s p.

(** [*(base + i) = p; ( *(base + i))->m_index = i]. *)
Definition dh_place (i p : nat) s : option (d_heap T) :=
  n ← dh_nodes s !! p;
  if decide (i < length (dh_heap s)) then
    Some (DHeap (<[p := DhNode i (dn_value n)]> (dh_nodes s)) (<[i := p]> (dh_heap s)))
  else None.

(** The loop of [siftup] and the assignment after it; [pidx] is not used when
    [idx] is 0. *)
Fixpoint siftup_loop (fuel idx pidx ptr : nat) s : outcome (d_heap T) :=
  match fuel with
  | 0 => NoFuel
  | S fuel =>
      if decide (idx = 0) then or_ub (dh_place idx ptr s)
      else
        vp ← or_ub (dh_at s pidx);
        v ← or_ub (dh_value s ptr);
        if compare vp v then
          p ← or_ub (dh_heap s !! pidx);
          s ← or_ub (dh_place idx p s);
          siftup_loop fuel pidx ((pidx - 1) / d) ptr s
        else or_ub (dh_place idx ptr s)
  end.
Definition siftup (idx ptr : nat) s : outcome (d_heap T) :=
  if decide (idx = 0) then Ret s else siftup_loop (S idx) idx ((idx - 1) / d) ptr s.

(** The list node is allocated at an address not in use. *)
Definition d_heap_push (value : T) s : outcome (nat * d_heap T) :=
  let p := fresh (dom (dh_nodes s)) in
  let s := DHeap (<[p := DhNode (length (dh_heap s)) value]> (dh_nodes s)) (dh_heap s ++ [p]) in
  s ← siftup (length (dh_heap s) - 1) p s;
  Ret (p, s).

(** The inner loop over a complete family ending at [cidx], [k] rounds being
    left from [i] on. *)
Fixpoint family_max (k i cidx midx : nat) s : option nat :=
  match k with
  | 0 => Some midx
  | S k =>
      vm ← dh_at s midx;
      vc ← dh_at s (cidx - i);
      family_max k (i + 1) cidx (if compare vm vc then cidx - i else midx) s
  end.

(** Moving the hole from [hidx] down along the largest children, as long as
    the families are complete. *)
Fixpoint descend (fuel hidx cidx : nat) s : outcome (nat * nat * d_heap T) :=
  match fuel with
  | 0 => NoFuel
  | S fuel =>
      if decide (cidx < length (dh_heap s)) then
        midx ← or_ub (family_max (d - 1) 1 cidx cidx s);
        p ← or_ub (dh_heap s !! midx);
        s ← or_ub (dh_place hidx p s);
        descend fuel midx (midx * d + d) s
      else Ret (hidx, cidx, s)
  end.

(** [while (++cidx < len)], [k] rounds at most being left. *)
Fixpoint partial_max (k cidx midx : nat) s : option nat :=
  match k with
  | 0 => Some midx
  | S k =>
      let cidx := cidx + 1 in
      if decide (cidx < length (dh_heap s)) then
        vm ← dh_at s midx;
        vc ← dh_at s cidx;
        partial_max k cidx (if compare vm vc then cidx else midx) s
      else Some midx
  end.

(** The part of [pop] for a last family which is not complete. *)
Definition descend_partial (hidx cidx : nat) s : option (nat * d_heap T) :=
  if decide (cidx + 1 - d < length (dh_heap s)) then
    let cidx := cidx + 1 - d in
    midx ← partial_max (length (dh_heap s)) cidx cidx s;
    p ← dh_heap s !! midx;
    s ← dh_place hidx p s;
    Some (midx, s)
  else Some (hidx, s).

Definition dh_erase (p : nat) s : d_heap T :=
  DHeap (delete p (dh_nodes s)) (take (length (dh_heap s) - 1) (dh_heap s)).

(** The last element is moved to the hole, and up from there. *)
Definition pop_fill (hidx len : nat) s : outcome (d_heap T) :=
  if decide (hidx ≠ len - 1) then
    p ← or_ub (dh_heap s !! (len - 1));
    s ← or_ub (dh_place hidx p s);
    p ← or_ub (dh_heap s !! hidx);
    siftup hidx p s
  else Ret s.

Definition d_heap_pop s : outcome (d_heap T) :=
  let len := length (dh_heap s) in
  rmnode ← or_ub (dh_heap s !! 0);
  '(hidx, cidx, s) ← descend (S len) 0 d s;
  '(hidx, s) ← or_ub (descend_partial hidx cidx s);
  s ← pop_fill hidx len s;
  Ret (dh_erase rmnode s).

(** The last element is moved to the hole whether or not it is there. *)
Definition remove_fill (hidx len : nat) s : outcome (d_heap T) :=
  q ← or_ub (dh_heap s !! (len - 1));
  s ← or_ub (dh_place hidx q s);
  q ← or_ub (dh_heap s !! (len - 1));
  siftup hidx q s.

(** [remove] erases the first node rather than [p]. *)
Definition d_heap_remove (p : nat) s : outcome (d_heap T) :=
  let len := length (dh_heap s) in
  rmnode ← or_ub (dh_heap s !! 0);
  n ← or_ub (dh_nodes s !! p);
  let hidx := dn_index n in
  '(hidx, _, s) ← descend (S len) hidx (hidx * d + d) s;
  s ← remove_fill hidx len s;
  Ret (dh_erase rmnode s).

(** [p->m_value = value]. *)
Definition dh_set_value (p : nat) (value : T) s : option (d_heap T) :=
  n ← dh_nodes s !! p;
  Some (DHeap (<[p := DhNode (dn_index n) value]> (dh_nodes s)) (dh_heap s)).

Definition d_heap_increase (p : nat) (value : T) s : outcome (d_heap T) :=
  s ← or_ub (dh_set_value p value s);
  n ← or_ub (dh_nodes s !! p);
  siftup (dn_index n) p s.

(** The inner loop of [decrease], [k] rounds being left from [i] on; despite
    its name [min] becomes the largest. *)
Fixpoint decrease_family (k i cidx min : nat) s : option nat :=
  match k with
  | 0 => Some min
  | S k =>
      vm ← dh_value s min;
      q ← dh_heap s !! (cidx - i);
      vc ← dh_value s q;
      decrease_family k (i + 1) cidx (if compare vm vc then q else min) s
  end.

Fixpoint decrease_loop (fuel hidx cidx p : nat) s : outcome (nat * d_heap T) :=
  match fuel with
  | 0 => NoFuel
  | S fuel =>
      if decide (cidx < length (dh_heap s)) then
        min ← or_ub (decrease_family d 0 cidx p s);
        if decide (min = p) then Ret (hidx, s)
        else
          n ← or_ub (dh_nodes s !! min);
          s ← or_ub (dh_place hidx min s);
          decrease_loop fuel (dn_index n) (dn_index n * d + d) p s
      else Ret (hidx, s)
  end.

Definition d_heap_decrease (p : nat) (value : T) s : outcome (d_heap T) :=
  n ← or_ub (dh_nodes s !! p);
  let hidx := dn_index n in
  s ← or_ub (dh_set_value p value s);
  '(hidx, s) ← decrease_loop (S (length (dh_heap s))) hidx (hidx * d + d) p s;
  or_ub (dh_place hidx p s).

Definition d_heap_change (p : nat) (value : T) s : outcome (d_heap T) :=
  v ← or_ub (dh_value s p);
  if compare v value then d_heap_increase p value s else d_heap_decrease p value s.

Definition d_heap_change_top (value : T) s : outcome (d_heap T) :=
  p ← or_ub (dh_heap s !! 0); d_heap_change p value s.

Definition d_heap_top s : option T := dh_at s 0.
Definition d_heap_empty s : bool := bool_decide (dh_nodes s = ∅).
Definition d_heap_size s : nat := size (dh_nodes s).
End d_heap.

(** ** Well-formedness

    The first [n] entries of the vector, other than the hole [h], and the nodes
    other than those of [X] refer to each other. *)
Record wf_at {T} (n h : nat) (X : gset nat) (s : d_heap T) : Prop := WfAt {
  wf_length : n ≤ length (dh_heap s);
  wf_entry i p : i < n → i ≠ h → dh_heap s !! i = Some p →
    p ∉ X ∧ ∃ v, dh_nodes s !! p = Some (DhNode i v);
  wf_node p nd : p ∉ X → dh_nodes s !! p = Some nd →
    dn_index nd < n ∧ dn_index nd ≠ h ∧ dh_heap s !! dn_index nd = Some p;
  wf_owner p : p ∈ X → is_Some (dh_nodes s !! p);
}.

(** No hole: the heap between operations. *)
Definition dh_wf {T} (s : d_heap T) : Prop := wf_at (length (dh_heap s)) (length (dh_heap s)) ∅ s.

(** The priorities by handle. *)
Definition dh_contents {T} (s : d_heap T) : gmap nat T := dn_value <$> dh_nodes s.

Section wf.
Context {T : Type}.
Implicit Types s : d_heap T.

Lemma dh_value_contents s p : dh_value s p = dh_contents s !! p.
Proof. unfold dh_contents. by rewrite lookup_fmap. Qed.

Lemma dh_at_lookup s i p v : dh_heap s !! i = Some p → dh_contents s !! p = Some v → dh_at s i = Some v.
Proof. intros Hi Hp. unfold dh_at. rewrite Hi. cbn. by rewrite dh_value_contents. Qed.

(** Placing a handle changes one entry, and no priority. *)
Lemma dh_place_spec i p s :
  i < length (dh_heap s) → is_Some (dh_nodes s !! p) →
  ∃ s', dh_place i p s = Some s' ∧ dh_heap s' = <[i := p]> (dh_heap s) ∧
    dh_contents s' = dh_contents s ∧
    (∃ v, dh_nodes s' = <[p := DhNode i v]> (dh_nodes s)) ∧
    ∀ j, dh_at s' j = if decide (j = i) then dh_value s p else dh_at s j.
Proof.
  intros Hi [[k v] Hp]. unfold dh_place. rewrite Hp. cbn. rewrite decide_True by done.
  eexists. split; [done|]. cbn.
  assert (Hc : dh_contents (DHeap (<[p:=DhNode i v]> (dh_nodes s)) (<[i:=p]> (dh_heap s))) = dh_contents s).
  { unfold dh_contents. cbn. rewrite fmap_insert. cbn. apply insert_id. by rewrite lookup_fmap, Hp. }
  split_and!; [done|done|by exists v|]. intros j. unfold dh_at. cbn. case_decide as Hj.
  - subst j. rewrite list_lookup_insert_eq by done. cbn. by rewrite !dh_value_contents, Hc.
  - rewrite list_lookup_insert_ne by done. destruct (dh_heap s !! j); cbn; [|done].
    by rewrite !dh_value_contents, Hc.
Qed.

(** The hole moves from [h] to [j]; filling it ends it ([j] is out of range). *)
Lemma wf_place n h j X Y p s s' :
  wf_at n h (Y ∪ X) s → h < n → dh_place h p s = Some s' →
  (p ∉ Y ∪ X ∧ Y = ∅ ∧ j < n ∧ j ≠ h ∧ dh_heap s !! j = Some p) ∨ (Y = {[p]} ∧ p ∉ X ∧ j = n) →
  wf_at n j X s'.
Proof.
  intros [Hl He Hn Ho] Hh Hp Hcase.
  assert (Hsome : is_Some (dh_nodes s !! p)).
  { unfold dh_place in Hp. destruct (dh_nodes s !! p); [by eexists|done]. }
  destruct (dh_place_spec h p s) as (s0 & Hp0 & Hheap & _ & (v & Hnodes) & _); [lia|done|].
  assert (s0 = s') as -> by congruence.
  assert (HpX : p ∉ X) by (destruct Hcase as [(? & _)|(_ & ? & _)]; set_solver).
  split.
  - by rewrite Hheap, length_insert.
  - intros i q Hi Hij. rewrite Hheap, Hnodes. destruct (decide (i = h)) as [->|Hne].
    { rewrite list_lookup_insert_eq by lia. intros [= <-]. split; [done|].
      rewrite lookup_insert_eq. by eexists. }
    rewrite list_lookup_insert_ne by done. intros Hq. destruct (He i q Hi Hne Hq) as [Hq1 [w Hq2]].
    assert (q ≠ p) as Hqp.
    { intros ->. destruct Hcase as [(_ & _ & Hj & Hjh & Hjp)|(-> & _)]; [|set_solver].
      destruct (He j p Hj Hjh Hjp) as [_ [w' Hw]]. rewrite Hq2 in Hw. by simplify_eq. }
    rewrite lookup_insert_ne by done. split; [set_solver|by exists w].
  - intros q nd HqX. rewrite Hheap, Hnodes. destruct (decide (q = p)) as [->|Hqp].
    { rewrite lookup_insert_eq. intros [= <-]. cbn. rewrite list_lookup_insert_eq by lia.
      destruct Hcase as [(_ & _ & _ & ? & _)|(_ & _ & ->)]; split_and!; (lia || done). }
    rewrite lookup_insert_ne by done. intros Hq.
    destruct (Hn q nd) as (H1 & H2 & H3); [|done|].
    { destruct Hcase as [(_ & -> & _)|(-> & _)]; set_solver. }
    split; [done|]. rewrite list_lookup_insert_ne by done. split; [|done].
    destruct Hcase as [(_ & _ & Hj & Hjh & Hjp)|(_ & _ & ->)]; [|lia].
    intros Heq. rewrite Heq in H3. congruence.
  - intros q Hq. rewrite Hnodes. destruct (decide (q = p)) as [->|Hqp]; [rewrite lookup_insert_eq; by eexists|].
    rewrite lookup_insert_ne by done. apply Ho. set_solver.
Qed.

(** Taking the entry at [i] out of the order of the heap. *)
Lemma wf_open n X i p s :
  wf_at n n X s → i < n → dh_heap s !! i = Some p → wf_at n i ({[p]} ∪ X) s.
Proof.
  intros [Hl He Hn Ho] Hi Hp. destruct (He i p Hi ltac:(lia) Hp) as [HpX [v Hv]]. split.
  - done.
  - intros j q Hj Hji Hq. destruct (He j q Hj ltac:(lia) Hq) as [HqX [w Hw]]. split; [|by exists w].
    intros [->%elem_of_singleton|?]%elem_of_union; [|done]. rewrite Hv in Hw. by simplify_eq.
  - intros q nd Hq Hnd. destruct (Hn q nd) as (H1 & H2 & H3); [set_solver|done|].
    split_and!; [done| |done]. intros Heq. rewrite Heq in H3. set_solver.
  - intros q [->%elem_of_singleton|Hq]%elem_of_union; [by eexists|by apply Ho].
Qed.

Lemma wf_at_some n h X i s :
  wf_at n h X s → i < n → i ≠ h → ∃ p v, dh_heap s !! i = Some p ∧ p ∉ X ∧
    dh_nodes s !! p = Some (DhNode i v) ∧ dh_contents s !! p = Some v ∧ dh_at s i = Some v.
Proof.
  intros [Hl He Hn Ho] Hi Hih. destruct (lookup_lt_is_Some_2 (dh_heap s) i) as [p Hp]; [lia|].
  destruct (He i p Hi Hih Hp) as [HpX [v Hv]]. exists p, v.
  assert (dh_contents s !! p = Some v) by (unfold dh_contents; by rewrite lookup_fmap, Hv).
  split_and!; [done..|]. by eapply dh_at_lookup.
Qed.
End wf.

Lemma wf_move {T} n h j X p (s s' : d_heap T) :
  wf_at n h X s → h < n → j < n → j ≠ h → dh_heap s !! j = Some p → dh_place h p s = Some s' →
  wf_at n j X s'.
Proof.
  intros Hwf Hh Hj Hjh Hp Hpl. destruct (wf_entry _ _ _ _ Hwf j p Hj Hjh Hp) as [HpX _].
  apply (wf_place n h j X ∅ p s); rewrite ?(left_id_L ∅ (∪)); auto 7.
Qed.

Lemma wf_close {T} n h X p (s s' : d_heap T) :
  wf_at n h ({[p]} ∪ X) s → h < n → p ∉ X → dh_place h p s = Some s' → wf_at n n X s'.
Proof. intros Hwf Hh Hp Hpl. apply (wf_place n h n X {[p]} p s); auto. Qed.

(** ** Heap order *)
Definition dh_parent (d i : nat) : nat := (i - 1) / d.

(** [f] gives the priorities by position. Elements next to the hole [h] are
    compared across it. *)
Record ord_at {T} (compare : T → T → bool) (d n h : nat) (f : nat → option T) : Prop := OrdAt {
  ord_edge i vi vp : 0 < i < n → i ≠ h → dh_parent d i ≠ h →
    f i = Some vi → f (dh_parent d i) = Some vp → compare vp vi = false;
  ord_across i vi vp : 0 < h → 0 < i < n → dh_parent d i = h →
    f i = Some vi → f (dh_parent d h) = Some vp → compare vp vi = false;
}.

Definition dh_ordered {T} (compare : T → T → bool) (d : nat) (s : d_heap T) : Prop :=
  ord_at compare d (length (dh_heap s)) (length (dh_heap s)) (dh_at s).

(** No child of the hole is above [v]. *)
Definition kids_below {T} (compare : T → T → bool) (d n h : nat) (f : nat → option T) (v : T) : Prop :=
  ∀ i vi, 0 < i < n → dh_parent d i = h → f i = Some vi → compare v vi = false.
(** Nor is the hole's parent below [v]. *)
Definition parent_above {T} (compare : T → T → bool) (d h : nat) (f : nat → option T) (v : T) : Prop :=
  ∀ vp, 0 < h → f (dh_parent d h) = Some vp → compare vp v = false.

Section order.
Context {T : Type} (compare : T → T → bool) (d : nat).
Context (Hd : 0 < d).
Implicit Types (s : d_heap T) (f g : nat → option T).

Lemma dh_parent_lt i : 0 < i → dh_parent d i < i.
Proof.
  intros Hi. unfold dh_parent. assert ((i - 1) / d ≤ i - 1) by (apply Nat.Div0.div_le_upper_bound; nia). lia.
Qed.

(** The children of [h] are [h * d + 1] to [h * d + d]. *)
Lemma dh_parent_iff i h : 0 < i → dh_parent d i = h ↔ h * d + 1 ≤ i ≤ h * d + d.
Proof.
  intros Hi. unfold dh_parent. split.
  - intros <-. pose proof (Nat.div_mod (i - 1) d ltac:(lia)). pose proof (Nat.mod_upper_bound (i - 1) d ltac:(lia)). nia.
  - intros Hr. symmetry. apply (Nat.div_unique (i - 1) d h (i - 1 - h * d)); nia.
Qed.

Context `{!StrictWeakOrder compare}.

(** The hole moves up, the parent down. *)
Lemma ord_move_up n h f g vp :
  ord_at compare d n h f → 0 < h < n → f (dh_parent d h) = Some vp →
  (∀ j, g j = if decide (j = h) then Some vp else f j) → ord_at compare d n (dh_parent d h) g.
Proof.
  intros [He Ha] Hh Hp Hg. pose proof (dh_parent_lt h ltac:(lia)). split.
  - intros i vi w Hi Hih Hih'. rewrite !Hg. destruct (decide (i = h)) as [->|Hne]; [lia|].
    destruct (decide (dh_parent d i = h)) as [Heq|Hne2]; [|by apply He].
    intros Hvi [= <-]. apply (Ha i vi vp); [lia|done..].
  - intros i vi w Hpos Hi Hip. rewrite !Hg. pose proof (dh_parent_lt (dh_parent d h) Hpos).
    rewrite (decide_False (P := dh_parent d (dh_parent d h) = h)) by lia. intros Hvi Hw.
    assert (Hvw : compare w vp = false).
    { apply (He (dh_parent d h) vp w); [lia|lia|lia|done|done]. }
    destruct (decide (i = h)) as [->|Hne]; [by simplify_eq|].
    apply (swo_negtrans w vp vi); [done|]. rewrite <-Hip in Hp. apply (He i vi vp); [lia|done|lia|done|done].
Qed.

(** The hole moves down to [j], whose priority is the largest of the family. *)
Lemma ord_move_down n h j f g m :
  ord_at compare d n h f → 0 < j < n → dh_parent d j = h → f j = Some m →
  kids_below compare d n h f m → (∀ i, g i = if decide (i = h) then Some m else f i) →
  ord_at compare d n j g.
Proof.
  intros [He Ha] Hj Hjh Hm Hk Hg. pose proof (dh_parent_lt j ltac:(lia)). split.
  - intros i vi w Hi Hij Hij'. rewrite !Hg. destruct (decide (i = h)) as [->|Hne].
    + pose proof (dh_parent_lt h ltac:(lia)). rewrite decide_False by lia.
      intros [= <-] Hw. apply (Ha j m w); (lia || done).
    + destruct (decide (dh_parent d i = h)) as [Heq|Hne2]; [|by apply He].
      intros Hvi [= <-]. apply (Hk i vi); done.
  - intros i vi w Hpos Hi Hip. rewrite !Hg. pose proof (dh_parent_lt i ltac:(lia)).
    rewrite (decide_False (P := i = h)) by lia. rewrite Hjh, decide_True by done.
    intros Hvi [= <-]. rewrite <-Hip in Hm. apply (He i vi m); (lia || done).
Qed.

(** Filling the hole with a priority between those around it. *)
Lemma ord_close n h f g v :
  ord_at compare d n h f → h < n → kids_below compare d n h f v → parent_above compare d h f v →
  (∀ i, g i = if decide (i = h) then Some v else f i) → ord_at compare d n n g.
Proof.
  intros [He Ha] Hh Hk Hp Hg. split.
  - intros i vi w Hi _ _. rewrite !Hg. destruct (decide (i = h)) as [->|Hne].
    + pose proof (dh_parent_lt h ltac:(lia)). rewrite decide_False by lia.
      intros [= <-] Hw. apply (Hp w); (lia || done).
    + destruct (decide (dh_parent d i = h)) as [Heq|Hne2]; [|by apply He].
      intros Hvi [= <-]. by apply (Hk i vi).
  - intros i vi w _ Hi Hip. pose proof (dh_parent_lt i ltac:(lia)). lia.
Qed.

(** Any position may be taken for the hole of an ordered heap. *)
Lemma ord_open n h f : ord_at compare d n n f → h < n → is_Some (f h) → ord_at compare d n h f.
Proof.
  intros [He Ha] Hh [v Hv]. split.
  - intros i vi vp Hi _ _. apply He; [done|lia|]. pose proof (dh_parent_lt i ltac:(lia)). lia.
  - intros i vi vp Hpos Hi Hip Hvi Hvp. pose proof (dh_parent_lt i ltac:(lia)).
    pose proof (dh_parent_lt h Hpos). apply (swo_negtrans vp v vi).
    + apply (He h v vp); (lia || done).
    + rewrite <-Hip in Hv. apply (He i vi v); (lia || done).
Qed.

Lemma ord_kids n h f v : ord_at compare d n n f → f h = Some v → kids_below compare d n h f v.
Proof.
  intros [He _] Hv i vi Hi Hip. rewrite <-Hip in Hv. pose proof (dh_parent_lt i ltac:(lia)).
  intros Hvi. apply (He i vi v); (lia || done).
Qed.

Lemma ord_parent n h f v : ord_at compare d n n f → h < n → f h = Some v → parent_above compare d h f v.
Proof.
  intros [He _] Hh Hv vp Hpos Hvp. pose proof (dh_parent_lt h Hpos). apply (He h v vp); (lia || done).
Qed.

(** A smaller heap, and other priorities at the hole and beyond. *)
Lemma ord_weaken n n' h f g :
  ord_at compare d n h f → n' ≤ n → h ≤ n → (∀ i, i < n' → i ≠ h → g i = f i) → ord_at compare d n' h g.
Proof.
  intros [He Ha] Hn Hh Hg. split.
  - intros i vi vp Hi Hih Hp. pose proof (dh_parent_lt i ltac:(lia)).
    rewrite !Hg by lia. apply He; (lia || done).
  - intros i vi vp Hpos Hi Hip. pose proof (dh_parent_lt i ltac:(lia)). pose proof (dh_parent_lt h Hpos).
    rewrite !Hg by lia. apply Ha; (lia || done).
Qed.

(** The top of an ordered heap is not below any element. *)
Lemma ord_top n f v0 i vi :
  ord_at compare d n n f → (∀ i, i < n → is_Some (f i)) → f 0 = Some v0 → i < n → f i = Some vi →
  compare v0 vi = false.
Proof.
  intros [He _] Hf H0. revert vi. induction i as [i IH] using lt_wf_ind. intros vi Hi Hvi.
  destruct (decide (i = 0)) as [->|Hne]; [simplify_eq; by apply (swo_irrefl compare)|].
  pose proof (dh_parent_lt i ltac:(lia)). destruct (Hf (dh_parent d i) ltac:(lia)) as [vp Hvp].
  apply (swo_negtrans v0 vp vi); [by apply (IH (dh_parent d i)); [lia|lia|]|].
  apply (He i vi vp); (lia || done).
Qed.
End order.

(** ** The loops

    [same_heap]: the priorities and the size are unchanged. *)
Definition same_heap {T} (s s' : d_heap T) : Prop :=
  dh_contents s' = dh_contents s ∧ length (dh_heap s') = length (dh_heap s).

#[export] Instance same_heap_preorder {T} : PreOrder (@same_heap T).
Proof. split; [done|]. intros s1 s2 s3 [? ?] [? ?]. split; congruence. Qed.

Lemma hole_move {T} n h j X p v (s : d_heap T) :
  wf_at n h X s → h < n → j < n → j ≠ h → dh_heap s !! j = Some p → dh_at s j = Some v →
  ∃ s', dh_place h p s = Some s' ∧ wf_at n j X s' ∧ same_heap s s' ∧
    ∀ i, dh_at s' i = if decide (i = h) then Some v else dh_at s i.
Proof.
  intros Hwf Hh Hj Hjh Hp Hv. destruct (wf_entry _ _ _ _ Hwf j p Hj Hjh Hp) as [_ [w Hw]].
  pose proof (wf_length _ _ _ _ Hwf).
  destruct (dh_place_spec h p s) as (s' & Hpl & Hheap & Hc & _ & Hat); [lia|by eexists|].
  exists s'. split; [done|]. split; [by eapply wf_move|].
  split; [split; [done|by rewrite Hheap, length_insert]|].
  intros i. rewrite Hat. case_decide; [|done]. rewrite <-Hv. unfold dh_at. by rewrite Hp.
Qed.

Lemma hole_close {T} n h X p v (s : d_heap T) :
  wf_at n h ({[p]} ∪ X) s → h < n → p ∉ X → dh_contents s !! p = Some v →
  ∃ s', dh_place h p s = Some s' ∧ wf_at n n X s' ∧ same_heap s s' ∧
    ∀ i, dh_at s' i = if decide (i = h) then Some v else dh_at s i.
Proof.
  intros Hwf Hh Hp Hv. pose proof (wf_length _ _ _ _ Hwf).
  destruct (dh_place_spec h p s) as (s' & Hpl & Hheap & Hc & _ & Hat);
    [lia|apply (wf_owner _ _ _ _ Hwf); set_solver|].
  exists s'. split; [done|]. split; [by eapply wf_close|].
  split; [split; [done|by rewrite Hheap, length_insert]|].
  intros i. rewrite Hat. case_decide; [|done]. by rewrite dh_value_contents.
Qed.

Section loops.
Context {T : Type} (compare : T → T → bool) (d : nat).
Context (Hd : 0 < d).
Implicit Types (s : d_heap T).

Lemma siftup_loop_spec n X ptr v fuel idx s :
  idx < fuel → idx < n → ptr ∉ X → wf_at n idx ({[ptr]} ∪ X) s → dh_contents s !! ptr = Some v →
  ∃ s', siftup_loop compare d fuel idx (dh_parent d idx) ptr s = Ret s' ∧ wf_at n n X s' ∧ same_heap s s' ∧
    (StrictWeakOrder compare → ord_at compare d n idx (dh_at s) →
      kids_below compare d n idx (dh_at s) v → ord_at compare d n n (dh_at s')).
Proof.
  revert idx s. induction fuel as [|fuel IH]; intros idx s Hf Hi HpX Hwf Hv; [lia|].
  cbn [siftup_loop]. destruct (hole_close n idx X ptr v s Hwf Hi HpX Hv) as (sc & Hpl & Hwfc & Hsc & Hatc).
  destruct (decide (idx = 0)) as [->|Hne].
  { rewrite Hpl. exists sc. split_and!; [done..|]. intros Hswo Ho Hk.
    apply (ord_close compare d Hd n 0 (dh_at s) _ v); [done|done|done| |done]. intros vp ?. lia. }
  pose proof (dh_parent_lt d Hd idx ltac:(lia)) as Hlt.
  destruct (wf_at_some n idx _ (dh_parent d idx) s Hwf ltac:(lia) ltac:(lia)) as (q & vp & Hq & _ & _ & _ & Hvp).
  rewrite Hvp, dh_value_contents, Hv. cbn [or_ub mbind outcome_bind]. destruct (compare vp v) eqn:E.
  - rewrite Hq. cbn [or_ub mbind outcome_bind].
    destruct (hole_move n idx (dh_parent d idx) _ q vp s Hwf Hi ltac:(lia) ltac:(lia) Hq Hvp)
      as (s1 & -> & Hwf1 & Hs1 & Hat1). cbn [or_ub mbind outcome_bind].
    destruct (IH (dh_parent d idx) s1) as (s' & Hrun & Hwf' & Hs' & Hord); [lia|lia|done|done|by rewrite (proj1 Hs1)|].
    exists s'. split_and!; [exact Hrun|done|by etrans|]. intros Hswo Ho Hk. apply (Hord Hswo).
    + by apply (ord_move_up compare d Hd n idx (dh_at s) _ vp); [|lia|..].
    + intros i vi Hin Hip. rewrite Hat1. pose proof (swo_asym vp v E) as Hvv.
      case_decide as Hdi; [by intros [= <-]|]. intros Hvi. apply (swo_negtrans v vp vi); [done|].
      rewrite <-Hip in Hvp. pose proof (dh_parent_lt d Hd i ltac:(lia)).
      apply (ord_edge _ _ _ _ _ Ho i vi vp); (lia || done).
  - rewrite Hpl. exists sc. split_and!; [done..|]. intros Hswo Ho Hk.
    apply (ord_close compare d Hd n idx (dh_at s) _ v); [done..| |done]. intros w Hpos Hw. congruence.
Qed.

(** The element at [idx], whose priority may be too high, is sifted up. *)
Lemma siftup_spec n X idx ptr v s :
  idx < n → wf_at n n X s → dh_heap s !! idx = Some ptr → dh_contents s !! ptr = Some v →
  ∃ s', siftup compare d idx ptr s = Ret s' ∧ wf_at n n X s' ∧ same_heap s s' ∧
    (StrictWeakOrder compare → ord_at compare d n idx (dh_at s) →
      kids_below compare d n idx (dh_at s) v → ord_at compare d n n (dh_at s')).
Proof.
  intros Hi Hwf Hp Hv. unfold siftup. case_decide as H0.
  - exists s. split_and!; [done..|]. intros Hswo Ho Hk. subst idx.
    apply (ord_close compare d Hd n 0 (dh_at s) _ v); [done|done|done|intros vp ?; lia|].
    intros i. case_decide; [subst; by eapply dh_at_lookup|done].
  - destruct (siftup_loop_spec n X ptr v (S idx) idx s) as (s' & Hrun & Hrest);
      [lia|done|by apply (wf_entry _ _ _ _ Hwf idx ptr Hi ltac:(lia) Hp)|by apply wf_open|done|].
    exists s'. split; [|exact Hrest]. exact Hrun.
Qed.

(** Selecting from a complete family of the hole [h]. *)
Lemma family_max_spec n h X s k i midx :
  wf_at n h X s → n = length (dh_heap s) → k + i = d → 0 < i →
  h * d + d < n → h * d + 1 ≤ midx ≤ h * d + d →
  ∃ m vm, family_max compare k i (h * d + d) midx s = Some m ∧ h * d + 1 ≤ m ≤ h * d + d ∧
    dh_at s m = Some vm ∧
    (StrictWeakOrder compare →
      (∀ c vc, h * d + d - i < c ≤ h * d + d → dh_at s c = Some vc → ∀ v, dh_at s midx = Some v → compare v vc = false) →
      ∀ c vc, h * d + 1 ≤ c ≤ h * d + d → dh_at s c = Some vc → compare vm vc = false).
Proof.
  intros Hwf Hn. revert i midx. induction k as [|k IH]; intros i midx Hk Hi Hfull Hm.
  - destruct (wf_at_some n h X midx s Hwf ltac:(lia) ltac:(nia)) as (p & v & _ & _ & _ & _ & Hv).
    exists midx, v. split_and!; [done|lia|lia|done|]. intros _ H c vc Hc Hvc. apply (H c vc); [lia|done|done].
  - cbn [family_max].
    destruct (wf_at_some n h X midx s Hwf ltac:(lia) ltac:(nia)) as (p & v & _ & _ & _ & _ & Hv).
    destruct (wf_at_some n h X (h * d + d - i) s Hwf ltac:(lia) ltac:(nia)) as (p' & v' & _ & _ & _ & _ & Hv').
    rewrite Hv, Hv'. cbn [mbind option_bind].
    destruct (IH (i + 1) (if compare v v' then h * d + d - i else midx)) as (m & vm & Hrun & Hmr & Hvm & Hmax);
      [lia|lia|lia|destruct (compare v v'); lia|].
    exists m, vm. split_and!; [done|lia|lia|done|]. intros Hswo H. apply (Hmax Hswo).
    intros c vc Hc Hvc w Hw. destruct (compare v v') eqn:E.
    + assert (w = v') as -> by congruence. destruct (decide (c = h * d + d - i)) as [->|Hci].
      { assert (vc = v') as -> by congruence. by apply (swo_irrefl compare). }
      apply (swo_negtrans v' v vc); [by apply swo_asym|]. apply (H c vc); [lia|done|done].
    + assert (w = v) as -> by congruence. destruct (decide (c = h * d + d - i)) as [->|Hci]; [congruence|].
      apply (H c vc); [lia|done|done].
Qed.
End loops.

Section descent.
Context {T : Type} (compare : T → T → bool) (d : nat).
Context (Hd : 0 < d).
Implicit Types (s : d_heap T).

Lemma descend_spec n X fuel h s :
  wf_at n h X s → n = length (dh_heap s) → h < n → n - h < fuel →
  ∃ h' s', descend compare d fuel h (h * d + d) s = Ret (h', h' * d + d, s') ∧ wf_at n h' X s' ∧
    same_heap s s' ∧ h ≤ h' < n ∧ n ≤ h' * d + d ∧
    (∀ i, i < h → dh_heap s' !! i = dh_heap s !! i) ∧
    (StrictWeakOrder compare → ord_at compare d n h (dh_at s) → ord_at compare d n h' (dh_at s')).
Proof.
  revert h s. induction fuel as [|fuel IH]; intros h s Hwf Hn Hh Hf; [lia|].
  cbn [descend]. rewrite <-Hn. case_decide as Hc.
  - destruct (family_max_spec compare d Hd n h X s (d - 1) 1 (h * d + d)) as (m & vm & -> & Hm & Hvm & Hmax);
      [done|done|lia|lia|done|lia|]. cbn [or_ub mbind outcome_bind].
    destruct (wf_at_some n h X m s Hwf ltac:(lia) ltac:(nia)) as (p & w & Hp & _ & _ & _ & Hw).
    rewrite Hp. cbn [or_ub mbind outcome_bind].
    destruct (hole_move n h m X p vm s) as (s1 & Hpl & Hwf1 & Hs1 & Hat1); [done|done|lia|nia|done|done|].
    rewrite Hpl. cbn [or_ub mbind outcome_bind].
    destruct (IH m s1) as (h' & s' & Hrun & Hwf' & Hs' & Hh' & Hlast & Hlow & Hord);
      [done|by rewrite (proj2 Hs1)|lia|nia|].
    exists h', s'. split_and!; [done|done|by etrans|nia|lia|done| |].
    + intros i Hi. rewrite Hlow by nia. unfold dh_place in Hpl. destruct (dh_nodes s !! p); [|done].
      cbn in Hpl. case_decide; [|done]. injection Hpl as <-. cbn. by rewrite list_lookup_insert_ne by lia.
    + intros Hswo Ho. apply (Hord Hswo).
      assert (Hkids : ∀ c vc, h * d + 1 ≤ c ≤ h * d + d → dh_at s c = Some vc → compare vm vc = false).
      { apply (Hmax Hswo). intros c vc Hcr Hvc v Hv. assert (c = h * d + d) as -> by lia.
        assert (v = vc) as -> by congruence. by apply (swo_irrefl compare). }
      apply (ord_move_down compare d Hd n h m (dh_at s) _ vm); [done|nia| |done| |done].
      * apply dh_parent_iff; nia.
      * intros i vi Hi Hip. apply Hkids, dh_parent_iff; [done|nia|done].
  - exists h, s. split_and!; [done..|lia|lia|lia|done|done].
Qed.

Lemma partial_max_spec n h X s k c midx :
  wf_at n h X s → n = length (dh_heap s) → h * d + 1 ≤ midx ≤ c → c < n → n - c ≤ k →
  ∃ m vm, partial_max compare k c midx s = Some m ∧ h * d + 1 ≤ m < n ∧ dh_at s m = Some vm ∧
    (StrictWeakOrder compare →
      (∀ c' vc, h * d + 1 ≤ c' ≤ c → dh_at s c' = Some vc → ∀ v, dh_at s midx = Some v → compare v vc = false) →
      ∀ c' vc, h * d + 1 ≤ c' < n → dh_at s c' = Some vc → compare vm vc = false).
Proof.
  intros Hwf Hn. revert c midx. induction k as [|k IH]; intros c midx Hm Hc Hk; [lia|].
  cbn [partial_max]. rewrite <-Hn.
  destruct (wf_at_some n h X midx s Hwf ltac:(lia) ltac:(nia)) as (p & v & _ & _ & _ & _ & Hv).
  case_decide as Hc'.
  - destruct (wf_at_some n h X (c + 1) s Hwf ltac:(lia) ltac:(nia)) as (p' & v' & _ & _ & _ & _ & Hv').
    rewrite Hv, Hv'. cbn [mbind option_bind].
    destruct (IH (c + 1) (if compare v v' then c + 1 else midx)) as (m & vm & Hrun & Hmr & Hvm & Hmax);
      [destruct (compare v v'); lia|lia|lia|].
    exists m, vm. split_and!; [done|lia|lia|done|]. intros Hswo H. apply (Hmax Hswo).
    intros i vc Hi Hvc w Hw. destruct (compare v v') eqn:E.
    + assert (w = v') as -> by congruence. destruct (decide (i = c + 1)) as [->|Hci].
      { assert (vc = v') as -> by congruence. by apply (swo_irrefl compare). }
      apply (swo_negtrans v' v vc); [by apply swo_asym|]. apply (H i vc); [lia|done|done].
    + assert (w = v) as -> by congruence. destruct (decide (i = c + 1)) as [->|Hci]; [congruence|].
      apply (H i vc); [lia|done|done].
  - exists midx, v. split_and!; [done|lia|lia|done|]. intros _ H i vc Hi Hvc. apply (H i vc); [lia|done|done].
Qed.

(** After both steps the hole has no children left. *)
Lemma descend_partial_spec n X h s :
  wf_at n h X s → n = length (dh_heap s) → h < n → n ≤ h * d + d →
  ∃ h' s', descend_partial compare d h (h * d + d) s = Some (h', s') ∧ wf_at n h' X s' ∧
    same_heap s s' ∧ h ≤ h' < n ∧ n ≤ h' * d + 1 ∧
    (StrictWeakOrder compare → ord_at compare d n h (dh_at s) → ord_at compare d n h' (dh_at s')).
Proof.
  intros Hwf Hn Hh Hlast. unfold descend_partial. rewrite <-Hn.
  replace (h * d + d + 1 - d) with (h * d + 1) by lia. case_decide as Hc.
  - destruct (partial_max_spec n h X s n (h * d + 1) (h * d + 1)) as (m & vm & -> & Hm & Hvm & Hmax);
      [done|done|lia|lia|lia|]. cbn [mbind option_bind].
    destruct (wf_at_some n h X m s Hwf ltac:(lia) ltac:(nia)) as (p & w & Hp & _ & _ & _ & Hw).
    rewrite Hp. cbn [mbind option_bind].
    destruct (hole_move n h m X p vm s) as (s1 & -> & Hwf1 & Hs1 & Hat1); [done|done|lia|nia|done|done|].
    cbn [mbind option_bind]. exists m, s1. split_and!; [done..|nia|lia|nia|].
    intros Hswo Ho.
    assert (Hkids : ∀ c vc, h * d + 1 ≤ c < n → dh_at s c = Some vc → compare vm vc = false).
    { apply (Hmax Hswo). intros c vc Hcr Hvc v Hv. assert (c = h * d + 1) as -> by lia.
      assert (v = vc) as -> by congruence. by apply (swo_irrefl compare). }
    apply (ord_move_down compare d Hd n h m (dh_at s) _ vm); [done|nia| |done| |done].
    + apply dh_parent_iff; nia.
    + intros i vi Hi Hip. apply Hkids. apply (dh_parent_iff d Hd i h ltac:(lia)) in Hip. lia.
  - exists h, s. split_and!; [done..|lia|lia|lia|done].
Qed.
End descent.
