(* ===== verification/PriorityQueue.v ===== *)
(** * Priority queues

    What the heaps of src/src/old-boost/heaps promise: a priority queue is a
    finite map from handles to priorities, of which [top] is a largest one. The
    operations are the constructors of [pq_op], [pq_step] is what they do to the
    map, and the class [PriorityQueueSpec] is the interface; its instances are
    the d-heap (DHeapQueue), the pairing heap (PairingQueue), the Fibonacci heap
    (FibQueue), the splay heap (SplayQueue) and, for some operations, the lazy
    Fibonacci heap (LazyQueue). *)
From stdpp Require Import sorting.
From S2P Require Import Prelude.

(** ** Operations *)
Inductive pq_op (T : Type) :=
  | PqPush (v : T)
  | PqPop
  | PqIncrease (p : nat) (v : T)
  | PqDecrease (p : nat) (v : T)
  | PqChange (p : nat) (v : T)
  | PqRemove (p : nat).
Arguments PqPush {T} _.
Arguments PqPop {T}.
Arguments PqIncrease {T} _ _.
Arguments PqDecrease {T} _ _.
Arguments PqChange {T} _ _.
Arguments PqRemove {T} _.

Section abstract.
Context {T : Type} (compare : T → T → bool).
Implicit Types m : gmap nat T.

(** What a client may do with a queue that has the elements [m]: the handles it
    uses exist. *)
Definition pq_valid m (op : pq_op T) : Prop :=
  match op with
  | PqPush _ => True
  | PqPop => m ≠ ∅
  | PqIncrease p _ | PqDecrease p _ | PqChange p _ | PqRemove p => is_Some (m !! p)
  end.

(** [v] is not less than any priority. *)
Definition pq_largest m (v : T) : Prop := ∀ q w, m !! q = Some w → compare v w = false.

Inductive pq_step m : pq_op T → gmap nat T → Prop :=
  | pq_push p v : m !! p = None → pq_step m (PqPush v) (<[p := v]> m)
  | pq_pop p v : m !! p = Some v → pq_largest m v → pq_step m PqPop (delete p m)
  | pq_increase p v : pq_step m (PqIncrease p v) (<[p := v]> m)
  | pq_decrease p v : pq_step m (PqDecrease p v) (<[p := v]> m)
  | pq_change p v : pq_step m (PqChange p v) (<[p := v]> m)
  | pq_remove p : pq_step m (PqRemove p) (delete p m).
End abstract.

(** ** The interface *)
Class PriorityQueue (H T : Type) := {
  pq_new : H;
  pq_run : pq_op T → H → outcome H;
  pq_top : H → option T;
}.

(** [pq_allowed] are the operations an implementation does right. *)
Class PriorityQueueSpec (H T : Type) (compare : T → T → bool) `{PriorityQueue H T} := {
  pq_inv : H → Prop;
  pq_contents : H → gmap nat T;
  pq_allowed : gmap nat T → pq_op T → Prop;
  pq_allowed_basic m op : (op = PqPop ∨ ∃ v, op = PqPush v) → pq_valid m op → pq_allowed m op;
  pq_new_spec : pq_inv pq_new ∧ pq_contents pq_new = ∅;
  pq_run_spec op h : pq_inv h → pq_allowed (pq_contents h) op →
    ∃ h', pq_run op h = Ret h' ∧ pq_inv h' ∧ pq_step compare (pq_contents h) op (pq_contents h');
  pq_top_spec h : pq_inv h → pq_contents h ≠ ∅ →
    ∃ p v h', pq_top h = Some v ∧ pq_contents h !! p = Some v ∧ pq_largest compare (pq_contents h) v ∧
      pq_run PqPop h = Ret h' ∧ pq_contents h' = delete p (pq_contents h);
}.

(** ** A client *)
Section client.
Context {H T : Type} {compare : T → T → bool} {HP : PriorityQueue H T} {HS : PriorityQueueSpec H T compare}.
Implicit Types h : H.

(** Pushing the elements of a list, and taking [n] elements out. *)
Fixpoint pq_fill (vs : list T) h : outcome H :=
  match vs with [] => Ret h | v :: vs => h ← pq_run (PqPush v) h; pq_fill vs h end.
Fixpoint pq_drain (n : nat) h : outcome (list T * H) :=
  match n with
  | 0 => Ret ([], h)
  | S n => v ← or_ub (pq_top h); h ← pq_run PqPop h; '(vs, h) ← pq_drain n h; Ret (v :: vs, h)
  end.

Definition pq_values (m : gmap nat T) : list T := (map_to_list m).*2.

Lemma pq_values_insert m p v : m !! p = None → pq_values (<[p := v]> m) ≡ₚ v :: pq_values m.
Proof. intros Hp. unfold pq_values. by rewrite map_to_list_insert. Qed.

Lemma pq_values_delete m p v : m !! p = Some v → pq_values m ≡ₚ v :: pq_values (delete p m).
Proof. intros Hp. unfold pq_values. by rewrite <-(map_to_list_delete m p v). Qed.

Lemma pq_fill_spec vs h :
  pq_inv h → ∃ h', pq_fill vs h = Ret h' ∧ pq_inv h' ∧
    pq_values (pq_contents h') ≡ₚ vs ++ pq_values (pq_contents h).
Proof.
  revert h. induction vs as [|v vs IH]; intros h Hh; simpl; [by exists h|].
  destruct (pq_run_spec (PqPush v) h Hh) as (h1 & -> & Hh1 & Hs).
  { apply pq_allowed_basic; [right; by exists v|done]. }
  simpl. destruct (IH h1 Hh1) as (h2 & -> & Hh2 & Hp). exists h2. split_and!; [done..|].
  rewrite Hp. inversion Hs as [p w Hn Hop E| | | | |]. rewrite pq_values_insert by done.
  by rewrite Permutation_middle.
Qed.

Lemma pq_values_elem m p v : m !! p = Some v → v ∈ pq_values m.
Proof. intros Hp. apply list_elem_of_fmap. exists (p, v). by rewrite elem_of_map_to_list. Qed.
Lemma pq_values_lookup m v : v ∈ pq_values m → ∃ p, m !! p = Some v.
Proof. intros ([p w] & -> & ?%elem_of_map_to_list)%list_elem_of_fmap. by exists p. Qed.

(** Taking all elements out yields them in order, the largest first. *)
Lemma pq_drain_spec n h :
  pq_inv h → size (pq_contents h) = n →
  ∃ vs h', pq_drain n h = Ret (vs, h') ∧ pq_inv h' ∧ pq_contents h' = ∅ ∧
    vs ≡ₚ pq_values (pq_contents h) ∧ StronglySorted (λ v w, compare v w = false) vs.
Proof.
  revert h. induction n as [|n IH]; intros h Hh Hn; simpl.
  { apply map_size_empty_inv in Hn. exists [], h. split_and!; [done..| |constructor].
    unfold pq_values. by rewrite Hn, map_to_list_empty. }
  assert (Hne : pq_contents h ≠ ∅) by (intros E; rewrite E, map_size_empty in Hn; done).
  destruct (pq_top_spec h Hh Hne) as (p & v & h1 & -> & Hp & Hmax & Hrun & Hc). simpl.
  destruct (pq_run_spec PqPop h Hh) as (h1' & Hrun' & Hh1 & _); [apply pq_allowed_basic; [by left|done]|].
  rewrite Hrun in Hrun'. injection Hrun' as <-. rewrite Hrun. simpl.
  destruct (IH h1 Hh1) as (vs & h2 & -> & Hh2 & Hc2 & Hperm & Hsorted).
  { rewrite Hc, map_size_delete, Hp. lia. }
  exists (v :: vs), h2. split_and!; [done..| |].
  - by rewrite (pq_values_delete _ p v Hp), Hperm, Hc.
  - constructor; [done|]. apply Forall_forall. intros w Hw. rewrite Hperm, Hc in Hw.
    apply pq_values_lookup in Hw as [q [_ Hq]%lookup_delete_Some]. by apply (Hmax q).
Qed.

(** Filling a new queue and taking everything out sorts. *)
Definition pq_sort (vs : list T) : outcome (list T) :=
  h ← pq_fill vs pq_new; '(vs', _) ← pq_drain (length vs) h; Ret vs'.

Lemma pq_sorts vs :
  ∃ vs', pq_sort vs = Ret vs' ∧ vs' ≡ₚ vs ∧ StronglySorted (λ v w, compare v w = false) vs'.
Proof.
  destruct pq_new_spec as [Hn Hc]. destruct (pq_fill_spec vs pq_new Hn) as (h & Hf & Hh & Hp).
  assert (Hp' : pq_values (pq_contents h) ≡ₚ vs).
  { rewrite Hp, Hc. unfold pq_values. by rewrite map_to_list_empty, app_nil_r. }
  destruct (pq_drain_spec (length vs) h Hh) as (vs' & h' & Hd & _ & _ & Hperm & Hs).
  { rewrite <-Hp'. unfold pq_values. by rewrite length_fmap, length_map_to_list. }
  exists vs'. unfold pq_sort. rewrite Hf. simpl. rewrite Hd. split_and!; [done|by rewrite Hperm|done].
Qed.

(** For a linear order there is one sorted list, whatever the implementation. *)
Lemma pq_sort_eq vs ws :
  (∀ v w, compare v w = false → compare w v = false → v = w) →
  ws ≡ₚ vs → StronglySorted (λ v w, compare v w = false) ws → pq_sort vs = Ret ws.
Proof.
  intros Hanti Hp Hs. destruct (pq_sorts vs) as (vs' & -> & Hp' & Hs'). f_equal.
  assert (AntiSymm (=) (λ v w, compare v w = false)) by (intros v w; apply Hanti).
  eapply StronglySorted_unique; [done..|]. by rewrite Hp', Hp.
Qed.
End client.
