(* ===== verification/DHeapQueue.v ===== *)
(** * The d-heap as a priority queue

    What the operations of DHeap do: [push], [pop], [increase], [decrease] and
    [change] refine an abstract priority queue - a finite map from handles to
    priorities - as far as the code is right, and where it is not: [remove], and
    lowering a priority above a family which is not complete. *)
From S2P Require Import Prelude PriorityQueue DHeap.

(** ** The operations *)
Section erase.
Context {T : Type}.
Implicit Types s : d_heap T.

Lemma wf_drop_last n X s : wf_at (S n) n X s → wf_at n n X s.
Proof.
  intros [Hl He Hn Ho]. split; [lia| | |done].
  - intros i p Hi Hne. apply He; lia.
  - intros p nd Hp Hnd. destruct (Hn p nd Hp Hnd) as (? & ? & ?). split_and!; [lia|lia|done].
Qed.

Lemma dh_erase_spec n r s :
  wf_at n n {[r]} s → length (dh_heap s) = S n →
  dh_wf (dh_erase r s) ∧ dh_contents (dh_erase r s) = delete r (dh_contents s) ∧
  length (dh_heap (dh_erase r s)) = n ∧ ∀ i, i < n → dh_at (dh_erase r s) i = dh_at s i.
Proof.
  intros [Hl He Hn Ho] Hlen. unfold dh_wf, dh_erase. cbn. rewrite length_take, Hlen.
  replace (S n - 1) with n by lia. rewrite Nat.min_l by lia. split_and!; [split|..]; cbn.
  - rewrite length_take. lia.
  - intros i p Hi _. rewrite lookup_take_lt by done. intros Hp. destruct (He i p Hi ltac:(lia) Hp) as [Hr Hv].
    split; [set_solver|]. rewrite lookup_delete_ne by set_solver. done.
  - intros p nd _ [Hne Hnd]%lookup_delete_Some. destruct (Hn p nd) as (? & ? & ?); [set_solver|done|].
    split_and!; [lia|lia|]. by rewrite lookup_take_lt by lia.
  - set_solver.
  - unfold dh_contents. cbn. by rewrite fmap_delete.
  - done.
  - intros i Hi. unfold dh_at, dh_value. cbn. rewrite lookup_take_lt by done.
    destruct (dh_heap s !! i) as [p|] eqn:Hp; [|done]. cbn.
    destruct (He i p Hi ltac:(lia) Hp) as [Hr _]. by rewrite lookup_delete_ne by set_solver.
Qed.

Lemma dh_wf_size s : dh_wf s → length (dh_heap s) = size (dh_contents s).
Proof.
  intros [Hl He Hn _]. unfold dh_contents. rewrite map_size_fmap, <-size_dom.
  assert (dom (dh_nodes s) = list_to_set (dh_heap s)) as ->.
  { apply set_eq. intros p. rewrite elem_of_dom, elem_of_list_to_set, list_elem_of_lookup. split.
    - intros [nd Hnd]. destruct (Hn p nd) as (_ & _ & ?); [set_solver|done|]. eauto.
    - intros [i Hi]. pose proof (lookup_lt_Some _ _ _ Hi).
      destruct (He i p) as (_ & v & ?); [lia|lia|done|]. by eexists. }
  symmetry. apply size_list_to_set, NoDup_alt. intros i j p Hi Hj.
  pose proof (lookup_lt_Some _ _ _ Hi). pose proof (lookup_lt_Some _ _ _ Hj).
  destruct (He i p) as (_ & v & Hv); [lia|lia|done|]. destruct (He j p) as (_ & w & Hw); [lia|lia|done|].
  congruence.
Qed.

(** A handle in use is found where its node says. *)
Lemma dh_wf_handle s p v :
  dh_wf s → dh_contents s !! p = Some v →
  ∃ i, dh_nodes s !! p = Some (DhNode i v) ∧ i < length (dh_heap s) ∧ dh_heap s !! i = Some p ∧
    dh_at s i = Some v.
Proof.
  intros [Hl He Hn _] Hp. unfold dh_contents in Hp.
  rewrite lookup_fmap in Hp. destruct (dh_nodes s !! p) as [[i w]|] eqn:E; [|done]. cbn in Hp.
  injection Hp as ->. exists i. destruct (Hn p (DhNode i v)) as (H1 & _ & H3); [set_solver|done|]. cbn in *.
  split_and!; [done..|]. eapply dh_at_lookup; [done|]. unfold dh_contents. by rewrite lookup_fmap, E.
Qed.

(** Assigning a priority. *)
Lemma dh_set_value_spec s p i v w :
  dh_wf s → dh_nodes s !! p = Some (DhNode i v) → dh_heap s !! i = Some p →
  ∃ s', dh_set_value p w s = Some s' ∧ dh_wf s' ∧ dh_nodes s' !! p = Some (DhNode i w) ∧
    dh_heap s' = dh_heap s ∧ dh_contents s' = <[p := w]> (dh_contents s) ∧
    ∀ j, j ≠ i → j < length (dh_heap s) → dh_at s' j = dh_at s j.
Proof.
  intros [Hl He Hn Ho] Hp Hi. unfold dh_set_value. rewrite Hp. cbn.
  eexists. split; [done|]. unfold dh_wf. cbn. split_and!; [split; cbn| |done| |].
  - done.
  - intros j q Hj Hjl Hq. destruct (He j q Hj Hjl Hq) as [? [u Hu]]. split; [done|].
    destruct (decide (q = p)) as [->|Hqp]; [|rewrite lookup_insert_ne by done; by exists u].
    rewrite lookup_insert_eq. rewrite Hp in Hu. injection Hu as -> ->. by exists w.
  - intros q nd _. destruct (decide (q = p)) as [->|Hqp].
    + rewrite lookup_insert_eq. intros [= <-]. cbn. pose proof (lookup_lt_Some _ _ _ Hi).
      split_and!; [lia|lia|done].
    + rewrite lookup_insert_ne by done. intros Hq. apply (Hn q nd); [set_solver|done].
  - set_solver.
  - by rewrite lookup_insert_eq.
  - unfold dh_contents. cbn. by rewrite fmap_insert.
  - intros j Hji Hj. unfold dh_at, dh_value. cbn. destruct (dh_heap s !! j) as [q|] eqn:Hq; [|done]. cbn.
    destruct (decide (q = p)) as [->|Hqp]; [|by rewrite lookup_insert_ne].
    destruct (He j p) as [_ [u Hu]]; [lia|lia|done|]. rewrite Hp in Hu. congruence.
Qed.
End erase.

Section operations.
Context {T : Type} (compare : T → T → bool) (d : nat).
Context (Hd : 0 < d).
Implicit Types (s : d_heap T).

(** A new node at the end of the vector. *)
Lemma dh_append_spec v s p :
  let n := length (dh_heap s) in
  let s1 := DHeap (<[p := DhNode n v]> (dh_nodes s)) (dh_heap s ++ [p]) in
  dh_wf s → dh_nodes s !! p = None →
  wf_at (S n) (S n) ∅ s1 ∧ dh_heap s1 !! n = Some p ∧ dh_contents s1 = <[p := v]> (dh_contents s) ∧
  ∀ i, i < n → dh_at s1 i = dh_at s i.
Proof.
  cbn zeta. set (n := length (dh_heap s)). intros [Hl He Hn Ho] Hp.
  fold n in He, Hn. split_and!; [split; cbn|..].
  - rewrite length_app. cbn. unfold n. lia.
  - intros i q Hi _ [Hq|[Hq1 Hq2]]%lookup_app_Some.
    + pose proof (lookup_lt_Some _ _ _ Hq). fold n in H. destruct (He i q ltac:(done) ltac:(lia) Hq) as [_ [w Hw]].
      split; [set_solver|]. rewrite lookup_insert_ne by congruence. by exists w.
    + apply list_lookup_singleton_Some in Hq2 as [Hi0 <-]. fold n in Hq1, Hi0. assert (i = n) as -> by lia.
      split; [set_solver|]. rewrite lookup_insert_eq. by exists v.
  - intros q nd _ [[<- <-]|[Hne Hq]]%lookup_insert_Some; cbn.
    + split_and!; [lia|lia|]. rewrite lookup_app_r by (unfold n; lia). unfold n. by rewrite Nat.sub_diag.
    + destruct (Hn q nd) as (? & ? & ?); [set_solver|done|]. split_and!; [lia|lia|]. by rewrite lookup_app_l by done.
  - set_solver.
  - cbn. rewrite lookup_app_r by (unfold n; lia). unfold n. by rewrite Nat.sub_diag.
  - unfold dh_contents. cbn. by rewrite fmap_insert.
  - intros i Hi. unfold dh_at, dh_value. cbn. rewrite lookup_app_l by done.
    destruct (dh_heap s !! i) as [q|] eqn:Hq; [|done]. cbn.
    destruct (He i q Hi ltac:(lia) Hq) as [_ [w Hw]]. rewrite lookup_insert_ne by congruence. done.
Qed.

Lemma d_heap_push_spec v s :
  dh_wf s → ∃ p s', d_heap_push compare d v s = Ret (p, s') ∧ dh_wf s' ∧
    dh_contents s !! p = None ∧ dh_contents s' = <[p := v]> (dh_contents s) ∧
    (StrictWeakOrder compare → dh_ordered compare d s → dh_ordered compare d s').
Proof.
  intros Hwf. unfold d_heap_push. set (p := fresh (dom (dh_nodes s))).
  assert (Hp : dh_nodes s !! p = None) by apply not_elem_of_dom, is_fresh.
  destruct (dh_append_spec v s p Hwf Hp) as (Hwf1 & Hnp & Hc & Hat).
  set (n := length (dh_heap s)) in *. set (s1 := DHeap _ _) in *.
  assert (Hlen : length (dh_heap s1) = S n) by (cbn; rewrite length_app; cbn; unfold n; lia).
  rewrite Hlen. replace (S n - 1) with n by lia.
  destruct (siftup_spec compare d Hd (S n) ∅ n p v s1) as (s' & -> & Hwf' & [Hc' Hl'] & Hord);
    [lia|done|done|by rewrite Hc, lookup_insert_eq|].
  cbn. exists p, s'. unfold dh_wf, dh_ordered. rewrite Hl', Hlen. split_and!; [done|done| |congruence|].
  - unfold dh_contents. by rewrite lookup_fmap, Hp.
  - intros Hswo [Hedge _]. apply (Hord Hswo).
    + split; intros i vi vp.
      * intros Hi Hin Hpn. pose proof (dh_parent_lt d Hd i ltac:(lia)). rewrite !Hat by lia. apply Hedge; lia.
      * intros _ Hi Hip. pose proof (dh_parent_lt d Hd i ltac:(lia)). lia.
    + intros i vi Hi Hip. pose proof (dh_parent_lt d Hd i ltac:(lia)). lia.
Qed.

(** The last element is moved into a hole without children. *)
Lemma pop_fill_spec m h r s :
  wf_at (S m) h {[r]} s → h < S m → S m ≤ h * d + 1 → 
  ∃ s', pop_fill compare d h (S m) s = Ret s' ∧ wf_at m m {[r]} s' ∧ same_heap s s' ∧
    (StrictWeakOrder compare → ord_at compare d (S m) h (dh_at s) → ord_at compare d m m (dh_at s')).
Proof.
  intros Hwf Hh Hl. unfold pop_fill. replace (S m - 1) with m by lia. case_decide as Hhm.
  - destruct (wf_at_some (S m) h {[r]} m s Hwf) as (q & v & Hq & Hqr & _ & Hqv & Hv); [lia|done|].
    rewrite Hq. cbn [or_ub mbind outcome_bind].
    destruct (hole_move (S m) h m {[r]} q v s) as (s3 & Hpl & Hwf3 & Hs3 & Hat3); [done|lia|lia|done|done|done|].
    rewrite Hpl. cbn [or_ub mbind outcome_bind].
    assert (Hq3 : dh_heap s3 !! h = Some q).
    { unfold dh_place in Hpl. destruct (dh_nodes s !! q); [|done]. cbn in Hpl. case_decide; [|done].
      injection Hpl as <-. cbn. by rewrite list_lookup_insert_eq. }
    rewrite Hq3. cbn [or_ub mbind outcome_bind]. apply wf_drop_last in Hwf3.
    destruct (siftup_spec compare d Hd m {[r]} h q v s3) as (s4 & -> & Hwf4 & Hs4 & Hord4);
      [lia|done|done|by rewrite (proj1 Hs3)|].
    exists s4. split_and!; [done|done|by etrans|]. intros Hswo Ho. apply (Hord4 Hswo).
    + apply (ord_weaken compare d Hd (S m) m h (dh_at s)); [done|lia|lia|].
      intros i Hi Hih. by rewrite Hat3, decide_False.
    + intros i vi Hi Hip. apply (dh_parent_iff d Hd i h ltac:(lia)) in Hip. lia.
  - assert (h = m) as -> by lia. exists s. split_and!; [done|by apply wf_drop_last|done|].
    intros Hswo Ho. by apply (ord_weaken compare d Hd (S m) m m (dh_at s)); [|lia|lia|].
Qed.

Lemma d_heap_pop_spec r s :
  dh_wf s → dh_heap s !! 0 = Some r →
  ∃ s', d_heap_pop compare d s = Ret s' ∧ dh_wf s' ∧ dh_contents s' = delete r (dh_contents s) ∧
    (StrictWeakOrder compare → dh_ordered compare d s → dh_ordered compare d s').
Proof.
  intros Hwf Hr. pose proof (lookup_lt_Some _ _ _ Hr) as Hpos. unfold d_heap_pop. rewrite Hr.
  assert (∃ m, length (dh_heap s) = S m) as [m Hm] by (exists (length (dh_heap s) - 1); lia).
  cbn [or_ub mbind outcome_bind]. unfold dh_wf, dh_ordered in *. rewrite Hm in *.
  assert (Hwf0 : wf_at (S m) 0 {[r]} s) by (rewrite <-(right_id_L ∅ (∪) {[r]}); by apply wf_open).
  destruct (descend_spec compare d Hd (S m) {[r]} (S (S m)) 0 s) as (h1 & s1 & Hrun1 & Hwf1 & Hs1 & Hh1 & Hl1 & _ & Hord1);
    [done|done|lia|lia|]. cbn [Nat.mul Nat.add] in Hrun1. rewrite Hrun1. cbn [mbind outcome_bind].
  destruct (descend_partial_spec compare d Hd (S m) {[r]} h1 s1) as (h & s2 & -> & Hwf2 & Hs2 & Hh & Hl2 & Hord2);
    [done|by rewrite (proj2 Hs1)|lia|done|]. cbn [or_ub mbind outcome_bind].
  destruct (pop_fill_spec m h r s2) as (s3 & -> & Hwf3 & Hs3 & Hord3); [done|lia|lia|].
  cbn [or_ub mbind outcome_bind]. assert (Hs : same_heap s s3) by (do 2 (etrans; [done|]); done).
  destruct (dh_erase_spec m r s3) as (Hwf' & Hc' & Hl' & Hat'); [done|by rewrite (proj2 Hs)|].
  exists (dh_erase r s3). split_and!; [done|done|by rewrite Hc', (proj1 Hs)|].
  intros Hswo Ho. rewrite Hl'. apply (ord_weaken compare d Hd m m m (dh_at s3)); [|done|done|auto].
  apply (Hord3 Hswo), (Hord2 Hswo), (Hord1 Hswo), (ord_open compare d Hd (S m) 0 (dh_at s)); [done|done|].
  destruct (wf_at_some (S m) (S m) ∅ 0 s Hwf) as (q & v & _ & _ & _ & _ & ->); [done|lia|by eexists].
Qed.
End operations.

(** *** Changing priorities

    Every family below the last element is complete. *)
Definition dh_complete (d len : nat) : Prop := d = 1 ∨ len = 0 ∨ (len - 1) `mod` d = 0.

Lemma dh_complete_family d n h : 0 < d → dh_complete d n → h * d + 1 < n → h * d + d < n.
Proof.
  intros Hd [->|[->|Hm]] Hlt; [lia|lia|].
  pose proof (Nat.div_mod (n - 1) d ltac:(lia)) as Hdiv. rewrite Hm in Hdiv.
  set (q := (n - 1) / d) in *. assert (h < q) by nia. nia.
Qed.

Section change.
Context {T : Type} (compare : T → T → bool) (d : nat).
Context (Hd : 0 < d).
Implicit Types (s : d_heap T).

Lemma d_heap_increase_spec p v w s :
  dh_wf s → dh_contents s !! p = Some v →
  ∃ s', d_heap_increase compare d p w s = Ret s' ∧ dh_wf s' ∧ dh_contents s' = <[p := w]> (dh_contents s) ∧
    (StrictWeakOrder compare → compare w v = false → dh_ordered compare d s → dh_ordered compare d s').
Proof.
  intros Hwf Hv. destruct (dh_wf_handle s p v Hwf Hv) as (i & Hp & Hi & Hip & Hat).
  destruct (dh_set_value_spec s p i v w) as (s1 & Hset & Hwf1 & Hp1 & Hh1 & Hc1 & Hat1); [done..|].
  unfold d_heap_increase. rewrite Hset. cbn [or_ub mbind outcome_bind]. rewrite Hp1. cbn [or_ub mbind outcome_bind dn_index].
  set (n := length (dh_heap s)) in *.
  destruct (siftup_spec compare d Hd n ∅ i p w s1) as (s' & -> & Hwf' & [Hc' Hl'] & Hord).
  { done. } { unfold dh_wf in Hwf1. by rewrite Hh1 in Hwf1. } { by rewrite Hh1. } { by rewrite Hc1, lookup_insert_eq. }
  exists s'. unfold dh_wf, dh_ordered. rewrite Hl', Hh1. split_and!; [done|done|by rewrite Hc'|].
  intros Hswo Hvw Ho. apply (Hord Hswo).
  - apply (ord_weaken compare d Hd n n i (dh_at s)); [|done|unfold n; lia|by intros; apply Hat1].
    apply (ord_open compare d Hd n i (dh_at s)); [done|done|by eexists].
  - intros j vj Hj Hjp. pose proof (dh_parent_lt d Hd j ltac:(lia)). rewrite Hat1 by lia. intros Hvj.
    apply (swo_negtrans w v vj); [done|]. by apply (ord_kids compare d Hd n i (dh_at s) v Ho Hat j vj).
Qed.

(** [cur] is [p] or an element of the family of [h], whose largest element is
    looked for. *)
Definition family_choice (n h p : nat) s (cur : nat) : Prop :=
  cur = p ∨ ∃ m, h * d + 1 ≤ m ≤ h * d + d ∧ dh_heap s !! m = Some cur.

Lemma decrease_family_spec n h p v k i cur vcur s :
  wf_at n h {[p]} s → h * d + d < n → k + i = d → dh_contents s !! cur = Some vcur →
  family_choice n h p s cur →
  ∃ q vq, decrease_family compare k i (h * d + d) cur s = Some q ∧ dh_contents s !! q = Some vq ∧
    family_choice n h p s q ∧
    (StrictWeakOrder compare → compare vcur v = false →
      (∀ c vc, h * d + d - i < c ≤ h * d + d → dh_at s c = Some vc → compare vcur vc = false) →
      compare vq v = false ∧
      ∀ c vc, h * d + 1 ≤ c ≤ h * d + d → dh_at s c = Some vc → compare vq vc = false).
Proof.
  intros Hwf Hfull. revert i cur vcur. induction k as [|k IH]; intros i cur vcur Hk Hcur Hch.
  - exists cur, vcur. split_and!; [done..|]. intros Hswo Hv H. split; [done|]. intros c vc Hc. apply H. lia.
  - cbn [decrease_family].
    destruct (wf_at_some n h {[p]} (h * d + d - i) s Hwf ltac:(lia) ltac:(nia)) as (q & w & Hq & _ & _ & Hw & Hat).
    rewrite dh_value_contents, Hcur, Hq. cbn [mbind option_bind]. rewrite dh_value_contents, Hw. cbn [mbind option_bind].
    destruct (IH (i + 1) (if compare vcur w then q else cur) (if compare vcur w then w else vcur))
      as (m & vm & Hrun & Hvm & Hchm & Hmax); [lia|by destruct (compare vcur w)| |].
    { destruct (compare vcur w); [|done]. right. exists (h * d + d - i). split; [lia|done]. }
    exists m, vm. split_and!; [done..|]. intros Hswo Hv H. destruct (compare vcur w) eqn:E; apply (Hmax Hswo).
    + apply (swo_negtrans w vcur v); [by apply swo_asym|done].
    + intros c vc Hc Hvc. destruct (decide (c = h * d + d - i)) as [->|Hci].
      { assert (vc = w) as -> by congruence. by apply (swo_irrefl compare). }
      apply (swo_negtrans w vcur vc); [by apply swo_asym|]. apply (H c vc); [lia|done].
    + done.
    + intros c vc Hc Hvc. destruct (decide (c = h * d + d - i)) as [->|Hci]; [congruence|]. apply (H c vc); [lia|done].
Qed.

Lemma decrease_loop_spec n p v fuel h s :
  wf_at n h {[p]} s → n = length (dh_heap s) → h < n → n - h < fuel → dh_contents s !! p = Some v →
  ∃ h' s', decrease_loop compare d fuel h (h * d + d) p s = Ret (h', s') ∧ wf_at n h' {[p]} s' ∧
    same_heap s s' ∧ h' < n ∧
    (StrictWeakOrder compare → ord_at compare d n h (dh_at s) → parent_above compare d h (dh_at s) v →
      ord_at compare d n h' (dh_at s') ∧ parent_above compare d h' (dh_at s') v ∧
      (dh_complete d n → kids_below compare d n h' (dh_at s') v)).
Proof.
  revert h s. induction fuel as [|fuel IH]; intros h s Hwf Hn Hh Hf Hv; [lia|].
  cbn [decrease_loop]. rewrite <-Hn. case_decide as Hc.
  - destruct (decrease_family_spec n h p v d 0 p v s) as (q & vq & -> & Hvq & Hch & Hmax); [done|done|lia|done|by left|].
    cbn [or_ub mbind outcome_bind].
    assert (Hmax' : StrictWeakOrder compare → compare vq v = false ∧ kids_below compare d n h (dh_at s) vq).
    { intros Hswo. destruct (Hmax Hswo) as [H1 H2]; [by apply (swo_irrefl compare)|intros c vc Hcc; lia|].
      split; [done|]. intros i vi Hi Hip. by apply H2, dh_parent_iff; [|lia|]. }
    case_decide as Hqp.
    + subst q. exists h, s. split_and!; [done..|]. intros Hswo Ho Hp. split_and!; [done..|]. intros _.
      assert (vq = v) as -> by congruence. by apply Hmax'.
    + destruct Hch as [?|(m & Hm & Hmq)]; [done|].
      destruct (wf_at_some n h {[p]} m s Hwf ltac:(lia) ltac:(nia)) as (q' & w & Hq' & _ & Hnode & Hw & Hat).
      assert (q' = q) as -> by congruence. assert (w = vq) as -> by congruence.
      rewrite Hnode. cbn [or_ub mbind outcome_bind dn_index].
      destruct (hole_move n h m {[p]} q vq s) as (s1 & -> & Hwf1 & Hs1 & Hat1); [done|done|lia|nia|done|done|].
      cbn [or_ub mbind outcome_bind].
      destruct (IH m s1) as (h' & s' & Hrun & Hwf' & Hs' & Hh' & Hord);
        [done|by rewrite (proj2 Hs1)|lia|nia|by rewrite (proj1 Hs1)|].
      exists h', s'. split_and!; [done|done|by etrans|done|]. intros Hswo Ho Hp. destruct (Hmax' Hswo) as [Hvv Hk].
      assert (Hpm : dh_parent d m = h) by (apply dh_parent_iff; nia).
      apply (Hord Hswo).
      * by apply (ord_move_down compare d Hd n h m (dh_at s) _ vq); [|nia|..].
      * intros vp Hpos. rewrite Hpm, Hat1, decide_True by done. by intros [= <-].
  - exists h, s. split_and!; [done..|]. intros Hswo Ho Hp. split_and!; [done..|]. intros Hcomp i vi Hi Hip.
    apply (dh_parent_iff d Hd i h ltac:(lia)) in Hip.
    pose proof (dh_complete_family d n h Hd Hcomp). destruct (decide (h * d + 1 = n - 1)); [|lia].
    destruct (decide (d = 1)); [lia|]. exfalso. destruct Hcomp as [?|[?|Hmod]]; [lia|lia|].
    rewrite <-e, Nat.add_comm, Nat.Div0.mod_add, Nat.mod_small in Hmod by lia. lia.
Qed.

Lemma d_heap_decrease_spec p v w s :
  dh_wf s → dh_contents s !! p = Some v →
  ∃ s', d_heap_decrease compare d p w s = Ret s' ∧ dh_wf s' ∧ dh_contents s' = <[p := w]> (dh_contents s) ∧
    (StrictWeakOrder compare → compare v w = false → dh_complete d (length (dh_heap s)) →
      dh_ordered compare d s → dh_ordered compare d s').
Proof.
  intros Hwf Hv. destruct (dh_wf_handle s p v Hwf Hv) as (i & Hp & Hi & Hip & Hat).
  destruct (dh_set_value_spec s p i v w) as (s1 & Hset & Hwf1 & Hp1 & Hh1 & Hc1 & Hat1); [done..|].
  unfold d_heap_decrease. rewrite Hp. cbn [or_ub mbind outcome_bind dn_index]. rewrite Hset.
  cbn [or_ub mbind outcome_bind]. set (n := length (dh_heap s)) in *.
  assert (Hwf2 : wf_at n i {[p]} s1).
  { rewrite <-(right_id_L ∅ (∪) {[p]}). unfold dh_wf in Hwf1. rewrite Hh1 in Hwf1. apply wf_open; [done..|]. by rewrite Hh1. }
  assert (Hcp : dh_contents s1 !! p = Some w) by (by rewrite Hc1, lookup_insert_eq).
  rewrite Hh1. destruct (decrease_loop_spec n p w (S n) i s1) as (h & s2 & Hrun & Hwf3 & Hs2 & Hh & Hord);
    [done|by rewrite Hh1|done|lia|done|]. fold n. rewrite Hrun. cbn [mbind outcome_bind].
  destruct (hole_close n h ∅ p w s2) as (s' & -> & Hwf' & Hs' & Hat');
    [by rewrite (right_id_L ∅ (∪))|done|set_solver|by rewrite (proj1 Hs2)|]. cbn [or_ub].
  assert (Hs : same_heap s1 s') by (by etrans). exists s'. unfold dh_wf, dh_ordered.
  rewrite (proj2 Hs), Hh1. split_and!; [done|done|by rewrite (proj1 Hs)|].
  intros Hswo Hvw Hcomp Ho. destruct (Hord Hswo) as (Ho2 & Hp2 & Hk2).
  - apply (ord_weaken compare d Hd n n i (dh_at s)); [|done|unfold n; lia|by intros; apply Hat1].
    apply (ord_open compare d Hd n i (dh_at s)); [done|done|by eexists].
  - intros vp Hpos. pose proof (dh_parent_lt d Hd i Hpos). rewrite Hat1 by lia. intros Hvp.
    apply (swo_negtrans vp v w); [|done]. by apply (ord_parent compare d Hd n i (dh_at s) v Ho Hi Hat vp).
  - apply (ord_close compare d Hd n h (dh_at s2) _ w); [done..|by apply Hk2|done|done].
Qed.

Lemma d_heap_change_spec p v w s :
  dh_wf s → dh_contents s !! p = Some v →
  ∃ s', d_heap_change compare d p w s = Ret s' ∧ dh_wf s' ∧ dh_contents s' = <[p := w]> (dh_contents s) ∧
    (StrictWeakOrder compare → (compare v w = true ∨ dh_complete d (length (dh_heap s))) →
      dh_ordered compare d s → dh_ordered compare d s').
Proof.
  intros Hwf Hv. unfold d_heap_change. rewrite dh_value_contents, Hv. cbn [or_ub mbind outcome_bind].
  destruct (compare v w) eqn:E.
  - destruct (d_heap_increase_spec p v w s Hwf Hv) as (s' & Hrun & Hwf' & Hc' & Hord).
    exists s'. split_and!; [done..|]. intros Hswo _. by apply (Hord Hswo), swo_asym.
  - destruct (d_heap_decrease_spec p v w s Hwf Hv) as (s' & Hrun & Hwf' & Hc' & Hord).
    exists s'. split_and!; [done..|]. intros Hswo [?|?]; [done|]. by apply (Hord Hswo).
Qed.
End change.

(** ** The priority queue *)
Section queue.
Context {T : Type} (compare : T → T → bool) (d : nat).
Implicit Types (s : d_heap T) (m : gmap nat T).

Definition dh_run_op (op : pq_op T) s : outcome (d_heap T) :=
  match op with
  | PqPush v => snd <$> d_heap_push compare d v s
  | PqPop => d_heap_pop compare d s
  | PqIncrease p v => d_heap_increase compare d p v s
  | PqDecrease p v => d_heap_decrease compare d p v s
  | PqChange p v => d_heap_change compare d p v s
  | PqRemove p => d_heap_remove compare d p s
  end.

Fixpoint dh_run_ops (ops : list (pq_op T)) s : outcome (d_heap T) :=
  match ops with [] => Ret s | op :: ops => s ← dh_run_op op s; dh_run_ops ops s end.

(** Clients use handles which exist, and do not remove elements (see below). *)
Definition dh_valid m (op : pq_op T) : Prop :=
  pq_valid m op ∧ match op with PqRemove _ => False | _ => True end.

(** The priorities it assigns go where it says, and up where a family of the
    heap is not complete. *)
Definition dh_proper m (op : pq_op T) : Prop :=
  match op with
  | PqPush _ | PqPop | PqRemove _ => True
  | PqIncrease p w => ∀ v, m !! p = Some v → compare w v = false
  | PqDecrease p w => dh_complete d (size m) ∧ ∀ v, m !! p = Some v → compare v w = false
  | PqChange p w => dh_complete d (size m) ∨ ∀ v, m !! p = Some v → compare v w = true
  end.

Lemma dh_wf_first s : dh_wf s → dh_contents s ≠ ∅ → ∃ r, dh_heap s !! 0 = Some r.
Proof.
  intros Hwf Hne. destruct (map_choose _ Hne) as (p & v & Hp).
  destruct (dh_wf_handle s p v Hwf Hp) as (i & _ & Hi & _).
  destruct (lookup_lt_is_Some_2 (dh_heap s) 0) as [r Hr]; [lia|by exists r].
Qed.

Context (Hd : 0 < d).

(** An operation on existing handles succeeds, and what it does to the
    elements. *)
Lemma dh_run_op_spec op s :
  dh_wf s → dh_valid (dh_contents s) op →
  ∃ s', dh_run_op op s = Ret s' ∧ dh_wf s' ∧
    match op with
    | PqPush v => ∃ p, dh_contents s !! p = None ∧ dh_contents s' = <[p := v]> (dh_contents s)
    | PqPop => ∃ r, dh_heap s !! 0 = Some r ∧ dh_contents s' = delete r (dh_contents s)
    | PqIncrease p v | PqDecrease p v | PqChange p v => dh_contents s' = <[p := v]> (dh_contents s)
    | PqRemove _ => False
    end ∧
    (StrictWeakOrder compare → dh_proper (dh_contents s) op → dh_ordered compare d s → dh_ordered compare d s').
Proof.
  intros Hwf. pose proof (dh_wf_size s Hwf) as Hsize. destruct op as [v| |p w|p w|p w|p]; cbn.
  - intros _. destruct (d_heap_push_spec compare d Hd v s Hwf) as (p & s' & -> & Hwf' & Hp & Hc & Hord).
    exists s'. split_and!; [done|done|by exists p|auto].
  - intros [Hne _]. destruct (dh_wf_first s Hwf Hne) as [r Hr].
    destruct (d_heap_pop_spec compare d Hd r s Hwf Hr) as (s' & -> & Hwf' & Hc & Hord).
    exists s'. split_and!; [done|done|by exists r|auto].
  - intros [[v Hv] _]. destruct (d_heap_increase_spec compare d Hd p v w s Hwf Hv) as (s' & -> & Hwf' & Hc & Hord).
    exists s'. split_and!; [done..|]. intros Hswo H. apply (Hord Hswo). by apply H.
  - intros [[v Hv] _]. destruct (d_heap_decrease_spec compare d Hd p v w s Hwf Hv) as (s' & -> & Hwf' & Hc & Hord).
    exists s'. split_and!; [done..|]. intros Hswo [Hcomp H]. apply (Hord Hswo); [by apply H|by rewrite Hsize].
  - intros [[v Hv] _]. destruct (d_heap_change_spec compare d Hd p v w s Hwf Hv) as (s' & -> & Hwf' & Hc & Hord).
    exists s'. split_and!; [done..|]. intros Hswo H. apply (Hord Hswo). rewrite Hsize.
    destruct H as [?|H]; [by right|left; by apply H].
  - by intros [_ []].
Qed.

Lemma dh_empty_spec : dh_wf (@d_heap_ctor T) ∧ dh_ordered compare d (@d_heap_ctor T).
Proof.
  split; [split; cbn; [done|lia|by intros ? ? ?; rewrite lookup_empty|set_solver]|].
  split; cbn; intros; lia.
Qed.

Lemma dh_top_max s v q w :
  StrictWeakOrder compare → dh_wf s → dh_ordered compare d s →
  d_heap_top s = Some v → dh_contents s !! q = Some w → compare v w = false.
Proof.
  intros Hswo Hwf Ho Hv Hq. destruct (dh_wf_handle s q w Hwf Hq) as (i & _ & Hi & _ & Hat).
  apply (ord_top compare d Hd (length (dh_heap s)) (dh_at s) v i w Ho); [|done..].
  intros j Hj. destruct (wf_at_some _ _ _ j s Hwf Hj ltac:(lia)) as (? & u & _ & _ & _ & _ & ->). by exists u.
Qed.

Lemma dh_top_spec s :
  StrictWeakOrder compare → dh_wf s → dh_ordered compare d s → dh_contents s ≠ ∅ →
  ∃ r v, dh_heap s !! 0 = Some r ∧ d_heap_top s = Some v ∧ dh_contents s !! r = Some v ∧
    pq_largest compare (dh_contents s) v.
Proof.
  intros Hswo Hwf Ho Hne. destruct (dh_wf_first s Hwf Hne) as [r Hr].
  pose proof (lookup_lt_Some _ _ _ Hr).
  destruct (wf_at_some _ _ _ 0 s Hwf) as (r' & v & Hr' & _ & _ & Hv & Hat); [done|lia|].
  assert (r' = r) as -> by congruence. exists r, v. split_and!; [done..|].
  intros q w Hq. by apply (dh_top_max s v q w).
Qed.

Lemma dh_step_spec op s :
  StrictWeakOrder compare → dh_wf s → dh_ordered compare d s →
  dh_valid (dh_contents s) op → dh_proper (dh_contents s) op →
  ∃ s', dh_run_op op s = Ret s' ∧ dh_wf s' ∧ dh_ordered compare d s' ∧
    pq_step compare (dh_contents s) op (dh_contents s').
Proof.
  intros Hswo Hwf Ho Hop Hpr.
  destruct (dh_run_op_spec op s Hwf Hop) as (s' & Hrun & Hwf' & Hc & Hord).
  exists s'. split_and!; [done..|by auto|].
  destruct op as [v| |p w|p w|p w|p]; cbn in Hc; [| |rewrite Hc; constructor..|done].
  - destruct Hc as (p & Hp & ->). by constructor.
  - destruct Hc as (r & Hr & ->). destruct Hop as [Hne _].
    destruct (dh_top_spec s Hswo Hwf Ho Hne) as (r' & v & Hr' & _ & Hv & Hmax).
    assert (r' = r) as -> by congruence. by apply (pq_pop _ _ r v).
Qed.

(** C26: Whatever the comparison does, every operation of a d-heap other than
    [remove] on a non-empty heap and existing handles returns, dereferences
    nothing that is invalid and keeps the vector and the nodes consistent: each
    node knows its position, and the vector holds every node once. *)
Theorem d_heap_well_formed op s :
  dh_wf s → dh_valid (dh_contents s) op →
  ∃ s', dh_run_op op s = Ret s' ∧ dh_wf s' ∧ d_heap_size s' = length (dh_heap s').
Proof.
  intros Hwf Hop. destruct (dh_run_op_spec op s Hwf Hop) as (s' & Hrun & Hwf' & _).
  exists s'. split_and!; [done|done|]. rewrite (dh_wf_size s' Hwf').
  unfold d_heap_size, dh_contents. by rewrite map_size_fmap.
Qed.

(** C17: With a strict weak order a d-heap is a priority queue: each operation -
    pushing, popping, and changing priorities, downwards only while the families
    are complete - does what it should to the map from handles to priorities,
    [pop] removes a largest element, [top] is one afterwards, and the heap order
    is kept; so the heap refines the abstract queue from the empty heap on. *)
Theorem d_heap_refinement op s :
  StrictWeakOrder compare → s = d_heap_ctor ∨ dh_wf s ∧ dh_ordered compare d s →
  dh_valid (dh_contents s) op → dh_proper (dh_contents s) op →
  ∃ s', dh_run_op op s = Ret s' ∧ dh_wf s' ∧ dh_ordered compare d s' ∧
    pq_step compare (dh_contents s) op (dh_contents s') ∧
    (dh_contents s' ≠ ∅ → ∃ v, d_heap_top s' = Some v ∧
      ∀ q w, dh_contents s' !! q = Some w → compare v w = false).
Proof.
  intros Hswo Hs Hop Hpr.
  assert (dh_wf s ∧ dh_ordered compare d s) as [Hwf Ho] by (destruct Hs as [->|?]; [apply dh_empty_spec|done]).
  destruct (dh_step_spec op s Hswo Hwf Ho Hop Hpr) as (s' & Hrun & Hwf' & Ho' & Hs').
  exists s'. split_and!; [done..|]. intros Hne.
  destruct (dh_top_spec s' Hswo Hwf' Ho' Hne) as (_ & v & _ & Hv & _ & Hmax). by exists v.
Qed.
End queue.

(** *** The interface *)
Section interface.
Context {T : Type} (compare : T → T → bool) (d : nat).

#[local] Instance d_heap_queue : PriorityQueue (d_heap T) T := {|
  pq_new := d_heap_ctor;
  pq_run := dh_run_op compare d;
  pq_top := d_heap_top;
|}.

#[refine] Definition d_heap_queue_spec (Hd : 0 < d) `{!StrictWeakOrder compare} :
    PriorityQueueSpec (d_heap T) T compare := {|
  pq_inv s := dh_wf s ∧ dh_ordered compare d s;
  pq_contents := dh_contents;
  pq_allowed m op := dh_valid m op ∧ dh_proper compare d m op;
|}.
Proof.
  - intros m op Hop Hv. destruct Hop as [->|[v ->]]; split; cbn; auto; by split.
  - split; [by apply dh_empty_spec|apply fmap_empty].
  - intros op s [Hwf Ho] [Hv Hpr].
    destruct (dh_step_spec compare d Hd op s) as (s' & ? & ? & ? & ?); [done..|]. by exists s'.
  - intros s [Hwf Ho] Hne. destruct (dh_top_spec compare d Hd s) as (r & v & Hr & Hv & Hc & Hmax); [done..|].
    destruct (dh_run_op_spec compare d Hd PqPop s Hwf) as (s' & Hrun & _ & (r' & Hr' & Hc') & _); [done|].
    exists r, v, s'. split_and!; [done..|]. congruence.
Defined.
End interface.

(** ** remove *)
Section remove.
Context {T : Type} (compare : T → T → bool) (d : nat).
Context (Hd : 0 < d).
Implicit Types (s : d_heap T).

(** No entry of the vector is dangling. *)
Definition dh_live s : Prop := ∀ i p, dh_heap s !! i = Some p → is_Some (dh_nodes s !! p).

Lemma dh_place_live i p s s' : dh_live s → dh_place i p s = Some s' → dh_live s'.
Proof.
  intros Hl Hp j q. unfold dh_place in Hp. destruct (dh_nodes s !! p) as [nd|] eqn:E; [|done]. cbn in Hp.
  case_decide as Hi; [|done]. injection Hp as <-. cbn. rewrite lookup_insert_is_Some'.
  destruct (decide (j = i)) as [->|Hne]; [rewrite list_lookup_insert_eq by done; intros [= <-]; by left|].
  rewrite list_lookup_insert_ne by done. intros Hq. right. by apply (Hl j).
Qed.

Lemma descend_live fuel h c s h' c' s' :
  dh_live s → descend compare d fuel h c s = Ret (h', c', s') → dh_live s'.
Proof.
  revert h c s. induction fuel as [|fuel IH]; intros h c s Hl Hrun; [done|]. cbn [descend] in Hrun.
  case_decide; [|by simplify_eq]. bind_inv Hrun. apply or_ub_Ret in E1. eapply IH; [|exact Hrun].
  by eapply dh_place_live.
Qed.

(** Sifting up what is not above the top leaves the top alone. *)
Lemma siftup_loop_top fuel idx ptr v r vr s :
  dh_live s → 0 < idx < length (dh_heap s) → idx < fuel → dh_contents s !! ptr = Some v →
  dh_heap s !! 0 = Some r → dh_contents s !! r = Some vr → compare vr v = false →
  ∃ s', siftup_loop compare d fuel idx (dh_parent d idx) ptr s = Ret s' ∧ dh_heap s' !! 0 = Some r ∧
    same_heap s s'.
Proof.
  revert idx s. induction fuel as [|fuel IH]; intros idx s Hl Hi Hf Hv Hr Hvr Hc; [lia|].
  cbn [siftup_loop]. rewrite decide_False by lia. pose proof (dh_parent_lt d Hd idx ltac:(lia)) as Hlt.
  assert (Hput : ∀ q, is_Some (dh_nodes s !! q) → ∃ s', dh_place idx q s = Some s' ∧ dh_heap s' !! 0 = Some r ∧ same_heap s s').
  { intros q Hq. destruct (dh_place_spec idx q s) as (s' & Hpl & Hh & Hcs & _); [lia|done|]. exists s'.
    split; [done|]. rewrite Hh. split; [by rewrite list_lookup_insert_ne by lia|].
    split; [done|by rewrite Hh, length_insert]. }
  assert (Hptr : is_Some (dh_nodes s !! ptr)).
  { unfold dh_contents in Hv. rewrite lookup_fmap in Hv. destruct (dh_nodes s !! ptr); [by eexists|done]. }
  destruct (lookup_lt_is_Some_2 (dh_heap s) (dh_parent d idx)) as [q Hq]; [lia|].
  destruct (Hl _ _ Hq) as [nd Hnd].
  assert (Hvq : dh_at s (dh_parent d idx) = Some (dn_value nd)) by (unfold dh_at, dh_value; rewrite Hq; cbn; by rewrite Hnd).
  rewrite Hvq, dh_value_contents, Hv. cbn [or_ub mbind outcome_bind]. destruct (compare (dn_value nd) v) eqn:E.
  - rewrite Hq. cbn [or_ub mbind outcome_bind]. destruct (Hput q) as (s1 & Hpl & Hr1 & Hs1); [by eexists|].
    rewrite Hpl. cbn [or_ub mbind outcome_bind].
    destruct (IH (dh_parent d idx) s1) as (s' & Hrun & Hr' & Hs'); [by eapply dh_place_live| |lia|by rewrite (proj1 Hs1)|done|by rewrite (proj1 Hs1)|done|].
    { rewrite (proj2 Hs1). split; [|lia]. destruct (decide (dh_parent d idx = 0)) as [H0|]; [|lia].
      rewrite H0 in Hq. assert (q = r) as -> by congruence. unfold dh_contents in Hvr. rewrite lookup_fmap, Hnd in Hvr.
      cbn in Hvr. congruence. }
    exists s'. split_and!; [exact Hrun|done|by etrans].
  - destruct (Hput ptr Hptr) as (s1 & -> & Hr1 & Hs1). by exists s1.
Qed.

Lemma remove_fill_top h r vr s :
  dh_live s → 0 < h < length (dh_heap s) → dh_heap s !! 0 = Some r → dh_contents s !! r = Some vr →
  (∀ q w, dh_contents s !! q = Some w → compare vr w = false) →
  ∃ s', remove_fill compare d h (length (dh_heap s)) s = Ret s' ∧ dh_heap s' !! 0 = Some r ∧ same_heap s s'.
Proof.
  intros Hl Hh Hr Hvr Hmax. unfold remove_fill. set (n := length (dh_heap s)) in *.
  destruct (lookup_lt_is_Some_2 (dh_heap s) (n - 1)) as [q Hq]; [unfold n in *; lia|].
  rewrite Hq. cbn [or_ub mbind outcome_bind]. destruct (Hl _ _ Hq) as [nd Hnd].
  destruct (dh_place_spec h q s) as (s2 & Hpl & Hheap & Hc & _); [unfold n in *; lia|by eexists|].
  rewrite Hpl. cbn [or_ub mbind outcome_bind].
  assert (Hq2 : dh_heap s2 !! (n - 1) = Some q).
  { rewrite Hheap. destruct (decide (h = n - 1)) as [->|]; [apply list_lookup_insert_eq; unfold n in *; lia|].
    by rewrite list_lookup_insert_ne. }
  rewrite Hq2. cbn [or_ub mbind outcome_bind]. unfold siftup. rewrite decide_False by lia.
  assert (Hcq : dh_contents s !! q = Some (dn_value nd)) by (unfold dh_contents; by rewrite lookup_fmap, Hnd).
  assert (Hs2 : same_heap s s2) by (split; [done|by rewrite Hheap, length_insert]).
  destruct (siftup_loop_top (S h) h q (dn_value nd) r vr s2) as (s3 & Hrun & Hr3 & Hs3);
    [by eapply dh_place_live|rewrite (proj2 Hs2); unfold n in *; lia|lia|by rewrite Hc| |by rewrite Hc|by eapply Hmax|].
  { by rewrite Hheap, list_lookup_insert_ne by lia. }
  exists s3. split_and!; [exact Hrun|done|by etrans].
Qed.

(** Removing an element other than the top: the node of the top is erased
    although the vector still refers to it, and the element stays. *)
Lemma d_heap_remove_dangles p v i r s :
  StrictWeakOrder compare → dh_wf s → dh_ordered compare d s →
  dh_nodes s !! p = Some (DhNode i v) → 0 < i → dh_heap s !! 0 = Some r →
  ∃ s', d_heap_remove compare d p s = Ret s' ∧ dh_heap s' !! 0 = Some r ∧ d_heap_top s' = None ∧
    dh_contents s' !! p = Some v.
Proof.
  intros Hswo Hwf Ho Hp Hi Hr. unfold d_heap_remove. rewrite Hr, Hp. cbn [or_ub mbind outcome_bind dn_index].
  pose proof Hwf as [_ He Hn _]. destruct (Hn p (DhNode i v)) as (Hil & _ & Hip); [set_solver|done|]. cbn in Hil, Hip.
  destruct (wf_at_some _ _ _ 0 s Hwf) as (r' & vr & Hr' & _ & Hnr & Hvr & Hat); [lia|lia|].
  assert (r' = r) as -> by congruence.
  assert (Hlive : dh_live s).
  { intros j q Hq. pose proof (lookup_lt_Some _ _ _ Hq). destruct (He j q) as [_ [w Hw]]; [done|lia|done|by eexists]. }
  destruct (descend_spec compare d Hd (length (dh_heap s)) {[p]} (S (length (dh_heap s))) i s)
    as (h & s1 & Hrun & Hwf1 & Hs1 & Hh & _ & Hlow & _);
    [rewrite <-(right_id_L ∅ (∪) {[p]}); by apply wf_open|done|lia|lia|].
  rewrite Hrun. cbn [mbind outcome_bind]. rewrite <-(proj2 Hs1).
  destruct (remove_fill_top h r vr s1) as (s3 & -> & Hr3 & Hs3);
    [by eapply descend_live|rewrite (proj2 Hs1); lia|by rewrite Hlow by lia|by rewrite (proj1 Hs1)|
     intros q w; rewrite (proj1 Hs1); by apply (dh_top_max compare d Hd s vr q)|].
  cbn [or_ub mbind outcome_bind]. exists (dh_erase r s3). split; [done|].
  assert (Hr0 : dh_heap (dh_erase r s3) !! 0 = Some r).
  { unfold dh_erase. cbn. rewrite lookup_take_lt; [done|]. rewrite (proj2 Hs3), (proj2 Hs1). lia. }
  split_and!; [done| |].
  - unfold d_heap_top, dh_at, dh_value. rewrite Hr0. cbn. by rewrite lookup_delete_eq.
  - assert (r ≠ p) by (intros ->; rewrite Hp in Hnr; simplify_eq; lia).
    unfold dh_contents. cbn. rewrite fmap_delete, lookup_delete_ne by done.
    fold (dh_contents s3). rewrite (proj1 Hs3), (proj1 Hs1). unfold dh_contents. by rewrite lookup_fmap, Hp.
Qed.
End remove.

(** *** Concrete heaps *)
(** Handles are 0, 1, 2, ... in the order of the values pushed. *)
Definition dh_of (d : nat) (vs : list Z) : outcome (d_heap Z) :=
  dh_run_ops Zlt_b d (PqPush <$> vs) d_heap_ctor.

Lemma dh_of_inv vs d h : 0 < d → dh_of d vs = Ret h → dh_wf h ∧ dh_ordered Zlt_b d h.
Proof.
  intros Hd. unfold dh_of.
  assert (∀ s, dh_wf s ∧ dh_ordered Zlt_b d s → dh_run_ops Zlt_b d (PqPush <$> vs) s = Ret h →
    dh_wf h ∧ dh_ordered Zlt_b d h) as H.
  { induction vs as [|v vs IH]; intros s [H1 H2] Hrun; cbn in Hrun; [by simplify_eq|].
    destruct (d_heap_push_spec Zlt_b d Hd v s H1) as (p & s1 & E & Hw & _ & _ & Ho).
    rewrite E in Hrun. cbn in Hrun. apply (IH s1); [split; [done|by apply (Ho Z_lt_swo)]|done]. }
  intros Hrun. apply (H d_heap_ctor); [by eapply dh_empty_spec|done].
Qed.

(** [remove] does not work. For a handle other than that of the top it
    erases the node of the top, which the vector goes on to refer to - so [top]
    is undefined - and leaves the element in the list; and even removing the
    top can leave a node with an index beyond the end, so that a later change of
    its priority writes out of bounds. *)
Theorem d_heap_remove_hazards {T} (compare : T → T → bool) d p v i r s :
  0 < d → StrictWeakOrder compare → dh_wf s → dh_ordered compare d s →
  dh_nodes s !! p = Some (DhNode i v) → 0 < i → dh_heap s !! 0 = Some r →
  (∃ s', d_heap_remove compare d p s = Ret s' ∧ d_heap_top s' = None ∧ dh_contents s' !! p = Some v) ∧
  (∃ h h', dh_of 2 [5; 3; 4]%Z = Ret h ∧ d_heap_remove Zlt_b 2 0 h = Ret h' ∧ d_heap_top h' = Some 4%Z ∧
    dh_run_op Zlt_b 2 (PqChange 2 6%Z) h' = UB).
Proof.
  intros Hd Hswo Hwf Ho Hp Hi Hr. split.
  - destruct (d_heap_remove_dangles compare d Hd p v i r s) as (s' & ? & _ & ? & ?); eauto.
  - eexists _, _. split_and!; vm_compute; reflexivity.
Qed.

(** Lowering the priority of an element above an incomplete family breaks
    the heap order: after 5 was lowered to 1 it is still the top although 4 is
    in the heap, and is popped first. *)
Theorem d_heap_decrease_partial :
  ∃ h h', dh_of 2 [5; 4]%Z = Ret h ∧ dh_wf h ∧ dh_ordered Zlt_b 2 h ∧
    d_heap_decrease Zlt_b 2 0 1%Z h = Ret h' ∧ d_heap_top h' = Some 1%Z ∧
    dh_contents h' !! 1 = Some 4%Z ∧ ¬ dh_ordered Zlt_b 2 h'.
Proof.
  set (h := DHeap {[0 := DhNode 0 5%Z; 1 := DhNode 1 4%Z]} [0; 1]).
  set (h' := DHeap {[0 := DhNode 0 1%Z; 1 := DhNode 1 4%Z]} [0; 1]).
  exists h, h'. split; [vm_compute; reflexivity|].
  assert (Hwf : dh_wf h ∧ dh_ordered Zlt_b 2 h)
    by (apply (dh_of_inv [5; 4]%Z); [lia|vm_compute; reflexivity]).
  split_and!; [apply Hwf|apply Hwf|vm_compute; reflexivity..|].
  intros [Hedge _]. by specialize (Hedge 1 4%Z 1%Z ltac:(cbn; lia) ltac:(done) ltac:(done) eq_refl eq_refl).
Qed.

(** ** Witnesses *)
Definition demo_heap : d_heap Z :=
  match dh_of 3 [5; 3; 4; 9; 1]%Z with Ret h => h | _ => d_heap_ctor end.

Lemma demo_heap_inv : dh_wf demo_heap ∧ dh_ordered Zlt_b 3 demo_heap.
Proof. apply (dh_of_inv [5; 3; 4; 9; 1]%Z); [lia|vm_compute; reflexivity]. Qed.

Lemma d_heap_well_formed_witness :
  ∃ s', dh_run_op Zlt_b 3 (PqDecrease 3 0%Z) demo_heap = Ret s' ∧ dh_wf s' ∧
    d_heap_size s' = length (dh_heap s').
Proof.
  apply (d_heap_well_formed Zlt_b 3); [lia|apply demo_heap_inv|]. split; [by eexists|done].
Defined.

Lemma d_heap_refinement_witness :
  d_heap_top demo_heap = Some 9%Z ∧
  ∃ s', dh_run_op Zlt_b 3 PqPop demo_heap = Ret s' ∧ dh_wf s' ∧ dh_ordered Zlt_b 3 s' ∧
    pq_step Zlt_b (dh_contents demo_heap) PqPop (dh_contents s') ∧
    (dh_contents s' ≠ ∅ → ∃ v, d_heap_top s' = Some v ∧
      ∀ q w, dh_contents s' !! q = Some w → Zlt_b v w = false).
Proof.
  split; [vm_compute; reflexivity|].
  apply (d_heap_refinement Zlt_b 3); [lia|apply _|right; apply demo_heap_inv| |done].
  split; [|done]. cbn. intros Heq. apply (f_equal (lookup 0)) in Heq. vm_compute in Heq. congruence.
Defined.

Lemma d_heap_remove_hazards_witness :
  (∃ s', d_heap_remove Zlt_b 3 1 demo_heap = Ret s' ∧ d_heap_top s' = None ∧
     dh_contents s' !! 1 = Some 3%Z) ∧
  (∃ h h', dh_of 2 [5; 3; 4]%Z = Ret h ∧ d_heap_remove Zlt_b 2 0 h = Ret h' ∧ d_heap_top h' = Some 4%Z ∧
    dh_run_op Zlt_b 2 (PqChange 2 6%Z) h' = UB).
Proof.
  destruct demo_heap_inv as [Hw Ho].
  apply (d_heap_remove_hazards Zlt_b 3 1 3%Z 1 3 demo_heap); [lia|apply _|done|done| |lia|]; vm_compute; reflexivity.
Defined.
