(* ===== verification/PairingHeap.v ===== *)
(** * boost::pairing_heap

    The pairing heap of src/src/old-boost/heaps/p_heap.{hpp,cc}: nodes with
    pointers to their first child, to the next sibling and back to the pointer
    that points to them ([node**]). The state is a store of nodes, with a size
    that does not overflow (every element takes up memory); [forest] describes a
    list of siblings with their children, and [forest_at] relates it to the
    pointers. What the operations do to the pointers is proved here; that the
    heap is a priority queue is proved in PairingQueue. *)
From S2P Require Import Prelude.

(** ** Data *)

(** What a [node**] points to. *)
Inductive node_cell := RootCell | NextCell (n : nat) | ChildrenCell (n : nat).

(** [m_next] is not initialised by the constructor: [None]; otherwise, and in the
    other members, a null pointer is [None] and [Some n] points to the node [n]. *)
Record ph_node (T : Type) := PhNode {
  pn_prev : option node_cell;
  pn_next : option (option nat);
  pn_children : option nat;
  pn_data : T;
}.
Arguments PhNode {T} _ _ _ _.
Arguments pn_prev {T} _.
Arguments pn_next {T} _.
Arguments pn_children {T} _.
Arguments pn_data {T} _.

Record pairing_heap (T : Type) := PairingHeap {
  ph_nodes : gmap nat (ph_node T);
  ph_root : option nat;
  ph_size : Z;
}.
Arguments PairingHeap {T} _ _ _.
Arguments ph_nodes {T} _.
Arguments ph_root {T} _.
Arguments ph_size {T} _.

Definition pairing_heap_ctor {T} : pairing_heap T := PairingHeap ∅ None 0.

Section pairing_heap.
Context {T : Type} (compare : T → T → bool).
Implicit Types s : pairing_heap T.

(** ** Nodes *)
Definition node_ctor (d : T) : ph_node T := PhNode None None None d.

Definition ph_alter (f : ph_node T → ph_node T) (n : nat) s : option (pairing_heap T) :=
  x ← ph_nodes s !! n; Some (PairingHeap (<[n := f x]> (ph_nodes s)) (ph_root s) (ph_size s)).
Definition ph_set_prev (n : nat) (l : option node_cell) : pairing_heap T → option (pairing_heap T) :=
  ph_alter (λ x, PhNode l (pn_next x) (pn_children x) (pn_data x)) n.
Definition ph_set_next (n : nat) (m : option nat) : pairing_heap T → option (pairing_heap T) :=
  ph_alter (λ x, PhNode (pn_prev x) (Some m) (pn_children x) (pn_data x)) n.
Definition ph_set_data (n : nat) (d : T) : pairing_heap T → option (pairing_heap T) :=
  ph_alter (λ x, PhNode (pn_prev x) (pn_next x) (pn_children x) d) n.

(** [*l] and [*l = n]. *)
Definition cell_read (l : node_cell) s : option (option nat) :=
  match l with
  | RootCell => Some (ph_root s)
  | NextCell n => x ← ph_nodes s !! n; pn_next x
  | ChildrenCell n => pn_children <$> ph_nodes s !! n
  end.
Definition cell_write (l : node_cell) (m : option nat) s : option (pairing_heap T) :=
  match l with
  | RootCell => Some (PairingHeap (ph_nodes s) m (ph_size s))
  | NextCell n => ph_set_next n m s
  | ChildrenCell n => ph_alter (λ x, PhNode (pn_prev x) (pn_next x) m (pn_data x)) n s
  end.

Definition ph_next (n : nat) s : option (option nat) := x ← ph_nodes s !! n; pn_next x.
Definition ph_begin (n : nat) s : option (option nat) := pn_children <$> ph_nodes s !! n.
Definition ph_data (n : nat) s : option T := pn_data <$> ph_nodes s !! n.

(** [n->m_next->m_prev = l] unless [m_next] is null. *)
Definition next_set_prev (m : option nat) (l : option node_cell) s : option (pairing_heap T) :=
  match m with Some m => ph_set_prev m l s | None => Some s end.

Definition node_insert (l : node_cell) (n : nat) s : option (pairing_heap T) :=
  m ← cell_read l s;
  s ← ph_set_next n m s;
  s ← next_set_prev m (Some (NextCell n)) s;
  s ← ph_set_prev n (Some l) s;
  cell_write l (Some n) s.

Definition node_set_root (l : node_cell) (n : nat) s : option (pairing_heap T) :=
  s ← ph_set_next n None s;
  s ← ph_set_prev n (Some l) s;
  cell_write l (Some n) s.

Definition node_remove (n : nat) s : option (pairing_heap T) :=
  x ← ph_nodes s !! n;
  m ← pn_next x;
  s ← next_set_prev m (pn_prev x) s;
  x ← ph_nodes s !! n;
  l ← pn_prev x;
  s ← cell_write l m s;
  ph_set_prev n None s.

(** ** The heap *)
Definition ph_link (n1 n2 : nat) s : option (nat * pairing_heap T) :=
  d2 ← ph_data n2 s;
  d1 ← ph_data n1 s;
  if compare d2 d1 then s ← node_insert (ChildrenCell n1) n2 s; Some (n1, s)
  else s ← node_insert (ChildrenCell n2) n1 s; Some (n2, s).

(** What follows [if (c)] in [recursive_link] and [unlink]: the siblings from
    [c] on become one tree. *)
Definition link_rest (recursive_link : nat → nat → option nat → pairing_heap T → outcome (nat * pairing_heap T))
    (c : nat) s : outcome (nat * pairing_heap T) :=
  m ← or_ub (ph_next c s);
  match m with
  | Some m => k ← or_ub (ph_next m s); recursive_link c m k s
  | None => s ← or_ub (node_remove c s); Ret (c, s)
  end.

Fixpoint recursive_link (fuel n1 n2 : nat) (c : option nat) s : outcome (nat * pairing_heap T) :=
  match fuel with
  | 0 => NoFuel
  | S fuel =>
      s ← or_ub (node_remove n1 s);
      s ← or_ub (node_remove n2 s);
      '(n1, s) ← or_ub (ph_link n1 n2 s);
      match c with
      | None => Ret (n1, s)
      | Some c => '(c, s) ← link_rest (recursive_link fuel) c s; or_ub (ph_link n1 c s)
      end
  end.

Definition ph_unlink (fuel n : nat) s : outcome (pairing_heap T) :=
  s ← or_ub (node_remove n s);
  c ← or_ub (ph_begin n s);
  match c with
  | None => Ret s
  | Some c =>
      '(c, s) ← link_rest (recursive_link fuel) c s;
      '(r, s) ← match ph_root s with
                | None => Ret (c, s)
                | Some root => or_ub (ph_link root c s)
                end;
      or_ub (node_set_root RootCell r s)
  end.

Definition ph_empty s : bool := bool_decide (ph_size s = 0%Z).

(** The new node becomes the root, or is linked with it. *)
Definition ph_push (d : T) s : outcome (nat * pairing_heap T) :=
  let rc := fresh (dom (ph_nodes s)) in
  let size := ph_size s in
  let s := PairingHeap (<[rc := node_ctor d]> (ph_nodes s)) (ph_root s) (size + 1)%Z in
  '(r, s) ← (if decide (size = 0%Z) then Ret (rc, s)
             else root ← or_ub (ph_root s); or_ub (ph_link rc root s));
  s ← or_ub (node_set_root RootCell r s);
  Ret (rc, s).

Definition ph_top s : option T := n ← ph_root s; ph_data n s.

(** [delete n] of something that is no node is undefined. *)
Definition ph_delete (n : nat) s : option (pairing_heap T) :=
  _ ← ph_nodes s !! n; Some (PairingHeap (delete n (ph_nodes s)) (ph_root s) (ph_size s)).

Definition ph_remove (fuel n : nat) s : outcome (pairing_heap T) :=
  s ← ph_unlink fuel n s;
  or_ub (ph_delete n (PairingHeap (ph_nodes s) (ph_root s) (ph_size s - 1)%Z)).

Definition ph_pop (fuel : nat) s : outcome (pairing_heap T) :=
  root ← or_ub (ph_root s); ph_remove fuel root s.

Definition ph_change (fuel n : nat) (d : T) s : outcome (pairing_heap T) :=
  s ← ph_unlink fuel n s;
  s ← or_ub (ph_set_data n d s);
  '(r, s) ← match ph_root s with
            | None => Ret (n, s)
            | Some root => or_ub (ph_link n root s)
            end;
  or_ub (node_set_root RootCell r s).

Definition ph_change_top (fuel : nat) (d : T) s : outcome (pairing_heap T) :=
  root ← or_ub (ph_root s); ph_change fuel root d s.
Definition ph_decrease (fuel n : nat) (d : T) s : outcome (pairing_heap T) := ph_change fuel n d s.
Definition ph_increase (fuel n : nat) (d : T) s : outcome (pairing_heap T) := ph_change fuel n d s.
End pairing_heap.

(** ** Forests *)

(** A list of siblings: the first node with its priority and its children, and
    the other siblings. *)
Inductive forest (T : Type) := FNil | FNode (n : nat) (v : T) (c x : forest T).
Arguments FNil {T}.
Arguments FNode {T} _ _ _ _.

Section forests.
Context {T : Type}.
Implicit Types (s : pairing_heap T) (f c x : forest T).

Definition froot f : option nat := match f with FNil => None | FNode n _ _ _ => Some n end.
Fixpoint fnodes f : list nat :=
  match f with FNil => [] | FNode n _ c x => n :: fnodes c ++ fnodes x end.
Fixpoint fsiblings f : nat := match f with FNil => 0 | FNode _ _ _ x => S (fsiblings x) end.
Fixpoint felems f : list (nat * T) :=
  match f with FNil => [] | FNode n v c x => (n, v) :: felems c ++ felems x end.

Lemma felems_nodes f : (felems f).*1 = fnodes f.
Proof. induction f as [|n v c IHc x IHx]; simpl; [done|]. by rewrite fmap_app, IHc, IHx. Qed.

(** The forest which the cell [l] points to. *)
Fixpoint forest_at s (l : node_cell) f : Prop :=
  match f with
  | FNil => True
  | FNode n v c x =>
      ph_nodes s !! n = Some (PhNode (Some l) (Some (froot x)) (froot c) v) ∧
      forest_at s (ChildrenCell n) c ∧ forest_at s (NextCell n) x
  end.

(** A node with its children, wherever it is linked. *)
Definition tree_at s (n : nat) (v : T) c : Prop :=
  (∃ l m, ph_nodes s !! n = Some (PhNode l m (froot c) v)) ∧ forest_at s (ChildrenCell n) c.

Lemma forest_at_frame s s' l f :
  forest_at s l f → (∀ y, y ∈ fnodes f → ph_nodes s' !! y = ph_nodes s !! y) → forest_at s' l f.
Proof.
  revert l. induction f as [|n v c IHc x IHx]; intros l; simpl; [done|].
  intros (Hn & Hc & Hx) Hf. split_and!.
  - rewrite Hf; [done|]. by apply elem_of_cons; left.
  - apply IHc; [done|]. intros y Hy. apply Hf. apply elem_of_cons. right. apply elem_of_app. by left.
  - apply IHx; [done|]. intros y Hy. apply Hf. apply elem_of_cons. right. apply elem_of_app. by right.
Qed.

Lemma tree_at_frame s s' n v c :
  tree_at s n v c → (∀ y, y ∈ n :: fnodes c → ph_nodes s' !! y = ph_nodes s !! y) → tree_at s' n v c.
Proof.
  intros [(l & m & Hn) Hc] Hf. split.
  - exists l, m. rewrite Hf; [done|]. by apply elem_of_cons; left.
  - eapply forest_at_frame; [done|]. intros y Hy. apply Hf. by apply elem_of_cons; right.
Qed.

(** *** Writing a cell *)
Definition cell_owner (l : node_cell) : option nat :=
  match l with RootCell => None | NextCell n | ChildrenCell n => Some n end.
Definition cell_upd (l : node_cell) (m : option nat) (y : nat) (z : ph_node T) : ph_node T :=
  match l with
  | RootCell => z
  | NextCell n => if decide (y = n) then PhNode (pn_prev z) (Some m) (pn_children z) (pn_data z) else z
  | ChildrenCell n => if decide (y = n) then PhNode (pn_prev z) (pn_next z) m (pn_data z) else z
  end.
Definition cell_root (l : node_cell) (m r : option nat) : option nat :=
  match l with RootCell => m | _ => r end.

(** Outside of the nodes [X] only the cell [l] was changed, to [m]. *)
Record moved (l : node_cell) (m : option nat) (X : list nat) s s' : Prop := Moved {
  mv_root : ph_root s' = cell_root l m (ph_root s);
  mv_size : ph_size s' = ph_size s;
  mv_nodes y : y ∉ X → ph_nodes s' !! y = cell_upd l m y <$> ph_nodes s !! y;
}.
(** Outside of the nodes [X] nothing was. *)
Record kept (X : list nat) s s' : Prop := Kept {
  kp_root : ph_root s' = ph_root s;
  kp_size : ph_size s' = ph_size s;
  kp_nodes y : y ∉ X → ph_nodes s' !! y = ph_nodes s !! y;
}.

Lemma cell_upd_twice l m m' y (z : ph_node T) : cell_upd l m y (cell_upd l m' y z) = cell_upd l m y z.
Proof. destruct l; simpl; [done|by case_decide..]. Qed.

Lemma cell_upd_other l m y (o : option (ph_node T)) : cell_owner l ≠ Some y → cell_upd l m y <$> o = o.
Proof. destruct l, o; simpl; intros ?; try done; by rewrite decide_False by congruence. Qed.

Lemma cell_read_upd l m y s z :
  cell_read l s = Some m → ph_nodes s !! y = Some z → cell_upd l m y z = z.
Proof.
  destruct l as [|n|n]; simpl; intros Hr Hy; [done| |]; case_decide; subst; try done;
    rewrite Hy in Hr; simpl in Hr; destruct z; simplify_eq/=; done.
Qed.

Lemma cell_write_moved l m s :
  is_Some (cell_read l s) → ∃ s', cell_write l m s = Some s' ∧ moved l m [] s s'.
Proof.
  destruct l as [|n|n]; simpl; unfold ph_set_next, ph_alter; intros [m0 Hr].
  - eexists. split; [done|]. split; simpl; auto. intros y _. by destruct (ph_nodes s !! y).
  - destruct (ph_nodes s !! n) as [z|] eqn:Hn; simpl in Hr; [|done]. eexists. split; [done|].
    split; simpl; auto. intros y _. destruct (decide (y = n)) as [->|Hne].
    + rewrite lookup_insert_eq, Hn. simpl. by rewrite decide_True.
    + rewrite lookup_insert_ne by done. destruct (ph_nodes s !! y); simpl; by rewrite ?decide_False.
  - destruct (ph_nodes s !! n) as [z|] eqn:Hn; simpl in Hr; [|done]. eexists. split; [done|].
    split; simpl; auto. intros y _. destruct (decide (y = n)) as [->|Hne].
    + rewrite lookup_insert_eq, Hn. simpl. by rewrite decide_True.
    + rewrite lookup_insert_ne by done. destruct (ph_nodes s !! y); simpl; by rewrite ?decide_False.
Qed.

Lemma moved_weaken l m X Y s s' : moved l m X s s' → X ⊆ Y → moved l m Y s s'.
Proof. intros [H1 H2 H] HXY. split; [done..|]. intros y Hy. apply H. by intros ?%HXY. Qed.
Lemma kept_weaken X Y s s' : kept X s s' → X ⊆ Y → kept Y s s'.
Proof. intros [H1 H2 H] HXY. split; [done..|]. intros y Hy. apply H. by intros ?%HXY. Qed.

Lemma moved_trans l m m' X s1 s2 s3 : moved l m X s1 s2 → moved l m' X s2 s3 → moved l m' X s1 s3.
Proof.
  intros [H1 H2 H3] [H4 H5 H6]. split; [|congruence|].
  - rewrite H4, H1. by destruct l.
  - intros y Hy. rewrite H6, H3 by done.
    destruct (ph_nodes s1 !! y); simpl; [|done]. by rewrite cell_upd_twice.
Qed.
Lemma kept_trans X s1 s2 s3 : kept X s1 s2 → kept X s2 s3 → kept X s1 s3.
Proof. intros [H1 H2 H3] [H4 H5 H6]. split; [congruence..|]. intros y Hy. by rewrite H6, H3. Qed.

Lemma moved_kept l m X s1 s2 s3 : moved l m X s1 s2 → kept X s2 s3 → moved l m X s1 s3.
Proof. intros [H1 H2 H3] [H4 H5 H6]. split; [congruence..|]. intros y Hy. by rewrite H6, H3. Qed.
Lemma kept_moved l m X s1 s2 s3 : kept X s1 s2 → moved l m X s2 s3 → moved l m X s1 s3.
Proof. intros [H1 H2 H3] [H4 H5 H6]. split; [congruence..|]. intros y Hy. by rewrite H6, H3. Qed.

(** A cell of a node in [X]. *)
Lemma moved_inside l m X s s' n : cell_owner l = Some n → n ∈ X → moved l m X s s' → kept X s s'.
Proof.
  intros Hl Hn [H1 H2 H3]. split; [|done|].
  - rewrite H1. by destruct l.
  - intros y Hy. rewrite H3 by done. apply cell_upd_other. rewrite Hl. by intros [= ->].
Qed.

(** Writing what is there. *)
Lemma kept_moved_same l m X s s' : cell_read l s = Some m → kept X s s' → moved l m X s s'.
Proof.
  intros Hr [H1 H2 H3]. split; [|done|].
  - rewrite H1. destruct l; simpl in *; congruence.
  - intros y Hy. rewrite H3 by done. destruct (ph_nodes s !! y) as [z|] eqn:Hz; [|done]. simpl. f_equal.
    symmetry. by eapply cell_read_upd.
Qed.

Lemma moved_read l m X s s' :
  moved l m X s s' → is_Some (cell_read l s) → (∀ n, cell_owner l = Some n → n ∉ X) → cell_read l s' = Some m.
Proof.
  intros [H1 H2 H3] [m0 Hr] Ho. destruct l as [|n|n]; simpl in *; [congruence| |];
    rewrite H3 by (by apply Ho); destruct (ph_nodes s !! n) as [z|]; simplify_eq/=; by rewrite decide_True.
Qed.

Lemma moved_forest l m X s s' l' f :
  moved l m X s s' → forest_at s l' f → (∀ y, y ∈ fnodes f → y ∉ X ∧ cell_owner l ≠ Some y) →
  forest_at s' l' f.
Proof.
  intros [_ _ H3] Hf Hn. eapply forest_at_frame; [done|]. intros y Hy. destruct (Hn y Hy).
  rewrite H3 by done. by apply cell_upd_other.
Qed.
Lemma moved_tree l m X s s' n v c :
  moved l m X s s' → tree_at s n v c → (∀ y, y ∈ n :: fnodes c → y ∉ X ∧ cell_owner l ≠ Some y) →
  tree_at s' n v c.
Proof.
  intros [_ _ H3] Hf Hn. eapply tree_at_frame; [done|]. intros y Hy. destruct (Hn y Hy).
  rewrite H3 by done. by apply cell_upd_other.
Qed.
Lemma kept_forest X s s' l f :
  kept X s s' → forest_at s l f → (∀ y, y ∈ fnodes f → y ∉ X) → forest_at s' l f.
Proof. intros [_ _ H3] Hf Hn. eapply forest_at_frame; [done|]. auto. Qed.
Lemma kept_tree X s s' n v c :
  kept X s s' → tree_at s n v c → (∀ y, y ∈ n :: fnodes c → y ∉ X) → tree_at s' n v c.
Proof. intros [_ _ H3] Hf Hn. eapply tree_at_frame; [done|]. auto. Qed.
End forests.

(** ** Operations on nodes *)
Section nodes.
Context {T : Type}.
Implicit Types (s : pairing_heap T) (f c x : forest T).

Lemma nodup_node (n : nat) (v : T) c x :
  NoDup (fnodes (FNode n v c x)) →
  n ∉ fnodes c ∧ n ∉ fnodes x ∧ NoDup (fnodes c) ∧ NoDup (fnodes x) ∧ ∀ y, y ∈ fnodes c → y ∉ fnodes x.
Proof.
  simpl. intros [[Hc Hx]%not_elem_of_app (Hndc & Hdis & Hndx)%NoDup_app]%NoDup_cons. done.
Qed.

Lemma elem_of_node (y n : nat) (v : T) c x :
  y ∈ fnodes (FNode n v c x) ↔ y = n ∨ y ∈ fnodes c ∨ y ∈ fnodes x.
Proof. simpl. by rewrite elem_of_cons, elem_of_app. Qed.

Lemma ph_alter_spec (g : ph_node T → ph_node T) n s z :
  ph_nodes s !! n = Some z →
  ∃ s', ph_alter g n s = Some s' ∧ kept [n] s s' ∧ ph_nodes s' !! n = Some (g z).
Proof.
  intros Hn. unfold ph_alter. rewrite Hn. simpl. eexists. split; [done|]. split; [|simpl; by rewrite lookup_insert_eq].
  split; simpl; [done..|]. intros y Hy. apply lookup_insert_ne. intros ->. apply Hy. by apply list_elem_of_singleton.
Qed.

Lemma kept_read X l s s' m :
  kept X s s' → cell_read l s = Some m → (∀ o, cell_owner l = Some o → o ∉ X) → cell_read l s' = Some m.
Proof.
  intros [H1 _ H3] Hr Ho. destruct l as [|n|n]; simpl in *; [congruence| |]; by rewrite H3 by (by apply Ho).
Qed.

(** The back pointer of the first of the siblings [x]. *)
Lemma next_set_prev_spec l l' s x :
  forest_at s l x → NoDup (fnodes x) →
  ∃ s', next_set_prev (froot x) (Some l') s = Some s' ∧ forest_at s' l' x ∧ kept (fnodes x) s s'.
Proof.
  destruct x as [|n v c x]; simpl; [intros; exists s; split_and!; by try split|].
  intros (Hn & Hc & Hx) (Hnc & Hnx & _)%(nodup_node n v).
  destruct (ph_alter_spec (λ z, PhNode (Some l') (pn_next z) (pn_children z) (pn_data z)) n s _ Hn)
    as (s' & Hs' & Hk & Hz).
  exists s'. split_and!; [done|done| | |].
  - eapply kept_forest; [done..|]. by intros y Hy ->%list_elem_of_singleton.
  - eapply kept_forest; [done..|]. by intros y Hy ->%list_elem_of_singleton.
  - eapply kept_weaken; [done|]. intros y ->%list_elem_of_singleton. by apply elem_of_cons; left.
Qed.

(** Taking a node with its children out of a forest. *)
Fixpoint fcut (n : nat) f : option (forest T * T * forest T) :=
  match f with
  | FNil => None
  | FNode m v c x =>
      if decide (m = n) then Some (x, v, c)
      else match fcut n c with
           | Some (c', w, k) => Some (FNode m v c' x, w, k)
           | None => match fcut n x with
                     | Some (x', w, k) => Some (FNode m v c x', w, k)
                     | None => None
                     end
           end
  end.

Lemma node_remove_first l s n v c x :
  let f := FNode n v c x in
  forest_at s l f → NoDup (fnodes f) → cell_read l s = Some (Some n) →
  (∀ o, cell_owner l = Some o → o ∉ fnodes f) →
  ∃ s', node_remove n s = Some s' ∧ moved l (froot x) (n :: fnodes x) s s' ∧ forest_at s' l x ∧ tree_at s' n v c.
Proof.
  intros f (Hn & Hc & Hx) Hnd Hr Ho. apply nodup_node in Hnd as (Hnc & Hnx & Hndc & Hndx & Hdis).
  assert (Hol : ∀ y, y ∈ fnodes f → cell_owner l ≠ Some y) by (intros y Hy E; by apply (Ho y)).
  unfold node_remove. rewrite Hn. simpl.
  destruct (next_set_prev_spec _ l s x Hx Hndx) as (s1 & Hs1 & Hx1 & Hk1). rewrite Hs1. simpl.
  rewrite (kp_nodes _ _ _ Hk1 n Hnx), Hn. simpl.
  assert (Hr1 : is_Some (cell_read l s1)).
  { eexists. eapply kept_read; [done..|]. intros o Hlo Hin. apply (Hol o); [|done].
    apply elem_of_node. by right; right. }
  destruct (cell_write_moved l (froot x) s1 Hr1) as (s2 & Hs2 & Hm2). rewrite Hs2. simpl.
  assert (Hn2 : ph_nodes s2 !! n = Some (PhNode (Some l) (Some (froot x)) (froot c) v)).
  { rewrite (mv_nodes _ _ _ _ _ Hm2) by apply not_elem_of_nil. rewrite (kp_nodes _ _ _ Hk1 n Hnx), Hn.
    apply cell_upd_other, Hol, elem_of_node. by left. }
  destruct (ph_alter_spec (λ z, PhNode None (pn_next z) (pn_children z) (pn_data z)) n s2 _ Hn2)
    as (s3 & Hs3 & Hk3 & Hn3).
  assert (Hm : moved l (froot x) (n :: fnodes x) s s3).
  { eapply moved_kept; [eapply kept_moved|]; [eapply kept_weaken; [exact Hk1|]|
      eapply moved_weaken; [exact Hm2|]|eapply kept_weaken; [exact Hk3|]].
    - intros y ?. by apply elem_of_cons; right.
    - by intros y ?%elem_of_nil.
    - intros y ->%list_elem_of_singleton. by apply elem_of_cons; left. }
  exists s3. split_and!; [done|done| |].
  - eapply kept_forest; [exact Hk3| |by intros y Hy ->%list_elem_of_singleton].
    eapply moved_forest; [exact Hm2|done|]. intros y Hy. split; [apply not_elem_of_nil|].
    apply Hol, elem_of_node. by right; right.
  - split; [by eexists _, _|]. eapply moved_forest; [exact Hm|done|]. intros y Hy. split.
    + apply not_elem_of_cons. split; [by intros ->|by apply Hdis].
    + apply Hol, elem_of_node. by right; left.
Qed.

Lemma fcut_none n f : n ∉ fnodes f → fcut n f = None.
Proof.
  induction f as [|m v c IHc x IHx]; simpl; [done|]. intros [Hne [Hc Hx]%not_elem_of_app]%not_elem_of_cons.
  by rewrite decide_False, IHc, IHx by auto.
Qed.

Lemma node_remove_spec n l s f :
  forest_at s l f → NoDup (fnodes f) → cell_read l s = Some (froot f) →
  (∀ o, cell_owner l = Some o → o ∉ fnodes f) → n ∈ fnodes f →
  ∃ f' v c s', fcut n f = Some (f', v, c) ∧ node_remove n s = Some s' ∧
    moved l (froot f') (fnodes f) s s' ∧ forest_at s' l f' ∧ tree_at s' n v c.
Proof.
  revert l. induction f as [|m v c IHc x IHx]; intros l Hf Hnd Hr Ho Hin; [by apply elem_of_nil in Hin|].
  destruct (decide (m = n)) as [->|Hne].
  { destruct (node_remove_first l s n v c x Hf Hnd Hr Ho) as (s' & Hs' & Hm & Hx & Ht).
    exists x, v, c, s'. simpl. rewrite decide_True by done. split_and!; try done.
    eapply moved_weaken; [done|]. intros y. rewrite elem_of_cons, (elem_of_node y n v c x). tauto. }
  destruct Hf as (Hn & Hc & Hx). pose proof (nodup_node _ _ _ _ Hnd) as (Hmc & Hmx & Hndc & Hndx & Hdis).
  assert (Hm : m ∈ fnodes (FNode m v c x)) by (apply elem_of_node; by left).
  assert (Hsame : ∀ X s', X ⊆ fnodes (FNode m v c x) → kept X s s' ∨ (∃ l0 k, cell_owner l0 = Some m ∧ moved l0 k X s s') →
    moved l (Some m) (fnodes (FNode m v c x)) s s').
  { intros X s' HX [Hk|(l0 & k & Ho0 & Hk)]; (apply kept_moved_same; [done|]);
      [by eapply kept_weaken|eapply moved_inside; [done|done|by eapply moved_weaken]]. }
  apply elem_of_node in Hin as [->|Hin]; [done|]. simpl. rewrite decide_False by done.
  destruct (decide (n ∈ fnodes c)) as [Hnc|Hnc].
  - destruct (IHc (ChildrenCell m)) as (c' & w & k & s' & -> & Hs' & Hmv & Hc' & Ht); try done.
    { simpl. by rewrite Hn. } { by intros o [= <-]. }
    exists (FNode m v c' x), w, k, s'. split_and!; try done; [|split_and!; [|done|]].
    + apply (Hsame (fnodes c)); [intros y ?; apply elem_of_node; tauto|right; by exists (ChildrenCell m), (froot c')].
    + rewrite (mv_nodes _ _ _ _ _ Hmv m Hmc), Hn. simpl. by rewrite decide_True.
    + eapply moved_forest; [exact Hmv|done|]. intros y Hy. split; [by intros ?%Hdis|]. by intros [= ->].
  - destruct Hin as [?|Hin]; [done|]. rewrite (fcut_none n c) by done.
    destruct (IHx (NextCell m)) as (x' & w & k & s' & -> & Hs' & Hmv & Hx' & Ht); try done.
    { simpl. by rewrite Hn. } { by intros o [= <-]. }
    exists (FNode m v c x'), w, k, s'. split_and!; try done; [|split_and!; [| |done]].
    + apply (Hsame (fnodes x)); [intros y ?; apply elem_of_node; tauto|right; by exists (NextCell m), (froot x')].
    + rewrite (mv_nodes _ _ _ _ _ Hmv m Hmx), Hn. simpl. by rewrite decide_True.
    + eapply moved_forest; [exact Hmv|done|]. intros y Hy. split; [by apply Hdis|]. by intros [= ->].
Qed.

(** Linking a tree in front of a forest. *)
Lemma node_insert_spec n v c l s f :
  forest_at s l f → NoDup (fnodes f) → cell_read l s = Some (froot f) →
  (∀ o, cell_owner l = Some o → o ∉ fnodes f ∧ o ∉ n :: fnodes c) →
  tree_at s n v c → (∀ y, y ∈ n :: fnodes c → y ∉ fnodes f) → n ∉ fnodes c →
  ∃ s', node_insert l n s = Some s' ∧ moved l (Some n) (n :: fnodes f) s s' ∧ forest_at s' l (FNode n v c f).
Proof.
  intros Hf Hnd Hr Ho [(l0 & m0 & Hn) Hc] Hdis Hnc. unfold node_insert. rewrite Hr. simpl.
  assert (Hnf : n ∉ fnodes f) by (apply Hdis; by apply elem_of_cons; left).
  destruct (ph_alter_spec (λ z, PhNode (pn_prev z) (Some (froot f)) (pn_children z) (pn_data z)) n s _ Hn)
    as (s1 & Hs1 & Hk1 & Hn1). unfold ph_set_next at 1. rewrite Hs1. simpl.
  assert (Hf1 : forest_at s1 l f).
  { eapply kept_forest; [exact Hk1|done|]. by intros y Hy ->%list_elem_of_singleton. }
  destruct (next_set_prev_spec l (NextCell n) s1 f Hf1 Hnd) as (s2 & Hs2 & Hf2 & Hk2). rewrite Hs2. simpl.
  assert (Hn2 : ph_nodes s2 !! n = Some (PhNode l0 (Some (froot f)) (froot c) v)).
  { by rewrite (kp_nodes _ _ _ Hk2 n Hnf), Hn1. }
  destruct (ph_alter_spec (λ z, PhNode (Some l) (pn_next z) (pn_children z) (pn_data z)) n s2 _ Hn2)
    as (s3 & Hs3 & Hk3 & Hn3). unfold ph_set_prev at 1. rewrite Hs3. simpl.
  assert (Hk : kept (n :: fnodes f) s s3).
  { eapply kept_trans; [eapply kept_weaken; [exact Hk1|]|eapply kept_trans; eapply kept_weaken; [exact Hk2| |exact Hk3|]];
      intros y; rewrite ?elem_of_cons, ?elem_of_nil; tauto. }
  assert (Hr3 : is_Some (cell_read l s3)).
  { eexists. eapply kept_read; [exact Hk|exact Hr|]. intros o [Hof Hoc]%Ho. apply not_elem_of_cons in Hoc.
    apply not_elem_of_cons. by destruct Hoc. }
  destruct (cell_write_moved l (Some n) s3 Hr3) as (s4 & Hs4 & Hm4). exists s4.
  assert (Hol : ∀ y, y ∈ n :: fnodes c ∨ y ∈ fnodes f → cell_owner l ≠ Some y).
  { intros y Hy [H1 H2]%Ho. by destruct Hy. }
  split_and!; [done| | | |].
  - eapply kept_moved; [exact Hk|]. eapply moved_weaken; [done|]. by intros y ?%elem_of_nil.
  - rewrite (mv_nodes _ _ _ _ _ Hm4) by apply not_elem_of_nil. rewrite Hn3. apply cell_upd_other, Hol.
    left. by apply elem_of_cons; left.
  - eapply moved_forest; [exact Hm4|eapply kept_forest; [exact Hk|done|]|].
    + intros y Hy. apply not_elem_of_cons. split; [by intros ->|]. apply Hdis. by apply elem_of_cons; right.
    + intros y Hy. split; [apply not_elem_of_nil|]. apply Hol. left. by apply elem_of_cons; right.
  - eapply moved_forest; [exact Hm4|eapply kept_forest; [exact Hk3|exact Hf2|]|].
    + by intros y Hy ->%list_elem_of_singleton.
    + intros y Hy. split; [apply not_elem_of_nil|]. apply Hol. by right.
Qed.
End nodes.

(** ** Linking *)
Section linking.
Context {T : Type} (compare : T → T → bool).
Implicit Types (s : pairing_heap T) (f c x : forest T).

(** A tree: its root, the priority of the root, and the children. *)
Definition heap_tree : Type := nat * T * forest T.
Implicit Types t : heap_tree.

Definition tree_root t : nat := t.1.1.
Definition tree_nodes t : list nat := t.1.1 :: fnodes t.2.
Definition tree_in s t : Prop := tree_at s t.1.1 t.1.2 t.2.

(** What [link] and [recursive_link] mean. *)
Definition flink t1 t2 : heap_tree :=
  if compare t2.1.2 t1.1.2 then (t1.1.1, t1.1.2, FNode t2.1.1 t2.1.2 t2.2 t1.2)
  else (t2.1.1, t2.1.2, FNode t1.1.1 t1.1.2 t1.2 t2.2).

Fixpoint fpairs n1 v1 c1 f : heap_tree :=
  match f with
  | FNil => (n1, v1, c1)
  | FNode n2 v2 c2 FNil => flink (n1, v1, c1) (n2, v2, c2)
  | FNode n2 v2 c2 (FNode n3 v3 c3 x) => flink (flink (n1, v1, c1) (n2, v2, c2)) (fpairs n3 v3 c3 x)
  end.

Definition telems t : list (nat * T) := (t.1.1, t.1.2) :: felems t.2.

Lemma telems_nodes t : (telems t).*1 = tree_nodes t.
Proof. unfold telems, tree_nodes. simpl. by rewrite felems_nodes. Qed.

Lemma flink_elems t1 t2 : telems (flink t1 t2) ≡ₚ telems t1 ++ telems t2.
Proof.
  destruct t1 as [[n1 v1] c1], t2 as [[n2 v2] c2]. unfold flink, telems. simpl.
  destruct (compare v2 v1); simpl; solve_Permutation.
Qed.

Lemma fpairs_elems n v c f : telems (fpairs n v c f) ≡ₚ (n, v) :: felems c ++ felems f.
Proof.
  revert n v c. induction f as [f IH] using (induction_ltof1 _ fsiblings). intros n v c.
  destruct f as [|n2 v2 c2 [|n3 v3 c3 x]].
  - simpl. by rewrite app_nil_r.
  - simpl. rewrite flink_elems. unfold telems. simpl. by rewrite app_nil_r.
  - cbn [fpairs]. rewrite flink_elems, (flink_elems (n, v, c)), IH by (unfold ltof; simpl; lia).
    unfold telems. simpl. by rewrite <-!(assoc_L (++)).
Qed.

Lemma flink_nodes t1 t2 : tree_nodes (flink t1 t2) ≡ₚ tree_nodes t1 ++ tree_nodes t2.
Proof. by rewrite <-!telems_nodes, flink_elems, fmap_app. Qed.
Lemma fpairs_nodes n v c f : tree_nodes (fpairs n v c f) ≡ₚ n :: fnodes c ++ fnodes f.
Proof. rewrite <-telems_nodes, fpairs_elems. simpl. by rewrite fmap_app, !felems_nodes. Qed.

Lemma link_under n1 v1 c1 n2 v2 c2 s :
  tree_at s n1 v1 c1 → tree_at s n2 v2 c2 → NoDup ((n1 :: fnodes c1) ++ n2 :: fnodes c2) →
  ∃ s', node_insert (ChildrenCell n1) n2 s = Some s' ∧ tree_at s' n1 v1 (FNode n2 v2 c2 c1) ∧
    kept ((n1 :: fnodes c1) ++ n2 :: fnodes c2) s s'.
Proof.
  intros [(l1 & m1 & Hn1) Hc1] H2 (Hnd1 & Hdis & Hnd2)%NoDup_app.
  apply NoDup_cons in Hnd1 as [Hn1c Hnd1]. apply NoDup_cons in Hnd2 as [Hn2c Hnd2].
  destruct (node_insert_spec n2 v2 c2 (ChildrenCell n1) s c1) as (s' & Hs' & Hm & Hf); try done.
  - simpl. by rewrite Hn1.
  - intros o [= <-]. split; [done|]. apply Hdis. by apply elem_of_cons; left.
  - intros y Hy Hyc. apply (Hdis y); [by apply elem_of_cons; right|done].
  - exists s'. split_and!; [done| |].
    + split; [|done]. exists l1, m1. rewrite (mv_nodes _ _ _ _ _ Hm), Hn1.
      * simpl. by rewrite decide_True.
      * apply not_elem_of_cons. split; [|done]. intros ->. apply (Hdis n2); by apply elem_of_cons; left.
    + eapply (moved_inside (ChildrenCell n1) _ _ _ _ n1); [done|by apply elem_of_cons; left|].
      eapply moved_weaken; [exact Hm|]. intros y. rewrite !elem_of_app, !elem_of_cons. tauto.
Qed.

Lemma link_spec t1 t2 s :
  tree_in s t1 → tree_in s t2 → NoDup (tree_nodes t1 ++ tree_nodes t2) →
  ∃ s', ph_link compare (tree_root t1) (tree_root t2) s = Some (tree_root (flink t1 t2), s') ∧
    tree_in s' (flink t1 t2) ∧ kept (tree_nodes t1 ++ tree_nodes t2) s s'.
Proof.
  destruct t1 as [[n1 v1] c1], t2 as [[n2 v2] c2]. unfold tree_in, tree_nodes, tree_root, flink. simpl.
  intros H1 H2 Hnd. unfold ph_link, ph_data. pose proof H1 as [(l1 & m1 & E1) _]. pose proof H2 as [(l2 & m2 & E2) _].
  rewrite E2, E1. simpl. destruct (compare v2 v1); simpl.
  - destruct (link_under n1 v1 c1 n2 v2 c2 s) as (s' & -> & Ht & Hk); [done..|]. by exists s'.
  - destruct (link_under n2 v2 c2 n1 v1 c1 s) as (s' & -> & Ht & Hk); [done..|by rewrite (comm (++))|].
    exists s'. split_and!; [done..|]. eapply kept_weaken; [exact Hk|].
    intros y. simpl. rewrite !elem_of_cons, !elem_of_app, !elem_of_cons. tauto.
Qed.

Lemma set_root_spec t s :
  tree_in s t → tree_root t ∉ fnodes t.2 →
  ∃ s', node_set_root RootCell (tree_root t) s = Some s' ∧ ph_root s' = Some (tree_root t) ∧
    forest_at s' RootCell (FNode t.1.1 t.1.2 t.2 FNil) ∧ ph_size s' = ph_size s ∧
    ∀ y, y ≠ tree_root t → ph_nodes s' !! y = ph_nodes s !! y.
Proof.
  destruct t as [[n v] c]. unfold tree_in, tree_root. simpl. intros [(l & m & Hn) Hc] Hnc.
  unfold node_set_root.
  destruct (ph_alter_spec (λ z, PhNode (pn_prev z) (Some None) (pn_children z) (pn_data z)) n s _ Hn)
    as (s1 & Hs1 & Hk1 & Hn1). unfold ph_set_next at 1. rewrite Hs1. simpl.
  destruct (ph_alter_spec (λ z, PhNode (Some RootCell) (pn_next z) (pn_children z) (pn_data z)) n s1 _ Hn1)
    as (s2 & Hs2 & Hk2 & Hn2). unfold ph_set_prev. rewrite Hs2. simpl.
  pose proof (kept_trans _ _ _ _ Hk1 Hk2) as Hk. eexists. split_and!; [done|done|done| |done| |].
  - eapply forest_at_frame; [exact Hc|]. intros y Hy. apply Hk. by intros ->%list_elem_of_singleton.
  - by destruct Hk.
  - intros y Hy. apply Hk. by intros ->%list_elem_of_singleton.
Qed.

(** Linking the siblings at [l]: the cell is null afterwards. *)
Definition rest_linked (fuel : nat) : Prop := ∀ l s n v c x,
  forest_at s l (FNode n v c x) → NoDup (fnodes (FNode n v c x)) → cell_read l s = Some (Some n) →
  (∀ o, cell_owner l = Some o → o ∉ fnodes (FNode n v c x)) → fsiblings x ≤ fuel →
  ∃ s', link_rest (recursive_link compare fuel) n s = Ret (tree_root (fpairs n v c x), s') ∧
    tree_in s' (fpairs n v c x) ∧ moved l None (fnodes (FNode n v c x)) s s'.

(** The first two siblings. *)
Lemma link_two l s n1 v1 c1 n2 v2 c2 x :
  let f := FNode n1 v1 c1 (FNode n2 v2 c2 x) in
  let t := flink (n1, v1, c1) (n2, v2, c2) in
  forest_at s l f → NoDup (fnodes f) → cell_read l s = Some (Some n1) →
  (∀ o, cell_owner l = Some o → o ∉ fnodes f) →
  ∃ sa sb s', node_remove n1 s = Some sa ∧ node_remove n2 sa = Some sb ∧
    ph_link compare n1 n2 sb = Some (tree_root t, s') ∧
    tree_in s' t ∧ forest_at s' l x ∧ cell_read l s' = Some (froot x) ∧ moved l (froot x) (fnodes f) s s'.
Proof.
  intros f t Hf Hnd Hr Ho. subst f t. set (g := FNode n2 v2 c2 x) in *.
  pose proof (nodup_node _ _ _ _ Hnd) as (Hn1c & Hn1g & Hndc1 & Hndg & Hdis1).
  pose proof (nodup_node _ _ _ _ Hndg) as (Hn2c & Hn2x & Hndc2 & Hndx & Hdis2).
  assert (Hin : ∀ y, y ∈ fnodes (FNode n1 v1 c1 g) ↔ y = n1 ∨ y ∈ fnodes c1 ∨ y = n2 ∨ y ∈ fnodes c2 ∨ y ∈ fnodes x).
  { intros y. rewrite elem_of_node. subst g. rewrite elem_of_node. tauto. }
  assert (Hol : ∀ y, y ∈ fnodes (FNode n1 v1 c1 g) → cell_owner l ≠ Some y) by (intros y Hy E; by apply (Ho y)).
  destruct (node_remove_first l s n1 v1 c1 g Hf Hnd Hr Ho) as (sa & Ha & Hma & Hga & Hta).
  assert (Hra : cell_read l sa = Some (Some n2)).
  { eapply moved_read; [exact Hma|by eexists|]. intros o Hlo Hing. apply (Hol o); [|done].
    apply elem_of_cons in Hing. rewrite elem_of_node. tauto. }
  destruct (node_remove_first l sa n2 v2 c2 x Hga Hndg Hra) as (sb & Hb & Hmb & Hxb & Htb).
  { intros o Hlo Hing. apply (Hol o); [|done]. rewrite elem_of_node. tauto. }
  assert (Hta' : tree_at sb n1 v1 c1).
  { eapply moved_tree; [exact Hmb|exact Hta|]. intros y Hy. split; [|apply Hol, Hin; apply elem_of_cons in Hy; tauto].
    intros Hyx. assert (y ∈ fnodes g) as Hyg by (apply elem_of_node; apply elem_of_cons in Hyx; tauto).
    apply elem_of_cons in Hy as [->|Hy]; [done|by apply (Hdis1 y)]. }
  destruct (link_spec (n1, v1, c1) (n2, v2, c2) sb Hta' Htb) as (s' & Hl & Ht & Hk).
  { apply (NoDup_app (n1 :: fnodes c1 ++ n2 :: fnodes c2) (fnodes x)). simpl.
    rewrite <-(assoc_L (++)). exact Hnd. }
  assert (Hm : moved l (froot x) (fnodes (FNode n1 v1 c1 g)) s s').
  { eapply moved_kept; [eapply moved_trans; eapply moved_weaken; [exact Hma| |exact Hmb|]|
      eapply kept_weaken; [exact Hk|]]; intros y; rewrite Hin.
    - rewrite elem_of_cons. subst g. rewrite elem_of_node. tauto.
    - rewrite elem_of_cons. tauto.
    - unfold tree_nodes. simpl. rewrite elem_of_cons, elem_of_app, elem_of_cons. tauto. }
  exists sa, sb, s'. split_and!; try done.
  - eapply kept_forest; [exact Hk|exact Hxb|]. intros y Hy. unfold tree_nodes. simpl.
    rewrite elem_of_cons, elem_of_app, elem_of_cons. intros [->|[Hy1|[->|Hy2]]]; [..|by apply (Hdis2 y)]; try done.
    + apply Hn1g. subst g. apply elem_of_node. tauto.
    + apply (Hdis1 y Hy1). subst g. apply elem_of_node. tauto.
  - eapply moved_read; [exact Hm|by eexists|]. done.
Qed.

(** A single one. *)
Lemma remove_single l s n v c :
  forest_at s l (FNode n v c FNil) → NoDup (fnodes (FNode n v c FNil)) → cell_read l s = Some (Some n) →
  (∀ o, cell_owner l = Some o → o ∉ fnodes (FNode n v c FNil)) →
  ∃ s', node_remove n s = Some s' ∧ tree_in s' (n, v, c) ∧ moved l None (fnodes (FNode n v c FNil)) s s'.
Proof.
  intros Hf Hnd Hr Ho. destruct (node_remove_first l s n v c FNil Hf Hnd Hr Ho) as (s' & -> & Hm & _ & Ht).
  exists s'. split_and!; [done..|]. eapply moved_weaken; [exact Hm|]. intros y. simpl.
  rewrite !elem_of_cons, elem_of_nil. tauto.
Qed.

Lemma rest_linked_all fuel : rest_linked fuel.
Proof.
  induction fuel as [|fuel IH]; intros l s n v c x Hf Hnd Hr Ho Hx; pose proof Hf as (Hn & _ & Hfx);
    unfold link_rest, ph_next; rewrite Hn; simpl.
  - destruct x as [|n2 v2 c2 x]; [|simpl in Hx; lia]. simpl.
    destruct (remove_single l s n v c Hf Hnd Hr Ho) as (s' & -> & ? & ?). by exists s'.
  - destruct x as [|n2 v2 c2 x]; simpl.
    { destruct (remove_single l s n v c Hf Hnd Hr Ho) as (s' & -> & ? & ?). by exists s'. }
    destruct Hfx as (Hn2 & _ & _). rewrite Hn2. simpl.
    destruct (link_two l s n v c n2 v2 c2 x Hf Hnd Hr Ho)
      as (sa & sb & s1 & -> & Hb & Hl & Ht & Hx1 & Hr1 & Hm). simpl. rewrite Hb. simpl. rewrite Hl. simpl.
    destruct x as [|n3 v3 c3 x]; simpl; [by exists s1|].
    set (t := flink (n, v, c) (n2, v2, c2)) in *.
    assert (Hnodes : fnodes (FNode n v c (FNode n2 v2 c2 (FNode n3 v3 c3 x))) ≡ₚ
      tree_nodes t ++ fnodes (FNode n3 v3 c3 x)).
    { unfold t. rewrite flink_nodes. unfold tree_nodes. simpl. by rewrite <-!(assoc_L (++)). }
    assert (Hnd' := Hnd). rewrite Hnodes in Hnd'. apply NoDup_app in Hnd' as (Hndt & Hdis & Hndx).
    assert (Hsub : fnodes (FNode n3 v3 c3 x) ⊆ fnodes (FNode n v c (FNode n2 v2 c2 (FNode n3 v3 c3 x)))).
    { intros y Hy. rewrite Hnodes. apply elem_of_app. by right. }
    assert (Ho3 : ∀ o, cell_owner l = Some o → o ∉ fnodes (FNode n3 v3 c3 x)).
    { intros o Hlo Hin. apply (Ho o Hlo). by apply Hsub. }
    destruct (IH l s1 n3 v3 c3 x Hx1 Hndx Hr1 Ho3) as (s2 & -> & Ht2 & Hm2); [simpl in Hx; lia|]. simpl.
    assert (Ht1 : tree_in s2 t).
    { eapply moved_tree; [exact Hm2|exact Ht|]. intros y Hy. split; [by apply Hdis|].
      intros Hlo. apply (Ho y Hlo). rewrite Hnodes. apply elem_of_app. by left. }
    destruct (link_spec t (fpairs n3 v3 c3 x) s2 Ht1 Ht2) as (s3 & -> & Ht3 & Hk3).
    { by rewrite fpairs_nodes, <-Hnodes. }
    simpl. exists s3. split_and!; [done..|]. eapply moved_kept; [eapply moved_trans; [exact Hm|]|].
    + by eapply moved_weaken.
    + eapply kept_weaken; [exact Hk3|]. intros y Hy. rewrite Hnodes. by rewrite fpairs_nodes in Hy.
Qed.
End linking.

(** ** The heap order *)
Section order.
Context {T : Type} (compare : T → T → bool).
Implicit Types (f c x : forest T).

(** No priority is above that of the parent. *)
Fixpoint ford (above : option T) f : Prop :=
  match f with
  | FNil => True
  | FNode n v c x => (∀ u, above = Some u → compare u v = false) ∧ ford (Some v) c ∧ ford above x
  end.
Definition tord (t : heap_tree (T := T)) : Prop := ford (Some t.1.2) t.2.

Lemma fcut_ord n f above f' v c :
  ford above f → fcut n f = Some (f', v, c) → ford above f' ∧ tord (n, v, c).
Proof.
  revert above f' v c. induction f as [|m w k IHk x IHx]; intros above f' v c; simpl; [done|].
  intros (Hu & Hk & Hx). case_decide; [intros; simplify_eq; done|].
  destruct (fcut n k) as [[[k' w'] c']|] eqn:Ek.
  - intros [= <- <- <-]. destruct (IHk (Some w) k' w' c' Hk) as [? ?]; [done|]. by split.
  - destruct (fcut n x) as [[[x' w'] c']|] eqn:Ex; [|done]. intros [= <- <- <-].
    destruct (IHx above x' w' c' Hx) as [? ?]; [done|]. by split.
Qed.

Lemma fcut_elems n f f' v c : fcut n f = Some (f', v, c) → felems f ≡ₚ (n, v) :: felems c ++ felems f'.
Proof.
  revert f' v c. induction f as [|m w k IHk x IHx]; intros f' v c; simpl; [done|].
  case_decide as Hm; [intros; simplify_eq; done|].
  destruct (fcut n k) as [[[k' w'] c']|] eqn:Ek.
  - intros [= <- <- <-]. rewrite (IHk k' w' c') by done. simpl. solve_Permutation.
  - destruct (fcut n x) as [[[x' w'] c']|] eqn:Ex; [|done]. intros [= <- <- <-].
    rewrite (IHx x' w' c') by done. simpl. solve_Permutation.
Qed.

(** At most one tree. *)
Definition fsingle f : Prop := match f with FNil => True | FNode _ _ _ x => x = FNil end.

Lemma fcut_single n f f' v c : fsingle f → fcut n f = Some (f', v, c) → fsingle f'.
Proof.
  destruct f as [|m w k x]; simpl; [done|]. intros ->. case_decide; [intros; by simplify_eq|].
  destruct (fcut n k) as [[[??]?]|]; simpl; intros; by simplify_eq.
Qed.

Lemma flink_ord `{!StrictWeakOrder compare} t1 t2 : tord t1 → tord t2 → tord (flink compare t1 t2).
Proof.
  destruct t1 as [[n1 v1] c1], t2 as [[n2 v2] c2]. unfold tord, flink. simpl. intros H1 H2.
  destruct (compare v2 v1) eqn:E; simpl; split_and!; try done; intros u [= <-]; [by apply swo_asym|done].
Qed.

Lemma fpairs_ord `{!StrictWeakOrder compare} above n v c f :
  tord (n, v, c) → ford above f → tord (fpairs compare n v c f).
Proof.
  revert n v c. induction f as [f IH] using (induction_ltof1 _ fsiblings). intros n v c Ht.
  destruct f as [|n2 v2 c2 [|n3 v3 c3 x]].
  - done.
  - intros (_ & H2 & _). by apply flink_ord.
  - intros (_ & H2 & _ & H3 & Hx). cbn [fpairs].
    apply flink_ord; [by apply flink_ord|]. apply IH; [unfold ltof; simpl; lia|done|done].
Qed.

(** The root of a tree has a largest priority. *)
Lemma ford_largest `{!StrictWeakOrder compare} u f q w :
  ford (Some u) f → (q, w) ∈ felems f → compare u w = false.
Proof.
  revert u. induction f as [|m v c IHc x IHx]; intros u; simpl; [by intros _ ?%elem_of_nil|].
  intros (Hu & Hc & Hx) [[= -> ->]|[Hin|Hin]%elem_of_app]%elem_of_cons; [by apply Hu| |by apply IHx].
  apply (swo_negtrans u v w); [by apply Hu|by apply IHc].
Qed.
End order.

(** ** Operations on the heap *)
Section operations.
Context {T : Type} (compare : T → T → bool).
Implicit Types (s : pairing_heap T) (f c x : forest T) (t : heap_tree (T := T)).

(** Hanging a tree below the root, or above it; it becomes the root of an empty
    heap. [first] is the order of the arguments of [link]. *)
Definition ph_attach (first : bool) (n : nat) s : outcome (pairing_heap T) :=
  '(r, s) ← match ph_root s with
            | None => Ret (n, s)
            | Some root => or_ub (if first then ph_link compare n root s else ph_link compare root n s)
            end;
  or_ub (node_set_root RootCell r s).

(** The heap is the forest [f]; other nodes may be around. *)
Record heap_at s f : Prop := HeapAt {
  ha_root : ph_root s = froot f;
  ha_forest : forest_at s RootCell f;
  ha_nodup : NoDup (fnodes f);
  ha_single : fsingle f;
}.

Definition tree_forest t : forest T := FNode t.1.1 t.1.2 t.2 FNil.

Lemma tree_forest_elems t : felems (tree_forest t) = telems t.
Proof. unfold telems. simpl. by rewrite app_nil_r. Qed.

Lemma ford_tree_forest t : tord compare t → ford compare None (tree_forest t).
Proof. intros Ht. by split_and!. Qed.

Lemma attach_root t s :
  tree_in s t → NoDup (tree_nodes t) →
  ∃ s', node_set_root RootCell (tree_root t) s = Some s' ∧ heap_at s' (tree_forest t) ∧
    ph_size s' = ph_size s ∧ ∀ y, y ∉ tree_nodes t → ph_nodes s' !! y = ph_nodes s !! y.
Proof.
  intros Ht Hnd. pose proof Hnd as [Hn Hc]%NoDup_cons.
  destruct (set_root_spec t s Ht Hn) as (s' & Hs' & Hr & Hf & Hsz & Hy).
  exists s'. split_and!; [done| |done|].
  - split; [done|done| |done]. simpl. by rewrite app_nil_r.
  - intros y Hyn. apply Hy. intros ->. apply Hyn. by apply elem_of_cons; left.
Qed.

Lemma attach_spec first t s f :
  heap_at s f → tree_in s t → NoDup (fnodes f ++ tree_nodes t) →
  ∃ s' f', ph_attach first (tree_root t) s = Ret s' ∧ heap_at s' f' ∧ felems f' ≡ₚ felems f ++ telems t ∧
    (StrictWeakOrder compare → tord compare t → ford compare None f → ford compare None f') ∧
    ph_size s' = ph_size s ∧ (∀ y, y ∉ fnodes f ++ tree_nodes t → ph_nodes s' !! y = ph_nodes s !! y).
Proof.
  intros [Hr Hf Hnd Hs] Ht Hnda. unfold ph_attach. rewrite Hr.
  destruct f as [|r v c x]; simpl in Hs; [|subst x].
  { simpl. destruct (attach_root t s Ht) as (s' & Hs' & Hh & Hsz & Hy); [exact Hnda|].
    rewrite Hs'. exists s', (tree_forest t).
    split_and!; [done|done|by rewrite tree_forest_elems|intros; by apply ford_tree_forest|done|done]. }
  set (u := (r, v, c) : heap_tree (T := T)). destruct Hf as (Hrn & Hc & _).
  assert (Hu : tree_in s u) by (split; [by eexists _, _|done]).
  assert (Hun : fnodes (FNode r v c FNil) = tree_nodes u) by (unfold tree_nodes; simpl; by rewrite app_nil_r).
  rewrite Hun in Hnda |- *. cbn [froot]. set (t' := if first then flink compare t u else flink compare u t).
  assert (∃ s1, (if first then ph_link compare (tree_root t) r s else ph_link compare r (tree_root t) s) =
    Some (tree_root t', s1) ∧ tree_in s1 t' ∧ kept (tree_nodes u ++ tree_nodes t) s s1) as (s1 & -> & Ht1 & Hk).
  { unfold t'. destruct first.
    - destruct (link_spec compare t u s) as (s1 & Hl & Ht1 & Hk); [done|done|by rewrite (comm (++))|].
      exists s1. split_and!; [done..|]. eapply kept_weaken; [done|]. intros y. rewrite !elem_of_app. tauto.
    - by apply (link_spec compare u t s). }
  assert (Hnt : tree_nodes t' ≡ₚ tree_nodes u ++ tree_nodes t).
  { unfold t'. destruct first; rewrite flink_nodes; [apply (comm (++))|done]. }
  destruct (attach_root t' s1 Ht1) as (s' & Hs' & Hh & Hsz & Hy); [by rewrite Hnt|].
  simpl. rewrite Hs'. exists s', (tree_forest t'). split_and!; [done|done| | | |].
  - trans (telems u ++ telems t); [|by rewrite <-(tree_forest_elems u)]. rewrite tree_forest_elems.
    unfold t'. destruct first; rewrite flink_elems; [apply (comm (++))|done].
  - intros Hswo Hot (_ & Hou & _). apply ford_tree_forest. unfold t'. destruct first; by apply flink_ord.
  - rewrite Hsz. by destruct Hk.
  - intros y Hyn. rewrite Hy by (by rewrite Hnt). by apply Hk.
Qed.

Lemma fsiblings_length f : fsiblings f ≤ length (fnodes f).
Proof. induction f as [|n v c IHc x IHx]; simpl; [done|]. rewrite length_app. lia. Qed.

Lemma elems_nodup_nodes (es : list (nat * T)) f : felems f ≡ₚ es → NoDup (fnodes f) → NoDup es.*1.
Proof. intros He. by rewrite <-He, felems_nodes. Qed.

(** A node taken out, and its children linked to one tree. *)
Lemma unlink_children fuel s n v c :
  tree_at s n v c → NoDup (n :: fnodes c) → length (fnodes c) ≤ fuel →
  match c with
  | FNil => True
  | FNode m w k x =>
      let t := fpairs compare m w k x in
      ∃ s', link_rest (recursive_link compare fuel) m s = Ret (tree_root t, s') ∧ tree_in s' t ∧
        tree_at s' n v FNil ∧ kept (n :: fnodes c) s s'
  end.
Proof.
  intros [(l & p & Hn) Hc] [Hnc Hnd]%NoDup_cons Hfuel. destruct c as [|m w k x]; [done|].
  destruct (rest_linked_all compare fuel (ChildrenCell n) s m w k x) as (s' & Hs' & Ht & Hm); try done.
  { simpl. by rewrite Hn. } { by intros o [= <-]. }
  { pose proof (fsiblings_length x). simpl in Hfuel. rewrite length_app in Hfuel. lia. }
  exists s'. split_and!; [done|done| |].
  - split; [|done]. exists l, p. rewrite (mv_nodes _ _ _ _ _ Hm n Hnc), Hn. simpl. by rewrite decide_True.
  - apply (moved_inside (ChildrenCell n) None _ _ _ n); [done|by apply elem_of_cons; left|].
    eapply moved_weaken; [exact Hm|]. intros y ?. by apply elem_of_cons; right.
Qed.

Lemma unlink_spec fuel n s f :
  heap_at s f → n ∈ fnodes f → length (fnodes f) ≤ fuel →
  ∃ s' f' v, ph_unlink compare fuel n s = Ret s' ∧ heap_at s' f' ∧ tree_at s' n v FNil ∧
    felems f ≡ₚ (n, v) :: felems f' ∧
    (StrictWeakOrder compare → ford compare None f → ford compare None f') ∧
    ph_size s' = ph_size s ∧ (∀ y, y ∉ fnodes f → ph_nodes s' !! y = ph_nodes s !! y).
Proof.
  intros [Hr Hf Hnd Hsg] Hin Hfuel.
  destruct (node_remove_spec n RootCell s f) as (f1 & v & c & s1 & Hcut & Hrm & Hm & Hf1 & Ht); try done.
  { simpl. by rewrite Hr. }
  pose proof (fcut_elems n f f1 v c Hcut) as He. pose proof (fcut_single n f f1 v c Hsg Hcut) as Hsg1.
  assert (Hn : fnodes f ≡ₚ (n :: fnodes c) ++ fnodes f1).
  { rewrite <-!felems_nodes, He. simpl. by rewrite fmap_app. }
  assert (Hnd' := Hnd). rewrite Hn in Hnd'. apply NoDup_app in Hnd' as (Hndc & Hdis & Hnd1).
  assert (Hh1 : heap_at s1 f1) by (split; [by destruct Hm|done..]).
  assert (Hlc : length (fnodes c) ≤ fuel).
  { rewrite Hn, length_app in Hfuel. simpl in Hfuel. lia. }
  assert (Hout : ∀ y, y ∉ fnodes f → ph_nodes s1 !! y = ph_nodes s !! y).
  { intros y Hy. rewrite (mv_nodes _ _ _ _ _ Hm y Hy). by apply cell_upd_other. }
  unfold ph_unlink, ph_begin. rewrite Hrm. simpl. destruct Ht as [(l & p & Hnn) Hc]. rewrite Hnn. simpl.
  pose proof (unlink_children fuel s1 n v c ltac:(by split; [by eexists _, _|]) Hndc Hlc) as Hch.
  destruct c as [|m w k x]; simpl.
  { exists s1, f1, v. split_and!; try done; [by split; [by eexists _, _|]| |by destruct Hm].
    intros _ Ho. by apply (fcut_ord compare n f None f1 v FNil Ho Hcut). }
  set (t := fpairs compare m w k x) in *. destruct Hch as (s2 & -> & Ht2 & Hn2 & Hk2). simpl.
  assert (Htn : tree_nodes t ≡ₚ fnodes (FNode m w k x)) by apply fpairs_nodes.
  assert (Hh2 : heap_at s2 f1).
  { destruct Hh1 as [? Hff ??]. split; [by rewrite (kp_root _ _ _ Hk2)| |done|done].
    eapply kept_forest; [exact Hk2|done|]. intros y Hy Hyc. by apply (Hdis y). }
  destruct (attach_spec false t s2 f1 Hh2 Ht2) as (s3 & f3 & Ha & Hh3 & He3 & Ho3 & Hsz3 & Hout3).
  { rewrite Htn. apply NoDup_app. split_and!; [done| |by apply NoDup_cons in Hndc as [??]].
    intros y Hy Hyc. apply (Hdis y); [by apply elem_of_cons; right|done]. }
  assert (Hnout : n ∉ fnodes f1 ++ tree_nodes t).
  { rewrite Htn, not_elem_of_app. split; [|by apply NoDup_cons in Hndc as [??]].
    apply Hdis. by apply elem_of_cons; left. }
  exists s3, f3, v. split_and!; [exact Ha|done| | | | |].
  - destruct Hn2 as [(l' & p' & Hn2) _]. split; [|done]. exists l', p'. by rewrite Hout3.
  - rewrite He3, He. f_equiv. unfold t. rewrite fpairs_elems. by rewrite (comm (++)).
  - intros Hswo Ho. destruct (fcut_ord compare n f None f1 v _ Ho Hcut) as [Ho1 (_ & Hk & Hx)].
    apply Ho3; [done| |done]. by apply (fpairs_ord compare (Some v)).
  - rewrite Hsz3, (kp_size _ _ _ Hk2). by destruct Hm.
  - intros y Hy. assert (Hy' := Hy). rewrite Hn, elem_of_app in Hy'. rewrite Hout3, (kp_nodes _ _ _ Hk2), Hout; [done..| |].
    + tauto.
    + rewrite Htn, elem_of_app. intros [?|?]; apply Hy'; [by right|left; by apply elem_of_cons; right].
Qed.
End operations.
