(* ===== verification/PairingQueue.v ===== *)
(** * The pairing heap is a priority queue

    Every operation of the pairing heap (PairingHeap), [remove] included, on a
    heap whose store is one forest of all nodes: it keeps the forest and the heap
    order, and does to the priorities what [pq_step] says. With the d-heap
    (DHeapQueue) it is an instance of the priority queues of PriorityQueue. *)
From stdpp Require Import sorting.
From S2P Require Import Prelude PriorityQueue DHeap DHeapQueue PairingHeap.

Section queue.
Context {T : Type} (compare : T → T → bool).
Implicit Types (s : pairing_heap T) (f : forest T) (m : gmap nat T) (op : pq_op T).

(** The operations of the interface; the recursion is bounded by the size. *)
Definition ph_run op s : outcome (pairing_heap T) :=
  let fuel := Z.to_nat (ph_size s) in
  match op with
  | PqPush v => snd <$> ph_push compare v s
  | PqPop => ph_pop compare fuel s
  | PqIncrease p v => ph_increase compare fuel p v s
  | PqDecrease p v => ph_decrease compare fuel p v s
  | PqChange p v => ph_change compare fuel p v s
  | PqRemove p => ph_remove compare fuel p s
  end.

Definition ph_contents s : gmap nat T := pn_data <$> ph_nodes s.

(** ** The invariant *)

(** The store holds the nodes of the forest [f] and no others. *)
Record ph_rep s f : Prop := PhRep {
  rep_heap : heap_at s f;
  rep_dom y : y ∉ fnodes f → ph_nodes s !! y = None;
  rep_size : ph_size s = Z.of_nat (length (fnodes f));
}.

Definition ph_ok s : Prop := ∃ f, ph_rep s f ∧ ford compare None f.

Lemma forest_at_data s l f p v : forest_at s l f → (p, v) ∈ felems f → ph_contents s !! p = Some v.
Proof.
  revert l. induction f as [|n w c IHc x IHx]; intros l; simpl; [by intros _ ?%elem_of_nil|].
  intros (Hn & Hc & Hx) [[= -> ->]|[Hin|Hin]%elem_of_app]%elem_of_cons; [|by eapply IHc|by eapply IHx].
  unfold ph_contents. by rewrite lookup_fmap, Hn.
Qed.

Lemma rep_contents s f : ph_rep s f → ph_contents s = list_to_map (felems f).
Proof.
  intros [[_ Hf Hnd _] Hdom _]. rewrite <-felems_nodes in Hnd. apply map_eq. intros p.
  destruct (list_to_map (M := gmap nat T) (felems f) !! p) as [v|] eqn:E.
  - apply elem_of_list_to_map_2 in E. by eapply forest_at_data.
  - apply not_elem_of_list_to_map_2 in E. rewrite felems_nodes in E.
    unfold ph_contents. by rewrite lookup_fmap, Hdom.
Qed.

Lemma rep_elems s f es : ph_rep s f → felems f ≡ₚ es → ph_contents s = list_to_map es.
Proof.
  intros Hr He. rewrite (rep_contents s f Hr). apply list_to_map_proper; [|done].
  rewrite felems_nodes. by destruct Hr as [[]].
Qed.

Lemma rep_elem s f p : ph_rep s f → is_Some (ph_contents s !! p) ↔ p ∈ fnodes f.
Proof.
  intros Hr. rewrite (rep_contents s f Hr), <-felems_nodes. destruct Hr as [[_ _ Hnd _] _ _].
  rewrite <-felems_nodes in Hnd. split.
  - intros [v Hv]. destruct (decide (p ∈ (felems f).*1)) as [|Hn]; [done|].
    by rewrite not_elem_of_list_to_map_1 in Hv.
  - intros ([q v] & -> & Hin)%list_elem_of_fmap. exists v. by apply elem_of_list_to_map_1.
Qed.

Lemma rep_card s f : ph_rep s f → ph_size s = Z.of_nat (size (ph_contents s)).
Proof.
  intros Hr. rewrite (rep_contents s f Hr). destruct Hr as [[_ _ Hnd _] _ ->]. rewrite <-felems_nodes in Hnd.
  rewrite <-length_map_to_list, map_to_list_to_map, <-felems_nodes by done. by rewrite length_fmap.
Qed.

Lemma rep_new : ph_rep pairing_heap_ctor FNil.
Proof. split; [by split; try constructor|done|done]. Qed.
Lemma ok_new : ph_ok pairing_heap_ctor.
Proof. exists FNil. split; [apply rep_new|done]. Qed.

(** ** The operations *)
Lemma fnodes_perm f es : felems f ≡ₚ es → fnodes f ≡ₚ es.*1.
Proof. intros He. by rewrite <-felems_nodes, He. Qed.

Definition ph_new_node (rc : nat) (d : T) s : pairing_heap T :=
  PairingHeap (<[rc := node_ctor d]> (ph_nodes s)) (ph_root s) (ph_size s + 1)%Z.

Lemma push_attach d s f :
  ph_rep s f → let rc := fresh (dom (ph_nodes s)) in
  ph_push compare d s = (s' ← ph_attach compare true rc (ph_new_node rc d s); Ret (rc, s')).
Proof.
  intros [[Hroot _ _ _] _ Hsz]. unfold ph_push, ph_attach, ph_new_node. simpl. rewrite Hroot.
  destruct f as [|n v c x].
  - by rewrite decide_True.
  - rewrite decide_False by (rewrite Hsz; simpl; lia). simpl. by destruct (ph_link compare _ n _) as [[r s2]|].
Qed.

Lemma push_rep d s f :
  ph_rep s f →
  ∃ rc s' f', ph_push compare d s = Ret (rc, s') ∧ ph_rep s' f' ∧ ph_contents s !! rc = None ∧
    ph_contents s' = <[rc := d]> (ph_contents s) ∧
    (StrictWeakOrder compare → ford compare None f → ford compare None f').
Proof.
  intros Hr. pose proof Hr as [Hh Hdom Hsz]. rewrite (push_attach d s f Hr). set (rc := fresh (dom (ph_nodes s))).
  assert (Hfr : ph_nodes s !! rc = None) by (apply not_elem_of_dom, is_fresh).
  assert (Hrc : rc ∉ fnodes f).
  { intros Hin. apply (rep_elem s f rc Hr) in Hin as [v Hv]. unfold ph_contents in Hv.
    by rewrite lookup_fmap, Hfr in Hv. }
  destruct (attach_spec compare true (rc, d, FNil) (ph_new_node rc d s) f) as (s' & f' & Ha & Hh' & He & Ho & Hsz' & Hout).
  { destruct Hh as [? Hf ??]. split; [done| |done|done]. eapply forest_at_frame; [done|].
    intros y Hy. apply lookup_insert_ne. by intros ->. }
  { split; [|done]. exists None, None. apply lookup_insert_eq. }
  { apply NoDup_app. split_and!; [by destruct Hh| |apply NoDup_singleton].
    by intros y Hy ->%list_elem_of_singleton. }
  assert (Hn : fnodes f' ≡ₚ rc :: fnodes f).
  { rewrite (fnodes_perm f' _ He), fmap_app, felems_nodes. symmetry. apply Permutation_cons_append. }
  assert (Hr' : ph_rep s' f').
  { split; [done| |].
    - intros y Hy. rewrite Hn, not_elem_of_cons in Hy. destruct Hy as [Hyr Hyf]. rewrite Hout.
      + simpl. rewrite lookup_insert_ne by done. by apply Hdom.
      + rewrite not_elem_of_app. split; [done|]. by intros ->%list_elem_of_singleton.
    - rewrite Hsz', Hn. simpl. rewrite Hsz. lia. }
  exists rc, s', f'. split_and!; [|done|unfold ph_contents; by rewrite lookup_fmap, Hfr| |].
  - change (tree_root (rc, d, FNil)) with rc in Ha. simpl. by rewrite Ha.
  - rewrite (rep_elems s' f' ((rc, d) :: felems f) Hr'); [|rewrite He; symmetry; apply Permutation_cons_append].
    by rewrite (rep_contents s f Hr).
  - intros Hs. apply Ho; [done|]. done.
Qed.

(** A node taken out is left in the store, without children. *)
Lemma unlink_rep fuel n s f :
  ph_rep s f → n ∈ fnodes f → length (fnodes f) ≤ fuel →
  ∃ s' f' v, ph_unlink compare fuel n s = Ret s' ∧ heap_at s' f' ∧ tree_at s' n v FNil ∧
    felems f ≡ₚ (n, v) :: felems f' ∧ n ∉ fnodes f' ∧
    (∀ y, y ≠ n → y ∉ fnodes f' → ph_nodes s' !! y = None) ∧ ph_size s' = ph_size s ∧
    (StrictWeakOrder compare → ford compare None f → ford compare None f').
Proof.
  intros [Hh Hdom Hsz] Hin Hfuel.
  destruct (unlink_spec compare fuel n s f Hh Hin Hfuel) as (s' & f' & v & Hu & Hh' & Ht & He & Ho & Hsz' & Hout).
  pose proof (fnodes_perm _ _ He) as Hn. simpl in Hn. rewrite felems_nodes in Hn.
  exists s', f', v. split_and!; try done.
  - destruct Hh as [_ _ Hnd _]. rewrite Hn in Hnd. by apply NoDup_cons in Hnd as [??].
  - intros y Hy Hyf. assert (y ∉ fnodes f) by (rewrite Hn; by apply not_elem_of_cons).
    rewrite Hout by done. by apply Hdom.
Qed.

Lemma remove_rep fuel n s f :
  ph_rep s f → n ∈ fnodes f → length (fnodes f) ≤ fuel →
  ∃ s' f', ph_remove compare fuel n s = Ret s' ∧ ph_rep s' f' ∧
    ph_contents s' = delete n (ph_contents s) ∧
    (StrictWeakOrder compare → ford compare None f → ford compare None f').
Proof.
  intros Hr Hin Hfuel.
  destruct (unlink_rep fuel n s f Hr Hin Hfuel) as (s1 & f' & v & Hu & Hh & [(l & m & Hn) _] & He & Hnf & Hout & Hsz & Ho).
  unfold ph_remove. rewrite Hu. simpl. unfold ph_delete. simpl. rewrite Hn. simpl.
  set (s' := PairingHeap (delete n (ph_nodes s1)) (ph_root s1) (ph_size s1 - 1)%Z).
  assert (Hr' : ph_rep s' f').
  { destruct Hh as [? Hf ??]. split; [split; [done| |done|done]| |].
    - eapply forest_at_frame; [done|]. intros y Hy. apply lookup_delete_ne. by intros ->.
    - intros y Hy. simpl. destruct (decide (y = n)) as [->|]; [apply lookup_delete_eq|].
      rewrite lookup_delete_ne by done. by apply Hout.
    - simpl. rewrite Hsz. destruct Hr as [_ _ ->]. pose proof (fnodes_perm _ _ He) as ->. simpl.
      rewrite felems_nodes. lia. }
  exists s', f'. split_and!; [done|done| |done].
  rewrite (rep_elems s f _ Hr He), (rep_contents s' f' Hr'). simpl. rewrite delete_insert_eq, delete_id; [done|].
  apply not_elem_of_list_to_map_1. by rewrite felems_nodes.
Qed.

Lemma change_rep fuel n d s f :
  ph_rep s f → n ∈ fnodes f → length (fnodes f) ≤ fuel →
  ∃ s' f', ph_change compare fuel n d s = Ret s' ∧ ph_rep s' f' ∧
    ph_contents s' = <[n := d]> (ph_contents s) ∧
    (StrictWeakOrder compare → ford compare None f → ford compare None f').
Proof.
  intros Hr Hin Hfuel.
  destruct (unlink_rep fuel n s f Hr Hin Hfuel) as (s1 & f1 & v & Hu & Hh & [(l & m & Hn) _] & He & Hnf & Hout & Hsz & Ho).
  destruct (ph_alter_spec (λ x, PhNode (pn_prev x) (pn_next x) (pn_children x) d) n s1 _ Hn)
    as (s2 & Hset & Hk & Hn2). simpl in Hn2.
  assert (Hh2 : heap_at s2 f1).
  { destruct Hh as [? Hf ??]. split; [by rewrite (kp_root _ _ _ Hk)| |done|done].
    eapply kept_forest; [done..|]. by intros y Hy ->%list_elem_of_singleton. }
  destruct (attach_spec compare true (n, d, FNil) s2 f1 Hh2) as (s' & f' & Ha & Hh' & He' & Ho' & Hsz' & Hout').
  { split; [by eexists _, _|done]. }
  { apply NoDup_app. split_and!; [by destruct Hh| |apply NoDup_singleton].
    by intros y Hy ->%list_elem_of_singleton. }
  assert (Hp : felems f' ≡ₚ (n, d) :: felems f1) by (rewrite He'; symmetry; apply Permutation_cons_append).
  pose proof (fnodes_perm _ _ Hp) as Hnf'. simpl in Hnf'. rewrite felems_nodes in Hnf'.
  assert (Hr' : ph_rep s' f').
  { split; [done| |].
    - intros y Hy. rewrite Hnf', not_elem_of_cons in Hy. destruct Hy as [Hyn Hyf]. rewrite Hout'.
      + rewrite (kp_nodes _ _ _ Hk) by (by intros ->%list_elem_of_singleton). by apply Hout.
      + rewrite not_elem_of_app. split; [done|]. by intros ->%list_elem_of_singleton.
    - rewrite Hsz', (kp_size _ _ _ Hk), Hsz, Hnf'. destruct Hr as [_ _ ->].
      pose proof (fnodes_perm _ _ He) as ->. simpl. by rewrite felems_nodes. }
  exists s', f'. split_and!; [|done| |].
  - unfold ph_change. rewrite Hu. simpl. unfold ph_set_data. rewrite Hset. simpl. exact Ha.
  - rewrite (rep_elems s f _ Hr He), (rep_elems s' f' _ Hr' Hp). simpl. by rewrite insert_insert_eq.
  - intros Hs Hof. apply Ho'; [done|done|by apply Ho].
Qed.
Lemma rep_top `{!StrictWeakOrder compare} s f :
  ph_rep s f → ford compare None f → f ≠ FNil →
  ∃ r v, ph_root s = Some r ∧ r ∈ fnodes f ∧ ph_top s = Some v ∧ ph_contents s !! r = Some v ∧
    pq_largest compare (ph_contents s) v.
Proof.
  intros Hr Ho Hne. pose proof Hr as [[Hroot Hf Hnd Hsg] _ _]. destruct f as [|r v c x]; [done|].
  simpl in Hsg. subst x. destruct Hf as (Hn & _ & _). exists r, v. split_and!; [done|by apply elem_of_cons; left| | |].
  - unfold ph_top, ph_data. rewrite Hroot. simpl. by rewrite Hn.
  - unfold ph_contents. by rewrite lookup_fmap, Hn.
  - intros q w Hq. rewrite (rep_contents s _ Hr) in Hq. apply elem_of_list_to_map_2 in Hq. simpl in Hq.
    destruct Ho as (_ & Hc & _). apply elem_of_cons in Hq as [[= -> ->]|Hq]; [by apply swo_irrefl|].
    rewrite app_nil_r in Hq. by eapply ford_largest.
Qed.

Lemma rep_empty s f : ph_rep s f → ph_contents s = ∅ ↔ f = FNil.
Proof.
  intros Hr. rewrite (rep_contents s f Hr). destruct f as [|n v c x]; simpl; [done|].
  split; [|done]. intros []%insert_non_empty.
Qed.

(** Every operation. *)
Lemma ph_run_rep `{!StrictWeakOrder compare} op s :
  ph_ok s → pq_valid (ph_contents s) op →
  ∃ s', ph_run op s = Ret s' ∧ ph_ok s' ∧ pq_step compare (ph_contents s) op (ph_contents s').
Proof.
  intros (f & Hr & Ho) Hv.
  assert (Hfuel : length (fnodes f) ≤ Z.to_nat (ph_size s)) by (destruct Hr as [_ _ ->]; lia).
  assert (Hok : ∀ s' f', ph_rep s' f' → (StrictWeakOrder compare → ford compare None f → ford compare None f') →
    ph_ok s') by (intros s' f' ? Ho'; exists f'; auto).
  destruct op as [v| |p v|p v|p v|p]; simpl in Hv |- *.
  - destruct (push_rep v s f Hr) as (rc & s' & f' & -> & Hr' & Hn & Hc & Ho').
    exists s'. split_and!; [done|by eapply Hok|]. rewrite Hc. by constructor.
  - destruct (rep_top s f Hr Ho) as (r & w & Hroot & Hin & _ & Hrv & Hl); [by rewrite <-(rep_empty s f Hr)|].
    destruct (remove_rep _ r s f Hr Hin Hfuel) as (s' & f' & Hrun & Hr' & Hc & Ho').
    exists s'. unfold ph_pop. rewrite Hroot. simpl. split_and!; [done|by eapply Hok|]. rewrite Hc. by econstructor.
  - destruct (change_rep _ p v s f Hr (proj1 (rep_elem s f p Hr) Hv) Hfuel) as (s' & f' & Hrun & Hr' & Hc & Ho').
    exists s'. split_and!; [done|by eapply Hok|]. rewrite Hc. constructor.
  - destruct (change_rep _ p v s f Hr (proj1 (rep_elem s f p Hr) Hv) Hfuel) as (s' & f' & Hrun & Hr' & Hc & Ho').
    exists s'. split_and!; [done|by eapply Hok|]. rewrite Hc. constructor.
  - destruct (change_rep _ p v s f Hr (proj1 (rep_elem s f p Hr) Hv) Hfuel) as (s' & f' & Hrun & Hr' & Hc & Ho').
    exists s'. split_and!; [done|by eapply Hok|]. rewrite Hc. constructor.
  - destruct (remove_rep _ p s f Hr (proj1 (rep_elem s f p Hr) Hv) Hfuel) as (s' & f' & Hrun & Hr' & Hc & Ho').
    exists s'. split_and!; [done|by eapply Hok|]. rewrite Hc. constructor.
Qed.

Lemma ph_top_ok `{!StrictWeakOrder compare} s :
  ph_ok s → ph_contents s ≠ ∅ →
  ∃ r v s', ph_top s = Some v ∧ ph_contents s !! r = Some v ∧ pq_largest compare (ph_contents s) v ∧
    ph_run PqPop s = Ret s' ∧ ph_contents s' = delete r (ph_contents s).
Proof.
  intros (f & Hr & Ho) Hne. rewrite (rep_empty s f Hr) in Hne.
  destruct (rep_top s f Hr Ho Hne) as (r & v & Hroot & Hin & Ht & Hv & Hl).
  destruct (remove_rep (Z.to_nat (ph_size s)) r s f Hr Hin) as (s' & f' & Hrun & _ & Hc & _).
  { destruct Hr as [_ _ ->]. lia. }
  exists r, v, s'. split_and!; [done..| |done]. unfold ph_run, ph_pop. rewrite Hroot. exact Hrun.
Qed.

(** ** The interface *)
#[local] Instance pairing_heap_queue : PriorityQueue (pairing_heap T) T := {|
  pq_new := pairing_heap_ctor;
  pq_run := ph_run;
  pq_top := ph_top;
|}.

#[refine] Definition pairing_heap_queue_spec `{!StrictWeakOrder compare} :
    PriorityQueueSpec (pairing_heap T) T compare := {|
  pq_inv := ph_ok;
  pq_contents := ph_contents;
  pq_allowed := pq_valid;
|}.
Proof.
  - done.
  - split; [apply ok_new|apply fmap_empty].
  - intros op s. apply ph_run_rep.
  - intros s. apply ph_top_ok.
Defined.
End queue.

(** ** Properties *)

(** C19: Every operation of the pairing heap - push, pop, increase, decrease,
    change and remove - with handles which exist terminates with the recursion
    bounded by the size, keeps the heap well-formed and ordered, and does to the
    priorities what a priority queue does; afterwards [size] counts the elements,
    [empty] says whether there are none, and otherwise [top] is a largest one. *)
Theorem pairing_heap_refinement {T} (compare : T → T → bool) op s :
  StrictWeakOrder compare → (s = pairing_heap_ctor ∨ ph_ok compare s) → pq_valid (ph_contents s) op →
  ∃ s', ph_run compare op s = Ret s' ∧ ph_ok compare s' ∧
    pq_step compare (ph_contents s) op (ph_contents s') ∧
    ph_size s' = Z.of_nat (size (ph_contents s')) ∧
    if ph_empty s' then ph_contents s' = ∅
    else ∃ v, ph_top s' = Some v ∧ pq_largest compare (ph_contents s') v.
Proof.
  intros Hswo Hs Hv. assert (Hok : ph_ok compare s) by (destruct Hs as [->|]; [apply ok_new|done]).
  destruct (ph_run_rep compare op s Hok Hv) as (s' & Hrun & Hok' & Hstep).
  exists s'. split_and!; [done..| |].
  - destruct Hok' as (f & Hr & _). by eapply rep_card.
  - destruct Hok' as (f & Hr & Ho). pose proof (rep_card s' f Hr) as Hsz. unfold ph_empty. case_bool_decide as He.
    + apply map_size_empty_inv. lia.
    + destruct (ph_top_ok compare s') as (r & v & _ & Ht & _ & Hl & _); [by exists f| |by exists v].
      intros E. rewrite E, map_size_empty in Hsz. done.
Qed.

(** For a linear order it does not matter which heap sorts: filling the
    d-heap and emptying it, and filling the pairing heap and emptying it, both
    terminate and yield the same list, the sorted one. *)
Theorem heap_sorts_agree {T} (compare : T → T → bool) d vs :
  0 < d → StrictWeakOrder compare →
  (∀ v w, compare v w = false → compare w v = false → v = w) →
  ∃ vs', pq_sort (HP := d_heap_queue compare d) vs = Ret vs' ∧
    pq_sort (HP := pairing_heap_queue compare) vs = Ret vs' ∧
    vs' ≡ₚ vs ∧ StronglySorted (λ v w, compare v w = false) vs'.
Proof.
  intros Hd Hswo Hanti.
  destruct (pq_sorts (HS := d_heap_queue_spec compare d Hd) vs) as (vs1 & H1 & Hp1 & Hs1).
  exists vs1. split_and!; [done| |done..]. by apply (pq_sort_eq (HS := pairing_heap_queue_spec compare)).
Qed.

(** ** Witnesses *)
Definition ph_of (vs : list Z) : outcome (pairing_heap Z) :=
  pq_fill (HP := pairing_heap_queue Zlt_b) vs pairing_heap_ctor.
Definition demo_pairing : pairing_heap Z :=
  match ph_of [5; 3; 4; 9; 1]%Z with Ret h => h | _ => pairing_heap_ctor end.

Lemma demo_pairing_ok : ph_ok Zlt_b demo_pairing.
Proof.
  destruct (pq_fill_spec (HS := pairing_heap_queue_spec Zlt_b) [5; 3; 4; 9; 1]%Z pairing_heap_ctor)
    as (h & Hf & Hh & _); [apply ok_new|].
  replace demo_pairing with h; [exact Hh|]. unfold demo_pairing, ph_of. by rewrite Hf.
Qed.

Lemma pairing_heap_refinement_witness :
  ph_top demo_pairing = Some 9%Z ∧
  ∃ s', ph_run Zlt_b (PqRemove 2) demo_pairing = Ret s' ∧ ph_ok Zlt_b s' ∧
    pq_step Zlt_b (ph_contents demo_pairing) (PqRemove 2) (ph_contents s') ∧
    ph_size s' = Z.of_nat (size (ph_contents s')) ∧
    if ph_empty s' then ph_contents s' = ∅
    else ∃ v, ph_top s' = Some v ∧ pq_largest Zlt_b (ph_contents s') v.
Proof.
  split; [vm_compute; reflexivity|].
  apply (pairing_heap_refinement Zlt_b (PqRemove 2) demo_pairing); [apply _|right; apply demo_pairing_ok|].
  exists 4%Z. vm_compute. reflexivity.
Defined.

Lemma heap_sorts_agree_witness :
  pq_sort (HP := pairing_heap_queue Zlt_b) [3; 1; 2]%Z = Ret [3; 2; 1]%Z ∧
  ∃ vs', pq_sort (HP := d_heap_queue Zlt_b 2) [3; 1; 2]%Z = Ret vs' ∧
    pq_sort (HP := pairing_heap_queue Zlt_b) [3; 1; 2]%Z = Ret vs' ∧
    vs' ≡ₚ [3; 1; 2]%Z ∧ StronglySorted (λ v w, Zlt_b v w = false) vs'.
Proof.
  split; [vm_compute; reflexivity|].
  apply (heap_sorts_agree Zlt_b 2 [3; 1; 2]%Z); [lia|apply _|].
  intros v w. unfold Zlt_b. rewrite !bool_decide_eq_false. lia.
Defined.
