(* ===== verification/FibHeap.v ===== *)
(** * boost::fibonacci_heap

    The Fibonacci heap of src/src/old-boost/heaps/f_heap.{hpp,cc}: nodes with
    vectors of children, pointers to their parents and their positions in the
    vectors, and a vector of roots in which the root of rank [k], if there is
    one, is at position [k]. The state is a store of nodes; [fh_at] says how the
    members fit together while some trees are detached. Proved here: how adding
    a root, linking, cutting and cascading cuts change the store. That the heap
    is a priority queue is proved in FibQueue. *)
From S2P Require Import Prelude.

(** ** Data *)

(** [m_index] is not initialised by the constructor: [None]. *)
Record fh_node (T : Type) := FhNode {
  fn_index : option nat;
  fn_parent : option nat;
  fn_children : list nat;
  fn_lost : Z;
  fn_data : T;
}.
Arguments FhNode {T} _ _ _ _ _.
Arguments fn_index {T} _.
Arguments fn_parent {T} _.
Arguments fn_children {T} _.
Arguments fn_lost {T} _.
Arguments fn_data {T} _.

(** [m_min] is not initialised by the constructor either: [None]; [Some None] is
    the null pointer. *)
Record fibonacci_heap (T : Type) := FibonacciHeap {
  fh_nodes : gmap nat (fh_node T);
  fh_roots : list (option nat);
  fh_size : Z;
  fh_min : option (option nat);
}.
Arguments FibonacciHeap {T} _ _ _ _.
Arguments fh_nodes {T} _.
Arguments fh_roots {T} _.
Arguments fh_size {T} _.
Arguments fh_min {T} _.

Definition fibonacci_heap_ctor {T} : fibonacci_heap T := FibonacciHeap ∅ [] 0 None.

Section fibonacci_heap.
Context {T : Type} (compare : T → T → bool).
Implicit Types (s : fibonacci_heap T) (x y : fh_node T) (n p c r : nat).

(** ** Nodes *)
Definition fh_node_ctor (d : T) : fh_node T := FhNode None None [] 0 d.
Definition fn_rank x : nat := length (fn_children x).
Definition fn_is_root x : bool := bool_decide (fn_parent x = None).

Definition fn_clear x : fh_node T := FhNode (fn_index x) None (fn_children x) 0 (fn_data x).
Definition fn_set_data (d : T) x : fh_node T :=
  FhNode (fn_index x) (fn_parent x) (fn_children x) (fn_lost x) d.
Definition fn_remove_all x : fh_node T :=
  FhNode (fn_index x) (fn_parent x) [] (fn_lost x) (fn_data x).
Definition fn_set_index (i : nat) x : fh_node T :=
  FhNode (Some i) (fn_parent x) (fn_children x) (fn_lost x) (fn_data x).
(** What [join] does to the child and to the parent. *)
Definition fn_attach (i p : nat) x : fh_node T :=
  FhNode (Some i) (Some p) (fn_children x) (fn_lost x) (fn_data x).
Definition fn_push_child (c : nat) x : fh_node T :=
  FhNode (fn_index x) (fn_parent x) (fn_children x ++ [c]) 0 (fn_data x).

(** Access to a node which does not exist is undefined. *)
Definition fh_alter (f : fh_node T → fh_node T) n s : option (fibonacci_heap T) :=
  x ← fh_nodes s !! n;
  Some (FibonacciHeap (<[n := f x]> (fh_nodes s)) (fh_roots s) (fh_size s) (fh_min s)).
Definition fh_set_roots (rs : list (option nat)) s : fibonacci_heap T :=
  FibonacciHeap (fh_nodes s) rs (fh_size s) (fh_min s).
Definition fh_set_min (m : option nat) s : fibonacci_heap T :=
  FibonacciHeap (fh_nodes s) (fh_roots s) (fh_size s) (Some m).

(** [m_roots[k] = v]. *)
Definition fh_put_root (k : nat) (v : option nat) s : option (fibonacci_heap T) :=
  if decide (k < length (fh_roots s)) then Some (fh_set_roots (<[k := v]> (fh_roots s)) s) else None.

(** [n->join(tree)]. *)
Definition fh_join n (tree : nat) s : option (fibonacci_heap T) :=
  x ← fh_nodes s !! n;
  s ← fh_alter (fn_attach (fn_rank x) n) tree s;
  fh_alter (fn_push_child tree) n s.

(** The last child takes the place of the child at [index]. *)
Definition swap_drop (index : nat) (cs : list nat) : list nat :=
  let cs := match last cs with
            | Some c => if decide (index + 1 < length cs) then <[index := c]> cs else cs
            | None => cs
            end in
  take (length cs - 1) cs.
Definition fn_drop_child (index : nat) x : fh_node T :=
  FhNode (fn_index x) (fn_parent x) (swap_drop index (fn_children x)) (fn_lost x + 1) (fn_data x).

(** [n->cut(child)]; [pop_back] of an empty vector is undefined. *)
Definition fh_node_cut n (child : nat) s : option (fibonacci_heap T) :=
  y ← fh_nodes s !! child;
  index ← fn_index y;
  x ← fh_nodes s !! n;
  c ← last (fn_children x);
  s ← (if decide (index + 1 < fn_rank x) then fh_alter (fn_set_index index) c s else Some s);
  fh_alter (fn_drop_child index) n s.

(** ** Roots *)
Fixpoint add_root_fuel (fuel n : nat) s : outcome (fibonacci_heap T) :=
  match fuel with
  | 0 => NoFuel
  | S fuel =>
      x ← or_ub (fh_nodes s !! n);
      let rank := fn_rank x in
      match fh_roots s !! rank with
      | None =>
          let rs := fh_roots s ++ replicate (rank - length (fh_roots s)) None ++ [Some n] in
          or_ub (fh_alter fn_clear n (fh_set_roots rs s))
      | Some None => or_ub (fh_alter fn_clear n (fh_set_roots (<[rank := Some n]> (fh_roots s)) s))
      | Some (Some r) =>
          let s := fh_set_roots (<[rank := None]> (fh_roots s)) s in
          y ← or_ub (fh_nodes s !! r);
          if compare (fn_data x) (fn_data y) then
            s ← or_ub (fh_alter fn_clear n s);
            s ← or_ub (fh_join r n s);
            add_root_fuel fuel r s
          else
            s ← or_ub (fh_alter fn_clear r s);
            s ← or_ub (fh_join n r s);
            add_root_fuel fuel n s
      end
  end.
(** The recursion takes a root out each time. *)
Definition fh_add_root n s : outcome (fibonacci_heap T) :=
  add_root_fuel (S (length (fh_roots s))) n s.

(** [while ( *it == 0) ++it;], which must not run off the end. *)
Fixpoint first_root (rs : list (option nat)) : option (nat * list (option nat)) :=
  match rs with
  | [] => None
  | None :: rs => first_root rs
  | Some r :: rs => Some (r, rs)
  end.
Fixpoint better_root (m : nat) (rs : list (option nat)) s : option nat :=
  match rs with
  | [] => Some m
  | None :: rs => better_root m rs s
  | Some r :: rs =>
      x ← fh_nodes s !! m;
      y ← fh_nodes s !! r;
      better_root (if compare (fn_data x) (fn_data y) then r else m) rs s
  end.
Definition fh_find_min s : option (fibonacci_heap T) :=
  if decide (fh_size s = 0%Z) then Some (fh_set_min None s)
  else '(m, rs) ← first_root (fh_roots s); m ← better_root m rs s; Some (fh_set_min (Some m) s).

(** [if (m_min == 0) find_min();], where the member must have been written. *)
Definition fh_need_min s : option (fibonacci_heap T) :=
  m ← fh_min s; match m with None => fh_find_min s | Some _ => Some s end.

(** The heap's [cut]. *)
Fixpoint cut_fuel (fuel n : nat) s : outcome (fibonacci_heap T) :=
  match fuel with
  | 0 => NoFuel
  | S fuel =>
      x ← or_ub (fh_nodes s !! n);
      p ← or_ub (fn_parent x);
      s ← or_ub (fh_node_cut p n s);
      y ← or_ub (fh_nodes s !! p);
      if fn_is_root y then s ← or_ub (fh_put_root (fn_rank y + 1) None s); fh_add_root p s
      else if decide (fn_lost y = 2%Z) then s ← cut_fuel fuel p s; fh_add_root p s
      else Ret s
  end.
Definition fh_cut n s : outcome (fibonacci_heap T) := cut_fuel (size (fh_nodes s)) n s.

(** ** The operations *)

(** [for (; it != end; ++it) add_root( *it)], [k] elements before the end. *)
Fixpoint add_children n (it k : nat) s : outcome (fibonacci_heap T) :=
  match k with
  | 0 => Ret s
  | S k =>
      x ← or_ub (fh_nodes s !! n);
      c ← or_ub (fn_children x !! it);
      s ← fh_add_root c s;
      add_children n (S it) k s
  end.

(** Whether one of the children [cs] has a priority above [d]. *)
Fixpoint child_above (d : T) (cs : list nat) s : option bool :=
  match cs with
  | [] => Some false
  | c :: cs => y ← fh_nodes s !! c; if compare d (fn_data y) then Some true else child_above d cs s
  end.

(** [if (n->is_root()) m_roots[n->rank()] = 0; else cut(n);]. *)
Definition fh_detach n s : outcome (fibonacci_heap T) :=
  x ← or_ub (fh_nodes s !! n);
  if fn_is_root x then or_ub (fh_put_root (fn_rank x) None s) else fh_cut n s.

(** What [decrease] does if a child exceeds its new priority; [k] is the number of
    children before. *)
Definition fh_isolate n (k : nat) s : outcome (fibonacci_heap T) :=
  s ← fh_detach n s;
  s ← add_children n 0 k s;
  s ← or_ub (fh_alter fn_remove_all n s);
  fh_add_root n s.

Definition fh_decrease n (d : T) s : outcome (fibonacci_heap T) :=
  s ← or_ub (fh_alter (fn_set_data d) n s);
  x ← or_ub (fh_nodes s !! n);
  b ← or_ub (child_above d (fn_children x) s);
  s ← (if b : bool then fh_isolate n (fn_rank x) s else Ret s);
  Ret (fh_set_min None s).

Definition fh_increase n (d : T) s : outcome (fibonacci_heap T) :=
  s ← or_ub (fh_alter (fn_set_data d) n s);
  x ← or_ub (fh_nodes s !! n);
  s ← match fn_parent x with
      | None => Ret s
      | Some p =>
          y ← or_ub (fh_nodes s !! p);
          if compare (fn_data y) d then s ← fh_cut n s; fh_add_root n s else Ret s
      end;
  Ret (fh_set_min None s).

Definition fh_change n (d : T) s : outcome (fibonacci_heap T) :=
  x ← or_ub (fh_nodes s !! n);
  if compare (fn_data x) d then fh_increase n d s else fh_decrease n d s.

Definition fh_change_top (d : T) s : outcome (fibonacci_heap T) :=
  s ← or_ub (fh_need_min s);
  n ← or_ub (mjoin (fh_min s));
  fh_change n d s.

(** [delete n] of something that is no node is undefined. *)
Definition fh_delete n s : option (fibonacci_heap T) :=
  _ ← fh_nodes s !! n;
  Some (FibonacciHeap (delete n (fh_nodes s)) (fh_roots s) (fh_size s) (fh_min s)).

Definition fh_remove n s : outcome (fibonacci_heap T) :=
  s ← fh_detach n s;
  x ← or_ub (fh_nodes s !! n);
  s ← add_children n 0 (fn_rank x) s;
  or_ub (fh_delete n (fh_set_min None s)).

Definition fh_empty s : bool := bool_decide (fh_size s = 0%Z).

Definition fh_top s : option (T * fibonacci_heap T) :=
  s ← fh_need_min s;
  n ← mjoin (fh_min s); x ← fh_nodes s !! n;
  Some (fn_data x, s).

Definition fh_push (d : T) s : outcome (nat * fibonacci_heap T) :=
  let n := fresh (dom (fh_nodes s)) in
  let s := FibonacciHeap (<[n := fh_node_ctor d]> (fh_nodes s)) (fh_roots s) (fh_size s + 1)%Z (fh_min s) in
  s ← fh_add_root n s;
  Ret (n, fh_set_min None s).

Definition fh_pop s : outcome (fibonacci_heap T) :=
  s ← or_ub (fh_need_min s);
  n ← or_ub (mjoin (fh_min s));
  x ← or_ub (fh_nodes s !! n);
  s ← or_ub (fh_put_root (fn_rank x) None s);
  s ← add_children n 0 (fn_rank x) s;
  s ← or_ub (fh_delete n (FibonacciHeap (fh_nodes s) (fh_roots s) (fh_size s - 1)%Z (fh_min s)));
  Ret (fh_set_min None s).
End fibonacci_heap.

(** ** The invariant *)
Section invariant.
Context {T : Type} (compare : T → T → bool).
Implicit Types (s : fibonacci_heap T) (x y : fh_node T) (n p c r k : nat) (h : nat → nat) (X D : gset nat).
Implicit Types (ns : gmap nat (fh_node T)).

(** A node has at least as many children as the children which its parent got
    before it, one more if it lost one: [l] lists the children by age. *)
Definition aged ns (cs : list nat) : Prop :=
  ∃ l, l ≡ₚ cs ∧ ∀ i c y, l !! i = Some c → ns !! c = Some y → (Z.of_nat i ≤ Z.of_nat (fn_rank y) + fn_lost y)%Z.

(** [D] are the roots of trees which are detached: their parent, index and count
    of lost children mean nothing. The priorities of [X] may be out of order, and
    [L] may have lost two children. [h] is above the height of the nodes. *)
Record fh_at h X (L : option nat) D s : Prop := FhAt {
  fa_slot k r : fh_roots s !! k = Some (Some r) →
    r ∉ D ∧ ∃ x, fh_nodes s !! r = Some x ∧ fn_parent x = None ∧ fn_rank x = k;
  fa_root n x : fh_nodes s !! n = Some x → n ∉ D → fn_parent x = None →
    fh_roots s !! fn_rank x = Some (Some n);
  fa_child n x i c : fh_nodes s !! n = Some x → fn_children x !! i = Some c →
    c ∉ D ∧ ∃ y, fh_nodes s !! c = Some y ∧ fn_parent y = Some n ∧ fn_index y = Some i;
  fa_parent n x p : fh_nodes s !! n = Some x → n ∉ D → fn_parent x = Some p →
    h n < h p ∧ ∃ y i, fh_nodes s !! p = Some y ∧ fn_children y !! i = Some n;
  fa_order n x c y : fh_nodes s !! n = Some x → c ∈ fn_children x → fh_nodes s !! c = Some y →
    n ∉ X → c ∉ X → compare (fn_data x) (fn_data y) = false;
  fa_lost n x : fh_nodes s !! n = Some x → n ∉ D → Some n ≠ L → (0 ≤ fn_lost x ≤ 1)%Z;
  fa_aged n x : fh_nodes s !! n = Some x → aged (fh_nodes s) (fn_children x);
  fa_dom : D ⊆ dom (fh_nodes s);
}.

Lemma aged_frame ns ns' cs :
  aged ns cs →
  (∀ c y', c ∈ cs → ns' !! c = Some y' →
    ∃ y, ns !! c = Some y ∧ (Z.of_nat (fn_rank y) + fn_lost y ≤ Z.of_nat (fn_rank y') + fn_lost y')%Z) →
  aged ns' cs.
Proof.
  intros (l & Hl & Ha) Hf. exists l. split; [done|]. intros i c y' Hi Hc.
  destruct (Hf c y') as (y & Hy & Hle); [rewrite <-Hl; by eapply list_elem_of_lookup_2|done|].
  specialize (Ha i c y Hi Hy). lia.
Qed.

Lemma fa_elem h X L D s n x c :
  fh_at h X L D s → fh_nodes s !! n = Some x → c ∈ fn_children x →
  c ∉ D ∧ ∃ y, fh_nodes s !! c = Some y ∧ fn_parent y = Some n.
Proof.
  intros Hs Hn [i Hi]%list_elem_of_lookup. destruct (fa_child _ _ _ _ _ Hs n x i c Hn Hi) as (? & y & ? & ? & _); eauto.
Qed.

Lemma fa_lookup h X L D s n : fh_at h X L D s → n ∈ D → ∃ x, fh_nodes s !! n = Some x.
Proof. intros Hs Hn. apply elem_of_dom. by apply (fa_dom _ _ _ _ _ Hs). Qed.

Lemma fa_children_NoDup h X L D s n x : fh_at h X L D s → fh_nodes s !! n = Some x → NoDup (fn_children x).
Proof.
  intros Hs Hn. apply NoDup_alt. intros i j c Hi Hj.
  destruct (fa_child _ _ _ _ _ Hs n x i c Hn Hi) as (_ & y & Hy & _ & Hyi).
  destruct (fa_child _ _ _ _ _ Hs n x j c Hn Hj) as (_ & z & Hz & _ & Hzj). congruence.
Qed.

(** The data alone. *)
Definition fh_contents s : gmap nat T := fn_data <$> fh_nodes s.

(** What no operation on the trees changes. *)
Record fh_kept s s' : Prop := FhKept {
  fk_contents : fh_contents s' = fh_contents s;
  fk_size : fh_size s' = fh_size s;
  fk_min : fh_min s' = fh_min s;
}.

#[export] Instance fh_kept_preorder : PreOrder fh_kept.
Proof.
  split; [by intros s|]. intros s1 s2 s3 [Hc Hz Hm] [Hc' Hz' Hm'].
  split; [by rewrite Hc', Hc|by rewrite Hz', Hz|by rewrite Hm', Hm].
Qed.

Lemma contents_insert ns n x x' :
  ns !! n = Some x → fn_data x' = fn_data x → fn_data <$> <[n := x']> ns = fn_data <$> ns.
Proof.
  intros Hn Hd. rewrite fmap_insert, Hd. apply insert_id. by rewrite lookup_fmap, Hn.
Qed.

Lemma contents_dom s s' : fh_contents s' = fh_contents s → dom (fh_nodes s') = dom (fh_nodes s).
Proof. intros H. rewrite <-(dom_fmap_L fn_data (fh_nodes s')), <-(dom_fmap_L fn_data (fh_nodes s)). by f_equal. Qed.

(** *** Roots *)

(** The root in slot [k] is detached. *)
Lemma fh_at_unroot h X L D s k r :
  fh_at h X L D s → fh_roots s !! k = Some (Some r) →
  fh_at h X L ({[r]} ∪ D) (fh_set_roots (<[k := None]> (fh_roots s)) s).
Proof.
  intros Hs Hk. destruct (fa_slot _ _ _ _ _ Hs k r Hk) as (HrD & z & Hr & Hrp & Hrk).
  split; simpl.
  - intros j q Hj. apply list_lookup_insert_Some in Hj as [(_ & [=] & _)|[Hjk Hj]].
    destruct (fa_slot _ _ _ _ _ Hs j q Hj) as (HqD & x & Hq & Hqp & Hqk). split; [|by exists x].
    rewrite not_elem_of_union, not_elem_of_singleton. split; [|done]. intros ->. congruence.
  - intros n x Hn [Hnr HnD]%not_elem_of_union Hp. rewrite not_elem_of_singleton in Hnr.
    pose proof (fa_root _ _ _ _ _ Hs n x Hn HnD Hp) as Hrt.
    rewrite list_lookup_insert_ne; [done|]. intros ->. congruence.
  - intros n x i c Hn Hi. destruct (fa_child _ _ _ _ _ Hs n x i c Hn Hi) as (HcD & y & Hc & Hcp & Hci).
    split; [|by exists y]. rewrite not_elem_of_union, not_elem_of_singleton. split; [|done]. intros ->. congruence.
  - intros n x p Hn [_ HnD]%not_elem_of_union. by apply (fa_parent _ _ _ _ _ Hs).
  - apply (fa_order _ _ _ _ _ Hs).
  - intros n x Hn [_ HnD]%not_elem_of_union. by apply (fa_lost _ _ _ _ _ Hs).
  - apply (fa_aged _ _ _ _ _ Hs).
  - pose proof (fa_dom _ _ _ _ _ Hs). apply elem_of_dom_2 in Hr. set_solver.
Qed.

(** A detached tree gets an empty slot. *)
Lemma fh_at_place h X D s n x rs :
  fh_at h X None D s → n ∈ D → fh_nodes s !! n = Some x →
  (∀ j r, rs !! j = Some (Some r) ↔ (j = fn_rank x ∧ r = n) ∨ fh_roots s !! j = Some (Some r)) →
  (∀ r, fh_roots s !! fn_rank x ≠ Some (Some r)) →
  fh_at h X None (D ∖ {[n]}) (FibonacciHeap (<[n := fn_clear x]> (fh_nodes s)) rs (fh_size s) (fh_min s)).
Proof.
  intros Hs HnD Hn Hrs Hempty.
  assert (Hnc : ∀ m z, fh_nodes s !! m = Some z → n ∉ fn_children z).
  { intros m z Hm Hin. by apply (fa_elem _ _ _ _ _ _ _ _ Hs Hm Hin). }
  split; simpl.
  - intros k r [[-> ->]|Hk]%Hrs.
    + split; [set_solver|]. exists (fn_clear x). by rewrite lookup_insert_eq.
    + destruct (fa_slot _ _ _ _ _ Hs k r Hk) as (HrD & z & Hr & Hrp). split; [set_solver|].
      exists z. rewrite lookup_insert_ne by (by intros ->). done.
  - intros m y [[<- <-]|[Hmn Hm]]%lookup_insert_Some Hd Hp; apply Hrs; [by left|right].
    apply (fa_root _ _ _ _ _ Hs); [done|set_solver|done].
  - intros m y i c Hm Hi.
    assert (Hm' : ∃ y', fh_nodes s !! m = Some y' ∧ fn_children y' !! i = Some c).
    { apply lookup_insert_Some in Hm as [[<- <-]|[_ Hm]]; [by exists x|by exists y]. }
    destruct Hm' as (y' & Hm' & Hi'). destruct (fa_child _ _ _ _ _ Hs m y' i c Hm' Hi') as (HcD & z & Hc & Hcp & Hci).
    split; [set_solver|]. exists z. rewrite lookup_insert_ne by (by intros ->). done.
  - intros m y p [[<- <-]|[Hmn Hm]]%lookup_insert_Some Hd Hp; [done|].
    destruct (fa_parent _ _ _ _ _ Hs m y p Hm) as (Hh & z & i & Hz & Hi); [set_solver|done|]. split; [done|].
    destruct (decide (p = n)) as [->|Hpn]; [|exists z, i; by rewrite lookup_insert_ne].
    exists (fn_clear x), i. rewrite lookup_insert_eq. split; [done|]. by simplify_eq.
  - intros m y c z Hm Hc Hz HmX HcX.
    assert (Hm' : ∃ y', fh_nodes s !! m = Some y' ∧ fn_children y' = fn_children y ∧ fn_data y' = fn_data y).
    { apply lookup_insert_Some in Hm as [[<- <-]|[_ Hm]]; [by exists x|by exists y]. }
    destruct Hm' as (y' & Hm' & Hcy & <-). rewrite <-Hcy in Hc.
    rewrite lookup_insert_ne in Hz by (intros <-; by eapply Hnc). by eapply (fa_order _ _ _ _ _ Hs).
  - intros m y [[<- <-]|[Hmn Hm]]%lookup_insert_Some Hd HL; [simpl; lia|].
    apply (fa_lost _ _ _ _ _ Hs m y Hm); [set_solver|done].
  - intros m y Hm.
    assert (Hm' : ∃ y', fh_nodes s !! m = Some y' ∧ fn_children y' = fn_children y).
    { apply lookup_insert_Some in Hm as [[<- <-]|[_ Hm]]; [by exists x|by exists y]. }
    destruct Hm' as (y' & Hm' & <-). eapply aged_frame; [by apply (fa_aged _ _ _ _ _ Hs m y')|].
    intros c z Hc Hz. exists z. rewrite lookup_insert_ne in Hz by (intros <-; by eapply Hnc). done.
  - pose proof (fa_dom _ _ _ _ _ Hs). rewrite dom_insert. set_solver.
Qed.

Lemma empty_slots (rs : list (option nat)) k j r n :
  rs !! k = None →
  (rs ++ replicate (k - length rs) None ++ [Some n]) !! j = Some (Some r) ↔
  (j = k ∧ r = n) ∨ rs !! j = Some (Some r).
Proof.
  intros Hk. apply lookup_ge_None in Hk. rewrite !lookup_app_Some, !length_replicate, list_lookup_singleton_Some.
  rewrite lookup_replicate. split.
  - intros [?|[? [[[=] _]|(? & ? & [= ->])]]]; [by right|left; split; [lia|done]].
  - intros [[-> ->]|Hj]; [right|by left]. split; [done|]. right. split; [lia|]. split; [lia|done].
Qed.

Lemma fill_slot (rs : list (option nat)) k j r n :
  rs !! k = Some None →
  (<[k := Some n]> rs) !! j = Some (Some r) ↔ (j = k ∧ r = n) ∨ rs !! j = Some (Some r).
Proof.
  intros Hk. rewrite list_lookup_insert_Some. apply lookup_lt_Some in Hk as Hlt. split.
  - intros [(-> & [= ->] & _)|[_ ?]]; [by left|by right].
  - intros [[-> ->]|Hj]; [by left|right]. split; [|done]. intros ->. congruence.
Qed.

(** *** Linking *)

(** The detached tree [c] becomes the last child of [p], a detached tree of the
    same rank. *)
Definition linked_nodes p c (x z : fh_node T) ns : gmap nat (fh_node T) :=
  <[p := fn_push_child c x]> (<[c := fn_attach (fn_rank x) p (fn_clear z)]> ns).
Definition linked_height h p c : nat → nat := λ m, if decide (m = p) then S (h p + h c) else h m.

Lemma linked_lookup p c x z ns m y' :
  ns !! p = Some x → ns !! c = Some z → p ≠ c → linked_nodes p c x z ns !! m = Some y' →
  (m = p ∧ y' = fn_push_child c x) ∨ (m = c ∧ y' = fn_attach (fn_rank x) p (fn_clear z)) ∨
  (m ≠ p ∧ m ≠ c ∧ ns !! m = Some y').
Proof.
  unfold linked_nodes. intros Hp Hc Hpc Hm.
  apply lookup_insert_Some in Hm as [[<- <-]|[? [[<- <-]|[??]]%lookup_insert_Some]]; auto.
Qed.

(** Every old child is still a child of the same node. *)
Lemma linked_old p c x z ns m y' i d :
  ns !! p = Some x → ns !! c = Some z → p ≠ c → linked_nodes p c x z ns !! m = Some y' →
  fn_children y' !! i = Some d →
  (m = p ∧ i = fn_rank x ∧ d = c) ∨
  (∃ y, ns !! m = Some y ∧ fn_data y' = fn_data y ∧ fn_children y !! i = Some d).
Proof.
  intros Hp Hc Hpc Hm Hd. destruct (linked_lookup p c x z ns m y' Hp Hc Hpc Hm) as [[-> ->]|[[-> ->]|(?&?&?)]].
  - simpl in Hd. apply lookup_snoc_Some in Hd as [[_ ?]|[-> ->]]; [right; by exists x|by left].
  - right. by exists z.
  - right. by exists y'.
Qed.

Lemma linked_aged h X L D s p c x z m y' :
  fh_at h X L D s → p ∈ D → c ∈ D → p ≠ c → fh_nodes s !! p = Some x → fh_nodes s !! c = Some z →
  fn_rank x = fn_rank z → linked_nodes p c x z (fh_nodes s) !! m = Some y' →
  aged (linked_nodes p c x z (fh_nodes s)) (fn_children y').
Proof.
  intros Hs HpD HcD Hpc Hp Hc Hrank Hm.
  assert (Hold : ∀ m y, fh_nodes s !! m = Some y → aged (linked_nodes p c x z (fh_nodes s)) (fn_children y)).
  { intros m1 y1 Hm1. eapply aged_frame; [by eapply (fa_aged _ _ _ _ _ Hs)|]. intros d y Hd Hy. exists y.
    destruct (fa_elem _ _ _ _ _ _ _ _ Hs Hm1 Hd) as (HdD & _).
    unfold linked_nodes in Hy. rewrite !lookup_insert_ne in Hy by (by intros <-). done. }
  destruct (linked_lookup _ _ _ _ _ _ _ Hp Hc Hpc Hm) as [[-> ->]|[[-> ->]|(?&?&Hm')]];
    [|by apply (Hold c z)|by apply (Hold m y')].
  destruct (Hold p x Hp) as (l & Hl & Ha). exists (l ++ [c]). simpl. split; [by rewrite Hl|].
  intros i d y [[_ Hi]|[-> ->]]%lookup_snoc_Some Hd; [by apply (Ha i d y)|].
  unfold linked_nodes in Hd. rewrite lookup_insert_ne, lookup_insert_eq in Hd by done. injection Hd as <-.
  apply Permutation_length in Hl. unfold fn_rank in *. simpl. rewrite Hl. lia.
Qed.

Lemma fh_at_link h X D s p c x z :
  fh_at h X None D s → p ∈ D → c ∈ D → p ≠ c → fh_nodes s !! p = Some x → fh_nodes s !! c = Some z →
  fn_rank x = fn_rank z → compare (fn_data x) (fn_data z) = false →
  fh_at (linked_height h p c) X None (D ∖ {[c]})
    (FibonacciHeap (linked_nodes p c x z (fh_nodes s)) (fh_roots s) (fh_size s) (fh_min s)).
Proof.
  intros Hs HpD HcD Hpc Hp Hc Hrank Hcmp.
  assert (Hnew : ∀ m, m ∉ D → linked_nodes p c x z (fh_nodes s) !! m = fh_nodes s !! m).
  { intros m Hm. unfold linked_nodes. rewrite !lookup_insert_ne; [done|by intros ->..]. }
  assert (Hcn : linked_nodes p c x z (fh_nodes s) !! c = Some (fn_attach (fn_rank x) p (fn_clear z))).
  { unfold linked_nodes. by rewrite lookup_insert_ne, lookup_insert_eq. }
  split; simpl.
  - intros k r Hk. destruct (fa_slot _ _ _ _ _ Hs k r Hk) as (HrD & Hr). split; [set_solver|]. by rewrite Hnew.
  - intros m y' Hm Hd Hmp. destruct (linked_lookup _ _ _ _ _ _ _ Hp Hc Hpc Hm) as [[-> ->]|[[-> ->]|(?&?&Hm')]];
      [set_solver|done|]. apply (fa_root _ _ _ _ _ Hs); [done|set_solver|done].
  - intros m y' i d Hm Hi. destruct (linked_old _ _ _ _ _ _ _ _ _ Hp Hc Hpc Hm Hi) as [(-> & -> & ->)|(y & Hy & _ & Hi')].
    + split; [set_solver|]. rewrite Hcn. by eexists.
    + destruct (fa_child _ _ _ _ _ Hs m y i d Hy Hi') as (HdD & Hd). split; [set_solver|]. by rewrite Hnew.
  - intros m y' q Hm Hd Hq. unfold linked_height.
    assert (Hqn : ∀ y i, fh_nodes s !! q = Some y → fn_children y !! i = Some m →
      ∃ y' i, linked_nodes p c x z (fh_nodes s) !! q = Some y' ∧ fn_children y' !! i = Some m).
    { intros y i Hy Hi. unfold linked_nodes. destruct (decide (q = p)) as [->|Hqp].
      - rewrite lookup_insert_eq. exists (fn_push_child c x), i. split; [done|]. simplify_eq. simpl.
        by apply lookup_app_l_Some.
      - rewrite lookup_insert_ne by done. destruct (decide (q = c)) as [->|Hqc].
        + rewrite lookup_insert_eq. eexists _, i. split; [done|]. by simplify_eq.
        + rewrite lookup_insert_ne by done. by exists y, i. }
    destruct (linked_lookup _ _ _ _ _ _ _ Hp Hc Hpc Hm) as [[-> ->]|[[-> ->]|(Hmp&Hmc&Hm')]]; [set_solver| |].
    + simpl in Hq. injection Hq as <-. rewrite decide_False, decide_True by done. split; [lia|].
      exists (fn_push_child c x), (fn_rank x). unfold linked_nodes. rewrite lookup_insert_eq. split; [done|].
      by apply list_lookup_middle.
    + destruct (fa_parent _ _ _ _ _ Hs m y' q Hm') as (Hh & y & i & Hy & Hi); [set_solver|done|].
      split; [|by eapply Hqn]. rewrite decide_False by done. case_decide as Hqp; [|done]. rewrite Hqp in Hh. lia.
  - intros m y' d w Hm Hd Hw HmX HdX. apply list_elem_of_lookup in Hd as [i Hi].
    destruct (linked_old _ _ _ _ _ _ _ _ _ Hp Hc Hpc Hm Hi) as [(-> & -> & ->)|(y & Hy & -> & Hi')].
    + rewrite Hcn in Hw. injection Hw as <-. unfold linked_nodes in Hm. rewrite lookup_insert_eq in Hm.
      by injection Hm as <-.
    + apply list_elem_of_lookup_2 in Hi'. destruct (fa_elem _ _ _ _ _ _ _ _ Hs Hy Hi') as (HdD & _).
      rewrite Hnew in Hw by done. by eapply (fa_order _ _ _ _ _ Hs).
  - intros m y' Hm Hd HL. destruct (linked_lookup _ _ _ _ _ _ _ Hp Hc Hpc Hm) as [[-> ->]|[[-> ->]|(Hmp&Hmc&Hm')]];
      [simpl; lia..|]. apply (fa_lost _ _ _ _ _ Hs m y' Hm'); [set_solver|done].
  - intros m y'. by eapply linked_aged.
  - pose proof (fa_dom _ _ _ _ _ Hs). unfold linked_nodes. rewrite !dom_insert. set_solver.
Qed.

(** *** Cutting *)
Lemma swap_drop_snoc i (cs : list nat) d :
  swap_drop i (cs ++ [d]) = if decide (i < length cs) then <[i := d]> cs else cs.
Proof.
  unfold swap_drop. rewrite last_snoc, length_app. simpl.
  destruct (decide (i + 1 < length cs + 1)); destruct (decide (i < length cs)); [|lia..|].
  - rewrite insert_app_l by done. rewrite length_app, length_insert. simpl.
    rewrite take_app_length'; [done|]. rewrite length_insert. lia.
  - rewrite length_app. simpl. rewrite take_app_length'; [done|lia].
Qed.

Lemma swap_drop_Permutation i (cs : list nat) n : cs !! i = Some n → cs ≡ₚ n :: swap_drop i cs.
Proof.
  destruct cs as [|d cs _] using rev_ind; [done|]. rewrite swap_drop_snoc. intros Hi.
  apply lookup_snoc_Some in Hi as [[Hlt Hi]|[-> <-]].
  - rewrite decide_True by done. rewrite (insert_take_drop cs i d Hlt).
    rewrite <-(take_drop_middle cs i n Hi) at 1. rewrite <-Permutation_cons_append, <-!Permutation_middle.
    apply Permutation_swap.
  - rewrite decide_False by lia. by rewrite <-Permutation_cons_append.
Qed.

Lemma swap_drop_lookup i (cs : list nat) n j d :
  cs !! i = Some n → swap_drop i cs !! j = Some d →
  (j ≠ i ∧ cs !! j = Some d ∧ j + 1 < length cs) ∨ (j = i ∧ last cs = Some d ∧ i + 1 < length cs).
Proof.
  destruct cs as [|e cs _] using rev_ind; [done|]. rewrite swap_drop_snoc, last_snoc, length_app. simpl.
  intros Hi Hj. case_decide as Hlt.
  - apply list_lookup_insert_Some in Hj as [(-> & -> & _)|[Hij Hj]]; [right; split_and!; [done..|lia]|left].
    apply lookup_lt_Some in Hj as Hjl. split_and!; [done|by apply lookup_app_l_Some|lia].
  - left. apply lookup_lt_Some in Hi as Hil. rewrite length_app in Hil. simpl in Hil.
    apply lookup_lt_Some in Hj as Hjl. split_and!; [lia|by apply lookup_app_l_Some|lia].
Qed.

Lemma swap_drop_length i (cs : list nat) n : cs !! i = Some n → length cs = S (length (swap_drop i cs)).
Proof. intros Hi. by rewrite (swap_drop_Permutation i cs n Hi) at 1. Qed.

(** The node [x] at [p] lost its child at position [i], whose place its last child
    took. *)
Record cut_from p i x s s' : Prop := CutFrom {
  cf_roots : fh_roots s' = fh_roots s;
  cf_size : fh_size s' = fh_size s;
  cf_min : fh_min s' = fh_min s;
  cf_node : fh_nodes s' !! p = Some (fn_drop_child i x);
  cf_moved c : c ≠ p → last (fn_children x) = Some c → i + 1 < fn_rank x →
    fh_nodes s' !! c = fn_set_index i <$> fh_nodes s !! c;
  cf_other c : c ≠ p → (last (fn_children x) = Some c → ¬ i + 1 < fn_rank x) →
    fh_nodes s' !! c = fh_nodes s !! c;
}.

Lemma node_cut_spec h X L D s n x p :
  fh_at h X L D s → n ∉ D → fh_nodes s !! n = Some x → fn_parent x = Some p →
  ∃ i y s', fh_nodes s !! p = Some y ∧ fn_children y !! i = Some n ∧
    fh_node_cut p n s = Some s' ∧ cut_from p i y s s'.
Proof.
  intros Hs HnD Hn Hp. destruct (fa_parent _ _ _ _ _ Hs n x p Hn HnD Hp) as (Hh & y & i & Hy & Hi).
  destruct (fa_child _ _ _ _ _ Hs p y i n Hy Hi) as (_ & x' & Hn' & _ & Hidx). simplify_eq.
  exists i, y. unfold fh_node_cut. rewrite Hn. simpl. rewrite Hidx. simpl. rewrite Hy. simpl.
  destruct (last (fn_children y)) as [c|] eqn:Hlast; [simpl|apply last_None in Hlast; by rewrite Hlast in Hi].
  assert (Hc : ∃ w, fh_nodes s !! c = Some w ∧ c ≠ p).
  { rewrite last_lookup in Hlast. destruct (fa_child _ _ _ _ _ Hs p y _ c Hy Hlast) as (HcD & w & Hw & Hwp & _).
    exists w. split; [done|]. intros ->. destruct (fa_parent _ _ _ _ _ Hs p w p Hw HcD Hwp) as [? _]. lia. }
  destruct Hc as (w & Hw & Hcp). destruct (decide (i + 1 < fn_rank y)) as [Hlt|Hge].
  - unfold fh_alter. rewrite Hw. simpl. rewrite lookup_insert_ne, Hy by done. simpl.
    eexists. split_and!; [done..|]. split; simpl; [done..|by rewrite lookup_insert_eq| |].
    + intros e Hep He _. assert (e = c) as -> by congruence. by rewrite lookup_insert_ne, lookup_insert_eq, Hw.
    + intros e Hep He. rewrite !lookup_insert_ne; [done| |done]. intros ->. by apply He.
  - unfold fh_alter. simpl. rewrite Hy. simpl. eexists. split_and!; [done..|].
    split; simpl; [done..|by rewrite lookup_insert_eq|by intros|]. intros e Hep He. by rewrite lookup_insert_ne.
Qed.

(** What a node keeps when a child of [p] is cut. *)
Record cut_view p i y m z z' : Prop := CutView {
  cv_parent : fn_parent z' = fn_parent z;
  cv_data : fn_data z' = fn_data z;
  cv_weight : (Z.of_nat (fn_rank z') + fn_lost z' = Z.of_nat (fn_rank z) + fn_lost z)%Z;
  cv_same : m ≠ p → fn_children z' = fn_children z ∧ fn_lost z' = fn_lost z;
  cv_node : m = p → z = y ∧ z' = fn_drop_child i y;
}.

Lemma cut_from_view p i y n s s' m :
  cut_from p i y s s' → fh_nodes s !! p = Some y → fn_children y !! i = Some n →
  match fh_nodes s !! m, fh_nodes s' !! m with
  | Some z, Some z' => cut_view p i y m z z'
  | None, None => True
  | _, _ => False
  end.
Proof.
  intros Hcf Hp Hi. destruct (decide (m = p)) as [->|Hmp].
  { rewrite Hp, (cf_node _ _ _ _ _ Hcf). split; [done|done| |done|done]. unfold fn_rank. simpl.
    rewrite (swap_drop_length i _ n Hi). lia. }
  assert (Hcase : fh_nodes s' !! m = fn_set_index i <$> fh_nodes s !! m ∨ fh_nodes s' !! m = fh_nodes s !! m).
  { destruct (decide (last (fn_children y) = Some m ∧ i + 1 < fn_rank y)) as [[Hl Hlt]|Hn].
    - left. by apply (cf_moved _ _ _ _ _ Hcf).
    - right. apply (cf_other _ _ _ _ _ Hcf); [done|]. tauto. }
  destruct Hcase as [->| ->]; destruct (fh_nodes s !! m); simpl; try done; by split.
Qed.

Lemma cut_from_back p i y n s s' m z' :
  cut_from p i y s s' → fh_nodes s !! p = Some y → fn_children y !! i = Some n → fh_nodes s' !! m = Some z' →
  ∃ z, fh_nodes s !! m = Some z ∧ cut_view p i y m z z'.
Proof.
  intros Hcf Hp Hi Hm. pose proof (cut_from_view p i y n s s' m Hcf Hp Hi) as Hv. rewrite Hm in Hv.
  destruct (fh_nodes s !! m) as [z|]; [by exists z|done].
Qed.
Lemma cut_from_forth p i y n s s' m z :
  cut_from p i y s s' → fh_nodes s !! p = Some y → fn_children y !! i = Some n → fh_nodes s !! m = Some z →
  ∃ z', fh_nodes s' !! m = Some z' ∧ cut_view p i y m z z'.
Proof.
  intros Hcf Hp Hi Hm. pose proof (cut_from_view p i y n s s' m Hcf Hp Hi) as Hv. rewrite Hm in Hv.
  destruct (fh_nodes s' !! m) as [z'|]; [by exists z'|done].
Qed.

Lemma cut_kept p i y n s s' :
  cut_from p i y s s' → fh_nodes s !! p = Some y → fn_children y !! i = Some n → fh_kept s s'.
Proof.
  intros Hcf Hp Hi. split; [|by destruct Hcf..]. apply map_eq. intros m. unfold fh_contents. rewrite !lookup_fmap.
  pose proof (cut_from_view p i y n s s' m Hcf Hp Hi) as Hv.
  destruct (fh_nodes s !! m), (fh_nodes s' !! m); try done. simpl. f_equal. by destruct Hv.
Qed.

(** Nodes which are no children of the node do not change at all. *)
Lemma cut_from_same p i y s s' m :
  cut_from p i y s s' → m ≠ p → m ∉ fn_children y → fh_nodes s' !! m = fh_nodes s !! m.
Proof.
  intros Hcf Hmp Hm. apply (cf_other _ _ _ _ _ Hcf); [done|]. intros Hl%elem_of_last. done.
Qed.
Lemma cut_from_child p i y n s s' :
  cut_from p i y s s' → NoDup (fn_children y) → fn_children y !! i = Some n → n ≠ p →
  fh_nodes s' !! n = fh_nodes s !! n.
Proof.
  intros Hcf Hnd Hi Hnp. apply (cf_other _ _ _ _ _ Hcf); [done|]. rewrite last_lookup. intros Hl Hlt.
  rewrite NoDup_alt in Hnd. specialize (Hnd _ _ _ Hi Hl). unfold fn_rank in Hlt. lia.
Qed.

(** The children of [p] afterwards. *)
Lemma cut_children h X L D s s' n p y i j c :
  fh_at h X L D s → fh_nodes s !! p = Some y → fn_children y !! i = Some n → cut_from p i y s s' →
  swap_drop i (fn_children y) !! j = Some c →
  c ∉ {[n]} ∪ D ∧ ∃ z, fh_nodes s' !! c = Some z ∧ fn_parent z = Some p ∧ fn_index z = Some j.
Proof.
  intros Hs Hp Hi Hcf Hj. pose proof (fa_children_NoDup _ _ _ _ _ _ _ Hs Hp) as Hnd. rewrite NoDup_alt in Hnd.
  destruct (swap_drop_lookup _ _ _ _ _ Hi Hj) as [(Hji & Hc & Hlt)|(-> & Hl & Hlt)].
  - destruct (fa_child _ _ _ _ _ Hs p y j c Hp Hc) as (HcD & z & Hz & Hzp & Hzj).
    split; [apply not_elem_of_union; split; [|done]; apply not_elem_of_singleton; intros ->; by apply Hji, (Hnd _ _ n)|].
    exists z. rewrite (cf_other _ _ _ _ _ Hcf); [done| |].
    + intros ->. destruct (fa_parent _ _ _ _ _ Hs p z p Hz HcD Hzp). lia.
    + rewrite last_lookup. intros Hl _. specialize (Hnd _ _ _ Hc Hl). lia.
  - rewrite last_lookup in Hl. destruct (fa_child _ _ _ _ _ Hs p y _ c Hp Hl) as (HcD & z & Hz & Hzp & Hzj).
    split.
    { apply not_elem_of_union; split; [|done]; apply not_elem_of_singleton; intros ->. specialize (Hnd _ _ _ Hi Hl). lia. }
    exists (fn_set_index i z). rewrite (cf_moved _ _ _ _ _ Hcf), Hz; [done| |by rewrite last_lookup|done].
    intros ->. destruct (fa_parent _ _ _ _ _ Hs p z p Hz HcD Hzp). lia.
Qed.

Lemma cut_child h X L D s s' n x p y i m z' j c :
  fh_at h X L D s → fh_nodes s !! n = Some x → fn_parent x = Some p →
  fh_nodes s !! p = Some y → fn_children y !! i = Some n → cut_from p i y s s' →
  fh_nodes s' !! m = Some z' → fn_children z' !! j = Some c →
  c ∉ {[n]} ∪ D ∧ ∃ w, fh_nodes s' !! c = Some w ∧ fn_parent w = Some m ∧ fn_index w = Some j.
Proof.
  intros Hs Hn Hnp Hp Hi Hcf Hm Hj. destruct (cut_from_back _ _ _ _ _ _ _ _ Hcf Hp Hi Hm) as (z & Hz & Hv).
  destruct (decide (m = p)) as [->|Hmp].
  { destruct (cv_node _ _ _ _ _ _ Hv eq_refl) as [-> ->]. simpl in Hj. by eapply cut_children. }
  destruct (cv_same _ _ _ _ _ _ Hv Hmp) as [E _]. rewrite E in Hj.
  destruct (fa_child _ _ _ _ _ Hs m z j c Hz Hj) as (HcD & w & Hw & Hwp & Hwj). split.
  { rewrite not_elem_of_union, not_elem_of_singleton. split; [|done]. intros ->. congruence. }
  destruct (decide (c = p)) as [->|Hcp].
  - exists (fn_drop_child i y). rewrite (cf_node _ _ _ _ _ Hcf). by simplify_eq.
  - exists w. rewrite (cut_from_same p i y s s' c Hcf Hcp); [done|]. intros Hc.
    destruct (fa_elem _ _ _ _ _ _ _ _ Hs Hp Hc) as (_ & w' & Hw' & Hp'). congruence.
Qed.

Lemma cut_aged h X L D s s' n p y i m z' :
  fh_at h X L D s → fh_nodes s !! p = Some y → fn_children y !! i = Some n → cut_from p i y s s' →
  fh_nodes s' !! m = Some z' → aged (fh_nodes s') (fn_children z').
Proof.
  intros Hs Hp Hi Hcf Hm. destruct (cut_from_back _ _ _ _ _ _ _ _ Hcf Hp Hi Hm) as (z & Hz & Hv).
  assert (Ha : aged (fh_nodes s') (fn_children z)).
  { eapply aged_frame; [by eapply (fa_aged _ _ _ _ _ Hs)|]. intros c w' _ Hw'.
    destruct (cut_from_back _ _ _ _ _ _ _ _ Hcf Hp Hi Hw') as (w & Hw & Hvw). exists w. split; [done|].
    by rewrite (cv_weight _ _ _ _ _ _ Hvw). }
  destruct (decide (m = p)) as [->|Hmp]; [|by destruct (cv_same _ _ _ _ _ _ Hv Hmp) as [-> _]].
  destruct (cv_node _ _ _ _ _ _ Hv eq_refl) as [-> ->]. simpl. destruct Ha as (l & Hl & Ha).
  pose proof (swap_drop_Permutation _ _ _ Hi) as Hperm.
  assert (Hin : n ∈ l) by (rewrite Hl, Hperm; by apply elem_of_cons; left).
  apply list_elem_of_split in Hin as (l1 & l2 & ->). exists (l1 ++ l2). split.
  - apply (Permutation_cons_inv (a := n)). by rewrite <-Hperm, <-Hl, <-Permutation_middle.
  - intros j c w [Hj|[Hlen Hj]]%lookup_app_Some Hw.
    + apply (Ha j c w); [by apply lookup_app_l_Some|done].
    + specialize (Ha (S j) c w). rewrite lookup_app_r in Ha by lia.
      replace (S j - length l1) with (S (j - length l1)) in Ha by lia. specialize (Ha Hj Hw). lia.
Qed.

(** The tree [n] is detached; its parent [p] must not be in a slot. *)
Lemma fh_at_cut h X L D s s' n x p y i :
  fh_at h X L D s → (L = Some n ∨ L = None) → n ∉ D → fh_nodes s !! n = Some x → fn_parent x = Some p →
  fh_nodes s !! p = Some y → fn_children y !! i = Some n → (p ∈ D ∨ fn_parent y ≠ None) →
  cut_from p i y s s' → fh_at h X (Some p) ({[n]} ∪ D) s'.
Proof.
  intros Hs HL HnD Hn Hnp Hp Hi Hpr Hcf.
  assert (Hback := λ m z', cut_from_back p i y n s s' m z' Hcf Hp Hi).
  assert (Hforth := λ m z, cut_from_forth p i y n s s' m z Hcf Hp Hi).
  split.
  - intros k r Hk. rewrite (cf_roots _ _ _ _ _ Hcf) in Hk.
    destruct (fa_slot _ _ _ _ _ Hs k r Hk) as (HrD & z & Hz & Hzp & Hzr).
    assert (r ≠ p) as Hrp by (intros ->; naive_solver).
    destruct (Hforth r z Hz) as (z' & Hz' & Hv). split.
    + rewrite not_elem_of_union, not_elem_of_singleton. split; [|done]. intros ->. congruence.
    + exists z'. rewrite (cv_parent _ _ _ _ _ _ Hv). unfold fn_rank.
      by destruct (cv_same _ _ _ _ _ _ Hv Hrp) as [-> _].
  - intros m z' Hm [_ HmD]%not_elem_of_union Hmp. rewrite (cf_roots _ _ _ _ _ Hcf).
    destruct (Hback m z' Hm) as (z & Hz & Hv). rewrite (cv_parent _ _ _ _ _ _ Hv) in Hmp.
    assert (m ≠ p) as Hne by (intros ->; naive_solver). unfold fn_rank.
    destruct (cv_same _ _ _ _ _ _ Hv Hne) as [-> _]. by apply (fa_root _ _ _ _ _ Hs).
  - intros m z' j c. by eapply (cut_child h X L D s s' n x p y i).
  - intros m z' q Hm [Hmn HmD]%not_elem_of_union Hq. rewrite not_elem_of_singleton in Hmn.
    destruct (Hback m z' Hm) as (z & Hz & Hv). rewrite (cv_parent _ _ _ _ _ _ Hv) in Hq.
    destruct (fa_parent _ _ _ _ _ Hs m z q Hz HmD Hq) as (Hh & w & j & Hw & Hj). split; [done|].
    destruct (Hforth q w Hw) as (w' & Hw' & Hvw). destruct (decide (q = p)) as [->|Hqp].
    + destruct (cv_node _ _ _ _ _ _ Hvw eq_refl) as [-> ->]. exists (fn_drop_child i y).
      apply list_elem_of_lookup_2 in Hj. rewrite (swap_drop_Permutation _ _ _ Hi) in Hj.
      apply elem_of_cons in Hj as [->|[j' Hj']%list_elem_of_lookup]; [done|]. by exists j'.
    + exists w', j. destruct (cv_same _ _ _ _ _ _ Hvw Hqp) as [-> _]. done.
  - intros m z' c w' Hm Hc Hw. destruct (Hback m z' Hm) as (z & Hz & Hv). destruct (Hback c w' Hw) as (w & Hw' & Hvw).
    rewrite (cv_data _ _ _ _ _ _ Hv), (cv_data _ _ _ _ _ _ Hvw).
    assert (c ∈ fn_children z).
    { destruct (decide (m = p)) as [->|Hmp]; [|by destruct (cv_same _ _ _ _ _ _ Hv Hmp) as [<- _]].
      destruct (cv_node _ _ _ _ _ _ Hv eq_refl) as [-> ->]. rewrite (swap_drop_Permutation _ _ _ Hi).
      by apply elem_of_cons; right. }
    by eapply (fa_order _ _ _ _ _ Hs).
  - intros m z' Hm [Hmn HmD]%not_elem_of_union HmL. rewrite not_elem_of_singleton in Hmn.
    destruct (Hback m z' Hm) as (z & Hz & Hv). destruct (cv_same _ _ _ _ _ _ Hv) as [_ ->]; [congruence|].
    apply (fa_lost _ _ _ _ _ Hs m z Hz HmD). destruct HL as [->| ->]; congruence.
  - intros m z' Hm. by eapply cut_aged.
  - pose proof (fa_dom _ _ _ _ _ Hs). rewrite (contents_dom s s') by apply (cut_kept _ _ _ _ _ _ Hcf Hp Hi).
    apply elem_of_dom_2 in Hn. set_solver.
Qed.

(** *** Adding a root *)
Definition root_count (rs : list (option nat)) : nat := length (omap id rs).

Lemma root_count_unroot rs k r : rs !! k = Some (Some r) → root_count rs = S (root_count (<[k := None]> rs)).
Proof.
  intros Hk. rewrite (insert_take_drop rs) by (by eapply lookup_lt_Some).
  rewrite <-(take_drop_middle rs k _ Hk) at 1. unfold root_count. rewrite !omap_app, !length_app. simpl. lia.
Qed.
Lemma root_count_length rs : root_count rs ≤ length rs.
Proof. unfold root_count. induction rs as [|[r|] rs IH]; [done|by apply le_n_S|by apply le_S]. Qed.

Lemma link_run s p c x z :
  fh_nodes s !! p = Some x → fh_nodes s !! c = Some z → p ≠ c →
  ∃ s1, fh_alter fn_clear c s = Some s1 ∧
    fh_join p c s1 = Some (FibonacciHeap (linked_nodes p c x z (fh_nodes s)) (fh_roots s) (fh_size s) (fh_min s)).
Proof.
  intros Hp Hc Hpc. unfold fh_join, fh_alter. rewrite Hc. simpl. eexists. split; [done|]. simpl.
  rewrite (lookup_insert_ne _ c p) by done. rewrite Hp. simpl. rewrite lookup_insert_eq. simpl.
  rewrite insert_insert_eq, (lookup_insert_ne _ c p), Hp by done. done.
Qed.

Lemma linked_kept s p c x z :
  fh_nodes s !! p = Some x → fh_nodes s !! c = Some z → p ≠ c →
  fh_kept s (FibonacciHeap (linked_nodes p c x z (fh_nodes s)) (fh_roots s) (fh_size s) (fh_min s)).
Proof.
  intros Hp Hc Hpc. split; [|done..]. unfold fh_contents. simpl. unfold linked_nodes.
  rewrite (contents_insert _ p x); [by apply contents_insert with z|by rewrite lookup_insert_ne|done].
Qed.

Lemma set_roots_kept rs s : fh_kept s (fh_set_roots rs s).
Proof. by split. Qed.

(** Of the detached trees only [n] was changed. *)
Definition others_same (n : nat) D s s' : Prop :=
  ∀ d, d ∈ D → d ≠ n → fh_nodes s' !! d = fh_nodes s !! d.

Lemma place_step h X D s n x rs :
  fh_at h X None D s → n ∈ D → fh_nodes s !! n = Some x →
  (∀ j r, rs !! j = Some (Some r) ↔ (j = fn_rank x ∧ r = n) ∨ fh_roots s !! j = Some (Some r)) →
  (∀ r, fh_roots s !! fn_rank x ≠ Some (Some r)) →
  ∃ s' h', or_ub (fh_alter fn_clear n (fh_set_roots rs s)) = Ret s' ∧ fh_at h' X None (D ∖ {[n]}) s' ∧
    fh_kept s s' ∧ others_same n D s s'.
Proof.
  intros Hs Hn Hx Hrs He. unfold fh_alter. simpl. rewrite Hx. simpl. eexists _, h. split_and!; [done|..].
  - by apply fh_at_place.
  - split; [|done..]. by apply contents_insert with x.
  - intros d _ Hd. simpl. by rewrite lookup_insert_ne.
Qed.

Lemma link_step h X D s p c x z :
  fh_at h X None D s → p ∈ D → c ∈ D → p ≠ c → fh_nodes s !! p = Some x → fh_nodes s !! c = Some z →
  fn_rank x = fn_rank z → compare (fn_data x) (fn_data z) = false →
  ∃ s1 s2, fh_alter fn_clear c s = Some s1 ∧ fh_join p c s1 = Some s2 ∧
    fh_at (linked_height h p c) X None (D ∖ {[c]}) s2 ∧ fh_kept s s2 ∧ fh_roots s2 = fh_roots s ∧
    (∀ d, d ≠ p → d ≠ c → fh_nodes s2 !! d = fh_nodes s !! d).
Proof.
  intros Hs HpD HcD Hpc Hp Hc Hrank Hcmp. destruct (link_run s p c x z Hp Hc Hpc) as (s1 & H1 & H2).
  eexists s1, _. split_and!; [done|exact H2|by apply fh_at_link|by apply linked_kept|done|].
  intros d Hdp Hdc. simpl. unfold linked_nodes. by rewrite !lookup_insert_ne.
Qed.

Context `{!StrictWeakOrder compare}.

(** One call: the tree is placed, or one of the two trees of equal rank is linked
    to the other, which is detached. *)
Lemma add_root_fuel_spec fuel n s h X D :
  fh_at h X None D s → n ∈ D → root_count (fh_roots s) < fuel →
  ∃ s' h', add_root_fuel compare fuel n s = Ret s' ∧ fh_at h' X None (D ∖ {[n]}) s' ∧ fh_kept s s' ∧
    others_same n D s s'.
Proof.
  revert n s h D. induction fuel as [|fuel IH]; intros n s h D Hs Hn Hfuel; [lia|]. simpl.
  destruct (fa_lookup _ _ _ _ _ _ Hs Hn) as [x Hx]. rewrite Hx. simpl.
  destruct (fh_roots s !! fn_rank x) as [[r|]|] eqn:Hslot.
  - pose proof (fh_at_unroot _ _ _ _ _ _ _ Hs Hslot) as Hu.
    destruct (fa_slot _ _ _ _ _ Hs _ _ Hslot) as (HrD & y & Hy & _ & Hrank).
    assert (r ≠ n) as Hrn by (by intros ->). simpl. rewrite Hy. simpl.
    pose proof (set_roots_kept (<[fn_rank x := None]> (fh_roots s)) s) as Hks. set (su := fh_set_roots _ s) in *.
    assert (Hcount : root_count (fh_roots su) < fuel) by (simpl; apply root_count_unroot in Hslot; lia).
    destruct (compare (fn_data x) (fn_data y)) eqn:Hcmp.
    + destruct (link_step _ _ _ su r n y x Hu) as (s1 & s2 & -> & Hj & Hl & Hkl & Hrt & Hout);
        [set_solver..|done|done|done|done|by apply swo_asym|]. simpl. rewrite Hj. simpl. rewrite <-Hrt in Hcount.
      destruct (IH r _ _ _ Hl ltac:(set_solver) Hcount) as (s' & h' & Hrun & Hs' & Hk & Hd).
      exists s', h'. split_and!; [exact Hrun| |by do 2 (etrans; [done|])|].
      * by replace (D ∖ {[n]}) with (({[r]} ∪ D) ∖ {[n]} ∖ {[r]}) by set_solver.
      * intros d HdD Hdn. assert (d ≠ r) by (by intros ->). rewrite Hd by set_solver. by rewrite Hout.
    + destruct (link_step _ _ _ su n r x y Hu) as (s1 & s2 & -> & Hj & Hl & Hkl & Hrt & Hout);
        [set_solver..|done|done|done|done|]. simpl. rewrite Hj. simpl. rewrite <-Hrt in Hcount.
      replace (({[r]} ∪ D) ∖ {[r]}) with D in Hl by set_solver.
      destruct (IH n _ _ _ Hl Hn Hcount) as (s' & h' & Hrun & Hs' & Hk & Hd).
      exists s', h'. split_and!; [exact Hrun|done|by do 2 (etrans; [done|])|].
      intros d HdD Hdn. assert (d ≠ r) by (by intros ->). rewrite Hd by done. by rewrite Hout.
  - eapply place_step; [done..| |by rewrite Hslot]. intros j r. by apply fill_slot.
  - eapply place_step; [done..| |by rewrite Hslot]. intros j r. by apply empty_slots.
Qed.

Lemma fh_add_root_spec n s h X D :
  fh_at h X None D s → n ∈ D →
  ∃ s' h', fh_add_root compare n s = Ret s' ∧ fh_at h' X None (D ∖ {[n]}) s' ∧ fh_kept s s' ∧ others_same n D s s'.
Proof. intros Hs Hn. apply (add_root_fuel_spec _ _ _ h); [done..|]. pose proof (root_count_length (fh_roots s)). lia. Qed.

(** *** Cascading cuts *)
Lemma fh_at_lost h X L L' D s :
  fh_at h X L D s → (∀ n x, L = Some n → n ∉ D → fh_nodes s !! n = Some x → (0 ≤ fn_lost x ≤ 1)%Z) →
  fh_at h X L' D s.
Proof.
  intros [] HL. split; try done. intros n x Hn HnD _. destruct (decide (Some n = L)); [by eapply HL|eauto].
Qed.

(** Cutting [n] off, with the facts about its parent that the caller needs. *)
Lemma cut_step h X D s n x p :
  fh_at h X (Some n) D s → n ∉ D → fh_nodes s !! n = Some x → fn_parent x = Some p → (∀ d, d ∈ D → h d ≤ h n) →
  ∃ i y s1, fh_nodes s !! p = Some y ∧ fn_children y !! i = Some n ∧ p ∉ {[n]} ∪ D ∧ h n < h p ∧
    (0 ≤ fn_lost y ≤ 1)%Z ∧ fh_node_cut p n s = Some s1 ∧ cut_from p i y s s1 ∧ fh_kept s s1 ∧
    (∀ d, d ∈ {[n]} ∪ D → fh_nodes s1 !! d = fh_nodes s !! d).
Proof.
  intros Hs HnD Hn Hp Hhd. destruct (fa_parent _ _ _ _ _ Hs n x p Hn HnD Hp) as [Hh _].
  destruct (node_cut_spec _ _ _ _ _ _ _ _ Hs HnD Hn Hp) as (i & y & s1 & Hy & Hi & Hrun & Hcf).
  assert (HpD : p ∉ {[n]} ∪ D).
  { rewrite not_elem_of_union, not_elem_of_singleton. split; [by intros ->; lia|]. intros Hin. specialize (Hhd p Hin). lia. }
  exists i, y, s1. split_and!; try done.
  - eapply (fa_lost _ _ _ _ _ Hs p); [done|set_solver|]. intros [= ->]. lia.
  - eapply (fa_lost _ _ _ _ _ Hs p); [done|set_solver|]. intros [= ->]. lia.
  - by apply (cut_kept _ _ _ _ _ _ Hcf Hy Hi).
  - intros d [->%elem_of_singleton|Hd]%elem_of_union.
    + apply (cut_from_child _ _ _ _ _ _ Hcf); [by eapply fa_children_NoDup|done|by intros ->; lia].
    + apply (cut_from_same _ _ _ _ _ _ Hcf); [by intros ->; set_solver|]. intros Hc.
      by destruct (fa_elem _ _ _ _ _ _ _ _ Hs Hy Hc).
Qed.

(** Cutting off a child of a root, which becomes a root of a smaller rank. *)
Lemma cut_root h X D s s1 n x p y i :
  fh_at h X (Some n) D s → n ∉ D → fh_nodes s !! n = Some x → fn_parent x = Some p →
  fh_nodes s !! p = Some y → fn_children y !! i = Some n → p ∉ {[n]} ∪ D → fn_parent y = None →
  cut_from p i y s s1 →
  ∃ s2, fh_put_root (fn_rank (fn_drop_child i y) + 1) None s1 = Some s2 ∧ fh_kept s1 s2 ∧
    fh_at h X None ({[n]} ∪ ({[p]} ∪ D)) s2 ∧ fh_nodes s2 = fh_nodes s1.
Proof.
  intros Hs HnD Hn Hnp Hy Hi HpD Hyp Hcf.
  pose proof (fa_root _ _ _ _ _ Hs p y Hy ltac:(set_solver) Hyp) as Hslot.
  replace (fn_rank (fn_drop_child i y) + 1) with (fn_rank y)
    by (unfold fn_rank; simpl; rewrite (swap_drop_length _ _ _ Hi); lia).
  unfold fh_put_root. rewrite (cf_roots _ _ _ _ _ Hcf).
  rewrite decide_True by (by eapply lookup_lt_Some). eexists. split; [done|]. split; [apply set_roots_kept|].
  split; [|done]. pose proof (fh_at_unroot _ _ _ _ _ _ _ Hs Hslot) as Hu. rewrite not_elem_of_union in HpD.
  apply (fh_at_lost _ _ (Some p)); [|set_solver].
  eapply (fh_at_cut h X _ _ _ _ n x p y i Hu); [by left|set_solver|done..|left; set_solver|].
  destruct Hcf. by split.
Qed.

Lemma cut_fuel_spec fuel n s h X D x p :
  fh_at h X (Some n) D s → n ∉ D → fh_nodes s !! n = Some x → fn_parent x = Some p →
  (∀ d, d ∈ D → h d ≤ h n) → size (dom (fh_nodes s) ∖ D) ≤ fuel →
  ∃ s' h', cut_fuel compare fuel n s = Ret s' ∧ fh_at h' X None ({[n]} ∪ D) s' ∧ fh_kept s s' ∧
    (∀ d, d ∈ {[n]} ∪ D → fh_nodes s' !! d = fh_nodes s !! d).
Proof.
  revert n s D x p. induction fuel as [|fuel IH]; intros n s D x p Hs HnD Hn Hp Hhd Hfuel.
  { assert (E : dom (fh_nodes s) ∖ D ≡ ∅) by (apply size_empty_inv; lia).
    apply elem_of_dom_2 in Hn. set_solver. }
  simpl. rewrite Hn. simpl. rewrite Hp. simpl.
  destruct (cut_step _ _ _ _ _ _ _ Hs HnD Hn Hp Hhd) as (i & y & s1 & Hy & Hi & HpD & Hh & Hlost & -> & Hcf & Hk & Hd1).
  simpl. rewrite (cf_node _ _ _ _ _ Hcf). simpl. unfold fn_is_root. simpl. case_bool_decide as Hyp.
  - destruct (cut_root _ _ _ _ _ _ _ _ _ _ Hs HnD Hn Hp Hy Hi HpD Hyp Hcf) as (s2 & Hput & Hk2 & Hs2 & Hn2).
    rewrite Hput. simpl. destruct (fh_add_root_spec p s2 h X _ Hs2) as (s' & h' & -> & Hs' & Hk' & Hd'); [set_solver|].
    exists s', h'. split_and!; [done| |by do 2 (etrans; [done|])|].
    + by replace ({[n]} ∪ D) with (({[n]} ∪ ({[p]} ∪ D)) ∖ {[p]}) by set_solver.
    + intros d Hd. rewrite Hd' by set_solver. rewrite Hn2. by apply Hd1.
  - pose proof (fh_at_cut _ _ _ _ _ _ _ _ _ _ _ Hs (or_introl eq_refl) HnD Hn Hp Hy Hi (or_intror Hyp) Hcf) as Hs1.
    case_decide as Hl2.
    + destruct (fn_parent y) as [q|] eqn:Hyq; [|done].
      destruct (IH p s1 ({[n]} ∪ D) (fn_drop_child i y) q Hs1) as (s2 & h2 & -> & Hs2 & Hk2 & Hd2);
        [done|by apply (cf_node _ _ _ _ _ Hcf)|done| | |].
      * intros d [->%elem_of_singleton|Hd]%elem_of_union; [lia|]. specialize (Hhd d Hd). lia.
      * rewrite (contents_dom _ _ (fk_contents _ _ Hk)).
        assert (size (dom (fh_nodes s) ∖ ({[n]} ∪ D)) < size (dom (fh_nodes s) ∖ D)); [|lia].
        apply subset_size. apply elem_of_dom_2 in Hn. set_solver.
      * simpl. destruct (fh_add_root_spec p s2 h2 X _ Hs2) as (s' & h' & -> & Hs' & Hk' & Hd'); [set_solver|].
        exists s', h'. split_and!; [done| |by do 2 (etrans; [done|])|].
        { by replace ({[n]} ∪ D) with (({[p]} ∪ ({[n]} ∪ D)) ∖ {[p]}) by set_solver. }
        intros d Hd. rewrite Hd', Hd2 by set_solver. by apply Hd1.
    + exists s1, h. split_and!; [done| |done|done]. apply (fh_at_lost _ _ (Some p)); [done|].
      intros ? z [= <-] _ Hz. rewrite (cf_node _ _ _ _ _ Hcf) in Hz. injection Hz as <-. simpl in *. lia.
Qed.
End invariant.
