(* ===== verification/FibQueue.v ===== *)
(** * The Fibonacci heap is a priority queue

    Every operation of the Fibonacci heap (FibHeap) on a heap whose nodes are all
    in the trees of its roots: it keeps the trees and the heap order, and does to
    the priorities what [pq_step] says, as the d-heap (DHeapQueue) and the pairing
    heap (PairingQueue) do. Then: the bound on the rank of a node that gives the
    heap its name, and what [remove] does to the size. *)
From stdpp Require Import sorting.
From S2P Require Import Prelude PriorityQueue DHeap DHeapQueue PairingHeap PairingQueue FibHeap.

Section queue.
Context {T : Type} (compare : T → T → bool).
Implicit Types (s : fibonacci_heap T) (x y : fh_node T) (n p c r k : nat) (h : nat → nat) (X D : gset nat).
Implicit Types (M : gmap nat T) (op : pq_op T).

(** ** A node out of reach *)

(** The store with a node [e] that is in no tree. *)
Definition fh_with (e : nat) x s : fibonacci_heap T :=
  FibonacciHeap (<[e := x]> (fh_nodes s)) (fh_roots s) (fh_size s) (fh_min s).

Lemma alter_with f n s s' e x :
  fh_alter f n s = Some s' → fh_nodes s !! e = None →
  fh_alter f n (fh_with e x s) = Some (fh_with e x s') ∧ fh_nodes s' !! e = None.
Proof.
  unfold fh_alter. intros (y & Hn & [= <-])%option_bind_Some_inv He. simpl.
  assert (n ≠ e) by congruence. rewrite !lookup_insert_ne, Hn by done. simpl. split; [|done].
  unfold fh_with. simpl. by rewrite insert_insert_ne.
Qed.

Lemma join_with n c s s' e x :
  fh_join n c s = Some s' → fh_nodes s !! e = None →
  fh_join n c (fh_with e x s) = Some (fh_with e x s') ∧ fh_nodes s' !! e = None.
Proof.
  unfold fh_join. intros (y & Hn & (s1 & H1 & H2)%option_bind_Some_inv)%option_bind_Some_inv He. simpl.
  assert (n ≠ e) by congruence. rewrite lookup_insert_ne, Hn by done. simpl.
  destruct (alter_with _ _ _ _ e x H1 He) as [-> He1]. simpl. by apply alter_with.
Qed.

Lemma add_root_with fuel n s s' e x :
  add_root_fuel compare fuel n s = Ret s' → fh_nodes s !! e = None →
  add_root_fuel compare fuel n (fh_with e x s) = Ret (fh_with e x s') ∧ fh_nodes s' !! e = None.
Proof.
  revert n s. induction fuel as [|fuel IH]; intros n s; simpl; [done|].
  intros (z & Hn%or_ub_Ret & H)%outcome_bind_Ret_inv He.
  assert (n ≠ e) by congruence. rewrite lookup_insert_ne, Hn by done. simpl.
  destruct (fh_roots s !! fn_rank z) as [[r|]|].
  - apply outcome_bind_Ret_inv in H as (y & Hr%or_ub_Ret & H). simpl in Hr.
    assert (r ≠ e) by congruence. rewrite lookup_insert_ne, Hr by done. simpl.
    destruct (compare (fn_data z) (fn_data y));
      apply outcome_bind_Ret_inv in H as (s1 & Hs1%or_ub_Ret & H); apply outcome_bind_Ret_inv in H as (s2 & Hs2%or_ub_Ret & H);
      destruct (alter_with _ _ _ _ e x Hs1 He) as [Ha He1]; destruct (join_with _ _ _ _ e x Hs2 He1) as [Hj He2];
      change (fh_set_roots ?rs (fh_with e x s)) with (fh_with e x (fh_set_roots rs s)); rewrite Ha; simpl; rewrite Hj; simpl;
      by apply IH.
  - apply or_ub_Ret in H. destruct (alter_with _ _ _ _ e x H He) as [Ha ?]. split; [|done].
    by apply or_ub_Ret in Ha.
  - apply or_ub_Ret in H. destruct (alter_with _ _ _ _ e x H He) as [Ha ?]. split; [|done].
    by apply or_ub_Ret in Ha.
Qed.

(** A detached node is taken out of the store: its children are detached trees. *)
Lemma fh_at_kill h X D s n x :
  fh_at compare h X None D s → n ∈ D → fh_nodes s !! n = Some x → X ⊆ {[n]} →
  fh_at compare h ∅ None (D ∖ {[n]} ∪ list_to_set (fn_children x))
    (FibonacciHeap (delete n (fh_nodes s)) (fh_roots s) (fh_size s) (fh_min s)).
Proof.
  intros Hs HnD Hn HX.
  assert (Hch : ∀ c, c ∈ fn_children x → c ∉ D ∧ ∃ y, fh_nodes s !! c = Some y ∧ fn_parent y = Some n).
  { intros c Hc. by eapply fa_elem. }
  assert (HD : ∀ m y, fh_nodes s !! m = Some y → m ∉ D → fn_parent y ≠ Some n → m ∉ D ∖ {[n]} ∪ list_to_set (fn_children x)).
  { intros m y Hm HmD Hp [?|Hin%elem_of_list_to_set]%elem_of_union; [set_solver|].
    destruct (Hch m Hin) as (_ & y' & Hy' & ?). congruence. }
  split; simpl.
  - intros k r Hk. destruct (fa_slot _ _ _ _ _ _ Hs k r Hk) as (HrD & z & Hr & Hrp & Hrk).
    split; [eapply HD; [done..|by rewrite Hrp]|]. exists z. rewrite lookup_delete_ne by (by intros ->). done.
  - intros m y [Hnm Hm]%lookup_delete_Some Hd Hp. apply (fa_root _ _ _ _ _ _ Hs); [done|set_solver|done].
  - intros m y i c [Hnm Hm]%lookup_delete_Some Hi.
    destruct (fa_child _ _ _ _ _ _ Hs m y i c Hm Hi) as (HcD & z & Hc & Hcp & Hci).
    split; [eapply HD; [done..|congruence]|]. exists z. rewrite lookup_delete_ne by (by intros ->). done.
  - intros m y q [Hnm Hm]%lookup_delete_Some Hd Hq.
    destruct (fa_parent _ _ _ _ _ _ Hs m y q Hm) as (Hh & z & i & Hz & Hi); [set_solver|done|]. split; [done|].
    exists z, i. rewrite lookup_delete_ne; [done|]. intros <-. apply Hd, elem_of_union_r, elem_of_list_to_set.
    simplify_eq. by eapply list_elem_of_lookup_2.
  - intros m y c z [Hnm Hm]%lookup_delete_Some Hc [Hnc Hz]%lookup_delete_Some _ _.
    apply (fa_order _ _ _ _ _ _ Hs m y c z); [done..|set_solver|set_solver].
  - intros m y [Hnm Hm]%lookup_delete_Some Hd HL. apply (fa_lost _ _ _ _ _ _ Hs m y Hm); [set_solver|done].
  - intros m y [Hnm Hm]%lookup_delete_Some. eapply aged_frame; [by eapply (fa_aged _ _ _ _ _ _ Hs)|].
    intros c z _ [_ Hz]%lookup_delete_Some. by exists z.
  - pose proof (fa_dom _ _ _ _ _ _ Hs). rewrite dom_delete. intros c [Hc|Hc%elem_of_list_to_set]%elem_of_union; [set_solver|].
    destruct (Hch c Hc) as (HcD & y & Hy & _). apply elem_of_dom_2 in Hy. set_solver.
Qed.

(** A new tree of one node. *)
Lemma fh_at_new h X s n x :
  fh_at compare h X None ∅ s → fh_nodes s !! n = None → fn_children x = [] →
  fh_at compare h X None {[n]} (fh_with n x s).
Proof.
  intros Hs Hn Hx.
  assert (Hne : ∀ m y, fh_nodes s !! m = Some y → m ≠ n) by (by intros m y Hm ->; congruence).
  split; simpl.
  - intros k r Hk. destruct (fa_slot _ _ _ _ _ _ Hs k r Hk) as (_ & z & Hr & Hrp). split; [apply Hne in Hr; set_solver|].
    exists z. by rewrite lookup_insert_ne by (by apply not_eq_sym, (Hne _ z)).
  - intros m y [[<- <-]|[? Hm]]%lookup_insert_Some Hd; [set_solver|]. by apply (fa_root _ _ _ _ _ _ Hs).
  - intros m y i c [[<- <-]|[? Hm]]%lookup_insert_Some Hi; [by rewrite Hx in Hi|].
    destruct (fa_child _ _ _ _ _ _ Hs m y i c Hm Hi) as (_ & z & Hc & Hcp). split; [apply Hne in Hc; set_solver|].
    exists z. by rewrite lookup_insert_ne by (by apply not_eq_sym, (Hne _ z)).
  - intros m y q [[<- <-]|[? Hm]]%lookup_insert_Some Hd Hq; [set_solver|].
    destruct (fa_parent _ _ _ _ _ _ Hs m y q Hm) as (Hh & z & i & Hz & Hi); [set_solver|done|]. split; [done|].
    exists z, i. by rewrite lookup_insert_ne by (by apply not_eq_sym, (Hne _ z)).
  - intros m y c z [[<- <-]|[? Hm]]%lookup_insert_Some Hc; [rewrite Hx in Hc; by apply elem_of_nil in Hc|].
    intros [[<- <-]|[? Hz]]%lookup_insert_Some; [|by eapply (fa_order _ _ _ _ _ _ Hs)].
    destruct (fa_elem _ _ _ _ _ _ _ _ _ Hs Hm Hc) as (_ & w & Hw & _). congruence.
  - intros m y [[<- <-]|[? Hm]]%lookup_insert_Some Hd; [set_solver|]. apply (fa_lost _ _ _ _ _ _ Hs m y Hm). set_solver.
  - intros m y [[<- <-]|[? Hm]]%lookup_insert_Some; [rewrite Hx; exists []; split; [done|by intros ?]|].
    eapply aged_frame; [by eapply (fa_aged _ _ _ _ _ _ Hs)|]. intros c z Hc Hz. exists z.
    destruct (fa_elem _ _ _ _ _ _ _ _ _ Hs Hm Hc) as (_ & w & Hw & _).
    rewrite lookup_insert_ne in Hz by (by apply not_eq_sym, (Hne _ w)). done.
  - rewrite dom_insert. set_solver.
Qed.

(** ** Pieces of the operations *)
Context `{!StrictWeakOrder compare}.

Lemma fh_add_root_with n s s' e x :
  fh_add_root compare n s = Ret s' → fh_nodes s !! e = None →
  fh_add_root compare n (fh_with e x s) = Ret (fh_with e x s').
Proof. intros H He. exact (proj1 (add_root_with _ _ _ _ e x H He)). Qed.

Lemma contents_None s n : fh_contents s !! n = None ↔ fh_nodes s !! n = None.
Proof. unfold fh_contents. by rewrite lookup_fmap, fmap_None. Qed.
Lemma contents_Some s n x : fh_nodes s !! n = Some x → fh_contents s !! n = Some (fn_data x).
Proof. unfold fh_contents. by rewrite lookup_fmap; intros ->. Qed.
Lemma contents_Some_inv s n v : fh_contents s !! n = Some v → ∃ x, fh_nodes s !! n = Some x ∧ fn_data x = v.
Proof. unfold fh_contents. rewrite lookup_fmap, fmap_Some. naive_solver. Qed.

Lemma kept_None s s' n : fh_kept s s' → fh_nodes s !! n = None → fh_nodes s' !! n = None.
Proof. intros Hk. rewrite <-!contents_None. by rewrite (fk_contents _ _ Hk). Qed.

(** All children of a node out of reach are added as roots. *)
Lemma add_children_spec h s n x pre cs :
  fn_children x = pre ++ cs → NoDup cs → fh_nodes s !! n = None →
  fh_at compare h ∅ None (list_to_set cs) s →
  ∃ s' h', add_children compare n (length pre) (length cs) (fh_with n x s) = Ret (fh_with n x s') ∧
    fh_at compare h' ∅ None ∅ s' ∧ fh_kept s s'.
Proof.
  revert h s pre. induction cs as [|c cs IH]; intros h s pre Hx Hnd Hn Hs; simpl.
  { by exists s, h. }
  rewrite lookup_insert_eq. simpl. rewrite Hx, list_lookup_middle by done. simpl.
  apply NoDup_cons in Hnd as [Hc Hnd].
  destruct (fh_add_root_spec compare c s h ∅ _ Hs) as (s1 & h1 & Hrun & Hs1 & Hk & _); [set_solver|].
  rewrite (fh_add_root_with c s s1 n x Hrun Hn). simpl.
  replace (list_to_set (c :: cs) ∖ {[c]}) with (list_to_set cs : gset nat) in Hs1.
  2:{ apply set_eq. intros q. simpl. rewrite elem_of_difference, elem_of_union, elem_of_singleton, elem_of_list_to_set.
      split; [intros Hq; split; [by right|by intros ->]|by intros [[->|?] ?]]. }
  destruct (IH h1 s1 (pre ++ [c])) as (s' & h' & Hrun' & Hs' & Hk'); [by rewrite <-(assoc_L (++))|done|by eapply kept_None|done|].
  rewrite length_app, Nat.add_1_r in Hrun'. exists s', h'. split_and!; [done..|by etrans].
Qed.

(** [n] leaves the roots, or its parent. *)
Lemma detach_spec h X s n x :
  fh_at compare h X None ∅ s → fh_nodes s !! n = Some x →
  ∃ s' h', fh_detach compare n s = Ret s' ∧ fh_at compare h' X None {[n]} s' ∧ fh_kept s s' ∧
    fh_nodes s' !! n = Some x.
Proof.
  intros Hs Hn. unfold fh_detach. rewrite Hn. simpl. unfold fn_is_root. case_bool_decide as Hp.
  - pose proof (fa_root _ _ _ _ _ _ Hs n x Hn ltac:(set_solver) Hp) as Hslot. unfold fh_put_root.
    rewrite decide_True by (by eapply lookup_lt_Some). eexists _, h. split_and!; [done| |apply set_roots_kept|done].
    replace {[n]} with ({[n]} ∪ ∅ : gset nat) by set_solver. by apply fh_at_unroot.
  - destruct (fn_parent x) as [p|] eqn:Hpp; [|done].
    destruct (cut_fuel_spec compare (size (fh_nodes s)) n s h X ∅ x p) as (s' & h' & Hrun & Hs' & Hk & Hd);
      [|set_solver|done|done|set_solver| |].
    + apply (fh_at_lost _ _ _ None); [done|]. by intros.
    + rewrite difference_empty_L. by rewrite size_dom.
    + exists s', h'. split_and!; [done| |done|by rewrite Hd by set_solver].
      by replace {[n]} with ({[n]} ∪ ∅ : gset nat) by set_solver.
Qed.

(** Its children become roots; it is out of reach then. *)
Lemma scatter_spec h X s n x :
  fh_at compare h X None {[n]} s → X ⊆ {[n]} → fh_nodes s !! n = Some x →
  ∃ s' h', add_children compare n 0 (fn_rank x) s = Ret (fh_with n x s') ∧
    fh_at compare h' ∅ None ∅ s' ∧ fh_nodes s' !! n = None ∧ fh_contents s' = delete n (fh_contents s) ∧
    fh_size s' = fh_size s ∧ fh_min s' = fh_min s.
Proof.
  intros Hs HX Hn. pose proof (fh_at_kill _ _ {[n]} _ n x Hs ltac:(set_solver) Hn HX) as Hk.
  set (s0 := FibonacciHeap (delete n (fh_nodes s)) (fh_roots s) (fh_size s) (fh_min s)) in *.
  assert (Hw : s = fh_with n x s0).
  { unfold fh_with. simpl. rewrite insert_delete_id by done. by destruct s. }
  assert (Hn0 : fh_nodes s0 !! n = None) by (simpl; apply lookup_delete_eq).
  replace ({[n]} ∖ {[n]} ∪ list_to_set (fn_children x)) with (list_to_set (fn_children x) : gset nat) in Hk by set_solver.
  destruct (add_children_spec h s0 n x [] (fn_children x)) as (s' & h' & Hrun & Hs' & [Hc Hsz Hm]);
    [done|exact (fa_children_NoDup _ _ _ _ _ _ _ _ Hs Hn)|done|done|].
  exists s', h'. split_and!; [by rewrite Hw|done| | |done|done].
  - apply contents_None. rewrite Hc. by apply contents_None.
  - rewrite Hc. apply fmap_delete.
Qed.

(** *** The order *)
Lemma fh_at_exempt h X X' L D s :
  fh_at compare h X L D s →
  (∀ n x c y, fh_nodes s !! n = Some x → c ∈ fn_children x → fh_nodes s !! c = Some y → n ∉ X' → c ∉ X' →
    (n ∈ X ∨ c ∈ X) → compare (fn_data x) (fn_data y) = false) →
  fh_at compare h X' L D s.
Proof.
  intros [] HX. split; try done. intros n x c y Hn Hc Hy HnX HcX.
  destruct (decide (n ∈ X)); [by eapply HX; eauto|]. destruct (decide (c ∈ X)); [by eapply HX; eauto|eauto].
Qed.

(** A node gets other data, which may be out of order. *)
Lemma fh_at_set_data h s n x d :
  fh_at compare h ∅ None ∅ s → fh_nodes s !! n = Some x →
  fh_at compare h {[n]} None ∅ (fh_with n (fn_set_data d x) s).
Proof.
  intros Hs Hn. set (x' := fn_set_data d x).
  assert (Hback : ∀ m y', fh_nodes (fh_with n x' s) !! m = Some y' → ∃ y, fh_nodes s !! m = Some y ∧
    fn_parent y' = fn_parent y ∧ fn_children y' = fn_children y ∧ fn_lost y' = fn_lost y ∧ fn_index y' = fn_index y ∧
    (m ≠ n → y' = y)).
  { intros m y'. simpl. intros [[<- <-]|[Hne Hm]]%lookup_insert_Some; [by exists x|by exists y']. }
  assert (Hforth : ∀ m y, fh_nodes s !! m = Some y → ∃ y', fh_nodes (fh_with n x' s) !! m = Some y' ∧
    fn_parent y' = fn_parent y ∧ fn_children y' = fn_children y ∧ fn_lost y' = fn_lost y ∧ fn_index y' = fn_index y).
  { intros m y Hm. simpl. destruct (decide (m = n)) as [->|Hne]; [|exists y; by rewrite lookup_insert_ne].
    exists x'. rewrite lookup_insert_eq. by simplify_eq. }
  split.
  - intros k r Hk. destruct (fa_slot _ _ _ _ _ _ Hs k r Hk) as (HrD & z & Hr & Hrp & Hrk). split; [done|].
    destruct (Hforth r z Hr) as (z' & ? & Ep & Ec & _). exists z'. unfold fn_rank. by rewrite Ep, Ec.
  - intros m y' Hm Hd. destruct (Hback m y' Hm) as (y & Hy & -> & Ec & _). unfold fn_rank. rewrite Ec.
    by apply (fa_root _ _ _ _ _ _ Hs).
  - intros m y' i c Hm. destruct (Hback m y' Hm) as (y & Hy & _ & -> & _). intros Hi.
    destruct (fa_child _ _ _ _ _ _ Hs m y i c Hy Hi) as (HcD & z & Hc & Hcp & Hci). split; [done|].
    destruct (Hforth c z Hc) as (z' & ? & Ep & _ & _ & Ei). exists z'. by rewrite Ep, Ei.
  - intros m y' q Hm Hd. destruct (Hback m y' Hm) as (y & Hy & -> & _). intros Hq.
    destruct (fa_parent _ _ _ _ _ _ Hs m y q Hy Hd Hq) as (Hh & z & i & Hz & Hi). split; [done|].
    destruct (Hforth q z Hz) as (z' & ? & _ & Ec & _). exists z', i. by rewrite Ec.
  - intros m y' c z' Hm Hc Hz HmX HcX. destruct (Hback m y' Hm) as (y & Hy & _ & Ec & _ & _ & Em).
    destruct (Hback c z' Hz) as (z & Hz' & _ & _ & _ & _ & Ez). rewrite Ec in Hc.
    rewrite Em, Ez by set_solver. by eapply (fa_order _ _ _ _ _ _ Hs).
  - intros m y' Hm. destruct (Hback m y' Hm) as (y & Hy & _ & _ & -> & _). by apply (fa_lost _ _ _ _ _ _ Hs).
  - intros m y' Hm. destruct (Hback m y' Hm) as (y & Hy & _ & -> & _).
    eapply aged_frame; [by eapply (fa_aged _ _ _ _ _ _ Hs)|]. intros c z' _ Hz.
    destruct (Hback c z' Hz) as (z & Hz' & _ & Ec & El & _). exists z. unfold fn_rank. by rewrite Ec, El.
  - simpl. set_solver.
Qed.

(** ** The largest root *)
Definition is_slot (r : nat) s : Prop := ∃ k, fh_roots s !! k = Some (Some r).

Lemma height_bound h (E : gset nat) : ∃ b, ∀ n, n ∈ E → h n ≤ b.
Proof.
  induction E as [|n E _ [b IH]] using set_ind_L; [by exists 0|]. exists (max b (h n)).
  intros q [->%elem_of_singleton|Hq]%elem_of_union; [lia|]. specialize (IH q Hq). lia.
Qed.

(** The way up. *)
Definition fh_up s (a b : nat) : Prop := ∃ x, fh_nodes s !! a = Some x ∧ fn_parent x = Some b.

Lemma up_height h s a b : fh_at compare h ∅ None ∅ s → rtc (fh_up s) a b → h a ≤ h b.
Proof.
  intros Hs. induction 1 as [|a b c (x & Hx & Hp) _ IH]; [done|].
  destruct (fa_parent _ _ _ _ _ _ Hs a x b Hx ltac:(set_solver) Hp). lia.
Qed.

Lemma up_comparable s a b c : rtc (fh_up s) a b → rtc (fh_up s) a c → rtc (fh_up s) b c ∨ rtc (fh_up s) c b.
Proof.
  induction 1 as [a|a a' b (x & Hx & Hp) H IH]; [by left|]. intros Hc.
  inversion Hc as [|? a'' ? (y & Hy & Hq) Hc']; subst; [|simplify_eq; by apply IH].
  right. eapply rtc_l; [by exists x|done].
Qed.

(** Below two children of one node there is nothing in common. *)
Lemma up_disjoint h s n c d a :
  fh_at compare h ∅ None ∅ s → fh_up s c n → fh_up s d n → rtc (fh_up s) a c → rtc (fh_up s) a d → c = d.
Proof.
  intros Hs.
  assert (Hone : ∀ c d, fh_up s c n → fh_up s d n → rtc (fh_up s) c d → c = d).
  { intros c' d' (x & Hx & Hp) (y & Hy & Hq) Hr. inversion Hr as [|? b ? (z & Hz & Hb) Hr']; subst; [done|]. simplify_eq.
    pose proof (up_height h s n d' Hs Hr').
    destruct (fa_parent _ _ _ _ _ _ Hs d' y n Hy ltac:(set_solver) Hq). lia. }
  intros Hc Hd Hac Had. destruct (up_comparable _ _ _ _ Hac Had); [by apply Hone|symmetry; by apply Hone].
Qed.

(** Every node is below a root. *)
Lemma root_reach h s n x :
  fh_at compare h ∅ None ∅ s → fh_nodes s !! n = Some x → ∃ r, is_slot r s ∧ rtc (fh_up s) n r.
Proof.
  intros Hs. destruct (height_bound h (dom (fh_nodes s))) as [b Hb].
  remember (b - h n) as k eqn:Ek. revert n x Ek. induction k as [k IH] using lt_wf_ind. intros n x Ek Hn.
  destruct (fn_parent x) as [p|] eqn:Hp.
  - destruct (fa_parent _ _ _ _ _ _ Hs n x p Hn ltac:(set_solver) Hp) as (Hh & z & i & Hz & Hi).
    assert (h p ≤ b) by (apply Hb; by eapply elem_of_dom_2).
    destruct (IH (b - h p) ltac:(lia) p z eq_refl Hz) as (r & Hr & Hup). exists r. split; [done|].
    eapply rtc_l; [by exists x|done].
  - exists n. split; [|done]. exists (fn_rank x). by apply (fa_root _ _ _ _ _ _ Hs).
Qed.

Lemma up_order h s n r x y :
  fh_at compare h ∅ None ∅ s → rtc (fh_up s) n r → fh_nodes s !! n = Some x → fh_nodes s !! r = Some y →
  compare (fn_data y) (fn_data x) = false.
Proof.
  intros Hs Hup. revert x. induction Hup as [n|n p r (x' & Hx' & Hp) _ IH]; intros x Hx Hy.
  - simplify_eq. by apply swo_irrefl.
  - rewrite Hx in Hx'. injection Hx' as <-. destruct (fa_parent _ _ _ _ _ _ Hs n x p Hx ltac:(set_solver) Hp) as (_ & z & i & Hz & Hi%list_elem_of_lookup_2).
    apply (swo_negtrans _ (fn_data z)); [by apply IH|]. by apply (fa_order _ _ _ _ _ _ Hs p z n x).
Qed.

(** No priority is above that of the root of its tree. *)
Lemma root_above h s n x :
  fh_at compare h ∅ None ∅ s → fh_nodes s !! n = Some x →
  ∃ r y, is_slot r s ∧ fh_nodes s !! r = Some y ∧ compare (fn_data y) (fn_data x) = false.
Proof.
  intros Hs Hn. destruct (root_reach h s n x Hs Hn) as (r & [k Hk] & Hup).
  destruct (fa_slot _ _ _ _ _ _ Hs k r Hk) as (_ & y & Hy & _). exists r, y.
  split_and!; [by exists k|done|by eapply up_order].
Qed.

Lemma first_root_spec (rs : list (option nat)) :
  (∃ r, Some r ∈ rs) → ∃ m rest, first_root rs = Some (m, rest) ∧ ∀ r, Some r ∈ rs ↔ r = m ∨ Some r ∈ rest.
Proof.
  induction rs as [|[q|] rs IH]; intros [r Hr]; [by apply elem_of_nil in Hr| |]; simpl.
  - exists q, rs. split; [done|]. intros r'. rewrite elem_of_cons. naive_solver.
  - destruct IH as (m & rest & Hf & Hrs); [exists r; by apply elem_of_cons in Hr as [|]|].
    exists m, rest. split; [done|]. intros r'. rewrite elem_of_cons, Hrs. naive_solver.
Qed.

Lemma better_root_spec s rs m x :
  fh_nodes s !! m = Some x → (∀ r, Some r ∈ rs → ∃ y, fh_nodes s !! r = Some y) →
  ∃ m' x', better_root compare m rs s = Some m' ∧ fh_nodes s !! m' = Some x' ∧ (m' = m ∨ Some m' ∈ rs) ∧
    compare (fn_data x') (fn_data x) = false ∧
    ∀ r y, Some r ∈ rs → fh_nodes s !! r = Some y → compare (fn_data x') (fn_data y) = false.
Proof.
  revert m x. induction rs as [|[r|] rs IH]; intros m x Hm Hrs; simpl.
  - exists m, x. split_and!; [done|done|by left|by apply swo_irrefl|by intros r y ?%elem_of_nil].
  - destruct (Hrs r) as [y Hy]; [by apply elem_of_cons; left|]. rewrite Hm, Hy. simpl.
    set (q := if compare (fn_data x) (fn_data y) then r else m).
    assert (∃ z, fh_nodes s !! q = Some z ∧ compare (fn_data z) (fn_data x) = false ∧
      compare (fn_data z) (fn_data y) = false) as (z & Hz & Hzx & Hzy).
    { unfold q. destruct (compare (fn_data x) (fn_data y)) eqn:E; [exists y|exists x];
        (split; [done|]); split; try done; [by apply swo_asym|by apply swo_irrefl|by apply swo_irrefl]. }
    destruct (IH q z Hz) as (m' & x' & -> & Hm' & Hin & Hc & Hall); [intros r' Hr'; apply Hrs; by apply elem_of_cons; right|].
    exists m', x'. split_and!; [done|done| |by eapply swo_negtrans|].
    + rewrite elem_of_cons. destruct Hin as [->|]; [unfold q; destruct (compare _ _)|]; auto.
    + intros r' y' [[= ->]|Hr']%elem_of_cons Hy'; [|by apply (Hall r')]. simplify_eq. by eapply swo_negtrans.
  - destruct (IH m x Hm) as (m' & x' & -> & ? & Hin & ? & Hall); [intros r' Hr'; apply Hrs; by apply elem_of_cons; right|].
    exists m', x'. split_and!; [done|done| |done|].
    + rewrite elem_of_cons. naive_solver.
    + intros r' y' [[=]|Hr']%elem_of_cons. by apply Hall.
Qed.

(** [r] is a root with a largest priority. *)
Definition largest_root (r : nat) s : Prop :=
  is_slot r s ∧ ∃ v, fh_contents s !! r = Some v ∧ pq_largest compare (fh_contents s) v.

Lemma find_min_spec h s :
  fh_at compare h ∅ None ∅ s → fh_nodes s ≠ ∅ → fh_size s ≠ 0%Z →
  ∃ m, fh_find_min compare s = Some (fh_set_min (Some m) s) ∧ largest_root m s.
Proof.
  intros Hs Hne Hsz. unfold fh_find_min. rewrite decide_False by done.
  apply map_choose in Hne as (n & x & Hn). destruct (root_above _ _ _ _ Hs Hn) as (r & y & (k & Hk) & Hy & _).
  destruct (first_root_spec (fh_roots s)) as (q & rest & -> & Hrs); [exists r; by eapply list_elem_of_lookup_2|]. simpl.
  assert (Hroots : ∀ r, Some r ∈ fh_roots s → ∃ y, fh_nodes s !! r = Some y).
  { intros r' [k' Hk']%list_elem_of_lookup. destruct (fa_slot _ _ _ _ _ _ Hs k' r' Hk') as (_ & z & ? & _). by exists z. }
  destruct (Hroots q) as [z Hz]; [apply Hrs; by left|].
  destruct (better_root_spec s rest q z Hz) as (m & w & -> & Hm & Hin & Hq & Hall);
    [intros r' Hr'; apply Hroots, Hrs; by right|]. simpl.
  exists m. split; [done|]. assert (Some m ∈ fh_roots s) as [k' Hk']%list_elem_of_lookup by (by apply Hrs).
  split; [by exists k'|]. exists (fn_data w). split; [by apply contents_Some|].
  intros n' v (x' & Hx' & <-)%contents_Some_inv.
  destruct (root_above _ _ _ _ Hs Hx') as (r' & y' & (j & Hj%list_elem_of_lookup_2) & Hy' & Hc).
  apply (swo_negtrans _ (fn_data y')); [|done]. apply Hrs in Hj as [->|Hj]; [by simplify_eq|by apply (Hall r')].
Qed.

(** ** The invariant *)

(** [remove] does not decrement the size: it is above the number of nodes. *)
Record fh_ok s : Prop := FhOk {
  ok_at : ∃ h, fh_at compare h ∅ None ∅ s;
  ok_size : (Z.of_nat (size (fh_nodes s)) ≤ fh_size s)%Z;
  ok_min : match fh_min s with
           | None => fh_nodes s = ∅
           | Some None => True
           | Some (Some m) => largest_root m s
           end;
}.

Lemma fh_ok_new : fh_ok fibonacci_heap_ctor.
Proof.
  split; [exists (λ _, 0)|done|done].
  split; simpl; try done; intros *; by rewrite lookup_empty.
Qed.

Lemma fh_ok_nomin h s :
  fh_at compare h ∅ None ∅ s → (Z.of_nat (size (fh_nodes s)) ≤ fh_size s)%Z → fh_ok (fh_set_min None s).
Proof. intros Hs Hsz. split; [|done|done]. exists h. by destruct Hs. Qed.

Lemma contents_size s : size (fh_contents s) = size (fh_nodes s).
Proof. apply map_size_fmap. Qed.

Lemma contents_empty s : fh_contents s = ∅ ↔ fh_nodes s = ∅.
Proof. apply fmap_empty_iff. Qed.

Lemma need_min_spec s :
  fh_ok s → fh_contents s ≠ ∅ →
  ∃ m s', fh_need_min compare s = Some s' ∧ fh_ok s' ∧ fh_min s' = Some (Some m) ∧ largest_root m s' ∧
    fh_contents s' = fh_contents s ∧ fh_size s' = fh_size s.
Proof.
  intros Hok Hne. pose proof Hok as [[h Hs] Hsz Hmin]. unfold fh_need_min. rewrite contents_empty in Hne.
  destruct (fh_min s) as [[m|]|] eqn:Em; simpl; [by exists m, s| |done].
  destruct (find_min_spec h s Hs Hne) as (m & -> & Hl).
  { intros E. rewrite E in Hsz. apply Hne, map_size_empty_inv. lia. }
  eexists m, _. split_and!; [done| |done|done|done|done]. split; [exists h; by destruct Hs|done|done].
Qed.

(** ** The operations *)
Lemma set_min_contents v s : fh_contents (fh_set_min v s) = fh_contents s.
Proof. done. Qed.
Lemma with_contents n x s : fh_contents (fh_with n x s) = <[n := fn_data x]> (fh_contents s).
Proof. apply fmap_insert. Qed.

Lemma push_spec d s :
  fh_ok s →
  ∃ n s', fh_push compare d s = Ret (n, s') ∧ fh_ok s' ∧ fh_contents s !! n = None ∧
    fh_contents s' = <[n := d]> (fh_contents s) ∧ fh_size s' = (fh_size s + 1)%Z.
Proof.
  intros [[h Hs] Hsz _]. unfold fh_push. set (n := fresh _).
  assert (Hn : fh_nodes s !! n = None) by (apply not_elem_of_dom, is_fresh).
  pose proof (fh_at_new h ∅ s n (fh_node_ctor d) Hs Hn eq_refl) as Hnew.
  set (s0 := FibonacciHeap _ _ (fh_size s + 1)%Z _).
  assert (Hs0 : fh_at compare h ∅ None {[n]} s0) by (by destruct Hnew).
  destruct (fh_add_root_spec compare n s0 h ∅ _ Hs0) as (s' & h' & -> & Hs' & [Hc Hz Hm] & _); [set_solver|]. simpl.
  rewrite difference_diag_L in Hs'. exists n, (fh_set_min None s').
  assert (Hc' : fh_contents s' = <[n := d]> (fh_contents s)) by (rewrite Hc; apply fmap_insert).
  split_and!; [done| |by apply contents_None|done|by simpl; rewrite Hz].
  eapply fh_ok_nomin; [done|]. rewrite Hz, <-contents_size, Hc', map_size_insert_None, contents_size by (by apply contents_None).
  simpl. lia.
Qed.

(** A node taken out: the rest of [remove], and of [pop]. *)
Lemma take_out_spec h X s n x :
  fh_at compare h X None {[n]} s → X ⊆ {[n]} → fh_nodes s !! n = Some x →
  ∃ s1 h', add_children compare n 0 (fn_rank x) s = Ret s1 ∧ fh_size s1 = fh_size s ∧
    ∀ z m, ∃ s2, fh_delete n (FibonacciHeap (fh_nodes s1) (fh_roots s1) z m) = Some s2 ∧
      fh_at compare h' ∅ None ∅ s2 ∧ fh_contents s2 = delete n (fh_contents s) ∧ fh_size s2 = z ∧ fh_min s2 = m.
Proof.
  intros Hs HX Hn. destruct (scatter_spec _ _ _ _ _ Hs HX Hn) as (s' & h' & Hrun & Hs' & Hn' & Hc & Hsz & Hm).
  eexists _, h'. split_and!; [exact Hrun|done|]. intros z m. unfold fh_delete. simpl.
  rewrite lookup_insert_eq. simpl. eexists. split_and!; [done| | |done|done].
  - rewrite delete_insert_id by done. by destruct Hs'.
  - unfold fh_contents at 1. simpl. by rewrite delete_insert_id.
Qed.

Lemma delete_size n s s' v :
  fh_contents s !! n = Some v → fh_contents s' = delete n (fh_contents s) →
  size (fh_nodes s) = S (size (fh_nodes s')).
Proof.
  intros Hn Hc. rewrite <-!contents_size, Hc, map_size_delete_Some by (by eexists).
  assert (size (fh_contents s) ≠ 0) by (apply (map_size_ne_0_lookup_2 _ n); by eexists). lia.
Qed.

Lemma remove_spec n s :
  fh_ok s → is_Some (fh_contents s !! n) →
  ∃ s', fh_remove compare n s = Ret s' ∧ fh_ok s' ∧ fh_contents s' = delete n (fh_contents s) ∧
    fh_size s' = fh_size s.
Proof.
  intros [[h Hs] Hsz _] [v Hv]. destruct (contents_Some_inv _ _ _ Hv) as (x & Hn & _). unfold fh_remove.
  destruct (detach_spec h ∅ s n x Hs Hn) as (s1 & h1 & -> & Hs1 & [Hc1 Hz1 _] & Hn1). simpl. rewrite Hn1. simpl.
  destruct (take_out_spec _ _ _ _ _ Hs1 ltac:(set_solver) Hn1) as (s2 & h2 & -> & Hz2 & Hdel). simpl.
  destruct (Hdel (fh_size s2) (Some None)) as (s' & Hrun & Hs' & Hc & Hz & Hm).
  exists s'. unfold fh_set_min. rewrite Hrun. rewrite Hc1 in Hc. split_and!; [done| |done|by rewrite Hz, Hz2].
  split; [by eexists| |by rewrite Hm]. pose proof (delete_size _ _ _ _ Hv Hc). rewrite Hz, Hz2, Hz1. lia.
Qed.

Lemma pop_spec s :
  fh_ok s → fh_contents s ≠ ∅ →
  ∃ n v s', fh_pop compare s = Ret s' ∧ fh_ok s' ∧ fh_contents s !! n = Some v ∧ pq_largest compare (fh_contents s) v ∧
    fh_contents s' = delete n (fh_contents s) ∧ fh_size s' = (fh_size s - 1)%Z ∧ fst <$> fh_top compare s = Some v.
Proof.
  intros Hok Hne. destruct (need_min_spec s Hok Hne) as (n & s0 & Hrun & [[h Hs] Hsz _] & Hm & Hl & Hc0 & Hz0).
  unfold fh_pop, fh_top. rewrite Hrun. simpl. rewrite Hm. simpl. destruct Hl as [[k Hk] (v & Hv & Hlarge)].
  destruct (contents_Some_inv _ _ _ Hv) as (x & Hn & Hd). rewrite Hn. simpl.
  destruct (fa_slot _ _ _ _ _ _ Hs k n Hk) as (_ & x' & Hn' & _ & Hr). simplify_eq. unfold fh_put_root.
  rewrite decide_True by (by eapply lookup_lt_Some). simpl. pose proof (fh_at_unroot _ _ _ _ _ _ _ _ Hs Hk) as Hu.
  replace ({[n]} ∪ ∅) with ({[n]} : gset nat) in Hu by set_solver.
  destruct (take_out_spec _ _ _ _ _ Hu ltac:(set_solver) Hn) as (s2 & h2 & -> & Hz2 & Hdel). simpl.
  destruct (Hdel (fh_size s2 - 1)%Z (fh_min s2)) as (s' & -> & Hs' & Hc & Hz & _). simpl. simpl in Hz2.
  change (fh_contents (fh_set_roots _ s0)) with (fh_contents s0) in Hc.
  exists n, (fn_data x), (fh_set_min None s'). rewrite <-Hc0. split_and!; try done.
  - eapply fh_ok_nomin; [done|]. pose proof (delete_size _ _ _ _ Hv Hc). rewrite Hz, Hz2. lia.
  - simpl. by rewrite Hz, Hz2, Hz0.
Qed.

(** *** Changing a priority *)
Lemma set_data_run n d s x :
  fh_nodes s !! n = Some x → fh_alter (fn_set_data d) n s = Some (fh_with n (fn_set_data d x) s).
Proof. intros Hn. unfold fh_alter. by rewrite Hn. Qed.

Lemma child_irrefl h X D s n x :
  fh_at compare h X None D s → fh_nodes s !! n = Some x → n ∉ fn_children x.
Proof.
  intros Hs Hn Hc. destruct (fa_elem _ _ _ _ _ _ _ _ _ Hs Hn Hc) as (HnD & y & Hy & Hp).
  destruct (fa_parent _ _ _ _ _ _ Hs n y n Hy HnD Hp). lia.
Qed.

(** Nothing has to be moved. *)
Lemma set_data_ordered h s n x d :
  fh_at compare h ∅ None ∅ s → fh_nodes s !! n = Some x →
  (∀ c y, c ∈ fn_children x → fh_nodes s !! c = Some y → compare d (fn_data y) = false) →
  (∀ p y, fn_parent x = Some p → fh_nodes s !! p = Some y → compare (fn_data y) d = false) →
  fh_at compare h ∅ None ∅ (fh_with n (fn_set_data d x) s).
Proof.
  intros Hs Hn Hch Hpar. eapply fh_at_exempt; [by apply fh_at_set_data|].
  intros m y c z Hm Hc Hz _ _ Hor. simpl in Hm, Hz.
  assert (Hm' : ∃ y', fh_nodes s !! m = Some y' ∧ fn_children y' = fn_children y).
  { apply lookup_insert_Some in Hm as [[<- <-]|[_ Hm]]; [by exists x|by exists y]. }
  destruct Hm' as (y' & Hm' & E). rewrite <-E in Hc. destruct (fa_elem _ _ _ _ _ _ _ _ _ Hs Hm' Hc) as (_ & w & Hw & Hwp).
  assert (c ≠ m) by (intros ->; exact (child_irrefl _ _ _ _ _ _ Hs Hm' Hc)). destruct (decide (m = n)) as [->|Hmn].
  - rewrite lookup_insert_eq in Hm. injection Hm as <-. rewrite lookup_insert_ne in Hz by done. simplify_eq. by eapply Hch.
  - assert (c = n) as -> by set_solver. rewrite lookup_insert_eq in Hz. injection Hz as <-.
    rewrite lookup_insert_ne in Hm by done. simplify_eq. by apply (Hpar m y).
Qed.

Lemma changed_ok h s s' n d v :
  fh_at compare h ∅ None ∅ s' → fh_contents s' = <[n := d]> (fh_contents s) → fh_size s' = fh_size s →
  fh_contents s !! n = Some v → (Z.of_nat (size (fh_nodes s)) ≤ fh_size s)%Z → fh_ok (fh_set_min None s').
Proof.
  intros Hs Hc Hz Hv Hsz. eapply fh_ok_nomin; [done|].
  by rewrite Hz, <-contents_size, Hc, map_size_insert_Some, contents_size by done.
Qed.

Lemma child_above_spec d s cs :
  (∀ c, c ∈ cs → ∃ y, fh_nodes s !! c = Some y) →
  ∃ b, child_above compare d cs s = Some b ∧
    (b = false → ∀ c y, c ∈ cs → fh_nodes s !! c = Some y → compare d (fn_data y) = false).
Proof.
  induction cs as [|c cs IH]; intros Hcs; simpl; [exists false; split; [done|]; by intros _ c y ?%elem_of_nil|].
  destruct (Hcs c) as [y Hy]; [by apply elem_of_cons; left|]. rewrite Hy. simpl.
  destruct (compare d (fn_data y)) eqn:E; [by exists true|].
  destruct IH as (b & -> & Hb); [intros c' Hc'; apply Hcs; by apply elem_of_cons; right|]. exists b. split; [done|].
  intros Hf c' y' [->|Hc']%elem_of_cons Hy'; [by simplify_eq|by apply (Hb Hf c')].
Qed.

Lemma isolate_spec h s n x :
  fh_at compare h {[n]} None ∅ s → fh_nodes s !! n = Some x →
  ∃ s' h', fh_isolate compare n (fn_rank x) s = Ret s' ∧ fh_at compare h' ∅ None ∅ s' ∧ fh_kept s s'.
Proof.
  intros Hs Hn. unfold fh_isolate.
  destruct (detach_spec h {[n]} s n x Hs Hn) as (s1 & h1 & -> & Hs1 & [Hc1 Hz1 Hm1] & Hn1). simpl.
  destruct (scatter_spec _ _ _ _ _ Hs1 ltac:(set_solver) Hn1) as (s2 & h2 & -> & Hs2 & Hn2 & Hc2 & Hz2 & Hm2). simpl.
  unfold fh_alter. simpl. rewrite lookup_insert_eq. simpl. rewrite insert_insert_eq.
  pose proof (fh_at_new h2 ∅ s2 n (fn_remove_all x) Hs2 Hn2 eq_refl) as Hnew.
  destruct (fh_add_root_spec compare n _ _ _ _ Hnew) as (s' & h' & Hrun & Hs' & [Hc Hz Hm] & _); [set_solver|].
  rewrite difference_diag_L in Hs'. exists s', h'. split_and!; [exact Hrun|done|].
  split; [|by rewrite Hz; simpl; rewrite Hz2|by rewrite Hm; simpl; rewrite Hm2].
  rewrite Hc, with_contents, Hc2, Hc1, insert_delete_eq. simpl. apply insert_id. by apply contents_Some.
Qed.

Lemma decrease_spec n d s v :
  fh_ok s → fh_contents s !! n = Some v → compare v d = false →
  ∃ s', fh_decrease compare n d s = Ret s' ∧ fh_ok s' ∧ fh_contents s' = <[n := d]> (fh_contents s) ∧
    fh_size s' = fh_size s.
Proof.
  intros [[h Hs] Hsz _] Hv Hcmp. destruct (contents_Some_inv _ _ _ Hv) as (x & Hn & <-). unfold fh_decrease.
  rewrite (set_data_run n d s x Hn). simpl. rewrite lookup_insert_eq. simpl. set (x1 := fn_set_data d x).
  pose proof (fh_at_set_data h s n x d Hs Hn) as Hs1. fold x1 in Hs1.
  assert (Hc1 : fh_contents (fh_with n x1 s) = <[n := d]> (fh_contents s)) by apply with_contents.
  destruct (child_above_spec d (fh_with n x1 s) (fn_children x)) as (b & -> & Hb).
  { intros c Hc. apply (fa_elem _ _ _ _ _ _ n x1 c Hs1) in Hc as (_ & y & Hy & _); [by exists y|apply lookup_insert_eq]. }
  destruct b; simpl.
  - destruct (isolate_spec h (fh_with n x1 s) n x1 Hs1) as (s' & h' & Hrun & Hs' & [Hc Hz Hm]); [apply lookup_insert_eq|].
    change (fn_rank x) with (fn_rank x1). rewrite Hrun. simpl. exists (fh_set_min None s').
    split_and!; [done|by eapply changed_ok; [|rewrite Hc| | |]|by rewrite set_min_contents, Hc|done].
  - eexists. split_and!; [done| |done|done]. eapply changed_ok; [|done..].
    apply set_data_ordered; [done|done| |].
    + intros c y Hc Hy. apply (Hb eq_refl c y Hc). simpl. rewrite lookup_insert_ne; [done|]. intros <-.
      exact (child_irrefl _ _ _ _ _ _ Hs Hn Hc).
    + intros p y Hp Hy. apply (swo_negtrans _ (fn_data x)); [|done].
      destruct (fa_parent _ _ _ _ _ _ Hs n x p Hn ltac:(set_solver) Hp) as (_ & y' & i & Hy' & Hi%list_elem_of_lookup_2).
      rewrite Hy in Hy'. injection Hy' as <-. by apply (fa_order _ _ _ _ _ _ Hs p y n x).
Qed.

(** A node above its parent is cut off and becomes a root. *)
Lemma raise_spec h s n x p :
  fh_at compare h {[n]} None ∅ s → fh_nodes s !! n = Some x → fn_parent x = Some p →
  (∀ c y, c ∈ fn_children x → fh_nodes s !! c = Some y → compare (fn_data x) (fn_data y) = false) →
  ∃ s1 s' h', fh_cut compare n s = Ret s1 ∧ fh_add_root compare n s1 = Ret s' ∧
    fh_at compare h' ∅ None ∅ s' ∧ fh_kept s s'.
Proof.
  intros Hs Hn Hp Hch. unfold fh_cut.
  destruct (cut_fuel_spec compare (size (fh_nodes s)) n s h {[n]} ∅ x p) as (s1 & h1 & Hrun & Hs1 & Hk1 & Hd1);
    [by eapply fh_at_lost|set_solver|done|done|set_solver| |].
  { rewrite difference_empty_L. by rewrite size_dom. }
  assert (Hn1 : fh_nodes s1 !! n = Some x) by (by rewrite Hd1 by set_solver).
  rewrite union_empty_r_L in Hs1. assert (Hs2 : fh_at compare h1 ∅ None {[n]} s1).
  { eapply fh_at_exempt; [done|]. intros m z c y Hm Hc Hy _ _ Hor.
    destruct (fa_elem _ _ _ _ _ _ _ _ _ Hs1 Hm Hc) as (HcD & _). assert (m = n) as -> by set_solver. simplify_eq.
    pose proof (contents_Some _ _ _ Hy) as Hcy. rewrite (fk_contents _ _ Hk1) in Hcy.
    apply contents_Some_inv in Hcy as (y' & Hy' & <-). by eapply Hch. }
  destruct (fh_add_root_spec compare n _ _ _ _ Hs2) as (s' & h' & Hadd & Hs' & Hk' & _); [set_solver|].
  rewrite difference_diag_L in Hs'. exists s1, s', h'. split_and!; [done..|by etrans].
Qed.

Lemma increase_spec n d s v :
  fh_ok s → fh_contents s !! n = Some v → compare d v = false →
  ∃ s', fh_increase compare n d s = Ret s' ∧ fh_ok s' ∧ fh_contents s' = <[n := d]> (fh_contents s) ∧
    fh_size s' = fh_size s.
Proof.
  intros [[h Hs] Hsz _] Hv Hcmp. destruct (contents_Some_inv _ _ _ Hv) as (x & Hn & <-). unfold fh_increase.
  rewrite (set_data_run n d s x Hn). simpl. rewrite lookup_insert_eq. simpl. set (x1 := fn_set_data d x).
  pose proof (fh_at_set_data h s n x d Hs Hn) as Hs1. fold x1 in Hs1.
  assert (Hc1 : fh_contents (fh_with n x1 s) = <[n := d]> (fh_contents s)) by apply with_contents.
  assert (Hch : ∀ c y, c ∈ fn_children x → fh_nodes s !! c = Some y → compare d (fn_data y) = false).
  { intros c y Hc Hy. apply (swo_negtrans _ (fn_data x)); [done|]. by apply (fa_order _ _ _ _ _ _ Hs n x c y). }
  assert (Hkeep : fh_at compare h ∅ None ∅ (fh_with n x1 s) → fh_ok (fh_set_min None (fh_with n x1 s)))
    by (intros; by eapply changed_ok).
  destruct (fn_parent x) as [p|] eqn:Hp; simpl.
  2:{ eexists. split_and!; [done| |done|done]. apply Hkeep, set_data_ordered; [done..|]. intros p y Hp'. congruence. }
  destruct (fa_parent _ _ _ _ _ _ Hs n x p Hn ltac:(set_solver) Hp) as (Hh & y & i & Hy & Hi).
  rewrite lookup_insert_ne by (by intros <-; lia). rewrite Hy. simpl.
  destruct (compare (fn_data y) d) eqn:Hcd; simpl.
  2:{ eexists. split_and!; [done| |done|done]. apply Hkeep, set_data_ordered; [done..|].
      intros p' y' Hp' Hy'. by simplify_eq. }
  destruct (raise_spec h (fh_with n x1 s) n x1 p Hs1) as (s1 & s' & h' & -> & Hadd & Hs' & [Hc Hz Hm]);
    [apply lookup_insert_eq|done| |].
  { intros c z Hc Hz. apply (Hch c z Hc). simpl in Hz. rewrite lookup_insert_ne in Hz; [done|].
    intros <-. exact (child_irrefl _ _ _ _ _ _ Hs Hn Hc). }
  simpl. rewrite Hadd. simpl. exists (fh_set_min None s').
  split_and!; [done|by eapply changed_ok; [|rewrite Hc| | |]|by rewrite set_min_contents, Hc|done].
Qed.

Lemma change_spec n d s :
  fh_ok s → is_Some (fh_contents s !! n) →
  ∃ s', fh_change compare n d s = Ret s' ∧ fh_ok s' ∧ fh_contents s' = <[n := d]> (fh_contents s) ∧
    fh_size s' = fh_size s.
Proof.
  intros Hok [v Hv]. destruct (contents_Some_inv _ _ _ Hv) as (x & Hn & Hd). unfold fh_change. rewrite Hn. simpl.
  rewrite Hd. destruct (compare v d) eqn:E; [|by eapply decrease_spec].
  eapply increase_spec; [done..|by apply swo_asym].
Qed.

Lemma change_top_spec d s :
  fh_ok s → fh_contents s ≠ ∅ →
  ∃ n s', fh_change_top compare d s = Ret s' ∧ fh_ok s' ∧ fh_contents s' = <[n := d]> (fh_contents s) ∧
    (∃ v, fh_contents s !! n = Some v ∧ pq_largest compare (fh_contents s) v) ∧ fh_size s' = fh_size s.
Proof.
  intros Hok Hne. destruct (need_min_spec s Hok Hne) as (n & s0 & Hrun & Hok0 & Hm & (_ & v & Hv & Hl) & Hc & Hz).
  unfold fh_change_top. rewrite Hrun. simpl. rewrite Hm. simpl. rewrite Hc in Hl.
  destruct (change_spec n d s0 Hok0) as (s' & -> & Hok' & Hc' & Hz'); [by eexists|].
  rewrite Hc in Hc', Hv. exists n, s'. split_and!; [done..|by exists v|by rewrite Hz'].
Qed.

Lemma top_spec s :
  fh_ok s → fh_contents s ≠ ∅ →
  ∃ n v s', fh_top compare s = Some (v, s') ∧ fh_contents s !! n = Some v ∧ pq_largest compare (fh_contents s) v ∧
    fh_ok s' ∧ fh_contents s' = fh_contents s ∧ fh_size s' = fh_size s.
Proof.
  intros Hok Hne. destruct (need_min_spec s Hok Hne) as (n & s' & Hrun & Hok' & Hm & (_ & v & Hv & Hl) & Hc & Hz).
  destruct (contents_Some_inv _ _ _ Hv) as (x & Hn & <-). rewrite Hc in Hv, Hl.
  unfold fh_top. rewrite Hrun. simpl. rewrite Hm. simpl. rewrite Hn. simpl. eauto 10.
Qed.

(** ** The interface *)
Definition fh_run op s : outcome (fibonacci_heap T) :=
  match op with
  | PqPush v => snd <$> fh_push compare v s
  | PqPop => fh_pop compare s
  | PqIncrease p v => fh_increase compare p v s
  | PqDecrease p v => fh_decrease compare p v s
  | PqChange p v => fh_change compare p v s
  | PqRemove p => fh_remove compare p s
  end.

(** [increase] and [decrease] rely on their names. *)
Definition fh_allowed M op : Prop :=
  match op with
  | PqIncrease p v => ∃ w, M !! p = Some w ∧ compare v w = false
  | PqDecrease p v => ∃ w, M !! p = Some w ∧ compare w v = false
  | _ => pq_valid M op
  end.

(** The size counts the pushes and the pops, but not the removals. *)
Definition fh_size_after op (z : Z) : Z :=
  match op with PqPush _ => z + 1 | PqPop => z - 1 | _ => z end.

Lemma fh_run_ok op s :
  fh_ok s → fh_allowed (fh_contents s) op →
  ∃ s', fh_run op s = Ret s' ∧ fh_ok s' ∧ pq_step compare (fh_contents s) op (fh_contents s') ∧
    fh_size s' = fh_size_after op (fh_size s).
Proof.
  intros Hok Hv. destruct op as [v| |p v|p v|p v|p]; simpl in *.
  - destruct (push_spec v s Hok) as (n & s' & -> & Hok' & Hn & Hc & Hz). exists s'. split_and!; [done..| |done].
    rewrite Hc. by constructor.
  - destruct (pop_spec s Hok Hv) as (n & v & s' & -> & Hok' & Hn & Hl & Hc & Hz & _). exists s'. split_and!; [done..| |done].
    rewrite Hc. by econstructor.
  - destruct Hv as (w & Hw & Hcmp). destruct (increase_spec p v s w Hok Hw Hcmp) as (s' & -> & Hok' & Hc & Hz).
    exists s'. split_and!; [done..| |done]. rewrite Hc. constructor.
  - destruct Hv as (w & Hw & Hcmp). destruct (decrease_spec p v s w Hok Hw Hcmp) as (s' & -> & Hok' & Hc & Hz).
    exists s'. split_and!; [done..| |done]. rewrite Hc. constructor.
  - destruct (change_spec p v s Hok Hv) as (s' & -> & Hok' & Hc & Hz).
    exists s'. split_and!; [done..| |done]. rewrite Hc. constructor.
  - destruct (remove_spec p s Hok Hv) as (s' & -> & Hok' & Hc & Hz).
    exists s'. split_and!; [done..| |done]. rewrite Hc. constructor.
Qed.

#[local] Instance fibonacci_queue : PriorityQueue (fibonacci_heap T) T := {|
  pq_new := fibonacci_heap_ctor;
  pq_run := fh_run;
  pq_top s := fst <$> fh_top compare s;
|}.

#[refine] Definition fibonacci_queue_spec : PriorityQueueSpec (fibonacci_heap T) T compare := {|
  pq_inv := fh_ok;
  pq_contents := fh_contents;
  pq_allowed := fh_allowed;
|}.
Proof.
  - by intros M op [->|[v ->]].
  - split; [apply fh_ok_new|apply fmap_empty].
  - intros op s Hok Hv. destruct (fh_run_ok op s Hok Hv) as (s' & ? & ? & ? & _). by exists s'.
  - intros s Hok Hne. destruct (pop_spec s Hok Hne) as (n & v & s' & ? & _ & ? & ? & ? & _ & ?). by exists n, v, s'.
Defined.

(** ** Ranks *)
Fixpoint fib (n : nat) : nat :=
  match n with 0 => 0 | S n' => match n' with 0 => 1 | S n'' => fib n' + fib n'' end end.

Lemma fib_step n : fib (S (S n)) = fib (S n) + fib n.
Proof. done. Qed.
Lemma fib_mono n k : n ≤ k → fib n ≤ fib k.
Proof.
  intros H. induction H as [|k H IH]; [done|]. destruct k as [|k]; [assert (n = 0) as -> by lia; simpl; lia|].
  rewrite fib_step. lia.
Qed.

(** The least sizes of the subtrees of [k] children by age. *)
Fixpoint fib_sum (k : nat) : nat := match k with 0 => 0 | S k => fib_sum k + fib (k - 1 + 2) end.
Lemma fib_sum_spec k : S (fib_sum k) = fib (k + 2).
Proof.
  induction k as [|k IH]; [done|]. destruct k as [|k]; [done|].
  assert (fib (S (S k) + 2) = fib (S k + 2) + fib (S k - 1 + 2)) as ->.
  { replace (S (S k) + 2) with (S (S (k + 2))) by lia. rewrite fib_step. f_equal; f_equal; lia. }
  rewrite <-IH. done.
Qed.

(** [n] has at least [k] nodes below it, itself included. *)
Definition has_below s (n k : nat) : Prop :=
  ∃ E : gset nat, E ⊆ dom (fh_nodes s) ∧ (∀ a, a ∈ E → rtc (fh_up s) a n) ∧ k ≤ size E.

Lemma below_children h s n (l : list nat) :
  fh_at compare h ∅ None ∅ s → NoDup l → (∀ c, c ∈ l → fh_up s c n) →
  (∀ i c, l !! i = Some c → has_below s c (fib (i - 1 + 2))) →
  ∃ E : gset nat, E ⊆ dom (fh_nodes s) ∧ (∀ a, a ∈ E → ∃ c, c ∈ l ∧ rtc (fh_up s) a c) ∧ fib_sum (length l) ≤ size E.
Proof.
  intros Hs. induction l as [|c l IH] using rev_ind; intros Hnd Hup Hb; [exists ∅; split_and!; [set_solver..|done]|].
  apply NoDup_app in Hnd as (Hnd & Hcl & _).
  destruct IH as (E & HE & Hin & Hsz); [done|intros d Hd; apply Hup, elem_of_app; by left| |].
  { intros i d Hi. apply Hb. by apply lookup_app_l_Some. }
  destruct (Hb (length l) c) as (F & HF & HinF & HszF); [by apply list_lookup_middle|].
  exists (E ∪ F). split_and!; [set_solver| |].
  - intros a [Ha|Ha]%elem_of_union.
    + destruct (Hin a Ha) as (d & Hd & ?). exists d. split; [apply elem_of_app; by left|done].
    + exists c. split; [apply elem_of_app; right; by apply list_elem_of_singleton|by apply HinF].
  - rewrite size_union, length_app, Nat.add_1_r; [simpl; lia|]. intros a HaE HaF.
    destruct (Hin a HaE) as (d & Hd & Had).
    assert (d = c) as -> by (eapply (up_disjoint h s n); [done|apply Hup, elem_of_app; by left| |done|by apply HinF];
      apply Hup, elem_of_app; right; by apply list_elem_of_singleton).
    apply (Hcl c Hd). by apply list_elem_of_singleton.
Qed.

Lemma rank_below h s n x :
  fh_at compare h ∅ None ∅ s → fh_nodes s !! n = Some x → has_below s n (fib (fn_rank x + 2)).
Proof.
  intros Hs. remember (h n) as k eqn:Ek. revert n x Ek. induction k as [k IH] using lt_wf_ind. intros n x -> Hn.
  destruct (fa_aged _ _ _ _ _ _ Hs n x Hn) as (l & Hl & Ha).
  assert (Hkid : ∀ c, c ∈ l → ∃ y, fh_nodes s !! c = Some y ∧ fn_parent y = Some n ∧ h c < h n ∧ (fn_lost y ≤ 1)%Z).
  { intros c Hc. rewrite Hl in Hc. destruct (fa_elem _ _ _ _ _ _ _ _ _ Hs Hn Hc) as (HcD & y & Hy & Hp).
    exists y. split_and!; [done..| |].
    - by destruct (fa_parent _ _ _ _ _ _ Hs c y n Hy HcD Hp).
    - by apply (fa_lost _ _ _ _ _ _ Hs c y Hy). }
  destruct (below_children h s n l Hs) as (E & HE & Hin & Hsz).
  - rewrite Hl. by eapply fa_children_NoDup.
  - intros c Hc. destruct (Hkid c Hc) as (y & Hy & Hp & _). by exists y.
  - intros i c Hi. destruct (Hkid c) as (y & Hy & _ & Hh & Hlost); [by eapply list_elem_of_lookup_2|].
    specialize (Ha i c y Hi Hy). destruct (IH (h c) Hh c y eq_refl Hy) as (F & HF & HinF & HszF).
    exists F. split_and!; [done..|]. etrans; [|done]. apply fib_mono. lia.
  - assert (HnE : n ∉ E).
    { intros HnE. destruct (Hin n HnE) as (c & Hc & Hnc). destruct (Hkid c Hc) as (_ & _ & _ & Hh & _).
      pose proof (up_height h s n c Hs Hnc). lia. }
    exists ({[n]} ∪ E). split_and!.
    + apply elem_of_dom_2 in Hn. set_solver.
    + intros a [->%elem_of_singleton|Ha']%elem_of_union; [done|]. destruct (Hin a Ha') as (c & Hc & Hac).
      destruct (Hkid c Hc) as (y & Hy & Hp & _). eapply rtc_r; [done|]. by exists y.
    + rewrite size_union, size_singleton by set_solver. unfold fn_rank. rewrite <-Hl. pose proof (fib_sum_spec (length l)). lia.
Qed.

(** ** An empty heap *)
Lemma no_first_root (rs : list (option nat)) : (∀ r, Some r ∉ rs) → first_root rs = None.
Proof.
  induction rs as [|[r|] rs IH]; intros H; [done|by destruct (H r); apply elem_of_cons; left|]. apply IH.
  intros r Hr. apply (H r). by apply elem_of_cons; right.
Qed.

Lemma find_min_no_nodes s :
  fh_ok s → fh_contents s = ∅ → fh_size s ≠ 0%Z → fh_find_min compare s = None.
Proof.
  intros [[h Hs] _ _] Hc Hz. apply contents_empty in Hc. unfold fh_find_min. rewrite decide_False by done.
  rewrite no_first_root; [done|]. intros r [k Hk]%list_elem_of_lookup.
  destruct (fa_slot _ _ _ _ _ _ Hs k r Hk) as (_ & x & Hx & _). by rewrite Hc, lookup_empty in Hx.
Qed.

Lemma need_min_no_nodes s :
  fh_ok s → fh_contents s = ∅ → fh_size s ≠ 0%Z → fh_need_min compare s = None.
Proof.
  intros Hok Hc Hz. unfold fh_need_min. destruct (fh_min s) as [[m|]|] eqn:Em; simpl; [|by apply find_min_no_nodes|done].
  destruct Hok as [_ _ Hm]. rewrite Em in Hm. destruct Hm as (_ & v & Hv & _). by rewrite Hc, lookup_empty in Hv.
Qed.

(** How far the size is from the number of elements. *)
Definition fh_drift s : Z := (fh_size s - Z.of_nat (size (fh_contents s)))%Z.

Lemma drift_step op s s' :
  fh_allowed (fh_contents s) op → pq_step compare (fh_contents s) op (fh_contents s') →
  fh_size s' = fh_size_after op (fh_size s) →
  fh_drift s' = (fh_drift s + match op with PqRemove _ => 1 | _ => 0 end)%Z.
Proof.
  intros Ha Hstep Hz. unfold fh_drift. rewrite Hz.
  assert (Hdel : ∀ p, is_Some (fh_contents s !! p) →
    Z.of_nat (size (delete p (fh_contents s))) = (Z.of_nat (size (fh_contents s)) - 1)%Z).
  { intros p [v Hv]. rewrite map_size_delete_Some by (by eexists).
    assert (size (fh_contents s) ≠ 0) by (apply (map_size_ne_0_lookup_2 _ p); by eexists). lia. }
  inversion Hstep as [p v Hp|p v Hp Hl|p v|p v|p v|p]; subst; simpl in *.
  - rewrite map_size_insert_None by done. lia.
  - rewrite Hdel by (by eexists). lia.
  - destruct Ha as (w & Hw & _). rewrite map_size_insert_Some by (by eexists). lia.
  - destruct Ha as (w & Hw & _). rewrite map_size_insert_Some by (by eexists). lia.
  - rewrite map_size_insert_Some by done. lia.
  - rewrite Hdel by done. lia.
Qed.
End queue.

(** ** Sequences of operations

    What one gets from a new heap by operations and by asking for the top. *)
Inductive fh_reachable {T} (compare : T → T → bool) : fibonacci_heap T → Prop :=
  | fh_reach_new : fh_reachable compare fibonacci_heap_ctor
  | fh_reach_run op s s' :
      fh_reachable compare s → fh_allowed compare (fh_contents s) op → fh_run compare op s = Ret s' →
      fh_reachable compare s'
  | fh_reach_top v s s' :
      fh_reachable compare s → fh_top compare s = Some (v, s') → fh_reachable compare s'
  | fh_reach_change_top v s s' :
      fh_reachable compare s → fh_contents s ≠ ∅ → fh_change_top compare v s = Ret s' →
      fh_reachable compare s'.

Lemma fh_reachable_ok {T} (compare : T → T → bool) `{!StrictWeakOrder compare} s :
  fh_reachable compare s → fh_ok compare s.
Proof.
  induction 1 as [|op s s' _ IH Ha Hr|v s s' _ IH Ht|v s s' _ IH Hne Hr]; [apply fh_ok_new| | |].
  - destruct (fh_run_ok compare op s IH Ha) as (s1 & Hr1 & Hok & _). congruence.
  - destruct (decide (fh_nodes s = ∅)) as [He|He].
    + exfalso. unfold fh_top in Ht. destruct (fh_need_min compare s) as [s0|] eqn:Hm; [|done]. simpl in Ht.
      assert (fh_nodes s0 = ∅) as Hs0.
      { unfold fh_need_min, fh_find_min in Hm. destruct (fh_min s) as [[m|]|]; simplify_eq/=; [done|].
        revert Hm. case_decide; [by intros [= <-]|]. destruct (first_root (fh_roots s)) as [[m rs]|]; [|done].
        simpl. destruct (better_root compare m rs s); [|done]. simpl. by intros [= <-]. }
      destruct (mjoin (fh_min s0)) as [n|]; [|done]. simpl in Ht. by rewrite Hs0, lookup_empty in Ht.
    + destruct (top_spec compare s IH) as (n & w & s1 & Ht1 & _ & _ & Hok & _); [by rewrite contents_empty|].
      congruence.
  - destruct (change_top_spec compare v s IH Hne) as (n & s1 & Hr1 & Hok & _). congruence.
Qed.

(** The slots in use: the last one is behind the others. *)
Definition slots_used {T} (s : fibonacci_heap T) : nat := length (omap id (fh_roots s)).

Lemma last_slot (rs : list (option nat)) :
  omap id rs ≠ [] → ∃ k r, rs !! k = Some (Some r) ∧ length (omap id rs) ≤ S k.
Proof.
  induction rs as [|o rs IH] using rev_ind; [done|]. rewrite omap_app. intros Hne.
  assert (length (omap id rs) ≤ length rs) as Hl.
  { clear. induction rs as [|[]]; cbn in *; lia. }
  destruct o as [r|].
  - exists (length rs), r. rewrite list_lookup_middle, length_app by done. simpl. split; [done|lia].
  - simpl in *. rewrite app_nil_r in *. destruct (IH Hne) as (k & r & Hk & Hle).
    exists k, r. split; [by apply lookup_app_l_Some|done].
Qed.

(** ** Properties *)

(** C20: Every operation of the Fibonacci heap on handles which exist - where
    increase does not lower and decrease does not raise the priority - terminates,
    cascading cuts and repeated linking included, keeps the trees, indices, slots
    and counters consistent and in heap order, and does to the priorities what a
    priority queue does; only [remove] lets the size drift from the number of
    elements. As long as it has not, [empty] is right, and if there are elements
    [top] is a largest one, and changes nothing but the cached root. *)
Theorem fibonacci_heap_refinement {T} (compare : T → T → bool) op s :
  StrictWeakOrder compare → (s = fibonacci_heap_ctor ∨ fh_ok compare s) → fh_allowed compare (fh_contents s) op →
  ∃ s', fh_run compare op s = Ret s' ∧ fh_ok compare s' ∧
    pq_step compare (fh_contents s) op (fh_contents s') ∧
    fh_drift s' = (fh_drift s + match op with PqRemove _ => 1 | _ => 0 end)%Z ∧
    (fh_drift s' = 0%Z → fh_empty s' = true ↔ fh_contents s' = ∅) ∧
    (fh_contents s' ≠ ∅ → ∃ v s'', fh_top compare s' = Some (v, s'') ∧ pq_largest compare (fh_contents s') v ∧
      fh_ok compare s'' ∧ fh_contents s'' = fh_contents s' ∧ fh_size s'' = fh_size s').
Proof.
  intros Hswo Hs Ha. assert (Hok : fh_ok compare s) by (destruct Hs as [->|]; [apply fh_ok_new|done]).
  destruct (fh_run_ok compare op s Hok Ha) as (s' & Hrun & Hok' & Hstep & Hz).
  exists s'. split_and!; [done..|by eapply drift_step| |].
  - unfold fh_drift, fh_empty. intros Hd. rewrite bool_decide_eq_true, <-map_size_empty_iff. lia.
  - intros Hne. destruct (top_spec compare s' Hok' Hne) as (n & v & s'' & ? & _ & ?). eauto.
Qed.

(** C21: The bound that gives the heap its name holds after any sequence of
    operations on a new heap: a node of rank [k] has at least [fib (k + 2)] nodes
    in its tree, itself included, since a node that loses a second child is cut
    off. So a slot [k] in use means that there are at least [fib (k + 2)]
    elements, and when [u] slots are in use there are at least [fib (u + 1)]. *)
Theorem fibonacci_rank_bound {T} (compare : T → T → bool) s :
  StrictWeakOrder compare → fh_reachable compare s →
  (∀ n x, fh_nodes s !! n = Some x →
     has_below s n (fib (fn_rank x + 2)) ∧ fib (fn_rank x + 2) ≤ size (fh_contents s)) ∧
  (∀ k r, fh_roots s !! k = Some (Some r) → fib (k + 2) ≤ size (fh_contents s)) ∧
  (slots_used s ≠ 0 → fib (slots_used s + 1) ≤ size (fh_contents s)).
Proof.
  intros Hswo [[h Hs] _ _]%fh_reachable_ok; [|done].
  assert (∀ n x, fh_nodes s !! n = Some x →
     has_below s n (fib (fn_rank x + 2)) ∧ fib (fn_rank x + 2) ≤ size (fh_contents s)) as Hn.
  { intros n x Hn. pose proof (rank_below compare h s n x Hs Hn) as Hb. split; [done|].
    destruct Hb as (E & HE & _ & Hk). rewrite contents_size, <-size_dom. apply subseteq_size in HE. lia. }
  assert (∀ k r, fh_roots s !! k = Some (Some r) → fib (k + 2) ≤ size (fh_contents s)) as Hk.
  { intros k r Hk. destruct (fa_slot _ _ _ _ _ _ Hs k r Hk) as (_ & x & Hx & _ & <-). by apply (Hn r x). }
  split_and!; [done|done|]. unfold slots_used. intros Hu.
  destruct (last_slot (fh_roots s)) as (k & r & Hr & Hle); [by intros Hz; rewrite Hz in Hu|].
  apply Hk in Hr. etrans; [|exact Hr]. apply fib_mono. lia.
Qed.

(** [remove] does not decrement the size. After the only element was removed
    the heap has no nodes but says that it is not empty, and asking for the top,
    or popping, runs off the end of the roots. *)
Theorem fibonacci_remove_hazard {T} (compare : T → T → bool) s p v :
  StrictWeakOrder compare → fh_ok compare s → fh_contents s = {[p := v]} → fh_drift s = 0%Z →
  ∃ s', fh_remove compare p s = Ret s' ∧ fh_contents s' = ∅ ∧ fh_size s' = 1%Z ∧ fh_empty s' = false ∧
    fh_top compare s' = None ∧ fh_pop compare s' = UB.
Proof.
  intros Hswo Hok Hc Hd.
  destruct (remove_spec compare p s Hok) as (s' & Hrun & Hok' & Hc' & Hz); [rewrite Hc, lookup_singleton_eq; by eexists|].
  unfold fh_drift in Hd. rewrite Hc, map_size_singleton in Hd. rewrite Hc, delete_singleton_eq in Hc'.
  assert (Hz1 : fh_size s' = 1%Z) by lia. exists s'. split_and!; [done..|by unfold fh_empty; rewrite Hz1| |];
    unfold fh_top, fh_pop; by rewrite (need_min_no_nodes compare s') by (done || lia).
Qed.

(** The d-heap, the pairing heap and the Fibonacci heap sort alike: for a
    linear order, filling any of them and emptying it terminates and yields the
    sorted list. *)
Theorem heaps_sort_alike {T} (compare : T → T → bool) d vs :
  0 < d → StrictWeakOrder compare →
  (∀ v w, compare v w = false → compare w v = false → v = w) →
  ∃ ws, pq_sort (HP := d_heap_queue compare d) vs = Ret ws ∧
    pq_sort (HP := pairing_heap_queue compare) vs = Ret ws ∧
    pq_sort (HP := fibonacci_queue compare) vs = Ret ws ∧
    ws ≡ₚ vs ∧ StronglySorted (λ v w, compare v w = false) ws.
Proof.
  intros Hd Hswo Hanti. destruct (pq_sorts (HS := d_heap_queue_spec compare d Hd) vs) as (ws & H1 & Hp & Hs).
  exists ws. split_and!; [done| | |done..].
  - by apply (pq_sort_eq (HS := pairing_heap_queue_spec compare)).
  - by apply (pq_sort_eq (HS := fibonacci_queue_spec compare)).
Qed.

(** ** Witnesses *)
Definition fib_of (vs : list Z) : fibonacci_heap Z :=
  match pq_fill (HP := fibonacci_queue Zlt_b) vs fibonacci_heap_ctor with Ret h => h | _ => fibonacci_heap_ctor end.

Lemma fib_of_ok vs : fh_ok Zlt_b (fib_of vs).
Proof.
  destruct (pq_fill_spec (HS := fibonacci_queue_spec Zlt_b) vs fibonacci_heap_ctor) as (h & Hf & Hh & _);
    [apply fh_ok_new|]. unfold fib_of. by rewrite Hf.
Qed.

(** Ten elements, and the largest taken out: its trees are linked to one. *)
Definition demo_fib : fibonacci_heap Z :=
  match fh_pop Zlt_b (fib_of [5; 3; 4; 9; 1; 7; 2; 8; 6]%Z) with Ret h => h | _ => fibonacci_heap_ctor end.

Lemma demo_fib_ok : fh_ok Zlt_b demo_fib.
Proof.
  destruct (pop_spec Zlt_b _ (fib_of_ok [5; 3; 4; 9; 1; 7; 2; 8; 6]%Z)) as (n & v & h & Hp & Hok & _).
  { vm_compute. discriminate. }
  replace demo_fib with h; [exact Hok|]. unfold demo_fib. by rewrite Hp.
Qed.

Lemma fibonacci_heap_refinement_witness :
  fh_roots demo_fib = [None; None; None; Some 7] ∧
  ∃ s', fh_run Zlt_b (PqIncrease 1 100%Z) demo_fib = Ret s' ∧ fh_ok Zlt_b s' ∧
    pq_step Zlt_b (fh_contents demo_fib) (PqIncrease 1 100%Z) (fh_contents s') ∧
    fh_drift s' = (fh_drift demo_fib + 0)%Z ∧
    (fh_drift s' = 0%Z → fh_empty s' = true ↔ fh_contents s' = ∅) ∧
    (fh_contents s' ≠ ∅ → ∃ v s'', fh_top Zlt_b s' = Some (v, s'') ∧ pq_largest Zlt_b (fh_contents s') v ∧
      fh_ok Zlt_b s'' ∧ fh_contents s'' = fh_contents s' ∧ fh_size s'' = fh_size s').
Proof.
  split; [vm_compute; reflexivity|].
  apply (fibonacci_heap_refinement Zlt_b (PqIncrease 1 100%Z) demo_fib); [apply _|right; apply demo_fib_ok|].
  exists 3%Z. vm_compute. split; reflexivity.
Defined.

Lemma fill_reachable vs s s' :
  fh_reachable Zlt_b s → pq_fill (HP := fibonacci_queue Zlt_b) vs s = Ret s' → fh_reachable Zlt_b s'.
Proof.
  revert s. induction vs as [|v vs IH]; intros s Hs; simpl; [by intros [= <-]|].
  destruct (fh_push Zlt_b v s) as [p| | |] eqn:Hp; simpl; try done. apply IH.
  apply (fh_reach_run _ (PqPush v) s); [done..|]. simpl. by rewrite Hp.
Qed.

Lemma demo_fib_reachable : fh_reachable Zlt_b demo_fib.
Proof.
  apply (fh_reach_run _ PqPop (fib_of [5; 3; 4; 9; 1; 7; 2; 8; 6]%Z)).
  - apply (fill_reachable [5; 3; 4; 9; 1; 7; 2; 8; 6]%Z fibonacci_heap_ctor); [constructor|]. by vm_compute.
  - by vm_compute.
  - by vm_compute.
Qed.

Lemma fibonacci_rank_bound_witness :
  has_below demo_fib 7 5 ∧ 5 ≤ size (fh_contents demo_fib) ∧ slots_used demo_fib = 1 ∧
  fib 2 ≤ size (fh_contents demo_fib).
Proof.
  assert (H : fh_nodes demo_fib !! 7 = Some (FhNode (Some 2) None [6; 5; 8] 0 8%Z)) by (vm_compute; reflexivity).
  assert (Hu : slots_used demo_fib = 1) by (vm_compute; reflexivity).
  destruct (fibonacci_rank_bound Zlt_b demo_fib _ demo_fib_reachable) as (Hn & _ & Hs).
  destruct (Hn 7 _ H) as [? ?]. split_and!; [done..|]. rewrite Hu in Hs. by apply Hs.
Defined.

Lemma fibonacci_remove_hazard_witness :
  ∃ s', fh_remove Zlt_b 0 (fib_of [7]%Z) = Ret s' ∧ fh_contents s' = ∅ ∧ fh_size s' = 1%Z ∧ fh_empty s' = false ∧
    fh_top Zlt_b s' = None ∧ fh_pop Zlt_b s' = UB.
Proof.
  apply (fibonacci_remove_hazard Zlt_b (fib_of [7]%Z) 0 7%Z); [apply _|apply fib_of_ok|vm_compute; reflexivity..].
Defined.

Lemma heaps_sort_alike_witness :
  pq_sort (HP := fibonacci_queue Zlt_b) [3; 1; 2]%Z = Ret [3; 2; 1]%Z ∧
  ∃ ws, pq_sort (HP := d_heap_queue Zlt_b 2) [3; 1; 2]%Z = Ret ws ∧
    pq_sort (HP := pairing_heap_queue Zlt_b) [3; 1; 2]%Z = Ret ws ∧
    pq_sort (HP := fibonacci_queue Zlt_b) [3; 1; 2]%Z = Ret ws ∧
    ws ≡ₚ [3; 1; 2]%Z ∧ StronglySorted (λ v w, Zlt_b v w = false) ws.
Proof.
  split; [vm_compute; reflexivity|].
  apply (heaps_sort_alike Zlt_b 2 [3; 1; 2]%Z); [lia|apply _|].
  intros v w. unfold Zlt_b. rewrite !bool_decide_eq_false. lia.
Defined.
