(* ===== verification/FibWalk.v ===== *)
(** * Iterators and destruction of the Fibonacci heap

    The iterators of src/src/old-boost/heaps/f_heap.{hpp,cc}, which visit the
    trees of the roots in post-order by the indices of the nodes, and the
    destructor, which deletes the nodes from the leaves up. For a heap whose nodes
    are all in the trees of its roots ([fh_ok]) both reach every node exactly
    once. *)
From S2P Require Import Prelude PriorityQueue FibHeap FibQueue.

Section walk.
Context {T : Type}.
Implicit Types (s : fibonacci_heap T) (x y : fh_node T) (n p c r k : nat) (ns : gmap nat (fh_node T)).

(** ** Iterators *)

(** The node of an iterator; at the end it is null: [None]. *)
Definition fh_iterator := option nat.

Fixpoint it_find_root (rs : list (option nat)) : fh_iterator :=
  match rs with
  | [] => None
  | Some r :: _ => Some r
  | None :: rs => it_find_root rs
  end.

Fixpoint find_leaf_fuel (fuel n : nat) s : outcome nat :=
  match fuel with
  | 0 => NoFuel
  | S fuel =>
      x ← or_ub (fh_nodes s !! n);
      match fn_children x with
      | [] => Ret n
      | c :: _ => find_leaf_fuel fuel c s
      end
  end.
Definition it_find_leaf (o : fh_iterator) s : outcome fh_iterator :=
  match o with
  | None => Ret None
  | Some n => Some <$> find_leaf_fuel (size (fh_nodes s)) n s
  end.

Definition it_begin s : outcome fh_iterator :=
  if decide (fh_size s = 0%Z) then Ret None else it_find_leaf (it_find_root (fh_roots s)) s.

(** [operator++]; an iterator beyond the end of a vector is undefined. *)
Definition it_next n s : outcome fh_iterator :=
  x ← or_ub (fh_nodes s !! n);
  match fn_parent x with
  | None =>
      if decide (fn_rank x + 1 ≤ length (fh_roots s))
      then it_find_leaf (it_find_root (drop (fn_rank x + 1) (fh_roots s))) s
      else UB
  | Some p =>
      y ← or_ub (fh_nodes s !! p);
      index ← or_ub (fn_index x);
      if decide (fn_rank y = index + 1) then Ret (Some p)
      else c ← or_ub (fn_children y !! (index + 1)); it_find_leaf (Some c) s
  end.

(** The nodes which a loop from an iterator to the end visits. *)
Fixpoint it_walk (fuel : nat) (o : fh_iterator) s : outcome (list nat) :=
  match o, fuel with
  | None, _ => Ret []
  | Some _, 0 => NoFuel
  | Some n, S fuel => o ← it_next n s; l ← it_walk fuel o s; Ret (n :: l)
  end.
Definition fh_walk s : outcome (list nat) := o ← it_begin s; it_walk (size (fh_nodes s)) o s.

(** ** Destruction *)

(** [while (idx-- != 0) ...] of a node's [destroy]. *)
Fixpoint destroy_children (destroy : nat → gmap nat (fh_node T) → outcome (gmap nat (fh_node T)))
    (n idx : nat) ns : outcome (gmap nat (fh_node T)) :=
  match idx with
  | 0 => Ret ns
  | S idx =>
      x ← or_ub (ns !! n);
      c ← or_ub (fn_children x !! idx);
      ns ← destroy c ns;
      _ ← or_ub (ns !! c);
      destroy_children destroy n idx (delete c ns)
  end.
Fixpoint fn_destroy (fuel n : nat) ns : outcome (gmap nat (fh_node T)) :=
  match fuel with
  | 0 => NoFuel
  | S fuel => x ← or_ub (ns !! n); destroy_children (fn_destroy fuel) n (fn_rank x) ns
  end.

Fixpoint destroy_roots (fuel : nat) (rs : list (option nat)) ns : outcome (gmap nat (fh_node T)) :=
  match rs with
  | [] => Ret ns
  | o :: rs =>
      ns ← destroy_roots fuel rs ns;
      match o with
      | None => Ret ns
      | Some r => ns ← fn_destroy fuel r ns; _ ← or_ub (ns !! r); Ret (delete r ns)
      end
  end.

(** The nodes that are left. *)
Definition fibonacci_heap_dtor s : outcome (gmap nat (fh_node T)) :=
  if decide (fh_size s = 0%Z) then Ret (fh_nodes s)
  else destroy_roots (size (fh_nodes s)) (fh_roots s) (fh_nodes s).
End walk.

Section walked.
Context {T : Type} (compare : T → T → bool) `{!StrictWeakOrder compare}.
Implicit Types (s : fibonacci_heap T) (x y : fh_node T) (n p c r k : nat) (ns : gmap nat (fh_node T)).

Inductive visits s : fh_iterator → list nat → fh_iterator → Prop :=
  | visits_nil o : visits s o [] o
  | visits_cons n o l o' : it_next n s = Ret o → visits s o l o' → visits s (Some n) (n :: l) o'.

Lemma visits_app s o l1 o1 l2 o2 : visits s o l1 o1 → visits s o1 l2 o2 → visits s o (l1 ++ l2) o2.
Proof. induction 1; [done|]. intros. econstructor; eauto. Qed.

Lemma visits_walk s o l fuel : visits s o l None → length l ≤ fuel → it_walk fuel o s = Ret l.
Proof.
  intros Hv. remember None as o' eqn:E. revert fuel. induction Hv as [o|n o l o' Hn Hv IH]; intros fuel Hf; subst.
  - by destruct fuel.
  - destruct fuel as [|fuel]; simpl in *; [lia|]. rewrite Hn. simpl. rewrite IH by (done || lia). done.
Qed.

(** The nodes of a set of trees, each once. *)
Definition lists_below s (tops l : list nat) : Prop :=
  NoDup l ∧ ∀ a, a ∈ l ↔ ∃ t, t ∈ tops ∧ rtc (fh_up s) a t.

Lemma up_child h s n x c :
  fh_at compare h ∅ None ∅ s → fh_nodes s !! n = Some x → fh_up s c n ↔ c ∈ fn_children x.
Proof.
  intros Hs Hn. split.
  - intros (y & Hy & Hp). destruct (fa_parent _ _ _ _ _ _ Hs c y n Hy ltac:(set_solver) Hp) as (_ & x' & i & Hx' & Hi).
    simplify_eq. by eapply list_elem_of_lookup_2.
  - intros Hc. destruct (fa_elem _ _ _ _ _ _ _ _ _ Hs Hn Hc) as (_ & y & ?). by exists y.
Qed.

Lemma lists_below_app s t ts l1 l2 :
  lists_below s [t] l1 → lists_below s ts l2 →
  (∀ a u, u ∈ ts → rtc (fh_up s) a t → rtc (fh_up s) a u → False) → lists_below s (t :: ts) (l1 ++ l2).
Proof.
  intros [Hn1 H1] [Hn2 H2] Hd. split.
  - apply NoDup_app. split_and!; [done| |done]. intros a Ha1%H1 Ha2%H2.
    destruct Ha1 as (u & ->%list_elem_of_singleton & Hu), Ha2 as (w & Hw & Hw'). by eapply Hd.
  - intros a. rewrite elem_of_app, H1, H2. split.
    + intros [(u & ->%list_elem_of_singleton & Hu)|(u & Hu & Hu')]; [exists t|exists u]; rewrite elem_of_cons; auto.
    + intros (u & [->|Hu]%elem_of_cons & Hu'); [left; exists t; split; [by apply list_elem_of_singleton|done]|right; eauto].
Qed.

(** A node after the trees of its children. *)
Lemma lists_below_node h s n x l :
  fh_at compare h ∅ None ∅ s → fh_nodes s !! n = Some x → lists_below s (fn_children x) l →
  lists_below s [n] (l ++ [n]).
Proof.
  intros Hs Hn [Hnd Hl]. split.
  - apply NoDup_app. split_and!; [done| |apply NoDup_singleton]. intros a (t & Ht & Hup)%Hl ->%list_elem_of_singleton.
    apply (up_child h s n x t Hs Hn) in Ht as (y & Hy & Hp).
    destruct (fa_parent _ _ _ _ _ _ Hs t y n Hy ltac:(set_solver) Hp) as [Hh _].
    pose proof (up_height compare h s n t Hs Hup). lia.
  - intros a. rewrite elem_of_app, Hl, list_elem_of_singleton. split.
    + intros [(t & Ht & Hup)| ->]; [|exists n; split; [by apply list_elem_of_singleton|done]].
      exists n. split; [by apply list_elem_of_singleton|]. eapply rtc_r; [done|]. by apply (up_child h s n x t Hs Hn).
    + intros (t & ->%list_elem_of_singleton & Hup). apply rtc_inv_r in Hup as [->|(c & Hac & Hc)]; [by right|left].
      exists c. split; [by apply (up_child h s n x c Hs Hn)|done].
Qed.

(** ** The order of the visits *)
Definition leaf_ok s (n leaf : nat) : Prop :=
  ∀ fuel (E : gset nat), (∀ a, rtc (fh_up s) a n → a ∈ E) → size E ≤ fuel → find_leaf_fuel fuel n s = Ret leaf.

(** From the first leaf of the tree of [n] through the tree to [n]. *)
Definition walks_tree s n : Prop :=
  ∃ leaf l, leaf_ok s n leaf ∧ lists_below s [n] l ∧ ∀ o, it_next n s = Ret o → visits s (Some leaf) l o.

Lemma up_dom s a n x : fh_nodes s !! n = Some x → rtc (fh_up s) a n → a ∈ dom (fh_nodes s).
Proof. intros Hn. inversion 1 as [|? b ? (y & Hy & _) _]; subst; by eapply elem_of_dom_2. Qed.

Lemma leaf_run s n x leaf :
  fh_nodes s !! n = Some x → leaf_ok s n leaf → it_find_leaf (Some n) s = Ret (Some leaf).
Proof.
  intros Hn Hl. simpl. rewrite (Hl _ (dom (fh_nodes s))); [done| |by rewrite size_dom].
  intros a Ha. by eapply up_dom.
Qed.

Lemma drop_cons {A} (l xs : list A) k (e : A) : drop k l = e :: xs → l !! k = Some e ∧ drop (S k) l = xs ∧ k < length l.
Proof.
  intros H. assert (Hk : l !! k = Some e) by (by rewrite <-(Nat.add_0_r k), <-lookup_drop, H).
  split_and!; [done| |by eapply lookup_lt_Some]. by rewrite <-Nat.add_1_r, <-drop_drop, H.
Qed.

(** The trees of the children from the [i]-th on, and then their parent. *)
Lemma walks_siblings h s n x i c cs :
  fh_at compare h ∅ None ∅ s → fh_nodes s !! n = Some x → drop i (fn_children x) = c :: cs →
  (∀ d, d ∈ fn_children x → walks_tree s d) →
  ∃ leaf l, leaf_ok s c leaf ∧ lists_below s (c :: cs) l ∧ visits s (Some leaf) l (Some n).
Proof.
  intros Hs Hn Hdrop Hkids. revert i c Hdrop. induction cs as [|d cs IH]; intros i c Hdrop.
  all: destruct (drop_cons _ _ _ _ Hdrop) as (Hi & Hdrop' & _).
  all: destruct (fa_child _ _ _ _ _ _ Hs n x i c Hn Hi) as (_ & z & Hz & Hzp & Hzi).
  all: destruct (Hkids c) as (leaf & l & Hleaf & Hl & Hv); [by eapply list_elem_of_lookup_2|].
  all: assert (Hlen : fn_rank x = i + length (drop i (fn_children x)))
    by (apply lookup_lt_Some in Hi; rewrite length_drop; unfold fn_rank; lia).
  all: assert (Hnext : it_next c s = if decide (fn_rank x = i + 1) then Ret (Some n)
    else d ← or_ub (fn_children x !! (i + 1)); it_find_leaf (Some d) s)
    by (unfold it_next; rewrite Hz; simpl; rewrite Hzp, Hn; simpl; by rewrite Hzi).
  - exists leaf, l. split_and!; [done..|]. apply Hv. rewrite Hnext, Hlen, Hdrop. simpl. by rewrite decide_True.
  - destruct (drop_cons _ _ _ _ Hdrop') as (Hd & _). rewrite <-Nat.add_1_r in Hd.
    destruct (IH (S i) d Hdrop') as (leafd & ld & Hleafd & Hld & Hvd).
    destruct (fa_child _ _ _ _ _ _ Hs n x _ d Hn Hd) as (_ & w & Hw & Hwp & _).
    exists leaf, (l ++ ld). split_and!; [done| |].
    + apply lists_below_app; [done..|]. intros a u Hu Hac Hau.
      assert (Huc : u ∈ fn_children x) by (rewrite <-(take_drop (S i) (fn_children x)), Hdrop'; apply elem_of_app; by right).
      assert (c = u) as <-.
      { eapply (up_disjoint compare h s n); [done|by exists z| |done|done]. by apply (up_child h s n x u Hs Hn). }
      pose proof (fa_children_NoDup _ _ _ _ _ _ _ _ Hs Hn) as Hnd.
      rewrite <-(take_drop i (fn_children x)), Hdrop in Hnd. apply NoDup_app in Hnd as (_ & _ & Hnd). by apply NoDup_cons in Hnd as [? _].
    + eapply visits_app; [|exact Hvd]. apply Hv. rewrite Hnext, Hlen, Hdrop. simpl length.
      rewrite decide_False by lia. rewrite Hd. simpl. exact (leaf_run s d w leafd Hw Hleafd).
Qed.

Lemma walks_node h s n x : fh_at compare h ∅ None ∅ s → fh_nodes s !! n = Some x → walks_tree s n.
Proof.
  intros Hs. remember (h n) as k eqn:Ek. revert n x Ek. induction k as [k IH] using lt_wf_ind. intros n x -> Hn.
  assert (Hkids : ∀ d, d ∈ fn_children x → walks_tree s d).
  { intros d Hd. destruct (fa_elem _ _ _ _ _ _ _ _ _ Hs Hn Hd) as (HdD & y & Hy & Hp).
    destruct (fa_parent _ _ _ _ _ _ Hs d y n Hy HdD Hp) as [Hh _]. by eapply (IH (h d)). }
  destruct (fn_children x) as [|c cs] eqn:Hx.
  - exists n, [n]. split_and!.
    + intros [|fuel] E HE Hsz; simpl; [|by rewrite Hn; simpl; rewrite Hx].
      assert (n ∈ E) by (by apply HE). assert (E ≡ ∅) by (apply size_empty_inv; lia). set_solver.
    + apply (lists_below_node h s n x []); [done..|]. rewrite Hx. split; [constructor|].
      intros a. split; [by intros ?%elem_of_nil|by intros (t & ?%elem_of_nil & _)].
    + intros o Ho. econstructor; [done|constructor].
  - destruct (walks_siblings h s n x 0 c cs Hs Hn) as (leaf & l & Hleaf & Hl & Hv); [by rewrite Hx|by rewrite Hx|].
    exists leaf, (l ++ [n]). split_and!.
    + intros [|fuel] E HE Hsz; simpl.
      { assert (n ∈ E) by (by apply HE). assert (E ≡ ∅) by (apply size_empty_inv; lia). set_solver. }
      rewrite Hn. simpl. rewrite Hx. apply (Hleaf fuel (E ∖ {[n]})).
      * assert (Hcn : fh_up s c n) by (apply (up_child h s n x c Hs Hn); rewrite Hx; by apply elem_of_cons; left).
        intros a Ha. apply elem_of_difference. split; [apply HE; by eapply rtc_r|].
        intros ->%elem_of_singleton. pose proof (up_height compare h s n c Hs Ha). destruct Hcn as (y & Hy & Hp).
        destruct (fa_parent _ _ _ _ _ _ Hs c y n Hy ltac:(set_solver) Hp). lia.
      * assert (n ∈ E) by (by apply HE). rewrite size_difference by set_solver. rewrite size_singleton. lia.
    + apply (lists_below_node h s n x l); [done..|by rewrite Hx].
    + intros o Ho. eapply visits_app; [exact Hv|]. econstructor; [done|constructor].
Qed.

(** The trees of different roots have nothing in common. *)
Lemma roots_disjoint h s j k q r a :
  fh_at compare h ∅ None ∅ s → fh_roots s !! j = Some (Some q) → fh_roots s !! k = Some (Some r) →
  rtc (fh_up s) a q → rtc (fh_up s) a r → j = k.
Proof.
  intros Hs Hj Hk Hq Hr.
  destruct (fa_slot _ _ _ _ _ _ Hs j q Hj) as (_ & x & Hx & Hxp & Hxj).
  destruct (fa_slot _ _ _ _ _ _ Hs k r Hk) as (_ & y & Hy & Hyp & Hyk).
  assert (Htop : ∀ t z u, fh_nodes s !! t = Some z → fn_parent z = None → rtc (fh_up s) t u → t = u).
  { intros t z u Ht Hp Hu. inversion Hu as [|? b ? (z' & Hz' & Hb) _]; subst; [done|]. congruence. }
  assert (q = r) as <- by (destruct (up_comparable _ _ _ _ Hq Hr); [by eapply Htop|symmetry; by eapply Htop]).
  congruence.
Qed.

(** The trees of the roots from the [k]-th slot on, to the end. *)
Lemma walks_roots h s k rs :
  fh_at compare h ∅ None ∅ s → drop k (fh_roots s) = rs →
  ∃ o l, it_find_leaf (it_find_root rs) s = Ret o ∧ lists_below s (omap id rs) l ∧ visits s o l None.
Proof.
  intros Hs. revert k. induction rs as [|[r|] rs IH]; intros k Hdrop.
  - exists None, []. split_and!; [done| |constructor]. split; [constructor|].
    intros a. split; [by intros ?%elem_of_nil|by intros (t & ?%elem_of_nil & _)].
  - apply drop_cons in Hdrop as (Hk & Hdrop & Hlt). destruct (IH (S k) Hdrop) as (o & l & Ho & Hl & Hv).
    destruct (fa_slot _ _ _ _ _ _ Hs k r Hk) as (_ & x & Hx & Hxp & Hxk).
    destruct (walks_node h s r x Hs Hx) as (leaf & l1 & Hleaf & Hl1 & Hv1).
    exists (Some leaf), (l1 ++ l). split_and!; [exact (leaf_run s r x leaf Hx Hleaf)| |].
    + change (omap id (Some r :: rs)) with (r :: omap id rs). apply lists_below_app; [done..|].
      intros a u Hu Ha Hau. apply list_elem_of_omap in Hu as (? & Hu & [= ->]).
      rewrite <-Hdrop in Hu. apply list_elem_of_lookup in Hu as [j Hj]. rewrite lookup_drop in Hj.
      pose proof (roots_disjoint h s _ _ _ _ a Hs Hk Hj Ha Hau). lia.
    + eapply visits_app; [|exact Hv]. apply Hv1. unfold it_next. rewrite Hx. simpl. rewrite Hxp, Hxk, Nat.add_1_r.
      rewrite decide_True by lia. by rewrite Hdrop.
  - apply drop_cons in Hdrop as (_ & Hdrop & _). by apply (IH (S k)).
Qed.

Lemma lists_all h s l :
  fh_at compare h ∅ None ∅ s → lists_below s (omap id (fh_roots s)) l →
  ∀ a, a ∈ l ↔ a ∈ dom (fh_nodes s).
Proof.
  intros Hs [_ Hl] a. rewrite Hl. split.
  - intros (t & Ht & Hup). apply list_elem_of_omap in Ht as (? & [k Hk]%list_elem_of_lookup & [= ->]).
    destruct (fa_slot _ _ _ _ _ _ Hs k t Hk) as (_ & x & Hx & _). by eapply up_dom.
  - intros [x Hx]%elem_of_dom. destruct (root_reach compare h s a x Hs Hx) as (r & [k Hk] & Hup).
    exists r. split; [|done]. apply list_elem_of_omap. exists (Some r). split; [by eapply list_elem_of_lookup_2|done].
Qed.

Lemma NoDup_dom_length (l : list nat) ns : NoDup l → (∀ a, a ∈ l ↔ a ∈ dom ns) → length l = size ns.
Proof.
  intros Hnd Hl. rewrite <-size_dom, <-(size_list_to_set (C := gset nat) l Hnd). f_equal.
  apply set_eq. intros a. by rewrite elem_of_list_to_set.
Qed.

Lemma fh_walk_spec s :
  fh_ok compare s → ∃ l, fh_walk s = Ret l ∧ NoDup l ∧ ∀ a, a ∈ l ↔ a ∈ dom (fh_nodes s).
Proof.
  intros [[h Hs] Hsz _]. unfold fh_walk, it_begin. case_decide as Hz.
  - exists []. split_and!; [by destruct (size (fh_nodes s))|constructor|]. intros a.
    assert (fh_nodes s = ∅) as -> by (apply map_size_empty_inv; lia). rewrite dom_empty. split; intros H; [by apply elem_of_nil in H|set_solver].
  - destruct (walks_roots h s 0 (fh_roots s) Hs eq_refl) as (o & l & -> & Hl & Hv). simpl.
    pose proof (lists_all h s l Hs Hl) as Hall. destruct Hl as [Hnd _].
    exists l. split_and!; [|done|done]. apply visits_walk; [done|]. rewrite (NoDup_dom_length l (fh_nodes s)); done.
Qed.

(** ** Destruction *)

(** The nodes of a list of trees. *)
Definition below_set s (tops : list nat) (B : gset nat) : Prop :=
  ∀ a, a ∈ B ↔ ∃ t, t ∈ tops ∧ rtc (fh_up s) a t.

Lemma below_set_exists h s tops :
  fh_at compare h ∅ None ∅ s → (∀ t, t ∈ tops → is_Some (fh_nodes s !! t)) → ∃ B, below_set s tops B.
Proof.
  intros Hs. induction tops as [|t tops IH]; intros Ht.
  { exists ∅. intros a. split; [set_solver|by intros (u & ?%elem_of_nil & _)]. }
  destruct IH as [B HB]; [intros u Hu; apply Ht; by apply elem_of_cons; right|].
  destruct (Ht t) as [x Hx]; [by apply elem_of_cons; left|].
  destruct (walks_node h s t x Hs Hx) as (_ & l & _ & [_ Hl] & _). exists (list_to_set l ∪ B).
  intros a. rewrite elem_of_union, elem_of_list_to_set, Hl, (HB a). split.
  - intros [(u & ->%list_elem_of_singleton & Hu)|(u & Hu & Hu')]; [exists t|exists u]; rewrite elem_of_cons; auto.
  - intros (u & [->|Hu]%elem_of_cons & Hu'); [left; exists t; split; [by apply list_elem_of_singleton|done]|right; eauto].
Qed.

(** [ns'] is [ns] without the nodes [B]. *)
Definition removed (B : gset nat) ns ns' : Prop := ∀ a, ns' !! a = if decide (a ∈ B) then None else ns !! a.

(** [destroy] of [c] deletes what is below [c], so that [c] can be deleted. *)
Definition destroys s (destroy : nat → gmap nat (fh_node T) → outcome (gmap nat (fh_node T))) c : Prop :=
  ∀ ns B, below_set s [c] B → (∀ a, a ∈ B → ns !! a = fh_nodes s !! a) →
  ∃ ns', destroy c ns = Ret ns' ∧ removed (B ∖ {[c]}) ns ns'.

Lemma destroy_top s destroy c x ns B :
  destroys s destroy c → fh_nodes s !! c = Some x → below_set s [c] B →
  (∀ a, a ∈ B → ns !! a = fh_nodes s !! a) →
  ∃ ns', destroy c ns = Ret ns' ∧ is_Some (ns' !! c) ∧ removed B ns (delete c ns').
Proof.
  intros Hd Hc HB Hns. destruct (Hd ns B HB Hns) as (ns' & Hrun & Hrem). exists ns'.
  assert (HcB : c ∈ B) by (apply HB; exists c; split; [by apply list_elem_of_singleton|done]).
  split_and!; [done| |].
  - rewrite Hrem, decide_False, Hns by set_solver. by exists x.
  - intros a. destruct (decide (a = c)) as [->|Hac]; [rewrite lookup_delete_eq, decide_True by done; done|].
    rewrite lookup_delete_ne, Hrem by done. apply decide_ext. set_solver.
Qed.

Lemma removed_trans B C ns1 ns2 ns3 : removed B ns1 ns2 → removed C ns2 ns3 → removed (B ∪ C) ns1 ns3.
Proof.
  intros H1 H2 a. rewrite H2, H1. destruct (decide (a ∈ C)); [rewrite decide_True by set_solver; done|].
  apply decide_ext. set_solver.
Qed.

Lemma below_set_app s ts us B C : below_set s ts B → below_set s us C → below_set s (ts ++ us) (B ∪ C).
Proof.
  intros HB HC a. rewrite elem_of_union, (HB a), (HC a). split.
  - intros [(t & Ht & ?)|(t & Ht & ?)]; exists t; rewrite elem_of_app; auto.
  - intros (t & [Ht|Ht]%elem_of_app & ?); eauto.
Qed.

Lemma below_set_unique s ts B C : below_set s ts B → below_set s ts C → B = C.
Proof. intros HB HC. apply set_eq. intros a. by rewrite (HB a), (HC a). Qed.

Lemma destroy_children_spec h s destroy n x idx ns B :
  fh_at compare h ∅ None ∅ s → fh_nodes s !! n = Some x → idx ≤ fn_rank x →
  (∀ c, c ∈ fn_children x → destroys s destroy c) →
  below_set s (take idx (fn_children x)) B → (∀ a, a ∈ B → ns !! a = fh_nodes s !! a) → ns !! n = Some x →
  ∃ ns', destroy_children destroy n idx ns = Ret ns' ∧ removed B ns ns'.
Proof.
  intros Hs Hn Hidx Hd. revert ns B Hidx. induction idx as [|idx IH]; intros ns B Hidx HB Hns Hnn.
  { exists ns. split; [done|]. intros a. rewrite decide_False; [done|]. by intros (t & ?%elem_of_nil & _)%HB. }
  destruct (lookup_lt_is_Some_2 (fn_children x) idx) as [c Hc]; [unfold fn_rank in Hidx; lia|].
  rewrite (take_S_r _ _ c Hc) in HB. simpl. rewrite Hnn. simpl. rewrite Hc. simpl.
  pose proof (list_elem_of_lookup_2 _ _ _ Hc) as Hcx.
  destruct (proj2 (up_child h s n x c Hs Hn) Hcx) as (y & Hy & Hyp).
  destruct (fa_parent _ _ _ _ _ _ Hs c y n Hy ltac:(set_solver) Hyp) as [Hh _].
  destruct (below_set_exists h s (take idx (fn_children x)) Hs) as [B1 HB1].
  { intros t Ht. destruct (proj2 (up_child h s n x t Hs Hn)) as (z & ? & _); [apply elem_of_take in Ht as (i & Hi & _); by eapply list_elem_of_lookup_2|by exists z]. }
  destruct (below_set_exists h s [c] Hs) as [B2 HB2]; [intros t ->%list_elem_of_singleton; by exists y|].
  pose proof (below_set_unique _ _ _ _ HB (below_set_app _ _ _ _ _ HB1 HB2)) as ->.
  destruct (destroy_top s destroy c y ns B2) as (ns1 & -> & [z Hz] & Hr1); [by apply Hd|done|done|set_solver|].
  simpl. rewrite Hz. simpl.
  assert (Hsep : ∀ a, a ∈ B1 → a ∉ B2).
  { intros a (t & Ht & Hat)%HB1 (u & ->%list_elem_of_singleton & Hau)%HB2.
    apply elem_of_take in Ht as (i & Hi & Hlt).
    assert (t = c) as ->.
    { eapply (up_disjoint compare h s n); [done| |by exists y|done|done]. apply (up_child h s n x t Hs Hn).
      by eapply list_elem_of_lookup_2. }
    pose proof (fa_children_NoDup _ _ _ _ _ _ _ _ Hs Hn) as Hnd. pose proof (NoDup_lookup _ _ _ _ Hnd Hi Hc). lia. }
  destruct (IH (delete c ns1) B1) as (ns' & Hrun & Hr'); [lia|done| | |].
  - intros a Ha. rewrite Hr1, decide_False by (by apply Hsep). set_solver.
  - rewrite Hr1, decide_False; [done|]. intros (u & ->%list_elem_of_singleton & Hu)%HB2.
    pose proof (up_height compare h s n c Hs Hu). lia.
  - exists ns'. split; [done|]. rewrite (union_comm_L B1 B2). by eapply removed_trans.
Qed.

(** What is below a node is below its children, or the node itself. *)
Lemma below_set_node h s n x B :
  fh_at compare h ∅ None ∅ s → fh_nodes s !! n = Some x → below_set s [n] B → below_set s (fn_children x) (B ∖ {[n]}).
Proof.
  intros Hs Hn HB a. rewrite elem_of_difference, (HB a), elem_of_singleton. split.
  - intros ((t & ->%list_elem_of_singleton & Hup) & Han). apply rtc_inv_r in Hup as [->|(c & Hac & Hc)]; [done|].
    exists c. split; [by apply (up_child h s n x c Hs Hn)|done].
  - intros (c & Hc & Hac). pose proof (proj2 (up_child h s n x c Hs Hn) Hc) as Hup. split.
    + exists n. split; [by apply list_elem_of_singleton|by eapply rtc_r].
    + intros ->. pose proof (up_height compare h s n c Hs Hac). destruct Hup as (y & Hy & Hp).
      destruct (fa_parent _ _ _ _ _ _ Hs c y n Hy ltac:(set_solver) Hp). lia.
Qed.

Lemma fn_destroy_spec h s n x fuel (E : gset nat) :
  fh_at compare h ∅ None ∅ s → fh_nodes s !! n = Some x → (∀ a, rtc (fh_up s) a n → a ∈ E) → size E ≤ fuel →
  destroys s (fn_destroy fuel) n.
Proof.
  intros Hs. revert n x E. induction fuel as [|fuel IH]; intros n x E Hn HE Hsz ns B HB Hns.
  { assert (n ∈ E) by (by apply HE). assert (E ≡ ∅) by (apply size_empty_inv; lia). set_solver. }
  assert (HnB : n ∈ B) by (apply HB; exists n; split; [by apply list_elem_of_singleton|done]).
  assert (Hnn : ns !! n = Some x) by (by rewrite Hns).
  simpl. rewrite Hnn. simpl. pose proof (below_set_node h s n x B Hs Hn HB) as HB'.
  eapply (destroy_children_spec h s); [done..| |by unfold fn_rank; rewrite firstn_all|intros a Ha; apply Hns; set_solver|done].
  intros c Hc. pose proof (proj2 (up_child h s n x c Hs Hn) Hc) as Hup. pose proof Hup as (y & Hy & _).
  assert (n ∈ E) by (by apply HE).
  apply (IH c y (E ∖ {[n]})); [done| |rewrite size_difference, size_singleton by set_solver; lia].
  intros a Ha. apply elem_of_difference. split; [apply HE; by eapply rtc_r|]. rewrite elem_of_singleton. intros ->.
  assert (n ∈ B ∖ {[n]}) by (apply HB'; by exists c). set_solver.
Qed.

Lemma destroy_roots_spec h s k rs B :
  fh_at compare h ∅ None ∅ s → drop k (fh_roots s) = rs → below_set s (omap id rs) B →
  ∃ ns', destroy_roots (size (fh_nodes s)) rs (fh_nodes s) = Ret ns' ∧ removed B (fh_nodes s) ns'.
Proof.
  intros Hs. revert k B. induction rs as [|o rs IH]; intros k B Hdrop HB.
  { eexists. split; [done|]. intros a. rewrite decide_False; [done|]. by intros (t & ?%elem_of_nil & _)%HB. }
  apply drop_cons in Hdrop as (Hk & Hdrop & _).
  destruct (below_set_exists h s (omap id rs) Hs) as [B1 HB1].
  { intros t (? & Ht & [= ->])%list_elem_of_omap. rewrite <-Hdrop in Ht. apply list_elem_of_lookup in Ht as [j Hj].
    rewrite lookup_drop in Hj. destruct (fa_slot _ _ _ _ _ _ Hs _ t Hj) as (_ & z & ? & _). by exists z. }
  destruct (IH (S k) B1 Hdrop HB1) as (ns1 & Hrun & Hr1). simpl. rewrite Hrun. simpl. destruct o as [r|].
  - destruct (fa_slot _ _ _ _ _ _ Hs k r Hk) as (_ & x & Hx & _).
    destruct (below_set_exists h s [r] Hs) as [B2 HB2]; [intros t ->%list_elem_of_singleton; by exists x|].
    pose proof (below_set_unique _ _ _ _ HB (below_set_app _ _ _ _ _ HB2 HB1)) as ->.
    destruct (destroy_top s (fn_destroy (size (fh_nodes s))) r x ns1 B2) as (ns2 & -> & [z Hz] & Hr2); [|done|done| |].
    + eapply (fn_destroy_spec h s r x _ (dom (fh_nodes s))); [done..| |by rewrite size_dom]. intros a Ha. by eapply up_dom.
    + intros a Ha. rewrite Hr1, decide_False; [done|]. intros (t & Ht & Hat)%HB1.
      apply HB2 in Ha as (u & ->%list_elem_of_singleton & Har).
      apply list_elem_of_omap in Ht as (? & Ht & [= ->]). rewrite <-Hdrop in Ht. apply list_elem_of_lookup in Ht as [j Hj].
      rewrite lookup_drop in Hj. pose proof (roots_disjoint h s _ _ _ _ a Hs Hk Hj Har Hat). lia.
    + simpl. rewrite Hz. simpl. eexists. split; [done|]. rewrite (union_comm_L B2 B1). by eapply removed_trans.
  - exists ns1. split; [done|]. by rewrite (below_set_unique _ _ _ _ HB HB1).
Qed.

Lemma fib_dtor_spec s : fh_ok compare s → fibonacci_heap_dtor s = Ret ∅.
Proof.
  intros [[h Hs] Hsz _]. unfold fibonacci_heap_dtor. case_decide as Hz.
  - f_equal. apply map_size_empty_inv. lia.
  - destruct (walks_roots h s 0 (fh_roots s) Hs eq_refl) as (_ & l & _ & Hl & _).
    pose proof (lists_all h s l Hs Hl) as Hall. destruct Hl as [_ Hl].
    destruct (destroy_roots_spec h s 0 (fh_roots s) (list_to_set l) Hs eq_refl) as (ns' & -> & Hr).
    { intros a. by rewrite elem_of_list_to_set. }
    f_equal. apply map_empty. intros a. rewrite Hr. case_decide as Ha; [done|].
    apply not_elem_of_dom. by rewrite <-Hall, <-(elem_of_list_to_set (C := gset nat)).
Qed.
End walked.

Lemma lookup_list_values {T} (M : gmap nat T) (kvs : list (nat * T)) :
  (∀ k v, (k, v) ∈ kvs → M !! k = Some v) → omap (λ n, M !! n) kvs.*1 = kvs.*2.
Proof.
  induction kvs as [|[k v] kvs IH]; intros H; [done|]. csimpl. rewrite (H k v) by (by apply elem_of_cons; left).
  f_equal. apply IH. intros k' v' Hin. apply H. by apply elem_of_cons; right.
Qed.

(** ** Properties *)

(** C22: A loop from [begin] to [end] visits every element of the heap exactly
    once, whatever operations built the heap, and its destructor deletes every
    node exactly once: none is used after it was deleted, and none is left. Both
    also hold after removals, which leave a wrong size. *)
Theorem fibonacci_walk_and_dtor {T} (compare : T → T → bool) s :
  StrictWeakOrder compare → fh_ok compare s →
  (∃ l, fh_walk s = Ret l ∧ NoDup l ∧ (∀ n, n ∈ l ↔ is_Some (fh_contents s !! n)) ∧
    omap (λ n, fh_contents s !! n) l ≡ₚ pq_values (fh_contents s)) ∧
  fibonacci_heap_dtor s = Ret ∅.
Proof.
  intros Hswo Hok. split; [|by apply (fib_dtor_spec compare)].
  destruct (fh_walk_spec compare s Hok) as (l & Hl & Hnd & Hall). exists l. split_and!; [done..| |].
  - intros n. rewrite Hall. unfold fh_contents. by rewrite lookup_fmap, fmap_is_Some, elem_of_dom.
  - assert (Hperm : l ≡ₚ (map_to_list (fh_contents s)).*1).
    { apply NoDup_Permutation; [done|apply NoDup_fst_map_to_list|]. intros n.
      rewrite Hall, <-(dom_fmap_L fn_data (fh_nodes s)), dom_alt. apply elem_of_list_to_set. }
    rewrite Hperm. unfold pq_values. rewrite lookup_list_values; [done|]. intros k v. apply elem_of_map_to_list.
Qed.

(** ** Witnesses *)
Lemma fibonacci_walk_and_dtor_witness :
  fh_walk demo_fib = Ret [6; 4; 5; 2; 1; 0; 8; 7] ∧
  (∃ l, fh_walk demo_fib = Ret l ∧ NoDup l ∧ (∀ n, n ∈ l ↔ is_Some (fh_contents demo_fib !! n)) ∧
    omap (λ n, fh_contents demo_fib !! n) l ≡ₚ pq_values (fh_contents demo_fib)) ∧
  fibonacci_heap_dtor demo_fib = Ret ∅.
Proof.
  split; [vm_compute; reflexivity|].
  apply (fibonacci_walk_and_dtor Zlt_b demo_fib); [apply _|apply demo_fib_ok].
Defined.
