(* ===== verification/RadixHeap.v ===== *)
(** * boost::radix_heap

    The radix heap of src/src/old-boost/heaps/r_heap.{hpp,cc}: 33 buckets, each a
    ring of nodes, for integers. An element is in the bucket of the highest bit in
    which its distance from an offset is set; when the bucket of the distance 0 is
    empty the first other bucket is distributed again, from its minimum. The state
    is a store of nodes; [node_ring] relates a bucket to the list of its nodes. Proved
    here: the masks compute the position of the highest bit, and what insert and
    remove do to a ring. The order of the elements is the subject of RadixSort. *)
From S2P Require Import Prelude.

(** ** Data *)
Record radix_node := RadixNode {
  rn_prev : nat;
  rn_next : option nat;
  rn_data : Z;
}.

Record radix_heap := RadixHeap {
  rh_nodes : gmap nat radix_node;
  rh_buckets : list (option nat);
  rh_offset : Z;
  rh_cut : Z;
  rh_size : Z;
}.

(** ** The traits *)
Section traits.
(** The width of unsigned long. *)
Context (W : Z).

(** The masks, with [bits] being 32. *)
Definition mask_step (mask bit : Z) (v : Z * Z) : Z * Z :=
  let '(val, rc) := v in
  if decide (Z.land val mask = 0%Z) then (val, rc) else (Z.land val mask, rc + bit)%Z.

Definition intern_radix (val : Z) : Z :=
  if decide (val = 0%Z) then 0%Z
  else snd (mask_step 0xaaaaaaaa 1 (mask_step 0xcccccccc 2 (mask_step 0xf0f0f0f0 4
    (mask_step 0xff00ff00 8 (mask_step 0xffff0000 16 (val, 1%Z)))))).

Definition radix_value (val : Z) : Z := wrapu W (0xffffffff - wrapu W val).
Definition radix_radix (val offset : Z) : Z := intern_radix (wrapu W (radix_value val - offset)).

(** A shift by the width or more is undefined. *)
Definition shift1 (k : Z) : option Z := if decide (k < W)%Z then Some (wrapu W (Z.shiftl 1 k)) else None.

(** [size_type] is [int], whose overflow is undefined. *)
Definition size_type_of (z : Z) : option Z := if decide (- 2 ^ 31 ≤ z < 2 ^ 31)%Z then Some z else None.

(** ** Nodes *)
Definition radix_heap_ctor : radix_heap := RadixHeap ∅ (replicate 33 None) 0 1 0.

Implicit Types (s : radix_heap) (n m : nat).

Definition rn_alter (f : radix_node → radix_node) n s : option radix_heap :=
  x ← rh_nodes s !! n;
  Some (RadixHeap (<[n := f x]> (rh_nodes s)) (rh_buckets s) (rh_offset s) (rh_cut s) (rh_size s)).
Definition rn_set_prev (p : nat) : nat → radix_heap → option radix_heap :=
  rn_alter (λ x, RadixNode p (rn_next x) (rn_data x)).
Definition rn_set_next (q : option nat) : nat → radix_heap → option radix_heap :=
  rn_alter (λ x, RadixNode (rn_prev x) q (rn_data x)).

(** [n->insert(m)]. *)
Definition rn_insert n m s : option radix_heap :=
  y ← rh_nodes s !! m;
  let p := rn_prev y in
  s ← rn_set_prev p n s;
  s ← rn_set_next (Some n) p s;
  s ← rn_set_next (Some m) n s;
  rn_set_prev n m s.

(** [n->remove()]. *)
Definition rn_remove n s : option (option nat * radix_heap) :=
  x ← rh_nodes s !! n;
  q ← rn_next x;
  s ← rn_set_next (Some q) (rn_prev x) s;
  s ← rn_set_prev (rn_prev x) q s;
  if decide (rn_prev x = n) then Some (None, s)
  else s ← rn_set_prev n n s; s ← rn_set_next (Some n) n s; Some (Some q, s).

(** ** The heap *)
Definition rh_set_bucket (i : nat) (b : option nat) s : option radix_heap :=
  if decide (i < length (rh_buckets s))
  then Some (RadixHeap (rh_nodes s) (<[i := b]> (rh_buckets s)) (rh_offset s) (rh_cut s) (rh_size s))
  else None.

Definition rh_insert n (offset : Z) s : option radix_heap :=
  x ← rh_nodes s !! n;
  let idx := Z.to_nat (radix_radix (rn_data x) offset) in
  b ← rh_buckets s !! idx;
  match b with
  | None => rh_set_bucket idx (Some n) s
  | Some m => rn_insert n m s
  end.

Definition rh_push (v : Z) s : outcome (nat * radix_heap) :=
  z ← or_ub (size_type_of (rh_size s + 1));
  let n := fresh (dom (rh_nodes s)) in
  let offset := if decide (radix_value v < rh_cut s ∨ rh_cut s = 0)%Z then rh_offset s else 0%Z in
  let s := RadixHeap (<[n := RadixNode n (Some n) v]> (rh_nodes s)) (rh_buckets s) (rh_offset s) (rh_cut s) z in
  s ← or_ub (rh_insert n offset s);
  Ret (n, s).

(** [while ( *bucket == 0) ++bucket;], which must not run off the end. *)
Fixpoint first_bucket (i : nat) (bs : list (option nat)) : option (nat * nat) :=
  match bs with
  | [] => None
  | None :: bs => first_bucket (S i) bs
  | Some n :: _ => Some (i, n)
  end.

(** The minimum of the values from [tmp] on to [start]. *)
Fixpoint ring_min (fuel : nat) (start : nat) (tmp : option nat) (min : Z) s : outcome Z :=
  if decide (tmp = Some start) then Ret min
  else match fuel with
       | 0 => NoFuel
       | S fuel =>
           n ← or_ub tmp;
           x ← or_ub (rh_nodes s !! n);
           let v := radix_value (rn_data x) in
           ring_min fuel start (rn_next x) (if decide (v < min)%Z then v else min) s
       end.

Fixpoint redistribute (fuel n : nat) s : outcome radix_heap :=
  match fuel with
  | 0 => NoFuel
  | S fuel =>
      '(start, s) ← or_ub (rn_remove n s);
      s ← or_ub (rh_insert n (rh_offset s) s);
      match start with None => Ret s | Some n => redistribute fuel n s end
  end.

Definition rh_reorganize s : outcome radix_heap :=
  '(k, start) ← or_ub (first_bucket 1 (drop 1 (rh_buckets s)));
  cut ← or_ub (shift1 (Z.of_nat k));
  x ← or_ub (rh_nodes s !! start);
  min ← ring_min (size (rh_nodes s)) start (rn_next x) (radix_value (rn_data x)) s;
  let s := RadixHeap (rh_nodes s) (<[k := None]> (rh_buckets s)) min cut (rh_size s) in
  redistribute (size (rh_nodes s)) start s.

(** [if (m_buckets[0] == 0) reorganize();]. *)
Definition rh_need_bucket s : outcome radix_heap :=
  b ← or_ub (rh_buckets s !! 0);
  match b with None => rh_reorganize s | Some _ => Ret s end.

Definition rh_top s : outcome (Z * radix_heap) :=
  s ← rh_need_bucket s;
  n ← or_ub (mjoin (rh_buckets s !! 0));
  x ← or_ub (rh_nodes s !! n);
  Ret (rn_data x, s).

(** The node is not deleted. *)
Definition rh_pop s : outcome radix_heap :=
  s ← rh_need_bucket s;
  n ← or_ub (mjoin (rh_buckets s !! 0));
  '(b, s) ← or_ub (rn_remove n s);
  s ← or_ub (rh_set_bucket 0 b s);
  z ← or_ub (size_type_of (rh_size s - 1));
  Ret (if decide (z = 0%Z) then RadixHeap (rh_nodes s) (rh_buckets s) 0 1 z
       else RadixHeap (rh_nodes s) (rh_buckets s) (rh_offset s) (rh_cut s) z).

Definition rh_empty s : bool := bool_decide (rh_size s = 0%Z).

(** ** Iterators *)

(** The node, or null, and the index of its bucket. *)
Definition rh_begin s : option (option nat * nat) :=
  if decide (rh_size s = 0%Z) then Some (None, 0)
  else '(i, n) ← first_bucket 0 (rh_buckets s); Some (Some n, i).

(** The node found in a later bucket is overwritten after the loop. *)
Definition rh_next (it : option nat * nat) s : option (option nat * nat) :=
  n ← it.1;
  x ← rh_nodes s !! n;
  b ← rh_buckets s !! it.2;
  if decide (rn_next x = b)
  then Some (None, match first_bucket (S it.2) (drop (S it.2) (rh_buckets s)) with
                   | Some (i, _) => i
                   | None => 33
                   end)
  else Some (rn_next x, it.2).

Fixpoint rh_walk (fuel : nat) (it : option nat * nat) s : outcome (list nat) :=
  match it.1, fuel with
  | None, _ => Ret []
  | Some _, 0 => NoFuel
  | Some n, S fuel => it ← or_ub (rh_next it s); l ← rh_walk fuel it s; Ret (n :: l)
  end.

(** ** Destruction *)
Fixpoint delete_ring (fuel : nat) (o : option nat) (ns : gmap nat radix_node) : outcome (gmap nat radix_node) :=
  match o, fuel with
  | None, _ => Ret ns
  | Some _, 0 => NoFuel
  | Some n, S fuel => x ← or_ub (ns !! n); delete_ring fuel (rn_next x) (delete n ns)
  end.

Fixpoint delete_buckets (bs : list (option nat)) s : outcome radix_heap :=
  match bs with
  | [] => Ret s
  | None :: bs => delete_buckets bs s
  | Some n :: bs =>
      x ← or_ub (rh_nodes s !! n);
      s ← or_ub (rn_set_next None (rn_prev x) s);
      ns ← delete_ring (size (rh_nodes s)) (Some n) (rh_nodes s);
      delete_buckets bs (RadixHeap ns (rh_buckets s) (rh_offset s) (rh_cut s) (rh_size s))
  end.

Definition radix_heap_dtor s : outcome radix_heap :=
  if decide (rh_size s = 0%Z) then Ret s else delete_buckets (rh_buckets s) s.
End traits.

Lemma size_type_fits z : (- 2 ^ 31 ≤ z < 2 ^ 31)%Z → size_type_of z = Some z.
Proof. intros Hz. unfold size_type_of. by rewrite decide_True. Qed.

(** ** The highest bit *)

(** After the steps for the greater powers of two the bits left agree with the
    highest one, [L], in the positions' digits above [j]. *)
Record radix_inv (j L : Z) (v : Z * Z) : Prop := RadixInv {
  ri_pos : (0 ≤ v.1)%Z;
  ri_top : Z.testbit v.1 L = true;
  ri_bits p : (0 ≤ p)%Z → Z.testbit v.1 p = true → (p ≤ L)%Z ∧ (p / 2 ^ j = L / 2 ^ j)%Z;
  ri_rc : (v.2 = 1 + 2 ^ j * (L / 2 ^ j))%Z;
}.

Lemma div_pow_succ p j : (0 ≤ j → p / 2 ^ (j + 1) = p / 2 ^ j / 2)%Z.
Proof. intros Hj. rewrite Z.pow_add_r, Z.pow_1_r, Z.div_div by lia. done. Qed.

Lemma div_odd a : (a = 2 * (a / 2) + (if Z.odd a then 1 else 0))%Z.
Proof. pose proof (Z.div_mod a 2 ltac:(lia)) as H. by rewrite Zmod_odd in H. Qed.

(** The digit [j] of the positions left is that of [L]. *)
Lemma radix_digit j L v p :
  (0 ≤ j)%Z → radix_inv (j + 1) L v → (0 ≤ p)%Z → Z.testbit v.1 p = true →
  (p ≤ L)%Z ∧ (Z.odd (p / 2 ^ j) = true → Z.odd (L / 2 ^ j) = true) ∧
  (Z.odd (p / 2 ^ j) = Z.odd (L / 2 ^ j) → p / 2 ^ j = L / 2 ^ j)%Z.
Proof.
  intros Hj [_ _ Hbits _] Hp Hb. destruct (Hbits p Hp Hb) as [Hle He]. rewrite !div_pow_succ in He by done.
  assert (Hpow : (0 < 2 ^ j)%Z) by (apply Z.pow_pos_nonneg; lia).
  pose proof (Z.div_le_mono p L (2 ^ j) Hpow Hle) as Hd.
  pose proof (div_odd (p / 2 ^ j)) as Hop. pose proof (div_odd (L / 2 ^ j)) as HoL.
  split_and!; [done| |].
  - intros E. rewrite E in Hop. destruct (Z.odd (L / 2 ^ j)); [done|lia].
  - intros E. rewrite E in Hop. lia.
Qed.

Lemma mask_step_inv mask j L v :
  (0 ≤ j)%Z → (0 ≤ L < 32)%Z → (∀ p, (0 ≤ p < 32)%Z → Z.testbit mask p = Z.odd (p / 2 ^ j)) →
  radix_inv (j + 1) L v → radix_inv j L (mask_step mask (2 ^ j) v).
Proof.
  intros Hj HL Hmask Hv. pose proof (λ p, radix_digit j L v p Hj Hv) as Hdig. destruct Hv as [Hpos Htop Hbits Hrc].
  destruct v as [val rc]. simpl in *. rewrite div_pow_succ, Z.pow_add_r, Z.pow_1_r in Hrc by lia.
  pose proof (div_odd (L / 2 ^ j)) as HoL.
  assert (Hmb : ∀ p, (0 ≤ p)%Z → Z.testbit val p = true → Z.testbit mask p = Z.odd (p / 2 ^ j)).
  { intros p Hp Hb. destruct (Hdig p Hp Hb) as [Hle _]. apply Hmask. lia. }
  case_decide as Hz.
  - assert (Hodd : ∀ p, (0 ≤ p)%Z → Z.testbit val p = true → Z.odd (p / 2 ^ j) = false).
    { intros p Hp Hb. rewrite <-(Hmb p Hp Hb). pose proof (Z.land_spec val mask p) as Hl.
      rewrite Hz, Z.bits_0, Hb in Hl. by destruct (Z.testbit mask p). }
    pose proof (Hodd L ltac:(lia) Htop) as HLf. rewrite HLf in HoL. split; simpl; [done|done| |nia].
    intros p Hp Hb. destruct (Hdig p Hp Hb) as (Hle & _ & He). split; [done|]. apply He. by rewrite HLf, Hodd.
  - assert (HLt : Z.odd (L / 2 ^ j) = true).
    { assert (Hl : (0 < Z.land val mask)%Z) by (pose proof (proj2 (Z.land_nonneg val mask) (or_introl Hpos)); lia).
      pose proof (Z.bit_log2 _ Hl) as Hb. rewrite Z.land_spec in Hb. apply andb_true_iff in Hb as [Hb Hm].
      pose proof (Z.log2_nonneg (Z.land val mask)) as Hn. destruct (Hdig _ Hn Hb) as (_ & Ho & _).
      apply Ho. by rewrite <-(Hmb _ Hn Hb). }
    rewrite HLt in HoL. split; simpl.
    + apply Z.land_nonneg. by left.
    + rewrite Z.land_spec, Htop, (Hmb L ltac:(lia) Htop). done.
    + intros p Hp. rewrite Z.land_spec. intros [Hb Hm]%andb_true_iff. destruct (Hdig p Hp Hb) as (Hle & _ & He).
      split; [done|]. apply He. by rewrite HLt, <-(Hmb p Hp Hb).
    + nia.
Qed.

Lemma mask_positions (mask j : Z) :
  forallb (λ p, eqb (Z.testbit mask (Z.of_nat p)) (Z.odd (Z.of_nat p / 2 ^ j))) (seq 0 32) = true →
  ∀ p, (0 ≤ p < 32)%Z → Z.testbit mask p = Z.odd (p / 2 ^ j)%Z.
Proof.
  rewrite forallb_forall. intros H p Hp. apply eqb_prop. rewrite <-(Z2Nat.id p) by lia. apply H.
  apply in_seq. lia.
Qed.

(** The masks compute the position of the highest bit. *)
Lemma intern_radix_spec val : (0 < val < 2 ^ 32)%Z → intern_radix val = (Z.log2 val + 1)%Z.
Proof.
  intros Hval. unfold intern_radix. rewrite decide_False by lia.
  assert (HL : (0 ≤ Z.log2 val < 32)%Z) by (split; [apply Z.log2_nonneg|apply Z.log2_lt_pow2; lia]).
  assert (H0 : radix_inv (4 + 1) (Z.log2 val) (val, 1%Z)).
  { split; simpl; [lia|by apply Z.bit_log2; lia| |rewrite Z.div_small; lia].
    intros p Hp Hb. assert (p ≤ Z.log2 val)%Z.
    { apply Z.nlt_ge. intros Hlt. rewrite Z.bits_above_log2 in Hb; [done|lia|done]. }
    split; [done|]. rewrite !Z.div_small; lia. }
  apply (mask_step_inv 0xffff0000) in H0; [|lia|done|by apply mask_positions].
  apply (mask_step_inv 0xff00ff00 3) in H0; [|lia|done|by apply mask_positions].
  apply (mask_step_inv 0xf0f0f0f0 2) in H0; [|lia|done|by apply mask_positions].
  apply (mask_step_inv 0xcccccccc 1) in H0; [|lia|done|by apply mask_positions].
  apply (mask_step_inv 0xaaaaaaaa 0) in H0; [|lia|done|by apply mask_positions].
  destruct H0 as [_ _ _ Hrc]. change (2 ^ 0)%Z with 1%Z in Hrc. rewrite Z.div_1_r in Hrc.
  etrans; [exact Hrc|lia].
Qed.

(** The bucket of a distance. *)
Lemma intern_radix_le val k :
  (0 ≤ val < 2 ^ 32)%Z → (0 ≤ k)%Z → (intern_radix val ≤ k)%Z ↔ (val < 2 ^ k)%Z.
Proof.
  intros Hval Hk. destruct (decide (val = 0%Z)) as [->|Hne].
  - change (intern_radix 0) with 0%Z. pose proof (Z.pow_pos_nonneg 2 k ltac:(lia) Hk). lia.
  - rewrite intern_radix_spec, (Z.log2_lt_pow2 val k) by lia. lia.
Qed.
Lemma intern_radix_range val : (0 ≤ val < 2 ^ 32)%Z → (0 ≤ intern_radix val ≤ 32)%Z.
Proof.
  intros Hval. split; [|by apply intern_radix_le; [|lia|]; lia]. destruct (decide (val = 0%Z)) as [->|Hne]; [done|].
  rewrite intern_radix_spec by lia. pose proof (Z.log2_nonneg val). lia.
Qed.

(** ** Rings *)
Section rings.
Implicit Types (s : radix_heap) (n m a h : nat) (l : list nat) (B : list (list nat)) (x y : radix_node).

(** The list goes around: after the last node comes the first. *)
Definition node_ring s l : Prop := ∀ i n, l !! i = Some n → ∃ x, rh_nodes s !! n = Some x ∧
  rn_next x = match l !! S i with Some m => Some m | None => head l end ∧
  Some (rn_prev x) = match i with 0 => last l | S j => l !! j end.

(** The data and the other members are kept. *)
Record rh_same s s' : Prop := RhSame {
  sm_data : rn_data <$> rh_nodes s' = rn_data <$> rh_nodes s;
  sm_buckets : rh_buckets s' = rh_buckets s;
  sm_offset : rh_offset s' = rh_offset s;
  sm_cut : rh_cut s' = rh_cut s;
  sm_size : rh_size s' = rh_size s;
}.
#[export] Instance rh_same_preorder : PreOrder rh_same.
Proof.
  split; [by intros s|]. intros s1 s2 s3 [] []. split; congruence.
Qed.

Lemma rn_alter_spec f n s x :
  rh_nodes s !! n = Some x → (∀ y, rn_data (f y) = rn_data y) →
  ∃ s', rn_alter f n s = Some s' ∧ rh_same s s' ∧
    ∀ a, rh_nodes s' !! a = (if decide (a = n) then f else id) <$> rh_nodes s !! a.
Proof.
  intros Hn Hf. unfold rn_alter. rewrite Hn. simpl. eexists. split_and!; [done| |].
  - split; simpl; [|done..]. rewrite fmap_insert, Hf. apply insert_id. by rewrite lookup_fmap, Hn.
  - intros a. simpl. case_decide as Ha; [subst; by rewrite lookup_insert_eq, Hn|].
    rewrite lookup_insert_ne by done. by destruct (rh_nodes s !! a).
Qed.

Lemma ring_frame s s' l : node_ring s l → (∀ a, a ∈ l → rh_nodes s' !! a = rh_nodes s !! a) → node_ring s' l.
Proof.
  intros Hr Hf i n Hi. rewrite Hf by (by eapply list_elem_of_lookup_2). by apply Hr.
Qed.

Lemma ring_lookup s l n : node_ring s l → n ∈ l → is_Some (rh_nodes s !! n).
Proof. intros Hr [i Hi]%list_elem_of_lookup. destruct (Hr i n Hi) as (x & -> & _). by eexists. Qed.

Lemma ring_single s n x :
  rh_nodes s !! n = Some x → rn_prev x = n → rn_next x = Some n → node_ring s [n].
Proof.
  intros Hn Hp Hq i a Hi. apply list_lookup_singleton_Some in Hi as [-> <-]. exists x. simpl. by rewrite Hp.
Qed.

(** What the four assignments of [insert] do. *)
Definition insert_node (n h p : nat) a x : radix_node :=
  if decide (a = n) then RadixNode p (Some h) (rn_data x)
  else RadixNode (if decide (a = h) then n else rn_prev x) (if decide (a = p) then Some n else rn_next x) (rn_data x).

Lemma rn_insert_run n h s xn xh xp :
  rh_nodes s !! n = Some xn → rh_nodes s !! h = Some xh → rh_nodes s !! rn_prev xh = Some xp →
  n ≠ h → n ≠ rn_prev xh →
  ∃ s', rn_insert n h s = Some s' ∧ rh_same s s' ∧
    ∀ a, rh_nodes s' !! a = insert_node n h (rn_prev xh) a <$> rh_nodes s !! a.
Proof.
  intros Hxn Hxh Hxp Hnh Hnp. set (p := rn_prev xh) in *.
  unfold rn_insert, rn_set_prev, rn_set_next. rewrite Hxh. simpl. fold p.
  destruct (rn_alter_spec (λ x, RadixNode p (rn_next x) (rn_data x)) n s xn Hxn) as (s1 & -> & Hs1 & Hl1); [done|]. simpl.
  destruct (rn_alter_spec (λ x, RadixNode (rn_prev x) (Some n) (rn_data x)) p s1 xp) as (s2 & -> & Hs2 & Hl2);
    [by rewrite Hl1, decide_False, Hxp by done|done|]. simpl.
  destruct (rn_alter_spec (λ x, RadixNode (rn_prev x) (Some h) (rn_data x)) n s2 (RadixNode p (rn_next xn) (rn_data xn)))
    as (s3 & -> & Hs3 & Hl3); [by rewrite Hl2, decide_False, Hl1, decide_True, Hxn by done|done|]. simpl.
  assert (Hh3 : ∃ y, rh_nodes s3 !! h = Some y) by (rewrite Hl3, Hl2, Hl1, Hxh; by eexists).
  destruct Hh3 as [y Hy].
  destruct (rn_alter_spec (λ x, RadixNode n (rn_next x) (rn_data x)) h s3 y Hy) as (s4 & Hrun & Hs4 & Hl4); [done|].
  exists s4. split_and!; [exact Hrun|by do 3 (etrans; [done|])|].
  intros a. rewrite Hl4, Hl3, Hl2, Hl1. unfold insert_node. destruct (rh_nodes s !! a) as [[]|]; [simpl|done]. f_equal.
  destruct (decide (a = n)) as [->|]; [by rewrite !decide_False by done|].
  destruct (decide (a = h)), (decide (a = p)); done.
Qed.

(** [n->insert(h)], where [h] is the first of a ring, adds [n] at the end. *)
Lemma rn_insert_spec n h l s :
  node_ring s [n] → node_ring s (h :: l) → NoDup (n :: h :: l) →
  ∃ s', rn_insert n h s = Some s' ∧ rh_same s s' ∧ node_ring s' (h :: l ++ [n]) ∧
    ∀ a, a ∉ n :: h :: l → rh_nodes s' !! a = rh_nodes s !! a.
Proof.
  intros Hn Hr Hnd. destruct (Hn 0 n eq_refl) as (xn & Hxn & _). destruct (Hr 0 h eq_refl) as (xh & Hxh & _ & Hp).
  apply NoDup_cons in Hnd as [Hnl Hnd].
  assert (Hpl : rn_prev xh ∈ h :: l) by (by apply elem_of_last). destruct (ring_lookup _ _ _ Hr Hpl) as [xp Hxp].
  destruct (rn_insert_run n h s xn xh xp) as (s' & Hrun & Hs & Hlook); [done|done|done| |by intros ->|].
  { intros ->. apply Hnl, elem_of_cons. by left. }
  set (p := rn_prev xh) in *. exists s'. split_and!; [done|done| |].
  - rewrite last_lookup in Hp. simpl length in Hp. simpl pred in Hp. rewrite NoDup_alt in Hnd. intros i a Hi.
    change (h :: l ++ [n]) with ((h :: l) ++ [n]) in *. rewrite last_snoc.
    apply lookup_snoc_Some in Hi as [[Hlt Hi]|[-> <-]].
    + assert (a ≠ n) as Han by (intros ->; apply Hnl; by eapply list_elem_of_lookup_2).
      destruct (Hr i a Hi) as (x & Hx & Hnx & Hpx). eexists. rewrite Hlook, Hx. split; [done|].
      unfold insert_node. rewrite decide_False by done. simpl rn_next. simpl rn_prev. simpl length in Hlt. split.
      * destruct (decide (a = p)) as [->|Hap].
        { assert (i = length l) as -> by (by apply (Hnd _ _ p)). by rewrite (lookup_app_r (h :: l)), Nat.sub_diag by (simpl; lia). }
        assert (S i < length (h :: l)). { destruct (decide (i = length l)) as [->|]; [congruence|simpl; lia]. }
        rewrite (lookup_app_l (h :: l)) by done. rewrite Hnx. by destruct (lookup_lt_is_Some_2 (h :: l) (S i)) as [? ->].
      * destruct i as [|i]; [injection Hi as <-; by rewrite decide_True|].
        rewrite decide_False by (intros ->; by specialize (Hnd (S i) 0 h Hi eq_refl)).
        change (Some (rn_prev x) = ((h :: l) ++ [n]) !! i). by rewrite (lookup_app_l (h :: l)) by (simpl in *; lia).
    + eexists. rewrite Hlook, Hxn. split; [done|]. unfold insert_node. rewrite decide_True by done. split; [|simpl length].
      * by rewrite lookup_ge_None_2 by (rewrite length_app; simpl; lia).
      * change (Some p = ((h :: l) ++ [n]) !! length l). by rewrite (lookup_app_l (h :: l)) by (simpl; lia).
  - intros a (Han & Hal)%not_elem_of_cons. rewrite Hlook. unfold insert_node.
    destruct (rh_nodes s !! a) as [[]|]; [simpl|done].
    rewrite !decide_False; [done|by intros ->|intros ->; apply Hal, elem_of_cons; by left|done].
Qed.

(** [n->remove()] of the first of a ring: the rest is a ring, and so is [n]. *)
Definition remove_node (n q p : nat) a x : radix_node :=
  if decide (a = n) then RadixNode n (Some n) (rn_data x)
  else RadixNode (if decide (a = q) then p else rn_prev x) (if decide (a = p) then Some q else rn_next x) (rn_data x).

Lemma rn_remove_run n q s xn xp xq :
  rh_nodes s !! n = Some xn → rn_next xn = Some q → rh_nodes s !! rn_prev xn = Some xp → rh_nodes s !! q = Some xq →
  rn_prev xn ≠ n → n ≠ q →
  ∃ s', rn_remove n s = Some (Some q, s') ∧ rh_same s s' ∧
    ∀ a, rh_nodes s' !! a = remove_node n q (rn_prev xn) a <$> rh_nodes s !! a.
Proof.
  intros Hxn Hnx Hxp Hxq Hpn Hnq. set (p := rn_prev xn) in *.
  unfold rn_remove, rn_set_prev, rn_set_next. rewrite Hxn. simpl. rewrite Hnx. simpl. fold p.
  destruct (rn_alter_spec (λ x, RadixNode (rn_prev x) (Some q) (rn_data x)) p s xp Hxp) as (s1 & -> & Hs1 & Hl1); [done|]. simpl.
  assert (∃ y, rh_nodes s1 !! q = Some y) as [y Hy] by (rewrite Hl1, Hxq; by eexists).
  destruct (rn_alter_spec (λ x, RadixNode p (rn_next x) (rn_data x)) q s1 y Hy) as (s2 & -> & Hs2 & Hl2); [done|]. simpl.
  rewrite decide_False by done.
  assert (∃ z, rh_nodes s2 !! n = Some z) as [z Hz] by (rewrite Hl2, Hl1, Hxn; by eexists).
  destruct (rn_alter_spec (λ x, RadixNode n (rn_next x) (rn_data x)) n s2 z Hz) as (s3 & -> & Hs3 & Hl3); [done|]. simpl.
  assert (∃ w, rh_nodes s3 !! n = Some w) as [w Hw] by (rewrite Hl3, Hz; by eexists).
  destruct (rn_alter_spec (λ x, RadixNode (rn_prev x) (Some n) (rn_data x)) n s3 w Hw) as (s4 & -> & Hs4 & Hl4); [done|].
  simpl. exists s4. split_and!; [done|by do 3 (etrans; [done|])|].
  intros a. rewrite Hl4, Hl3, Hl2, Hl1. unfold remove_node. destruct (rh_nodes s !! a) as [[]|]; [simpl|done]. f_equal.
  destruct (decide (a = n)) as [->|]; [by rewrite !decide_False by done|].
  destruct (decide (a = q)), (decide (a = p)); done.
Qed.

Lemma rn_remove_spec n l s :
  node_ring s (n :: l) → NoDup (n :: l) →
  ∃ s', rn_remove n s = Some (head l, s') ∧ rh_same s s' ∧ node_ring s' [n] ∧ node_ring s' l ∧
    ∀ a, a ∉ n :: l → rh_nodes s' !! a = rh_nodes s !! a.
Proof.
  intros Hr Hnd. destruct (Hr 0 n eq_refl) as (xn & Hxn & Hnx & Hp). simpl in Hnx.
  apply NoDup_cons in Hnd as [Hnl Hnd]. destruct l as [|q l].
  - injection Hp as Hp. simpl in Hnx. unfold rn_remove, rn_set_prev, rn_set_next. rewrite Hxn. simpl. rewrite Hnx. simpl. rewrite Hp.
    destruct (rn_alter_spec (λ x, RadixNode (rn_prev x) (Some n) (rn_data x)) n s xn Hxn) as (s1 & -> & Hs1 & Hl1); [done|]. simpl.
    destruct (rn_alter_spec (λ x, RadixNode n (rn_next x) (rn_data x)) n s1 (RadixNode (rn_prev xn) (Some n) (rn_data xn)))
      as (s2 & -> & Hs2 & Hl2); [by rewrite Hl1, decide_True, Hxn|done|]. simpl. rewrite decide_True by done.
    exists s2. split_and!; [done|by etrans| |by intros i a|].
    + eapply ring_single; [rewrite Hl2, Hl1, !decide_True, Hxn by done|..]; done.
    + intros a Ha. rewrite list_elem_of_singleton in Ha. rewrite Hl2, Hl1, !decide_False by done. by destruct (rh_nodes s !! a).
  - simpl in Hnx. set (p := rn_prev xn) in *.
    assert (Hpl : last (q :: l) = Some p) by (by rewrite Hp).
    assert (Hpin : p ∈ q :: l) by (by apply elem_of_last).
    destruct (ring_lookup _ _ p Hr) as [xp Hxp]; [by apply elem_of_cons; right|].
    destruct (ring_lookup _ _ q Hr) as [xq Hxq]; [apply elem_of_cons; right; apply elem_of_cons; by left|].
    assert (n ≠ q) by (intros ->; apply Hnl, elem_of_cons; by left).
    destruct (rn_remove_run n q s xn xp xq) as (s' & Hrun & Hs & Hlook); [done..|intros E; apply Hnl; rewrite <-E; exact Hpin|done|].
    exists s'. split_and!; [done|done| | |].
    + eapply ring_single; [rewrite Hlook, Hxn; unfold remove_node; simpl; by rewrite decide_True|done|done].
    + rewrite last_lookup in Hpl. simpl length in Hpl. simpl pred in Hpl. rewrite NoDup_alt in Hnd. intros i a Hi.
      assert (a ≠ n) as Han by (intros ->; apply Hnl; by eapply list_elem_of_lookup_2).
      destruct (Hr (S i) a Hi) as (x & Hx & Hnx' & Hpx). eexists. rewrite Hlook, Hx. split; [done|].
      unfold remove_node. rewrite decide_False by done. simpl rn_next. simpl rn_prev. fold p. split.
      * destruct (decide (a = p)) as [->|Hap].
        { assert (i = length l) as -> by (by apply (Hnd _ _ p)). by rewrite lookup_ge_None_2 by (simpl; lia). }
        pose proof (lookup_lt_Some _ _ _ Hi) as Hlt. simpl in Hlt.
        assert (S i < length (q :: l)). { destruct (decide (i = length l)) as [->|]; [congruence|simpl; lia]. }
        rewrite Hnx'. change ((n :: q :: l) !! S (S i)) with ((q :: l) !! S i).
        by destruct (lookup_lt_is_Some_2 (q :: l) (S i)) as [? ->].
      * destruct i as [|i]; [injection Hi as <-; by rewrite decide_True, last_lookup|].
        rewrite decide_False by (intros ->; by specialize (Hnd (S i) 0 q Hi eq_refl)). done.
    + intros a (Han & Hal)%not_elem_of_cons. rewrite Hlook. unfold remove_node.
      destruct (rh_nodes s !! a) as [[]|]; [simpl|done].
      rewrite !decide_False; [done|by intros ->|intros ->; apply Hal, elem_of_cons; by left|done].
Qed.
End rings.
