(* ===== verification/RadixSort.v ===== *)
(** * Sorting with the radix heap

    The buckets of the radix heap (RadixHeap) as lists of nodes, and what the
    operations do to them: elements that are pushed to a new heap and then taken
    out come in order. Elements pushed after the buckets were distributed may come
    too late, which is shown at the end with what else goes wrong. *)
From stdpp Require Import sorting.
From S2P Require Import Prelude PriorityQueue FibHeap FibQueue RadixHeap.

(** ** Buckets *)
Section buckets.
Context (W : Z).
Implicit Types (s : radix_heap) (n m a b i j k : nat) (l : list nat) (B : list (list nat)) (x y : radix_node).

(** The lists of the buckets. *)
Record rh_rep s B : Prop := RhRep {
  rp_len : length B = 33;
  rp_heads : rh_buckets s = head <$> B;
  rp_rings l : l ∈ B → node_ring s l;
  rp_nodup : NoDup (concat B);
}.

(** What no operation on the buckets changes. *)
Record rh_kept s s' : Prop := RhKept {
  rk_data : rn_data <$> rh_nodes s' = rn_data <$> rh_nodes s;
  rk_offset : rh_offset s' = rh_offset s;
  rk_cut : rh_cut s' = rh_cut s;
  rk_size : rh_size s' = rh_size s;
}.
#[export] Instance rh_kept_preorder : PreOrder rh_kept.
Proof. split; [by intros s|]. intros s1 s2 s3 [] []. split; congruence. Qed.
Lemma same_kept s s' : rh_same s s' → rh_kept s s'.
Proof. by intros []. Qed.

(** The distance of a node from zero; what is no node has none. *)
Definition rh_val s a : Z := match rh_nodes s !! a with Some x => radix_value W (rn_data x) | None => 0 end.
Definition rh_idx s (off : Z) a : nat := Z.to_nat (intern_radix (wrapu W (rh_val s a - off))).

Lemma kept_val s s' a : rn_data <$> rh_nodes s' = rn_data <$> rh_nodes s → rh_val s' a = rh_val s a.
Proof.
  intros H. apply (f_equal (.!! a)) in H. rewrite !lookup_fmap in H. unfold rh_val.
  destruct (rh_nodes s' !! a), (rh_nodes s !! a); simpl in H; congruence.
Qed.

(** [a] is in bucket [i]. *)
Definition in_bucket B i a : Prop := ∃ l, B !! i = Some l ∧ a ∈ l.

Lemma in_bucket_concat B i a : in_bucket B i a → a ∈ concat B.
Proof. intros (l & Hl & Ha). apply list_elem_of_In, in_concat. exists l. split; apply list_elem_of_In; [by eapply list_elem_of_lookup_2|done]. Qed.
Lemma concat_in_bucket B a : a ∈ concat B → ∃ i, in_bucket B i a.
Proof.
  intros (l & Hl & Ha)%list_elem_of_In%in_concat. apply list_elem_of_In, list_elem_of_lookup in Hl as [i Hi].
  exists i, l. by rewrite list_elem_of_In.
Qed.

Lemma concat_insert B i l l' : B !! i = Some l → concat (<[i := l']> B) ++ l ≡ₚ concat B ++ l'.
Proof.
  intros Hi. rewrite (insert_take_drop B) by (by eapply lookup_lt_Some).
  rewrite <-(take_drop_middle B i l Hi) at 3. rewrite !concat_app. simpl. solve_Permutation.
Qed.

Lemma in_bucket_insert B i l l' j a :
  B !! i = Some l → in_bucket (<[i := l']> B) j a ↔ (j = i ∧ a ∈ l') ∨ (j ≠ i ∧ in_bucket B j a).
Proof.
  intros Hi. apply lookup_lt_Some in Hi as Hlt. unfold in_bucket. split.
  - intros (l1 & [(-> & -> & _)|[Hij Hj]]%list_lookup_insert_Some & Ha); [by left|right]. split; [done|]. by exists l1.
  - intros [[-> Ha]|(Hne & l1 & Hl1 & Ha)]; [exists l'|exists l1]; (split; [|done]).
    + by apply list_lookup_insert_eq.
    + by rewrite list_lookup_insert_ne by done.
Qed.

Lemma nodup_buckets B i j l l' a : NoDup (concat B) → B !! i = Some l → B !! j = Some l' → a ∈ l → a ∈ l' → i = j.
Proof.
  revert i j. induction B as [|l0 B IH]; intros i j Hnd Hi Hj Ha Ha'; [done|]. simpl in Hnd.
  apply NoDup_app in Hnd as (_ & Hd & Hnd).
  destruct i as [|i], j as [|j]; simpl in *; [done| | |f_equal; by eapply IH]; simplify_eq;
    exfalso; (eapply Hd; [eassumption|]); [apply (in_bucket_concat B j)|apply (in_bucket_concat B i)]; eexists; eauto.
Qed.

(** A node that is in no bucket, alone, gets into the bucket of its distance. *)
Lemma rh_insert_spec s B n off :
  rh_rep s B → node_ring s [n] → n ∉ concat B → rh_idx s off n < 33 →
  ∃ s' l, B !! rh_idx s off n = Some l ∧ rh_insert W n off s = Some s' ∧
    rh_rep s' (<[rh_idx s off n := l ++ [n]]> B) ∧ rh_kept s s' ∧
    (∀ a, a ∉ n :: concat B → rh_nodes s' !! a = rh_nodes s !! a).
Proof.
  intros [Hlen Hheads Hrings Hnd] Hn HnB Hidx. destruct (Hn 0 n eq_refl) as (x & Hx & _).
  unfold rh_insert. rewrite Hx. simpl.
  assert (Z.to_nat (radix_radix W (rn_data x) off) = rh_idx s off n) as ->.
  { unfold rh_idx, rh_val, radix_radix. by rewrite Hx. }
  set (i := rh_idx s off n) in *. destruct (lookup_lt_is_Some_2 B i) as [l Hl]; [lia|].
  rewrite Hheads, list_lookup_fmap, Hl. simpl.
  assert (HlB : l ∈ B) by (by eapply list_elem_of_lookup_2).
  assert (Hlc : ∀ a, a ∈ l → a ∈ concat B) by (intros a Ha; apply (in_bucket_concat B i); by exists l).
  assert (Hnd' : NoDup (concat (<[i := l ++ [n]]> B))).
  { pose proof (concat_insert B i l (l ++ [n]) Hl) as Hp. rewrite (assoc_L (++)) in Hp.
    assert (Hp' : concat (<[i := l ++ [n]]> B) ≡ₚ concat B ++ [n]).
    { apply (Permutation_app_inv_r l). rewrite Hp. solve_Permutation. }
    rewrite Hp'. apply NoDup_app. split_and!; [done| |apply NoDup_singleton].
    by intros a Ha ->%list_elem_of_singleton. }
  assert (Hnew : ∀ s', (∀ a, a ∉ n :: l → rh_nodes s' !! a = rh_nodes s !! a) → node_ring s' (l ++ [n]) →
    ∀ l', l' ∈ <[i := l ++ [n]]> B → node_ring s' l').
  { intros s' Hf Hr l' [j Hj]%list_elem_of_lookup. apply list_lookup_insert_Some in Hj as [(<- & <- & _)|[Hij Hj]]; [done|].
    eapply ring_frame; [apply Hrings; by eapply list_elem_of_lookup_2|]. intros a Ha. apply Hf.
    rewrite not_elem_of_cons. split.
    - intros ->. apply HnB, (in_bucket_concat B j). by exists l'.
    - intros Hal. by apply Hij, (nodup_buckets B i j l l' a). }
  destruct l as [|h l]; simpl.
  - unfold rh_set_bucket. rewrite Hheads, length_fmap, decide_True by lia. eexists _, []. split_and!; [done|done| | |done].
    + split; simpl; [by rewrite length_insert|by rewrite list_fmap_insert|by apply Hnew|done].
    + by split.
  - destruct (rn_insert_spec n h l s Hn) as (s' & -> & Hs & Hr & Hf); [by apply Hrings| |].
    { apply NoDup_cons. split; [by intros ?%Hlc|]. rewrite <-(take_drop_middle B i _ Hl), concat_app in Hnd.
      simpl in Hnd. apply NoDup_app in Hnd as (_ & _ & Hnd). by apply (NoDup_app (h :: l)) in Hnd as (? & _). }
    exists s', (h :: l). split_and!; [done|done| |by apply same_kept|].
    + split; [by rewrite length_insert| |by apply Hnew|done]. rewrite (sm_buckets _ _ Hs), Hheads, list_fmap_insert. simpl.
      symmetry. apply list_insert_id. by rewrite list_lookup_fmap, Hl.
    + intros a (Han & HaB)%not_elem_of_cons. apply Hf. rewrite not_elem_of_cons. split; [done|]. by intros ?%Hlc.
Qed.

Lemma kept_idx s s' off a : rh_kept s s' → rh_idx s' off a = rh_idx s off a.
Proof. intros Hk. unfold rh_idx. by rewrite (kept_val s s' a (rk_data _ _ Hk)). Qed.

(** The nodes of a ring are distributed to the buckets. *)
Lemma redistribute_spec fuel n l s B :
  rh_rep s B → node_ring s (n :: l) → NoDup (n :: l ++ concat B) → length (n :: l) ≤ fuel →
  (∀ a, a ∈ n :: l → rh_idx s (rh_offset s) a < 33) →
  ∃ s' B', redistribute W fuel n s = Ret s' ∧ rh_rep s' B' ∧ rh_kept s s' ∧
    concat B' ≡ₚ n :: l ++ concat B ∧
    ∀ i a, in_bucket B' i a ↔ in_bucket B i a ∨ (a ∈ n :: l ∧ i = rh_idx s (rh_offset s) a).
Proof.
  revert n l s B. induction fuel as [|fuel IH]; intros n l s B Hrep Hr Hnd Hfuel Hidx; simpl in Hfuel; [lia|]. simpl.
  assert (Hndl : NoDup (n :: l)) by (apply (NoDup_app (n :: l)) in Hnd; tauto).
  assert (Hsep : ∀ a, a ∈ n :: l → a ∉ concat B) by (apply (NoDup_app (n :: l)) in Hnd; tauto).
  destruct (rn_remove_spec n l s Hr Hndl) as (s1 & -> & Hs1 & Hn1 & Hl1 & Hf1). simpl.
  assert (Hrep1 : rh_rep s1 B).
  { destruct Hrep as [Hlen Hheads Hrings HndB]. split; [done|by rewrite (sm_buckets _ _ Hs1)| |done].
    intros l' Hl'. eapply ring_frame; [by apply Hrings|]. intros a Ha. apply Hf1. intros Hal. apply (Hsep a Hal).
    apply list_elem_of_lookup in Hl' as [j Hj]. apply (in_bucket_concat B j). by exists l'. }
  pose proof (same_kept _ _ Hs1) as Hk1. pose proof (rk_offset _ _ Hk1) as Ho1. rewrite Ho1.
  pose proof (kept_idx s s1 (rh_offset s) n Hk1) as Hi1.
  destruct (rh_insert_spec s1 B n (rh_offset s) Hrep1 Hn1) as (s2 & b & Hb & -> & Hrep2 & Hk2 & Hf2).
  { apply Hsep, elem_of_cons. by left. }
  { rewrite Hi1. apply Hidx, elem_of_cons. by left. }
  rewrite Hi1 in *. set (i := rh_idx s (rh_offset s) n) in *. simpl.
  assert (Hc2 : concat (<[i := b ++ [n]]> B) ≡ₚ n :: concat B).
  { apply (Permutation_app_inv_r b). rewrite (concat_insert B i b _ Hb). solve_Permutation. }
  assert (Hin2 : ∀ j a, in_bucket (<[i := b ++ [n]]> B) j a ↔ in_bucket B j a ∨ (a = n ∧ j = i)).
  { intros j a. rewrite (in_bucket_insert B i b _ j a Hb), elem_of_app, list_elem_of_singleton. split.
    - intros [(-> & [Ha|Ha])|[_ ?]]; [left; by exists b|by right|by left].
    - intros [Ha|[-> ->]]; [|left; auto]. destruct (decide (j = i)) as [->|]; [left|by right]. split; [done|left].
      destruct Ha as (b' & Hb' & Ha). by simplify_eq. }
  destruct l as [|q l]; simpl.
  - exists s2, (<[i := b ++ [n]]> B). split_and!; [done|done|by etrans|done|]. intros j a. rewrite Hin2, list_elem_of_singleton.
    split; (intros [?|[-> ->]]; [by left|by right]).
  - assert (Hk12 : rh_kept s s2) by (by etrans). pose proof (rk_offset _ _ Hk12) as Ho2.
    destruct (IH q l s2 (<[i := b ++ [n]]> B)) as (s' & B' & Hrun & Hrep' & Hk' & Hc' & Hin'); [done| | |simpl in *; lia| |].
    + eapply ring_frame; [done|]. intros a Ha. apply Hf2. rewrite not_elem_of_cons. split.
      * intros ->. by apply NoDup_cons in Hndl as [? _].
      * apply Hsep, elem_of_cons. by right.
    + change (q :: l ++ concat (<[i := b ++ [n]]> B)) with ((q :: l) ++ concat (<[i := b ++ [n]]> B)).
      rewrite Hc2, <-Permutation_middle. done.
    + intros a Ha. rewrite Ho2, (kept_idx s s2 _ a Hk12). apply Hidx, elem_of_cons. by right.
    + exists s', B'. split_and!; [exact Hrun|done|by etrans| |].
      * rewrite Hc', Hc2. symmetry. apply (Permutation_middle (q :: l)).
      * intros j a. rewrite Hin', Hin2, Ho2, (kept_idx s s2 _ a Hk12), (elem_of_cons (q :: l)). fold i. split.
        -- intros [[?|[-> ->]]|[? ->]]; [by left|right; split; [by left|done]|right; split; [by right|done]].
        -- intros [?|[[->|?] ->]]; [by left; left|left; by right|right; split; done].
Qed.

(** The minimum of the values of a ring. *)
Lemma ring_min_spec fuel s start l1 l2 min :
  node_ring s ((start :: l1) ++ l2) → NoDup ((start :: l1) ++ l2) → length l2 ≤ fuel →
  ∃ min', ring_min W fuel start (match head l2 with Some m => Some m | None => Some start end) min s = Ret min' ∧
    (min' ≤ min)%Z ∧ (∀ a, a ∈ l2 → (min' ≤ rh_val s a)%Z) ∧ (min' = min ∨ ∃ a, a ∈ l2 ∧ min' = rh_val s a).
Proof.
  intros Hr Hnd. revert l1 fuel min Hr Hnd. induction l2 as [|b l2 IH]; intros l1 fuel min Hr Hnd Hfuel; simpl.
  { exists min. split_and!; [destruct fuel; simpl; by rewrite decide_True|done|by intros a ?%elem_of_nil|by left]. }
  destruct fuel as [|fuel]; simpl in *; [lia|].
  assert (b ≠ start) as Hbs by (intros ->; apply NoDup_cons in Hnd as [[]%not_elem_of_app _]; set_solver).
  rewrite decide_False by congruence.
  destruct (Hr (length (start :: l1)) b) as (x & Hx & Hnx & _).
  { change (start :: l1 ++ b :: l2) with ((start :: l1) ++ b :: l2). by apply list_lookup_middle. }
  rewrite Hx. simpl. set (v := radix_value W (rn_data x)). assert (Hv : rh_val s b = v) by (unfold rh_val; by rewrite Hx).
  assert (Hnext : rn_next x = match head l2 with Some m => Some m | None => Some start end).
  { rewrite Hnx. change (start :: l1 ++ b :: l2) with ((start :: l1) ++ b :: l2).
    rewrite lookup_app_r by (simpl; lia). replace (S (length (start :: l1)) - length (start :: l1)) with 1 by lia.
    by destruct l2. }
  rewrite Hnext. destruct (IH (l1 ++ [b]) fuel (if decide (v < min)%Z then v else min)) as (min' & -> & Hle & Hall & Hor);
    [by rewrite <-(assoc_L (++))..|lia|].
  exists min'. split_and!; [done|case_decide; lia| |].
  - intros a [->|Ha]%elem_of_cons; [|by apply Hall]. rewrite Hv. case_decide; lia.
  - destruct Hor as [->|(a & Ha & ->)]; [|right; exists a; split; [by apply elem_of_cons; right|done]].
    case_decide; [right|by left]. exists b. split; [by apply elem_of_cons; left|done].
Qed.

Lemma ring_min_whole s start l :
  node_ring s (start :: l) → NoDup (start :: l) → length l ≤ size (rh_nodes s) →
  ∃ x min, rh_nodes s !! start = Some x ∧
    ring_min W (size (rh_nodes s)) start (rn_next x) (radix_value W (rn_data x)) s = Ret min ∧
    (∀ a, a ∈ start :: l → (min ≤ rh_val s a)%Z) ∧ ∃ a, a ∈ start :: l ∧ min = rh_val s a.
Proof.
  intros Hr Hnd Hlen. destruct (Hr 0 start eq_refl) as (x & Hx & Hnx & _).
  assert (Hv : rh_val s start = radix_value W (rn_data x)) by (unfold rh_val; by rewrite Hx).
  destruct (ring_min_spec (size (rh_nodes s)) s start [] l (radix_value W (rn_data x)) Hr Hnd Hlen)
    as (min & Hrun & Hle & Hall & Hor).
  exists x, min. split_and!; [done| | |].
  - rewrite <-Hrun. f_equal. rewrite Hnx. by destruct l.
  - intros a [->|Ha]%elem_of_cons; [by rewrite Hv|by apply Hall].
  - destruct Hor as [->|(a & Ha & ->)]; [exists start|exists a]; rewrite elem_of_cons; auto.
Qed.

(** ** The order of the buckets *)

(** Later buckets have greater values, and the values of one bucket differ by
    less than half of what its bit is worth. *)
Record rh_sorted s B : Prop := RhSorted {
  so_range a : a ∈ concat B → (0 ≤ rh_val s a < 2 ^ 32)%Z;
  so_sep i j a b : i < j → in_bucket B i a → in_bucket B j b → (rh_val s a < rh_val s b)%Z;
  so_span i a b : in_bucket B i a → in_bucket B i b → (2 * (rh_val s b - rh_val s a) < 2 ^ Z.of_nat i)%Z;
}.

Context (HW : (32 < W)%Z).

Lemma wrapu_distance v off : (0 ≤ v < 2 ^ 32)%Z → (0 ≤ off ≤ v)%Z → wrapu W (v - off) = (v - off)%Z.
Proof.
  intros Hv Ho. apply wrapu_small. unfold is_uint. pose proof (Z.pow_lt_mono_r 2 32 W ltac:(lia) ltac:(lia) HW). lia.
Qed.

(** The index of the bucket, as a bound of the distance. *)
Lemma rh_idx_le s off a k :
  (0 ≤ rh_val s a < 2 ^ 32)%Z → (0 ≤ off ≤ rh_val s a)%Z →
  rh_idx s off a ≤ k ↔ (rh_val s a - off < 2 ^ Z.of_nat k)%Z.
Proof.
  intros Hv Ho. unfold rh_idx. rewrite (wrapu_distance _ _ Hv Ho).
  rewrite <-(intern_radix_le (rh_val s a - off) (Z.of_nat k)) by lia.
  pose proof (intern_radix_range (rh_val s a - off) ltac:(lia)). lia.
Qed.

Lemma rh_idx_bounds s off a :
  (0 ≤ rh_val s a < 2 ^ 32)%Z → (0 ≤ off ≤ rh_val s a)%Z →
  (rh_val s a - off < 2 ^ Z.of_nat (rh_idx s off a))%Z ∧
  (rh_idx s off a ≠ 0 → (2 ^ Z.of_nat (rh_idx s off a) ≤ 2 * (rh_val s a - off))%Z).
Proof.
  intros Hv Ho. split; [by apply rh_idx_le|]. intros Hne.
  destruct (rh_idx s off a) as [|k] eqn:E; [done|]. apply Z.nlt_ge. intros Hlt.
  assert (rh_idx s off a ≤ k); [|lia]. apply rh_idx_le; [done|done|].
  rewrite Nat2Z.inj_succ, Z.pow_succ_r in Hlt by lia. lia.
Qed.

(** Buckets filled by the distance from one offset are in order. *)
Lemma idx_sorted s off a b :
  (0 ≤ rh_val s a < 2 ^ 32)%Z → (0 ≤ rh_val s b < 2 ^ 32)%Z →
  (0 ≤ off ≤ rh_val s a)%Z → (off ≤ rh_val s b)%Z →
  (rh_idx s off a < rh_idx s off b → (rh_val s a < rh_val s b)%Z) ∧
  (rh_idx s off a = rh_idx s off b →
    (2 * (rh_val s b - rh_val s a) < 2 ^ Z.of_nat (rh_idx s off a))%Z).
Proof.
  intros Ha Hb Hoa Hob. pose proof (rh_idx_bounds s off a Ha Hoa) as [Ha1 Ha2].
  pose proof (rh_idx_bounds s off b Hb ltac:(lia)) as [Hb1 Hb2]. split.
  - intros Hlt. specialize (Hb2 ltac:(lia)).
    pose proof (Z.pow_le_mono_r 2 (Z.of_nat (S (rh_idx s off a))) (Z.of_nat (rh_idx s off b)) ltac:(lia) ltac:(lia)) as Hp.
    rewrite Nat2Z.inj_succ, Z.pow_succ_r in Hp by lia. lia.
  - intros E. rewrite <-E in *. destruct (decide (rh_idx s off a = 0)) as [E0|Hne]; [|specialize (Ha2 Hne); lia].
    rewrite E0 in *. change (2 ^ Z.of_nat 0)%Z with 1%Z in *. lia.
Qed.

Lemma first_bucket_spec (Bs : list (list nat)) i :
  concat Bs ≠ [] → ∃ k n l, first_bucket i (head <$> Bs) = Some (i + k, n) ∧ Bs !! k = Some (n :: l) ∧
    ∀ j, j < k → Bs !! j = Some [].
Proof.
  revert i. induction Bs as [|[|n l] Bs IH]; intros i Hne; simpl in *; [done| |].
  - destruct (IH (S i) Hne) as (k & n & l & Hrun & Hk & Hj). exists (S k), n, l.
    split_and!; [etrans; [exact Hrun|]; do 2 f_equal; lia|done|].
    intros [|j] Hjk; [done|]. simpl. apply Hj. lia.
  - exists 0, n, l. split_and!; [do 2 f_equal; lia|done|lia].
Qed.

Lemma rep_ring_length s B l : rh_rep s B → l ∈ B → length l ≤ size (rh_nodes s) ∧ NoDup l.
Proof.
  intros Hr Hl. assert (Hnd : NoDup l).
  { pose proof (rp_nodup _ _ Hr) as Hnd. apply list_elem_of_lookup in Hl as [i Hi].
    rewrite <-(take_drop_middle B i l Hi), concat_app in Hnd. simpl in Hnd.
    apply NoDup_app in Hnd as (_ & _ & Hnd). by apply NoDup_app in Hnd as (? & _). }
  split; [|done]. rewrite <-size_dom, <-(size_list_to_set (C := gset nat) l Hnd). apply subseteq_size.
  intros a Ha%elem_of_list_to_set. apply elem_of_dom. by apply (ring_lookup s l); [apply (rp_rings _ _ Hr)|].
Qed.

(** Emptying bucket [k], whose ring is then in no bucket. *)
Lemma rep_take s B k l min cut :
  rh_rep s B → B !! k = Some l →
  rh_rep (RadixHeap (rh_nodes s) (<[k := None]> (rh_buckets s)) min cut (rh_size s)) (<[k := []]> B) ∧
  l ++ concat (<[k := []]> B) ≡ₚ concat B.
Proof.
  intros [Hlen Hheads Hrings Hnd] Hk.
  assert (Hp : l ++ concat (<[k := []]> B) ≡ₚ concat B).
  { pose proof (concat_insert B k l [] Hk) as Hp. rewrite app_nil_r in Hp. by rewrite <-Hp, Permutation_app_comm. }
  split; [|done]. split; simpl; [by rewrite length_insert|by rewrite Hheads, list_fmap_insert| |].
  - intros l' [j Hj]%list_elem_of_lookup. apply list_lookup_insert_Some in Hj as [(_ & <- & _)|[_ Hj]]; [by intros i a|].
    intros i a Hi. apply (Hrings l'); [by eapply list_elem_of_lookup_2|done].
  - rewrite <-Hp in Hnd. by apply NoDup_app in Hnd as (_ & _ & ?).
Qed.

Lemma kept_sorted s s' B : rn_data <$> rh_nodes s' = rn_data <$> rh_nodes s → rh_sorted s B → rh_sorted s' B.
Proof.
  intros Hd [Hr Hse Hsp]. pose proof (λ a, kept_val s s' a Hd) as Hv.
  split; intros *; rewrite !Hv; [apply Hr|apply Hse|apply Hsp].
Qed.

(** The first bucket that is not empty, distributed anew. *)
Lemma distributed_sorted s B B' k l min :
  rh_sorted s B → 1 ≤ k → B !! k = Some l → (∀ j, j < k → B !! j = Some []) →
  (∀ a, a ∈ l → (min ≤ rh_val s a)%Z) → (∃ a, a ∈ l ∧ min = rh_val s a) → (0 ≤ min)%Z →
  concat B' ≡ₚ concat B →
  (∀ i a, in_bucket B' i a ↔ in_bucket (<[k := []]> B) i a ∨ (a ∈ l ∧ i = rh_idx s min a)) →
  rh_sorted s B'.
Proof.
  intros Hs Hk Hl Hlow Hmin (m & Hm & Hmm) Hmin0 Hc Hin.
  assert (Hold : ∀ i a, in_bucket (<[k := []]> B) i a → k < i ∧ in_bucket B i a).
  { intros i a [[-> ?%elem_of_nil]|[Hne Ha]]%(in_bucket_insert B k l []); [done| |done].
    split; [|done]. destruct (decide (k < i)); [done|]. destruct Ha as (l' & Hl' & Ha). rewrite Hlow in Hl' by lia.
    injection Hl' as <-. by apply elem_of_nil in Ha. }
  assert (Hnew : ∀ a, a ∈ l → in_bucket B k a ∧ (0 ≤ rh_val s a < 2 ^ 32)%Z ∧ rh_idx s min a < k).
  { intros a Ha. assert (Hka : in_bucket B k a) by (by exists l).
    assert (Hv : (0 ≤ rh_val s a < 2 ^ 32)%Z) by (by eapply (so_range _ _ Hs), in_bucket_concat).
    split_and!; [done|apply Hv..|]. specialize (Hmin a Ha).
    assert (rh_idx s min a ≤ k - 1); [|lia]. apply rh_idx_le; [done|done|].
    assert (Hkm : in_bucket B k m) by (by exists l). pose proof (so_span _ _ Hs k m a Hkm Hka) as Hspan.
    replace k with (S (k - 1)) in Hspan at 1 by lia. rewrite Nat2Z.inj_succ, Z.pow_succ_r in Hspan by lia. lia. }
  split.
  - intros a. rewrite Hc. apply (so_range _ _ Hs).
  - intros i j a b Hij [[Hki Ha]%Hold|[Ha ->]]%Hin [[Hkj Hb]%Hold|[Hb ->]]%Hin.
    + by apply (so_sep _ _ Hs i j).
    + destruct (Hnew b Hb) as (_ & _ & ?). lia.
    + destruct (Hnew a Ha) as (Hka & _ & _). by apply (so_sep _ _ Hs k j).
    + destruct (Hnew a Ha) as (_ & Hva & _), (Hnew b Hb) as (_ & Hvb & _).
      apply (idx_sorted s min a b); [done|done|split; [done|by apply Hmin]|by apply Hmin|done].
  - intros i a b [[Hki Ha]%Hold|[Ha ->]]%Hin [[Hkj Hb]%Hold|[Hb E]]%Hin.
    + by apply (so_span _ _ Hs i).
    + destruct (Hnew b Hb) as (_ & _ & ?). lia.
    + destruct (Hnew a Ha) as (_ & _ & ?). lia.
    + destruct (Hnew a Ha) as (_ & Hva & _), (Hnew b Hb) as (_ & Hvb & _).
      apply (idx_sorted s min a b); [done|done|split; [done|by apply Hmin]|by apply Hmin|done].
Qed.

Lemma reorganize_spec s B :
  rh_rep s B → rh_sorted s B → B !! 0 = Some [] → concat B ≠ [] →
  ∃ s' B', rh_reorganize W s = Ret s' ∧ rh_rep s' B' ∧ rh_sorted s' B' ∧ concat B' ≡ₚ concat B ∧
    rn_data <$> rh_nodes s' = rn_data <$> rh_nodes s ∧ rh_size s' = rh_size s ∧ ∃ n l, B' !! 0 = Some (n :: l).
Proof.
  intros Hr Hs H0 Hne. pose proof (rp_len _ _ Hr) as Hlen. destruct B as [|[|? ?] Bs] eqn:EB; [done| |done]. rewrite <-EB in *.
  destruct (first_bucket_spec Bs 1) as (k & start & l & Hfirst & Hk & Hlow); [by rewrite EB in Hne|].
  assert (Hk1 : B !! (1 + k) = Some (start :: l)) by (by rewrite EB).
  assert (Hlow1 : ∀ j, j < 1 + k → B !! j = Some []).
  { intros [|j] Hj; [done|]. rewrite EB. apply Hlow. lia. }
  assert (HlB : start :: l ∈ B) by (by eapply list_elem_of_lookup_2).
  destruct (rep_ring_length s B _ Hr HlB) as [Hlsz Hndl].
  destruct (ring_min_whole s start l) as (x & min & Hx & Hmin & Hle & a & Ha & Hma);
    [by apply (rp_rings _ _ Hr)|done|simpl in Hlsz; lia|].
  assert (Hmin0 : (0 ≤ min)%Z).
  { rewrite Hma. apply (so_range _ _ Hs), (in_bucket_concat B (1 + k)). by exists (start :: l). }
  assert (Hdrop : drop 1 (rh_buckets s) = head <$> Bs) by (by rewrite (rp_heads _ _ Hr), EB).
  unfold rh_reorganize. rewrite Hdrop, Hfirst. cbn [or_ub mbind outcome_bind].
  assert (Hkl : 1 + k < 33) by (rewrite <-Hlen; by eapply lookup_lt_Some).
  unfold shift1. rewrite decide_True by lia. cbn [or_ub mbind outcome_bind]. rewrite Hx. cbn [or_ub mbind outcome_bind].
  rewrite Hmin. cbn [or_ub mbind outcome_bind].
  destruct (rep_take s B (1 + k) (start :: l) min (wrapu W (1 ≪ Z.of_nat (1 + k))) Hr Hk1) as [Hr1 Hp].
  set (s1 := RadixHeap _ _ _ _ _) in *.
  destruct (redistribute_spec (size (rh_nodes s)) start l s1 _ Hr1) as (s' & B' & Hrun & Hr' & Hk' & Hc & Hin).
  - intros i b Hi. by apply (rp_rings _ _ Hr (start :: l)).
  - change (start :: l ++ concat (<[1 + k := []]> B)) with ((start :: l) ++ concat (<[1 + k := []]> B)).
    rewrite Hp. apply (rp_nodup _ _ Hr).
  - done.
  - intros b Hb. change (rh_idx s min b < 33).
    assert (Hvb : (0 ≤ rh_val s b < 2 ^ 32)%Z).
    { apply (so_range _ _ Hs), (in_bucket_concat B (1 + k)). by exists (start :: l). }
    specialize (Hle b Hb). assert (rh_idx s min b ≤ 32); [|lia].
    apply rh_idx_le; [done|done|]. change (2 ^ Z.of_nat 32)%Z with (2 ^ 32)%Z. lia.
  - assert (Hcc : concat B' ≡ₚ concat B) by (rewrite Hc; exact Hp).
    pose proof (distributed_sorted s B B' (1 + k) (start :: l) min Hs ltac:(lia) Hk1 Hlow1 Hle
      (ex_intro _ a (conj Ha Hma)) Hmin0 Hcc Hin) as Hs'.
    exists s', B'. split_and!; [exact Hrun|done|apply (kept_sorted s s'); [exact (rk_data _ _ Hk')|exact Hs']|done|by rewrite (rk_data _ _ Hk')|
      by rewrite (rk_size _ _ Hk')|].
    assert (Hva : (0 ≤ rh_val s a < 2 ^ 32)%Z).
    { apply (so_range _ _ Hs), (in_bucket_concat B (1 + k)). by exists (start :: l). }
    assert (in_bucket B' 0 a) as (l0 & Hl0 & Ha0).
    { apply Hin. right. split; [done|]. change (0 = rh_idx s min a). symmetry. apply Nat.le_0_r, rh_idx_le; [done|lia|].
      change (2 ^ Z.of_nat 0)%Z with 1%Z. lia. }
    destruct l0 as [|n l0]; [by apply elem_of_nil in Ha0|]. by exists n, l0.
Qed.

(** ** The operations *)
Definition rh_key s a : Z := match rh_nodes s !! a with Some x => rn_data x | None => 0 end.
Definition is_key (v : Z) : Prop := (0 ≤ v < 2 ^ 32)%Z.

(** The heap holds the elements of [B], each bucket in its place. *)
Record rh_holds s B : Prop := RhHolds {
  ho_rep : rh_rep s B;
  ho_keys a : a ∈ concat B → is_key (rh_key s a);
  ho_size : rh_size s = Z.of_nat (length (concat B));
}.
Definition rh_elems s B : list Z := rh_key s <$> concat B.

Lemma holds_lookup s B a : rh_rep s B → a ∈ concat B → ∃ x, rh_nodes s !! a = Some x.
Proof.
  intros Hr (i & l & Hl & Ha)%concat_in_bucket. apply (ring_lookup s l); [|done].
  apply (rp_rings _ _ Hr). by eapply list_elem_of_lookup_2.
Qed.

Lemma value_key v : is_key v → radix_value W v = (2 ^ 32 - 1 - v)%Z.
Proof.
  intros Hv. unfold radix_value, is_key in *. pose proof (Z.pow_lt_mono_r 2 32 W ltac:(lia) ltac:(lia) HW).
  rewrite (wrapu_small W v) by (unfold is_uint; lia). rewrite wrapu_small; [done|unfold is_uint; lia].
Qed.
Lemma val_key s B a : rh_holds s B → a ∈ concat B → rh_val s a = (2 ^ 32 - 1 - rh_key s a)%Z.
Proof.
  intros Hh Ha. destruct (holds_lookup s B a (ho_rep _ _ Hh) Ha) as [x Hx]. pose proof (ho_keys _ _ Hh a Ha) as Hk.
  unfold rh_val, rh_key in *. rewrite Hx in *. by apply value_key.
Qed.

Lemma kept_key s s' a : rn_data <$> rh_nodes s' = rn_data <$> rh_nodes s → rh_key s' a = rh_key s a.
Proof.
  intros H. apply (f_equal (.!! a)) in H. rewrite !lookup_fmap in H. unfold rh_key.
  destruct (rh_nodes s' !! a), (rh_nodes s !! a); simpl in H; congruence.
Qed.

Lemma kept_elems s s' B B' :
  rn_data <$> rh_nodes s' = rn_data <$> rh_nodes s → concat B' ≡ₚ concat B → rh_elems s' B' ≡ₚ rh_elems s B.
Proof.
  intros Hd Hc. unfold rh_elems. rewrite Hc. apply Permutation_refl', list_fmap_ext. intros i a _. by apply kept_key.
Qed.

(** *** Filling *)

(** Before the first [pop] or [top] the distances are those from zero. *)
Record rh_filling s B : Prop := RhFilling {
  fi_holds : rh_holds s B;
  fi_offset : rh_offset s = 0%Z;
  fi_cut : rh_cut s = 1%Z;
  fi_idx i a : in_bucket B i a → i = rh_idx s 0 a;
}.

Lemma filling_sorted s B : rh_filling s B → rh_sorted s B.
Proof.
  intros [Hh _ _ Hidx].
  assert (Hr : ∀ a, a ∈ concat B → (0 ≤ rh_val s a < 2 ^ 32)%Z).
  { intros a Ha. rewrite (val_key s B a Hh Ha). pose proof (ho_keys _ _ Hh a Ha) as Hk. unfold is_key in Hk. lia. }
  split; [done| |].
  - intros i j a b Hij Ha Hb. pose proof (Hr a (in_bucket_concat _ _ _ Ha)). pose proof (Hr b (in_bucket_concat _ _ _ Hb)).
    rewrite (Hidx i a Ha), (Hidx j b Hb) in Hij. apply (idx_sorted s 0 a b); lia || done.
  - intros i a b Ha Hb. pose proof (Hr a (in_bucket_concat _ _ _ Ha)). pose proof (Hr b (in_bucket_concat _ _ _ Hb)).
    pose proof (Hidx i a Ha) as Ea. pose proof (Hidx i b Hb) as Eb. rewrite Ea. apply (idx_sorted s 0 a b); lia || congruence.
Qed.

Lemma ctor_filling : rh_filling radix_heap_ctor (replicate 33 []).
Proof.
  assert (Hc : concat (replicate 33 []) = ([] : list nat)) by done.
  split; [split; [split; [done|done| |by rewrite Hc; constructor]|rewrite Hc; by intros a ?%elem_of_nil|done]|done|done|].
  - intros l Hl. apply elem_of_replicate_inv in Hl as ->. by intros i a.
  - intros i a Ha%in_bucket_concat. rewrite Hc in Ha. by apply elem_of_nil in Ha.
Qed.

Lemma push_filling v s B :
  rh_filling s B → is_key v → (rh_size s < 2 ^ 31 - 1)%Z →
  ∃ n s' B', rh_push W v s = Ret (n, s') ∧ rh_filling s' B' ∧ rh_elems s' B' ≡ₚ v :: rh_elems s B.
Proof.
  intros [Hh Ho Hcut Hidx] Hv Hsz. pose proof (ho_rep _ _ Hh) as Hr. unfold rh_push.
  rewrite size_type_fits by (pose proof (ho_size _ _ Hh); lia). simpl. set (n := fresh _).
  assert (Hn : rh_nodes s !! n = None) by (apply not_elem_of_dom, is_fresh).
  assert (Hoff : (if decide (radix_value W v < rh_cut s ∨ rh_cut s = 0)%Z then rh_offset s else 0%Z) = 0%Z)
    by (case_decide; done). rewrite Hoff.
  set (s0 := RadixHeap (<[n := _]> _) _ _ _ _).
  assert (HnB : ∀ a, a ∈ concat B → a ≠ n) by (intros a Ha ->; destruct (holds_lookup s B n Hr Ha); congruence).
  assert (Hsame : ∀ a, a ≠ n → rh_nodes s0 !! a = rh_nodes s !! a) by (intros a Ha; simpl; by apply lookup_insert_ne).
  assert (Hn0 : rh_nodes s0 !! n = Some (RadixNode n (Some n) v)) by apply lookup_insert_eq.
  assert (Hr0 : rh_rep s0 B).
  { destruct Hr as [? ? Hrings ?]. split; [done|done| |done]. intros l Hl. eapply ring_frame; [by apply Hrings|].
    intros a Ha. apply Hsame, HnB. apply list_elem_of_lookup in Hl as [i Hi]. apply (in_bucket_concat B i). by exists l. }
  assert (Hvn : rh_val s0 n = (2 ^ 32 - 1 - v)%Z) by (unfold rh_val; rewrite Hn0; by apply value_key).
  unfold is_key in Hv.
  destruct (rh_insert_spec s0 B n 0 Hr0) as (s' & l & Hl & -> & Hr' & Hk & _).
  { by eapply ring_single. }
  { by intros ?%HnB. }
  { assert (rh_idx s0 0 n ≤ 32); [|lia]. apply rh_idx_le; rewrite Hvn; [lia..|].
    change (2 ^ Z.of_nat 32)%Z with (2 ^ 32)%Z. lia. }
  simpl. set (i := rh_idx s0 0 n) in *. exists n, s', (<[i := l ++ [n]]> B). split; [done|].
  assert (Hc : concat (<[i := l ++ [n]]> B) ≡ₚ n :: concat B).
  { apply (Permutation_app_inv_r l). rewrite (concat_insert B i l _ Hl). solve_Permutation. }
  assert (Hkey : ∀ a, a ≠ n → rh_key s' a = rh_key s a).
  { intros a Ha. rewrite (kept_key s0 s' a (rk_data _ _ Hk)). unfold rh_key. by rewrite Hsame. }
  assert (Hkeyn : rh_key s' n = v) by (rewrite (kept_key s0 s' n (rk_data _ _ Hk)); unfold rh_key; by rewrite Hn0).
  split; [split; [split; [done| |]|by rewrite (rk_offset _ _ Hk)|by rewrite (rk_cut _ _ Hk)|]|].
  - intros a. rewrite Hc. intros [->|Ha]%elem_of_cons; [by rewrite Hkeyn|]. rewrite Hkey by (by apply HnB). by apply (ho_keys _ _ Hh).
  - rewrite (rk_size _ _ Hk), Hc. simpl. rewrite (ho_size _ _ Hh). lia.
  - intros j a Ha. rewrite (kept_idx s0 s' 0 a Hk). apply (in_bucket_insert B i l _ j a Hl) in Ha as [(-> & Ha)|[Hj Ha]].
    + apply elem_of_app in Ha as [Ha| ->%list_elem_of_singleton]; [|done].
      assert (Hia : in_bucket B i a) by (by exists l). etrans; [by apply Hidx|]. unfold rh_idx, rh_val.
      rewrite Hsame; [done|]. by eapply HnB, in_bucket_concat.
    + etrans; [by apply Hidx|]. unfold rh_idx, rh_val. rewrite Hsame; [done|]. by eapply HnB, in_bucket_concat.
  - unfold rh_elems. rewrite Hc. simpl. rewrite Hkeyn. apply Permutation_skip, Permutation_refl', list_fmap_ext.
    intros k a Ha. apply Hkey, HnB. by eapply list_elem_of_lookup_2.
Qed.

(** *** Taking out *)
Lemma need_bucket_spec s B :
  rh_holds s B → rh_sorted s B → concat B ≠ [] →
  ∃ s' B' n l, rh_need_bucket W s = Ret s' ∧ rh_holds s' B' ∧ rh_sorted s' B' ∧
    rh_elems s' B' ≡ₚ rh_elems s B ∧ B' !! 0 = Some (n :: l).
Proof.
  intros Hh Hs Hne. pose proof (ho_rep _ _ Hh) as Hr.
  destruct (lookup_lt_is_Some_2 B 0) as [b Hb]; [rewrite (rp_len _ _ Hr); lia|].
  unfold rh_need_bucket. rewrite (rp_heads _ _ Hr), list_lookup_fmap, Hb. simpl. destruct b as [|n l]; simpl.
  - destruct (reorganize_spec s B Hr Hs Hb Hne) as (s' & B' & -> & Hr' & Hs' & Hc & Hd & Hz & n & l & Hl).
    exists s', B', n, l. split_and!; [done| |done|by apply kept_elems|done]. split; [done| |].
    + intros a. rewrite Hc, (kept_key s s' a Hd). apply (ho_keys _ _ Hh).
    + rewrite Hz, Hc. apply (ho_size _ _ Hh).
  - by exists s, B, n, l.
Qed.

Lemma first_largest s B n l :
  rh_holds s B → rh_sorted s B → B !! 0 = Some (n :: l) →
  n ∈ concat B ∧ ∀ w, w ∈ rh_elems s B → (w ≤ rh_key s n)%Z.
Proof.
  intros Hh Hs H0. assert (Hn0 : in_bucket B 0 n) by (exists (n :: l); split; [done|by apply elem_of_cons; left]).
  pose proof (in_bucket_concat _ _ _ Hn0) as Hn. split; [done|]. intros w (a & -> & Ha)%list_elem_of_fmap.
  pose proof (val_key s B n Hh Hn) as Hvn. pose proof (val_key s B a Hh Ha) as Hva.
  destruct (concat_in_bucket B a Ha) as [[|i] Hi].
  - pose proof (so_span _ _ Hs 0 a n Hi Hn0) as Hsp. change (2 ^ Z.of_nat 0)%Z with 1%Z in Hsp. lia.
  - pose proof (so_sep _ _ Hs 0 (S i) n a ltac:(lia) Hn0 Hi). lia.
Qed.

Lemma radix_top_spec s B :
  rh_holds s B → rh_sorted s B → concat B ≠ [] →
  ∃ v s' B' n l, rh_top W s = Ret (v, s') ∧ rh_holds s' B' ∧ rh_sorted s' B' ∧
    rh_elems s' B' ≡ₚ rh_elems s B ∧ B' !! 0 = Some (n :: l) ∧ v = rh_key s' n.
Proof.
  intros Hh Hs Hne. destruct (need_bucket_spec s B Hh Hs Hne) as (s' & B' & n & l & Hrun & Hh' & Hs' & He & H0).
  unfold rh_top. rewrite Hrun. simpl. rewrite (rp_heads _ _ (ho_rep _ _ Hh')), list_lookup_fmap, H0. simpl.
  destruct (first_largest s' B' n l Hh' Hs' H0) as [Hn _]. destruct (holds_lookup s' B' n (ho_rep _ _ Hh') Hn) as [x Hx].
  rewrite Hx. simpl. exists (rn_data x), s', B', n, l. split_and!; try done. unfold rh_key. by rewrite Hx.
Qed.

Lemma radix_pop_spec s B n l :
  rh_holds s B → rh_sorted s B → B !! 0 = Some (n :: l) → (rh_size s < 2 ^ 31)%Z →
  ∃ s' B', rh_pop W s = Ret s' ∧ rh_holds s' B' ∧ rh_sorted s' B' ∧ rh_elems s B ≡ₚ rh_key s n :: rh_elems s' B'.
Proof.
  intros Hh Hs H0 Hsz. pose proof (ho_rep _ _ Hh) as Hr. destruct Hr as [Hlen Hheads Hrings Hnd].
  assert (HlB : n :: l ∈ B) by (by eapply list_elem_of_lookup_2).
  destruct (rep_ring_length s B _ (ho_rep _ _ Hh) HlB) as [_ Hndl].
  assert (Hp : concat B ≡ₚ n :: concat (<[0 := l]> B)).
  { apply (Permutation_app_inv_r l). rewrite <-(concat_insert B 0 (n :: l) l H0). simpl.
    rewrite <-Permutation_middle. done. }
  unfold rh_pop, rh_need_bucket. rewrite Hheads, list_lookup_fmap, H0. simpl. rewrite Hheads, list_lookup_fmap, H0. simpl.
  destruct (rn_remove_spec n l s (Hrings _ HlB) Hndl) as (s1 & -> & Hs1 & _ & Hl1 & Hf1). simpl.
  unfold rh_set_bucket. rewrite (sm_buckets _ _ Hs1), Hheads, length_fmap, decide_True by lia. simpl.
  rewrite size_type_fits by (simpl; rewrite (sm_size _ _ Hs1), (ho_size _ _ Hh), Hp in *; simpl in *; lia). simpl.
  set (s2 := if decide _ then _ else _). exists s2, (<[0 := l]> B).
  assert (Hn2 : rh_nodes s2 = rh_nodes s1) by (unfold s2; by case_decide).
  assert (Hb2 : rh_buckets s2 = <[0 := head l]> (head <$> B)) by (unfold s2; by case_decide).
  assert (Hz2 : rh_size s2 = (rh_size s1 - 1)%Z) by (unfold s2; by case_decide).
  assert (Hd : rn_data <$> rh_nodes s2 = rn_data <$> rh_nodes s) by (rewrite Hn2; apply (sm_data _ _ Hs1)).
  assert (Hnd' : NoDup (n :: concat (<[0 := l]> B))) by (by rewrite <-Hp).
  assert (Hsub : ∀ i a, in_bucket (<[0 := l]> B) i a → in_bucket B i a).
  { intros i a [[-> Ha]|[_ Ha]]%(in_bucket_insert B 0 (n :: l)); [|done|done]. exists (n :: l). split; [done|].
    by apply elem_of_cons; right. }
  split_and!; [done| | |].
  - split.
    + split; [by rewrite length_insert|by rewrite Hb2, list_fmap_insert| |by apply NoDup_cons in Hnd' as [_ ?]].
      intros l' [j Hj]%list_elem_of_lookup. unfold node_ring. rewrite Hn2.
      apply list_lookup_insert_Some in Hj as [(_ & <- & _)|[Hj0 Hj]]; [exact Hl1|].
      apply (ring_frame s s1); [apply Hrings; by eapply list_elem_of_lookup_2|]. intros a Ha. apply Hf1. intros Hal.
      by apply Hj0, (nodup_buckets B 0 j (n :: l) l' a).
    + intros a Ha. rewrite (kept_key s s2 a Hd). apply (ho_keys _ _ Hh). rewrite Hp. by apply elem_of_cons; right.
    + rewrite Hz2, (sm_size _ _ Hs1), (ho_size _ _ Hh), Hp. simpl. lia.
  - apply (kept_sorted s s2); [done|]. destruct Hs as [Hra Hse Hsp]. split.
    + intros a Ha. apply Hra. rewrite Hp. by apply elem_of_cons; right.
    + intros i j a b Hij Ha Hb. apply (Hse i j); auto.
    + intros i a b Ha Hb. apply (Hsp i); auto.
  - unfold rh_elems. rewrite Hp. simpl. apply Permutation_skip, Permutation_refl', list_fmap_ext. intros i a _.
    symmetry. by apply kept_key.
Qed.
End buckets.

(** ** Sorting *)
Fixpoint radix_fill (W : Z) (vs : list Z) (s : radix_heap) : outcome radix_heap :=
  match vs with [] => Ret s | v :: vs => '(_, s) ← rh_push W v s; radix_fill W vs s end.
Fixpoint radix_drain (W : Z) (n : nat) (s : radix_heap) : outcome (list Z * radix_heap) :=
  match n with
  | 0 => Ret ([], s)
  | S n => '(v, s) ← rh_top W s; s ← rh_pop W s; '(vs, s) ← radix_drain W n s; Ret (v :: vs, s)
  end.
Definition radix_sort (W : Z) (vs : list Z) : outcome (list Z) :=
  s ← radix_fill W vs radix_heap_ctor; '(vs, _) ← radix_drain W (length vs) s; Ret vs.

Lemma fill_spec W vs s B :
  (32 < W)%Z → rh_filling W s B → Forall is_key vs → (rh_size s + Z.of_nat (length vs) < 2 ^ 31)%Z →
  ∃ s' B', radix_fill W vs s = Ret s' ∧ rh_filling W s' B' ∧ rh_elems s' B' ≡ₚ vs ++ rh_elems s B.
Proof.
  intros HW. revert s B. induction vs as [|v vs IH]; intros s B Hf Hk Hsz; simpl; [by exists s, B|].
  apply Forall_cons in Hk as [Hv Hk]. simpl in Hsz.
  destruct (push_filling W HW v s B Hf Hv ltac:(lia)) as (n & s1 & B1 & -> & Hf1 & He1). simpl.
  assert (rh_size s1 = rh_size s + 1)%Z.
  { rewrite (ho_size _ _ (fi_holds _ _ _ Hf1)), (ho_size _ _ (fi_holds _ _ _ Hf)).
    apply Permutation_length in He1. unfold rh_elems in He1. simpl in He1. rewrite !length_fmap in He1. lia. }
  destruct (IH s1 B1 Hf1 Hk ltac:(lia)) as (s' & B' & -> & Hf' & He'). exists s', B'. split_and!; [done..|].
  by rewrite He', He1, Permutation_middle.
Qed.

Lemma drain_spec W n s B :
  (32 < W)%Z → rh_holds s B → rh_sorted W s B → length (concat B) = n → (Z.of_nat n < 2 ^ 31)%Z →
  ∃ vs s', radix_drain W n s = Ret (vs, s') ∧ vs ≡ₚ rh_elems s B ∧ StronglySorted (λ v w, Zlt_b v w = false) vs.
Proof.
  intros HW. revert s B. induction n as [|n IH]; intros s B Hh Hs Hn Hsz; simpl.
  { exists [], s. apply nil_length_inv in Hn. split_and!; [done| |constructor]. unfold rh_elems. by rewrite Hn. }
  assert (Hne : concat B ≠ []) by (by intros E; rewrite E in Hn).
  destruct (radix_top_spec W HW s B Hh Hs Hne) as (v & s1 & B1 & m & l & -> & Hh1 & Hs1 & He1 & H0 & Hv). simpl.
  destruct (first_largest W HW s1 B1 m l Hh1 Hs1 H0) as [_ Hmax].
  assert (length (concat B1) = S n) as Hn1.
  { apply Permutation_length in He1. unfold rh_elems in He1. rewrite !length_fmap in He1. lia. }
  destruct (radix_pop_spec W s1 B1 m l Hh1 Hs1 H0) as (s2 & B2 & -> & Hh2 & Hs2 & He2); [rewrite (ho_size _ _ Hh1); lia|]. simpl.
  assert (Hn2 : length (concat B2) = n).
  { pose proof (Permutation_length He1) as L1. pose proof (Permutation_length He2) as L2.
    unfold rh_elems in L1, L2. simpl in L2. rewrite !length_fmap in *. lia. }
  destruct (IH s2 B2 Hh2 Hs2 Hn2 ltac:(lia)) as (vs & s' & -> & Hp & Hsort). simpl. exists (v :: vs), s'. split_and!; [done| |].
  - by rewrite Hp, <-He1, He2, Hv.
  - constructor; [done|]. apply Forall_forall. intros w Hw. rewrite Hp in Hw.
    unfold Zlt_b. apply bool_decide_eq_false. rewrite Hv. apply Z.nlt_ge, Hmax. rewrite He2. by apply elem_of_cons; right.
Qed.

(** ** Properties *)

(** C23: With longs of more than 32 bits, fewer than 2^31 elements, all in the
    range of keys (0 to 2^32 - 1), which are pushed to a new radix heap and then
    taken out come in order, whatever the distribution over the buckets: filling
    and emptying it terminates and sorts, with the same result as the Fibonacci
    heap. (A 2^31st element makes the size, an [int], overflow. With longs of 32
    bits, for which the code is written according to its note, it has undefined
    behaviour: [radix_heap_32bit_undefined].) *)
Theorem radix_heap_sorts W vs :
  (32 < W)%Z → Forall is_key vs → (Z.of_nat (length vs) < 2 ^ 31)%Z →
  ∃ ws, radix_sort W vs = Ret ws ∧ ws ≡ₚ vs ∧ StronglySorted (λ v w, Zlt_b v w = false) ws ∧
    pq_sort (HP := fibonacci_queue Zlt_b) vs = Ret ws.
Proof.
  intros HW Hk Hlen. destruct (fill_spec W vs radix_heap_ctor _ HW (ctor_filling W) Hk Hlen) as (s & B & Hfill & Hf & He).
  assert (He' : rh_elems s B ≡ₚ vs) by (by rewrite He, app_nil_r).
  destruct (drain_spec W (length vs) s B HW (fi_holds _ _ _ Hf) (filling_sorted W HW s B Hf)) as (ws & s' & Hd & Hp & Hs).
  { rewrite <-(Permutation_length He'). unfold rh_elems. by rewrite length_fmap. }
  { done. }
  assert (Hpw : ws ≡ₚ vs) by (by rewrite Hp). exists ws. unfold radix_sort. rewrite Hfill. simpl. rewrite Hd.
  split_and!; [done..|]. apply (pq_sort_eq (HS := fibonacci_queue_spec Zlt_b)); [|done..].
  intros v w. unfold Zlt_b. rewrite !bool_decide_eq_false. lia.
Qed.

(** The key of a value. *)
Definition key_of (d : Z) : Z := (2 ^ 32 - 1 - d)%Z.
Definition ret_or {A} (a : A) (m : outcome A) : A := match m with Ret b => b | _ => a end.

(** With longs of 32 bits, for which it is written, the heap cannot be used with
    keys below 2^31: after any such key was pushed [top] and [pop] shift by the
    width of a long. *)
Lemma radix_heap_32bit_undefined v :
  (0 ≤ v < 2 ^ 31)%Z → ∃ n s, rh_push 32 v radix_heap_ctor = Ret (n, s) ∧ rh_top 32 s = UB ∧ rh_pop 32 s = UB.
Proof.
  intros Hv.
  assert (Hval : radix_value 32 v = (2 ^ 32 - 1 - v)%Z).
  { unfold radix_value. rewrite (wrapu_small 32 v) by (unfold is_uint; lia). apply wrapu_small. unfold is_uint. lia. }
  assert (Hrad : radix_radix 32 v 0 = 32%Z).
  { unfold radix_radix. rewrite Hval, Z.sub_0_r, wrapu_small by (unfold is_uint; lia).
    rewrite intern_radix_spec by lia. rewrite (Z.log2_unique _ 31); lia. }
  unfold rh_push. rewrite Hval. cbn [rh_cut rh_offset radix_heap_ctor].
  rewrite decide_False by lia. set (n := fresh _). unfold rh_insert. cbn [rh_nodes].
  rewrite lookup_insert_eq. cbn [mbind option_bind rn_data]. rewrite Hrad.
  cbn. eexists _, _. split; [done|]. by split.
Qed.

(** What goes wrong: a key may be pushed after two distributions, is not above
    the last top, and yet the next top is below it; a loop over the heap sees the
    elements of one bucket; the nodes taken out are not deleted. *)
Theorem radix_heap_hazards :
  (∃ s1 s2 s3 s4 s5 n, radix_fill 64 (key_of <$> [8; 9; 12]%Z) radix_heap_ctor = Ret s1 ∧
    rh_pop 64 s1 = Ret s2 ∧ rh_top 64 s2 = Ret (key_of 9, s3) ∧
    rh_push 64 (key_of 10) s3 = Ret (n, s4) ∧ rh_pop 64 s4 = Ret s5 ∧
    fst <$> rh_top 64 s5 = Ret (key_of 12)) ∧
  (∃ s it, radix_fill 64 (key_of <$> [1; 2; 4]%Z) radix_heap_ctor = Ret s ∧ rh_begin s = Some it ∧
    rh_walk 3 it s = Ret [0] ∧ rh_size s = 3%Z) ∧
  (∃ s1 s2 s3, radix_fill 64 [5]%Z radix_heap_ctor = Ret s1 ∧ rh_pop 64 s1 = Ret s2 ∧ rh_empty s2 = true ∧
    radix_heap_dtor s2 = Ret s3 ∧ rh_nodes s3 ≠ ∅).
Proof.
  split_and!.
  - pose (s1 := ret_or radix_heap_ctor (radix_fill 64 (key_of <$> [8; 9; 12]%Z) radix_heap_ctor)).
    pose (s2 := ret_or s1 (rh_pop 64 s1)). pose (s3 := (ret_or (0%Z, s2) (rh_top 64 s2)).2).
    pose (s4 := (ret_or (0, s3) (rh_push 64 (key_of 10) s3)).2). pose (s5 := ret_or s4 (rh_pop 64 s4)).
    exists s1, s2, s3, s4, s5, 3. split_and!; vm_compute; reflexivity.
  - pose (s := ret_or radix_heap_ctor (radix_fill 64 (key_of <$> [1; 2; 4]%Z) radix_heap_ctor)).
    exists s, (Some 0, 1). split_and!; vm_compute; reflexivity.
  - pose (s1 := ret_or radix_heap_ctor (radix_fill 64 [5]%Z radix_heap_ctor)). pose (s2 := ret_or s1 (rh_pop 64 s1)).
    exists s1, s2, s2. split_and!; [vm_compute; reflexivity..|]. vm_compute. discriminate.
Qed.

(** ** Witnesses *)
Lemma radix_heap_sorts_witness :
  radix_sort 64 [5; 3; 4294967295; 0; 9]%Z = Ret [4294967295; 9; 5; 3; 0]%Z ∧
  ∃ ws, radix_sort 64 [5; 3; 4294967295; 0; 9]%Z = Ret ws ∧ ws ≡ₚ [5; 3; 4294967295; 0; 9]%Z ∧
    StronglySorted (λ v w, Zlt_b v w = false) ws ∧
    pq_sort (HP := fibonacci_queue Zlt_b) [5; 3; 4294967295; 0; 9]%Z = Ret ws.
Proof.
  split; [vm_compute; reflexivity|]. apply (radix_heap_sorts 64); [lia| |simpl; lia]. repeat constructor; unfold is_key; lia.
Defined.
