(* ===== verification/StoreList.v ===== *)
(** * Stores as lists

    A store of nodes is a map; what it consists of is a list of its entries, up to
    their order: [map_to_list m ≡ₚ L]. Reading, writing, adding and deleting a node are
    then about one entry of the list, which [Pluck] finds, and parts of the list that do
    not change need not be mentioned. The heaps of SplayHeap and LazyHeap describe their
    stores in this way. *)
From S2P Require Import Prelude.

(** [L] has the entry [n], which is [x], and the entries [L']. *)
Class Pluck {A} (n : nat) (L : list (nat * A)) (x : A) (L' : list (nat * A)) : Prop := pluck : L ≡ₚ (n, x) :: L'.

Section store.
Context {A : Type}.
Implicit Types (L E : list (nat * A)) (m : gmap nat A) (n : nat) (x y : A).

#[export] Instance pluck_here n x L : Pluck n ((n, x) :: L) x L | 0.
Proof. by unfold Pluck. Qed.
#[export] Instance pluck_cons n p L x L' : Pluck n L x L' → Pluck n (p :: L) x (p :: L') | 5.
Proof. unfold Pluck. intros ->. solve_Permutation. Qed.
#[export] Instance pluck_app_l n L1 L1' L2 x : Pluck n L1 x L1' → Pluck n (L1 ++ L2) x (L1' ++ L2) | 3.
Proof. unfold Pluck. intros ->. done. Qed.
#[export] Instance pluck_app_r n L1 L2 L2' x : Pluck n L2 x L2' → Pluck n (L1 ++ L2) x (L1 ++ L2') | 4.
Proof. unfold Pluck. intros ->. solve_Permutation. Qed.

Lemma store_lookup m n L x L' `{!Pluck n L x L'} : map_to_list m ≡ₚ L → m !! n = Some x.
Proof. intros Hm. apply elem_of_map_to_list. rewrite Hm, (pluck (L := L)). apply list_elem_of_here. Qed.

Lemma store_delete m n L x L' `{!Pluck n L x L'} : map_to_list m ≡ₚ L → map_to_list (delete n m) ≡ₚ L'.
Proof.
  intros Hm. pose proof (store_lookup m n L x L' Hm) as Hn. apply (Permutation_cons_inv (a := (n, x))).
  by rewrite map_to_list_delete, Hm, (pluck (L := L)).
Qed.

Lemma store_update m n L x L' y `{!Pluck n L x L'} :
  map_to_list m ≡ₚ L → map_to_list (<[n := y]> m) ≡ₚ (n, y) :: L'.
Proof.
  intros Hm. rewrite <-insert_delete_eq, map_to_list_insert by apply lookup_delete_eq.
  by rewrite (store_delete m n L x L' Hm).
Qed.

Lemma store_fresh m L x :
  map_to_list m ≡ₚ L → map_to_list (<[fresh (dom m) := x]> m) ≡ₚ (fresh (dom m), x) :: L.
Proof. intros <-. apply map_to_list_insert, not_elem_of_dom, is_fresh. Qed.

(** What a map is if its list differs from that of another one in one entry. *)
Lemma list_to_push m m' n x E :
  map_to_list m ≡ₚ E → map_to_list m' ≡ₚ (n, x) :: E → m !! n = None ∧ m' = <[n := x]> m.
Proof.
  intros Hm Hm'. assert (Hn : m !! n = None).
  { apply eq_None_not_Some. intros [w Hw%elem_of_map_to_list]. rewrite Hm in Hw.
    pose proof (NoDup_fst_map_to_list m') as Hnd. rewrite Hm' in Hnd. simpl in Hnd.
    apply NoDup_cons in Hnd as [Hnd _]. apply Hnd, list_elem_of_fmap. by exists (n, w). }
  split; [done|]. apply map_to_list_inj. by rewrite map_to_list_insert, Hm.
Qed.
Lemma list_to_delete m m' n x E :
  map_to_list m ≡ₚ (n, x) :: E → map_to_list m' ≡ₚ E → m !! n = Some x ∧ m' = delete n m.
Proof.
  intros Hm Hm'. destruct (list_to_push m' m n x E Hm' Hm) as [Hn ->].
  by rewrite lookup_insert_eq, delete_insert_id.
Qed.
Lemma list_to_insert m m' n x y E :
  map_to_list m ≡ₚ (n, y) :: E → map_to_list m' ≡ₚ (n, x) :: E → m !! n = Some y ∧ m' = <[n := x]> m.
Proof.
  intros Hm Hm'. pose proof (store_lookup m n _ y E Hm) as Hn. split; [done|].
  destruct (list_to_push (delete n m) m' n x E) as [_ ->]; [|done|by rewrite insert_delete_eq].
  by apply (store_delete m n _ y E).
Qed.
End store.
