(* ===== verification/SplayHeap.v ===== *)
(** * boost::splay_heap

    The splay heap of src/src/old-boost/heaps/s_heap.{hpp,cc}: a search tree whose
    nodes with equal priorities form a list at one of them ([m_next]), and which
    brings its largest node to the root when that is asked for. The state is a
    store of nodes; [tree_at] relates it to a tree, and the order is that of the
    lists of equal nodes from left to right. What the operations do to the tree is
    proved here; that the heap is a priority queue is proved in SplayQueue. *)
From S2P Require Import Prelude StoreList.

(** ** Data *)
Record splay_node (T : Type) := SplayNode {
  sn_left : option nat;
  sn_right : option nat;
  sn_next : option nat;
  sn_data : T;
}.
Arguments SplayNode {T} _ _ _ _.
Arguments sn_left {T} _.
Arguments sn_right {T} _.
Arguments sn_next {T} _.
Arguments sn_data {T} _.

Record splay_heap (T : Type) := SplayHeap {
  sh_nodes : gmap nat (splay_node T);
  sh_root : option nat;
  sh_size : Z;
}.
Arguments SplayHeap {T} _ _ _.
Arguments sh_nodes {T} _.
Arguments sh_root {T} _.
Arguments sh_size {T} _.

Definition splay_heap_ctor {T} : splay_heap T := SplayHeap ∅ None 0.

(** What a [node**] or a [node*&] refers to. *)
Inductive splay_cell := SRoot | SLeft (n : nat) | SRight (n : nat) | SNext (n : nat).

Section splay_heap.
Context {T : Type} (compare : T → T → bool).
Implicit Types (s : splay_heap T) (x y : splay_node T) (n m c : nat) (l : splay_cell).

Definition splay_node_ctor (d : T) : splay_node T := SplayNode None None None d.

(** Access to a node which does not exist is undefined. *)
Definition sh_alter (f : splay_node T → splay_node T) n s : option (splay_heap T) :=
  x ← sh_nodes s !! n; Some (SplayHeap (<[n := f x]> (sh_nodes s)) (sh_root s) (sh_size s)).
Definition sh_set_left (o : option nat) : nat → splay_heap T → option (splay_heap T) :=
  sh_alter (λ x, SplayNode o (sn_right x) (sn_next x) (sn_data x)).
Definition sh_set_right (o : option nat) : nat → splay_heap T → option (splay_heap T) :=
  sh_alter (λ x, SplayNode (sn_left x) o (sn_next x) (sn_data x)).
Definition sh_set_next (o : option nat) : nat → splay_heap T → option (splay_heap T) :=
  sh_alter (λ x, SplayNode (sn_left x) (sn_right x) o (sn_data x)).
Definition sh_set_data (d : T) : nat → splay_heap T → option (splay_heap T) :=
  sh_alter (λ x, SplayNode (sn_left x) (sn_right x) (sn_next x) d).

Definition sc_read l s : option (option nat) :=
  match l with
  | SRoot => Some (sh_root s)
  | SLeft n => sn_left <$> sh_nodes s !! n
  | SRight n => sn_right <$> sh_nodes s !! n
  | SNext n => sn_next <$> sh_nodes s !! n
  end.
Definition sc_write l (o : option nat) s : option (splay_heap T) :=
  match l with
  | SRoot => Some (SplayHeap (sh_nodes s) o (sh_size s))
  | SLeft n => sh_set_left o n s
  | SRight n => sh_set_right o n s
  | SNext n => sh_set_next o n s
  end.

(** ** Searching *)

(** The loop of [insert], from the pointer [l]. *)
Fixpoint splay_insert_from (fuel : nat) l n s : outcome (splay_heap T) :=
  match fuel with
  | 0 => NoFuel
  | S fuel =>
      o ← or_ub (sc_read l s);
      match o with
      | None => or_ub (sc_write l (Some n) s)
      | Some m =>
          x ← or_ub (sh_nodes s !! m);
          y ← or_ub (sh_nodes s !! n);
          if compare (sn_data x) (sn_data y) then splay_insert_from fuel (SRight m) n s
          else if compare (sn_data y) (sn_data x) then splay_insert_from fuel (SLeft m) n s
          else
            s ← or_ub (sh_set_next (sn_next x) n s);
            or_ub (sh_set_next (Some n) m s)
      end
  end.
Definition splay_insert n s : outcome (splay_heap T) := splay_insert_from (S (size (sh_nodes s))) SRoot n s.

(** The loop of [detach]: the pointer to the node with an equal priority. *)
Fixpoint splay_find (fuel : nat) l n s : outcome splay_cell :=
  match fuel with
  | 0 => NoFuel
  | S fuel =>
      m ← or_ub (mjoin (sc_read l s));
      x ← or_ub (sh_nodes s !! m);
      y ← or_ub (sh_nodes s !! n);
      if compare (sn_data x) (sn_data y) then splay_find fuel (SRight m) n s
      else if compare (sn_data y) (sn_data x) then splay_find fuel (SLeft m) n s
      else Ret l
  end.

(** [( *child_pointer) != n], down the list. *)
Fixpoint splay_find_next (fuel : nat) l n s : outcome splay_cell :=
  match fuel with
  | 0 => NoFuel
  | S fuel =>
      o ← or_ub (sc_read l s);
      if decide (o = Some n) then Ret l
      else m ← or_ub o; splay_find_next fuel (SNext m) n s
  end.

(** ** Splaying *)

(** [*insert_point = o], where [insert_point] points to the local [root] or into a
    node. *)
Definition insert_point_write (ip : option nat) (o root : option nat) s : option (option nat * splay_heap T) :=
  match ip with
  | None => Some (o, s)
  | Some n => s ← sh_set_right o n s; Some (root, s)
  end.

(** The loop, with the local variables [root] and [insert_point]. *)
Fixpoint splay_loop (fuel : nat) l (root ip : option nat) s : outcome (option nat * option nat * splay_heap T) :=
  match fuel with
  | 0 => NoFuel
  | S fuel =>
      c ← or_ub (mjoin (sc_read l s));
      x ← or_ub (sh_nodes s !! c);
      match sn_right x with
      | None => Ret (root, ip, s)
      | Some tmp =>
          y ← or_ub (sh_nodes s !! tmp);
          match sn_right y with
          | Some _ =>
              '(root, s) ← or_ub (insert_point_write ip (Some tmp) root s);
              s ← or_ub (sh_set_right (sn_left y) c s);
              s ← or_ub (sh_set_left (Some c) tmp s);
              s ← or_ub (sc_write l (sn_right y) s);
              s ← or_ub (sh_set_right None tmp s);
              splay_loop fuel l root (Some tmp) s
          | None =>
              '(root, s) ← or_ub (insert_point_write ip (Some c) root s);
              s ← or_ub (sh_set_right None c s);
              s ← or_ub (sc_write l (Some tmp) s);
              splay_loop fuel l root (Some c) s
          end
      end
  end.

Definition splay_max l s : outcome (splay_heap T) :=
  '(root, ip, s) ← splay_loop (S (size (sh_nodes s))) l None None s;
  match root with
  | None => Ret s
  | Some r =>
      c ← or_ub (mjoin (sc_read l s));
      x ← or_ub (sh_nodes s !! c);
      '(root, s) ← or_ub (insert_point_write ip (sn_left x) root s);
      or_ub (sh_set_left root c s)
  end.

(** ** The operations *)

(** What [detach] does with the pointer to the node that [n] is equal to. *)
Definition splay_unlink l n s : outcome (splay_heap T) :=
  tmp ← or_ub (mjoin (sc_read l s));
  x ← or_ub (sh_nodes s !! tmp);
  match sn_next x with
  | None =>
      match sn_left x with
      | Some _ =>
          s ← splay_max (SLeft tmp) s;
          x ← or_ub (sh_nodes s !! tmp);
          c ← or_ub (sn_left x);
          s ← or_ub (sc_write l (Some c) s);
          s ← or_ub (sh_set_right (sn_right x) c s);
          s ← or_ub (sh_set_right None tmp s);
          or_ub (sh_set_left None tmp s)
      | None =>
          s ← or_ub (sc_write l (sn_right x) s);
          or_ub (sh_set_right None tmp s)
      end
  | Some q =>
      if decide (tmp = n) then
        s ← or_ub (sc_write l (Some q) s);
        s ← or_ub (sh_set_left (sn_left x) q s);
        s ← or_ub (sh_set_right (sn_right x) q s);
        or_ub (sh_alter (λ x, SplayNode None None None (sn_data x)) tmp s)
      else
        l ← splay_find_next (S (size (sh_nodes s))) (SNext tmp) n s;
        tmp ← or_ub (mjoin (sc_read l s));
        x ← or_ub (sh_nodes s !! tmp);
        s ← or_ub (sc_write l (sn_next x) s);
        or_ub (sh_set_next None tmp s)
  end.

Definition splay_detach n s : outcome (splay_heap T) :=
  l ← splay_find (S (size (sh_nodes s))) SRoot n s; splay_unlink l n s.

Definition splay_push (v : T) s : outcome (nat * splay_heap T) :=
  let rc := fresh (dom (sh_nodes s)) in
  let s := SplayHeap (<[rc := splay_node_ctor v]> (sh_nodes s)) (sh_root s) (sh_size s + 1)%Z in
  s ← splay_insert rc s;
  Ret (rc, s).

Definition splay_top s : outcome (T * splay_heap T) :=
  s ← splay_max SRoot s;
  n ← or_ub (sh_root s);
  x ← or_ub (sh_nodes s !! n);
  Ret (sn_data x, s).

(** The root is replaced by the next node of its list, or by its left child. *)
Definition splay_drop_root n s : option (splay_heap T) :=
  x ← sh_nodes s !! n;
  match sn_next x with
  | Some q =>
      s ← sc_write SRoot (Some q) s;
      s ← sh_set_left (sn_left x) q s;
      sh_set_right (sn_right x) q s
  | None => sc_write SRoot (sn_left x) s
  end.

Definition splay_delete n s : option (splay_heap T) :=
  _ ← sh_nodes s !! n; Some (SplayHeap (delete n (sh_nodes s)) (sh_root s) (sh_size s)).

Definition splay_pop s : outcome (splay_heap T) :=
  s ← splay_max SRoot s;
  n ← or_ub (sh_root s);
  s ← or_ub (splay_drop_root n s);
  or_ub (splay_delete n (SplayHeap (sh_nodes s) (sh_root s) (sh_size s - 1)%Z)).

(** The pointers of the root are not reset before it is inserted again. *)
Definition splay_change_top (d : T) s : outcome (splay_heap T) :=
  s ← splay_max SRoot s;
  n ← or_ub (sh_root s);
  s ← or_ub (splay_drop_root n s);
  s ← or_ub (sh_set_data d n s);
  splay_insert n s.

Definition splay_change n (d : T) s : outcome (splay_heap T) :=
  s ← splay_detach n s;
  s ← or_ub (sh_set_data d n s);
  splay_insert n s.
Definition splay_decrease n (d : T) s : outcome (splay_heap T) := splay_change n d s.
Definition splay_increase n (d : T) s : outcome (splay_heap T) := splay_change n d s.

Definition splay_remove n s : outcome (splay_heap T) :=
  s ← splay_detach n s; or_ub (splay_delete n s).

Definition splay_empty s : bool := bool_decide (sh_size s = 0%Z).

(** ** Iterators and destruction *)

(** The stack of the iterator, which may hold a null pointer at the bottom. *)
Definition splay_begin s : list (option nat) := [sh_root s].
Definition splay_next (it : list (option nat)) s : option (list (option nat)) :=
  match it with
  | Some n :: it =>
      x ← sh_nodes s !! n;
      let it := match sn_left x with Some m => Some m :: it | None => it end in
      Some (match sn_right x with Some m => Some m :: it | None => it end)
  | _ => None
  end.
Fixpoint splay_walk (fuel : nat) (it : list (option nat)) s : outcome (list nat) :=
  match it, fuel with
  | [], _ => Ret []
  | _, 0 => NoFuel
  | o :: _, S fuel => n ← or_ub o; it ← or_ub (splay_next it s); l ← splay_walk fuel it s; Ret (n :: l)
  end.

(** [if (p != 0) delete p->destroy();]. *)
Definition delete_if (destroy : nat → gmap nat (splay_node T) → outcome (gmap nat (splay_node T)))
    (o : option nat) (ns : gmap nat (splay_node T)) : outcome (gmap nat (splay_node T)) :=
  match o with
  | None => Ret ns
  | Some m => ns ← destroy m ns; _ ← or_ub (ns !! m); Ret (delete m ns)
  end.
Fixpoint splay_destroy (fuel n : nat) (ns : gmap nat (splay_node T)) : outcome (gmap nat (splay_node T)) :=
  match fuel with
  | 0 => NoFuel
  | S fuel =>
      x ← or_ub (ns !! n);
      ns ← delete_if (splay_destroy fuel) (sn_left x) ns;
      x ← or_ub (ns !! n);
      ns ← delete_if (splay_destroy fuel) (sn_right x) ns;
      x ← or_ub (ns !! n);
      delete_if (splay_destroy fuel) (sn_next x) ns
  end.
Definition splay_heap_dtor (fuel : nat) s : outcome (gmap nat (splay_node T)) :=
  delete_if (splay_destroy fuel) (sh_root s) (sh_nodes s).
End splay_heap.

(** ** Trees *)

(** A node with its priority, the nodes with equal priorities which follow it, and
    the trees of the smaller and of the larger ones. *)
Inductive stree (T : Type) := STip | SNode (n : nat) (v : T) (q : list (nat * T)) (l r : stree T).
Arguments STip {T}.
Arguments SNode {T} _ _ _ _ _.

(** A step from a node to one of its children: the other one is kept. *)
Inductive sframe (T : Type) :=
  | InLeft (n : nat) (v : T) (q : list (nat * T)) (r : stree T)
  | InRight (n : nat) (v : T) (q : list (nat * T)) (l : stree T).
Arguments InLeft {T} _ _ _ _.
Arguments InRight {T} _ _ _ _.

Section trees.
Context {T : Type}.
Implicit Types (s : splay_heap T) (x y : splay_node T) (n m : nat) (t u w l r : stree T).
Implicit Types (q : list (nat * T)) (ctx : list (sframe T)) (o : option nat) (L : list (nat * splay_node T)).

Definition troot t : option nat := match t with STip => None | SNode n _ _ _ _ => Some n end.
Definition qroot q : option nat := fst <$> head q.

(** The nodes which represent a list of equal ones, and a tree. *)
Fixpoint clist q : list (nat * splay_node T) :=
  match q with [] => [] | (m, v) :: q => (m, SplayNode None None (qroot q) v) :: clist q end.
Definition trec n (v : T) q l r : nat * splay_node T := (n, SplayNode (troot l) (troot r) (qroot q) v).
Fixpoint tlist t : list (nat * splay_node T) :=
  match t with STip => [] | SNode n v q l r => trec n v q l r :: clist q ++ tlist l ++ tlist r end.

(** A path from the root to a subtree, the last step first: the pointer it ends at,
    the tree with [t] there, the root, and the nodes if that pointer is [o]. *)
Definition ccell ctx : splay_cell :=
  match ctx with [] => SRoot | InLeft n _ _ _ :: _ => SLeft n | InRight n _ _ _ :: _ => SRight n end.
Fixpoint plug ctx t : stree T :=
  match ctx with
  | [] => t
  | InLeft n v q r :: ctx => plug ctx (SNode n v q t r)
  | InRight n v q l :: ctx => plug ctx (SNode n v q l t)
  end.
Fixpoint croot ctx o : option nat :=
  match ctx with [] => o | (InLeft n _ _ _ | InRight n _ _ _) :: ctx => croot ctx (Some n) end.
Fixpoint flist ctx o : list (nat * splay_node T) :=
  match ctx with
  | [] => []
  | InLeft n v q r :: ctx =>
      (n, SplayNode o (troot r) (qroot q) v) :: clist q ++ tlist r ++ flist ctx (Some n)
  | InRight n v q l :: ctx =>
      (n, SplayNode (troot l) o (qroot q) v) :: clist q ++ tlist l ++ flist ctx (Some n)
  end.

(** The nodes from left to right, each with the list of the equal ones, and the
    priorities of all of them. *)
Fixpoint torder t : list (nat * T * list (nat * T)) :=
  match t with STip => [] | SNode n v q l r => torder l ++ (n, v, q) :: torder r end.
Definition oelems (c : nat * T * list (nat * T)) : list (nat * T) := c.1 :: c.2.
Definition tree_elems t : list (nat * T) := torder t ≫= oelems.
Fixpoint cleft ctx : list (nat * T * list (nat * T)) :=
  match ctx with
  | [] => []
  | InLeft _ _ _ _ :: ctx => cleft ctx
  | InRight n v q l :: ctx => cleft ctx ++ torder l ++ [(n, v, q)]
  end.
Fixpoint cright ctx : list (nat * T * list (nat * T)) :=
  match ctx with
  | [] => []
  | InLeft n v q r :: ctx => (n, v, q) :: torder r ++ cright ctx
  | InRight _ _ _ _ :: ctx => cright ctx
  end.

Lemma plug_root ctx t : troot (plug ctx t) = croot ctx (troot t).
Proof. revert t. by induction ctx as [|[] ctx IH]; intros t; simpl; rewrite ?IH. Qed.

Lemma plug_list ctx t : tlist (plug ctx t) ≡ₚ flist ctx (troot t) ++ tlist t.
Proof.
  revert t. induction ctx as [|[n v q r|n v q l] ctx IH]; intros t; simpl; [done| |];
    rewrite IH; simpl; unfold trec; solve_Permutation.
Qed.

Lemma plug_order ctx t : torder (plug ctx t) = cleft ctx ++ torder t ++ cright ctx.
Proof.
  revert t. induction ctx as [|[n v q r|n v q l] ctx IH]; intros t; simpl; [by rewrite app_nil_r| |];
    rewrite IH; simpl; by rewrite <-!(assoc_L (++)).
Qed.

(** ** The store *)

(** The heap consists of the nodes [L]. *)
Definition spl (z : Z) (ρ : option nat) L s : Prop :=
  sh_size s = z ∧ sh_root s = ρ ∧ map_to_list (sh_nodes s) ≡ₚ L.

#[export] Instance spl_proper z ρ : Proper ((≡ₚ) ==> (=) ==> iff) (spl z ρ).
Proof. intros L L' HL s s' <-. unfold spl. by rewrite HL. Qed.

Lemma spl_eq L L' z ρ s : spl z ρ L s → L ≡ₚ L' → spl z ρ L' s.
Proof. by intros Hs <-. Qed.

#[export] Instance pluck_root n v q l r L :
  Pluck n (trec n v q l r :: L) (SplayNode (troot l) (troot r) (qroot q) v) L | 0.
Proof. by unfold Pluck. Qed.

Lemma spl_lookup n s z ρ L x L' `{!Pluck n L x L'} : spl z ρ L s → sh_nodes s !! n = Some x.
Proof. intros (_ & _ & Hm). by eapply store_lookup. Qed.

Lemma spl_alter f n s z ρ L x L' `{!Pluck n L x L'} :
  spl z ρ L s → ∃ s', sh_alter f n s = Some s' ∧ spl z ρ ((n, f x) :: L') s'.
Proof.
  intros Hs. pose proof (spl_lookup n s z ρ L x L' Hs) as Hn. destruct Hs as (Hz & Hr & Hm).
  unfold sh_alter. rewrite Hn. simpl. eexists. split; [done|]. split_and!; [done..|]. simpl.
  by eapply store_update.
Qed.

Lemma spl_count s z ρ L : spl z ρ L s → size (sh_nodes s) = length L.
Proof. intros (_ & _ & Hm). by rewrite <-length_map_to_list, Hm. Qed.

(** The pointer at the end of a path. *)
Lemma spl_read ctx o L s z : spl z (croot ctx o) (flist ctx o ++ L) s → sc_read (ccell ctx) s = Some o.
Proof.
  destruct ctx as [|[n v q r|n v q l] ctx]; simpl; intros Hs.
  - f_equal. by destruct Hs as (_ & ? & _).
  - by rewrite (spl_lookup n s _ _ _ _ _ Hs).
  - by rewrite (spl_lookup n s _ _ _ _ _ Hs).
Qed.

Lemma spl_write ctx o o' L s z :
  spl z (croot ctx o) (flist ctx o ++ L) s →
  ∃ s', sc_write (ccell ctx) o' s = Some s' ∧ spl z (croot ctx o') (flist ctx o' ++ L) s'.
Proof.
  destruct ctx as [|[n v q r|n v q l] ctx]; simpl; intros Hs.
  - eexists. split; [done|]. destruct Hs as (? & _ & ?). by split_and!.
  - unfold sh_set_left. destruct (spl_alter (λ x, SplayNode o' (sn_right x) (sn_next x) (sn_data x)) n s _ _ _ _ _ Hs)
      as (s' & -> & Hs'). by exists s'.
  - unfold sh_set_right. destruct (spl_alter (λ x, SplayNode (sn_left x) o' (sn_next x) (sn_data x)) n s _ _ _ _ _ Hs)
      as (s' & -> & Hs'). by exists s'.
Qed.
End trees.

(** The same nodes in another order. *)
Ltac spl_as H L H' :=
  match type of H with
  | spl ?z ?r _ ?s =>
      assert (H' : spl z r L s) by (apply (spl_eq _ _ _ _ _ H); simpl; unfold trec; simpl; solve_Permutation)
  end.
(** The next assignment to a member of a node. *)
Ltac spl_alter H s' H' :=
  unfold sh_set_left, sh_set_right, sh_set_next, sh_set_data;
  match type of H with
  | spl _ _ _ ?s =>
      match goal with
      | |- context [sh_alter ?f ?n s] =>
          let E := fresh in
          destruct (spl_alter f n s _ _ _ _ _ H) as (s' & E & H'); rewrite E; clear E; cbn [or_ub mbind option_bind outcome_bind]
      end
  end.

(** ** Splaying *)
Section splaying.
Context {T : Type}.
Implicit Types (s : splay_heap T) (x y : splay_node T) (n m : nat) (t u w l r : stree T).
Implicit Types (q : list (nat * T)) (ctx : list (sframe T)) (o : option nat) (L : list (nat * splay_node T)).

(** The largest node of a tree, the length of the path to it, the tree with [w] to
    the right of it, and the nodes and the root of the tree if [o] is there. *)
Fixpoint tmax u : option nat :=
  match u with STip => None | SNode n _ _ _ STip => Some n | SNode _ _ _ _ r => tmax r end.
Fixpoint rdepth u : nat := match u with STip => 0 | SNode _ _ _ _ r => S (rdepth r) end.
Fixpoint tgraft u w : stree T :=
  match u with STip => w | SNode n v q l r => SNode n v q l (tgraft r w) end.
Definition hroot u o : option nat := match u with STip => o | SNode n _ _ _ _ => Some n end.
Fixpoint hlist u o : list (nat * splay_node T) :=
  match u with
  | STip => []
  | SNode n v q l r => (n, SplayNode (troot l) (hroot r o) (qroot q) v) :: clist q ++ tlist l ++ hlist r o
  end.

Lemma graft_root u w : troot (tgraft u w) = hroot u (troot w).
Proof. by destruct u. Qed.
Lemma graft_list u w : tlist (tgraft u w) ≡ₚ hlist u (troot w) ++ tlist w.
Proof.
  induction u as [|n v q l _ r IH]; simpl; [done|]. unfold trec. rewrite IH, graft_root. solve_Permutation.
Qed.
Lemma graft_order u w : torder (tgraft u w) = torder u ++ torder w.
Proof. induction u as [|n v q l _ r IH]; simpl; [done|]. by rewrite IH, <-(assoc_L (++)). Qed.
Lemma graft_max u n v q l : tmax (tgraft u (SNode n v q l STip)) = Some n.
Proof. induction u as [|m w q' l' _ r IH]; simpl; [done|]. by destruct r. Qed.
Lemma hole_root u : hroot u None = troot u.
Proof. by destruct u. Qed.
Lemma hole_list u : hlist u None = tlist u.
Proof. induction u as [|n v q l _ r IH]; simpl; [done|]. unfold trec. by rewrite IH, hole_root. Qed.
Lemma rdepth_list u : rdepth u ≤ length (tlist u).
Proof. induction u as [|n v q l _ r IH]; simpl; [done|]. rewrite !length_app. lia. Qed.

(** [*insert_point = o] *)
Lemma insert_point_spec u o L s z ρ :
  spl z ρ (tlist u ++ L) s →
  ∃ s', insert_point_write (tmax u) o (troot u) s = Some (hroot u o, s') ∧ spl z ρ (hlist u o ++ L) s'.
Proof.
  unfold insert_point_write. destruct u as [|n v q l r]; intros Hs; [by exists s|].
  cut (∀ m, tmax (SNode n v q l r) = Some m →
    ∃ s', sh_set_right o m s = Some s' ∧ spl z ρ (hlist (SNode n v q l r) o ++ L) s').
  { intros H. destruct (tmax (SNode n v q l r)) as [m|] eqn:Em.
    - destruct (H m eq_refl) as (s' & -> & Hs'). by exists s'.
    - exfalso. clear -Em. revert n v q l Em. induction r as [|n' v' q' l' _ r IH]; intros; [done|]. by apply (IH n' v' q' l'). }
  revert n v q l L Hs. induction r as [|n' v' q' l' _ r IH]; intros n v q l L Hs m Hm.
  - injection Hm as <-. simpl in Hs. destruct (spl_alter (λ x, SplayNode (sn_left x) o (sn_next x) (sn_data x)) n s _ _ _ _ _ Hs)
      as (s' & Ha & Hs'). exists s'. split; [exact Ha|]. eapply (spl_proper z ρ); [|reflexivity|exact Hs']. simpl. solve_Permutation.
  - destruct (IH n' v' q' l' ((n, SplayNode (troot l) (Some n') (qroot q) v) :: clist q ++ tlist l ++ L))
      with (m := m) as (s' & Ha & Hs'); [|exact Hm|].
    + eapply (spl_proper z ρ); [|reflexivity|exact Hs]. simpl. unfold trec. simpl. solve_Permutation.
    + exists s'. split; [exact Ha|]. eapply (spl_proper z ρ); [|reflexivity|exact Hs']. simpl. solve_Permutation.
Qed.

(** The loop takes the nodes on the path to the largest one and puts them on the
    path to the largest one of the tree at [root]; nothing is to the right of the node
    it ends at. *)
Lemma splay_loop_spec fuel ctx n v q l r u L s z :
  spl z (croot ctx (Some n)) (flist ctx (Some n) ++ tlist (SNode n v q l r) ++ tlist u ++ L) s →
  rdepth r < fuel →
  ∃ n' v' q' l' u' s',
    splay_loop fuel (ccell ctx) (troot u) (tmax u) s = Ret (troot u', tmax u', s') ∧
    spl z (croot ctx (Some n')) (flist ctx (Some n') ++ tlist (SNode n' v' q' l' STip) ++ tlist u' ++ L) s' ∧
    torder u ++ torder (SNode n v q l r) = torder u' ++ torder (SNode n' v' q' l' STip).
Proof.
  revert n v q l r u L s. induction fuel as [|fuel IH]; intros n v q l r u L s Hs Hf; [lia|].
  simpl. rewrite (spl_read _ _ _ _ _ Hs). simpl in Hs |- *. rewrite (spl_lookup n s _ _ _ _ _ Hs). simpl.
  destruct r as [|t vt qt lt rt]; simpl.
  { exists n, v, q, l, u, s. by split_and!. }
  simpl in Hs. rewrite (spl_lookup t s _ _ _ _ _ Hs). simpl.
  destruct rt as [|m vm qm lm rm]; simpl.
  - spl_as Hs (tlist u ++ flist ctx (Some n) ++ tlist (SNode n v q l (SNode t vt qt lt STip)) ++ L) H0.
    destruct (insert_point_spec u (Some n) _ _ _ _ H0) as (s1 & -> & H1). simpl in H1 |- *.
    spl_alter H1 s2 H2. simpl in H2.
    spl_as H2 (flist ctx (Some n) ++ hlist u (Some n) ++ tlist (SNode n v q l STip) ++
      tlist (SNode t vt qt lt STip) ++ L) H2'.
    destruct (spl_write ctx (Some n) (Some t) _ _ _ H2') as (s3 & -> & H3). simpl.
    replace (hroot u (Some n)) with (troot (tgraft u (SNode n v q l STip))) by apply graft_root.
    rewrite <-(graft_max u n v q l).
    destruct (IH t vt qt lt STip (tgraft u (SNode n v q l STip)) L s3) as (n' & v' & q' & l' & u' & s' & Hl & Hs' & Ho).
    + eapply spl_eq; [exact H3|]. rewrite graft_list. simpl. solve_Permutation.
    + simpl in *. lia.
    + exists n', v', q', l', u', s'. split_and!; [exact Hl|exact Hs'|]. etransitivity; [|exact Ho]. rewrite graft_order. simpl.
      by rewrite <-!(assoc_L (++)).
  - spl_as Hs (tlist u ++ flist ctx (Some n) ++ tlist (SNode n v q l (SNode t vt qt lt (SNode m vm qm lm rm))) ++ L) H0.
    destruct (insert_point_spec u (Some t) _ _ _ _ H0) as (s1 & -> & H1). simpl in H1 |- *.
    spl_alter H1 s2 H2. spl_alter H2 s3 H3. simpl in H3.
    spl_as H3 (flist ctx (Some n) ++ hlist u (Some t) ++ (t, SplayNode (Some n) (Some m) (qroot qt) vt) ::
      clist qt ++ tlist (SNode n v q l lt) ++ tlist (SNode m vm qm lm rm) ++ L) H3'.
    destruct (spl_write ctx (Some n) (Some m) _ _ _ H3') as (s4 & -> & H4). simpl in H4 |- *. spl_alter H4 s5 H5. simpl in H5.
    set (g := SNode t vt qt (SNode n v q l lt) STip). 
    replace (hroot u (Some t)) with (troot (tgraft u g)) by apply graft_root.
    rewrite <-(graft_max u t vt qt (SNode n v q l lt)).
    destruct (IH m vm qm lm rm (tgraft u g) L s5) as (n' & v' & q' & l' & u' & s' & Hl & Hs' & Ho).
    + eapply spl_eq; [exact H5|]. rewrite graft_list. simpl. unfold trec. simpl. solve_Permutation.
    + simpl in *. lia.
    + exists n', v', q', l', u', s'. split_and!; [exact Hl|exact Hs'|]. etransitivity; [|exact Ho]. rewrite graft_order. simpl.
      by rewrite <-!(assoc_L (++)).
Qed.

Lemma splay_max_spec ctx n v q l r L s z :
  spl z (croot ctx (Some n)) (flist ctx (Some n) ++ tlist (SNode n v q l r) ++ L) s →
  ∃ n' v' q' l' s', splay_max (ccell ctx) s = Ret s' ∧
    spl z (croot ctx (Some n')) (flist ctx (Some n') ++ tlist (SNode n' v' q' l' STip) ++ L) s' ∧
    torder (SNode n v q l r) = torder l' ++ [(n', v', q')].
Proof.
  intros Hs. unfold splay_max.
  destruct (splay_loop_spec (S (size (sh_nodes s))) ctx n v q l r STip L s z) as (n1 & v1 & q1 & l1 & u & s1 & Hl & H1 & Ho).
  { done. }
  { rewrite (spl_count _ _ _ _ Hs), !length_app. simpl. rewrite !length_app. pose proof (rdepth_list r). lia. }
  cbn [troot tmax] in Hl. rewrite Hl. simpl in Ho |- *. destruct u as [|m w q' l' r'].
  { simpl. exists n1, v1, q1, l1, s1. by split_and!. }
  set (u := SNode m w q' l' r') in *. change (troot u) with (Some m).
  cbn [mbind outcome_bind]. rewrite (spl_read _ _ _ _ _ H1). cbn [or_ub mjoin option_join mbind outcome_bind].
  rewrite (spl_lookup n1 s1 _ _ _ _ _ H1). cbn [or_ub mbind outcome_bind sn_left].
  spl_as H1 (tlist u ++ flist ctx (Some n1) ++ tlist (SNode n1 v1 q1 l1 STip) ++ L) H1'.
  destruct (insert_point_spec u (troot l1) _ _ _ _ H1') as (s2 & E2 & H2).
  change (Some m) with (troot u). rewrite E2. cbn [or_ub mbind outcome_bind]. simpl in H2.
  spl_alter H2 s3 H3. simpl in H3.
  exists n1, v1, q1, (tgraft u l1), s3. split_and!; [done| |].
  - spl_as H3 (flist ctx (Some n1) ++ (n1, SplayNode (Some m) None (qroot q1) v1) :: clist q1 ++
      (hlist u (troot l1) ++ tlist l1) ++ L) H4.
    rewrite <-graft_list in H4. spl_as H4 (flist ctx (Some n1) ++ tlist (SNode n1 v1 q1 (tgraft u l1) STip) ++ L) H5.
    exact H5.
  - rewrite graft_order, <-(assoc_L (++)). exact Ho.
Qed.

(** ** Unlinking *)

(** Down the list at the node [p] to [n], which is taken out. *)
Lemma find_next_spec (fuel : nat) n p a b (w : T) q L s z ρ :
  spl z ρ ((p, SplayNode a b (qroot q) w) :: clist q ++ L) s → n ∈ q.*1 → length q ≤ fuel →
  ∃ c v q' o s', splay_find_next fuel (SNext p) n s = Ret c ∧ sc_read c s = Some (Some n) ∧
    sh_nodes s !! n = Some (SplayNode None None o v) ∧ sc_write c o s = Some s' ∧
    spl z ρ ((p, SplayNode a b (qroot q') w) :: clist q' ++ (n, SplayNode None None o v) :: L) s' ∧
    q ≡ₚ (n, v) :: q'.
Proof.
  revert p a b w q L. induction fuel as [|fuel IH]; intros p a b w [|[m v] q] L Hs Hn Hf; simpl in *; try lia.
  { by apply elem_of_nil in Hn. }
  { by apply elem_of_nil in Hn. }
  pose proof (spl_lookup p s _ _ _ _ _ Hs) as Ep. pose proof (spl_lookup m s _ _ _ _ _ Hs) as Em.
  rewrite Ep. simpl. case_decide as Hd.
  - injection Hd as ->. unfold sh_set_next.
    destruct (spl_alter (λ x, SplayNode (sn_left x) (sn_right x) (qroot q) (sn_data x)) p s _ _ _ _ _ Hs)
      as (s' & Ha & Hs').
    exists (SNext p), v, q, (qroot q), s'. simpl. rewrite Ep. split_and!; [done|done|done|exact Ha| |done].
    eapply spl_eq; [exact Hs'|]. simpl. solve_Permutation.
  - apply elem_of_cons in Hn as [->|Hn]; [done|].
    destruct (IH m None None v q ((p, SplayNode a b (Some m) w) :: L)) as (c & v' & q' & o & s' & Hc & Hr & En & Hw & Hs' & Hp).
    + eapply spl_eq; [exact Hs|]. simpl. solve_Permutation.
    + done.
    + lia.
    + exists c, v', ((m, v) :: q'), o, s'. split_and!; [exact Hc|exact Hr|exact En|exact Hw| |].
      * eapply spl_eq; [exact Hs'|]. simpl. solve_Permutation.
      * rewrite Hp. solve_Permutation.
Qed.

Lemma splay_unlink_spec ctx m (w : T) q l r n L s z :
  spl z (croot ctx (Some m)) (flist ctx (Some m) ++ tlist (SNode m w q l r) ++ L) s → n ∈ m :: q.*1 →
  ∃ t v s', splay_unlink (ccell ctx) n s = Ret s' ∧
    spl z (croot ctx (troot t)) (flist ctx (troot t) ++ tlist t ++ (n, splay_node_ctor v) :: L) s' ∧
    ((q = [] ∧ n = m ∧ v = w ∧ torder t = torder l ++ torder r) ∨
     ∃ m' (w' : T) q', (m, w) :: q ≡ₚ (n, v) :: (m', w') :: q' ∧ torder t = torder l ++ (m', w', q') :: torder r).
Proof.
  intros Hs Hn. unfold splay_unlink. remember (S (size (sh_nodes s))) as fuel eqn:Hfuel. rewrite (spl_read _ _ _ _ _ Hs). simpl in Hs |- *.
  rewrite (spl_lookup m s _ _ _ _ _ Hs). simpl. destruct q as [|[m' w'] q]; simpl in Hs, Hn |- *.
  - apply list_elem_of_singleton in Hn as ->. destruct l as [|c vc qc lc rc]; simpl.
    + destruct (spl_write ctx (Some m) (troot r) _ _ _ Hs) as (s1 & -> & H1). simpl. spl_alter H1 s2 H2. simpl in H2.
      exists r, w, s2. split_and!; [done| |by left]. eapply spl_eq; [exact H2|]. unfold splay_node_ctor. solve_Permutation.
    + spl_as Hs (flist (InLeft m w [] r :: ctx) (Some c) ++ tlist (SNode c vc qc lc rc) ++ L) H0.
      destruct (splay_max_spec (InLeft m w [] r :: ctx) c vc qc lc rc L s z H0)
        as (c' & v' & q' & l' & s1 & Em & H1 & Ho). cbn [ccell] in Em. rewrite Em. simpl in H1 |- *.
      rewrite (spl_lookup m s1 _ _ _ _ _ H1). simpl.
      spl_as H1 (flist ctx (Some m) ++ (m, SplayNode (Some c') (troot r) None w) :: tlist (SNode c' v' q' l' STip) ++
        tlist r ++ L) H1'.
      destruct (spl_write ctx (Some m) (Some c') _ _ _ H1') as (s2 & -> & H2). simpl in H2 |- *.
      spl_alter H2 s3 H3. simpl in H3. spl_alter H3 s4 H4. simpl in H4. spl_alter H4 s5 H5. simpl in H5.
      exists (SNode c' v' q' l' r), w, s5. split_and!; [done| |].
      * eapply spl_eq; [exact H5|]. simpl. unfold trec, splay_node_ctor. simpl. solve_Permutation.
      * left. split_and!; [done..|]. simpl in Ho |- *. by rewrite Ho, <-(assoc_L (++)).
  - case_decide as Hd.
    + subst n. destruct (spl_write ctx (Some m) (Some m') _ _ _ Hs) as (s1 & -> & H1). simpl in H1 |- *.
      spl_alter H1 s2 H2. simpl in H2. spl_alter H2 s3 H3. simpl in H3. spl_alter H3 s4 H4. simpl in H4.
      exists (SNode m' w' q l r), w, s4. split_and!; [done| |].
      * eapply spl_eq; [exact H4|]. simpl. unfold trec, splay_node_ctor. simpl. solve_Permutation.
      * right. by exists m', w', q.
    + apply elem_of_cons in Hn as [->|Hn]; [done|].
      spl_as Hs ((m, SplayNode (troot l) (troot r) (qroot ((m', w') :: q)) w) :: clist ((m', w') :: q) ++
        (flist ctx (Some m) ++ tlist l ++ tlist r ++ L)) H0.
      destruct (find_next_spec fuel n m _ _ w ((m', w') :: q) _ s _ _ H0)
        as (c & v & q' & o & s1 & Ef & Er & En & Ew & H1 & Hp); [done| |].
      { rewrite Hfuel, (spl_count _ _ _ _ H0). simpl. rewrite length_app.
        assert (length (clist q) = length q) as -> by (clear; induction q as [|[? ?] q IH]; simpl; auto). lia. }
      rewrite Ef. simpl. rewrite Er. simpl. rewrite En. simpl. rewrite Ew. simpl.
      spl_alter H1 s2 H2. simpl in H2.
      exists (SNode m w q' l r), v, s2. split_and!; [done| |].
      * eapply spl_eq; [exact H2|]. simpl. unfold trec, splay_node_ctor. simpl. solve_Permutation.
      * right. exists m, w, q'. split; [|done]. rewrite Hp. solve_Permutation.
Qed.
End splaying.
