(* ===== verification/SplayQueue.v ===== *)
(** * The splay heap as a priority queue

    [ordered] is the order of the lists of equal nodes; searching, inserting and
    unlinking keep it. With the contents of the store this makes the splay heap of
    SplayHeap an instance of the interface of PriorityQueue, for all operations but
    [change_top]; what that one does, the iterators and the destructor are at the
    end. *)
From stdpp Require Import sorting.
From S2P Require Import Prelude PriorityQueue StoreList SplayHeap.

Section order.
Context {T : Type} (compare : T → T → bool).
Implicit Types (s : splay_heap T) (n m : nat) (v : T) (t l r : stree T).
Implicit Types (q : list (nat * T)) (ctx : list (sframe T)) (L : list (nat * splay_node T)).
Implicit Types (x y : nat * T * list (nat * T)) (c : list (nat * T * list (nat * T))).

(** ** Order *)
Definition same (a b : T) : Prop := compare a b = false ∧ compare b a = false.
Definition okey x : T := x.1.2.
Definition class_ok x : Prop := Forall (λ p, same (okey x) p.2) x.2.
Definition ordered c : Prop := StronglySorted (λ x y, compare (okey x) (okey y) = true) c ∧ Forall class_ok c.

Lemma same_sym a b : same a b → same b a.
Proof. unfold same. tauto. Qed.

Lemma elems_class c n v : (n, v) ∈ c ≫= oelems ↔ ∃ x, x ∈ c ∧ (n, v) ∈ oelems x.
Proof. rewrite list_elem_of_bind. split; intros (x & ? & ?); by exists x. Qed.

Lemma telems_node m v q l r : tree_elems (SNode m v q l r) = tree_elems l ++ oelems (m, v, q) ++ tree_elems r.
Proof. unfold tree_elems. simpl. by rewrite bind_app. Qed.

Section swo.
Context `{!StrictWeakOrder compare}.

Lemma same_refl a : same a a.
Proof. split; by apply swo_irrefl. Qed.
Lemma same_trans a b d : same a b → same b d → same a d.
Proof. intros [? ?] [? ?]. split; by eapply swo_negtrans. Qed.
Lemma same_l a b d : same a b → compare a d = compare b d.
Proof.
  intros [H1 H2]. destruct (compare a d) eqn:E1, (compare b d) eqn:E2; try done.
  - by rewrite (swo_negtrans a b d) in E1.
  - by rewrite (swo_negtrans b a d) in E2.
Qed.
Lemma same_r a b d : same a b → compare d a = compare d b.
Proof.
  intros [H1 H2]. destruct (compare d a) eqn:E1, (compare d b) eqn:E2; try done.
  - by rewrite (swo_negtrans d b a) in E1.
  - by rewrite (swo_negtrans d a b) in E2.
Qed.
Lemma less_trans a b d : compare a b = true → compare b d = true → compare a d = true.
Proof.
  intros H1 H2. destruct (compare a d) eqn:E; [done|].
  by rewrite (swo_negtrans a d b E (swo_asym b d H2)) in H1.
Qed.

Lemma class_elem x n v : class_ok x → (n, v) ∈ oelems x → same (okey x) v.
Proof.
  destruct x as [[m w] q]. unfold class_ok, oelems, okey. simpl. rewrite Forall_forall.
  intros Hq [[= -> ->]|Hn]%elem_of_cons; [by apply same_refl|by apply (Hq (n, v))].
Qed.

(** A list of equal nodes in the middle. *)
Lemma ordered_mid c1 x c2 :
  ordered (c1 ++ x :: c2) ↔ ordered (c1 ++ c2) ∧ class_ok x ∧
    Forall (λ y, compare (okey y) (okey x) = true) c1 ∧ Forall (λ y, compare (okey x) (okey y) = true) c2.
Proof.
  unfold ordered. rewrite !StronglySorted_app, StronglySorted_cons, !Forall_app, Forall_cons, !Forall_forall.
  split.
  - intros ((H12 & H1 & Hx & H2) & ? & ? & ?). split_and!; try done.
    + intros y z Hy Hz. apply H12; [done|by apply elem_of_cons; right].
    + intros y Hy. apply H12; [done|by apply elem_of_cons; left].
  - intros (((H12 & H1 & H2) & ? & ?) & ? & Hl & Hr). split_and!; try done.
    intros y z Hy [->|Hz]%elem_of_cons; [by apply Hl|by apply H12].
Qed.

Lemma ordered_sub c1 x c2 : ordered (c1 ++ x :: c2) → ordered c1 ∧ class_ok x ∧ ordered c2.
Proof.
  unfold ordered. rewrite StronglySorted_app, StronglySorted_cons, Forall_app, Forall_cons. tauto.
Qed.

(** The first node of a list changes. *)
Lemma ordered_replace c1 x y c2 :
  ordered (c1 ++ x :: c2) → class_ok y → same (okey x) (okey y) → ordered (c1 ++ y :: c2).
Proof.
  rewrite !ordered_mid. intros (H1 & H2 & Hl & Hr) Hy Hxy. split_and!; [done..| |].
  - eapply Forall_impl; [exact Hl|]. intros z Hz. simpl in Hz |- *. by rewrite <-(same_r _ _ _ Hxy).
  - eapply Forall_impl; [exact Hr|]. intros z Hz. simpl in Hz |- *. by rewrite <-(same_l _ _ _ Hxy).
Qed.

Lemma class_perm m w q m' w' q' :
  class_ok (m, w, q) → (m', w') :: q' ⊆+ (m, w) :: q → class_ok (m', w', q') ∧ same w w'.
Proof.
  intros Hq Hs. assert (H : ∀ p, p ∈ (m', w') :: q' → same w p.2).
  { intros [n v] Hp. apply (class_elem (m, w, q) n v Hq). unfold oelems. simpl.
    by eapply elem_of_submseteq. }
  assert (Hw : same w w') by (apply (H (m', w')); apply list_elem_of_here).
  split; [|done]. unfold class_ok, okey. simpl. apply Forall_forall. intros p Hp.
  eapply same_trans; [apply same_sym, Hw|]. apply H. by apply elem_of_cons; right.
Qed.

(** An element to the left of a node is smaller, one to the right is larger. *)
Lemma order_left c1 x c2 n v :
  ordered (c1 ++ x :: c2) → (n, v) ∈ c1 ≫= oelems → compare v (okey x) = true.
Proof.
  intros [[Hs _]%StronglySorted_app Hc]. rewrite elems_class. intros (y & Hy & Hv).
  rewrite Forall_forall in Hc. rewrite <-(same_l (okey y) v).
  - apply Hs; [done|apply list_elem_of_here].
  - apply (class_elem y n v); [|done]. apply Hc, elem_of_app. by left.
Qed.
Lemma order_right c1 x c2 n v :
  ordered (c1 ++ x :: c2) → (n, v) ∈ c2 ≫= oelems → compare (okey x) v = true.
Proof.
  intros [(_ & _ & [Hs _]%StronglySorted_cons)%StronglySorted_app Hc]. rewrite elems_class. intros (y & Hy & Hv).
  rewrite Forall_forall in Hc, Hs. rewrite <-(same_r (okey y) v).
  - by apply Hs.
  - apply (class_elem y n v); [|done]. apply Hc, elem_of_app. right. by apply elem_of_cons; right.
Qed.

(** ** Searching *)
Lemma find_spec fuel ctx t n v L s z :
  spl z (croot ctx (troot t)) (flist ctx (troot t) ++ tlist t ++ L) s → ordered (torder t) →
  (n, v) ∈ tree_elems t → sn_data <$> sh_nodes s !! n = Some v → length (tlist t) < fuel →
  ∃ ctx' m (w : T) q l r, splay_find compare fuel (ccell ctx) n s = Ret (ccell ctx') ∧
    plug ctx t = plug ctx' (SNode m w q l r) ∧ (n, v) ∈ (m, w) :: q.
Proof.
  revert ctx t. induction fuel as [|fuel IH]; intros ctx t Hs Ho Hn Hv Hf; [lia|].
  destruct t as [|m w q l r]; [by apply elem_of_nil in Hn|].
  rewrite telems_node in Hn. simpl in Hs, Ho, Hf |- *. rewrite (spl_read _ _ _ _ _ Hs). simpl. rewrite (spl_lookup m s _ _ _ _ _ Hs). simpl.
  apply fmap_Some in Hv as (x & Ex & Hx). rewrite Ex. simpl. rewrite <-Hx. rewrite !length_app in Hf.
  destruct (compare w v) eqn:E1; [|destruct (compare v w) eqn:E2].
  - destruct (IH (InRight m w q l :: ctx) r) as (ctx' & H); [| | |by rewrite Ex; simpl; rewrite Hx|lia|by exists ctx'].
    + spl_as Hs (flist (InRight m w q l :: ctx) (troot r) ++ tlist r ++ L) H0. exact H0.
    + apply ordered_sub in Ho. tauto.
    + apply elem_of_app in Hn as [Hn|[Hn|Hn]%elem_of_app]; [| |done].
      * pose proof (order_left _ _ _ n v Ho Hn) as Hl. unfold okey in Hl. simpl in Hl.
        by rewrite (swo_asym v w Hl) in E1.
      * apply ordered_sub in Ho as (_ & Hc & _). apply (class_elem _ n v Hc) in Hn as [Hn _].
        unfold okey in Hn. simpl in Hn. congruence.
  - destruct (IH (InLeft m w q r :: ctx) l) as (ctx' & H); [| | |by rewrite Ex; simpl; rewrite Hx|lia|by exists ctx'].
    + spl_as Hs (flist (InLeft m w q r :: ctx) (troot l) ++ tlist l ++ L) H0. exact H0.
    + apply ordered_sub in Ho. tauto.
    + apply elem_of_app in Hn as [Hn|[Hn|Hn]%elem_of_app]; [done| |].
      * apply ordered_sub in Ho as (_ & Hc & _). apply (class_elem _ n v Hc) in Hn as [_ Hn].
        unfold okey in Hn. simpl in Hn. congruence.
      * pose proof (order_right _ _ _ n v Ho Hn) as Hl. unfold okey in Hl. simpl in Hl. congruence.
  - exists ctx, m, w, q, l, r. split_and!; [done..|].
    apply elem_of_app in Hn as [Hn|[Hn|Hn]%elem_of_app]; [|done|].
    + pose proof (order_left _ _ _ n v Ho Hn) as Hl. unfold okey in Hl. simpl in Hl. congruence.
    + pose proof (order_right _ _ _ n v Ho Hn) as Hl. unfold okey in Hl. simpl in Hl. congruence.
Qed.

(** ** Inserting *)
Lemma insert_spec fuel ctx t n v L s z :
  spl z (croot ctx (troot t)) (flist ctx (troot t) ++ tlist t ++ (n, splay_node_ctor v) :: L) s →
  ordered (torder (plug ctx t)) →
  Forall (λ x, compare (okey x) v = true) (cleft ctx) → Forall (λ x, compare v (okey x) = true) (cright ctx) →
  length (tlist t) < fuel →
  ∃ t' s', splay_insert_from compare fuel (ccell ctx) n s = Ret s' ∧ spl z (troot t') (tlist t' ++ L) s' ∧
    ordered (torder t') ∧ tree_elems t' ≡ₚ (n, v) :: tree_elems (plug ctx t).
Proof.
  revert ctx t. induction fuel as [|fuel IH]; intros ctx t Hs Ho Hl Hr Hf; [lia|].
  simpl. rewrite (spl_read _ _ _ _ _ Hs). simpl. destruct t as [|m w q l r]; simpl in *.
  - destruct (spl_write ctx None (Some n) _ _ _ Hs) as (s' & -> & Hs').
    exists (plug ctx (SNode n v [] STip STip)), s'. split_and!; [done| | |].
    + rewrite plug_root, plug_list. simpl. eapply spl_eq; [exact Hs'|]. unfold trec, splay_node_ctor. simpl. solve_Permutation.
    + rewrite plug_order in *. simpl in *. apply ordered_mid. split_and!; [by apply Ho..|apply Forall_nil_2|done|done].
    + unfold tree_elems. rewrite !plug_order. simpl. rewrite !bind_app. simpl. solve_Permutation.
  - rewrite (spl_lookup m s _ _ _ _ _ Hs), (spl_lookup n s _ _ _ _ _ Hs). simpl.
    pose proof Ho as Hp. rewrite plug_order in Ho. simpl in Ho. rewrite !length_app in Hf.
    rewrite <-!(assoc_L (++)) in Ho. simpl in Ho. rewrite (assoc_L (++)) in Ho.
    pose proof Ho as Ho'. apply ordered_mid in Ho' as (Ho1 & Hc & [Hl1 Hl2]%Forall_app & [Hr1 Hr2]%Forall_app).
    destruct (compare w v) eqn:E1; [|destruct (compare v w) eqn:E2].
    + apply (IH (InRight m w q l :: ctx) r); [| | |done|lia].
      * spl_as Hs (flist (InRight m w q l :: ctx) (troot r) ++ tlist r ++ (n, splay_node_ctor v) :: L) H0. exact H0.
      * exact Hp.
      * simpl. rewrite !Forall_app, Forall_singleton. split_and!; [done| |done].
        eapply Forall_impl; [exact Hl2|]. intros y Hy. by apply (less_trans _ w).
    + apply (IH (InLeft m w q r :: ctx) l); [| |done| |lia].
      * spl_as Hs (flist (InLeft m w q r :: ctx) (troot l) ++ tlist l ++ (n, splay_node_ctor v) :: L) H0. exact H0.
      * exact Hp.
      * simpl. rewrite Forall_cons, Forall_app. split_and!; [done| |done].
        eapply Forall_impl; [exact Hr1|]. intros y Hy. by apply (less_trans _ w).
    + spl_alter Hs s1 H1. simpl in H1. spl_alter H1 s2 H2. simpl in H2.
      exists (plug ctx (SNode m w ((n, v) :: q) l r)), s2. split_and!; [done| | |].
      * rewrite plug_root, plug_list. simpl. eapply spl_eq; [exact H2|]. unfold trec. simpl. solve_Permutation.
      * rewrite plug_order. simpl. rewrite <-!(assoc_L (++)). simpl. rewrite (assoc_L (++)).
        apply (ordered_replace _ (m, w, q)); [done| |by apply same_refl].
        unfold class_ok in *. simpl. constructor; [done|exact Hc].
      * unfold tree_elems. rewrite !plug_order, !bind_app. fold (tree_elems (SNode m w ((n, v) :: q) l r)).
        fold (tree_elems (SNode m w q l r)). rewrite !telems_node. unfold oelems. simpl. solve_Permutation.
Qed.
End swo.
End order.

(** ** The operations *)
Section queue.
Context {T : Type} (compare : T → T → bool) `{!StrictWeakOrder compare}.
Implicit Types (s : splay_heap T) (n m : nat) (v d : T) (t l r : stree T).
Implicit Types (q : list (nat * T)) (L : list (nat * splay_node T)).

Definition sh_contents s : gmap nat T := sn_data <$> sh_nodes s.
Definition splay_rep s t : Prop := spl (sh_size s) (troot t) (tlist t) s ∧ ordered compare (torder t).
Definition splay_ok s : Prop := ∃ t, splay_rep s t.

Definition lelems L : list (nat * T) := prod_map id sn_data <$> L.

Lemma lelems_app L L' : lelems (L ++ L') = lelems L ++ lelems L'.
Proof. apply fmap_app. Qed.
Lemma lelems_chain q : lelems (clist q) = q.
Proof. induction q as [|[m v] q IH]; [done|]. cbn. f_equal. exact IH. Qed.
Lemma tlist_elems t : lelems (tlist t) ≡ₚ tree_elems t.
Proof.
  induction t as [|n v q l IHl r IHr]; [done|]. rewrite telems_node, <-IHl, <-IHr.
  change (tlist (SNode n v q l r)) with ([trec n v q l r] ++ clist q ++ tlist l ++ tlist r).
  rewrite !lelems_app, lelems_chain. cbn. unfold oelems. simpl. solve_Permutation.
Qed.

Lemma spl_contents z ρ L s : spl z ρ L s → map_to_list (sh_contents s) ≡ₚ lelems L.
Proof. intros (_ & _ & Hm). unfold sh_contents, lelems. by rewrite map_to_list_fmap, Hm. Qed.
Lemma splay_contents_of s t : splay_rep s t → map_to_list (sh_contents s) ≡ₚ tree_elems t.
Proof. intros [Hs _]. by rewrite (spl_contents _ _ _ _ Hs), tlist_elems. Qed.

Lemma spl_rep z s t : spl z (troot t) (tlist t) s → ordered compare (torder t) → splay_rep s t ∧ sh_size s = z.
Proof. intros Hs Ho. pose proof Hs as (<- & _). done. Qed.

Lemma insert_rep n v s t z :
  spl z (troot t) ((n, splay_node_ctor v) :: tlist t) s → ordered compare (torder t) →
  ∃ s' t', splay_insert compare n s = Ret s' ∧ splay_rep s' t' ∧ sh_size s' = z ∧
    tree_elems t' ≡ₚ (n, v) :: tree_elems t.
Proof.
  intros Hs Ho. unfold splay_insert.
  destruct (insert_spec compare (S (size (sh_nodes s))) [] t n v [] s z) as (t' & s' & Hi & Hs' & Ho' & Hp); simpl.
  - eapply spl_eq; [exact Hs|]. solve_Permutation.
  - done.
  - done.
  - done.
  - rewrite (spl_count _ _ _ _ Hs). simpl. lia.
  - rewrite app_nil_r in Hs'. exists s', t'. destruct (spl_rep z s' t' Hs' Ho'). by split_and!.
Qed.

Lemma splay_push_rep v s t :
  splay_rep s t →
  ∃ rc s' t', splay_push compare v s = Ret (rc, s') ∧ splay_rep s' t' ∧ sh_size s' = (sh_size s + 1)%Z ∧
    sh_contents s !! rc = None ∧ sh_contents s' = <[rc := v]> (sh_contents s).
Proof.
  intros Hr. pose proof Hr as [Hs Ho]. unfold splay_push. set (rc := fresh (dom (sh_nodes s))).
  set (s1 := SplayHeap _ _ _).
  destruct (insert_rep rc v s1 t (sh_size s + 1)%Z) as (s' & t' & -> & Hr' & Hz & Hp); [|done|].
  - destruct Hs as (_ & Hroot & Hm). split_and!; [done..|]. simpl.
    rewrite map_to_list_insert, Hm; [done|]. apply not_elem_of_dom. apply is_fresh.
  - exists rc, s', t'. split_and!; [done..| |]; apply (list_to_push _ (sh_contents s') rc v (tree_elems t)).
    1,3: by apply splay_contents_of. all: by rewrite (splay_contents_of s' t' Hr'), Hp.
Qed.

Lemma splay_max_rep s t :
  splay_rep s t → t ≠ STip →
  ∃ n v q l s', splay_max SRoot s = Ret s' ∧ splay_rep s' (SNode n v q l STip) ∧ sh_size s' = sh_size s ∧
    sh_contents s' = sh_contents s ∧ torder t = torder l ++ [(n, v, q)] ∧ pq_largest compare (sh_contents s) v.
Proof.
  intros Hr Hne. pose proof Hr as [Hs Ho]. destruct t as [|n v q l r]; [done|].
  destruct (splay_max_spec [] n v q l r [] s (sh_size s)) as (n' & v' & q' & l' & s' & Hm & Hs' & Ht).
  { eapply spl_eq; [exact Hs|]. simpl. solve_Permutation. }
  rewrite app_nil_r in Hs'. assert (Ho' : ordered compare (torder (SNode n' v' q' l' STip))) by (simpl; by rewrite <-Ht).
  destruct (spl_rep _ s' (SNode n' v' q' l' STip) Hs' Ho') as [Hr' Hz].
  exists n', v', q', l', s'. split_and!; [exact Hm|done|done| |done|].
  - apply map_to_list_inj. rewrite (splay_contents_of _ _ Hr), (splay_contents_of _ _ Hr'). unfold tree_elems. by rewrite Ht.
  - intros p w Hp%elem_of_map_to_list. rewrite (splay_contents_of _ _ Hr) in Hp. unfold tree_elems in Hp.
    rewrite Ht, bind_app in Hp. rewrite Ht in Ho. apply elem_of_app in Hp as [Hp|Hp].
    + pose proof (order_left compare _ _ _ p w Ho Hp) as Hlt. by apply (swo_asym w v').
    + simpl in Hp. rewrite app_nil_r in Hp. apply ordered_sub in Ho as (_ & Hc & _).
      by apply (class_elem compare (n', v', q') p w Hc) in Hp as [? _].
Qed.

(** The root leaves the tree; its pointers are not reset. *)
Lemma drop_root_spec n v q l s z :
  spl z (Some n) (tlist (SNode n v q l STip)) s → ordered compare (torder (SNode n v q l STip)) →
  ∃ t s', splay_drop_root n s = Some s' ∧
    spl z (troot t) ((n, SplayNode (troot l) None (qroot q) v) :: tlist t) s' ∧ ordered compare (torder t) ∧
    tree_elems (SNode n v q l STip) ≡ₚ (n, v) :: tree_elems t.
Proof.
  intros Hs Ho. simpl in Hs, Ho. unfold splay_drop_root. rewrite (spl_lookup n s _ _ _ _ _ Hs). simpl.
  rewrite telems_node. destruct q as [|[m w] q]; simpl in Hs |- *.
  - eexists l, _. split_and!; [done| | |].
    + destruct Hs as (? & _ & Hm). split_and!; [done..|]. simpl. rewrite Hm, app_nil_r. done.
    + by apply ordered_sub in Ho as [? _].
    + unfold oelems. simpl. solve_Permutation.
  - assert (H1 : spl z (Some m) (trec n v ((m, w) :: q) l STip :: (m, SplayNode None None (qroot q) w) ::
      clist q ++ tlist l) (SplayHeap (sh_nodes s) (Some m) (sh_size s))).
    { destruct Hs as (? & _ & Hm). split_and!; [done..|]. simpl. by rewrite Hm, app_nil_r. }
    spl_alter H1 s1 H2. simpl in H2. spl_alter H2 s2 H3. simpl in H3.
    exists (SNode m w q l STip), s2. split_and!; [done| | |].
    + eapply spl_eq; [exact H3|]. simpl. unfold trec. simpl. solve_Permutation.
    + simpl. apply ordered_sub in Ho as Hc. destruct Hc as (_ & Hc & _).
      destruct (class_perm compare n v ((m, w) :: q) m w q Hc) as [? ?]; [by apply submseteq_cons|].
      by eapply ordered_replace.
    + rewrite telems_node. unfold oelems. simpl. solve_Permutation.
Qed.

(** [top] yields the priority of the node which [pop] removes. *)
Lemma splay_pop_rep s t :
  splay_rep s t → t ≠ STip →
  ∃ n v s1 s2 t1 t2, splay_top s = Ret (v, s1) ∧ splay_rep s1 t1 ∧
    sh_contents s1 = sh_contents s ∧ sh_size s1 = sh_size s ∧
    pq_largest compare (sh_contents s) v ∧ sh_contents s !! n = Some v ∧
    splay_pop s = Ret s2 ∧ splay_rep s2 t2 ∧ sh_size s2 = (sh_size s - 1)%Z ∧
    sh_contents s2 = delete n (sh_contents s).
Proof.
  intros Hr Hne. destruct (splay_max_rep s t Hr Hne) as (n & v & q & l & s1 & Hm & Hr1 & Hz1 & Hc1 & Ht & Hl).
  pose proof Hr1 as [H1 Ho1].
  assert (Hroot : sh_root s1 = Some n) by (by destruct H1 as (_ & ? & _)).
  pose proof H1 as H1'. simpl in H1'. pose proof (spl_lookup n s1 _ _ _ _ _ H1') as En.
  destruct (drop_root_spec n v q l s1 _ H1 Ho1) as (t2 & s2 & Hd & H2 & Ho2 & He).
  pose proof (spl_lookup n s2 _ _ _ _ _ H2) as En2. pose proof H2 as (Hz2 & Hroot2 & Hm2).
  set (s3 := SplayHeap (delete n (sh_nodes s2)) (sh_root s2) (sh_size s2 - 1)).
  assert (Hr3 : splay_rep s3 t2).
  { split; [|done]. split_and!; [done..|]. simpl. by eapply store_delete. }
  destruct (list_to_delete (sh_contents s) (sh_contents s3) n v (tree_elems t2)) as [Hn Hdel].
  { by rewrite <-Hc1, (splay_contents_of _ _ Hr1). }
  { by apply splay_contents_of. }
  exists n, v, s1, s3, (SNode n v q l STip), t2. unfold splay_top, splay_pop. rewrite Hm. simpl. rewrite Hroot. simpl.
  rewrite En, Hd. simpl. unfold splay_delete. simpl. rewrite En2. simpl. split_and!; try done. lia.
Qed.

(** ** Changing and removing *)
Lemma elems_mid c1 x c2 : (c1 ++ x :: c2) ≫= @oelems T ≡ₚ oelems x ++ ((c1 ++ c2) ≫= oelems).
Proof. rewrite !bind_app. simpl. solve_Permutation. Qed.
Lemma plug_mid (ctx : list (sframe T)) m (w : T) q l r :
  torder (plug ctx (SNode m w q l r)) = (cleft ctx ++ torder l) ++ (m, w, q) :: torder r ++ cright ctx.
Proof. rewrite plug_order. simpl. by rewrite <-!(assoc_L (++)). Qed.

(** The lists of equal nodes after [n] was unlinked. *)
Lemma unlink_order (ctx : list (sframe T)) m (w : T) q l r n v t :
  ordered compare (torder (plug ctx (SNode m w q l r))) →
  ((q = [] ∧ n = m ∧ v = w ∧ torder t = torder l ++ torder r) ∨
   ∃ m' w' q', (m, w) :: q ≡ₚ (n, v) :: (m', w') :: q' ∧ torder t = torder l ++ (m', w', q') :: torder r) →
  ordered compare (torder (plug ctx t)) ∧ tree_elems (plug ctx (SNode m w q l r)) ≡ₚ (n, v) :: tree_elems (plug ctx t).
Proof.
  unfold tree_elems. rewrite plug_mid, (plug_order ctx t). intros Ho [(-> & -> & -> & ->)|(m' & w' & q' & He & ->)].
  - rewrite elems_mid, <-!(assoc_L (++)). split; [|done]. apply ordered_mid in Ho as [Ho _].
    by rewrite <-!(assoc_L (++)) in Ho.
  - rewrite <-!(assoc_L (++)). simpl. rewrite !(assoc_L (++) (cleft ctx)), !elems_mid. split.
    + apply ordered_sub in Ho as Hc. destruct Hc as (_ & Hc & _).
      destruct (class_perm compare m w q m' w' q' Hc) as [? ?]; [by rewrite He; apply submseteq_cons|].
      by eapply ordered_replace.
    + change (oelems (m, w, q)) with ((m, w) :: q). rewrite He. done.
Qed.
Lemma detach_rep n v s t :
  splay_rep s t → sh_contents s !! n = Some v →
  ∃ s' t', splay_detach compare n s = Ret s' ∧
    spl (sh_size s) (troot t') ((n, splay_node_ctor v) :: tlist t') s' ∧ ordered compare (torder t') ∧
    tree_elems t ≡ₚ (n, v) :: tree_elems t'.
Proof.
  intros Hr Hv. pose proof Hr as [Hs Ho].
  assert (Hn : (n, v) ∈ tree_elems t) by (by rewrite <-(splay_contents_of s t Hr), elem_of_map_to_list).
  destruct (find_spec compare (S (size (sh_nodes s))) [] t n v [] s (sh_size s)) as (ctx & m & w & q & l & r & Hf & Hp & Hq).
  { simpl. by rewrite app_nil_r. }
  { done. }
  { done. }
  { unfold sh_contents in Hv. by rewrite lookup_fmap in Hv. }
  { rewrite (spl_count _ _ _ _ Hs). lia. }
  simpl in Hp. subst t. rewrite plug_root, plug_list in Hs.
  destruct (splay_unlink_spec ctx m w q l r n [] s (sh_size s)) as (t & v' & s' & Hu & Hs' & Ht).
  { simpl in Hs |- *. by rewrite app_nil_r. }
  { apply (list_elem_of_fmap_2 fst) in Hq. exact Hq. }
  destruct (unlink_order ctx m w q l r n v' t Ho Ht) as [Hot Hel].
  assert (v' = v) as ->.
  { pose proof (splay_contents_of _ _ Hr) as Hc. rewrite Hel in Hc.
    assert (Hv' : (n, v') ∈ map_to_list (sh_contents s)) by (rewrite Hc; apply list_elem_of_here).
    apply elem_of_map_to_list in Hv'. congruence. }
  exists s', (plug ctx t). split_and!; [|rewrite plug_root, plug_list|done|done].
  - unfold splay_detach. cbn [ccell] in Hf. rewrite Hf. exact Hu.
  - eapply spl_eq; [exact Hs'|]. solve_Permutation.
Qed.

Lemma splay_change_rep n v d s t :
  splay_rep s t → sh_contents s !! n = Some v →
  ∃ s' t', splay_change compare n d s = Ret s' ∧ splay_rep s' t' ∧ sh_size s' = sh_size s ∧
    sh_contents s' = <[n := d]> (sh_contents s).
Proof.
  intros Hr Hv. destruct (detach_rep n v s t Hr Hv) as (s1 & t1 & Hd & H1 & Ho1 & He).
  unfold splay_change. rewrite Hd. simpl. spl_alter H1 s2 H2. simpl in H2.
  destruct (insert_rep n d s2 t1 (sh_size s) H2 Ho1) as (s3 & t3 & -> & Hr3 & Hz3 & He3).
  exists s3, t3. split_and!; [done..|].
  apply (list_to_insert _ _ n d v (tree_elems t1)).
  - by rewrite (splay_contents_of _ _ Hr).
  - by rewrite (splay_contents_of _ _ Hr3).
Qed.

(** [remove] leaves the size as it is. *)
Lemma splay_remove_rep n v s t :
  splay_rep s t → sh_contents s !! n = Some v →
  ∃ s' t', splay_remove compare n s = Ret s' ∧ splay_rep s' t' ∧ sh_size s' = sh_size s ∧
    sh_contents s' = delete n (sh_contents s).
Proof.
  intros Hr Hv. destruct (detach_rep n v s t Hr Hv) as (s1 & t1 & Hd & H1 & Ho1 & He).
  unfold splay_remove, splay_delete. rewrite Hd. simpl. rewrite (spl_lookup n s1 _ _ _ _ _ H1). simpl.
  destruct H1 as (Hz & Hroot & Hm).
  assert (Hr' : splay_rep (SplayHeap (delete n (sh_nodes s1)) (sh_root s1) (sh_size s1)) t1).
  { split; [|done]. split_and!; [done..|]. simpl. by eapply store_delete. }
  eexists _, t1. split_and!; [done..|].
  apply (list_to_delete _ _ n v (tree_elems t1)).
  - by rewrite (splay_contents_of _ _ Hr).
  - by rewrite (splay_contents_of _ _ Hr').
Qed.

(** Every operation of the interface, and what it does to [m_size]. *)
Definition sh_run (op : pq_op T) s : outcome (splay_heap T) :=
  match op with
  | PqPush v => snd <$> splay_push compare v s
  | PqPop => splay_pop s
  | PqIncrease p v => splay_increase compare p v s
  | PqDecrease p v => splay_decrease compare p v s
  | PqChange p v => splay_change compare p v s
  | PqRemove p => splay_remove compare p s
  end.
Definition sh_delta (op : pq_op T) : Z := match op with PqPush _ => 1 | PqPop => -1 | _ => 0 end%Z.
Definition sh_top s : option T := match splay_top s with Ret (v, _) => Some v | _ => None end.

Lemma splay_ok_new : splay_ok splay_heap_ctor.
Proof. exists STip. split; [by split_and!|]. split; constructor. Qed.

Lemma splay_nonempty s t : splay_rep s t → sh_contents s ≠ ∅ → t ≠ STip.
Proof.
  intros Hr Hne ->. apply Hne. apply map_to_list_inj. by rewrite (splay_contents_of _ _ Hr), map_to_list_empty.
Qed.

Lemma sh_run_rep op s :
  splay_ok s → pq_valid (sh_contents s) op →
  ∃ s', sh_run op s = Ret s' ∧ splay_ok s' ∧ sh_size s' = (sh_size s + sh_delta op)%Z ∧
    pq_step compare (sh_contents s) op (sh_contents s').
Proof.
  intros (t & Hr) Hv.
  assert (Hch : ∀ p v, is_Some (sh_contents s !! p) → ∃ s', splay_change compare p v s = Ret s' ∧ splay_ok s' ∧
    sh_size s' = (sh_size s + 0)%Z ∧ sh_contents s' = <[p := v]> (sh_contents s)).
  { intros p v [w Hw]. destruct (splay_change_rep p w v s t Hr Hw) as (s' & t' & ? & ? & ? & ?).
    exists s'. split_and!; [done|by exists t'|lia|done]. }
  destruct op as [v| |p v|p v|p v|p]; simpl in Hv |- *.
  - destruct (splay_push_rep v s t Hr) as (rc & s' & t' & -> & Hr' & Hz & Hn & Hc).
    exists s'. split_and!; [done|by exists t'|done|]. rewrite Hc. by constructor.
  - destruct (splay_pop_rep s t Hr) as (n & v & s1 & s2 & t1 & t2 & _ & _ & _ & _ & Hl & Hn & Hp & Hr2 & Hz & Hc);
      [by eapply splay_nonempty|].
    exists s2. split_and!; [done|by exists t2|lia|]. rewrite Hc. by econstructor.
  - destruct (Hch p v Hv) as (s' & E & ? & ? & Hc). exists s'. split_and!; [exact E|done..|]. rewrite Hc. constructor.
  - destruct (Hch p v Hv) as (s' & E & ? & ? & Hc). exists s'. split_and!; [exact E|done..|]. rewrite Hc. constructor.
  - destruct (Hch p v Hv) as (s' & E & ? & ? & Hc). exists s'. split_and!; [exact E|done..|]. rewrite Hc. constructor.
  - destruct Hv as [w Hw]. destruct (splay_remove_rep p w s t Hr Hw) as (s' & t' & E & Hr' & Hz & Hc).
    exists s'. split_and!; [exact E|by exists t'|lia|]. rewrite Hc. constructor.
Qed.

Lemma sh_top_ok s :
  splay_ok s → sh_contents s ≠ ∅ →
  ∃ p v s', sh_top s = Some v ∧ sh_contents s !! p = Some v ∧ pq_largest compare (sh_contents s) v ∧
    sh_run PqPop s = Ret s' ∧ sh_contents s' = delete p (sh_contents s).
Proof.
  intros (t & Hr) Hne.
  destruct (splay_pop_rep s t Hr) as (n & v & s1 & s2 & t1 & t2 & Ht & _ & _ & _ & Hl & Hn & Hp & _ & _ & Hc);
    [by eapply splay_nonempty|].
  exists n, v, s2. unfold sh_top. rewrite Ht. by split_and!.
Qed.

(** ** The interface *)
#[local] Instance splay_heap_queue : PriorityQueue (splay_heap T) T := {|
  pq_new := splay_heap_ctor;
  pq_run := sh_run;
  pq_top := sh_top;
|}.

#[refine] Definition splay_heap_queue_spec : PriorityQueueSpec (splay_heap T) T compare := {|
  pq_inv := splay_ok;
  pq_contents := sh_contents;
  pq_allowed := pq_valid;
|}.
Proof.
  - done.
  - split; [apply splay_ok_new|apply fmap_empty].
  - intros op s Hok Hv. destruct (sh_run_rep op s Hok Hv) as (s' & ? & ? & _ & ?). by exists s'.
  - intros s. apply sh_top_ok.
Defined.

(** ** Iterators and destruction *)

(** The stack of an iterator holds the roots of trees. *)
Definition tpush t (ts : list (stree T)) : list (stree T) := match t with STip => ts | _ => t :: ts end.

Lemma tpush_bind {B} (f : stree T → list B) t ts : f STip = [] → tpush t ts ≫= f = f t ++ (ts ≫= f).
Proof. intros Hf. destruct t; simpl; [by rewrite Hf|done]. Qed.
Lemma tpush_tip t ts : Forall (λ u, u ≠ STip) ts → Forall (λ u, u ≠ STip) (tpush t ts).
Proof. destruct t; simpl; [done|]. by constructor. Qed.
Lemma tpush_root t ts :
  troot <$> tpush t ts = match troot t with Some m => Some m :: (troot <$> ts) | None => troot <$> ts end.
Proof. by destruct t. Qed.

Lemma walk_spec s (ts : list (stree T)) L z ρ fuel :
  spl z ρ ((ts ≫= tlist) ++ L) s → Forall (λ u, u ≠ STip) ts → length (ts ≫= torder) ≤ fuel →
  ∃ k, splay_walk fuel (troot <$> ts) s = Ret k ∧ k ≡ₚ (λ x, x.1.1) <$> (ts ≫= torder).
Proof.
  revert ts L. induction fuel as [|fuel IH]; intros [|[|n v q l r] ts] L Hs Hts Hf; try (by exists []);
    (apply Forall_cons in Hts as [Hn Hts]); try done.
  { exfalso. simpl in Hf. rewrite length_app in Hf. simpl in Hf. rewrite length_app in Hf. simpl in Hf. lia. }
  simpl in Hs, Hf |- *. rewrite (spl_lookup n s _ _ _ _ _ Hs). simpl.
  change (list_fmap (stree T) (option nat) troot ts) with (troot <$> ts).
  rewrite <-(tpush_root l ts), <-(tpush_root r (tpush l ts)).
  destruct (IH (tpush r (tpush l ts)) ((trec n v q l r :: clist q) ++ L)) as (k & -> & Hk).
  - eapply spl_eq; [exact Hs|]. rewrite !tpush_bind by done. solve_Permutation.
  - by apply tpush_tip, tpush_tip.
  - rewrite !tpush_bind by done. rewrite !length_app in *. simpl in Hf.
    change (length (list_bind (stree T) _ torder ts)) with (length (ts ≫= torder)) in Hf. lia.
  - exists (n :: k). split; [done|]. rewrite Hk, !tpush_bind by done. rewrite !fmap_app. simpl.
    rewrite <-!(assoc_L (++)). simpl. solve_Permutation.
Qed.

(** The first nodes of the lists. *)
Lemma heads_elems c : (λ x, x.1.1) <$> c ⊆+ (c ≫= @oelems T).*1.
Proof.
  induction c as [|[[n v] q] c IH]; [done|]. change (((n, v, q) :: c) ≫= oelems) with ((n, v) :: q ++ (c ≫= oelems)).
  rewrite !fmap_cons, fmap_app. simpl. apply submseteq_skip. etransitivity; [exact IH|]. by apply submseteq_inserts_l.
Qed.

Lemma sorted_pair {A} (R : relation A) (xs : list A) x y :
  StronglySorted R xs → x ∈ xs → y ∈ xs → x = y ∨ R x y ∨ R y x.
Proof.
  intros Hs. induction xs as [|z xs IH]; [by intros ?%elem_of_nil|].
  apply StronglySorted_cons in Hs as [Hz Hs]. rewrite Forall_forall in Hz.
  intros [->|Hx]%elem_of_cons [->|Hy]%elem_of_cons; auto.
Qed.

Lemma head_contents s t x : splay_rep s t → x ∈ torder t → sh_contents s !! x.1.1 = Some (okey x).
Proof.
  intros Hr Hx. apply elem_of_map_to_list. rewrite (splay_contents_of s t Hr). apply elems_class.
  exists x. split; [done|]. destruct x as [[n v] q]. apply list_elem_of_here.
Qed.

(** An iteration stops at the end, and passes one node of each priority: all of the
    nodes, unless some have equal priorities. *)
Definition walked s (k : list nat) : Prop :=
  NoDup k ∧ (∀ n, n ∈ k → is_Some (sh_contents s !! n)) ∧
  (∀ n v, sh_contents s !! n = Some v → ∃ m w, m ∈ k ∧ sh_contents s !! m = Some w ∧ same compare w v) ∧
  (∀ m w m' w', m ∈ k → m' ∈ k → sh_contents s !! m = Some w → sh_contents s !! m' = Some w' →
    same compare w w' → m = m').

Lemma splay_walked s t k : splay_rep s t → k ≡ₚ (λ x, x.1.1) <$> torder t → walked s k.
Proof.
  intros Hr Hk. pose proof Hr as [_ [Hs Hcl]]. pose proof (splay_contents_of s t Hr) as Hc.
  rewrite Forall_forall in Hcl.
  assert (Hin : ∀ n, n ∈ k → ∃ x, x ∈ torder t ∧ n = x.1.1 ∧ sh_contents s !! n = Some (okey x)).
  { intros n Hn. rewrite Hk in Hn. apply list_elem_of_fmap in Hn as (x & -> & Hx). exists x.
    split_and!; [done..|by eapply head_contents]. }
  split_and!.
  - rewrite Hk. destruct (submseteq_Permutation _ _ (heads_elems (torder t))) as [k' Hk'].
    pose proof (NoDup_fst_map_to_list (sh_contents s)) as Hnd. rewrite Hc in Hnd. unfold tree_elems in Hnd.
    rewrite Hk' in Hnd. by apply NoDup_app in Hnd as [? _].
  - intros n (x & _ & _ & Hx)%Hin. by eexists.
  - intros n v Hv%elem_of_map_to_list. rewrite Hc in Hv. apply elems_class in Hv as (x & Hx & Hv).
    exists x.1.1, (okey x). split_and!; [|by eapply head_contents|].
    + rewrite Hk. apply list_elem_of_fmap. by exists x.
    + apply (class_elem compare x n v); [by apply Hcl|done].
  - intros m w m' w' (x & Hx & -> & Ex)%Hin (y & Hy & -> & Ey)%Hin Em Em' [H1 H2].
    rewrite Ex in Em. rewrite Ey in Em'. injection Em as <-. injection Em' as <-.
    destruct (sorted_pair _ _ x y Hs Hx Hy) as [->|[Hxy|Hxy]]; [done|congruence..].
Qed.

Lemma splay_walk_spec s :
  splay_ok s → sh_contents s ≠ ∅ →
  ∃ k, splay_walk (size (sh_contents s)) (splay_begin s) s = Ret k ∧ walked s k.
Proof.
  intros (t & Hr) Hne. pose proof (splay_nonempty s t Hr Hne) as Ht. pose proof Hr as [Hs Ho].
  destruct (walk_spec s [t] [] (sh_size s) (troot t) (size (sh_contents s))) as (k & Hw & Hk).
  - simpl. by rewrite !app_nil_r.
  - by constructor.
  - simpl. rewrite app_nil_r. rewrite <-length_map_to_list, (splay_contents_of s t Hr).
    pose proof (submseteq_length _ _ (heads_elems (torder t))) as Hl. by rewrite !length_fmap in Hl.
  - exists k. split; [|eapply splay_walked; [done|]; rewrite Hk; simpl; by rewrite app_nil_r].
    destruct Hs as (_ & Hroot & _). unfold splay_begin. rewrite Hroot. exact Hw.
Qed.

(** ** Destruction *)
Lemma store_deleted (ns : gmap nat (splay_node T)) n x L :
  map_to_list ns ≡ₚ (n, x) :: L → ns !! n = Some x ∧ map_to_list (delete n ns) ≡ₚ L.
Proof. intros Hm. split; [by eapply store_lookup|by eapply store_delete]. Qed.

Lemma destroy_chain fuel q L (ns : gmap nat (splay_node T)) :
  map_to_list ns ≡ₚ clist q ++ L → length q ≤ fuel →
  ∃ ns', delete_if (splay_destroy fuel) (qroot q) ns = Ret ns' ∧ map_to_list ns' ≡ₚ L.
Proof.
  revert q L ns. induction fuel as [|fuel IH]; intros [|[m v] q] L ns Hm Hf; simpl in *; try lia; try (by exists ns).
  apply store_deleted in Hm as Hd. destruct Hd as [-> _]. simpl. rewrite (proj1 (store_deleted _ _ _ _ Hm)). simpl.
  rewrite (proj1 (store_deleted _ _ _ _ Hm)). simpl.
  destruct (IH q ((m, SplayNode None None (qroot q) v) :: L) ns) as (ns' & -> & Hm'); [|lia|].
  { rewrite Hm. solve_Permutation. }
  apply store_deleted in Hm' as [E Hm']. cbn [mbind outcome_bind]. rewrite E. simpl. by eexists.
Qed.

Lemma destroy_tree fuel t L (ns : gmap nat (splay_node T)) :
  map_to_list ns ≡ₚ tlist t ++ L → length (tlist t) ≤ fuel →
  ∃ ns', delete_if (splay_destroy fuel) (troot t) ns = Ret ns' ∧ map_to_list ns' ≡ₚ L.
Proof.
  revert t L ns. induction fuel as [|fuel IH]; intros [|n v q l r] L ns Hm Hf; simpl in *; try lia; try (by exists ns).
  rewrite !length_app in Hf. rewrite (proj1 (store_deleted _ _ _ _ Hm)). simpl.
  destruct (IH l (trec n v q l r :: clist q ++ tlist r ++ L) ns) as (n1 & -> & H1); [|lia|].
  { rewrite Hm. solve_Permutation. }
  cbn [mbind outcome_bind]. rewrite (proj1 (store_deleted _ _ _ _ H1)). simpl.
  destruct (IH r (trec n v q l r :: clist q ++ L) n1) as (n2 & -> & H2); [|lia|].
  { rewrite H1. solve_Permutation. }
  cbn [mbind outcome_bind]. rewrite (proj1 (store_deleted _ _ _ _ H2)). simpl.
  destruct (destroy_chain fuel q (trec n v q l r :: L) n2) as (n3 & -> & H3).
  { rewrite H2. solve_Permutation. }
  { assert (length (clist q) = length q) as <- by (clear; induction q as [|[? ?] q IH]; simpl; auto). lia. }
  apply store_deleted in H3 as [E H3]. cbn [mbind outcome_bind]. rewrite E. simpl. by eexists.
Qed.

(** The destructor deletes every node once. *)
Lemma splay_dtor_spec s : splay_ok s → splay_heap_dtor (size (sh_nodes s)) s = Ret ∅.
Proof.
  intros (t & Hs & _). pose proof (spl_count _ _ _ _ Hs) as Hn. destruct Hs as (_ & Hroot & Hm).
  destruct (destroy_tree (size (sh_nodes s)) t [] (sh_nodes s)) as (ns & E & Hns).
  - by rewrite app_nil_r.
  - by rewrite Hn.
  - unfold splay_heap_dtor. rewrite Hroot, E. f_equal. apply map_to_list_inj. by rewrite Hns, map_to_list_empty.
Qed.
End queue.

(** ** What goes wrong *)
Section hazards.
Context {T : Type} (compare : T → T → bool).
Implicit Types s : splay_heap T.

(** Two nodes which are each other's child: looking for a place between them does not
    end. *)
Lemma insert_cycle s n p m x y z :
  sh_nodes s !! n = Some y → sh_nodes s !! p = Some x → sh_nodes s !! m = Some z →
  sn_right x = Some m → sn_left z = Some p →
  compare (sn_data x) (sn_data y) = true →
  compare (sn_data z) (sn_data y) = false → compare (sn_data y) (sn_data z) = true →
  ∀ fuel, splay_insert_from compare fuel (SLeft m) n s = NoFuel ∧ splay_insert_from compare fuel (SRight p) n s = NoFuel.
Proof.
  intros En Ep Em Hx Hz H1 H2 H3. induction fuel as [|fuel [IH1 IH2]]; [done|]. simpl.
  rewrite Em, Ep. simpl. rewrite Hx, Hz. simpl. rewrite Em, Ep. simpl. rewrite En. simpl. by rewrite H1, H2, H3.
Qed.

Lemma destroy_cycle p m x z (ns : gmap nat (splay_node T)) :
  ns !! p = Some x → ns !! m = Some z → sn_left x = None → sn_right x = Some m → sn_left z = Some p →
  ∀ fuel, splay_destroy fuel p ns = NoFuel ∧ splay_destroy fuel m ns = NoFuel.
Proof.
  intros Ep Em Hl Hr Hz. induction fuel as [|fuel [IH1 IH2]]; [done|]. simpl.
  rewrite Ep, Em. simpl. rewrite Hl, Hz. simpl. rewrite Ep. simpl. rewrite Hr. simpl. by rewrite IH1, IH2.
Qed.
End hazards.

Definition splay_of (vs : list Z) : outcome (splay_heap Z) :=
  pq_fill (HP := splay_heap_queue Zlt_b) vs splay_heap_ctor.
Definition demo_splay : splay_heap Z :=
  match splay_of [5; 3; 4; 9; 4; 1; 9; 7]%Z with Ret h => h | _ => splay_heap_ctor end.

Lemma demo_splay_ok : splay_ok Zlt_b demo_splay.
Proof.
  destruct (pq_fill_spec (HS := splay_heap_queue_spec Zlt_b) [5; 3; 4; 9; 4; 1; 9; 7]%Z splay_heap_ctor)
    as (h & Hf & Hh & _); [apply splay_ok_new|].
  replace demo_splay with h; [exact Hh|]. unfold demo_splay, splay_of. by rewrite Hf.
Qed.

(** After [change_top], and with a new node which is to be inserted. *)
Definition demo_cycle : splay_heap Z :=
  match (h ← splay_of [1; 2]%Z; splay_change_top Zlt_b 3%Z h) with Ret h => h | _ => splay_heap_ctor end.
Definition demo_cycle_push : splay_heap Z :=
  SplayHeap (<[2 := splay_node_ctor 2%Z]> (sh_nodes demo_cycle)) (sh_root demo_cycle) 3.

(** One element, and what is left when it is removed. *)
Definition demo_one : splay_heap Z := SplayHeap {[0 := splay_node_ctor 1%Z]} (Some 0) 1.
Definition demo_removed : splay_heap Z := SplayHeap ∅ None 1.

(** ** Properties *)

(** C24: Every operation of the splay heap but change_top - push, pop, increase,
    decrease, change and remove - with handles which exist terminates, with its loops
    bounded by the number of nodes, leaves a search tree of lists of equal elements
    without dangling or shared nodes, and does to the priorities what a priority queue
    does; push adds one to the size, pop takes one from it, and the others, remove
    among them, leave it. [top] of the result, unless there is no element, is a largest
    one, and changes neither the elements nor the size. *)
Theorem splay_heap_refinement {T} (compare : T → T → bool) op s :
  StrictWeakOrder compare → (s = splay_heap_ctor ∨ splay_ok compare s) → pq_valid (sh_contents s) op →
  ∃ s', sh_run compare op s = Ret s' ∧ splay_ok compare s' ∧
    pq_step compare (sh_contents s) op (sh_contents s') ∧
    sh_size s' = (sh_size s + sh_delta op)%Z ∧
    (sh_contents s' ≠ ∅ → ∃ v s'', splay_top s' = Ret (v, s'') ∧ pq_largest compare (sh_contents s') v ∧
      splay_ok compare s'' ∧ sh_contents s'' = sh_contents s' ∧ sh_size s'' = sh_size s').
Proof.
  intros Hswo Hs Hv. assert (Hok : splay_ok compare s) by (destruct Hs as [->|]; [apply splay_ok_new|done]).
  destruct (sh_run_rep compare op s Hok Hv) as (s' & Hrun & Hok' & Hz & Hstep).
  exists s'. split_and!; [done..|]. intros Hne. destruct Hok' as (t & Hr).
  destruct (splay_pop_rep compare s' t Hr) as (n & v & s1 & s2 & t1 & t2 & Ht & Hr1 & Hc & Hz1 & Hl & _);
    [by eapply splay_nonempty|].
  exists v, s1. split_and!; [done..|by exists t1|done|done].
Qed.

(** Iterating over a splay heap that is not empty from [begin] to [end] visits no
    node twice and stops; it visits exactly one node of each priority, so that it
    misses the other ones with that priority. The destructor deletes every node once,
    and leaves none. *)
Theorem splay_walk_and_dtor {T} (compare : T → T → bool) s :
  StrictWeakOrder compare → splay_ok compare s → sh_contents s ≠ ∅ →
  (∃ k, splay_walk (size (sh_contents s)) (splay_begin s) s = Ret k ∧ walked compare s k) ∧
  splay_heap_dtor (size (sh_nodes s)) s = Ret ∅.
Proof. intros Hswo Hok Hne. split; [by apply splay_walk_spec|by eapply splay_dtor_spec]. Qed.

(** Three things the splay heap does not do right. [change_top] inserts the root
    with its old pointers: after 1 and 2 were pushed and the top was changed to 3, the
    two nodes are each other's child, so that pushing 2 does not end, whatever the
    number of iterations, and neither does the destructor. [remove] does not decrement
    the size: when the only element was removed, [empty] is false and [top] uses a null
    pointer. And the iterator [begin] of an empty heap is not [end], and using it
    dereferences a null pointer. *)
Theorem splay_hazards :
  (∃ h h' h'', splay_of [1; 2]%Z = Ret h ∧ splay_change_top Zlt_b 3%Z h = Ret h' ∧
    h'' = SplayHeap (<[2 := splay_node_ctor 2%Z]> (sh_nodes h')) (sh_root h') 3 ∧
    (∀ fuel, splay_insert_from Zlt_b fuel SRoot 2 h'' = NoFuel) ∧
    ∀ fuel, splay_heap_dtor fuel h' = NoFuel) ∧
  (∃ h h', splay_of [1]%Z = Ret h ∧ splay_remove Zlt_b 0 h = Ret h' ∧
    sh_contents h' = ∅ ∧ splay_empty h' = false ∧ splay_top h' = UB) ∧
  splay_begin (@splay_heap_ctor Z) ≠ [] ∧
  ∀ fuel, splay_walk (S fuel) (splay_begin (@splay_heap_ctor Z)) (@splay_heap_ctor Z) = UB.
Proof.
  split_and!; [|exists demo_one, demo_removed; by split_and!|done|done].
  eexists _, demo_cycle, demo_cycle_push. split_and!; [vm_compute; reflexivity|vm_compute; reflexivity|reflexivity| |].
  - intros [|fuel]; [done|].
    destruct (insert_cycle Zlt_b demo_cycle_push 2 0 1 (SplayNode None (Some 1) None 1%Z) (splay_node_ctor 2%Z)
      (SplayNode (Some 0) None None 3%Z) eq_refl eq_refl eq_refl eq_refl eq_refl eq_refl eq_refl eq_refl fuel) as [_ H].
    exact H.
  - intros fuel. destruct (destroy_cycle 0 1 (SplayNode None (Some 1) None 1%Z) (SplayNode (Some 0) None None 3%Z)
      (sh_nodes demo_cycle) eq_refl eq_refl eq_refl eq_refl eq_refl fuel) as [H _].
    change (splay_heap_dtor fuel demo_cycle) with
      (splay_destroy fuel 0 (sh_nodes demo_cycle) ≫= λ ns, _ ← or_ub (ns !! 0); Ret (delete 0 ns)). by rewrite H.
Qed.

(** ** Witnesses *)
Lemma splay_heap_refinement_witness :
  sh_top demo_splay = Some 9%Z ∧
  ∃ s', sh_run Zlt_b (PqRemove 2) demo_splay = Ret s' ∧ splay_ok Zlt_b s' ∧
    pq_step Zlt_b (sh_contents demo_splay) (PqRemove 2) (sh_contents s') ∧
    sh_size s' = (sh_size demo_splay + sh_delta (PqRemove (T := Z) 2))%Z ∧
    (sh_contents s' ≠ ∅ → ∃ v s'', splay_top s' = Ret (v, s'') ∧ pq_largest Zlt_b (sh_contents s') v ∧
      splay_ok Zlt_b s'' ∧ sh_contents s'' = sh_contents s' ∧ sh_size s'' = sh_size s').
Proof.
  split; [vm_compute; reflexivity|].
  apply (splay_heap_refinement Zlt_b (PqRemove 2) demo_splay); [apply _|right; apply demo_splay_ok|].
  exists 4%Z. vm_compute. reflexivity.
Defined.

Lemma splay_walk_and_dtor_witness :
  splay_walk 8 (splay_begin demo_splay) demo_splay = Ret [0; 3; 7; 1; 2; 5] ∧
  (∃ k, splay_walk (size (sh_contents demo_splay)) (splay_begin demo_splay) demo_splay = Ret k ∧
    walked Zlt_b demo_splay k) ∧
  splay_heap_dtor (size (sh_nodes demo_splay)) demo_splay = Ret ∅.
Proof.
  split; [vm_compute; reflexivity|].
  apply (splay_walk_and_dtor Zlt_b demo_splay); [apply _|apply demo_splay_ok|].
  intros E. apply (f_equal (lookup 0)) in E. vm_compute in E. discriminate.
Defined.
