(* ===== verification/BinaryHeap.v ===== *)
(** * boost::priority_queue

    The binary heap of src/src/old-boost/heaps/p_queue.{hpp,cc}: a vector of values
    without handles, with [change_top] added to what the standard one does. The order
    of such a vector is [ord_at] of DHeap for two children. [siftup] takes its value by
    reference, and [pop] passes one to an element of the vector which it writes; a
    reference is a [value_ref] here, and that the aliasing does no harm is proved.
    Indices are unbounded: they stay below twice the length and two. *)
From stdpp Require Import sorting.
From S2P Require Import Prelude DHeap.

(** What a [const_reference] refers to: an element, or something else. *)
Inductive value_ref (T : Type) := Elem (i : nat) | Temp (v : T).
Arguments Elem {T} _.
Arguments Temp {T} _.

Section binary_heap.
Context {T : Type} (compare : T → T → bool).
Implicit Types (c : list T) (v : T) (r : value_ref T).

(** ** Operations *)
Definition ref_read r c : option T := match r with Elem i => c !! i | Temp v => Some v end.

(** [*(base + i) = v], which is undefined outside of the vector. *)
Definition bh_assign (i : nat) v c : option (list T) :=
  if decide (i < length c) then Some (<[i := v]> c) else None.

(** [pidx] is not used when [idx] is 0. *)
Fixpoint bh_siftup_loop (fuel idx pidx : nat) r c : outcome (list T) :=
  match fuel with
  | 0 => NoFuel
  | S fuel =>
      v ← or_ub (ref_read r c);
      if decide (idx = 0) then or_ub (bh_assign idx v c)
      else
        p ← or_ub (c !! pidx);
        if compare p v then
          c ← or_ub (bh_assign idx p c);
          bh_siftup_loop fuel pidx ((pidx - 1) / 2) r c
        else or_ub (bh_assign idx v c)
  end.
Definition bh_siftup (idx : nat) r c : outcome (list T) :=
  if decide (idx = 0) then Ret c else bh_siftup_loop (S idx) idx ((idx - 1) / 2) r c.

Definition bh_push v c : outcome (list T) := bh_siftup (length (c ++ [v]) - 1) (Temp v) (c ++ [v]).

(** The larger one of the children [cidx - 1] and [cidx], and its value. *)
Definition larger_child (cidx : nat) c : option (nat * T) :=
  vr ← c !! cidx;
  vl ← c !! (cidx - 1);
  Some (if compare vr vl then (cidx - 1, vl) else (cidx, vr)).

Fixpoint bh_descend (fuel hidx cidx : nat) c : outcome (nat * nat * list T) :=
  match fuel with
  | 0 => NoFuel
  | S fuel =>
      if decide (cidx < length c) then
        '(cidx, v) ← or_ub (larger_child cidx c);
        c ← or_ub (bh_assign hidx v c);
        bh_descend fuel cidx (cidx * 2 + 2) c
      else Ret (hidx, cidx, c)
  end.

Definition bh_pop c : outcome (list T) :=
  let len := length c in
  '(hidx, cidx, c) ← bh_descend (S len) 0 2 c;
  v ← or_ub (c !! (len - 1));
  c ← or_ub (bh_assign hidx v c);
  c ← (if decide (cidx ≠ len) then bh_siftup hidx (Elem (len - 1)) c else Ret c);
  Ret (take (len - 1) c).

(** The loop of [change_top], which stops above a smaller child. *)
Fixpoint change_descend (fuel hidx cidx : nat) (tmp : T) c : outcome (nat * list T) :=
  match fuel with
  | 0 => NoFuel
  | S fuel =>
      if decide (cidx < length c) then
        '(cidx, v) ← or_ub (larger_child cidx c);
        if compare v tmp then Ret (hidx, c)
        else
          c ← or_ub (bh_assign hidx v c);
          change_descend fuel cidx (cidx * 2 + 2) tmp c
      else Ret (hidx, c)
  end.
Definition bh_change_top (val : T) c : outcome (list T) :=
  _ ← or_ub (c !! 0);
  '(hidx, c) ← change_descend (S (length c)) 0 2 val c;
  or_ub (bh_assign hidx val c).

Definition bh_top c : option T := c !! 0.

(** Filling a queue, and emptying it. *)
Fixpoint bh_fill (vs : list T) c : outcome (list T) :=
  match vs with [] => Ret c | v :: vs => c ← bh_push v c; bh_fill vs c end.
Fixpoint bh_drain (n : nat) c : outcome (list T) :=
  match n with
  | 0 => Ret []
  | S n => v ← or_ub (bh_top c); c ← bh_pop c; vs ← bh_drain n c; Ret (v :: vs)
  end.

(** ** Vectors with a hole *)
Definition vec_at c : nat → option T := λ i, c !! i.
Definition bh_ordered c : Prop := ord_at compare 2 (length c) (length c) (vec_at c).

Lemma perm_insert (i : nat) x v c : c !! i = Some x → x :: <[i := v]> c ≡ₚ v :: c.
Proof.
  revert i. induction c as [|y c IH]; intros [|i] Hx; simplify_eq/=; [solve_Permutation|].
  etrans; [apply Permutation_swap|]. rewrite (IH i Hx). apply Permutation_swap.
Qed.
Lemma perm_move (i j : nat) p v c :
  i ≠ j → i < length c → c !! j = Some p → <[j := v]> (<[i := p]> c) ≡ₚ <[i := v]> c.
Proof.
  intros Hij [x Hx]%lookup_lt_is_Some_2 Hj. apply (Permutation_cons_inv (a := p)), (Permutation_cons_inv (a := x)).
  transitivity (v :: p :: c).
  - rewrite (perm_insert j p v (<[i := p]> c)) by (by rewrite list_lookup_insert_ne).
    rewrite <-(perm_insert i x p c Hx). apply Permutation_swap.
  - rewrite (Permutation_swap p x), (perm_insert i x v c Hx). apply Permutation_swap.
Qed.
Lemma vec_insert c i v j : i < length c → vec_at (<[i := v]> c) j = if decide (j = i) then Some v else vec_at c j.
Proof.
  intros Hi. unfold vec_at. case_decide as Hj; [subst; by apply list_lookup_insert_eq|by rewrite list_lookup_insert_ne].
Qed.
Lemma vec_some c i : i < length c → ∃ v, c !! i = Some v.
Proof. apply lookup_lt_is_Some_2. Qed.
Lemma assign_ok i v c : i < length c → bh_assign i v c = Some (<[i := v]> c).
Proof. intros Hi. unfold bh_assign. by rewrite decide_True. Qed.

(** ** Sifting up *)
Lemma bh_siftup_spec fuel idx v c :
  idx < fuel → idx < length c →
  ∃ c', bh_siftup_loop fuel idx (dh_parent 2 idx) (Temp v) c = Ret c' ∧ length c' = length c ∧
    c' ≡ₚ <[idx := v]> c ∧ (∀ i, idx < i → c' !! i = c !! i) ∧
    (StrictWeakOrder compare → ord_at compare 2 (length c) idx (vec_at c) →
      kids_below compare 2 (length c) idx (vec_at c) v → ord_at compare 2 (length c) (length c) (vec_at c')).
Proof.
  revert idx c. induction fuel as [|fuel IH]; intros idx c Hf Hi; [lia|].
  cbn [bh_siftup_loop ref_read or_ub mbind outcome_bind].
  assert (Hstop : (StrictWeakOrder compare → idx ≠ 0 → ∃ p, c !! dh_parent 2 idx = Some p ∧ compare p v = false) →
    ∃ c', or_ub (bh_assign idx v c) = Ret c' ∧ length c' = length c ∧
    c' ≡ₚ <[idx := v]> c ∧ (∀ i, idx < i → c' !! i = c !! i) ∧
    (StrictWeakOrder compare → ord_at compare 2 (length c) idx (vec_at c) →
      kids_below compare 2 (length c) idx (vec_at c) v → ord_at compare 2 (length c) (length c) (vec_at c'))).
  { intros Hp. rewrite assign_ok by done. eexists. split_and!; [done|by rewrite length_insert|done| |].
    - intros i Hlt. by rewrite list_lookup_insert_ne by lia.
    - intros Hswo Ho Hk. apply (ord_close compare 2 ltac:(lia) _ idx (vec_at c) _ v); [done..| |].
      + intros w Hpos Hw. destruct (Hp Hswo ltac:(lia)) as (p & Hpp & Hcmp). unfold vec_at in Hw. congruence.
      + intros j. by apply vec_insert. }
  case_decide as H0; [by apply Hstop|].
  pose proof (dh_parent_lt 2 ltac:(lia) idx ltac:(lia)) as Hlt.
  destruct (vec_some c (dh_parent 2 idx)) as [p Hp]; [lia|]. rewrite Hp. cbn [or_ub mbind outcome_bind].
  destruct (compare p v) eqn:E; [|apply Hstop; intros; by exists p].
  rewrite assign_ok by done. cbn [or_ub mbind outcome_bind]. fold (dh_parent 2 (dh_parent 2 idx)).
  destruct (IH (dh_parent 2 idx) (<[idx := p]> c)) as (c' & Hrun & Hl & Hperm & Hhi & Hord); [lia|by rewrite length_insert; lia|].
  rewrite length_insert in *. exists c'. split_and!; [exact Hrun|done| | |].
  - rewrite Hperm. apply perm_move; [lia|done|done].
  - intros i Hlt'. rewrite Hhi by lia. by rewrite list_lookup_insert_ne by lia.
  - intros Hswo Ho Hk. apply (Hord Hswo).
    + apply (ord_move_up compare 2 ltac:(lia) _ idx (vec_at c) _ p); [done|lia|done|]. intros j. by apply vec_insert.
    + intros i vi Hin Hip. rewrite vec_insert by done. pose proof (swo_asym p v E) as Hvp.
      case_decide as Hdi; [by intros [= <-]|]. intros Hvi. apply (swo_negtrans v p vi); [done|].
      pose proof (dh_parent_lt 2 ltac:(lia) i ltac:(lia)). rewrite <-Hip in Hp.
      apply (ord_edge _ _ _ _ _ Ho i vi p); (lia || done).
Qed.

(** The reference [pop] passes is read as the value it had: the element is written
    in no iteration but the last one, or there is only one. *)
Lemma bh_siftup_alias fuel idx i v c :
  i < length c → c !! i = Some v → idx ≤ i →
  (idx = i → idx ≠ 0 → ∃ p, c !! dh_parent 2 idx = Some p ∧ compare p v = false) →
  bh_siftup_loop fuel idx (dh_parent 2 idx) (Elem i) c = bh_siftup_loop fuel idx (dh_parent 2 idx) (Temp v) c.
Proof.
  revert idx c. induction fuel as [|fuel IH]; intros idx c Hi Hv Hle Hp; [done|].
  cbn [bh_siftup_loop ref_read]. rewrite Hv. cbn [or_ub mbind outcome_bind].
  case_decide as H0; [done|]. pose proof (dh_parent_lt 2 ltac:(lia) idx ltac:(lia)) as Hlt.
  destruct (vec_some c (dh_parent 2 idx)) as [p Hpp]; [lia|]. rewrite Hpp. cbn [or_ub mbind outcome_bind].
  destruct (compare p v) eqn:E; [|done]. rewrite assign_ok by lia. cbn [or_ub mbind outcome_bind]. fold (dh_parent 2 (dh_parent 2 idx)).
  assert (idx ≠ i) as Hne by (intros ->; destruct (Hp eq_refl H0) as (? & ? & ?); congruence).
  apply IH; [by rewrite length_insert|by rewrite list_lookup_insert_ne|lia|lia].
Qed.

(** ** Going down *)
Lemma larger_child_spec h c :
  h * 2 + 2 < length c →
  ∃ m v, larger_child (h * 2 + 2) c = Some (m, v) ∧ c !! m = Some v ∧ h < m < length c ∧ dh_parent 2 m = h ∧
    (StrictWeakOrder compare → kids_below compare 2 (length c) h (vec_at c) v).
Proof.
  intros Hl. unfold larger_child. destruct (vec_some c (h * 2 + 2) Hl) as [vr Hr].
  destruct (vec_some c (h * 2 + 2 - 1)) as [vl Hvl]; [lia|]. rewrite Hr, Hvl. cbn [mbind option_bind].
  assert (Hk : ∀ v, compare v vr = false → compare v vl = false → kids_below compare 2 (length c) h (vec_at c) v).
  { intros v H1 H2 i vi Hi Hip Hvi. apply dh_parent_iff in Hip; [|lia|lia]. unfold vec_at in Hvi.
    destruct (decide (i = h * 2 + 2)) as [->|Hne]; [congruence|].
    replace i with (h * 2 + 2 - 1) in Hvi by lia. congruence. }
  destruct (compare vr vl) eqn:E.
  - exists (h * 2 + 2 - 1), vl. split_and!; [done|done|lia|lia|apply dh_parent_iff; lia|].
    intros Hswo. apply Hk; [by apply swo_asym|by apply swo_irrefl].
  - exists (h * 2 + 2), vr. split_and!; [done|done|lia|lia|apply dh_parent_iff; lia|].
    intros Hswo. apply Hk; [by apply swo_irrefl|done].
Qed.

(** The hole moves from [h] to its child [m]. *)
Lemma hole_down h m v c :
  h < m < length c → dh_parent 2 m = h → c !! m = Some v →
  bh_assign h v c = Some (<[h := v]> c) ∧ (∀ w, <[m := w]> (<[h := v]> c) ≡ₚ <[h := w]> c) ∧
  (∀ i, h < i → <[h := v]> c !! i = c !! i) ∧
  (ord_at compare 2 (length c) h (vec_at c) → kids_below compare 2 (length c) h (vec_at c) v →
    ord_at compare 2 (length c) m (vec_at (<[h := v]> c))).
Proof.
  intros Hm Hp Hv. split_and!; [apply assign_ok; lia|intros w; apply perm_move; (lia || done)| |].
  - intros i Hi. by rewrite list_lookup_insert_ne by lia.
  - intros Ho Hk. apply (ord_move_down compare 2 ltac:(lia) _ h m (vec_at c) _ v); try done; [lia|].
    intros i. apply vec_insert. lia.
Qed.

Lemma bh_descend_spec fuel h c :
  h < length c → length c - h < fuel →
  ∃ h' c', bh_descend fuel h (h * 2 + 2) c = Ret (h', h' * 2 + 2, c') ∧ length c' = length c ∧
    h ≤ h' < length c ∧ length c ≤ h' * 2 + 2 ∧ (∀ w, <[h' := w]> c' ≡ₚ <[h := w]> c) ∧
    (∀ i, h' ≤ i → c' !! i = c !! i) ∧ ((h' = h ∧ c' = c) ∨ c' !! dh_parent 2 h' = c' !! h') ∧
    (StrictWeakOrder compare → ord_at compare 2 (length c) h (vec_at c) → ord_at compare 2 (length c) h' (vec_at c')).
Proof.
  revert h c. induction fuel as [|fuel IH]; intros h c Hh Hf; [lia|]. cbn [bh_descend].
  case_decide as Hl.
  - destruct (larger_child_spec h c Hl) as (m & v & -> & Hv & Hm & Hp & Hk). cbn [or_ub mbind outcome_bind].
    destruct (hole_down h m v c Hm Hp Hv) as (-> & Hperm & Hhi & Ho). cbn [or_ub mbind outcome_bind].
    destruct (IH m (<[h := v]> c)) as (h' & c' & Hrun & Hl' & Hh' & Hend & Hperm' & Hhi' & Hpar & Hord);
      [rewrite length_insert; lia..|]. rewrite length_insert in *.
    exists h', c'. split_and!; [exact Hrun|done|lia|lia|done| | | |].
    + intros w. by rewrite Hperm', Hperm.
    + intros i Hi. rewrite Hhi', Hhi by lia. done.
    + right. destruct Hpar as [[-> ->]|Hpar]; [|done]. rewrite Hp, list_lookup_insert_eq, Hhi by lia. done.
    + intros Hswo Hoh. apply (Hord Hswo). by apply Ho, Hk.
  - exists h, c. split_and!; try done; try lia. by left.
Qed.

(** ** The operations *)
Lemma bh_push_spec v c :
  ∃ c', bh_push v c = Ret c' ∧ c' ≡ₚ v :: c ∧ (StrictWeakOrder compare → bh_ordered c → bh_ordered c').
Proof.
  unfold bh_push. rewrite length_app. cbn [length]. replace (length c + 1 - 1) with (length c) by lia.
  assert (Hlast : <[length c := v]> (c ++ [v]) = c ++ [v]).
  { apply list_insert_id. by rewrite lookup_app_r, Nat.sub_diag by lia. }
  assert (Hop : StrictWeakOrder compare → bh_ordered c → ord_at compare 2 (length (c ++ [v])) (length c) (vec_at (c ++ [v]))).
  { intros Hswo Ho. rewrite length_app. cbn [length]. split.
    - intros i vi w Hi Hne Hne'. pose proof (dh_parent_lt 2 ltac:(lia) i ltac:(lia)).
      unfold vec_at. rewrite !lookup_app_l by lia. apply (ord_edge _ _ _ _ _ Ho); (lia || done).
    - intros i vi w Hpos Hi Hip. apply dh_parent_iff in Hip; lia. }
  unfold bh_siftup. case_decide as H0.
  - exists (c ++ [v]). split_and!; [done|by rewrite Permutation_app_comm|]. intros Hswo Ho. unfold bh_ordered.
    destruct c; [|done]. split; simpl; intros; lia.
  - destruct (bh_siftup_spec (S (length c)) (length c) v (c ++ [v])) as (c' & Hrun & Hl & Hperm & _ & Hord);
      [lia|rewrite length_app; simpl; lia|].
    exists c'. split_and!; [exact Hrun|by rewrite Hperm, Hlast, Permutation_app_comm|].
    intros Hswo Ho. unfold bh_ordered. rewrite Hl. apply (Hord Hswo); [by apply Hop|].
    intros i vi Hi Hip. apply dh_parent_iff in Hip; [|lia|lia]. rewrite length_app in Hi. simpl in Hi. lia.
Qed.

Lemma ordered_take n c :
  ord_at compare 2 (length c) n (vec_at c) → n ≤ length c → length c ≤ S n → bh_ordered (take n c).
Proof.
  intros Ho Hn Hl. unfold bh_ordered. rewrite length_take_le by done.
  apply (ord_weaken compare 2 ltac:(lia) (length c) n n (vec_at c)); [done..|].
  intros i Hi _. unfold vec_at. by rewrite lookup_take_lt.
Qed.

(** The last element is dropped. *)
Lemma take_perm n c (top last : T) (c0 : list T) :
  length c = S n → c !! n = Some last → c ≡ₚ <[0 := last]> c0 → c0 !! 0 = Some top → c0 ≡ₚ top :: take n c.
Proof.
  intros Hl Hn Hp Ht. apply (Permutation_cons_inv (a := last)). rewrite <-(perm_insert 0 top last c0 Ht), <-Hp.
  rewrite <-(take_drop n c) at 1. rewrite (drop_S c last n Hn), drop_ge by lia. solve_Permutation.
Qed.

Context `{!StrictWeakOrder compare}.

Lemma full_take n c :
  ord_at compare 2 (length c) (length c) (vec_at c) → length c = S n → is_Some (c !! n) → bh_ordered (take n c).
Proof.
  intros Ho Hl Hn. apply ordered_take; [|lia|lia].
  apply (ord_open compare 2 ltac:(lia)); [done|lia|done].
Qed.

(** The hole at the end: nothing moves. *)
Lemma siftup_last n c (last : T) :
  c !! n = Some last → (n = 0 ∨ c !! dh_parent 2 n = Some last) → bh_siftup n (Elem n) c = Ret c.
Proof.
  intros Hn Hpar. unfold bh_siftup. case_decide as H0; [done|]. destruct Hpar as [|Hpar]; [done|].
  fold (dh_parent 2 n). cbn [bh_siftup_loop ref_read]. rewrite Hn. cbn [or_ub mbind outcome_bind].
  rewrite decide_False by done. rewrite Hpar. cbn [or_ub mbind outcome_bind]. rewrite swo_irrefl by done.
  rewrite assign_ok by (by eapply lookup_lt_Some). cbn. by rewrite list_insert_id.
Qed.

(** The part of [pop] after the descent: the hole is filled with the last element. *)
Lemma pop_rest n h c last :
  length c = S n → h ≤ n → S n ≤ h * 2 + 2 → (h = 0 ∨ c !! dh_parent 2 h = c !! h) → c !! n = Some last →
  ord_at compare 2 (S n) h (vec_at c) →
  ∃ c', (if decide (h * 2 + 2 ≠ S n) then bh_siftup h (Elem n) (<[h := last]> c) else Ret (<[h := last]> c)) = Ret c' ∧
    length c' = S n ∧ c' ≡ₚ <[h := last]> c ∧ c' !! n = Some last ∧ bh_ordered (take n c').
Proof.
  intros Hl Hh Hend Hpar Hn Ho. set (c1 := <[h := last]> c).
  assert (Hl1 : length c1 = S n) by (unfold c1; by rewrite length_insert).
  assert (Hat : ∀ i, vec_at c1 i = if decide (i = h) then Some last else vec_at c i) by (intros i; apply vec_insert; lia).
  destruct (decide (h = n)) as [->|Hne].
  { assert (Hc1 : c1 = c) by (by apply list_insert_id). rewrite Hc1 in *. rewrite decide_True by lia.
    exists c. split_and!; [|done..|].
    - apply (siftup_last n c last); [done|]. destruct Hpar as [->|Hpar]; [by left|right; congruence].
    - apply ordered_take; rewrite ?Hl; [done|lia|lia]. }
  assert (Hn1 : c1 !! n = Some last) by (unfold c1; by rewrite list_lookup_insert_ne).
  case_decide as Hlast.
  - unfold bh_siftup. rewrite decide_False by lia. fold (dh_parent 2 h). rewrite (bh_siftup_alias _ _ _ last) by (lia || done).
    destruct (bh_siftup_spec (S h) h last c1) as (c' & Hrun & Hl' & Hperm & Hhi & Hord); [lia|lia|].
    assert (Hhi' : c' !! n = Some last) by (by rewrite Hhi by lia).
    exists c'. split_and!; [exact Hrun|lia|by rewrite Hperm; unfold c1; rewrite list_insert_insert_eq|done|].
    apply full_take; [|lia|by eexists; apply Hhi']. rewrite Hl', Hl1 in *. apply (Hord _).
    + apply (ord_weaken compare 2 ltac:(lia) (S n) (S n) h (vec_at c)); [done|lia|lia|].
      intros i Hi Hih. rewrite Hat. by rewrite decide_False.
    + intros i vi Hi Hip. apply dh_parent_iff in Hip; lia.
  - exists c1. split_and!; [done..|]. apply full_take; [|lia|by eexists]. rewrite Hl1.
    apply (ord_close compare 2 ltac:(lia) _ h (vec_at c) _ last); [done|lia| | |done].
    + intros i vi Hi Hip Hvi. apply dh_parent_iff in Hip; [|lia|lia]. unfold vec_at in Hvi.
      replace i with n in Hvi by lia. rewrite Hn in Hvi. injection Hvi as <-. by apply swo_irrefl.
    + intros vp Hpos Hvp. apply (ord_across _ _ _ _ _ Ho n last vp); try done; [lia|apply dh_parent_iff; lia].
Qed.

Lemma bh_pop_spec c :
  c ≠ [] → bh_ordered c →
  ∃ top c', bh_top c = Some top ∧ bh_pop c = Ret c' ∧ c ≡ₚ top :: c' ∧ bh_ordered c' ∧ ∀ v, v ∈ c → compare top v = false.
Proof.
  intros Hne Ho. destruct (length c) as [|n] eqn:Hl; [by apply nil_length_inv in Hl|].
  destruct (vec_some c 0) as [top Ht]; [lia|]. exists top. unfold bh_pop, bh_top. rewrite Hl.
  destruct (bh_descend_spec (S (S n)) 0 c) as (h & c1 & Hd & Hl1 & Hh & Hend & Hperm & Hhi & Hpar & Hord); [lia|lia|].
  cbn [Nat.mul Nat.add] in Hd. rewrite Hd. cbn [mbind outcome_bind]. rewrite Hl in *.
  replace (S n - 1) with n by lia. destruct (vec_some c1 n) as [last Hn]; [lia|].
  rewrite Hn. cbn [or_ub mbind outcome_bind]. rewrite assign_ok by lia. cbn [or_ub mbind outcome_bind].
  destruct (pop_rest n h c1 last) as (c' & -> & Hl' & Hperm' & Hn' & Hord'); [done|lia|lia| |done| |].
  - destruct Hpar as [[-> _]|?]; [by left|by right].
  - apply (Hord _). apply (ord_open compare 2 ltac:(lia)); [|lia|by exists top]. unfold bh_ordered in Ho. by rewrite Hl in Ho.
  - cbn [mbind outcome_bind]. exists (take n c'). split_and!; [done|done| |done|].
    + eapply take_perm; [done|done| |done]. by rewrite Hperm', Hperm.
    + intros v [i Hi]%list_elem_of_lookup. pose proof (lookup_lt_Some _ _ _ Hi). unfold bh_ordered in Ho. rewrite Hl in *.
      apply (ord_top compare 2 ltac:(lia) (S n) (vec_at c) top i v); try done. intros j Hj.
      by apply lookup_lt_is_Some_2; rewrite Hl.
Qed.

(** ** Changing the top *)
Lemma change_descend_spec fuel h tmp c :
  h < length c → length c - h < fuel → ord_at compare 2 (length c) h (vec_at c) →
  parent_above compare 2 h (vec_at c) tmp →
  ∃ h' c', change_descend fuel h (h * 2 + 2) tmp c = Ret (h', c') ∧ length c' = length c ∧ h ≤ h' < length c ∧
    (∀ w, <[h' := w]> c' ≡ₚ <[h := w]> c) ∧ (∀ i, h' ≤ i → c' !! i = c !! i) ∧
    ord_at compare 2 (length c) h' (vec_at c') ∧ parent_above compare 2 h' (vec_at c') tmp ∧
    (length c ≤ h' * 2 + 2 ∨ kids_below compare 2 (length c) h' (vec_at c') tmp).
Proof.
  revert h c. induction fuel as [|fuel IH]; intros h c Hh Hf Ho Hpa; [lia|]. cbn [change_descend].
  case_decide as Hl.
  - destruct (larger_child_spec h c Hl) as (m & v & -> & Hv & Hm & Hp & Hk). cbn [or_ub mbind outcome_bind].
    destruct (compare v tmp) eqn:E.
    + exists h, c. split_and!; try done. right. intros i vi Hi Hip Hvi.
      apply (swo_negtrans tmp v vi); [by apply swo_asym|]. by apply (Hk _ i vi).
    + destruct (hole_down h m v c Hm Hp Hv) as (-> & Hperm & Hhi & Hod). cbn [or_ub mbind outcome_bind].
      destruct (IH m (<[h := v]> c)) as (h' & c' & Hrun & Hl' & Hh' & Hperm' & Hhi' & Ho' & Hpa' & Hend);
        [rewrite length_insert; lia|rewrite length_insert; lia|rewrite length_insert; by apply Hod, Hk| |].
      { intros vp _ Hvp. rewrite Hp in Hvp. unfold vec_at in Hvp. rewrite list_lookup_insert_eq in Hvp by lia. congruence. }
      rewrite length_insert in *. exists h', c'. split_and!; [exact Hrun|done|lia|lia| | |done..].
      * intros w. by rewrite Hperm', Hperm.
      * intros i Hi. rewrite Hhi', Hhi by lia. done.
  - exists h, c. split_and!; try done. left. lia.
Qed.

(** The only child of the last inner node is not looked at. *)
Lemma bh_change_top_spec c val last :
  bh_ordered c → c !! (length c - 1) = Some last →
  ∃ c', bh_change_top val c = Ret c' ∧ c' ≡ₚ <[0 := val]> c ∧
    ((Nat.Even (length c) → compare val last = false) → bh_ordered c').
Proof.
  intros Ho Hlast. pose proof (lookup_lt_Some _ _ _ Hlast) as Hlt. destruct (vec_some c 0) as [top Ht]; [lia|].
  unfold bh_change_top. rewrite Ht. cbn [or_ub mbind outcome_bind].
  destruct (change_descend_spec (S (length c)) 0 val c) as (h & c1 & Hd & Hl & Hh & Hperm & Hhi & Ho1 & Hpa & Hend);
    [lia|lia|by apply (ord_open compare 2 ltac:(lia)); [|lia|by exists top]|intros vp; lia|].
  cbn [Nat.mul Nat.add] in Hd. rewrite Hd. cbn [mbind outcome_bind]. rewrite assign_ok by lia.
  exists (<[h := val]> c1). split_and!; [done|by rewrite Hperm|]. intros Heven. unfold bh_ordered.
  rewrite length_insert, Hl. apply (ord_close compare 2 ltac:(lia) _ h (vec_at c1) _ val); [done|lia| |done|].
  - destruct Hend as [Hend|?]; [|done]. intros i vi Hi Hip Hvi. apply dh_parent_iff in Hip; [|lia|lia].
    assert (Hi' : i = length c - 1) by lia. unfold vec_at in Hvi. rewrite Hhi in Hvi by lia.
    assert (vi = last) as -> by congruence. apply Heven. exists (h + 1). lia.
  - intros i. apply vec_insert. lia.
Qed.

(** ** Sorting *)
Lemma bh_fill_spec vs c : bh_ordered c → ∃ c', bh_fill vs c = Ret c' ∧ bh_ordered c' ∧ c' ≡ₚ vs ++ c.
Proof.
  revert c. induction vs as [|v vs IH]; intros c Ho; simpl; [by exists c|].
  destruct (bh_push_spec v c) as (c1 & -> & Hp & Ho1). simpl.
  destruct (IH c1) as (c' & -> & Ho' & Hp'); [by apply Ho1|]. exists c'. split_and!; [done..|].
  by rewrite Hp', Hp, Permutation_middle.
Qed.

Lemma bh_drain_spec n c :
  bh_ordered c → length c = n →
  ∃ vs, bh_drain n c = Ret vs ∧ vs ≡ₚ c ∧ StronglySorted (λ v w, compare v w = false) vs.
Proof.
  revert c. induction n as [|n IH]; intros c Ho Hl; cbn [bh_drain].
  { apply nil_length_inv in Hl as ->. exists []. split_and!; [done..|constructor]. }
  destruct (bh_pop_spec c) as (top & c' & -> & -> & Hp & Ho' & Hmax); [by intros ->|done|].
  cbn [or_ub mbind outcome_bind]. apply Permutation_length in Hp as Hl'. simpl in Hl'.
  destruct (IH c') as (vs & -> & Hvs & Hs); [done|lia|]. cbn [mbind outcome_bind].
  exists (top :: vs). split_and!; [done|by rewrite Hp, Hvs|]. constructor; [done|].
  apply Forall_forall. intros v Hv. apply Hmax. rewrite Hp. apply elem_of_cons. right. by rewrite <-Hvs.
Qed.
End binary_heap.

(** ** Properties *)

(** The binary heap, if it is in order, is so after push and pop, whatever the
    comparison calls equal; both terminate and stay inside of the vector. push adds the
    value, [top] is a largest element, and pop removes just that one, although the value
    it passes to siftup by reference is an element of the vector which siftup writes.
    change_top replaces the top, and keeps the order provided that the number of
    elements is odd or the last element is not larger than the new value. *)
Theorem binary_heap_spec {T} (compare : T → T → bool) v last c :
  StrictWeakOrder compare → bh_ordered compare c → c !! (length c - 1) = Some last →
  (∃ c', bh_push compare v c = Ret c' ∧ bh_ordered compare c' ∧ c' ≡ₚ v :: c) ∧
  ∃ top, bh_top c = Some top ∧ (∀ w, w ∈ c → compare top w = false) ∧
    (∃ c', bh_pop compare c = Ret c' ∧ bh_ordered compare c' ∧ c ≡ₚ top :: c') ∧
    ∃ c', bh_change_top compare v c = Ret c' ∧ top :: c' ≡ₚ v :: c ∧
      ((Nat.Even (length c) → compare v last = false) → bh_ordered compare c').
Proof.
  intros Hswo Ho Hlast. split.
  - destruct (bh_push_spec compare v c) as (c' & ? & ? & Ho'). exists c'. by split_and!; [|apply Ho'|].
  - destruct (bh_pop_spec compare c) as (top & c' & Ht & Hp & Hperm & Ho' & Hmax); [by intros ->|done|].
    destruct (bh_change_top_spec compare c v last Ho Hlast) as (c2 & Hc & Hperm2 & Ho2).
    exists top. split_and!; [done..|by exists c'|]. exists c2. split_and!; [done| |done].
    rewrite Hperm2. by apply perm_insert.
Qed.

(** Filling an empty binary heap with a list and taking the elements out again
    terminates and yields the list sorted. *)
Theorem binary_heap_sorts {T} (compare : T → T → bool) vs :
  StrictWeakOrder compare →
  ∃ c vs', bh_fill compare vs [] = Ret c ∧ bh_drain compare (length vs) c = Ret vs' ∧ vs' ≡ₚ vs ∧
    StronglySorted (λ v w, compare v w = false) vs'.
Proof.
  intros Hswo. destruct (bh_fill_spec compare vs []) as (c & Hf & Ho & Hp); [by split; simpl; intros; lia|].
  rewrite app_nil_r in Hp.
  destruct (bh_drain_spec compare (length vs) c Ho) as (vs' & Hd & Hp' & Hs); [by rewrite Hp|].
  exists c, vs'. split_and!; [done..|by rewrite Hp'|done].
Qed.

(** The loop of change_top needs two children: of two elements, the larger one is not
    found when the top becomes the smaller one. *)
Theorem binary_heap_change_top_hazard :
  bh_ordered Zlt_b [5; 3]%Z ∧ bh_change_top Zlt_b 1%Z [5; 3]%Z = Ret [1; 3]%Z ∧ ¬ bh_ordered Zlt_b [1; 3]%Z.
Proof.
  split_and!; [|reflexivity|].
  - split; intros i vi vp; cbn [length]; [|intros ? Hi Hp; pose proof (dh_parent_lt 2 ltac:(lia) i ltac:(lia)); lia].
    intros Hi _ _. assert (i = 1) as -> by lia. by intros [= <-] [= <-].
  - intros [He _]. specialize (He 1 3%Z 1%Z). cbn in He. by discriminate He; [lia|..].
Qed.

(** ** Witnesses *)
Lemma demo_binary_ordered : bh_ordered Zlt_b [9; 5; 7; 1; 4]%Z.
Proof.
  split; intros i vi vp; cbn [length]; [|intros ? Hi Hp; pose proof (dh_parent_lt 2 ltac:(lia) i ltac:(lia)); lia].
  intros Hi _ _. assert (i = 1 ∨ i = 2 ∨ i = 3 ∨ i = 4) as [->|[->|[->| ->]]] by lia; by intros [= <-] [= <-].
Qed.

Lemma binary_heap_spec_witness :
  bh_pop Zlt_b [9; 5; 7; 1; 4]%Z = Ret [7; 5; 4; 1]%Z ∧
  (∃ c', bh_push Zlt_b 8%Z [9; 5; 7; 1; 4]%Z = Ret c' ∧ bh_ordered Zlt_b c' ∧ c' ≡ₚ 8%Z :: [9; 5; 7; 1; 4]%Z) ∧
  ∃ top, bh_top [9; 5; 7; 1; 4]%Z = Some top ∧ (∀ w, w ∈ [9; 5; 7; 1; 4]%Z → Zlt_b top w = false) ∧
    (∃ c', bh_pop Zlt_b [9; 5; 7; 1; 4]%Z = Ret c' ∧ bh_ordered Zlt_b c' ∧ [9; 5; 7; 1; 4]%Z ≡ₚ top :: c') ∧
    ∃ c', bh_change_top Zlt_b 8%Z [9; 5; 7; 1; 4]%Z = Ret c' ∧ top :: c' ≡ₚ 8%Z :: [9; 5; 7; 1; 4]%Z ∧
      ((Nat.Even 5 → Zlt_b 8%Z 4%Z = false) → bh_ordered Zlt_b c').
Proof.
  split; [vm_compute; reflexivity|].
  apply (binary_heap_spec Zlt_b 8%Z 4%Z [9; 5; 7; 1; 4]%Z); [apply _|apply demo_binary_ordered|reflexivity].
Defined.

Lemma binary_heap_sorts_witness :
  ∃ c vs', bh_fill Zlt_b [3; 1; 4; 1; 5]%Z [] = Ret c ∧ bh_drain Zlt_b 5 c = Ret vs' ∧ vs' ≡ₚ [3; 1; 4; 1; 5]%Z ∧
    StronglySorted (λ v w, Zlt_b v w = false) vs'.
Proof. apply (binary_heap_sorts Zlt_b [3; 1; 4; 1; 5]%Z). apply _. Defined.
