(* ===== verification/LazyHeap.v ===== *)
(** * boost::lazy_fibonacci_heap

    The variant of the Fibonacci heap of src/src/old-boost/heaps/l_heap.{hpp,cc} which
    puts cut nodes into a vector, [m_cut_nodes], and makes them roots only when the
    largest element is needed. The operations are on a store of nodes. Proved here is
    how finding the largest element, [push] and [pop] change the store; LazyQueue has
    what follows for a queue which is used by these operations, and what is wrong with
    the other ones. *)
From S2P Require Import Prelude PriorityQueue StoreList PairingHeap FibHeap.

(** ** Data *)

(** The enumeration [node_state], whose values are computed with. *)
Definition cut_none : Z := 0.
Definition cut_one : Z := 1.
Definition cut_two : Z := 2.
Definition state_clean : Z := 4.
Definition root_cut_one : Z := 5.
Definition cut_self : Z := 8.

(** [m_index] is not initialised by the constructor: [None]. *)
Record lh_node (T : Type) := LhNode {
  ln_index : option nat;
  ln_parent : option nat;
  ln_children : list nat;
  ln_state : Z;
  ln_data : T;
}.
Arguments LhNode {T} _ _ _ _ _.
Arguments ln_index {T} _.
Arguments ln_parent {T} _.
Arguments ln_children {T} _.
Arguments ln_state {T} _.
Arguments ln_data {T} _.

(** Neither is [m_min]: [None]; [Some None] is the null pointer. *)
Record lazy_heap (T : Type) := LazyHeap {
  lh_nodes : gmap nat (lh_node T);
  lh_roots : list (option nat);
  lh_cuts : list nat;
  lh_size : Z;
  lh_min : option (option nat);
}.
Arguments LazyHeap {T} _ _ _ _ _.
Arguments lh_nodes {T} _.
Arguments lh_roots {T} _.
Arguments lh_cuts {T} _.
Arguments lh_size {T} _.
Arguments lh_min {T} _.

Definition lazy_heap_ctor {T} : lazy_heap T := LazyHeap ∅ [] [] 0 None.

Section lazy_heap.
Context {T : Type} (compare : T → T → bool).
Implicit Types (s : lazy_heap T) (x y : lh_node T) (n p c r : nat).

(** ** Nodes *)
Definition lh_node_ctor (d : T) : lh_node T := LhNode None None [] state_clean d.
Definition ln_rank x : nat := length (ln_children x).

Definition ln_set_state (z : Z) x : lh_node T := LhNode (ln_index x) (ln_parent x) (ln_children x) z (ln_data x).
Definition ln_clear x : lh_node T := LhNode (ln_index x) None (ln_children x) state_clean (ln_data x).
Definition ln_set_data (d : T) x : lh_node T := LhNode (ln_index x) (ln_parent x) (ln_children x) (ln_state x) d.
Definition ln_remove_all x : lh_node T := LhNode (ln_index x) (ln_parent x) [] (ln_state x) (ln_data x).
Definition ln_set_index (i : nat) x : lh_node T :=
  LhNode (Some i) (ln_parent x) (ln_children x) (ln_state x) (ln_data x).
(** What [join] does to the child and to the parent. *)
Definition ln_attach (i p : nat) x : lh_node T := LhNode (Some i) (Some p) (ln_children x) cut_none (ln_data x).
Definition ln_push_child (c : nat) x : lh_node T :=
  LhNode (ln_index x) (ln_parent x) (ln_children x ++ [c]) state_clean (ln_data x).
Definition ln_drop_child (index : nat) x : lh_node T :=
  LhNode (ln_index x) (ln_parent x) (swap_drop index (ln_children x)) (ln_state x + 1) (ln_data x).

(** Access to a node which does not exist is undefined. *)
Definition lh_alter (f : lh_node T → lh_node T) n s : option (lazy_heap T) :=
  x ← lh_nodes s !! n;
  Some (LazyHeap (<[n := f x]> (lh_nodes s)) (lh_roots s) (lh_cuts s) (lh_size s) (lh_min s)).
Definition lh_set_roots (rs : list (option nat)) s : lazy_heap T :=
  LazyHeap (lh_nodes s) rs (lh_cuts s) (lh_size s) (lh_min s).
Definition lh_set_cuts (cs : list nat) s : lazy_heap T :=
  LazyHeap (lh_nodes s) (lh_roots s) cs (lh_size s) (lh_min s).
Definition lh_set_size (z : Z) s : lazy_heap T :=
  LazyHeap (lh_nodes s) (lh_roots s) (lh_cuts s) z (lh_min s).
Definition lh_set_min (m : option nat) s : lazy_heap T :=
  LazyHeap (lh_nodes s) (lh_roots s) (lh_cuts s) (lh_size s) (Some m).
Definition lh_push_cut n s : lazy_heap T := lh_set_cuts (lh_cuts s ++ [n]) s.

(** [m_roots[k] = v]. *)
Definition lh_put_root (k : nat) (v : option nat) s : option (lazy_heap T) :=
  if decide (k < length (lh_roots s)) then Some (lh_set_roots (<[k := v]> (lh_roots s)) s) else None.

(** [n->join(tree)]. *)
Definition lh_join n (tree : nat) s : option (lazy_heap T) :=
  x ← lh_nodes s !! n;
  s ← lh_alter (ln_attach (ln_rank x) n) tree s;
  lh_alter (ln_push_child tree) n s.

(** [n->cut(child)]; [pop_back] of an empty vector is undefined. *)
Definition lh_node_cut n (child : nat) s : option (lazy_heap T) :=
  y ← lh_nodes s !! child;
  index ← ln_index y;
  x ← lh_nodes s !! n;
  c ← last (ln_children x);
  s ← (if decide (index + 1 < ln_rank x) then lh_alter (ln_set_index index) c s else Some s);
  lh_alter (ln_drop_child index) n s.

(** ** Roots *)
Fixpoint lazy_add_root_fuel (fuel n : nat) s : outcome (lazy_heap T) :=
  match fuel with
  | 0 => NoFuel
  | S fuel =>
      x ← or_ub (lh_nodes s !! n);
      let rank := ln_rank x in
      match lh_roots s !! rank with
      | None =>
          let rs := lh_roots s ++ replicate (rank - length (lh_roots s)) None ++ [Some n] in
          or_ub (lh_alter ln_clear n (lh_set_roots rs s))
      | Some None => or_ub (lh_alter ln_clear n (lh_set_roots (<[rank := Some n]> (lh_roots s)) s))
      | Some (Some r) =>
          s ← or_ub (lh_alter (ln_set_state cut_none) r s);
          let s := lh_set_roots (<[rank := None]> (lh_roots s)) s in
          x ← or_ub (lh_nodes s !! n);
          y ← or_ub (lh_nodes s !! r);
          if compare (ln_data x) (ln_data y) then
            s ← or_ub (lh_alter ln_clear n s);
            s ← or_ub (lh_join r n s);
            lazy_add_root_fuel fuel r s
          else
            s ← or_ub (lh_alter ln_clear r s);
            s ← or_ub (lh_join n r s);
            lazy_add_root_fuel fuel n s
      end
  end.
(** The recursion takes a root out each time. *)
Definition lh_add_root n s : outcome (lazy_heap T) := lazy_add_root_fuel (S (length (lh_roots s))) n s.

Fixpoint add_roots (cs : list nat) s : outcome (lazy_heap T) :=
  match cs with [] => Ret s | c :: cs => s ← lh_add_root c s; add_roots cs s end.

(** The search continues after the first root. *)
Fixpoint lazy_better_root (m : nat) (rs : list (option nat)) s : option nat :=
  match rs with
  | [] => Some m
  | None :: rs => lazy_better_root m rs s
  | Some r :: rs =>
      x ← lh_nodes s !! m;
      y ← lh_nodes s !! r;
      lazy_better_root (if compare (ln_data x) (ln_data y) then r else m) rs s
  end.
Definition lh_find_min s : outcome (lazy_heap T) :=
  if decide (lh_size s = 0%Z) then Ret (lh_set_min None s)
  else
    s ← add_roots (lh_cuts s) s;
    let s := lh_set_cuts [] s in
    '(m, rs) ← or_ub (first_root (lh_roots s));
    m ← or_ub (lazy_better_root m rs s);
    Ret (lh_set_min (Some m) s).

(** [if (m_min == 0) find_min();], where the member must have been written. *)
Definition lh_need_min s : outcome (lazy_heap T) :=
  m ← or_ub (lh_min s); match m with None => lh_find_min s | Some _ => Ret s end.

(** The heap's [cut]; a parent which has become clean fails an assertion, which ends
    the program. *)
Fixpoint lh_cut_fuel (fuel n : nat) s : outcome (lazy_heap T) :=
  match fuel with
  | 0 => NoFuel
  | S fuel =>
      x ← or_ub (lh_nodes s !! n);
      p ← or_ub (ln_parent x);
      s ← or_ub (lh_node_cut p n s);
      y ← or_ub (lh_nodes s !! p);
      if decide (ln_state y = state_clean) then UB
      else if decide (ln_state y = root_cut_one) then
        s ← or_ub (lh_put_root (ln_rank y + 1) None s);
        s ← or_ub (lh_alter (ln_set_state cut_self) p s);
        Ret (lh_set_min None (lh_push_cut p s))
      else if decide (ln_state y = cut_two) then
        s ← lh_cut_fuel fuel p s;
        s ← or_ub (lh_alter (ln_set_state cut_self) p s);
        Ret (lh_push_cut p s)
      else Ret s
  end.
Definition lh_cut n s : outcome (lazy_heap T) := lh_cut_fuel (size (lh_nodes s)) n s.

(** ** The operations *)

(** Every child of a node is put to the cut nodes. *)
Fixpoint lazy_cut_children (cs : list nat) s : option (lazy_heap T) :=
  match cs with
  | [] => Some s
  | c :: cs => s ← lh_alter (ln_set_state cut_self) c s; lazy_cut_children cs (lh_push_cut c s)
  end.

(** Whether one of the children [cs] has a priority above [d]. *)
Fixpoint lazy_child_above (d : T) (cs : list nat) s : option bool :=
  match cs with
  | [] => Some false
  | c :: cs => y ← lh_nodes s !! c; if compare d (ln_data y) then Some true else lazy_child_above d cs s
  end.

(** [if (n->state() == clean) m_roots[n->rank()] = 0; else cut(n);]. *)
Definition lh_detach n s : outcome (lazy_heap T) :=
  x ← or_ub (lh_nodes s !! n);
  if decide (ln_state x = state_clean) then or_ub (lh_put_root (ln_rank x) None s) else lh_cut n s.

(** What [decrease] does if a child exceeds the new priority: after the children were
    cut off and erased, what it puts to the cut nodes is [*it], where [it] is the end of
    the vector. *)
Definition lh_isolate n s : outcome (lazy_heap T) :=
  s ← lh_detach n s;
  x ← or_ub (lh_nodes s !! n);
  s ← or_ub (lazy_cut_children (ln_children x) s);
  s ← or_ub (lh_alter ln_remove_all n s);
  UB.

Definition lh_decrease n (d : T) s : outcome (lazy_heap T) :=
  s ← or_ub (lh_alter (ln_set_data d) n s);
  x ← or_ub (lh_nodes s !! n);
  b ← or_ub (lazy_child_above d (ln_children x) s);
  s ← (if b : bool then lh_isolate n s else Ret s);
  m ← or_ub (lh_min s);
  Ret (if decide (m = Some n) then lh_set_min None s else s).

Definition lh_increase n (d : T) s : outcome (lazy_heap T) :=
  s ← or_ub (lh_alter (ln_set_data d) n s);
  x ← or_ub (lh_nodes s !! n);
  if decide (ln_state x < state_clean)%Z then
    p ← or_ub (ln_parent x);
    y ← or_ub (lh_nodes s !! p);
    if compare (ln_data y) d then s ← lh_cut n s; Ret (lh_set_min None (lh_push_cut n s)) else Ret s
  else Ret s.

Definition lh_change n (d : T) s : outcome (lazy_heap T) :=
  x ← or_ub (lh_nodes s !! n);
  if compare (ln_data x) d then lh_increase n d s else lh_decrease n d s.

Definition lh_change_top (d : T) s : outcome (lazy_heap T) :=
  s ← lh_need_min s;
  n ← or_ub (mjoin (lh_min s));
  lh_change n d s.

(** The last cut node takes the place of [n]. *)
Definition uncut n (cs : list nat) : list nat :=
  match list_find (λ m, m = n) cs, last cs with
  | Some (i, _), Some c => take (length cs - 1) (<[i := c]> cs)
  | _, _ => cs
  end.

(** [delete n] of something that is no node is undefined. *)
Definition lh_delete n s : option (lazy_heap T) :=
  _ ← lh_nodes s !! n;
  Some (LazyHeap (delete n (lh_nodes s)) (lh_roots s) (lh_cuts s) (lh_size s) (lh_min s)).

Definition lh_remove n s : outcome (lazy_heap T) :=
  x ← or_ub (lh_nodes s !! n);
  s ← (if decide (ln_state x = cut_self) then Ret (lh_set_cuts (uncut n (lh_cuts s)) s)
       else if decide (ln_state x = state_clean) then or_ub (lh_put_root (ln_rank x) None s)
       else lh_cut n s);
  x ← or_ub (lh_nodes s !! n);
  s ← or_ub (lazy_cut_children (ln_children x) s);
  or_ub (lh_delete n (lh_set_min None s)).

Definition lh_empty s : bool := bool_decide (lh_size s = 0%Z).

Definition lh_top s : outcome (T * lazy_heap T) :=
  s ← lh_need_min s;
  n ← or_ub (mjoin (lh_min s));
  x ← or_ub (lh_nodes s !! n);
  Ret (ln_data x, s).

Definition lh_push (d : T) s : option (nat * lazy_heap T) :=
  let n := fresh (dom (lh_nodes s)) in
  let s := LazyHeap (<[n := lh_node_ctor d]> (lh_nodes s)) (lh_roots s) (lh_cuts s) (lh_size s + 1)%Z (lh_min s) in
  s ← lh_alter (ln_set_state cut_self) n s;
  Some (n, lh_set_min None (lh_push_cut n s)).

Definition lh_pop s : outcome (lazy_heap T) :=
  s ← lh_need_min s;
  n ← or_ub (mjoin (lh_min s));
  x ← or_ub (lh_nodes s !! n);
  s ← or_ub (lh_put_root (ln_rank x) None s);
  s ← or_ub (lazy_cut_children (ln_children x) s);
  s ← or_ub (lh_delete n (lh_set_size (lh_size s - 1)%Z s));
  Ret (lh_set_min None s).
End lazy_heap.

(** ** Trees *)

(** A tree with the members of its root which the heap does not keep up to date; the
    forests of PairingHeap are the children, the first one first. *)
Record ltop (T : Type) := LTop {
  lt_node : nat;
  lt_index : option nat;
  lt_parent : option nat;
  lt_state : Z;
  lt_data : T;
  lt_kids : forest T;
}.
Arguments LTop {T} _ _ _ _ _ _.
Arguments lt_node {T} _.
Arguments lt_index {T} _.
Arguments lt_parent {T} _.
Arguments lt_state {T} _.
Arguments lt_data {T} _.
Arguments lt_kids {T} _.

Section trees.
Context {T : Type} (compare : T → T → bool).
Implicit Types (s : lazy_heap T) (f c : forest T) (t u w : ltop T) (n p i : nat) (ts : list (ltop T)).
Implicit Types (rs : list (option (ltop T))) (L : list (nat * lh_node T)) (m : option (option nat)).

Fixpoint fids f : list nat := match f with FNil => [] | FNode n _ _ x => n :: fids x end.
Fixpoint fsnoc f n (v : T) c : forest T :=
  match f with FNil => FNode n v c FNil | FNode m w k x => FNode m w k (fsnoc x n v c) end.

(** The nodes of the children of [p] from the one at [i] on, and of a tree. *)
Fixpoint kids_list p i f : list (nat * lh_node T) :=
  match f with
  | FNil => []
  | FNode n v c x => (n, LhNode (Some i) (Some p) (fids c) cut_none v) :: kids_list n 0 c ++ kids_list p (S i) x
  end.
Definition top_node t : lh_node T := LhNode (lt_index t) (lt_parent t) (fids (lt_kids t)) (lt_state t) (lt_data t).
Definition top_list t : list (nat * lh_node T) := (lt_node t, top_node t) :: kids_list (lt_node t) 0 (lt_kids t).
Definition top_elems t : list (nat * T) := (lt_node t, lt_data t) :: felems (lt_kids t).
Definition top_ord t : Prop := ford compare (Some (lt_data t)) (lt_kids t).
Definition top_rank t : nat := length (fids (lt_kids t)).

Lemma fids_snoc f n v c : fids (fsnoc f n v c) = fids f ++ [n].
Proof. induction f as [|m w k _ x IH]; simpl; [done|]. by rewrite IH. Qed.
Lemma kids_snoc p i f n v c :
  kids_list p i (fsnoc f n v c) =
    kids_list p i f ++ (n, LhNode (Some (i + length (fids f))) (Some p) (fids c) cut_none v) :: kids_list n 0 c.
Proof.
  revert i. induction f as [|m w k _ x IH]; intros i; simpl; [by rewrite app_nil_r, Nat.add_0_r|].
  by rewrite IH, Nat.add_succ_r, <-(assoc_L (++)).
Qed.
Lemma felems_snoc f n v c : felems (fsnoc f n v c) ≡ₚ (n, v) :: felems c ++ felems f.
Proof. induction f as [|m w k _ x IH]; simpl; [done|]. rewrite IH. solve_Permutation. Qed.
Lemma ford_snoc f n (v : T) c above :
  ford compare above f → (∀ a, above = Some a → compare a v = false) → ford compare (Some v) c →
  ford compare above (fsnoc f n v c).
Proof. induction f as [|m w k _ x IH]; simpl; [by intros|]. intros (? & ? & ?) ? ?. split_and!; auto. Qed.

(** ** The store *)

Definition slot_node (o : option (ltop T)) : option nat := lt_node <$> o.

(** [rs] are the roots by rank; [cs] are the cut nodes; besides the trees of the roots,
    there are the nodes [L]. *)
Definition lst (z : Z) m rs (cs : list nat) L s : Prop :=
  lh_size s = z ∧ lh_min s = m ∧ lh_roots s = slot_node <$> rs ∧ lh_cuts s = cs ∧
  map_to_list (lh_nodes s) ≡ₚ (omap id rs ≫= top_list) ++ L.

#[export] Instance lst_proper z m rs cs : Proper ((≡ₚ) ==> (=) ==> iff) (lst z m rs cs).
Proof. intros L L' HL s s' <-. unfold lst. by rewrite HL. Qed.

Lemma lst_eq z m rs cs L L' s : lst z m rs cs L s → L ≡ₚ L' → lst z m rs cs L' s.
Proof. by intros Hs <-. Qed.

Lemma lst_lookup n s z m rs cs L x L' `{!Pluck n L x L'} : lst z m rs cs L s → lh_nodes s !! n = Some x.
Proof.
  intros (_ & _ & _ & _ & Hm).
  by apply (store_lookup _ n ((omap id rs ≫= top_list) ++ L) x ((omap id rs ≫= top_list) ++ L')).
Qed.

Lemma lst_alter (g : lh_node T → lh_node T) n s z m rs cs L x L' `{!Pluck n L x L'} :
  lst z m rs cs L s → ∃ s', lh_alter g n s = Some s' ∧ lst z m rs cs ((n, g x) :: L') s'.
Proof.
  intros Hs. pose proof (lst_lookup n s z m rs cs L x L' Hs) as Hn. destruct Hs as (Hz & Hmin & Hr & Hc & Hm).
  unfold lh_alter. rewrite Hn. simpl. eexists. split; [done|]. split_and!; [done..|]. simpl.
  rewrite (store_update _ n _ x ((omap id rs ≫= top_list) ++ L') (g x) Hm). solve_Permutation.
Qed.

(** Taking a tree out of the roots, and putting it there. *)
Lemma omap_take_out rs (k : nat) t : rs !! k = Some (Some t) → omap id rs ≡ₚ t :: omap id (<[k := None]> rs).
Proof.
  revert k. induction rs as [|o rs IH]; intros [|k] Hk; simplify_eq/=; [done|].
  destruct o as [u|]; simpl; rewrite (IH k Hk); [solve_Permutation|done].
Qed.
Lemma omap_put rs (k : nat) t : rs !! k = Some None → omap id (<[k := Some t]> rs) ≡ₚ t :: omap id rs.
Proof.
  revert k. induction rs as [|o rs IH]; intros [|k] Hk; simplify_eq/=; [done|].
  destruct o as [u|]; simpl; rewrite (IH k Hk); [solve_Permutation|done].
Qed.
Lemma omap_extend rs (k : nat) t : omap id (rs ++ replicate k None ++ [Some t]) ≡ₚ t :: omap id rs.
Proof.
  rewrite !omap_app. assert (omap id (replicate k (@None (ltop T))) = []) as -> by (induction k; simpl; auto).
  simpl. solve_Permutation.
Qed.

Lemma lst_root s z m rs cs L (k : nat) : lst z m rs cs L s → lh_roots s !! k = slot_node <$> rs !! k.
Proof. intros (_ & _ & -> & _). by rewrite list_lookup_fmap. Qed.

Lemma lst_take_out z m rs cs L s (k : nat) t :
  lst z m rs cs L s → rs !! k = Some (Some t) →
  lh_put_root k None s = Some (lh_set_roots (<[k := None]> (lh_roots s)) s) ∧
  lst z m (<[k := None]> rs) cs (top_list t ++ L) (lh_set_roots (<[k := None]> (lh_roots s)) s).
Proof.
  intros (Hz & Hmin & Hr & Hc & Hm) Hk. split.
  - unfold lh_put_root. rewrite decide_True; [done|]. rewrite Hr, length_fmap. by eapply lookup_lt_Some.
  - split_and!; [done|done|simpl; by rewrite Hr, list_fmap_insert|done|]. simpl. rewrite Hm, (omap_take_out rs k t Hk).
    simpl. solve_Permutation.
Qed.

(** ** Linking *)
Definition hang t u : ltop T :=
  LTop (lt_node t) (lt_index t) (lt_parent t) state_clean (lt_data t)
    (fsnoc (lt_kids t) (lt_node u) (lt_data u) (lt_kids u)).

Lemma hang_rank t u : top_rank (hang t u) = S (top_rank t).
Proof. unfold top_rank. simpl. rewrite fids_snoc, length_app. simpl. lia. Qed.
Lemma hang_elems t u : top_elems (hang t u) ≡ₚ top_elems t ++ top_elems u.
Proof. unfold top_elems. simpl. rewrite felems_snoc. solve_Permutation. Qed.
Lemma hang_ord t u : top_ord t → top_ord u → compare (lt_data t) (lt_data u) = false → top_ord (hang t u).
Proof. unfold top_ord. intros Ht Hu E. simpl. apply ford_snoc; [done|by intros ? [= <-]|done]. Qed.

Lemma join_spec t u z m rs cs L s :
  lst z m rs cs (top_list t ++ top_list u ++ L) s →
  ∃ s', lh_join (lt_node t) (lt_node u) s = Some s' ∧ lst z m rs cs (top_list (hang t u) ++ L) s'.
Proof.
  intros Hs. unfold lh_join. unfold top_list in Hs. simpl in Hs. rewrite (lst_lookup (lt_node t) s _ _ _ _ _ _ _ Hs). simpl.
  destruct (lst_alter (ln_attach (ln_rank (top_node t)) (lt_node t)) (lt_node u) s _ _ _ _ _ _ _ Hs) as (s1 & -> & H1). simpl.
  destruct (lst_alter (ln_push_child (lt_node u)) (lt_node t) s1 _ _ _ _ _ _ _ H1) as (s2 & -> & H2).
  exists s2. split; [done|]. eapply lst_eq; [exact H2|]. unfold top_list, top_node. simpl.
  rewrite kids_snoc, fids_snoc. unfold ln_push_child, ln_attach, ln_rank. simpl. solve_Permutation.
Qed.

(** ** Roots *)
Definition slots_ok rs : Prop :=
  ∀ k t, rs !! k = Some (Some t) → top_rank t = k ∧ lt_state t = state_clean ∧ lt_parent t = None.
Definition tops_elems ts : list (nat * T) := ts ≫= top_elems.
Definition clear_top t : ltop T := LTop (lt_node t) (lt_index t) None state_clean (lt_data t) (lt_kids t).

Lemma slots_insert rs (k : nat) (o : option (ltop T)) :
  slots_ok rs → (∀ t, o = Some t → top_rank t = k ∧ lt_state t = state_clean ∧ lt_parent t = None) →
  slots_ok (<[k := o]> rs).
Proof.
  intros Hs Ho j t [(-> & Ht & _)|[_ Hj]]%list_lookup_insert_Some; [by apply Ho|by apply Hs].
Qed.
Lemma slots_extend rs (k : nat) t :
  slots_ok rs → length rs + k = top_rank t → lt_state t = state_clean → lt_parent t = None →
  slots_ok (rs ++ replicate k None ++ [Some t]).
Proof.
  intros Hs Hk Hst Hp j u Hj. apply lookup_app_Some in Hj as [Hj|[Hlen Hj]]; [by apply Hs|].
  apply lookup_app_Some in Hj as [Hj|[Hlen' Hj]]; [by apply lookup_replicate in Hj as [? _]|].
  rewrite length_replicate in *. apply list_lookup_singleton_Some in Hj as [Hj [= <-]]. split_and!; [lia|done|done].
Qed.

Lemma alter_roots g n (R : list (option nat)) s s1 :
  lh_alter g n (lh_set_roots R s) = Some s1 →
  ∃ s2, lh_alter g n s = Some s2 ∧ lh_roots s2 = lh_roots s ∧ lh_set_roots R s2 = s1.
Proof. unfold lh_alter. simpl. destruct (lh_nodes s !! n); simpl; [|done]. intros [= <-]. by eexists. Qed.

(** The new root is put into a slot. *)
Lemma lst_put rs rs' cs L s t z m :
  lst z m rs cs (top_list t ++ L) s → omap id rs' ≡ₚ clear_top t :: omap id rs →
  ∃ s', lh_alter ln_clear (lt_node t) (lh_set_roots (slot_node <$> rs') s) = Some s' ∧ lst z m rs' cs L s'.
Proof.
  intros Hs Hp. pose proof Hs as Hs'. unfold top_list in Hs'. simpl in Hs'.
  pose proof (lst_lookup (lt_node t) s _ _ _ _ _ _ _ Hs') as Hn.
  destruct (lst_alter ln_clear (lt_node t) s _ _ _ _ _ _ _ Hs') as (s1 & Ha & H1).
  unfold lh_alter in Ha |- *. simpl. rewrite Hn in Ha |- *. simpl in Ha |- *. injection Ha as <-.
  eexists. split; [done|]. destruct H1 as (? & ? & _ & ? & Hm). split_and!; [done|done|done|done|].
  simpl in Hm |- *. rewrite Hm, Hp. simpl. unfold top_list. simpl. unfold top_node, ln_clear. simpl. solve_Permutation.
Qed.

(** The root of the same rank leaves its slot, and one of the two trees is hung below
    the other one. *)
Lemma lazy_link_step t r rs cs L z m s :
  lst z m rs cs (top_list t ++ L) s → rs !! top_rank t = Some (Some r) →
  ∃ s1, lh_alter (ln_set_state cut_none) (lt_node r) s = Some s1 ∧
    let s2 := lh_set_roots (<[top_rank t := None]> (lh_roots s1)) s1 in
    let rs' := <[top_rank t := None]> rs in
    lh_nodes s2 !! lt_node t = Some (top_node t) ∧
    (∃ y, lh_nodes s2 !! lt_node r = Some y ∧ ln_data y = lt_data r) ∧
    (∃ s3 s4, lh_alter ln_clear (lt_node t) s2 = Some s3 ∧ lh_join (lt_node r) (lt_node t) s3 = Some s4 ∧
      lst z m rs' cs (top_list (hang r t) ++ L) s4) ∧
    (∃ s3 s4, lh_alter ln_clear (lt_node r) s2 = Some s3 ∧ lh_join (lt_node t) (lt_node r) s3 = Some s4 ∧
      lst z m rs' cs (top_list (hang t r) ++ L) s4).
Proof.
  intros Hs Hr. destruct (lst_take_out _ _ _ _ _ s _ r Hs Hr) as [_ H0].
  unfold top_list in H0. simpl in H0.
  destruct (lst_alter (ln_set_state cut_none) (lt_node r) _ _ _ _ _ _ _ _ H0) as (s2 & Ha & H2).
  destruct (alter_roots _ _ _ _ _ Ha) as (s1 & Ha1 & Hroots & Hs2). exists s1. split; [exact Ha1|].
  cbn zeta. rewrite Hroots, Hs2.
  set (r' := LTop (lt_node r) (lt_index r) (lt_parent r) cut_none (lt_data r) (lt_kids r)).
  assert (H2' : lst z m (<[top_rank t := None]> rs) cs (top_list r' ++ top_list t ++ L) s2).
  { eapply lst_eq; [exact H2|]. unfold top_list. simpl. unfold top_node, ln_set_state. simpl. solve_Permutation. }
  assert (Hc : ∀ u w, lst z m (<[top_rank t := None]> rs) cs (top_list u ++ top_list w ++ L) s2 →
    ∃ s3 s4, lh_alter ln_clear (lt_node w) s2 = Some s3 ∧ lh_join (lt_node u) (lt_node w) s3 = Some s4 ∧
      lst z m (<[top_rank t := None]> rs) cs (top_list (hang u w) ++ L) s4).
  { intros u w Hu. unfold top_list in Hu. simpl in Hu.
    destruct (lst_alter ln_clear (lt_node w) _ _ _ _ _ _ _ _ Hu) as (s3 & -> & H3).
    destruct (join_spec u (clear_top w) z m (<[top_rank t := None]> rs) cs L s3) as (s4 & Hj & H4).
    { eapply lst_eq; [exact H3|]. unfold top_list. simpl. unfold top_node, ln_clear. simpl. solve_Permutation. }
    by exists s3, s4. }
  split_and!.
  - by apply (lst_lookup (lt_node t) s2 _ _ _ _ _ _ _ H2).
  - eexists. split; [by apply (lst_lookup (lt_node r) s2 _ _ _ _ _ _ _ H2)|done].
  - by apply (Hc r' t).
  - apply (Hc t r'). eapply lst_eq; [exact H2'|]. solve_Permutation.
Qed.

Context `{!StrictWeakOrder compare}.

Lemma add_root_spec fuel t rs cs L z m s :
  lst z m rs cs (top_list t ++ L) s → slots_ok rs → Forall top_ord (t :: omap id rs) →
  0 < fuel → length rs < fuel + top_rank t →
  ∃ rs' s', lazy_add_root_fuel compare fuel (lt_node t) s = Ret s' ∧ lst z m rs' cs L s' ∧ slots_ok rs' ∧
    Forall top_ord (omap id rs') ∧ tops_elems (omap id rs') ≡ₚ top_elems t ++ tops_elems (omap id rs).
Proof.
  revert t rs L s. induction fuel as [|fuel IH]; intros t rs L s Hs Hok Ho H0 Hf; [lia|].
  cbn [lazy_add_root_fuel]. pose proof Hs as Hs'. unfold top_list in Hs'. simpl in Hs'.
  rewrite (lst_lookup (lt_node t) s _ _ _ _ _ _ _ Hs'). cbn [or_ub mbind outcome_bind].
  change (ln_rank (top_node t)) with (top_rank t). rewrite (lst_root s _ _ _ _ _ _ Hs).
  assert (Hput : ∀ rs', slots_ok rs' → omap id rs' ≡ₚ clear_top t :: omap id rs →
    ∃ rs'' s', or_ub (lh_alter ln_clear (lt_node t) (lh_set_roots (slot_node <$> rs') s)) = Ret s' ∧
      lst z m rs'' cs L s' ∧ slots_ok rs'' ∧ Forall top_ord (omap id rs'') ∧
      tops_elems (omap id rs'') ≡ₚ top_elems t ++ tops_elems (omap id rs)).
  { intros rs' Hok' Hp. destruct (lst_put rs rs' cs L s t z m Hs Hp) as (s' & -> & Hs1).
    exists rs', s'. split_and!; [done..| |].
    - rewrite Hp. apply Forall_cons in Ho as [? ?]. by constructor.
    - unfold tops_elems. by rewrite Hp. }
  pose proof Hs as (_ & _ & Hroots & _). destruct (rs !! top_rank t) as [[r|]|] eqn:Hr; simpl.
  - destruct (lazy_link_step t r rs cs L z m s Hs Hr) as (s1 & -> & Hn & (y & Hy & Hd) & (s3 & s4 & E3 & E4 & H4) & (s5 & s6 & E5 & E6 & H6)).
    cbn [or_ub mbind outcome_bind]. simpl in Hn, Hy. rewrite Hn. cbn [or_ub mbind outcome_bind]. rewrite Hy. cbn [or_ub mbind outcome_bind].
    rewrite Hd. simpl ln_data. pose proof (lookup_lt_Some _ _ _ Hr) as Hlt.
    destruct (Hok _ _ Hr) as (Hrank & _ & _). rewrite (omap_take_out rs _ r Hr) in Ho.
    apply Forall_cons in Ho as [Hot [Hor Ho]%Forall_cons].
    assert (Hok' : slots_ok (<[top_rank t := None]> rs)) by (by apply slots_insert).
    assert (Hel : tops_elems (omap id rs) ≡ₚ top_elems r ++ tops_elems (omap id (<[top_rank t := None]> rs)))
      by (unfold tops_elems at 1; by rewrite (omap_take_out rs _ r Hr)).
    destruct (compare (lt_data t) (lt_data r)) eqn:E.
    + rewrite E3. cbn [or_ub mbind outcome_bind]. rewrite E4. cbn [or_ub mbind outcome_bind].
      destruct (IH (hang r t) _ L s4 H4 Hok') as (rs' & s' & Hrun & Hs2 & Hok2 & Ho2 & He).
      * constructor; [|done]. by apply hang_ord, swo_asym.
      * lia.
      * rewrite length_insert, hang_rank. lia.
      * exists rs', s'. split_and!; [exact Hrun|done..|]. rewrite He, hang_elems, Hel. solve_Permutation.
    + rewrite E5. cbn [or_ub mbind outcome_bind]. rewrite E6. cbn [or_ub mbind outcome_bind].
      destruct (IH (hang t r) _ L s6 H6 Hok') as (rs' & s' & Hrun & Hs2 & Hok2 & Ho2 & He).
      * constructor; [|done]. by apply hang_ord.
      * lia.
      * rewrite length_insert, hang_rank. lia.
      * exists rs', s'. split_and!; [exact Hrun|done..|]. rewrite He, hang_elems, Hel. solve_Permutation.
  - rewrite Hroots. change (Some (lt_node t)) with (slot_node (Some (clear_top t))). rewrite <-list_fmap_insert.
    apply Hput; [apply slots_insert; [done|by intros ? [= <-]]|by apply omap_put].
  - rewrite Hroots, length_fmap. apply lookup_ge_None in Hr.
    replace ((slot_node <$> rs) ++ replicate (top_rank t - length rs) None ++ [Some (lt_node t)]) with
      (slot_node <$> rs ++ replicate (top_rank t - length rs) None ++ [Some (clear_top t)])
      by (by rewrite !fmap_app, fmap_replicate).
    apply Hput; [apply slots_extend; [done|simpl; unfold top_rank at 2; simpl; fold (top_rank t); lia|done|done]|apply omap_extend].
Qed.

Lemma tops_app ts us : tops_elems (ts ++ us) = tops_elems ts ++ tops_elems us.
Proof. apply bind_app. Qed.
Lemma tops_cons t ts : tops_elems (t :: ts) = top_elems t ++ tops_elems ts.
Proof. done. Qed.

Lemma add_roots_spec ts rs cs L z m s :
  lst z m rs cs ((ts ≫= top_list) ++ L) s → slots_ok rs → Forall top_ord (ts ++ omap id rs) →
  ∃ rs' s', add_roots compare (lt_node <$> ts) s = Ret s' ∧ lst z m rs' cs L s' ∧ slots_ok rs' ∧
    Forall top_ord (omap id rs') ∧ tops_elems (omap id rs') ≡ₚ tops_elems (ts ++ omap id rs).
Proof.
  revert rs s. induction ts as [|t ts IH]; intros rs s Hs Hok Ho; [by exists rs, s|].
  cbn [add_roots fmap list_fmap]. apply Forall_cons in Ho as [Ht [Hts Ho]%Forall_app].
  pose proof Hs as (_ & _ & Hroots & _).
  destruct (add_root_spec (S (length (lh_roots s))) t rs cs ((ts ≫= top_list) ++ L) z m s) as (rs1 & s1 & E1 & H1 & Hok1 & Ho1 & He1).
  - eapply lst_eq; [exact Hs|]. simpl. solve_Permutation.
  - done.
  - by constructor.
  - lia.
  - rewrite Hroots, length_fmap. lia.
  - unfold lh_add_root. rewrite E1. cbn [mbind outcome_bind].
    destruct (IH rs1 s1 H1 Hok1) as (rs' & s' & E & H' & Hok' & Ho' & He'); [by apply Forall_app|].
    exists rs', s'. split_and!; [exact E|done..|]. rewrite He'. cbn [app]. rewrite tops_cons, !tops_app, He1. solve_Permutation.
Qed.

(** The first root, and the best of all. *)
Lemma lazy_first_root_spec rs :
  omap id rs ≠ [] →
  ∃ t rs', first_root (slot_node <$> rs) = Some (lt_node t, slot_node <$> rs') ∧ omap id rs = t :: omap id rs'.
Proof. induction rs as [|[t|] rs IH]; simpl; intros Hne; [done|by exists t, rs|by apply IH]. Qed.

Lemma lazy_better_root_spec s t rs :
  (∀ u, u ∈ t :: omap id rs → ∃ x, lh_nodes s !! lt_node u = Some x ∧ ln_data x = lt_data u) →
  ∃ u, lazy_better_root compare (lt_node t) (slot_node <$> rs) s = Some (lt_node u) ∧ u ∈ t :: omap id rs ∧
    ∀ w, w ∈ t :: omap id rs → compare (lt_data u) (lt_data w) = false.
Proof.
  revert t. induction rs as [|[r|] rs IH]; intros t Hn; simpl.
  - exists t. split_and!; [done|apply list_elem_of_here|]. intros w ->%list_elem_of_singleton. by apply swo_irrefl.
  - simpl in Hn. destruct (Hn t) as (x & Ex & Hx); [apply list_elem_of_here|].
    destruct (Hn r) as (y & Ey & Hy); [apply elem_of_cons; right; apply list_elem_of_here|].
    rewrite Ex, Ey. simpl. rewrite Hx, Hy. destruct (compare (lt_data t) (lt_data r)) eqn:E.
    + destruct (IH r) as (u & Hu & Hin & Hmax).
      { intros u Hu. apply Hn. by apply elem_of_cons; right. }
      exists u. split_and!; [done|by apply elem_of_cons; right|]. intros w [->|Hw]%elem_of_cons; [|by apply Hmax].
      apply (swo_negtrans _ (lt_data r)); [apply Hmax, list_elem_of_here|by apply swo_asym].
    + destruct (IH t) as (u & Hu & Hin & Hmax).
      { intros u Hu. apply Hn. rewrite !elem_of_cons in *. tauto. }
      exists u. split_and!; [done|rewrite !elem_of_cons in *; tauto|].
      intros w Hw. rewrite !elem_of_cons in Hw. destruct Hw as [->|[->|Hw]].
      * apply Hmax, list_elem_of_here.
      * apply (swo_negtrans _ (lt_data t)); [apply Hmax, list_elem_of_here|done].
      * apply Hmax. by apply elem_of_cons; right.
  - apply IH. exact Hn.
Qed.

(** ** The heap *)
Definition min_ok m rs ts : Prop :=
  match m with
  | None => ts = [] ∧ omap id rs = []
  | Some None => True
  | Some (Some n) =>
      ts = [] ∧ ∃ t, t ∈ omap id rs ∧ lt_node t = n ∧ ∀ u, u ∈ omap id rs → compare (lt_data t) (lt_data u) = false
  end.

Record lazy_rep s rs ts : Prop := LazyRep {
  lr_store : lst (lh_size s) (lh_min s) rs (lt_node <$> ts) (ts ≫= top_list) s;
  lr_slots : slots_ok rs;
  lr_cut : Forall (λ t, lt_state t = cut_self) ts;
  lr_order : Forall top_ord (ts ++ omap id rs);
  lr_size : lh_size s = Z.of_nat (length (tops_elems (ts ++ omap id rs)));
  lr_min : min_ok (lh_min s) rs ts;
}.

Lemma root_lookup s rs cs L z m u :
  lst z m rs cs L s → u ∈ omap id rs → lh_nodes s !! lt_node u = Some (top_node u).
Proof.
  intros (_ & _ & _ & _ & Hm) Hu. apply elem_of_map_to_list. rewrite Hm, elem_of_app. left.
  apply list_elem_of_bind. exists u. split; [apply list_elem_of_here|done].
Qed.

Lemma lazy_find_min_spec s rs ts :
  lazy_rep s rs ts → ts ++ omap id rs ≠ [] →
  ∃ rs' s', lh_find_min compare s = Ret s' ∧ lazy_rep s' rs' [] ∧ (∃ n, lh_min s' = Some (Some n)) ∧
    lh_size s' = lh_size s ∧ tops_elems (omap id rs') ≡ₚ tops_elems (ts ++ omap id rs).
Proof.
  intros [Hs Hok Hc Ho Hz Hmin] Hne. unfold lh_find_min.
  assert (Hlen : 0 < length (tops_elems (ts ++ omap id rs))).
  { destruct (ts ++ omap id rs); [done|]. unfold tops_elems. simpl. lia. }
  rewrite decide_False by lia. pose proof Hs as (_ & _ & _ & Hcuts & _). rewrite Hcuts.
  destruct (add_roots_spec ts rs (lt_node <$> ts) [] (lh_size s) (lh_min s) s) as (rs1 & s1 & -> & H1 & Hok1 & Ho1 & He1).
  { by rewrite app_nil_r. }
  { done. }
  { done. }
  cbn [mbind outcome_bind]. pose proof H1 as (Hz1 & Hm1 & Hr1 & _ & Hn1).
  assert (Hne1 : omap id rs1 ≠ []).
  { intros E. rewrite E in He1. apply Permutation_length in He1. simpl in He1. lia. }
  simpl lh_roots. rewrite Hr1. destruct (lazy_first_root_spec rs1 Hne1) as (t & rs2 & -> & Homap). cbn [or_ub mbind outcome_bind].
  destruct (lazy_better_root_spec (lh_set_cuts [] s1) t rs2) as (u & -> & Hu & Hmax).
  { intros u Hu. rewrite <-Homap in Hu. eexists. split; [by apply (root_lookup s1 rs1 _ _ _ _ u H1)|done]. }
  cbn [or_ub mbind outcome_bind]. rewrite <-Homap in Hu. rewrite <-Homap in Hmax.
  eexists rs1, _. split_and!; [done| |by eexists|simpl; done|done].
  split; simpl.
  - split_and!; [done..|]. exact Hn1.
  - done.
  - constructor.
  - done.
  - rewrite Hz1, Hz. by rewrite He1.
  - split; [done|]. by exists u.
Qed.

(** ** The operations *)

(** The children of [p] from the one at [i] on as cut nodes. *)
Fixpoint kid_tops p i f : list (ltop T) :=
  match f with FNil => [] | FNode n v c x => LTop n (Some i) (Some p) cut_self v c :: kid_tops p (S i) x end.

Lemma kid_tops_node p i f : lt_node <$> kid_tops p i f = fids f.
Proof. revert i. induction f as [|n v c _ x IH]; intros i; [done|]. cbn. f_equal. apply IH. Qed.
Lemma kid_tops_elems p i f : tops_elems (kid_tops p i f) = felems f.
Proof. revert i. induction f as [|n v c _ x IH]; intros i; [done|]. cbn [kid_tops felems]. by rewrite tops_cons, IH. Qed.
Lemma kid_tops_ord p i f above : ford compare above f → Forall top_ord (kid_tops p i f).
Proof. revert i. induction f as [|n v c _ x IH]; intros i; simpl; [done|]. intros (_ & ? & ?). constructor; [done|by apply IH]. Qed.
Lemma kid_tops_cut p i f : Forall (λ t, lt_state t = cut_self) (kid_tops p i f).
Proof. revert i. induction f as [|n v c _ x IH]; intros i; simpl; by constructor. Qed.

Lemma lazy_cut_children_spec p i f rs cs L z m s :
  lst z m rs cs (kids_list p i f ++ L) s →
  ∃ s', lazy_cut_children (fids f) s = Some s' ∧ lst z m rs (cs ++ fids f) ((kid_tops p i f ≫= top_list) ++ L) s'.
Proof.
  revert i cs L s. induction f as [|n v c _ x IH]; intros i cs L s Hs; simpl in Hs |- *.
  { exists s. by rewrite app_nil_r. }
  destruct (lst_alter (ln_set_state cut_self) n s _ _ _ _ _ _ _ Hs) as (s1 & -> & H1). simpl.
  set (t := LTop n (Some i) (Some p) cut_self v c).
  destruct (IH (S i) (cs ++ [n]) (top_list t ++ L) (lh_push_cut n s1)) as (s' & -> & H').
  - destruct H1 as (? & ? & ? & Hc & Hm). split_and!; [done..|simpl; by rewrite Hc|]. simpl. rewrite Hm.
    unfold top_list, t. simpl. unfold top_node, ln_set_state. simpl. solve_Permutation.
  - exists s'. split; [done|]. rewrite <-(assoc_L (++)) in H'. eapply lst_eq; [exact H'|]. fold t. simpl. solve_Permutation.
Qed.

Lemma lazy_need_min_spec s rs ts :
  lazy_rep s rs ts → ts ++ omap id rs ≠ [] →
  ∃ rs' s' t, lh_need_min compare s = Ret s' ∧ lazy_rep s' rs' [] ∧ lh_size s' = lh_size s ∧
    tops_elems (omap id rs') ≡ₚ tops_elems (ts ++ omap id rs) ∧
    lh_min s' = Some (Some (lt_node t)) ∧ t ∈ omap id rs' ∧ lh_nodes s' !! lt_node t = Some (top_node t) ∧
    ∀ n v, (n, v) ∈ tops_elems (omap id rs') → compare (lt_data t) v = false.
Proof.
  intros Hr Hne.
  assert (H : ∃ rs' s', lh_need_min compare s = Ret s' ∧ lazy_rep s' rs' [] ∧ (∃ n, lh_min s' = Some (Some n)) ∧
    lh_size s' = lh_size s ∧ tops_elems (omap id rs') ≡ₚ tops_elems (ts ++ omap id rs)).
  { unfold lh_need_min. destruct (lh_min s) as [[n|]|] eqn:Em; simpl.
    - pose proof (lr_min _ _ _ Hr) as Hmin. rewrite Em in Hmin. destruct Hmin as [-> _].
      exists rs, s. split_and!; [done..|by exists n|done|done].
    - by apply (lazy_find_min_spec s rs ts).
    - pose proof (lr_min _ _ _ Hr) as Hmin. rewrite Em in Hmin.
      exfalso. apply Hne. destruct Hmin as [-> ->]. done. }
  destruct H as (rs' & s' & Hrun & Hr' & (n & Em) & Hz & He).
  pose proof (lr_min _ _ _ Hr') as Hmin. rewrite Em in Hmin. destruct Hmin as (_ & t & Ht & <- & Hmax).
  exists rs', s', t. split_and!; [done..|by apply (root_lookup s' rs' _ _ _ _ t (lr_store _ _ _ Hr'))|].
  intros n v (u & Hv & Hu)%list_elem_of_bind. apply (swo_negtrans _ (lt_data u)); [by apply Hmax|].
  pose proof (lr_order _ _ _ Hr') as Ho. rewrite Forall_forall in Ho.
  apply elem_of_cons in Hv as [[= -> ->]|Hv]; [by apply swo_irrefl|]. apply (ford_largest compare (lt_data u) (lt_kids u) n v); [by apply (Ho u)|done].
Qed.

Lemma lazy_push_spec s rs ts v :
  lazy_rep s rs ts →
  ∃ n s' ts', lh_push v s = Some (n, s') ∧ lazy_rep s' rs ts' ∧
    tops_elems (ts' ++ omap id rs) ≡ₚ (n, v) :: tops_elems (ts ++ omap id rs).
Proof.
  intros [Hs Hok Hc Ho Hz Hmin]. unfold lh_push. set (n := fresh (dom (lh_nodes s))). set (s1 := LazyHeap _ _ _ _ _).
  assert (H1 : lst (lh_size s + 1) (lh_min s) rs (lt_node <$> ts) ((n, lh_node_ctor v) :: (ts ≫= top_list)) s1).
  { destruct Hs as (_ & _ & ? & ? & Hm). split_and!; [done..|]. simpl.
    etrans; [apply (store_fresh _ _ (lh_node_ctor v) Hm)|]. fold n. solve_Permutation. }
  destruct (lst_alter (ln_set_state cut_self) n s1 _ _ _ _ _ _ _ H1) as (s2 & -> & H2). simpl.
  set (t := LTop n None None cut_self v FNil). exists n. eexists _, (ts ++ [t]). split; [done|].
  assert (He : tops_elems ((ts ++ [t]) ++ omap id rs) ≡ₚ (n, v) :: tops_elems (ts ++ omap id rs)).
  { rewrite !tops_app. simpl. solve_Permutation. }
  split; [|exact He]. destruct H2 as (Hz2 & _ & Hr2 & Hc2 & Hm2). split; simpl.
  - rewrite Hz2. split_and!; [done..|simpl; by rewrite Hc2, fmap_app|]. simpl. rewrite Hm2, bind_app. simpl.
    unfold top_list. simpl. solve_Permutation.
  - done.
  - by apply Forall_app_2; [|constructor].
  - apply Forall_app in Ho as [? ?]. apply Forall_app_2; [|done]. by apply Forall_app_2; [|constructor].
  - rewrite Hz2, Hz, He. simpl. lia.
  - done.
Qed.

Lemma lazy_pop_spec s rs ts :
  lazy_rep s rs ts → ts ++ omap id rs ≠ [] →
  ∃ n v s1 rs1 s' rs' ts', lh_top compare s = Ret (v, s1) ∧ lazy_rep s1 rs1 [] ∧ lh_size s1 = lh_size s ∧
    tops_elems (omap id rs1) ≡ₚ tops_elems (ts ++ omap id rs) ∧
    lh_pop compare s = Ret s' ∧ lazy_rep s' rs' ts' ∧
    tops_elems (ts ++ omap id rs) ≡ₚ (n, v) :: tops_elems (ts' ++ omap id rs') ∧
    ∀ p v', (p, v') ∈ tops_elems (ts ++ omap id rs) → compare v v' = false.
Proof.
  intros Hr Hne. destruct (lazy_need_min_spec s rs ts Hr Hne) as (rs1 & s1 & t & Hrun & Hr1 & Hz1 & He1 & Em & Ht & Hn & Hmax).
  unfold lh_top, lh_pop. rewrite Hrun. cbn [mbind outcome_bind]. rewrite Em. cbn [mjoin option_join or_ub mbind outcome_bind].
  rewrite Hn. cbn [or_ub mbind outcome_bind]. pose proof Hr1 as [Hs1 Hok1 _ Ho1 Hsz1 _].
  apply list_elem_of_omap in Ht as (o & [k Hk]%list_elem_of_lookup & Ho). simpl in Ho. subst o.
  destruct (Hok1 k t Hk) as (Hrank & _ & _). change (ln_rank (top_node t)) with (top_rank t). rewrite Hrank.
  destruct (lst_take_out _ _ _ _ _ s1 k t Hs1 Hk) as [-> H2]. cbn [or_ub mbind outcome_bind]. simpl in H2.
  set (s2 := lh_set_roots _ s1) in *. unfold top_list in H2. rewrite app_nil_r in H2.
  destruct (lazy_cut_children_spec (lt_node t) 0 (lt_kids t) (<[k := None]> rs1) [] [(lt_node t, top_node t)] (lh_size s1) (lh_min s1) s2)
    as (s3 & Hcut & H3).
  { eapply lst_eq; [exact H2|]. solve_Permutation. }
  change (ln_children (top_node t)) with (fids (lt_kids t)). rewrite Hcut. cbn [or_ub mbind outcome_bind].
  unfold lh_delete. simpl lh_nodes. rewrite (lst_lookup (lt_node t) s3 _ _ _ _ _ _ _ H3). cbn [or_ub mbind option_bind outcome_bind].
  set (ts' := kid_tops (lt_node t) 0 (lt_kids t)) in *. set (rs' := <[k := None]> rs1) in *.
  assert (Hel : tops_elems (ts ++ omap id rs) ≡ₚ (lt_node t, lt_data t) :: tops_elems (ts' ++ omap id rs')).
  { rewrite <-He1. unfold tops_elems at 1. rewrite (omap_take_out rs1 k t Hk). fold (tops_elems (t :: omap id rs')).
    rewrite tops_cons, tops_app. unfold ts'. by rewrite kid_tops_elems. }
  exists (lt_node t), (lt_data t), s1, rs1. eexists _, rs', ts'. split_and!; [done..| |done|].
  - destruct H3 as (Hz3 & _ & Hroots3 & Hc3 & Hm3). split; simpl.
    + split_and!; [done|done|done|simpl; rewrite Hc3; symmetry; apply kid_tops_node|]. simpl.
      refine (store_delete (lh_nodes s3) (lt_node t) _ (top_node t) _ Hm3). unfold Pluck. solve_Permutation.
    + by apply slots_insert.
    + apply kid_tops_cut.
    + simpl in Ho1. rewrite (omap_take_out rs1 k t Hk) in Ho1. apply Forall_cons in Ho1 as [Hot Ho1].
      apply Forall_app_2; [by eapply kid_tops_ord|done].
    + rewrite Hz3, Hsz1. simpl. rewrite He1, Hel. simpl. lia.
    + done.
  - intros p w Hw. rewrite <-He1 in Hw. by eapply Hmax.
Qed.
End trees.
