(* ===== verification/LazyQueue.v ===== *)
(** * The lazy Fibonacci heap as a priority queue

    With [push], [pop] and [top] the lazy Fibonacci heap of LazyHeap is an instance of
    the interface of PriorityQueue; the other operations do not keep what these need,
    which is shown by what they do to heaps that were filled and searched once. *)
From stdpp Require Import sorting.
From S2P Require Import Prelude PriorityQueue StoreList PairingHeap LazyHeap.

Section queue.
Context {T : Type} (compare : T → T → bool).
Implicit Types (s : lazy_heap T).

Definition lh_contents s : gmap nat T := ln_data <$> lh_nodes s.
Definition lazy_ok s : Prop := ∃ rs ts, lazy_rep compare s rs ts.

Definition lh_run (op : pq_op T) s : outcome (lazy_heap T) :=
  match op with
  | PqPush v => or_ub (snd <$> lh_push v s)
  | PqPop => lh_pop compare s
  | PqIncrease p v => lh_increase compare p v s
  | PqDecrease p v => lh_decrease compare p v s
  | PqChange p v => lh_change compare p v s
  | PqRemove p => lh_remove p s
  end.
Definition lh_top_value s : option T := match lh_top compare s with Ret (v, _) => Some v | _ => None end.

(** What the heap does right. *)
Definition lazy_allowed (m : gmap nat T) (op : pq_op T) : Prop :=
  match op with PqPush _ => True | PqPop => m ≠ ∅ | _ => False end.
Context `{!StrictWeakOrder compare}.

(** ** Contents *)
Definition lazy_elems (L : list (nat * lh_node T)) : list (nat * T) := prod_map id ln_data <$> L.

Lemma lazy_elems_app L L' : lazy_elems (L ++ L') = lazy_elems L ++ lazy_elems L'.
Proof. apply fmap_app. Qed.
Lemma kids_elems p i f : lazy_elems (kids_list (T := T) p i f) = felems f.
Proof.
  revert p i. induction f as [|n v c IHc x IHx]; intros p i; [done|].
  change (lazy_elems (kids_list p i (FNode n v c x))) with ((n, v) :: lazy_elems (kids_list n 0 c ++ kids_list p (S i) x)).
  by rewrite lazy_elems_app, IHc, IHx.
Qed.
Lemma tops_list_elems ts : lazy_elems (ts ≫= top_list) = tops_elems (T := T) ts.
Proof.
  induction ts as [|t ts IH]; [done|]. cbn [mbind list_bind] in *. rewrite lazy_elems_app, tops_cons. f_equal; [|exact IH].
  change (lazy_elems (top_list t)) with ((lt_node t, lt_data t) :: lazy_elems (kids_list (lt_node t) 0 (lt_kids t))).
  by rewrite kids_elems.
Qed.

Lemma lazy_contents s rs ts :
  lazy_rep compare s rs ts → map_to_list (lh_contents s) ≡ₚ tops_elems (ts ++ omap id rs).
Proof.
  intros [(_ & _ & _ & _ & Hm) _ _ _ _ _]. unfold lh_contents. rewrite map_to_list_fmap, Hm.
  fold (lazy_elems ((omap id rs ≫= top_list) ++ (ts ≫= top_list))).
  rewrite lazy_elems_app, !tops_list_elems, tops_app. by rewrite (comm (++)).
Qed.

Lemma lazy_size s : lazy_ok s → lh_size s = Z.of_nat (size (lh_contents s)).
Proof.
  intros (rs & ts & Hr). rewrite (lr_size _ _ _ _ Hr). by rewrite <-length_map_to_list, (lazy_contents s rs ts Hr).
Qed.

Lemma lazy_nonempty s rs ts : lazy_rep compare s rs ts → lh_contents s ≠ ∅ → ts ++ omap id rs ≠ [].
Proof.
  intros Hr Hne E. apply Hne, map_to_list_inj. by rewrite (lazy_contents s rs ts Hr), E, map_to_list_empty.
Qed.

Lemma lazy_ok_new : lazy_ok lazy_heap_ctor.
Proof. exists [], []. by split. Qed.

(** Taking the top out. *)
Lemma lazy_pop_top s :
  lazy_ok s → lh_contents s ≠ ∅ →
  ∃ n v s1 s', lh_top compare s = Ret (v, s1) ∧ lazy_ok s1 ∧ lh_contents s1 = lh_contents s ∧
    lh_contents s !! n = Some v ∧ pq_largest compare (lh_contents s) v ∧
    lh_pop compare s = Ret s' ∧ lazy_ok s' ∧ lh_contents s' = delete n (lh_contents s).
Proof.
  intros (rs & ts & Hr) Hne. pose proof (lazy_contents s rs ts Hr) as Hc.
  destruct (lazy_pop_spec compare s rs ts Hr (lazy_nonempty s rs ts Hr Hne))
    as (n & v & s1 & rs1 & s' & rs' & ts' & Ht & Hr1 & _ & He1 & Hp & Hr' & He & Hmax).
  pose proof (lazy_contents s1 rs1 [] Hr1) as Hc1. pose proof (lazy_contents s' rs' ts' Hr') as Hc'.
  destruct (list_to_delete (lh_contents s) (lh_contents s') n v (tops_elems (ts' ++ omap id rs'))) as [Hn Hd];
    [by rewrite Hc|done|].
  exists n, v, s1, s'. split_and!; [done|by exists rs1, []| |done| |done|by exists rs', ts'|done].
  - apply map_to_list_inj. by rewrite Hc1, Hc.
  - intros q w Hq%elem_of_map_to_list. rewrite Hc in Hq. by eapply Hmax.
Qed.

Lemma lh_run_ok op s :
  lazy_ok s → lazy_allowed (lh_contents s) op →
  ∃ s', lh_run op s = Ret s' ∧ lazy_ok s' ∧ pq_step compare (lh_contents s) op (lh_contents s').
Proof.
  intros Hok Ha. destruct op as [v| |p v|p v|p v|p]; try done; simpl in Ha |- *.
  - destruct Hok as (rs & ts & Hr). destruct (lazy_push_spec compare s rs ts v Hr) as (n & s' & ts' & -> & Hr' & He).
    exists s'. split_and!; [done|by exists rs, ts'|].
    destruct (list_to_push (lh_contents s) (lh_contents s') n v (tops_elems (ts ++ omap id rs))) as [Hn ->].
    + by apply lazy_contents.
    + by rewrite (lazy_contents s' rs ts' Hr').
    + by constructor.
  - destruct (lazy_pop_top s Hok Ha) as (n & v & s1 & s' & _ & _ & _ & Hn & Hl & Hp & Hok' & Hc).
    exists s'. split_and!; [done..|]. rewrite Hc. by econstructor.
Qed.

(** ** The interface *)
#[local] Instance lazy_heap_queue : PriorityQueue (lazy_heap T) T := {|
  pq_new := lazy_heap_ctor;
  pq_run := lh_run;
  pq_top := lh_top_value;
|}.

#[refine] Definition lazy_heap_queue_spec : PriorityQueueSpec (lazy_heap T) T compare := {|
  pq_inv := lazy_ok;
  pq_contents := lh_contents;
  pq_allowed := lazy_allowed;
|}.
Proof.
  - intros m op [->|[v ->]] Hv; [exact Hv|done].
  - split; [apply lazy_ok_new|apply fmap_empty].
  - intros op s. apply lh_run_ok.
  - intros s Hok Hne. destruct (lazy_pop_top s Hok Hne) as (n & v & s1 & s' & Ht & _ & _ & Hn & Hl & Hp & _ & Hc).
    exists n, v, s'. split_and!; [|done..]. simpl. unfold lh_top_value. by rewrite Ht.
Defined.
End queue.

Definition lazy_of (vs : list Z) : outcome (lazy_heap Z) :=
  pq_fill (HP := lazy_heap_queue Zlt_b) vs lazy_heap_ctor.
(** Filled with numbers, and searched once. *)
Definition lazy_searched (vs : list Z) : lazy_heap Z :=
  match (h ← lazy_of vs; lh_top Zlt_b h) with Ret (_, h) => h | _ => lazy_heap_ctor end.
Definition demo_lazy : lazy_heap Z :=
  match lazy_of [5; 3; 4; 9; 1]%Z with Ret h => h | _ => lazy_heap_ctor end.

Lemma demo_lazy_ok : lazy_ok Zlt_b demo_lazy.
Proof.
  destruct (pq_fill_spec (HS := lazy_heap_queue_spec Zlt_b) [5; 3; 4; 9; 1]%Z lazy_heap_ctor)
    as (h & Hf & Hh & _); [apply lazy_ok_new|].
  replace demo_lazy with h; [exact Hh|]. unfold demo_lazy, lazy_of. by rewrite Hf.
Qed.

(** ** Properties *)

(** C25: Used by push, pop and top only, with a strict weak order and no pop of an empty
    heap, the lazy Fibonacci heap is a priority queue: push and pop terminate, keep the trees in order, the roots at their ranks and the cut nodes apart,
    and do to the priorities what a priority queue does; the size counts the elements; and
    [top], unless there is no element, is a largest one, whether it is known or the cut
    nodes have to be made roots first, which changes no element. *)
Theorem lazy_heap_refinement {T} (compare : T → T → bool) op s :
  StrictWeakOrder compare → (s = lazy_heap_ctor ∨ lazy_ok compare s) → lazy_allowed (lh_contents s) op →
  ∃ s', lh_run compare op s = Ret s' ∧ lazy_ok compare s' ∧
    pq_step compare (lh_contents s) op (lh_contents s') ∧
    lh_size s' = Z.of_nat (size (lh_contents s')) ∧
    if lh_empty s' then lh_contents s' = ∅
    else ∃ v s'', lh_top compare s' = Ret (v, s'') ∧ pq_largest compare (lh_contents s') v ∧
      lazy_ok compare s'' ∧ lh_contents s'' = lh_contents s'.
Proof.
  intros Hswo Hs Ha. assert (Hok : lazy_ok compare s) by (destruct Hs as [->|]; [apply lazy_ok_new|done]).
  destruct (lh_run_ok compare op s Hok Ha) as (s' & Hrun & Hok' & Hstep). pose proof (lazy_size compare s' Hok') as Hz.
  exists s'. split_and!; [done..|]. unfold lh_empty. case_bool_decide as He.
  - apply map_size_empty_inv. lia.
  - assert (Hne : lh_contents s' ≠ ∅) by (intros E; rewrite E, map_size_empty in Hz; done).
    destruct (lazy_pop_top compare s' Hok' Hne) as (n & v & s1 & _ & Ht & Hok1 & Hc1 & _ & Hl & _).
    exists v, s1. by split_and!.
Qed.

(** The other operations go wrong. With the priorities 1, 2 and 3 a root which
    is not the top is increased to 5, and [top] is still 3. With 1, 2, 3 and 4, decreasing the
    root below its children uses the end of a vector as an element; and increasing one of
    its children twice puts it to the cut nodes twice, so that it becomes its own child:
    [pop] then deletes it and keeps a pointer to it, which the next [top] follows. When the only
    element was removed, [empty] is false, and [top] runs off the end of the roots. *)
Theorem lazy_heap_hazards :
  (∃ h, lh_increase Zlt_b 1 5%Z (lazy_searched [1; 2; 3]%Z) = Ret h ∧ lh_contents h !! 1 = Some 5%Z ∧
    lh_top_value Zlt_b h = Some 3%Z) ∧
  lh_decrease Zlt_b 3 0%Z (lazy_searched [1; 2; 3; 4]%Z) = UB ∧
  (∃ h1 h2 h3 h4, lh_increase Zlt_b 2 5%Z (lazy_searched [1; 2; 3; 4]%Z) = Ret h1 ∧
    lh_increase Zlt_b 2 6%Z h1 = Ret h2 ∧ lh_cuts h2 = [3; 2; 2] ∧
    lh_top Zlt_b h2 = Ret (6%Z, h3) ∧ 2 ∈ default [] (ln_children <$> lh_nodes h3 !! 2) ∧
    lh_pop Zlt_b h3 = Ret h4 ∧ size (lh_contents h4) = 3 ∧ lh_top Zlt_b h4 = UB) ∧
  (∃ h, lh_remove 0 (lazy_searched [1]%Z) = Ret h ∧ lh_contents h = ∅ ∧ lh_empty h = false ∧ lh_top Zlt_b h = UB).
Proof.
  split_and!.
  - eexists. split; [vm_compute; reflexivity|]. by split.
  - vm_compute. reflexivity.
  - eexists _, _, _, _. split; [vm_compute; reflexivity|]. split; [vm_compute; reflexivity|]. split; [reflexivity|].
    split; [vm_compute; reflexivity|]. split; [vm_compute; set_solver|]. split; [vm_compute; reflexivity|].
    split; vm_compute; reflexivity.
  - eexists. split; [vm_compute; reflexivity|]. split_and!; vm_compute; reflexivity.
Qed.

(** ** Witnesses *)
Lemma lazy_heap_refinement_witness :
  lh_top_value Zlt_b demo_lazy = Some 9%Z ∧
  ∃ s', lh_run Zlt_b PqPop demo_lazy = Ret s' ∧ lazy_ok Zlt_b s' ∧
    pq_step Zlt_b (lh_contents demo_lazy) PqPop (lh_contents s') ∧
    lh_size s' = Z.of_nat (size (lh_contents s')) ∧
    if lh_empty s' then lh_contents s' = ∅
    else ∃ v s'', lh_top Zlt_b s' = Ret (v, s'') ∧ pq_largest Zlt_b (lh_contents s') v ∧
      lazy_ok Zlt_b s'' ∧ lh_contents s'' = lh_contents s'.
Proof.
  split; [vm_compute; reflexivity|].
  apply (lazy_heap_refinement Zlt_b PqPop demo_lazy); [apply _|right; apply demo_lazy_ok|].
  intros E. apply (f_equal (lookup 0)) in E. vm_compute in E. discriminate.
Defined.
