(* ===== verification/Partition.v ===== *)
(** * Partition functions

    The partition functions of src/presentations/quicker-sorting/partition.hpp.
    The memory is the array the iterators point into, an iterator is an index.
    Reading in front of the array or behind it is undefined. [PartitionSpec] is
    what quicksort (Quicksort.v) needs of a partition function: its theorems are
    proved for any instance. *)
From S2P Require Import Prelude.

(** ** Arrays *)
Section arrays.
Context {T : Type}.
Implicit Types a : list T.

Definition iter_swap (i j : nat) a : option (list T) :=
  x ← a !! i; y ← a !! j; Some (<[j := x]> (<[i := y]> a)).

(** [std::find_if] over [k] elements, and over the reversed range ending at
    [last], whose [base()] is returned. *)
Fixpoint std_find_if (k first : nat) (pred : T → bool) a : option nat :=
  match k with
  | 0 => Some first
  | S k => x ← a !! first; if pred x then Some first else std_find_if k (first + 1) pred a
  end.
Fixpoint std_rfind_if (k last : nat) (pred : T → bool) a : option nat :=
  match k with
  | 0 => Some last
  | S k => x ← a !! (last - 1); if pred x then Some last else std_rfind_if k (last - 1) pred a
  end.

(** ** Partition functions *)
Fixpoint simple_partition_loop (fuel first last : nat) (pred : T → bool) a : outcome (nat * list T) :=
  match fuel with
  | 0 => NoFuel
  | S fuel =>
      first ← or_ub (std_find_if (last - first) first (λ x, negb (pred x)) a);
      last ← or_ub (std_rfind_if (last - first) last pred a);
      if decide (first = last) then Ret (first, a)
      else if decide (first = last - 1) then Ret (first, a)
      else
        a ← or_ub (iter_swap first (last - 1) a);
        simple_partition_loop fuel (first + 1) (last - 1) pred a
  end.
Definition simple_partition (pred : T → bool) (first last : nat) a : outcome (nat * list T) :=
  simple_partition_loop (S (last - first)) first last pred a.

(** [while (begin != end && pred( *begin)) { ++begin; }] and
    [while (begin != end && !pred( *--end)) {}]. *)
Fixpoint guarded_up (fuel first last : nat) (pred : T → bool) a : outcome nat :=
  match fuel with
  | 0 => NoFuel
  | S fuel =>
      if decide (first = last) then Ret first
      else x ← or_ub (a !! first); if pred x then guarded_up fuel (first + 1) last pred a else Ret first
  end.
Fixpoint guarded_down (fuel first last : nat) (pred : T → bool) a : outcome nat :=
  match fuel with
  | 0 => NoFuel
  | S fuel =>
      if decide (first = last) then Ret last
      else
        match last with
        | 0 => UB
        | S last => x ← or_ub (a !! last); if pred x then Ret last else guarded_down fuel first last pred a
        end
  end.

Fixpoint manual_partition_loop (fuel first last : nat) (pred : T → bool) a : outcome (nat * list T) :=
  match fuel with
  | 0 => NoFuel
  | S fuel =>
      first ← guarded_up (S (length a)) first last pred a;
      last ← guarded_down (S (length a)) first last pred a;
      if decide (first = last) then Ret (first, a)
      else
        a ← or_ub (iter_swap first last a);
        manual_partition_loop fuel (first + 1) last pred a
  end.
Definition manual_partition (pred : T → bool) (first last : nat) a : outcome (nat * list T) :=
  manual_partition_loop (S (last - first)) first last pred a.

(** [while (pred( *begin)) { ++begin; }] and [while (!pred( *--end)) {}]: the
    elements have to stop them. *)
Fixpoint unguarded_up (fuel first : nat) (pred : T → bool) a : outcome nat :=
  match fuel with
  | 0 => NoFuel
  | S fuel => x ← or_ub (a !! first); if pred x then unguarded_up fuel (first + 1) pred a else Ret first
  end.
Fixpoint unguarded_down (last : nat) (pred : T → bool) a : outcome nat :=
  match last with
  | 0 => UB
  | S last => x ← or_ub (a !! last); if pred x then Ret last else unguarded_down last pred a
  end.

Fixpoint sentinel_partition_loop (fuel first last : nat) (pred : T → bool) a : outcome (nat * list T) :=
  match fuel with
  | 0 => NoFuel
  | S fuel =>
      first ← unguarded_up (S (length a)) first pred a;
      last ← unguarded_down last pred a;
      if decide (last ≤ first) then Ret (first, a)
      else
        a ← or_ub (iter_swap first last a);
        sentinel_partition_loop fuel (first + 1) last pred a
  end.
Definition sentinel_partition (pred : T → bool) (first last : nat) a : outcome (nat * list T) :=
  let loop first last a := sentinel_partition_loop (S (last - first)) first last pred a in
  if decide (first = last) then loop first last a
  else
    x ← or_ub (a !! first);
    if negb (pred x) then
      last ← guarded_down (S (length a)) first last pred a;
      if decide (first = last) then Ret (first, a)
      else
        a ← or_ub (iter_swap first last a);
        loop (first + 1) last a
    else loop first last a.
End arrays.

(** ** Permuting a range *)
(** Nothing outside of [b .. e) changes, and inside the elements are permuted. *)
Record range_perm {T} (b e : nat) (a a' : list T) : Prop := RangePerm {
  rp_perm : a' ≡ₚ a;
  rp_outside i : i < b ∨ e ≤ i → a' !! i = a !! i;
}.

#[export] Instance range_perm_preorder {T} b e : PreOrder (@range_perm T b e).
Proof.
  split; [done|]. intros a1 a2 a3 [Hp1 Ho1] [Hp2 Ho2]. split; [by rewrite Hp2|].
  intros i Hi. by rewrite Ho2, Ho1.
Qed.

(** What holds of all elements at positions of [b .. e). *)
Definition range_all {T} (P : T → Prop) (b e : nat) (a : list T) : Prop :=
  ∀ i x, b ≤ i < e → a !! i = Some x → P x.

Section range.
Context {T : Type}.
Implicit Types a : list T.

Lemma range_perm_length b e a a' : range_perm b e a a' → length a' = length a.
Proof. intros [Hp _]. by apply Permutation_length. Qed.

Lemma range_perm_widen b e b' e' a a' : range_perm b e a a' → b' ≤ b → e ≤ e' → range_perm b' e' a a'.
Proof. intros [Hp Ho] Hb He. split; [done|]. intros i Hi. apply Ho. lia. Qed.

Lemma range_lookup a i : i < length a → ∃ x, a !! i = Some x.
Proof. intros Hi. destruct (lookup_lt_is_Some_2 a i Hi) as [x Hx]. by exists x. Qed.

Lemma range_perm_inside b e a a' :
  range_perm b e a a' → b ≤ e ≤ length a → take (e - b) (drop b a') ≡ₚ take (e - b) (drop b a).
Proof.
  intros Hr Hbe. pose proof (range_perm_length _ _ _ _ Hr) as Hlen. destruct Hr as [Hp Ho].
  assert (Hpre : take b a' = take b a).
  { apply list_eq. intros i. destruct (decide (i < b)).
    - rewrite !lookup_take_lt by done. apply Ho. lia.
    - by rewrite !lookup_take_ge by lia. }
  assert (Hpost : drop e a' = drop e a).
  { apply list_eq. intros i. rewrite !lookup_drop. apply Ho. lia. }
  rewrite <-(take_drop b a), <-(take_drop b a'), Hpre in Hp. apply (inj _) in Hp.
  rewrite <-(take_drop (e - b) (drop b a)), <-(take_drop (e - b) (drop b a')) in Hp.
  rewrite !drop_drop in Hp. replace (b + (e - b)) with e in Hp by lia. rewrite Hpost in Hp.
  by apply (inj (.++ drop e a)) in Hp.
Qed.

Lemma range_all_forall P b e a : b ≤ e → range_all P b e a ↔ Forall P (take (e - b) (drop b a)).
Proof.
  intros Hbe. rewrite Forall_lookup. split.
  - intros H i x Hx. destruct (decide (i < e - b)); [|by rewrite lookup_take_ge in Hx by lia].
    rewrite lookup_take_lt, lookup_drop in Hx by done. apply (H (b + i)); [lia|done].
  - intros H i x Hi Hx. apply (H (i - b)). rewrite lookup_take_lt, lookup_drop by lia.
    by replace (b + (i - b)) with i by lia.
Qed.

Lemma range_all_perm P b e a a' :
  range_perm b e a a' → b ≤ e ≤ length a → range_all P b e a → range_all P b e a'.
Proof.
  intros Hr Hbe. rewrite !range_all_forall by lia. by rewrite (range_perm_inside b e a a' Hr Hbe).
Qed.

(** Elements which a permutation of another range does not touch. *)
Lemma range_all_outside P b e b' e' a a' :
  range_perm b e a a' → (e' ≤ b ∨ e ≤ b') → range_all P b' e' a → range_all P b' e' a'.
Proof. intros [_ Ho] Hd H i x Hi. rewrite Ho by lia. by apply H. Qed.

Lemma range_all_split P b m e a : range_all P b m a → range_all P m e a → range_all P b e a.
Proof. intros H1 H2 i x Hi. destruct (decide (i < m)); [apply H1|apply H2]; lia. Qed.

Lemma range_all_sub (P Q : T → Prop) b e b' e' a :
  range_all P b e a → b ≤ b' → e' ≤ e → (∀ x, P x → Q x) → range_all Q b' e' a.
Proof. intros H Hb He HPQ i x Hi Hx. apply HPQ, (H i x); [lia|done]. Qed.

Lemma range_all_one (P : T → Prop) i x a : a !! i = Some x → P x → range_all P i (i + 1) a.
Proof. intros Hx HP j y Hj. assert (j = i) as -> by lia. by rewrite Hx; intros [= <-]. Qed.

Lemma iter_swap_spec i j a :
  i < length a → j < length a →
  ∃ a', iter_swap i j a = Some a' ∧ a' !! i = a !! j ∧ a' !! j = a !! i ∧
    (∀ k, k ≠ i → k ≠ j → a' !! k = a !! k) ∧
    ∀ b e, b ≤ i < e → b ≤ j < e → range_perm b e a a'.
Proof.
  intros Hi Hj. destruct (range_lookup a i Hi) as [x Hx], (range_lookup a j Hj) as [y Hy].
  unfold iter_swap. rewrite Hx, Hy. cbn. eexists. split; [done|].
  assert (Hk : ∀ k, k ≠ i → k ≠ j → <[j:=x]> (<[i:=y]> a) !! k = a !! k).
  { intros k Hki Hkj. by rewrite !list_lookup_insert_ne by done. }
  split_and!; [| |done|].
  - destruct (decide (i = j)) as [->|Hne]; [rewrite list_lookup_insert_eq by (rewrite length_insert; lia); congruence|].
    by rewrite list_lookup_insert_ne, list_lookup_insert_eq by done.
  - by rewrite list_lookup_insert_eq by (rewrite length_insert; lia).
  - intros b e Hbi Hbj. split; [by apply Permutation_insert_swap|]. intros k Hbk. apply Hk; lia.
Qed.
End range.

(** ** Partition functions *)
Record partition_post {T} (pred : T → bool) (b e mid : nat) (a a' : list T) : Prop := PartitionPost {
  pp_mid : b ≤ mid ≤ e;
  pp_perm : range_perm b e a a';
  pp_low : range_all (λ x, pred x = true) b mid a';
  pp_high : range_all (λ x, pred x = false) mid e a';
}.

(** The interface quicksort uses. A partition function may rely on an element
    at the end which does not satisfy the predicate. *)
Class PartitionSpec {T} (sentinel : bool)
    (run : (T → bool) → nat → nat → list T → outcome (nat * list T)) : Prop :=
  partition_spec pred b e a :
    b ≤ e ≤ length a →
    (sentinel = true → b < e ∧ ∃ x, a !! e = Some x ∧ pred x = false) →
    ∃ mid a', run pred b e a = Ret (mid, a') ∧ partition_post pred b e mid a a'.

Section partition.
Context {T : Type} (pred : T → bool).
Implicit Types a : list T.
Notation yes := (range_all (λ x, pred x = true)).
Notation no := (range_all (λ x, pred x = false)).

Lemma partition_extend b e b' e' mid a a1 a' :
  partition_post pred b' e' mid a1 a' → b ≤ b' → b' ≤ e' → e' ≤ e → range_perm b e a a1 →
  yes b b' a1 → no e' e a1 → partition_post pred b e mid a a'.
Proof.
  intros [Hm Hp Hl Hh] Hb Hbe He Hr Hyes Hno. split; [lia| | |].
  - etrans; [done|]. by eapply range_perm_widen.
  - eapply range_all_split; [|exact Hl]. eapply range_all_outside; [done| |done]. lia.
  - eapply range_all_split; [exact Hh|]. eapply range_all_outside; [done| |done]. lia.
Qed.

(** Swapping an element of the upper part with one of the lower part. *)
Lemma swap_step b e a :
  b < e < length a → (∃ x, a !! b = Some x ∧ pred x = false) → (∃ x, a !! e = Some x ∧ pred x = true) →
  ∃ a', iter_swap b e a = Some a' ∧ range_perm b (e + 1) a a' ∧ yes b (b + 1) a' ∧ no e (e + 1) a' ∧
    (∀ k, k ≠ b → k ≠ e → a' !! k = a !! k).
Proof.
  intros Hbe (x & Hx & Hpx) (y & Hy & Hpy).
  destruct (iter_swap_spec b e a) as (a' & -> & Hb & He & Hk & Hr); [lia|lia|]. exists a'.
  split_and!; [done|apply Hr; lia| | |done].
  - apply (range_all_one _ b y); [congruence|done].
  - apply (range_all_one _ e x); [congruence|done].
Qed.

Lemma std_find_if_spec (p : T → bool) k b a :
  b + k ≤ length a → ∃ r, std_find_if k b p a = Some r ∧ b ≤ r ≤ b + k ∧
    range_all (λ x, p x = false) b r a ∧ (r < b + k → ∃ x, a !! r = Some x ∧ p x = true).
Proof.
  revert b. induction k as [|k IH]; intros b Hk; cbn.
  - exists b. split_and!; [done|lia|lia| |lia]. intros i x Hi. lia.
  - destruct (range_lookup a b) as [x Hx]; [lia|]. rewrite Hx. cbn. destruct (p x) eqn:E.
    + exists b. split_and!; [done|lia|lia| |by exists x]. intros i y Hi. lia.
    + destruct (IH (b + 1)) as (r & -> & Hr & Hall & Hst); [lia|]. exists r.
      split_and!; [done|lia|lia| |intros; apply Hst; lia].
      eapply range_all_split; [|exact Hall]. by eapply range_all_one.
Qed.

Lemma std_rfind_if_spec (p : T → bool) k e a :
  k ≤ e ≤ length a → ∃ r, std_rfind_if k e p a = Some r ∧ e - k ≤ r ≤ e ∧
    range_all (λ x, p x = false) r e a ∧ (e - k < r → ∃ x, a !! (r - 1) = Some x ∧ p x = true).
Proof.
  revert e. induction k as [|k IH]; intros e Hk; cbn.
  - exists e. split_and!; [done|lia|lia| |lia]. intros i x Hi. lia.
  - destruct (range_lookup a (e - 1)) as [x Hx]; [lia|]. rewrite Hx. cbn. destruct (p x) eqn:E.
    + exists e. split_and!; [done|lia|lia| |by exists x]. intros i y Hi. lia.
    + destruct (IH (e - 1)) as (r & -> & Hr & Hall & Hst); [lia|]. exists r.
      split_and!; [done|lia|lia| |intros; apply Hst; lia].
      eapply range_all_split; [exact Hall|]. replace e with (e - 1 + 1) at 2 by lia. by eapply range_all_one.
Qed.

Lemma simple_partition_loop_spec fuel b e a :
  b ≤ e ≤ length a → e - b < fuel →
  ∃ mid a', simple_partition_loop fuel b e pred a = Ret (mid, a') ∧ partition_post pred b e mid a a'.
Proof.
  revert b e a. induction fuel as [|fuel IH]; intros b e a Hbe Hf; [lia|]. cbn [simple_partition_loop].
  destruct (std_find_if_spec (λ x, negb (pred x)) (e - b) b a) as (f & -> & Hfr & Hyes & Hfst); [lia|].
  cbn [or_ub mbind outcome_bind].
  destruct (std_rfind_if_spec pred (e - f) e a) as (l & -> & Hlr & Hno & Hlst); [lia|].
  cbn [or_ub mbind outcome_bind].
  assert (Hyes' : yes b f a) by (eapply range_all_sub; [exact Hyes|done|done|]; intros x; cbn; by destruct (pred x)).
  case_decide as H1.
  { subst l. exists f, a. split; [done|]. split; [lia|done|done|done]. }
  destruct Hfst as (x & Hx & Hpx%negb_true_iff); [lia|]. destruct Hlst as (y & Hy & Hpy); [lia|].
  case_decide as H2; [congruence|].
  destruct (swap_step f (l - 1) a) as (a1 & -> & Hr & Hy1 & Hn1 & Hk1); [lia|by exists x|by exists y|].
  cbn [or_ub mbind outcome_bind]. pose proof (range_perm_length _ _ _ _ Hr).
  destruct (IH (f + 1) (l - 1) a1) as (mid & a' & Hrun & Hpost); [lia|lia|].
  exists mid, a'. split; [done|]. apply (partition_extend b e (f + 1) (l - 1) mid a a1 a'); [done|lia|lia|lia| | |].
  - eapply range_perm_widen; [exact Hr|lia|lia].
  - eapply range_all_split; [|exact Hy1]. intros i z Hi. rewrite Hk1 by lia. by apply Hyes'.
  - eapply range_all_split; [exact Hn1|]. intros i z Hi. rewrite Hk1 by lia. apply Hno; lia.
Qed.

Lemma guarded_up_spec fuel b e a :
  b ≤ e ≤ length a → e - b < fuel →
  ∃ r, guarded_up fuel b e pred a = Ret r ∧ b ≤ r ≤ e ∧ yes b r a ∧
    (r < e → ∃ x, a !! r = Some x ∧ pred x = false).
Proof.
  revert b. induction fuel as [|fuel IH]; intros b Hbe Hf; [lia|]. cbn [guarded_up]. case_decide as H1.
  { subst b. exists e. split_and!; [done|lia|lia| |lia]. intros i x Hi. lia. }
  destruct (range_lookup a b) as [x Hx]; [lia|]. rewrite Hx. cbn. destruct (pred x) eqn:E.
  - destruct (IH (b + 1)) as (r & -> & Hr & Hall & Hst); [lia|lia|]. exists r.
    split_and!; [done|lia|lia| |done]. eapply range_all_split; [|exact Hall]. by eapply range_all_one.
  - exists b. split_and!; [done|lia|lia| |by exists x]. intros i y Hi. lia.
Qed.

Lemma guarded_down_spec fuel b e a :
  b ≤ e ≤ length a → e - b < fuel →
  ∃ r, guarded_down fuel b e pred a = Ret r ∧ b ≤ r ≤ e ∧ no (r + 1) e a ∧
    ((r < e ∧ ∃ x, a !! r = Some x ∧ pred x = true) ∨ (r = b ∧ no b e a)).
Proof.
  revert e. induction fuel as [|fuel IH]; intros e Hbe Hf; [lia|]. cbn [guarded_down]. case_decide as H1.
  { subst b. exists e. split_and!; [done|lia|lia| |right; split; [done|]]; intros i x Hi; lia. }
  destruct e as [|e]; [lia|]. destruct (range_lookup a e) as [x Hx]; [lia|]. rewrite Hx. cbn.
  destruct (pred x) eqn:E.
  - exists e. split_and!; [done|lia|lia|intros i y Hi; lia|]. left. split; [lia|by exists x].
  - destruct (IH e) as (r & -> & Hr & Hall & Hst); [lia|lia|]. exists r.
    assert (Hone : no e (S e) a) by (replace (S e) with (e + 1) by lia; by eapply range_all_one).
    split_and!; [done|lia|lia|by eapply range_all_split|].
    destruct Hst as [[Hr1 Hr2]|[-> Hr2]]; [left; split; [lia|done]|right]. split; [done|by eapply range_all_split].
Qed.

Lemma manual_partition_loop_spec fuel b e a :
  b ≤ e ≤ length a → e - b < fuel →
  ∃ mid a', manual_partition_loop fuel b e pred a = Ret (mid, a') ∧ partition_post pred b e mid a a'.
Proof.
  revert b e a. induction fuel as [|fuel IH]; intros b e a Hbe Hf; [lia|]. cbn [manual_partition_loop].
  destruct (guarded_up_spec (S (length a)) b e a) as (f & -> & Hfr & Hyes & Hfst); [lia|lia|]. cbn [mbind outcome_bind].
  destruct (guarded_down_spec (S (length a)) f e a) as (l & -> & Hlr & Hno & Hlst); [lia|lia|]. cbn [mbind outcome_bind].
  case_decide as H1.
  { subst l. exists f, a. split; [done|]. split; [lia|done|done|].
    destruct Hlst as [[Hlt (x & Hx & Hp)]|[_ H]]; [|done]. destruct (Hfst Hlt) as (y & Hy & Hpy). congruence. }
  destruct Hlst as [[Hlt Hl]|[? _]]; [|lia].
  destruct (swap_step f l a) as (a1 & -> & Hr & Hy1 & Hn1 & Hk1); [lia|apply Hfst; lia|done|].
  cbn [or_ub mbind outcome_bind]. pose proof (range_perm_length _ _ _ _ Hr).
  destruct (IH (f + 1) l a1) as (mid & a' & Hrun & Hpost); [lia|lia|].
  exists mid, a'. split; [done|]. apply (partition_extend b e (f + 1) l mid a a1 a'); [done|lia|lia|lia| | |].
  - eapply range_perm_widen; [exact Hr|lia|lia].
  - eapply range_all_split; [|exact Hy1]. intros i z Hi. rewrite Hk1 by lia. by apply Hyes.
  - eapply range_all_split; [exact Hn1|]. intros i z Hi. rewrite Hk1 by lia. apply Hno; lia.
Qed.
End partition.

Section sentinel.
Context {T : Type} (pred : T → bool).
Implicit Types a : list T.
Notation yes := (range_all (λ x, pred x = true)).
Notation no := (range_all (λ x, pred x = false)).

Lemma unguarded_up_spec fuel b e a :
  b ≤ e → e - b < fuel → (∃ x, a !! e = Some x ∧ pred x = false) →
  ∃ r, unguarded_up fuel b pred a = Ret r ∧ b ≤ r ≤ e ∧ yes b r a ∧ ∃ x, a !! r = Some x ∧ pred x = false.
Proof.
  revert b. induction fuel as [|fuel IH]; intros b Hbe Hf Hst; [lia|]. cbn [unguarded_up].
  destruct Hst as (x & Hx & Hp). pose proof (lookup_lt_Some _ _ _ Hx).
  destruct (range_lookup a b) as [y Hy]; [lia|]. rewrite Hy. cbn. destruct (pred y) eqn:E.
  - destruct (decide (b = e)) as [->|Hne]; [congruence|].
    destruct (IH (b + 1)) as (r & -> & Hr & Hall & Hfound); [lia|lia|by exists x|]. exists r.
    split_and!; [done|lia|lia| |done]. eapply range_all_split; [|exact Hall]. by eapply range_all_one.
  - exists b. split_and!; [done|lia|lia| |by exists y]. intros i z Hi. lia.
Qed.

(** [j] is the position of an element that stops the search. *)
Lemma unguarded_down_spec j e a :
  j < e ≤ length a → (∃ x, a !! j = Some x ∧ pred x = true) →
  ∃ r, unguarded_down e pred a = Ret r ∧ j ≤ r < e ∧ no (r + 1) e a ∧ ∃ x, a !! r = Some x ∧ pred x = true.
Proof.
  induction e as [|e IH]; intros Hje Hst; [lia|]. cbn [unguarded_down].
  destruct (range_lookup a e) as [y Hy]; [lia|]. rewrite Hy. cbn. destruct (pred y) eqn:E.
  - exists e. split_and!; [done|lia|lia| |by exists y]. intros i z Hi. lia.
  - destruct (decide (j = e)) as [->|Hne]; [destruct Hst as (x & Hx & Hp); congruence|].
    destruct IH as (r & -> & Hr & Hall & Hfound); [lia|done|]. exists r.
    split_and!; [done|lia|lia| |done]. eapply range_all_split; [exact Hall|].
    replace (S e) with (e + 1) by lia. by eapply range_all_one.
Qed.

(** The element in front of the range, or its first one, satisfies the
    predicate, the one behind it does not. *)
Lemma sentinel_partition_loop_spec fuel j b e a :
  b ≤ e → e - b < fuel → j < e → b ≤ j + 1 → j ≤ b → (∃ x, a !! j = Some x ∧ pred x = true) →
  (∃ x, a !! e = Some x ∧ pred x = false) →
  ∃ mid a', sentinel_partition_loop fuel b e pred a = Ret (mid, a') ∧ partition_post pred b e mid a a'.
Proof.
  revert j b e a. induction fuel as [|fuel IH]; intros j b e a Hbe Hf Hj Hjb Hjb' Hlo Hhi; [lia|].
  cbn [sentinel_partition_loop]. assert (Hlen : e < length a) by (destruct Hhi as (x & Hx & _); by eapply lookup_lt_Some).
  destruct (unguarded_up_spec (S (length a)) b e a) as (f & -> & Hfr & Hyes & Hf1); [done|lia|done|]. cbn [mbind outcome_bind].
  destruct (unguarded_down_spec j e a) as (l & -> & Hlr & Hno & Hl1); [lia|done|]. cbn [mbind outcome_bind].
  case_decide as H1.
  - exists f, a. split; [done|]. split; [lia|done|done|].
    destruct (decide (l = f)) as [->|Hne].
    { destruct Hf1 as (x & Hx & Hp), Hl1 as (y & Hy & Hpy). congruence. }
    intros i x Hi. apply Hno. lia.
  - destruct (swap_step pred f l a) as (a1 & -> & Hr & Hy1 & Hn1 & Hk1); [lia|done|done|]. cbn [or_ub mbind outcome_bind].
    pose proof (range_perm_length _ _ _ _ Hr).
    destruct (range_lookup a1 f) as [x Hx]; [lia|]. destruct (range_lookup a1 l) as [y Hy]; [lia|].
    destruct (IH f (f + 1) l a1) as (mid & a' & Hrun & Hpost); [lia|lia|lia|lia|lia| | |].
    { exists x. split; [done|]. apply (Hy1 f x); [lia|done]. }
    { exists y. split; [done|]. apply (Hn1 l y); [lia|done]. }
    exists mid, a'. split; [done|]. apply (partition_extend pred b e (f + 1) l mid a a1 a'); [done|lia|lia|lia| | |].
    + eapply range_perm_widen; [exact Hr|lia|lia].
    + eapply range_all_split; [|exact Hy1]. intros i z Hi. rewrite Hk1 by lia. by apply Hyes.
    + eapply range_all_split; [exact Hn1|]. intros i z Hi. rewrite Hk1 by lia. apply Hno; lia.
Qed.

Lemma sentinel_partition_spec b e a :
  b < e ≤ length a → (∃ x, a !! e = Some x ∧ pred x = false) →
  ∃ mid a', sentinel_partition pred b e a = Ret (mid, a') ∧ partition_post pred b e mid a a'.
Proof.
  intros Hbe Hhi. unfold sentinel_partition. rewrite decide_False by lia.
  destruct (range_lookup a b) as [x Hx]; [lia|]. rewrite Hx. cbn [or_ub mbind outcome_bind].
  destruct (pred x) eqn:Hp; cbn [negb].
  { apply (sentinel_partition_loop_spec _ b); [lia|lia|lia|lia|lia|by exists x|done]. }
  destruct (guarded_down_spec pred (S (length a)) b e a) as (l & -> & Hlr & Hno & Hst); [lia|lia|]. cbn [mbind outcome_bind].
  case_decide as H1.
  { subst l. exists b, a. split; [done|]. split; [lia|done|intros i y Hi; lia|].
    destruct Hst as [[_ (y & Hy & Hpy)]|[_ H]]; [congruence|done]. }
  destruct Hst as [[Hlt Hl]|[? _]]; [|lia].
  destruct (swap_step pred b l a) as (a1 & -> & Hr & Hy1 & Hn1 & Hk1); [lia|by exists x|done|]. cbn [or_ub mbind outcome_bind].
  pose proof (range_perm_length _ _ _ _ Hr).
  destruct (range_lookup a1 b) as [x1 Hx1]; [lia|]. destruct (range_lookup a1 l) as [y1 Hy1']; [lia|].
  destruct (sentinel_partition_loop_spec (S (l - (b + 1))) b (b + 1) l a1) as (mid & a' & Hrun & Hpost); [lia|lia|lia|lia|lia| | |].
  { exists x1. split; [done|]. apply (Hy1 b x1); [lia|done]. }
  { exists y1. split; [done|]. apply (Hn1 l y1); [lia|done]. }
  exists mid, a'. split; [done|]. apply (partition_extend pred b e (b + 1) l mid a a1 a'); [done|lia|lia|lia| |done|].
  - eapply range_perm_widen; [exact Hr|lia|lia].
  - eapply range_all_split; [exact Hn1|]. intros i z Hi. rewrite Hk1 by lia. apply Hno; lia.
Qed.
End sentinel.

#[export] Instance simple_partition_spec {T} : PartitionSpec false (@simple_partition T).
Proof. intros pred b e a Hbe _. apply simple_partition_loop_spec; lia. Qed.
#[export] Instance manual_partition_spec {T} : PartitionSpec false (@manual_partition T).
Proof. intros pred b e a Hbe _. apply manual_partition_loop_spec; lia. Qed.
#[export] Instance internal_sentinel_partition_spec {T} : PartitionSpec true (@sentinel_partition T).
Proof. intros pred b e a Hbe Hs. destruct (Hs eq_refl) as [Hlt Hx]. apply sentinel_partition_spec; [lia|done]. Qed.
