(* ===== verification/Quicksort.v ===== *)
(** * Quicksort

    The sorting functions of src/presentations/quicker-sorting: quicksort.hpp
    and insertionsort.hpp, on arrays as in Partition.v. Moving an element away
    leaves its value, which is not used. *)
From S2P Require Import Prelude Partition.

(** ** Definitions *)
Section sorting.
Context {T : Type}.
Implicit Types a : list T.

(** ** Insertion sorts *)
Context (lt : T → T → bool).

(** [while (begin != it && it[0] < it[-1]) { std::iter_swap(it, it - 1); --it; }] *)
Fixpoint insert_guarded (first it : nat) a : option (list T) :=
  if decide (first = it) then Some a
  else
    match it with
    | 0 => None
    | S it' =>
        x ← a !! it; y ← a !! it';
        if lt x y then a ← iter_swap it it' a; insert_guarded first it' a else Some a
    end.
(** The same without the comparison of iterators. *)
Fixpoint insert_unguarded (it : nat) a : option (list T) :=
  match it with
  | 0 => None
  | S it' =>
      x ← a !! it; y ← a !! it';
      if lt x y then a ← iter_swap it it' a; insert_unguarded it' a else Some a
  end.
(** The loop [do { *it = std::move(it[-1]); --it; } while (tmp < it[-1]);] and the
    assignment after it. *)
Fixpoint insert_rotate_loop (it : nat) (tmp : T) a : option (list T) :=
  match it with
  | 0 => None
  | S it' =>
      y ← a !! it';
      let a := <[it := y]> a in
      match it' with
      | 0 => None
      | S it'' => z ← a !! it''; if lt tmp z then insert_rotate_loop it' tmp a else Some (<[it' := tmp]> a)
      end
  end.
Definition insert_rotate (it : nat) a : option (list T) :=
  match it with
  | 0 => None
  | S it' => x ← a !! it; y ← a !! it'; if lt x y then insert_rotate_loop it x a else Some a
  end.

(** [for (current = begin; current != end; ++current)], [k] elements being left. *)
Fixpoint insertion_loop (insert : nat → list T → option (list T)) (k current : nat) a : option (list T) :=
  match k with
  | 0 => Some a
  | S k => a ← insert current a; insertion_loop insert k (current + 1) a
  end.
Definition insertion_sort (first last : nat) a : option (list T) :=
  insertion_loop (insert_guarded first) (last - first) first a.
Definition insertion_sort_sentinel (first last : nat) a : option (list T) :=
  insertion_loop insert_unguarded (last - first) first a.
Definition insertion_sort_rotate (first last : nat) a : option (list T) :=
  insertion_loop insert_rotate (last - first) first a.

(** ** Quicksorts

    The partition function called. Its predicate reads the pivot [*(end - 1)]
    through the iterator; a partition of [begin .. end - 1) writes no other
    elements, so that it is read once here. *)
Context (partition : (T → bool) → nat → nat → list T → outcome (nat * list T)).

Fixpoint simple_quicksort (Size fuel first last : nat) a : outcome (list T) :=
  match fuel with
  | 0 => NoFuel
  | S fuel =>
      if decide (Size < last - first) then
        pivot ← or_ub (a !! (last - 1));
        '(mid, a) ← partition (λ arg, lt arg pivot) first (last - 1) a;
        a ← simple_quicksort Size fuel first mid a;
        a ← or_ub (iter_swap mid (last - 1) a);
        simple_quicksort Size fuel (mid + 1) last a
      else Ret a
  end.

(** When nothing is smaller than the pivot what is equal to it is put aside. *)
Fixpoint fat_quicksort (Size fuel first last : nat) a : outcome (list T) :=
  match fuel with
  | 0 => NoFuel
  | S fuel =>
      if decide (Size < last - first) then
        pivot ← or_ub (a !! (last - 1));
        '(mid, a) ← partition (λ arg, lt arg pivot) first (last - 1) a;
        '(mid, a) ← (if decide (first ≠ mid) then
                       a ← fat_quicksort Size fuel first mid a; Ret (mid, a)
                     else partition (λ arg, negb (lt pivot arg)) first (last - 1) a);
        a ← or_ub (iter_swap mid (last - 1) a);
        fat_quicksort Size fuel (mid + 1) last a
      else Ret a
  end.

(** A quicksort which leaves short ranges alone, followed by an insertion sort;
    [sort] is the quicksort. *)
Definition insertion_quicksort (sort : nat → nat → list T → outcome (list T)) (first last : nat) a
    : outcome (list T) :=
  a ← sort first last a; or_ub (insertion_sort first last a).
Definition insertion_sentinel_quicksort (Size : nat) (sort : nat → nat → list T → outcome (list T))
    (first last : nat) a : outcome (list T) :=
  if decide (last - first < Size) then or_ub (insertion_sort first last a)
  else
    a ← sort first last a;
    a ← or_ub (insertion_sort first (first + Size) a);
    or_ub (insertion_sort_sentinel (first + Size) last a).
Definition insertion_rotate_quicksort (Size : nat) (sort : nat → nat → list T → outcome (list T))
    (first last : nat) a : outcome (list T) :=
  if decide (last - first < Size) then or_ub (insertion_sort first last a)
  else
    a ← sort first last a;
    a ← or_ub (insertion_sort first (first + Size) a);
    or_ub (insertion_sort_rotate (first + Size) last a).
End sorting.

(** ** Sorted ranges *)
(** Elements at least [k] positions apart are in order; 1 is sorted. *)
Definition near_sorted {T} (lt : T → T → bool) (k b e : nat) (a : list T) : Prop :=
  ∀ i j x y, b ≤ i → i + k ≤ j → i < j < e → a !! i = Some x → a !! j = Some y → lt y x = false.
Definition sorted_range {T} (lt : T → T → bool) (b e : nat) (a : list T) : Prop := near_sorted lt 1 b e a.

Section sorts.
Context {T : Type} (lt : T → T → bool) `{!StrictWeakOrder lt}.
Implicit Types a : list T.

Lemma near_sorted_mono k k' b e a : near_sorted lt k b e a → k ≤ k' → near_sorted lt k' b e a.
Proof. intros H Hk i j x y Hi Hij Hj. apply H; lia. Qed.

Lemma near_sorted_outside k b e b' e' a a' :
  range_perm b e a a' → (e' ≤ b ∨ e ≤ b') → near_sorted lt k b' e' a → near_sorted lt k b' e' a'.
Proof. intros [_ Ho] Hd H i j x y Hi Hij Hj. rewrite !Ho by lia. by apply H. Qed.

(** Two ranges around an element between them. *)
Lemma near_sorted_join k b mid e p a :
  near_sorted lt k b mid a → near_sorted lt k (mid + 1) e a → a !! mid = Some p →
  range_all (λ x, lt p x = false) b mid a → range_all (λ x, lt x p = false) (mid + 1) e a →
  near_sorted lt k b e a.
Proof.
  intros H1 H2 Hp Hl Hh i j x y Hi Hij Hj Hx Hy.
  destruct (decide (j < mid)); [by apply (H1 i j); [lia|lia|lia|..]|].
  destruct (decide (mid < i)); [by apply (H2 i j); [lia|lia|lia|..]|].
  assert (Hpx : lt p x = false).
  { destruct (decide (i = mid)) as [->|]; [assert (x = p) as -> by congruence; by apply (swo_irrefl lt)|].
    apply (Hl i x); [lia|done]. }
  assert (Hyp : lt y p = false).
  { destruct (decide (j = mid)) as [->|]; [assert (y = p) as -> by congruence; by apply (swo_irrefl lt)|].
    apply (Hh j y); [lia|done]. }
  by apply (swo_negtrans y p x).
Qed.

(** *** Quicksort *)
Context (sentinel : bool) (partition : (T → bool) → nat → nat → list T → outcome (nat * list T)).
Context `{!PartitionSpec sentinel partition}.

(** The pivot is put between the parts, which are then sorted. *)
Lemma pivot_step k b mid e p a a' :
  b ≤ mid → mid < e ≤ length a → a !! (e - 1) = Some p →
  near_sorted lt k b mid a → range_all (λ x, lt p x = false) b mid a →
  range_all (λ x, lt x p = false) mid (e - 1) a →
  iter_swap mid (e - 1) a = Some a' →
  range_perm b e a a' ∧
  ∀ a'', range_perm (mid + 1) e a' a'' → near_sorted lt k (mid + 1) e a'' → near_sorted lt k b e a''.
Proof.
  intros Hb Hm Hp Hns Hl Hh Hsw. destruct (iter_swap_spec mid (e - 1) a) as (a1 & Hsw' & H1 & H2 & Hk & Hr); [lia|lia|].
  assert (a1 = a') as -> by congruence. assert (Hr' : range_perm mid e a a') by (apply Hr; lia).
  split; [apply Hr; lia|]. intros a'' Hr2 Hns2. pose proof (range_perm_length _ _ _ _ Hr').
  apply (near_sorted_join k b mid e p); [|done| | |].
  - eapply near_sorted_outside; [exact Hr2|lia|]. by eapply near_sorted_outside; [exact Hr'|lia|].
  - rewrite (rp_outside _ _ _ _ Hr2) by lia. congruence.
  - eapply range_all_outside; [exact Hr2|lia|]. by eapply range_all_outside; [exact Hr'|lia|].
  - eapply range_all_perm; [exact Hr2|lia|]. intros i x Hi. destruct (decide (i = e - 1)) as [->|Hne].
    + rewrite H2. apply Hh. lia.
    + rewrite Hk by lia. apply Hh. lia.
Qed.

Lemma simple_quicksort_spec Size fuel b e a :
  (sentinel = true → 0 < Size) → b ≤ e ≤ length a → e - b < fuel →
  ∃ a', simple_quicksort lt partition Size fuel b e a = Ret a' ∧ range_perm b e a a' ∧
    near_sorted lt Size b e a'.
Proof.
  intros Hsize. revert b e a. induction fuel as [|fuel IH]; intros b e a Hbe Hf; [lia|].
  cbn [simple_quicksort]. case_decide as Hd.
  2:{ exists a. split_and!; [done..|]. intros i j x y Hi Hij Hj. lia. }
  destruct (range_lookup a (e - 1)) as [p Hp]; [lia|]. rewrite Hp. cbn [or_ub mbind outcome_bind].
  destruct (partition_spec (λ x, lt x p) b (e - 1) a) as (mid & a1 & -> & Hpost).
  { lia. } { intros Hs. specialize (Hsize Hs). split; [lia|]. exists p. split; [done|by apply (swo_irrefl lt)]. }
  destruct Hpost as [Hmid Hr1 Hl Hh]. cbn [mbind outcome_bind]. pose proof (range_perm_length _ _ _ _ Hr1).
  destruct (IH b mid a1) as (a2 & -> & Hr2 & Hns2); [lia|lia|]. cbn [mbind outcome_bind].
  pose proof (range_perm_length _ _ _ _ Hr2).
  destruct (iter_swap_spec mid (e - 1) a2) as (a3 & Hsw & _); [lia|lia|]. rewrite Hsw. cbn [or_ub mbind outcome_bind].
  destruct (pivot_step Size b mid e p a2 a3) as [Hr3 Hjoin]; [lia|lia| |done| | |done|].
  { rewrite (rp_outside _ _ _ _ Hr2), (rp_outside _ _ _ _ Hr1) by lia. done. }
  { eapply range_all_perm; [exact Hr2|lia|]. eapply range_all_sub; [exact Hl|done|done|]. cbn. intros x. apply swo_asym. }
  { by eapply range_all_outside; [exact Hr2|lia|]. }
  pose proof (range_perm_length _ _ _ _ Hr3).
  destruct (IH (mid + 1) e a3) as (a4 & -> & Hr4 & Hns4); [lia|lia|].
  exists a4. split_and!; [done| |by apply Hjoin].
  etrans; [eapply range_perm_widen; [exact Hr1|lia|lia]|].
  etrans; [eapply range_perm_widen; [exact Hr2|lia|lia]|].
  etrans; [exact Hr3|]. eapply range_perm_widen; [exact Hr4|lia|lia].
Qed.

(** What the two parts of [fat_quicksort] leave in front of the pivot. *)
Lemma fat_parts k fuel b e p a1 mid :
  sentinel = false → e - 1 < length a1 → a1 !! (e - 1) = Some p → b ≤ mid ≤ e - 1 →
  range_all (λ x, lt x p = true) b mid a1 → range_all (λ x, lt x p = false) mid (e - 1) a1 →
  (∃ a2, fat_quicksort lt partition k fuel b mid a1 = Ret a2 ∧ range_perm b mid a1 a2 ∧ near_sorted lt k b mid a2) →
  ∃ mid' a2, (if decide (b ≠ mid) then a ← fat_quicksort lt partition k fuel b mid a1; Ret (mid, a)
              else partition (λ arg, negb (lt p arg)) b (e - 1) a1) = Ret (mid', a2) ∧
    b ≤ mid' ≤ e - 1 ∧ range_perm b (e - 1) a1 a2 ∧ near_sorted lt k b mid' a2 ∧
    range_all (λ x, lt p x = false) b mid' a2 ∧ range_all (λ x, lt x p = false) mid' (e - 1) a2.
Proof.
  intros Hs Hlen Hp Hmid Hl Hh (a2 & Hrec & Hr & Hns). case_decide as Hd.
  - rewrite Hrec. cbn. exists mid, a2. split_and!; [done|lia|lia| |done| |].
    + eapply range_perm_widen; [exact Hr|lia|lia].
    + eapply range_all_perm; [exact Hr|lia|]. eapply range_all_sub; [exact Hl|done|done|]. cbn. intros x. apply swo_asym.
    + by eapply range_all_outside; [exact Hr|lia|].
  - assert (b = mid) as <- by lia.
    destruct (partition_spec (λ x, negb (lt p x)) b (e - 1) a1) as (mid' & a3 & -> & [Hm' Hr3 Hl3 Hh3]); [lia|by rewrite Hs|].
    assert (Hall : range_all (λ x, lt x p = false) b (e - 1) a3) by (eapply range_all_perm; [exact Hr3|lia|done]).
    assert (Hl3' : range_all (λ x, lt p x = false) b mid' a3).
    { eapply range_all_sub; [exact Hl3|done|done|]. cbn. intros x. by destruct (lt p x). }
    exists mid', a3. split_and!; [done|lia|lia|done| |done|].
    + intros i j x y Hi Hij Hj Hx Hy. apply (swo_negtrans y p x); [apply (Hall j y)|apply (Hl3' i x)]; (lia || done).
    + eapply range_all_sub; [exact Hall|lia|done|done].
Qed.

Lemma fat_quicksort_spec Size fuel b e a :
  sentinel = false → b ≤ e ≤ length a → e - b < fuel →
  ∃ a', fat_quicksort lt partition Size fuel b e a = Ret a' ∧ range_perm b e a a' ∧
    near_sorted lt Size b e a'.
Proof.
  intros Hs. revert b e a. induction fuel as [|fuel IH]; intros b e a Hbe Hf; [lia|].
  cbn [fat_quicksort]. case_decide as Hd.
  2:{ exists a. split_and!; [done..|]. intros i j x y Hi Hij Hj. lia. }
  destruct (range_lookup a (e - 1)) as [p Hp]; [lia|]. rewrite Hp. cbn [or_ub mbind outcome_bind].
  destruct (partition_spec (λ x, lt x p) b (e - 1) a) as (mid & a1 & -> & [Hmid Hr1 Hl Hh]); [lia|by rewrite Hs|].
  cbn [mbind outcome_bind]. pose proof (range_perm_length _ _ _ _ Hr1).
  destruct (fat_parts Size fuel b e p a1 mid) as (mid' & a2 & -> & Hm' & Hr2 & Hns2 & Hl2 & Hh2); [done|lia| |lia|done|done| |].
  { rewrite (rp_outside _ _ _ _ Hr1) by lia. done. } { apply IH; lia. }
  cbn [mbind outcome_bind]. pose proof (range_perm_length _ _ _ _ Hr2).
  destruct (iter_swap_spec mid' (e - 1) a2) as (a3 & Hsw & _); [lia|lia|]. rewrite Hsw. cbn [or_ub mbind outcome_bind].
  destruct (pivot_step Size b mid' e p a2 a3) as [Hr3 Hjoin]; [lia|lia| |done|done|done|done|].
  { rewrite (rp_outside _ _ _ _ Hr2), (rp_outside _ _ _ _ Hr1) by lia. done. }
  pose proof (range_perm_length _ _ _ _ Hr3).
  destruct (IH (mid' + 1) e a3) as (a4 & -> & Hr4 & Hns4); [lia|lia|].
  exists a4. split_and!; [done| |by apply Hjoin].
  etrans; [eapply range_perm_widen; [exact Hr1|lia|lia]|].
  etrans; [eapply range_perm_widen; [exact Hr2|lia|lia]|].
  etrans; [exact Hr3|]. eapply range_perm_widen; [exact Hr4|lia|lia].
Qed.
End sorts.

(** *** Insertion sort *)
Section insertion.
Context {T : Type} (lt : T → T → bool).
Implicit Types a : list T.

(** Sorted, but for the element at [it], which may be less than those in front
    of it. *)
Definition sorted_but (b it e : nat) a : Prop :=
  ∀ i j x y, b ≤ i → i < j < e → j ≠ it → a !! i = Some x → a !! j = Some y → lt y x = false.

Lemma insert_guarded_perm b it a :
  b ≤ it < length a → ∃ a', insert_guarded lt b it a = Some a' ∧ range_perm b (it + 1) a a'.
Proof.
  revert a. induction it as [|it IH]; intros a Hit; cbn [insert_guarded].
  - rewrite decide_True by lia. by exists a.
  - case_decide as H1; [by exists a|]. destruct (range_lookup a (S it)) as [x Hx]; [lia|].
    destruct (range_lookup a it) as [y Hy]; [lia|]. rewrite Hx, Hy. cbn. destruct (lt x y); [|by exists a].
    destruct (iter_swap_spec (S it) it a) as (a1 & -> & _ & _ & _ & Hr); [lia|lia|]. cbn.
    specialize (Hr b (S it + 1) ltac:(lia) ltac:(lia)). pose proof (range_perm_length _ _ _ _ Hr).
    destruct (IH a1) as (a2 & -> & Hr2); [lia|]. exists a2. split; [done|]. etrans; [exact Hr|].
    eapply range_perm_widen; [exact Hr2|lia|lia].
Qed.

Lemma insert_guarded_sorted b it e a a' :
  StrictWeakOrder lt → b ≤ it < e → e ≤ length a → sorted_but b it e a → insert_guarded lt b it a = Some a' →
  sorted_range lt b e a'.
Proof.
  intros Hswo. revert a. induction it as [|it IH]; intros a Hit He Hs; cbn [insert_guarded].
  - rewrite decide_True by lia. intros [= <-] i j x y Hi _ Hj. apply Hs; lia.
  - case_decide as H1.
    { intros [= <-] i j x y Hi _ Hj. apply Hs; lia. }
    destruct (range_lookup a (S it)) as [x Hx]; [lia|]. destruct (range_lookup a it) as [y Hy]; [lia|].
    rewrite Hx, Hy. cbn. destruct (lt x y) eqn:E.
    + destruct (iter_swap_spec (S it) it a) as (a1 & -> & Hsi & Hit1 & Hk & Hr); [lia|lia|]. cbn.
      specialize (Hr b e ltac:(lia) ltac:(lia)). pose proof (range_perm_length _ _ _ _ Hr).
      apply IH; [lia|lia|]. intros i j u v Hi Hij Hj Hu Hv.
      destruct (decide (j = S it)) as [->|Hj2].
      { assert (v = y) as -> by congruence. destruct (decide (i = it)) as [->|Hi2].
        - assert (u = x) as -> by congruence. by apply swo_asym.
        - rewrite Hk in Hu by lia. apply (Hs i it u y); (lia || done). }
      rewrite Hk in Hv by lia. destruct (decide (i = it)) as [->|Hi2].
      { assert (u = x) as -> by congruence. apply (Hs (S it) j x v); (lia || done). }
      destruct (decide (i = S it)) as [->|Hi3].
      { assert (u = y) as -> by congruence. apply (Hs it j y v); (lia || done). }
      rewrite Hk in Hu by lia. apply (Hs i j u v); (lia || done).
    + intros [= <-] i j u v Hi _ Hij Hu Hv. destruct (decide (j = S it)) as [->|Hj]; [|by apply (Hs i j)].
      assert (v = x) as -> by congruence. destruct (decide (i = it)) as [->|Hi2]; [congruence|].
      apply (swo_negtrans x y u); [done|]. apply (Hs i it u y); (lia || done).
Qed.

Lemma insertion_loop_app insert k1 k2 cur a :
  insertion_loop insert (k1 + k2) cur a =
  a' ← insertion_loop insert k1 cur a; insertion_loop insert k2 (cur + k1) a'.
Proof.
  revert cur a. induction k1 as [|k1 IH]; intros cur a; cbn; [by rewrite Nat.add_0_r|].
  destruct (insert cur a) as [a1|]; cbn; [|done]. rewrite IH. by replace (cur + 1 + k1) with (cur + S k1) by lia.
Qed.

Lemma insertion_loop_spec k b cur a :
  b ≤ cur → cur + k ≤ length a →
  ∃ a', insertion_loop (insert_guarded lt b) k cur a = Some a' ∧ range_perm b (cur + k) a a' ∧
    (StrictWeakOrder lt → sorted_range lt b cur a → sorted_range lt b (cur + k) a').
Proof.
  revert cur a. induction k as [|k IH]; intros cur a Hb Hk; cbn.
  - exists a. rewrite Nat.add_0_r. by split_and!.
  - destruct (insert_guarded_perm b cur a) as (a1 & Hins & Hr1); [lia|]. rewrite Hins. cbn.
    pose proof (range_perm_length _ _ _ _ Hr1). destruct (IH (cur + 1) a1) as (a2 & -> & Hr2 & Hs2); [lia|lia|].
    replace (cur + 1 + k) with (cur + S k) in * by lia. exists a2. split_and!; [done| |].
    + etrans; [|exact Hr2]. eapply range_perm_widen; [exact Hr1|lia|lia].
    + intros Hswo Hs. apply (Hs2 Hswo). apply (insert_guarded_sorted b cur (cur + 1) a a1); [done|lia|lia| |exact Hins].
      intros i j x y Hi Hij Hj. apply (Hs i j); lia.
Qed.

Lemma insertion_sort_spec b e a :
  b ≤ e ≤ length a → ∃ a', insertion_sort lt b e a = Some a' ∧ range_perm b e a a' ∧
    (StrictWeakOrder lt → sorted_range lt b e a').
Proof.
  intros Hbe. unfold insertion_sort. destruct (insertion_loop_spec (e - b) b b a) as (a' & -> & Hr & Hs); [lia|lia|].
  replace (b + (e - b)) with e in * by lia. exists a'. split_and!; [done..|]. intros Hswo. apply (Hs Hswo).
  intros i j x y Hi Hij Hj. lia.
Qed.

(** *** The unguarded versions *)
(** Moving the elements and swapping them is the same. *)
Lemma insert_unguarded_step it x y a :
  S it < length a → a !! it = Some y → lt x y = true →
  insert_unguarded lt (S it) (<[S it := x]> a) = insert_unguarded lt it (<[it := x]> (<[S it := y]> a)).
Proof.
  intros Hlen Hy Hxy. cbn [insert_unguarded].
  assert (H1 : <[S it := x]> a !! S it = Some x) by (by apply list_lookup_insert_eq).
  assert (H2 : <[S it := x]> a !! it = Some y) by (rewrite list_lookup_insert_ne by lia; done).
  unfold iter_swap. rewrite H1, H2. cbn. rewrite Hxy. cbn. by rewrite list_insert_insert_eq.
Qed.

(** The equations of the loops where there are elements. *)
Lemma insert_rotate_loop_SS it x y z a :
  S (S it) < length a → a !! S it = Some y → a !! it = Some z →
  insert_rotate_loop lt (S (S it)) x a =
    if lt x z then insert_rotate_loop lt (S it) x (<[S (S it) := y]> a) else Some (<[S it := x]> (<[S (S it) := y]> a)).
Proof.
  intros Hlen Hy Hz. change (insert_rotate_loop lt (S (S it)) x a) with
    (y ← a !! S it; z ← <[S (S it) := y]> a !! it;
     if lt x z then insert_rotate_loop lt (S it) x (<[S (S it) := y]> a) else Some (<[S it := x]> (<[S (S it) := y]> a))).
  rewrite Hy. cbn [mbind option_bind]. by rewrite list_lookup_insert_ne, Hz by lia.
Qed.

Lemma insert_unguarded_stop it x z a :
  a !! S it = Some x → a !! it = Some z → lt x z = false → insert_unguarded lt (S it) a = Some a.
Proof. intros Hx Hz E. cbn [insert_unguarded]. rewrite Hx, Hz. cbn. by rewrite E. Qed.

Lemma rotate_loop_unguarded it x y a :
  S it < length a → a !! it = Some y → lt x y = true →
  insert_rotate_loop lt (S it) x a = insert_unguarded lt (S it) (<[S it := x]> a).
Proof.
  revert y a. induction it as [|it IH]; intros y a Hlen Hy Hxy; rewrite (insert_unguarded_step _ x y a) by done.
  { cbn. by rewrite Hy. }
  destruct (range_lookup a it) as [z Hz]; [lia|].
  assert (Hz1 : <[S (S it) := y]> a !! it = Some z) by (by rewrite list_lookup_insert_ne by lia).
  rewrite (insert_rotate_loop_SS it x y z) by done. destruct (lt x z) eqn:E.
  - apply (IH z); [rewrite length_insert; lia|done|done].
  - rewrite (insert_unguarded_stop it x z); [done| |by rewrite list_lookup_insert_ne by lia|done].
    apply list_lookup_insert_eq. rewrite length_insert. lia.
Qed.

Lemma insert_rotate_unguarded it a : insert_rotate lt it a = insert_unguarded lt it a.
Proof.
  destruct it as [|it]; [done|].
  change (insert_rotate lt (S it) a) with
    (x ← a !! S it; y ← a !! it; if lt x y then insert_rotate_loop lt (S it) x a else Some a).
  destruct (a !! S it) as [x|] eqn:Hx; [|cbn [insert_unguarded]; by rewrite Hx].
  destruct (a !! it) as [y|] eqn:Hy; [|cbn [insert_unguarded]; by rewrite Hx, Hy].
  cbn [mbind option_bind]. destruct (lt x y) eqn:E; [|by rewrite (insert_unguarded_stop it x y)].
  rewrite (rotate_loop_unguarded it x y a); [|by eapply lookup_lt_Some|done|done].
  by rewrite list_insert_id.
Qed.

(** A smallest element at the beginning stops the unguarded insertion. *)
Lemma insert_unguarded_guarded b it m a :
  b < it < length a → a !! b = Some m → (∀ x, a !! it = Some x → lt x m = false) →
  insert_unguarded lt it a = insert_guarded lt b it a ∧
  ∀ a', insert_guarded lt b it a = Some a' → a' !! b = Some m.
Proof.
  revert a. induction it as [|it IH]; intros a Hit Hm Hmin; [lia|].
  cbn [insert_unguarded insert_guarded]. rewrite decide_False by lia.
  destruct (range_lookup a (S it)) as [x Hx]; [lia|]. destruct (range_lookup a it) as [y Hy]; [lia|].
  rewrite Hx, Hy. cbn. destruct (lt x y) eqn:E; [|split; [done|by intros a' [= <-]]].
  assert (b ≠ it) by (intros ->; specialize (Hmin x Hx); congruence).
  destruct (iter_swap_spec (S it) it a) as (a1 & -> & Hsi & Hit1 & Hk & Hr); [lia|lia|]. cbn.
  specialize (Hr 0 (length a) ltac:(lia) ltac:(lia)). pose proof (range_perm_length _ _ _ _ Hr).
  apply IH; [lia|by rewrite Hk by lia|]. intros z Hz. apply Hmin. congruence.
Qed.

Lemma insertion_loop_unguarded insert k b cur m a :
  (∀ it a, insert it a = insert_unguarded lt it a) →
  b < cur → cur + k ≤ length a → a !! b = Some m → range_all (λ x, lt x m = false) cur (cur + k) a →
  insertion_loop insert k cur a = insertion_loop (insert_guarded lt b) k cur a.
Proof.
  intros Hins. revert cur a. induction k as [|k IH]; intros cur a Hb Hk Hm Hall; [done|]. cbn. rewrite Hins.
  destruct (insert_unguarded_guarded b cur m a) as [-> Hkeep]; [lia|done| |].
  { intros x Hx. apply (Hall cur x); [lia|done]. }
  destruct (insert_guarded_perm b cur a) as (a1 & Hg & Hr1); [lia|]. rewrite Hg. cbn.
  pose proof (range_perm_length _ _ _ _ Hr1). apply IH; [lia|lia|by apply Hkeep|].
  eapply range_all_outside; [exact Hr1|lia|]. eapply range_all_sub; [exact Hall|lia|lia|done].
Qed.
End insertion.

(** *** After a quicksort *)
Section after_quicksort.
Context {T : Type} (lt : T → T → bool) `{!StrictWeakOrder lt}.
Implicit Types a : list T.

(** Sorting the first [Size] elements puts a smallest one in front. *)
Lemma prefix_minimum k Size b e m a1 a2 :
  near_sorted lt k b e a1 → k ≤ Size → 0 < Size → b + Size ≤ e ≤ length a1 →
  range_perm b (b + Size) a1 a2 → sorted_range lt b (b + Size) a2 → a2 !! b = Some m →
  range_all (λ x, lt x m = false) (b + Size) e a2.
Proof.
  intros Hns Hk HS Hbe Hr Hs Hm. pose proof (range_perm_length _ _ _ _ Hr).
  assert (Hall : range_all (λ y, lt y m = false) b (b + Size) a1).
  { apply (range_all_perm _ b (b + Size) a2 a1); [|lia|].
    - split; [by rewrite (rp_perm _ _ _ _ Hr)|]. intros j Hj. by rewrite (rp_outside _ _ _ _ Hr).
    - intros j y Hj Hy. destruct (decide (j = b)) as [->|].
      + assert (y = m) as -> by congruence. by apply (swo_irrefl lt).
      + apply (Hs b j m y); (lia || done). }
  destruct (range_lookup a1 b) as [x0 Hx0]; [lia|]. intros i x Hi Hx.
  rewrite (rp_outside _ _ _ _ Hr) in Hx by lia. apply (swo_negtrans x x0 m).
  - apply (Hns b i x0 x); (lia || done).
  - apply (Hall b x0); [lia|done].
Qed.

(** So that an unguarded insertion sort can go on. *)
Lemma insertion_resume insert k Size b e a1 :
  near_sorted lt k b e a1 → k ≤ Size → 0 < Size → b + Size ≤ e ≤ length a1 →
  (∀ it a, insert it a = insert_unguarded lt it a) →
  (a' ← insertion_sort lt b (b + Size) a1; insertion_loop insert (e - (b + Size)) (b + Size) a') =
  insertion_sort lt b e a1.
Proof.
  intros Hns Hk HS Hbe Hins. destruct (insertion_sort_spec lt b (b + Size) a1) as (a2 & Hpre & Hr & Hs); [lia|].
  pose proof (range_perm_length _ _ _ _ Hr). destruct (range_lookup a2 b) as [m Hm]; [lia|].
  rewrite Hpre. cbn [mbind option_bind].
  rewrite (insertion_loop_unguarded lt insert (e - (b + Size)) b (b + Size) m a2); [|done|lia|lia|done|].
  - unfold insertion_sort in *. replace (e - b) with (Size + (e - (b + Size))) by lia. rewrite insertion_loop_app.
    replace (b + Size - b) with Size in Hpre by lia. by rewrite Hpre.
  - replace (b + Size + (e - (b + Size))) with e by lia. eapply prefix_minimum; eauto.
Qed.
End after_quicksort.

(** ** The sorting functions *)

(** C39: The quicksort is right for every partition function that keeps its
    contract - with the internal sentinel too, unless ranges of one element are
    partitioned: it ends, after at most as many nested calls as there are
    elements, reads nothing outside of the range, permutes the range, and
    leaves elements which are [Size] positions apart in order, so that the
    range is sorted when [Size] is at most one. *)
Theorem simple_quicksort_sorts {T} (lt : T → T → bool) sentinel partition Size b e a :
  StrictWeakOrder lt → PartitionSpec sentinel partition → (sentinel = true → 0 < Size) →
  b ≤ e ≤ length a →
  ∃ a', simple_quicksort lt partition Size (S (e - b)) b e a = Ret a' ∧ a' ≡ₚ a ∧
    (∀ i, i < b ∨ e ≤ i → a' !! i = a !! i) ∧ near_sorted lt Size b e a' ∧
    (Size ≤ 1 → sorted_range lt b e a').
Proof.
  intros Hswo Hpart Hs Hbe.
  destruct (simple_quicksort_spec lt sentinel partition Size (S (e - b)) b e a Hs Hbe) as (a' & Hrun & [Hp Ho] & Hns); [lia|].
  exists a'. split_and!; [done..|]. intros H1. by apply (near_sorted_mono lt Size).
Qed.

(** The three ways to finish a quicksort which leaves ranges of up to [k]
    elements alone agree: with a threshold of at least [k] the insertion sorts
    which do not look for the beginning of the array - one swapping, one moving
    - never run past it, do the same and sort the range; and, but for ranges
    below the threshold, they do what guarded insertion sort does. *)
Theorem insertion_quicksorts_agree {T} (lt : T → T → bool) partition k Size b e a :
  StrictWeakOrder lt → PartitionSpec false partition → k ≤ Size → 0 < Size → b ≤ e ≤ length a →
  let sort := λ b e a, fat_quicksort lt partition k (S (e - b)) b e a in
  insertion_sentinel_quicksort lt Size sort b e a = insertion_rotate_quicksort lt Size sort b e a ∧
  (Size ≤ e - b → insertion_sentinel_quicksort lt Size sort b e a = insertion_quicksort lt sort b e a) ∧
  (∃ a', insertion_sentinel_quicksort lt Size sort b e a = Ret a' ∧ range_perm b e a a' ∧ sorted_range lt b e a') ∧
  (∃ a', insertion_quicksort lt sort b e a = Ret a' ∧ range_perm b e a a' ∧ sorted_range lt b e a').
Proof.
  intros Hswo Hpart Hk HSize Hbe sort. unfold insertion_sentinel_quicksort, insertion_rotate_quicksort, insertion_quicksort.
  destruct (fat_quicksort_spec lt false partition k (S (e - b)) b e a eq_refl Hbe) as (a1 & Hsort & Hr1 & Hns1); [lia|].
  change (sort b e a) with (fat_quicksort lt partition k (S (e - b)) b e a). rewrite Hsort. cbn [mbind outcome_bind].
  pose proof (range_perm_length _ _ _ _ Hr1).
  destruct (insertion_sort_spec lt b e a1) as (af & Hfull & Hrf & Hsf); [lia|].
  assert (Hq : ∃ a', or_ub (insertion_sort lt b e a1) = Ret a' ∧ range_perm b e a a' ∧ sorted_range lt b e a').
  { exists af. rewrite Hfull. split_and!; [done|by etrans|auto]. }
  case_decide as Hd.
  { split_and!; [done|lia| |done]. destruct (insertion_sort_spec lt b e a Hbe) as (a' & -> & Hr & Hs).
    exists a'. split_and!; auto. }
  assert (Hbe1 : b + Size ≤ e ≤ length a1) by lia.
  pose proof (insertion_resume lt (insert_unguarded lt) k Size b e a1 Hns1 Hk HSize Hbe1 (λ _ _, eq_refl)) as Hl1.
  pose proof (insertion_resume lt (insert_rotate lt) k Size b e a1 Hns1 Hk HSize Hbe1 (insert_rotate_unguarded lt)) as Hl2.
  destruct (insertion_sort lt b (b + Size) a1) as [a2|] eqn:Hpre;
    [|destruct (insertion_sort_spec lt b (b + Size) a1) as (? & ? & _); [lia|congruence]].
  cbn [or_ub mbind outcome_bind option_bind] in *.
  unfold insertion_sort_sentinel, insertion_sort_rotate. rewrite Hl1, Hl2. by split_and!.
Qed.

(** The conditions are necessary. Partitioning with the internal sentinel by
    what is not greater than the pivot, as the fat quicksort does for equal
    elements, is stopped by nothing: it reads behind the array, or spoils what
    was sorted before. The sentinel partition of an empty range reads in front
    of it, and so does the unguarded insertion when its threshold is smaller
    than the one of the quicksort. *)
Theorem quicksort_hazards :
  fat_quicksort Zlt_b sentinel_partition 1 4 0 2 [1; 1]%Z = UB ∧
  fat_quicksort Zlt_b sentinel_partition 1 4 0 3 [1; 1; 2]%Z = Ret [1; 2; 1]%Z ∧
  simple_quicksort Zlt_b sentinel_partition 0 4 0 1 [1]%Z = UB ∧
  insertion_sentinel_quicksort Zlt_b 1 (λ b e a, fat_quicksort Zlt_b manual_partition 3 (S (e - b)) b e a)
    0 2 [2; 1]%Z = UB.
Proof. split_and!; vm_compute; reflexivity. Qed.

(** ** Witnesses *)
Lemma simple_quicksort_sorts_witness :
  simple_quicksort Zlt_b sentinel_partition 1 7 0 6 [3; 1; 4; 1; 5; 2]%Z = Ret [1; 1; 2; 3; 4; 5]%Z ∧
  ∃ a', simple_quicksort Zlt_b sentinel_partition 1 7 0 6 [3; 1; 4; 1; 5; 2]%Z = Ret a' ∧
    a' ≡ₚ [3; 1; 4; 1; 5; 2]%Z ∧ (∀ i, i < 0 ∨ 6 ≤ i → a' !! i = [3; 1; 4; 1; 5; 2]%Z !! i) ∧
    near_sorted Zlt_b 1 0 6 a' ∧ (1 ≤ 1 → sorted_range Zlt_b 0 6 a').
Proof.
  split; [vm_compute; reflexivity|].
  apply (simple_quicksort_sorts Zlt_b true sentinel_partition 1 0 6 [3; 1; 4; 1; 5; 2]%Z); [apply _|apply _|lia|cbn; lia].
Defined.

Lemma insertion_quicksorts_agree_witness :
  let sort := λ b e a, fat_quicksort Zlt_b manual_partition 2 (S (e - b)) b e a in
  insertion_sentinel_quicksort Zlt_b 3 sort 0 6 [3; 1; 4; 1; 5; 2]%Z = Ret [1; 1; 2; 3; 4; 5]%Z ∧
  insertion_sentinel_quicksort Zlt_b 3 sort 0 6 [3; 1; 4; 1; 5; 2]%Z =
    insertion_rotate_quicksort Zlt_b 3 sort 0 6 [3; 1; 4; 1; 5; 2]%Z.
Proof.
  split; [vm_compute; reflexivity|].
  refine (proj1 (insertion_quicksorts_agree Zlt_b manual_partition 2 3 0 6 [3; 1; 4; 1; 5; 2]%Z _ _ _ _ _));
    first [apply _ | cbn; lia].
Defined.
