(* ===== verification/CxxSort.v ===== *)
(** * The quicksort of cxxrt

    [_CS_partition] and [_CS_quicksort] of cxxrt-source/include/cxxrt/algorithm.h
    on an array: the pivot moves from one end of the range which is not yet
    partitioned to the other. Elements are compared with [operator<] and
    [operator==]. *)
From S2P Require Import Prelude Partition Quicksort.

Section sort.
Context {T : Type} (lt eqb : T → T → bool).
Implicit Types a : list T.

(** The loops that decrement [e], or increment [b], while the element at [b] is
    less than that at [e]. *)
Fixpoint cxx_down (b e : nat) a : outcome nat :=
  x ← or_ub (a !! b);
  y ← or_ub (a !! e);
  if lt x y then match e with 0 => UB | S e => cxx_down b e a end else Ret e.
Fixpoint cxx_up (fuel b e : nat) a : outcome nat :=
  match fuel with
  | 0 => NoFuel
  | S fuel =>
      x ← or_ub (a !! b);
      y ← or_ub (a !! e);
      if lt x y then cxx_up fuel (b + 1) e a else Ret b
  end.

(** What follows each loop: [true] when the elements are equal, otherwise they
    are swapped. *)
Definition cxx_swap (b e : nat) a : outcome (bool * list T) :=
  x ← or_ub (a !! b);
  y ← or_ub (a !! e);
  if eqb x y then Ret (true, a) else a ← or_ub (iter_swap b e a); Ret (false, a).

Definition cxx_partition_down (b e : nat) a : outcome (nat * nat * list T) :=
  e ← cxx_down b e a;
  if decide (b = e) then Ret (b, e, a)
  else '(eq, a) ← cxx_swap b e a; Ret (if eq : bool then b + 1 else b, e, a).
Definition cxx_partition_up (b e : nat) a : outcome (nat * nat * list T) :=
  b ← cxx_up (S (e - b)) b e a;
  if decide (b = e) then Ret (b, e, a)
  else '(eq, a) ← cxx_swap b e a; Ret (b, if eq : bool then e - 1 else e, a).

Fixpoint cxx_partition_loop (fuel b e : nat) a : outcome (nat * list T) :=
  match fuel with
  | 0 => NoFuel
  | S fuel =>
      if decide (b < e) then
        '(b, e, a) ← cxx_partition_down b e a;
        '(b, e, a) ← cxx_partition_up b e a;
        cxx_partition_loop fuel b e a
      else Ret (b, a)
  end.
Definition cxx_partition (b e : nat) a : outcome (nat * list T) :=
  match e with 0 => UB | S e => cxx_partition_loop (S (e - b)) b e a end.

Fixpoint cxx_quicksort (fuel b e : nat) a : outcome (list T) :=
  match fuel with
  | 0 => NoFuel
  | S fuel =>
      if decide (b ≠ e) then
        '(mid, a) ← cxx_partition b e a;
        a ← cxx_quicksort fuel b mid a;
        cxx_quicksort fuel (mid + 1) e a
      else Ret a
  end.
End sort.

(** ** The partition *)
Section partition_spec.
Context {T : Type} (lt eqb : T → T → bool) `{!StrictWeakOrder lt}.
(** [operator==] is the equivalence of the order. *)
Context (Heqb : ∀ x y, eqb x y = true ↔ lt x y = false ∧ lt y x = false).
Implicit Types a : list T.

(** The elements outside of [b .. e] are on the right side of the pivot, which
    is at [i]. *)
Record parted (b0 e0 b e i : nat) a : Prop := Parted {
  pt_range : b0 ≤ b ∧ b ≤ e ∧ e < e0 ∧ e0 ≤ length a;
  pt_pivot : ∃ p, a !! i = Some p ∧ range_all (λ x, lt p x = false) b0 b a ∧
               range_all (λ x, lt x p = false) (e + 1) e0 a;
}.

Lemma cxx_down_spec b e p a :
  b ≤ e → e < length a → a !! b = Some p →
  ∃ e' y, cxx_down lt b e a = Ret e' ∧ b ≤ e' ≤ e ∧ a !! e' = Some y ∧ lt p y = false ∧
    range_all (λ x, lt p x = true) (e' + 1) (e + 1) a.
Proof.
  intros Hb. induction e as [|e IH]; intros He Hp; cbn [cxx_down]; rewrite Hp; cbn.
  - assert (b = 0) as -> by lia. rewrite Hp. cbn. rewrite (swo_irrefl lt p). exists 0, p.
    split_and!; [done..|by apply (swo_irrefl lt)|]. intros j x Hj. lia.
  - destruct (range_lookup a (S e) He) as [y Hy]. rewrite Hy. cbn. destruct (lt p y) eqn:E.
    + assert (b ≠ S e) by (intros ->; assert (y = p) as -> by congruence; rewrite (swo_irrefl lt) in E; done).
      destruct IH as (e' & z & -> & He' & Hz & Hlt & Hall); [lia|lia|done|].
      exists e', z. split_and!; [done|lia|lia|done|done|].
      apply (range_all_split _ _ (e + 1)); [done|]. replace (S (e + 1)) with (e + 1 + 1) by lia.
      apply (range_all_one _ (e + 1) y); [by replace (e + 1) with (S e) by lia|done].
    + exists (S e), y. split_and!; [done|lia|lia|done|done|]. intros j x Hj. lia.
Qed.

Lemma cxx_up_spec fuel b e p a :
  b ≤ e → e - b < fuel → e < length a → a !! e = Some p →
  ∃ b' y, cxx_up lt fuel b e a = Ret b' ∧ b ≤ b' ≤ e ∧ a !! b' = Some y ∧ lt y p = false ∧
    range_all (λ x, lt x p = true) b b' a ∧ (∀ y0, a !! b = Some y0 → lt y0 p = true → b < b').
Proof.
  revert b. induction fuel as [|fuel IH]; intros b Hb Hf He Hp; [lia|]. cbn [cxx_up].
  destruct (range_lookup a b) as [y Hy]; [lia|]. rewrite Hy, Hp. cbn. destruct (lt y p) eqn:E.
  - assert (b ≠ e) by (intros ->; assert (y = p) as -> by congruence; rewrite (swo_irrefl lt) in E; done).
    destruct (IH (b + 1)) as (b' & z & -> & Hb' & Hz & Hlt & Hall & _); [lia|lia|done|done|].
    exists b', z. split_and!; [done|lia|lia|done|done| |].
    + apply (range_all_split _ _ (b + 1)); [|done]. by apply (range_all_one _ _ y).
    + intros. lia.
  - exists b, y. split_and!; [done|lia|lia|done|done| |].
    + intros j x Hj. lia.
    + intros y0 [= <-]. congruence.
Qed.

(** Swapping the pivot with an element on the wrong side. *)
Lemma cxx_swap_spec b0 e0 b e x y a :
  b0 ≤ b → b < e → e < e0 → e0 ≤ length a → a !! b = Some x → a !! e = Some y →
  ∃ eq a', cxx_swap eqb b e a = Ret (eq, a') ∧
    if eq : bool then a' = a ∧ lt x y = false ∧ lt y x = false
    else a' !! b = Some y ∧ a' !! e = Some x ∧ range_perm b (e + 1) a a' ∧ ¬ (lt x y = false ∧ lt y x = false).
Proof.
  intros Hb Hbe He Hl Hx Hy. unfold cxx_swap. rewrite Hx, Hy. cbn. destruct (eqb x y) eqn:E.
  - apply Heqb in E. by exists true, a.
  - destruct (iter_swap_spec b e a) as (a' & -> & H1 & H2 & _ & Hr); [lia|lia|]. exists false, a'.
    split; [done|]. split_and!; [congruence|congruence|apply Hr; lia|].
    rewrite <-Heqb. by rewrite E.
Qed.

(** The first half: the pivot goes from [b] to [e], or the parts have met. *)
Lemma cxx_partition_down_spec b0 e0 b e a :
  parted b0 e0 b e b a → b < e →
  ∃ b' e' a', cxx_partition_down lt eqb b e a = Ret (b', e', a') ∧ range_perm b0 e0 a a' ∧
    parted b0 e0 b' e' e' a' ∧ b ≤ b' ∧ e' ≤ e ∧
    (e' - b' < e - b ∨ ∃ x y, a' !! b' = Some x ∧ a' !! e' = Some y ∧ lt x y = true).
Proof.
  intros [Hr (p & Hp & Hlo & Hhi)] Hbe. unfold cxx_partition_down.
  destruct (cxx_down_spec b e p a) as (e1 & y & -> & He1 & Hy & Hpy & Hall); [lia|lia|done|]. cbn.
  assert (Hhi1 : range_all (λ x, lt x p = false) (e1 + 1) e0 a).
  { apply (range_all_split _ _ (e + 1)); [|done]. eapply range_all_sub; [exact Hall|lia|lia|]. cbn. intros x. apply swo_asym. }
  case_decide as Hd.
  { subst e1. exists b, b, a. split_and!; [done|done| |lia|lia|left; lia]. split; [lia|]. by exists p. }
  destruct (cxx_swap_spec b0 e0 b e1 p y a) as (eq & a' & -> & Hsw); [lia|lia|lia|lia|done|done|]. cbn. destruct eq.
  - destruct Hsw as (-> & _ & Hyp). exists (b + 1), e1, a. split_and!; [done|done| |lia|lia|left; lia].
    split; [lia|]. exists y. split_and!; [done| |].
    + apply (range_all_split _ _ b); [|by apply (range_all_one _ _ p)].
      eapply range_all_sub; [exact Hlo|lia|lia|]. cbn. intros x. by apply (swo_negtrans y p x).
    + eapply range_all_sub; [exact Hhi1|lia|lia|]. cbn. intros x Hx. by apply (swo_negtrans x p y).
  - destruct Hsw as (Hb & He & Hperm & Hne). assert (Hyp : lt y p = true) by (destruct (lt y p); tauto).
    exists b, e1, a'. split_and!; [done| | |lia|lia|right; by exists y, p].
    { eapply range_perm_widen; [exact Hperm|lia|lia]. }
    pose proof (range_perm_length _ _ _ _ Hperm). split; [lia|]. exists p. split_and!; [done| |].
    + eapply range_all_outside; [exact Hperm|lia|done].
    + eapply range_all_outside; [exact Hperm|lia|done].
Qed.

(** The second half: it goes back to [b]. *)
Lemma cxx_partition_up_spec b0 e0 b e a :
  parted b0 e0 b e e a →
  ∃ b' e' a', cxx_partition_up lt eqb b e a = Ret (b', e', a') ∧ range_perm b0 e0 a a' ∧
    parted b0 e0 b' e' b' a' ∧ e' - b' ≤ e - b ∧
    ((∃ x y, a !! b = Some x ∧ a !! e = Some y ∧ lt x y = true) → b < e → e' - b' < e - b).
Proof.
  intros [Hr (p & Hp & Hlo & Hhi)]. unfold cxx_partition_up.
  destruct (cxx_up_spec (S (e - b)) b e p a) as (b1 & y & -> & Hb1 & Hy & Hyp & Hall & Hstrict); [lia|lia|lia|done|]. cbn.
  assert (Hlo1 : range_all (λ x, lt p x = false) b0 b1 a).
  { apply (range_all_split _ _ b); [done|]. eapply range_all_sub; [exact Hall|lia|lia|]. cbn. intros x. apply swo_asym. }
  assert (Hst : (∃ x y, a !! b = Some x ∧ a !! e = Some y ∧ lt x y = true) → b < b1).
  { intros (x & z & Hx & Hz & Hlt). apply (Hstrict x Hx). congruence. }
  case_decide as Hd.
  { subst b1. exists e, e, a. split_and!; [done|done| |lia|lia]. split; [lia|]. by exists p. }
  destruct (cxx_swap_spec b0 e0 b1 e y p a) as (eq & a' & -> & Hsw); [lia|lia|lia|lia|done|done|]. cbn. destruct eq.
  - destruct Hsw as (-> & _ & Hpy). exists b1, (e - 1), a.
    split_and!; [done|done| |lia|intros Hx _; specialize (Hst Hx); lia].
    split; [lia|]. exists y. split_and!; [done| |].
    + eapply range_all_sub; [exact Hlo1|lia|lia|]. cbn. intros x Hx. by apply (swo_negtrans y p x).
    + replace (e - 1 + 1) with e by lia. apply (range_all_split _ _ (e + 1)); [by apply (range_all_one _ _ p)|].
      eapply range_all_sub; [exact Hhi|lia|lia|]. cbn. intros x Hx. by apply (swo_negtrans x p y).
  - destruct Hsw as (Hb & He & Hperm & _). exists b1, e, a'.
    split_and!; [done| | |lia|intros Hx _; specialize (Hst Hx); lia].
    { eapply range_perm_widen; [exact Hperm|lia|lia]. }
    pose proof (range_perm_length _ _ _ _ Hperm). split; [lia|]. exists p. split_and!; [done| |].
    + eapply range_all_outside; [exact Hperm|lia|done].
    + eapply range_all_outside; [exact Hperm|lia|done].
Qed.

Lemma cxx_partition_loop_spec fuel b0 e0 b e a :
  parted b0 e0 b e b a → e - b < fuel →
  ∃ mid a', cxx_partition_loop lt eqb fuel b e a = Ret (mid, a') ∧ range_perm b0 e0 a a' ∧
    parted b0 e0 mid mid mid a'.
Proof.
  revert b e a. induction fuel as [|fuel IH]; intros b e a Hp Hf; [lia|]. cbn [cxx_partition_loop].
  case_decide as Hd.
  - destruct (cxx_partition_down_spec b0 e0 b e a Hp Hd) as (b1 & e1 & a1 & -> & Hr1 & Hp1 & Hb1 & He1 & Hlt1). cbn [mbind outcome_bind].
    destruct (cxx_partition_up_spec b0 e0 b1 e1 a1 Hp1) as (b2 & e2 & a2 & -> & Hr2 & Hp2 & Hle2 & Hlt2). cbn [mbind outcome_bind].
    destruct (IH b2 e2 a2 Hp2) as (mid & a3 & -> & Hr3 & Hp3).
    { destruct Hlt1 as [Hlt1|Hx]; [lia|]. destruct (decide (b1 < e1)); [specialize (Hlt2 Hx); lia|lia]. }
    exists mid, a3. split_and!; [done|etrans; [exact Hr1|etrans; [exact Hr2|exact Hr3]]|done].
  - destruct Hp as [Hr Hx]. assert (e = b) as -> by lia. exists b, a. split_and!; [done|done|by split].
Qed.

Lemma cxx_partition_spec b e a :
  b < e → e ≤ length a →
  ∃ mid a' p, cxx_partition lt eqb b e a = Ret (mid, a') ∧ b ≤ mid < e ∧ range_perm b e a a' ∧
    a' !! mid = Some p ∧ range_all (λ x, lt p x = false) b mid a' ∧ range_all (λ x, lt x p = false) (mid + 1) e a'.
Proof.
  intros Hbe Hl. destruct e as [|e]; [lia|]. cbn [cxx_partition].
  destruct (range_lookup a b) as [p Hp]; [lia|].
  destruct (cxx_partition_loop_spec (S (e - b)) b (S e) b e a) as (mid & a' & Hrun & Hr & [Hm (q & Hq & Hlo & Hhi)]); [|lia|].
  { split; [lia|]. exists p. split_and!; [done|intros i x Hi; lia|intros i x Hi; lia]. }
  exists mid, a', q. split_and!; try done; lia.
Qed.

Lemma cxx_quicksort_spec fuel b e a :
  b ≤ e → e ≤ length a → e - b < fuel →
  ∃ a', cxx_quicksort lt eqb fuel b e a = Ret a' ∧ range_perm b e a a' ∧ sorted_range lt b e a'.
Proof.
  revert b e a. induction fuel as [|fuel IH]; intros b e a Hbe Hl Hf; [lia|]. cbn [cxx_quicksort].
  case_decide as Hd; [|exists a; split_and!; [done..|]; intros i j x y Hi Hij Hj; lia].
  destruct (cxx_partition_spec b e a) as (mid & a1 & p & -> & Hm & Hr1 & Hp & Hlo & Hhi); [lia|done|]. cbn [mbind outcome_bind].
  pose proof (range_perm_length _ _ _ _ Hr1).
  destruct (IH b mid a1) as (a2 & -> & Hr2 & Hs2); [lia|lia|lia|]. cbn [mbind outcome_bind]. pose proof (range_perm_length _ _ _ _ Hr2).
  destruct (IH (mid + 1) e a2) as (a3 & -> & Hr3 & Hs3); [lia|lia|lia|].
  exists a3. split_and!; [done| |].
  - etrans; [exact Hr1|]. etrans; [eapply range_perm_widen; [exact Hr2|lia|lia]|].
    eapply range_perm_widen; [exact Hr3|lia|lia].
  - apply (near_sorted_join lt 1 b mid e p); [by eapply near_sorted_outside; [exact Hr3|lia|]|done| | |].
    + rewrite (rp_outside _ _ _ _ Hr3), (rp_outside _ _ _ _ Hr2) by lia. done.
    + eapply range_all_outside; [exact Hr3|lia|]. eapply range_all_perm; [exact Hr2|lia|done].
    + eapply range_all_perm; [exact Hr3|lia|]. eapply range_all_outside; [exact Hr2|lia|done].
Qed.
End partition_spec.
