(* ===== verification/LocaleCache.v ===== *)
(** * The locale cache of cxxrt

    [_CS_cache] of cxxrt-source/include/cxxrt/lcache.h and srccxx/lcache.cc: the
    tables with which num_put and num_get convert digits, signs, prefixes and
    separators to characters and back. The tables are filled from the facets of
    the locale, the scan table is sorted (CxxSort) and searched by bisection.
    Characters are numbers. *)
From Stdlib Require String Ascii.
From S2P Require Import Prelude Partition Quicksort CxxSort.

(** The codes of the characters of a literal. *)
Definition codes (s : string) : list Z := (λ c, Z.of_N (Ascii.N_of_ascii c)) <$> String.list_ascii_of_string s.

(** What the functions of the facet numpunct return. *)
Record numpunct := Numpunct {
  np_grouping : list Z;
  np_thousands_sep : Z;
  np_decimal_point : Z;
  np_truename : list Z;
  np_falsename : list Z;
}.

(** The enumerators of [_CS_cache_base]. *)
Definition c_plus : Z := 16.
Definition c_minus : Z := 17.
Definition c_hex : Z := 18.
Definition c_space : Z := 19.
Definition c_sep : Z := 20.
Definition c_point : Z := 21.
Definition c_none : Z := 22.

(** Indices of the tables for output. *)
Definition positive_index : nat := 16.
Definition negative_index : nat := 17.
Definition binary_index : nat := 18.
Definition hexadecimal_index : nat := 19.
Definition separator_index : nat := 20.

Record locale_cache := LocaleCache {
  lc_grouping : list Z;
  lc_scan_table : list Z;
  lc_vals_table : list Z;
  lc_lower_table : list Z;
  lc_upper_table : list Z;
}.

Definition cache_lt : list Z := codes "0123456789abcdef+-bx,.".
Definition cache_ut : list Z := codes "0123456789ABCDEF+-BX,.".
Definition cache_st : list Z := codes "0123456789abcdefABCDEF+-xX " ++ [9; 10]%Z ++ codes ",.".
Definition cache_ivals : list Z :=
  [0; 1; 2; 3; 4; 5; 6; 7; 8; 9; 10; 11; 12; 13; 14; 15; 10; 11; 12; 13; 14; 15]%Z ++
  [c_plus; c_minus; c_hex; c_hex; c_space; c_space; c_space; c_sep; c_point].

(** [_CS_sort_val]. *)
Definition sort_val_lt (x y : Z * Z) : bool := bool_decide (x.1 < y.1)%Z.
Definition sort_val_eq (x y : Z * Z) : bool := bool_decide (x.1 = y.1).

Definition setup_scan_table (chars : list Z) : outcome (list Z * list Z) :=
  let array := zip chars cache_ivals in
  array ← cxx_quicksort sort_val_lt sort_val_eq (S (length array)) 0 (length array) array;
  Ret (array.*1, array.*2).

(** The characters of the scan table before it is sorted. *)
Definition scan_chars (widen : Z → Z) (np : numpunct) : list Z :=
  <[29 := np_thousands_sep np]> (widen <$> take 30 cache_st) ++ [np_decimal_point np].
Definition out_table (widen : Z → Z) (np : numpunct) (table : list Z) : list Z :=
  (widen <$> take 20 table) ++ [np_thousands_sep np; np_decimal_point np].

Definition cache_init (widen : Z → Z) (np : numpunct) : outcome locale_cache :=
  '(chars, vals) ← setup_scan_table (scan_chars widen np);
  Ret (LocaleCache (np_grouping np) chars vals (out_table widen np cache_lt) (out_table widen np cache_ut)).

(** The nested conditions of [_CS_find], one for each of the steps. *)
Fixpoint cache_bisect (steps : list nat) (fnd : nat) (c : Z) (table : list Z) : option nat :=
  match steps with
  | [] => Some fnd
  | s :: steps =>
      x ← table !! fnd;
      if decide (x = c) then Some fnd
      else if decide (x < c)%Z then cache_bisect steps (fnd + s) c table
      else if decide (s ≤ fnd) then cache_bisect steps (fnd - s) c table else None
  end.

Definition cache_find (k : locale_cache) (c : Z) : option Z :=
  fnd ← cache_bisect [8; 4; 2; 1] 15 c (lc_scan_table k);
  x ← lc_scan_table k !! fnd;
  if decide (x = c) then lc_vals_table k !! fnd else Some c_none.

Arguments cache_find : simpl never.

(** ** Bisection *)
Section bisect.
Implicit Types t : list Z.

Definition bisect_sorted t : Prop := ∀ i j x y, i < j → t !! i = Some x → t !! j = Some y → (x ≤ y)%Z.

(** The steps halve the distance to the positions which are left. *)
Fixpoint halving (d : nat) (steps : list nat) : Prop :=
  match steps with [] => d = 0 | s :: steps => d = s + s - 1 ∧ 0 < s ∧ halving (s - 1) steps end.

Lemma cache_bisect_spec steps d fnd c t :
  bisect_sorted t → halving d steps → d ≤ fnd → fnd + d < length t →
  ∃ i, cache_bisect steps fnd c t = Some i ∧ i < length t ∧
    ∀ j, t !! j = Some c → fnd ≤ j + d → j ≤ fnd + d → t !! i = Some c.
Proof.
  intros Hs. revert d fnd. induction steps as [|s steps IH]; intros d fnd; simpl.
  - intros -> Hd Hl. exists fnd. split_and!; [done|lia|]. intros j Hj ??. by assert (fnd = j) as -> by lia.
  - intros (-> & Hs0 & Hh) Hd Hl. destruct (range_lookup t fnd) as [x Hx]; [lia|]. rewrite Hx. simpl.
    case_decide as Hxc; [exists fnd; split_and!; [done|lia|]; intros; congruence|].
    case_decide as Hlt.
    + destruct (IH (s - 1) (fnd + s) Hh) as (i & -> & Hi & Hj); [lia|lia|]. exists i. split_and!; [done..|].
      intros j Hc Hj1 Hj2. apply (Hj j Hc); [|lia].
      destruct (decide (j = fnd)) as [->|]; [congruence|]. destruct (decide (fnd < j)); [lia|].
      specialize (Hs j fnd c x ltac:(lia) Hc Hx). lia.
    + rewrite decide_True by lia. destruct (IH (s - 1) (fnd - s) Hh) as (i & -> & Hi & Hj); [lia|lia|].
      exists i. split_and!; [done..|]. intros j Hc Hj1 Hj2. apply (Hj j Hc); [lia|].
      destruct (decide (j = fnd)) as [->|]; [congruence|]. destruct (decide (j < fnd)); [lia|].
      specialize (Hs fnd j x c ltac:(lia) Hx Hc). lia.
Qed.
End bisect.

(** ** The cache *)
#[export] Instance sort_val_swo : StrictWeakOrder sort_val_lt.
Proof.
  split; unfold sort_val_lt.
  - intros x y ?%bool_decide_eq_true. apply bool_decide_eq_false. lia.
  - intros x y z ?%bool_decide_eq_false ?%bool_decide_eq_false. apply bool_decide_eq_false. lia.
Qed.

Lemma sort_val_eqb x y : sort_val_eq x y = true ↔ sort_val_lt x y = false ∧ sort_val_lt y x = false.
Proof. unfold sort_val_lt, sort_val_eq. rewrite bool_decide_eq_true, !bool_decide_eq_false. lia. Qed.

Lemma scan_chars_length widen np : length (scan_chars widen np) = 31.
Proof. done. Qed.

(** The table is a sorted permutation of the characters with their values. *)
Lemma setup_scan_table_spec chars :
  length chars = 31 →
  ∃ a, setup_scan_table chars = Ret (a.*1, a.*2) ∧ a ≡ₚ zip chars cache_ivals ∧ bisect_sorted a.*1.
Proof.
  intros Hl. unfold setup_scan_table. set (z := zip chars cache_ivals).
  destruct (cxx_quicksort_spec sort_val_lt sort_val_eq sort_val_eqb (S (length z)) 0 (length z) z)
    as (a & -> & Hp & Hs); [lia|lia|lia|].
  cbn [mbind outcome_bind]. exists a. split_and!; [done|by destruct Hp|].
  pose proof (range_perm_length _ _ _ _ Hp) as Hla. intros i j x y Hij Hx Hy.
  apply list_lookup_fmap_Some in Hx as (p & -> & Hx), Hy as (q & -> & Hy).
  pose proof (lookup_lt_Some _ _ _ Hy). specialize (Hs i j p q ltac:(lia) ltac:(lia) ltac:(lia) Hx Hy).
  unfold sort_val_lt in Hs. apply bool_decide_eq_false in Hs. lia.
Qed.

(** A cache with the tables [chars], in the order of the values. *)
Record cache_for (widen : Z → Z) (np : numpunct) (k : locale_cache) : Prop := CacheFor {
  cf_grouping : lc_grouping k = np_grouping np;
  cf_lower : lc_lower_table k = out_table widen np cache_lt;
  cf_upper : lc_upper_table k = out_table widen np cache_ut;
  cf_find_in c : c ∈ scan_chars widen np →
    ∃ i v, scan_chars widen np !! i = Some c ∧ cache_ivals !! i = Some v ∧ cache_find k c = Some v;
  cf_find_out c : c ∉ scan_chars widen np → cache_find k c = Some c_none;
}.

Lemma cache_init_for widen np : ∃ k, cache_init widen np = Ret k ∧ cache_for widen np k.
Proof.
  unfold cache_init. destruct (setup_scan_table_spec (scan_chars widen np)) as (a & -> & Hp & Hs); [done|].
  cbn [mbind outcome_bind]. eexists. split; [done|]. set (k := LocaleCache _ _ _ _ _).
  assert (Hla : length a = 31) by (by rewrite (Permutation_length Hp)).
  assert (Hl : length a.*1 = 31) by (by rewrite length_fmap).
  assert (Hfind : ∀ c, ∃ i, i < 31 ∧ cache_bisect [8; 4; 2; 1] 15 c a.*1 = Some i ∧
    (c ∈ a.*1 → a.*1 !! i = Some c)).
  { intros c. destruct (cache_bisect_spec [8; 4; 2; 1] 15 15 c a.*1 Hs) as (i & Hi & Hil & Hc); [cbn; lia|lia|lia|].
    exists i. split_and!; [lia|done|]. intros [j Hj]%list_elem_of_lookup.
    pose proof (lookup_lt_Some _ _ _ Hj). apply (Hc j); [done|lia|lia]. }
  assert (Hmem : ∀ c, c ∈ a.*1 ↔ c ∈ scan_chars widen np).
  { intros c. rewrite Hp, fst_zip by (by rewrite scan_chars_length). done. }
  split; [done..| |].
  - intros c Hc. destruct (Hfind c) as (i & Hi & Hb & Hin). specialize (Hin (proj2 (Hmem c) Hc)).
    unfold cache_find. cbn [lc_scan_table k]. rewrite Hb. cbn [mbind option_bind]. rewrite Hin. cbn [mbind option_bind].
    rewrite decide_True by done. apply list_lookup_fmap_Some in Hin as ([c' v] & -> & Hv). cbn [fst].
    assert (Hz : (c', v) ∈ zip (scan_chars widen np) cache_ivals) by (rewrite <-Hp; by eapply list_elem_of_lookup_2).
    apply list_elem_of_lookup in Hz as [j (Hj1 & Hj2)%lookup_zip_Some]. exists j, v.
    split_and!; [done..|]. cbn [lc_vals_table k]. rewrite list_lookup_fmap, Hv. done.
  - intros c Hc. destruct (Hfind c) as (i & Hi & Hb & _). unfold cache_find. cbn [lc_scan_table k]. rewrite Hb.
    cbn [mbind option_bind]. destruct (range_lookup a.*1 i) as [x Hx]; [lia|]. rewrite Hx. cbn [mbind option_bind].
    rewrite decide_False; [done|]. intros ->. apply Hc. rewrite <-Hmem. by eapply list_elem_of_lookup_2.
Qed.

(** ** The classic locale *)

Definition classic_numpunct : numpunct := Numpunct [] 44 46 (codes "true") (codes "false").
Definition classic_cache : locale_cache :=
  match cache_init id classic_numpunct with Ret k => k | _ => LocaleCache [] [] [] [] [] end.

Lemma classic_cache_init : cache_init id classic_numpunct = Ret classic_cache.
Proof. vm_compute. reflexivity. Qed.
Lemma classic_cache_for : cache_for id classic_numpunct classic_cache.
Proof.
  destruct (cache_init_for id classic_numpunct) as (k & Hk & Hf). rewrite classic_cache_init in Hk.
  apply Ret_inj in Hk as ->. exact Hf.
Qed.
Lemma classic_nodup : NoDup (scan_chars id classic_numpunct).
Proof. apply (bool_decide_unpack _). vm_compute. reflexivity. Qed.
