(* ===== verification/NumPut.v ===== *)
(** * Formatting integers

    num_put of cxxrt-source/include/srccxx/num_put.cc for bool, long, unsigned
    long and pointers: the digits are written backwards into a buffer of 64
    characters, with the separators of the grouping, and a prefix; then they are
    copied to the output iterator with the fill characters. The state is what
    the iterator writes to. A long has [w] bits; writing in front of the buffer
    is undefined, as is an overflow of a signed integer. Floating point values
    are formatted by other code and are not modelled. *)
From S2P Require Import Prelude LocaleCache.

(** ** ios_base: the flags, and the width and flags of a stream *)
Definition fl_oct : Z := 0x7.
Definition fl_dec : Z := 0x9.
Definition fl_hex : Z := 0xf.
Definition fl_internal : Z := 0x10.
Definition fl_left : Z := 0x20.
Definition fl_right : Z := 0x40.
Definition fl_showbase : Z := 0x200.
Definition fl_showpos : Z := 0x800.
Definition fl_skipws : Z := 0x1000.
Definition fl_uppercase : Z := 0x4000.
Definition fl_boolalpha : Z := 0x8000.
Definition fl_adjustfield : Z := 0x70.
Definition fl_basefield : Z := 0xf.
Definition fl_fmtall : Z := 0xffffff.

Record ios_fmt := IosFmt { fmt_flags : Z; fmt_width : Z }.

Definition flag_set (fmt flag : Z) : bool := negb (bool_decide (Z.land fmt flag = 0%Z)).

(** ** Values *)
Inductive num_val := NLong (v : Z) | NULong (v : Z) | NPtr (v : Z).

Definition num_value (v : num_val) : Z := match v with NLong v | NULong v | NPtr v => v end.
(** [_CS_sign_handler]; a pointer is formatted as a [ptrdiff_t]. *)
Definition num_negative (v : num_val) : bool :=
  match v with NLong v | NPtr v => bool_decide (v < 0)%Z | NULong _ => false end.

Section num_put.
Context (w : Z).

(** ** The buffer *)
Definition num_bufsize : nat := 64.
Definition char_max : Z := 127.

(** [*--_CS_begin = cvt[i]]: the buffer from [_CS_begin] on. *)
Definition buf_push (cvt : list Z) (i : nat) (buf : list Z) : option (list Z) :=
  c ← cvt !! i; if decide (length buf < num_bufsize) then Some (c :: buf) else None.

Fixpoint digits_loop (fuel : nat) (cvt : list Z) (base value : Z) (buf : list Z) : outcome (list Z) :=
  match fuel with
  | 0 => NoFuel
  | S fuel =>
      if decide (0 < value)%Z then
        buf ← or_ub (buf_push cvt (Z.to_nat (value `mod` base)) buf);
        digits_loop fuel cvt base (value `div` base)%Z buf
      else Ret buf
  end.

Fixpoint grouped_loop (fuel : nat) (cvt : list Z) (grouping : list Z) (base value : Z)
    (group_index : nat) (next_separator : Z) (buf : list Z) : outcome (list Z) :=
  match fuel with
  | 0 => NoFuel
  | S fuel =>
      if decide (0 < value)%Z then
        '(group_index, next_separator, buf) ←
          (if decide (next_separator = 1%Z) then
             buf ← or_ub (buf_push cvt separator_index buf);
             if decide (group_index < length grouping)
             then g ← or_ub (grouping !! group_index); Ret (group_index + 1, g, buf)
             else g ← or_ub (grouping !! (group_index - 1)); Ret (group_index, g, buf)
           else Ret (group_index, next_separator - 1, buf)%Z);
        buf ← or_ub (buf_push cvt (Z.to_nat (value `mod` base)) buf);
        grouped_loop fuel cvt grouping base (value `div` base)%Z group_index next_separator buf
      else Ret buf
  end.

Definition num_digits (base : Z) (grouping : list Z) (value : Z) (buf cvt : list Z) : outcome (list Z) :=
  if decide (value = 0%Z) then or_ub (buf_push cvt 0 buf)
  else match grouping with
       | [] => digits_loop (S (Z.to_nat w)) cvt base value buf
       | g :: _ =>
           if decide (g = char_max) then digits_loop (S (Z.to_nat w)) cvt base value buf
           else grouped_loop (S (Z.to_nat w)) cvt grouping base value 1 (g + 1)%Z buf
       end.

Definition num_sign (negative : bool) (fmt : Z) (buf cvt : list Z) : option (list Z) :=
  if negative then buf_push cvt negative_index buf
  else if flag_set fmt fl_showpos then buf_push cvt positive_index buf
  else Some buf.

Definition num_prefix (base fmt : Z) (buf : list Z) (value : Z) (negative : bool) (cvt : list Z) : option (list Z) :=
  if flag_set fmt fl_showbase then
    if decide (base = 2%Z) then buf ← buf_push cvt binary_index buf; buf_push cvt 0 buf
    else if decide (base = 8%Z) then if decide (value ≠ 0%Z) then buf_push cvt 0 buf else Some buf
    else if decide (base = 16%Z) then buf ← buf_push cvt hexadecimal_index buf; buf_push cvt 0 buf
    else if decide (base = 10%Z) then num_sign negative fmt buf cvt
    else Some buf
  else if decide (base = 10%Z) then num_sign negative fmt buf cvt
  else Some buf.

Definition num_base (fmt : Z) : Z :=
  let base := (Z.land fmt fl_basefield + 1)%Z in if decide (base = 1%Z) then 10%Z else base.

(** [-_CS_val] overflows for the least value. *)
Definition num_neg (v : Z) : option Z := if decide (v = - 2 ^ (w - 1))%Z then None else Some (- v)%Z.

(** The buffer and the fill position, as the number of characters behind it. *)
Definition num_format (fmt : Z) (grouping : list Z) (buf : list Z) (val : num_val) (cvt : list Z) :
    outcome (list Z * nat) :=
  let base := num_base fmt in
  let negative := num_negative val && bool_decide (base = 10%Z) in
  v ← or_ub (if negative then num_neg (num_value val) else Some (num_value val));
  let p_val := wrapu w v in
  if decide (Z.land fmt fl_adjustfield = fl_left) then
    let fillpos := length buf in
    buf ← num_digits base grouping p_val buf cvt;
    buf ← or_ub (num_prefix base fmt buf (num_value val) negative cvt);
    Ret (buf, fillpos)
  else if decide (Z.land fmt fl_adjustfield = fl_internal) then
    let fillpos := length buf in
    buf ← num_digits base grouping p_val buf cvt;
    let fillpos := if decide (base ≠ 8%Z) then length buf else fillpos in
    buf ← or_ub (num_prefix base fmt buf (num_value val) negative cvt);
    Ret (buf, fillpos)
  else
    buf ← num_digits base grouping p_val buf cvt;
    buf ← or_ub (num_prefix base fmt buf (num_value val) negative cvt);
    Ret (buf, length buf).

(** A pointer is formatted in base 16. *)
Definition do_num_put (fmt : Z) (grouping buf : list Z) (val : num_val) (cvt : list Z) : outcome (list Z * nat) :=
  match val with
  | NPtr _ => num_format (Z.lor (Z.land fmt (Z.ldiff fl_fmtall fl_basefield)) fl_hex) grouping buf val cvt
  | _ => num_format fmt grouping buf val cvt
  end.

(** ** Output

    [num_copy] and [fill_n] are the overloads for the output iterator. *)
Context {O : Type} (num_copy : list Z → O → outcome O) (fill_n : Z → Z → O → outcome O).

Definition new_num_put (k : locale_cache) (fmt : ios_fmt) (fill : Z) (val : num_val) (o : O) : outcome (O * ios_fmt) :=
  let cvt := if flag_set (fmt_flags fmt) fl_uppercase then lc_upper_table k else lc_lower_table k in
  '(buf, fillpos) ← do_num_put (fmt_flags fmt) (lc_grouping k) [] val cvt;
  if decide (fmt_width fmt ≠ 0%Z) then
    let f := (fmt_width fmt - Z.of_nat (length buf))%Z in
    let fmt := IosFmt (fmt_flags fmt) 0 in
    if decide (0 < f)%Z then
      o ← num_copy (take (length buf - fillpos) buf) o;
      o ← fill_n f fill o;
      o ← num_copy (drop (length buf - fillpos) buf) o;
      Ret (o, fmt)
    else o ← num_copy buf o; Ret (o, fmt)
  else o ← num_copy buf o; Ret (o, fmt).

(** [copy] is the function which copies the names of the truth values. *)
Definition put_bool (copy : list Z → O → outcome O) (k : locale_cache) (np : numpunct) (fmt : ios_fmt) (fill : Z) (val : bool) (o : O) :
    outcome (O * ios_fmt) :=
  if flag_set (fmt_flags fmt) fl_boolalpha then
    let str := if val then np_truename np else np_falsename np in
    let n := (fmt_width fmt - Z.of_nat (length str))%Z in
    o ← (if decide (Z.land (fmt_flags fmt) fl_adjustfield = fl_left)
         then o ← copy str o; fill_n n fill o
         else o ← fill_n n fill o; copy str o);
    Ret (o, IosFmt (fmt_flags fmt) 0)
  else new_num_put k fmt fill (NLong (if val then 1 else 0)) o.
End num_put.

(** The overloads for any output iterator. *)
Definition it_num_copy (cs : list Z) (out : list Z) : outcome (list Z) := Ret (out ++ cs).
Definition it_copy (cs : list Z) (out : list Z) : outcome (list Z) := Ret (out ++ cs).
Definition it_fill_n (n fill : Z) (out : list Z) : outcome (list Z) := Ret (out ++ replicate (Z.to_nat n) fill).

(** ** Digits *)

(** The digits of a number, the least significant one first. *)
Fixpoint ldigits (fuel : nat) (base v : Z) : list nat :=
  match fuel with
  | 0 => []
  | S fuel => if decide (0 < v)%Z then Z.to_nat (v `mod` base) :: ldigits fuel base (v `div` base)%Z else []
  end.
Definition digits_value (base : Z) (ds : list nat) : Z := foldr (λ d acc, Z.of_nat d + base * acc)%Z 0%Z ds.

(** [ds] are the digits of [v] in [base], without leading zeros. *)
Record digits_of (base v : Z) (ds : list nat) : Prop := DigitsOf {
  do_value : digits_value base ds = v;
  do_bound : Forall (λ d, (Z.of_nat d < base)%Z) ds;
  do_last : ds ≠ [] → last ds ≠ Some 0;
}.

Lemma ldigits_of L base v : (2 ≤ base)%Z → (0 ≤ v < base ^ Z.of_nat L)%Z → digits_of base v (ldigits L base v).
Proof.
  intros Hb. revert v. induction L as [|L IH]; intros v Hv.
  - assert (v = 0%Z) as -> by (rewrite Z.pow_0_r in Hv; lia). by split.
  - cbn [ldigits]. case_decide as Hpos; [|assert (v = 0%Z) as -> by lia; by split].
    rewrite Nat2Z.inj_succ, Z.pow_succ_r in Hv by lia.
    pose proof (Z.mod_pos_bound v base ltac:(lia)) as Hm. pose proof (Z.div_mod v base ltac:(lia)) as Hdm.
    assert (Hq : (0 ≤ v `div` base < base ^ Z.of_nat L)%Z).
    { split; [apply Z.div_pos; lia|apply Z.div_lt_upper_bound; lia]. }
    destruct (IH _ Hq) as [Hval Hbd Hlast]. split.
    + cbn [digits_value foldr]. fold (digits_value base (ldigits L base (v `div` base))). rewrite Hval. lia.
    + constructor; [lia|done].
    + intros _. destruct (ldigits L base (v `div` base)%Z) as [|d ds] eqn:E; [|by apply Hlast].
      cbn in Hval. cbn. intros [= H0]. lia.
Qed.

Lemma ldigits_length L base v : length (ldigits L base v) ≤ L.
Proof. revert v. induction L as [|L IH]; intros v; simpl; [done|]. case_decide; simpl; [|lia]. specialize (IH (v `div` base)%Z). lia. Qed.

(** The most significant digit is not zero. *)
Lemma digits_of_lower base v ds :
  (2 ≤ base)%Z → digits_of base v ds → ds ≠ [] → (base ^ (Z.of_nat (length ds) - 1) ≤ v)%Z.
Proof.
  intros Hb [Hv Hbd Hl] Hne. specialize (Hl Hne). subst v. induction ds as [|d ds IH]; [done|].
  cbn [digits_value foldr length]. fold (digits_value base ds). destruct ds as [|d' ds].
  - cbn in Hl |- *. assert (d ≠ 0) by congruence. lia.
  - apply Forall_cons in Hbd as [_ Hbd]. specialize (IH Hbd Hl ltac:(done)).
    rewrite Nat2Z.inj_succ. replace (Z.succ (Z.of_nat (length (d' :: ds))) - 1)%Z with
      (Z.succ (Z.of_nat (length (d' :: ds)) - 1)) by lia.
    rewrite Z.pow_succ_r by (cbn [length]; lia). nia.
Qed.

Lemma digits_of_upper base v ds : (2 ≤ base)%Z → digits_of base v ds → (0 ≤ v < base ^ Z.of_nat (length ds))%Z.
Proof.
  intros Hb [Hv Hbd _]. subst v. induction Hbd as [|d ds Hd Hbd IH]; [by cbn|].
  cbn [digits_value foldr length]. fold (digits_value base ds). rewrite Nat2Z.inj_succ, Z.pow_succ_r by lia. nia.
Qed.

(** *** Separators *)

(** The digits with separators, as the loop puts them. *)
Fixpoint sep_digits (grouping : list Z) (group_index : nat) (next : Z) (ds : list nat) : list nat :=
  match ds with
  | [] => []
  | d :: ds =>
      if decide (next = 1%Z) then
        separator_index :: d ::
          (if decide (group_index < length grouping)
           then sep_digits grouping (group_index + 1) (default 0%Z (grouping !! group_index)) ds
           else sep_digits grouping group_index (default 0%Z (grouping !! (group_index - 1))) ds)
      else d :: sep_digits grouping group_index (next - 1)%Z ds
  end.

(** What grouping means: groups of the sizes given, of which the last one is
    repeated; a size which is not positive does not end. *)
Fixpoint group_ref (fuel : nat) (g : Z) (gs : list Z) (ds : list nat) : list nat :=
  match fuel with
  | 0 => ds
  | S fuel =>
      if decide (g ≤ 0 ∨ Z.of_nat (length ds) ≤ g)%Z then ds
      else take (Z.to_nat g) ds ++ separator_index ::
             match gs with
             | [] => group_ref fuel g [] (drop (Z.to_nat g) ds)
             | g' :: gs => group_ref fuel g' gs (drop (Z.to_nat g) ds)
             end
  end.

Lemma sep_digits_length grouping gi next ds : length (sep_digits grouping gi next ds) ≤ 2 * length ds.
Proof.
  revert gi next. induction ds as [|d ds IH]; intros gi next; simpl; [lia|].
  case_decide; simpl; [|specialize (IH gi (next - 1)%Z); lia].
  case_decide; match goal with |- context [sep_digits _ ?i ?n ds] => specialize (IH i n) end; lia.
Qed.

Lemma sep_digits_never grouping gi next ds : (next ≤ 0)%Z → sep_digits grouping gi next ds = ds.
Proof.
  revert next. induction ds as [|d ds IH]; intros next Hn; simpl; [done|]. rewrite decide_False by lia.
  by rewrite IH by lia.
Qed.

(** One group. *)
Lemma sep_digits_group grouping gi (r : nat) ds :
  sep_digits grouping gi (Z.of_nat r + 1) ds =
  if decide (length ds ≤ r) then ds else take r ds ++ sep_digits grouping gi 1 (drop r ds).
Proof.
  revert r. induction ds as [|d ds IH]; intros r; [by rewrite decide_True by (simpl; lia)|].
  destruct r as [|r]; [by rewrite decide_False by (simpl; lia)|]. cbn [sep_digits].
  rewrite decide_False by lia. replace (Z.of_nat (S r) + 1 - 1)%Z with (Z.of_nat r + 1)%Z by lia. rewrite IH.
  simpl. split_ifs; (lia || done).
Qed.

(** A separator, and the next group. *)
Lemma sep_digits_one grouping gi d ds g gs :
  1 ≤ gi → drop (gi - 1) grouping = g :: gs →
  sep_digits grouping gi 1 (d :: ds) = separator_index ::
    let '(g', gi') := match gs with [] => (g, gi) | g' :: _ => (g', gi + 1) end in
    if decide (g' ≤ 0)%Z then d :: ds else sep_digits grouping gi' (g' + 1) (d :: ds).
Proof.
  intros Hgi Hd.
  assert (Hlen : length grouping = gi + length gs).
  { apply (f_equal length) in Hd. rewrite length_drop in Hd. simpl in Hd. lia. }
  assert (Hlk : ∀ i, grouping !! (gi - 1 + i) = (g :: gs) !! i) by (intros i; by rewrite <-lookup_drop, Hd).
  assert (Hnext : ∀ g' gi', d :: sep_digits grouping gi' g' ds =
    if decide (g' ≤ 0)%Z then d :: ds else sep_digits grouping gi' (g' + 1) (d :: ds)).
  { intros g' gi'. case_decide; [by rewrite sep_digits_never by lia|]. cbn [sep_digits].
    rewrite decide_False by lia. by replace (g' + 1 - 1)%Z with g' by lia. }
  destruct gs as [|g' gs]; rewrite <-Hnext; cbn [sep_digits]; rewrite decide_True by done.
  - rewrite decide_False by (simpl in Hlen; lia). specialize (Hlk 0). rewrite Nat.add_0_r in Hlk. by rewrite Hlk.
  - rewrite decide_True by (simpl in Hlen; lia). specialize (Hlk 1). replace (gi - 1 + 1) with gi in Hlk by lia.
    by rewrite Hlk.
Qed.

Lemma sep_digits_ref fuel grouping gi g gs ds :
  1 ≤ gi → drop (gi - 1) grouping = g :: gs → (0 < g)%Z → length ds < fuel →
  sep_digits grouping gi (g + 1) ds = group_ref fuel g gs ds.
Proof.
  revert gi g gs ds. induction fuel as [|fuel IH]; intros gi g gs ds Hgi Hd Hg Hf; [lia|]. cbn [group_ref].
  pose proof (sep_digits_group grouping gi (Z.to_nat g) ds) as Hgr. rewrite Z2Nat.id in Hgr by lia. rewrite Hgr.
  case_decide; [by rewrite decide_True by lia|]. rewrite decide_False by lia. f_equal.
  destruct (drop (Z.to_nat g) ds) as [|d ds'] eqn:E.
  { apply (f_equal length) in E. rewrite length_drop in E. simpl in E. lia. }
  rewrite (sep_digits_one _ _ _ _ g gs) by done. f_equal.
  assert (Hl : length (d :: ds') < fuel) by (rewrite <-E, length_drop; lia).
  destruct gs as [|g' gs].
  - rewrite decide_False by lia. by apply IH.
  - case_decide.
    + destruct fuel as [|fuel]; [lia|]. cbn [group_ref]. by rewrite decide_True by lia.
    + apply IH; [lia| |lia|done]. replace (gi + 1 - 1) with (gi - 1 + 1) by lia.
      rewrite <-drop_drop, Hd. done.
Qed.

(** ** The text *)
Section text.
Context (w : Z) (Hw : (0 < w ≤ 64)%Z).

(** The characters of table entries. *)
Definition cvt_all (cvt : list Z) (ixs : list nat) : list Z := (λ i, default 0%Z (cvt !! i)) <$> ixs.

(** How many digits a long has at most, in base 8. *)
Definition max_ldigits : nat := Z.to_nat ((w + 2) `div` 3).

Definition num_ldigits (base v : Z) : list nat := ldigits max_ldigits base v.

(** The digits with separators, the most significant one first. *)
Definition digits_ref (grouping : list Z) (base v : Z) : list nat :=
  if decide (v = 0%Z) then [0]
  else rev (match grouping with
            | [] => num_ldigits base v
            | g :: _ => if decide (g = char_max) then num_ldigits base v
                        else sep_digits grouping 1 (g + 1) (num_ldigits base v)
            end).

Definition sign_ref (negative : bool) (fmt : Z) : list nat :=
  if negative then [negative_index] else if flag_set fmt fl_showpos then [positive_index] else [].
Definition prefix_ref (base fmt v : Z) (negative : bool) : list nat :=
  if decide (base = 10%Z) then sign_ref negative fmt
  else if flag_set fmt fl_showbase then
    if decide (base = 8%Z) then if decide (v = 0%Z) then [] else [0]
    else if decide (base = 16%Z) then [0; hexadecimal_index] else []
  else [].

Lemma max_ldigits_bounds base : (8 ≤ base)%Z → max_ldigits ≤ 22 ∧ max_ldigits ≤ Z.to_nat w ∧ (2 ^ w ≤ base ^ Z.of_nat max_ldigits)%Z.
Proof.
  intros Hb. unfold max_ldigits. pose proof (Z.div_mod (w + 2) 3 ltac:(lia)) as Hdm.
  pose proof (Z.mod_pos_bound (w + 2) 3 ltac:(lia)). split_and!; [lia|lia|]. rewrite Z2Nat.id by lia.
  trans (8 ^ ((w + 2) `div` 3))%Z; [|by apply Z.pow_le_mono_l; lia].
  change 8%Z with (2 ^ 3)%Z. rewrite <-Z.pow_mul_r by lia. apply Z.pow_le_mono_r; lia.
Qed.

Lemma num_ldigits_of base v : (8 ≤ base)%Z → (0 ≤ v < 2 ^ w)%Z → digits_of base v (num_ldigits base v).
Proof. intros Hb Hv. pose proof (max_ldigits_bounds base Hb). apply ldigits_of; lia. Qed.

Lemma buf_push_some cvt i buf :
  i < length cvt → length buf < 64 → buf_push cvt i buf = Some (cvt_all cvt [i] ++ buf).
Proof.
  intros Hi Hl. unfold buf_push. destruct (lookup_lt_is_Some_2 cvt i Hi) as [c Hc]. rewrite Hc. cbn.
  by rewrite decide_True, Hc.
Qed.

Lemma digit_index base v (cvt : list Z) : (0 < base ≤ 16)%Z → length cvt = 22 → Z.to_nat (v `mod` base) < length cvt.
Proof. intros Hb ->. pose proof (Z.mod_pos_bound v base ltac:(lia)). lia. Qed.

Lemma cvt_all_rev_cons cvt d ds (buf : list Z) :
  rev (cvt_all cvt ds) ++ cvt_all cvt [d] ++ buf = rev (cvt_all cvt (d :: ds)) ++ buf.
Proof. cbn. by rewrite <-(assoc_L (++)). Qed.

Lemma digits_loop_spec L fuel cvt base v buf :
  (2 ≤ base ≤ 16)%Z → length cvt = 22 → (0 ≤ v < base ^ Z.of_nat L)%Z → L < fuel → length buf + L ≤ 64 →
  digits_loop fuel cvt base v buf = Ret (rev (cvt_all cvt (ldigits L base v)) ++ buf).
Proof.
  intros Hb Hcvt. revert L v buf. induction fuel as [|fuel IH]; intros L v buf Hv Hf Hl; [lia|]. cbn [digits_loop].
  case_decide as Hpos.
  - destruct L as [|L]; [rewrite Z.pow_0_r in Hv; lia|]. cbn [ldigits]. rewrite decide_True by done.
    rewrite buf_push_some by first [apply digit_index; [lia|done]|lia]. cbn [or_ub mbind outcome_bind].
    rewrite (IH L); [by rewrite cvt_all_rev_cons| |lia|cbn; lia].
    rewrite Nat2Z.inj_succ, Z.pow_succ_r in Hv by lia. split; [apply Z.div_pos; lia|apply Z.div_lt_upper_bound; lia].
  - assert (v = 0%Z) as -> by lia. by destruct L.
Qed.

Lemma grouped_loop_spec L fuel cvt grouping base v gi next buf :
  (2 ≤ base ≤ 16)%Z → length cvt = 22 → 1 ≤ gi ≤ length grouping → (0 ≤ v < base ^ Z.of_nat L)%Z → L < fuel →
  length buf + 2 * L ≤ 64 →
  grouped_loop fuel cvt grouping base v gi next buf =
    Ret (rev (cvt_all cvt (sep_digits grouping gi next (ldigits L base v))) ++ buf).
Proof.
  intros Hb Hcvt. revert L v gi next buf. induction fuel as [|fuel IH]; intros L v gi next buf Hgi Hv Hf Hl; [lia|].
  cbn [grouped_loop]. case_decide as Hpos; [|assert (v = 0%Z) as -> by lia; by destruct L].
  destruct L as [|L]; [rewrite Z.pow_0_r in Hv; lia|]. cbn [ldigits]. rewrite (decide_True (P := (0 < v)%Z)) by done.
  assert (Hq : (0 ≤ v `div` base < base ^ Z.of_nat L)%Z).
  { rewrite Nat2Z.inj_succ, Z.pow_succ_r in Hv by lia. split; [apply Z.div_pos; lia|apply Z.div_lt_upper_bound; lia]. }
  assert (Hstep : ∀ gi next buf, 1 ≤ gi ≤ length grouping → length buf + 2 * L + 1 ≤ 64 →
    (buf ← or_ub (buf_push cvt (Z.to_nat (v `mod` base)) buf);
     grouped_loop fuel cvt grouping base (v `div` base)%Z gi next buf) =
    Ret (rev (cvt_all cvt (Z.to_nat (v `mod` base) :: sep_digits grouping gi next (ldigits L base (v `div` base)))) ++ buf)).
  { intros gi' next' buf' Hgi' Hl'. rewrite buf_push_some by first [apply digit_index; [lia|done]|lia]. cbn [or_ub mbind outcome_bind].
    rewrite (IH L); [by rewrite cvt_all_rev_cons|lia|done|lia|cbn; lia]. }
  cbn [sep_digits]. case_decide as Hn; [|cbn [mbind outcome_bind]; rewrite Hstep by lia; done].
  rewrite buf_push_some by (rewrite ?Hcvt; unfold separator_index; lia). cbn [or_ub mbind outcome_bind].
  case_decide as Hg.
  - destruct (lookup_lt_is_Some_2 grouping gi Hg) as [g Hgl]. rewrite Hgl. cbn [or_ub mbind outcome_bind default].
    rewrite Hstep by (cbn; lia). by rewrite (cvt_all_rev_cons _ separator_index).
  - destruct (lookup_lt_is_Some_2 grouping (gi - 1)) as [g Hgl]; [lia|]. rewrite Hgl. cbn [or_ub mbind outcome_bind default].
    rewrite Hstep by (cbn; lia). by rewrite (cvt_all_rev_cons _ separator_index).
Qed.

Lemma cvt_all_rev cvt ixs : cvt_all cvt (rev ixs) = rev (cvt_all cvt ixs).
Proof. unfold cvt_all. by rewrite <-map_rev. Qed.

Lemma num_digits_spec grouping base v buf cvt :
  (8 ≤ base ≤ 16)%Z → length cvt = 22 → (0 ≤ v < 2 ^ w)%Z → length buf ≤ 20 →
  num_digits w base grouping v buf cvt = Ret (cvt_all cvt (digits_ref grouping base v) ++ buf).
Proof.
  intros Hb Hcvt Hv Hl. unfold num_digits, digits_ref. pose proof (max_ldigits_bounds base ltac:(lia)) as (? & ? & ?).
  case_decide as Hz; [rewrite buf_push_some by lia; done|]. rewrite cvt_all_rev.
  assert (Hd : digits_loop (S (Z.to_nat w)) cvt base v buf = Ret (rev (cvt_all cvt (num_ldigits base v)) ++ buf)).
  { apply digits_loop_spec; (done || lia). }
  destruct grouping as [|g gs]; [done|]. case_decide; [done|]. apply grouped_loop_spec; (done || cbn; lia).
Qed.

Lemma digits_ref_length grouping base v : length (digits_ref grouping base v) ≤ 44.
Proof.
  unfold digits_ref. pose proof (max_ldigits_bounds 8 ltac:(lia)) as (Hm & _).
  pose proof (ldigits_length max_ldigits base v) as Hl. fold (num_ldigits base v) in Hl. case_decide; [simpl; lia|].
  rewrite length_rev. destruct grouping as [|g gs]; [lia|]. case_decide; [lia|].
  pose proof (sep_digits_length (g :: gs) 1 (g + 1) (num_ldigits base v)). lia.
Qed.

Lemma num_prefix_spec base fmt buf v negative cvt :
  (8 ≤ base ≤ 16)%Z → length cvt = 22 → length buf ≤ 62 →
  num_prefix base fmt buf v negative cvt = Some (cvt_all cvt (prefix_ref base fmt v negative) ++ buf).
Proof.
  intros Hb Hcvt Hl.
  assert (Hpush : ∀ i buf, i < 22 → length buf ≤ 63 → buf_push cvt i buf = Some (cvt_all cvt [i] ++ buf)).
  { intros i b Hi Hlb. apply buf_push_some; lia. }
  assert (Hsign : num_sign negative fmt buf cvt = Some (cvt_all cvt (sign_ref negative fmt) ++ buf)).
  { unfold num_sign, sign_ref. destruct negative; [apply Hpush; unfold negative_index; lia|].
    destruct (flag_set fmt fl_showpos); [apply Hpush; unfold positive_index; lia|done]. }
  unfold num_prefix, prefix_ref. destruct (flag_set fmt fl_showbase); [|by case_decide].
  rewrite decide_False by lia. destruct (decide (base = 10%Z)) as [->|]; [done|].
  case_decide as H8; [destruct (decide (v = 0%Z)) as [->|]; [done|]; rewrite decide_True by done; by apply Hpush; lia|].
  case_decide as H16; [|done]. rewrite Hpush by (unfold hexadecimal_index; lia). cbn [mbind option_bind].
  by rewrite Hpush by (cbn; lia).
Qed.
End text.

(** ** num_put *)

(** What num_put needs of an output iterator: what [num_copy] and [fill_n] write.
    [out_ok n o] says that [n] characters can still be written, [out_writes o cs o']
    that writing [cs] takes [o] to [o']. *)
Class OutputIterator {O : Type} (num_copy : list Z → O → outcome O) (fill_n : Z → Z → O → outcome O)
    (out_ok : nat → O → Prop) (out_writes : O → list Z → O → Prop) : Prop := {
  out_copy cs n o : out_ok (length cs + n) o → ∃ o', num_copy cs o = Ret o' ∧ out_ok n o' ∧ out_writes o cs o';
  out_fill k c n o : out_ok (Z.to_nat k + n) o →
    ∃ o', fill_n k c o = Ret o' ∧ out_ok n o' ∧ out_writes o (replicate (Z.to_nat k) c) o';
  out_app o1 o2 o3 cs ds : out_writes o1 cs o2 → out_writes o2 ds o3 → out_writes o1 (cs ++ ds) o3;
}.

#[export] Instance it_output : OutputIterator it_num_copy it_fill_n (λ _ _, True) (λ o cs o', o' = o ++ cs).
Proof.
  split.
  - intros cs n o _. by eexists.
  - intros k c n o _. by eexists.
  - intros o1 o2 o3 cs ds -> ->. by rewrite (assoc_L (++)).
Qed.

(** The groups of the digits, the least significant digit first. *)
Definition grouped_ref (grouping : list Z) (ds : list nat) : list nat :=
  match grouping with [] => ds | g :: gs => group_ref (S (length ds)) g gs ds end.
(** Zero has a digit, too. *)
Definition shown_digits (grouping : list Z) (ds : list nat) : list nat :=
  match ds with [] => [0] | _ => rev (grouped_ref grouping ds) end.

(** The prefix and the digits are padded to the width; in base 8 internal
    padding follows the number. *)
Definition pad_text (fmt base width fill : Z) (prefix digits : list Z) : list Z :=
  let pad := replicate (Z.to_nat (width - Z.of_nat (length (prefix ++ digits)))) fill in
  if decide (Z.land fmt fl_adjustfield = fl_left) then prefix ++ digits ++ pad
  else if decide (Z.land fmt fl_adjustfield = fl_internal) then
    if decide (base = 8%Z) then prefix ++ digits ++ pad else prefix ++ pad ++ digits
  else pad ++ prefix ++ digits.

(** The flags used, and the number of which the digits are written. *)
Definition eff_flags (fmt : Z) (val : num_val) : Z :=
  match val with NPtr _ => Z.lor (Z.land fmt (Z.ldiff fl_fmtall fl_basefield)) fl_hex | _ => fmt end.
Definition shown_negative (fmt : Z) (val : num_val) : bool :=
  num_negative val && bool_decide (num_base fmt = 10%Z).
Definition shown_value (w fmt : Z) (val : num_val) : Z :=
  wrapu w (if shown_negative fmt val then - num_value val else num_value val).

(** The base is one of the three. *)
Definition base_named (fmt : Z) : Prop := Z.land fmt fl_basefield ∈ [0%Z; fl_oct; fl_dec; fl_hex].

Lemma base_named_range fmt : base_named fmt → (8 ≤ num_base fmt ≤ 16)%Z.
Proof.
  unfold base_named, num_base. rewrite !elem_of_cons, elem_of_nil.
  intros [->|[->|[->|[->|[]]]]]; vm_compute; split; congruence.
Qed.

(** The fill characters are put at the fill position. *)
Definition fill_pos (fmt base : Z) (P D : list Z) : nat :=
  if decide (Z.land fmt fl_adjustfield = fl_left) then 0
  else if decide (Z.land fmt fl_adjustfield = fl_internal) then if decide (base = 8%Z) then 0 else length D
  else length (P ++ D).

Lemma fill_pos_split fmt base width fill P D :
  let n := length (P ++ D) - fill_pos fmt base P D in
  pad_text fmt base width fill P D =
    take n (P ++ D) ++ replicate (Z.to_nat (width - Z.of_nat (length (P ++ D)))) fill ++ drop n (P ++ D).
Proof.
  unfold fill_pos, pad_text. cbv zeta. set (pad := replicate _ _).
  assert (Hend : P ++ D ++ pad = take (length (P ++ D) - 0) (P ++ D) ++ pad ++ drop (length (P ++ D) - 0) (P ++ D)).
  { rewrite Nat.sub_0_r, take_ge, drop_ge by done. by rewrite app_nil_r, (assoc_L (++)). }
  split_ifs; [done|done| |by rewrite Nat.sub_diag].
  replace (length (P ++ D) - length D) with (length P) by (rewrite length_app; lia).
  by rewrite take_app_length, drop_app_length.
Qed.

Lemma pad_text_none fmt base width fill P D :
  (width - Z.of_nat (length (P ++ D)) ≤ 0)%Z → pad_text fmt base width fill P D = P ++ D.
Proof.
  intros Hn. rewrite fill_pos_split. replace (Z.to_nat _) with 0 by lia. cbn [replicate app]. apply take_drop.
Qed.

Section num_put_spec.
Context (w : Z) (Hw : (0 < w ≤ 64)%Z).

Lemma digits_ref_shown grouping base v :
  (8 ≤ base)%Z → (0 ≤ v < 2 ^ w)%Z → head grouping ≠ Some 0%Z →
  digits_ref w grouping base v = shown_digits grouping (num_ldigits w base v).
Proof.
  intros Hb Hv Hg. pose proof (num_ldigits_of w Hw base v Hb Hv) as Hds.
  unfold digits_ref, shown_digits. case_decide as Hz.
  - subst v. destruct (num_ldigits w base 0) as [|d ds] eqn:E; [done|].
    pose proof (digits_of_lower base 0 (d :: ds) ltac:(lia) Hds ltac:(done)) as Hlo.
    assert (0 < base ^ (Z.of_nat (length (d :: ds)) - 1))%Z by (apply Z.pow_pos_nonneg; cbn [length]; lia). lia.
  - destruct (num_ldigits w base v) as [|d ds] eqn:E; [destruct Hds as [Hval _ _]; by cbn in Hval|].
    f_equal. unfold grouped_ref. destruct grouping as [|g gs]; [done|].
    assert (Hlen : length (d :: ds) ≤ 22).
    { rewrite <-E. unfold num_ldigits. trans (max_ldigits w); [apply ldigits_length|].
      by apply (max_ldigits_bounds w Hw base). }
    case_decide as Hmax.
    + subst g. cbn [group_ref]. rewrite decide_True; [done|right; unfold char_max; lia].
    + destruct (decide (0 < g)%Z).
      * apply (sep_digits_ref _ _ 1); [done|done|done|lia].
      * rewrite sep_digits_never; [|cbn in Hg; assert (g ≠ 0%Z) by congruence; lia].
        cbn [group_ref]. rewrite decide_True by lia. done.
Qed.

Lemma num_format_spec fmt grouping val cvt :
  base_named fmt → length cvt = 22 →
  (shown_negative fmt val = true → num_value val ≠ - 2 ^ (w - 1))%Z →
  let base := num_base fmt in
  let D := cvt_all cvt (digits_ref w grouping base (shown_value w fmt val)) in
  let P := cvt_all cvt (prefix_ref base fmt (num_value val) (shown_negative fmt val)) in
  num_format w fmt grouping [] val cvt = Ret (P ++ D, fill_pos fmt base P D).
Proof.
  intros Hb Hcvt Hmin base D P. pose proof (base_named_range fmt Hb) as Hbase.
  assert (Hv : (0 ≤ shown_value w fmt val < 2 ^ w)%Z) by (apply Z.mod_pos_bound; lia).
  unfold num_format. cbv zeta. fold (shown_negative fmt val). fold base.
  assert (Hneg : or_ub (if shown_negative fmt val then num_neg w (num_value val) else Some (num_value val)) =
    Ret (if shown_negative fmt val then - num_value val else num_value val)%Z).
  { destruct (shown_negative fmt val) eqn:E; [|done]. unfold num_neg. by rewrite decide_False by auto. }
  rewrite Hneg. cbn [mbind outcome_bind]. fold (shown_value w fmt val).
  assert (Hd : num_digits w base grouping (shown_value w fmt val) [] cvt = Ret D).
  { rewrite (num_digits_spec w Hw) by (done || cbn; lia). by rewrite app_nil_r. }
  assert (Hp : num_prefix base fmt D (num_value val) (shown_negative fmt val) cvt = Some (P ++ D)).
  { apply num_prefix_spec; [done..|]. unfold D, cvt_all. rewrite length_fmap.
    pose proof (digits_ref_length w Hw grouping base (shown_value w fmt val)). lia. }
  rewrite Hd. cbn [mbind outcome_bind]. rewrite Hp. cbn [or_ub mbind outcome_bind length].
  unfold fill_pos. split_ifs; (done || congruence).
Qed.

Context {O : Type} (num_copy : list Z → O → outcome O) (fill_n : Z → Z → O → outcome O).
Context (out_ok : nat → O → Prop) (out_writes : O → list Z → O → Prop).
Context `{!OutputIterator num_copy fill_n out_ok out_writes}.

(** The text of a number. *)
Definition num_text (cvt grouping : list Z) (fmt width fill : Z) (val : num_val) : list Z :=
  let base := num_base fmt in
  pad_text fmt base width fill (cvt_all cvt (prefix_ref base fmt (num_value val) (shown_negative fmt val)))
    (cvt_all cvt (shown_digits grouping (num_ldigits w base (shown_value w fmt val)))).

Lemma new_num_put_spec widen np k fmt fill val m o :
  cache_for widen np k → head (np_grouping np) ≠ Some 0%Z →
  let f := eff_flags (fmt_flags fmt) val in
  let cvt := out_table widen np (if flag_set (fmt_flags fmt) fl_uppercase then cache_ut else cache_lt) in
  let text := num_text cvt (np_grouping np) f (fmt_width fmt) fill val in
  base_named f → (shown_negative f val = true → num_value val ≠ - 2 ^ (w - 1))%Z → out_ok (length text + m) o →
  ∃ o', new_num_put w num_copy fill_n k fmt fill val o = Ret (o', IosFmt (fmt_flags fmt) 0) ∧ out_ok m o' ∧
    out_writes o text o'.
Proof.
  intros [Hg Hl Hu _ _] Hgr f cvt text Hb Hmin Ho. subst text. unfold new_num_put.
  assert (Hcvt : (if flag_set (fmt_flags fmt) fl_uppercase then lc_upper_table k else lc_lower_table k) = cvt).
  { unfold cvt. rewrite Hl, Hu. by destruct (flag_set _ _). }
  rewrite Hcvt, Hg. assert (Hdo : do_num_put w (fmt_flags fmt) (np_grouping np) [] val cvt =
    num_format w f (np_grouping np) [] val cvt) by (by destruct val).
  assert (Hl22 : length cvt = 22) by (unfold cvt; by destruct (flag_set _ _)).
  rewrite Hdo, (num_format_spec f _ val cvt Hb Hl22 Hmin). cbn [mbind outcome_bind].
  assert (Hv : (0 ≤ shown_value w f val < 2 ^ w)%Z) by (apply Z.mod_pos_bound; lia).
  pose proof (base_named_range f Hb) as Hbase. rewrite digits_ref_shown by (done || lia).
  unfold num_text in Ho |- *. set (P := cvt_all cvt (prefix_ref _ _ _ _)). set (D := cvt_all cvt (shown_digits _ _)).
  fold P D in Ho. fold (fill_pos f (num_base f) P D).
  destruct (decide (0 < fmt_width fmt - Z.of_nat (length (P ++ D)))%Z) as [Hpos|Hpos].
  - rewrite decide_True by lia. rewrite fill_pos_split in Ho |- *. cbv zeta in Ho |- *.
    set (n := length (P ++ D) - fill_pos f (num_base f) P D) in *.
    set (z := (fmt_width fmt - Z.of_nat (length (P ++ D)))%Z) in *.
    rewrite !length_app, length_replicate, <-!Nat.add_assoc in Ho.
    destruct (out_copy (take n (P ++ D)) _ o Ho) as (o1 & -> & Ho1 & H1). cbn [mbind outcome_bind].
    destruct (out_fill z fill _ o1 Ho1) as (o2 & -> & Ho2 & H2).
    cbn [mbind outcome_bind]. destruct (out_copy (drop n (P ++ D)) _ o2 Ho2) as (o3 & -> & Ho3 & H3).
    exists o3. split_and!; [done..|]. eapply out_app; [exact H1|]. by eapply out_app.
  - rewrite pad_text_none in Ho |- * by lia. destruct (out_copy (P ++ D) m o Ho) as (o' & -> & Hok & Hwr).
    exists o'. split_and!; [|done..]. cbn [mbind outcome_bind]. destruct (decide (fmt_width fmt ≠ 0%Z)) as [|Hz]; [done|].
    destruct fmt as [fl wd]. cbn in Hz |- *. by assert (wd = 0%Z) as -> by lia.
Qed.
End num_put_spec.

(** ** Properties *)


(** Whatever the grouping is - also sizes that are zero or negative - the
    characters of a number in a named base fit into the buffer of 64 characters:
    num_put writes at most 46. *)
Theorem num_put_in_bounds w fmt grouping val cvt :
  (0 < w ≤ 64)%Z → length cvt = 22 → base_named (eff_flags fmt val) →
  (shown_negative (eff_flags fmt val) val = true → num_value val ≠ - 2 ^ (w - 1))%Z →
  ∃ buf fillpos, do_num_put w fmt grouping [] val cvt = Ret (buf, fillpos) ∧ 0 < length buf ≤ 46 ∧ fillpos ≤ length buf.
Proof.
  intros Hw Hcvt Hb Hmin. set (f := eff_flags fmt val) in *.
  assert (Hdo : do_num_put w fmt grouping [] val cvt = num_format w f grouping [] val cvt) by (by destruct val).
  rewrite Hdo, (num_format_spec w Hw f grouping val cvt Hb Hcvt Hmin).
  pose proof (digits_ref_length w Hw grouping (num_base f) (shown_value w f val)) as Hd.
  assert (Hpos : 0 < length (digits_ref w grouping (num_base f) (shown_value w f val))).
  { unfold digits_ref. case_decide as Hz; [cbn; lia|]. rewrite length_rev. pose proof (base_named_range f Hb).
    assert (Hds : digits_of (num_base f) (shown_value w f val) (num_ldigits w (num_base f) (shown_value w f val))).
    { apply num_ldigits_of; [done|lia|]. apply Z.mod_pos_bound. lia. }
    destruct (num_ldigits w (num_base f) (shown_value w f val)) as [|d ds]; [by destruct Hds|].
    destruct grouping as [|g gs]; [cbn; lia|]. case_decide; [cbn; lia|]. cbn. case_decide; cbn; lia. }
  assert (Hp : length (prefix_ref (num_base f) f (num_value val) (shown_negative f val)) ≤ 2).
  { unfold prefix_ref, sign_ref. repeat case_match; cbn; lia. }
  eexists _, _. split; [done|]. unfold fill_pos, cvt_all. rewrite !length_app, !length_fmap. split; [lia|].
  repeat case_decide; lia.
Qed.

(** ** Witnesses *)
Definition witness_fmt : ios_fmt := IosFmt (Z.lor fl_hex (Z.lor fl_showbase fl_internal)) 10.

Lemma num_put_in_bounds_witness :
  ∃ buf fillpos, do_num_put 64 fl_oct [1%Z] [] (NULong (2 ^ 64 - 1)) cache_lt = Ret (buf, fillpos) ∧
    0 < length buf ≤ 46 ∧ fillpos ≤ length buf.
Proof.
  apply (num_put_in_bounds 64 fl_oct [1%Z] (NULong (2 ^ 64 - 1)) cache_lt).
  - lia.
  - done.
  - vm_compute. apply elem_of_cons. right. apply elem_of_cons. by left.
  - done.
Defined.
