(* ===== verification/NumGet.v ===== *)
(** * Scanning integers

    num_get of cxxrt-source/include/srccxx/num_get.cc for bool and the integral
    types, on any input iterator, with the extractor of include/cxxrt/extractor.h
    which turns characters into the values of the locale's cache. An unsigned
    long has [w] bits. The loops take fuel, one round for a character. Floating
    point values are not modelled. *)
From S2P Require Import Prelude LocaleCache NumPut.

(** ** ios_base::iostate *)
Definition goodbit : Z := 0.
Definition badbit : Z := 1.
Definition eofbit : Z := 2.
Definition failbit : Z := 4.

(** ** Input iterators

    Comparison with the end, [operator*] and [operator++]; reading a stream can
    change the state of its buffer. *)
Class InputIterator (I : Type) := {
  in_end : I → bool;
  in_deref : I → outcome (Z * I);
  in_incr : I → outcome I;
}.

(** The characters an iterator has before it. *)
Class InputIteratorSpec (I : Type) `{InputIterator I} := {
  in_ok : I → Prop;
  in_chars : I → list Z;
  in_end_spec i : in_ok i → in_end i = bool_decide (in_chars i = []);
  in_deref_spec i c cs : in_ok i → in_chars i = c :: cs →
    ∃ i', in_deref i = Ret (c, i') ∧ in_ok i' ∧ in_chars i' = c :: cs;
  in_incr_spec i c cs : in_ok i → in_chars i = c :: cs →
    ∃ i', in_incr i = Ret i' ∧ in_ok i' ∧ in_chars i' = cs;
}.

#[export] Instance list_iterator : InputIterator (list Z) := {|
  in_end cs := bool_decide (cs = []);
  in_deref cs := match cs with [] => UB | c :: _ => Ret (c, cs) end;
  in_incr cs := match cs with [] => UB | _ :: cs => Ret cs end;
|}.
#[export, refine] Instance list_iterator_spec : InputIteratorSpec (list Z) := {|
  in_ok _ := True;
  in_chars cs := cs;
|}.
Proof.
  - done.
  - intros i c cs _ ->. by exists (c :: cs).
  - intros i c cs _ ->. by exists cs.
Defined.

(** ** The extractor *)
Record extractor (I : Type) := Extractor { ex_count : Z; ex_begin : I }.
Arguments Extractor {I} _ _.
Arguments ex_count {I} _.
Arguments ex_begin {I} _.

Section num_get.
Context {I : Type} `{InputIterator I} (k : locale_cache) (w : Z).
Implicit Types (ext : extractor I) (b : I).

(** The value of the character, or [None] at the end. *)
Definition get_current ext : outcome (option Z * extractor I) :=
  if in_end (ex_begin ext) then Ret (None, ext)
  else '(c, b) ← in_deref (ex_begin ext);
       v ← or_ub (cache_find k c);
       Ret (Some v, Extractor (ex_count ext) b).
Definition get_next ext : outcome (option Z * extractor I) :=
  b ← in_incr (ex_begin ext); get_current (Extractor (ex_count ext) b).
Definition init_count (c : Z) ext : extractor I := Extractor c (ex_begin ext).
Definition get_next_counted ext : outcome (option Z * extractor I) :=
  let ext := Extractor (ex_count ext - 1)%Z (ex_begin ext) in
  if decide (ex_count ext = 0%Z) then Ret (None, ext) else get_next ext.

(** ** numeric_limits of unsigned long *)
Definition ul_max : Z := 2 ^ w - 1.
Definition ul_digits10 : Z := (w * 30103) `div` 100000.

(** ** Integers *)

(** What [_CS_get_integer] returns and what it leaves in its arguments. *)
Record gi_result := GiResult {
  gi_ok : bool; gi_err : Z; gi_val : Z; gi_negative : bool; gi_ext : extractor I
}.

Definition get_base (fmt : Z) : Z :=
  let b := Z.land fmt fl_basefield in
  if decide (b = fl_oct) then 8 else if decide (b = fl_dec) then 10 else if decide (b = fl_hex) then 16 else 17.

(** The loop which reads the value; [true] when it meets a character that is no
    digit. *)
Fixpoint read_digits (fuel : nat) (base val cval : Z) ext : outcome (bool * Z * extractor I) :=
  match fuel with
  | 0 => NoFuel
  | S fuel =>
      if decide (cval < base)%Z then
        let val := wrapu w (val * base + cval) in
        '(c, ext) ← get_next_counted ext;
        match c with Some cval => read_digits fuel base val cval ext | None => Ret (false, val, ext) end
      else Ret (true, val, ext)
  end.

(** The digits behind an overflow. *)
Fixpoint skip_digits (fuel : nat) (base : Z) ext : outcome (extractor I) :=
  match fuel with
  | 0 => NoFuel
  | S fuel =>
      '(c, ext) ← get_next ext;
      match c with
      | Some cval => if decide (cval < base)%Z then skip_digits fuel base ext else Ret ext
      | None => Ret ext
      end
  end.

Definition eof_check (ok : bool) (val : Z) (negative : bool) ext : outcome gi_result :=
  '(c, ext) ← get_current ext;
  Ret (GiResult ok (match c with None => eofbit | Some _ => goodbit end) val negative ext).

Definition get_overflow (fuel : nat) (base : Z) (negative : bool) ext : outcome gi_result :=
  ext ← skip_digits fuel base ext; eof_check false ul_max negative ext.

(** The checks after the loop: one more digit is read when it does not make the
    number too large, and it has to be the last one. *)
Definition last_digit (fuel : nat) (base val cval : Z) (negative : bool) ext : outcome gi_result :=
  if decide (val ≤ ul_max `div` base ∧ cval ≤ ul_max - wrapu w (val * base))%Z then
    let val := wrapu w (wrapu w (val * base) + cval) in
    '(c, ext) ← get_next ext;
    match c with
    | Some cval => if decide (cval < base)%Z then get_overflow fuel base negative ext
                   else eof_check true val negative ext
    | None => eof_check true val negative ext
    end
  else get_overflow fuel base negative ext.
Definition overflow_check (fuel : nat) (base val : Z) (negative : bool) ext : outcome gi_result :=
  if decide (ex_count ext = 0%Z) then
    '(c, ext) ← get_next ext;
    match c with
    | Some cval => if decide (cval < base)%Z then last_digit fuel base val cval negative ext
                   else eof_check true val negative ext
    | None => eof_check true val negative ext
    end
  else eof_check true val negative ext.

Definition digit_count (base : Z) : Z :=
  (if decide (base = 10) then ul_digits10 - 1
   else if decide (base = 8) then w `div` 3 - 1
   else if decide (base = 16) then w `div` 4 - 1 else 0)%Z.

Definition get_digits (fuel : nat) (base cval : Z) (negative : bool) ext : outcome gi_result :=
  let ext := init_count (digit_count base) ext in
  '(stop, val, ext) ← read_digits fuel base 0 cval ext;
  if stop : bool then Ret (GiResult true goodbit val negative ext)
  else overflow_check fuel base val negative ext.

(** Leading zeros. *)
Fixpoint get_zeros (fuel : nat) (base cval : Z) (negative : bool) ext : outcome gi_result :=
  match fuel with
  | 0 => NoFuel
  | S fuel =>
      if decide (cval = 0%Z) then
        '(c, ext) ← get_next ext;
        match c with
        | Some cval => get_zeros fuel base cval negative ext
        | None => Ret (GiResult true eofbit 0 negative ext)
        end
      else get_digits fuel base cval negative ext
  end.

Definition get_prefix (fuel : nat) (fmt cval : Z) (negative : bool) ext : outcome gi_result :=
  let base := get_base fmt in
  if decide (cval = 0%Z) then
    '(c, ext) ← get_next ext;
    match c with
    | None => Ret (GiResult true eofbit 0 negative ext)
    | Some cval =>
        if decide (16 ≤ base)%Z then
          if decide (cval = c_hex) then
            '(c, ext) ← get_next ext;
            match c with
            | None => Ret (GiResult true eofbit 0 negative ext)
            | Some cval => if decide (16 < cval)%Z then Ret (GiResult true eofbit 0 negative ext)
                           else get_zeros fuel 16 cval negative ext
            end
          else get_zeros fuel (if decide (base = 17%Z) then 8 else base)%Z cval negative ext
        else get_zeros fuel base cval negative ext
    end
  else
    let base := if decide (base = 17%Z) then 10%Z else base in
    if decide (base ≤ cval)%Z then Ret (GiResult false failbit 0 negative ext)
    else get_zeros fuel base cval negative ext.

Definition get_integer (fuel : nat) (fmt : Z) ext : outcome gi_result :=
  '(c, ext) ← get_current ext;
  match c with
  | None => Ret (GiResult false (Z.lor failbit eofbit) 0 false ext)
  | Some cval =>
      let negative := bool_decide (cval = c_minus) in
      if decide (cval = c_minus ∨ cval = c_plus) then
        '(c, ext) ← get_next ext;
        match c with
        | None => Ret (GiResult false (Z.lor failbit eofbit) 0 negative ext)
        | Some cval => get_prefix fuel fmt cval negative ext
        end
      else get_prefix fuel fmt cval negative ext
  end.

(** *** The values

    [None] is the value left alone; [vw] is the width of the type of the value.
    Negating the least value overflows. *)
Definition get_signed_integer (vw : Z) (fuel : nat) (fmt : Z) b : outcome (option Z * Z * I) :=
  r ← get_integer fuel fmt (Extractor 0 b);
  let min := (- 2 ^ (vw - 1))%Z in
  let max := (2 ^ (vw - 1) - 1)%Z in
  v ← (if gi_ok r then
         if gi_negative r then
           if decide (wrapu w (- wrapu w min) < gi_val r)%Z then Ret (Some min)
           else v ← or_ub (num_neg vw (wraps vw (gi_val r))); Ret (Some v)
         else if decide (wrapu w max < gi_val r)%Z then Ret (Some max)
         else Ret (Some (wraps vw (gi_val r)))
       else if decide (gi_val r = ul_max) then Ret (Some (if gi_negative r then min else max))
       else Ret None);
  Ret (v, gi_err r, ex_begin (gi_ext r)).

Definition get_unsigned_integer (vw : Z) (fuel : nat) (fmt : Z) b : outcome (option Z * Z * I) :=
  r ← get_integer fuel fmt (Extractor 0 b);
  let max := (2 ^ vw - 1)%Z in
  let v := if gi_ok r then
             if decide (max < gi_val r)%Z then Some max
             else Some (if gi_negative r then wrapu vw (- wrapu vw (gi_val r)) else wrapu vw (gi_val r))
           else if decide (gi_val r = ul_max) then Some max else None in
  Ret (v, gi_err r, ex_begin (gi_ext r)).

(** The pointer is the number when there was no failure. *)
Definition get_pointer (fuel : nat) (fmt : Z) b : outcome (option Z * Z * I) :=
  '(v, err, b) ← get_unsigned_integer w fuel fmt b;
  Ret (if decide (Z.land err failbit = 0%Z) then Some (default 0%Z v) else None, err, b).

(** The names of the truth values are compared while they match. *)
Fixpoint match_name (name : list Z) b : outcome (list Z * I) :=
  match name with
  | [] => Ret ([], b)
  | n :: name =>
      if in_end b then Ret (n :: name, b)
      else '(c, b) ← in_deref b;
           if decide (n = c) then b ← in_incr b; match_name name b else Ret (n :: name, b)
  end.

(** [old] is the value before. *)
Definition get_bool (np : numpunct) (fuel : nat) (fmt : Z) (old : bool) b : outcome (bool * Z * I) :=
  if flag_set fmt fl_boolalpha then
    '(rest, b) ← match_name (if old then np_truename np else np_falsename np) b;
    Ret (old, match rest with [] => goodbit | _ => if in_end b then eofbit else failbit end, b)
  else
    '(v, err, b) ← get_signed_integer w fuel fmt b;
    if decide (Z.land err failbit = goodbit) then
      v ← or_ub v;
      if decide (v = 0%Z) then Ret (false, err, b)
      else if decide (v = 1%Z) then Ret (true, err, b)
      else Ret (old, Z.lor err failbit, b)
    else Ret (old, err, b).
End num_get.
Arguments gi_result _ : clear implicits.
Arguments GiResult {I} _ _ _ _ _.
Arguments gi_ok {I} _.
Arguments gi_err {I} _.
Arguments gi_val {I} _.
Arguments gi_negative {I} _.
Arguments gi_ext {I} _.

(** ** Reading *)
Section spec.
Context {I : Type} `{HI : InputIteratorSpec I} (k : locale_cache) (w : Z).
(** The values of the characters. *)
Context (fv : Z → Z) (Hfv : ∀ c, cache_find k c = Some (fv c)) (Hfv0 : ∀ c, (0 ≤ fv c)%Z).
Implicit Types (ext : extractor I) (cs dcs rest : list Z).

Definition ex_at ext cs : Prop := in_ok (ex_begin ext) ∧ in_chars (ex_begin ext) = cs.

Lemma get_current_spec ext cs :
  ex_at ext cs →
  ∃ ext', get_current k ext = Ret (fv <$> head cs, ext') ∧ ex_at ext' cs ∧ ex_count ext' = ex_count ext.
Proof.
  intros [Hok Hc]. unfold get_current. rewrite in_end_spec, Hc by done. destruct cs as [|c cs]; cbn.
  - by exists ext.
  - destruct (in_deref_spec _ c cs Hok Hc) as (i' & -> & Hok' & Hc'). cbn [mbind outcome_bind]. rewrite Hfv. by eexists.
Qed.

Lemma get_next_spec ext c cs :
  ex_at ext (c :: cs) →
  ∃ ext', get_next k ext = Ret (fv <$> head cs, ext') ∧ ex_at ext' cs ∧ ex_count ext' = ex_count ext.
Proof.
  intros [Hok Hc]. unfold get_next. destruct (in_incr_spec _ c cs Hok Hc) as (i' & -> & Hok' & Hc').
  cbn [mbind outcome_bind]. by destruct (get_current_spec (Extractor (ex_count ext) i') cs) as (ext' & -> & ? & ?); [|exists ext'].
Qed.

(** [dcs] are digits, and what follows is none. *)
Record digit_run (base : Z) dcs rest : Prop := DigitRun {
  dr_digits : Forall (λ c, (fv c < base)%Z) dcs;
  dr_rest c r : rest = c :: r → (base ≤ fv c)%Z;
}.

Lemma digit_run_tail base c dcs rest : digit_run base (c :: dcs) rest → digit_run base dcs rest.
Proof. intros [Hd Hr]. by apply Forall_cons in Hd as [_ Hd]. Qed.

(** The number of the digits after the value [val]. *)
Definition run_value (base val : Z) dcs : Z := foldl (λ v c, v * base + fv c)%Z val dcs.

Lemma run_value_mono base val dcs : (1 ≤ base)%Z → (0 ≤ val)%Z → (val ≤ run_value base val dcs)%Z.
Proof.
  intros Hb. revert val. induction dcs as [|c dcs IH]; intros val Hv; cbn [run_value foldl]; [done|].
  fold (run_value base (val * base + fv c) dcs). specialize (Hfv0 c). specialize (IH (val * base + fv c)%Z). nia.
Qed.

Lemma run_value_app base val dcs dcs' : run_value base val (dcs ++ dcs') = run_value base (run_value base val dcs) dcs'.
Proof. apply foldl_app. Qed.

Lemma run_value_bound base dcs :
  (1 ≤ base)%Z → Forall (λ c, (fv c < base)%Z) dcs → (run_value base 0 dcs < base ^ Z.of_nat (length dcs))%Z.
Proof.
  intros Hb. induction dcs as [|c dcs IH] using rev_ind; intros Hd; [by cbn|].
  apply Forall_app in Hd as [Hd Hc]. apply Forall_cons in Hc as [Hc _]. rewrite run_value_app, length_app. cbn.
  specialize (IH Hd). rewrite Nat2Z.inj_add, Z.pow_add_r by lia. cbn. rewrite Z.pow_1_r. nia.
Qed.

Lemma ex_at_head ext cs : ex_at ext cs → cs ≠ [] → ∃ c cs', cs = c :: cs'.
Proof. intros _ Hne. destruct cs as [|c cs]; [done|by eexists _, _]. Qed.

(** Reading at most [n] digits. *)
Lemma read_digits_spec fuel base val c0 cs0 dcs rest ext n :
  (2 ≤ base)%Z → (0 ≤ val)%Z → c0 :: cs0 = dcs ++ rest → ex_at ext (c0 :: cs0) → digit_run base dcs rest →
  ex_count ext = Z.of_nat n → 0 < n → length dcs < fuel → (run_value base val (take n dcs) < 2 ^ w)%Z →
  ∃ ext',
    (length dcs < n ∧ read_digits k w fuel base val (fv c0) ext =
       Ret (bool_decide (rest ≠ []), run_value base val dcs, ext') ∧ ex_at ext' rest ∧ ex_count ext' ≠ 0%Z) ∨
    (n ≤ length dcs ∧ read_digits k w fuel base val (fv c0) ext = Ret (false, run_value base val (take n dcs), ext') ∧
       ex_at ext' (drop (n - 1) dcs ++ rest) ∧ ex_count ext' = 0%Z).
Proof.
  intros Hb. revert val c0 cs0 dcs ext n.
  induction fuel as [|fuel IH]; intros val c0 cs0 dcs ext n Hval Hcs Hat Hrun Hn Hn0 Hf Hmax; [lia|].
  cbn [read_digits]. destruct dcs as [|c dcs].
  - cbn in Hcs. subst rest. rewrite decide_False by (pose proof (dr_rest _ _ _ Hrun c0 cs0 eq_refl); lia).
    exists ext. left. split_and!; [cbn; lia|done|done|lia].
  - injection Hcs as <- ->. pose proof (Hfv0 c0). destruct Hrun as [Hd Hr]. apply Forall_cons in Hd as [Hd0 Hd].
    rewrite decide_True by done. destruct n as [|n]; [lia|]. cbn [take run_value foldl] in Hmax.
    fold (run_value base (val * base + fv c0) (take n dcs)) in Hmax.
    pose proof (run_value_mono base (val * base + fv c0) (take n dcs) ltac:(lia) ltac:(nia)) as Hm.
    assert (Hwrap : wrapu w (val * base + fv c0) = (val * base + fv c0)%Z) by (apply Z.mod_small; nia).
    rewrite Hwrap. unfold get_next_counted. cbn [ex_count ex_begin]. rewrite Hn.
    destruct (decide (Z.of_nat (S n) - 1 = 0)%Z) as [Hz|Hz].
    + assert (n = 0) as -> by lia. eexists. right. cbn [mbind outcome_bind]. split_and!; [cbn; lia|done|done|].
      cbn [ex_count]. lia.
    + destruct (get_next_spec (Extractor (Z.of_nat (S n) - 1) (ex_begin ext)) c0 (dcs ++ rest) Hat) as (ext1 & -> & Hat1 & Hc1).
      cbn [mbind outcome_bind]. cbn [ex_count] in Hc1. destruct (dcs ++ rest) as [|c1 cs1] eqn:E; cbn [head fmap option_fmap option_map].
      * apply app_nil in E as [-> ->]. exists ext1. left. split_and!; [cbn; lia|done|done|lia].
      * destruct (IH (val * base + fv c0)%Z c1 cs1 dcs ext1 n) as (ext2 & Hcase);
          [nia|done|done|by split|lia|lia|cbn in Hf; lia|done|].
        exists ext2. destruct Hcase as [(Hlt & Hrun & Hat2 & Hc2)|(Hge & Hrun & Hat2 & Hc2)].
        -- left. split_and!; [cbn; lia|exact Hrun|done|done].
        -- right. split_and!; [cbn; lia|exact Hrun| |done]. destruct n as [|n]; [lia|].
           cbn in Hat2 |- *. by rewrite Nat.sub_0_r in Hat2.
Qed.

Lemma skip_digits_spec fuel base c0 dcs rest ext :
  ex_at ext (c0 :: dcs ++ rest) → digit_run base dcs rest → length dcs < fuel →
  ∃ ext', skip_digits k fuel base ext = Ret ext' ∧ ex_at ext' rest.
Proof.
  revert c0 dcs ext. induction fuel as [|fuel IH]; intros c0 dcs ext Hat Hrun Hf; [lia|]. cbn [skip_digits].
  destruct (get_next_spec ext c0 (dcs ++ rest) Hat) as (ext1 & -> & Hat1 & _). cbn [mbind outcome_bind].
  destruct Hrun as [Hd Hr]. destruct dcs as [|c dcs].
  - destruct rest as [|c r]; cbn in *; [by exists ext1|]. rewrite decide_False by (pose proof (Hr c r eq_refl); lia). by exists ext1.
  - apply Forall_cons in Hd as [Hc Hd]. cbn. rewrite decide_True by done.
    apply (IH c dcs ext1); [done|by split|cbn in Hf; lia].
Qed.

(** The result of a number: its value when it is good, otherwise the maximum. *)
Definition int_result (ok : bool) (val : Z) rest (negative : bool) (r : gi_result I) : Prop :=
  gi_ok r = ok ∧ gi_err r = (if rest then eofbit else goodbit) ∧
  gi_val r = (if ok then val else ul_max w) ∧ gi_negative r = negative ∧ ex_at (gi_ext r) rest.
Definition int_outcome (base : Z) (n : nat) dcs rest (negative : bool) (r : gi_result I) : Prop :=
  int_result (bool_decide (length dcs ≤ n ∧ (run_value base 0 dcs ≤ ul_max w)%Z)) (run_value base 0 dcs) rest negative r.

Lemma eof_check_spec ok val negative ext rest :
  ex_at ext rest → (ok = false → val = ul_max w) →
  ∃ r, eof_check k ok val negative ext = Ret r ∧ int_result ok val rest negative r.
Proof.
  intros Hat Hval. unfold eof_check. destruct (get_current_spec ext rest Hat) as (ext' & -> & Hat' & _). cbn.
  eexists. split; [done|]. unfold int_result. cbn. split_and!; [done|by destruct rest| |done|done].
  destruct ok; auto.
Qed.

Lemma get_overflow_spec fuel base val c0 dcs rest ext negative :
  ex_at ext (c0 :: dcs ++ rest) → digit_run base dcs rest → length dcs < fuel →
  ∃ r, get_overflow k w fuel base negative ext = Ret r ∧ int_result false val rest negative r.
Proof.
  intros Hat Hrun Hf. unfold get_overflow. destruct (skip_digits_spec fuel base c0 dcs rest ext Hat Hrun Hf) as (ext1 & -> & Hat1).
  cbn [mbind outcome_bind]. destruct (eof_check_spec false (ul_max w) negative ext1 rest Hat1) as (r & ? & ?); [done|]. by exists r.
Qed.

Lemma fits_iff base val d :
  (2 ≤ base)%Z → (0 ≤ val)%Z → (0 ≤ d)%Z →
  (val ≤ ul_max w `div` base ∧ d ≤ ul_max w - wrapu w (val * base) ↔ val * base + d ≤ ul_max w)%Z.
Proof.
  intros Hb Hv Hd. split.
  - intros [H1 H2]. assert (val * base ≤ ul_max w)%Z.
    { pose proof (Z.mul_div_le (ul_max w) base ltac:(lia)). nia. }
    unfold wrapu in H2. rewrite Z.mod_small in H2; [lia|unfold ul_max in *; nia].
  - intros Hle. assert (Hm : (0 ≤ val * base < 2 ^ w)%Z) by (unfold ul_max in *; nia). split.
    + apply Z.div_le_lower_bound; [lia|nia].
    + unfold wrapu. rewrite Z.mod_small by done. lia.
Qed.

(** After a digit: the number ends here, or there are more digits. *)
Lemma last_digit_spec fuel base val c1 ds1 rest ext negative total :
  (2 ≤ base)%Z → (0 ≤ val)%Z → ex_at ext (c1 :: ds1 ++ rest) → digit_run base ds1 rest → length ds1 < fuel →
  (ds1 = [] → total = val * base + fv c1)%Z →
  ∃ r, last_digit k w fuel base val (fv c1) negative ext = Ret r ∧
    int_result (bool_decide (ds1 = [] ∧ (val * base + fv c1 ≤ ul_max w)%Z)) total rest negative r.
Proof.
  intros Hb Hval Hat Hrun Hf Htot. unfold last_digit. pose proof (Hfv0 c1) as Hc0. pose proof (fits_iff base val (fv c1) Hb Hval Hc0) as Hfits.
  case_decide as Hc; [|rewrite bool_decide_false by tauto; by eapply get_overflow_spec].
  apply Hfits in Hc. unfold ul_max in Hc.
  assert (Hw1 : wrapu w (val * base) = (val * base)%Z) by (apply Z.mod_small; nia).
  assert (Hw2 : wrapu w (val * base + fv c1) = (val * base + fv c1)%Z) by (apply Z.mod_small; nia).
  rewrite Hw1, Hw2. destruct (get_next_spec ext c1 (ds1 ++ rest) Hat) as (ext1 & -> & Hat1 & _). cbn [mbind outcome_bind].
  destruct Hrun as [Hd Hr]. destruct ds1 as [|c2 ds2]; cbn [app] in Hat1 |- *.
  - rewrite bool_decide_true by (unfold ul_max; split; [done|lia]). rewrite Htot by done.
    destruct rest as [|c2 r]; cbn [head fmap option_fmap option_map]; [by apply eof_check_spec|].
    rewrite decide_False by (pose proof (Hr c2 r eq_refl); lia). by apply eof_check_spec.
  - apply Forall_cons in Hd as [Hd2 Hd]. cbn [head fmap option_fmap option_map]. rewrite decide_True by done.
    rewrite bool_decide_false by (intros [? _]; done). eapply get_overflow_spec; [done|by split|cbn in Hf; lia].
Qed.

(** All digits but one have been read, or [n] of them. *)
Lemma overflow_check_spec fuel base n dcs rest ext negative :
  (2 ≤ base)%Z → ex_count ext = 0%Z → 0 < n → n ≤ length dcs → digit_run base dcs rest →
  ex_at ext (drop (n - 1) dcs ++ rest) → (base ^ Z.of_nat n ≤ 2 ^ w)%Z → length dcs < fuel →
  ∃ r, overflow_check k w fuel base (run_value base 0 (take n dcs)) negative ext = Ret r ∧
    int_outcome base (S n) dcs rest negative r.
Proof.
  intros Hb Hz Hn Hl [Hd Hr] Hat Hpow Hf. unfold overflow_check. rewrite decide_True by done.
  destruct (lookup_lt_is_Some_2 dcs (n - 1)) as [c0 Hc0]; [lia|].
  pose proof (run_value_bound base (take n dcs) ltac:(lia) (Forall_take _ _ _ Hd)) as Hvb.
  rewrite length_take_le in Hvb by done.
  pose proof (run_value_mono base 0 (take n dcs) ltac:(lia) ltac:(lia)) as Hval0.
  assert (Hsplit : run_value base 0 dcs = run_value base (run_value base 0 (take n dcs)) (drop n dcs)).
  { by rewrite <-run_value_app, take_drop. }
  set (val := run_value base 0 (take n dcs)) in *.
  rewrite (drop_S _ _ _ Hc0) in Hat. replace (S (n - 1)) with n in Hat by lia.
  destruct (get_next_spec ext c0 (drop n dcs ++ rest) Hat) as (ext1 & -> & Hat1 & _). cbn [mbind outcome_bind].
  assert (Hlen : length (drop n dcs) = length dcs - n) by apply length_drop.
  assert (Hdn : Forall (λ c, (fv c < base)%Z) (drop n dcs)) by (by apply Forall_drop).
  unfold int_outcome. destruct (drop n dcs) as [|c1 ds1]; cbn [app] in Hat1 |- *; cbn in Hlen.
  - cbn in Hsplit. rewrite Hsplit. rewrite bool_decide_true by (unfold ul_max; lia).
    destruct rest as [|c1 r]; cbn [head fmap option_fmap option_map]; [by apply eof_check_spec|].
    rewrite decide_False by (pose proof (Hr c1 r eq_refl); lia). by apply eof_check_spec.
  - apply Forall_cons in Hdn as [Hc1 Hdn]. cbn [head fmap option_fmap option_map]. rewrite decide_True by done.
    cbn [run_value foldl] in Hsplit. fold (run_value base (val * base + fv c1) ds1) in Hsplit.
    destruct (last_digit_spec fuel base val c1 ds1 rest ext1 negative (run_value base 0 dcs)) as (r & Hrun & Hres);
      [done|done|done|by split|lia|by intros ->|].
    exists r. split; [exact Hrun|]. rewrite (bool_decide_ext _ (ds1 = [] ∧ (val * base + fv c1 ≤ ul_max w)%Z)); [done|].
    destruct ds1; cbn in Hlen, Hsplit |- *; [rewrite Hsplit; split; intros []; (split; [done || lia|lia])|].
    split; [intros []; lia|intros []; done].
Qed.

(** ** The number *)
Lemma get_digits_spec fuel base n dcs rest c0 cs0 ext negative :
  (2 ≤ base)%Z → (0 < w)%Z → digit_count w base = Z.of_nat n → 0 < n → (base ^ Z.of_nat n ≤ 2 ^ w)%Z →
  c0 :: cs0 = dcs ++ rest → digit_run base dcs rest → ex_at ext (c0 :: cs0) → length dcs < fuel →
  ∃ r, get_digits k w fuel base (fv c0) negative ext = Ret r ∧ int_outcome base (S n) dcs rest negative r.
Proof.
  intros Hb Hw Hn Hn0 Hpow Hcs Hrun Hat Hf. unfold get_digits. rewrite Hn. pose proof Hrun as [Hd Hr].
  assert (Htake : (run_value base 0 (take n dcs) < 2 ^ w)%Z).
  { eapply Z.lt_le_trans; [apply run_value_bound; [lia|by apply Forall_take]|]. etrans; [|exact Hpow].
    apply Z.pow_le_mono_r; [lia|]. rewrite length_take. lia. }
  destruct (read_digits_spec fuel base 0 c0 cs0 dcs rest (init_count (Z.of_nat n) ext) n) as (ext1 & Hcase); try done.
  destruct Hcase as [(Hlt & -> & Hat1 & Hc1)|(Hge & -> & Hat1 & Hc1)]; cbn [mbind outcome_bind].
  - assert (Hok : bool_decide (length dcs ≤ S n ∧ (run_value base 0 dcs ≤ ul_max w)%Z) = true).
    { apply bool_decide_true. split; [lia|]. rewrite take_ge in Htake by lia. unfold ul_max. lia. }
    unfold int_outcome. rewrite Hok. destruct rest as [|c r]; cbn [bool_decide].
    + unfold overflow_check. rewrite decide_False by done. rewrite bool_decide_false by congruence. by apply eof_check_spec.
    + rewrite bool_decide_true by done. by eexists.
  - apply overflow_check_spec; (done || lia).
Qed.

Lemma run_value_zeros base zs dcs : Forall (λ c, fv c = 0%Z) zs → run_value base 0 (zs ++ dcs) = run_value base 0 dcs.
Proof.
  induction zs as [|z zs IH]; intros Hz; [done|]. apply Forall_cons in Hz as [Hz Hzs]. specialize (IH Hzs).
  cbn [app run_value foldl]. rewrite Hz. exact IH.
Qed.

(** The bases, with the number of digits which are read without a check. *)
Definition base_ok (base : Z) (n : nat) : Prop :=
  (2 ≤ base)%Z ∧ 0 < n ∧ digit_count w base = Z.of_nat n ∧ (base ^ Z.of_nat n ≤ 2 ^ w)%Z.

Context (Hw : (0 < w)%Z).

(** The digits [dcs] follow leading zeros. *)
Lemma get_zeros_spec fuel base n zs dcs rest c0 cs0 ext negative :
  base_ok base n → Forall (λ c, fv c = 0%Z) zs → digit_run base dcs rest →
  (∀ c r, dcs ++ rest = c :: r → fv c ≠ 0%Z) →
  c0 :: cs0 = zs ++ dcs ++ rest → ex_at ext (c0 :: cs0) → S (length (zs ++ dcs)) < fuel →
  ∃ r, get_zeros k w fuel base (fv c0) negative ext = Ret r ∧ int_outcome base (S n) dcs rest negative r.
Proof.
  intros Hbase Hzs Hrun Hnz. pose proof Hbase as (Hb & Hn0 & Hn & Hpow). revert zs c0 cs0 ext Hzs.
  induction fuel as [|fuel IH]; intros zs c0 cs0 ext Hzs Hcs Hat Hf; [lia|]. cbn [get_zeros].
  destruct zs as [|z zs].
  - rewrite decide_False by (by eapply Hnz). eapply get_digits_spec; try done. cbn in Hf. lia.
  - apply Forall_cons in Hzs as [Hz Hzs]. injection Hcs as <- ->. rewrite decide_True by done.
    destruct (get_next_spec ext c0 (zs ++ dcs ++ rest) Hat) as (ext1 & -> & Hat1 & _). cbn [mbind outcome_bind].
    destruct (zs ++ dcs ++ rest) as [|c1 cs1] eqn:E; cbn [head fmap option_fmap option_map].
    + apply app_nil in E as [-> [-> ->]%app_nil]. eexists. split; [done|]. unfold int_outcome, int_result.
      rewrite bool_decide_true; [done|]. cbn. unfold ul_max. assert (0 < 2 ^ w)%Z by (apply Z.pow_pos_nonneg; lia). lia.
    + apply (IH zs c1 cs1 ext1); [done|done|done|]. cbn in Hf. lia.
Qed.

(** What can be in front of the digits: the base [b] of the flags and the
    characters give the base in which the number is read. *)
Inductive int_prefix (b : Z) : list Z → Z → list Z → Prop :=
  | ip_hex c0 cx cs : (16 ≤ b)%Z → fv c0 = 0%Z → fv cx = c_hex → (∀ c r, cs = c :: r → (fv c ≤ 16)%Z) →
      int_prefix b (c0 :: cx :: cs) 16 cs
  | ip_oct c0 cs : b = 17%Z → fv c0 = 0%Z → (∀ c r, cs = c :: r → fv c ≠ c_hex) → int_prefix b (c0 :: cs) 8 (c0 :: cs)
  | ip_dec c cs : b = 17%Z → (0 < fv c < 10)%Z → int_prefix b (c :: cs) 10 (c :: cs)
  | ip_base c cs : b ≠ 17%Z → (fv c < b)%Z →
      (b = 16%Z → fv c = 0%Z → ∀ c' r, cs = c' :: r → fv c' ≠ c_hex) → int_prefix b (c :: cs) b (c :: cs).

(** The digits of a number: zeros, others, and what is no digit. *)
Record int_digits (base : Z) cs zs dcs rest : Prop := IntDigits {
  id_split : cs = zs ++ dcs ++ rest;
  id_zeros : Forall (λ c, fv c = 0%Z) zs;
  id_run : digit_run base dcs rest;
  id_nonzero c r : dcs ++ rest = c :: r → fv c ≠ 0%Z;
}.

Lemma int_digits_tail base c cs zs dcs rest :
  int_digits base (c :: cs) zs dcs rest → fv c = 0%Z →
  ∃ zs', zs = c :: zs' ∧ int_digits base cs zs' dcs rest.
Proof.
  intros [Hs Hz Hr Hn] Hc. destruct zs as [|z zs]; [by destruct (Hn c cs)|].
  injection Hs as <- Hs. apply Forall_cons in Hz as [_ Hz]. by exists zs.
Qed.

(** [get_zeros] on what follows a character. *)
Lemma zeros_next fuel base n cs zs dcs rest ext negative :
  base_ok base n → int_digits base cs zs dcs rest → ex_at ext cs → S (length (zs ++ dcs)) < fuel →
  ∃ r, match fv <$> head cs with
       | None => Ret (GiResult true eofbit 0 negative ext)
       | Some cval => get_zeros k w fuel base cval negative ext
       end = Ret r ∧ int_outcome base (S n) dcs rest negative r.
Proof.
  intros Hbase [Hs Hz Hr Hn] Hat Hf. destruct cs as [|c cs]; cbn [head fmap option_fmap option_map].
  - symmetry in Hs. apply app_nil in Hs as [-> [-> ->]%app_nil]. eexists. split; [done|]. unfold int_outcome, int_result.
    rewrite bool_decide_true; [done|]. cbn. unfold ul_max. assert (0 < 2 ^ w)%Z by (apply Z.pow_pos_nonneg; lia). lia.
  - by eapply get_zeros_spec.
Qed.

Lemma get_prefix_spec fuel fmt base n cs body zs dcs rest c0 cs0 ext negative :
  int_prefix (get_base fmt) cs base body → base_ok base n → int_digits base body zs dcs rest →
  cs = c0 :: cs0 → ex_at ext cs → S (S (length (zs ++ dcs))) < fuel →
  ∃ r, get_prefix k w fuel fmt (fv c0) negative ext = Ret r ∧ int_outcome base (S n) dcs rest negative r.
Proof.
  intros Hp Hbase Hd -> Hat Hf. unfold get_prefix.
  inversion Hp as [c0' cx cs' Hb Hc0 Hcx Hnext E1 E2 E3|c0' cs' Hb Hc0 Hnext E1 E2 E3|c' cs' Hb Hc E1 E2 E3|c' cs' Hb Hc Hnext E1 E2 E3];
    subst.
  - rewrite Hc0, decide_True by done.
    destruct (get_next_spec ext c0 (cx :: body) Hat) as (ext1 & -> & Hat1 & _). cbn [mbind outcome_bind head fmap option_fmap option_map].
    rewrite decide_True by done. rewrite Hcx, decide_True by done.
    destruct (get_next_spec ext1 cx body Hat1) as (ext2 & -> & Hat2 & _). cbn [mbind outcome_bind].
    destruct (zeros_next fuel 16 n body zs dcs rest ext2 negative) as (r & Hr & Ho); [done|done|done|lia|].
    exists r. split; [|done]. destruct body as [|c body]; cbn [head fmap option_fmap option_map] in Hr |- *; [done|].
    by rewrite decide_False by (pose proof (Hnext c body eq_refl); lia).
  - rewrite Hc0, decide_True by done. destruct (int_digits_tail _ _ _ _ _ _ Hd Hc0) as (zs' & -> & Hd').
    destruct (get_next_spec ext c0 cs0 Hat) as (ext1 & -> & Hat1 & _). cbn [mbind outcome_bind].
    destruct (zeros_next fuel 8 n cs0 zs' dcs rest ext1 negative) as (r & Hr & Ho); [done|done|done|cbn in Hf; lia|].
    exists r. split; [|done]. destruct cs0 as [|c cs0]; cbn [head fmap option_fmap option_map] in Hr |- *; [done|].
    rewrite Hb, decide_True by done. by rewrite decide_False, decide_True by (done || by eapply Hnext).
  - rewrite decide_False by lia. rewrite Hb, (decide_True (P := 17%Z = 17%Z)), decide_False by (done || lia).
    destruct Hd as [Hs Hz Hr Hn]. eapply get_zeros_spec; try done. cbn in Hf |- *. lia.
  - destruct (decide (fv c0 = 0%Z)) as [Hz|Hz].
    + destruct (int_digits_tail _ _ _ _ _ _ Hd Hz) as (zs' & -> & Hd').
      destruct (get_next_spec ext c0 cs0 Hat) as (ext1 & -> & Hat1 & _). cbn [mbind outcome_bind].
      destruct (zeros_next fuel (get_base fmt) n cs0 zs' dcs rest ext1 negative) as (r & Hr & Ho);
        [done|done|done|cbn in Hf |- *; lia|].
      exists r. split; [|done]. destruct cs0 as [|c cs0]; cbn [head fmap option_fmap option_map] in Hr |- *; [done|].
      case_decide as H16; [|done]. assert (get_base fmt = 16%Z) as Hb16.
      { revert H16 Hb. unfold get_base. repeat case_decide; lia. }
      rewrite decide_False by (by eapply Hnext). by rewrite decide_False.
    + rewrite (decide_False (P := get_base fmt = 17%Z)) by done.
      rewrite decide_False by lia.
      destruct Hd as [Hs Hzs Hr Hn]. eapply get_zeros_spec; try done. cbn in Hf |- *. lia.
Qed.

(** An optional sign. *)
Inductive int_sign : list Z → bool → list Z → Prop :=
  | is_plain c cs : fv c ≠ c_minus → fv c ≠ c_plus → int_sign (c :: cs) false (c :: cs)
  | is_plus c cs : fv c = c_plus → int_sign (c :: cs) false cs
  | is_minus c cs : fv c = c_minus → int_sign (c :: cs) true cs.

Lemma int_prefix_cons b cs base body : int_prefix b cs base body → ∃ c cs', cs = c :: cs'.
Proof. inversion 1; by eexists _, _. Qed.

(** The number in the characters [text] is read up to [rest]. *)
Lemma get_integer_spec fuel fmt base n text negative cs body zs dcs rest ext :
  int_sign text negative cs → int_prefix (get_base fmt) cs base body → int_digits base body zs dcs rest →
  base_ok base n → ex_at ext text → S (S (length (zs ++ dcs))) < fuel →
  ∃ r, get_integer k w fuel fmt ext = Ret r ∧ int_outcome base (S n) dcs rest negative r.
Proof.
  intros Hsign Hp Hd Hbase Hat Hf. unfold get_integer.
  destruct (get_current_spec ext text Hat) as (ext1 & -> & Hat1 & _). cbn [mbind outcome_bind].
  destruct (int_prefix_cons _ _ _ _ Hp) as (c1 & cs1 & Hcs).
  inversion Hsign as [c cs' Hm Hpl E1 E2 E3|c cs' Hpl E1 E2 E3|c cs' Hm E1 E2 E3]; subst;
    cbn [head fmap option_fmap option_map].
  - rewrite decide_False by tauto. rewrite bool_decide_false by done. simplify_eq. by eapply get_prefix_spec.
  - rewrite decide_True by tauto. rewrite bool_decide_false by (rewrite Hpl; done).
    destruct (get_next_spec ext1 c (c1 :: cs1) Hat1) as (ext2 & -> & Hat2 & _). cbn [mbind outcome_bind head fmap option_fmap option_map].
    by eapply get_prefix_spec.
  - rewrite decide_True by tauto. rewrite bool_decide_true by done.
    destruct (get_next_spec ext1 c (c1 :: cs1) Hat1) as (ext2 & -> & Hat2 & _). cbn [mbind outcome_bind head fmap option_fmap option_map].
    by eapply get_prefix_spec.
Qed.
End spec.
