(* ===== verification/NumRound.v ===== *)
(** * Formatting and scanning

    What num_get (NumGet) reads of what num_put (NumPut) wrote: the characters of
    a number, in any of the bases, with or without a prefix, read back as the
    number - or as the greatest one, when num_get's overflow check is wrong.
    The characters of the locale's tables have to be different. *)
From S2P Require Import Prelude LocaleCache NumPut NumGet.

Section scan_values.
Context (widen : Z → Z) (np : numpunct) (k : locale_cache).
Context (Hk : cache_for widen np k) (Hnd : NoDup (scan_chars widen np)).

Definition char_value (c : Z) : Z := default c_none (cache_find k c).

Lemma char_value_find c : cache_find k c = Some (char_value c).
Proof.
  unfold char_value. destruct (decide (c ∈ scan_chars widen np)) as [Hin|Hout].
  - by destruct (cf_find_in _ _ _ Hk c Hin) as (i & v & _ & _ & ->).
  - by rewrite (cf_find_out _ _ _ Hk c Hout).
Qed.

Lemma char_value_scan i c v : scan_chars widen np !! i = Some c → cache_ivals !! i = Some v → char_value c = v.
Proof.
  intros Hi Hv. assert (Hin : c ∈ scan_chars widen np) by (by eapply list_elem_of_lookup_2).
  destruct (cf_find_in _ _ _ Hk c Hin) as (j & v' & Hj & Hv' & Hf). unfold char_value. rewrite Hf. cbn.
  assert (i = j) as -> by (eapply NoDup_lookup; eauto). congruence.
Qed.

Lemma char_value_range c : (0 ≤ char_value c ≤ 22)%Z.
Proof.
  unfold char_value. destruct (decide (c ∈ scan_chars widen np)) as [Hin|Hout].
  - destruct (cf_find_in _ _ _ Hk c Hin) as (i & v & _ & Hv & ->). cbn.
    assert (Hall : Forall (λ v, (0 ≤ v ≤ 22)%Z) cache_ivals) by (repeat constructor; done).
    by apply (Forall_lookup_1 _ _ _ _ Hall Hv).
  - rewrite (cf_find_out _ _ _ Hk c Hout). done.
Qed.

(** The tables of num_put. *)
Definition put_table (upper : bool) : list Z := out_table widen np (if upper then cache_ut else cache_lt).

(** Where the character of an entry of such a table is in the scan table. *)
Definition scan_index (upper : bool) (i : nat) : nat :=
  if decide (i < 10) then i
  else if decide (i < 16) then if upper then i + 6 else i
  else if decide (i = 19) then if upper then 25 else 24 else i + 6.

Lemma put_table_value upper i :
  i < 18 ∨ i = 19 →
  char_value (default 0%Z (put_table upper !! i)) = if decide (i = 19) then c_hex else Z.of_nat i.
Proof.
  intros Hi. apply (char_value_scan (scan_index upper i)).
  - destruct upper; do 20 (destruct i as [|i]; [done || lia|]); lia.
  - destruct upper; do 20 (destruct i as [|i]; [done || lia|]); lia.
Qed.

(** *** Texts *)
Implicit Types (ds : list nat) (rest : list Z).

Lemma digit_chars upper base ds :
  (base ≤ 16)%Z → Forall (λ d, (Z.of_nat d < base)%Z) ds →
  Forall (λ c, (char_value c < base)%Z) (cvt_all (put_table upper) ds) ∧
  ∀ val, run_value char_value base val (cvt_all (put_table upper) ds) =
    foldl (λ v d, v * base + Z.of_nat d)%Z val ds.
Proof.
  intros Hb. induction 1 as [|d ds Hd Hds [IH1 IH2]]; [by split|].
  assert (Hv : char_value (default 0%Z (put_table upper !! d)) = Z.of_nat d).
  { rewrite put_table_value by lia. by rewrite decide_False by lia. }
  split.
  - constructor; [by rewrite Hv|done].
  - intros val. cbn [cvt_all fmap list_fmap run_value foldl]. rewrite Hv. apply IH2.
Qed.

Lemma digits_value_rev base ds : foldl (λ v d, v * base + Z.of_nat d)%Z 0%Z (rev ds) = digits_value base ds.
Proof.
  unfold digits_value. rewrite <-(rev_involutive ds) at 2. generalize (rev ds). clear ds. intros ds.
  induction ds as [|d ds IH] using rev_ind; [done|]. rewrite rev_app_distr, foldl_app. cbn. rewrite IH. lia.
Qed.

(** Nothing that would go on with the number. *)
Definition rest_ok (base : Z) rest : Prop :=
  ∀ c r, rest = c :: r → (base ≤ char_value c)%Z ∧ char_value c ≠ c_hex.

(** The digits of [v], as they are read: zeros and the digits [dcs]. *)
Lemma shown_int_digits upper base v ds rest :
  (2 ≤ base ≤ 16)%Z → digits_of base v ds → rest_ok base rest →
  ∃ zs dcs,
    int_digits char_value base (cvt_all (put_table upper) (shown_digits [] ds) ++ rest) zs dcs rest ∧
    length zs ≤ 1 ∧ length dcs = length ds ∧ run_value char_value base 0 dcs = v.
Proof.
  intros Hb [Hv Hd Hl] Hr.
  assert (Hrest : ∀ c r, rest = c :: r → (base ≤ char_value c)%Z) by (intros c r E; by apply (Hr c r)).
  destruct ds as [|d ds].
  - cbn in Hv. subst v. exists (cvt_all (put_table upper) [0]), []. split_and!; [|done|done|done]. split.
    + done.
    + constructor; [|done]. apply (put_table_value upper 0). lia.
    + by split.
    + intros c r E. pose proof (Hrest c r E). lia.
  - assert (Hd' : Forall (λ d, (Z.of_nat d < base)%Z) (rev (d :: ds))) by (by apply Forall_rev).
    destruct (digit_chars upper base (rev (d :: ds)) ltac:(lia) Hd') as [Hcd Hcv].
    exists [], (cvt_all (put_table upper) (rev (d :: ds))). split_and!.
    + split; [done|done|by split|]. intros c r. specialize (Hl ltac:(done)).
      destruct (last (d :: ds)) as [l|] eqn:El; [|apply last_None in El; done].
      apply last_Some in El as [l' El]. rewrite El, rev_app_distr. cbn. intros [= <- _].
      rewrite put_table_value; [|left; rewrite El in Hd; apply Forall_app in Hd as [_ Hd]; apply Forall_cons in Hd as [Hd _]; lia].
      assert (l ≠ 0) by congruence. case_decide; [done|lia].
    + cbn. lia.
    + unfold cvt_all. by rewrite length_fmap, length_rev.
    + rewrite Hcv. by rewrite digits_value_rev.
Qed.

(** The first digit. *)
Lemma shown_digits_head base v ds :
  digits_of base v ds → (0 < base)%Z →
  ∃ h t, shown_digits [] ds = h :: t ∧ (Z.of_nat h < base)%Z ∧ (h = 0 ↔ ds = []) ∧ (ds = [] → t = []).
Proof.
  intros [Hv Hd Hl] Hb. destruct ds as [|d ds]; [by exists 0, []|]. specialize (Hl ltac:(done)).
  destruct (last (d :: ds)) as [l|] eqn:El; [|apply last_None in El; done]. apply last_Some in El as [l' El].
  exists l, (rev l'). cbn [shown_digits grouped_ref]. rewrite El in Hd |- *. rewrite rev_app_distr. cbn. split_and!; [done| | |].
  - apply Forall_app in Hd as [_ Hd]. by apply Forall_cons in Hd as [Hd _].
  - split; [intros ->; done|]. intros E. by apply app_nil in E as [_ ?].
  - intros E. by apply app_nil in E as [_ ?].
Qed.

(** A number written with the flags [fmt] is read with the base [b] of other flags. *)
Definition readable (base b fmt : Z) : Prop :=
  b = base ∨ (b = 17%Z ∧ (base = 10%Z ∨ flag_set fmt fl_showbase = true)).

Lemma digits_prefix upper base b ds v rest :
  (base = 8 ∨ base = 10 ∨ base = 16)%Z → digits_of base v ds → rest_ok base rest →
  b = base ∨ (b = 17%Z ∧ base = 10%Z) ∨ (b = 17%Z ∧ ds = []) →
  let text := cvt_all (put_table upper) (shown_digits [] ds) ++ rest in
  ∃ base' body zs dcs, int_prefix char_value b text base' body ∧ int_digits char_value base' body zs dcs rest ∧
    length zs ≤ 2 ∧ length dcs = length ds ∧ run_value char_value base' 0 dcs = v ∧
    (base' = base ∨ (base' = 8%Z ∧ ds = [])).
Proof.
  intros Hbase Hds Hr Hb text.
  destruct (shown_int_digits upper base v ds rest ltac:(lia) Hds Hr) as (zs & dcs & Hid & Hz & Hl & Hv). fold text in Hid.
  destruct (shown_digits_head base v ds Hds ltac:(lia)) as (h & t & Hsh & Hh & Hh0 & Ht).
  assert (Htext : text = default 0%Z (put_table upper !! h) :: cvt_all (put_table upper) t ++ rest) by (unfold text; by rewrite Hsh).
  assert (Hc : char_value (default 0%Z (put_table upper !! h)) = Z.of_nat h).
  { rewrite put_table_value by lia. by rewrite decide_False by lia. }
  assert (Hnext : ds = [] → ∀ c r, cvt_all (put_table upper) t ++ rest = c :: r → char_value c ≠ c_hex).
  { intros E c r. rewrite (Ht E). intros E'. by apply (Hr c r). }
  destruct (decide (b = base)) as [->|Hne].
  - exists base, text, zs, dcs. split_and!; [|done|lia|done|done|by left]. rewrite Htext. apply ip_base; [lia|lia|].
    intros _ H0. apply Hnext, Hh0. lia.
  - assert (b = 17%Z ∧ (base = 10%Z ∨ ds = [])) as [-> Hcase] by tauto. destruct (decide (ds = [])) as [E|E].
    + destruct (shown_int_digits upper 8 v ds rest) as (zs' & dcs' & Hid' & Hz' & Hl' & Hv'); [lia| | |].
      { subst ds. destruct Hds as [Hds _ _]. by split. }
      { intros c r Ec. destruct (Hr c r Ec). split; [lia|done]. }
      exists 8%Z, text, zs', dcs'. split_and!; [|done|lia|done|done|by right]. rewrite Htext. apply ip_oct; [done| |by apply Hnext].
      rewrite Hc. assert (h = 0) by (by apply Hh0). lia.
    + assert (base = 10%Z) as -> by tauto. exists 10%Z, text, zs, dcs. split_and!; [|done|lia|done|done|by left].
      rewrite Htext. apply ip_dec; [done|]. rewrite Hc. assert (h ≠ 0) by (by rewrite Hh0). lia.
Qed.

(** [text] is a sign, a prefix and the digits of [v], which [rest] follows. *)
Definition reads (b base v : Z) ds (negative : bool) (text rest : list Z) : Prop :=
  ∃ cs base' body zs dcs, int_sign char_value text negative cs ∧ int_prefix char_value b cs base' body ∧
    int_digits char_value base' body zs dcs rest ∧ length zs ≤ 2 ∧ length dcs = length ds ∧
    run_value char_value base' 0 dcs = v ∧ (base' = base ∨ (base' = 8%Z ∧ ds = [])).

Section reads.
Context (upper : bool) (base v : Z) (ds : list nat) (rest : list Z).
Context (Hbase : (base = 8 ∨ base = 10 ∨ base = 16)%Z) (Hds : digits_of base v ds) (Hr : rest_ok base rest).
Notation tbl i := (default 0%Z (put_table upper !! i)).
Notation D := (cvt_all (put_table upper) (shown_digits [] ds)).

Lemma tbl_digit i : i < 16 → char_value (tbl i) = Z.of_nat i.
Proof. intros Hi. rewrite put_table_value by lia. by rewrite decide_False by lia. Qed.

Lemma is_digit c cs : (char_value c < 16)%Z → int_sign char_value (c :: cs) false (c :: cs).
Proof. intros Hc. apply is_plain; unfold c_minus, c_plus; lia. Qed.

Lemma D_head : ∃ h cs, D = tbl h :: cs ∧ (Z.of_nat h < base)%Z.
Proof.
  destruct (shown_digits_head base v ds Hds ltac:(lia)) as (h & t & Hsh & Hh & _).
  exists h, (cvt_all (put_table upper) t). by rewrite Hsh.
Qed.

Lemma reads_plain b :
  b = base ∨ (b = 17%Z ∧ base = 10%Z) ∨ (b = 17%Z ∧ ds = []) → reads b base v ds false (D ++ rest) rest.
Proof.
  intros Hb. destruct (digits_prefix upper base b ds v rest Hbase Hds Hr Hb) as (base' & body & zs & dcs & Hp & Hrest).
  exists (D ++ rest), base', body, zs, dcs. split_and!; [|exact Hp|apply Hrest..].
  destruct D_head as (h & cs & -> & Hh). apply is_digit. rewrite tbl_digit; lia.
Qed.

Lemma reads_signed b (negative : bool) :
  base = 10%Z → b = base ∨ b = 17%Z →
  reads b base v ds negative (tbl (if negative then negative_index else positive_index) :: D ++ rest) rest.
Proof.
  intros H10 Hb. destruct (digits_prefix upper base b ds v rest Hbase Hds Hr) as (base' & body & zs & dcs & Hp & Hrest); [tauto|].
  exists (D ++ rest), base', body, zs, dcs. split_and!; [|exact Hp|apply Hrest..].
  destruct negative; [apply is_minus|apply is_plus]; apply put_table_value; unfold negative_index, positive_index; lia.
Qed.

Lemma reads_oct b : base = 8%Z → b = 8%Z ∨ b = 17%Z → reads b base v ds false (tbl 0 :: D ++ rest) rest.
Proof.
  intros H8 Hb. destruct (shown_int_digits upper base v ds rest ltac:(lia) Hds Hr) as (zs & dcs & [Hs Hz Hrun Hnz] & Hlz & Hl & Hv).
  assert (H0 : char_value (tbl 0) = 0%Z) by (by apply tbl_digit; lia).
  assert (Hid : int_digits char_value 8 (tbl 0 :: D ++ rest) (tbl 0 :: zs) dcs rest).
  { rewrite H8 in Hrun. split; [by rewrite Hs|by constructor|done|done]. }
  destruct D_head as (h & cs & E & Hh).
  assert (Hnext : ∀ c r, D ++ rest = c :: r → char_value c ≠ c_hex).
  { intros c r. rewrite E. intros [= <- _]. rewrite tbl_digit by lia. unfold c_hex. lia. }
  exists (tbl 0 :: D ++ rest), 8%Z, (tbl 0 :: D ++ rest), (tbl 0 :: zs), dcs.
  split_and!; [apply is_digit; lia| |done|cbn; lia|done|by rewrite <-H8|by left].
  destruct Hb as [->| ->]; [apply ip_base; [done|lia|done]|by apply ip_oct].
Qed.

Lemma reads_hex b :
  base = 16%Z → b = 16%Z ∨ b = 17%Z → reads b base v ds false (tbl 0 :: tbl hexadecimal_index :: D ++ rest) rest.
Proof.
  intros H16 Hb. destruct (shown_int_digits upper base v ds rest ltac:(lia) Hds Hr) as (zs & dcs & Hid & Hlz & Hl & Hv).
  assert (H0 : char_value (tbl 0) = 0%Z) by (by apply tbl_digit; lia).
  destruct D_head as (h & cs & E & Hh). rewrite H16 in Hid, Hv.
  exists (tbl 0 :: tbl hexadecimal_index :: D ++ rest), 16%Z, (D ++ rest), zs, dcs.
  split_and!; [apply is_digit; lia| |done|lia|done|done|by left].
  apply ip_hex; [lia|done|apply (put_table_value upper 19); lia|].
  intros c r. rewrite E. intros [= <- _]. rewrite tbl_digit by lia. lia.
Qed.

(** What num_put writes is read. *)
Lemma reads_text b fmt value (negative : bool) :
  (value = 0 ↔ v = 0)%Z → (negative = true → base = 10%Z) → readable base b fmt →
  reads b base v ds negative (cvt_all (put_table upper) (prefix_ref base fmt value negative) ++ D ++ rest) rest.
Proof.
  intros Hvalue Hneg Hrd.
  assert (Hds0 : v = 0%Z → ds = []).
  { intros ->. destruct ds as [|d ds']; [done|].
    pose proof (digits_of_lower base 0 (d :: ds') ltac:(lia) Hds ltac:(done)).
    assert (0 < base ^ (Z.of_nat (length (d :: ds')) - 1))%Z by (apply Z.pow_pos_nonneg; cbn [length]; lia). lia. }
  unfold prefix_ref. destruct (decide (base = 10%Z)) as [H10|H10].
  - unfold sign_ref. unfold readable in Hrd. destruct negative; [apply (reads_signed b true); tauto|].
    destruct (flag_set fmt fl_showpos); [apply (reads_signed b false); tauto|apply reads_plain; tauto].
  - destruct negative; [by specialize (Hneg eq_refl)|]. destruct (flag_set fmt fl_showbase) eqn:Es.
    + case_decide as H8; [case_decide as Hz|].
      * apply reads_plain. destruct Hrd as [->|[-> _]]; [by left|]. right. right. tauto.
      * apply (reads_oct b); [done|]. destruct Hrd; [left; congruence|tauto].
      * rewrite decide_True by lia. apply (reads_hex b); [lia|]. destruct Hrd; [left; lia|tauto].
    + apply reads_plain. left. destruct Hrd as [|[_ [?|?]]]; [done|done|congruence].
Qed.
End reads.
End scan_values.

(** ** The number of digits *)
Lemma digits_of_length base v ds m :
  (2 ≤ base)%Z → digits_of base v ds → length ds ≤ m ↔ (v < base ^ Z.of_nat m)%Z.
Proof.
  intros Hb Hds. pose proof (digits_of_upper base v ds Hb Hds) as Hu. split.
  - intros Hle. eapply Z.lt_le_trans; [apply Hu|]. apply Z.pow_le_mono_r; lia.
  - intros Hlt. destruct (decide (length ds ≤ m)) as [|Hgt]; [done|].
    pose proof (digits_of_lower base v ds Hb Hds ltac:(intros ->; cbn in Hgt; lia)) as Hlo.
    assert (base ^ Z.of_nat m ≤ base ^ (Z.of_nat (length ds) - 1))%Z by (apply Z.pow_le_mono_r; lia). lia.
Qed.

(** num_get reads numbers below this limit; the greatest number is read for
    those above. *)
Definition scan_limit (w base : Z) : Z := base ^ (digit_count w base + 1).

Lemma base_ok_named w base :
  (w = 32 ∨ w = 64)%Z → (base = 8 ∨ base = 10 ∨ base = 16)%Z → ∃ n, base_ok w base n ∧ scan_limit w base = (base ^ Z.of_nat (S n))%Z.
Proof.
  intros Hw Hb. exists (Z.to_nat (digit_count w base)). unfold base_ok, scan_limit.
  destruct Hw as [->| ->], Hb as [->|[->| ->]]; vm_compute; split_and!;
    first [done|intros; discriminate|lia].
Qed.

Lemma num_base_cases fmt : base_named fmt → (num_base fmt = 8 ∨ num_base fmt = 10 ∨ num_base fmt = 16)%Z.
Proof.
  unfold base_named, num_base. rewrite !elem_of_cons, elem_of_nil.
  intros [->|[->|[->|[->|[]]]]]; vm_compute; auto.
Qed.

Section roundtrip.
Context (widen : Z → Z) (np : numpunct) (k : locale_cache) (w : Z).
Context (Hk : cache_for widen np k) (Hnd : NoDup (scan_chars widen np)) (Hgr : np_grouping np = []).
Context (Hw : (w = 32 ∨ w = 64)%Z).
Context {I : Type} `{HI : InputIteratorSpec I}.

(** The text of [val] without padding. *)
Definition plain_text (fl : Z) (val : num_val) : list Z :=
  num_text w (out_table widen np (if flag_set fl fl_uppercase then cache_ut else cache_lt)) (np_grouping np)
    (eff_flags fl val) 0 0 val.

Lemma scan_text (fuel : nat) (fl rfl : Z) (val : num_val) (rest : list Z) (ext : extractor I) :
  let f := eff_flags fl val in
  let v := shown_value w f val in
  base_named f → (num_value val = 0 ↔ v = 0)%Z → readable (num_base f) (get_base rfl) f →
  rest_ok k (num_base f) rest → ex_at ext (plain_text fl val ++ rest) → 27 ≤ fuel →
  ∃ r, get_integer k w fuel rfl ext = Ret r ∧
    int_result w (bool_decide (v < scan_limit w (num_base f))%Z) v rest (shown_negative f val) r.
Proof.
  intros f v Hbn Hval Hrd Hrest Hat Hfuel. pose proof (num_base_cases f Hbn) as Hbase.
  set (base := num_base f) in *. assert (Hv : (0 ≤ v < 2 ^ w)%Z) by (apply Z.mod_pos_bound; lia).
  set (ds := num_ldigits w base v). assert (Hds : digits_of base v ds) by (apply num_ldigits_of; lia).
  assert (Hl : length ds ≤ 22).
  { trans (max_ldigits w); [apply ldigits_length|]. apply (max_ldigits_bounds w ltac:(lia) base). lia. }
  assert (Htext : plain_text fl val ++ rest =
    cvt_all (put_table widen np (flag_set fl fl_uppercase)) (prefix_ref base f (num_value val) (shown_negative f val)) ++
    cvt_all (put_table widen np (flag_set fl fl_uppercase)) (shown_digits [] ds) ++ rest).
  { unfold plain_text, num_text. rewrite pad_text_none by lia. rewrite Hgr, <-(assoc_L (++)). done. }
  rewrite Htext in Hat.
  destruct (reads_text widen np k Hk Hnd (flag_set fl fl_uppercase) base v ds rest Hbase Hds Hrest (get_base rfl) f
    (num_value val) (shown_negative f val)) as (cs & base' & body & zs & dcs & Hs & Hp & Hd & Hlz & Hld & Hbv & Hb'); [done| |done|].
  { unfold shown_negative. intros [_ Hb]%andb_true_iff. by apply bool_decide_eq_true in Hb. }
  assert (Hbase' : (base' = 8 ∨ base' = 10 ∨ base' = 16)%Z) by (destruct Hb' as [->|[-> _]]; tauto).
  destruct (base_ok_named w base' Hw Hbase') as (n & Hok & Hlim).
  destruct (get_integer_spec k w (char_value k) (char_value_find widen np k Hk) (λ c, proj1 (char_value_range widen np k Hk c))
    ltac:(lia) fuel rfl base' n _ _ _ _ _ _ _ ext Hs Hp Hd Hok Hat) as (r & Hr & Ho).
  { rewrite length_app. lia. }
  exists r. split; [exact Hr|]. unfold int_outcome in Ho. rewrite Hbv, Hld in Ho.
  rewrite (bool_decide_ext _ (v < scan_limit w base)%Z) in Ho; [exact Ho|].
  assert (v ≤ ul_max w)%Z by (unfold ul_max; lia). destruct Hb' as [->|[-> Hnil]].
  - rewrite (digits_of_length base v ds (S n) ltac:(lia) Hds), <-Hlim. tauto.
  - assert (v = 0%Z) as Hv0 by (rewrite Hnil in Hds; by destruct Hds). rewrite Hnil, Hv0. cbn.
    assert (0 < scan_limit w base)%Z; [|split; [done|split; [lia|unfold ul_max; lia]]].
    destruct (base_ok_named w base Hw Hbase) as (m & _ & ->). apply Z.pow_pos_nonneg; lia.
Qed.

Lemma plain_text_fill fl fill val :
  num_text w (out_table widen np (if flag_set fl fl_uppercase then cache_ut else cache_lt)) (np_grouping np)
    (eff_flags fl val) 0 fill val = plain_text fl val.
Proof. unfold plain_text, num_text. by rewrite !pad_text_none by lia. Qed.

(** A long: its number is shown without loss in base 10, and otherwise when it
    is not negative. *)
Lemma shown_long fl v :
  (- 2 ^ (w - 1) < v < 2 ^ (w - 1))%Z → (0 ≤ v)%Z ∨ num_base fl = 10%Z →
  shown_negative fl (NLong v) = bool_decide (v < 0)%Z ∧ shown_value w fl (NLong v) = Z.abs v.
Proof.
  intros Hv Hb. assert (Hpow : (2 ^ w = 2 * 2 ^ (w - 1))%Z) by (destruct Hw as [->| ->]; done).
  assert (Hneg : shown_negative fl (NLong v) = bool_decide (v < 0)%Z).
  { unfold shown_negative. cbn. case_bool_decide; [|done]. rewrite bool_decide_true by (destruct Hb; lia). done. }
  split; [done|]. unfold shown_value. rewrite Hneg. cbn. unfold wrapu.
  case_bool_decide; rewrite Z.mod_small; lia.
Qed.

Lemma scan_long (fuel : nat) (fl rfl v : Z) (rest : list Z) (i : I) :
  base_named fl → (- 2 ^ (w - 1) < v < 2 ^ (w - 1))%Z → (0 ≤ v)%Z ∨ num_base fl = 10%Z →
  readable (num_base fl) (get_base rfl) fl → rest_ok k (num_base fl) rest →
  in_ok i → in_chars i = plain_text fl (NLong v) ++ rest → 27 ≤ fuel →
  ∃ i', get_signed_integer k w w fuel rfl i = Ret
      (Some (if decide (Z.abs v < scan_limit w (num_base fl)) then v
             else if decide (v < 0) then - 2 ^ (w - 1) else 2 ^ (w - 1) - 1)%Z,
       if rest then eofbit else goodbit, i') ∧ in_ok i' ∧ in_chars i' = rest.
Proof.
  intros Hbn Hv Hb Hrd Hrest Hi Hc Hfuel. destruct (shown_long fl v Hv Hb) as [Hneg Hsh].
  assert (Hpow : (2 ^ w = 2 * 2 ^ (w - 1))%Z) by (destruct Hw as [->| ->]; done).
  assert (0 < 2 ^ (w - 1))%Z by (apply Z.pow_pos_nonneg; lia).
  destruct (scan_text fuel fl rfl (NLong v) rest (Extractor 0 i)) as (r & Hr & Ho); cbn [eff_flags];
    [done|rewrite Hsh; cbn; lia|done|done|by split|done|].
  cbn [eff_flags] in Ho. rewrite Hneg, Hsh in Ho. destruct Ho as (Hok & Herr & Hval & Hn & Hat).
  unfold get_signed_integer. rewrite Hr. cbn [mbind outcome_bind]. rewrite Hok, Herr, Hval, Hn. destruct Hat as [Hi' Hc'].
  exists (ex_begin (gi_ext r)). split; [|done].
  assert (Hmin : wrapu w (- wrapu w (- 2 ^ (w - 1))) = (2 ^ (w - 1))%Z).
  { assert (Hm : ((- 2 ^ (w - 1)) `mod` 2 ^ w = 2 ^ (w - 1))%Z).
    { rewrite <-(Z_mod_plus_full _ 1). replace (- 2 ^ (w - 1) + 1 * 2 ^ w)%Z with (2 ^ (w - 1))%Z by lia.
      apply Z.mod_small. lia. }
    unfold wrapu. by rewrite !Hm. }
  assert (Hws : wraps w (Z.abs v) = Z.abs v).
  { unfold wraps. rewrite wrapu_small by (unfold is_uint; lia). by rewrite decide_True by lia. }
  assert (Hmax : wrapu w (2 ^ (w - 1) - 1) = (2 ^ (w - 1) - 1)%Z) by (apply wrapu_small; unfold is_uint; lia).
  rewrite Hmin, Hmax. case_bool_decide as Hvn; case_bool_decide as Hlim; rewrite ?Hws.
  - rewrite decide_False by lia. unfold num_neg. rewrite decide_False by lia. cbn.
    rewrite decide_True by done. by replace (- Z.abs v)%Z with v by lia.
  - rewrite (decide_True (P := ul_max w = ul_max w)) by done. cbn. rewrite decide_False by done. by rewrite decide_True.
  - rewrite decide_False by lia. cbn. rewrite decide_True by done. by replace (Z.abs v) with v by lia.
  - rewrite (decide_True (P := ul_max w = ul_max w)) by done. cbn. by rewrite !decide_False by done.
Qed.

Lemma scan_ulong (fuel : nat) (fl rfl v : Z) (rest : list Z) (i : I) :
  base_named fl → (0 ≤ v < 2 ^ w)%Z → readable (num_base fl) (get_base rfl) fl → rest_ok k (num_base fl) rest →
  in_ok i → in_chars i = plain_text fl (NULong v) ++ rest → 27 ≤ fuel →
  ∃ i', get_unsigned_integer k w w fuel rfl i = Ret
      (Some (if decide (v < scan_limit w (num_base fl)) then v else 2 ^ w - 1)%Z,
       if rest then eofbit else goodbit, i') ∧ in_ok i' ∧ in_chars i' = rest.
Proof.
  intros Hbn Hv Hrd Hrest Hi Hc Hfuel.
  assert (Hsh : shown_value w fl (NULong v) = v) by (apply wrapu_small; done).
  destruct (scan_text fuel fl rfl (NULong v) rest (Extractor 0 i)) as (r & Hr & Ho); cbn [eff_flags];
    [done|by rewrite Hsh|done|done|by split|done|].
  cbn [eff_flags] in Ho. rewrite Hsh in Ho. destruct Ho as (Hok & Herr & Hval & Hn & Hi' & Hc').
  unfold get_unsigned_integer. rewrite Hr. cbn [mbind outcome_bind]. rewrite Hok, Herr, Hval, Hn.
  exists (ex_begin (gi_ext r)). split; [|done]. change (shown_negative fl (NULong v)) with false. cbn [ul_max].
  assert (Hwv : wrapu w v = v) by (by apply wrapu_small).
  case_bool_decide as Hlim.
  - rewrite decide_False by lia. rewrite Hwv. by rewrite decide_True by done.
  - rewrite (decide_True (P := ul_max w = ul_max w)) by done. by rewrite decide_False.
Qed.
End roundtrip.

(** ** Properties *)

(** A long which num_put writes without grouping, in base 8, 10 or 16, is
    what num_get reads, whatever follows it that does not go on with the number,
    provided that it has a digit less than the greatest long can have: those
    above the limit are read as the greatest or the least long, without an
    error. Negative numbers have to be written in base 10, and the least long
    cannot be written. *)
Theorem num_long_roundtrip {I : Type} `{HI : InputIteratorSpec I} widen np k w fl rfl fill fuel v :
  (w = 32 ∨ w = 64)%Z → cache_init widen np = Ret k → NoDup (scan_chars widen np) → np_grouping np = [] →
  base_named fl → (- 2 ^ (w - 1) < v < 2 ^ (w - 1))%Z → (0 ≤ v)%Z ∨ num_base fl = 10%Z →
  readable (num_base fl) (get_base rfl) fl → 27 ≤ fuel →
  ∃ text, new_num_put w it_num_copy it_fill_n k (IosFmt fl 0) fill (NLong v) [] = Ret (text, IosFmt fl 0) ∧
    ∀ (i : I) rest, in_ok i → in_chars i = text ++ rest → rest_ok k (num_base fl) rest →
      ∃ i', get_signed_integer k w w fuel rfl i = Ret
          (Some (if decide (Z.abs v < scan_limit w (num_base fl)) then v
                 else if decide (v < 0) then - 2 ^ (w - 1) else 2 ^ (w - 1) - 1)%Z,
           if rest then eofbit else goodbit, i') ∧ in_ok i' ∧ in_chars i' = rest.
Proof.
  intros Hw Hk Hnd Hg Hbn Hv Hb Hrd Hfuel. destruct (cache_init_for widen np) as (k' & Hk' & Hf).
  rewrite Hk in Hk'. apply Ret_inj in Hk' as <-.
  destruct (new_num_put_spec w ltac:(lia) it_num_copy it_fill_n (λ _ _, True) (λ o cs o', o' = o ++ cs) widen np k
    (IosFmt fl 0) fill (NLong v) 0 []) as (text & Hput & _ & Htext); [done|by rewrite Hg|done|cbn; lia|done|].
  exists text. split; [exact Hput|]. cbn [fmt_flags fmt_width app] in Htext. subst text.
  intros i rest Hi Hc Hrest. rewrite (plain_text_fill widen np w) in Hc. by eapply scan_long.
Qed.

(** The same for an unsigned long: num_get reads what num_put wrote when it
    is below the limit, and otherwise - for 20 digits in base 10, and 22 in base
    8, with 64 bits - the greatest number, without an error. *)
Theorem num_ulong_roundtrip {I : Type} `{HI : InputIteratorSpec I} widen np k w fl rfl fill fuel v :
  (w = 32 ∨ w = 64)%Z → cache_init widen np = Ret k → NoDup (scan_chars widen np) → np_grouping np = [] →
  base_named fl → (0 ≤ v < 2 ^ w)%Z → readable (num_base fl) (get_base rfl) fl → 27 ≤ fuel →
  ∃ text, new_num_put w it_num_copy it_fill_n k (IosFmt fl 0) fill (NULong v) [] = Ret (text, IosFmt fl 0) ∧
    ∀ (i : I) rest, in_ok i → in_chars i = text ++ rest → rest_ok k (num_base fl) rest →
      ∃ i', get_unsigned_integer k w w fuel rfl i = Ret
          (Some (if decide (v < scan_limit w (num_base fl)) then v else 2 ^ w - 1)%Z,
           if rest then eofbit else goodbit, i') ∧ in_ok i' ∧ in_chars i' = rest.
Proof.
  intros Hw Hk Hnd Hg Hbn Hv Hrd Hfuel. destruct (cache_init_for widen np) as (k' & Hk' & Hf).
  rewrite Hk in Hk'. apply Ret_inj in Hk' as <-.
  destruct (new_num_put_spec w ltac:(lia) it_num_copy it_fill_n (λ _ _, True) (λ o cs o', o' = o ++ cs) widen np k
    (IosFmt fl 0) fill (NULong v) 0 []) as (text & Hput & _ & Htext); [done|by rewrite Hg|done|done|done|].
  exists text. split; [exact Hput|]. cbn [fmt_flags fmt_width app] in Htext. subst text.
  intros i rest Hi Hc Hrest. rewrite (plain_text_fill widen np w) in Hc. by eapply scan_ulong.
Qed.

(** Where formatting and scanning go wrong: the least long can neither be
    written nor read in base 10 without an overflow; 10000000000000000000, which
    fits into 64 bits, is read as the greatest number, and so is 1500000000 with
    32 bits; a character that is no digit behind 0x is reported as the end of the
    input; a number is read up to the first separator that was written; and with
    boolalpha the value does not change and has to be the one that is named. *)
Theorem num_hazards :
  let put w np v := new_num_put w it_num_copy it_fill_n
    match cache_init id np with Ret k => k | _ => classic_cache end (IosFmt fl_dec 0) 32 v [] in
  let getl text := get_signed_integer classic_cache 64 64 (27 : nat) fl_dec (codes text) in
  let getu w text := get_unsigned_integer classic_cache w w (27 : nat) fl_dec (codes text) in
  put 64%Z classic_numpunct (NLong (- 2 ^ 63)) = UB ∧ getl "-9223372036854775808"%string = UB ∧
  getu 64%Z "10000000000000000000"%string = Ret (Some (2 ^ 64 - 1)%Z, eofbit, []) ∧
  getu 32%Z "1500000000"%string = Ret (Some (2 ^ 32 - 1)%Z, eofbit, []) ∧
  get_unsigned_integer classic_cache 64 64 (27 : nat) 0 (codes "0xg") = Ret (Some 0%Z, eofbit, codes "g") ∧
  put 64%Z (Numpunct [3%Z] 44 46 [] []) (NLong 1234567) = Ret (codes "1,234,567", IosFmt fl_dec 0) ∧
  getl "1,234,567"%string = Ret (Some 1%Z, goodbit, codes ",234,567") ∧
  get_bool classic_cache 64 classic_numpunct 27 fl_boolalpha false (codes "true") = Ret (false, failbit, codes "true") ∧
  get_bool classic_cache 64 classic_numpunct 27 fl_boolalpha false (codes "false") = Ret (false, goodbit, []).
Proof. split_and!; vm_compute; reflexivity. Qed.

(** ** Witnesses *)
Lemma num_long_roundtrip_witness :
  new_num_put 64 it_num_copy it_fill_n classic_cache (IosFmt fl_dec 0) 32 (NLong (-12345)) [] =
    Ret (codes "-12345", IosFmt fl_dec 0) ∧
  ∃ text, new_num_put 64 it_num_copy it_fill_n classic_cache (IosFmt fl_dec 0) 32 (NLong (-12345)) [] =
      Ret (text, IosFmt fl_dec 0) ∧
    ∀ (i : list Z) rest, in_ok i → in_chars i = text ++ rest → rest_ok classic_cache (num_base fl_dec) rest →
      ∃ i', get_signed_integer classic_cache 64 64 27 0 i = Ret
          (Some (if decide (Z.abs (-12345) < scan_limit 64 (num_base fl_dec)) then (-12345)%Z
                 else if decide (-12345 < 0)%Z then - 2 ^ (64 - 1) else 2 ^ (64 - 1) - 1)%Z,
           if rest then eofbit else goodbit, i') ∧ in_ok i' ∧ in_chars i' = rest.
Proof.
  split; [vm_compute; reflexivity|].
  apply (num_long_roundtrip id classic_numpunct classic_cache 64 fl_dec 0 32 27 (-12345)).
  - by right.
  - apply classic_cache_init.
  - apply classic_nodup.
  - done.
  - vm_compute. apply elem_of_cons. right. apply elem_of_cons. right. apply elem_of_cons. by left.
  - vm_compute. done.
  - by right.
  - right. split; [done|by left].
  - lia.
Defined.

Lemma num_ulong_roundtrip_witness :
  ∃ text, new_num_put 64 it_num_copy it_fill_n classic_cache (IosFmt (Z.lor fl_hex fl_showbase) 0) 32 (NULong (2 ^ 64 - 1)) [] =
      Ret (text, IosFmt (Z.lor fl_hex fl_showbase) 0) ∧
    ∀ (i : list Z) rest, in_ok i → in_chars i = text ++ rest →
      rest_ok classic_cache (num_base (Z.lor fl_hex fl_showbase)) rest →
      ∃ i', get_unsigned_integer classic_cache 64 64 27 0 i = Ret
          (Some (if decide (2 ^ 64 - 1 < scan_limit 64 (num_base (Z.lor fl_hex fl_showbase))) then 2 ^ 64 - 1 else 2 ^ 64 - 1)%Z,
           if rest then eofbit else goodbit, i') ∧ in_ok i' ∧ in_chars i' = rest.
Proof.
  apply (num_ulong_roundtrip id classic_numpunct classic_cache 64 (Z.lor fl_hex fl_showbase) 0 32 27 (2 ^ 64 - 1)).
  - by right.
  - apply classic_cache_init.
  - apply classic_nodup.
  - done.
  - vm_compute. do 3 (apply elem_of_cons; right). apply elem_of_cons. by left.
  - vm_compute. split; [congruence|done].
  - right. split; [done|by right].
  - lia.
Defined.
