(* ===== verification/StreamBuf.v ===== *)
(** * Stream buffers

    basic_streambuf of cxxrt-source/include/cxxrt/streambuf.h and
    srccxx/streambuf.cc: the get and the put area, the functions which read and
    write single characters and blocks in terms of them and of the virtual
    functions (the class [SbufVirtuals]), for any derived class. An [int_type] is
    [None] for the end of the file, otherwise the code of a character; that a
    character of a wide type could equal the end of the file is left aside. The
    locale of a buffer is not modelled. *)
From S2P Require Import Prelude.

(** ** Arrays

    The memory maps the arrays which [new] made and [delete] did not end to their
    elements; an element which has not been assigned is [None]. *)
Notation memory := (gmap nat (list (option Z))).
(** [None] is the null pointer, [Some (b, i)] points to element [i] of [b]. *)
Definition buf_ptr : Type := option (nat * nat).

Definition ptr_add (m : memory) (p : buf_ptr) (n : Z) : option buf_ptr :=
  match p with
  | None => if decide (n = 0%Z) then Some None else None
  | Some (b, i) =>
      a ← m !! b;
      if decide (0 ≤ Z.of_nat i + n ≤ Z.of_nat (length a))%Z then Some (Some (b, Z.to_nat (Z.of_nat i + n))) else None
  end.
Definition ptr_sub (p q : buf_ptr) : option Z :=
  match p, q with
  | None, None => Some 0%Z
  | Some (b, i), Some (c, j) => if decide (b = c) then Some (Z.of_nat i - Z.of_nat j)%Z else None
  | _, _ => None
  end.
Definition mem_load (m : memory) (p : buf_ptr) : option Z :=
  '(b, i) ← p; a ← m !! b; mjoin (a !! i).
Definition mem_store (m : memory) (p : buf_ptr) (c : Z) : option memory :=
  '(b, i) ← p; a ← m !! b; if decide (i < length a) then Some (<[b := <[i := Some c]> a]> m) else None.
(** [traits::copy] into and out of an array. *)
Definition mem_copy (m : memory) (p : buf_ptr) (cs : list Z) : option memory :=
  '(b, i) ← p; a ← m !! b;
  if decide (i + length cs ≤ length a) then Some (<[b := list_inserts i (Some <$> cs) a]> m) else None.
Definition mem_read (m : memory) (p : buf_ptr) (n : nat) : option (list Z) :=
  '(b, i) ← p; a ← m !! b; if decide (i + n ≤ length a) then mapM id (take n (drop i a)) else None.
Definition mem_new (m : memory) (n : nat) : buf_ptr * memory :=
  let b := fresh (dom m) in (Some (b, 0), <[b := replicate n None]> m).
Definition mem_delete (m : memory) (p : buf_ptr) : option memory :=
  match p with
  | None => Some m
  | Some (b, i) => _ ← m !! b; if decide (i = 0) then Some (delete b m) else None
  end.

(** ** The state of a buffer

    [sb_derived] are the members of the derived class. *)
Record sbuf (D : Type) := Sbuf {
  sb_mem : memory;
  sb_gbeg : buf_ptr; sb_gcur : buf_ptr; sb_gend : buf_ptr;
  sb_pbeg : buf_ptr; sb_pcur : buf_ptr; sb_pend : buf_ptr;
  sb_derived : D;
}.
Arguments Sbuf {D} _ _ _ _ _ _ _ _.
Arguments sb_mem {D} _.
Arguments sb_gbeg {D} _.
Arguments sb_gcur {D} _.
Arguments sb_gend {D} _.
Arguments sb_pbeg {D} _.
Arguments sb_pcur {D} _.
Arguments sb_pend {D} _.
Arguments sb_derived {D} _.

Section areas.
Context {D : Type}.
Implicit Types (s : sbuf D) (m : memory) (p q r : buf_ptr).

Definition sb_set_mem m s : sbuf D :=
  Sbuf m (sb_gbeg s) (sb_gcur s) (sb_gend s) (sb_pbeg s) (sb_pcur s) (sb_pend s) (sb_derived s).
Definition sb_set_derived (d : D) s : sbuf D :=
  Sbuf (sb_mem s) (sb_gbeg s) (sb_gcur s) (sb_gend s) (sb_pbeg s) (sb_pcur s) (sb_pend s) d.
Definition setg p q r s : sbuf D :=
  Sbuf (sb_mem s) p q r (sb_pbeg s) (sb_pcur s) (sb_pend s) (sb_derived s).
Definition setp p q s : sbuf D :=
  Sbuf (sb_mem s) (sb_gbeg s) (sb_gcur s) (sb_gend s) p p q (sb_derived s).
Definition sb_set_pcur p s : sbuf D :=
  Sbuf (sb_mem s) (sb_gbeg s) (sb_gcur s) (sb_gend s) (sb_pbeg s) p (sb_pend s) (sb_derived s).
(** The distance is an int: that of a caller is converted. *)
Definition gbump (n : Z) s : option (sbuf D) :=
  p ← ptr_add (sb_mem s) (sb_gcur s) (wraps 32 n); Some (setg (sb_gbeg s) p (sb_gend s) s).
Definition pbump (n : Z) s : option (sbuf D) :=
  p ← ptr_add (sb_mem s) (sb_pcur s) (wraps 32 n); Some (sb_set_pcur p s).
Definition sbuf_ctor m (d : D) : sbuf D := Sbuf m None None None None None None d.
End areas.

Definition not_eof (c : option Z) : option Z := match c with Some _ => c | None => Some 0%Z end.
(** The end of the file, -1, becomes the character with the code 255. *)
Definition to_char_type (c : option Z) : Z := default 255%Z c.

(** ** Virtual functions

    Those which the functions of the base class call. [xsgetn], [xsputn] are not
    among them: no derived class of the library overrides them. *)
Class SbufVirtuals (D : Type) := {
  v_underflow : sbuf D → outcome (option Z * sbuf D);
  v_uflow : sbuf D → outcome (option Z * sbuf D);
  v_pbackfail : option Z → sbuf D → outcome (option Z * sbuf D);
  v_overflow : option Z → sbuf D → outcome (option Z * sbuf D);
  v_showmanyc : sbuf D → outcome (Z * sbuf D);
}.

Section base.
Context {D : Type}.
Implicit Types s : sbuf D.
(** What the base class defines. *)
Definition base_underflow s : outcome (option Z * sbuf D) := Ret (None, s).
Definition base_uflow (underflow : sbuf D → outcome (option Z * sbuf D)) s : outcome (option Z * sbuf D) :=
  '(c, s) ← underflow s;
  match c with
  | None => Ret (None, s)
  | Some _ => c ← or_ub (mem_load (sb_mem s) (sb_gcur s)); s ← or_ub (gbump 1 s); Ret (Some c, s)
  end.
Definition base_pbackfail (c : option Z) s : outcome (option Z * sbuf D) := Ret (None, s).
Definition base_overflow (c : option Z) s : outcome (option Z * sbuf D) := Ret (None, s).
Definition base_showmanyc s : outcome (Z * sbuf D) := Ret (0%Z, s).
End base.

(** A buffer of the base class itself. *)
#[export] Instance base_virtuals : SbufVirtuals unit := {|
  v_underflow := base_underflow;
  v_uflow := base_uflow base_underflow;
  v_pbackfail := base_pbackfail;
  v_overflow := base_overflow;
  v_showmanyc := base_showmanyc;
|}.

(** ** Reading and writing *)
Section ops.
Context {D : Type} `{!SbufVirtuals D}.
Implicit Types (s : sbuf D) (cs : list Z).

Definition in_avail s : outcome (Z * sbuf D) :=
  if decide (sb_gend s ≠ sb_gcur s) then n ← or_ub (ptr_sub (sb_gend s) (sb_gcur s)); Ret (n, s)
  else v_showmanyc s.
Definition sbumpc s : outcome (option Z * sbuf D) :=
  if decide (sb_gcur s ≠ sb_gend s) then
    c ← or_ub (mem_load (sb_mem s) (sb_gcur s)); s ← or_ub (gbump 1 s); Ret (Some c, s)
  else v_uflow s.
Definition sgetc s : outcome (option Z * sbuf D) :=
  if decide (sb_gend s = sb_gcur s) then v_underflow s
  else c ← or_ub (mem_load (sb_mem s) (sb_gcur s)); Ret (Some c, s).
Definition snextc s : outcome (option Z * sbuf D) :=
  n ← or_ub (ptr_sub (sb_gend s) (sb_gcur s));
  if decide (n = 0%Z) then
    '(c, s) ← sbumpc s; match c with None => Ret (None, s) | Some _ => sgetc s end
  else if decide (n = 1%Z) then s ← or_ub (gbump 1 s); sgetc s
  else s ← or_ub (gbump 1 s); c ← or_ub (mem_load (sb_mem s) (sb_gcur s)); Ret (Some c, s).
Definition sputbackc (c : Z) s : outcome (option Z * sbuf D) :=
  if decide (sb_gbeg s = sb_gcur s) then v_pbackfail (Some c) s
  else
    s' ← or_ub (gbump (-1) s);
    d ← or_ub (mem_load (sb_mem s') (sb_gcur s'));
    if decide (c = d) then Ret (Some d, s') else v_pbackfail (Some c) s.
Definition sungetc s : outcome (option Z * sbuf D) :=
  if decide (sb_gbeg s = sb_gcur s) then v_pbackfail None s
  else s ← or_ub (gbump (-1) s); c ← or_ub (mem_load (sb_mem s) (sb_gcur s)); Ret (Some c, s).
Definition sputc (c : Z) s : outcome (option Z * sbuf D) :=
  if decide (sb_pcur s = sb_pend s) then v_overflow (Some c) s
  else m ← or_ub (mem_store (sb_mem s) (sb_pcur s) c); s ← or_ub (pbump 1 (sb_set_mem m s)); Ret (Some c, s).

(** [n] characters are still to be read; [acc] are those read. *)
Fixpoint xsgetn_loop (fuel : nat) (n : Z) acc s : outcome (list Z * sbuf D) :=
  match fuel with
  | 0 => NoFuel
  | S fuel =>
      if decide (0 < n)%Z then
        if decide (sb_gcur s ≠ sb_gend s) then
          bsize ← or_ub (ptr_sub (sb_gend s) (sb_gcur s));
          let csize := Z.min bsize n in
          if decide (csize < 0)%Z then UB else
          cs ← or_ub (mem_read (sb_mem s) (sb_gcur s) (Z.to_nat csize));
          s ← or_ub (gbump csize s);
          xsgetn_loop fuel (n - csize) (acc ++ cs) s
        else
          '(c, s) ← sbumpc s;
          match c with None => Ret (acc, s) | Some c => xsgetn_loop fuel (n - 1) (acc ++ [c]) s end
      else Ret (acc, s)
  end.
Definition xsgetn (n : Z) s : outcome (list Z * sbuf D) := xsgetn_loop (S (Z.to_nat n)) n [] s.

(** [count] characters have been written and [cs] are left. *)
Fixpoint xsputn_loop (fuel count : nat) cs s : outcome (nat * sbuf D) :=
  match fuel with
  | 0 => NoFuel
  | S fuel =>
      match cs with
      | [] => Ret (count, s)
      | c :: cs' =>
          t ← or_ub (ptr_sub (sb_pend s) (sb_pcur s));
          if decide (t ≠ 0%Z) then
            let t := Z.min (Z.of_nat (length cs)) t in
            if decide (t < 0)%Z then UB else
            m ← or_ub (mem_copy (sb_mem s) (sb_pcur s) (take (Z.to_nat t) cs));
            s ← or_ub (pbump t (sb_set_mem m s));
            xsputn_loop fuel (count + Z.to_nat t) (drop (Z.to_nat t) cs) s
          else
            '(r, s) ← sputc c s;
            match r with None => Ret (count, s) | Some _ => xsputn_loop fuel (S count) cs' s end
      end
  end.
Definition xsputn cs s : outcome (nat * sbuf D) :=
  t ← or_ub (ptr_sub (sb_pend s) (sb_pcur s));
  if decide (Z.of_nat (length cs) < t)%Z then
    m ← or_ub (mem_copy (sb_mem s) (sb_pcur s) cs);
    s ← or_ub (pbump (Z.of_nat (length cs)) (sb_set_mem m s));
    Ret (length cs, s)
  else xsputn_loop (S (length cs)) 0 cs s.
End ops.

(** Character by character. *)
Section each.
Context {D : Type} `{!SbufVirtuals D}.
Fixpoint put_each (count : nat) (cs : list Z) (s : sbuf D) : outcome (nat * sbuf D) :=
  match cs with
  | [] => Ret (count, s)
  | c :: cs => '(r, s) ← sputc c s; match r with None => Ret (count, s) | Some _ => put_each (S count) cs s end
  end.
Fixpoint get_each (n : nat) (acc : list Z) (s : sbuf D) : outcome (list Z * sbuf D) :=
  match n with
  | 0 => Ret (acc, s)
  | S n => '(c, s) ← sbumpc s; match c with None => Ret (acc, s) | Some c => get_each n (acc ++ [c]) s end
  end.
End each.

(** All the characters are put. *)
Inductive puts {D : Type} `{!SbufVirtuals D} : list Z → sbuf D → sbuf D → Prop :=
  | puts_nil s : puts [] s s
  | puts_cons c cs s s1 s2 : sputc c s = Ret (Some c, s1) → puts cs s1 s2 → puts (c :: cs) s s2.

Lemma puts_each {D : Type} `{!SbufVirtuals D} cs cs' (s s' : sbuf D) count :
  puts cs s s' → put_each count (cs ++ cs') s = put_each (count + length cs) cs' s'.
Proof.
  intros Hp. revert count. induction Hp as [s|c cs s s1 s2 Hs Hp IH]; intros count; cbn [app put_each length].
  - by rewrite Nat.add_0_r.
  - rewrite Hs. cbn. by rewrite IH, Nat.add_succ_r.
Qed.

Lemma puts_app {D : Type} `{!SbufVirtuals D} cs cs' (s s' s'' : sbuf D) : puts cs s s' → puts cs' s' s'' → puts (cs ++ cs') s s''.
Proof. induction 1; [done|]. intros ?. econstructor; eauto. Qed.

Lemma puts_det {D : Type} `{!SbufVirtuals D} cs (s s1 s2 : sbuf D) : puts cs s s1 → puts cs s s2 → s1 = s2.
Proof.
  intros Hp. revert s2. induction Hp as [|c cs s s1 s1' Hs Hp IH]; intros s2 Hp2; inversion Hp2; subst; [done|].
  apply IH. congruence.
Qed.

(** ** Well-formed areas *)
Definition area_ok (m : memory) (p q : buf_ptr) : Prop :=
  match p, q with
  | None, None => True
  | Some (b, i), Some (c, j) => b = c ∧ i ≤ j ∧ ∃ a, m !! b = Some a ∧ j ≤ length a
  | _, _ => False
  end.
(** The elements between the pointers have been assigned. *)
Definition area_init (m : memory) (p q : buf_ptr) : Prop :=
  ∀ b i j a k, p = Some (b, i) → q = Some (b, j) → m !! b = Some a → i ≤ k < j → ∃ c, a !! k = Some (Some c).

(** So many characters that [pbump] and [gbump] can move over them. *)
Notation int_sized n := (Z.of_nat n < 2 ^ 31)%Z.
Definition area_small (p q : buf_ptr) : Prop := ∀ b i c j, p = Some (b, i) → q = Some (c, j) → int_sized (j - i).

(** What the block operations need of a derived class: [ok] is an invariant of
    the operations on characters which implies that the areas are well-formed and
    that an int holds their sizes. *)
Class SbufSpec (D : Type) `{!SbufVirtuals D} (ok : sbuf D → Prop) : Prop := {
  ok_put_area s : ok s → area_ok (sb_mem s) (sb_pcur s) (sb_pend s);
  ok_get_area s : ok s → area_ok (sb_mem s) (sb_gcur s) (sb_gend s) ∧ area_init (sb_mem s) (sb_gcur s) (sb_gend s);
  ok_small s : ok s → area_small (sb_pcur s) (sb_pend s) ∧ area_small (sb_gcur s) (sb_gend s);
  ok_sputc c s r s' : ok s → sputc c s = Ret (r, s') → ok s';
  ok_sbumpc s r s' : ok s → sbumpc s = Ret (r, s') → ok s';
}.

Section blocks.
Context {D : Type} `{!SbufVirtuals D}.
Implicit Types (s : sbuf D) (cs : list Z).

(** The buffer after [n] characters have been taken from the get area, and after
    [cs] have been put into the put area. *)
Definition got (b i n : nat) s : sbuf D := setg (sb_gbeg s) (Some (b, i + n)) (sb_gend s) s.
Definition put_into (b i : nat) (a : list (option Z)) cs s : sbuf D :=
  sb_set_pcur (Some (b, i + length cs)) (sb_set_mem (<[b := list_inserts i (Some <$> cs) a]> (sb_mem s)) s).

Lemma ptr_add_in m b i a (n : nat) :
  m !! b = Some a → i + n ≤ length a → ptr_add m (Some (b, i)) (Z.of_nat n) = Some (Some (b, i + n)).
Proof.
  intros Hb Hn. cbn. rewrite Hb. cbn. rewrite decide_True by lia. by rewrite <-Nat2Z.inj_add, Nat2Z.id.
Qed.

Lemma wraps_int n : (- 2 ^ 31 ≤ n < 2 ^ 31)%Z → wraps 32 n = n.
Proof.
  intros Hn. rewrite <-(wraps_wrapu 32 n) at 2 by lia. unfold wraps. by rewrite wrapu_idem by lia.
Qed.

Lemma sputc_in c b i j a s :
  sb_pcur s = Some (b, i) → sb_pend s = Some (b, j) → sb_mem s !! b = Some a → i < j ≤ length a →
  sputc c s = Ret (Some c, put_into b i a [c] s).
Proof.
  intros Hp Hq Hb Hj. unfold sputc. rewrite Hp, Hq, decide_False by (intros [= ]; lia).
  cbn [mem_store mbind option_bind]. rewrite Hb. cbn. rewrite decide_True by lia. cbn.
  unfold pbump. rewrite wraps_int by lia. cbn. rewrite Hp, (ptr_add_in _ _ _ (<[i := Some c]> a) 1); [done| |by rewrite length_insert; lia].
  apply lookup_insert_eq.
Qed.

Lemma put_into_nil b i a s : sb_pcur s = Some (b, i) → sb_mem s !! b = Some a → put_into b i a [] s = s.
Proof.
  intros Hp Hb. unfold put_into. change (list_inserts i (Some <$> []) a) with a.
  rewrite insert_id, Nat.add_0_r, <-Hp by done. by destruct s.
Qed.

Lemma list_insert_inserts_S {A} i (x : A) l a : list_inserts (S i) l (<[i := x]> a) = list_inserts i (x :: l) a.
Proof. cbn. rewrite list_insert_inserts_lt by lia. done. Qed.

Lemma put_into_cons b i a c cs s :
  put_into b (S i) (<[i := Some c]> a) cs (put_into b i a [c] s) = put_into b i a (c :: cs) s.
Proof.
  unfold put_into, sb_set_pcur, sb_set_mem.
  cbn [sb_mem sb_gbeg sb_gcur sb_gend sb_pbeg sb_pend sb_derived length].
  rewrite insert_insert_eq, Nat.add_succ_comm, (list_insert_inserts_S i (Some c)). done.
Qed.

Lemma mem_copy_in s b i a cs :
  sb_mem s !! b = Some a → i + length cs ≤ length a →
  mem_copy (sb_mem s) (Some (b, i)) cs = Some (<[b := list_inserts i (Some <$> cs) a]> (sb_mem s)).
Proof. intros Hb Hi. cbn. rewrite Hb. cbn. by rewrite decide_True. Qed.

Lemma pbump_in s b i a cs :
  sb_pcur s = Some (b, i) → sb_mem s !! b = Some a → i + length cs ≤ length a → int_sized (length cs) →
  pbump (Z.of_nat (length cs)) (sb_set_mem (<[b := list_inserts i (Some <$> cs) a]> (sb_mem s)) s) =
    Some (put_into b i a cs s).
Proof.
  intros Hp Hb Hi Hs. unfold pbump. rewrite wraps_int by lia. cbn [sb_set_mem sb_pcur sb_mem]. rewrite Hp.
  rewrite (ptr_add_in _ _ _ (list_inserts i (Some <$> cs) a)); [done|apply lookup_insert_eq|].
  by rewrite length_inserts.
Qed.

Context (ok : sbuf D → Prop) `{!SbufSpec D ok}.

(** Characters which fit into the put area. *)
Lemma put_area b i j a cs s :
  ok s → sb_pcur s = Some (b, i) → sb_pend s = Some (b, j) → sb_mem s !! b = Some a → j ≤ length a →
  i + length cs ≤ j → puts cs s (put_into b i a cs s) ∧ ok (put_into b i a cs s).
Proof.
  revert i a s. induction cs as [|c cs IH]; intros i a s Hok Hp Hq Hb Hj Hi; cbn [length] in *.
  { rewrite put_into_nil by done. split; [constructor|done]. }
  pose proof (sputc_in c b i j a s Hp Hq Hb ltac:(lia)) as Hc.
  destruct (IH (S i) (<[i := Some c]> a) (put_into b i a [c] s)) as [Hputs Hok'].
  - by eapply ok_sputc.
  - cbn. by rewrite Nat.add_1_r.
  - done.
  - cbn. apply lookup_insert_eq.
  - by rewrite length_insert.
  - lia.
  - rewrite put_into_cons in Hputs, Hok'. split; [|done]. by econstructor.
Qed.

(** Characters of the get area. *)
Lemma sbumpc_in b i j a c s :
  sb_gcur s = Some (b, i) → sb_gend s = Some (b, j) → sb_mem s !! b = Some a → i < j ≤ length a →
  a !! i = Some (Some c) → sbumpc s = Ret (Some c, got b i 1 s).
Proof.
  intros Hp Hq Hb Hj Hc. unfold sbumpc. rewrite Hp, Hq, decide_True by (intros [= ]; lia).
  cbn [mem_load mbind option_bind]. rewrite Hb. cbn. rewrite Hc. cbn. unfold gbump. rewrite wraps_int by lia. rewrite Hp.
  by rewrite (ptr_add_in _ _ _ a 1) by (done || lia).
Qed.

Lemma got_got b i n k s : got b (i + n) k (got b i n s) = got b i (n + k) s.
Proof. unfold got, setg. cbn. by rewrite Nat.add_assoc. Qed.

Lemma mem_read_S m b i a c n cs :
  m !! b = Some a → a !! i = Some (Some c) → mem_read m (Some (b, S i)) n = Some cs →
  mem_read m (Some (b, i)) (S n) = Some (c :: cs).
Proof.
  intros Hb Hc. cbn [mem_read mbind option_bind]. rewrite Hb. cbn [mbind option_bind].
  case_decide; [|done]. intros Hr. rewrite decide_True by lia. rewrite (drop_S a (Some c) i Hc). cbn [take mapM].
  rewrite Hr. done.
Qed.

Lemma get_area b i j a n s k acc :
  ok s → sb_gcur s = Some (b, i) → sb_gend s = Some (b, j) → sb_mem s !! b = Some a → j ≤ length a → i + n ≤ j →
  ∃ cs, mem_read (sb_mem s) (Some (b, i)) n = Some cs ∧ ok (got b i n s) ∧
    get_each (n + k) acc s = get_each k (acc ++ cs) (got b i n s).
Proof.
  revert i s acc. induction n as [|n IH]; intros i s acc Hok Hp Hq Hb Hj Hi.
  { exists []. split; [|split].
    - cbn. rewrite Hb. cbn. by rewrite decide_True by lia.
    - unfold got, setg. rewrite Nat.add_0_r, <-Hp. by destruct s.
    - unfold got, setg. rewrite Nat.add_0_r, <-Hp, app_nil_r. by destruct s. }
  destruct (ok_get_area s Hok) as [_ Hinit].
  destruct (Hinit b i j a i Hp Hq Hb ltac:(lia)) as [c Hc].
  pose proof (sbumpc_in b i j a c s Hp Hq Hb ltac:(lia) Hc) as Hs.
  destruct (IH (i + 1) (got b i 1 s) (acc ++ [c])) as (cs & Hr & Hok' & Heq); [by eapply ok_sbumpc|done..|lia|].
  rewrite got_got in Hok', Heq. exists (c :: cs). split; [|split; [done|]].
  - rewrite Nat.add_1_r in Hr. by eapply mem_read_S.
  - cbn [Nat.add get_each]. rewrite Hs. cbn. rewrite Heq, <-(assoc_L (++)). done.
Qed.

(** ** The loops *)
Lemma put_room s : ok s → ∃ t, ptr_sub (sb_pend s) (sb_pcur s) = Some (Z.of_nat t) ∧ int_sized t ∧
  (t = 0 → sb_pcur s = sb_pend s) ∧
  (0 < t → ∃ b i a, sb_pcur s = Some (b, i) ∧ sb_pend s = Some (b, i + t) ∧ sb_mem s !! b = Some a ∧ i + t ≤ length a).
Proof.
  intros Hs. pose proof (proj1 (ok_small s Hs)) as Hsm. apply ok_put_area in Hs as Hok. unfold area_ok in Hok.
  destruct (sb_pcur s) as [[b i]|], (sb_pend s) as [[b' j]|]; [|done..|].
  - destruct Hok as (<- & Hij & a & Hb & Hj). exists (j - i). cbn. rewrite decide_True by done. split; [f_equal; lia|].
    split; [by apply (Hsm b i b j)|]. split; [intros; repeat f_equal; lia|]. intros _. exists b, i, a. rewrite (Nat.add_comm i), Nat.sub_add by done. done.
  - exists 0. split; [done|]. split; [done|]. split; [done|lia].
Qed.

Lemma get_room s : ok s → ∃ t, ptr_sub (sb_gend s) (sb_gcur s) = Some (Z.of_nat t) ∧ int_sized t ∧
  (t = 0 ↔ sb_gcur s = sb_gend s) ∧
  (0 < t → ∃ b i a, sb_gcur s = Some (b, i) ∧ sb_gend s = Some (b, i + t) ∧ sb_mem s !! b = Some a ∧ i + t ≤ length a).
Proof.
  intros Hs. pose proof (proj2 (ok_small s Hs)) as Hsm. apply ok_get_area in Hs as [Hok _]. unfold area_ok in Hok.
  destruct (sb_gcur s) as [[b i]|], (sb_gend s) as [[b' j]|]; [|done..|].
  - destruct Hok as (<- & Hij & a & Hb & Hj). exists (j - i). cbn. rewrite decide_True by done. split; [f_equal; lia|].
    split; [by apply (Hsm b i b j)|]. split; [split; [intros; repeat f_equal; lia|intros [= ->]; lia]|].
    intros _. exists b, i, a. rewrite (Nat.add_comm i), Nat.sub_add by done. done.
  - exists 0. split; [done|]. split; [done|]. split; [done|lia].
Qed.

Lemma xsputn_loop_each fuel count cs s : ok s → length cs < fuel → xsputn_loop fuel count cs s = put_each count cs s.
Proof.
  revert count cs s. induction fuel as [|fuel IH]; intros count cs s Hok Hf; [lia|].
  destruct cs as [|c cs]; [done|]. cbn [xsputn_loop length] in *.
  destruct (put_room s Hok) as (t & Ht & Hsm & Ht0 & Ht1). rewrite Ht. cbn [or_ub mbind outcome_bind].
  destruct (decide (t = 0)) as [->|Hnz].
  { rewrite decide_False by lia. cbn [put_each]. destruct (sputc c s) as [[[r|] s']| | |] eqn:Hs; [|done..].
    apply IH; [by eapply ok_sputc|lia]. }
  rewrite decide_True by lia. destruct (Ht1 ltac:(lia)) as (b & i & a & Hp & Hq & Hb & Hi).
  rewrite <-Nat2Z.inj_min. set (n := S (length cs) `min` t). assert (Hn : 0 < n ≤ t ∧ n ≤ S (length cs)) by lia.
  rewrite decide_False, Nat2Z.id by lia. set (l := take n (c :: cs)).
  assert (Hl : length l = n) by (subst l; rewrite length_take; cbn [length]; lia).
  rewrite Hp, (mem_copy_in s b i a) by (done || lia). cbn [or_ub mbind outcome_bind].
  rewrite <-Hl, (pbump_in s b i a) by (done || lia). cbn [or_ub mbind outcome_bind].
  destruct (put_area b i (i + t) a l s Hok Hp Hq Hb Hi ltac:(lia)) as [Hputs Hok'].
  rewrite <-(take_drop (length l) (c :: cs)) at 2. rewrite Hl in *. fold l.
  rewrite (puts_each _ _ _ _ _ Hputs), <-Hl. apply IH; [done|].
  rewrite length_drop. cbn [length]. lia.
Qed.

Lemma xsgetn_loop_each fuel n acc s :
  ok s → n < fuel → xsgetn_loop fuel (Z.of_nat n) acc s = get_each n acc s.
Proof.
  revert n acc s. induction fuel as [|fuel IH]; intros n acc s Hok Hf; [lia|].
  destruct n as [|n]; [done|]. cbn [xsgetn_loop]. rewrite decide_True by lia.
  destruct (get_room s Hok) as (t & Ht & Hsm & Ht0 & Ht1). destruct (decide (t = 0)) as [->|Hnz].
  { rewrite decide_False by (intros H; by apply H, Ht0). cbn [get_each].
    destruct (sbumpc s) as [[[c|] s']| | |] eqn:Hs; [|done..]. cbn [mbind outcome_bind].
    rewrite Nat2Z.inj_succ, <-Z.add_1_r, Z.add_simpl_r. apply IH; [by eapply ok_sbumpc|lia]. }
  rewrite decide_True by (intros H%Ht0; lia). rewrite Ht. cbn [or_ub mbind outcome_bind].
  destruct (Ht1 ltac:(lia)) as (b & i & a & Hp & Hq & Hb & Hi).
  rewrite <-Nat2Z.inj_min. set (k := t `min` S n). assert (Hk : 0 < k ≤ t ∧ k ≤ S n) by lia.
  rewrite decide_False, Nat2Z.id, Hp by lia.
  destruct (get_area b i (i + t) a k s (S n - k) acc Hok Hp Hq Hb Hi ltac:(lia)) as (cs & Hr & Hok' & Heq).
  rewrite Hr. cbn [or_ub mbind outcome_bind]. unfold gbump. rewrite wraps_int, Hp, (ptr_add_in _ b i a k) by (done || lia).
  cbn [or_ub mbind outcome_bind option_bind]. fold (got b i k s). rewrite <-Nat2Z.inj_sub by lia.
  rewrite IH by (done || lia). rewrite <-Heq. f_equal. lia.
Qed.

Lemma xsputn_each cs s : ok s → xsputn cs s = put_each 0 cs s.
Proof.
  intros Hok. unfold xsputn. destruct (put_room s Hok) as (t & Ht & Hsm & Ht0 & Ht1). rewrite Ht.
  cbn [or_ub mbind outcome_bind]. case_decide; [|apply xsputn_loop_each; [done|lia]].
  destruct (Ht1 ltac:(lia)) as (b & i & a & Hp & Hq & Hb & Hi).
  rewrite Hp, (mem_copy_in s b i a) by (done || lia). cbn [or_ub mbind outcome_bind].
  rewrite (pbump_in s b i a) by (done || lia). cbn [or_ub mbind outcome_bind].
  destruct (put_area b i (i + t) a cs s Hok Hp Hq Hb Hi ltac:(lia)) as [Hputs _].
  pose proof (puts_each cs [] s _ 0 Hputs) as Heq. rewrite app_nil_r in Heq. by rewrite Heq.
Qed.

Lemma xsgetn_each n s : ok s → xsgetn n s = get_each (Z.to_nat n) [] s.
Proof.
  intros Hok. unfold xsgetn. destruct (decide (0 ≤ n)%Z) as [Hn|Hn].
  - rewrite <-(Z2Nat.id n) at 2 by done. apply xsgetn_loop_each; [done|lia].
  - rewrite Z2Nat.nonpos by lia. cbn [xsgetn_loop get_each]. by rewrite decide_False by lia.
Qed.
End blocks.

(** ** The base class *)
Lemma area_ok_store m p q b a i x :
  m !! b = Some a → area_ok m p q → area_ok (<[b := <[i := x]> a]> m) p q.
Proof.
  intros Hb. unfold area_ok. destruct p as [[b1 i1]|], q as [[b2 j2]|]; [|done..].
  intros (<- & Hi & a' & Ha & Hj). split_and!; [done..|]. destruct (decide (b1 = b)) as [->|Hne].
  - rewrite lookup_insert_eq. eexists. split; [done|]. rewrite length_insert. by simplify_eq.
  - rewrite lookup_insert_ne by done. eauto.
Qed.

Lemma area_init_store m p q b a i c :
  m !! b = Some a → i < length a → area_init m p q → area_init (<[b := <[i := Some c]> a]> m) p q.
Proof.
  intros Hb Hi Hinit b1 i1 j1 a1 k -> -> Ha Hk. destruct (decide (b1 = b)) as [->|Hne].
  - rewrite lookup_insert_eq in Ha. simplify_eq. destruct (decide (k = i)) as [->|Hki].
    + exists c. by apply list_lookup_insert_eq.
    + rewrite list_lookup_insert_ne by done. by eapply Hinit.
  - rewrite lookup_insert_ne in Ha by done. by eapply Hinit.
Qed.

Lemma area_shrink m b i j n : area_ok m (Some (b, i)) (Some (b, j)) → i + n ≤ j → area_ok m (Some (b, i + n)) (Some (b, j)).
Proof. intros (_ & _ & a & ? & ?) ?. cbn. split_and!; [done|done|eauto]. Qed.

Lemma area_init_shrink m b i j n : area_init m (Some (b, i)) (Some (b, j)) → area_init m (Some (b, i + n)) (Some (b, j)).
Proof. intros Hinit b1 i1 j1 a k [= <- <-] [= <-] Ha Hk. eapply Hinit; [done..|lia]. Qed.

Lemma area_ne m p q : area_ok m p q → p ≠ q → ∃ b i j a, p = Some (b, i) ∧ q = Some (b, j) ∧ m !! b = Some a ∧ i < j ≤ length a.
Proof.
  unfold area_ok. destruct p as [[b i]|], q as [[b' j]|]; [|done..]. intros (<- & Hi & a & Ha & Hj) Hne.
  exists b, i, j, a. split_and!; [done..| |done]. destruct (decide (i = j)) as [->|]; [done|lia].
Qed.

Lemma area_small_shrink b c i j n : area_small (Some (b, i)) (Some (c, j)) → area_small (Some (b, i + n)) (Some (c, j)).
Proof. intros Hs b' i' c' j' [= <- <-] [= <- <-]. specialize (Hs b i c j eq_refl eq_refl). lia. Qed.

Definition areas_ok {D} (s : sbuf D) : Prop :=
  area_ok (sb_mem s) (sb_pcur s) (sb_pend s) ∧
  area_ok (sb_mem s) (sb_gcur s) (sb_gend s) ∧ area_init (sb_mem s) (sb_gcur s) (sb_gend s).
Definition areas_small {D} (s : sbuf D) : Prop :=
  area_small (sb_pcur s) (sb_pend s) ∧ area_small (sb_gcur s) (sb_gend s).

Section in_area.
Context {D : Type} `{!SbufVirtuals D}.
Implicit Types s : sbuf D.

(** When the areas are not exhausted the operations on characters keep them
    well-formed and small, whatever the virtual functions do. *)
Lemma sputc_areas c s r s' : areas_ok s → sb_pcur s ≠ sb_pend s → sputc c s = Ret (r, s') →
  areas_ok s' ∧ (areas_small s → areas_small s').
Proof.
  intros (Hp & Hg & Hinit) Hne Hs. destruct (area_ne _ _ _ Hp Hne) as (b & i & j & a & Hpc & Hpe & Ha & Hi).
  rewrite (sputc_in c b i j a s) in Hs by done. injection Hs as _ <-. unfold areas_ok, areas_small, put_into.
  cbn [sb_set_pcur sb_set_mem sb_mem sb_pcur sb_pend sb_gcur sb_gend length]. rewrite Hpc, Hpe in *.
  split; [|intros [? ?]; split; [by apply area_small_shrink|done]]. split; [|split].
  - apply (area_ok_store _ _ _ b a i (Some c)); [done|]. apply area_shrink; [done|lia].
  - by apply (area_ok_store _ _ _ b a i (Some c)).
  - apply (area_init_store _ _ _ b a i c); [done|lia|done].
Qed.

Lemma sbumpc_areas s r s' : areas_ok s → sb_gcur s ≠ sb_gend s → sbumpc s = Ret (r, s') →
  areas_ok s' ∧ (areas_small s → areas_small s').
Proof.
  intros (Hp & Hg & Hinit) Hne Hs. destruct (area_ne _ _ _ Hg Hne) as (b & i & j & a & Hpc & Hpe & Ha & Hi).
  destruct (Hinit b i j a i Hpc Hpe Ha ltac:(lia)) as [c Hc].
  rewrite (sbumpc_in b i j a c s) in Hs by done. injection Hs as _ <-. unfold areas_ok, areas_small, got.
  cbn [setg sb_mem sb_pcur sb_pend sb_gcur sb_gend]. rewrite Hpc, Hpe in *.
  split; [|intros [? ?]; split; [done|by apply area_small_shrink]]. split; [done|]. split; [apply area_shrink; [done|lia]|by apply area_init_shrink].
Qed.
End in_area.

#[export] Instance base_spec : SbufSpec unit (λ s, areas_ok s ∧ areas_small s).
Proof.
  split.
  - by intros s ((? & _) & _).
  - by intros s ((_ & ?) & _).
  - by intros s (_ & ?).
  - intros c s r s' [Hok Hsm] Hs. destruct (decide (sb_pcur s = sb_pend s)) as [He|He].
    + unfold sputc in Hs. rewrite decide_True in Hs by done. by injection Hs as _ <-.
    + destruct (sputc_areas c s r s') as [? Hk]; [done..|]. eauto.
  - intros s r s' [Hok Hsm] Hs. destruct (decide (sb_gcur s = sb_gend s)) as [He|He].
    + unfold sbumpc in Hs. rewrite decide_False in Hs by (intros ?; done). by injection Hs as _ <-.
    + destruct (sbumpc_areas s r s') as [? Hk]; [done..|]. eauto.
Qed.

(** ** Properties *)

(** Writing and reading a block (sputn, sgetn) is the same as writing or
    reading its characters one by one up to the first failure, for every derived
    class whose operations on characters keep the areas well-formed and below
    2^31 characters: the same
    count or characters and the same state, although the block operations copy
    whole areas and call the virtual functions only when an area is exhausted. *)
Theorem block_io_each {D : Type} `{!SbufVirtuals D} (ok : sbuf D → Prop) `{!SbufSpec D ok} (s : sbuf D) :
  ok s → (∀ cs, xsputn cs s = put_each 0 cs s) ∧ (∀ n, xsgetn n s = get_each (Z.to_nat n) [] s).
Proof. intros Hok. split; [intros cs; by apply (xsputn_each ok)|intros n; by apply (xsgetn_each ok)]. Qed.

(** ** Witnesses *)
Definition example_sbuf : sbuf unit :=
  Sbuf {[ 0 := [Some 1%Z; Some 2%Z; None; None; None] ]} (Some (0, 0)) (Some (0, 0)) (Some (0, 2))
    (Some (0, 2)) (Some (0, 2)) (Some (0, 4)) ().

Lemma block_io_each_witness :
  fst <$> xsputn [7; 8; 9]%Z example_sbuf = Ret 2 ∧ fst <$> xsgetn 5 example_sbuf = Ret [1; 2]%Z ∧
  (∀ cs, xsputn cs example_sbuf = put_each 0 cs example_sbuf) ∧
  (∀ n, xsgetn n example_sbuf = get_each (Z.to_nat n) [] example_sbuf).
Proof.
  split; [vm_compute; reflexivity|]. split; [vm_compute; reflexivity|].
  apply (block_io_each (λ s, areas_ok s ∧ areas_small s)). split.
  2:{ split; intros b i c j [= <- <-] [= <- <-]; cbn; lia. }
  split; [|split].
  - cbn. split_and!; [done|lia|]. eexists. split; [by vm_compute|cbn; lia].
  - cbn. split_and!; [done|lia|]. eexists. split; [by vm_compute|cbn; lia].
  - intros b i j a k [= <- <-] [= <-] Ha Hk. vm_compute in Ha. injection Ha as <-.
    destruct k as [|[|k]]; [by eexists|by eexists|lia].
Defined.
