(* ===== verification/StringBuf.v ===== *)
(** * String buffers

    basic_stringbuf of cxxrt-source/include/srccxx/sstream.cc: a stream buffer
    whose get and put area lie in one array that grows when it is full; and what
    it stands for, a text with a position for reading and one for writing, to which
    StringText relates it. *)
From S2P Require Import Prelude StreamBuf.

(** ** ios_base::openmode and seekdir *)
Definition om_in : Z := 1.
Definition om_out : Z := 2.
Definition om_inout : Z := 3.
Definition om_has (mode m : Z) : bool := negb (bool_decide (Z.land mode m = 0%Z)).
Inductive seekdir := seek_beg | seek_cur | seek_end.

(** ** The members *)
Record stringbuf := Stringbuf { st_mode : Z; st_beg : buf_ptr; st_end : buf_ptr }.

(** The sequences that the mode asks for, over the whole array. *)
Definition strbuf_areas (s : sbuf stringbuf) : sbuf stringbuf :=
  let d := sb_derived s in
  let s := if om_has (st_mode d) om_in then setg (st_beg d) (st_beg d) (st_end d) s else s in
  if om_has (st_mode d) om_out then setp (st_beg d) (st_end d) s else s.

Definition strbuf_ctor (m : memory) (mode : Z) : sbuf stringbuf :=
  let '(p, m) := mem_new m 0 in strbuf_areas (sbuf_ctor m (Stringbuf mode p p)).
(** An array with the characters of the string; [n] is the size to be allocated. *)
Definition strbuf_array (m : memory) (n : nat) (cs : list Z) : option (memory * buf_ptr * buf_ptr) :=
  let '(p, m) := mem_new m n in
  m ← mem_copy m p cs; q ← ptr_add m p (Z.of_nat (length cs)); Some (m, p, q).
Definition strbuf_ctor_str (m : memory) (cs : list Z) (mode : Z) : outcome (sbuf stringbuf) :=
  '(m, p, q) ← or_ub (strbuf_array m (length cs) cs);
  Ret (strbuf_areas (sbuf_ctor m (Stringbuf mode p q))).
Definition strbuf_dtor (s : sbuf stringbuf) : outcome memory := or_ub (mem_delete (sb_mem s) (st_beg (sb_derived s))).

Definition mem_string (m : memory) (p q : buf_ptr) : option (list Z) := n ← ptr_sub q p; mem_read m p (Z.to_nat n).
Definition strbuf_str (s : sbuf stringbuf) : outcome (list Z) :=
  if decide (sb_pbeg s = sb_pend s) then
    if decide (sb_gbeg s = sb_gend s) then Ret [] else or_ub (mem_string (sb_mem s) (sb_gbeg s) (sb_gend s))
  else or_ub (mem_string (sb_mem s) (sb_pbeg s) (sb_pend s)).
Definition strbuf_set_str (cs : list Z) (s : sbuf stringbuf) : outcome (sbuf stringbuf) :=
  let d := sb_derived s in
  '(m, p, q) ← or_ub (strbuf_array (sb_mem s) (if decide (length cs = 0) then 1 else length cs) cs);
  m ← or_ub (mem_delete m (st_beg d));
  Ret (strbuf_areas (sb_set_derived (Stringbuf (st_mode d) p q) (sb_set_mem m s))).

(** ** The virtual functions *)
Definition strbuf_underflow (s : sbuf stringbuf) : outcome (option Z * sbuf stringbuf) :=
  if decide (sb_gcur s = sb_gend s) then Ret (None, s)
  else c ← or_ub (mem_load (sb_mem s) (sb_gcur s)); Ret (Some c, s).

Definition strbuf_pbackfail (c : option Z) (s : sbuf stringbuf) : outcome (option Z * sbuf stringbuf) :=
  if decide (sb_gbeg s ≠ sb_gcur s) then
    match c with
    | None => s ← or_ub (gbump (-1) s); Ret (not_eof c, s)
    | Some ch =>
        s' ← or_ub (gbump (-1) s);
        d ← or_ub (mem_load (sb_mem s') (sb_gcur s'));
        if bool_decide (ch = d) || om_has (st_mode (sb_derived s)) om_out then
          m ← or_ub (mem_store (sb_mem s') (sb_gcur s') ch);
          Ret (c, sb_set_mem m s')
        else Ret (None, s)
    end
  else Ret (None, s).

(** [copy] between arrays: elements which have not been assigned are copied, too. *)
Definition mem_move (m : memory) (p q : buf_ptr) (n : nat) : option memory :=
  '(b, i) ← p; '(c, j) ← q; a ← m !! b; a' ← m !! c;
  if decide (i + n ≤ length a ∧ j + n ≤ length a' ∧ b ≠ c)
  then Some (<[b := list_inserts i (take n (drop j a')) a]> m) else None.

Definition strbuf_append (c : Z) (s : sbuf stringbuf) : outcome (sbuf stringbuf) :=
  m ← or_ub (mem_store (sb_mem s) (sb_pcur s) c);
  let s := sb_set_mem m s in
  q ← or_ub (ptr_add m (sb_pend s) 1);
  let s := setp (sb_pbeg s) q s in
  n ← or_ub (ptr_sub (sb_pend s) (sb_pbeg s));
  s ← or_ub (pbump n s);
  Ret (if decide (sb_gbeg s ≠ None) then setg (sb_gbeg s) (sb_gcur s) (sb_pcur s) s else s).

Definition strbuf_grow (c : Z) (s : sbuf stringbuf) : outcome (sbuf stringbuf) :=
  let d := sb_derived s in
  size ← or_ub (ptr_sub (st_end d) (st_beg d));
  let asize := if decide (size = 0%Z) then 256%Z else (2 * size)%Z in
  let '(nv, m) := mem_new (sb_mem s) (Z.to_nat asize) in
  m ← or_ub (mem_move m nv (st_beg d) (Z.to_nat size));
  m ← or_ub (mem_delete m (st_beg d));
  last ← or_ub (ptr_add m nv asize);
  at_end ← or_ub (ptr_add m nv size);
  m ← or_ub (mem_store m at_end c);
  let s := sb_set_derived (Stringbuf (st_mode d) nv last) (sb_set_mem m s) in
  pend ← or_ub (ptr_add m nv (size + 1));
  s ← or_ub (pbump (size + 1) (setp nv pend s));
  if om_has (st_mode d) om_in then
    n ← or_ub (ptr_sub (sb_gcur s) (sb_gbeg s));
    r ← or_ub (ptr_add m (sb_pbeg s) n);
    Ret (setg (sb_pbeg s) r (sb_pcur s) s)
  else Ret s.

Definition strbuf_overflow (c : option Z) (s : sbuf stringbuf) : outcome (option Z * sbuf stringbuf) :=
  match c with
  | None => Ret (not_eof c, s)
  | Some ch =>
      if om_has (st_mode (sb_derived s)) om_out then
        s ← (if decide (st_beg (sb_derived s) = None) then
               let '(p, m) := mem_new (sb_mem s) 64 in
               q ← or_ub (ptr_add m p 64);
               Ret (setp p p (sb_set_derived (Stringbuf (st_mode (sb_derived s)) p q) (sb_set_mem m s)))
             else Ret s);
        s ← (if decide (sb_pcur s ≠ sb_pend s) then
               m ← or_ub (mem_store (sb_mem s) (sb_pcur s) ch); or_ub (pbump 1 (sb_set_mem m s))
             else if decide (sb_pend s ≠ st_end (sb_derived s)) then strbuf_append ch s
             else strbuf_grow ch s);
        Ret (c, s)
      else Ret (None, s)
  end.

#[export] Instance stringbuf_virtuals : SbufVirtuals stringbuf := {|
  v_underflow := strbuf_underflow;
  v_uflow := base_uflow strbuf_underflow;
  v_pbackfail := strbuf_pbackfail;
  v_overflow := strbuf_overflow;
  v_showmanyc := base_showmanyc;
|}.

(** *** Positions *)

(** A distance is an off_type, a 64-bit ptrdiff_t; the least one cannot be
    negated. *)
Definition off_negates (off : Z) : bool := bool_decide (off ≠ - 2 ^ 63)%Z.

(** The new position as a pointer, [Some None] for the result -1. *)
Definition seekoff_target (off : Z) (dir : seekdir) (which : Z) (s : sbuf stringbuf) : option (option buf_ptr) :=
  let beg := st_beg (sb_derived s) in
  let e := if om_has (st_mode (sb_derived s)) om_out then sb_pend s else sb_gend s in
  match dir with
  | seek_beg =>
      if decide (off < 0)%Z then Some None
      else n ← ptr_sub e beg;
           if decide (n < off)%Z then Some None else Some <$> ptr_add (sb_mem s) beg off
  | seek_end =>
      if decide (0 < off)%Z then Some None
      else n ← ptr_sub e beg;
           if negb (off_negates off) then None
           else if decide (n < - off)%Z then Some None else Some <$> ptr_add (sb_mem s) e off
  | seek_cur =>
      if decide (Z.land which om_inout = om_inout) then Some None
      else
        let np := if om_has which om_in then sb_gcur s else sb_pcur s in
        n ← ptr_sub np beg;
        if decide (off < - n)%Z then Some None
        else k ← ptr_sub e np;
             if decide (k < off)%Z then Some None else Some <$> ptr_add (sb_mem s) np off
  end.

Definition seek_get (np : buf_ptr) (s : sbuf stringbuf) : option (sbuf stringbuf) :=
  n ← ptr_sub np (sb_gcur s); gbump n s.
Definition seek_put (np : buf_ptr) (s : sbuf stringbuf) : option (sbuf stringbuf) :=
  n ← ptr_sub np (sb_pcur s); pbump n s.

Definition strbuf_seekoff (off : Z) (dir : seekdir) (which : Z) (s : sbuf stringbuf) : outcome (Z * sbuf stringbuf) :=
  let mode := st_mode (sb_derived s) in
  target ← or_ub (seekoff_target off dir which s);
  match target with
  | None => Ret (-1, s)%Z
  | Some np =>
      r ← (if decide (Z.land which om_inout = om_in) then
             if om_has mode om_in && bool_decide (sb_gcur s ≠ None)
             then s ← or_ub (seek_get np s); Ret (Some s) else Ret None
           else if decide (Z.land which om_inout = om_out) then
             if om_has mode om_out && bool_decide (sb_pcur s ≠ None)
             then s ← or_ub (seek_put np s); Ret (Some s) else Ret None
           else if decide (Z.land which om_inout = om_inout) then
             if bool_decide (Z.land mode om_inout = om_inout) && bool_decide (sb_gcur s ≠ None) &&
                bool_decide (sb_pcur s ≠ None)
             then s ← or_ub (seek_get np s); s ← or_ub (seek_put np s); Ret (Some s) else Ret None
           else Ret None);
      match r with
      | None => Ret (-1, s)%Z
      | Some s => n ← or_ub (ptr_sub np (st_beg (sb_derived s))); Ret (n, s)
      end
  end.

Definition strbuf_seekpos (pos which : Z) (s : sbuf stringbuf) : outcome (Z * sbuf stringbuf) :=
  let d := sb_derived s in
  let p := if om_has (st_mode d) om_out then sb_pend s else sb_gend s in
  if decide (pos < 0)%Z then Ret (-1, s)%Z
  else
    n ← or_ub (ptr_sub p (st_beg d));
    if decide (n < pos)%Z then Ret (-1, s)%Z
    else
      np ← or_ub (ptr_add (sb_mem s) (st_beg d) pos);
      let w := Z.land (Z.land which om_inout) (st_mode d) in
      if decide (w = om_in) then s ← or_ub (seek_get np s); Ret (pos, s)
      else if decide (w = om_out) then s ← or_ub (seek_put np s); Ret (pos, s)
      else if decide (w = om_inout) then s ← or_ub (seek_get np s); s ← or_ub (seek_put np s); Ret (pos, s)
      else Ret (-1, s)%Z.

(** ** The abstract buffer

    A text and the positions of the next character to be read and to be written.
    A result of [None] is undefined behaviour. *)
Record text_buf := TextBuf { tb_text : list Z; tb_r : nat; tb_w : nat }.

Section text.
Context (mode : Z).
Implicit Types t : text_buf.

Definition tb_rest t : list Z := if om_has mode om_in then drop (tb_r t) (tb_text t) else [].
Definition tb_read (n : nat) t : text_buf := TextBuf (tb_text t) (tb_r t + n) (tb_w t).
Definition tb_write (cs : list Z) t : text_buf :=
  TextBuf (take (tb_w t) (tb_text t) ++ cs ++ drop (tb_w t + length cs) (tb_text t)) (tb_r t) (tb_w t + length cs).

Definition tb_getc t : option Z := head (tb_rest t).
Definition tb_bumpc t : option Z * text_buf :=
  match tb_rest t with [] => (None, t) | c :: _ => (Some c, tb_read 1 t) end.
Definition tb_nextc t : option Z * text_buf :=
  match tb_rest t with [] => (None, t) | _ :: cs => (head cs, tb_read 1 t) end.
Definition tb_putbackc (c : Z) t : option Z * text_buf :=
  match tb_r t with
  | 0 => (None, t)
  | S r =>
      if decide (tb_text t !! r = Some c) then (Some c, TextBuf (tb_text t) r (tb_w t))
      else if om_has mode om_out then (Some c, TextBuf (<[r := c]> (tb_text t)) r (tb_w t))
      else (None, t)
  end.
Definition tb_ungetc t : option Z * text_buf :=
  match tb_r t with 0 => (None, t) | S r => (tb_text t !! r, TextBuf (tb_text t) r (tb_w t)) end.
Definition tb_putc (c : Z) t : option Z * text_buf :=
  if om_has mode om_out then (Some c, tb_write [c] t) else (None, t).
Definition tb_getn (n : Z) t : list Z * text_buf :=
  let cs := take (Z.to_nat n) (tb_rest t) in (cs, tb_read (length cs) t).
Definition tb_putn (cs : list Z) t : nat * text_buf :=
  if om_has mode om_out then (length cs, tb_write cs t) else (0, t).

(** The position which a distance from the beginning, the end or the current
    position denotes. *)
Definition tb_target (off : Z) (dir : seekdir) (which : Z) t : option (option nat) :=
  let n := length (tb_text t) in
  let at_ (pos : Z) := if decide (0 ≤ pos ≤ Z.of_nat n)%Z then Some (Z.to_nat pos) else None in
  match dir with
  | seek_beg => Some (at_ off)
  | seek_end => if off_negates off then Some (if decide (0 < off)%Z then None else at_ (Z.of_nat n + off)%Z) else None
  | seek_cur =>
      if om_has which om_in && om_has which om_out then Some None
      else if om_has which om_in then if om_has mode om_in then Some (at_ (Z.of_nat (tb_r t) + off)%Z) else None
      else if om_has mode om_out then Some (at_ (Z.of_nat (tb_w t) + off)%Z) else None
  end.
Definition tb_move (i o : bool) (pos : nat) t : text_buf :=
  TextBuf (tb_text t) (if i then pos else tb_r t) (if o then pos else tb_w t).
Definition tb_seekoff (off : Z) (dir : seekdir) (which : Z) t : option (Z * text_buf) :=
  target ← tb_target off dir which t;
  let i := om_has which om_in in let o := om_has which om_out in
  Some (match target with
        | Some pos =>
            if (i || o) && implb i (om_has mode om_in) && implb o (om_has mode om_out)
            then (Z.of_nat pos, tb_move i o pos t) else (-1, t)%Z
        | None => (-1, t)%Z
        end).
Definition tb_seekpos (pos which : Z) t : Z * text_buf :=
  let i := om_has which om_in && om_has mode om_in in let o := om_has which om_out && om_has mode om_out in
  if decide (0 ≤ pos ≤ Z.of_nat (length (tb_text t)))%Z
  then if i || o then (pos, tb_move i o (Z.to_nat pos) t) else (-1, t)%Z
  else (-1, t)%Z.
End text.
