(* ===== verification/StringText.v ===== *)
(** * String buffers as texts

    A string buffer (StringBuf) is related to a text with two positions; each
    operation is the one of the abstract buffer, and so are sequences of
    operations. *)
From S2P Require Import Prelude StreamBuf StringBuf.

(** ** The relation *)
Record strbuf_at (m0 : memory) (mode : Z) (b : nat) (a : list (option Z)) (s : sbuf stringbuf) (t : text_buf) : Prop := StrbufAt {
  sa_mode : st_mode (sb_derived s) = mode;
  sa_beg : st_beg (sb_derived s) = Some (b, 0);
  sa_cap : ∃ cap, st_end (sb_derived s) = Some (b, cap) ∧ length (tb_text t) ≤ cap ≤ length a;
  sa_mem : sb_mem s !! b = Some a;
  sa_frame : delete b (sb_mem s) = m0;
  sa_text : take (length (tb_text t)) a = Some <$> tb_text t;
  sa_get : (sb_gbeg s, sb_gcur s, sb_gend s) =
    if om_has mode om_in then (Some (b, 0), Some (b, tb_r t), Some (b, length (tb_text t))) else (None, None, None);
  sa_put : (sb_pbeg s, sb_pcur s, sb_pend s) =
    if om_has mode om_out then (Some (b, 0), Some (b, tb_w t), Some (b, length (tb_text t))) else (None, None, None);
  sa_r : tb_r t ≤ length (tb_text t) ∧ (om_has mode om_in = false → tb_r t = 0);
  sa_w : tb_w t ≤ length (tb_text t);
  sa_small : int_sized (length (tb_text t));
}.
Definition strbuf_rep (m0 : memory) (mode : Z) (s : sbuf stringbuf) (t : text_buf) : Prop := ∃ b a, strbuf_at m0 mode b a s t.
Arguments sa_mode {m0 mode b a s t} _.
Arguments sa_beg {m0 mode b a s t} _.
Arguments sa_cap {m0 mode b a s t} _.
Arguments sa_mem {m0 mode b a s t} _.
Arguments sa_frame {m0 mode b a s t} _.
Arguments sa_text {m0 mode b a s t} _.
Arguments sa_get {m0 mode b a s t} _.
Arguments sa_put {m0 mode b a s t} _.
Arguments sa_r {m0 mode b a s t} _.
Arguments sa_w {m0 mode b a s t} _.
Arguments sa_small {m0 mode b a s t} _.

(** Computes the fields of updated states. *)
Ltac sb_cbn := cbn [or_ub mbind outcome_bind option_bind sb_set_mem sb_set_derived setg setp sb_set_pcur sb_mem sb_gbeg
  sb_gcur sb_gend sb_pbeg sb_pcur sb_pend sb_derived st_mode st_beg st_end tb_text tb_r tb_w fst snd].

Section rep.
Context (m0 : memory) (mode : Z).
Implicit Types (t : text_buf) (s : sbuf stringbuf).

Lemma sa_length b a s t : strbuf_at m0 mode b a s t → length (tb_text t) ≤ length a.
Proof. intros Hr. destruct (sa_cap Hr) as (cap & _ & ?). lia. Qed.
Arguments sa_length {b a s t} _.

Lemma sa_lookup b a s t i c : strbuf_at m0 mode b a s t → tb_text t !! i = Some c → a !! i = Some (Some c).
Proof.
  intros Hr Hi. pose proof (lookup_lt_Some _ _ _ Hi) as Hl.
  assert (H : take (length (tb_text t)) a !! i = Some (Some c)) by (rewrite (sa_text Hr), list_lookup_fmap, Hi; done).
  by rewrite lookup_take_lt in H.
Qed.
Arguments sa_lookup {b a s t i c} _ _.

(** The positions of the get area. *)
Lemma sa_gptrs b a s t :
  strbuf_at m0 mode b a s t →
  (om_has mode om_in = true ∧ sb_gbeg s = Some (b, 0) ∧ sb_gcur s = Some (b, tb_r t) ∧ sb_gend s = Some (b, length (tb_text t))) ∨
  (om_has mode om_in = false ∧ sb_gbeg s = None ∧ sb_gcur s = None ∧ sb_gend s = None).
Proof.
  intros Hr. pose proof (sa_get Hr) as H.
  destruct (om_has mode om_in); injection H as H1 H2 H3; [left|right]; done.
Qed.
Arguments sa_gptrs {b a s t} _.
Lemma sa_pptrs b a s t :
  strbuf_at m0 mode b a s t →
  (om_has mode om_out = true ∧ sb_pbeg s = Some (b, 0) ∧ sb_pcur s = Some (b, tb_w t) ∧ sb_pend s = Some (b, length (tb_text t))) ∨
  (om_has mode om_out = false ∧ sb_pbeg s = None ∧ sb_pcur s = None ∧ sb_pend s = None).
Proof.
  intros Hr. pose proof (sa_put Hr) as H.
  destruct (om_has mode om_out); injection H as H1 H2 H3; [left|right]; done.
Qed.
Arguments sa_pptrs {b a s t} _.

(** A state with another position for reading. *)
Lemma sa_set_r b a s t r :
  strbuf_at m0 mode b a s t → om_has mode om_in = true → r ≤ length (tb_text t) →
  strbuf_at m0 mode b a (setg (sb_gbeg s) (Some (b, r)) (sb_gend s) s) (TextBuf (tb_text t) r (tb_w t)).
Proof.
  intros [] Hin Hle. split; cbn; try done; [|by rewrite Hin].
  rewrite Hin in sa_get0 |- *. injection sa_get0 as -> _ ->. done.
Qed.
Lemma sa_set_w b a s t n :
  strbuf_at m0 mode b a s t → om_has mode om_out = true → n ≤ length (tb_text t) →
  strbuf_at m0 mode b a (sb_set_pcur (Some (b, n)) s) (TextBuf (tb_text t) (tb_r t) n).
Proof.
  intros [] Hin Hle. split; cbn; try done. rewrite Hin in sa_put0 |- *. injection sa_put0 as -> _ ->. done.
Qed.

(** A state with another character in the text. *)
Lemma sa_set_char b a s t i c :
  strbuf_at m0 mode b a s t → i < length (tb_text t) →
  strbuf_at m0 mode b (<[i := Some c]> a) (sb_set_mem (<[b := <[i := Some c]> a]> (sb_mem s)) s)
    (TextBuf (<[i := c]> (tb_text t)) (tb_r t) (tb_w t)).
Proof.
  intros [] Hi. split; cbn [sb_set_mem sb_derived sb_mem sb_gbeg sb_gcur sb_gend sb_pbeg sb_pcur sb_pend tb_text tb_r tb_w];
    rewrite ?length_insert; try done; [apply lookup_insert_eq|by rewrite delete_insert_eq|].
  rewrite list_fmap_insert, <-sa_text0. by rewrite take_insert_lt by lia.
Qed.

Lemma ptr_add_to m b i a n j :
  m !! b = Some a → (Z.of_nat i + n = Z.of_nat j)%Z → j ≤ length a → ptr_add m (Some (b, i)) n = Some (Some (b, j)).
Proof.
  intros Hb Hn Hj. cbn. rewrite Hb. cbn. rewrite decide_True by lia. repeat f_equal. lia.
Qed.

Lemma ptr_sub_in b i j : ptr_sub (Some (b, i)) (Some (b, j)) = Some (Z.of_nat i - Z.of_nat j)%Z.
Proof. cbn. by rewrite decide_True. Qed.

Lemma sa_load b a s t i c : strbuf_at m0 mode b a s t → tb_text t !! i = Some c → mem_load (sb_mem s) (Some (b, i)) = Some c.
Proof. intros Hr Hi. cbn. rewrite (sa_mem Hr). cbn. by rewrite (sa_lookup Hr Hi). Qed.
Arguments sa_load {b a s t i c} _ _.

(** Moving the position for reading. *)
Lemma sa_gbump b a s t n r :
  strbuf_at m0 mode b a s t → om_has mode om_in = true → (Z.of_nat (tb_r t) + n = Z.of_nat r)%Z → r ≤ length (tb_text t) →
  ∃ s', gbump n s = Some s' ∧ sb_gcur s' = Some (b, r) ∧ sb_gend s' = Some (b, length (tb_text t)) ∧
    sb_pcur s' = sb_pcur s ∧ strbuf_at m0 mode b a s' (TextBuf (tb_text t) r (tb_w t)).
Proof.
  intros Hr Hin Hn Hle. destruct (sa_gptrs Hr) as [(_ & Hb & Hc & He)|(? & _)]; [|congruence].
  pose proof (sa_small Hr). destruct (sa_r Hr) as [? _]. unfold gbump. rewrite wraps_int by lia.
  rewrite Hc. rewrite (ptr_add_to _ b _ a n r); [|by eapply sa_mem|done|].
  2:{ pose proof (sa_length Hr). lia. }
  eexists. split; [done|]. split; [done|]. split; [done|]. split; [done|]. by apply sa_set_r.
Qed.
Lemma sa_pbump b a s t n p :
  strbuf_at m0 mode b a s t → om_has mode om_out = true → (Z.of_nat (tb_w t) + n = Z.of_nat p)%Z → p ≤ length (tb_text t) →
  ∃ s', pbump n s = Some s' ∧ strbuf_at m0 mode b a s' (TextBuf (tb_text t) (tb_r t) p).
Proof.
  intros Hr Hin Hn Hle. destruct (sa_pptrs Hr) as [(_ & Hb & Hc & He)|(? & _)]; [|congruence].
  pose proof (sa_small Hr). pose proof (sa_w Hr). unfold pbump. rewrite wraps_int by lia.
  rewrite Hc. rewrite (ptr_add_to _ b _ a n p); [|by eapply sa_mem|done|].
  2:{ pose proof (sa_length Hr). lia. }
  eexists. split; [done|]. by apply sa_set_w.
Qed.

(** The characters that are left to be read. *)
Lemma rest_nil b a s t : strbuf_at m0 mode b a s t → (tb_rest mode t = [] ↔ sb_gcur s = sb_gend s).
Proof.
  intros Hr. unfold tb_rest. destruct (sa_gptrs Hr) as [(-> & _ & -> & ->)|(-> & _ & -> & ->)]; [|done].
  destruct (sa_r Hr) as [Hle _]. split.
  - intros Hd%(f_equal length). rewrite length_drop in Hd. cbn in Hd. repeat f_equal. lia.
  - intros [= ->]. by rewrite drop_ge by lia.
Qed.

Lemma rest_cons b a s t c cs :
  strbuf_at m0 mode b a s t → tb_rest mode t = c :: cs →
  om_has mode om_in = true ∧ sb_gcur s = Some (b, tb_r t) ∧ sb_gend s = Some (b, length (tb_text t)) ∧
  tb_r t < length (tb_text t) ∧ tb_text t !! tb_r t = Some c ∧ cs = drop (S (tb_r t)) (tb_text t).
Proof.
  intros Hr. unfold tb_rest. destruct (sa_gptrs Hr) as [(-> & _ & -> & ->)|(-> & _)]; [|done]. intros Hd.
  assert (Hc : tb_text t !! tb_r t = Some c) by (rewrite <-(Nat.add_0_r (tb_r t)), <-lookup_drop, Hd; done).
  pose proof (lookup_lt_Some _ _ _ Hc). split_and!; try done.
  rewrite (drop_S _ _ _ Hc) in Hd. by injection Hd.
Qed.

Lemma tb_rest_read n t : tb_rest mode (tb_read n t) = drop n (tb_rest mode t).
Proof. unfold tb_rest. destruct (om_has mode om_in); cbn; [|by rewrite drop_nil]. by rewrite drop_drop. Qed.

(** ** The operations

    [computes m (x, t)]: the operation returns [x] and leaves a buffer for [t]. *)
Definition computes {X} (m : outcome (X * sbuf stringbuf)) (r : X * text_buf) : Prop :=
  ∃ s', m = Ret (r.1, s') ∧ strbuf_rep m0 mode s' r.2.

Lemma computes_ret {X} (x : X) b a s t : strbuf_at m0 mode b a s t → computes (Ret (x, s)) (x, t).
Proof. intros Hr. exists s. split; [done|]. by exists b, a. Qed.

Lemma underflow_spec b a s t : strbuf_at m0 mode b a s t → strbuf_underflow s = Ret (tb_getc mode t, s).
Proof.
  intros Hr. unfold strbuf_underflow, tb_getc. destruct (tb_rest mode t) as [|c cs] eqn:Hrest.
  - by rewrite decide_True by (by eapply rest_nil).
  - destruct (rest_cons _ _ _ _ _ _ Hr Hrest) as (_ & Hc & He & Hlt & Hl & _).
    rewrite Hc, He, decide_False by (intros [= ]; lia). by rewrite (sa_load Hr Hl).
Qed.

Lemma sgetc_spec b a s t : strbuf_at m0 mode b a s t → sgetc s = Ret (tb_getc mode t, s).
Proof.
  intros Hr. unfold sgetc. destruct (tb_rest mode t) as [|c cs] eqn:Hrest.
  - rewrite decide_True by (symmetry; by eapply rest_nil). by apply (underflow_spec b a).
  - destruct (rest_cons _ _ _ _ _ _ Hr Hrest) as (_ & Hc & He & Hlt & Hl & _).
    rewrite Hc, He, decide_False by (intros [= ]; lia). rewrite (sa_load Hr Hl).
    unfold tb_getc. by rewrite Hrest.
Qed.

Lemma sbumpc_spec s t : strbuf_rep m0 mode s t → computes (sbumpc s) (tb_bumpc mode t).
Proof.
  intros (b & a & Hr). unfold sbumpc, tb_bumpc. destruct (tb_rest mode t) as [|c cs] eqn:Hrest.
  - rewrite decide_False by (intros H; apply H; by eapply rest_nil). cbn [v_uflow stringbuf_virtuals]. unfold base_uflow.
    rewrite (underflow_spec b a s t Hr). unfold tb_getc. rewrite Hrest. cbn. by apply (computes_ret _ b a).
  - destruct (rest_cons _ _ _ _ _ _ Hr Hrest) as (Hin & Hc & He & Hlt & Hl & _).
    rewrite Hc, He, decide_True by (intros [= ]; lia). rewrite (sa_load Hr Hl).
    destruct (sa_gbump b a s t 1 (tb_r t + 1) Hr Hin) as (s' & Hs & _ & _ & _ & Hr'); [lia..|]. cbn. rewrite Hs.
    by apply (computes_ret _ b a).
Qed.

Lemma snextc_spec s t : strbuf_rep m0 mode s t → computes (snextc s) (tb_nextc mode t).
Proof.
  intros Hrep. pose proof Hrep as (b & a & Hr). unfold snextc, tb_nextc. destruct (tb_rest mode t) as [|c cs] eqn:Hrest.
  - pose proof (proj1 (rest_nil _ _ _ _ Hr) Hrest) as He.
    assert (Hn : ptr_sub (sb_gend s) (sb_gcur s) = Some 0%Z).
    { rewrite He. destruct (sb_gend s) as [[b' i]|]; [|done]. rewrite ptr_sub_in. f_equal. lia. }
    rewrite Hn. cbn [or_ub mbind outcome_bind]. rewrite decide_True by done.
    destruct (sbumpc_spec s t Hrep) as (s' & Hs & Hr'). unfold tb_bumpc in Hs, Hr'. rewrite Hrest in Hs, Hr'.
    cbn in Hs, Hr'. rewrite Hs. cbn. by exists s'.
  - destruct (rest_cons _ _ _ _ _ _ Hr Hrest) as (Hin & Hc & He & Hlt & Hl & Hcs).
    destruct (sa_gbump b a s t 1 (tb_r t + 1) Hr Hin) as (s' & Hs & Hc' & He' & _ & Hr'); [lia..|].
    rewrite Hc, He, ptr_sub_in. cbn [or_ub mbind outcome_bind]. rewrite decide_False by lia. rewrite Hs.
    assert (Hh : head cs = tb_getc mode (tb_read 1 t)).
    { unfold tb_getc. rewrite tb_rest_read, Hrest. done. }
    rewrite Hh. destruct (decide (tb_r t + 1 = length (tb_text t))) as [Hend|Hend].
    + rewrite decide_True by lia. cbn. rewrite (sgetc_spec _ _ _ _ Hr'). by apply (computes_ret _ b a).
    + rewrite decide_False by lia. cbn [or_ub mbind outcome_bind]. rewrite Hc'.
      destruct (lookup_lt_is_Some_2 (tb_text t) (tb_r t + 1) ltac:(lia)) as [d Hd].
      rewrite (sa_load Hr' Hd). replace (tb_getc mode (tb_read 1 t)) with (Some d).
      { by apply (computes_ret _ b a). }
      rewrite <-Hh, Hcs, <-Nat.add_1_r, (drop_S _ _ _ Hd). done.
Qed.

(** Going back by one character. *)
Lemma back_spec b a s t r : strbuf_at m0 mode b a s t → tb_r t = S r →
  sb_gbeg s ≠ sb_gcur s ∧ ∃ c s', tb_text t !! r = Some c ∧ gbump (-1) s = Some s' ∧
    sb_gcur s' = Some (b, r) ∧ mem_load (sb_mem s') (sb_gcur s') = Some c ∧
    strbuf_at m0 mode b a s' (TextBuf (tb_text t) r (tb_w t)).
Proof.
  intros Hr Hrt. destruct (sa_r Hr) as [Hle Hno].
  destruct (sa_gptrs Hr) as [(Hin & Hb & Hc & _)|(Hin & _)]; [|specialize (Hno Hin); lia].
  split; [rewrite Hb, Hc; intros [= ]; lia|].
  destruct (lookup_lt_is_Some_2 (tb_text t) r ltac:(lia)) as [c Hl].
  destruct (sa_gbump b a s t (-1) r Hr Hin) as (s' & Hs & Hc' & _ & _ & Hr'); [lia..|].
  exists c, s'. split_and!; [done..| |done]. rewrite Hc'. by apply (sa_load Hr').
Qed.

Lemma back_none b a s t : strbuf_at m0 mode b a s t → tb_r t = 0 → sb_gbeg s = sb_gcur s.
Proof. intros Hr Ht. by destruct (sa_gptrs Hr) as [(_ & -> & -> & _)|(_ & -> & -> & _)]; rewrite ?Ht. Qed.

Lemma pbackfail_spec c s t : strbuf_rep m0 mode s t → computes (strbuf_pbackfail (Some c) s) (tb_putbackc mode c t).
Proof.
  intros (b & a & Hr). unfold strbuf_pbackfail, tb_putbackc. destruct (tb_r t) as [|r] eqn:Ht.
  { rewrite decide_False by (intros H; apply H; by eapply back_none). by apply (computes_ret _ b a). }
  destruct (back_spec _ _ _ _ _ Hr Ht) as (Hne & d & s' & Hl & Hs & Hc & Hd & Hr').
  rewrite decide_True, Hs by done. cbn [or_ub mbind outcome_bind]. rewrite Hd. cbn [or_ub mbind outcome_bind].
  rewrite (sa_mode Hr), Hl.
  assert (Hst : computes (m ← or_ub (mem_store (sb_mem s') (sb_gcur s') c); Ret (Some c, sb_set_mem m s'))
    (Some c, TextBuf (<[r := c]> (tb_text t)) r (tb_w t))).
  { rewrite Hc. cbn. rewrite (sa_mem Hr'). cbn. pose proof (lookup_lt_Some _ _ _ Hl).
    rewrite decide_True by (pose proof (sa_length Hr); lia). cbn.
    eapply computes_ret. by apply (sa_set_char b a s' _ r c Hr'). }
  destruct (decide (Some d = Some c)) as [[= ->]|Hdc].
  - rewrite bool_decide_true by done. cbn [orb]. rewrite list_insert_id in Hst by done. exact Hst.
  - rewrite bool_decide_false by congruence. cbn [orb]. destruct (om_has mode om_out); [exact Hst|].
    by apply (computes_ret _ b a).
Qed.

Lemma sputbackc_spec c s t : strbuf_rep m0 mode s t → computes (sputbackc c s) (tb_putbackc mode c t).
Proof.
  intros Hrep. pose proof Hrep as (b & a & Hr). unfold sputbackc. case_decide as He; [by apply pbackfail_spec|].
  destruct (tb_r t) as [|r] eqn:Ht; [by destruct (He (back_none _ _ _ _ Hr Ht))|].
  destruct (back_spec _ _ _ _ _ Hr Ht) as (_ & d & s' & Hl & Hs & Hc & Hd & Hr').
  rewrite Hs. cbn [or_ub mbind outcome_bind]. rewrite Hd. cbn [or_ub mbind outcome_bind].
  case_decide as Hcd; [|by apply pbackfail_spec]. subst d. unfold tb_putbackc. rewrite Ht, decide_True by done.
  by apply (computes_ret _ b a).
Qed.

Lemma sungetc_spec s t : strbuf_rep m0 mode s t → computes (sungetc s) (tb_ungetc t).
Proof.
  intros (b & a & Hr). unfold sungetc, tb_ungetc. destruct (tb_r t) as [|r] eqn:Ht.
  - pose proof (back_none _ _ _ _ Hr Ht) as He. rewrite decide_True by done. cbn [v_pbackfail stringbuf_virtuals].
    unfold strbuf_pbackfail. rewrite decide_False by (intros H; by apply H). by apply (computes_ret _ b a).
  - destruct (back_spec _ _ _ _ _ Hr Ht) as (Hne & d & s' & Hl & Hs & Hc & Hd & Hr').
    rewrite decide_False, Hs by done. cbn [or_ub mbind outcome_bind]. rewrite Hd, Hl. by apply (computes_ret _ b a).
Qed.

(** ** Writing *)
Lemma take_S_insert (a : list (option Z)) cs c :
  length cs < length a → take (length cs) a = Some <$> cs →
  take (S (length cs)) (<[length cs := Some c]> a) = Some <$> (cs ++ [c]).
Proof.
  intros Hl Ht. rewrite (take_S_r _ _ (Some c)) by (by apply list_lookup_insert_eq).
  by rewrite take_insert_ge, Ht, fmap_app by lia.
Qed.

Lemma tb_write_in c t : tb_w t < length (tb_text t) →
  tb_write [c] t = TextBuf (<[tb_w t := c]> (tb_text t)) (tb_r t) (tb_w t + 1).
Proof.
  intros Hw. unfold tb_write. f_equal. cbn [length]. rewrite insert_take_drop by done. by rewrite Nat.add_1_r.
Qed.
Lemma tb_write_end c t : tb_w t = length (tb_text t) → tb_write [c] t = TextBuf (tb_text t ++ [c]) (tb_r t) (tb_w t + 1).
Proof. intros Hw. unfold tb_write. f_equal. rewrite take_ge, drop_ge by lia. by rewrite app_nil_r. Qed.

(** The text keeps a size which an int holds when [cs] are written. *)
Definition tb_fits (cs : list Z) t : Prop := int_sized (length (tb_text (tb_write cs t))).
#[export] Instance tb_fits_dec cs t : Decision (tb_fits cs t).
Proof. unfold tb_fits. apply _. Defined.
Lemma tb_fits_end c t : tb_w t = length (tb_text t) → tb_fits [c] t → int_sized (length (tb_text t) + 1).
Proof. intros Hw. unfold tb_fits. rewrite tb_write_end by done. cbn. rewrite length_app. done. Qed.

(** The character goes into the put area. *)
Lemma put_in_area b a s t c :
  strbuf_at m0 mode b a s t → om_has mode om_out = true → tb_w t < length (tb_text t) →
  ∃ m s', mem_store (sb_mem s) (sb_pcur s) c = Some m ∧ pbump 1 (sb_set_mem m s) = Some s' ∧
    strbuf_rep m0 mode s' (tb_write [c] t).
Proof.
  intros Hr Hout Hw. destruct (sa_pptrs Hr) as [(_ & _ & Hc & _)|(? & _)]; [|congruence].
  pose proof (sa_length Hr). rewrite Hc. cbn. rewrite (sa_mem Hr). cbn.
  rewrite decide_True by lia. eexists. pose proof (sa_set_char b a s t _ c Hr Hw) as Hr'.
  destruct (sa_pbump _ _ _ _ 1 (tb_w t + 1) Hr' Hout) as (s' & Hs & Hr''); [cbn; lia|cbn; rewrite length_insert; lia|].
  exists s'. split_and!; [done..|]. rewrite tb_write_in by done. eexists _, _. exact Hr''.
Qed.

Lemma mem_store_in m b i a c :
  m !! b = Some a → i < length a → mem_store m (Some (b, i)) c = Some (<[b := <[i := Some c]> a]> m).
Proof. intros Hb Hi. cbn. rewrite Hb. cbn. by rewrite decide_True. Qed.

Lemma strbuf_append_spec b a s t c :
  strbuf_at m0 mode b a s t → om_has mode om_out = true → tb_w t = length (tb_text t) →
  sb_pend s ≠ st_end (sb_derived s) → tb_fits [c] t →
  ∃ s', strbuf_append c s = Ret s' ∧ strbuf_rep m0 mode s' (tb_write [c] t).
Proof.
  intros Hr Hout Hw. destruct (sa_pptrs Hr) as [(_ & Hb & Hc & He)|(? & _)]; [|congruence].
  pose proof (sa_gptrs Hr) as Hg. destruct Hr as [Hmode Hbeg (cap & Hcap & Hle) Hm Hfr Ht _ _ Hrr _ _].
  intros Hne Hsm%tb_fits_end; [|done]. rewrite He, Hcap in Hne. assert (Hn : length (tb_text t) < cap) by (destruct (decide (length (tb_text t) = cap)); [congruence|lia]).
  destruct s as [m gb gc ge pb pc pe d]. cbn in Hb, Hc, He, Hg, Hmode, Hbeg, Hcap, Hm, Hfr. subst pb pc pe.
  unfold strbuf_append, pbump. sb_cbn. rewrite Hw, (mem_store_in _ b _ a) by (done || lia). sb_cbn.
  set (n := length (tb_text t)) in *. set (a' := <[n := Some c]> a). set (m' := <[b := a']> m).
  assert (Hm' : m' !! b = Some a') by apply lookup_insert_eq.
  assert (Ha' : length a' = length a) by apply length_insert.
  rewrite (ptr_add_to m' b n a' 1 (n + 1)) by (done || lia). sb_cbn. rewrite ptr_sub_in. sb_cbn.
  rewrite wraps_int by lia. rewrite (ptr_add_to m' b 0 a' _ (n + 1)) by (done || lia). sb_cbn.
  eexists. split; [done|]. rewrite tb_write_end by done. exists b, a'.
  assert (Hat : ∀ gb' gc' ge', (gb', gc', ge') = (if om_has mode om_in then (Some (b, 0), Some (b, tb_r t), Some (b, n + 1))
      else (None, None, None)) →
    strbuf_at m0 mode b a' (Sbuf m' gb' gc' ge' (Some (b, 0)) (Some (b, n + 1)) (Some (b, n + 1))
      d) (TextBuf (tb_text t ++ [c]) (tb_r t) (tb_w t + 1))).
  { intros gb' gc' ge' Hget. split; sb_cbn; rewrite ?length_app, ?Ha'; cbn [length]; try done.
    - exists cap. split; [done|lia].
    - unfold m'. by rewrite delete_insert_eq.
    - rewrite Nat.add_1_r. apply take_S_insert; [lia|done].
    - by rewrite Hout, Hw.
    - split; [lia|apply Hrr].
    - lia. }
  destruct Hg as [(Hin & -> & -> & ->)|(Hin & -> & -> & ->)].
  - rewrite decide_True by done. apply Hat. by rewrite Hin.
  - rewrite decide_False by (intros H; by apply H). apply Hat. by rewrite Hin.
Qed.

Lemma mem_new_ne m (b n : nat) a : m !! b = Some a →
  ∃ b2, mem_new m n = (Some (b2, 0), <[b2 := replicate n None]> m) ∧ b2 ≠ b ∧ m !! b2 = None.
Proof.
  intros Hb. eexists. split; [done|]. split; [|apply not_elem_of_dom, is_fresh].
  intros He. apply (is_fresh (dom m)). rewrite He. by apply elem_of_dom_2 in Hb.
Qed.

Lemma list_inserts_0_replicate {A} (a : list A) x n :
  length a ≤ n → list_inserts 0 a (replicate n x) = a ++ replicate (n - length a) x.
Proof.
  intros Hn. replace n with (length a + (n - length a)) at 1 by lia. rewrite replicate_add.
  by apply list_inserts_0_r; rewrite length_replicate.
Qed.

(** The array is copied to one twice as large. *)
(** The array is copied to one twice as large. *)
Lemma grow_array m b a cap asize : m !! b = Some a → cap ≤ length a → cap < asize →
  ∃ b2 m1 m2, mem_new m asize = (Some (b2, 0), m1) ∧
    mem_move m1 (Some (b2, 0)) (Some (b, 0)) cap = Some m2 ∧
    mem_delete m2 (Some (b, 0)) = Some (delete b m2) ∧
    delete b m2 !! b2 = Some (take cap a ++ replicate (asize - cap) None) ∧
    delete b2 (delete b m2) = delete b m.
Proof.
  intros Hb Hca Hs. destruct (mem_new_ne m b asize a Hb) as (b2 & Hnew & Hne & Hb2). eexists b2, _, _. split; [exact Hnew|].
  assert (Hb' : <[b2 := replicate asize (@None Z)]> m !! b = Some a) by (by rewrite lookup_insert_ne).
  unfold mem_move. cbn [mbind option_bind]. rewrite lookup_insert_eq, Hb'. cbn [mbind option_bind Nat.add].
  rewrite decide_True by (rewrite length_replicate; split_and!; [lia|lia|done]). split; [done|].
  rewrite drop_0, list_inserts_0_replicate, length_take_le by (rewrite ?length_take; lia).
  split; [unfold mem_delete; by rewrite lookup_insert_ne, Hb' by done|].
  split; [by rewrite lookup_delete_ne, lookup_insert_eq by done|].
  by rewrite insert_insert_eq, delete_delete, delete_insert_id.
Qed.

Lemma strbuf_grow_spec b a s t c :
  strbuf_at m0 mode b a s t → om_has mode om_out = true → tb_w t = length (tb_text t) →
  sb_pend s = st_end (sb_derived s) → tb_fits [c] t →
  ∃ s', strbuf_grow c s = Ret s' ∧ strbuf_rep m0 mode s' (tb_write [c] t).
Proof.
  intros Hr Hout Hw. destruct (sa_pptrs Hr) as [(_ & Hb & Hc & He)|(? & _)]; [|congruence].
  pose proof (sa_gptrs Hr) as Hg. destruct Hr as [Hmode Hbeg (cap & Hcap & Hle) Hm Hfr Ht _ _ Hrr _ _].
  intros Hn Hsm%tb_fits_end; [|done]. rewrite He, Hcap in Hn. injection Hn as Hn.
  destruct s as [m gb gc ge pb pc pe d]. cbn in Hb, Hc, He, Hg, Hmode, Hbeg, Hcap, Hm, Hfr. subst pb pc pe.
  unfold strbuf_grow, pbump. sb_cbn. rewrite Hmode, Hbeg, Hcap, ptr_sub_in. sb_cbn. rewrite Z.sub_0_r.
  set (asize := if decide _ then 256%Z else _).
  assert (Has : (Z.of_nat cap < asize)%Z) by (subst asize; case_decide; lia). rewrite Nat2Z.id.
  destruct (grow_array m b a cap (Z.to_nat asize) Hm ltac:(lia) ltac:(lia)) as (b2 & m1 & m2 & Hnew & Hmove & Hdel & Ha2 & Hfr2).
  rewrite Hnew, Hmove. sb_cbn. rewrite Hdel. sb_cbn. set (m3 := delete b m2) in *. clearbody m3.
  set (a2 := take cap a ++ replicate _ None) in Ha2.
  assert (Hl2 : length a2 = Z.to_nat asize) by (subst a2; rewrite length_app, length_take, length_replicate; lia).
  rewrite (ptr_add_to m3 b2 0 a2 asize (length a2)) by (done || lia). sb_cbn.
  rewrite (ptr_add_to m3 b2 0 a2 _ cap) by (done || lia). sb_cbn.
  rewrite (mem_store_in m3 b2 _ a2) by (done || lia). sb_cbn.
  set (a' := <[cap := Some c]> a2). set (m' := <[b2 := a']> m3).
  assert (Hm' : m' !! b2 = Some a') by apply lookup_insert_eq.
  assert (Ha' : length a' = length a2) by apply length_insert.
  rewrite wraps_int by lia. rewrite !(ptr_add_to m' b2 0 a' (Z.of_nat cap + 1) (cap + 1)) by (done || lia). sb_cbn.
  rewrite tb_write_end by done.
  assert (Hat : ∀ gb' gc' ge', (gb', gc', ge') = (if om_has mode om_in
      then (Some (b2, 0), Some (b2, tb_r t), Some (b2, cap + 1)) else (None, None, None)) →
    strbuf_at m0 mode b2 a' (Sbuf m' gb' gc' ge' (Some (b2, 0)) (Some (b2, cap + 1)) (Some (b2, cap + 1))
      (Stringbuf mode (Some (b2, 0)) (Some (b2, length a2)))) (TextBuf (tb_text t ++ [c]) (tb_r t) (tb_w t + 1))).
  { intros gb' gc' ge' Hget. split; sb_cbn; rewrite ?length_app, ?Ha'; cbn [length]; rewrite ?Hn; try done.
    - exists (length a2). split; [done|lia].
    - unfold m'. by rewrite delete_insert_eq, Hfr2.
    - unfold a'. rewrite Nat.add_1_r, <-Hn. apply take_S_insert; [lia|].
      unfold a2. rewrite take_app_le, take_take by (rewrite length_take; lia). by rewrite Nat.min_l, Ht by lia.
    - by rewrite Hout, Hw, Hn.
    - split; [lia|apply Hrr].
    - lia.
    - lia. }
  destruct Hg as [(Hin & -> & -> & ->)|(Hin & -> & -> & ->)]; rewrite Hin.
  - rewrite ptr_sub_in. sb_cbn. rewrite (ptr_add_to m' b2 0 a' _ (tb_r t)) by (done || lia). sb_cbn.
    eexists. split; [done|]. exists b2, a'. apply Hat. by rewrite Hin.
  - eexists. split; [done|]. exists b2, a'. apply Hat. by rewrite Hin.
Qed.

(** When the text is full the distance which [pbump] is given wraps around. *)
Lemma pbump_limit s b n : sb_pcur s = Some (b, 0) → n = (2 ^ 31)%Z → pbump n s = None.
Proof.
  intros Hc ->. unfold pbump. rewrite Hc. change (wraps 32 (2 ^ 31)) with (- 2 ^ 31)%Z. cbn [ptr_add].
  destruct (sb_mem s !! b) as [a|]; [|done]. cbn [mbind option_bind]. by rewrite decide_False by lia.
Qed.
Lemma strbuf_append_limit b a s t c :
  strbuf_at m0 mode b a s t → om_has mode om_out = true → tb_w t = length (tb_text t) →
  sb_pend s ≠ st_end (sb_derived s) → ¬ tb_fits [c] t → strbuf_append c s = UB.
Proof.
  intros Hr Hout Hw Hne Hfull. destruct (sa_pptrs Hr) as [(_ & Hb & Hc & He)|(? & _)]; [|congruence].
  pose proof (sa_small Hr) as Hsm. destruct (sa_cap Hr) as (cap & Hcap & Hle). pose proof (sa_mem Hr) as Hm.
  unfold tb_fits in Hfull. rewrite tb_write_end in Hfull by done. cbn in Hfull. rewrite length_app in Hfull. cbn in Hfull.
  rewrite He, Hcap in Hne. assert (length (tb_text t) ≠ cap) by congruence.
  unfold strbuf_append. rewrite Hc, (mem_store_in _ b _ a) by (done || lia). sb_cbn. rewrite He.
  rewrite (ptr_add_to _ b _ (<[tb_w t := Some c]> a) 1 (length (tb_text t) + 1))
    by (rewrite ?length_insert; apply lookup_insert_eq || lia).
  sb_cbn. rewrite Hb, ptr_sub_in. sb_cbn. by rewrite (pbump_limit _ b) by (done || lia).
Qed.

Lemma strbuf_grow_limit b a s t c :
  strbuf_at m0 mode b a s t → om_has mode om_out = true → tb_w t = length (tb_text t) →
  sb_pend s = st_end (sb_derived s) → ¬ tb_fits [c] t → strbuf_grow c s = UB.
Proof.
  intros Hr Hout Hw Hn Hfull. destruct (sa_pptrs Hr) as [(_ & _ & _ & He)|(? & _)]; [|congruence].
  pose proof (sa_small Hr) as Hsm. unfold tb_fits in Hfull. rewrite tb_write_end in Hfull by done.
  cbn in Hfull. rewrite length_app in Hfull. cbn in Hfull.
  unfold strbuf_grow. rewrite <-Hn, (sa_beg Hr), He, ptr_sub_in. cbn [or_ub mbind outcome_bind]. unfold mem_new.
  do 6 (lazymatch goal with |- or_ub ?x ≫= _ = _ => destruct x end; cbn [or_ub mbind outcome_bind]; [|done]).
  by rewrite (pbump_limit _ (fresh (dom (sb_mem s)))) by (done || lia).
Qed.

Lemma sputc_limit c s t : strbuf_rep m0 mode s t → om_has mode om_out = true → ¬ tb_fits [c] t → sputc c s = UB.
Proof.
  intros (b & a & Hr) Hout Hfull. pose proof (sa_w Hr). pose proof (sa_small Hr).
  assert (Hw : tb_w t = length (tb_text t)).
  { destruct (decide (tb_w t = length (tb_text t))); [done|]. destruct Hfull. unfold tb_fits.
    rewrite tb_write_in by lia. cbn. by rewrite length_insert. }
  unfold sputc. destruct (sa_pptrs Hr) as [(_ & _ & Hc & He)|(? & _)]; [|congruence].
  rewrite decide_True by by rewrite Hc, He, Hw. cbn [v_overflow stringbuf_virtuals]. unfold strbuf_overflow.
  rewrite (sa_mode Hr), Hout, decide_False by (by rewrite (sa_beg Hr)). sb_cbn.
  rewrite decide_False by (rewrite Hc, He, Hw; auto).
  destruct (decide (sb_pend s = st_end (sb_derived s))) as [Hn|Hn].
  - rewrite decide_False by auto. by rewrite (strbuf_grow_limit b a s t c).
  - rewrite decide_True by done. by rewrite (strbuf_append_limit b a s t c).
Qed.

Lemma sputc_spec c s t : strbuf_rep m0 mode s t → (om_has mode om_out = true → tb_fits [c] t) → computes (sputc c s) (tb_putc mode c t).
Proof.
  intros (b & a & Hr) Hfit. unfold sputc, tb_putc. destruct (sa_pptrs Hr) as [(Hout & _ & Hc & He)|(Hout & _ & Hc & He)].
  2:{ rewrite Hc, He, Hout, decide_True by done. cbn [v_overflow stringbuf_virtuals]. unfold strbuf_overflow.
      rewrite (sa_mode Hr), Hout. by apply (computes_ret _ b a). }
  rewrite Hout. pose proof (sa_w Hr). destruct (decide (tb_w t = length (tb_text t))) as [Hw|Hw].
  - assert (Heq : sb_pcur s = sb_pend s) by (by rewrite Hc, He, Hw).
    rewrite decide_True by done. cbn [v_overflow stringbuf_virtuals]. unfold strbuf_overflow.
    rewrite (sa_mode Hr), Hout, decide_False by (by rewrite (sa_beg Hr)). sb_cbn.
    rewrite decide_False by (intros H1; by apply H1).
    destruct (decide (sb_pend s = st_end (sb_derived s))) as [Hn|Hn].
    + rewrite decide_False by (intros H1; by apply H1).
      destruct (strbuf_grow_spec _ _ _ _ c Hr Hout Hw Hn (Hfit Hout)) as (s' & Hs & Hr'). rewrite Hs. by exists s'.
    + rewrite decide_True by done.
      destruct (strbuf_append_spec _ _ _ _ c Hr Hout Hw Hn (Hfit Hout)) as (s' & Hs & Hr'). rewrite Hs. by exists s'.
  - rewrite decide_False by (rewrite Hc, He; intros [= ]; lia).
    destruct (put_in_area _ _ _ _ c Hr Hout ltac:(lia)) as (m & s' & Hm & Hs & Hr'). rewrite Hm. sb_cbn. rewrite Hs.
    by exists s'.
Qed.
End rep.
Arguments sa_length {m0 mode b a s t} _.
Arguments sa_lookup {m0 mode b a s t i c} _ _.
Arguments sa_gptrs {m0 mode b a s t} _.
Arguments sa_pptrs {m0 mode b a s t} _.

(** ** Blocks *)
#[export] Instance stringbuf_spec m0 mode : SbufSpec stringbuf (λ s, ∃ t, strbuf_rep m0 mode s t).
Proof.
  split.
  - intros s (t & b & a & Hr). pose proof (sa_w Hr). pose proof (sa_length Hr).
    pose proof (sa_mem Hr). destruct (sa_pptrs Hr) as [(_ & _ & -> & ->)|(_ & _ & -> & ->)]; [|done].
    cbn. eauto.
  - intros s (t & b & a & Hr). pose proof (sa_length Hr). destruct (sa_r Hr) as [? _].
    pose proof (sa_mem Hr) as Hm. destruct (sa_gptrs Hr) as [(_ & _ & -> & ->)|(_ & _ & -> & ->)]; [|done].
    split; [cbn; eauto|]. intros b' i j a' k [= <- <-] [= <-] Ha Hk. rewrite Hm in Ha. injection Ha as <-.
    destruct (lookup_lt_is_Some_2 (tb_text t) k ltac:(lia)) as [c Hc]. exists c. by eapply sa_lookup.
  - intros s (t & b & a & Hr). pose proof (sa_small Hr). split; intros b' i c j Hi Hj.
    + destruct (sa_pptrs Hr) as [(_ & _ & _ & Hq)|(_ & _ & _ & Hq)]; rewrite Hq in Hj; [|done].
      injection Hj as _ <-. lia.
    + destruct (sa_gptrs Hr) as [(_ & _ & _ & Hq)|(_ & _ & _ & Hq)]; rewrite Hq in Hj; [|done].
      injection Hj as _ <-. lia.
  - intros c s r s' (t & Hr) Hs. destruct (decide (om_has mode om_out = true → tb_fits [c] t)) as [Hfit|Hfull].
    + destruct (sputc_spec m0 mode c s t Hr Hfit) as (s2 & Hs2 & Hr2).
      rewrite Hs in Hs2. injection Hs2 as _ ->. eauto.
    + destruct (om_has mode om_out) eqn:Hout; [|by destruct Hfull].
      rewrite (sputc_limit m0 mode c s t) in Hs; [done|done|done|]. intros ?. by apply Hfull.
  - intros s r s' (t & Hr) Hs. destruct (sbumpc_spec m0 mode s t Hr) as (s2 & Hs2 & Hr2).
    rewrite Hs in Hs2. injection Hs2 as _ ->. eauto.
Qed.

Lemma tb_write_nil t : tb_write [] t = t.
Proof. destruct t as [x r w]. unfold tb_write. cbn. by rewrite Nat.add_0_r, take_drop. Qed.

Lemma tb_write_w cs t : tb_w t ≤ length (tb_text t) → tb_w (tb_write cs t) ≤ length (tb_text (tb_write cs t)).
Proof. intros Hw. cbn. rewrite !length_app, length_take, length_drop. lia. Qed.

Lemma tb_write_app cs ds t : tb_w t ≤ length (tb_text t) → tb_write ds (tb_write cs t) = tb_write (cs ++ ds) t.
Proof.
  intros Hw. unfold tb_write. cbn [tb_text tb_r tb_w]. rewrite length_app, Nat.add_assoc. f_equal.
  set (P := take (tb_w t) (tb_text t)). set (Q := drop (tb_w t + length cs) (tb_text t)).
  assert (Hl : length (P ++ cs) = tb_w t + length cs) by (subst P; rewrite length_app, length_take; lia).
  rewrite (assoc_L (++) P cs Q), take_app_length' by done. rewrite <-(assoc_L (++) P cs), <-(assoc_L (++) cs ds).
  do 3 f_equal. rewrite drop_app, Hl, drop_ge by lia. subst Q. rewrite drop_drop. cbn [app]. f_equal. lia.
Qed.

Lemma tb_write_length cs t : tb_w t ≤ length (tb_text t) →
  length (tb_text (tb_write cs t)) = Nat.max (length (tb_text t)) (tb_w t + length cs).
Proof. intros Hw. cbn. rewrite !length_app, length_take, length_drop. lia. Qed.
Lemma tb_fits_cons c cs t : tb_w t ≤ length (tb_text t) → tb_fits (c :: cs) t → tb_fits [c] t ∧ tb_fits cs (tb_write [c] t).
Proof.
  intros Hw Hfit. unfold tb_fits in *. rewrite tb_write_app by done. split; [|exact Hfit].
  rewrite tb_write_length in * by done. cbn [length] in *. lia.
Qed.

Section blocks.
Context (m0 : memory) (mode : Z).

Lemma puts_spec cs s t : strbuf_rep m0 mode s t → om_has mode om_out = true → tb_fits cs t →
  ∃ s', puts cs s s' ∧ strbuf_rep m0 mode s' (tb_write cs t).
Proof.
  revert s t. induction cs as [|c cs IH]; intros s t Hr Hout Hfit.
  { rewrite tb_write_nil. exists s. split; [constructor|done]. }
  assert (Hle : tb_w t ≤ length (tb_text t)) by (destruct Hr as (b & a & Hr); by destruct Hr).
  destruct (tb_fits_cons c cs t Hle Hfit) as [Hfit1 Hfit2].
  destruct (sputc_spec m0 mode c s t Hr) as (s' & Hs & Hr'); [done|]. unfold tb_putc in Hs, Hr'.
  rewrite Hout in Hs, Hr'. cbn [fst snd] in Hs, Hr'. destruct (IH s' _ Hr' Hout Hfit2) as (s2 & Hp & Hr2).
  rewrite tb_write_app in Hr2 by done.
  exists s2. split; [by econstructor|done].
Qed.

Lemma sputn_spec cs s t : strbuf_rep m0 mode s t → (om_has mode om_out = true → tb_fits cs t) → computes m0 mode (xsputn cs s) (tb_putn mode cs t).
Proof.
  intros Hr Hfit. rewrite (xsputn_each (λ s, ∃ t, strbuf_rep m0 mode s t)) by eauto. unfold tb_putn.
  destruct (om_has mode om_out) eqn:Hout.
  { destruct (puts_spec cs s t Hr Hout (Hfit eq_refl)) as (s' & Hp & Hr'). pose proof (puts_each cs [] s s' 0 Hp) as Heq.
    rewrite app_nil_r in Heq. rewrite Heq. by exists s'. }
  destruct cs as [|c cs]; [by exists s|]. cbn [put_each].
  destruct (sputc_spec m0 mode c s t Hr) as (s' & Hs & Hr'); [congruence|]. unfold tb_putc in Hs, Hr'. rewrite Hout in Hs, Hr'.
  cbn [fst snd] in Hs, Hr'. rewrite Hs. by exists s'.
Qed.

Lemma get_each_spec n acc s t : strbuf_rep m0 mode s t →
  computes m0 mode (get_each n acc s)
    (acc ++ take n (tb_rest mode t), tb_read (length (take n (tb_rest mode t))) t).
Proof.
  revert acc s t. induction n as [|n IH]; intros acc s t Hr; cbn [get_each].
  { exists s. cbn [take length fst snd]. rewrite app_nil_r. split; [done|]. unfold tb_read. rewrite Nat.add_0_r. by destruct t. }
  destruct (sbumpc_spec m0 mode s t Hr) as (s' & Hs & Hr'). unfold tb_bumpc in Hs, Hr'.
  destruct (tb_rest mode t) as [|c cs] eqn:Hrest; cbn [fst snd] in Hs, Hr'; rewrite Hs; sb_cbn.
  { exists s'. cbn [take length fst snd]. rewrite app_nil_r. split; [done|]. unfold tb_read. rewrite Nat.add_0_r. by destruct t. }
  destruct (IH (acc ++ [c]) s' _ Hr') as (s2 & Hs2 & Hr2). cbn [fst snd] in Hs2, Hr2.
  rewrite tb_rest_read, Hrest in Hs2, Hr2. cbn [drop] in Hs2, Hr2. exists s2. cbn [fst snd take length].
  rewrite <-(assoc_L (++)) in Hs2. split; [exact Hs2|]. unfold tb_read in *. cbn in Hr2. by rewrite <-Nat.add_assoc in Hr2.
Qed.

Lemma sgetn_spec n s t : strbuf_rep m0 mode s t → computes m0 mode (xsgetn n s) (tb_getn mode n t).
Proof.
  intros Hr. rewrite (xsgetn_each (λ s, ∃ t, strbuf_rep m0 mode s t)) by eauto. by apply (get_each_spec _ []).
Qed.
End blocks.

(** ** Positions *)
Lemma inout_bits z : Z.land z om_inout = (Z.b2z (Z.testbit z 0) + 2 * Z.b2z (Z.testbit z 1))%Z.
Proof.
  assert (Hb : (0 ≤ Z.land z om_inout < 4)%Z) by (change om_inout with (Z.ones 2); rewrite Z.land_ones by lia; apply Z.mod_pos_bound; lia).
  assert (H0 : Z.testbit (Z.land z om_inout) 0 = Z.testbit z 0) by (rewrite Z.land_spec; apply andb_true_r).
  assert (H1 : Z.testbit (Z.land z om_inout) 1 = Z.testbit z 1) by (rewrite Z.land_spec; apply andb_true_r).
  rewrite <-H0, <-H1. generalize dependent (Z.land z om_inout). intros m Hm _ _.
  assert (m = 0 ∨ m = 1 ∨ m = 2 ∨ m = 3)%Z as [-> | [-> | [-> | ->]]] by lia; done.
Qed.

Lemma om_has_in z : om_has z om_in = Z.testbit z 0.
Proof.
  assert (H : Z.land z om_in = Z.land (Z.land z om_inout) om_in) by (rewrite <-Z.land_assoc; done).
  unfold om_has. rewrite H, inout_bits. by destruct (Z.testbit z 0), (Z.testbit z 1).
Qed.
Lemma om_has_out z : om_has z om_out = Z.testbit z 1.
Proof.
  assert (H : Z.land z om_out = Z.land (Z.land z om_inout) om_out) by (rewrite <-Z.land_assoc; done).
  unfold om_has. rewrite H, inout_bits. by destruct (Z.testbit z 0), (Z.testbit z 1).
Qed.

Section seek.
Context (m0 : memory) (mode : Z).
Implicit Types (t : text_buf) (s : sbuf stringbuf).

(** The end which a position is checked against. *)
Lemma seek_end_ptr b a s t : strbuf_at m0 mode b a s t → om_has mode om_in = true ∨ om_has mode om_out = true →
  (if om_has mode om_out then sb_pend s else sb_gend s) = Some (b, length (tb_text t)).
Proof.
  intros Hr Hio. destruct (om_has mode om_out) eqn:Ho.
  - by destruct (sa_pptrs Hr) as [(_ & _ & _ & ?)|(? & _)]; [|congruence].
  - destruct Hio as [Hi|]; [|done]. by destruct (sa_gptrs Hr) as [(_ & _ & _ & ?)|(? & _)]; [|congruence].
Qed.

Lemma target_ptr b a s t i off : strbuf_at m0 mode b a s t → i ≤ length (tb_text t) →
  (if decide (off < - Z.of_nat i)%Z then Some None
   else if decide (Z.of_nat (length (tb_text t)) - Z.of_nat i < off)%Z then Some None
   else Some <$> ptr_add (sb_mem s) (Some (b, i)) off) =
  Some ((λ pos, Some (b, pos)) <$>
    (if decide (0 ≤ Z.of_nat i + off ≤ Z.of_nat (length (tb_text t)))%Z then Some (Z.to_nat (Z.of_nat i + off)) else None)).
Proof.
  intros Hr Hi. pose proof (sa_length Hr). case_decide; [by rewrite decide_False by lia|].
  case_decide; [by rewrite decide_False by lia|]. rewrite decide_True by lia.
  by rewrite (ptr_add_to _ _ _ a _ (Z.to_nat (Z.of_nat i + off))) by (lia || by eapply sa_mem).
Qed.

Lemma target_spec b a s t off dir which :
  strbuf_at m0 mode b a s t → om_has mode om_in = true ∨ om_has mode om_out = true →
  seekoff_target off dir which s = option_map (λ pos, Some (b, pos)) <$> tb_target mode off dir which t.
Proof.
  intros Hr Hio. unfold seekoff_target, tb_target. rewrite (sa_mode Hr), (sa_beg Hr).
  rewrite (seek_end_ptr _ _ _ _ Hr Hio). set (n := length (tb_text t)). destruct dir.
  - pose proof (target_ptr b a s t 0 off Hr ltac:(lia)) as H. fold n in H. rewrite ptr_sub_in. cbn [mbind option_bind].
    change (Z.of_nat 0) with 0%Z in *. rewrite Z.add_0_l, Z.opp_0, !Z.sub_0_r in *. rewrite H. done.
  - rewrite inout_bits, !om_has_in, om_has_out. pose proof (sa_w Hr). destruct (sa_r Hr) as [? _].
    destruct (Z.testbit which 0) eqn:Hwi, (Z.testbit which 1) eqn:Hwo; cbn [andb Z.b2z Z.mul Z.add Pos.mul Pos.add];
      [by rewrite decide_True by done|rewrite decide_False by done..].
    + rewrite <-om_has_in. destruct (sa_gptrs Hr) as [(-> & _ & -> & _)|(-> & _ & -> & _)]; [|done].
      rewrite !ptr_sub_in. cbn [mbind option_bind]. rewrite Z.sub_0_r. by eapply target_ptr.
    + destruct (sa_pptrs Hr) as [(-> & _ & -> & _)|(-> & _ & -> & _)]; [|done].
      rewrite !ptr_sub_in. cbn [mbind option_bind]. rewrite Z.sub_0_r. by eapply target_ptr.
    + destruct (sa_pptrs Hr) as [(-> & _ & -> & _)|(-> & _ & -> & _)]; [|done].
      rewrite !ptr_sub_in. cbn [mbind option_bind]. rewrite Z.sub_0_r. by eapply target_ptr.
  - unfold off_negates. destruct (decide (off = - 2 ^ 63)%Z) as [->|Hoff].
    { rewrite !bool_decide_eq_false_2 by auto. rewrite decide_False, ptr_sub_in by lia. done. }
    rewrite !bool_decide_eq_true_2 by done. cbn [negb].
    case_decide; [done|]. rewrite ptr_sub_in. cbn [mbind option_bind].
    pose proof (target_ptr b a s t n off Hr ltac:(lia)) as Htp. fold n in Htp. etransitivity; [|exact Htp].
    rewrite Z.sub_0_r. repeat case_decide; try lia; done.
Qed.

Lemma seek_get_spec b a s t pos :
  strbuf_at m0 mode b a s t → om_has mode om_in = true → pos ≤ length (tb_text t) →
  sb_gcur s ≠ None ∧ ∃ s', seek_get (Some (b, pos)) s = Some s' ∧ strbuf_at m0 mode b a s' (TextBuf (tb_text t) pos (tb_w t)).
Proof.
  intros Hr Hin Hpos. destruct (sa_gptrs Hr) as [(_ & _ & Hc & _)|(? & _)]; [|congruence].
  split; [by rewrite Hc|]. unfold seek_get. rewrite Hc, ptr_sub_in. cbn [mbind option_bind].
  destruct (sa_gbump m0 mode b a s t (Z.of_nat pos - Z.of_nat (tb_r t)) pos Hr Hin) as (s' & Hs & _ & _ & _ & Hr'); [lia..|].
  eauto.
Qed.
Lemma seek_put_spec b a s t pos :
  strbuf_at m0 mode b a s t → om_has mode om_out = true → pos ≤ length (tb_text t) →
  sb_pcur s ≠ None ∧ ∃ s', seek_put (Some (b, pos)) s = Some s' ∧ strbuf_at m0 mode b a s' (TextBuf (tb_text t) (tb_r t) pos).
Proof.
  intros Hr Hin Hpos. destruct (sa_pptrs Hr) as [(_ & _ & Hc & _)|(? & _)]; [|congruence].
  split; [by rewrite Hc|]. unfold seek_put. rewrite Hc, ptr_sub_in. cbn [mbind option_bind].
  destruct (sa_pbump m0 mode b a s t (Z.of_nat pos - Z.of_nat (tb_w t)) pos Hr Hin) as (s' & Hs & Hr'); [lia..|].
  eauto.
Qed.

Lemma seek_both_spec b a s t pos :
  strbuf_at m0 mode b a s t → om_has mode om_in = true → om_has mode om_out = true → pos ≤ length (tb_text t) →
  ∃ s1 s2, seek_get (Some (b, pos)) s = Some s1 ∧ seek_put (Some (b, pos)) s1 = Some s2 ∧
    strbuf_at m0 mode b a s2 (TextBuf (tb_text t) pos pos).
Proof.
  intros Hr Hin Hout Hpos. destruct (seek_get_spec _ _ _ _ _ Hr Hin Hpos) as (_ & s1 & H1 & Hr1).
  destruct (seek_put_spec _ _ _ _ pos Hr1 Hout Hpos) as (_ & s2 & H2 & Hr2). eauto.
Qed.

Lemma tb_target_le off dir which t pos : tb_target mode off dir which t = Some (Some pos) → pos ≤ length (tb_text t).
Proof. unfold tb_target. repeat case_match; intros; simplify_eq; lia. Qed.

Lemma seekoff_spec s t off dir which :
  strbuf_rep m0 mode s t → om_has mode om_in = true ∨ om_has mode om_out = true →
  match tb_seekoff mode off dir which t with
  | Some r => computes m0 mode (strbuf_seekoff off dir which s) r
  | None => strbuf_seekoff off dir which s = UB
  end.
Proof.
  intros (b & a & Hr) Hio. unfold tb_seekoff, strbuf_seekoff. rewrite (target_spec b a s t) by done.
  destruct (tb_target mode off dir which t) as [[pos|]|] eqn:Ht; [|by apply (computes_ret _ _ _ b a)|done].
  apply tb_target_le in Ht. cbn [fmap option_fmap option_map mbind option_bind or_ub outcome_bind].
  rewrite (sa_mode Hr), !inout_bits, (om_has_in which), (om_has_out which).
  destruct (Z.testbit which 0) eqn:Hwi, (Z.testbit which 1) eqn:Hwo; cbn [orb andb implb Z.b2z Z.mul Z.add Pos.mul Pos.add].
  - repeat rewrite decide_False by done. rewrite decide_True by done. rewrite (bool_decide_ext _ (om_has mode om_in && om_has mode om_out)).
    2:{ rewrite om_has_in, om_has_out. by destruct (Z.testbit mode 0), (Z.testbit mode 1). }
    destruct (om_has mode om_in) eqn:Hin, (om_has mode om_out) eqn:Hout; cbn [andb];
      try (rewrite bool_decide_false by (intros []); by apply (computes_ret _ _ _ b a)).
    rewrite bool_decide_true by done. destruct (seek_get_spec _ _ _ _ pos Hr Hin Ht) as (Hg & _).
    destruct (seek_put_spec _ _ _ _ pos Hr Hout Ht) as (Hp & _). rewrite !bool_decide_true by done.
    destruct (seek_both_spec _ _ _ _ pos Hr Hin Hout Ht) as (s1 & s2 & H1 & H2 & Hr2). cbn [andb]. rewrite H1. sb_cbn.
    rewrite H2. sb_cbn. rewrite (sa_beg Hr2), ptr_sub_in, Z.sub_0_r. sb_cbn.
    by apply (computes_ret _ _ _ b a).
  - rewrite decide_True by done. destruct (om_has mode om_in) eqn:Hin; cbn [andb]; [|by apply (computes_ret _ _ _ b a)].
    destruct (seek_get_spec _ _ _ _ pos Hr Hin Ht) as (Hg & s1 & H1 & Hr1). rewrite bool_decide_true, H1 by done. sb_cbn.
    rewrite (sa_beg Hr1), ptr_sub_in, Z.sub_0_r. sb_cbn. by apply (computes_ret _ _ _ b a).
  - rewrite decide_False, decide_True by done. destruct (om_has mode om_out) eqn:Hin; cbn [andb]; [|by apply (computes_ret _ _ _ b a)].
    destruct (seek_put_spec _ _ _ _ pos Hr Hin Ht) as (Hg & s1 & H1 & Hr1). rewrite bool_decide_true, H1 by done. sb_cbn.
    rewrite (sa_beg Hr1), ptr_sub_in, Z.sub_0_r. sb_cbn. by apply (computes_ret _ _ _ b a).
  - repeat rewrite decide_False by done. by apply (computes_ret _ _ _ b a).
Qed.
End seek.

Section whole.
Context (m0 : memory) (mode : Z).
Implicit Types (t : text_buf) (s : sbuf stringbuf).

Lemma seekpos_spec s t pos which :
  strbuf_rep m0 mode s t → om_has mode om_in = true ∨ om_has mode om_out = true →
  computes m0 mode (strbuf_seekpos pos which s) (tb_seekpos mode pos which t).
Proof.
  intros (b & a & Hr) Hio. unfold strbuf_seekpos, tb_seekpos.
  rewrite (sa_mode Hr), (sa_beg Hr), (seek_end_ptr m0 mode b a s t Hr Hio).
  case_decide; [rewrite decide_False by lia; by apply (computes_ret _ _ _ b a)|].
  rewrite ptr_sub_in, Z.sub_0_r. sb_cbn. case_decide; [rewrite decide_False by lia; by apply (computes_ret _ _ _ b a)|].
  rewrite decide_True by lia. pose proof (sa_length Hr).
  rewrite (ptr_add_to _ b 0 a _ (Z.to_nat pos)) by (lia || by eapply sa_mem). sb_cbn.
  rewrite <-Z.land_assoc, (Z.land_comm om_inout mode), Z.land_assoc, inout_bits, !Z.land_spec, <-!om_has_in, <-!om_has_out.
  destruct (om_has which om_in && om_has mode om_in) eqn:Hi, (om_has which om_out && om_has mode om_out) eqn:Ho;
    cbn [Z.b2z Z.mul Z.add Pos.mul Pos.add orb].
  - apply andb_true_iff in Hi as [_ Hi], Ho as [_ Ho]. rewrite !decide_False by done. rewrite decide_True by done.
    destruct (seek_both_spec m0 mode b a s t (Z.to_nat pos) Hr Hi Ho ltac:(lia)) as (s1 & s2 & -> & H2 & Hr2). sb_cbn.
    rewrite H2. sb_cbn. by apply (computes_ret _ _ _ b a).
  - apply andb_true_iff in Hi as [_ Hi]. rewrite decide_True by done.
    destruct (seek_get_spec m0 mode b a s t (Z.to_nat pos) Hr Hi ltac:(lia)) as (_ & s1 & -> & Hr1). sb_cbn.
    by apply (computes_ret _ _ _ b a).
  - apply andb_true_iff in Ho as [_ Ho]. rewrite decide_False, decide_True by done.
    destruct (seek_put_spec m0 mode b a s t (Z.to_nat pos) Hr Ho ltac:(lia)) as (_ & s1 & -> & Hr1). sb_cbn.
    by apply (computes_ret _ _ _ b a).
  - rewrite !decide_False by done. by apply (computes_ret _ _ _ b a).
Qed.

Lemma in_avail_spec s t : strbuf_rep m0 mode s t → in_avail s = Ret (Z.of_nat (length (tb_rest mode t)), s).
Proof.
  intros (b & a & Hr). unfold in_avail. destruct (tb_rest mode t) as [|c cs] eqn:Hrest.
  - rewrite decide_False; [done|]. intros H; apply H. symmetry. by eapply (rest_nil m0 mode b a).
  - destruct (rest_cons _ _ _ _ _ _ _ _ Hr Hrest) as (_ & -> & -> & Hlt & _ & ->).
    rewrite decide_True by (intros [= ]; lia). rewrite ptr_sub_in. cbn [or_ub mbind outcome_bind length].
    do 2 f_equal. rewrite length_drop. lia.
Qed.

(** *** The text *)
Lemma mapM_id_Some (cs : list Z) : mapM id (Some <$> cs) = Some cs.
Proof. induction cs as [|c cs IH]; [done|]. cbn. by rewrite IH. Qed.

Lemma mem_string_from b a s t i :
  strbuf_at m0 mode b a s t → i ≤ length (tb_text t) →
  mem_string (sb_mem s) (Some (b, i)) (Some (b, length (tb_text t))) = Some (drop i (tb_text t)).
Proof.
  intros Hr Hi. unfold mem_string. rewrite ptr_sub_in, <-Nat2Z.inj_sub by done. cbn [mbind option_bind].
  rewrite Nat2Z.id. cbn [mem_read mbind option_bind]. rewrite (sa_mem Hr). cbn [mbind option_bind].
  rewrite decide_True by (pose proof (sa_length Hr); lia).
  rewrite <-skipn_firstn_comm, (sa_text Hr), <-fmap_drop. apply mapM_id_Some.
Qed.
Lemma mem_string_spec b a s t :
  strbuf_at m0 mode b a s t → mem_string (sb_mem s) (Some (b, 0)) (Some (b, length (tb_text t))) = Some (tb_text t).
Proof. intros Hr. apply (mem_string_from b a s t 0 Hr). lia. Qed.

Lemma str_spec s t : strbuf_rep m0 mode s t → om_has mode om_in = true ∨ om_has mode om_out = true →
  strbuf_str s = Ret (tb_text t).
Proof.
  intros (b & a & Hr) Hio. pose proof (mem_string_spec b a s t Hr) as Hs. unfold strbuf_str.
  destruct (sa_pptrs Hr) as [(_ & -> & _ & ->)|(Ho & -> & _ & ->)],
    (sa_gptrs Hr) as [(_ & -> & _ & ->)|(Hi & -> & _ & ->)]; rewrite ?Hs.
  - case_decide as He; [|done]. injection He as He. symmetry in He. apply nil_length_inv in He. by rewrite He.
  - case_decide as He; [|done]. injection He as He. symmetry in He. apply nil_length_inv in He. by rewrite He.
  - rewrite decide_True by done. case_decide as He; [|done]. injection He as He. symmetry in He.
    apply nil_length_inv in He. by rewrite He.
  - destruct Hio; congruence.
Qed.

Lemma strbuf_array_spec m (n : nat) cs : length cs ≤ n →
  ∃ b a m', strbuf_array m n cs = Some (m', Some (b, 0), Some (b, length cs)) ∧ m !! b = None ∧
    m' = <[b := a]> m ∧ length cs ≤ length a ∧ take (length cs) a = Some <$> cs.
Proof.
  intros Hn. unfold strbuf_array, mem_new. set (b := fresh (dom m)).
  assert (Hb : m !! b = None) by (apply not_elem_of_dom, is_fresh).
  set (m1 := <[b := replicate n None]> m). assert (H1 : m1 !! b = Some (replicate n None)) by apply lookup_insert_eq.
  set (a := list_inserts 0 (Some <$> cs) (replicate n None)).
  assert (Ha : a = (Some <$> cs) ++ replicate (n - length cs) None).
  { unfold a. rewrite list_inserts_0_replicate; by rewrite length_fmap. }
  exists b, a, (<[b := a]> m1). cbn [mem_copy mbind option_bind]. rewrite H1. cbn [mbind option_bind].
  rewrite decide_True by (rewrite length_replicate; lia). cbn [mbind option_bind].
  assert (Hl : length cs ≤ length a) by (rewrite Ha, length_app, length_fmap; lia).
  rewrite (ptr_add_to _ b 0 a _ (length cs)) by (done || lia || apply lookup_insert_eq).
  split_and!; [done|done|by unfold m1; rewrite insert_insert_eq|done|].
  by rewrite Ha, take_app_length' by (by rewrite length_fmap).
Qed.

(** A buffer over a new array. *)
Lemma strbuf_areas_spec b a m cs s :
  m !! b = Some a → delete b m = m0 → length cs ≤ length a → take (length cs) a = Some <$> cs → sb_mem s = m →
  sb_derived s = Stringbuf mode (Some (b, 0)) (Some (b, length cs)) →
  (om_has mode om_in = false → (sb_gbeg s, sb_gcur s, sb_gend s) = (None, None, None)) →
  (om_has mode om_out = false → (sb_pbeg s, sb_pcur s, sb_pend s) = (None, None, None)) → int_sized (length cs) →
  strbuf_at m0 mode b a (strbuf_areas s) (TextBuf cs 0 0).
Proof.
  intros Hm Hfr Hl Ht Hs Hd Hg Hp Hsm. destruct s as [m' gb gc ge pb pc pe d]. cbn in Hs, Hd, Hg, Hp. subst m' d.
  unfold strbuf_areas. sb_cbn.
  destruct (om_has mode om_in) eqn:Hi, (om_has mode om_out) eqn:Ho; split; sb_cbn; rewrite ?Hi, ?Ho;
    eauto with lia; try (by apply Hg); try (by apply Hp); exists (length cs); split; done || lia.
Qed.

Lemma set_str_spec cs s t : strbuf_rep m0 mode s t → int_sized (length cs) →
  ∃ s', strbuf_set_str cs s = Ret s' ∧ strbuf_rep m0 mode s' (TextBuf cs 0 0).
Proof.
  intros (b & a & Hr) Hsm. unfold strbuf_set_str.
  destruct (strbuf_array_spec (sb_mem s) (if decide (length cs = 0) then 1 else length cs) cs)
    as (b2 & a2 & m' & -> & Hb2 & -> & Hl & Ht); [case_decide; lia|].
  pose proof (sa_mem Hr) as Hm. assert (Hne : b2 ≠ b) by congruence.
  sb_cbn. rewrite (sa_beg Hr). unfold mem_delete. rewrite lookup_insert_ne, Hm by done. sb_cbn.
  rewrite decide_True by done. sb_cbn. eexists. split; [done|]. exists b2, a2.
  apply (strbuf_areas_spec _ _ (delete b (<[b2 := a2]> (sb_mem s)))); try done; sb_cbn.
  - by rewrite lookup_delete_ne, lookup_insert_eq.
  - by rewrite delete_delete, delete_insert_id, (sa_frame Hr).
  - by rewrite (sa_mode Hr).
  - intros Hi. by destruct (sa_gptrs Hr) as [(? & _)|(_ & -> & -> & ->)]; [congruence|].
  - intros Hi. by destruct (sa_pptrs Hr) as [(? & _)|(_ & -> & -> & ->)]; [congruence|].
Qed.

(** The destructor leaves the other arrays. *)
Lemma dtor_spec s t : strbuf_rep m0 mode s t → strbuf_dtor s = Ret m0.
Proof.
  intros (b & a & Hr). unfold strbuf_dtor. rewrite (sa_beg Hr). unfold mem_delete. rewrite (sa_mem Hr). cbn.
  by rewrite (sa_frame Hr).
Qed.

Lemma ctor_spec : strbuf_rep m0 mode (strbuf_ctor m0 mode) (TextBuf [] 0 0).
Proof.
  unfold strbuf_ctor, mem_new. eexists _, _.
  eapply strbuf_areas_spec; [apply lookup_insert_eq|apply delete_insert_id|..]; try done; [|cbn; lia].
  apply not_elem_of_dom, is_fresh.
Qed.
Lemma ctor_str_spec cs : int_sized (length cs) → ∃ s, strbuf_ctor_str m0 cs mode = Ret s ∧ strbuf_rep m0 mode s (TextBuf cs 0 0).
Proof.
  intros Hsm. unfold strbuf_ctor_str. destruct (strbuf_array_spec m0 (length cs) cs) as (b & a & m' & -> & Hb & -> & Hl & Ht); [lia|].
  eexists. split; [done|]. exists b, a. eapply strbuf_areas_spec; try done; [apply lookup_insert_eq|by apply delete_insert_id].
Qed.
End whole.

(** ** Sequences of operations *)
Inductive buf_op :=
  | OpGetc | OpBumpc | OpNextc | OpPutbackc (c : Z) | OpUngetc | OpPutc (c : Z)
  | OpGetn (n : Z) | OpPutn (cs : list Z)
  | OpSeekoff (off : Z) (dir : seekdir) (which : Z) | OpSeekpos (pos which : Z)
  | OpAvail | OpStr | OpSetStr (cs : list Z).
Inductive buf_res := ResChar (c : option Z) | ResChars (cs : list Z) | ResNum (n : Z) | ResUnit.

Definition run_buf_op (op : buf_op) (s : sbuf stringbuf) : outcome (buf_res * sbuf stringbuf) :=
  match op with
  | OpGetc => '(c, s) ← sgetc s; Ret (ResChar c, s)
  | OpBumpc => '(c, s) ← sbumpc s; Ret (ResChar c, s)
  | OpNextc => '(c, s) ← snextc s; Ret (ResChar c, s)
  | OpPutbackc c => '(c, s) ← sputbackc c s; Ret (ResChar c, s)
  | OpUngetc => '(c, s) ← sungetc s; Ret (ResChar c, s)
  | OpPutc c => '(c, s) ← sputc c s; Ret (ResChar c, s)
  | OpGetn n => '(cs, s) ← xsgetn n s; Ret (ResChars cs, s)
  | OpPutn cs => '(n, s) ← xsputn cs s; Ret (ResNum (Z.of_nat n), s)
  | OpSeekoff off dir which => '(n, s) ← strbuf_seekoff off dir which s; Ret (ResNum n, s)
  | OpSeekpos pos which => '(n, s) ← strbuf_seekpos pos which s; Ret (ResNum n, s)
  | OpAvail => '(n, s) ← in_avail s; Ret (ResNum n, s)
  | OpStr => cs ← strbuf_str s; Ret (ResChars cs, s)
  | OpSetStr cs => s ← strbuf_set_str cs s; Ret (ResUnit, s)
  end.

(** The same on the abstract buffer. *)
Definition tb_op (mode : Z) (op : buf_op) (t : text_buf) : option (buf_res * text_buf) :=
  let char (r : option Z * text_buf) := Some (ResChar r.1, r.2) in
  match op with
  | OpGetc => Some (ResChar (tb_getc mode t), t)
  | OpBumpc => char (tb_bumpc mode t)
  | OpNextc => char (tb_nextc mode t)
  | OpPutbackc c => char (tb_putbackc mode c t)
  | OpUngetc => char (tb_ungetc t)
  | OpPutc c => char (tb_putc mode c t)
  | OpGetn n => let r := tb_getn mode n t in Some (ResChars r.1, r.2)
  | OpPutn cs => let r := tb_putn mode cs t in Some (ResNum (Z.of_nat r.1), r.2)
  | OpSeekoff off dir which => r ← tb_seekoff mode off dir which t; Some (ResNum r.1, r.2)
  | OpSeekpos pos which => let r := tb_seekpos mode pos which t in Some (ResNum r.1, r.2)
  | OpAvail => Some (ResNum (Z.of_nat (length (tb_rest mode t))), t)
  | OpStr => Some (ResChars (tb_text t), t)
  | OpSetStr cs => Some (ResUnit, TextBuf cs 0 0)
  end.

Fixpoint run_buf_ops (ops : list buf_op) (s : sbuf stringbuf) : outcome (list buf_res * sbuf stringbuf) :=
  match ops with
  | [] => Ret ([], s)
  | op :: ops => '(r, s) ← run_buf_op op s; '(rs, s) ← run_buf_ops ops s; Ret (r :: rs, s)
  end.
Fixpoint tb_ops (mode : Z) (ops : list buf_op) (t : text_buf) : option (list buf_res * text_buf) :=
  match ops with
  | [] => Some ([], t)
  | op :: ops => '(r, t) ← tb_op mode op t; '(rs, t) ← tb_ops mode ops t; Some (r :: rs, t)
  end.

(** How many characters an operation can add to the text. *)
Definition op_chars (op : buf_op) : nat :=
  match op with OpPutc _ => 1 | OpPutn cs | OpSetStr cs => length cs | _ => 0 end.
Fixpoint ops_chars (ops : list buf_op) : nat :=
  match ops with [] => 0 | op :: ops => op_chars op + ops_chars ops end.

Lemma tb_op_length mode op t r t' : tb_w t ≤ length (tb_text t) → tb_op mode op t = Some (r, t') →
  length (tb_text t') ≤ length (tb_text t) + op_chars op.
Proof.
  intros Hw. pose proof (λ cs, tb_write_length cs t Hw) as Hl.
  destruct op; cbn [tb_op op_chars]; try (intros [= <- <-]); cbn [snd]; try lia.
  - unfold tb_bumpc. destruct (tb_rest mode t); cbn; lia.
  - unfold tb_nextc. destruct (tb_rest mode t); cbn; lia.
  - unfold tb_putbackc. repeat case_match; cbn; rewrite ?length_insert; lia.
  - unfold tb_ungetc. destruct (tb_r t); cbn; lia.
  - unfold tb_putc. destruct (om_has mode om_out); cbn [snd]; [|lia]. specialize (Hl [c]). cbn [length] in Hl. lia.
  - cbn. lia.
  - unfold tb_putn. destruct (om_has mode om_out); cbn [snd]; [|lia]. specialize (Hl cs). lia.
  - unfold tb_seekoff. destruct (tb_target mode off dir which t) as [[pos|]|]; cbn; [|intros [= _ <-]; lia|done].
    destruct (_ && _); intros [= _ <-]; cbn; lia.
  - unfold tb_seekpos. repeat case_match; cbn; lia.
  - cbn. lia.
Qed.

Section refinement.
Context (m0 : memory) (mode : Z) (Hmode : om_has mode om_in = true ∨ om_has mode om_out = true).

Lemma computes_bind {X} (m : outcome (X * sbuf stringbuf)) (f : X → buf_res) r :
  computes m0 mode m r → computes m0 mode ('(x, s) ← m; Ret (f x, s)) (f r.1, r.2).
Proof. intros (s' & -> & Hr). by exists s'. Qed.

Lemma buf_op_spec op s t : strbuf_rep m0 mode s t → int_sized (length (tb_text t) + op_chars op) →
  match tb_op mode op t with
  | Some r => computes m0 mode (run_buf_op op s) r
  | None => run_buf_op op s = UB
  end.
Proof.
  intros Hr Hsm. assert (Hfit : ∀ cs, length cs ≤ op_chars op → tb_fits cs t).
  { intros cs Hcs. destruct Hr as (b & a & Hr). pose proof (sa_w Hr). unfold tb_fits. rewrite tb_write_length by done. lia. }
  destruct op; cbn [tb_op run_buf_op op_chars] in *;
    try (apply computes_bind; by eauto using sbumpc_spec, snextc_spec, sputbackc_spec, sungetc_spec, sputc_spec,
           sgetn_spec, sputn_spec, seekpos_spec).
  - destruct Hr as (b & a & Hr). rewrite (sgetc_spec m0 mode b a s t Hr). by apply (computes_ret _ _ _ b a).
  - apply (computes_bind _ (λ n, ResNum (Z.of_nat n)) (tb_putn mode cs t)), sputn_spec; [done|]. intros _. by apply Hfit.
  - pose proof (seekoff_spec m0 mode s t off dir which Hr Hmode) as Hs.
    destruct (tb_seekoff mode off dir which t) as [r|]; cbn [mbind option_bind]; [by apply computes_bind|by rewrite Hs].
  - rewrite (in_avail_spec m0 mode s t Hr). exists s. done.
  - rewrite (str_spec m0 mode s t Hr Hmode). exists s. done.
  - destruct (set_str_spec m0 mode cs s t Hr ltac:(lia)) as (s' & -> & Hr'). by exists s'.
Qed.

Lemma buf_ops_spec ops s t : strbuf_rep m0 mode s t → int_sized (length (tb_text t) + ops_chars ops) →
  match tb_ops mode ops t with
  | Some r => computes m0 mode (run_buf_ops ops s) r
  | None => run_buf_ops ops s = UB
  end.
Proof.
  revert s t. induction ops as [|op ops IH]; intros s t Hr Hsm; [by exists s|]. cbn [tb_ops run_buf_ops ops_chars] in *.
  pose proof (buf_op_spec op s t Hr ltac:(lia)) as Hop. destruct (tb_op mode op t) as [[r t']|] eqn:Ht; [|by rewrite Hop].
  apply tb_op_length in Ht; [|destruct Hr as (b & a & Hr); by destruct Hr].
  destruct Hop as (s' & -> & Hr'). cbn [mbind option_bind outcome_bind fst snd] in *. specialize (IH s' t' Hr' ltac:(lia)).
  destruct (tb_ops mode ops t') as [[rs t'']|]; [|by rewrite IH]. destruct IH as (s'' & -> & Hr''). by exists s''.
Qed.
End refinement.

(** ** Properties *)

(** C33: A string buffer is a text with a position for reading and one for
    writing: whatever sequence of operations follows its construction, for reading,
    writing or both - single
    characters, blocks, putting back, seeking, asking for and replacing the text,
    in any order - the results and the text are those of the abstract buffer, no
    element of an array is read before it was assigned, no pointer leaves its
    array, and the destructor releases all the arrays made on the way. The
    characters of the constructor's text, those written and those of the texts
    set are together fewer than 2^31, because the distances of pbump and gbump
    are ints. With so many characters undefined behaviour comes from two calls
    only, and from these it does: seeking from the current position of a sequence
    which the mode does not include, and seeking from the end by the least
    off_type, -2^63, which cannot be negated. *)
Theorem stringbuf_refinement (m : memory) (mode : Z) (text : option (list Z)) (ops : list buf_op) :
  om_has mode om_in = true ∨ om_has mode om_out = true →
  int_sized (length (default [] text) + ops_chars ops) →
  let run := s ← match text with Some cs => strbuf_ctor_str m cs mode | None => Ret (strbuf_ctor m mode) end;
             run_buf_ops ops s in
  match tb_ops mode ops (TextBuf (default [] text) 0 0) with
  | Some (rs, t) => ∃ s, run = Ret (rs, s) ∧ strbuf_str s = Ret (tb_text t) ∧ strbuf_dtor s = Ret m
  | None => run = UB
  end.
Proof.
  intros Hmode Hsm run.
  assert (∃ s, match text with Some cs => strbuf_ctor_str m cs mode | None => Ret (strbuf_ctor m mode) end = Ret s ∧
    strbuf_rep m mode s (TextBuf (default [] text) 0 0)) as (s & Hs & Hr).
  { destruct text as [cs|]; [apply (ctor_str_spec m mode cs); change (default [] (Some cs)) with cs in Hsm; lia|]. eexists. split; [done|]. apply ctor_spec. }
  unfold run. rewrite Hs. cbn [mbind outcome_bind]. pose proof (buf_ops_spec m mode Hmode ops s _ Hr Hsm) as Hops.
  destruct (tb_ops mode ops _) as [[rs t]|]; [|done]. destruct Hops as (s' & -> & Hr'). exists s'.
  split; [done|]. split; [by eapply str_spec|by eapply dtor_spec].
Qed.

(** ** Witnesses *)
Lemma stringbuf_refinement_witness :
  let ops := [OpPutn [104; 101; 108; 108; 111]; OpBumpc; OpPutbackc 72; OpSeekoff (-1) seek_end om_out; OpPutc 97;
              OpPutc 98; OpGetn 10; OpBumpc; OpSeekpos 9 om_in; OpStr]%Z in
  ∃ s, run_buf_ops ops (strbuf_ctor ∅ om_inout) =
      Ret ([ResNum 5; ResChar (Some 104); ResChar (Some 72); ResNum 4; ResChar (Some 97); ResChar (Some 98);
            ResChars [72; 101; 108; 108; 97; 98]; ResChar None; ResNum (-1); ResChars [72; 101; 108; 108; 97; 98]], s)%Z ∧
    strbuf_str s = Ret [72; 101; 108; 108; 97; 98]%Z ∧ strbuf_dtor s = Ret ∅.
Proof.
  intros ops. pose proof (stringbuf_refinement ∅ om_inout None ops (or_introl eq_refl) ltac:(vm_compute; reflexivity)) as H.
  cbv zeta in H.
  match type of H with
  | match ?x with _ => _ end => let r := eval vm_compute in x in assert (Hr : x = r) by (vm_compute; reflexivity)
  end.
  rewrite Hr in H. exact H.
Defined.
