(* ===== verification/StreamIter.v ===== *)
(** * Iterators on stream buffers

    istreambuf_iterator and ostreambuf_iterator of
    cxxrt-source/include/srccxx/isbuf_it.cc and osbuf_it.cc, and the functions with
    which num_put.cc writes through the latter: they fill the put area directly.
    An iterator is a pointer to a buffer; as at most one iterator is in use at a
    time, the model has the buffer in the iterator. *)
From S2P Require Import Prelude LocaleCache StreamBuf StringBuf StringText NumPut NumGet NumRound.

(** ** istreambuf_iterator *)
Record isbuf_iterator (D : Type) := IsbufIterator { ib_null : bool; ib_buf : sbuf D }.
Arguments IsbufIterator {D} _ _.
Arguments ib_null {D} _.
Arguments ib_buf {D} _.

Section input.
Context {D : Type} `{!SbufVirtuals D}.
Implicit Types i : isbuf_iterator D.

Definition ib_ctor (s : sbuf D) : outcome (isbuf_iterator D) :=
  '(c, s) ← sgetc s; Ret (IsbufIterator (bool_decide (c = None)) s).
Definition ib_deref i : outcome (Z * isbuf_iterator D) :=
  if ib_null i then UB else '(c, s) ← sgetc (ib_buf i); Ret (to_char_type c, IsbufIterator false s).
Definition ib_incr i : outcome (isbuf_iterator D) :=
  if ib_null i then UB else '(c, s) ← snextc (ib_buf i); Ret (IsbufIterator (bool_decide (c = None)) s).
(** The proxy has the character before the increment. *)
Definition ib_post_incr i : outcome (Z * isbuf_iterator D) :=
  '(c, i) ← ib_deref i; i ← ib_incr i; Ret (c, i).
Definition ib_equal (i j : isbuf_iterator D) : bool := eqb (ib_null i) (ib_null j).
End input.

(** Compared with the iterator for the end, which has the null pointer. *)
#[export] Instance isbuf_input {D : Type} `{!SbufVirtuals D} : InputIterator (isbuf_iterator D) := {|
  in_end i := ib_equal i (IsbufIterator true (ib_buf i));
  in_deref := ib_deref;
  in_incr := ib_incr;
|}.

(** ** ostreambuf_iterator *)
Record osbuf_iterator (D : Type) := OsbufIterator { ob_buf : sbuf D; ob_fail : bool }.
Arguments OsbufIterator {D} _ _.
Arguments ob_buf {D} _.
Arguments ob_fail {D} _.

Section output.
Context {D : Type} `{!SbufVirtuals D}.
Implicit Types (s : sbuf D) (o : osbuf_iterator D).

Definition ob_ctor s : osbuf_iterator D := OsbufIterator s false.
Definition ob_assign (c : Z) o : outcome (osbuf_iterator D) :=
  '(r, s) ← sputc c (ob_buf o); Ret (OsbufIterator s (bool_decide (r = None) || ob_fail o)).

Fixpoint ob_each (cs : list Z) o : outcome (osbuf_iterator D) :=
  match cs with [] => Ret o | c :: cs => o ← ob_assign c o; ob_each cs o end.
Definition ob_num_copy (cs : list Z) o : outcome (osbuf_iterator D) :=
  let s := ob_buf o in
  n ← or_ub (ptr_sub (sb_pend s) (sb_pcur s));
  if decide (Z.of_nat (length cs) < n)%Z then
    let to := sb_pcur s in
    s ← or_ub (pbump (Z.of_nat (length cs)) s);
    m ← or_ub (mem_copy (sb_mem s) to cs);
    Ret (OsbufIterator (sb_set_mem m s) (ob_fail o))
  else ob_each cs o.

Fixpoint ob_fill_loop (fuel : nat) (n c : Z) s : outcome (sbuf D) :=
  match fuel with
  | 0 => NoFuel
  | S fuel =>
      if decide (0 < n)%Z then
        t ← or_ub (ptr_sub (sb_pend s) (sb_pcur s));
        if decide (0 < t)%Z then
          let t := Z.min t n in
          m ← or_ub (mem_copy (sb_mem s) (sb_pcur s) (replicate (Z.to_nat t) c));
          s ← or_ub (pbump t (sb_set_mem m s));
          ob_fill_loop fuel (n - t) c s
        else '(_, s) ← sputc c s; ob_fill_loop fuel (n - 1) c s
      else Ret s
  end.
Definition ob_fill_n (n c : Z) o : outcome (osbuf_iterator D) :=
  s ← ob_fill_loop (S (Z.to_nat n)) n c (ob_buf o); Ret (OsbufIterator s (ob_fail o)).

Fixpoint ob_copy_loop (fuel : nat) (cs : list Z) s : outcome (sbuf D) :=
  match fuel with
  | 0 => NoFuel
  | S fuel =>
      match cs with
      | [] => Ret s
      | c :: cs' =>
          n ← or_ub (ptr_sub (sb_pend s) (sb_pcur s));
          if decide (n ≠ 0%Z) then
            let n := Z.min (Z.of_nat (length cs)) n in
            if decide (n < 0)%Z then UB else
            m ← or_ub (mem_copy (sb_mem s) (sb_pcur s) (take (Z.to_nat n) cs));
            s ← or_ub (pbump n (sb_set_mem m s));
            ob_copy_loop fuel (drop (Z.to_nat n) cs) s
          else '(_, s) ← sputc c s; ob_copy_loop fuel cs' s
      end
  end.
Definition ob_copy (cs : list Z) o : outcome (osbuf_iterator D) :=
  s ← ob_copy_loop (S (length cs)) cs (ob_buf o); Ret (OsbufIterator s (ob_fail o)).
End output.

(** ** The bulk functions *)
Section bulk.
Context {D : Type} `{!SbufVirtuals D} (ok : sbuf D → Prop) `{!SbufSpec D ok}.
Implicit Types (s : sbuf D) (o : osbuf_iterator D).

(** Writing the characters one by one, whether that succeeds or not. *)
Fixpoint put_all (cs : list Z) s : outcome (sbuf D) :=
  match cs with [] => Ret s | c :: cs => '(_, s) ← sputc c s; put_all cs s end.

Lemma puts_all cs cs' s s' : puts cs s s' → put_all (cs ++ cs') s = put_all cs' s'.
Proof. induction 1 as [|c cs s s1 s2 Hs Hp IH]; [done|]. cbn. rewrite Hs. exact IH. Qed.
Lemma puts_ob_each cs s s' b : puts cs s s' → ob_each cs (OsbufIterator s b) = Ret (OsbufIterator s' b).
Proof.
  induction 1 as [|c cs s s1 s2 Hs Hp IH]; [done|]. cbn [ob_each]. unfold ob_assign. cbn [ob_buf ob_fail].
  rewrite Hs. exact IH.
Qed.

(** [n] characters into the put area. *)
Lemma put_room_area s n (cs : list Z) : ok s → length cs = n →
  ∀ t, ptr_sub (sb_pend s) (sb_pcur s) = Some (Z.of_nat t) → 0 < t → n ≤ t →
  ∃ m s1 s', mem_copy (sb_mem s) (sb_pcur s) cs = Some m ∧ pbump (Z.of_nat n) s = Some s1 ∧ sb_set_mem m s1 = s' ∧
    sb_mem s1 = sb_mem s ∧ pbump (Z.of_nat n) (sb_set_mem m s) = Some s' ∧ puts cs s s' ∧ ok s'.
Proof.
  intros Hok Hn t Ht Ht0 Hle. destruct (put_room ok s Hok) as (t' & Ht' & Hsm & _ & Hroom).
  rewrite Ht in Ht'. injection Ht' as ->%Nat2Z.inj. destruct (Hroom Ht0) as (b & i & a & Hp & Hq & Hb & Hi).
  destruct (put_area ok b i _ a cs s Hok Hp Hq Hb Hi ltac:(lia)) as [Hputs Hok'].
  eexists _, _, _. rewrite Hp at 1. rewrite (mem_copy_in s b i a) by (done || lia). split; [done|].
  unfold pbump at 1. rewrite wraps_int by lia. rewrite Hp, (ptr_add_in _ b i a n) by (done || lia). split; [done|]. split; [done|].
  split; [done|]. rewrite <-Hn at 1. rewrite (pbump_in s b i a) by (done || lia). split; [|by rewrite <-Hn].
  unfold put_into. by rewrite Hn.
Qed.

Lemma ob_fill_all fuel n c s : ok s → n < fuel → ob_fill_loop fuel (Z.of_nat n) c s = put_all (replicate n c) s.
Proof.
  revert n s. induction fuel as [|fuel IH]; intros n s Hok Hf; [lia|]. cbn [ob_fill_loop].
  destruct n as [|n]; [done|]. rewrite decide_True by lia.
  destruct (put_room ok s Hok) as (t & Ht & _ & _). rewrite Ht. cbn [or_ub mbind outcome_bind].
  case_decide as H0.
  - rewrite <-Nat2Z.inj_min, Nat2Z.id. set (k := t `min` S n).
    destruct (put_room_area s k (replicate k c) Hok ltac:(by rewrite length_replicate) t Ht ltac:(lia) ltac:(lia))
      as (m & s1 & s' & -> & _ & _ & _ & Hs & Hputs & Hok').
    cbn [or_ub mbind outcome_bind]. rewrite Hs. cbn [or_ub mbind outcome_bind]. rewrite <-Nat2Z.inj_sub by lia.
    rewrite IH by (done || lia). replace (S n) with (k + (S n - k)) at 2 by lia. rewrite replicate_add.
    by rewrite (puts_all _ _ _ _ Hputs).
  - cbn [replicate put_all]. destruct (sputc c s) as [[r s']| | |] eqn:Hs; [|done..]. cbn [mbind outcome_bind].
    rewrite Nat2Z.inj_succ, <-Z.add_1_r, Z.add_simpl_r. apply IH; [by eapply ok_sputc|lia].
Qed.

Lemma ob_copy_all fuel cs s : ok s → length cs < fuel → ob_copy_loop fuel cs s = put_all cs s.
Proof.
  revert cs s. induction fuel as [|fuel IH]; intros cs s Hok Hf; [lia|]. cbn [ob_copy_loop].
  destruct cs as [|c cs]; [done|]. destruct (put_room ok s Hok) as (t & Ht & _ & _). rewrite Ht.
  cbn [or_ub mbind outcome_bind]. case_decide as H0.
  - rewrite <-Nat2Z.inj_min, decide_False, Nat2Z.id by lia. set (k := length (c :: cs) `min` t).
    destruct (put_room_area s k (take k (c :: cs)) Hok ltac:(rewrite length_take; lia) t Ht ltac:(lia) ltac:(lia))
      as (m & s1 & s' & -> & _ & _ & _ & Hs & Hputs & Hok').
    cbn [or_ub mbind outcome_bind]. rewrite Hs. cbn [or_ub mbind outcome_bind].
    rewrite IH by (done || rewrite length_drop; cbn [length] in *; lia).
    rewrite <-(take_drop k (c :: cs)) at 2. by rewrite (puts_all _ _ _ _ Hputs).
  - cbn [put_all]. destruct (sputc c s) as [[r s']| | |] eqn:Hs; [|done..]. cbn [mbind outcome_bind].
    apply IH; [by eapply ok_sputc|cbn [length] in *; lia].
Qed.

Lemma ob_num_copy_each cs o : ok (ob_buf o) → ob_num_copy cs o = ob_each cs o.
Proof.
  intros Hok. unfold ob_num_copy. destruct (put_room ok _ Hok) as (t & Ht & _ & _). rewrite Ht.
  cbn [or_ub mbind outcome_bind]. case_decide as H0; [|done].
  destruct (put_room_area (ob_buf o) (length cs) cs Hok eq_refl t Ht ltac:(lia) ltac:(lia))
    as (m & s1 & s' & Hm & -> & Hs & Hmem & _ & Hputs & _).
  cbn [or_ub mbind outcome_bind]. rewrite Hmem, Hm. cbn [or_ub mbind outcome_bind]. rewrite Hs.
  destruct o as [s b]. by rewrite (puts_ob_each _ _ _ _ Hputs).
Qed.

Lemma ob_fill_n_all n c o : ok (ob_buf o) →
  ob_fill_n n c o = (s ← put_all (replicate (Z.to_nat n) c) (ob_buf o); Ret (OsbufIterator s (ob_fail o))).
Proof.
  intros Hok. unfold ob_fill_n. destruct (decide (0 ≤ n)%Z) as [Hn|Hn].
  - rewrite <-(Z2Nat.id n) at 2 by done. rewrite ob_fill_all by (done || lia). done.
  - rewrite Z2Nat.nonpos by lia. cbn [ob_fill_loop]. by rewrite decide_False by lia.
Qed.
Lemma ob_copy_each cs o : ok (ob_buf o) →
  ob_copy cs o = (s ← put_all cs (ob_buf o); Ret (OsbufIterator s (ob_fail o))).
Proof. intros Hok. unfold ob_copy. by rewrite ob_copy_all by (done || lia). Qed.
End bulk.

(** ** String buffers *)
Definition sb_get_chars {D} (s : sbuf D) : list Z := default [] (mem_string (sb_mem s) (sb_gcur s) (sb_gend s)).

Lemma get_chars_spec m0 mode s t : strbuf_rep m0 mode s t → sb_get_chars s = tb_rest mode t.
Proof.
  intros (b & a & Hr). unfold sb_get_chars, tb_rest.
  destruct (sa_gptrs Hr) as [(-> & _ & -> & ->)|(-> & _ & -> & ->)]; [|done].
  by rewrite (mem_string_from _ _ _ _ _ _ _ Hr) by apply (sa_r Hr).
Qed.

Section string_iterators.
Context (m0 : memory) (mode : Z).

(** An iterator reads a buffer with this text and this position for writing. *)
Section reading.
Context (text : list Z) (wpos : nat).
Definition ib_ok (i : isbuf_iterator stringbuf) : Prop :=
  ∃ r, strbuf_rep m0 mode (ib_buf i) (TextBuf text r wpos) ∧
    ib_null i = bool_decide (tb_rest mode (TextBuf text r wpos) = []).
Definition ib_chars (i : isbuf_iterator stringbuf) : list Z := if ib_null i then [] else sb_get_chars (ib_buf i).

Lemma ib_chars_rest i r : strbuf_rep m0 mode (ib_buf i) (TextBuf text r wpos) →
  ib_null i = bool_decide (tb_rest mode (TextBuf text r wpos) = []) → ib_chars i = tb_rest mode (TextBuf text r wpos).
Proof. intros Hr Hn. unfold ib_chars. rewrite Hn. case_bool_decide as He; [done|]. by eapply get_chars_spec. Qed.

Lemma head_none {A} (l : list A) : bool_decide (head l = None) = bool_decide (l = []).
Proof. destruct l; [done|]. by rewrite !bool_decide_false by done. Qed.

#[export, refine] Instance isbuf_spec : InputIteratorSpec (isbuf_iterator stringbuf) := {|
  in_ok := ib_ok;
  in_chars := ib_chars;
|}.
Proof.
  - intros i (r & Hr & Hn). rewrite (ib_chars_rest i r) by done. cbn. unfold ib_equal. cbn. rewrite Hn.
    by case_bool_decide.
  - intros i c cs (r & Hr & Hn). rewrite (ib_chars_rest i r) by done. intros Hrest. cbn. unfold ib_deref.
    rewrite Hn, Hrest. cbn. pose proof Hr as (b & a & Hat). rewrite (sgetc_spec m0 mode b a _ _ Hat).
    unfold tb_getc. rewrite Hrest. cbn. eexists. split; [done|].
    assert (Hn' : ib_null (IsbufIterator false (ib_buf i)) = bool_decide (tb_rest mode (TextBuf text r wpos) = [])) by (by rewrite Hrest).
    split; [by exists r|]. by rewrite (ib_chars_rest (IsbufIterator false (ib_buf i)) r Hr Hn').
  - intros i c cs (r & Hr & Hn). rewrite (ib_chars_rest i r) by done. intros Hrest. cbn. unfold ib_incr.
    rewrite Hn, Hrest. cbn. destruct (snextc_spec m0 mode _ _ Hr) as (s' & Hs & Hr'). unfold tb_nextc in Hs, Hr'.
    rewrite Hrest in Hs, Hr'. cbn in Hs, Hr'. rewrite Hs. cbn. eexists. split; [done|].
    assert (Hcs : tb_rest mode (tb_read 1 (TextBuf text r wpos)) = cs) by (by rewrite tb_rest_read, Hrest).
    assert (Hn' : ib_null (IsbufIterator (bool_decide (head cs = None)) s') =
      bool_decide (tb_rest mode (TextBuf text (r + 1) wpos) = [])).
    { cbn. rewrite head_none. unfold tb_read in Hcs. cbn in Hcs. by rewrite Hcs. }
    split; [by exists (r + 1)|]. by rewrite (ib_chars_rest (IsbufIterator _ s') (r + 1) Hr' Hn').
Defined.

Lemma ib_ctor_spec s r : strbuf_rep m0 mode s (TextBuf text r wpos) →
  ∃ i, ib_ctor s = Ret i ∧ ib_ok i ∧ ib_chars i = tb_rest mode (TextBuf text r wpos).
Proof.
  intros Hr. pose proof Hr as (b & a & Hat). unfold ib_ctor. rewrite (sgetc_spec m0 mode b a _ _ Hat). cbn.
  eexists. split; [done|]. unfold tb_getc. rewrite head_none. split; [by exists r|]. by apply ib_chars_rest.
Qed.
End reading.

(** Writing to a buffer which can be written. *)
Definition ob_ok (n : nat) (o : osbuf_iterator stringbuf) : Prop :=
  ∃ t, strbuf_rep m0 mode (ob_buf o) t ∧ int_sized (tb_w t + n).
Definition ob_writes (o : osbuf_iterator stringbuf) (cs : list Z) (o' : osbuf_iterator stringbuf) : Prop :=
  ob_fail o' = ob_fail o ∧
  ∀ t, strbuf_rep m0 mode (ob_buf o) t → strbuf_rep m0 mode (ob_buf o') (tb_write cs t).

Lemma ob_ok_fits n o t : ob_ok n o → strbuf_rep m0 mode (ob_buf o) t → om_has mode om_out = true →
  int_sized (tb_w t + n) ∧ ∀ cs, length cs ≤ n → tb_fits cs t.
Proof.
  intros (t' & (b' & a' & Hr') & Hn) (b & a & Hr) Hout.
  destruct (sa_pptrs Hr) as [(_ & _ & Hc & _)|(? & _)]; [|congruence].
  destruct (sa_pptrs Hr') as [(_ & _ & Hc' & _)|(? & _)]; [|congruence].
  rewrite Hc in Hc'. injection Hc' as _ Hw. rewrite <-Hw in Hn. split; [done|]. intros cs Hcs. unfold tb_fits.
  pose proof (sa_small Hr). rewrite tb_write_length by apply (sa_w Hr). lia.
Qed.
Lemma ob_puts o cs n : ob_ok (length cs + n) o → om_has mode om_out = true → ∃ s', puts cs (ob_buf o) s' ∧
  ob_ok n (OsbufIterator s' (ob_fail o)) ∧ ob_writes o cs (OsbufIterator s' (ob_fail o)).
Proof.
  intros Ho Hout. pose proof Ho as (t & Hr & _). destruct (ob_ok_fits _ o t Ho Hr Hout) as [Hn Hfit].
  destruct (puts_spec m0 mode cs _ t Hr Hout (Hfit cs ltac:(lia))) as (s' & Hp & Hr'). exists s'.
  split; [done|]. split; [exists (tb_write cs t); split; [done|cbn; lia]|]. split; [done|]. intros t2 Hr2.
  destruct (ob_ok_fits _ o t2 Ho Hr2 Hout) as [_ Hfit2].
  destruct (puts_spec m0 mode cs _ t2 Hr2 Hout (Hfit2 cs ltac:(lia))) as (s2 & Hp2 & Hr2').
  by rewrite (puts_det _ _ _ _ Hp Hp2).
Qed.

Lemma osbuf_output : om_has mode om_out = true → OutputIterator ob_num_copy ob_fill_n ob_ok ob_writes.
Proof.
  intros Hout. split.
  - intros cs n o Ho. destruct (ob_puts o cs n Ho Hout) as (s' & Hp & Hok & Hw). eexists. split; [|by split].
    pose proof Ho as (t & Hr & _).
    rewrite (ob_num_copy_each (λ s, ∃ t, strbuf_rep m0 mode s t)) by eauto. destruct o as [s b]. by apply puts_ob_each.
  - intros k c n o Ho. destruct (ob_puts o (replicate (Z.to_nat k) c) n) as (s' & Hp & Hok & Hw);
      [by rewrite length_replicate|done|].
    pose proof Ho as (t & Hr & _).
    eexists. split; [|by split]. rewrite (ob_fill_n_all (λ s, ∃ t, strbuf_rep m0 mode s t)) by eauto.
    pose proof (puts_all _ [] _ _ Hp) as Heq. rewrite app_nil_r in Heq. by rewrite Heq.
  - intros o1 o2 o3 cs ds [Hf1 Hw1] [Hf2 Hw2]. split; [congruence|]. intros t Hr.
    pose proof Hr as (b & a & Hat). rewrite <-tb_write_app by apply (sa_w Hat). by apply Hw2, Hw1.
Qed.
End string_iterators.

(** Where reading stopped. *)
Lemma ib_position m0 mode text wpos n i : om_has mode om_in = true → n ≤ length text →
  ib_ok m0 mode text wpos i → ib_chars i = drop n text → strbuf_rep m0 mode (ib_buf i) (TextBuf text n wpos).
Proof.
  intros Hin Hn (r & Hr & Hnull) Hc. rewrite (ib_chars_rest m0 mode text wpos i r Hr Hnull) in Hc.
  pose proof Hr as (b & a & Hat). destruct (sa_r Hat) as [Hle _]. cbn [tb_text tb_r] in Hle.
  assert (r = n) as <-; [|done]. unfold tb_rest in Hc. rewrite Hin in Hc. apply (f_equal length) in Hc.
  rewrite !length_drop in Hc. cbn [tb_text tb_r] in Hc. lia.
Qed.

Lemma tb_write_drop cs t : tb_w t ≤ length (tb_text t) →
  drop (tb_w t) (tb_text (tb_write cs t)) = cs ++ drop (tb_w t + length cs) (tb_text t).
Proof. intros Hw. cbn. by rewrite drop_app_length' by (rewrite length_take; lia). Qed.
Lemma tb_write_drop_2 cs t : tb_w t ≤ length (tb_text t) →
  drop (tb_w t + length cs) (tb_text (tb_write cs t)) = drop (tb_w t + length cs) (tb_text t).
Proof.
  intros Hw. rewrite <-drop_drop, tb_write_drop by done. by rewrite drop_app_length.
Qed.

(** ** Properties *)

(** The functions with which num_put writes to an ostreambuf_iterator are
    shortcuts: for every buffer, whatever its derived class, [_CS_num_copy]
    assigns the characters to the iterator one by one, [_CS_fill_n] and [_CS_copy]
    put them one by one, although all of them write into the put area; but the
    latter two do not notice when a character cannot be put, so that a number can
    be written incompletely without the iterator having failed. *)
Theorem osbuf_bulk_equiv {D : Type} `{!SbufVirtuals D} (ok : sbuf D → Prop) `{!SbufSpec D ok} (o : osbuf_iterator D) :
  ok (ob_buf o) →
  (∀ cs, ob_num_copy cs o = ob_each cs o) ∧
  (∀ n c, ob_fill_n n c o = (s ← put_all (replicate (Z.to_nat n) c) (ob_buf o); Ret (OsbufIterator s (ob_fail o)))) ∧
  (∀ cs, ob_copy cs o = (s ← put_all cs (ob_buf o); Ret (OsbufIterator s (ob_fail o)))).
Proof.
  intros Hok. split; [intros cs; by apply (ob_num_copy_each ok)|].
  split; [intros n c; by apply (ob_fill_n_all ok)|intros cs; by apply (ob_copy_each ok)].
Qed.

(** A number written to a string stream is read back from it: num_put through
    an ostreambuf_iterator on a string buffer - whatever it holds, wherever in its
    text it writes, also when its array has to grow, as long as an int holds its
    size - overwrites the characters
    at the position for writing, does not fail, and num_get through an
    istreambuf_iterator on the same buffer, reading from there, returns the number
    (up to the limit of what num_get can read) and stops right behind it. *)
Theorem stringbuf_long_roundtrip m0 mode s t widen np k w fl rfl fill fuel v :
  (w = 32 ∨ w = 64)%Z → cache_init widen np = Ret k → NoDup (scan_chars widen np) → np_grouping np = [] →
  base_named fl → (- 2 ^ (w - 1) < v < 2 ^ (w - 1))%Z → (0 ≤ v)%Z ∨ num_base fl = 10%Z →
  readable (num_base fl) (get_base rfl) fl → 27 ≤ fuel →
  om_has mode om_in = true → om_has mode om_out = true → strbuf_rep m0 mode s t → tb_r t = tb_w t →
  int_sized (tb_w t + length (plain_text widen np w fl (NLong v))) →
  ∃ cs o, new_num_put w ob_num_copy ob_fill_n k (IosFmt fl 0) fill (NLong v) (ob_ctor s) = Ret (o, IosFmt fl 0) ∧
    ob_fail o = false ∧ strbuf_rep m0 mode (ob_buf o) (tb_write cs t) ∧
    let rest := drop (tb_w t + length cs) (tb_text t) in
    (rest_ok k (num_base fl) rest →
     ∃ i i', ib_ctor (ob_buf o) = Ret i ∧
       get_signed_integer k w w fuel rfl i = Ret
         (Some (if decide (Z.abs v < scan_limit w (num_base fl)) then v
                else if decide (v < 0) then - 2 ^ (w - 1) else 2 ^ (w - 1) - 1)%Z,
          match rest with [] => eofbit | _ => goodbit end, i') ∧
       strbuf_rep m0 mode (ib_buf i') (tb_read (length cs) (tb_write cs t))).
Proof.
  intros Hw Hk Hnd Hg Hbn Hv Hb Hrd Hfuel Hin Hout Hr Hpos Hsm. destruct (cache_init_for widen np) as (k' & Hk' & Hf).
  rewrite Hk in Hk'. apply Ret_inj in Hk' as <-. pose proof (osbuf_output m0 mode Hout) as Hosb.
  destruct (new_num_put_spec w ltac:(lia) ob_num_copy ob_fill_n (ob_ok m0 mode) (ob_writes m0 mode) widen np k
    (IosFmt fl 0) fill (NLong v) 0 (ob_ctor s)) as (o & Hput & _ & Hwrites);
    [done|by rewrite Hg|done|cbn; lia|exists t; split; [done|]|].
  { cbn [fmt_flags fmt_width]. by rewrite (plain_text_fill widen np w), Nat.add_0_r. }
  cbn [fmt_flags fmt_width] in *. rewrite (plain_text_fill widen np w) in Hwrites.
  set (cs := plain_text widen np w fl (NLong v)) in *. destruct Hwrites as [Hfail Hwrites].
  exists cs, o. split; [exact Hput|]. split; [done|]. specialize (Hwrites t Hr). split; [done|]. set (rest := drop (tb_w t + length cs) (tb_text t)). intros Hrest.
  pose proof Hr as (b & a & Hat). pose proof (sa_w Hat) as Hle.
  destruct (ib_ctor_spec m0 mode _ _ _ _ Hwrites) as (i & Hi & Hok & Hc).
  unfold tb_rest in Hc. rewrite Hin in Hc. cbn [tb_text tb_r] in Hc.
  rewrite Hpos in Hc. pose proof (tb_write_drop cs t Hle) as Hd. cbn [tb_write tb_text] in Hd. rewrite Hd in Hc.
  destruct (scan_long widen np k w Hf Hnd Hg Hw (HI := isbuf_spec m0 mode (tb_text (tb_write cs t)) (tb_w (tb_write cs t))) fuel fl rfl v rest i Hbn Hv Hb Hrd Hrest Hok Hc Hfuel) as (i' & Hget & Hok' & Hc').
  exists i, i'. split; [done|]. split; [exact Hget|]. unfold tb_read. cbn [tb_r tb_w tb_write]. rewrite Hpos.
  apply ib_position; [done| |done|].
  - unfold tb_write. cbn [tb_text]. rewrite !length_app, length_take. lia.
  - cbn [in_chars isbuf_spec] in Hc'. rewrite Hc'. unfold rest. rewrite <-(tb_write_drop_2 cs t Hle). done.
Qed.

(** ** Witnesses *)
Lemma osbuf_bulk_equiv_witness :
  let o := ob_ctor (strbuf_ctor ∅ om_out) in
  (∀ cs, ob_num_copy cs o = ob_each cs o) ∧
  (∀ n c, ob_fill_n n c o = (s ← put_all (replicate (Z.to_nat n) c) (ob_buf o); Ret (OsbufIterator s (ob_fail o)))) ∧
  (∀ cs, ob_copy cs o = (s ← put_all cs (ob_buf o); Ret (OsbufIterator s (ob_fail o)))) ∧
  (** A buffer which cannot be written: the iterator fails, or does not. *)
  ob_fail <$> ob_num_copy [1%Z] (ob_ctor (sbuf_ctor ∅ ())) = Ret true ∧
  ob_fail <$> ob_fill_n 1 1 (ob_ctor (sbuf_ctor ∅ ())) = Ret false.
Proof.
  intros o. assert (Hok : ∃ t, strbuf_rep ∅ om_out (ob_buf o) t) by (eexists; apply ctor_spec).
  destruct (osbuf_bulk_equiv _ o Hok) as (? & ? & ?). split_and!; [done..| |]; vm_compute; reflexivity.
Defined.

Lemma stringbuf_long_roundtrip_witness :
  let s := strbuf_ctor ∅ om_inout in
  ∃ cs o, new_num_put 64 ob_num_copy ob_fill_n classic_cache (IosFmt fl_dec 0) 32 (NLong (-12345)) (ob_ctor s) =
      Ret (o, IosFmt fl_dec 0) ∧
    ob_fail o = false ∧ strbuf_rep ∅ om_inout (ob_buf o) (tb_write cs (TextBuf [] 0 0)) ∧
    let rest := drop (0 + length cs) [] in
    (rest_ok classic_cache (num_base fl_dec) rest →
     ∃ i i', ib_ctor (ob_buf o) = Ret i ∧
       get_signed_integer classic_cache 64 64 27 0 i = Ret
         (Some (if decide (Z.abs (-12345) < scan_limit 64 (num_base fl_dec)) then (-12345)%Z
                else if decide (-12345 < 0)%Z then - 2 ^ (64 - 1) else 2 ^ (64 - 1) - 1)%Z,
          match rest with [] => eofbit | _ => goodbit end, i') ∧
       strbuf_rep ∅ om_inout (ib_buf i') (tb_read (length cs) (tb_write cs (TextBuf [] 0 0)))).
Proof.
  apply (stringbuf_long_roundtrip ∅ om_inout (strbuf_ctor ∅ om_inout) (TextBuf [] 0 0) id classic_numpunct classic_cache
    64 fl_dec 0 32 27 (-12345)).
  - by right.
  - apply classic_cache_init.
  - apply classic_nodup.
  - done.
  - vm_compute. apply elem_of_cons. right. apply elem_of_cons. right. apply elem_of_cons. by left.
  - vm_compute. done.
  - by right.
  - right. split; [done|by left].
  - lia.
  - done.
  - done.
  - apply ctor_spec.
  - done.
  - vm_compute. done.
Defined.
