(* ===== verification/Ios.v ===== *)
(** * Stream objects

    ios_base (cxxrt-source/src/ios_base.cpp, include/cxxrt/ios_base.h, dkmap.h) and
    basic_ios (srccxx/ios.cc): format flags, the state and the exceptions a stream
    throws, ties, callbacks and the words of users. Streams, stream buffers and
    callbacks live in a shared store, because streams share buffers, are tied to
    each other and share callbacks after copyfmt. The members that istream and
    ostream add are in the record, too. *)
From S2P Require Import Prelude LocaleCache NumPut NumGet StreamBuf StringBuf.

(** ** Effects

    A computation on a store [W]: unlike an [outcome] an exception keeps the
    changes made before it was thrown. *)
Inductive io_result (W A : Type) :=
  | IoRet (a : A) (w : W)
  | IoExc (e : exn) (w : W)
  | IoUB
  | IoNoFuel.
Arguments IoRet {W A} _ _.
Arguments IoExc {W A} _ _.
Arguments IoUB {W A}.
Arguments IoNoFuel {W A}.

Definition io (W A : Type) : Type := W → io_result W A.

#[export] Instance io_ret W : MRet (io W) := λ A a w, IoRet a w.
#[export] Instance io_bind W : MBind (io W) := λ A B f m w,
  match m w with IoRet a w => f a w | IoExc e w => IoExc e w | IoUB => IoUB | IoNoFuel => IoNoFuel end.

Section effects.
Context {W : Type}.
Definition io_get {A} (f : W → A) : io W A := λ w, IoRet (f w) w.
Definition io_modify (f : W → W) : io W () := λ w, IoRet () (f w).
Definition io_throw {A} (e : exn) : io W A := λ w, IoExc e w.
Definition io_undef {A} : io W A := λ _, IoUB.
Definition io_out_of_fuel {A} : io W A := λ _, IoNoFuel.
Definition io_when (b : bool) (m : io W ()) : io W () := if b then m else mret ().
Definition try_catch {A} (m : io W A) (h : exn → io W A) : io W A := λ w,
  match m w with IoExc e w => h e w | r => r end.
(** The destructor of a local object runs on every way out of the block; when it
    throws while an exception is on its way, std::terminate is called. *)
Definition with_dtor {A} (m : io W A) (dtor : io W ()) : io W A := λ w,
  match m w with
  | IoRet a w => match dtor w with IoRet _ w => IoRet a w | IoExc e w => IoExc e w | IoUB => IoUB | IoNoFuel => IoNoFuel end
  | IoExc e w => match dtor w with IoRet _ w => IoExc e w | IoExc _ _ => IoUB | IoUB => IoUB | IoNoFuel => IoNoFuel end
  | IoUB => IoUB
  | IoNoFuel => IoNoFuel
  end.
End effects.

(** ** Positions of a buffer: the virtual functions the streams call *)
Class SbufPositions (D : Type) := {
  v_seekoff : Z → seekdir → Z → sbuf D → outcome (Z * sbuf D);
  v_seekpos : Z → Z → sbuf D → outcome (Z * sbuf D);
  v_sync : sbuf D → outcome (Z * sbuf D);
}.
#[export] Instance base_positions : SbufPositions unit := {|
  v_seekoff _ _ _ s := Ret (-1, s)%Z;
  v_seekpos _ _ s := Ret (-1, s)%Z;
  v_sync s := Ret (0%Z, s);
|}.
Definition strbuf_sync (s : sbuf stringbuf) : outcome (Z * sbuf stringbuf) := Ret (default (-1)%Z (not_eof None), s).
#[export] Instance stringbuf_positions : SbufPositions stringbuf := {|
  v_seekoff := strbuf_seekoff;
  v_seekpos := strbuf_seekpos;
  v_sync := strbuf_sync;
|}.

(** ** Flags *)
Definition fl_unitbuf : Z := 0x2000.
Definition fl_fixed : Z := 0x80.
Definition fl_scientific : Z := 0x100.
Definition fl_showpoint : Z := 0x400.
Definition fl_floatfield : Z := 0x180.
Definition fl_os_good : Z := 0x100000.
Definition fl_os_tie : Z := 0x200000.
Definition fl_os_check : Z := 0x302000.
Definition fl_is_check : Z := 0x300000.
Definition fl_fmtmask : Z := 0xffff.
(** The operators of _CXXRT_BITMASK on values of 32 bits. *)
Definition fl_compl (m : Z) : Z := Z.lxor fl_fmtall m.

(** ** Locales: what the streams use of the facets *)
Record locale := Locale {
  loc_widen : Z → Z;
  loc_space : Z → bool;
  loc_punct : numpunct;
  loc_cache : locale_cache;
}.

(** ** The members of a stream

    The words of users are a list of keys with two values each, the latest
    first. [i_stored] are the characters that the last input function stored into
    the array of its caller, without the terminating zero. *)
Record ios := Ios {
  i_flags : Z; i_precision : Z; i_width : Z; i_loc : locale;
  i_list : option nat; i_words : list (Z * (Z * Z));
  i_sbuf : option nat; i_state : Z; i_exceptions : Z; i_tie : option nat; i_newline : Z; i_fill : Z;
  i_gcount : Z;
  i_stored : list Z;
}.
Definition i_set_flags v x := Ios v (i_precision x) (i_width x) (i_loc x) (i_list x) (i_words x) (i_sbuf x) (i_state x) (i_exceptions x) (i_tie x) (i_newline x) (i_fill x) (i_gcount x) (i_stored x).
Definition i_set_precision v x := Ios (i_flags x) v (i_width x) (i_loc x) (i_list x) (i_words x) (i_sbuf x) (i_state x) (i_exceptions x) (i_tie x) (i_newline x) (i_fill x) (i_gcount x) (i_stored x).
Definition i_set_width v x := Ios (i_flags x) (i_precision x) v (i_loc x) (i_list x) (i_words x) (i_sbuf x) (i_state x) (i_exceptions x) (i_tie x) (i_newline x) (i_fill x) (i_gcount x) (i_stored x).
Definition i_set_loc v x := Ios (i_flags x) (i_precision x) (i_width x) v (i_list x) (i_words x) (i_sbuf x) (i_state x) (i_exceptions x) (i_tie x) (i_newline x) (i_fill x) (i_gcount x) (i_stored x).
Definition i_set_list v x := Ios (i_flags x) (i_precision x) (i_width x) (i_loc x) v (i_words x) (i_sbuf x) (i_state x) (i_exceptions x) (i_tie x) (i_newline x) (i_fill x) (i_gcount x) (i_stored x).
Definition i_set_words v x := Ios (i_flags x) (i_precision x) (i_width x) (i_loc x) (i_list x) v (i_sbuf x) (i_state x) (i_exceptions x) (i_tie x) (i_newline x) (i_fill x) (i_gcount x) (i_stored x).
Definition i_set_sbuf v x := Ios (i_flags x) (i_precision x) (i_width x) (i_loc x) (i_list x) (i_words x) v (i_state x) (i_exceptions x) (i_tie x) (i_newline x) (i_fill x) (i_gcount x) (i_stored x).
Definition i_set_state v x := Ios (i_flags x) (i_precision x) (i_width x) (i_loc x) (i_list x) (i_words x) (i_sbuf x) v (i_exceptions x) (i_tie x) (i_newline x) (i_fill x) (i_gcount x) (i_stored x).
Definition i_set_exceptions v x := Ios (i_flags x) (i_precision x) (i_width x) (i_loc x) (i_list x) (i_words x) (i_sbuf x) (i_state x) v (i_tie x) (i_newline x) (i_fill x) (i_gcount x) (i_stored x).
Definition i_set_tie v x := Ios (i_flags x) (i_precision x) (i_width x) (i_loc x) (i_list x) (i_words x) (i_sbuf x) (i_state x) (i_exceptions x) v (i_newline x) (i_fill x) (i_gcount x) (i_stored x).
Definition i_set_newline v x := Ios (i_flags x) (i_precision x) (i_width x) (i_loc x) (i_list x) (i_words x) (i_sbuf x) (i_state x) (i_exceptions x) (i_tie x) v (i_fill x) (i_gcount x) (i_stored x).
Definition i_set_fill v x := Ios (i_flags x) (i_precision x) (i_width x) (i_loc x) (i_list x) (i_words x) (i_sbuf x) (i_state x) (i_exceptions x) (i_tie x) (i_newline x) v (i_gcount x) (i_stored x).
Definition i_set_gcount v x := Ios (i_flags x) (i_precision x) (i_width x) (i_loc x) (i_list x) (i_words x) (i_sbuf x) (i_state x) (i_exceptions x) (i_tie x) (i_newline x) (i_fill x) v (i_stored x).
Definition i_set_stored v x := Ios (i_flags x) (i_precision x) (i_width x) (i_loc x) (i_list x) (i_words x) (i_sbuf x) (i_state x) (i_exceptions x) (i_tie x) (i_newline x) (i_fill x) (i_gcount x) v.

(** ** The store *)
Inductive ios_event := erase_event | imbue_event | copyfmt_event.
Record callback := Callback { cb_function : nat; cb_userdata : Z; cb_refcount : Z; cb_next : option nat }.

Record iosys (D : Type) := IoSys {
  io_streams : gmap nat ios;
  io_bufs : gmap nat (sbuf D);
  io_callbacks : gmap nat callback;
  (** [_CS_caller] and [_CS_deleter] have been set. *)
  io_caller : bool;
  io_xalloc_idx : Z;
  io_last_arg : bool; io_bufsize : Z;
}.
Arguments IoSys {D} _ _ _ _ _ _ _.
Arguments io_streams {D} _.
Arguments io_bufs {D} _.
Arguments io_callbacks {D} _.
Arguments io_caller {D} _.
Arguments io_xalloc_idx {D} _.
Arguments io_last_arg {D} _.
Arguments io_bufsize {D} _.

Section store.
Context {D : Type}.
Implicit Types (w : iosys D) (i b : nat) (x : ios).

Definition sys_set_streams m w : iosys D :=
  IoSys m (io_bufs w) (io_callbacks w) (io_caller w) (io_xalloc_idx w) (io_last_arg w) (io_bufsize w).
Definition sys_set_bufs m w : iosys D :=
  IoSys (io_streams w) m (io_callbacks w) (io_caller w) (io_xalloc_idx w) (io_last_arg w) (io_bufsize w).
Definition sys_set_callbacks m w : iosys D :=
  IoSys (io_streams w) (io_bufs w) m (io_caller w) (io_xalloc_idx w) (io_last_arg w) (io_bufsize w).
Definition sys_set_caller c w : iosys D :=
  IoSys (io_streams w) (io_bufs w) (io_callbacks w) c (io_xalloc_idx w) (io_last_arg w) (io_bufsize w).
Definition sys_set_xalloc n w : iosys D :=
  IoSys (io_streams w) (io_bufs w) (io_callbacks w) (io_caller w) n (io_last_arg w) (io_bufsize w).
Definition sys_set_sync (arg : bool) n w : iosys D :=
  IoSys (io_streams w) (io_bufs w) (io_callbacks w) (io_caller w) (io_xalloc_idx w) arg n.

Definition sys_put_stream i x w : iosys D := sys_set_streams (<[i := x]> (io_streams w)) w.
Definition sys_put_buf b s w : iosys D := sys_set_bufs (<[b := s]> (io_bufs w)) w.

(** Access to the members of a stream. *)
Definition ios_get {A} (f : ios → A) i : io (iosys D) A := λ w,
  match io_streams w !! i with Some x => IoRet (f x) w | None => IoUB end.
Definition ios_modify (f : ios → ios) i : io (iosys D) () := λ w,
  match io_streams w !! i with Some x => IoRet () (sys_put_stream i (f x) w) | None => IoUB end.
(** A function of a buffer. What a virtual function changed before it threw an
    exception is not modelled: the buffer is as it was before. *)
Definition on_buf {A} (f : sbuf D → outcome (A * sbuf D)) b : io (iosys D) A := λ w,
  match io_bufs w !! b with
  | Some s =>
      match f s with
      | Ret (a, s) => IoRet a (sys_put_buf b s w)
      | Exc e => IoExc e w
      | UB => IoUB
      | NoFuel => IoNoFuel
      end
  | None => IoUB
  end.
(** Through a pointer, and through the pointer of a stream to its buffer. *)
Definition on_ptr {A} (f : sbuf D → outcome (A * sbuf D)) (p : option nat) : io (iosys D) A :=
  match p with Some b => on_buf f b | None => io_undef end.
Definition on_rdbuf {A} (f : sbuf D → outcome (A * sbuf D)) i : io (iosys D) A :=
  p ← ios_get i_sbuf i; on_ptr f p.

(** ** ios_base *)
Definition ios_flags i : io (iosys D) Z := ios_get (λ x, Z.land (i_flags x) fl_fmtmask) i.
Definition ios_setf (f : Z) i : io (iosys D) Z :=
  rc ← ios_get i_flags i; _ ← ios_modify (λ x, i_set_flags (Z.lor (i_flags x) f) x) i; mret (Z.land rc fl_fmtmask).
Definition ios_setf_mask (f m : Z) i : io (iosys D) Z :=
  rc ← ios_get i_flags i;
  _ ← ios_modify (λ x, i_set_flags (Z.lor (Z.land (i_flags x) (fl_compl m)) (Z.land m f)) x) i;
  mret (Z.land rc fl_fmtmask).
Definition ios_unsetf (m : Z) i : io (iosys D) Z :=
  rc ← ios_get i_flags i; _ ← ios_modify (λ x, i_set_flags (Z.land (i_flags x) (fl_compl m)) x) i; mret (Z.land rc fl_fmtmask).
Definition ios_set_flags (f : Z) i : io (iosys D) Z :=
  rc ← ios_get i_flags i; _ ← ios_modify (i_set_flags f) i; mret (Z.land rc fl_fmtmask).
Definition ios_precision (p : Z) i : io (iosys D) Z :=
  rc ← ios_get i_precision i; _ ← ios_modify (i_set_precision p) i; mret rc.
Definition ios_width (n : Z) i : io (iosys D) Z :=
  rc ← ios_get i_width i; _ ← ios_modify (i_set_width n) i; mret rc.
Definition need_osentry i : io (iosys D) bool := ios_get (λ x, flag_set (i_flags x) fl_os_check) i.
Definition need_isentry i : io (iosys D) bool := ios_get (λ x, flag_set (i_flags x) fl_is_check) i.

(** _CXXRT_MANIPULATOR *)
Definition manip_set (f : Z) i : io (iosys D) () := _ ← ios_setf f i; mret ().
Definition manip_unset (f : Z) i : io (iosys D) () := _ ← ios_unsetf f i; mret ().
Definition manip_field (f field : Z) i : io (iosys D) () := _ ← ios_setf_mask f field i; mret ().
(** iomanip *)
Definition put_setw (n : Z) i : io (iosys D) () := _ ← ios_width n i; mret ().
Definition put_setprecision (n : Z) i : io (iosys D) () := _ ← ios_precision n i; mret ().
Definition put_resetiosflags (f : Z) i : io (iosys D) () := _ ← ios_setf_mask 0 f i; mret ().
Definition put_setiosflags (f : Z) i : io (iosys D) () := _ ← ios_setf f i; mret ().
Definition put_setbase (base : Z) i : io (iosys D) () :=
  if decide (base = 8%Z) then manip_field fl_oct fl_basefield i
  else if decide (base = 10%Z) then manip_field fl_dec fl_basefield i
  else if decide (base = 16%Z) then manip_field fl_hex fl_basefield i
  else manip_field 0 fl_basefield i.

(** *** Words

    [_CS_map] is a list of items to which new ones are added in front; [find],
    [operator[]] and assignment to what that refers to. *)
Fixpoint map_find {V} (key : Z) (m : list (Z * V)) : option V :=
  match m with [] => None | (k, v) :: m => if decide (k = key) then Some v else map_find key m end.
Definition map_index {V} (key : Z) (v : V) (m : list (Z * V)) : list (Z * V) :=
  match map_find key m with Some _ => m | None => (key, v) :: m end.
Fixpoint map_assign {V} (key : Z) (f : V → V) (m : list (Z * V)) : list (Z * V) :=
  match m with [] => [] | (k, v) :: m => if decide (k = key) then (k, f v) :: m else (k, v) :: map_assign key f m end.

Definition ios_word {A} (f : Z * Z → A) (index : Z) i : io (iosys D) A :=
  _ ← ios_modify (λ x, i_set_words (map_index index (0, 0)%Z (i_words x)) x) i;
  m ← ios_get i_words i;
  match map_find index m with Some v => mret (f v) | None => io_undef end.
Definition ios_set_word (f : Z * Z → Z * Z) (index : Z) i : io (iosys D) () :=
  ios_modify (λ x, i_set_words (map_assign index f (map_index index (0, 0)%Z (i_words x))) x) i.
Definition ios_iword : Z → nat → io (iosys D) Z := ios_word fst.
Definition ios_pword : Z → nat → io (iosys D) Z := ios_word snd.
Definition ios_set_iword (index v : Z) : nat → io (iosys D) () := ios_set_word (λ p, (v, p.2)) index.
Definition ios_set_pword (index v : Z) : nat → io (iosys D) () := ios_set_word (λ p, (p.1, v)) index.
Definition ios_xalloc : io (iosys D) Z :=
  n ← io_get io_xalloc_idx;
  if decide (n < 2 ^ 31 - 1)%Z then _ ← io_modify (sys_set_xalloc (n + 1)); mret n else io_undef.

Definition ios_sync_with_stdio (arg : bool) : io (iosys D) bool :=
  rc ← io_get io_last_arg; _ ← io_modify (sys_set_sync arg (if arg then 1 else 65536)%Z); mret rc.

(** *** Callbacks *)
Definition cb_get {A} (f : callback → A) (c : nat) : io (iosys D) A := λ w,
  match io_callbacks w !! c with Some b => IoRet (f b) w | None => IoUB end.
(** Adds to the reference count. *)
Definition cb_count (n : Z) (c : nat) : io (iosys D) Z := λ w,
  match io_callbacks w !! c with
  | Some (Callback f u r nx) =>
      IoRet (r + n)%Z (sys_set_callbacks (<[c := Callback f u (r + n)%Z nx]> (io_callbacks w)) w)
  | None => IoUB
  end.

Definition ios_register_callback (fn : nat) (ud : Z) i : io (iosys D) () :=
  next ← ios_get i_list i;
  _ ← match next with Some n => _ ← cb_count 1 n; mret () | None => mret () end;
  c ← io_get (λ w, fresh (dom (io_callbacks w)));
  _ ← io_modify (λ w, sys_set_callbacks (<[c := Callback fn ud 1 next]> (io_callbacks w)) w);
  _ ← ios_modify (i_set_list (Some c)) i;
  io_modify (sys_set_caller true).

(** [delete] of an item whose count has become zero; the destructor goes on with the
    next one. *)
Fixpoint cb_delete (fuel : nat) (c : nat) : io (iosys D) () :=
  match fuel with
  | 0 => io_out_of_fuel
  | S fuel =>
      next ← cb_get cb_next c;
      _ ← match next with
          | Some n => r ← cb_count (-1) n; if decide (r = 0%Z) then cb_delete fuel n else mret ()
          | None => mret ()
          end;
      io_modify (λ w, sys_set_callbacks (delete c (io_callbacks w)) w)
  end.
Definition cb_release (lst : option nat) : io (iosys D) () :=
  match lst with
  | Some c =>
      r ← cb_count (-1) c;
      fuel ← io_get (λ w, S (size (io_callbacks w)));
      if decide (r = 0%Z) then cb_delete fuel c else mret ()
  | None => mret ()
  end.

(** [cb_run] is what the functions registered do. *)
Section callbacks.
Context (cb_run : nat → ios_event → nat → Z → io (iosys D) ()).

Fixpoint call_real (fuel : nat) i (cb : option nat) (e : ios_event) : io (iosys D) () :=
  match fuel, cb with
  | _, None => mret ()
  | 0, _ => io_out_of_fuel
  | S fuel, Some c =>
      f ← cb_get cb_function c; ud ← cb_get cb_userdata c;
      _ ← cb_run f e i ud;
      next ← cb_get cb_next c; call_real fuel i next e
  end.
Definition call_callbacks (e : ios_event) i : io (iosys D) () :=
  caller ← io_get io_caller;
  lst ← ios_get i_list i;
  fuel ← io_get (λ w, S (size (io_callbacks w)));
  io_when caller (call_real fuel i lst e).

(** *** Construction, locales, copies *)
Definition ios_base_init (loc : locale) : ios :=
  Ios (Z.lor fl_dec fl_skipws) 6 0 loc None [] None 0 0 None 0 0 0 [].
Definition ios_base_imbue (l : locale) i : io (iosys D) locale :=
  rc ← ios_get i_loc i; _ ← ios_modify (i_set_loc l) i; _ ← call_callbacks imbue_event i; mret rc.

Fixpoint words_copy (m : list (Z * (Z * Z))) (i : nat) : io (iosys D) () :=
  match m with [] => mret () | (k, v) :: m => _ ← ios_set_word (λ _, v) k i; words_copy m i end.
Definition ios_base_copyfmt (cpy : nat) i : io (iosys D) () :=
  f ← ios_get i_flags cpy; _ ← ios_modify (i_set_flags f) i;
  p ← ios_get i_precision cpy; _ ← ios_modify (i_set_precision p) i;
  n ← ios_get i_width cpy; _ ← ios_modify (i_set_width n) i;
  l ← ios_get i_loc cpy; _ ← ios_modify (i_set_loc l) i;
  lst ← ios_get i_list cpy;
  _ ← match lst with Some c => _ ← cb_count 1 c; mret () | None => mret () end;
  old ← ios_get i_list i; _ ← cb_release old;
  lst ← ios_get i_list cpy; _ ← ios_modify (i_set_list lst) i;
  _ ← ios_modify (i_set_words []) i;
  words ← ios_get i_words cpy;
  words_copy words i.

Definition ios_base_dtor i : io (iosys D) () :=
  _ ← call_callbacks erase_event i;
  deleter ← io_get io_caller; lst ← ios_get i_list i;
  io_when deleter (cb_release lst).

(** ** basic_ios *)
Definition ios_good i : io (iosys D) bool := ios_get (λ x, bool_decide (i_state x = goodbit)) i.
Definition ios_eof i : io (iosys D) bool := ios_get (λ x, flag_set (i_state x) eofbit) i.
Definition ios_fail i : io (iosys D) bool := ios_get (λ x, flag_set (i_state x) (Z.lor failbit badbit)) i.
Definition ios_bad i : io (iosys D) bool := ios_get (λ x, flag_set (i_state x) badbit) i.

Definition ios_clear (state : Z) i : io (iosys D) () :=
  _ ← ios_modify (λ x, i_set_state (match i_sbuf x with None => Z.lor state badbit | Some _ => state end) x) i;
  st ← ios_get i_state i; ex ← ios_get i_exceptions i;
  if flag_set st ex then io_throw ios_failure
  else if decide (st = goodbit) then manip_unset fl_os_good i else manip_set fl_os_good i.
Definition ios_setstate (state : Z) i : io (iosys D) () :=
  st ← ios_get i_state i; ios_clear (Z.lor st state) i.
Definition ios_set_exceptions (ex : Z) i : io (iosys D) () :=
  _ ← ios_modify (i_set_exceptions ex) i; st ← ios_get i_state i; ios_clear st i.
(** Called while [e] is being handled. *)
Definition process_exception (e : exn) i : io (iosys D) () :=
  _ ← ios_modify (λ x, i_set_state (Z.lor (i_state x) badbit) x) i;
  _ ← ios_setf fl_os_good i;
  ex ← ios_get i_exceptions i;
  if flag_set ex badbit then io_throw e else mret ().

Definition ios_init (sb : option nat) i : io (iosys D) () :=
  _ ← ios_modify (i_set_sbuf sb) i;
  _ ← ios_modify (i_set_state (match sb with None => badbit | Some _ => goodbit end)) i;
  _ ← (match sb with None => manip_set fl_os_good i | Some _ => mret () end);
  _ ← ios_modify (i_set_exceptions goodbit) i;
  _ ← ios_modify (i_set_tie None) i;
  _ ← ios_modify (λ x, i_set_fill (loc_widen (i_loc x) 32) x) i;
  ios_modify (λ x, i_set_newline (loc_widen (i_loc x) 10) x) i.
(** The constructor; the destructor of ios_base ends the life of the object. *)
Definition ios_ctor (loc : locale) (sb : option nat) i : io (iosys D) () :=
  _ ← io_modify (sys_put_stream i (i_set_state (match sb with None => badbit | Some _ => goodbit end)
                                     (i_set_sbuf sb (ios_base_init loc))));
  _ ← (match sb with None => manip_set fl_os_good i | Some _ => mret () end);
  ios_init sb i.
Definition ios_dtor i : io (iosys D) () :=
  _ ← ios_base_dtor i; io_modify (λ w, sys_set_streams (delete i (io_streams w)) w).

Definition ios_rdbuf (sb : option nat) i : io (iosys D) (option nat) :=
  rc ← ios_get i_sbuf i; _ ← ios_modify (i_set_sbuf sb) i; _ ← ios_clear goodbit i; mret rc.
Definition ios_update_tie i : io (iosys D) () :=
  t ← ios_get i_tie i; match t with None => manip_unset fl_os_tie i | Some _ => manip_set fl_os_tie i end.
Definition ios_tie (t : option nat) i : io (iosys D) (option nat) :=
  rc ← ios_get i_tie i; _ ← ios_modify (i_set_tie t) i; _ ← ios_update_tie i; mret rc.
Definition ios_fill (c : Z) i : io (iosys D) Z := rc ← ios_get i_fill i; _ ← ios_modify (i_set_fill c) i; mret rc.
Definition put_setfill (c : Z) i : io (iosys D) () := _ ← ios_fill c i; mret ().

(** The locale of the buffer is not modelled. *)
Definition ios_imbue (l : locale) i : io (iosys D) locale :=
  rc ← ios_base_imbue l i; _ ← ios_modify (λ x, i_set_newline (loc_widen (i_loc x) 10) x) i; mret rc.
Definition ios_copyfmt (cpy : nat) i : io (iosys D) () :=
  _ ← call_callbacks erase_event i;
  t ← ios_get i_tie cpy; _ ← ios_modify (i_set_tie t) i; _ ← ios_update_tie i;
  c ← ios_get i_fill cpy; _ ← ios_modify (i_set_fill c) i;
  _ ← ios_base_copyfmt cpy i;
  _ ← call_callbacks copyfmt_event i;
  ex ← ios_get i_exceptions cpy; ios_set_exceptions ex i.
End callbacks.
End store.

(** ** Bits of the flags *)
Lemma land_pow2 z k : (0 ≤ k)%Z → Z.land z (2 ^ k) = (if Z.testbit z k then 2 ^ k else 0)%Z.
Proof.
  intros Hk. apply Z.bits_inj'. intros n Hn. rewrite Z.land_spec, Z.pow2_bits_eqb by done.
  destruct (Z.eqb_spec k n) as [<-|Hne].
  - rewrite andb_true_r. destruct (Z.testbit z k); [by rewrite Z.pow2_bits_true|by rewrite Z.bits_0].
  - rewrite andb_false_r. destruct (Z.testbit z k); [by rewrite Z.pow2_bits_false by done|by rewrite Z.bits_0].
Qed.
Lemma flag_bit z k : (0 ≤ k)%Z → flag_set z (2 ^ k) = Z.testbit z k.
Proof.
  intros Hk. unfold flag_set. rewrite land_pow2 by done. destruct (Z.testbit z k); [|done].
  rewrite bool_decide_false; [done|]. assert (0 < 2 ^ k)%Z by (apply Z.pow_pos_nonneg; lia). lia.
Qed.
Lemma flag_lor z f g : flag_set z (Z.lor f g) = flag_set z f || flag_set z g.
Proof.
  unfold flag_set. rewrite Z.land_lor_distr_r, <-negb_andb. f_equal. rewrite <-bool_decide_and.
  apply bool_decide_ext. apply Z.lor_eq_0_iff.
Qed.
Lemma compl_bit m k : (0 ≤ k < 24)%Z → Z.testbit (fl_compl m) k = negb (Z.testbit m k).
Proof.
  intros Hk. unfold fl_compl. rewrite Z.lxor_spec. change fl_fmtall with (Z.ones 24).
  by rewrite Z.ones_spec_low by lia.
Qed.
(** The flags of users do not include the internal bits. *)
Lemma user_bit f k : is_uint 20 f → (20 ≤ k)%Z → Z.testbit f k = false.
Proof.
  intros [H0 Hf] Hk. destruct (decide (f = 0%Z)) as [->|]; [apply Z.bits_0|].
  apply Z.bits_above_log2; [done|]. apply Z.log2_lt_pow2; [lia|].
  assert (2 ^ 20 ≤ 2 ^ k)%Z by (apply Z.pow_le_mono_r; lia). lia.
Qed.

Definition bit_good x : bool := Z.testbit (i_flags x) 20.
Definition bit_tie x : bool := Z.testbit (i_flags x) 21.
(** The bits say what they are to say. *)
Record bits_agree (x : ios) : Prop := BitsAgree {
  ba_good : bit_good x = negb (bool_decide (i_state x = goodbit));
  ba_tie : bit_tie x = bool_decide (i_tie x ≠ None);
}.

Lemma need_osentry_bits x : flag_set (i_flags x) fl_os_check = bit_good x || bit_tie x || Z.testbit (i_flags x) 13.
Proof.
  change fl_os_check with (Z.lor (Z.lor (2 ^ 20) (2 ^ 21)) (2 ^ 13)). by rewrite !flag_lor, !flag_bit by done.
Qed.
Lemma need_isentry_bits x : flag_set (i_flags x) fl_is_check = bit_good x || bit_tie x.
Proof. change fl_is_check with (Z.lor (2 ^ 20) (2 ^ 21)). by rewrite !flag_lor, !flag_bit by done. Qed.
Lemma no_sentry x : bits_agree x → flag_set (i_flags x) fl_os_check = false →
  i_state x = goodbit ∧ i_tie x = None ∧ flag_set (i_flags x) fl_unitbuf = false.
Proof.
  intros [Hg Ht] Hn. rewrite need_osentry_bits in Hn. apply orb_false_iff in Hn as [Hn Hu].
  apply orb_false_iff in Hn as [Hgood Htie]. rewrite Hgood in Hg. rewrite Htie in Ht.
  split; [|split].
  - by destruct (bool_decide_reflect (i_state x = goodbit)).
  - destruct (i_tie x); [|done]. by rewrite bool_decide_true in Ht.
  - change fl_unitbuf with (2 ^ 13)%Z. by rewrite flag_bit.
Qed.

(** ** Running computations on a stream *)
Section running.
Context {D : Type}.
Implicit Types (w : iosys D) (i b : nat) (x : ios).

Lemma io_bind_Ret {A B} (m : io (iosys D) A) (f : A → io (iosys D) B) w a w' : m w = IoRet a w' → (m ≫= f) w = f a w'.
Proof. intros H. unfold mbind, io_bind. by rewrite H. Qed.
Lemma io_bind_Exc {A B} (m : io (iosys D) A) (f : A → io (iosys D) B) w e w' : m w = IoExc e w' → (m ≫= f) w = IoExc e w'.
Proof. intros H. unfold mbind, io_bind. by rewrite H. Qed.
Lemma io_bind_assoc {A B C} (m : io (iosys D) A) (f : A → io (iosys D) B) (g : B → io (iosys D) C) w :
  ((m ≫= f) ≫= g) w = (m ≫= λ a, f a ≫= g) w.
Proof. unfold mbind, io_bind. by destruct (m w). Qed.

Lemma sys_streams_id w : sys_set_streams (io_streams w) w = w.
Proof. by destruct w. Qed.
Lemma sys_bufs_id w : sys_set_bufs (io_bufs w) w = w.
Proof. by destruct w. Qed.
Lemma put_stream_id i x w : io_streams w !! i = Some x → sys_put_stream i x w = w.
Proof. intros H. unfold sys_put_stream. rewrite insert_id by done. apply sys_streams_id. Qed.
Lemma put_stream_put i x y w : sys_put_stream i y (sys_put_stream i x w) = sys_put_stream i y w.
Proof. unfold sys_put_stream, sys_set_streams. cbn. by rewrite insert_insert_eq. Qed.
Lemma put_stream_at i x w : io_streams (sys_put_stream i x w) !! i = Some x.
Proof. apply lookup_insert_eq. Qed.

(** [m] takes the stream [x] to [y] and changes nothing else. *)
Definition steps_to {A} i (m : io (iosys D) A) x (a : A) y : Prop :=
  ∀ w, io_streams w !! i = Some x → m w = IoRet a (sys_put_stream i y w).

Lemma steps_ret {A} i (a : A) x : steps_to i (mret a) x a x.
Proof. intros w Hw. by rewrite put_stream_id. Qed.
Lemma steps_get {A} i (f : ios → A) x : steps_to i (ios_get f i) x (f x) x.
Proof. intros w Hw. unfold ios_get. by rewrite Hw, put_stream_id. Qed.
Lemma steps_modify i f x : steps_to i (ios_modify f i) x () (f x).
Proof. intros w Hw. unfold ios_modify. by rewrite Hw. Qed.
Lemma steps_bind {A B} i (m : io (iosys D) A) (f : A → io (iosys D) B) x a y c z :
  steps_to i m x a y → steps_to i (f a) y c z → steps_to i (m ≫= f) x c z.
Proof.
  intros Hm Hf w Hw. rewrite (io_bind_Ret _ _ _ _ _ (Hm w Hw)), (Hf _ (put_stream_at i y w)).
  by rewrite put_stream_put.
Qed.

Lemma steps_setf i f x : steps_to i (ios_setf f i) x (Z.land (i_flags x) fl_fmtmask) (i_set_flags (Z.lor (i_flags x) f) x).
Proof. eapply steps_bind; [apply steps_get|]. eapply steps_bind; [apply steps_modify|]. apply steps_ret. Qed.
Lemma steps_unsetf i m x : steps_to i (ios_unsetf m i) x (Z.land (i_flags x) fl_fmtmask) (i_set_flags (Z.land (i_flags x) (fl_compl m)) x).
Proof. eapply steps_bind; [apply steps_get|]. eapply steps_bind; [apply steps_modify|]. apply steps_ret. Qed.
Lemma steps_setf_mask i f m x :
  steps_to i (ios_setf_mask f m i) x (Z.land (i_flags x) fl_fmtmask)
    (i_set_flags (Z.lor (Z.land (i_flags x) (fl_compl m)) (Z.land m f)) x).
Proof. eapply steps_bind; [apply steps_get|]. eapply steps_bind; [apply steps_modify|]. apply steps_ret. Qed.

Lemma steps_field {A} i (f : ios → A) (g : ios → ios) x :
  steps_to i (_ ← (rc ← ios_get f i; _ ← ios_modify g i; mret rc); mret ()) x () (g x).
Proof.
  eapply steps_bind; [|apply steps_ret]. eapply steps_bind; [apply steps_get|].
  eapply steps_bind; [apply steps_modify|apply steps_ret].
Qed.

(** The effect of [clear] when it does not throw. *)
Definition ios_cleared (state : Z) x : ios :=
  let x := i_set_state (match i_sbuf x with None => Z.lor state badbit | Some _ => state end) x in
  i_set_flags (if decide (i_state x = goodbit) then Z.land (i_flags x) (fl_compl fl_os_good) else Z.lor (i_flags x) fl_os_good) x.

Lemma steps_clear i st x : i_exceptions x = goodbit → steps_to i (ios_clear st i) x () (ios_cleared st x).
Proof.
  intros Hex. unfold ios_clear. eapply steps_bind; [apply steps_modify|].
  eapply steps_bind; [apply steps_get|]. eapply steps_bind; [apply steps_get|].
  cbn [i_exceptions i_set_state i_state]. rewrite Hex. unfold flag_set. rewrite Z.land_0_r. cbn [bool_decide negb].
  unfold ios_cleared. cbn [i_state i_set_state]. case_decide.
  - eapply steps_bind; [apply steps_unsetf|]. apply steps_ret.
  - eapply steps_bind; [apply steps_setf|]. apply steps_ret.
Qed.
Lemma steps_setstate i st x : i_exceptions x = goodbit → steps_to i (ios_setstate st i) x () (ios_cleared (Z.lor (i_state x) st) x).
Proof. intros Hex. eapply steps_bind; [apply steps_get|]. by apply steps_clear. Qed.
End running.

(** *** Operations of users *)
Inductive ios_op :=
  | IosSetf (f : Z) | IosSetfMask (f m : Z) | IosUnsetf (m : Z) | IosSetbase (base : Z)
  | IosClear (state : Z) | IosSetstate (state : Z) | IosProcess
  | IosTie (t : option nat) | IosRdbuf (sb : option nat)
  | IosWidth (n : Z) | IosPrecision (n : Z) | IosFill (c : Z).

Definition run_ios_op {D} (op : ios_op) (i : nat) : io (iosys D) () :=
  match op with
  | IosSetf f => manip_set f i
  | IosSetfMask f m => manip_field f m i
  | IosUnsetf m => manip_unset m i
  | IosSetbase base => put_setbase base i
  | IosClear st => ios_clear st i
  | IosSetstate st => ios_setstate st i
  | IosProcess => process_exception bad_function_call i
  | IosTie t => _ ← ios_tie t i; mret ()
  | IosRdbuf sb => _ ← ios_rdbuf sb i; mret ()
  | IosWidth n => put_setw n i
  | IosPrecision n => put_setprecision n i
  | IosFill c => put_setfill c i
  end.
Definition ios_op_ok (op : ios_op) : Prop :=
  match op with IosSetf f => is_uint 20 f | IosSetfMask _ m | IosUnsetf m => is_uint 20 m | _ => True end.
Fixpoint run_ios_ops {D} (ops : list ios_op) (i : nat) : io (iosys D) () :=
  match ops with [] => mret () | op :: ops => _ ← run_ios_op op i; run_ios_ops ops i end.

Section invariant.
Context {D : Type}.
Implicit Types (i b : nat) (x : ios).

Definition ios_inv x : Prop := bits_agree x ∧ i_exceptions x = goodbit.

(** Operations which leave the bits, the state and the tie alone. *)
Lemma inv_same x y : ios_inv x → bit_good y = bit_good x → bit_tie y = bit_tie x →
  i_state y = i_state x → i_tie y = i_tie x → i_exceptions y = i_exceptions x → ios_inv y.
Proof. intros [[Hg Ht] He] H1 H2 H3 H4 H5. split; [split|]; by rewrite ?H1, ?H2, ?H3, ?H4, ?H5. Qed.

Lemma inv_cleared st x : ios_inv x → ios_inv (ios_cleared st x).
Proof.
  intros [[Hg Ht] He]. unfold ios_cleared. set (y := i_set_state _ x).
  split; [|done]. split; unfold bit_good, bit_tie; cbn [i_flags i_set_flags i_state i_tie].
  - destruct (decide (i_state y = goodbit)) as [Hs|Hs].
    + rewrite Z.land_spec, compl_bit by lia. change (Z.testbit fl_os_good 20) with true. cbn. rewrite andb_false_r.
      by rewrite bool_decide_true.
    + rewrite Z.lor_spec. change (Z.testbit fl_os_good 20) with true. rewrite orb_true_r. by rewrite bool_decide_false.
  - destruct (decide (i_state y = goodbit)) as [Hs|Hs].
    + rewrite Z.land_spec, compl_bit by lia. change (Z.testbit fl_os_good 21) with false. cbn. by rewrite andb_true_r.
    + rewrite Z.lor_spec. change (Z.testbit fl_os_good 21) with false. by rewrite orb_false_r.
Qed.

Lemma mask_bits m x f k : is_uint 20 m → (20 ≤ k < 24)%Z →
  Z.testbit (Z.lor (Z.land (i_flags x) (fl_compl m)) (Z.land m f)) k = Z.testbit (i_flags x) k.
Proof.
  intros Hm Hk. rewrite Z.lor_spec, !Z.land_spec, compl_bit by lia. rewrite !(user_bit m) by (done || lia).
  cbn. by rewrite andb_true_r, orb_false_r.
Qed.
Lemma mask_inv i f m x : is_uint 20 m → ios_inv x → ∃ y, steps_to (D := D) i (manip_field f m i) x () y ∧ ios_inv y.
Proof.
  intros Hm Hx. eexists. split; [eapply steps_bind; [apply steps_setf_mask|apply steps_ret]|].
  apply (inv_same x); try done; unfold bit_good, bit_tie; cbn [i_flags i_set_flags]; by rewrite mask_bits.
Qed.

(** Each operation preserves the invariant. *)
Lemma ios_op_inv op i x : ios_op_ok op → ios_inv x → ∃ y, steps_to (D := D) i (run_ios_op op i) x () y ∧ ios_inv y.
Proof.
  intros Hop Hx. pose proof Hx as [[Hg Ht] He].
  destruct op as [f|f m|m|base|st|st| |t|sb|n|n|c]; cbn [run_ios_op ios_op_ok] in *.
  - eexists. split; [eapply steps_bind; [apply steps_setf|apply steps_ret]|].
    apply (inv_same x); try done; unfold bit_good, bit_tie; cbn [i_flags i_set_flags]; by rewrite Z.lor_spec, (user_bit f), orb_false_r by done.
  - by apply mask_inv.
  - eexists. split; [eapply steps_bind; [apply steps_unsetf|apply steps_ret]|].
    apply (inv_same x); try done; unfold bit_good, bit_tie; cbn [i_flags i_set_flags];
      by rewrite Z.land_spec, compl_bit, (user_bit m), andb_true_r by (done || lia).
  - unfold put_setbase. repeat case_decide; by apply mask_inv.
  - eexists. split; [by apply steps_clear|by apply inv_cleared].
  - eexists. split; [by apply steps_setstate|by apply inv_cleared].
  - eexists. split.
    { eapply steps_bind; [apply steps_modify|]. eapply steps_bind; [apply steps_setf|].
      eapply steps_bind; [apply steps_get|]. cbn. rewrite He. unfold flag_set. rewrite Z.land_0_l. apply steps_ret. }
    split; [|done]. split; unfold bit_good, bit_tie; cbn [i_flags i_set_flags i_state i_set_state i_tie]; rewrite Z.lor_spec.
    + change (Z.testbit fl_os_good 20) with true. rewrite orb_true_r, bool_decide_false; [done|].
      intros [_ H]%Z.lor_eq_0_iff. done.
    + change (Z.testbit fl_os_good 21) with false. by rewrite orb_false_r.
  - assert (∃ y, steps_to (D := D) i (ios_update_tie i) (i_set_tie t x) () y ∧ ios_inv y) as (y & Hy & Hinv).
    { unfold ios_update_tie. destruct t as [t|]; eexists; (split; [eapply steps_bind; [apply steps_get|]|]).
      - eapply steps_bind; [apply steps_setf|apply steps_ret].
      - split; [|done]. split; unfold bit_good, bit_tie; cbn [i_flags i_set_flags i_state i_set_tie i_tie]; rewrite Z.lor_spec.
        + change (Z.testbit fl_os_tie 20) with false. by rewrite orb_false_r.
        + change (Z.testbit fl_os_tie 21) with true. by rewrite orb_true_r.
      - eapply steps_bind; [apply steps_unsetf|apply steps_ret].
      - split; [|done]. split; unfold bit_good, bit_tie; cbn [i_flags i_set_flags i_state i_set_tie i_tie];
          rewrite Z.land_spec, compl_bit by lia.
        + change (Z.testbit fl_os_tie 20) with false. by rewrite andb_true_r.
        + change (Z.testbit fl_os_tie 21) with true. by rewrite andb_false_r. }
    exists y. split; [|done]. eapply steps_bind; [|apply steps_ret].
    eapply steps_bind; [apply steps_get|]. eapply steps_bind; [apply steps_modify|].
    eapply steps_bind; [exact Hy|apply steps_ret].
  - eexists. split.
    { eapply steps_bind; [|apply steps_ret]. eapply steps_bind; [apply steps_get|]. eapply steps_bind; [apply steps_modify|].
      eapply steps_bind; [by apply steps_clear|apply steps_ret]. }
    apply inv_cleared. by apply (inv_same x).
  - exists (i_set_width n x). split; [by apply steps_field|by apply (inv_same x)].
  - exists (i_set_precision n x). split; [by apply steps_field|by apply (inv_same x)].
  - exists (i_set_fill c x). split; [by apply steps_field|by apply (inv_same x)].
Qed.
End invariant.

(** *** Words of users *)
Section words.
Context {V : Type}.
Implicit Types (m : list (Z * V)) (k : Z) (v : V).

Lemma map_find_index k key v m : map_find k (map_index key v m) = (if decide (k = key) then Some (default v (map_find key m)) else map_find k m).
Proof.
  unfold map_index. destruct (map_find key m) as [v'|] eqn:E.
  - case_decide as Hk; [by subst|done].
  - cbn. case_decide as Hk; case_decide as Hk'; [done|congruence|congruence|done].
Qed.
Lemma map_find_assign k key (f : V → V) m :
  map_find k (map_assign key f m) = (if decide (k = key) then f <$> map_find key m else map_find k m).
Proof.
  induction m as [|[k' v'] m IH]; [by case_decide|]. cbn [map_assign map_find].
  destruct (decide (k' = key)) as [->|Hne]; cbn [map_find].
  - destruct (decide (key = k)) as [->|Hk]; [by rewrite decide_True|]. by rewrite decide_False by congruence.
  - destruct (decide (k' = k)) as [->|Hk]; [by rewrite decide_False|exact IH].
Qed.
End words.
(** The words of a stream as a function: those which have not been used are zero. *)
Definition word_at (x : ios) (index : Z) : Z * Z := default (0, 0)%Z (map_find index (i_words x)).

Lemma steps_word {D A} i (f : Z * Z → A) index x :
  steps_to (D := D) i (ios_word f index i) x (f (word_at x index)) (i_set_words (map_index index (0, 0)%Z (i_words x)) x).
Proof.
  eapply steps_bind; [apply steps_modify|]. eapply steps_bind; [apply steps_get|]. cbn [i_words i_set_words].
  rewrite map_find_index, decide_True by done. apply steps_ret.
Qed.
Lemma word_at_index x index k : word_at (i_set_words (map_index index (0, 0)%Z (i_words x)) x) k = word_at x k.
Proof. unfold word_at. cbn. rewrite map_find_index. case_decide as Hk; [by subst|done]. Qed.
Lemma word_at_assign x index k f :
  word_at (i_set_words (map_assign index f (map_index index (0, 0)%Z (i_words x))) x) k =
  if decide (k = index) then f (word_at x index) else word_at x k.
Proof.
  unfold word_at. cbn. rewrite map_find_assign, !map_find_index, (decide_True (P := index = index)) by done.
  by case_decide.
Qed.

(** *** Callbacks *)
Section callback_chains.
Implicit Types (m : gmap nat callback) (l : list (nat * Z)) (ids : list nat).

(** The list from [p] on: the first has the count [r], the others two. *)
Fixpoint cb_chain (r : Z) m (p : option nat) ids l : Prop :=
  match ids, l with
  | [], [] => p = None
  | c :: ids, (f, u) :: l => p = Some c ∧ c ∉ ids ∧ ∃ nx, m !! c = Some (Callback f u r nx) ∧ cb_chain 2 m nx ids l
  | _, _ => False
  end.

Lemma chain_insert r m p ids l c x : c ∉ ids → cb_chain r m p ids l → cb_chain r (<[c := x]> m) p ids l.
Proof.
  revert r p l. induction ids as [|c' ids IH]; intros r p [|[f u] l] Hc; try done.
  intros (-> & Hc' & nx & Hm & Hch). split; [done|]. split; [done|]. exists nx.
  rewrite lookup_insert_ne by set_solver. split; [done|]. apply IH; [set_solver|done].
Qed.
Lemma cb_chain_dom r m p ids l : cb_chain r m p ids l → NoDup ids ∧ list_to_set ids ⊆ dom m ∧ length ids = length l.
Proof.
  revert r p l. induction ids as [|c ids IH]; intros r p [|[f u] l]; try done; [repeat split; [constructor|set_solver]|].
  intros (-> & Hc & nx & Hm & Hch). destruct (IH _ _ _ Hch) as (Hnd & Hsub & Hlen).
  split; [by constructor|]. split; [|cbn; lia]. apply elem_of_dom_2 in Hm. set_solver.
Qed.
Lemma chain_size r m p ids l : cb_chain r m p ids l → length l ≤ size m.
Proof.
  intros (Hnd & Hsub & <-)%cb_chain_dom. rewrite <-size_dom.
  rewrite <-(size_list_to_set (C := gset nat)) by done. by apply subseteq_size.
Qed.
End callback_chains.

Section callback_runs.
Context {D : Type} (cb_run : nat → ios_event → nat → Z → io (iosys D) ()).
Implicit Types (w : iosys D) (i : nat) (l : list (nat * Z)).

Fixpoint register_all (regs : list (nat * Z)) i : io (iosys D) () :=
  match regs with [] => mret () | (f, u) :: regs => _ ← ios_register_callback f u i; register_all regs i end.
(** The functions one after the other. *)
Fixpoint run_cbs (e : ios_event) i l : io (iosys D) () :=
  match l with [] => mret () | (f, u) :: l => _ ← cb_run f e i u; run_cbs e i l end.

(** The callbacks of a stream. *)
Definition has_callbacks i w l : Prop :=
  ∃ x ids, io_streams w !! i = Some x ∧ cb_chain 1 (io_callbacks w) (i_list x) ids l ∧ (l ≠ [] → io_caller w = true).

Lemma cb_count_at w c f u r nx n : io_callbacks w !! c = Some (Callback f u r nx) →
  cb_count n c w = IoRet (r + n)%Z (sys_set_callbacks (<[c := Callback f u (r + n)%Z nx]> (io_callbacks w)) w).
Proof. intros H. unfold cb_count. by rewrite H. Qed.

Lemma register_spec f u i w l : has_callbacks i w l →
  ∃ w', ios_register_callback f u i w = IoRet () w' ∧ has_callbacks i w' ((f, u) :: l) ∧
    size (io_callbacks w') = S (size (io_callbacks w)).
Proof.
  intros (x & ids & Hx & Hch & Hc). unfold ios_register_callback.
  rewrite (io_bind_Ret _ _ w (i_list x) w) by (unfold ios_get; by rewrite Hx).
  assert (∃ m, (match i_list x with Some n => _ ← cb_count 1 n; mret () | None => mret () end) w = IoRet () (sys_set_callbacks m w) ∧
    dom m = dom (io_callbacks w) ∧ cb_chain 2 m (i_list x) ids l) as (m & Hm & Hdom & Hch2).
  { destruct ids as [|c ids], l as [|[f0 u0] l]; try done; cbn [cb_chain] in Hch.
    - rewrite Hch. exists (io_callbacks w). split; [by destruct w|done].
    - destruct Hch as (Hp & Hni & nx & Hm & Hch). rewrite Hp. eexists. split; [|split].
      + rewrite (io_bind_Ret _ _ _ _ _ (cb_count_at _ _ _ _ _ _ _ Hm)). done.
      + apply dom_insert_lookup_L. eauto.
      + cbn. split; [done|]. split; [done|]. exists nx. rewrite lookup_insert_eq. split; [done|]. by apply chain_insert. }
  rewrite (io_bind_Ret _ _ _ _ _ Hm). set (c := fresh (dom m)).
  assert (Hfr : c ∉ dom m) by apply is_fresh.
  rewrite (io_bind_Ret _ _ _ c (sys_set_callbacks m w)) by done.
  unfold mbind, io_bind, io_modify, ios_modify. cbn [io_streams io_callbacks sys_set_callbacks]. rewrite Hx.
  eexists. split; [done|]. split.
  - exists (i_set_list (Some c) x), (c :: ids). split; [apply lookup_insert_eq|]. split; [|done].
    cbn [io_callbacks sys_put_stream sys_set_streams sys_set_caller sys_set_callbacks cb_chain i_list i_set_list].
    assert (c ∉ ids).
    { apply cb_chain_dom in Hch2 as (_ & Hsub & _). intros Hin. apply Hfr, Hsub. by apply elem_of_list_to_set. }
    split; [done|]. split; [done|]. exists (i_list x). rewrite lookup_insert_eq. split; [done|]. by apply chain_insert.
  - cbn. rewrite map_size_insert_None by (by apply not_elem_of_dom). by rewrite <-!size_dom, Hdom.
Qed.

Lemma register_all_spec regs i w l : has_callbacks i w l →
  ∃ w', register_all regs i w = IoRet () w' ∧ has_callbacks i w' (rev regs ++ l) ∧
    size (io_callbacks w') = length regs + size (io_callbacks w).
Proof.
  revert w l. induction regs as [|[f u] regs IH]; intros w l Hw; [by exists w|]. cbn [register_all].
  destruct (register_spec f u i w l Hw) as (w1 & H1 & Hw1 & Hs1).
  rewrite (io_bind_Ret _ _ _ _ _ H1). destruct (IH w1 _ Hw1) as (w2 & H2 & Hw2 & Hs2). exists w2.
  split; [done|]. cbn [rev length]. split; [by rewrite <-app_assoc|lia].
Qed.

(** The functions leave the callbacks alone. *)
Context (i : nat) (Hrun : ∀ f e j u w a w', cb_run f e j u w = IoRet a w' →
  io_callbacks w' = io_callbacks w ∧ io_caller w' = io_caller w ∧ (i_list <$> io_streams w' !! i) = (i_list <$> io_streams w !! i)).

Lemma call_real_spec fuel r e p ids l w : cb_chain r (io_callbacks w) p ids l → length l < fuel →
  call_real cb_run fuel i p e w = run_cbs e i l w.
Proof.
  revert fuel r p ids w. induction l as [|[f u] l IH]; intros [|fuel] r p [|c ids] w; cbn [cb_chain length]; try done; try lia.
  - by intros ->.
  - intros (-> & Hni & nx & Hm & Hch) Hf. cbn [call_real run_cbs].
    rewrite (io_bind_Ret _ _ w f w), (io_bind_Ret _ _ w u w) by (unfold cb_get; by rewrite Hm).
    destruct (cb_run f e i u w) as [[] w'|ex w'| |] eqn:Hr; [|by unfold mbind, io_bind; rewrite Hr..].
    destruct (Hrun _ _ _ _ _ _ _ Hr) as (Hcb & _ & _).
    rewrite (io_bind_Ret _ _ _ _ _ Hr), (io_bind_Ret _ _ _ _ _ Hr).
    rewrite (io_bind_Ret _ _ w' nx w') by (unfold cb_get; by rewrite Hcb, Hm).
    rewrite <-Hcb in Hch. apply (IH fuel 2%Z nx ids w'); [done|lia].
Qed.
Lemma run_cbs_keeps e l w a w' : run_cbs e i l w = IoRet a w' →
  io_callbacks w' = io_callbacks w ∧ io_caller w' = io_caller w ∧ (i_list <$> io_streams w' !! i) = (i_list <$> io_streams w !! i).
Proof.
  revert w. induction l as [|[f u] l IH]; intros w; cbn [run_cbs]; [by intros [= _ <-]|].
  destruct (cb_run f e i u w) as [[] w1|ex w1| |] eqn:Hr; unfold mbind, io_bind; rewrite Hr; try done.
  intros Hl. destruct (Hrun _ _ _ _ _ _ _ Hr) as (H1 & H2 & H3). destruct (IH _ Hl) as (H4 & H5 & H6). split_and!; congruence.
Qed.

Lemma call_callbacks_spec e l w : has_callbacks i w l → call_callbacks cb_run e i w = run_cbs e i l w.
Proof.
  intros (x & ids & Hx & Hch & Hc). unfold call_callbacks, io_get. rewrite (io_bind_Ret _ _ w (io_caller w) w) by done.
  rewrite (io_bind_Ret _ _ w (i_list x) w) by (unfold ios_get; by rewrite Hx).
  rewrite (io_bind_Ret _ _ w (S (size (io_callbacks w))) w) by done.
  destruct l as [|fu l].
  - destruct ids; [|done]. cbn in Hch. rewrite Hch. by destruct (io_caller w).
  - rewrite Hc by done. cbn [io_when]. eapply call_real_spec; [exact Hch|]. apply chain_size in Hch. lia.
Qed.

(** The destructor releases the latest callback only. *)
Lemma release_spec w c f u nx ids l : io_callbacks w !! c = Some (Callback f u 1 nx) → c ∉ ids →
  cb_chain 2 (io_callbacks w) nx ids l →
  ∃ w', cb_release (Some c) w = IoRet () w' ∧ S (size (io_callbacks w')) = size (io_callbacks w).
Proof.
  intros Hm Hni Hch. unfold cb_release. rewrite (io_bind_Ret _ _ _ _ _ (cb_count_at _ _ _ _ _ _ (-1) Hm)).
  set (w1 := sys_set_callbacks _ w). rewrite (io_bind_Ret _ _ w1 (S (size (io_callbacks w1))) w1) by done.
  cbn [Z.add Z.pos_sub decide]. rewrite decide_True by done. cbn [cb_delete].
  assert (H1 : io_callbacks w1 !! c = Some (Callback f u 0 nx)) by (cbn; apply lookup_insert_eq).
  rewrite (io_bind_Ret _ _ w1 nx w1) by (unfold cb_get; by rewrite H1).
  assert (Hs1 : dom (io_callbacks w1) = dom (io_callbacks w)) by (apply dom_insert_lookup_L; eauto).
  assert (∃ m, (match nx with Some n => r ← cb_count (-1) n; if decide (r = 0%Z) then cb_delete (size (io_callbacks w1)) n else mret ()
                | None => mret () end) w1 = IoRet () (sys_set_callbacks m w1) ∧ dom m = dom (io_callbacks w1)) as (m & Hd & Hdm).
  { destruct ids as [|c2 ids], l as [|[f2 u2] l]; try done; cbn [cb_chain] in Hch.
    - rewrite Hch. exists (io_callbacks w1). split; [by destruct w|done].
    - destruct Hch as (-> & _ & nx2 & Hm2 & _).
      assert (H2 : io_callbacks w1 !! c2 = Some (Callback f2 u2 2 nx2)) by (cbn; rewrite lookup_insert_ne by set_solver; done).
      rewrite (io_bind_Ret _ _ _ _ _ (cb_count_at _ _ _ _ _ _ (-1) H2)). eexists. split; [done|]. apply dom_insert_lookup_L. eauto. }
  rewrite (io_bind_Ret _ _ _ _ _ Hd). eexists. split; [done|]. cbn.
  assert (is_Some (m !! c)) as [y Hy].
  { apply elem_of_dom. rewrite Hdm, Hs1. apply elem_of_dom. eauto. }
  rewrite map_size_delete_Some by eauto. rewrite <-!size_dom, Hdm, Hs1, size_dom.
  assert (size (io_callbacks w) ≠ 0); [|lia]. intros Hz%map_size_empty_inv. by rewrite Hz in Hm.
Qed.
End callback_runs.

(** ** Properties *)

(** The bits which decide whether the sentry of a stream can be left out say
    what they are to say - the stream is not good, it is tied - after its
    construction, with a buffer or without, and any sequence of operations which
    set, clear or mask format flags, change the state, the buffer, the tie, the
    width, the precision or the fill character, or handle an exception; none of
    these throws while the stream has not been told to throw exceptions, and no
    other stream is changed. *)
Theorem ios_bits_invariant {D} (w : iosys D) loc sb i ops :
  Forall ios_op_ok ops →
  ∃ x, (_ ← ios_ctor loc sb i; run_ios_ops ops i) w = IoRet () (sys_put_stream i x w) ∧
    bits_agree x ∧
    (need_osentry i (sys_put_stream i x w) = IoRet false (sys_put_stream i x w) ↔
     i_state x = goodbit ∧ i_tie x = None ∧ flag_set (i_flags x) fl_unitbuf = false).
Proof.
  intros Hops.
  assert (∃ y, ios_ctor loc sb i w = IoRet () (sys_put_stream i y w) ∧ ios_inv y) as (y & Hy & Hinv).
  { set (x0 := i_set_state (match sb with None => badbit | Some _ => goodbit end) (i_set_sbuf sb (ios_base_init loc))).
    assert (∃ z, steps_to (D := D) i (_ ← (match sb with None => manip_set fl_os_good i | Some _ => mret () end); ios_init sb i) x0 () z ∧ ios_inv z)
      as (z & Hz & Hinv).
    { destruct sb as [b|]; eexists; (split; [unfold ios_init; repeat first [apply steps_ret | apply steps_get
        | apply steps_modify | apply steps_setf | eapply steps_bind]|]); by repeat split. }
    exists z. split; [|done]. unfold ios_ctor.
    rewrite (io_bind_Ret _ _ w () (sys_put_stream i x0 w)) by done.
    by rewrite (Hz _ (put_stream_at i x0 w)), put_stream_put. }
  assert (∃ x, steps_to (D := D) i (run_ios_ops ops i) y () x ∧ ios_inv x) as (x & Hx & [Hb _]).
  { clear Hy. revert y Hinv. induction Hops as [|op ops Hop Hops IH]; intros y Hinv; [exists y; split; [apply steps_ret|done]|].
    destruct (ios_op_inv (D := D) op i y Hop Hinv) as (y1 & H1 & Hinv1). destruct (IH y1 Hinv1) as (x & H2 & Hx).
    exists x. split; [|done]. cbn [run_ios_ops]. by eapply steps_bind. }
  exists x. split; [|split; [done|]].
  - rewrite (io_bind_Ret _ _ _ _ _ Hy), (Hx _ (put_stream_at i y w)). by rewrite put_stream_put.
  - unfold need_osentry, ios_get. rewrite put_stream_at. split.
    + intros [= Hn]. by apply no_sentry.
    + intros (Hs & Ht & Hu). rewrite need_osentry_bits. destruct Hb as [-> ->]. rewrite Hs, Ht, bool_decide_true, bool_decide_false by naive_solver.
      change fl_unitbuf with (2 ^ 13)%Z in Hu. by rewrite flag_bit in Hu by done; rewrite Hu.
Qed.

(** The callbacks of a stream are called in the reverse order of their
    registration, each of them once for an event, whatever they do as long as they
    leave the lists of callbacks alone; but registering a callback counts the
    reference of the list to the previous one twice, so that the destructor of the
    stream releases only the latest one and leaks the others. *)
Theorem ios_callbacks_spec {D} (cb_run : nat → ios_event → nat → Z → io (iosys D) ()) (w : iosys D) x i regs :
  io_streams w !! i = Some x → i_list x = None →
  (∀ f e j u w a w', cb_run f e j u w = IoRet a w' →
    io_callbacks w' = io_callbacks w ∧ io_caller w' = io_caller w ∧ (i_list <$> io_streams w' !! i) = (i_list <$> io_streams w !! i)) →
  ∃ w', register_all regs i w = IoRet () w' ∧
    size (io_callbacks w') = length regs + size (io_callbacks w) ∧
    (∀ e, call_callbacks cb_run e i w' = run_cbs cb_run e i (rev regs) w') ∧
    (∀ w2, regs ≠ [] → run_cbs cb_run erase_event i (rev regs) w' = IoRet () w2 →
      ∃ w3, ios_base_dtor cb_run i w' = IoRet () w3 ∧ S (size (io_callbacks w3)) = size (io_callbacks w')).
Proof.
  intros Hx Hl Hrun.
  destruct (register_all_spec regs i w []) as (w' & Hreg & Hw' & Hs); [exists x, []; by rewrite Hl|].
  rewrite app_nil_r in Hw'. exists w'. split; [done|]. split; [done|].
  split; [intros e; by apply call_callbacks_spec|]. intros w2 Hne Hrun2.
  destruct (run_cbs_keeps cb_run i Hrun _ _ _ _ _ Hrun2) as (Hcb & Hca & Hli).
  pose proof Hw' as (x' & ids & Hx' & Hch & Hc). unfold ios_base_dtor.
  rewrite (io_bind_Ret _ _ _ _ _ (eq_trans (call_callbacks_spec cb_run i Hrun erase_event _ _ Hw') Hrun2)).
  assert (Hrev : rev regs ≠ []) by (by intros ?%(f_equal (@rev _)); rewrite rev_involutive in *).
  destruct (io_streams w2 !! i) as [x2|] eqn:Hx2; [|by rewrite Hx' in Hli].
  rewrite Hx' in Hli. injection Hli as Hli. unfold io_get. rewrite (io_bind_Ret _ _ w2 (io_caller w2) w2) by done.
  rewrite (io_bind_Ret _ _ w2 (i_list x2) w2) by (unfold ios_get; by rewrite Hx2).
  rewrite Hca, (Hc Hrev). cbn [io_when]. rewrite Hli.
  destruct (rev regs) as [|[f u] l], ids as [|c ids]; try done. destruct Hch as (-> & Hni & nx & Hm & Hch).
  rewrite <-Hcb in *. by eapply release_spec.
Qed.

(** ** Witnesses *)
Definition classic_locale : locale :=
  Locale id (λ c, bool_decide (c ∈ [9; 10; 11; 12; 13; 32]%Z)) classic_numpunct classic_cache.
Definition empty_sys : iosys stringbuf := IoSys ∅ ∅ ∅ false 0 true 1.

Lemma ios_bits_invariant_witness :
  let ops := [IosSetf fl_hex; IosTie (Some 7); IosSetstate eofbit; IosUnsetf fl_basefield; IosRdbuf (Some 3); IosTie None] in
  ∃ x, (_ ← ios_ctor classic_locale None 0; run_ios_ops ops 0) empty_sys = IoRet () (sys_put_stream 0 x empty_sys) ∧
    bits_agree x ∧
    (need_osentry 0 (sys_put_stream 0 x empty_sys) = IoRet false (sys_put_stream 0 x empty_sys) ↔
     i_state x = goodbit ∧ i_tie x = None ∧ flag_set (i_flags x) fl_unitbuf = false).
Proof.
  intros ops. apply (ios_bits_invariant empty_sys classic_locale None 0 ops).
  repeat constructor; done.
Defined.

(** A callback which notes its number in a word of the stream. *)
Definition note_callback (f : nat) (e : ios_event) (i : nat) (u : Z) : io (iosys stringbuf) () :=
  ios_set_word (λ p, (10 * p.1 + u, Z.of_nat f)%Z) 0 i.

Lemma ios_callbacks_spec_witness :
  let w := sys_put_stream 0 (ios_base_init classic_locale) empty_sys in
  let regs := [(1, 1%Z); (1, 2%Z); (5, 3%Z)] in
  ∃ w', register_all regs 0 w = IoRet () w' ∧
    size (io_callbacks w') = length regs + size (io_callbacks w) ∧
    (∀ e, call_callbacks note_callback e 0 w' = run_cbs note_callback e 0 (rev regs) w') ∧
    (∀ w2, regs ≠ [] → run_cbs note_callback erase_event 0 (rev regs) w' = IoRet () w2 →
      ∃ w3, ios_base_dtor note_callback 0 w' = IoRet () w3 ∧ S (size (io_callbacks w3)) = size (io_callbacks w')).
Proof.
  apply (ios_callbacks_spec note_callback _ (ios_base_init classic_locale)); [apply lookup_insert_eq|done|].
  intros f e j u w a w'. unfold note_callback, ios_set_word, ios_modify.
  destruct (io_streams w !! j) as [x|] eqn:Hx; [|done]. intros [= _ <-]. split; [done|]. split; [done|]. cbn.
  destruct (decide (j = 0)) as [->|Hne]; [by rewrite lookup_insert_eq, Hx|by rewrite lookup_insert_ne].
Defined.
