(* ===== verification/StreamRun.v ===== *)
(** * Running a stream on its buffer

    Rules for computations which use one stream and the buffer of that stream,
    so that theorems about them do not mention the store: [runs i b m v r v']
    says that [m] takes the stream [i] and its buffer [b] from [v] to [v'] and
    ends with [r]. *)
From S2P Require Import Prelude LocaleCache NumPut NumGet StreamBuf StringBuf StringText Ios.

(** The end of a computation: a value or an exception. *)
Inductive io_end (A : Type) := Done (a : A) | Thrown (e : exn).
Arguments Done {A} _.
Arguments Thrown {A} _.

Section runs.
Context {D : Type}.
Implicit Types (w : iosys D) (i b : nat) (v : ios * sbuf D).

Definition view i b v w : Prop :=
  io_streams w !! i = Some v.1 ∧ io_bufs w !! b = Some v.2 ∧ i_sbuf v.1 = Some b.
Definition update i b v w : iosys D := sys_put_stream i v.1 (sys_put_buf b v.2 w).

Definition runs {A} i b (m : io (iosys D) A) v (r : io_end A) v' : Prop :=
  ∀ w, view i b v w →
    i_sbuf v'.1 = Some b ∧
    m w = match r with Done a => IoRet a (update i b v' w) | Thrown e => IoExc e (update i b v' w) end.

Lemma view_update i b v w : i_sbuf v.1 = Some b → view i b v (update i b v w).
Proof. intros Hb. split; [apply lookup_insert_eq|]. split; [apply lookup_insert_eq|done]. Qed.
Lemma update_update i b v v' w : update i b v' (update i b v w) = update i b v' w.
Proof.
  unfold update, sys_put_stream, sys_put_buf, sys_set_streams, sys_set_bufs. cbn. by rewrite !insert_insert_eq.
Qed.
Lemma update_view i b v w : view i b v w → update i b v w = w.
Proof.
  intros (Hx & Hs & _). unfold update, sys_put_buf. rewrite insert_id, sys_bufs_id by done. by apply put_stream_id.
Qed.

Context {i b : nat}.

Lemma runs_ret {A} (a : A) v : runs i b (mret a) v (Done a) v.
Proof. intros w Hw. split; [apply Hw|]. by rewrite update_view. Qed.
Lemma runs_throw {A} e v : runs (A := A) i b (io_throw e) v (Thrown e) v.
Proof. intros w Hw. split; [apply Hw|]. by rewrite update_view. Qed.
Lemma runs_get {A} (f : ios → A) v : runs i b (ios_get f i) v (Done (f v.1)) v.
Proof. intros w Hw. split; [apply Hw|]. rewrite update_view by done. unfold ios_get. by destruct Hw as (-> & _). Qed.
Lemma runs_modify (f : ios → ios) v : i_sbuf (f v.1) = i_sbuf v.1 → runs i b (ios_modify f i) v (Done ()) (f v.1, v.2).
Proof.
  intros Hf w Hw. split; [cbn; rewrite Hf; apply Hw|]. destruct Hw as (Hx & Hs & Hb). unfold ios_modify. rewrite Hx.
  unfold update. cbn. unfold sys_put_buf. by rewrite insert_id, sys_bufs_id.
Qed.
Lemma runs_ptr {A} (f : sbuf D → outcome (A * sbuf D)) v a s' : f v.2 = Ret (a, s') → runs i b (on_ptr f (Some b)) v (Done a) (v.1, s').
Proof.
  intros Hf w (Hx & Hs & Hb). split; [done|]. cbn. unfold on_buf. rewrite Hs, Hf. f_equal.
  unfold update. cbn. symmetry. by apply put_stream_id.
Qed.

Lemma runs_bind {A B} (m : io (iosys D) A) (f : A → io (iosys D) B) v a v' r v'' :
  runs i b m v (Done a) v' → runs i b (f a) v' r v'' → runs i b (m ≫= f) v r v''.
Proof.
  intros Hm Hf w Hw. destruct (Hm w Hw) as [Hb' Hm']. destruct (Hf _ (view_update i b v' w Hb')) as [Hb'' Hf'].
  split; [done|]. rewrite (io_bind_Ret _ _ _ _ _ Hm'), Hf', update_update. done.
Qed.
Lemma runs_bind_thrown {A B} (m : io (iosys D) A) (f : A → io (iosys D) B) v e v' :
  runs i b m v (Thrown e) v' → runs i b (m ≫= f) v (Thrown e) v'.
Proof. intros Hm w Hw. destruct (Hm w Hw) as [Hb' Hm']. split; [done|]. by apply io_bind_Exc. Qed.
Lemma runs_view {A} (m : io (iosys D) A) v r v' : (i_sbuf v.1 = Some b → runs i b m v r v') → runs i b m v r v'.
Proof. intros H w Hw. apply H; [apply Hw|done]. Qed.
Lemma runs_rdbuf {A} (f : sbuf D → outcome (A * sbuf D)) v a s' : f v.2 = Ret (a, s') → runs i b (on_rdbuf f i) v (Done a) (v.1, s').
Proof.
  intros Hf. apply runs_view. intros Hb. eapply runs_bind; [apply runs_get|]. rewrite Hb. by apply runs_ptr.
Qed.

Lemma runs_try {A} (m : io (iosys D) A) h v a v' : runs i b m v (Done a) v' → runs i b (try_catch m h) v (Done a) v'.
Proof. intros Hm w Hw. destruct (Hm w Hw) as [Hb' Hm']. split; [done|]. unfold try_catch. by rewrite Hm'. Qed.
Lemma runs_catch {A} (m : io (iosys D) A) h v e v' r v'' :
  runs i b m v (Thrown e) v' → runs i b (h e) v' r v'' → runs i b (try_catch m h) v r v''.
Proof.
  intros Hm Hh w Hw. destruct (Hm w Hw) as [Hb' Hm']. destruct (Hh _ (view_update i b v' w Hb')) as [Hb'' Hh'].
  split; [done|]. unfold try_catch. rewrite Hm', Hh'. by rewrite update_update.
Qed.
Lemma runs_dtor {A} (m : io (iosys D) A) d v r v' v'' :
  runs i b m v r v' → runs i b d v' (Done ()) v'' → runs i b (with_dtor m d) v r v''.
Proof.
  intros Hm Hd w Hw. destruct (Hm w Hw) as [Hb' Hm']. destruct (Hd _ (view_update i b v' w Hb')) as [Hb'' Hd'].
  split; [done|]. unfold with_dtor. rewrite Hm'. by destruct r; rewrite Hd', update_update.
Qed.
Lemma runs_when c (m : io (iosys D) ()) v r v' :
  (c = true → runs i b m v r v') → (c = false → r = Done () ∧ v' = v) → runs i b (io_when c m) v r v'.
Proof. destruct c; intros H1 H2; [by apply H1|]. destruct H2 as [-> ->]; [done|]. apply runs_ret. Qed.

(** What takes the stream to another state without the buffer. *)
Lemma runs_steps {A} (m : io (iosys D) A) x a y s : steps_to i m x a y → i_sbuf y = i_sbuf x → runs i b m (x, s) (Done a) (y, s).
Proof.
  intros Hm Hy w Hw. pose proof Hw as (Hx & Hs & Hb). cbn in *. split; [congruence|]. rewrite (Hm w Hx).
  unfold update. cbn. unfold sys_put_buf. by rewrite insert_id, sys_bufs_id.
Qed.

(** *** The state of the stream *)
Lemma runs_clear st x s : flag_set st (i_exceptions x) = false →
  runs i b (ios_clear st i) (x, s) (Done ()) (ios_cleared st x, s).
Proof.
  intros He. apply runs_view. cbn. intros Hb. unfold ios_clear, ios_cleared. rewrite Hb.
  eapply runs_bind; [by apply runs_modify; cbn; rewrite Hb|]. cbn. rewrite Hb.
  eapply runs_bind; [apply runs_get|]. cbn. eapply runs_bind; [apply runs_get|]. cbn. rewrite He.
  case_decide.
  - apply (runs_steps _ (i_set_state st x)); [|done]. eapply steps_bind; [apply steps_unsetf|apply steps_ret].
  - apply (runs_steps _ (i_set_state st x)); [|done]. eapply steps_bind; [apply steps_setf|apply steps_ret].
Qed.
Lemma runs_clear_throws st x s : flag_set st (i_exceptions x) = true →
  runs i b (ios_clear st i) (x, s) (Thrown ios_failure) (i_set_state st x, s).
Proof.
  intros He. apply runs_view. cbn. intros Hb. unfold ios_clear.
  eapply runs_bind; [by apply runs_modify; cbn; rewrite Hb|]. cbn. rewrite Hb.
  eapply runs_bind; [apply runs_get|]. cbn. eapply runs_bind; [apply runs_get|]. cbn. rewrite He. apply runs_throw.
Qed.
End runs.
