(* ===== verification/OStream.v ===== *)
(** * Output streams

    basic_ostream of cxxrt-source/include/srccxx/ostream.cc and cxxrt/ostream.h:
    the sentry, which flushes the tied stream and the stream itself, the formatted
    output of numbers, characters and strings, and the unformatted functions. The
    inserters for floating point numbers are not modelled. *)
From S2P Require Import Prelude LocaleCache NumPut NumGet StreamBuf StringBuf StringText StreamIter Ios StreamRun.

Section ostream.
Context {D : Type} `{!SbufVirtuals D, !SbufPositions D}.
(** The bits of a long. *)
Context (lw : Z).
Implicit Types (i b : nat) (w : iosys D).

(** Puts each of the characters, whether that succeeds or not. *)
Fixpoint put_chars (cs : list Z) (p : option nat) : io (iosys D) () :=
  match cs with [] => mret () | c :: cs => _ ← on_ptr (sputc c) p; put_chars cs p end.

Definition os_flush i : io (iosys D) () :=
  b ← ios_get i_sbuf i;
  match b with
  | None => mret ()
  | Some b => r ← on_buf v_sync b; io_when (bool_decide (r = -1)%Z) (ios_setstate badbit i)
  end.

(** ** The sentry *)
Definition os_sentry i : io (iosys D) bool :=
  t ← ios_get i_tie i;
  _ ← match t with Some t => os_flush t | None => mret () end;
  ios_good i.
Definition os_sentry_dtor i : io (iosys D) () :=
  f ← ios_flags i; io_when (flag_set f fl_unitbuf) (os_flush i).
Definition with_os_sentry i (body : bool → io (iosys D) ()) : io (iosys D) () :=
  ok ← os_sentry i; with_dtor (body ok) (os_sentry_dtor i).

(** ** Numbers *)
Inductive print_val := PBool (b : bool) | PNum (v : num_val).

(** num_put through an iterator on the buffer; the result is [failed()]. *)
Definition os_num_put (v : print_val) i : io (iosys D) bool :=
  fl ← ios_flags i; width ← ios_get i_width i; fill ← ios_get i_fill i; loc ← ios_get i_loc i;
  '(failed, fmt) ← on_rdbuf (λ s,
    '(o, fmt) ← match v with
                | PBool v => put_bool lw ob_num_copy ob_fill_n ob_copy (loc_cache loc) (loc_punct loc) (IosFmt fl width) fill v (ob_ctor s)
                | PNum v => new_num_put lw ob_num_copy ob_fill_n (loc_cache loc) (IosFmt fl width) fill v (ob_ctor s)
                end;
    Ret ((ob_fail o, fmt), ob_buf o)) i;
  _ ← ios_modify (i_set_width (fmt_width fmt)) i;
  mret failed.
Definition os_print_body (v : print_val) i : io (iosys D) () :=
  try_catch (failed ← os_num_put v i; io_when failed (ios_setstate badbit i)) (λ e, process_exception e i).
Definition os_print (v : print_val) i : io (iosys D) () :=
  need ← need_osentry i;
  if need : bool then with_os_sentry i (λ ok, io_when ok (os_print_body v i)) else os_print_body v i.

Definition os_bool (v : bool) : nat → io (iosys D) () := os_print (PBool v).
(** A short or int is converted to the unsigned type of its width first. *)
Definition os_short (v : Z) : nat → io (iosys D) () := os_print (PNum (NLong (wraps lw (wrapu 16 v)))).
Definition os_ushort (v : Z) : nat → io (iosys D) () := os_print (PNum (NULong v)).
Definition os_int (v : Z) : nat → io (iosys D) () := os_print (PNum (NLong (wraps lw (wrapu 32 v)))).
Definition os_uint (v : Z) : nat → io (iosys D) () := os_print (PNum (NULong v)).
Definition os_long (v : Z) : nat → io (iosys D) () := os_print (PNum (NLong v)).
Definition os_ulong (v : Z) : nat → io (iosys D) () := os_print (PNum (NULong v)).
Definition os_ptr (v : Z) : nat → io (iosys D) () := os_print (PNum (NPtr v)).

(** ** A stream buffer

    [fuel] bounds the rounds of the loop. A buffer which is copied to itself is
    read before it is written here. *)
Definition os_setstate (state : Z) i : io (iosys D) () := try_catch (ios_setstate state i) io_throw.

Definition buf_avail (s : sbuf D) : outcome (Z * sbuf D) := n ← or_ub (ptr_sub (sb_gend s) (sb_gcur s)); Ret (n, s).
Definition buf_peek_n (n : Z) (s : sbuf D) : outcome (list Z * sbuf D) :=
  cs ← or_ub (mem_read (sb_mem s) (sb_gcur s) (Z.to_nat n)); Ret (cs, s).
(** [_CS_commit(_CS_begin() + n)]. *)
Definition buf_commit (n : Z) (s : sbuf D) : outcome (() * sbuf D) :=
  p ← or_ub (ptr_add (sb_mem s) (sb_gcur s) n); Ret ((), setg (sb_gbeg s) p (sb_gend s) s).

Fixpoint os_copy_loop (fuel : nat) (from : nat) (to : option nat) (c : option Z) : io (iosys D) () :=
  match fuel, c with
  | _, None => mret ()
  | 0, _ => io_out_of_fuel
  | S fuel, Some ch =>
      n ← on_buf buf_avail from;
      if decide (1 < n)%Z then
        cs ← on_buf (buf_peek_n n) from;
        m ← on_ptr (xsputn cs) to;
        _ ← on_buf (buf_commit (Z.of_nat m)) from;
        if decide (Z.of_nat m ≠ n) then mret () else c ← on_buf sgetc from; os_copy_loop fuel from to c
      else
        r ← on_ptr (sputc ch) to;
        match r with None => mret () | Some _ => c ← on_buf sgetc from; os_copy_loop fuel from to c end
  end.
Definition os_streambuf (fuel : nat) (from : option nat) i : io (iosys D) () :=
  with_os_sentry i (λ ok,
    if ok : bool then
      match from with
      | None => os_setstate (Z.lor badbit failbit) i
      | Some from =>
          try_catch (
            to ← ios_get i_sbuf i;
            c ← on_buf sgetc from;
            match c with
            | None => os_setstate failbit i
            | Some c =>
                r ← on_ptr (sputc c) to;
                match r with
                | None => os_setstate failbit i
                | Some _ => c ← on_buf snextc from; os_copy_loop fuel from to c
                end
            end) (λ e, process_exception e i)
      end
    else ios_setstate failbit i).

(** The inserters of manipulators. *)
Definition os_apply (pf : nat → io (iosys D) ()) i : io (iosys D) () :=
  try_catch (pf i) (λ e,
    _ ← try_catch (ios_setstate badbit i) (λ _, mret ());
    ex ← ios_get i_exceptions i;
    if flag_set ex badbit then io_throw e else mret ()).

(** ** Unformatted output *)
Definition os_put_body (c : Z) i : io (iosys D) () :=
  try_catch (r ← on_rdbuf (sputc c) i; io_when (bool_decide (r = None)) (ios_setstate badbit i)) (λ e, process_exception e i).
Definition os_put (c : Z) i : io (iosys D) () :=
  need ← need_osentry i;
  if need : bool then with_os_sentry i (λ ok, if ok : bool then os_put_body c i else ios_setstate badbit i)
  else os_put_body c i.
Definition os_write (cs : list Z) i : io (iosys D) () :=
  with_os_sentry i (λ ok,
    if ok : bool then
      try_catch (n ← on_rdbuf (xsputn cs) i; io_when (bool_decide (n ≠ length cs)) (ios_setstate badbit i))
        (λ e, process_exception e i)
    else ios_setstate badbit i).

Definition os_tellp i : io (iosys D) Z :=
  f ← ios_fail i; if f : bool then mret (-1)%Z else on_rdbuf (v_seekoff 0 seek_cur om_out) i.
Definition os_seekp (pos : Z) i : io (iosys D) () :=
  f ← ios_fail i; if f : bool then mret () else _ ← on_rdbuf (v_seekpos pos om_out) i; mret ().
Definition os_seekp_off (off : Z) (dir : seekdir) i : io (iosys D) () :=
  f ← ios_fail i; if f : bool then mret () else _ ← on_rdbuf (v_seekoff off dir om_out) i; mret ().

(** Manipulators. *)
Definition os_endl i : io (iosys D) () :=
  c ← ios_get i_newline i; _ ← on_rdbuf (sputc c) i; _ ← on_rdbuf v_sync i; mret ().
Definition os_ends i : io (iosys D) () := _ ← on_rdbuf (sputc 0%Z) i; mret ().

(** ** Characters and strings *)
Definition print_char (c : Z) i : io (iosys D) () :=
  width ← ios_get i_width i;
  if decide (width = 0%Z) then _ ← on_rdbuf (sputc c) i; mret ()
  else
    p ← ios_get i_sbuf i; fl ← ios_flags i; fill ← ios_get i_fill i;
    let pad := replicate (Z.to_nat (width - 1)) fill in
    _ ← put_chars (if decide (Z.land fl fl_adjustfield = fl_left) then c :: pad else pad ++ [c]) p;
    ios_modify (i_set_width 0%Z) i.
Definition os_char (c : Z) i : io (iosys D) () :=
  with_os_sentry i (λ ok, io_when ok (try_catch (print_char c i) (λ e, process_exception e i))).
(** A char for any stream. *)
Definition os_narrow_char (c : Z) i : io (iosys D) () :=
  with_os_sentry i (λ ok, io_when ok (try_catch
    (loc ← ios_get i_loc i; print_char (loc_widen loc c) i) (λ e, process_exception e i))).

(** [_CS_null]. *)
Definition null_str : list Z := codes "(null)".
Definition print_string_intern (str : option (list Z)) i : io (iosys D) () :=
  try_catch (
    let str := default null_str str in
    let len := Z.of_nat (length str) in
    p ← ios_get i_sbuf i;
    width ← ios_width 0 i;
    if decide (width ≤ len)%Z then
      n ← on_ptr (xsputn str) p; io_when (bool_decide (n ≠ length str)) (ios_setstate failbit i)
    else
      fl ← ios_flags i; fill ← ios_get i_fill i;
      let pad := replicate (Z.to_nat (width - len)) fill in
      put_chars (if decide (Z.land fl fl_adjustfield = fl_left) then str ++ pad else pad ++ str) p)
    (λ e, process_exception e i).
Definition os_string (str : option (list Z)) i : io (iosys D) () :=
  need ← need_osentry i;
  if need : bool then with_os_sentry i (λ ok, io_when ok (print_string_intern str i)) else print_string_intern str i.
(** A string of chars for any stream; without an alignment there is no padding. *)
Definition os_narrow_string (str : list Z) i : io (iosys D) () :=
  with_os_sentry i (λ ok, io_when ok (try_catch (
    let len := Z.of_nat (length str) in
    p ← ios_get i_sbuf i; width ← ios_get i_width i; loc ← ios_get i_loc i;
    let cs := loc_widen loc <$> str in
    _ ← (if decide (width ≤ len)%Z then put_chars cs p
         else
           fl ← ios_flags i; fill ← ios_get i_fill i;
           let pad := replicate (Z.to_nat (width - len)) fill in
           let adjust := Z.land fl fl_adjustfield in
           put_chars (if decide (adjust = fl_left) then cs ++ pad
                      else if decide (adjust = fl_internal ∨ adjust = fl_right) then pad ++ cs else cs) p);
    _ ← ios_width 0 i; mret ()) (λ e, process_exception e i))).
End ostream.

(** ** Leaving out the sentry *)
Section elision.
Context {D : Type} `{!SbufVirtuals D, !SbufPositions D}.
Implicit Types (i b : nat) (w : iosys D).

(** The stream does not ask for its buffer to be flushed, and [m] keeps that. *)
Definition no_unitbuf i w : Prop := ∃ x, io_streams w !! i = Some x ∧ Z.testbit (i_flags x) 13 = false.
Definition keeps {A} i (m : io (iosys D) A) : Prop :=
  ∀ w, no_unitbuf i w → match m w with IoRet _ w' | IoExc _ w' => no_unitbuf i w' | _ => True end.

Lemma keeps_ret {A} i (a : A) : keeps i (mret a).
Proof. by intros w Hw. Qed.
Lemma keeps_throw {A} i e : keeps (A := A) i (io_throw e).
Proof. by intros w Hw. Qed.
Lemma keeps_undef {A} i : keeps (A := A) i io_undef.
Proof. by intros w Hw. Qed.
Lemma keeps_bind {A B} i (m : io (iosys D) A) (f : A → io (iosys D) B) : keeps i m → (∀ a, keeps i (f a)) → keeps i (m ≫= f).
Proof.
  intros Hm Hf w Hw. specialize (Hm w Hw). unfold mbind, io_bind. destruct (m w) as [a w'|e w'| |]; [|done..].
  by apply Hf.
Qed.
Lemma keeps_get {A} i (f : ios → A) : keeps i (ios_get f i).
Proof. intros w Hw. unfold ios_get. by destruct (io_streams w !! i). Qed.
Lemma keeps_modify i (f : ios → ios) : (∀ x, Z.testbit (i_flags (f x)) 13 = Z.testbit (i_flags x) 13) → keeps i (ios_modify f i).
Proof.
  intros Hf w (x & Hx & Hb). unfold ios_modify. rewrite Hx. exists (f x). split; [apply lookup_insert_eq|]. by rewrite Hf.
Qed.
Lemma keeps_ptr {A} i (f : sbuf D → outcome (A * sbuf D)) p : keeps i (on_ptr f p).
Proof.
  intros w Hw. destruct p as [b|]; [|done]. cbn. unfold on_buf. destruct (io_bufs w !! b) as [s|]; [|done].
  by destruct (f s) as [[a s']| | |].
Qed.
Lemma keeps_try {A} i (m : io (iosys D) A) h : keeps i m → (∀ e, keeps i (h e)) → keeps i (try_catch m h).
Proof.
  intros Hm Hh w Hw. specialize (Hm w Hw). unfold try_catch. destruct (m w) as [a w'|e w'| |]; [done| |done..].
  by apply Hh.
Qed.
Lemma keeps_if {A} i (c : bool) (m m' : io (iosys D) A) : keeps i m → keeps i m' → keeps i (if c then m else m').
Proof. by destruct c. Qed.
Lemma keeps_decide {A} i P `{!Decision P} (m m' : io (iosys D) A) :
  keeps i m → keeps i m' → keeps i (if decide P then m else m').
Proof. by case_decide. Qed.
Lemma keeps_setf i k : (0 ≤ k)%Z → k ≠ 13%Z → keeps i (manip_set (2 ^ k) i).
Proof.
  intros H0 Hk. repeat (apply keeps_bind; [|intros ?]); try apply keeps_ret; [apply keeps_get|].
  apply keeps_modify. intros x. cbn [i_flags i_set_flags]. rewrite Z.lor_spec, Z.pow2_bits_false by done. apply orb_false_r.
Qed.
Lemma keeps_unsetf i k : (0 ≤ k)%Z → k ≠ 13%Z → keeps i (manip_unset (2 ^ k) i).
Proof.
  intros H0 Hk. repeat (apply keeps_bind; [|intros ?]); try apply keeps_ret; [apply keeps_get|].
  apply keeps_modify. intros x. cbn [i_flags i_set_flags]. rewrite Z.land_spec, compl_bit, Z.pow2_bits_false by done.
  apply andb_true_r.
Qed.
Lemma keeps_setstate i st : keeps i (ios_setstate st i).
Proof.
  unfold ios_setstate, ios_clear. repeat (apply keeps_bind; [|intros ?]); try apply keeps_get.
  - by apply keeps_modify.
  - apply keeps_if; [apply keeps_throw|]. apply keeps_decide; [by apply (keeps_unsetf i 20)|by apply (keeps_setf i 20)].
Qed.
Lemma keeps_process i e : keeps i (process_exception e i).
Proof.
  unfold process_exception. apply keeps_bind; [by apply keeps_modify|intros ?]. apply keeps_bind.
  { repeat (apply keeps_bind; [|intros ?]); try apply keeps_ret; [apply keeps_get|]. apply keeps_modify.
    intros x. cbn [i_flags i_set_flags]. rewrite Z.lor_spec. change fl_os_good with (2 ^ 20)%Z.
    rewrite Z.pow2_bits_false by done. apply orb_false_r. }
  intros ?. apply keeps_bind; [apply keeps_get|intros ?]. apply keeps_if; [apply keeps_throw|apply keeps_ret].
Qed.
Lemma keeps_chars i cs p : keeps i (put_chars cs p).
Proof. induction cs as [|c cs IH]; [apply keeps_ret|]. apply keeps_bind; [apply keeps_ptr|done]. Qed.

Lemma with_os_sentry_nop i body w x :
  io_streams w !! i = Some x → bits_agree x → flag_set (i_flags x) fl_os_check = false → keeps i (body true) →
  with_os_sentry i body w = body true w.
Proof.
  intros Hx Hb Hn Hk. destruct (no_sentry x Hb Hn) as (Hs & Ht & Hu).
  unfold with_os_sentry, os_sentry. rewrite (io_bind_Ret _ _ w true w).
  2:{ unfold ios_get. rewrite (io_bind_Ret _ _ w None w) by (by rewrite Hx, Ht).
      rewrite (io_bind_Ret _ _ w () w) by done. unfold ios_good, ios_get. rewrite Hx, Hs. done. }
  assert (Hw : no_unitbuf i w) by (exists x; change fl_unitbuf with (2 ^ 13)%Z in Hu; by rewrite flag_bit in Hu).
  specialize (Hk w Hw). unfold with_dtor.
  assert (Hd : ∀ w', no_unitbuf i w' → os_sentry_dtor i w' = IoRet () w').
  { intros w' (x' & Hx' & Hf). unfold os_sentry_dtor, ios_flags, ios_get.
    rewrite (io_bind_Ret _ _ w' (Z.land (i_flags x') fl_fmtmask) w') by (by rewrite Hx').
    change fl_unitbuf with (2 ^ 13)%Z. rewrite flag_bit, Z.land_spec, Hf by done. done. }
  destruct (body true w) as [a w'|e w'| |]; [by rewrite Hd|by rewrite Hd|done..].
Qed.
End elision.

(** Goes through a computation. *)
Ltac keeps_tac := repeat first
  [ apply keeps_setstate | apply keeps_process | apply keeps_get | apply keeps_ptr | apply keeps_chars
  | apply keeps_ret | apply keeps_try; [|intros ?] | apply keeps_bind; [|intros ?] | apply keeps_decide | apply keeps_if
  | by apply keeps_modify ].

(** ** Output as text *)

(** The operations of a client: characters, strings and numbers, unformatted
    output, and what changes the format. *)
Inductive out_op :=
  | WPut (c : Z) | WWrite (cs : list Z) | WChar (c : Z) | WStr (str : option (list Z))
  | WNum (v : num_val) | WInt (v : Z) | WBool (v : bool) | WEndl | WEnds | WFlush
  | WSetw (n : Z) | WSetfill (c : Z) | WSetbase (base : Z) | WSetf (f : Z) | WUnsetf (m : Z) | WSetfMask (f m : Z).

Section text.
Context (lw : Z).

Definition run_out_op {D} `{!SbufVirtuals D, !SbufPositions D} (op : out_op) (i : nat) : io (iosys D) () :=
  match op with
  | WPut c => os_put c i
  | WWrite cs => os_write cs i
  | WChar c => os_char c i
  | WStr str => os_string str i
  | WNum v => os_print lw (PNum v) i
  | WInt v => os_int lw v i
  | WBool v => os_bool lw v i
  | WEndl => os_endl i
  | WEnds => os_ends i
  | WFlush => os_flush i
  | WSetw n => os_apply (put_setw n) i
  | WSetfill c => os_apply (put_setfill c) i
  | WSetbase base => os_apply (put_setbase base) i
  | WSetf f => os_apply (manip_set f) i
  | WUnsetf m => os_apply (manip_unset m) i
  | WSetfMask f m => os_apply (manip_field f m) i
  end.

(** A field is padded on the right if it is adjusted to the left, and otherwise on
    the left. *)
Definition pad_field (fl width fill : Z) (cs : list Z) : list Z :=
  let pad := replicate (Z.to_nat (width - Z.of_nat (length cs))) fill in
  if decide (Z.land fl fl_adjustfield = fl_left) then cs ++ pad else pad ++ cs.

(** The text of a number on a stream. *)
Definition stream_num (x : ios) (v : num_val) : list Z :=
  let fl := Z.land (i_flags x) fl_fmtmask in
  let table := out_table (loc_widen (i_loc x)) (loc_punct (i_loc x)) (if flag_set fl fl_uppercase then cache_ut else cache_lt) in
  num_text lw table (np_grouping (loc_punct (i_loc x))) (eff_flags fl v) (i_width x) (i_fill x) v.

(** What an operation writes, and the stream afterwards. *)
Definition out_step (op : out_op) (x : ios) : list Z * ios :=
  let fl := Z.land (i_flags x) fl_fmtmask in
  let field cs := (pad_field fl (i_width x) (i_fill x) cs, i_set_width 0 x) in
  let flags f := ([], i_set_flags f x) in
  match op with
  | WPut c => ([c], x)
  | WWrite cs => (cs, x)
  | WChar c => field [c]
  | WStr str => field (default null_str str)
  | WNum v => (stream_num x v, i_set_width 0 x)
  | WInt v => (stream_num x (NLong (wraps lw (wrapu 32 v))), i_set_width 0 x)
  | WBool v =>
      if flag_set fl fl_boolalpha then field (if v then np_truename (loc_punct (i_loc x)) else np_falsename (loc_punct (i_loc x)))
      else (stream_num x (NLong (if v then 1 else 0)), i_set_width 0 x)
  | WEndl => ([i_newline x], x)
  | WEnds => ([0%Z], x)
  | WFlush => ([], x)
  | WSetw n => ([], i_set_width n x)
  | WSetfill c => ([], i_set_fill c x)
  | WSetbase base =>
      let f := if decide (base = 8%Z) then fl_oct else if decide (base = 10%Z) then fl_dec
               else if decide (base = 16%Z) then fl_hex else 0%Z in
      flags (Z.lor (Z.land (i_flags x) (fl_compl fl_basefield)) (Z.land fl_basefield f))
  | WSetf f => flags (Z.lor (i_flags x) f)
  | WUnsetf m => flags (Z.land (i_flags x) (fl_compl m))
  | WSetfMask f m => flags (Z.lor (Z.land (i_flags x) (fl_compl m)) (Z.land m f))
  end.

Definition num_ok (x : ios) (v : num_val) : Prop :=
  let f := eff_flags (Z.land (i_flags x) fl_fmtmask) v in
  base_named f ∧ (shown_negative f v = true → num_value v ≠ - 2 ^ (lw - 1))%Z.
Definition out_op_ok (op : out_op) (x : ios) : Prop :=
  match op with
  | WNum v => num_ok x v
  | WInt v => num_ok x (NLong (wraps lw (wrapu 32 v)))
  | WBool v => flag_set (Z.land (i_flags x) fl_fmtmask) fl_boolalpha = true ∨ num_ok x (NLong (if v then 1 else 0))
  | WSetf f => is_uint 20 f
  | WUnsetf m | WSetfMask _ m => is_uint 20 m
  | _ => True
  end.

Fixpoint run_out_ops {D} `{!SbufVirtuals D, !SbufPositions D} (ops : list out_op) (i : nat) : io (iosys D) () :=
  match ops with [] => mret () | op :: ops => _ ← run_out_op op i; run_out_ops ops i end.
Fixpoint out_text (ops : list out_op) (x : ios) : list Z :=
  match ops with [] => [] | op :: ops => (out_step op x).1 ++ out_text ops (out_step op x).2 end.
Fixpoint out_ios (ops : list out_op) (x : ios) : ios :=
  match ops with [] => x | op :: ops => out_ios ops (out_step op x).2 end.
Fixpoint out_ops_ok (ops : list out_op) (x : ios) : Prop :=
  match ops with [] => True | op :: ops => out_op_ok op x ∧ out_ops_ok ops (out_step op x).2 end.
End text.

(** A stream in use: it is good, not tied, and the bits agree. *)
Record ready (x : ios) : Prop := Ready {
  rd_good : i_state x = goodbit;
  rd_tie : i_tie x = None;
  rd_bits : bits_agree x;
}.
(** A locale with which numbers can be formatted. *)
Definition locale_ok (l : locale) : Prop :=
  cache_for (loc_widen l) (loc_punct l) (loc_cache l) ∧ head (np_grouping (loc_punct l)) ≠ Some 0%Z.

Section string_output.
Context (m0 : memory) (mode : Z) (Hout : om_has mode om_out = true) (i b : nat).
Implicit Types (x : ios) (t : text_buf).
Notation rep := (strbuf_rep m0 mode).

(** [m] takes the stream [x] on a text to [y] and writes [cs], which fit. *)
Definition writes {A} (m : io (iosys stringbuf) A) x (a : A) cs y : Prop :=
  ∀ s t, rep s t → tb_fits cs t → ∃ s', runs i b m (x, s) (Done a) (y, s') ∧ rep s' (tb_write cs t).

Lemma tb_fits_app cs ds t : tb_w t ≤ length (tb_text t) → tb_fits (cs ++ ds) t → tb_fits cs t ∧ tb_fits ds (tb_write cs t).
Proof.
  intros Hw Hfit. unfold tb_fits in *. rewrite tb_write_app by done. split; [|exact Hfit].
  rewrite tb_write_length in * by done. rewrite length_app in Hfit. lia.
Qed.
Lemma rep_fits s t : rep s t → tb_fits [] t ∧ tb_w t ≤ length (tb_text t).
Proof. intros (b' & a & Hr). unfold tb_fits. rewrite tb_write_nil. split; [apply (sa_small Hr)|apply (sa_w Hr)]. Qed.

Lemma writes_ret {A} (a : A) x : writes (mret a) x a [] x.
Proof. intros s t Hr _. exists s. split; [apply runs_ret|]. by rewrite tb_write_nil. Qed.
Lemma writes_steps {A} (m : io (iosys stringbuf) A) x a y : steps_to i m x a y → i_sbuf y = i_sbuf x → writes m x a [] y.
Proof. intros Hm Hy s t Hr _. exists s. split; [by apply runs_steps|]. by rewrite tb_write_nil. Qed.
Lemma writes_get {A} (f : ios → A) x : writes (ios_get f i) x (f x) [] x.
Proof. apply writes_steps; [apply steps_get|done]. Qed.
Lemma writes_bind {A B} (m : io (iosys stringbuf) A) (f : A → io (iosys stringbuf) B) x a cs y c ds z :
  writes m x a cs y → writes (f a) y c ds z → writes (m ≫= f) x c (cs ++ ds) z.
Proof.
  intros Hm Hf s t Hr Hfit. destruct (rep_fits s t Hr) as [_ Hw]. destruct (tb_fits_app cs ds t Hw Hfit) as [Hfit1 Hfit2].
  destruct (Hm s t Hr Hfit1) as (s1 & H1 & Hr1). destruct (Hf s1 _ Hr1 Hfit2) as (s2 & H2 & Hr2).
  exists s2. split; [by eapply runs_bind|]. rewrite tb_write_app in Hr2 by done. done.
Qed.
Lemma writes_bind_nil {A B} (m : io (iosys stringbuf) A) (f : A → io (iosys stringbuf) B) x a y c ds z :
  writes m x a [] y → writes (f a) y c ds z → writes (m ≫= f) x c ds z.
Proof. intros Hm Hf. apply (writes_bind m f x a [] y c ds z Hm Hf). Qed.
Lemma writes_bind_end {A B} (m : io (iosys stringbuf) A) (f : A → io (iosys stringbuf) B) x a cs y c z :
  writes m x a cs y → writes (f a) y c [] z → writes (m ≫= f) x c cs z.
Proof. intros Hm Hf. rewrite <-(app_nil_r cs). by eapply writes_bind. Qed.
Lemma writes_try {A} (m : io (iosys stringbuf) A) h x a cs y : writes m x a cs y → writes (try_catch m h) x a cs y.
Proof. intros Hm s t Hr Hfit. destruct (Hm s t Hr Hfit) as (s' & H & Hr'). exists s'. split; [by apply runs_try|done]. Qed.

Lemma writes_putc c x : writes (on_rdbuf (sputc c) i) x (Some c) [c] x.
Proof.
  intros s t Hr Hfit. destruct (sputc_spec m0 mode c s t Hr (λ _, Hfit)) as (s' & Hs & Hr'). unfold tb_putc in Hs, Hr'. rewrite Hout in Hs, Hr'.
  exists s'. split; [by apply runs_rdbuf|done].
Qed.
Lemma writes_putn cs x : writes (on_rdbuf (xsputn cs) i) x (length cs) cs x.
Proof.
  intros s t Hr Hfit. destruct (sputn_spec m0 mode cs s t Hr (λ _, Hfit)) as (s' & Hs & Hr'). unfold tb_putn in Hs, Hr'. rewrite Hout in Hs, Hr'.
  exists s'. split; [by apply runs_rdbuf|done].
Qed.
Lemma on_rdbuf_ptr {A} (f : sbuf stringbuf → outcome (A * sbuf stringbuf)) x a cs :
  writes (on_rdbuf f i) x a cs x → i_sbuf x = Some b → writes (on_ptr f (Some b)) x a cs x.
Proof.
  intros Hw Hb s t Hr Hfit. destruct (Hw s t Hr Hfit) as (s' & H & Hr'). exists s'. split; [|done].
  intros w Hv. destruct (H w Hv) as [Hb' Hm]. split; [done|]. rewrite <-Hm. symmetry. apply io_bind_Ret.
  unfold ios_get. destruct Hv as (Hx & _). cbn [fst] in Hx. by rewrite Hx, Hb.
Qed.
Lemma writes_chars cs x : i_sbuf x = Some b → writes (put_chars cs (Some b)) x () cs x.
Proof.
  intros Hb. induction cs as [|c cs IH]; [apply writes_ret|]. cbn [put_chars].
  apply (writes_bind _ _ x (Some c) [c] x () cs x); [|done]. apply on_rdbuf_ptr; [apply writes_putc|done].
Qed.
Lemma writes_sync x : writes (on_rdbuf v_sync i) x 0%Z [] x.
Proof. intros s t Hr _. exists s. split; [by apply runs_rdbuf|]. by rewrite tb_write_nil. Qed.

Lemma writes_flush x : i_sbuf x = Some b → writes (os_flush i) x () [] x.
Proof.
  intros Hb. unfold os_flush. eapply writes_bind_nil; [apply writes_get|]. rewrite Hb.
  eapply writes_bind_nil; [by apply (on_rdbuf_ptr v_sync); [apply writes_sync|]|]. apply writes_ret.
Qed.
(** The sentry of a stream that is ready does nothing. *)
Lemma writes_sentry body x cs y :
  ready x → i_sbuf x = Some b → i_sbuf y = Some b → writes (body true) x () cs y → writes (with_os_sentry i body) x () cs y.
Proof.
  intros [Hs Ht _] Hb Hy Hbody s t Hr Hfit. destruct (Hbody s t Hr Hfit) as (s1 & H1 & Hr1).
  assert (Hd : writes (os_sentry_dtor i) y () [] y).
  { eapply writes_bind_nil; [apply writes_get|]. destruct (flag_set _ _); [by apply writes_flush|apply writes_ret]. }
  destruct (Hd s1 _ Hr1 (proj1 (rep_fits _ _ Hr1))) as (s2 & H2 & Hr2). exists s2. rewrite tb_write_nil in Hr2. split; [|done].
  eapply runs_bind; [|by eapply runs_dtor]. eapply runs_bind; [apply runs_get|]. cbn [fst]. rewrite Ht.
  eapply runs_bind; [apply runs_ret|]. unfold ios_good.
  replace true with (bool_decide (i_state (x, s).1 = goodbit)) by (by apply bool_decide_true). apply runs_get.
Qed.

(** *** Numbers *)
Lemma ob_copy_writes cs n o : ob_ok m0 mode (length cs + n) o →
  ∃ o', ob_copy cs o = Ret o' ∧ ob_ok m0 mode n o' ∧ ob_writes m0 mode o cs o'.
Proof.
  intros Ho. destruct (ob_puts m0 mode o cs n Ho Hout) as (s' & Hp & Hok & Hw). eexists. split; [|by split].
  pose proof Ho as (t & Hr & _). rewrite (ob_copy_each (λ s, ∃ t, strbuf_rep m0 mode s t)) by eauto.
  pose proof (puts_all _ [] _ _ Hp) as Heq. rewrite app_nil_r in Heq. by rewrite Heq.
Qed.

Lemma fits_ok cs s t : rep s t → tb_fits cs t → ob_ok m0 mode (length cs) (ob_ctor s).
Proof.
  intros Hr Hfit. destruct (rep_fits s t Hr) as [_ Hw]. exists t. split; [done|]. unfold tb_fits in Hfit.
  rewrite tb_write_length in Hfit by done. lia.
Qed.

Lemma put_bool_spec lw k np fl width fill (v : bool) o :
  let text := pad_field fl width fill (if v then np_truename np else np_falsename np) in
  ob_ok m0 mode (length text + 0) o → flag_set fl fl_boolalpha = true →
  ∃ o', put_bool lw ob_num_copy ob_fill_n ob_copy k np (IosFmt fl width) fill v o = Ret (o', IosFmt fl 0) ∧
    ob_writes m0 mode o text o'.
Proof.
  intros text Ho Hf. subst text. unfold put_bool. cbn [fmt_flags fmt_width]. rewrite Hf. set (str := if v then np_truename np else np_falsename np) in *.
  pose proof (osbuf_output m0 mode Hout) as Hosb. unfold pad_field in Ho |- *. set (z := (width - Z.of_nat (length str))%Z) in *.
  case_decide; rewrite length_app, length_replicate, <-Nat.add_assoc in Ho.
  - destruct (ob_copy_writes str _ o Ho) as (o1 & -> & Ho1 & H1). cbn [mbind outcome_bind].
    destruct (out_fill z fill _ o1 Ho1) as (o2 & -> & Ho2 & H2).
    exists o2. split; [done|]. by eapply out_app.
  - destruct (out_fill z fill _ o Ho) as (o1 & -> & Ho1 & H1). cbn [mbind outcome_bind].
    destruct (ob_copy_writes str _ o1 Ho1) as (o2 & -> & Ho2 & H2).
    exists o2. split; [done|]. by eapply out_app.
Qed.

Section numbers.
Context (lw : Z) (Hlw : (0 < lw ≤ 64)%Z).

Lemma writes_num v x : locale_ok (i_loc x) → num_ok lw x v →
  writes (os_num_put lw (PNum v) i) x false (stream_num lw x v) (i_set_width 0 x).
Proof.
  intros [Hk Hg] [Hb Hmin] s t Hr Hfit. pose proof (osbuf_output m0 mode Hout) as Hosb.
  destruct (new_num_put_spec lw Hlw ob_num_copy ob_fill_n (ob_ok m0 mode) (ob_writes m0 mode) _ _ _
    (IosFmt (Z.land (i_flags x) fl_fmtmask) (i_width x)) (i_fill x) v 0 (ob_ctor s) Hk Hg Hb Hmin) as (o & Hput & _ & Hf & Hw);
    [rewrite Nat.add_0_r; by eapply fits_ok|].
  exists (ob_buf o). split; [|by apply Hw]. unfold os_num_put, ios_flags.
  do 4 (eapply runs_bind; [apply runs_get|]). cbn [fst].
  eapply runs_bind.
  { apply (runs_rdbuf _ _ (ob_fail o, IosFmt (Z.land (i_flags x) fl_fmtmask) 0) (ob_buf o)). cbn [snd]. by rewrite Hput. }
  cbn [fst]. eapply runs_bind; [by apply runs_modify|]. rewrite Hf. apply runs_ret.
Qed.
Lemma writes_bool v x : flag_set (Z.land (i_flags x) fl_fmtmask) fl_boolalpha = true →
  writes (os_num_put lw (PBool v) i) x false
    (pad_field (Z.land (i_flags x) fl_fmtmask) (i_width x) (i_fill x)
      (if v then np_truename (loc_punct (i_loc x)) else np_falsename (loc_punct (i_loc x)))) (i_set_width 0 x).
Proof.
  intros Hf s t Hr Hfit.
  destruct (put_bool_spec lw (loc_cache (i_loc x)) (loc_punct (i_loc x)) _ (i_width x) (i_fill x) v (ob_ctor s)
    ltac:(rewrite Nat.add_0_r; by eapply fits_ok) Hf) as (o & Hput & Hfail & Hw).
  exists (ob_buf o). split; [|by apply Hw]. unfold os_num_put, ios_flags.
  do 4 (eapply runs_bind; [apply runs_get|]). cbn [fst].
  eapply runs_bind.
  { apply (runs_rdbuf _ _ (ob_fail o, IosFmt (Z.land (i_flags x) fl_fmtmask) 0) (ob_buf o)). cbn [snd]. by rewrite Hput. }
  cbn [fst]. eapply runs_bind; [by apply runs_modify|]. rewrite Hfail. apply runs_ret.
Qed.
Lemma num_put_bool_num (v : bool) x : flag_set (Z.land (i_flags x) fl_fmtmask) fl_boolalpha = false →
  ∀ a cs y, writes (os_num_put lw (PNum (NLong (if v then 1 else 0)%Z)) i) x a cs y → writes (os_num_put lw (PBool v) i) x a cs y.
Proof.
  intros Hf a cs y Hw s t Hr Hfit. destruct (Hw s t Hr Hfit) as (s' & H & Hr'). exists s'. split; [|done].
  intros w Hv. destruct (H w Hv) as [Hb' Hm]. split; [done|]. rewrite <-Hm. destruct Hv as (Hx & _ & _). cbn [fst] in Hx.
  unfold os_num_put, ios_flags, ios_get, mbind, io_bind. rewrite Hx. cbn beta iota. rewrite Hx. cbn beta iota.
  unfold put_bool. cbn [fmt_flags]. by rewrite Hf.
Qed.

Lemma writes_print v x cs : ready x → i_sbuf x = Some b → writes (os_num_put lw v i) x false cs (i_set_width 0 x) →
  writes (os_print lw v i) x () cs (i_set_width 0 x).
Proof.
  intros Hx Hb Hw. unfold os_print. eapply writes_bind_nil; [apply writes_get|].
  assert (Hbody : writes (os_print_body lw v i) x () cs (i_set_width 0 x)).
  { apply writes_try. eapply writes_bind_end; [exact Hw|]. apply writes_ret. }
  destruct (flag_set _ _); [|done]. by apply writes_sentry.
Qed.
End numbers.

(** *** Characters and strings *)
Lemma decide_same {A} P `{!Decision P} (a : A) : (if decide P then a else a) = a.
Proof. by case_decide. Qed.
Lemma set_width_id n x : i_width x = n → i_set_width n x = x.
Proof. intros <-. by destruct x. Qed.
Lemma writes_value {A} (m : io (iosys stringbuf) A) x a cs y : writes m x a cs y → writes (_ ← m; mret ()) x () cs y.
Proof. intros Hm. eapply writes_bind_end; [exact Hm|apply writes_ret]. Qed.

Lemma writes_print_char c x : i_sbuf x = Some b →
  writes (print_char c i) x () (pad_field (Z.land (i_flags x) fl_fmtmask) (i_width x) (i_fill x) [c]) (i_set_width 0 x).
Proof.
  intros Hb. unfold print_char, pad_field. cbn [length]. eapply writes_bind_nil; [apply writes_get|].
  case_decide as Hz.
  - rewrite set_width_id, Hz by done. cbn [Z.of_nat Z.sub Z.to_nat replicate app]. rewrite decide_same.
    apply (writes_value _ _ (Some c)), writes_putc.
  - eapply writes_bind_nil; [apply writes_get|]. eapply writes_bind_nil; [apply writes_get|].
    eapply writes_bind_nil; [apply writes_get|]. rewrite Hb.
    eapply writes_bind_end.
    + change (Z.of_nat 1) with 1%Z. case_decide; by apply writes_chars.
    + apply writes_steps; [apply steps_modify|done].
Qed.

Lemma writes_string str x : i_sbuf x = Some b →
  writes (print_string_intern str i) x ()
    (pad_field (Z.land (i_flags x) fl_fmtmask) (i_width x) (i_fill x) (default null_str str)) (i_set_width 0 x).
Proof.
  intros Hb. unfold print_string_intern, pad_field. cbv zeta. set (cs := default null_str str). apply writes_try.
  eapply writes_bind_nil; [apply writes_get|].
  eapply writes_bind_nil.
  { eapply writes_steps; [eapply steps_bind; [apply steps_get|]; eapply steps_bind; [apply steps_modify|apply steps_ret]|done]. }
  rewrite Hb. case_decide as Hw.
  - replace (Z.to_nat (i_width x - Z.of_nat (length cs))) with 0 by lia. cbn [replicate app]. rewrite app_nil_r, decide_same.
    eapply writes_bind_end; [by apply on_rdbuf_ptr; [apply writes_putn|]|].
    rewrite bool_decide_false by naive_solver. apply writes_ret.
  - eapply writes_bind_nil; [apply writes_get|]. eapply writes_bind_nil; [apply writes_get|].
    cbn [i_flags i_set_width i_fill]. case_decide; by apply writes_chars.
Qed.

(** *** Each operation *)
Lemma ready_width n x : ready x → ready (i_set_width n x).
Proof. by intros [? ? [? ?]]. Qed.
Lemma ready_flags f x : ready x → Z.testbit f 20 = Z.testbit (i_flags x) 20 → Z.testbit f 21 = Z.testbit (i_flags x) 21 →
  ready (i_set_flags f x).
Proof. intros [Hs Ht [Hg Hb]] H0 H1. split; [done..|]. split; unfold bit_good, bit_tie in *; cbn [i_flags i_set_flags]; [by rewrite H0|by rewrite H1]. Qed.

Context (lw : Z) (Hlw : (0 < lw ≤ 64)%Z).

Definition stays x y : Prop := ready y ∧ i_sbuf y = i_sbuf x ∧ i_loc y = i_loc x.

Lemma stays_flags x f g m : is_uint 20 m → ready x → f = Z.lor (Z.land (i_flags x) (fl_compl m)) (Z.land m g) → stays x (i_set_flags f x).
Proof. intros Hm Hx ->. split; [|done]. apply ready_flags; [done|by apply mask_bits..]. Qed.

Lemma apply_steps pf x y : steps_to i (pf i) x () y → i_sbuf y = i_sbuf x → writes (os_apply pf i) x () [] y.
Proof. intros Hp Hy. apply writes_try. by apply writes_steps. Qed.
Lemma steps_unit {A} (m : io (iosys stringbuf) A) x a y : steps_to i m x a y → steps_to i (_ ← m; mret ()) x () y.
Proof. intros Hm. eapply steps_bind; [exact Hm|apply steps_ret]. Qed.

Lemma out_op_spec op x : ready x → i_sbuf x = Some b → locale_ok (i_loc x) → out_op_ok lw op x →
  writes (run_out_op lw op i) x () (out_step lw op x).1 (out_step lw op x).2 ∧ stays x (out_step lw op x).2.
Proof.
  intros Hx Hb Hl Hop. assert (Hw0 : stays x (i_set_width 0 x)) by (split; [by apply ready_width|done]).
  assert (Hsame : stays x x) by done.
  destruct op as [c|cs|c|str|v|v|v| | | |n|c|base|f|m|f m]; cbn [run_out_op out_step fst snd] in *; (split; [|try done]).
  - unfold os_put. eapply writes_bind_nil; [apply writes_get|].
    assert (Hbody : writes (os_put_body c i) x () [c] x).
    { apply writes_try. eapply writes_bind_end; [apply writes_putc|]. apply writes_ret. }
    destruct (flag_set _ _); [by apply writes_sentry|done].
  - apply writes_sentry; try done. apply writes_try. eapply writes_bind_end; [apply writes_putn|].
    rewrite bool_decide_false by naive_solver. apply writes_ret.
  - apply writes_sentry; try done. by apply writes_try, writes_print_char.
  - unfold os_string. eapply writes_bind_nil; [apply writes_get|].
    destruct (flag_set _ _); [apply writes_sentry; try done|]; by apply writes_string.
  - by apply writes_print, writes_num.
  - by apply writes_print, writes_num.
  - destruct (flag_set _ fl_boolalpha) eqn:Hf; cbn [fst snd].
    + by apply writes_print, writes_bool.
    + apply writes_print; [done..|]. eapply num_put_bool_num; [done|]. apply writes_num; [done|done|].
      cbn in Hop. rewrite Hf in Hop. by destruct Hop.
  - by destruct (flag_set _ fl_boolalpha).
  - unfold os_endl. eapply writes_bind_nil; [apply writes_get|]. eapply writes_bind_end; [apply writes_putc|]. apply (writes_value _ _ 0%Z), writes_sync.
  - apply (writes_value _ _ (Some 0%Z)), writes_putc.
  - by apply writes_flush.
  - by apply apply_steps; [apply steps_field|].
  - by split; [apply ready_width|].
  - by apply apply_steps; [apply steps_field|].
  - split; [|done]. by destruct Hx as [? ? [? ?]].
  - apply apply_steps; [|done]. unfold put_setbase, manip_field. repeat case_decide; by apply (steps_unit _ _ _ _ (steps_setf_mask i _ _ x)).
  - eapply (stays_flags x _ _ fl_basefield); [by split|done|done].
  - by apply apply_steps; [apply (steps_unit _ _ _ _ (steps_setf i f x))|].
  - split; [|done]. apply ready_flags; [done|rewrite Z.lor_spec, (user_bit f), orb_false_r by done; done..].
  - by apply apply_steps; [apply (steps_unit _ _ _ _ (steps_unsetf i m x))|].
  - split; [|done]. apply ready_flags; [done|rewrite Z.land_spec, compl_bit, (user_bit m), andb_true_r by (done || lia); done..].
  - by apply apply_steps; [apply (steps_unit _ _ _ _ (steps_setf_mask i f m x))|].
  - by eapply stays_flags.
Qed.

Lemma out_ops_spec ops x : ready x → i_sbuf x = Some b → locale_ok (i_loc x) → out_ops_ok lw ops x →
  writes (run_out_ops lw ops i) x () (out_text lw ops x) (out_ios lw ops x) ∧ stays x (out_ios lw ops x).
Proof.
  revert x. induction ops as [|op ops IH]; intros x Hx Hb Hl Hok; [split; [apply writes_ret|done]|].
  destruct Hok as [Hop Hops]. destruct (out_op_spec op x Hx Hb Hl Hop) as [Hw (Hr & Hsb & Hlo)].
  destruct (IH _ Hr ltac:(congruence) ltac:(by rewrite Hlo) Hops) as [Hw2 (Hr2 & Hsb2 & Hlo2)].
  split; [by eapply writes_bind|]. split; [done|]. split; cbn [out_ios]; congruence.
Qed.
End string_output.

(** ** Inserting a stream buffer *)
Section get_area.
Context (mf : memory) (fmode : Z).
Implicit Types (tf : text_buf) (sf : sbuf stringbuf).

(** The whole get area. *)
Lemma rest_area sf tf : strbuf_rep mf fmode sf tf →
  buf_avail sf = Ret (Z.of_nat (length (tb_rest fmode tf)), sf) ∧
  (tb_rest fmode tf ≠ [] → buf_peek_n (Z.of_nat (length (tb_rest fmode tf))) sf = Ret (tb_rest fmode tf, sf)).
Proof.
  intros (c & a & Hr). unfold buf_avail, buf_peek_n, tb_rest.
  destruct (sa_gptrs Hr) as [(-> & _ & Hg & He)|(-> & _ & Hg & He)]; rewrite Hg, He; [|by split].
  pose proof (proj1 (sa_r Hr)) as Hle. rewrite ptr_sub_in. cbn [or_ub mbind outcome_bind]. rewrite length_drop.
  split; [repeat f_equal; lia|]. intros _. pose proof (mem_string_from _ _ c a _ _ _ Hr Hle) as Hm.
  unfold mem_string in Hm. rewrite ptr_sub_in in Hm. cbn [mbind option_bind] in Hm.
  replace (Z.of_nat (length (tb_text tf) - tb_r tf)) with (Z.of_nat (length (tb_text tf)) - Z.of_nat (tb_r tf))%Z by lia.
  by rewrite Hm.
Qed.
Lemma commit_rest sf tf n : strbuf_rep mf fmode sf tf → tb_rest fmode tf ≠ [] → n ≤ length (tb_rest fmode tf) →
  ∃ sf', buf_commit (Z.of_nat n) sf = Ret ((), sf') ∧ strbuf_rep mf fmode sf' (tb_read n tf).
Proof.
  intros (c & a & Hr) Hrest Hn. unfold tb_rest in *. destruct (om_has fmode om_in) eqn:Hin; [|done].
  rewrite length_drop in Hn. pose proof (proj1 (sa_r Hr)).
  destruct (sa_gbump _ _ c a sf tf (Z.of_nat n) (tb_r tf + n) Hr Hin ltac:(lia) ltac:(lia)) as (s' & Hb & _ & _ & _ & Hr').
  exists s'. split; [|by exists c, a]. unfold buf_commit, gbump in *.
  pose proof (sa_small Hr). rewrite wraps_int in Hb by lia.
  destruct (ptr_add _ _ _) as [p|]; [|done]. cbn in *. by injection Hb as <-.
Qed.
End get_area.

Section insert_buffer.
Context (m0 : memory) (mode : Z) (Hout : om_has mode om_out = true) (mf : memory) (fmode : Z).
Context (i b from : nat) (Hne : from ≠ b) (x : ios).
Implicit Types (w : iosys stringbuf) (t tf : text_buf) (s sf : sbuf stringbuf).

Definition two w s sf : Prop :=
  io_streams w !! i = Some x ∧ io_bufs w !! b = Some s ∧ io_bufs w !! from = Some sf.

Lemma on_target {A} (f : sbuf stringbuf → outcome (A * sbuf stringbuf)) w s sf a s' : two w s sf → f s = Ret (a, s') →
  ∃ w', on_ptr f (Some b) w = IoRet a w' ∧ two w' s' sf.
Proof.
  intros (Hx & Hs & Hsf) Hf. cbn. unfold on_buf. rewrite Hs, Hf. eexists. split; [done|]. split; [done|].
  split; [apply lookup_insert_eq|]. cbn. by rewrite lookup_insert_ne.
Qed.
Lemma on_source {A} (f : sbuf stringbuf → outcome (A * sbuf stringbuf)) w s sf a sf' : two w s sf → f sf = Ret (a, sf') →
  ∃ w', on_buf f from w = IoRet a w' ∧ two w' s sf'.
Proof.
  intros (Hx & Hs & Hsf) Hf. unfold on_buf. rewrite Hsf, Hf. eexists. split; [done|]. split; [done|].
  split; [|apply lookup_insert_eq]. cbn. by rewrite lookup_insert_ne.
Qed.

(** More than one character, or none, is left. *)
Lemma copy_rest fuel w s sf t tf : two w s sf → strbuf_rep m0 mode s t → strbuf_rep mf fmode sf tf →
  tb_fits (tb_rest fmode tf) t → length (tb_rest fmode tf) ≠ 1 → 1 < fuel →
  ∃ w' s' sf', os_copy_loop fuel from (Some b) (tb_getc fmode tf) w = IoRet () w' ∧ two w' s' sf' ∧
    strbuf_rep m0 mode s' (tb_write (tb_rest fmode tf) t) ∧ strbuf_rep mf fmode sf' (tb_read (length (tb_rest fmode tf)) tf).
Proof.
  intros Hw Hs Hsf Hfit Hlen Hf. unfold tb_getc. destruct (tb_rest fmode tf) as [|c cs] eqn:Hrest.
  { exists w, s, sf. split; [by destruct fuel|]. rewrite tb_write_nil. split; [done|]. split; [done|].
    unfold tb_read. cbn. rewrite Nat.add_0_r. by destruct tf. }
  rewrite <-Hrest in Hfit |- *. assert (Hne' : tb_rest fmode tf ≠ []) by (by rewrite Hrest).
  destruct (rest_area mf fmode sf tf Hsf) as [Hav Hpk]. specialize (Hpk Hne').
  assert (Hh : head (tb_rest fmode tf) = Some c) by (by rewrite Hrest). rewrite Hh.
  destruct fuel as [|[|fuel]]; [lia|lia|]. cbn [os_copy_loop].
  destruct (on_source _ w s sf _ _ Hw Hav) as (w1 & H1 & Hw1). rewrite (io_bind_Ret _ _ _ _ _ H1).
  rewrite decide_True by (rewrite Hrest; cbn [length] in *; lia).
  destruct (on_source _ w1 s sf _ _ Hw1 Hpk) as (w2 & H2 & Hw2). rewrite (io_bind_Ret _ _ _ _ _ H2).
  destruct (sputn_spec m0 mode (tb_rest fmode tf) s t Hs (λ _, Hfit)) as (s3 & Hs3 & Hr3).
  unfold tb_putn in Hs3, Hr3. rewrite Hout in Hs3, Hr3. cbn [fst snd] in Hs3, Hr3.
  destruct (on_target _ w2 s sf _ _ Hw2 Hs3) as (w3 & H3 & Hw3). rewrite (io_bind_Ret _ _ _ _ _ H3).
  destruct (commit_rest mf fmode sf tf _ Hsf Hne' (le_n _)) as (sf4 & Hsf4 & Hr4).
  destruct (on_source _ w3 s3 sf _ _ Hw3 Hsf4) as (w4 & H4 & Hw4). rewrite (io_bind_Ret _ _ _ _ _ H4).
  rewrite decide_False by naive_solver. pose proof Hr4 as (c' & a' & Hat).
  destruct (on_source _ w4 s3 sf4 _ _ Hw4 (sgetc_spec mf fmode c' a' _ _ Hat)) as (w5 & H5 & Hw5).
  rewrite (io_bind_Ret _ _ _ _ _ H5). exists w5, s3, sf4. split; [|done].
  unfold tb_getc. by rewrite tb_rest_read, drop_all.
Qed.

Lemma on_target_ub {A} (f : sbuf stringbuf → outcome (A * sbuf stringbuf)) w s sf : two w s sf → f s = UB →
  on_ptr f (Some b) w = IoUB.
Proof. intros (Hx & Hs & Hsf) Hf. cbn. unfold on_buf. by rewrite Hs, Hf. Qed.

(** The function does not return. *)
Definition no_return {A} (r : io_result (iosys stringbuf) A) : Prop := r = IoNoFuel ∨ r = IoUB.

(** One character is left: it is put again and again, until an int does not hold
    the size of the text. *)
Lemma copy_one fuel w s sf t tf c : two w s sf → strbuf_rep m0 mode s t → strbuf_rep mf fmode sf tf →
  tb_rest fmode tf = [c] → no_return (os_copy_loop fuel from (Some b) (Some c) w).
Proof.
  revert w s t sf. induction fuel as [|fuel IH]; intros w s t sf Hw Hs Hsf Hrest; [by left|]. cbn [os_copy_loop].
  destruct (rest_area mf fmode sf tf Hsf) as [Hav _]. rewrite Hrest in Hav.
  destruct (on_source _ w s sf _ _ Hw Hav) as (w1 & H1 & Hw1). rewrite (io_bind_Ret _ _ _ _ _ H1).
  rewrite decide_False by (cbn; lia).
  destruct (decide (tb_fits [c] t)) as [Hfit|Hfull].
  2:{ right. unfold mbind, io_bind. by rewrite (on_target_ub _ w1 s sf Hw1 (sputc_limit m0 mode c s t Hs Hout Hfull)). }
  destruct (sputc_spec m0 mode c s t Hs (λ _, Hfit)) as (s2 & Hs2 & Hr2). unfold tb_putc in Hs2, Hr2. rewrite Hout in Hs2, Hr2.
  destruct (on_target _ w1 s sf _ _ Hw1 Hs2) as (w2 & H2 & Hw2). rewrite (io_bind_Ret _ _ _ _ _ H2). cbn [fst].
  pose proof Hsf as (c' & a' & Hat).
  destruct (on_source _ w2 s2 sf _ _ Hw2 (sgetc_spec mf fmode c' a' _ _ Hat)) as (w3 & H3 & Hw3).
  rewrite (io_bind_Ret _ _ _ _ _ H3). unfold tb_getc. rewrite Hrest. cbn [head]. by eapply IH.
Qed.

(** Up to the loop. *)
Lemma streambuf_start fuel w s sf t tf c cs : two w s sf → strbuf_rep m0 mode s t → strbuf_rep mf fmode sf tf →
  ready x → i_sbuf x = Some b → tb_rest fmode tf = c :: cs → tb_fits [c] t →
  ∃ w' s' sf', two w' s' sf' ∧ strbuf_rep m0 mode s' (tb_write [c] t) ∧ strbuf_rep mf fmode sf' (tb_read 1 tf) ∧
    os_streambuf fuel (Some from) i w =
      with_dtor (try_catch (os_copy_loop fuel from (Some b) (tb_getc fmode (tb_read 1 tf))) (λ e, process_exception e i))
        (os_sentry_dtor i) w'.
Proof.
  intros Hw Hs Hsf [Hst Hti _] Hb Hrest Hfit. pose proof Hw as (Hx & _).
  pose proof Hsf as (c' & a' & Hat).
  destruct (on_source _ w s sf _ _ Hw (sgetc_spec mf fmode c' a' _ _ Hat)) as (w1 & H1 & Hw1).
  destruct (sputc_spec m0 mode c s t Hs (λ _, Hfit)) as (s2 & Hs2 & Hr2). unfold tb_putc in Hs2, Hr2. rewrite Hout in Hs2, Hr2.
  destruct (on_target _ w1 s sf _ _ Hw1 Hs2) as (w2 & H2 & Hw2).
  destruct (snextc_spec mf fmode sf tf Hsf) as (sf3 & Hs3 & Hr3). unfold tb_nextc in Hs3, Hr3. rewrite Hrest in Hs3, Hr3.
  destruct (on_source _ w2 s2 sf _ _ Hw2 Hs3) as (w3 & H3 & Hw3).
  exists w3, s2, sf3. split; [done|]. split; [done|]. split; [done|].
  unfold os_streambuf, with_os_sentry. rewrite (io_bind_Ret _ _ w true w).
  2:{ unfold os_sentry, ios_good, ios_get. rewrite (io_bind_Ret _ _ w None w) by (by rewrite Hx, Hti).
      rewrite (io_bind_Ret _ _ w () w) by done. by rewrite Hx, Hst. }
  unfold with_dtor, try_catch. cbn beta iota. rewrite (io_bind_Ret _ _ w (Some b) w) by (unfold ios_get; by rewrite Hx, Hb).
  rewrite (io_bind_Ret _ _ _ _ _ H1). unfold tb_getc at 1. rewrite Hrest. cbn [head].
  rewrite (io_bind_Ret _ _ _ _ _ H2). cbn [fst]. rewrite (io_bind_Ret _ _ _ _ _ H3). unfold tb_getc.
  by rewrite tb_rest_read, Hrest.
Qed.

Lemma dtor_two w s sf t : two w s sf → strbuf_rep m0 mode s t → i_sbuf x = Some b →
  ∃ w', os_sentry_dtor i w = IoRet () w' ∧ two w' s sf.
Proof.
  intros Hw Hs Hb. pose proof Hw as (Hx & _). unfold os_sentry_dtor, ios_flags, ios_get.
  rewrite (io_bind_Ret _ _ w (Z.land (i_flags x) fl_fmtmask) w) by (by rewrite Hx). destruct (flag_set _ _); [|by exists w].
  cbn [io_when]. unfold os_flush. rewrite (io_bind_Ret _ _ w (Some b) w) by (unfold ios_get; by rewrite Hx, Hb).
  assert (Hv : v_sync s = Ret (0%Z, s)) by done.
  destruct (on_target _ w s sf _ _ Hw Hv) as (w1 & H1 & Hw1). cbn in H1.
  rewrite (io_bind_Ret _ _ _ _ _ H1). by exists w1.
Qed.
End insert_buffer.

(** ** Properties *)

(** When the bits of a stream agree with its state (ios_bits_invariant), the
    short cut which put, the inserters of numbers and those of strings take, if no
    bit is set, is equivalent to constructing the sentry, for every kind of
    buffer and whatever the output does. *)
Theorem ostream_sentry_elision {D} `{!SbufVirtuals D, !SbufPositions D} lw (w : iosys D) i x :
  io_streams w !! i = Some x → bits_agree x →
  (∀ c, os_put c i w = with_os_sentry i (λ ok, if ok : bool then os_put_body c i else ios_setstate badbit i) w) ∧
  (∀ v, os_print lw v i w = with_os_sentry i (λ ok, io_when ok (os_print_body lw v i)) w) ∧
  (∀ str, os_string str i w = with_os_sentry i (λ ok, io_when ok (print_string_intern str i)) w).
Proof.
  intros Hx Hb. unfold os_put, os_print, os_string.
  assert (Hn : need_osentry i w = IoRet (flag_set (i_flags x) fl_os_check) w) by (unfold need_osentry, ios_get; by rewrite Hx).
  split_and!; intros v; rewrite (io_bind_Ret _ _ _ _ _ Hn); destruct (flag_set _ _) eqn:Hf; try done; symmetry.
  - apply (with_os_sentry_nop i (λ ok, if ok : bool then os_put_body v i else ios_setstate badbit i) w x); try done.
    unfold os_put_body, on_rdbuf, io_when. keeps_tac.
  - apply (with_os_sentry_nop i (λ ok, io_when ok (os_print_body lw v i)) w x); try done. cbn [io_when].
    unfold os_print_body, os_num_put, on_rdbuf, io_when, ios_flags. keeps_tac. destruct a3 as [? ?]. keeps_tac.
  - apply (with_os_sentry_nop i (λ ok, io_when ok (print_string_intern v i)) w x); try done. cbn [io_when].
    unfold print_string_intern, ios_width, ios_flags, io_when. keeps_tac.
Qed.

(** C35: Output on a string stream for writing which is good and not tied: any sequence of
    characters, strings, integers and truth values, unformatted output,
    manipulators and changes of the format appends the text [out_text] that the
    formats in force say - each field padded to its width, each number in its base
    - and leaves the stream good, whether the sentry is constructed or not and
    however the buffer has to grow, as long as an int holds the size of the text.
    A number is written as num_put does (C31): with a named base and not the least
    long in base 10 ([out_ops_ok]), in a locale whose first group is not of size 0
    ([locale_ok]), and with internal padding behind a number in base 8. An int is
    converted to an unsigned int first (ostream.cc:180), so that with longs of 64
    bits -1 is appended as 4294967295. *)
Theorem ostream_text_refinement lw m0 mode i b (w : iosys stringbuf) x s t ops :
  (0 < lw ≤ 64)%Z → om_has mode om_out = true → view i b (x, s) w → strbuf_rep m0 mode s t →
  ready x → locale_ok (i_loc x) → out_ops_ok lw ops x → tb_fits (out_text lw ops x) t →
  ∃ s', run_out_ops lw ops i w = IoRet () (update i b (out_ios lw ops x, s') w) ∧ ready (out_ios lw ops x) ∧
    strbuf_rep m0 mode s' (tb_write (out_text lw ops x) t) ∧
    strbuf_str s' = Ret (tb_text (tb_write (out_text lw ops x) t)).
Proof.
  intros Hlw Hout Hv Hr Hx Hl Hok Hfit. pose proof Hv as (_ & _ & Hb).
  destruct (out_ops_spec m0 mode Hout i b lw Hlw ops x Hx Hb Hl Hok) as [Hw [Hready _]].
  destruct (Hw s t Hr Hfit) as (s' & Hrun & Hr'). exists s'. split; [by apply Hrun|]. split; [done|]. split; [done|].
  apply (str_spec m0 mode); [done|by right].
Qed.

(** Inserting a string buffer into a string stream: when one character is left
    to be read, or at least three, they are written and taken from the source; when
    there are exactly two, the second is put again and again because nothing takes
    it from the source, so that the inserter never returns, until the size of the
    text overflows an int. *)
Theorem os_streambuf_spec m0 mode mf fmode i b from (w : iosys stringbuf) x s sf t tf :
  om_has mode om_out = true → from ≠ b → ready x → i_sbuf x = Some b →
  io_streams w !! i = Some x → io_bufs w !! b = Some s → io_bufs w !! from = Some sf →
  strbuf_rep m0 mode s t → strbuf_rep mf fmode sf tf → tb_fits (tb_rest fmode tf) t →
  let n := length (tb_rest fmode tf) in
  (n = 2 → ∀ fuel, no_return (os_streambuf fuel (Some from) i w)) ∧
  (n = 1 ∨ 3 ≤ n → ∃ w' s' sf', os_streambuf 2 (Some from) i w = IoRet () w' ∧
    io_streams w' !! i = Some x ∧ io_bufs w' !! b = Some s' ∧ io_bufs w' !! from = Some sf' ∧
    strbuf_rep m0 mode s' (tb_write (tb_rest fmode tf) t) ∧ strbuf_rep mf fmode sf' (tb_read n tf)).
Proof.
  intros Hout Hne Hx Hb Hxi Hs Hsf Hr Hrf Hfit n. assert (Hw : two i b from x w s sf) by done.
  destruct (tb_rest fmode tf) as [|c cs] eqn:Hrest; [by split; intros ?; cbn in *; lia|].
  assert (Hrest1 : tb_rest fmode (tb_read 1 tf) = cs) by (by rewrite tb_rest_read, Hrest).
  destruct (tb_fits_cons c cs t (proj2 (rep_fits m0 mode s t Hr)) Hfit) as [Hfit1 Hfit2].
  split; intros Hn.
  - intros fuel. destruct (streambuf_start m0 mode Hout mf fmode i b from Hne x fuel w s sf t tf c cs Hw Hr Hrf Hx Hb Hrest Hfit1)
      as (w1 & s1 & sf1 & Hw1 & Hr1 & Hrf1 & ->).
    destruct cs as [|c2 [|c3 cs]]; try (cbn in Hn; lia). unfold tb_getc. rewrite Hrest1. cbn [head].
    unfold with_dtor, try_catch.
    destruct (copy_one m0 mode Hout mf fmode i b from Hne x fuel w1 s1 sf1 _ _ c2 Hw1 Hr1 Hrf1 Hrest1) as [-> | ->]; [by left|by right].
  - destruct (streambuf_start m0 mode Hout mf fmode i b from Hne x 2 w s sf t tf c cs Hw Hr Hrf Hx Hb Hrest Hfit1)
      as (w1 & s1 & sf1 & Hw1 & Hr1 & Hrf1 & ->).
    destruct (copy_rest m0 mode Hout mf fmode i b from Hne x 2 w1 s1 sf1 _ _ Hw1 Hr1 Hrf1 ltac:(by rewrite Hrest1)) as (w2 & s2 & sf2 & Hc & Hw2 & Hr2 & Hrf2);
      [rewrite Hrest1; cbn [n length] in Hn; lia|lia|].
    destruct (dtor_two m0 mode i b from Hne x w2 s2 sf2 _ Hw2 Hr2 Hb) as (w3 & Hd & Hw3).
    exists w3, s2, sf2. unfold with_dtor, try_catch. rewrite Hc, Hd. split; [done|].
    destruct Hw3 as (? & ? & ?). split_and!; try done.
    + rewrite Hrest1 in Hr2. pose proof Hr as (b' & a' & Hat). by rewrite tb_write_app in Hr2 by apply (sa_w Hat).
    + rewrite Hrest1 in Hrf2. unfold n, tb_read in *. cbn in *. by rewrite <-Nat.add_assoc in Hrf2.
Qed.

(** Where streams go wrong. [flags(f)] overwrites the bit which says that the
    stream is not good, and [clear] throws before it sets that bit: put then uses
    the null pointer of a stream without a buffer. An int is written as an unsigned
    number when a long is wider. A stream which is to throw on failbit does not
    throw when a string cannot be written: the exception is thrown where it is
    caught again, and badbit is set instead. *)
Theorem ostream_hazards :
  let buf mode := sys_put_buf 0 (strbuf_ctor ∅ mode) empty_sys in
  let open_ := ios_ctor classic_locale (Some 0) 0 in
  let text (w : io_result (iosys stringbuf) ()) := match w with IoRet _ w => strbuf_str <$> io_bufs w !! 0 | _ => None end in
  (_ ← ios_ctor classic_locale None 0; os_put 65 0) empty_sys =
    (_ ← ios_ctor classic_locale None 0; ios_setstate badbit 0) empty_sys ∧
  (_ ← ios_ctor classic_locale None 0; _ ← ios_set_flags fl_dec 0; os_put 65 0) empty_sys = IoUB ∧
  (_ ← open_; _ ← ios_set_exceptions badbit 0; _ ← try_catch (_ ← ios_rdbuf None 0; mret ()) (λ _, mret ()); os_put 65 0)
    (buf om_out) = IoUB ∧
  text ((_ ← open_; os_int 64 (-1) 0) (buf om_out)) = Some (Ret (codes "4294967295")) ∧
  text ((_ ← open_; os_int 32 (-1) 0) (buf om_out)) = Some (Ret (codes "-1")) ∧
  match (_ ← open_; _ ← ios_set_exceptions failbit 0; os_string (Some (codes "abc")) 0) (buf om_in) with
  | IoRet _ w => i_state <$> io_streams w !! 0 = Some (Z.lor failbit badbit)
  | _ => False
  end.
Proof. split_and!; vm_compute; reflexivity. Qed.

(** ** Witnesses *)

(** A stream after its construction. *)
Definition new_ios (sb : nat) : ios := i_set_newline 10 (i_set_fill 32 (i_set_sbuf (Some sb) (ios_base_init classic_locale))).
Lemma new_ios_ready sb : ready (new_ios sb).
Proof. by split. Qed.
Lemma classic_locale_ok : locale_ok classic_locale.
Proof.
  split; [|done]. destruct (cache_init_for id classic_numpunct) as (k & Hk & Hf).
  rewrite classic_cache_init in Hk. by apply Ret_inj in Hk as <-.
Qed.
Definition new_sys (mode : Z) : iosys stringbuf :=
  sys_put_stream 0 (new_ios 0) (sys_put_buf 0 (strbuf_ctor ∅ mode) empty_sys).
Lemma new_sys_ctor mode :
  ios_ctor classic_locale (Some 0) 0 (sys_put_buf 0 (strbuf_ctor ∅ mode) empty_sys) = IoRet () (new_sys mode).
Proof. vm_compute. reflexivity. Qed.
Lemma new_sys_view mode : view 0 0 (new_ios 0, strbuf_ctor ∅ mode) (new_sys mode).
Proof. split; [apply lookup_insert_eq|]. split; [apply lookup_insert_eq|done]. Qed.

Lemma ostream_sentry_elision_witness :
  let w := new_sys om_out in
  (∀ c, os_put c 0 w = with_os_sentry 0 (λ ok, if ok : bool then os_put_body c 0 else ios_setstate badbit 0) w) ∧
  (∀ v, os_print 64 v 0 w = with_os_sentry 0 (λ ok, io_when ok (os_print_body 64 v 0)) w) ∧
  (∀ str, os_string str 0 w = with_os_sentry 0 (λ ok, io_when ok (print_string_intern str 0)) w).
Proof. apply (ostream_sentry_elision 64 _ 0 (new_ios 0)); [apply lookup_insert_eq|by split]. Defined.

Definition example_out : list out_op :=
  [WStr (Some (codes "n=")); WSetw 6; WSetfill 46; WNum (NLong (-42)); WPut 59; WSetbase 16; WSetf fl_showbase;
   WNum (NULong 255); WChar 33; WSetf fl_boolalpha; WSetfMask fl_left fl_adjustfield; WSetw 7; WBool true; WInt 7; WEndl].
Lemma ostream_text_refinement_witness :
  out_text 64 example_out (new_ios 0) = codes "n=...-42;0xff!true...0x7" ++ [10%Z] ∧
  ∃ s', run_out_ops 64 example_out 0 (new_sys om_out) =
      IoRet () (update 0 0 (out_ios 64 example_out (new_ios 0), s') (new_sys om_out)) ∧
    ready (out_ios 64 example_out (new_ios 0)) ∧
    strbuf_rep ∅ om_out s' (tb_write (out_text 64 example_out (new_ios 0)) (TextBuf [] 0 0)) ∧
    strbuf_str s' = Ret (tb_text (tb_write (out_text 64 example_out (new_ios 0)) (TextBuf [] 0 0))).
Proof.
  split; [vm_compute; reflexivity|].
  apply (ostream_text_refinement 64 ∅ om_out 0 0 _ _ (strbuf_ctor ∅ om_out)).
  - done.
  - done.
  - apply new_sys_view.
  - apply ctor_spec.
  - apply new_ios_ready.
  - apply classic_locale_ok.
  - cbn [out_ops_ok example_out out_op_ok]. split_and!; try done; try (vm_compute; done);
      try (split; [vm_compute; set_solver|]); try (vm_compute; done).
    by left.
  - vm_compute. done.
Defined.

Lemma os_streambuf_spec_witness :
  let src cs := match strbuf_ctor_str ∅ cs om_in with Ret sf => sf | _ => strbuf_ctor ∅ om_in end in
  let w cs := sys_put_buf 1 (src cs) (new_sys om_out) in
  (∀ fuel, no_return (os_streambuf fuel (Some 1) 0 (w (codes "ab")))) ∧
  ∃ w' s' sf', os_streambuf 2 (Some 1) 0 (w (codes "abcd")) = IoRet () w' ∧
    io_streams w' !! 0 = Some (new_ios 0) ∧ io_bufs w' !! 0 = Some s' ∧ io_bufs w' !! 1 = Some sf' ∧
    strbuf_rep ∅ om_out s' (tb_write (codes "abcd") (TextBuf [] 0 0)) ∧
    strbuf_rep ∅ om_in sf' (tb_read 4 (TextBuf (codes "abcd") 0 0)).
Proof.
  intros src w.
  assert (Hsrc : ∀ cs, length cs < 9 → strbuf_rep ∅ om_in (src cs) (TextBuf cs 0 0)).
  { intros cs Hcs. unfold src. by destruct (ctor_str_spec ∅ om_in cs ltac:(lia)) as (sf & -> & Hr). }
  assert (H : ∀ cs, length cs < 9 → let n := length (tb_rest om_in (TextBuf cs 0 0)) in
    (n = 2 → ∀ fuel, no_return (os_streambuf fuel (Some 1) 0 (w cs))) ∧
    (n = 1 ∨ 3 ≤ n → ∃ w' s' sf', os_streambuf 2 (Some 1) 0 (w cs) = IoRet () w' ∧
      io_streams w' !! 0 = Some (new_ios 0) ∧ io_bufs w' !! 0 = Some s' ∧ io_bufs w' !! 1 = Some sf' ∧
      strbuf_rep ∅ om_out s' (tb_write (tb_rest om_in (TextBuf cs 0 0)) (TextBuf [] 0 0)) ∧
      strbuf_rep ∅ om_in sf' (tb_read n (TextBuf cs 0 0)))).
  { intros cs Hcs. apply (os_streambuf_spec ∅ om_out ∅ om_in 0 0 1 (w cs) (new_ios 0) (strbuf_ctor ∅ om_out) (src cs)); try done.
    - apply ctor_spec.
    - by apply Hsrc.
    - unfold tb_fits. rewrite tb_write_length by done. change (tb_rest om_in (TextBuf cs 0 0)) with cs. cbn [tb_text tb_w length]. lia. }
  split; [apply (H (codes "ab")); [vm_compute; lia|done]|]. apply (H (codes "abcd")); [vm_compute; lia|]. right. vm_compute. lia.
Defined.
