(* ===== verification/IStream.v ===== *)
(** * Input streams

    basic_istream of cxxrt-source/include/srccxx/istream.cc and cxxrt/istream.h:
    the sentry, which skips white space, the extractors of integers, characters,
    words and stream buffers, and the unformatted functions. The extractors of
    floating point numbers are not modelled. The loops take fuel. A char is signed,
    so that the character 255 converted to an int is the end of the file. *)
From S2P Require Import Prelude LocaleCache NumPut NumGet StreamBuf StringBuf StringText StreamIter Ios StreamRun OStream.

(** numeric_limits of streamsize. *)
Definition streamsize_max : Z := 2 ^ 63 - 1.

Section istream.
Context {D : Type} `{!SbufVirtuals D, !SbufPositions D}.
(** The bits of a long. *)
Context (lw : Z).
Implicit Types (i b : nat) (w : iosys D).

(** ** The sentry *)
Fixpoint skip_loop (fuel : nat) (space : Z → bool) (c : option Z) i : io (iosys D) bool :=
  match fuel, c with
  | _, None => mret true
  | 0, _ => io_out_of_fuel
  | S fuel, Some ch => if space ch then c ← on_rdbuf snextc i; skip_loop fuel space c i else mret false
  end.
(** The result says that the end has been reached. *)
Definition skip_ws (fuel : nat) i : io (iosys D) bool :=
  loc ← ios_get i_loc i; c ← on_rdbuf sgetc i; skip_loop fuel (loc_space loc) c i.

Definition sentry_init (fuel : nat) (noskipws : bool) i : io (iosys D) bool :=
  good ← ios_good i;
  _ ← io_when good (try_catch (
        t ← ios_get i_tie i;
        _ ← match t with Some t => os_flush t | None => mret () end;
        fl ← ios_flags i;
        if negb noskipws && flag_set fl fl_skipws then
          at_end ← skip_ws fuel i; io_when at_end (ios_setstate (Z.lor eofbit failbit) i)
        else mret ()) (λ e, process_exception e i));
  ios_good i.
Definition is_sentry : nat → bool → nat → io (iosys D) bool := sentry_init.
(** The constructor with three arguments tests bits which [flags()] does not have. *)
Definition is_sentry_fast (fuel : nat) i : io (iosys D) bool :=
  fl ← ios_flags i;
  if flag_set fl (Z.lor fl_os_good fl_os_tie) then sentry_init fuel true i else mret true.

(** [if (sentry(...)) try { body } catch (...) {...} else other]. *)
Definition guarded {A} (ok : bool) i (dflt : A) (body : io (iosys D) A) (other : io (iosys D) A) : io (iosys D) A :=
  if ok then try_catch body (λ e, _ ← process_exception e i; mret dflt) else other.
Definition fail_with {A} (a : A) i : io (iosys D) A := _ ← ios_setstate failbit i; mret a.

Definition set_gcount (n : Z) i : io (iosys D) () := ios_modify (i_set_gcount n) i.
Definition set_stored (cs : list Z) i : io (iosys D) () := ios_modify (i_set_stored cs) i.
Definition store (cs : list Z) i : io (iosys D) () := ios_modify (λ x, i_set_stored (i_stored x ++ cs) x) i.
Definition stored_count i : io (iosys D) Z := ios_get (λ x, Z.of_nat (length (i_stored x))) i.

(** ** Extracting numbers *)
Definition is_num_get {A} (get : Z → locale → isbuf_iterator D → outcome (A * Z * isbuf_iterator D)) i : io (iosys D) (A * Z) :=
  fl ← ios_flags i; loc ← ios_get i_loc i;
  on_rdbuf (λ s, j ← ib_ctor s; '(v, err, j) ← get fl loc j; Ret ((v, err), ib_buf j)) i.
(** [dflt] is the value that the variable has before. An exception of [setstate]
    is handled after the value has been stored. *)
Definition get_numeric {A} (fuel : nat) (get : Z → locale → isbuf_iterator D → outcome (A * Z * isbuf_iterator D)) (dflt : A) i :
    io (iosys D) A :=
  ok ← is_sentry fuel false i;
  r ← (if ok : bool then try_catch (r ← is_num_get get i; mret (Some r)) (λ e, _ ← process_exception e i; mret None)
       else mret (Some (dflt, failbit)));
  match r with
  | Some (v, err) => _ ← try_catch (ios_setstate err i) (λ e, process_exception e i); mret v
  | None => mret dflt
  end.

(** The results of [get_numeric] are [None] when the value is left alone. *)
Definition is_signed (vw : Z) (fuel : nat) : nat → io (iosys D) (option Z) :=
  get_numeric fuel (λ fl loc j, get_signed_integer (loc_cache loc) lw vw fuel fl j) None.
Definition is_unsigned (vw : Z) (fuel : nat) : nat → io (iosys D) (option Z) :=
  get_numeric fuel (λ fl loc j, get_unsigned_integer (loc_cache loc) lw vw fuel fl j) None.
Definition is_long (fuel : nat) : nat → io (iosys D) (option Z) := is_signed lw fuel.
Definition is_ulong (fuel : nat) : nat → io (iosys D) (option Z) := is_unsigned lw fuel.
Definition is_ushort (fuel : nat) : nat → io (iosys D) (option Z) := is_unsigned 16 fuel.
Definition is_uint32 (fuel : nat) : nat → io (iosys D) (option Z) := is_unsigned 32 fuel.
Definition is_pointer (fuel : nat) : nat → io (iosys D) (option Z) :=
  get_numeric fuel (λ fl loc j, get_pointer (loc_cache loc) lw fuel fl j) None.
Definition is_bool (fuel : nat) (old : bool) : nat → io (iosys D) bool :=
  get_numeric fuel (λ fl loc j, get_bool (loc_cache loc) lw (loc_punct loc) fuel fl old j) old.
(** A short or an int is read into a long which has not been initialised. *)
Definition is_narrowed (vw : Z) (fuel : nat) i : io (iosys D) Z :=
  tmp ← is_long fuel i;
  match tmp with
  | None => io_undef
  | Some tmp =>
      let min := (- 2 ^ (vw - 1))%Z in let max := (2 ^ (vw - 1) - 1)%Z in
      mret (if decide (tmp < min)%Z then min else if decide (max < tmp)%Z then max else tmp)
  end.
Definition is_short (fuel : nat) : nat → io (iosys D) Z := is_narrowed 16 fuel.
Definition is_int (fuel : nat) : nat → io (iosys D) Z := is_narrowed 32 fuel.

(** ** A stream buffer

    [_CS_sgetc] and [_CS_snextc] return characters, and the latter calls [sbumpc].
    The handler distinguishes exceptions of the source, so that each access has its
    own handler here; [None] says that an exception has been handled. *)
Definition char_eof (c : option Z) : bool := match c with None => true | Some c => bool_decide (c = 255%Z) end.
Definition from_source {A} (f : sbuf D → outcome (A * sbuf D)) i : io (iosys D) (option A) :=
  try_catch (a ← on_rdbuf f i; mret (Some a)) (λ e,
    _ ← try_catch (ios_setstate failbit i) (λ _, mret ());
    ex ← ios_get i_exceptions i;
    if flag_set ex failbit then io_throw e else mret None).
Definition not_source {A} (m : io (iosys D) A) i : io (iosys D) (option A) :=
  try_catch (a ← m; mret (Some a)) (λ e, _ ← process_exception e i; mret None).

Fixpoint is_copy_loop (fuel : nat) (to : nat) (c : option Z) i : io (iosys D) () :=
  match fuel with
  | 0 => io_out_of_fuel
  | S fuel =>
      if char_eof c then _ ← not_source (ios_setstate eofbit i) i; mret ()
      else
        r ← not_source (on_buf (sputc (to_char_type c)) to) i;
        match r with
        | Some (Some _) =>
            c ← from_source sbumpc i;
            match c with None => mret () | Some c => is_copy_loop fuel to c i end
        | _ => mret ()
        end
  end.
Definition is_streambuf (fuel : nat) (to : option nat) i : io (iosys D) () :=
  ok ← is_sentry fuel false i;
  if ok : bool then
    match to with
    | None => ios_setstate failbit i
    | Some to =>
        c ← from_source sgetc i;
        match c with
        | None => mret ()
        | Some c =>
            r ← (if char_eof c then mret (Some None) else not_source (on_buf (sputc (to_char_type c)) to) i);
            match r with
            | None => mret ()
            | Some None => _ ← not_source (ios_setstate failbit i) i; mret ()
            | Some (Some _) =>
                c ← from_source sbumpc i;
                match c with None => mret () | Some c => is_copy_loop fuel to c i end
            end
        end
    end
  else ios_setstate failbit i.

(** ** Unformatted input

    A character that is not assigned, and the end of the file, is [None]. *)
Definition is_get_slow (fuel : nat) i : io (iosys D) (option Z) :=
  ok ← is_sentry_fast fuel i;
  guarded ok i None (
    rc ← on_rdbuf sbumpc i;
    match rc with
    | None => _ ← ios_setstate (Z.lor failbit eofbit) i; _ ← set_gcount 0 i; mret None
    | Some c => _ ← set_gcount 1 i; mret (Some c)
    end) (fail_with None i).
Definition is_get (fuel : nat) i : io (iosys D) (option Z) :=
  _ ← set_gcount 1 i;
  p ← ios_get i_sbuf i;
  match p with
  | None => mret None
  | Some _ =>
      need ← need_isentry i;
      empty ← on_ptr (λ s, Ret (bool_decide (sb_gcur s = sb_gend s), s)) p;
      if (need : bool) || empty then is_get_slow fuel i
      else on_ptr (λ s, c ← or_ub (mem_load (sb_mem s) (sb_gcur s)); s ← or_ub (gbump 1 s); Ret (Some c, s)) p
  end.
Definition is_get_char (fuel : nat) i : io (iosys D) (option Z) :=
  ok ← is_sentry fuel true i;
  guarded ok i None (
    rc ← on_rdbuf sbumpc i;
    match rc with
    | None => _ ← ios_setstate (Z.lor failbit eofbit) i; _ ← set_gcount 0 i; mret None
    | Some c => _ ← set_gcount 1 i; mret (Some c)
    end) (fail_with None i).

(** The characters of the get area, at most [n] of them. *)
Definition area_peek (n : Z) (s : sbuf D) : outcome (list Z * sbuf D) :=
  k ← or_ub (ptr_sub (sb_gend s) (sb_gcur s));
  if decide (Z.min k n = 0%Z) then Ret ([], s) else buf_peek_n (Z.min k n) s.
(** The characters in front of the delimiter. *)
Fixpoint until (d : Z) (cs : list Z) : list Z :=
  match cs with [] => [] | c :: cs => if decide (c = d) then [] else c :: until d cs end.

(** [n] characters can still be stored. *)
Fixpoint getn_loop (fuel : nat) (d n : Z) i : io (iosys D) () :=
  match fuel with
  | 0 => io_out_of_fuel
  | S fuel =>
      if decide (n = 0%Z) then mret () else
      cs ← on_rdbuf (area_peek n) i;
      match cs with
      | [] =>
          c ← on_rdbuf v_underflow i;
          match c with
          | None => ios_setstate eofbit i
          | Some c =>
              if decide (c = d) then
                k ← stored_count i; io_when (bool_decide (k = 0%Z)) (ios_setstate failbit i)
              else _ ← store [c] i; _ ← on_rdbuf sbumpc i; getn_loop fuel d (n - 1) i
          end
      | _ =>
          let l := until d cs in
          _ ← on_rdbuf (buf_commit (Z.of_nat (length l))) i;
          _ ← store l i;
          if decide (length l < length cs) then
            k ← stored_count i; io_when (bool_decide (k = 0%Z)) (ios_setstate failbit i)
          else _ ← on_rdbuf v_underflow i; getn_loop fuel d (n - Z.of_nat (length l)) i
      end
  end.
(** [get] into an array of [n] characters. *)
Definition is_getn (fuel : nat) (n d : Z) i : io (iosys D) () :=
  ok ← is_sentry fuel true i;
  guarded ok i () (
    _ ← set_stored [] i;
    if decide (n < 1)%Z then io_undef else
    with_dtor (
      if decide (n = 1)%Z then ios_setstate failbit i
      else
        c ← on_rdbuf sgetc i;
        match c with
        | None => ios_setstate (Z.lor failbit eofbit) i
        | Some _ => getn_loop fuel d (n - 1) i
        end) (k ← stored_count i; set_gcount k i)) (fail_with () i).

(** The result says that the array is full. *)
Fixpoint getline_loop (fuel : nat) (d n : Z) i : io (iosys D) bool :=
  match fuel with
  | 0 => io_out_of_fuel
  | S fuel =>
      if decide (n = 0%Z) then mret true else
      cs ← on_rdbuf (area_peek n) i;
      match cs with
      | [] =>
          c ← on_rdbuf sbumpc i;
          match c with
          | None => _ ← ios_setstate eofbit i; mret false
          | Some c =>
              if decide (c = d) then _ ← set_gcount 1 i; mret false
              else _ ← store [c] i; getline_loop fuel d (n - 1) i
          end
      | _ =>
          let l := until d cs in
          _ ← store l i;
          if decide (length l < length cs) then
            _ ← on_rdbuf (buf_commit (Z.of_nat (length l) + 1)) i; _ ← set_gcount 1 i; mret false
          else
            _ ← on_rdbuf (buf_commit (Z.of_nat (length l))) i;
            _ ← on_rdbuf v_underflow i; getline_loop fuel d (n - Z.of_nat (length l)) i
      end
  end.
Definition is_getline (fuel : nat) (n d : Z) i : io (iosys D) () :=
  ok ← is_sentry fuel true i;
  guarded ok i () (
    _ ← set_gcount 0 i; _ ← set_stored [] i;
    if decide (n < 1)%Z then io_undef else
    with_dtor (
      if decide (n = 1)%Z then ios_setstate failbit i
      else
        c ← on_rdbuf sgetc i;
        match c with
        | None => ios_setstate (Z.lor failbit eofbit) i
        | Some _ =>
            full ← getline_loop fuel d (n - 1) i;
            if full : bool then
              c ← on_rdbuf sgetc i;
              if decide (c = Some d) then _ ← on_rdbuf sbumpc i; set_gcount 1 i
              else ios_setstate failbit i
            else mret ()
        end) (k ← stored_count i; ios_modify (λ x, i_set_gcount (i_gcount x + k) x) i)) (fail_with () i).

(** [get] into another buffer. *)
Fixpoint get_buf_loop (fuel : nat) (d : Z) (to : nat) (inserted : bool) i : io (iosys D) (option Z * bool) :=
  match fuel with
  | 0 => io_out_of_fuel
  | S fuel =>
      c ← on_rdbuf sgetc i;
      match c with
      | None => mret (None, inserted)
      | Some ch =>
          if decide (ch = d) then mret (c, inserted)
          else
            r ← on_buf (sputc ch) to;
            match r with
            | None => mret (c, inserted)
            | Some _ => _ ← on_rdbuf sbumpc i; get_buf_loop fuel d to true i
            end
      end
  end.
Definition is_get_buf (fuel : nat) (to : nat) (d : Z) i : io (iosys D) () :=
  ok ← is_sentry fuel true i;
  guarded ok i () (
    '(c, inserted) ← get_buf_loop fuel d to false i;
    match c with
    | None => ios_setstate (if inserted : bool then eofbit else Z.lor eofbit failbit) i
    | Some _ => io_when (negb inserted) (ios_setstate failbit i)
    end) (fail_with () i).

Definition is_ignore (fuel : nat) i : io (iosys D) () :=
  ok ← is_sentry fuel true i;
  guarded ok i () (
    c ← on_rdbuf sbumpc i;
    match c with
    | None => _ ← ios_setstate eofbit i; set_gcount 0 i
    | Some _ => set_gcount 1 i
    end) (mret ()).
(** [d] is the delimiter as a character, [c] as an int. *)
Fixpoint ignore_loop (fuel : nat) (n : Z) (c : option Z) i : io (iosys D) () :=
  match fuel with
  | 0 => io_out_of_fuel
  | S fuel =>
      let d := to_char_type c in
      k ← ios_get i_gcount i;
      if decide (k < n ∨ n = streamsize_max)%Z then
        m ← on_rdbuf buf_avail i;
        if decide (m = 0%Z) then
          r ← on_rdbuf sbumpc i;
          match r with
          | None => ios_setstate eofbit i
          | Some _ =>
              _ ← set_gcount (k + 1) i;
              if decide (r = c) then mret () else ignore_loop fuel n c i
          end
        else
          cs ← on_rdbuf (buf_peek_n (if decide (n - k < m)%Z then n - k else m)%Z) i;
          let l := until d cs in
          if decide (length l < length cs) then
            _ ← set_gcount (k + Z.of_nat (length l) + 1) i; on_rdbuf (buf_commit (Z.of_nat (length l) + 1)) i
          else
            _ ← set_gcount (k + Z.of_nat (length cs)) i; _ ← on_rdbuf (buf_commit (Z.of_nat (length cs))) i;
            ignore_loop fuel n c i
      else mret ()
  end.
Definition is_ignore_n (fuel : nat) (n : Z) (c : option Z) i : io (iosys D) () :=
  ok ← is_sentry fuel true i;
  guarded ok i () (
    _ ← set_gcount 0 i;
    r ← on_rdbuf sgetc i;
    match r with None => ios_setstate eofbit i | Some _ => ignore_loop fuel n c i end) (mret ()).

Definition is_peek (fuel : nat) i : io (iosys D) (option Z) :=
  try_catch (_ ← set_gcount 0 i; ok ← is_sentry fuel true i; if ok : bool then on_rdbuf sgetc i else mret None)
    (λ e, _ ← process_exception e i; mret None).
Definition is_read (fuel : nat) (n : Z) i : io (iosys D) () :=
  ok ← is_sentry fuel true i;
  guarded ok i () (
    cs ← on_rdbuf (xsgetn n) i; _ ← set_stored cs i; _ ← set_gcount (Z.of_nat (length cs)) i;
    io_when (bool_decide (Z.of_nat (length cs) < n)%Z) (ios_setstate (Z.lor eofbit failbit) i))
    (_ ← set_gcount 0 i; ios_setstate failbit i).
Definition is_readsome (fuel : nat) (n : Z) i : io (iosys D) Z :=
  ok ← is_sentry fuel true i;
  _ ← guarded ok i () (
    avail ← on_rdbuf in_avail i;
    if decide (avail = -1)%Z then _ ← ios_setstate eofbit i; set_gcount 0 i
    else if decide (avail = 0)%Z then set_gcount 0 i
    else
      cs ← on_rdbuf (xsgetn (if decide (avail < n)%Z then avail else n)) i;
      _ ← set_stored cs i; set_gcount (Z.of_nat (length cs)) i)
    (_ ← set_gcount 0 i; ios_setstate failbit i);
  ios_get i_gcount i.
Definition back_with (f : sbuf D → outcome (option Z * sbuf D)) (fuel : nat) i : io (iosys D) () :=
  ok ← is_sentry fuel true i;
  guarded ok i () (r ← on_rdbuf f i; io_when (bool_decide (r = None)) (ios_setstate badbit i)) (fail_with () i).
Definition is_putback (fuel : nat) (c : Z) : nat → io (iosys D) () := back_with (sputbackc c) fuel.
Definition is_unget (fuel : nat) : nat → io (iosys D) () := back_with sungetc fuel.

Definition is_sync i : io (iosys D) Z :=
  p ← ios_get i_sbuf i;
  match p with
  | None => mret (-1)%Z
  | Some _ =>
      r ← on_ptr v_sync p;
      if decide (r = -1)%Z then _ ← ios_setstate badbit i; mret (-1)%Z else mret 0%Z
  end.
Definition is_tellg i : io (iosys D) Z :=
  f ← ios_fail i; if f : bool then mret (-1)%Z else on_rdbuf (v_seekoff 0 seek_cur om_in) i.
Definition is_seekg (pos : Z) i : io (iosys D) () :=
  f ← ios_fail i; if f : bool then mret () else _ ← on_rdbuf (v_seekpos pos om_in) i; mret ().
Definition is_seekg_off (off : Z) (dir : seekdir) i : io (iosys D) () :=
  f ← ios_fail i; if f : bool then mret () else _ ← on_rdbuf (v_seekoff off dir om_in) i; mret ().

(** ** Characters and words *)
Definition is_char (fuel : nat) i : io (iosys D) (option Z) :=
  ok ← is_sentry fuel false i;
  guarded ok i None (
    c ← on_rdbuf sbumpc i;
    match c with
    | Some c => mret (Some c)
    | None => _ ← ios_setstate (Z.lor failbit eofbit) i; mret None
    end) (fail_with None i).

(** [n] more characters; the result is the character at which the loop ended. *)
Fixpoint word_loop (fuel : nat) (space : Z → bool) (n : Z) (c : option Z) i : io (iosys D) (option Z) :=
  match fuel, c with
  | _, None => mret None
  | 0, _ => io_out_of_fuel
  | S fuel, Some ch =>
      if decide (n ≤ 0)%Z then mret c
      else if space ch then mret c
      else if decide (ch = 0%Z) then mret c
      else _ ← store [ch] i; c ← on_rdbuf snextc i; word_loop fuel space (n - 1) c i
  end.
Definition is_word (fuel : nat) i : io (iosys D) () :=
  ok ← is_sentry fuel false i;
  guarded ok i () (
    width ← ios_get i_width i;
    _ ← set_stored [] i;
    loc ← ios_get i_loc i;
    c ← on_rdbuf sgetc i;
    c ← word_loop fuel (loc_space loc) (if decide (0 < width)%Z then width - 1 else streamsize_max - 1)%Z c i;
    _ ← ios_width 0 i;
    _ ← io_when (bool_decide (c = None)) (ios_setstate eofbit i);
    k ← stored_count i;
    io_when (bool_decide (k = 0%Z)) (ios_setstate failbit i))
    (_ ← ios_setstate failbit i; set_stored [] i).

Definition is_ws (fuel : nat) i : io (iosys D) () := at_end ← skip_ws fuel i; io_when at_end (ios_setstate eofbit i).
End istream.
