(* ===== verification/StreamText.v ===== *)
(** * Input streams on texts

    What the functions of an input stream (IStream) do on a string buffer, in
    terms of the text of the buffer: [in_step] gives the result, the stream and the
    text after an operation, and sequences of operations follow it. *)
From S2P Require Import Prelude LocaleCache NumPut NumGet StreamBuf StringBuf StringText StreamIter Ios StreamRun OStream IStream.

(** ** Operations on a text *)
Definition is_good (x : ios) : bool := bool_decide (i_state x = goodbit).
Definition add_state (st : Z) (x : ios) : ios := ios_cleared (Z.lor (i_state x) st) x.

(** The number of leading characters which satisfy [p]. *)
Fixpoint prefix_count (p : Z → bool) (cs : list Z) : nat :=
  match cs with [] => 0 | c :: cs => if p c then S (prefix_count p cs) else 0 end.

(** The first [n] characters; [n] may be the largest number there is. *)
Definition first_n (n : Z) (cs : list Z) : list Z := take (Z.to_nat (Z.min n (Z.of_nat (length cs)))) cs.

Inductive in_op :=
  | RGet | RGetChar | RGetn (n d : Z) | RGetline (n d : Z) | RIgnore | RIgnoreN (n : Z) (c : option Z)
  | RPeek | RRead (n : Z) | RReadsome (n : Z) | RPutback (c : Z) | RUnget | RWs | RChar | RWord | RSetw (n : Z)
  | RSync | RTellg | RSeekg (pos : Z) | RSeekgOff (off : Z) (dir : seekdir).
Inductive in_res := InUnit | InChar (c : option Z) | InNum (n : Z).

Section abstract.
Context (mode : Z).
Implicit Types (x : ios) (t : text_buf).
Notation rest := (tb_rest mode).

Definition in_skip x t : text_buf := tb_read (prefix_count (loc_space (i_loc x)) (rest t)) t.
(** The sentry which skips white space. *)
Definition in_sentry x t : ios * text_buf :=
  if is_good x then
    if flag_set (Z.land (i_flags x) fl_fmtmask) fl_skipws then
      match rest (in_skip x t) with
      | [] => (add_state (Z.lor eofbit failbit) x, in_skip x t)
      | _ => (x, in_skip x t)
      end
    else (x, t)
  else (x, t).

Definition in_get x t : in_res * ios * text_buf :=
  match rest t with
  | [] => (InChar None, i_set_gcount 0 (add_state (Z.lor failbit eofbit) (i_set_gcount 1 x)), t)
  | c :: _ => (InChar (Some c), i_set_gcount 1 x, tb_read 1 t)
  end.
Definition in_get_char x t : in_res * ios * text_buf :=
  if is_good x then
    match rest t with
    | [] => (InChar None, i_set_gcount 0 (add_state (Z.lor failbit eofbit) x), t)
    | c :: _ => (InChar (Some c), i_set_gcount 1 x, tb_read 1 t)
    end
  else (InChar None, add_state failbit x, t).

(** At most [n - 1] characters in front of the delimiter. *)
Definition in_getn (n d : Z) x t : ios * text_buf :=
  if is_good x then
    let x := i_set_stored [] x in
    if decide (n = 1%Z) then (i_set_gcount 0 (add_state failbit x), t)
    else match rest t with
         | [] => (i_set_gcount 0 (add_state (Z.lor failbit eofbit) x), t)
         | cs =>
             let l := until d (first_n (n - 1) cs) in
             let x := i_set_stored l x in
             let x := if decide (Z.of_nat (length l) = n - 1)%Z then x
                      else if decide (length l = length cs) then add_state eofbit x
                      else if decide (l = []) then add_state failbit x else x in
             (i_set_gcount (Z.of_nat (length l)) x, tb_read (length l) t)
         end
  else (add_state failbit x, t).

Definition in_getline (n d : Z) x t : ios * text_buf :=
  if is_good x then
    let x := i_set_stored [] (i_set_gcount 0 x) in
    if decide (n = 1%Z) then (add_state failbit x, t)
    else match rest t with
         | [] => (add_state (Z.lor failbit eofbit) x, t)
         | cs =>
             let l := until d (first_n (n - 1) cs) in
             let x := i_set_stored l x in
             let read extra := (i_set_gcount (Z.of_nat (length l + extra)) x, tb_read (length l + extra) t) in
             if decide (cs !! length l = Some d) then read 1
             else
               let '(x, t) := read 0 in
               (add_state (if decide (Z.of_nat (length l) = n - 1)%Z then failbit else eofbit) x, t)
         end
  else (add_state failbit x, t).

Definition in_ignore x t : ios * text_buf :=
  if is_good x then
    match rest t with
    | [] => (i_set_gcount 0 (add_state eofbit x), t)
    | _ => (i_set_gcount 1 x, tb_read 1 t)
    end
  else (x, t).
Definition in_ignore_n (n : Z) (c : option Z) x t : ios * text_buf :=
  if is_good x then
    let x := i_set_gcount 0 x in
    match rest t with
    | [] => (add_state eofbit x, t)
    | cs =>
        let cs := first_n n cs in
        let l := until (to_char_type c) cs in
        if decide (length l < length cs) then (i_set_gcount (Z.of_nat (length l + 1)) x, tb_read (length l + 1) t)
        else
          let x := i_set_gcount (Z.of_nat (length cs)) x in
          (if decide (Z.of_nat (length cs) < n)%Z then add_state eofbit x else x, tb_read (length cs) t)
    end
  else (x, t).

Definition in_peek x t : in_res := InChar (if is_good x then tb_getc mode t else None).
Definition in_read (n : Z) x t : ios * text_buf :=
  if is_good x then
    let cs := first_n n (rest t) in
    let x := i_set_gcount (Z.of_nat (length cs)) (i_set_stored cs x) in
    (if decide (Z.of_nat (length cs) < n)%Z then add_state (Z.lor eofbit failbit) x else x, tb_read (length cs) t)
  else (add_state failbit (i_set_gcount 0 x), t).
Definition in_readsome (n : Z) x t : ios * text_buf :=
  if is_good x then
    match rest t with
    | [] => (i_set_gcount 0 x, t)
    | r => let cs := first_n n r in
           (i_set_gcount (Z.of_nat (length cs)) (i_set_stored cs x), tb_read (length cs) t)
    end
  else (add_state failbit (i_set_gcount 0 x), t).
Definition in_back (r : option Z * text_buf) x t : ios * text_buf :=
  if is_good x then (if decide (r.1 = None) then add_state badbit x else x, r.2) else (add_state failbit x, t).

Definition in_ws x t : ios * text_buf :=
  (match rest (in_skip x t) with [] => add_state eofbit x | _ => x end, in_skip x t).
Definition in_char x t : in_res * ios * text_buf :=
  let '(x, t) := in_sentry x t in
  if is_good x then
    match rest t with
    | [] => (InChar None, add_state (Z.lor failbit eofbit) x, t)
    | c :: _ => (InChar (Some c), x, tb_read 1 t)
    end
  else (InChar None, add_state failbit x, t).
(** A word ends at white space, at a zero and when the width is used up. *)
Definition in_word x t : ios * text_buf :=
  let '(x, t) := in_sentry x t in
  if is_good x then
    let n := if decide (0 < i_width x)%Z then (i_width x - 1)%Z else (streamsize_max - 1)%Z in
    let l := take (prefix_count (λ c, negb (loc_space (i_loc x) c) && negb (bool_decide (c = 0%Z))) (first_n n (rest t))) (rest t) in
    let x := i_set_width 0 (i_set_stored l x) in
    let x := if decide (length l = length (rest t)) then add_state eofbit x else x in
    (if decide (l = []) then add_state failbit x else x, tb_read (length l) t)
  else (i_set_stored [] (add_state failbit x), t).

(** Positions; the results of [seekg] are not looked at. *)
Definition is_failed x : bool := flag_set (i_state x) (Z.lor failbit badbit).
Definition in_seek (off : Z) (dir : seekdir) t : Z * text_buf := default ((-1)%Z, t) (tb_seekoff mode off dir om_in t).
Definition in_tellg x t : in_res * ios * text_buf :=
  if is_failed x then (InNum (-1), x, t) else (InNum (in_seek 0 seek_cur t).1, x, (in_seek 0 seek_cur t).2).
Definition in_seekg (pos : Z) x t : ios * text_buf := (x, if is_failed x then t else (tb_seekpos mode pos om_in t).2).
Definition in_seekg_off (off : Z) (dir : seekdir) x t : ios * text_buf := (x, if is_failed x then t else (in_seek off dir t).2).

Definition in_step (op : in_op) x t : in_res * ios * text_buf :=
  let unit (r : ios * text_buf) := (InUnit, r.1, r.2) in
  match op with
  | RGet => in_get x t
  | RGetChar => in_get_char x t
  | RGetn n d => unit (in_getn n d x t)
  | RGetline n d => unit (in_getline n d x t)
  | RIgnore => unit (in_ignore x t)
  | RIgnoreN n c => unit (in_ignore_n n c x t)
  | RPeek => (in_peek x t, i_set_gcount 0 x, t)
  | RRead n => unit (in_read n x t)
  | RReadsome n => let '(x, t) := in_readsome n x t in (InNum (i_gcount x), x, t)
  | RPutback c => unit (in_back (tb_putbackc mode c t) x t)
  | RUnget => unit (in_back (tb_ungetc t) x t)
  | RWs => unit (in_ws x t)
  | RChar => in_char x t
  | RWord => unit (in_word x t)
  | RSetw n => (InUnit, i_set_width n x, t)
  | RSync => (InNum 0, x, t)
  | RTellg => in_tellg x t
  | RSeekg pos => unit (in_seekg pos x t)
  | RSeekgOff off dir => unit (in_seekg_off off dir x t)
  end.
End abstract.

Definition run_in_op {D} `{!SbufVirtuals D, !SbufPositions D} (fuel : nat) (op : in_op) (i : nat) : io (iosys D) in_res :=
  let unit (m : io (iosys D) ()) := _ ← m; mret InUnit in
  match op with
  | RGet => c ← is_get fuel i; mret (InChar c)
  | RGetChar => c ← is_get_char fuel i; mret (InChar c)
  | RGetn n d => unit (is_getn fuel n d i)
  | RGetline n d => unit (is_getline fuel n d i)
  | RIgnore => unit (is_ignore fuel i)
  | RIgnoreN n c => unit (is_ignore_n fuel n c i)
  | RPeek => c ← is_peek fuel i; mret (InChar c)
  | RRead n => unit (is_read fuel n i)
  | RReadsome n => n ← is_readsome fuel n i; mret (InNum n)
  | RPutback c => unit (is_putback fuel c i)
  | RUnget => unit (is_unget fuel i)
  | RWs => unit (is_ws fuel i)
  | RChar => c ← is_char fuel i; mret (InChar c)
  | RWord => unit (is_word fuel i)
  | RSetw n => unit (put_setw n i)
  | RSync => n ← is_sync i; mret (InNum n)
  | RTellg => n ← is_tellg i; mret (InNum n)
  | RSeekg pos => unit (is_seekg pos i)
  | RSeekgOff off dir => unit (is_seekg_off off dir i)
  end.

(** ** Runs on texts *)
Lemma flag_set_0_r f : flag_set f 0 = false.
Proof. unfold flag_set. by rewrite Z.land_0_r. Qed.
Lemma mapM_take {A} (l : list (option A)) cs k : mapM id l = Some cs → mapM id (take k l) = Some (take k cs).
Proof. rewrite !mapM_Some. apply Forall2_take. Qed.
Lemma mem_read_take m p n k cs : mem_read m p n = Some cs → k ≤ n → mem_read m p k = Some (take k cs).
Proof.
  destruct p as [[b i]|]; [|done]. cbn. destruct (m !! b) as [a|]; [|done]. cbn. case_decide; [|done].
  intros Hm Hk. rewrite decide_True by lia. apply (mapM_take _ _ k) in Hm. by rewrite take_take, Nat.min_l in Hm by done.
Qed.
Lemma first_n_take n cs : first_n n cs = take (Z.to_nat n) cs.
Proof. unfold first_n. destruct (decide (n ≤ Z.of_nat (length cs))%Z); [by rewrite Z.min_l by done|]. rewrite !take_ge by lia. done. Qed.
Lemma first_n_length n cs : length (first_n n cs) = Z.to_nat n `min` length cs.
Proof. by rewrite first_n_take, length_take. Qed.
Lemma prefix_count_le p cs : prefix_count p cs ≤ length cs.
Proof. induction cs as [|c cs IH]; cbn; [done|]. destruct (p c); lia. Qed.
Section acts.
Context {m0 : memory} {mode : Z} {i b : nat}.
Implicit Types (x y : ios) (t : text_buf).
Notation rep := (strbuf_rep m0 mode).
Notation rest := (tb_rest mode).

(** [m] takes the stream and the text from [v] to [v'] and returns [a]. *)
Definition acts {A} (m : io (iosys stringbuf) A) (v : ios * text_buf) (a : A) (v' : ios * text_buf) : Prop :=
  ∀ s, rep s v.2 → ∃ s', runs i b m (v.1, s) (Done a) (v'.1, s') ∧ rep s' v'.2.

Lemma acts_eq {A} (m : io (iosys stringbuf) A) v a v' w : acts m v a v' → v' = w → acts m v a w.
Proof. by intros ? <-. Qed.
Lemma acts_ret {A} (a : A) v : acts (mret a) v a v.
Proof. intros s Hs. exists s. split; [apply runs_ret|done]. Qed.
Lemma acts_bind {A B} (m : io (iosys stringbuf) A) (f : A → io (iosys stringbuf) B) v a v' c v'' :
  acts m v a v' → acts (f a) v' c v'' → acts (m ≫= f) v c v''.
Proof.
  intros Hm Hf s Hs. destruct (Hm s Hs) as (s1 & H1 & Hr1). destruct (Hf s1 Hr1) as (s2 & H2 & Hr2).
  exists s2. split; [by eapply runs_bind|done].
Qed.
Lemma acts_try {A} (m : io (iosys stringbuf) A) h v a v' : acts m v a v' → acts (try_catch m h) v a v'.
Proof. intros Hm s Hs. destruct (Hm s Hs) as (s' & H & Hr). exists s'. split; [by apply runs_try|done]. Qed.
Lemma acts_dtor {A} (m : io (iosys stringbuf) A) d v a v' v'' : acts m v a v' → acts d v' () v'' → acts (with_dtor m d) v a v''.
Proof.
  intros Hm Hd s Hs. destruct (Hm s Hs) as (s1 & H1 & Hr1). destruct (Hd s1 Hr1) as (s2 & H2 & Hr2).
  exists s2. split; [by eapply runs_dtor|done].
Qed.
Lemma acts_get {A} (f : ios → A) v : acts (ios_get f i) v (f v.1) v.
Proof. intros s Hs. exists s. split; [apply (runs_get f (v.1, s))|done]. Qed.
Lemma acts_steps {A} (m : io (iosys stringbuf) A) x a y t : steps_to i m x a y → i_sbuf y = i_sbuf x → acts m (x, t) a (y, t).
Proof. intros Hm Hy s Hs. exists s. split; [by apply runs_steps|done]. Qed.
Lemma acts_modify f x t : i_sbuf (f x) = i_sbuf x → acts (ios_modify f i) (x, t) () (f x, t).
Proof. intros Hf. apply acts_steps; [apply steps_modify|done]. Qed.
Lemma acts_rdbuf {A} (f : sbuf stringbuf → outcome (A * sbuf stringbuf)) x t a t' :
  (∀ s, rep s t → computes m0 mode (f s) (a, t')) → acts (on_rdbuf f i) (x, t) a (x, t').
Proof. intros Hf s Hs. destruct (Hf s Hs) as (s' & H & Hr). exists s'. split; [by apply runs_rdbuf|done]. Qed.
Lemma acts_ptr {A} (f : sbuf stringbuf → outcome (A * sbuf stringbuf)) x t a t' :
  (∀ s, rep s t → computes m0 mode (f s) (a, t')) → acts (on_ptr f (Some b)) (x, t) a (x, t').
Proof. intros Hf s Hs. destruct (Hf s Hs) as (s' & H & Hr). exists s'. split; [by apply runs_ptr|done]. Qed.
Lemma acts_state st x t : i_exceptions x = goodbit → acts (ios_setstate st i) (x, t) () (add_state st x, t).
Proof.
  intros He s Hs. exists s. split; [|done]. eapply runs_bind; [apply runs_get|]. apply runs_clear. cbn. by rewrite He, flag_set_0_r.
Qed.

(** The operations on the buffer. *)
Lemma rest_some t : om_has mode om_in = true → rest t = drop (tb_r t) (tb_text t).
Proof. intros Hin. unfold tb_rest. by rewrite Hin. Qed.
Lemma acts_sgetc x t : acts (on_rdbuf sgetc i) (x, t) (head (rest t)) (x, t).
Proof. apply acts_rdbuf. intros s (c & a & Hat). exists s. split; [by apply (sgetc_spec m0 mode c a)|by exists c, a]. Qed.
Lemma acts_underflow x t : acts (on_rdbuf v_underflow i) (x, t) (head (rest t)) (x, t).
Proof. apply acts_rdbuf. intros s (c & a & Hat). exists s. split; [by apply (underflow_spec m0 mode c a)|by exists c, a]. Qed.
Lemma acts_sbumpc x t : acts (on_rdbuf sbumpc i) (x, t) (head (rest t)) (x, match rest t with [] => t | _ => tb_read 1 t end).
Proof.
  apply acts_rdbuf. intros s Hs. pose proof (sbumpc_spec m0 mode s t Hs) as Hb. unfold tb_bumpc in Hb. by destruct (rest t).
Qed.
Lemma acts_snextc x t : acts (on_rdbuf snextc i) (x, t) (head (tail (rest t))) (x, match rest t with [] => t | _ => tb_read 1 t end).
Proof.
  apply acts_rdbuf. intros s Hs. pose proof (snextc_spec m0 mode s t Hs) as Hb. unfold tb_nextc in Hb. by destruct (rest t).
Qed.
Lemma acts_avail x t : acts (on_rdbuf buf_avail i) (x, t) (Z.of_nat (length (rest t))) (x, t).
Proof. apply acts_rdbuf. intros s Hs. exists s. split; [by apply (rest_area m0 mode s t)|done]. Qed.
Lemma acts_peek_n x t n : n ≤ length (rest t) → rest t ≠ [] → acts (on_rdbuf (buf_peek_n (Z.of_nat n)) i) (x, t) (take n (rest t)) (x, t).
Proof.
  intros Hn Hne. apply acts_rdbuf. intros s Hs. exists s. split; [|done]. destruct (rest_area m0 mode s t Hs) as [_ Hp].
  specialize (Hp Hne). unfold buf_peek_n in *. rewrite Nat2Z.id in *. cbn [fst].
  destruct (mem_read (sb_mem s) (sb_gcur s) (length (rest t))) as [cs|] eqn:Hr; [|done]. cbn in Hp. injection Hp as Hcs.
  rewrite (mem_read_take _ _ _ n _ Hr Hn), Hcs. done.
Qed.
Lemma acts_area x t n : (0 < n)%Z → acts (on_rdbuf (area_peek n) i) (x, t) (first_n n (rest t)) (x, t).
Proof.
  intros Hn. destruct (decide (rest t = [])) as [He|He].
  - apply acts_rdbuf. intros s Hs. exists s. split; [|done]. destruct (rest_area m0 mode s t Hs) as [Ha _].
    unfold area_peek. unfold buf_avail in Ha. rewrite He in *. destruct (ptr_sub _ _) as [k|]; [|done]. cbn in *.
    injection Ha as ->. rewrite decide_True by lia. unfold first_n. by rewrite take_nil.
  - pose proof (acts_peek_n x t (Z.to_nat (Z.min (Z.of_nat (length (rest t))) n)) ltac:(lia) He) as Hp.
    intros s Hs. destruct (Hp s Hs) as (s' & Hrun & Hr). exists s'. split; [|done].
    intros w Hw. destruct (Hrun w Hw) as [Hb Hm]. split; [done|]. unfold first_n. rewrite (Z.min_comm n), <-Hm.
    destruct (rest_area m0 mode s t Hs) as [Ha _]. destruct Hw as (Hx & Hbuf & Hsb). cbn [fst snd] in *.
    unfold on_rdbuf. rewrite !(io_bind_Ret _ _ w (Some b) w) by (unfold ios_get; by rewrite Hx, Hsb). cbn.
    unfold on_buf. rewrite Hbuf. unfold area_peek, buf_avail in *. destruct (ptr_sub _ _) as [k|]; [|done].
    cbn [or_ub mbind outcome_bind] in *. injection Ha as ->.
    rewrite decide_False by (destruct (rest t); [done|cbn [length]; lia]). by rewrite Z2Nat.id by lia.
Qed.
Lemma acts_commit x t n k : n = Z.of_nat k → rest t ≠ [] → k ≤ length (rest t) → acts (on_rdbuf (buf_commit n) i) (x, t) () (x, tb_read k t).
Proof. intros -> Hne Hk. apply acts_rdbuf. intros s Hs. by apply commit_rest. Qed.

(** *** The sentry *)
Lemma skip_loop_acts fuel space x t : prefix_count space (rest t) < fuel →
  acts (skip_loop fuel space (head (rest t)) i) (x, t)
    (bool_decide (rest (tb_read (prefix_count space (rest t)) t) = [])) (x, tb_read (prefix_count space (rest t)) t).
Proof.
  revert t. induction fuel as [|fuel IH]; intros t Hf; [lia|].
  assert (H0 : tb_read 0 t = t) by (unfold tb_read; rewrite Nat.add_0_r; by destruct t).
  destruct (rest t) as [|c cs] eqn:Hr; cbn [head skip_loop prefix_count] in *.
  { rewrite H0, Hr. apply acts_ret. }
  destruct (space c).
  - eapply acts_bind; [apply acts_snextc|]. rewrite Hr. cbn [tail].
    assert (Hr1 : rest (tb_read 1 t) = cs) by (by rewrite tb_rest_read, Hr).
    specialize (IH (tb_read 1 t) ltac:(rewrite Hr1; lia)). rewrite Hr1 in IH.
    assert (Hrr : tb_read (S (prefix_count space cs)) t = tb_read (prefix_count space cs) (tb_read 1 t)).
    { unfold tb_read. cbn. f_equal. lia. }
    by rewrite Hrr.
  - rewrite H0, Hr, bool_decide_false by done. apply acts_ret.
Qed.
Lemma skip_ws_acts fuel x t : prefix_count (loc_space (i_loc x)) (rest t) < fuel →
  acts (skip_ws fuel i) (x, t) (bool_decide (rest (in_skip mode x t) = [])) (x, in_skip mode x t).
Proof.
  intros Hf. eapply acts_bind; [apply acts_get|]. eapply acts_bind; [apply acts_sgetc|]. by apply skip_loop_acts.
Qed.

Lemma good_acts x t : acts (ios_good i) (x, t) (is_good x) (x, t).
Proof. exact (acts_get is_good (x, t)). Qed.

(** Without exceptions and ties. *)
Record quiet x : Prop := Quiet { qt_exceptions : i_exceptions x = goodbit; qt_tie : i_tie x = None }.

Lemma sentry_acts fuel x t : quiet x → prefix_count (loc_space (i_loc x)) (rest t) < fuel →
  acts (is_sentry fuel false i) (x, t) (is_good (in_sentry mode x t).1) (in_sentry mode x t).
Proof.
  intros [He Ht] Hf. unfold is_sentry, sentry_init, in_sentry. eapply acts_bind; [apply good_acts|].
  destruct (is_good x) eqn:Hg; cbn [io_when]; [|eapply acts_bind; [apply acts_ret|apply good_acts]].
  assert (∃ v, v = (if flag_set (Z.land (i_flags x) fl_fmtmask) fl_skipws then
      match rest (in_skip mode x t) with
      | [] => (add_state (Z.lor eofbit failbit) x, in_skip mode x t)
      | _ => (x, in_skip mode x t)
      end else (x, t))) as [v Hv] by eauto. rewrite <-Hv.
  eapply (acts_bind _ _ _ _ v); [|rewrite (surjective_pairing v); apply good_acts].
  apply acts_try. eapply acts_bind; [apply acts_get|]. cbn [fst]. rewrite Ht.
  eapply acts_bind; [apply acts_ret|]. eapply acts_bind; [apply (acts_get (λ x, Z.land (i_flags x) fl_fmtmask))|]. cbn [fst negb andb].
  rewrite Hv. destruct (flag_set _ _); [|apply acts_ret].
  eapply acts_bind; [by apply skip_ws_acts|]. destruct (rest (in_skip mode x t)) eqn:Hr.
  - rewrite bool_decide_true by done. by apply acts_state.
  - rewrite bool_decide_false by done. apply acts_ret.
Qed.
Lemma sentry_noskip fuel x t : quiet x → acts (is_sentry fuel true i) (x, t) (is_good x) (x, t).
Proof.
  intros [He Ht]. unfold is_sentry, sentry_init. eapply acts_bind; [apply good_acts|].
  eapply (acts_bind _ _ _ _ (x, t)); [|apply good_acts]. destruct (is_good x); [|apply acts_ret].
  apply acts_try. eapply acts_bind; [apply acts_get|]. cbn [fst]. rewrite Ht.
  eapply acts_bind; [apply acts_ret|]. eapply acts_bind; [apply acts_get|]. apply acts_ret.
Qed.
(** The shorter sentry does nothing. *)
Lemma sentry_fast fuel x t : acts (is_sentry_fast fuel i) (x, t) true (x, t).
Proof.
  eapply acts_bind; [apply (acts_get (λ x, Z.land (i_flags x) fl_fmtmask))|]. cbn [fst].
  assert (H : flag_set (Z.land (i_flags x) fl_fmtmask) (Z.lor fl_os_good fl_os_tie) = false).
  { unfold flag_set. rewrite <-Z.land_assoc. change (Z.land fl_fmtmask (Z.lor fl_os_good fl_os_tie)) with 0%Z. by rewrite Z.land_0_r. }
  rewrite H. apply acts_ret.
Qed.

Lemma guarded_acts {A} x t (dflt : A) body other a v :
  (is_good x = true → acts body (x, t) a v) → (is_good x = false → acts other (x, t) a v) →
  acts (guarded (is_good x) i dflt body other) (x, t) a v.
Proof. intros H1 H2. unfold guarded. destruct (is_good x); [by apply acts_try, H1|by apply H2]. Qed.
Lemma fail_acts {A} (a : A) x t : quiet x → acts (fail_with a i) (x, t) a (add_state failbit x, t).
Proof. intros [He _]. eapply acts_bind; [by apply acts_state|apply acts_ret]. Qed.
End acts.
Arguments acts m0 mode i b {A} m v a v'.
