(* ===== verification/StreamOps.v ===== *)
(** * The operations of an input stream on texts

    Every function of an input stream takes the text of its string buffer the way
    [in_step] says, sequences of operations follow it, and where the functions do
    not do what they are meant to do. *)
From S2P Require Import Prelude LocaleCache NumPut NumGet StreamBuf StringBuf StringText StreamIter Ios StreamRun OStream IStream StreamText.

(** ** The characters in front of a delimiter *)
Lemma until_take_length d cs : length (until d cs) ≤ length cs.
Proof. induction cs as [|c cs IH]; cbn; [done|]. case_decide; cbn; lia. Qed.
Lemma until_prefix d cs : take (length (until d cs)) cs = until d cs.
Proof. induction cs as [|c cs IH]; cbn; [done|]. case_decide; cbn; [done|]. by rewrite IH. Qed.
Lemma until_full d cs : length (until d cs) = length cs → until d cs = cs.
Proof. intros E. pose proof (until_prefix d cs) as Hp. by rewrite E, take_ge in Hp by done. Qed.
Lemma until_stop d cs : length (until d cs) < length cs → cs !! length (until d cs) = Some d.
Proof. induction cs as [|c cs IH]; cbn; [lia|]. case_decide; cbn; [intros _; by subst|]. intros Hl. apply IH. lia. Qed.
Lemma until_not d cs : d ∉ until d cs.
Proof. induction cs as [|c cs IH]; cbn; [set_solver|]. case_decide; [set_solver|]. apply not_elem_of_cons. done. Qed.

(** ** Unformatted input *)
Section operations.
Context (m0 : memory) (mode : Z) (i b : nat).
Context (Hin : om_has mode om_in = true).
Implicit Types (x y : ios) (t : text_buf).
Notation acts := (acts m0 mode i b).
Notation rep := (strbuf_rep m0 mode).
Notation rest := (tb_rest mode).

Lemma acts_gcount n x t : acts (set_gcount n i) (x, t) () (i_set_gcount n x, t).
Proof. by apply acts_modify. Qed.
Lemma acts_stored cs x t : acts (set_stored cs i) (x, t) () (i_set_stored cs x, t).
Proof. by apply acts_modify. Qed.
Lemma acts_store cs x t : acts (store cs i) (x, t) () (i_set_stored (i_stored x ++ cs) x, t).
Proof. by apply (acts_modify (λ x, i_set_stored (i_stored x ++ cs) x)). Qed.
Lemma acts_count x t : acts (stored_count i) (x, t) (Z.of_nat (length (i_stored x))) (x, t).
Proof. exact (acts_get (λ x, Z.of_nat (length (i_stored x))) (x, t)). Qed.

(** Taking a character or noting the end. *)
Lemma take_char x t : quiet x →
  acts (rc ← on_rdbuf sbumpc i;
        match rc with
        | None => _ ← ios_setstate (Z.lor failbit eofbit) i; _ ← set_gcount 0 i; mret None
        | Some c => _ ← set_gcount 1 i; mret (Some c)
        end) (x, t)
    (head (rest t))
    match rest t with [] => (i_set_gcount 0 (add_state (Z.lor failbit eofbit) x), t) | _ => (i_set_gcount 1 x, tb_read 1 t) end.
Proof.
  intros [He _]. eapply acts_bind; [apply acts_sbumpc|]. destruct (rest t) as [|c cs]; cbn [head].
  - eapply acts_bind; [by apply acts_state|]. eapply acts_bind; [apply acts_gcount|apply acts_ret].
  - eapply acts_bind; [apply acts_gcount|apply acts_ret].
Qed.

Lemma get_acts fuel x t : quiet x → i_sbuf x = Some b →
  acts (is_get fuel i) (x, t) (head (rest t)) ((in_get mode x t).1.2, (in_get mode x t).2).
Proof.
  intros Hq Hb. unfold is_get. eapply acts_bind; [apply acts_gcount|]. eapply acts_bind; [apply acts_get|].
  cbn [fst i_sbuf i_set_gcount]. rewrite Hb. eapply acts_bind; [apply acts_get|].
  eapply acts_bind.
  { apply (acts_ptr _ _ t (bool_decide (rest t = [])) t). intros s (c & a & Hat). exists s. split; [|by exists c, a].
    cbn. do 2 f_equal. apply bool_decide_ext. symmetry. by eapply rest_nil. }
  unfold in_get. destruct (flag_set _ fl_is_check || bool_decide (rest t = [])) eqn:Hslow.
  - unfold is_get_slow. eapply acts_bind; [apply sentry_fast|]. cbn [guarded].
    apply acts_try. pose proof (take_char (i_set_gcount 1 x) t ltac:(by destruct Hq)) as H.
    destruct (rest t); exact H.
  - apply orb_false_iff in Hslow as [_ Hne]. apply bool_decide_eq_false in Hne. destruct (rest t) as [|c cs] eqn:Hr; [done|].
    apply acts_ptr. intros s (c' & a & Hat).
    destruct (rest_cons m0 mode c' a s t c cs Hat Hr) as (_ & Hgc & _ & Hlt & Hc & _).
    destruct (sa_gbump m0 mode c' a s t 1 (tb_r t + 1) Hat Hin ltac:(lia) ltac:(lia)) as (s' & Hb' & _ & _ & _ & Hat').
    exists s'. rewrite Hgc, (sa_load m0 mode c' a s t _ c Hat Hc). cbn [or_ub mbind outcome_bind].
    rewrite Hb'. split; [done|]. by exists c', a.
Qed.
Lemma get_char_acts fuel x t : quiet x →
  acts (is_get_char fuel i) (x, t) (if is_good x then head (rest t) else None) ((in_get_char mode x t).1.2, (in_get_char mode x t).2).
Proof.
  intros Hq. eapply acts_bind; [by apply sentry_noskip|]. apply guarded_acts; intros Hg; unfold in_get_char; rewrite Hg.
  - pose proof (take_char x t Hq) as H. destruct (rest t); exact H.
  - by apply fail_acts.
Qed.

Lemma rest_all t : rest (tb_read (length (rest t)) t) = [].
Proof. by rewrite tb_rest_read, drop_all. Qed.

Lemma area_cons t n : (0 < n)%Z → rest t ≠ [] →
  ∃ c cs, first_n n (rest t) = c :: cs ∧ length (c :: cs) = Z.to_nat n `min` length (rest t).
Proof.
  intros Hn Hne. rewrite <-first_n_length. destruct (first_n _ _) as [|c cs] eqn:E; [|by exists c, cs].
  apply (f_equal length) in E. rewrite first_n_length in E. destruct (rest t); [done|]. cbn [length] in E. lia.
Qed.
(** The loop of [get] for a text which is not empty. *)
Lemma getn_loop_acts fuel d n x t : 2 < fuel → (0 < n)%Z → quiet x → i_stored x = [] → rest t ≠ [] →
  let l := until d (first_n n (rest t)) in
  let y := i_set_stored l x in
  acts (getn_loop fuel d n i) (x, t) ()
    (if decide (Z.of_nat (length l) = n)%Z then y else if decide (length l = length (rest t)) then add_state eofbit y
     else if decide (l = []) then add_state failbit y else y, tb_read (length l) t).
Proof.
  intros Hf Hn [He Ht] Hst Hne. cbv zeta. destruct fuel as [|[|[|fuel]]]; [lia..|]. cbn [getn_loop].
  rewrite decide_False by lia. eapply acts_bind; [by apply acts_area|].
  destruct (area_cons t n Hn Hne) as (c & cs' & Ecs & Hcs). rewrite Ecs. set (cs := c :: cs') in *. cbv zeta.
  set (l := until d cs). set (y := i_set_stored l x). pose proof (until_take_length d cs) as Hl. fold l in Hl.
  eapply acts_bind; [apply (acts_commit x t _ (length l)); [done|done|lia]|].
  eapply acts_bind; [apply acts_store|]. rewrite Hst. cbn [app].
  assert (Hin' : i_stored (i_set_stored l x) = l) by done.
  destruct (decide (length l < length cs)) as [Hlt|Hge].
  - eapply acts_bind; [apply acts_count|]. rewrite Hin', decide_False, decide_False by lia.
    destruct (decide (l = [])) as [E|E].
    + rewrite E. cbn [length]. rewrite bool_decide_true by done. cbn [io_when]. unfold y. rewrite E. by apply acts_state.
    + rewrite bool_decide_false by (destruct l; [done|cbn; lia]). apply acts_ret.
  - eapply acts_bind; [apply acts_underflow|]. destruct (decide (n - Z.of_nat (length l) = 0)%Z) as [Hz|Hz].
    + rewrite (decide_True (P := (Z.of_nat (length l) = n)%Z)) by lia. apply acts_ret.
    + rewrite (decide_False (P := (Z.of_nat (length l) = n)%Z)), (decide_True (P := length l = length (rest t))) by lia.
      assert (Hr0 : rest (tb_read (length l) t) = []) by (rewrite tb_rest_read, drop_ge by lia; done).
      eapply acts_bind; [apply acts_area; lia|]. rewrite Hr0. unfold first_n at 1. rewrite take_nil.
      eapply acts_bind; [apply acts_underflow|]. rewrite Hr0. cbn [head]. by apply acts_state.
Qed.
Lemma getn_acts fuel n d x t : 2 < fuel → (1 ≤ n)%Z → quiet x → acts (is_getn fuel n d i) (x, t) () (in_getn mode n d x t).
Proof.
  intros Hf Hn Hq. eapply acts_bind; [by apply sentry_noskip|]. pose proof Hq as [He Ht].
  apply guarded_acts; intros Hg; unfold in_getn; rewrite Hg; [|by apply fail_acts].
  eapply acts_bind; [apply acts_stored|]. rewrite decide_False by lia. cbv zeta.
  set (x0 := i_set_stored [] x). assert (Hq0 : quiet x0) by done.
  assert (Hfin : ∀ y t', acts (k ← stored_count i; set_gcount k i) (y, t') () (i_set_gcount (Z.of_nat (length (i_stored y))) y, t')).
  { intros y t'. eapply acts_bind; [apply acts_count|]. apply acts_gcount. }
  destruct (decide (n = 1%Z)) as [->|Hn1].
  { eapply acts_dtor; [by apply acts_state|]. apply (Hfin (add_state failbit x0)). }
  destruct (rest t) as [|c cs] eqn:Hr.
  { eapply acts_dtor; [eapply acts_bind; [apply acts_sgetc|]; rewrite Hr; by apply acts_state|].
    apply (Hfin (add_state (Z.lor failbit eofbit) x0)). }
  rewrite <-Hr. assert (Hne : rest t ≠ []) by (by rewrite Hr).
  eapply acts_dtor.
  { eapply acts_bind; [apply acts_sgetc|]. rewrite Hr at 1. cbn [head].
    apply (getn_loop_acts fuel d (n - 1) x0 t Hf ltac:(lia) Hq0 eq_refl Hne). }
  set (l := until d _). match goal with |- context [(i_set_gcount _ ?z, _)] => set (y := z) end.
  assert (i_stored y = l) as Hy by (unfold y; repeat case_decide; done). 
  pose proof (Hfin y (tb_read (length l) t)) as Hd. rewrite Hy in Hd. exact Hd.
Qed.

Lemma tb_read_0 t : tb_read 0 t = t.
Proof. destruct t as [cs r w]. unfold tb_read. cbn. by rewrite Nat.add_0_r. Qed.
Lemma getline_loop_acts fuel d n x t : 2 < fuel → (0 < n)%Z → quiet x → i_stored x = [] → rest t ≠ [] →
  let cs := first_n n (rest t) in let l := until d cs in let y := i_set_stored l x in
  acts (getline_loop fuel d n i) (x, t) (bool_decide (Z.of_nat (length l) = n))
    (if decide (length l < length cs) then (i_set_gcount 1 y, tb_read (length l + 1) t)
     else (if decide (Z.of_nat (length l) = n) then y else add_state eofbit y, tb_read (length l) t)).
Proof.
  intros Hf Hn [He Ht] Hst Hne. cbv zeta. destruct fuel as [|[|[|fuel]]]; [lia..|]. cbn [getline_loop].
  rewrite decide_False by lia. eapply acts_bind; [by apply acts_area|].
  destruct (area_cons t n Hn Hne) as (c & cs' & Ecs & Hcs). rewrite Ecs. set (cs := c :: cs') in *. cbv zeta.
  set (l := until d cs). set (y := i_set_stored l x). pose proof (until_take_length d cs) as Hl. fold l in Hl.
  eapply acts_bind; [apply acts_store|]. rewrite Hst. cbn [app]. fold y.
  destruct (decide (length l < length cs)) as [Hlt|Hge].
  - eapply acts_bind; [apply (acts_commit y t _ (length l + 1)); [lia|done|lia]|].
    eapply acts_bind; [apply acts_gcount|]. rewrite bool_decide_false by lia. apply acts_ret.
  - eapply acts_bind; [apply (acts_commit y t _ (length l)); [done|done|lia]|].
    eapply acts_bind; [apply acts_underflow|]. destruct (decide (Z.of_nat (length l) = n)) as [Hz|Hz].
    + rewrite (decide_True (P := (n - Z.of_nat (length l) = 0)%Z)) by lia. rewrite bool_decide_true by done. apply acts_ret.
    + rewrite (decide_False (P := (n - Z.of_nat (length l) = 0)%Z)) by lia. rewrite bool_decide_false by done.
      assert (Hr0 : rest (tb_read (length l) t) = []) by (rewrite tb_rest_read, drop_ge by lia; done).
      eapply acts_bind; [apply acts_area; lia|]. rewrite Hr0. unfold first_n at 1. rewrite take_nil.
      eapply acts_bind; [apply acts_sbumpc|]. rewrite Hr0. cbn [head].
      eapply acts_bind; [by apply acts_state|]. apply acts_ret.
Qed.
Lemma until_lookup d n cs : length (until d (first_n n cs)) < length (first_n n cs) →
  cs !! length (until d (first_n n cs)) = Some d.
Proof.
  intros H. apply until_stop in H. rewrite first_n_take in H at 2. rewrite lookup_take in H. by case_decide.
Qed.
Lemma getline_body fuel d n x t : 2 < fuel → (1 < n)%Z → quiet x → i_stored x = [] → rest t ≠ [] →
  let l := until d (first_n (n - 1) (rest t)) in let y := i_set_stored l x in
  acts (full ← getline_loop fuel d (n - 1) i;
        if full : bool then
          c ← on_rdbuf sgetc i;
          if decide (c = Some d) then _ ← on_rdbuf sbumpc i; set_gcount 1 i
          else ios_setstate failbit i
        else mret ()) (x, t) ()
    (if decide (rest t !! length l = Some d) then (i_set_gcount 1 y, tb_read (length l + 1) t)
     else (add_state (if decide (Z.of_nat (length l) = n - 1)%Z then failbit else eofbit) y, tb_read (length l) t)).
Proof.
  intros Hf Hn Hq Hst Hne. cbv zeta. eapply acts_bind; [by apply getline_loop_acts; [|lia|..]|].
  pose proof (until_lookup d (n - 1) (rest t)) as Hup. pose proof (until_take_length d (first_n (n - 1) (rest t))) as Hl.
  pose proof (first_n_length (n - 1) (rest t)) as Hc. pose proof Hq as [He Ht].
  set (l := until d _) in *. set (cs := first_n (n - 1) (rest t)) in *. set (y := i_set_stored l x).
  destruct (decide (length l < length cs)) as [Hlt|Hge].
  { rewrite bool_decide_false by lia. rewrite decide_True by auto. apply acts_ret. }
  destruct (decide (Z.of_nat (length l) = n - 1)%Z) as [Hz|Hz].
  - rewrite bool_decide_true by done. eapply acts_bind; [apply acts_sgetc|].
    assert (Hh : head (rest (tb_read (length l) t)) = rest t !! length l) by (by rewrite tb_rest_read, head_lookup, lookup_drop, Nat.add_0_r).
    rewrite Hh. destruct (decide (rest t !! length l = Some d)) as [Hd|Hd]; [|by apply acts_state].
    eapply acts_bind; [apply acts_sbumpc|]. rewrite Hd in Hh. destruct (rest (tb_read (length l) t)); [done|].
    eapply acts_eq; [apply acts_gcount|]. unfold tb_read. cbn. do 2 f_equal. lia.
  - rewrite bool_decide_false by done. rewrite decide_False by (rewrite lookup_ge_None_2; [done|lia]). apply acts_ret.
Qed.
Lemma getline_acts fuel n d x t : 2 < fuel → (1 ≤ n)%Z → quiet x → acts (is_getline fuel n d i) (x, t) () (in_getline mode n d x t).
Proof.
  intros Hf Hn Hq. eapply acts_bind; [by apply sentry_noskip|]. pose proof Hq as [He Ht].
  apply guarded_acts; intros Hg; unfold in_getline; rewrite Hg; [|by apply fail_acts].
  eapply acts_bind; [apply acts_gcount|]. eapply acts_bind; [apply acts_stored|]. rewrite decide_False by lia. cbv zeta.
  set (x0 := i_set_stored [] (i_set_gcount 0 x)). assert (Hq0 : quiet x0) by done.
  assert (Hfin : ∀ v, acts (k ← stored_count i; ios_modify (λ x, i_set_gcount (i_gcount x + k) x) i) v ()
    (i_set_gcount (i_gcount v.1 + Z.of_nat (length (i_stored v.1))) v.1, v.2)).
  { intros [y t']. eapply acts_bind; [apply acts_count|]. by apply (acts_modify (λ x, i_set_gcount _ x)). }
  destruct (decide (n = 1%Z)) as [->|Hn1].
  { eapply acts_eq; [eapply acts_dtor; [by apply acts_state|apply Hfin]|done]. }
  destruct (rest t) as [|c cs] eqn:Hr.
  { eapply acts_eq; [eapply acts_dtor; [eapply acts_bind; [apply acts_sgetc|]; rewrite Hr; by apply acts_state|apply Hfin]|done]. }
  rewrite <-Hr. assert (Hne : rest t ≠ []) by (by rewrite Hr).
  eapply acts_eq; [eapply acts_dtor; [|apply Hfin]|].
  { eapply acts_bind; [apply acts_sgetc|]. rewrite Hr at 1. by apply getline_body; [|lia|..]. }
  case_decide; cbn [fst snd]; [by rewrite Nat2Z.inj_add, Z.add_comm|].
  rewrite Nat.add_0_r. done.
Qed.

(** *** Ignoring characters *)
Lemma gcount_id x : i_set_gcount (i_gcount x) x = x.
Proof. by destruct x. Qed.
Lemma ignore_acts fuel x t : quiet x → acts (is_ignore fuel i) (x, t) () (in_ignore mode x t).
Proof.
  intros Hq. eapply acts_bind; [by apply sentry_noskip|]. pose proof Hq as [He Ht].
  apply guarded_acts; intros Hg; unfold in_ignore; rewrite Hg; [|apply acts_ret].
  eapply acts_bind; [apply acts_sbumpc|]. destruct (rest t) as [|c cs]; cbn [head]; [|apply acts_gcount].
  eapply acts_bind; [by apply acts_state|]. apply acts_gcount.
Qed.
Lemma ignore_loop_acts fuel n c x t : 2 < fuel → (n ≤ streamsize_max)%Z → (Z.of_nat (length (rest t)) < streamsize_max)%Z →
  quiet x → i_gcount x = 0%Z → rest t ≠ [] →
  acts (ignore_loop fuel n c i) (x, t) ()
    (let cs := first_n n (rest t) in let l := until (to_char_type c) cs in
     if decide (length l < length cs) then (i_set_gcount (Z.of_nat (length l + 1)) x, tb_read (length l + 1) t)
     else let x := i_set_gcount (Z.of_nat (length cs)) x in
          (if decide (Z.of_nat (length cs) < n)%Z then add_state eofbit x else x, tb_read (length cs) t)).
Proof.
  intros Hf Hn Hmax [He Ht] Hg Hne. destruct fuel as [|[|[|fuel]]]; [lia..|]. cbn [ignore_loop]. cbv zeta.
  eapply acts_bind; [apply acts_get|]. cbn [fst]. rewrite Hg. pose proof (first_n_length n (rest t)) as Hc.
  destruct (decide (0 < n)%Z) as [Hpos|Hpos].
  - destruct (area_cons t n Hpos Hne) as (c' & cs' & Ecs & _). rewrite decide_True by auto.
    eapply acts_bind; [apply acts_avail|]. assert (0 < length (rest t)) by (destruct (rest t); [done|cbn; lia]).
    rewrite decide_False by lia.
    assert (Hk : (if decide (n - 0 < Z.of_nat (length (rest t)))%Z then (n - 0)%Z else Z.of_nat (length (rest t))) =
                 Z.of_nat (length (first_n n (rest t)))) by (case_decide; lia). rewrite Hk.
    eapply acts_bind; [apply acts_peek_n; [lia|done]|].
    assert (Hcs : take (length (first_n n (rest t))) (rest t) = first_n n (rest t)) by (rewrite Hc, <-take_take, firstn_all; by rewrite first_n_take).
    rewrite Hcs. set (cs := first_n n (rest t)) in *. set (l := until (to_char_type c) cs). pose proof (until_take_length (to_char_type c) cs) as Hl.
    fold l in Hl. destruct (decide (length l < length cs)) as [Hlt|Hge].
    + eapply acts_bind; [apply acts_gcount|]. eapply acts_eq; [apply (acts_commit _ t _ (length l + 1)); [lia|done|lia]|].
      by rewrite Nat2Z.inj_add.
    + eapply acts_bind; [apply acts_gcount|]. eapply acts_bind; [apply (acts_commit _ t _ (length cs)); [done|done|lia]|].
      eapply acts_bind; [apply acts_get|]. cbn [fst i_gcount i_set_gcount].
      destruct (decide (Z.of_nat (length cs) < n)%Z) as [Hlt|Hn'].
      * rewrite decide_True by lia. assert (Hr0 : rest (tb_read (length cs) t) = []) by (rewrite tb_rest_read, drop_ge by lia; done).
        eapply acts_bind; [apply acts_avail|]. rewrite Hr0, decide_True by done.
        eapply acts_bind; [apply acts_sbumpc|]. rewrite Hr0. cbn [head]. by apply acts_state.
      * rewrite decide_False by lia. apply acts_ret.
  - rewrite decide_False by lia. assert (Hcs : first_n n (rest t) = []) by (apply nil_length_inv; lia). rewrite Hcs. cbn [until length].
    rewrite decide_False, decide_False by lia. rewrite tb_read_0. eapply acts_eq; [apply acts_ret|].
    change (Z.of_nat 0) with 0%Z. by rewrite <-Hg, gcount_id.
Qed.
Lemma ignore_n_acts fuel n c x t : 2 < fuel → (n ≤ streamsize_max)%Z → (Z.of_nat (length (rest t)) < streamsize_max)%Z → quiet x →
  acts (is_ignore_n fuel n c i) (x, t) () (in_ignore_n mode n c x t).
Proof.
  intros Hf Hn Hmax Hq. eapply acts_bind; [by apply sentry_noskip|]. pose proof Hq as [He Ht].
  apply guarded_acts; intros Hg; unfold in_ignore_n; rewrite Hg; [|apply acts_ret].
  eapply acts_bind; [apply acts_gcount|]. eapply acts_bind; [apply acts_sgetc|]. destruct (rest t) as [|c' cs] eqn:Hr; cbn [head].
  - by apply acts_state.
  - rewrite <-Hr in *. by apply ignore_loop_acts; [..|by rewrite Hr].
Qed.

(** *** Blocks *)
Lemma peek_acts fuel x t : quiet x → acts (is_peek fuel i) (x, t) (if is_good x then head (rest t) else None) (i_set_gcount 0 x, t).
Proof.
  intros Hq. apply acts_try. eapply acts_bind; [apply acts_gcount|]. eapply acts_bind; [apply sentry_noskip; by destruct Hq|].
  change (is_good (i_set_gcount 0 x)) with (is_good x). destruct (is_good x); [apply acts_sgetc|apply acts_ret].
Qed.
Lemma acts_sgetn n x t : acts (on_rdbuf (xsgetn n) i) (x, t) (first_n n (rest t)) (x, tb_read (length (first_n n (rest t))) t).
Proof. rewrite first_n_take. apply acts_rdbuf. intros s Hs. exact (sgetn_spec m0 mode n s t Hs). Qed.
Lemma read_acts fuel n x t : quiet x → acts (is_read fuel n i) (x, t) () (in_read mode n x t).
Proof.
  intros Hq. eapply acts_bind; [by apply sentry_noskip|]. pose proof Hq as [He Ht].
  apply guarded_acts; intros Hg; unfold in_read; rewrite Hg.
  - eapply acts_bind; [apply acts_sgetn|]. eapply acts_bind; [apply acts_stored|]. eapply acts_bind; [apply acts_gcount|].
    case_decide; [rewrite bool_decide_true by done; by apply acts_state|rewrite bool_decide_false by done; apply acts_ret].
  - eapply acts_bind; [apply acts_gcount|]. by apply acts_state.
Qed.
Lemma readsome_acts fuel n x t : quiet x → acts (is_readsome fuel n i) (x, t) (i_gcount (in_readsome mode n x t).1) (in_readsome mode n x t).
Proof.
  intros Hq. eapply acts_bind; [by apply sentry_noskip|]. pose proof Hq as [He Ht].
  apply (acts_bind _ _ _ () (in_readsome mode n x t)); [|destruct (in_readsome mode n x t); apply acts_get].
  apply guarded_acts; intros Hg; unfold in_readsome; rewrite Hg.
  - eapply acts_bind; [apply acts_rdbuf; intros s Hs; exists s; split; [by apply (in_avail_spec m0 mode s t)|done]|].
    rewrite decide_False by lia. destruct (rest t) as [|c cs] eqn:Hr; [apply acts_gcount|]. rewrite <-Hr.
    rewrite decide_False by (rewrite Hr; cbn; lia).
    eapply acts_bind; [apply acts_sgetn|].
    assert (Hn : first_n (if decide (Z.of_nat (length (rest t)) < n)%Z then Z.of_nat (length (rest t)) else n) (rest t) = first_n n (rest t)).
    { case_decide; [|done]. unfold first_n. by rewrite !Z.min_r by lia. }
    rewrite Hn. eapply acts_bind; [apply acts_stored|]. apply acts_gcount.
  - eapply acts_bind; [apply acts_gcount|]. by apply acts_state.
Qed.
Lemma back_acts f r fuel x t : (∀ s, rep s t → computes m0 mode (f s) r) → quiet x →
  acts (back_with f fuel i) (x, t) () (in_back r x t).
Proof.
  intros Hf Hq. eapply acts_bind; [by apply sentry_noskip|]. pose proof Hq as [He Ht].
  apply guarded_acts; intros Hg; unfold in_back; rewrite Hg; [|by apply fail_acts].
  eapply acts_bind; [apply acts_rdbuf; intros s Hs; rewrite (surjective_pairing r) in Hf; by apply Hf|].
  case_decide; [rewrite bool_decide_true by done; by apply acts_state|rewrite bool_decide_false by done; apply acts_ret].
Qed.

(** ** Characters and words *)
Lemma prefix_lt p cs fuel : length cs < fuel → prefix_count p cs < fuel.
Proof. pose proof (prefix_count_le p cs). lia. Qed.
Lemma ws_acts fuel x t : quiet x → length (rest t) < fuel → acts (is_ws fuel i) (x, t) () (in_ws mode x t).
Proof.
  intros [He Ht] Hf. eapply acts_bind; [apply skip_ws_acts, prefix_lt; lia|]. unfold in_ws. destruct (rest (in_skip mode x t)) eqn:Hr.
  - rewrite bool_decide_true by done. by apply acts_state.
  - rewrite bool_decide_false by done. apply acts_ret.
Qed.
Lemma sentry_quiet x t : quiet x → quiet (in_sentry mode x t).1 ∧ length (rest (in_sentry mode x t).2) ≤ length (rest t).
Proof.
  intros [He Ht]. unfold in_sentry, in_skip. repeat case_match; cbn [fst snd]; rewrite ?tb_rest_read, ?length_drop; (split; [done|]); try lia.
Qed.
Lemma char_acts fuel x t : quiet x → length (rest t) < fuel →
  acts (is_char fuel i) (x, t) (match (in_char mode x t).1.1 with InChar c => c | _ => None end) ((in_char mode x t).1.2, (in_char mode x t).2).
Proof.
  intros Hq Hf. eapply acts_bind; [apply sentry_acts; [done|by apply prefix_lt]|]. destruct (sentry_quiet x t Hq) as [Hq' _].
  unfold in_char. destruct (in_sentry mode x t) as [y t']. cbn [fst snd] in *. pose proof Hq' as [He Ht].
  apply guarded_acts; intros Hg; rewrite Hg; [|by apply fail_acts].
  eapply acts_bind; [apply acts_sbumpc|]. destruct (rest t') as [|c cs]; cbn [head].
  - eapply acts_bind; [by apply acts_state|]. apply acts_ret.
  - apply acts_ret.
Qed.
Lemma stored_nil x : i_set_stored (i_stored x ++ []) x = x.
Proof. rewrite app_nil_r. by destruct x. Qed.
Lemma word_loop_acts fuel space n x t : length (rest t) < fuel →
  let k := prefix_count (λ c, negb (space c) && negb (bool_decide (c = 0%Z))) (first_n n (rest t)) in
  acts (word_loop fuel space n (head (rest t)) i) (x, t) (head (rest (tb_read k t)))
    (i_set_stored (i_stored x ++ take k (rest t)) x, tb_read k t).
Proof.
  cbv zeta. revert n x t. induction fuel as [|fuel IH]; intros n x t Hf; [lia|]. rewrite first_n_take.
  assert (Hstop : acts (mret (head (rest t))) (x, t) (head (rest (tb_read 0 t))) (i_set_stored (i_stored x ++ take 0 (rest t)) x, tb_read 0 t)).
  { rewrite tb_read_0. cbn [take]. rewrite stored_nil. apply acts_ret. }
  destruct (rest t) as [|c cs] eqn:Hr; cbn [head word_loop]; [by rewrite take_nil|].
  case_decide as Hn; [by rewrite Z2Nat.nonpos|]. destruct (Z.to_nat n) as [|m] eqn:Em; [lia|]. cbn [take prefix_count].
  destruct (space c); [done|]. cbn [negb andb]. case_decide as Hz; [by rewrite bool_decide_true|].
  rewrite bool_decide_false by done. cbn [negb].
  eapply acts_bind; [apply acts_store|]. eapply acts_bind; [apply acts_snextc|]. rewrite Hr. cbn [tail].
  assert (Hr1 : rest (tb_read 1 t) = cs) by (by rewrite tb_rest_read, Hr).
  specialize (IH (n - 1)%Z (i_set_stored (i_stored x ++ [c]) x) (tb_read 1 t)). rewrite Hr1, first_n_take in IH.
  replace (Z.to_nat (n - 1)) with m in IH by lia. set (k := prefix_count _ (take m cs)) in *.
  assert (Hk : tb_read k (tb_read 1 t) = tb_read (S k) t) by (unfold tb_read; cbn; f_equal; lia).
  rewrite Hk in IH. cbn [take]. eapply acts_eq; [apply IH; cbn [length] in Hf; lia|].
  cbn [i_stored i_set_stored]. rewrite <-app_assoc. done.
Qed.
Lemma width_acts n x t : acts (ios_width n i) (x, t) (i_width x) (i_set_width n x, t).
Proof.
  apply acts_steps; [|done]. eapply steps_bind; [apply steps_get|]. eapply steps_bind; [apply steps_modify|apply steps_ret].
Qed.
Lemma word_acts fuel x t : quiet x → length (rest t) < fuel → acts (is_word fuel i) (x, t) () (in_word mode x t).
Proof.
  intros Hq Hf. eapply acts_bind; [apply sentry_acts; [done|by apply prefix_lt]|]. destruct (sentry_quiet x t Hq) as [Hq' Hlen].
  unfold in_word. destruct (in_sentry mode x t) as [y t']. cbn [fst snd] in *. pose proof Hq' as [He Ht].
  apply guarded_acts; intros Hg; rewrite Hg; [|eapply acts_bind; [by apply acts_state|]; apply acts_stored].
  eapply acts_bind; [apply acts_get|]. eapply acts_bind; [apply acts_stored|]. eapply acts_bind; [apply acts_get|].
  cbn [fst i_loc i_set_stored]. eapply acts_bind; [apply acts_sgetc|]. eapply acts_bind; [apply word_loop_acts; lia|].
  set (n := if decide (0 < i_width y)%Z then _ else _). cbn [i_stored i_set_stored app].
  set (k := prefix_count _ (first_n n (rest t'))). set (l := take k (rest t')).
  assert (Hk : k ≤ length (rest t')).
  { etrans; [apply prefix_count_le|]. rewrite first_n_length. lia. }
  assert (Hl : length l = k) by (unfold l; rewrite length_take; lia). rewrite Hl.
  eapply acts_bind; [apply width_acts|].
  cbv zeta. set (z := i_set_width 0 (i_set_stored l y)).
  set (z' := if decide (k = length (rest t')) then add_state eofbit z else z).
  eapply acts_bind.
  { apply (acts_eq _ _ _ (z', tb_read k t')); [|done]. unfold z'. rewrite tb_rest_read.
    destruct (decide (k = length (rest t'))) as [E|E].
    - rewrite drop_ge by lia. by apply acts_state.
    - rewrite bool_decide_false; [apply acts_ret|]. rewrite head_lookup, lookup_drop. apply not_eq_None_Some, lookup_lt_is_Some. lia. }
  eapply acts_bind; [apply acts_count|].
  assert (Hz : i_stored z' = l) by (unfold z'; by case_decide). rewrite Hz.
  case_decide as El.
  - rewrite El, bool_decide_true by done. apply acts_state. unfold z'. by case_decide.
  - rewrite bool_decide_false; [apply acts_ret|]. destruct l; [done|cbn; lia].
Qed.

(** *** Positions *)
Lemma failed_acts x t : acts (ios_fail i) (x, t) (is_failed x) (x, t).
Proof. exact (acts_get is_failed (x, t)). Qed.
Lemma seek_acts off dir x t : off_negates off = true →
  acts (on_rdbuf (v_seekoff off dir om_in) i) (x, t) (in_seek mode off dir t).1 (x, (in_seek mode off dir t).2).
Proof.
  intros Hoff. apply acts_rdbuf. intros s Hs. pose proof (seekoff_spec m0 mode s t off dir om_in Hs (or_introl Hin)) as H.
  unfold in_seek. destruct (tb_seekoff mode off dir om_in t) as [[n t']|] eqn:E; [exact H|]. exfalso.
  unfold tb_seekoff, tb_target in E. rewrite Hin, Hoff in E. by destruct dir.
Qed.
Lemma sync_acts x t : i_sbuf x = Some b → acts (is_sync i) (x, t) 0%Z (x, t).
Proof.
  intros Hb. eapply acts_bind; [apply acts_get|]. cbn [fst]. rewrite Hb.
  eapply acts_bind; [apply (acts_ptr v_sync x t 0%Z t); intros s Hs; by exists s|]. apply acts_ret.
Qed.
Lemma tellg_acts x t :
  acts (is_tellg i) (x, t) (if is_failed x then (-1)%Z else (in_seek mode 0 seek_cur t).1)
    (x, if is_failed x then t else (in_seek mode 0 seek_cur t).2).
Proof. eapply acts_bind; [apply failed_acts|]. destruct (is_failed x); [apply acts_ret|by apply seek_acts]. Qed.
Lemma seekg_acts pos x t : acts (is_seekg pos i) (x, t) () (in_seekg mode pos x t).
Proof.
  eapply acts_bind; [apply failed_acts|]. unfold in_seekg. destruct (is_failed x); [apply acts_ret|].
  eapply acts_bind; [|apply acts_ret]. apply (acts_rdbuf _ _ _ (tb_seekpos mode pos om_in t).1). intros s Hs.
  rewrite <-surjective_pairing. apply (seekpos_spec m0 mode s t pos om_in Hs). by left.
Qed.
Lemma seekg_off_acts off dir x t : off_negates off = true → acts (is_seekg_off off dir i) (x, t) () (in_seekg_off mode off dir x t).
Proof.
  intros Hoff. eapply acts_bind; [apply failed_acts|]. unfold in_seekg_off. destruct (is_failed x); [apply acts_ret|].
  eapply acts_bind; [by apply seek_acts|apply acts_ret].
Qed.
End operations.

(** ** Sequences of operations *)
Definition in_op_ok (op : in_op) : Prop :=
  match op with RGetn n _ | RGetline n _ => (1 ≤ n)%Z | RIgnoreN n _ => (n ≤ streamsize_max)%Z
  | RSeekgOff off _ => off_negates off = true | _ => True end.
#[export] Instance in_op_ok_dec op : Decision (in_op_ok op).
Proof. destruct op; apply _. Defined.

Fixpoint run_in_ops {D} `{!SbufVirtuals D, !SbufPositions D} (fuel : nat) (ops : list in_op) (i : nat) : io (iosys D) (list in_res) :=
  match ops with
  | [] => mret []
  | op :: ops => r ← run_in_op fuel op i; rs ← run_in_ops fuel ops i; mret (r :: rs)
  end.
Fixpoint in_steps (mode : Z) (ops : list in_op) (x : ios) (t : text_buf) : list in_res * ios * text_buf :=
  match ops with
  | [] => ([], x, t)
  | op :: ops =>
      let '(r, x, t) := in_step mode op x t in let '(rs, x, t) := in_steps mode ops x t in (r :: rs, x, t)
  end.

Section steps.
Context (m0 : memory) (mode : Z) (i b : nat).
Context (Hin : om_has mode om_in = true).
Implicit Types (x y : ios) (t : text_buf).
Notation acts := (acts m0 mode i b).

Lemma rest_le t : length (tb_rest mode t) ≤ length (tb_text t).
Proof. unfold tb_rest. destruct (om_has mode om_in); [rewrite length_drop|cbn]; lia. Qed.
Lemma unit_acts (m : io (iosys stringbuf) ()) v r : acts m v () r → acts (_ ← m; mret InUnit) v InUnit (r.1, r.2).
Proof. intros H. eapply acts_bind; [exact H|]. destruct r. apply acts_ret. Qed.
Lemma step_acts fuel op x t : quiet x → i_sbuf x = Some b → in_op_ok op → length (tb_text t) + 2 < fuel →
  (Z.of_nat (length (tb_text t)) < streamsize_max)%Z →
  acts (run_in_op fuel op i) (x, t) (in_step mode op x t).1.1 ((in_step mode op x t).1.2, (in_step mode op x t).2).
Proof.
  intros Hq Hb Hok Hf Hmax. pose proof (rest_le t). destruct op; cbn [run_in_op in_step in_op_ok fst snd] in *.
  - eapply acts_bind; [by apply get_acts|]. unfold in_get. destruct (tb_rest mode t); apply acts_ret.
  - eapply acts_bind; [by apply get_char_acts|]. unfold in_get_char. destruct (is_good x), (tb_rest mode t); apply acts_ret.
  - apply unit_acts, getn_acts; [lia..|done].
  - apply unit_acts, getline_acts; [lia..|done].
  - by apply unit_acts, ignore_acts.
  - apply unit_acts, ignore_n_acts; [lia..|done].
  - eapply acts_bind; [by apply peek_acts|]. unfold in_peek, tb_getc. apply acts_ret.
  - by apply unit_acts, read_acts.
  - eapply acts_bind; [by apply readsome_acts|]. destruct (in_readsome mode n x t). apply acts_ret.
  - apply unit_acts, back_acts; [|done]. intros s Hs. by apply sputbackc_spec.
  - apply unit_acts, back_acts; [|done]. intros s Hs. by apply sungetc_spec.
  - apply unit_acts, ws_acts; [done|lia].
  - eapply acts_bind; [apply char_acts; [done|lia]|].
    unfold in_char. destruct (in_sentry mode x t) as [y t']. destruct (is_good y), (tb_rest mode t'); apply acts_ret.
  - apply unit_acts, word_acts; [done|lia].
  - eapply acts_bind; [|apply acts_ret]. by apply acts_steps; [apply steps_field|].
  - eapply acts_bind; [by apply sync_acts|apply acts_ret].
  - eapply acts_bind; [by apply tellg_acts|]. unfold in_tellg. destruct (is_failed x); apply acts_ret.
  - by apply unit_acts, seekg_acts.
  - by apply unit_acts, seekg_off_acts.
Qed.
(** Nothing takes the buffer, the exceptions or the length of the text. *)
Definition stream_kept x t x' t' : Prop :=
  i_exceptions x' = i_exceptions x ∧ i_tie x' = i_tie x ∧ i_sbuf x' = i_sbuf x ∧ length (tb_text t') = length (tb_text t).
Lemma sentry_kept x t : stream_kept x t (in_sentry mode x t).1 (in_sentry mode x t).2.
Proof. unfold in_sentry. by repeat case_match. Qed.
Lemma in_char_kept x t : stream_kept x t (in_char mode x t).1.2 (in_char mode x t).2.
Proof.
  pose proof (sentry_kept x t) as H. unfold in_char. destruct (in_sentry mode x t) as [y t'].
  destruct (is_good y), (tb_rest mode t'); exact H.
Qed.
Lemma in_word_kept x t : stream_kept x t (in_word mode x t).1 (in_word mode x t).2.
Proof.
  pose proof (sentry_kept x t) as H. unfold in_word. destruct (in_sentry mode x t) as [y t'].
  destruct (is_good y); [|exact H]. cbv zeta. repeat case_decide; exact H.
Qed.
Lemma in_back_kept x t r : length (tb_text r.2) = length (tb_text t) → stream_kept x t (in_back r x t).1 (in_back r x t).2.
Proof. intros H. unfold in_back. by repeat case_match. Qed.
Lemma putbackc_length c t : length (tb_text (tb_putbackc mode c t).2) = length (tb_text t).
Proof. unfold tb_putbackc. repeat case_match; try done. cbn. by rewrite length_insert. Qed.
Lemma in_seek_text off dir t : length (tb_text (in_seek mode off dir t).2) = length (tb_text t).
Proof.
  unfold in_seek, tb_seekoff. destruct (tb_target mode off dir om_in t) as [[pos|]|]; cbn [mbind option_bind default]; [|done..].
  by case_match.
Qed.
Lemma step_kept op x t : stream_kept x t (in_step mode op x t).1.2 (in_step mode op x t).2.
Proof.
  destruct op; cbn [in_step fst snd]; try (by apply in_char_kept); try (by apply in_word_kept).
  1-4: unfold in_get, in_get_char, in_getn, in_getline; by repeat case_match.
  1-4: unfold in_ignore, in_ignore_n, in_read; by repeat case_match.
  1: unfold in_readsome; by destruct (is_good x), (tb_rest mode t).
  - apply in_back_kept, putbackc_length.
  - apply in_back_kept. unfold tb_ungetc. by destruct (tb_r t).
  - unfold in_ws. by case_match.
  - done.
  - done.
  - unfold in_tellg. destruct (is_failed x); [done|]. pose proof (in_seek_text 0 seek_cur t) as Hl. by split_and!.
  - unfold in_seekg. cbn [fst snd]. split_and!; [done..|]. destruct (is_failed x); [done|].
    unfold tb_seekpos. by repeat case_match.
  - unfold in_seekg_off. cbn [fst snd]. split_and!; [done..|]. destruct (is_failed x); [done|apply in_seek_text].
Qed.
Lemma steps_acts fuel ops x t : quiet x → i_sbuf x = Some b → Forall in_op_ok ops → length (tb_text t) + 2 < fuel →
  (Z.of_nat (length (tb_text t)) < streamsize_max)%Z →
  acts (run_in_ops fuel ops i) (x, t) (in_steps mode ops x t).1.1 ((in_steps mode ops x t).1.2, (in_steps mode ops x t).2).
Proof.
  revert x t. induction ops as [|op ops IH]; intros x t Hq Hb Hok Hf Hmax; cbn [run_in_ops in_steps]; [apply acts_ret|].
  inversion_clear Hok as [|?? Hop Hops]. eapply acts_bind; [by apply step_acts|]. destruct (step_kept op x t) as (He & Ht & Hs & Hl).
  destruct (in_step mode op x t) as [[r y] t1]. cbn [fst snd] in *. destruct Hq as [Hqe Hqt].
  eapply acts_bind; [apply IH; [split; congruence|congruence|done|lia|lia]|].
  destruct (in_steps mode ops y t1) as [[rs z] t2]. apply acts_ret.
Qed.
End steps.

(** C34: Input from a string stream for reading which is not tied and throws no exceptions
    ([quiet]), whatever its state: for any sequence of the unformatted functions but
    [get] into another buffer - get, getline, ignore, peek, read, readsome, putback,
    unget, sync, tellg, seekg -, of characters, words, white space and widths, the
    results, the stream - its state, count and array - and the position in the text
    are exactly those of the abstract operations [in_step]. The arrays for get and
    getline have room for a character, ignore is not given more than the greatest
    count, and seekg not the least distance. The text has fewer than 2^31
    characters, as [strbuf_rep] says, because gbump takes an int, and the loops end
    within the fuel of its length and three. *)
Theorem istream_text_refinement m0 mode i b (w : iosys stringbuf) x s t fuel ops :
  om_has mode om_in = true → view i b (x, s) w → strbuf_rep m0 mode s t → quiet x → Forall in_op_ok ops →
  length (tb_text t) + 2 < fuel →
  let '(rs, x', t') := in_steps mode ops x t in
  ∃ s', run_in_ops fuel ops i w = IoRet rs (update i b (x', s') w) ∧ strbuf_rep m0 mode s' t' ∧ quiet x' ∧ i_sbuf x' = Some b.
Proof.
  intros Hin Hv Hr Hq Hok Hf. pose proof Hv as (_ & _ & Hb).
  assert (Hmax : (Z.of_nat (length (tb_text t)) < streamsize_max)%Z).
  { destruct Hr as (c & a & Hat). pose proof (sa_small Hat). unfold streamsize_max. lia. }
  pose proof (steps_acts m0 mode i b Hin fuel ops x t Hq Hb Hok Hf Hmax s Hr) as (s' & Hrun & Hr').
  assert (Hk : quiet (in_steps mode ops x t).1.2).
  { clear -Hq. revert x t Hq. induction ops as [|op ops IH]; intros x t Hq; [done|]. cbn [in_steps].
    destruct (step_kept mode op x t) as (He & Ht & _ & _). destruct (in_step mode op x t) as [[r y] t1]. cbn [fst snd] in *.
    destruct Hq. specialize (IH y t1 ltac:(split; congruence)). by destruct (in_steps mode ops y t1) as [[rs z] t2]. }
  destruct (in_steps mode ops x t) as [[rs x'] t']. cbn [fst snd] in *. exists s'.
  destruct (Hrun w Hv) as [Hb' Hw]. done.
Qed.

(** Where input streams go wrong. [get] takes a character although the stream has
    failed, because the sentry tests bits which [flags()] does not have. An int read
    at the end of the text is taken from a variable without a value. Extracting into
    a buffer writes the first character twice. A line which fills the array exactly
    at the end of the text fails instead of noting the end. [ignore] without a
    delimiter stops at the character 255. A stream which is to throw on failbit does
    not throw: the exception is caught where it is thrown. *)
Theorem istream_hazards :
  let src cs := match strbuf_ctor_str ∅ cs om_in with Ret s => s | _ => strbuf_ctor ∅ om_in end in
  let open_ cs := sys_put_stream 0 (new_ios 0) (sys_put_buf 1 (strbuf_ctor ∅ om_out) (sys_put_buf 0 (src cs) empty_sys)) in
  let value {A} (r : io_result (iosys stringbuf) A) := match r with IoRet a _ => Some a | _ => None end in
  let state {A} (r : io_result (iosys stringbuf) A) := match r with IoRet _ w => i_state <$> io_streams w !! 0 | _ => None end in
  let left {A} (r : io_result (iosys stringbuf) A) := match r with IoRet _ w => sb_get_chars <$> io_bufs w !! 0 | _ => None end in
  value ((_ ← ios_setstate failbit 0; is_get 9 0) (open_ (codes "ab"))) = Some (Some 97%Z) ∧
  value ((_ ← ios_setstate failbit 0; is_get_char 9 0) (open_ (codes "ab"))) = Some None ∧
  is_int 64 9 0 (open_ (codes " ")) = IoUB ∧
  match is_streambuf 9 (Some 1) 0 (open_ (codes "ab")) with
  | IoRet _ w => strbuf_str <$> io_bufs w !! 1 = Some (Ret (codes "aab"))
  | _ => False
  end ∧
  state (is_getline 9 4 10 0 (open_ (codes "abc"))) = Some failbit ∧
  state (is_getline 9 5 10 0 (open_ (codes "abc"))) = Some eofbit ∧
  left (is_ignore_n 9 streamsize_max None 0 (open_ [1; 255; 2]%Z)) = Some [2%Z] ∧
  state ((_ ← ios_set_exceptions failbit 0; is_long 64 9 0) (open_ (codes "x"))) = Some (Z.lor failbit badbit).
Proof. split_and!; vm_compute; reflexivity. Qed.

(** ** Witnesses *)
Definition example_in : list in_op :=
  [RPeek; RWord; RGet; RGetline 20 10; RUnget; RGet; RGetn 4 44; RIgnore; RIgnoreN 9 (Some 59%Z); RRead 2; RReadsome 9;
   RTellg; RSeekgOff (-5) seek_end; RChar; RSeekg 3; RSync; RWord; RSeekg 25; RGet; RTellg; RSeekg 0; RWs; RGet].
Lemma istream_text_refinement_witness :
  let t := TextBuf (codes "  one two" ++ [10%Z] ++ codes "foo,bar;bazqux ") 0 0 in
  let s := match strbuf_ctor_str ∅ (tb_text t) om_in with Ret s => s | _ => strbuf_ctor ∅ om_in end in
  let w := sys_put_stream 0 (new_ios 0) (sys_put_buf 0 s empty_sys) in
  (in_steps om_in example_in (new_ios 0) t).1.1 =
    [InChar (Some 32%Z); InUnit; InChar (Some 32%Z); InUnit; InUnit; InChar (Some 10%Z); InUnit; InUnit; InUnit; InUnit; InNum 5;
     InNum 25; InUnit; InChar (Some 122%Z); InUnit; InNum 0; InUnit; InUnit; InChar None; InNum (-1); InUnit; InUnit; InChar None] ∧
  let '(rs, x', t') := in_steps om_in example_in (new_ios 0) t in
  ∃ s', run_in_ops 28 example_in 0 w = IoRet rs (update 0 0 (x', s') w) ∧ strbuf_rep ∅ om_in s' t' ∧ quiet x' ∧ i_sbuf x' = Some 0.
Proof.
  intros t s w. split; [vm_compute; reflexivity|].
  apply (istream_text_refinement ∅ om_in 0 0 w (new_ios 0) s t 28 example_in).
  - done.
  - split; [apply lookup_insert_eq|]. split; [apply lookup_insert_eq|done].
  - unfold s. by destruct (ctor_str_spec ∅ om_in (tb_text t)) as (s1 & -> & Hr).
  - by split.
  - repeat constructor; done.
  - cbn. lia.
Defined.
