(* ===== verification/StreamRoundtrip.v ===== *)
(** * Numbers through a string stream

    Longs which an output stream (OStream) writes into a string buffer, separated
    by white space, are read back from the same stream by an input stream
    (IStream), and reading ends after the last one. *)
From S2P Require Import Prelude LocaleCache NumPut NumGet NumRound StreamBuf StringBuf StringText StreamIter Ios StreamRun OStream IStream StreamText StreamOps.

Section longs.
Context {D : Type} `{!SbufVirtuals D, !SbufPositions D}.
(** [in >> v] for [n] variables. *)
Fixpoint read_longs (lw : Z) (fuel n : nat) (i : nat) : io (iosys D) (list (option Z)) :=
  match n with
  | 0 => mret []
  | S n => v ← is_long lw fuel i; vs ← read_longs lw fuel n i; mret (v :: vs)
  end.
End longs.
(** [out << v << sep] for each number. *)
Definition write_ops (sep : Z) (vs : list Z) : list out_op := concat ((λ v, [WNum (NLong v); WPut sep]) <$> vs).

(** A locale with which numbers can be read, where the separator is white space
    and no digit is. *)
Record reading_locale (l : locale) (sep : Z) : Prop := ReadingLocale {
  rl_cache : cache_for (loc_widen l) (loc_punct l) (loc_cache l);
  rl_nodup : NoDup (scan_chars (loc_widen l) (loc_punct l));
  rl_grouping : np_grouping (loc_punct l) = [];
  rl_sep : loc_space l sep = true;
  rl_end : rest_ok (loc_cache l) 16 [sep];
  rl_digits : ∀ upper j, j < 18 → loc_space l (default 0%Z (put_table (loc_widen l) (loc_punct l) upper !! j)) = false;
}.

(** The numbers which the flags show without loss. *)
Definition number_ok (lw fl v : Z) : Prop :=
  (- 2 ^ (lw - 1) < v < 2 ^ (lw - 1))%Z ∧ ((0 ≤ v)%Z ∨ num_base fl = 10%Z) ∧ (Z.abs v < scan_limit lw (num_base fl))%Z.

Section roundtrip.
Context (m0 : memory) (mode : Z) (i b : nat).
Context (Hin : om_has mode om_in = true) (Hout : om_has mode om_out = true).
Context (lw : Z) (Hlw : (lw = 32 ∨ lw = 64)%Z).
Context (l : locale) (sep : Z) (Hl : reading_locale l sep).
Context (fl : Z) (Hbn : base_named fl) (Hrd : readable (num_base fl) (get_base fl) fl) (Hws : flag_set fl fl_skipws = true).
Implicit Types (x y : ios) (t : text_buf).
Notation rep := (strbuf_rep m0 mode).
Notation rest := (tb_rest mode).
Notation acts := (acts m0 mode i b).
Notation plain v := (plain_text (loc_widen l) (loc_punct l) lw fl (NLong v)).

(** A stream with this locale and these flags. *)
Record reading x : Prop := Reading {
  re_quiet : quiet x; re_good : i_state x = goodbit; re_sbuf : i_sbuf x = Some b; re_loc : i_loc x = l;
  re_flags : Z.land (i_flags x) fl_fmtmask = fl;
}.

(** *** Writing *)
Definition longs_text (vs : list Z) : list Z := concat ((λ v, plain v ++ [sep]) <$> vs).
Lemma write_ops_text vs x : i_width x = 0%Z → i_loc x = l → Z.land (i_flags x) fl_fmtmask = fl →
  out_text lw (write_ops sep vs) x = longs_text vs ∧ out_ios lw (write_ops sep vs) x = x.
Proof.
  intros Hx Hlx Hfx. induction vs as [|v vs [IH1 IH2]]; [done|].
  change (write_ops sep (v :: vs)) with (WNum (NLong v) :: WPut sep :: write_ops sep vs).
  change (longs_text (v :: vs)) with ((plain v ++ [sep]) ++ longs_text vs).
  cbn [out_text out_ios out_step fst snd]. rewrite set_width_id, IH1, IH2 by done. split; [|done].
  unfold stream_num. rewrite Hx, Hlx, Hfx, plain_text_fill, <-app_assoc. done.
Qed.
Lemma write_ops_ok vs x : i_width x = 0%Z → Z.land (i_flags x) fl_fmtmask = fl → Forall (number_ok lw fl) vs →
  out_ops_ok lw (write_ops sep vs) x.
Proof.
  intros Hx Hfx. induction 1 as [|v vs (Hv & _ & _) Hvs IH]; [done|].
  change (write_ops sep (v :: vs)) with (WNum (NLong v) :: WPut sep :: write_ops sep vs).
  cbn [out_ops_ok out_step fst snd]. rewrite set_width_id by done. split; [|done].
  unfold out_op_ok, num_ok. rewrite Hfx. split; [done|]. cbn. lia.
Qed.

(** *** Reading *)
(** A number does not begin with white space. *)
Lemma shown_head base u v ds negative f : (2 ≤ base ≤ 16)%Z → digits_of base u ds →
  ∃ j js, prefix_ref base f v negative ++ shown_digits [] ds = j :: js ∧ j < 18.
Proof.
  intros Hb [_ Hd _].
  assert (Hs : ∃ j js, shown_digits [] ds = j :: js ∧ j < 18).
  { destruct ds as [|d ds']; [exists 0, []; split; [done|lia]|]. cbn [shown_digits grouped_ref].
    assert (Hr : Forall (λ d, (Z.of_nat d < base)%Z) (rev (d :: ds'))) by (by apply Forall_rev).
    destruct (rev (d :: ds')) as [|j js] eqn:E; [apply (f_equal length) in E; by rewrite length_rev in E|].
    exists j, js. apply Forall_cons in Hr as [Hj _]. split; [done|lia]. }
  destruct Hs as (j & js & -> & Hj). unfold prefix_ref, sign_ref, positive_index, negative_index.
  repeat case_match; cbn [app]; eexists _, _; (split; [done|lia]).
Qed.
Lemma plain_head v : ∃ c cs, plain v = c :: cs ∧ loc_space l c = false.
Proof.
  pose proof (num_base_cases fl Hbn) as Hbase. unfold plain_text, num_text. rewrite pad_text_none by lia. cbn [eff_flags].
  rewrite (rl_grouping _ _ Hl). set (w := shown_value lw fl (NLong v)).
  assert (Hw : (0 ≤ w < 2 ^ lw)%Z) by (apply Z.mod_pos_bound, Z.pow_pos_nonneg; lia).
  assert (Hds : digits_of (num_base fl) w (num_ldigits lw (num_base fl) w)) by (apply num_ldigits_of; lia).
  destruct (shown_head (num_base fl) w (num_value (NLong v)) _ (shown_negative fl (NLong v)) fl ltac:(lia) Hds) as (j & js & Hjs & Hj).
  unfold cvt_all. rewrite <-fmap_app, Hjs. eexists _, _. split; [done|].
  exact (rl_digits _ _ Hl (flag_set fl fl_uppercase) j Hj).
Qed.

(** The sentry in front of a number, behind nothing or behind a separator. *)
Lemma sentry_number fuel x t seps c cs : reading x → 1 < fuel → rest t = seps ++ c :: cs → seps = [] ∨ seps = [sep] → loc_space l c = false →
  acts (is_sentry fuel false i) (x, t) true (x, tb_read (length seps) t).
Proof.
  intros [Hq Hg Hb Hlx Hfx] Hf Hr Hs Hc.
  assert (Hp : prefix_count (loc_space (i_loc x)) (rest t) = length seps).
  { rewrite Hlx, Hr. destruct Hs as [->| ->]; cbn; [by rewrite Hc|]. by rewrite (rl_sep _ _ Hl), Hc. }
  pose proof (sentry_acts fuel x t Hq (i := i) (b := b) (m0 := m0) (mode := mode)) as Hsent. rewrite Hp in Hsent.
  specialize (Hsent ltac:(destruct Hs as [->| ->]; cbn; lia)). unfold in_sentry, in_skip in Hsent.
  assert (Hgd : is_good x = true) by (by apply bool_decide_true). rewrite Hgd, Hfx, Hws, Hp, tb_rest_read, Hr, drop_app_length in Hsent.
  cbn [fst] in Hsent. by rewrite Hgd in Hsent.
Qed.
(** Extracting a number. *)
Lemma rest_ok_sep tl : rest_ok (loc_cache l) (num_base fl) (sep :: tl).
Proof.
  pose proof (num_base_cases fl Hbn). intros c r [= <- _]. destruct (rl_end _ _ Hl sep [] eq_refl). split; [lia|done].
Qed.
Lemma num_get_acts fuel x t v tl : reading x → 27 ≤ fuel → number_ok lw fl v → rest t = plain v ++ sep :: tl →
  acts (is_num_get (λ fl loc j, get_signed_integer (loc_cache loc) lw lw fuel fl j) i) (x, t) (Some v, goodbit)
    (x, tb_read (length (plain v)) t).
Proof.
  intros [Hq Hg Hb Hlx Hfx] Hf (Hv & Hv2 & Hlim) Hr. eapply acts_bind; [apply acts_get|]. eapply acts_bind; [apply acts_get|].
  cbn [fst]. rewrite Hlx, Hfx. apply acts_rdbuf. intros s Hs. destruct t as [text r wpos].
  destruct (ib_ctor_spec m0 mode text wpos s r Hs) as (j & -> & Hok & Hc). rewrite Hr in Hc.
  destruct (scan_long (loc_widen l) (loc_punct l) (loc_cache l) lw (rl_cache _ _ Hl) (rl_nodup _ _ Hl) (rl_grouping _ _ Hl) Hlw
    (HI := isbuf_spec m0 mode text wpos) fuel fl fl v (sep :: tl) j Hbn Hv Hv2 Hrd (rest_ok_sep tl) Hok Hc Hf) as (j' & Hget & Hok' & Hc').
  exists (ib_buf j'). cbn [mbind outcome_bind]. rewrite Hget. cbn [mbind outcome_bind]. rewrite decide_True by done. split; [done|].
  assert (Hle : length (plain v) ≤ length (rest (TextBuf text r wpos))) by (rewrite Hr, length_app; lia).
  rewrite rest_some in Hr, Hle by done. cbn [tb_text tb_r] in Hr, Hle. rewrite length_drop in Hle.
  assert (0 < length (plain v)) by (destruct (plain_head v) as (c & cs & -> & _); cbn [length]; lia).
  apply (ib_position m0 mode text wpos (r + length (plain v))); [done| |done|].
  - lia.
  - cbn [in_chars isbuf_spec] in Hc'. by rewrite Hc', <-drop_drop, Hr, drop_app_length.
Qed.
Lemma long_acts fuel x t seps v tl : reading x → 27 ≤ fuel → number_ok lw fl v → seps = [] ∨ seps = [sep] →
  rest t = seps ++ plain v ++ sep :: tl →
  acts (is_long lw fuel i) (x, t) (Some v) (add_state goodbit x, tb_read (length (plain v)) (tb_read (length seps) t)).
Proof.
  intros Hx Hf Hv Hs Hr. destruct (plain_head v) as (c & cs & Hp & Hc). pose proof (re_quiet _ Hx) as [He _].
  eapply acts_bind.
  { apply (sentry_number fuel x t seps c (cs ++ sep :: tl)); [done|lia| |done|done]. by rewrite Hr, Hp. }
  eapply acts_bind.
  { apply acts_try. eapply acts_bind; [|apply acts_ret]. apply (num_get_acts fuel x _ v tl Hx Hf Hv).
    by rewrite tb_rest_read, Hr, drop_app_length. }
  eapply acts_bind; [by apply acts_try, acts_state|]. apply acts_ret.
Qed.
Lemma reading_state x : reading x → reading (add_state goodbit x).
Proof.
  intros [[He Ht] Hg Hb Hlx Hfx]. assert (Hgs : i_state (add_state goodbit x) = goodbit) by (cbn; by rewrite Hb, Hg).
  split; [by split|done|done|done|]. unfold add_state, ios_cleared. cbn [i_flags i_set_flags i_set_state i_sbuf i_state].
  rewrite Hb, Hg, decide_True by done. rewrite <-Z.land_assoc. exact Hfx.
Qed.
(** At the end. *)
Lemma end_acts fuel x t : reading x → 1 < fuel → rest t = [] ∨ rest t = [sep] →
  ∃ y t', acts (is_long lw fuel i) (x, t) None (y, t') ∧ i_state y = Z.lor eofbit failbit ∧ rest t' = [].
Proof.
  intros [Hq Hg Hb Hlx Hfx] Hf Hr. pose proof Hq as [He _]. set (y := add_state (Z.lor eofbit failbit) x).
  exists (add_state failbit y), (in_skip mode x t).
  assert (Hr' : rest (in_skip mode x t) = []).
  { unfold in_skip. rewrite tb_rest_read, Hlx. destruct Hr as [->| ->]; [done|]. cbn. by rewrite (rl_sep _ _ Hl). }
  split; [|split; [|done]].
  - pose proof (sentry_acts fuel x t Hq (i := i) (b := b) (m0 := m0) (mode := mode)) as Hs.
    specialize (Hs ltac:(destruct Hr as [->| ->]; cbn; [lia|case_match; lia])). unfold in_sentry in Hs.
    assert (Hgd : is_good x = true) by (by apply bool_decide_true). rewrite Hgd, Hfx, Hws, Hr' in Hs. fold y in Hs. cbn [fst] in Hs.
    assert (Hyd : is_good y = false) by (apply bool_decide_false; unfold y; cbn; by rewrite Hb, Hg).
    rewrite Hyd in Hs. eapply acts_bind; [exact Hs|]. eapply acts_bind; [apply acts_ret|].
    eapply acts_bind; [by apply acts_try, acts_state|]. apply acts_ret.
  - unfold y. cbn. by rewrite Hb, Hg.
Qed.
(** All numbers, and the end. *)
Lemma longs_acts fuel vs x t seps : reading x → 27 ≤ fuel → Forall (number_ok lw fl) vs → seps = [] ∨ seps = [sep] →
  rest t = seps ++ longs_text vs →
  ∃ y t', acts (read_longs lw fuel (S (length vs)) i) (x, t) ((Some <$> vs) ++ [None]) (y, t') ∧
    i_state y = Z.lor eofbit failbit ∧ rest t' = [].
Proof.
  intros Hx Hf Hvs. revert x t seps Hx. induction Hvs as [|v vs Hv Hvs IH]; intros x t seps Hx Hs Hr.
  - destruct (end_acts fuel x t Hx ltac:(lia)) as (y & t' & Hy & ? & ?).
    { rewrite Hr, app_nil_r. exact Hs. }
    exists y, t'. split; [|done]. eapply acts_bind; [exact Hy|]. eapply acts_bind; apply acts_ret.
  - change (longs_text (v :: vs)) with ((plain v ++ [sep]) ++ longs_text vs) in Hr. rewrite <-app_assoc in Hr.
    destruct (IH (add_state goodbit x) (tb_read (length (plain v)) (tb_read (length seps) t)) [sep]) as (y & t' & Hy & ? & ?);
      [by apply reading_state|by right| |].
    { by rewrite !tb_rest_read, Hr, !drop_app_length. }
    exists y, t'. split; [|done]. eapply acts_bind; [by eapply long_acts|]. eapply acts_bind; [exact Hy|]. apply acts_ret.
Qed.
End roundtrip.

(** C29: Numbers written to a string stream for reading and writing are read back from it: with [out << v
    << sep] for any longs which [number_ok] allows, behind text that has been read
    and however the buffer has to grow as long as an int holds the size of its text,
    extracting again and again gives exactly these numbers, and then nothing: one
    more extraction leaves its variable alone and sets eofbit and failbit, so that a
    loop which reads while the stream is good ends with the last number. The numbers
    are those which the code reads as they are written: not the least long
    (num_get.cc:394); negative only in base 10; and with longs of 32 bits below 10^9
    in base 10 and below 2^30 in base 8, because num_get takes a number of one more
    digit for an overflow (num_get.cc:356) - with 64 bits, and in base 16, none is excluded for
    this. The stream is good and not tied, throws no exceptions, has width 0 and a
    named base which reading finds again ([readable]) and skips white space; its
    locale does not group digits, tells the characters of numbers apart and takes
    [sep] but no digit for white space ([reading_locale]). A fuel of 27, for the characters
    of one number, is enough. *)
Theorem stream_longs_roundtrip m0 mode i b (w : iosys stringbuf) x s t lw l sep fl fuel vs :
  om_has mode om_in = true → om_has mode om_out = true → (lw = 32 ∨ lw = 64)%Z →
  view i b (x, s) w → strbuf_rep m0 mode s t → tb_r t = length (tb_text t) → tb_w t = length (tb_text t) →
  ready x → reading b l fl x → i_width x = 0%Z →
  reading_locale l sep → base_named fl → readable (num_base fl) (get_base fl) fl → flag_set fl fl_skipws = true →
  Forall (number_ok lw fl) vs → tb_fits (longs_text lw l sep fl vs) t → 27 ≤ fuel →
  ∃ y s' t', (_ ← run_out_ops lw (write_ops sep vs) i; read_longs lw fuel (S (length vs)) i) w =
      IoRet ((Some <$> vs) ++ [None]) (update i b (y, s') w) ∧
    i_state y = Z.lor eofbit failbit ∧ strbuf_rep m0 mode s' t' ∧ tb_rest mode t' = [].
Proof.
  intros Hin Hout Hlw Hv Hr Hpr Hpw Hrdy Hx Hw0 Hl Hbn Hrd Hws Hvs Hfit Hf. pose proof Hx as [_ _ Hb Hlx Hfx].
  assert (Hlk : locale_ok (i_loc x)).
  { rewrite Hlx. split; [exact (rl_cache _ _ Hl)|by rewrite (rl_grouping _ _ Hl)]. }
  destruct (write_ops_text lw l sep fl vs x Hw0 Hlx Hfx) as [Htext Hios].
  pose proof (write_ops_ok lw sep fl Hbn vs x Hw0 Hfx Hvs) as Hok.
  destruct (out_ops_spec m0 mode Hout i b lw ltac:(lia) (write_ops sep vs) x Hrdy Hb Hlk Hok) as [Hwr _].
  rewrite Htext in Hwr. destruct (Hwr s t Hr Hfit) as (s1 & H1 & Hr1). rewrite Hios in H1.
  set (t1 := tb_write (longs_text lw l sep fl vs) t) in *.
  assert (Hrest : tb_rest mode t1 = [] ++ longs_text lw l sep fl vs).
  { unfold t1, tb_rest, tb_write. rewrite Hin. cbn [tb_text tb_r]. rewrite Hpr, Hpw, firstn_all, drop_app_length.
    rewrite (drop_ge (tb_text t)) by lia. by rewrite app_nil_r. }
  destruct (longs_acts m0 mode i b Hin lw Hlw l sep Hl fl Hbn Hrd Hws fuel vs x t1 [] Hx Hf Hvs ltac:(by left) Hrest)
    as (y & t' & Hacts & Hy & Ht').
  destruct (Hacts s1 Hr1) as (s2 & H2 & Hr2). exists y, s2, t'. split; [|done].
  assert (Hrun : runs i b (_ ← run_out_ops lw (write_ops sep vs) i; read_longs lw fuel (S (length vs)) i) (x, s)
    (Done ((Some <$> vs) ++ [None])) (y, s2)) by (eapply runs_bind; [exact H1|exact H2]).
  by apply Hrun.
Qed.

(** ** Witness *)
Lemma classic_reading : reading_locale classic_locale 32.
Proof.
  split.
  - apply classic_locale_ok.
  - apply classic_nodup.
  - done.
  - done.
  - intros c r [= <- _]. vm_compute. done.
  - intros upper j Hj. cut (Forall (λ j, loc_space classic_locale (default 0%Z (put_table id classic_numpunct upper !! j)) = false) (seq 0 18)).
    + intros Hall. rewrite Forall_forall in Hall. apply Hall, elem_of_seq. lia.
    + destruct upper; cbn [seq]; repeat (apply Forall_cons; split; [vm_compute; reflexivity|]); by apply Forall_nil.
Qed.
Lemma stream_longs_roundtrip_witness :
  let fl := Z.land (i_flags (new_ios 0)) fl_fmtmask in
  let vs := [0; -1; 12345; 1000000000000000000; -7]%Z in
  ∃ y s' t', (_ ← run_out_ops 64 (write_ops 32 vs) 0; read_longs 64 27 (S (length vs)) 0) (new_sys om_inout) =
      IoRet ((Some <$> vs) ++ [None]) (update 0 0 (y, s') (new_sys om_inout)) ∧
    i_state y = Z.lor eofbit failbit ∧ strbuf_rep ∅ om_inout s' t' ∧ tb_rest om_inout t' = [].
Proof.
  intros fl vs. apply (stream_longs_roundtrip ∅ om_inout 0 0 (new_sys om_inout) (new_ios 0) (strbuf_ctor ∅ om_inout) (TextBuf [] 0 0)
    64 classic_locale 32 fl 27 vs).
  - done.
  - done.
  - by right.
  - apply new_sys_view.
  - apply ctor_spec.
  - done.
  - done.
  - apply new_ios_ready.
  - by split.
  - done.
  - apply classic_reading.
  - vm_compute. apply elem_of_cons. right. apply elem_of_cons. right. apply elem_of_cons. by left.
  - by left.
  - done.
  - unfold vs. repeat (apply Forall_cons; split; [unfold number_ok; split_and!; first [vm_compute; done|by right]|]). by apply Forall_nil.
  - vm_compute. done.
  - lia.
Defined.
