(* ===== verification/FileBuf.v ===== *)
(** * File buffers

    basic_filebuf of cxxrt-source: the file of the operating system
    (src/sysfile.cpp), the conversion of characters (src/ccodecvt.cpp,
    src/wcodecvt.cpp), the converters between the two (srccxx/convert.cc), and the
    stream buffer on top of them (srccxx/cvtbuf.cc, srccxx/filebuf.cc).

    The system calls are the parameter [SysFiles]; what FileText assumes of them is
    stated there. Assertions are enabled: a violated one is [UB]. Characters of
    type char are the codes 0 to 255 of the bytes, char is signed; those of type
    wchar_t are their values. *)
From S2P Require Import Prelude StreamBuf StringBuf Ios.

(** ** System calls

    [sys_open] and [sys_lseek] return -1 upon failure, [sys_write] the number of
    bytes written or -1, [sys_read] the bytes read or [None] for -1; [sys_fstat]
    whether the file is a directory and its block size. *)
Inductive sys_access := acc_rdonly | acc_wronly | acc_rdwr.
Record sys_flags := SysFlags { of_access : sys_access; of_creat : bool; of_trunc : bool; of_append : bool }.
Class SysFiles (W : Type) := {
  sys_open : list Z → sys_flags → W → Z * W;
  sys_close : Z → W → W;
  sys_read : Z → Z → W → option (list Z) * W;
  sys_write : Z → list Z → W → Z * W;
  sys_lseek : Z → Z → seekdir → W → Z * W;
  sys_fstat : Z → W → option (bool * Z);
}.

Definition om_app : Z := 4.
Definition om_ate : Z := 8.
Definition om_trunc : Z := 16.

(** ** The file *)
Record sysfile := Sysfile { sf_mode : Z; sf_fd : Z; sf_bufsiz : Z }.
Definition sysfile_ctor : sysfile := Sysfile 0 (-1) 0.
Definition sf_is_open (f : sysfile) : bool := negb (bool_decide (sf_fd f = -1)%Z).

(** Without in and out the access is 0, which is O_RDONLY. *)
Definition sf_flags (mode : Z) : sys_flags :=
  let '(access, creat) :=
    if om_has mode om_in then (if om_has mode om_out then (acc_rdwr, false) else (acc_rdonly, false))
    else if om_has mode om_out then (acc_wronly, true) else (acc_rdonly, false) in
  SysFlags access (creat || om_has mode om_trunc) (om_has mode om_trunc) (om_has mode om_app).

Section sysfile.
Context {W : Type} `{!SysFiles W}.
Implicit Types (f : sysfile) (w : W).

Definition sf_open (name : list Z) (mode : Z) f w : outcome (bool * sysfile * W) :=
  if sf_is_open f then Ret (false, f, w)
  else
    let '(fd, w) := sys_open name (sf_flags mode) w in
    '(fd, size, w) ← (if decide (fd ≠ -1)%Z then
        let w := if om_has mode om_ate then (sys_lseek fd 0 seek_end w).2 else w in
        '(dir, blksize) ← or_ub (sys_fstat fd w);
        let '(fd, w) := if dir : bool then ((-1)%Z, sys_close fd w) else (fd, w) in
        Ret (fd, (2 * blksize)%Z, w)
      else Ret (fd, sf_bufsiz f, w));
    let f := Sysfile mode fd size in
    Ret (sf_is_open f, f, w).
Definition sf_close f w : bool * sysfile * W :=
  if sf_is_open f then (true, Sysfile (sf_mode f) (-1) (sf_bufsiz f), sys_close (sf_fd f) w) else (true, f, w).
Definition sysfile_dtor f w : W := if decide (sf_fd f ≠ -1)%Z then sys_close (sf_fd f) w else w.

(** The test of the mode is [mode & (in == 0)]. *)
Definition sf_read (n : Z) f w : option (list Z) * W :=
  if decide (Z.land (sf_mode f) (Z.b2z (bool_decide (om_in = 0)%Z)) ≠ 0%Z) then (None, w) else sys_read (sf_fd f) n w.
Definition sf_write (cs : list Z) f w : Z * W :=
  if decide (Z.land (sf_mode f) (Z.b2z (bool_decide (om_out = 0)%Z)) ≠ 0%Z) then ((-1)%Z, w) else sys_write (sf_fd f) cs w.
Definition sf_seek (off : Z) (dir : seekdir) f w : Z * W := sys_lseek (sf_fd f) off dir w.
End sysfile.

(** ** Facets which convert characters

    [cv_in] and [cv_out] take the characters and the room of the destination; they
    return the result, how many characters they have consumed and those stored.
    The shift state is not used by the facets of the library. [cv_id] is the
    identity of the object. *)
Inductive cv_result := cv_ok | cv_partial | cv_error | cv_noconv.
Record codecvt := Codecvt {
  cv_id : Z;
  cv_always_noconv : bool;
  cv_encoding : Z;
  cv_in : list Z → nat → cv_result * nat * list Z;
  cv_out : list Z → nat → cv_result * nat * list Z;
}.

Definition c_convert (cs : list Z) (room : nat) : cv_result * nat * list Z := (cv_noconv, 0, []).
Definition c_codecvt (id : Z) : codecvt := Codecvt id true 1 c_convert c_convert.

Definition cv_clip (cs : list Z) (room : nat) : cv_result * list Z :=
  if decide (room < length cs) then (cv_partial, take room cs) else (cv_ok, cs).
Fixpoint w_narrow (cs : list Z) : list Z :=
  match cs with
  | [] => []
  | c :: cs => if decide (c < 0xff)%Z then wrapu 8 c :: w_narrow cs else []
  end.
Definition w_out (cs : list Z) (room : nat) : cv_result * nat * list Z :=
  let '(rc, cs) := cv_clip cs room in
  let out := w_narrow cs in
  (if decide (length out = length cs) then rc else cv_error, length out, out).
Definition w_in (cs : list Z) (room : nat) : cv_result * nat * list Z :=
  let '(rc, cs) := cv_clip cs room in (rc, length cs, wraps 8 <$> cs).
Definition w_codecvt (id : Z) : codecvt := Codecvt id false 1 w_in w_out.

(** ** The members of a file buffer

    [CvNoconv], which only buffers of char use, holds the array which the converter
    has allocated, [CvUnbuffered] the array of four characters in the converter.
    The facets of the library need one round of the loop in
    [unbuffered_underflow]. [fb_facet] is the facet of the locale of the buffer,
    [fb_sys] the state of the operating system. *)
Inductive converter := CvNoconv (buf : buf_ptr) | CvUnbuffered (cv : codecvt) (encoding : Z) (buf : buf_ptr).
Record filebuf (W : Type) := Filebuf {
  fb_file : sysfile;
  fb_sys : W;
  fb_cvt : option converter;
  fb_buffered : bool;
  fb_facet : codecvt;
}.
Arguments Filebuf {W} _ _ _ _ _.
Arguments fb_file {W} _.
Arguments fb_sys {W} _.
Arguments fb_cvt {W} _.
Arguments fb_buffered {W} _.
Arguments fb_facet {W} _.

Section filebuf.
Context {W : Type} `{!SysFiles W}.
Implicit Types (s : sbuf (filebuf W)) (cs : list Z).

Definition fb_set_file (f : sysfile) (w : W) s : sbuf (filebuf W) :=
  let d := sb_derived s in sb_set_derived (Filebuf f w (fb_cvt d) (fb_buffered d) (fb_facet d)) s.
Definition fb_set_cvt (c : option converter) s : sbuf (filebuf W) :=
  let d := sb_derived s in sb_set_derived (Filebuf (fb_file d) (fb_sys d) c (fb_buffered d) (fb_facet d)) s.
Definition fb_set_buffered (b : bool) s : sbuf (filebuf W) :=
  let d := sb_derived s in sb_set_derived (Filebuf (fb_file d) (fb_sys d) (fb_cvt d) b (fb_facet d)) s.
Definition fb_set_facet (cv : codecvt) s : sbuf (filebuf W) :=
  let d := sb_derived s in sb_set_derived (Filebuf (fb_file d) (fb_sys d) (fb_cvt d) (fb_buffered d) cv) s.
Definition on_file {A} (f : sysfile → W → A * W) s : A * sbuf (filebuf W) :=
  let d := sb_derived s in
  let '(a, w) := f (fb_file d) (fb_sys d) in (a, fb_set_file (fb_file d) w s).

(** *** Converters *)
Definition noconv_underflow (buf : buf_ptr) s : outcome (Z * buf_ptr * sbuf (filebuf W)) :=
  let '(r, s) := on_file (sf_read (sf_bufsiz (fb_file (sb_derived s)))) s in
  match r with
  | None => Ret ((-1)%Z, buf, s)
  | Some cs => m ← or_ub (mem_copy (sb_mem s) buf cs); Ret (Z.of_nat (length cs), buf, sb_set_mem m s)
  end.
Definition noconv_overflow cs s : Z * sbuf (filebuf W) := on_file (sf_write cs) s.

(** The bytes are read into an array of one element. *)
Fixpoint unbuffered_underflow (fuel : nat) (cv : codecvt) (encoding : Z) (buf : buf_ptr) s : outcome (Z * buf_ptr * sbuf (filebuf W)) :=
  match fuel with
  | 0 => NoFuel
  | S fuel =>
      let '(r, s) := on_file (sf_read encoding) s in
      match r with
      | None => Ret (0%Z, None, s)
      | Some cs =>
          if decide (1 < length cs) then UB
          else if decide (Z.of_nat (length cs) ≠ encoding) then Ret (0%Z, None, s)
          else
            let '(res, _, out) := cv_in cv cs 1 in
            m ← or_ub (mem_copy (sb_mem s) buf out);
            let s := sb_set_mem m s in
            match res with
            | cv_error => Ret (0%Z, None, s)
            | cv_noconv =>
                m ← or_ub (p ← ptr_add m buf (Z.of_nat (length out)); c ← head cs; mem_store m p c);
                let s := sb_set_mem m s in
                if decide (S (length out) = 1) then Ret (1%Z, buf, s) else unbuffered_underflow fuel cv encoding buf s
            | cv_ok | cv_partial =>
                if decide (length out = 1) then Ret (1%Z, buf, s) else unbuffered_underflow fuel cv encoding buf s
            end
      end
  end.

(** [pos] characters of [cs] have been written, [rc] is the result so far. *)
Fixpoint unbuffered_overflow (fuel : nat) (cv : codecvt) (pos : nat) (rc : Z) cs s : outcome (Z * sbuf (filebuf W)) :=
  match fuel with
  | 0 => NoFuel
  | S fuel =>
      if decide (pos = length cs) then Ret (rc, s)
      else
        let '(res, n, out) := cv_out cv (drop pos cs) 1024 in
        match res with
        | cv_error => Ret (0%Z, s)
        | cv_noconv => Ret (on_file (sf_write cs) s)
        | cv_ok | cv_partial =>
            let '(k, s) := on_file (sf_write out) s in
            if decide (k ≠ Z.of_nat (length out)) then Ret (rc, s)
            else unbuffered_overflow fuel cv (pos + n) (Z.of_nat (pos + n)) cs s
        end
  end.

Definition cvt_underflow (c : converter) s : outcome (Z * buf_ptr * sbuf (filebuf W)) :=
  match c with CvNoconv buf => noconv_underflow buf s | CvUnbuffered cv enc buf => unbuffered_underflow 2 cv enc buf s end.
Definition cvt_overflow (c : converter) cs s : outcome (Z * sbuf (filebuf W)) :=
  match c with CvNoconv _ => Ret (noconv_overflow cs s) | CvUnbuffered cv _ _ => unbuffered_overflow (S (length cs)) cv 0 0 cs s end.
Definition cvt_seekoff (off : Z) (dir : seekdir) s : Z * sbuf (filebuf W) := on_file (sf_seek off dir) s.

(** *** _CS_cvtbuf *)
Definition cvtbuf_init (cv : codecvt) s : outcome (sbuf (filebuf W)) :=
  let d := sb_derived s in
  if fb_buffered d then
    if cv_always_noconv cv then
      let n := sf_bufsiz (fb_file d) in
      if decide (n < 0)%Z then UB else
      let '(p, m) := mem_new (sb_mem s) (Z.to_nat n) in
      q ← or_ub (q ← ptr_add m p n; ptr_add m q (-1));
      Ret (setp p q (fb_set_cvt (Some (CvNoconv p)) (sb_set_mem m s)))
    else UB
  else
    let enc := if decide (0 < cv_encoding cv)%Z then cv_encoding cv else 1%Z in
    let '(p, m) := mem_new (sb_mem s) 4 in
    Ret (fb_set_cvt (Some (CvUnbuffered cv (Z.min enc 4) p)) (sb_set_mem m s)).
(** The array of [CvNoconv] is not deleted. *)
Definition cvtbuf_finish s : outcome (sbuf (filebuf W)) :=
  match fb_cvt (sb_derived s) with
  | Some (CvUnbuffered _ _ buf) => m ← or_ub (mem_delete (sb_mem s) buf); Ret (fb_set_cvt None (sb_set_mem m s))
  | _ => Ret (fb_set_cvt None s)
  end.
Definition cvtbuf_showmanyc s : outcome (Z * sbuf (filebuf W)) :=
  n ← or_ub (ptr_sub (sb_gend s) (sb_gcur s)); Ret (n, s).

Definition cvtbuf_fill (buf : buf_ptr) (sz : Z) s : outcome (sbuf (filebuf W)) :=
  q ← or_ub (ptr_add (sb_mem s) buf sz); Ret (setg buf buf q s).
Definition cvtbuf_underflow s : outcome (option Z * sbuf (filebuf W)) :=
  let current s := c ← or_ub (mem_load (sb_mem s) (sb_gcur s)); Ret (Some c, s) in
  if decide (sb_gcur s = sb_gend s) then
    match fb_cvt (sb_derived s) with
    | None => Ret (None, s)
    | Some cvt =>
        '(sz, buf, s) ← cvt_underflow cvt s;
        if decide (sz = 0%Z) then Ret (None, s) else s ← cvtbuf_fill buf sz s; current s
    end
  else current s.
Definition cvtbuf_uflow s : outcome (option Z * sbuf (filebuf W)) :=
  let next s :=
    s ← or_ub (gbump 1 s);
    c ← or_ub (p ← ptr_add (sb_mem s) (sb_gcur s) (-1); mem_load (sb_mem s) p); Ret (Some c, s) in
  if decide (sb_gcur s = sb_gend s) then
    match fb_cvt (sb_derived s) with
    | None => Ret (None, s)
    | Some cvt =>
        '(sz, buf, s) ← cvt_underflow cvt s;
        if decide (sz = 0%Z) then Ret (None, s)
        else if decide (sz = 1%Z) then c ← or_ub (mem_load (sb_mem s) buf); Ret (Some c, s)
        else s ← cvtbuf_fill buf sz s; next s
    end
  else next s.

(** The characters of the put area are written; [c] is returned. *)
Definition cvtbuf_flush (c : option Z) (count : Z) s : outcome (option Z * sbuf (filebuf W)) :=
  match fb_cvt (sb_derived s) with
  | None => Ret (None, s)
  | Some cvt =>
      cs ← or_ub (if decide (count = 0%Z) then Some [] else mem_read (sb_mem s) (sb_pbeg s) (Z.to_nat count));
      '(n, s) ← cvt_overflow cvt cs s;
      if decide (n ≠ count) then Ret (None, s) else Ret (not_eof c, setp (sb_pbeg s) (sb_pend s) s)
  end.
Definition cvtbuf_overflow (c : option Z) s : outcome (option Z * sbuf (filebuf W)) :=
  n ← or_ub (ptr_sub (sb_pcur s) (sb_pbeg s));
  match c with
  | None => cvtbuf_flush c n s
  | Some ch =>
      if decide (sb_pcur s ≠ None) then
        m ← or_ub (mem_store (sb_mem s) (sb_pcur s) ch); cvtbuf_flush c (n + 1) (sb_set_mem m s)
      else
        match fb_cvt (sb_derived s) with
        | None => Ret (None, s)
        | Some cvt => '(k, s) ← cvt_overflow cvt [ch] s; Ret (if decide (k ≠ 1)%Z then None else c, s)
        end
  end.

Definition cvtbuf_push s : outcome (sbuf (filebuf W)) :=
  if decide (sb_pbeg s ≠ sb_pcur s) then '(_, s) ← cvtbuf_overflow None s; Ret s else Ret s.
Definition cvtbuf_sync s : outcome (Z * sbuf (filebuf W)) := s ← cvtbuf_push s; Ret (0%Z, s).

Definition cvtbuf_setbuf (null : bool) (size : Z) s : outcome (sbuf (filebuf W)) :=
  if null && bool_decide (size = 0%Z) then
    s ← (match fb_cvt (sb_derived s) with Some _ => cvtbuf_finish s | None => Ret s end);
    let s := fb_set_buffered false s in
    cvtbuf_init (fb_facet (sb_derived s)) s
  else Ret s.
(** pubimbue with a locale whose facet is [cv]. *)
Definition cvtbuf_imbue (cv : codecvt) s : outcome (sbuf (filebuf W)) :=
  s ← (if decide (cv_id (fb_facet (sb_derived s)) ≠ cv_id cv) then s ← cvtbuf_finish s; cvtbuf_init cv s else Ret s);
  Ret (fb_set_facet cv s).

Definition seek_base (off : Z) (dir : seekdir) s : outcome (Z * sbuf (filebuf W)) :=
  match dir with
  | seek_beg => Ret (off, s)
  | seek_cur =>
      let '(pos, s) := cvt_seekoff 0 seek_cur s in
      pos ← (if decide (sb_pcur s = sb_pend s) then n ← or_ub (ptr_sub (sb_gend s) (sb_gcur s)); Ret (pos - n)%Z else Ret pos);
      Ret ((pos + off)%Z, s)
  | seek_end => let '(pos, s) := cvt_seekoff 0 seek_end s in Ret ((pos + off)%Z, s)
  end.
Definition cvtbuf_seekoff (off : Z) (dir : seekdir) (which : Z) s : outcome (Z * sbuf (filebuf W)) :=
  match fb_cvt (sb_derived s) with
  | None => Ret ((-1)%Z, s)
  | Some _ =>
      if fb_buffered (sb_derived s) then
        s ← cvtbuf_push s;
        '(pos, s) ← seek_base off dir s;
        Ret (cvt_seekoff pos seek_beg (setp None None (setg None None None s)))
      else Ret (cvt_seekoff off dir s)
  end.
Definition cvtbuf_seekpos (pos which : Z) s : outcome (Z * sbuf (filebuf W)) := cvtbuf_seekoff pos seek_beg which s.

(** *** basic_filebuf *)
Definition filebuf_ctor (m : memory) (w : W) (cv : codecvt) : sbuf (filebuf W) :=
  sbuf_ctor m (Filebuf sysfile_ctor w None true cv).
Definition filebuf_is_open s : bool := sf_is_open (fb_file (sb_derived s)).
Definition filebuf_open (name : list Z) (mode : Z) s : outcome (bool * sbuf (filebuf W)) :=
  let d := sb_derived s in
  '(ok, f, w) ← sf_open name mode (fb_file d) (fb_sys d);
  let s := fb_set_file f w s in
  if ok : bool then s ← cvtbuf_init (fb_facet d) s; Ret (true, s) else Ret (false, s).
Definition filebuf_close s : outcome (bool * sbuf (filebuf W)) :=
  if filebuf_is_open s then
    '(_, s) ← cvtbuf_sync s;
    s ← cvtbuf_finish s;
    let '(ok, f, w) := sf_close (fb_file (sb_derived s)) (fb_sys (sb_derived s)) in
    Ret (ok, fb_set_file f w s)
  else Ret (false, s).
Definition filebuf_dtor s : outcome (memory * W) :=
  '(_, s) ← filebuf_close s;
  s ← (match fb_cvt (sb_derived s) with
       | None => Ret s
       | Some _ => '(_, s) ← cvtbuf_sync s; cvtbuf_finish s
       end);
  Ret (sb_mem s, sysfile_dtor (fb_file (sb_derived s)) (fb_sys (sb_derived s))).

#[export] Instance filebuf_virtuals : SbufVirtuals (filebuf W) := {|
  v_underflow := cvtbuf_underflow;
  v_uflow := cvtbuf_uflow;
  v_pbackfail := base_pbackfail;
  v_overflow := cvtbuf_overflow;
  v_showmanyc := cvtbuf_showmanyc;
|}.
#[export] Instance filebuf_positions : SbufPositions (filebuf W) := {|
  v_seekoff := cvtbuf_seekoff;
  v_seekpos := cvtbuf_seekpos;
  v_sync := cvtbuf_sync;
|}.
End filebuf.

(** ** Facets *)
Lemma w_narrow_le cs : length (w_narrow cs) ≤ length cs.
Proof. induction cs as [|c cs IH]; cbn; [lia|]. case_decide; cbn; lia. Qed.
Lemma w_narrow_all cs : Forall (λ c, c < 0xff)%Z cs → w_narrow cs = wrapu 8 <$> cs.
Proof. induction 1 as [|c cs Hc _ IH]; [done|]. cbn. rewrite decide_True by done. by rewrite IH. Qed.
Lemma w_narrow_stop cs c cs' : Forall (λ c, c < 0xff)%Z cs → (0xff ≤ c)%Z → w_narrow (cs ++ c :: cs') = wrapu 8 <$> cs.
Proof.
  intros Hcs Hc. induction Hcs as [|d cs Hd _ IH]; cbn; [by rewrite decide_False by lia|].
  rewrite decide_True by done. by rewrite IH.
Qed.

Lemma cv_clip_fits cs room : length cs ≤ room → cv_clip cs room = (cv_ok, cs).
Proof. intros ?. unfold cv_clip. by rewrite decide_False by lia. Qed.

(** The wide characters which the facet can write, and those it reads back. *)
Definition w_writable (c : Z) : Prop := (c < 0xff)%Z.
Definition w_faithful (c : Z) : Prop := (-128 ≤ c < 128)%Z.

Lemma w_out_all cs room : Forall w_writable cs → w_out cs room =
  (if decide (room < length cs) then cv_partial else cv_ok, Nat.min room (length cs), wrapu 8 <$> take room cs).
Proof.
  intros Hcs. unfold w_out, cv_clip. case_decide as Hr.
  - rewrite w_narrow_all by by apply Forall_take. rewrite !length_fmap, decide_True by done. by rewrite length_take.
  - rewrite w_narrow_all by done. rewrite !length_fmap, decide_True by done. rewrite take_ge by lia. f_equal. f_equal. lia.
Qed.

(** ** Effects on the areas

    The converters change the arrays only by assigning elements of them, and leave
    the pointers alone. *)
Definition mem_grow (m m' : memory) : Prop := ∀ b a, m !! b = Some a →
  ∃ a', m' !! b = Some a' ∧ length a' = length a ∧ ∀ k c, a !! k = Some (Some c) → ∃ c', a' !! k = Some (Some c').
Definition mem_filled (m : memory) (p : buf_ptr) (n : nat) : Prop :=
  ∃ b i a, p = Some (b, i) ∧ m !! b = Some a ∧ i + n ≤ length a ∧ ∀ k, i ≤ k < i + n → ∃ c, a !! k = Some (Some c).

Lemma mem_grow_refl m : mem_grow m m.
Proof. intros b a Ha. exists a. eauto. Qed.
Lemma mem_grow_trans m1 m2 m3 : mem_grow m1 m2 → mem_grow m2 m3 → mem_grow m1 m3.
Proof.
  intros H1 H2 b a Ha. destruct (H1 b a Ha) as (a2 & Ha2 & Hl2 & Hi2).
  destruct (H2 b a2 Ha2) as (a3 & Ha3 & Hl3 & Hi3). exists a3. split_and!; [done|lia|].
  intros k c Hk. destruct (Hi2 k c Hk) as [c' Hk']. by eapply Hi3.
Qed.
Lemma mem_grow_inserts m b a i l : m !! b = Some a → mem_grow m (<[b := list_inserts i (Some <$> l) a]> m).
Proof.
  intros Hb b' a' Ha'. destruct (decide (b' = b)) as [->|Hne].
  - simplify_eq. eexists. rewrite lookup_insert_eq, length_inserts. split_and!; [done|done|].
    intros k c Hk. pose proof (lookup_lt_Some _ _ _ Hk). destruct (decide (i ≤ k < i + length l)) as [Hin|Hout].
    + destruct (lookup_lt_is_Some_2 l (k - i) ltac:(lia)) as [d Hd]. exists d.
      rewrite list_lookup_inserts by (rewrite ?length_fmap; lia). by rewrite list_lookup_fmap, Hd.
    + exists c. destruct (decide (k < i)); [rewrite list_lookup_inserts_lt by done|rewrite list_lookup_inserts_ge by (rewrite length_fmap; lia)]; done.
  - rewrite lookup_insert_ne by done. eauto.
Qed.
Lemma mem_copy_grow m p cs m' : mem_copy m p cs = Some m' → mem_grow m m' ∧ mem_filled m' p (length cs).
Proof.
  destruct p as [[b i]|]; cbn; [|done]. destruct (m !! b) as [a|] eqn:Hb; cbn; [|done]. case_decide as Hi; [|done].
  intros [= <-]. split; [by apply mem_grow_inserts|]. exists b, i, (list_inserts i (Some <$> cs) a).
  rewrite lookup_insert_eq, length_inserts. split_and!; [done..|]. intros k Hk.
  destruct (lookup_lt_is_Some_2 cs (k - i) ltac:(lia)) as [d Hd]. exists d.
  rewrite list_lookup_inserts by (rewrite ?length_fmap; lia). by rewrite list_lookup_fmap, Hd.
Qed.
Lemma mem_store_copy m p c : mem_store m p c = mem_copy m p [c].
Proof.
  destruct p as [[b i]|]; cbn; [|done]. destruct (m !! b) as [a|]; cbn; [|done].
  repeat case_decide; done || lia.
Qed.

Lemma area_ok_grow m m' p q : mem_grow m m' → area_ok m p q → area_ok m' p q.
Proof.
  intros Hm. unfold area_ok. destruct p as [[b i]|], q as [[c j]|]; [|done..]. intros (<- & Hi & a & Ha & Hj).
  destruct (Hm b a Ha) as (a' & Ha' & Hl & _). split_and!; [done..|]. exists a'. split; [done|lia].
Qed.
Lemma area_init_grow m m' p q : mem_grow m m' → area_ok m p q → area_init m p q → area_init m' p q.
Proof.
  intros Hm Hok Hinit b i j a' k -> -> Ha' Hk. destruct Hok as (_ & _ & a & Ha & _).
  destruct (Hm b a Ha) as (a'' & Ha'' & _ & Hi). destruct (Hinit b i j a k) as [c Hc]; [done..|].
  destruct (Hi k c Hc) as [c' Hc']. exists c'. by simplify_eq.
Qed.
Lemma area_ok_trans m p q r : area_ok m p q → area_ok m q r → area_ok m p r.
Proof.
  unfold area_ok. destruct p as [[b i]|], q as [[c j]|], r as [[e k]|]; try done.
  intros (<- & ? & _) (<- & ? & ?). split_and!; [done|lia|done].
Qed.
Lemma area_ok_nil m p q : area_ok m p q → area_ok m p p.
Proof. unfold area_ok. destruct p as [[b i]|], q as [[c j]|]; try done. intros (<- & ? & a & ? & ?). split_and!; [done..|]. exists a. split; [done|lia]. Qed.
Lemma area_init_nil m p : area_init m p p.
Proof. intros b i j a k H1 H2 _ Hk. rewrite H1 in H2. injection H2 as ->. lia. Qed.
Lemma filled_area m p n : mem_filled m p n → ∃ q, ptr_add m p (Z.of_nat n) = Some q ∧ area_ok m p q ∧ area_init m p q.
Proof.
  intros (b & i & a & -> & Ha & Hl & Hi). exists (Some (b, i + n)). rewrite (ptr_add_in m b i a n) by done.
  split; [done|]. split; [split_and!; [done|lia|eauto]|]. intros b' i' j' a' k [= <- <-] [= <-] Ha' Hk. simplify_eq. by apply Hi.
Qed.

(** The array into which a pointer points is small. *)
Definition array_small (m : memory) (p : buf_ptr) : Prop :=
  match p with None => True | Some (b, _) => ∃ a, m !! b = Some a ∧ int_sized (length a) end.
Lemma array_small_grow m m' p : mem_grow m m' → array_small m p → array_small m' p.
Proof.
  intros Hm. destruct p as [[b i]|]; [|done]. intros (a & Ha & Hl). destruct (Hm b a Ha) as (a' & Ha' & Hl' & _).
  exists a'. split; [done|]. by rewrite Hl'.
Qed.
Lemma array_area m p q : area_ok m p q → array_small m q → area_small p q.
Proof.
  intros Hok Hsm b i c j -> ->. cbn in Hok, Hsm. destruct Hok as (<- & _ & a & Ha & Hj), Hsm as (a' & Ha' & Hl).
  simplify_eq. lia.
Qed.

Section effects.
Context {W : Type} `{!SysFiles W}.
Implicit Types (s : sbuf (filebuf W)) (cs : list Z).

Definition fb_keeps s s' : Prop := ∃ m d,
  s' = sb_set_derived d (sb_set_mem m s) ∧ mem_grow (sb_mem s) m ∧ fb_cvt d = fb_cvt (sb_derived s).
Lemma fb_keeps_refl s : fb_keeps s s.
Proof. exists (sb_mem s), (sb_derived s). split; [by destruct s|]. split; [apply mem_grow_refl|done]. Qed.
Lemma fb_keeps_trans s1 s2 s3 : fb_keeps s1 s2 → fb_keeps s2 s3 → fb_keeps s1 s3.
Proof.
  intros (m & d & -> & Hm & Hd) (m' & d' & -> & Hm' & Hd'). exists m', d'. split; [done|].
  split; [by eapply mem_grow_trans|]. cbn in *. congruence.
Qed.
Lemma fb_keeps_mem s m : mem_grow (sb_mem s) m → fb_keeps s (sb_set_mem m s).
Proof. intros Hm. exists m, (sb_derived s). by destruct s. Qed.
Lemma on_file_keeps {A} (f : sysfile → W → A * W) s a s' : on_file f s = (a, s') → fb_keeps s s' ∧ sb_mem s' = sb_mem s.
Proof.
  unfold on_file. destruct (f _ _) as [r w] eqn:Hf. intros [= <- <-]. split; [|done].
  eexists (sb_mem s), _. split; [by destruct s|]. split; [apply mem_grow_refl|done].
Qed.

Lemma unbuffered_overflow_keeps fuel cv pos rc cs s r s' : unbuffered_overflow fuel cv pos rc cs s = Ret (r, s') → fb_keeps s s'.
Proof.
  revert pos rc s. induction fuel as [|fuel IH]; intros pos rc s; cbn; [done|].
  case_decide; [intros [= <- <-]; apply fb_keeps_refl|]. destruct (cv_out cv _ _) as [[res n] out].
  destruct res; try by intros [= <- <-]; apply fb_keeps_refl.
  1,2: destruct (on_file _ _) as [k s1] eqn:Hf; apply on_file_keeps in Hf as [Hk _];
    case_decide; [by intros [= <- <-]|intros Hr%IH; by eapply fb_keeps_trans].
  intros [= Hf]. apply on_file_keeps in Hf as [Hf _]. done.
Qed.
Lemma cvt_overflow_keeps c cs s r s' : cvt_overflow c cs s = Ret (r, s') → fb_keeps s s'.
Proof.
  destruct c; cbn [cvt_overflow]; [|apply unbuffered_overflow_keeps]. unfold noconv_overflow. intros [= Hf].
  by apply on_file_keeps in Hf as [Hf _].
Qed.

Lemma unbuffered_underflow_keeps fuel cv enc buf s sz p s' :
  unbuffered_underflow fuel cv enc buf s = Ret (sz, p, s') →
  fb_keeps s s' ∧ (sz ≠ 0%Z → mem_filled (sb_mem s') p (Z.to_nat sz) ∧ (0 < sz)%Z ∧ p = buf).
Proof.
  revert s. induction fuel as [|fuel IH]; intros s; cbn; [done|].
  destruct (on_file _ s) as [r s1] eqn:Hf. apply on_file_keeps in Hf as [Hk Hm].
  destruct r as [cs|]; [|by intros [= <- <- <-]]. repeat case_decide; try done; [by intros [= <- <- <-]|].
  destruct (cv_in cv cs 1) as [[res n] out]. destruct (mem_copy _ buf out) as [m1|] eqn:Hc; [|done].
  apply mem_copy_grow in Hc as [Hg Hfill]. cbn [or_ub mbind outcome_bind].
  assert (Hk1 : fb_keeps s (sb_set_mem m1 s1)) by (eapply fb_keeps_trans; [done|by apply fb_keeps_mem]).
  assert (Hgo : ∀ m2, mem_grow m1 m2 → fb_keeps s (sb_set_mem m2 s1)).
  { intros m2 Hm2. eapply fb_keeps_trans; [exact Hk|]. apply fb_keeps_mem. by eapply mem_grow_trans. }
  destruct res.
  1,2: case_decide as Hl; [intros [= <- <- <-]; rewrite Hl in Hfill; split; [done|intros _; split_and!; [done|lia|done]]|];
    intros Hr; apply IH in Hr as [Hk2 ?]; split; [by eapply fb_keeps_trans|done].
  - by intros [= <- <- <-].
  - destruct (ptr_add _ buf _) as [q|] eqn:Hq; cbn; [|done]. destruct cs as [|c cs]; [done|]. cbn.
    destruct (mem_store _ q c) as [m2|] eqn:Hs; cbn; [|done]. rewrite mem_store_copy in Hs.
    apply mem_copy_grow in Hs as [Hg2 Hfill2]. cbn in Hg2. case_decide as Hl.
    + intros [= <- <- <-]. split; [by apply Hgo|]. intros _. split; [|done].
      replace (length out) with 0 in Hq by lia. destruct Hfill as (b & i & a & -> & Ha & _).
      cbn in Hq. rewrite Ha in Hq. cbn in Hq. case_decide; [|done]. rewrite Z.add_0_r, Nat2Z.id in Hq. injection Hq as <-. exact Hfill2.
    + intros Hr. apply IH in Hr as [Hk2 ?]. split; [|done]. eapply fb_keeps_trans; [|done]. by apply Hgo.
Qed.
Definition cvt_buf (c : converter) : buf_ptr := match c with CvNoconv buf | CvUnbuffered _ _ buf => buf end.
Lemma cvt_underflow_keeps c s sz p s' :
  cvt_underflow c s = Ret (sz, p, s') →
  fb_keeps s s' ∧ ((0 ≤ sz)%Z → sz ≠ 0%Z → mem_filled (sb_mem s') p (Z.to_nat sz) ∧ p = cvt_buf c) ∧
  ((sz < 0)%Z → c = CvNoconv p).
Proof.
  destruct c as [buf|cv enc buf]; cbn [cvt_underflow].
  - unfold noconv_underflow. destruct (on_file _ s) as [r s1] eqn:Hf. apply on_file_keeps in Hf as [Hk Hm].
    destruct r as [cs|]; [|by intros [= <- <- <-]]. destruct (mem_copy _ buf cs) as [m1|] eqn:Hc; [|done]. cbn.
    apply mem_copy_grow in Hc as [Hg Hfill]. intros [= <- <- <-]. rewrite Nat2Z.id.
    split; [|split; [done|lia]]. eapply fb_keeps_trans; [done|by apply fb_keeps_mem].
  - intros Hu. apply unbuffered_underflow_keeps in Hu as [Hk Hs]. split; [done|]. split; [intros _ Hz; destruct (Hs Hz) as (? & _ & ?); done|].
    intros Hlt. destruct Hs; lia.
Qed.
End effects.

(** ** Blocks

    The operations on characters keep the areas well-formed, so that the block
    operations are the ones on characters (block_io_each). *)
Section areas.
Context {W : Type} `{!SysFiles W}.
Implicit Types (s : sbuf (filebuf W)).

Record fb_areas s : Prop := FbAreas {
  fa_areas : areas_ok s;
  fa_put : area_ok (sb_mem s) (sb_pbeg s) (sb_pcur s);
  fa_cvt : ∀ b i, fb_cvt (sb_derived s) = Some (CvNoconv (Some (b, i))) → i = 0;
  fa_small : array_small (sb_mem s) (sb_pend s) ∧ array_small (sb_mem s) (sb_gend s) ∧
    ∀ c, fb_cvt (sb_derived s) = Some c → array_small (sb_mem s) (cvt_buf c);
}.

Lemma fa_keeps s s' : fb_keeps s s' → fb_areas s → fb_areas s'.
Proof.
  intros (m & d & -> & Hm & Hd) [(Hp & Hg & Hi) Hb Hc (Hs1 & Hs2 & Hs3)]. split; cbn.
  - split; [by eapply area_ok_grow|]. split; [by eapply area_ok_grow|by eapply area_init_grow].
  - by eapply area_ok_grow.
  - rewrite Hd. apply Hc.
  - rewrite Hd. split_and!; [by eapply array_small_grow..|]. intros c Hcv. eapply array_small_grow; [done|by apply Hs3].
Qed.

Lemma fa_flush c n s r s' : fb_areas s → cvtbuf_flush c n s = Ret (r, s') → fb_areas s'.
Proof.
  intros Ha. unfold cvtbuf_flush. destruct (fb_cvt _) as [cvt|]; [|by intros [= <- <-]].
  destruct (if decide (n = 0%Z) then _ else _) as [cs|]; cbn; [|done].
  destruct (cvt_overflow cvt cs s) as [[k s1]| | |] eqn:Ho; cbn; [|done..].
  apply cvt_overflow_keeps in Ho. pose proof (fa_keeps _ _ Ho Ha) as [(Hp & Hg) Hb Hc Hs].
  case_decide; intros [= <- <-]; split; cbn; try done. split; [|done]. by eapply area_ok_trans. by eapply area_ok_nil.
Qed.
Lemma fa_store m c s : fb_areas s → mem_store (sb_mem s) (sb_pcur s) c = Some m → fb_areas (sb_set_mem m s).
Proof.
  intros Ha Hs. rewrite mem_store_copy in Hs. apply mem_copy_grow in Hs as [Hs _].
  eapply fa_keeps; [by apply fb_keeps_mem|done].
Qed.
Lemma fa_overflow c s r s' : fb_areas s → cvtbuf_overflow c s = Ret (r, s') → fb_areas s'.
Proof.
  intros Ha. unfold cvtbuf_overflow. destruct (ptr_sub _ _) as [n|]; cbn; [|done].
  destruct c as [ch|]; [|by apply fa_flush]. case_decide.
  - destruct (mem_store _ _ ch) as [m|] eqn:Hm; cbn; [|done]. apply fa_flush. by eapply fa_store.
  - destruct (fb_cvt _) as [cvt|]; [|by intros [= <- <-]].
    destruct (cvt_overflow cvt _ s) as [[k s1]| | |] eqn:Ho; cbn; [|done..]. intros [= <- <-].
    apply cvt_overflow_keeps in Ho. by eapply fa_keeps.
Qed.

Lemma fa_setg p q s : fb_areas s → area_ok (sb_mem s) p q → area_init (sb_mem s) p q → array_small (sb_mem s) q →
  fb_areas (setg p p q s).
Proof. intros [(Hp & _) Hb Hc (Hs1 & _ & Hs3)] Hok Hi Hs2. by split. Qed.
Lemma fa_fill s sz buf s1 s2 cvt : fb_areas s → cvt_underflow cvt s = Ret (sz, buf, s1) →
  fb_cvt (sb_derived s) = Some cvt → sz ≠ 0%Z → cvtbuf_fill buf sz s1 = Ret s2 →
  fb_areas s2 ∧ (0 < sz)%Z ∧ ∃ q, s2 = setg buf buf q s1 ∧ mem_filled (sb_mem s1) buf (Z.to_nat sz) ∧ ptr_add (sb_mem s1) buf sz = Some q.
Proof.
  intros Ha Hu Hcvt Hz Hf. apply cvt_underflow_keeps in Hu as (Hk & Hpos & Hneg).
  pose proof (fa_keeps _ _ Hk Ha) as Ha1. unfold cvtbuf_fill in Hf.
  destruct (ptr_add _ buf sz) as [q|] eqn:Hq; cbn in Hf; [|done]. injection Hf as <-.
  destruct (decide (sz < 0)%Z) as [Hlt|].
  - exfalso. rewrite (Hneg Hlt) in Hcvt. destruct buf as [[b i]|]; cbn in Hq; [|case_decide; done].
    rewrite (fa_cvt s Ha b i Hcvt) in Hq. destruct (sb_mem s1 !! b); cbn in Hq; [|done]. case_decide; [lia|done].
  - destruct (Hpos ltac:(lia) Hz) as [Hfill ->]. destruct (filled_area _ _ _ Hfill) as (q' & Hq' & Hok & Hinit).
    rewrite Z2Nat.id, Hq in Hq' by lia. injection Hq' as <-. split; [|split; [lia|eauto]]. apply fa_setg; [done..|].
    destruct (fa_small s1 Ha1) as (_ & _ & Hs3). specialize (Hs3 cvt). destruct Hk as (m & d & -> & _ & Hd). cbn in *.
    rewrite Hd in Hs3. specialize (Hs3 Hcvt). destruct (cvt_buf cvt) as [[b i]|]; [|by destruct Hfill as (? & ? & ? & ? & _)].
    destruct q as [[b' j]|]; [|done]. destruct Hok as (<- & _). exact Hs3.
Qed.
Lemma fa_gbump s s' n : fb_areas s → sb_gcur s ≠ sb_gend s → gbump 1 s = Some s' → n = 1 → fb_areas s'.
Proof.
  intros [(Hp & Hg & Hi) Hb Hc Hsm] Hne Hs ->. destruct (area_ne _ _ _ Hg Hne) as (b & i & j & a & Hgc & Hge & Ha & Hj).
  unfold gbump in Hs. rewrite wraps_int, Hgc, (ptr_add_in _ _ _ a 1) in Hs by (done || lia). cbn in Hs. injection Hs as <-.
  split; [|done..]. split; [done|]. cbn. rewrite Hgc, Hge in *.
  split; [apply area_shrink; [done|lia]|by apply area_init_shrink].
Qed.
Lemma fa_uflow s r s' : fb_areas s → sb_gcur s = sb_gend s → cvtbuf_uflow s = Ret (r, s') → fb_areas s'.
Proof.
  intros Ha He. unfold cvtbuf_uflow. rewrite decide_True by done.
  destruct (fb_cvt (sb_derived s)) as [cvt|] eqn:Hcvt; [|by intros [= <- <-]].
  destruct (cvt_underflow cvt s) as [[[sz buf] s1]| | |] eqn:Hu; cbn; [|done..].
  pose proof (fa_keeps _ _ (proj1 (cvt_underflow_keeps _ _ _ _ _ Hu)) Ha) as Ha1.
  case_decide; [by intros [= <- <-]|]. case_decide.
  - destruct (mem_load _ buf); cbn; [|done]. by intros [= <- <-].
  - destruct (cvtbuf_fill buf sz s1) as [s2| | |] eqn:Hf; cbn; [|done..].
    destruct (fa_fill s sz buf s1 s2 cvt) as (Ha2 & Hz & q & -> & Hfill & Hq); [done..|].
    destruct (gbump 1 _) as [s3|] eqn:Hg; cbn [or_ub mbind outcome_bind]; [|done].
    destruct (ptr_add _ (sb_gcur s3) _ ≫= _) as [c|]; cbn; [|done]. intros [= <- <-].
    eapply fa_gbump; [exact Ha2| |exact Hg|done]. cbn. intros <-.
    destruct Hfill as (b & i & a & -> & Hb & _). cbn in Hq. rewrite Hb in Hq. cbn in Hq. case_decide; [|done].
    injection Hq as Hq. lia.
Qed.

#[export] Instance filebuf_spec : SbufSpec (filebuf W) fb_areas.
Proof.
  split.
  - intros s [(? & _)]. done.
  - intros s [(_ & ?)]. done.
  - intros s [(Hp & Hg & _) _ _ (Hs1 & Hs2 & _)]. split; by eapply array_area.
  - intros c s r s' Ha Hs. unfold sputc in Hs. case_decide as He; [exact (fa_overflow (Some c) s r s' Ha Hs)|].
    destruct Ha as [Hok Hb Hc (Hs1 & Hs2 & Hs3)]. split.
    + eapply sputc_areas; [done|exact He|]. unfold sputc. rewrite decide_False by done. exact Hs.
    + destruct (area_ne _ _ _ (proj1 Hok) He) as (b & i & j & a & Hpc & Hpe & Ha & Hi). rewrite Hpc in *.
      cbn in Hs. rewrite Ha in Hs. cbn in Hs. rewrite decide_True in Hs by lia. cbn in Hs.
      unfold pbump in Hs. rewrite wraps_int in Hs by lia. cbn [sb_set_mem sb_mem sb_pcur] in Hs. rewrite Hpc in Hs.
      rewrite (ptr_add_in _ _ _ (<[i := Some c]> a) 1) in Hs by (rewrite ?lookup_insert_eq, ?length_insert; done || lia).
      cbn in Hs. injection Hs as _ <-. cbn. destruct (sb_pbeg s) as [[b' k]|]; [|done].
      destruct Hb as (-> & Hk & _). split_and!; [done|lia|]. rewrite lookup_insert_eq. eexists. split; [done|].
      rewrite length_insert. lia.
    + destruct (area_ne _ _ _ (proj1 Hok) He) as (b & i & j & a & Hpc & Hpe & Ha & Hi).
      destruct (mem_store _ _ c); cbn in Hs; [|done]. unfold pbump in Hs. cbn in Hs.
      destruct (ptr_add _ _ _); cbn in Hs; [|done]. injection Hs as _ <-. exact Hc.
    + destruct (mem_store _ _ c) as [m|] eqn:Hm; cbn in Hs; [|done]. unfold pbump in Hs. cbn in Hs.
      destruct (ptr_add _ _ _); cbn in Hs; [|done]. injection Hs as _ <-. cbn.
      rewrite mem_store_copy in Hm. apply mem_copy_grow in Hm as [Hm _].
      split_and!; [by eapply array_small_grow..|]. intros cv Hcv. eapply array_small_grow; [done|by apply Hs3].
  - intros s r s' Ha Hs. destruct (decide (sb_gcur s = sb_gend s)) as [He|He].
    + unfold sbumpc in Hs. rewrite decide_False in Hs by (intros H; by apply H). exact (fa_uflow s r s' Ha He Hs).
    + unfold sbumpc in Hs. rewrite decide_True in Hs by done. destruct (mem_load _ _); cbn in Hs; [|done].
      destruct (gbump 1 s) as [s1|] eqn:Hg; cbn in Hs; [|done]. injection Hs as _ <-. by eapply fa_gbump.
Qed.
End areas.
