(* ===== verification/FileText.v ===== *)
(** * File buffers as files

    What FileBuf assumes of the system calls on a regular file, a file with a
    position as the abstract state of a file buffer, and the theorem that the
    operations of a buffer are those of the file as long as a position is set, or
    the buffer is flushed, between writing and reading. *)
From S2P Require Import Prelude StreamBuf StringBuf StringText Ios FileBuf.

(** ** Files *)
Record open_file := OpenFile { of_data : list Z; of_pos : nat }.
(** A byte behind the end fills the gap with zeros. *)
Definition file_put (f : open_file) (c : Z) : open_file :=
  OpenFile (<[of_pos f := c]> (of_data f ++ replicate (S (of_pos f) - length (of_data f)) 0%Z)) (S (of_pos f)).
Definition file_write (cs : list Z) (f : open_file) : open_file := foldl file_put f cs.
Definition file_rest (f : open_file) : list Z := drop (of_pos f) (of_data f).
Definition file_skip (n : nat) (f : open_file) : open_file := OpenFile (of_data f) (of_pos f + n).
Definition file_move (n : nat) (f : open_file) : open_file := OpenFile (of_data f) n.
Definition file_base (dir : seekdir) (f : open_file) : Z :=
  match dir with seek_beg => 0 | seek_cur => Z.of_nat (of_pos f) | seek_end => Z.of_nat (length (of_data f)) end.

(** ** Regular files of the operating system

    [named w name d]: the file [name] is not open, its contents are [d], [None] if
    it does not exist. [opened w fd name access f]: it is open as [fd]. The space
    for the file does not run out, no system call is interrupted, and the block size
    which fstat reports, the size of a file buffer's array, is well within an int. *)
Class RegularFiles (W : Type) `{!SysFiles W} (named : W → list Z → option (list Z) → Prop)
    (opened : W → Z → list Z → sys_access → open_file → Prop) : Prop := {
  rf_open w name flags d :
    named w name d → of_creat flags = true ∨ is_Some d → of_append flags = false →
    (of_access flags = acc_rdonly → of_trunc flags = false) →
    ∃ fd w', sys_open name flags w = (fd, w') ∧
      opened w' fd name (of_access flags) (OpenFile (if of_trunc flags then [] else default [] d) 0);
  rf_fd w fd name access f : opened w fd name access f → fd ≠ (-1)%Z;
  rf_stat w fd name access f : opened w fd name access f → ∃ n, sys_fstat fd w = Some (false, n) ∧ (0 < n < 2 ^ 30)%Z;
  rf_read w fd name access f n : opened w fd name access f → access ≠ acc_wronly → (0 ≤ n)%Z →
    let cs := take (Z.to_nat n) (file_rest f) in
    ∃ w', sys_read fd n w = (Some cs, w') ∧ opened w' fd name access (file_skip (length cs) f);
  rf_write w fd name access f cs : opened w fd name access f → access ≠ acc_rdonly →
    ∃ w', sys_write fd cs w = (Z.of_nat (length cs), w') ∧ opened w' fd name access (file_write cs f);
  rf_seek w fd name access f off dir : opened w fd name access f → (0 ≤ file_base dir f + off)%Z →
    ∃ w', sys_lseek fd off dir w = ((file_base dir f + off)%Z, w') ∧
      opened w' fd name access (file_move (Z.to_nat (file_base dir f + off)) f);
  rf_close w fd name access f : opened w fd name access f → named (sys_close fd w) name (Some (of_data f));
}.

(** ** Characters between two pointers *)
Definition area_text (m : memory) (p q : buf_ptr) (l : list Z) : Prop :=
  match p, q with
  | None, None => l = []
  | Some (b, i), Some (c, j) => b = c ∧ j = i + length l ∧
      ∃ a, m !! b = Some a ∧ j ≤ length a ∧ take (length l) (drop i a) = Some <$> l
  | _, _ => False
  end.

Lemma area_text_ok m p q l : area_text m p q l → area_ok m p q ∧ area_init m p q.
Proof.
  unfold area_text. destruct p as [[b i]|], q as [[c j]|]; try done. intros (<- & -> & a & Ha & Hl & Ht).
  split; [split_and!; [done|lia|eauto]|]. intros b' i' j' a' k [= <- <-] [= <-] Ha' Hk. simplify_eq.
  destruct (lookup_lt_is_Some_2 l (k - i) ltac:(lia)) as [d Hd]. exists d.
  assert (H : take (length l) (drop i a) !! (k - i) = Some (Some d)) by by rewrite Ht, list_lookup_fmap, Hd.
  rewrite lookup_take_lt in H by lia. rewrite lookup_drop in H. by replace (i + (k - i)) with k in H by lia.
Qed.
Lemma area_text_nil m p q : area_text m p q [] ↔ p = q ∧ area_ok m p q.
Proof.
  split.
  - intros H. destruct (area_text_ok _ _ _ _ H) as [Hok _]. split; [|done]. unfold area_text in H.
    destruct p as [[b i]|], q as [[c j]|]; try done. destruct H as (<- & -> & _). cbn. by rewrite Nat.add_0_r.
  - intros [<- Hok]. unfold area_text. destruct p as [[b i]|]; [|done]. destruct Hok as (_ & _ & a & ? & ?).
    split_and!; [done|cbn; lia|]. exists a. by rewrite take_0.
Qed.
Lemma area_text_ne m p q l : area_text m p q l → (p = q ↔ l = []).
Proof.
  unfold area_text. destruct p as [[b i]|], q as [[c j]|]; try done. intros (<- & -> & _). split.
  - intros [= H]. apply nil_length_inv. lia.
  - intros ->. cbn. by rewrite Nat.add_0_r.
Qed.
Lemma area_text_cons m p q c l : area_text m p q (c :: l) →
  ∃ b i, p = Some (b, i) ∧ mem_load m p = Some c ∧ ptr_add m p 1 = Some (Some (b, i + 1)) ∧ area_text m (Some (b, i + 1)) q l.
Proof.
  unfold area_text. destruct p as [[b i]|], q as [[b' j]|]; try done. intros (<- & -> & a & Ha & Hl & Ht). cbn in Hl, Ht.
  exists b, i. split; [done|]. destruct (drop i a) as [|x r] eqn:Hd; [done|]. injection Ht as -> Ht.
  assert (Hi : a !! i = Some (Some c)) by (rewrite <-(Nat.add_0_r i), <-lookup_drop, Hd; done).
  split; [cbn; by rewrite Ha; cbn; rewrite Hi|]. split; [apply (ptr_add_in m b i a 1); [done|lia]|].
  split_and!; [done|cbn; lia|]. exists a. split_and!; [done|cbn in *; lia|].
  rewrite <-drop_drop, Hd. by rewrite <-Ht.
Qed.
Lemma area_text_sub m p q l : area_text m p q l → ptr_sub q p = Some (Z.of_nat (length l)).
Proof.
  unfold area_text. destruct p as [[b i]|], q as [[c j]|]; try done; [|by intros ->]. intros (<- & -> & _). cbn.
  rewrite decide_True by done. f_equal. lia.
Qed.

(** ** The relation *)
Inductive file_phase := FIdle | FReading | FWriting.
#[export] Instance file_phase_eq_dec : EqDecision file_phase.
Proof. solve_decision. Defined.

(** [f0] is the file of the operating system, [pending] are characters of the put
    area, [rest] those left in the get area; after a position has been set there
    is no put area ([moved]). *)
Record fb_at {W : Type} `{!SysFiles W} (opened : W → Z → list Z → sys_access → open_file → Prop) (name : list Z) (access : sys_access)
    (b : nat) (a : list (option Z)) (pending rest : list Z) (moved : bool) (f0 : open_file) (s : sbuf (filebuf W)) : Prop := FbAt {
  ft_open : opened (fb_sys (sb_derived s)) (sf_fd (fb_file (sb_derived s))) name access f0;
  ft_buffered : fb_buffered (sb_derived s) = true;
  ft_cvt : fb_cvt (sb_derived s) = Some (CvNoconv (Some (b, 0)));
  ft_block : sb_mem s !! b = Some a;
  ft_size : Z.of_nat (length a) = sf_bufsiz (fb_file (sb_derived s)) ∧ 0 < length a;
  ft_small : int_sized (length a) ∧ array_small (sb_mem s) (sb_gend s);
  ft_put : (sb_pbeg s, sb_pcur s, sb_pend s) =
    if moved then (None, None, None) else (Some (b, 0), Some (b, length pending), Some (b, length a - 1));
  ft_pending : length pending ≤ length a - 1 ∧ take (length pending) a = Some <$> pending ∧ (moved = true → pending = []);
  ft_get : area_text (sb_mem s) (sb_gcur s) (sb_gend s) rest;
  ft_facet : cv_always_noconv (fb_facet (sb_derived s)) = true;
}.
Arguments ft_open {W _ opened name access b a pending rest moved f0 s} _.
Arguments ft_buffered {W _ opened name access b a pending rest moved f0 s} _.
Arguments ft_cvt {W _ opened name access b a pending rest moved f0 s} _.
Arguments ft_block {W _ opened name access b a pending rest moved f0 s} _.
Arguments ft_size {W _ opened name access b a pending rest moved f0 s} _.
Arguments ft_small {W _ opened name access b a pending rest moved f0 s} _.
Arguments ft_put {W _ opened name access b a pending rest moved f0 s} _.
Arguments ft_pending {W _ opened name access b a pending rest moved f0 s} _.
Arguments ft_facet {W _ opened name access b a pending rest moved f0 s} _.
Arguments ft_get {W _ opened name access b a pending rest moved f0 s} _.

Definition phase_ok (ph : file_phase) (pending rest : list Z) : Prop :=
  match ph with FIdle => pending = [] ∧ rest = [] | FReading => pending = [] | FWriting => rest = [] end.
(** The file [f] as it looks from outside. *)
Definition file_rep {W : Type} `{!SysFiles W} opened name access (ph : file_phase) (moved : bool) (f : open_file) (s : sbuf (filebuf W)) : Prop :=
  ∃ b a pending rest f0, fb_at opened name access b a pending rest moved f0 s ∧ phase_ok ph pending rest ∧
    file_skip (length rest) f = file_write pending f0 ∧ take (length rest) (file_rest f) = rest.

(** Computes the fields of updated states. *)
Ltac fb_cbn := cbn [or_ub mbind outcome_bind option_bind sb_set_mem sb_set_derived setg setp sb_set_pcur sb_mem sb_gbeg
  sb_gcur sb_gend sb_pbeg sb_pcur sb_pend sb_derived fb_file fb_sys fb_cvt fb_buffered fb_facet fb_set_file fb_set_cvt
  fb_set_buffered fb_set_facet sf_mode sf_fd sf_bufsiz fst snd].

Lemma file_write_app cs ds f : file_write (cs ++ ds) f = file_write ds (file_write cs f).
Proof. apply foldl_app. Qed.
Lemma file_skip_0 f : file_skip 0 f = f.
Proof. destruct f. unfold file_skip. cbn. by rewrite Nat.add_0_r. Qed.
Lemma file_skip_skip m n f : file_skip m (file_skip n f) = file_skip (n + m) f.
Proof. unfold file_skip. cbn. by rewrite Nat.add_assoc. Qed.
Lemma file_rest_skip n f : file_rest (file_skip n f) = drop n (file_rest f).
Proof. unfold file_rest, file_skip. cbn. by rewrite drop_drop. Qed.

Section rep.
Context {W : Type} `{!SysFiles W}.
Context (named : W → list Z → option (list Z) → Prop) (opened : W → Z → list Z → sys_access → open_file → Prop).
Context `{!RegularFiles W named opened}.
Context (name : list Z) (access : sys_access).
Implicit Types (s : sbuf (filebuf W)) (f : open_file).

(** The test of the mode never holds. *)
Lemma sf_read_sys n sf (w : W) : sf_read n sf w = sys_read (sf_fd sf) n w.
Proof. unfold sf_read. rewrite bool_decide_eq_false_2 by done. cbn [Z.b2z]. by rewrite Z.land_0_r, decide_False by auto. Qed.
Lemma sf_write_sys cs sf (w : W) : sf_write cs sf w = sys_write (sf_fd sf) cs w.
Proof. unfold sf_write. rewrite bool_decide_eq_false_2 by done. cbn [Z.b2z]. by rewrite Z.land_0_r, decide_False by auto. Qed.

Lemma ft_areas b a pending rest moved f0 s : fb_at opened name access b a pending rest moved f0 s → fb_areas s.
Proof.
  intros [_ _ Hc Hb [_ Hpos] [Hsm Hsg] Hp (Hl & _) Hg]. apply area_text_ok in Hg as Hg'.
  destruct moved; injection Hp as H1 H2 H3; split; try (intros ??; rewrite Hc; by intros [= _ <-]).
  3,6: rewrite H3; (split_and!; [cbn; eauto|done|intros c; rewrite Hc; intros [= <-]; cbn; eauto]).
  1,3: split; [|done]. all: rewrite ?H1, ?H2, ?H3; cbn; try done.
  - split_and!; [done..|]. exists a. split; [done|lia].
  - split_and!; [done|lia|]. exists a. split; [done|lia].
Qed.
Lemma rep_areas ph moved f s : file_rep opened name access ph moved f s → fb_areas s.
Proof. intros (b & a & pending & rest & f0 & Hat & _). by eapply ft_areas. Qed.

(** *** System calls on the state *)
Lemma ft_set_sys b a pending rest moved f0 f1 s (w : W) :
  fb_at opened name access b a pending rest moved f0 s → opened w (sf_fd (fb_file (sb_derived s))) name access f1 →
  fb_at opened name access b a pending rest moved f1 (fb_set_file (fb_file (sb_derived s)) w s).
Proof. intros [] Ho. by split. Qed.
Lemma ft_write b a pending rest moved f0 s cs :
  fb_at opened name access b a pending rest moved f0 s → access ≠ acc_rdonly →
  ∃ s', on_file (sf_write cs) s = (Z.of_nat (length cs), s') ∧ fb_at opened name access b a pending rest moved (file_write cs f0) s'.
Proof.
  intros Hat Hacc. destruct (rf_write _ _ _ _ _ cs (ft_open Hat) Hacc) as (w & Hw & Ho).
  unfold on_file. rewrite sf_write_sys, Hw. eexists. split; [done|]. by eapply ft_set_sys.
Qed.
Lemma ft_seek b a pending rest moved f0 s off dir :
  fb_at opened name access b a pending rest moved f0 s → (0 ≤ file_base dir f0 + off)%Z →
  ∃ s', cvt_seekoff off dir s = ((file_base dir f0 + off)%Z, s') ∧
    fb_at opened name access b a pending rest moved (file_move (Z.to_nat (file_base dir f0 + off)) f0) s'.
Proof.
  intros Hat Hoff. destruct (rf_seek _ _ _ _ _ off dir (ft_open Hat) Hoff) as (w & Hw & Ho).
  unfold cvt_seekoff, on_file, sf_seek. rewrite Hw. eexists. split; [done|]. by eapply ft_set_sys.
Qed.

(** *** The put area *)
Lemma ft_flush b a pending rest f0 s cs c :
  fb_at opened name access b a pending rest false f0 s → access ≠ acc_rdonly → cs ≠ [] → length cs ≤ length a →
  take (length cs) a = Some <$> cs →
  ∃ s', cvtbuf_flush c (Z.of_nat (length cs)) s = Ret (not_eof c, s') ∧
    fb_at opened name access b a [] rest false (file_write cs f0) s'.
Proof.
  intros Hat Hacc Hne Hl Ht. unfold cvtbuf_flush. rewrite (ft_cvt Hat).
  pose proof (ft_put Hat) as Hp. injection Hp as Hp1 Hp2 Hp3.
  rewrite decide_False by (destruct cs; cbn; [done|lia]). rewrite Hp1, Nat2Z.id. cbn [mem_read mbind option_bind].
  rewrite (ft_block Hat). cbn [mbind option_bind]. rewrite decide_True by (cbn; lia). rewrite drop_0, Ht.
  rewrite mapM_id_Some. cbn [or_ub mbind outcome_bind cvt_overflow]. unfold noconv_overflow.
  destruct (ft_write _ _ _ _ _ _ _ cs Hat Hacc) as (s' & -> & Hat'). cbn [mbind outcome_bind].
  rewrite decide_False by auto. eexists. split; [done|]. destruct Hat' as [Ho Hb Hc Hm Hs Hsm Hp' (Hpd & _) Hg].
  injection Hp' as H1 H2 H3. split; fb_cbn; try done. by rewrite H1, H3.
  split_and!; cbn; [lia|done|done].
Qed.
Lemma ft_push b a pending rest moved f0 s :
  fb_at opened name access b a pending rest moved f0 s → access ≠ acc_rdonly ∨ pending = [] →
  ∃ s', cvtbuf_push s = Ret s' ∧ fb_at opened name access b a [] rest moved (file_write pending f0) s'.
Proof.
  intros Hat Hacc. unfold cvtbuf_push. destruct (ft_pending Hat) as (Hl & Ht & Hm).
  destruct (decide (pending = [])) as [->|Hne].
  - rewrite decide_False; [by exists s|]. intros H. apply H. pose proof (ft_put Hat) as Hp.
    destruct moved; injection Hp as H1 H2 _; by rewrite H1, H2.
  - destruct Hacc as [Hacc|]; [|done]. destruct moved; [by specialize (Hm eq_refl)|].
    pose proof (ft_put Hat) as Hp. injection Hp as H1 H2 H3. rewrite H1, H2, decide_True.
    2:{ intros [= H]. by destruct pending. }
    unfold cvtbuf_overflow. rewrite H1, H2, ptr_sub_in. cbn [or_ub mbind outcome_bind].
    rewrite Z.sub_0_r. destruct (ft_flush _ _ _ _ _ _ pending None Hat Hacc Hne ltac:(lia) Ht) as (s' & -> & Hat').
    cbn [mbind outcome_bind]. by exists s'.
Qed.

Lemma ft_store b a pending f0 s c :
  fb_at opened name access b a pending [] false f0 s →
  let a' := <[length pending := Some c]> a in
  mem_store (sb_mem s) (sb_pcur s) c = Some (<[b := a']> (sb_mem s)) ∧
  fb_at opened name access b a' pending [] false f0 (sb_set_mem (<[b := a']> (sb_mem s)) s) ∧
  take (S (length pending)) a' = Some <$> (pending ++ [c]).
Proof.
  intros [Ho Hb Hc Hm [Hs Hpos] [Hsm Hsg] Hp (Hl & Ht & Hmv) Hg] a'.
  injection Hp as H1 H2 H3. split; [|split].
  - rewrite H2. cbn. rewrite Hm. cbn. by rewrite decide_True by lia.
  - split; fb_cbn; unfold a'; rewrite ?length_insert; try done.
    + apply lookup_insert_eq.
    + split; [done|]. eapply array_small_grow; [|done]. by apply (mem_grow_inserts _ _ _ (length pending) [c]).
    + by rewrite H1, H2, H3.
    + split_and!; [lia|by rewrite take_insert_ge by lia|done].
    + apply area_text_nil in Hg as [He Hok]. apply area_text_nil. split; [done|].
      by apply (area_ok_store _ _ _ _ a).
  - unfold a'. rewrite fmap_app. cbn. erewrite take_S_r by (apply list_lookup_insert_eq; lia).
    by rewrite take_insert_ge, Ht by lia.
Qed.

Lemma ft_sputc b a pending moved f0 s c :
  fb_at opened name access b a pending [] moved f0 s → access ≠ acc_rdonly →
  ∃ a' pending' f0' s', sputc c s = Ret (Some c, s') ∧ fb_at opened name access b a' pending' [] moved f0' s' ∧
    file_write pending' f0' = file_write (pending ++ [c]) f0.
Proof.
  intros Hat Hacc. destruct (ft_pending Hat) as (Hl & Ht & Hm). pose proof (ft_put Hat) as Hp. destruct moved.
  - injection Hp as H1 H2 H3. rewrite (Hm eq_refl). unfold sputc. rewrite H2, H3, decide_True by done.
    cbn [v_overflow filebuf_virtuals]. unfold cvtbuf_overflow. rewrite H1, H2. cbn [ptr_sub or_ub mbind outcome_bind].
    rewrite decide_False by auto. rewrite (ft_cvt Hat). cbn [cvt_overflow]. unfold noconv_overflow.
    destruct (ft_write _ _ _ _ _ _ _ [c] Hat Hacc) as (s' & -> & Hat'). cbn [mbind outcome_bind]. rewrite decide_False by auto.
    exists a, pending, (file_write [c] f0), s'. split; [done|]. split; [done|]. by rewrite (Hm eq_refl).
  - injection Hp as H1 H2 H3. destruct (ft_store b a pending f0 s c Hat) as (Hst & Hat' & Ht').
    destruct (decide (length pending < length a - 1)) as [Hlt|Hge].
    + rewrite (sputc_in c b (length pending) (length a - 1) a s) by (done || (eapply ft_block; eassumption) || lia).
      exists (<[length pending := Some c]> a), (pending ++ [c]), f0, (put_into b (length pending) a [c] s).
      split; [done|]. split; [|done]. destruct Hat' as [Ho Hb Hc Hm' Hs Hsm Hp' _ Hg]. injection Hp' as Hp1 Hp2 Hp3.
      split; try done; cbn; rewrite ?length_app, ?length_insert in *; cbn.
      * by rewrite H1, H3.
      * split_and!; [lia|by rewrite Nat.add_1_r|done].
    + unfold sputc. rewrite H2, H3, decide_True by (do 2 f_equal; lia). cbn [v_overflow filebuf_virtuals].
      unfold cvtbuf_overflow. rewrite Hst, H1, H2, ptr_sub_in. cbn [or_ub mbind outcome_bind].
      rewrite decide_True by done. rewrite Z.sub_0_r.
      replace (Z.of_nat (length pending) + 1)%Z with (Z.of_nat (length (pending ++ [c]))) by (rewrite length_app; cbn; lia).
      destruct (ft_flush _ _ _ _ _ _ (pending ++ [c]) (Some c) Hat' Hacc) as (s' & -> & Hat2).
      * by destruct pending.
      * rewrite length_app, length_insert. cbn. destruct (ft_size Hat). lia.
      * by rewrite length_app, Nat.add_1_r.
      * by exists (<[length pending := Some c]> a), [], (file_write (pending ++ [c]) f0), s'.
Qed.

(** *** The get area *)
Definition file_reading moved f s : Prop := ∃ b a rest,
  fb_at opened name access b a [] rest moved (file_skip (length rest) f) s ∧ take (length rest) (file_rest f) = rest.
Definition file_next f : open_file := match file_rest f with [] => f | _ => file_skip 1 f end.

Lemma ft_setg b a pending rest moved f0 s g p q l :
  fb_at opened name access b a pending rest moved f0 s → area_text (sb_mem s) p q l → array_small (sb_mem s) q →
  fb_at opened name access b a pending l moved f0 (setg g p q s).
Proof. intros [????? []] Ha Hq. by split. Qed.

Lemma ft_underflow b a moved f s :
  fb_at opened name access b a [] [] moved f s → access ≠ acc_wronly →
  let cs := take (length a) (file_rest f) in
  ∃ a' s', noconv_underflow (Some (b, 0)) s = Ret (Z.of_nat (length cs), Some (b, 0), s') ∧
    fb_at opened name access b a' [] [] moved (file_skip (length cs) f) s' ∧
    area_text (sb_mem s') (Some (b, 0)) (Some (b, length cs)) cs.
Proof.
  intros Hat Hacc cs. unfold noconv_underflow, on_file. rewrite sf_read_sys, <-(proj1 (ft_size Hat)).
  destruct (rf_read _ _ _ _ _ (Z.of_nat (length a)) (ft_open Hat) Hacc) as (w & Hw & Ho); [lia|].
  rewrite Nat2Z.id in Hw, Ho. rewrite Hw. fold cs in Ho |- *. cbn [fb_set_file sb_set_derived sb_mem mem_copy mbind option_bind].
  assert (Hl : length cs ≤ length a) by (unfold cs; rewrite length_take; lia).
  rewrite (ft_block Hat). cbn [mbind option_bind]. rewrite decide_True by (cbn; lia). cbn [or_ub mbind outcome_bind].
  eexists (list_inserts 0 (Some <$> cs) a), _. split; [done|]. destruct Hat as [_ Hb Hc Hm [Hs Hpos] [Hsm Hsg] Hp (Hpd & Ht & Hmv) Hg].
  assert (Hgr : mem_grow (sb_mem s) (<[b := list_inserts 0 (Some <$> cs) a]> (sb_mem s))) by by apply mem_grow_inserts.
  split.
  - split; fb_cbn; rewrite ?length_inserts; try done; [apply lookup_insert_eq|split; [done|by eapply array_small_grow]|].
    apply area_text_nil in Hg as [He Hok]. apply area_text_nil. split; [done|].
    by eapply area_ok_grow.
  - fb_cbn. cbn. split_and!; [done..|]. exists (list_inserts 0 (Some <$> cs) a). rewrite lookup_insert_eq, length_inserts.
    split_and!; [done..|]. rewrite drop_0, <-(take_drop (length cs) a), list_inserts_0_r by (rewrite length_fmap, length_take; lia).
    by rewrite take_app_length' by by rewrite length_fmap.
Qed.

(** What is left in the get area is the front of what is left of the file. *)
Lemma file_rest_front l f : take (length l) (file_rest f) = l → file_rest f = l ++ file_rest (file_skip (length l) f).
Proof. intros H. rewrite file_rest_skip. rewrite <-(take_drop (length l) (file_rest f)) at 1. by rewrite H. Qed.


(** The characters read by the converter, once more than one, are the get area. *)
Lemma ft_fill b a moved f s l :
  fb_at opened name access b a [] [] moved (file_skip (length l) f) s → area_text (sb_mem s) (Some (b, 0)) (Some (b, length l)) l →
  take (length l) (file_rest f) = l →
  ∃ s', cvtbuf_fill (Some (b, 0)) (Z.of_nat (length l)) s = Ret s' ∧ sb_mem s' = sb_mem s ∧ sb_gcur s' = Some (b, 0) ∧
    sb_gend s' = Some (b, length l) ∧ file_reading moved f s'.
Proof.
  intros Hat Ht Hl. unfold cvtbuf_fill. pose proof Ht as (_ & _ & a' & Ha' & Hle & _).
  rewrite (ptr_add_in _ b 0 a') by done. cbn [or_ub mbind outcome_bind]. eexists. split; [done|].
  split_and!; [done..|]. exists b, a, l. split; [|done]. eapply ft_setg; [done..|].
  exists a. split; [by eapply ft_block|apply (ft_small Hat)].
Qed.
Lemma take_nil_pos {A} n (l : list A) : 0 < n → take n l = [] → l = [].
Proof. destruct n, l; cbn; done || lia. Qed.
Lemma head_take_pos {A} n (l : list A) : 0 < n → head (take n l) = head l.
Proof. destruct n, l; cbn; done || lia. Qed.

Lemma take_front_length {A} n (l : list A) : take (length (take n l)) l = take n l.
Proof. rewrite length_take. destruct (decide (n ≤ length l)); [by rewrite Nat.min_l|by rewrite Nat.min_r, !take_ge by lia]. Qed.

Lemma reading_underflow moved f s b a :
  fb_at opened name access b a [] [] moved f s → access ≠ acc_wronly →
  ∃ s', cvtbuf_underflow s = Ret (head (file_rest f), s') ∧ file_reading moved f s'.
Proof.
  intros Hat Hacc. destruct (proj1 (area_text_nil _ _ _) (ft_get Hat)) as [He _].
  unfold cvtbuf_underflow. rewrite decide_True, (ft_cvt Hat) by done. cbn [cvt_underflow].
  destruct (ft_underflow _ _ _ _ _ Hat Hacc) as (a' & s1 & -> & Hat' & Ht). cbn [mbind outcome_bind].
  remember (take (length a) (file_rest f)) as cs eqn:Hcs. destruct (ft_size Hat) as [_ Hpos].
  destruct cs as [|c cs'].
  - cbn. rewrite (take_nil_pos _ _ Hpos (eq_sym Hcs)). exists s1. split; [done|]. exists b, a', []. split; [done|apply take_0].
  - rewrite decide_False by (cbn; lia). pose proof (take_front_length (length a) (file_rest f)) as Htake. rewrite <-Hcs in Htake.
    destruct (ft_fill _ _ _ _ _ _ Hat' Ht Htake) as (s2 & -> & Hm & Hc & He2 & Hrd). cbn [mbind outcome_bind].
    destruct (area_text_cons _ _ _ _ _ Ht) as (_ & _ & _ & Hload & _). rewrite Hm, Hc, Hload. cbn [or_ub mbind outcome_bind].
    exists s2. split; [|done]. by rewrite <-(head_take_pos (length a)), <-Hcs.
Qed.

Lemma reading_bump moved f s : file_reading moved f s → sb_gcur s ≠ sb_gend s →
  ∃ c s', head (file_rest f) = Some c ∧ file_next f = file_skip 1 f ∧ mem_load (sb_mem s) (sb_gcur s) = Some c ∧
    gbump 1 s = Some s' ∧ sb_mem s' = sb_mem s ∧ ptr_add (sb_mem s) (sb_gcur s') (-1) = Some (sb_gcur s) ∧
    file_reading moved (file_skip 1 f) s'.
Proof.
  intros (b & a & rest & Hat & Hr) Hne. destruct rest as [|c rest].
  { destruct Hne. by apply (area_text_nil (sb_mem s)), (ft_get Hat). }
  destruct (area_text_cons _ _ _ _ _ (ft_get Hat)) as (b' & i & Hgc & Hload & Hadd & Ht).
  pose proof (file_rest_front _ _ Hr) as Hf. exists c. unfold gbump. rewrite wraps_int, Hadd by lia. cbn [mbind option_bind]. eexists.
  split; [by rewrite Hf|]. split; [unfold file_next; by rewrite Hf|]. split; [done|]. split; [done|]. split; [done|].
  split.
  - fb_cbn. rewrite Hgc in Hadd |- *. cbn in Hadd |- *. destruct (sb_mem s !! b') as [a'|]; [|done]. cbn in Hadd |- *.
    case_decide; [|done]. rewrite decide_True by lia. do 3 f_equal. lia.
  - exists b, a, rest. split.
    + eapply ft_setg in Hat; [|exact Ht|apply (ft_small Hat)]. rewrite file_skip_skip. exact Hat.
    + rewrite file_rest_skip, Hf. cbn [app drop]. rewrite drop_0. by rewrite take_app_length.
Qed.

Lemma reading_uflow moved f s b a :
  fb_at opened name access b a [] [] moved f s → access ≠ acc_wronly →
  ∃ s', cvtbuf_uflow s = Ret (head (file_rest f), s') ∧ file_reading moved (file_next f) s'.
Proof.
  intros Hat Hacc. destruct (proj1 (area_text_nil _ _ _) (ft_get Hat)) as [He _].
  unfold cvtbuf_uflow. rewrite decide_True, (ft_cvt Hat) by done. cbn [cvt_underflow].
  destruct (ft_underflow _ _ _ _ _ Hat Hacc) as (a' & s1 & -> & Hat' & Ht). cbn [mbind outcome_bind].
  remember (take (length a) (file_rest f)) as cs eqn:Hcs. destruct (ft_size Hat) as [_ Hpos].
  pose proof (take_front_length (length a) (file_rest f)) as Htake. rewrite <-Hcs in Htake.
  destruct cs as [|c cs']; [|rewrite decide_False by (cbn; lia)].
  { cbn. unfold file_next. rewrite (take_nil_pos _ _ Hpos (eq_sym Hcs)). exists s1. split; [done|].
    exists b, a', []. split; [done|apply take_0]. }
  assert (Hhd : head (file_rest f) = Some c) by by rewrite <-(head_take_pos (length a)), <-Hcs.
  destruct (area_text_cons _ _ _ _ _ Ht) as (_ & _ & _ & Hload & _).
  destruct (decide (cs' = [])) as [->|Hne].
  - rewrite decide_True, Hload, Hhd by done. cbn [or_ub mbind outcome_bind]. exists s1. split; [done|].
    exists b, a', []. cbn [length]. rewrite file_skip_0. split; [|apply take_0].
    unfold file_next. destruct (file_rest f); [done|exact Hat'].
  - rewrite decide_False by (destruct cs'; cbn; [done|lia]).
    destruct (ft_fill _ _ _ _ _ _ Hat' Ht Htake) as (s2 & -> & Hm & Hc & He2 & Hrd). cbn [mbind outcome_bind].
    destruct (reading_bump moved f s2 Hrd) as (d & s3 & Hd & Hn & Hl & -> & Hm3 & Hback & Hrd3); [by rewrite Hc, He2|].
    cbn [or_ub mbind outcome_bind]. rewrite Hm3, Hback. cbn [or_ub mbind outcome_bind option_bind].
    rewrite Hl. cbn [or_ub mbind outcome_bind]. exists s3. by rewrite Hd, Hn.
Qed.

Lemma reading_empty moved f s : file_reading moved f s → sb_gcur s = sb_gend s → ∃ b a, fb_at opened name access b a [] [] moved f s.
Proof.
  intros (b & a & rest & Hat & Hr) He. exists b, a. pose proof (proj1 (area_text_ne _ _ _ _ (ft_get Hat)) He) as ->.
  by rewrite file_skip_0 in Hat.
Qed.
Lemma reading_sgetc moved f s : file_reading moved f s → access ≠ acc_wronly →
  ∃ s', sgetc s = Ret (head (file_rest f), s') ∧ file_reading moved f s'.
Proof.
  intros Hrd Hacc. unfold sgetc. case_decide as He.
  - destruct (reading_empty moved f s Hrd (eq_sym He)) as (b & a & Hat). exact (reading_underflow moved f s b a Hat Hacc).
  - destruct (reading_bump moved f s Hrd) as (c & s' & Hd & _ & Hl & _); [intros H; by apply He|]. rewrite Hl, Hd. by exists s.
Qed.
Lemma reading_sbumpc moved f s : file_reading moved f s → access ≠ acc_wronly →
  ∃ s', sbumpc s = Ret (head (file_rest f), s') ∧ file_reading moved (file_next f) s'.
Proof.
  intros Hrd Hacc. unfold sbumpc. case_decide as He.
  - destruct (reading_bump moved f s Hrd He) as (c & s' & Hd & Hn & Hl & -> & _ & _ & Hrd'). rewrite Hl, Hd, Hn. by exists s'.
  - destruct (reading_empty moved f s Hrd He) as (b & a & Hat). exact (reading_uflow moved f s b a Hat Hacc).
Qed.

(** *** The operations *)
Local Notation rep := (file_rep opened name access).

Lemma rep_reading ph moved f s : rep ph moved f s → ph ≠ FWriting → file_reading moved f s.
Proof.
  intros (b & a & pending & rest & f0 & Hat & Hph & Hf & Hr) Hne. exists b, a, rest.
  assert (pending = []) as -> by by destruct ph as [| |]; [destruct Hph|..]. by rewrite Hf.
Qed.
Lemma reading_rep moved f s : file_reading moved f s → rep FReading moved f s.
Proof. intros (b & a & rest & Hat & Hr). by exists b, a, [], rest, (file_skip (length rest) f). Qed.

Lemma rep_sputc ph moved f s c : rep ph moved f s → ph ≠ FReading → access ≠ acc_rdonly →
  ∃ s', sputc c s = Ret (Some c, s') ∧ rep FWriting moved (file_put f c) s'.
Proof.
  intros (b & a & pending & rest & f0 & Hat & Hph & Hf & Hr) Hne Hacc.
  assert (rest = []) as -> by by destruct ph as [| |]; [destruct Hph|..]. cbn [length] in Hf. rewrite file_skip_0 in Hf.
  destruct (ft_sputc _ _ _ _ _ _ c Hat Hacc) as (a' & pending' & f0' & s' & Hs & Hat' & Hw). exists s'. split; [done|].
  exists b, a', pending', [], f0'. split; [done|]. split; [done|]. cbn [length]. rewrite file_skip_0, take_0, Hw, file_write_app, <-Hf.
  done.
Qed.

Definition pushed (ph : file_phase) : file_phase := match ph with FWriting => FIdle | _ => ph end.
Lemma ft_of_rep ph moved f s : rep ph moved f s → (ph = FWriting → access ≠ acc_rdonly) →
  ∃ b a rest s', cvtbuf_push s = Ret s' ∧ fb_at opened name access b a [] rest moved (file_skip (length rest) f) s' ∧
    take (length rest) (file_rest f) = rest ∧ (ph ≠ FReading → rest = []) ∧ fb_cvt (sb_derived s) ≠ None ∧ fb_buffered (sb_derived s) = true.
Proof.
  intros (b & a & pending & rest & f0 & Hat & Hph & Hf & Hr) Hacc.
  destruct (ft_push b a pending rest moved f0 s Hat) as (s' & Hp & Hat').
  { destruct ph as [| |]; [right; by destruct Hph|by right|left; by apply Hacc]. }
  exists b, a, rest, s'. rewrite Hf. split_and!; try done.
  - destruct ph as [| |]; [by destruct Hph|done|done].
  - by rewrite (ft_cvt Hat).
  - apply (ft_buffered Hat).
Qed.
Lemma rep_sync ph moved f s : rep ph moved f s → (ph = FWriting → access ≠ acc_rdonly) →
  ∃ s', cvtbuf_sync s = Ret (0%Z, s') ∧ rep (pushed ph) moved f s'.
Proof.
  intros Hrep Hacc. destruct (ft_of_rep ph moved f s Hrep Hacc) as (b & a & rest & s' & Hp & Hat & Hr & Hrest & _).
  unfold cvtbuf_sync. rewrite Hp. exists s'. split; [done|]. exists b, a, [], rest, (file_skip (length rest) f).
  split; [done|]. split; [|done]. destruct ph as [| |]; cbn; [split; [done|by apply Hrest]|done|split; [done|by apply Hrest]].
Qed.

Lemma ft_reset b a rest moved f s : fb_at opened name access b a [] rest moved f s →
  fb_at opened name access b a [] [] true f (setp None None (setg None None None s)).
Proof. intros []. split; fb_cbn; try done; [by destruct ft_small0|by destruct ft_pending0 as (? & ? & _)]. Qed.
Lemma file_move_skip n k f : file_move n (file_skip k f) = file_move n f.
Proof. done. Qed.

(** Where the code looks for the position after the flush. *)
Lemma ft_seek_base b a rest moved f s off dir :
  fb_at opened name access b a [] rest moved (file_skip (length rest) f) s →
  (dir = seek_cur → moved = true ∨ rest = []) →
  ∃ s', seek_base off dir s = Ret ((file_base dir f + off)%Z, s') ∧ ∃ n, fb_at opened name access b a [] rest moved (file_move n f) s'.
Proof.
  intros Hat Hcur. unfold seek_base. destruct dir.
  - exists s. split; [done|]. by eexists.
  - destruct (ft_seek _ _ _ _ _ _ _ 0 seek_cur Hat) as (s' & -> & Hat'); [cbn; lia|]. cbn [file_base] in *.
    exists s'. split; [|by eexists]. rewrite Z.add_0_r. cbn [file_skip of_pos].
    pose proof (ft_put Hat') as Hp. pose proof (area_text_sub _ _ _ _ (ft_get Hat')) as Hsub. destruct (Hcur eq_refl) as [->| ->].
    + injection Hp as H1 H2 H3. rewrite H2, H3, decide_True, Hsub by done. cbn. do 2 f_equal. lia.
    + case_decide; [rewrite Hsub|]; cbn; do 2 f_equal; lia.
  - destruct (ft_seek _ _ _ _ _ _ _ 0 seek_end Hat) as (s' & -> & Hat'); [cbn; lia|].
    exists s'. split; [|by eexists]. by rewrite Z.add_0_r.
Qed.
Lemma rep_seekoff ph moved f s off dir which : rep ph moved f s → (ph = FWriting → access ≠ acc_rdonly) →
  (ph = FReading → dir = seek_cur → moved = true) → (0 ≤ file_base dir f + off)%Z →
  ∃ s', cvtbuf_seekoff off dir which s = Ret ((file_base dir f + off)%Z, s') ∧
    rep FIdle true (file_move (Z.to_nat (file_base dir f + off)) f) s'.
Proof.
  intros Hrep Hacc Hcur Hoff. destruct (ft_of_rep ph moved f s Hrep Hacc) as (b & a & rest & s1 & Hp & Hat & Hr & Hrest & Hcvt & Hbuf).
  unfold cvtbuf_seekoff. destruct (fb_cvt _); [|done]. rewrite Hbuf, Hp. cbn [mbind outcome_bind].
  destruct (ft_seek_base _ _ _ _ _ _ off dir Hat) as (s2 & -> & n & Hat2).
  { intros Hd. destruct (decide (ph = FReading)) as [Hph|Hph]; [left; by apply Hcur|right; by apply Hrest]. }
  cbn [mbind outcome_bind]. destruct (ft_seek _ _ _ _ _ _ _ (file_base dir f + off) seek_beg (ft_reset _ _ _ _ _ _ Hat2)) as (s3 & -> & Hat3); [done|].
  cbn [file_base] in *. rewrite Z.add_0_l in *. exists s3. split; [done|].
  exists b, a, [], [], (file_move (Z.to_nat (file_base dir f + off)) f). split; [done|]. split; [done|].
  by rewrite file_skip_0, take_0.
Qed.

(** *** Blocks *)
Lemma rep_put_each cs count ph moved f s : rep ph moved f s → ph ≠ FReading → access ≠ acc_rdonly →
  ∃ s', put_each count cs s = Ret (count + length cs, s') ∧ rep FWriting moved (file_write cs f) s'.
Proof.
  revert count ph f s. induction cs as [|c cs IH]; intros count ph f s Hrep Hne Hacc; cbn [put_each length].
  - exists s. rewrite Nat.add_0_r. split; [done|]. destruct Hrep as (b & a & pending & rest & f0 & Hat & Hph & Hf).
    exists b, a, pending, rest, f0. split_and!; try done; [|apply Hf..]. destruct ph as [| |]; [apply Hph|done|done].
  - destruct (rep_sputc ph moved f s c Hrep Hne Hacc) as (s1 & -> & Hrep1). cbn [mbind outcome_bind].
    destruct (IH (S count) FWriting (file_put f c) s1 Hrep1) as (s2 & -> & Hrep2); [done..|].
    exists s2. by rewrite Nat.add_succ_r.
Qed.
Definition file_read (n : nat) f : list Z * open_file := let cs := take n (file_rest f) in (cs, file_skip (length cs) f).
Lemma file_read_S n f c : head (file_rest f) = Some c →
  file_read (S n) f = (c :: (file_read n (file_skip 1 f)).1, (file_read n (file_skip 1 f)).2).
Proof.
  intros Hc. unfold file_read. rewrite file_rest_skip. destruct (file_rest f) as [|d l]; [done|]. injection Hc as ->. cbn.
  by rewrite drop_0, file_skip_skip.
Qed.
Lemma file_read_nil n f : head (file_rest f) = None → file_read n f = ([], f).
Proof. intros Hc. unfold file_read. destruct (file_rest f); [|done]. by rewrite take_nil, file_skip_0. Qed.
Lemma reading_get_each n acc moved f s : file_reading moved f s → access ≠ acc_wronly →
  ∃ s', get_each n acc s = Ret (acc ++ (file_read n f).1, s') ∧ file_reading moved (file_read n f).2 s'.
Proof.
  revert acc f s. induction n as [|n IH]; intros acc f s Hrd Hacc; cbn [get_each].
  - exists s. unfold file_read. cbn. by rewrite app_nil_r, file_skip_0.
  - destruct (reading_sbumpc moved f s Hrd Hacc) as (s1 & -> & Hrd1). cbn [mbind outcome_bind]. unfold file_next in Hrd1.
    destruct (file_rest f) as [|c l] eqn:Hf; cbn [head].
    + exists s1. rewrite file_read_nil by by rewrite Hf. by rewrite app_nil_r.
    + destruct (IH (acc ++ [c]) (file_skip 1 f) s1 Hrd1 Hacc) as (s2 & -> & Hrd2). exists s2.
      rewrite (file_read_S n f c) by by rewrite Hf. cbn [fst snd]. by rewrite <-app_assoc.
Qed.
End rep.

(** ** Sequences of operations *)
Inductive file_op :=
  | FoPutc (c : Z) | FoPutn (cs : list Z) | FoGetc | FoBumpc | FoGetn (n : Z)
  | FoSync | FoSeekoff (off : Z) (dir : seekdir) | FoSeekpos (pos : Z).
Inductive file_res := FrChar (c : option Z) | FrCount (n : nat) | FrText (cs : list Z) | FrPos (n : Z).

Definition run_file_op {W} `{!SysFiles W} (op : file_op) (s : sbuf (filebuf W)) : outcome (file_res * sbuf (filebuf W)) :=
  match op with
  | FoPutc c => '(r, s) ← sputc c s; Ret (FrChar r, s)
  | FoPutn cs => '(n, s) ← xsputn cs s; Ret (FrCount n, s)
  | FoGetc => '(r, s) ← sgetc s; Ret (FrChar r, s)
  | FoBumpc => '(r, s) ← sbumpc s; Ret (FrChar r, s)
  | FoGetn n => '(cs, s) ← xsgetn n s; Ret (FrText cs, s)
  | FoSync => '(n, s) ← v_sync s; Ret (FrPos n, s)
  | FoSeekoff off dir => '(n, s) ← v_seekoff off dir om_inout s; Ret (FrPos n, s)
  | FoSeekpos pos => '(n, s) ← v_seekpos pos om_inout s; Ret (FrPos n, s)
  end.
Fixpoint run_file_ops {W} `{!SysFiles W} (ops : list file_op) (s : sbuf (filebuf W)) : outcome (list file_res * sbuf (filebuf W)) :=
  match ops with
  | [] => Ret ([], s)
  | op :: ops => '(r, s) ← run_file_op op s; '(rs, s) ← run_file_ops ops s; Ret (r :: rs, s)
  end.

(** The specification: a file, whether one has last read or written, and whether a
    position has been set. *)
Record file_spec := FileSpec { fs_file : open_file; fs_phase : file_phase; fs_moved : bool }.
Definition file_step (op : file_op) (t : file_spec) : file_res * file_spec :=
  let '(FileSpec f ph moved) := t in
  let seek n := (FrPos n, FileSpec (file_move (Z.to_nat n) f) FIdle true) in
  match op with
  | FoPutc c => (FrChar (Some c), FileSpec (file_put f c) FWriting moved)
  | FoPutn cs => (FrCount (length cs), FileSpec (file_write cs f) FWriting moved)
  | FoGetc => (FrChar (head (file_rest f)), FileSpec f FReading moved)
  | FoBumpc => (FrChar (head (file_rest f)), FileSpec (file_next f) FReading moved)
  | FoGetn n => (FrText (file_read (Z.to_nat n) f).1, FileSpec (file_read (Z.to_nat n) f).2 FReading moved)
  | FoSync => (FrPos 0, FileSpec f (pushed ph) moved)
  | FoSeekoff off dir => seek (file_base dir f + off)%Z
  | FoSeekpos pos => seek pos
  end.
Definition file_op_ok (access : sys_access) (op : file_op) (t : file_spec) : Prop :=
  let '(FileSpec f ph moved) := t in
  match op with
  | FoPutc _ | FoPutn _ => ph ≠ FReading ∧ access ≠ acc_rdonly
  | FoGetc | FoBumpc | FoGetn _ => ph ≠ FWriting ∧ access ≠ acc_wronly
  | FoSync => True
  | FoSeekoff off dir => (0 ≤ file_base dir f + off)%Z ∧ (ph = FReading → dir = seek_cur → moved = true)
  | FoSeekpos pos => (0 ≤ pos)%Z
  end.
Fixpoint file_steps (ops : list file_op) (t : file_spec) : list file_res * file_spec :=
  match ops with
  | [] => ([], t)
  | op :: ops => let '(r, t) := file_step op t in let '(rs, t) := file_steps ops t in (r :: rs, t)
  end.
Fixpoint file_ops_ok (access : sys_access) (ops : list file_op) (t : file_spec) : Prop :=
  match ops with [] => True | op :: ops => file_op_ok access op t ∧ file_ops_ok access ops (file_step op t).2 end.

Section run.
Context {W : Type} `{!SysFiles W}.
Context (named : W → list Z → option (list Z) → Prop) (opened : W → Z → list Z → sys_access → open_file → Prop).
Context `{!RegularFiles W named opened}.
Context (name : list Z) (access : sys_access).

(** The buffer stands for the file of the specification. *)
Definition spec_rep (t : file_spec) (s : sbuf (filebuf W)) : Prop :=
  file_rep opened name access (fs_phase t) (fs_moved t) (fs_file t) s ∧ (fs_phase t = FWriting → access ≠ acc_rdonly).

Lemma file_op_spec op t s : spec_rep t s → file_op_ok access op t →
  ∃ s', run_file_op op s = Ret ((file_step op t).1, s') ∧ spec_rep (file_step op t).2 s'.
Proof.
  destruct t as [f ph moved]. intros [Hrep Hacc] Hok. cbn [fs_phase fs_moved fs_file] in *.
  pose proof (rep_areas opened name access _ _ _ _ Hrep) as Ha.
  destruct op; cbn [file_op_ok run_file_op file_step] in *.
  - destruct Hok as [Hne Hw]. destruct (rep_sputc named opened name access ph moved f s c Hrep Hne Hw) as (s' & -> & Hr). by exists s'.
  - destruct Hok as [Hne Hw]. rewrite (xsputn_each fb_areas) by done.
    destruct (rep_put_each named opened name access cs 0 ph moved f s Hrep Hne Hw) as (s' & -> & Hr). by exists s'.
  - destruct Hok as [Hne Hw]. pose proof (rep_reading opened name access _ _ _ _ Hrep Hne) as Hrd.
    destruct (reading_sgetc named opened name access moved f s Hrd Hw) as (s' & -> & Hr). exists s'.
    split; [done|]. split; [by apply reading_rep|done].
  - destruct Hok as [Hne Hw]. pose proof (rep_reading opened name access _ _ _ _ Hrep Hne) as Hrd.
    destruct (reading_sbumpc named opened name access moved f s Hrd Hw) as (s' & -> & Hr). exists s'.
    split; [done|]. split; [by apply reading_rep|done].
  - destruct Hok as [Hne Hw]. pose proof (rep_reading opened name access _ _ _ _ Hrep Hne) as Hrd.
    rewrite (xsgetn_each fb_areas) by done.
    destruct (reading_get_each named opened name access (Z.to_nat n) [] moved f s Hrd Hw) as (s' & -> & Hr). exists s'.
    split; [done|]. split; [by apply reading_rep|done].
  - destruct (rep_sync named opened name access ph moved f s Hrep Hacc) as (s' & Hs & Hr). cbn [v_sync filebuf_positions].
    rewrite Hs. exists s'. split; [done|]. split; [done|]. by destruct ph.
  - destruct Hok as [Hoff Hcur].
    destruct (rep_seekoff named opened name access ph moved f s off dir om_inout Hrep Hacc Hcur Hoff) as (s' & Hs & Hr).
    cbn [v_seekoff filebuf_positions]. rewrite Hs. by exists s'.
  - destruct (rep_seekoff named opened name access ph moved f s pos seek_beg om_inout Hrep Hacc) as (s' & Hs & Hr); [done|done|].
    cbn [v_seekpos filebuf_positions]. unfold cvtbuf_seekpos. rewrite Hs. by exists s'.
Qed.

Lemma file_ops_spec ops t s : spec_rep t s → file_ops_ok access ops t →
  ∃ s', run_file_ops ops s = Ret ((file_steps ops t).1, s') ∧ spec_rep (file_steps ops t).2 s'.
Proof.
  revert t s. induction ops as [|op ops IH]; intros t s Hrep Hok; cbn [run_file_ops file_steps file_ops_ok] in *.
  { by exists s. }
  destruct Hok as [Hok1 Hok]. destruct (file_op_spec op t s Hrep Hok1) as (s1 & -> & Hrep1).
  destruct (file_step op t) as [r t1]. cbn [mbind outcome_bind fst snd] in *. destruct (IH t1 s1 Hrep1 Hok) as (s2 & -> & Hrep2).
  destruct (file_steps ops t1) as [rs t2]. by exists s2.
Qed.

(** ** Opening and closing *)

(** A buffer without a file; [d] is what is in the file [name]. *)
Record fb_closed (d : option (list Z)) (s : sbuf (filebuf W)) : Prop := FbClosed {
  fc_fd : sf_fd (fb_file (sb_derived s)) = (-1)%Z;
  fc_cvt : fb_cvt (sb_derived s) = None;
  fc_buffered : fb_buffered (sb_derived s) = true;
  fc_facet : cv_always_noconv (fb_facet (sb_derived s)) = true;
  fc_named : named (fb_sys (sb_derived s)) name d;
}.
(** No characters are left to read, in no array longer than an int counts. *)
Definition get_empty (s : sbuf (filebuf W)) : Prop :=
  area_text (sb_mem s) (sb_gcur s) (sb_gend s) [] ∧ array_small (sb_mem s) (sb_gend s).
End run.

(** The modes with which a regular file can be opened, and the file then. *)
Definition mode_ok (mode : Z) (d : option (list Z)) : Prop :=
  (of_creat (sf_flags mode) = true ∨ is_Some d) ∧ om_has mode om_app = false ∧
  (of_access (sf_flags mode) = acc_rdonly → om_has mode om_trunc = false).
Definition mode_file (mode : Z) (d : option (list Z)) : open_file :=
  let data := if om_has mode om_trunc then [] else default [] d in
  OpenFile data (if om_has mode om_ate then length data else 0).

Lemma sf_flags_trunc mode : of_trunc (sf_flags mode) = om_has mode om_trunc ∧ of_append (sf_flags mode) = om_has mode om_app.
Proof. unfold sf_flags. by destruct (om_has mode om_in), (om_has mode om_out). Qed.

Section opening.
Context {W : Type} `{!SysFiles W}.
Context (named : W → list Z → option (list Z) → Prop) (opened : W → Z → list Z → sys_access → open_file → Prop).
Context `{!RegularFiles W named opened}.
Context (name : list Z).

Lemma sf_open_ok mode d f (w : W) : sf_fd f = (-1)%Z → named w name d → mode_ok mode d →
  ∃ f' w', sf_open name mode f w = Ret (true, f', w') ∧ (0 < sf_bufsiz f' < 2 ^ 31)%Z ∧
    opened w' (sf_fd f') name (of_access (sf_flags mode)) (mode_file mode d).
Proof.
  intros Hfd Hn (Hex & Happ & Htr). destruct (sf_flags_trunc mode) as [Ht Ha].
  destruct (rf_open _ _ (sf_flags mode) _ Hn Hex) as (fd & w1 & Ho & Hop); [by rewrite Ha|by rewrite Ht|].
  unfold sf_open, sf_is_open. rewrite bool_decide_eq_true_2 by done. cbn [negb]. rewrite Ho.
  rewrite decide_True by (by eapply rf_fd).
  assert (∃ w2, (if om_has mode om_ate then (sys_lseek fd 0 seek_end w1).2 else w1) = w2 ∧
    opened w2 fd name (of_access (sf_flags mode)) (mode_file mode d)) as (w2 & -> & Hop2).
  { rewrite Ht in Hop. unfold mode_file. destruct (om_has mode om_ate); [|by eexists].
    destruct (rf_seek _ _ _ _ _ 0 seek_end Hop) as (w2 & -> & Hop2); [cbn; lia|]. exists w2. split; [done|].
    cbn in Hop2. by rewrite Z.add_0_r, Nat2Z.id in Hop2. }
  destruct (rf_stat _ _ _ _ _ Hop2) as (n & -> & Hpos). cbn [or_ub mbind outcome_bind].
  eexists _, _. cbn [sf_fd sf_bufsiz]. rewrite bool_decide_eq_false_2 by (by eapply rf_fd). cbn [negb].
  split; [done|]. cbn. split; [lia|done].
Qed.

Lemma filebuf_open_ok mode d (s : sbuf (filebuf W)) : fb_closed named name d s → get_empty s → mode_ok mode d →
  ∃ s', filebuf_open name mode s = Ret (true, s') ∧
    file_rep opened name (of_access (sf_flags mode)) FIdle false (mode_file mode d) s'.
Proof.
  intros [Hfd Hcvt Hbuf Hfac Hn] [Hg Hsg] Hm. destruct (sf_open_ok mode d _ _ Hfd Hn Hm) as (f' & w' & Ho & Hpos & Hop).
  unfold filebuf_open. rewrite Ho. cbn [mbind outcome_bind]. unfold cvtbuf_init. fb_cbn. rewrite Hbuf, Hfac.
  rewrite decide_False by lia. set (N := Z.to_nat (sf_bufsiz f')). assert (HN : Z.of_nat N = sf_bufsiz f') by (unfold N; lia). clearbody N.
  cbn [mem_new].
  set (b := fresh (dom (sb_mem s))). assert (Hb : sb_mem s !! b = None) by apply not_elem_of_dom_1, is_fresh.
  cbn [ptr_add mbind option_bind]. rewrite lookup_insert_eq. cbn [mbind option_bind].
  rewrite length_replicate, decide_True by lia. cbn [mbind option_bind ptr_add].
  rewrite lookup_insert_eq. cbn [mbind option_bind].
  rewrite length_replicate, decide_True by lia. cbn [or_ub mbind outcome_bind]. eexists. split; [done|].
  exists b, (replicate N None), [], [], (mode_file mode d). split; [|split; [done|by rewrite file_skip_0, take_0]].
  assert (Hgr : mem_grow (sb_mem s) (<[b := replicate N None]> (sb_mem s))).
  { intros b' a' Ha'. exists a'. rewrite lookup_insert_ne by congruence. eauto. }
  split; fb_cbn; rewrite ?length_replicate; try done.
  - apply lookup_insert_eq.
  - lia.
  - split; [lia|]. by eapply array_small_grow.
  - cbn [length]. repeat f_equal. lia.
  - split_and!; [cbn; lia|by rewrite take_0|done].
  - apply area_text_nil in Hg as [He Hok]. apply area_text_nil. split; [done|].
    by eapply area_ok_grow.
Qed.

Lemma filebuf_close_ok access ph moved f (s : sbuf (filebuf W)) :
  file_rep opened name access ph moved f s → (ph = FWriting → access ≠ acc_rdonly) →
  ∃ s', filebuf_close s = Ret (true, s') ∧ fb_closed named name (Some (of_data f)) s' ∧ (ph ≠ FReading → get_empty s').
Proof.
  intros Hrep Hacc. assert (Hopen : filebuf_is_open s = true).
  { destruct Hrep as (b & a & p & r & f0 & Hat & _). unfold filebuf_is_open, sf_is_open.
    rewrite bool_decide_eq_false_2; [done|]. by eapply rf_fd, (ft_open Hat). }
  destruct (ft_of_rep named opened name access ph moved f s Hrep Hacc) as (b & a & rest & s1 & Hp & Hat & _ & Hrest & _).
  unfold filebuf_close, cvtbuf_sync. rewrite Hopen, Hp. cbn [mbind outcome_bind].
  unfold cvtbuf_finish. rewrite (ft_cvt Hat). cbn [mbind outcome_bind]. fb_cbn. unfold sf_close, sf_is_open.
  rewrite bool_decide_eq_false_2 by (eapply rf_fd, (ft_open Hat)). cbn [negb]. eexists. split; [done|]. split.
  - split; fb_cbn; try done; [apply (ft_buffered Hat)|apply (ft_facet Hat)|].
    exact (rf_close _ _ _ _ _ (ft_open Hat)).
  - intros Hph. rewrite (Hrest Hph) in Hat. split; [exact (ft_get Hat)|apply (ft_small Hat)].
Qed.
End opening.

Lemma file_write_end cs l : file_write cs (OpenFile l (length l)) = OpenFile (l ++ cs) (length (l ++ cs)).
Proof.
  revert l. induction cs as [|c cs IH]; intros l; cbn; [by rewrite app_nil_r|].
  assert (file_put (OpenFile l (length l)) c = OpenFile (l ++ [c]) (length (l ++ [c]))) as ->.
  { unfold file_put. cbn [of_pos of_data]. rewrite Nat.sub_succ_l, Nat.sub_diag by done. cbn [replicate].
    rewrite insert_app_r_alt, Nat.sub_diag by done. cbn. f_equal. rewrite length_app. cbn. lia. }
  fold (file_write cs (OpenFile (l ++ [c]) (length (l ++ [c])))). rewrite IH. by rewrite <-app_assoc.
Qed.

(** ** A file system

    Files by name and descriptors with name, access, append mode and position; the
    blocks have two bytes, so that the buffers are small. *)
Record disk := Disk { dk_files : gmap (list Z) (list Z); dk_fds : gmap nat (list Z * sys_access * bool * nat) }.

Definition dk_entry (fd : Z) (w : disk) : option (list Z * sys_access * bool * open_file) :=
  if decide (0 ≤ fd)%Z then
    '(name, access, app, pos) ← dk_fds w !! Z.to_nat fd; d ← dk_files w !! name; Some (name, access, app, OpenFile d pos)
  else None.
Definition dk_update (fd : Z) name access app (f : open_file) (w : disk) : disk :=
  Disk (<[name := of_data f]> (dk_files w)) (<[Z.to_nat fd := (name, access, app, of_pos f)]> (dk_fds w)).
Definition dk_open (name : list Z) (flags : sys_flags) (w : disk) : Z * disk :=
  let d := dk_files w !! name in
  if of_creat flags || bool_decide (is_Some d) then
    let fd := Z.of_nat (fresh (dom (dk_fds w))) in
    (fd, dk_update fd name (of_access flags) (of_append flags) (OpenFile (if of_trunc flags then [] else default [] d) 0) w)
  else ((-1)%Z, w).
Definition dk_close (fd : Z) (w : disk) : disk := Disk (dk_files w) (delete (Z.to_nat fd) (dk_fds w)).
Definition dk_read (fd n : Z) (w : disk) : option (list Z) * disk :=
  match dk_entry fd w with
  | Some (_, acc_wronly, _, _) | None => (None, w)
  | Some (name, access, app, f) =>
      let cs := take (Z.to_nat n) (file_rest f) in (Some cs, dk_update fd name access app (file_skip (length cs) f) w)
  end.
Definition dk_write (fd : Z) (cs : list Z) (w : disk) : Z * disk :=
  match dk_entry fd w with
  | Some (_, acc_rdonly, _, _) | None => ((-1)%Z, w)
  | Some (name, access, app, f) =>
      let f := if app then file_move (length (of_data f)) f else f in
      (Z.of_nat (length cs), dk_update fd name access app (file_write cs f) w)
  end.
Definition dk_lseek (fd off : Z) (dir : seekdir) (w : disk) : Z * disk :=
  match dk_entry fd w with
  | None => ((-1)%Z, w)
  | Some (name, access, app, f) =>
      let n := (file_base dir f + off)%Z in
      if decide (0 ≤ n)%Z then (n, dk_update fd name access app (file_move (Z.to_nat n) f) w) else ((-1)%Z, w)
  end.
#[export] Instance disk_files : SysFiles disk := {|
  sys_open := dk_open; sys_close := dk_close; sys_read := dk_read; sys_write := dk_write; sys_lseek := dk_lseek;
  sys_fstat fd w := _ ← dk_entry fd w; Some (false, 2%Z);
|}.

Definition disk_named (w : disk) (name : list Z) (d : option (list Z)) : Prop := dk_files w !! name = d.
Definition disk_opened (w : disk) (fd : Z) (name : list Z) (access : sys_access) (f : open_file) : Prop :=
  dk_entry fd w = Some (name, access, false, f).

Lemma dk_entry_update fd name access app f w : (0 ≤ fd)%Z → dk_entry fd (dk_update fd name access app f w) = Some (name, access, app, f).
Proof.
  intros Hfd. unfold dk_entry, dk_update. rewrite decide_True by done. cbn. rewrite lookup_insert_eq. cbn.
  rewrite lookup_insert_eq. by destruct f.
Qed.
Lemma dk_entry_fd fd w e : dk_entry fd w = Some e → (0 ≤ fd)%Z.
Proof. unfold dk_entry. by case_decide. Qed.

#[export] Instance disk_regular : RegularFiles disk disk_named disk_opened.
Proof.
  split; unfold disk_named, disk_opened.
  - intros w name flags d Hn Hex Happ Htr. cbn [sys_open disk_files]. unfold dk_open. rewrite Hn, Happ.
    replace (of_creat flags || bool_decide (is_Some d)) with true.
    + eexists _, _. split; [done|]. apply dk_entry_update. lia.
    + destruct Hex as [->|Hd]; [done|]. rewrite bool_decide_eq_true_2 by done. by destruct (of_creat flags).
  - intros w fd name access f H%dk_entry_fd. lia.
  - intros w fd name access f H. cbn. rewrite H. by exists 2%Z.
  - intros w fd name access f n H Hacc Hn. cbn [sys_read disk_files]. unfold dk_read. rewrite H.
    pose proof (dk_entry_fd _ _ _ H). destruct access; try done; (eexists; split; [done|]; by apply dk_entry_update).
  - intros w fd name access f cs H Hacc. cbn [sys_write disk_files]. unfold dk_write. rewrite H.
    pose proof (dk_entry_fd _ _ _ H). destruct access; try done; (eexists; split; [done|]; by apply dk_entry_update).
  - intros w fd name access f off dir H Hoff. cbn [sys_lseek disk_files]. unfold dk_lseek. rewrite H, decide_True by done.
    eexists. split; [done|]. apply dk_entry_update. by eapply dk_entry_fd.
  - intros w fd name access f H. unfold dk_entry in H. case_decide; [|done].
    destruct (dk_fds w !! Z.to_nat fd) as [[[[n a] ap] pos]|]; cbn in H; [|done].
    destruct (dk_files w !! n) as [d|] eqn:Hd; cbn in H; [|done]. by injection H as <- <- _ <-.
Qed.

(** ** Properties *)

(** C18: A file buffer that was not used before is a file. The file is a
    regular one, the space for it does not run out and no system call is
    interrupted, and its block size is below 2^30 ([RegularFiles]); it exists or
    the mode creates it. The buffer is closed and buffered and has a
    locale whose facet converts nothing ([fb_closed]); the mode is not append, and
    it truncates only a file it writes ([mode_ok]). The get area of the buffer is empty: closing and opening a buffer again would leave the
    characters read before there. Then opening succeeds, and any sequence of
    reading and writing of characters and blocks, flushing and positioning has
    the results and leaves the contents which the same operations on the file
    itself have, as long as one ([file_op_ok]) only reads what was not opened
    for writing alone and only writes what was not opened for reading alone,
    flushes or sets a position between writing and reading, sets a position
    between reading and writing, asks for no position relative to the current
    one while reading before a position was set, and sets no negative one;
    closing the buffer then succeeds and leaves these contents in the file. *)
Theorem filebuf_refinement {W} `{!SysFiles W} named opened `{!RegularFiles W named opened} name mode d (s : sbuf (filebuf W)) ops :
  let access := of_access (sf_flags mode) in
  let t := FileSpec (mode_file mode d) FIdle false in
  fb_closed named name d s → get_empty s → mode_ok mode d → file_ops_ok access ops t →
  ∃ s1 s2 s3, filebuf_open name mode s = Ret (true, s1) ∧
    run_file_ops ops s1 = Ret ((file_steps ops t).1, s2) ∧
    filebuf_close s2 = Ret (true, s3) ∧
    fb_closed named name (Some (of_data (fs_file (file_steps ops t).2))) s3.
Proof.
  intros access t Hcl Hg Hm Hok. destruct (filebuf_open_ok named opened name mode d s Hcl Hg Hm) as (s1 & Ho & Hrep).
  destruct (file_ops_spec named opened name access ops t s1) as (s2 & Hr & Hrep2 & Hacc); [by split|done|].
  destruct (filebuf_close_ok named opened name access _ _ _ s2 Hrep2 Hacc) as (s3 & Hc & Hcl3 & _). by exists s1, s2, s3.
Qed.


(** What has been written to a new or truncated file is read back after
    closing the buffer and opening it again for reading, whatever the size of the
    text and of the buffer. *)
Theorem filebuf_roundtrip {W} `{!SysFiles W} named opened `{!RegularFiles W named opened} name d (s : sbuf (filebuf W)) cs n :
  fb_closed named name d s → get_empty s →
  ∃ s1 s2 s3 s4 s5, filebuf_open name (Z.lor om_out om_trunc) s = Ret (true, s1) ∧
    xsputn cs s1 = Ret (length cs, s2) ∧ filebuf_close s2 = Ret (true, s3) ∧
    fb_closed named name (Some cs) s3 ∧ filebuf_open name om_in s3 = Ret (true, s4) ∧
    xsgetn n s4 = Ret (take (Z.to_nat n) cs, s5).
Proof.
  intros Hcl Hg. destruct (filebuf_open_ok named opened name (Z.lor om_out om_trunc) d s Hcl Hg) as (s1 & Ho & Hrep).
  { split; [by left|]. split; [done|by cbn]. }
  destruct (rep_put_each named opened name _ cs 0 _ _ _ s1 Hrep) as (s2 & Hp & Hrep2); [done..|].
  destruct (filebuf_close_ok named opened name _ _ _ _ s2 Hrep2) as (s3 & Hc & Hcl3 & Hg3); [done|].
  assert (Hd : of_data (file_write cs (mode_file (Z.lor om_out om_trunc) d)) = cs).
  { change (mode_file (Z.lor om_out om_trunc) d) with (OpenFile [] (length (@nil Z))). by rewrite file_write_end. }
  rewrite Hd in Hcl3.
  destruct (filebuf_open_ok named opened name om_in (Some cs) s3 Hcl3) as (s4 & Ho4 & Hrep4); [by apply Hg3|by split; [right|]; eauto|].
  destruct (reading_get_each named opened name _ (Z.to_nat n) [] _ _ s4 (rep_reading opened name _ _ _ _ _ Hrep4 ltac:(done))) as (s5 & Hr & _); [done|].
  exists s1, s2, s3, s4, s5. rewrite (xsputn_each fb_areas) by by eapply rep_areas.
  rewrite (xsgetn_each fb_areas) by by eapply rep_areas. by split_and!.
Qed.

(** ** Witnesses *)
Definition disk_name : list Z := [100]%Z.
Definition other_name : list Z := [101]%Z.
Definition new_disk : disk := Disk {[ disk_name := [97; 98; 99]%Z; other_name := [120; 121; 122]%Z ]} ∅.
Definition new_filebuf : sbuf (filebuf disk) := filebuf_ctor ∅ new_disk (c_codecvt 0).
Lemma new_filebuf_closed : fb_closed disk_named disk_name (Some [97; 98; 99]%Z) new_filebuf.
Proof. by split. Qed.
Lemma new_filebuf_empty : get_empty new_filebuf.
Proof. by split. Qed.

Definition example_file_ops : list file_op :=
  [FoBumpc; FoSeekoff 0 seek_end; FoPutn [1; 2; 3; 4; 5; 6]%Z; FoPutc 7; FoSeekoff (-3) seek_cur; FoGetn 2; FoSync;
   FoSeekoff (-1) seek_cur; FoGetc; FoSeekpos 12; FoPutc 8; FoSync; FoBumpc; FoSeekpos 1; FoGetn 20].
Lemma filebuf_refinement_witness :
  let t := FileSpec (OpenFile [97; 98; 99]%Z 0) FIdle false in
  (file_steps example_file_ops t).1 =
    [FrChar (Some 97%Z); FrPos 3; FrCount 6; FrChar (Some 7%Z); FrPos 7; FrText [5; 6]%Z; FrPos 0; FrPos 8; FrChar (Some 6%Z);
     FrPos 12; FrChar (Some 8%Z); FrPos 0; FrChar None; FrPos 1; FrText [98; 99; 1; 2; 3; 4; 5; 6; 7; 0; 0; 8]%Z] ∧
  ∃ s1 s2 s3, filebuf_open disk_name om_inout new_filebuf = Ret (true, s1) ∧
    run_file_ops example_file_ops s1 = Ret ((file_steps example_file_ops t).1, s2) ∧
    filebuf_close s2 = Ret (true, s3) ∧
    fb_closed disk_named disk_name (Some (of_data (fs_file (file_steps example_file_ops t).2))) s3.
Proof.
  split; [vm_compute; reflexivity|].
  apply (filebuf_refinement disk_named disk_opened disk_name om_inout (Some [97; 98; 99]%Z) new_filebuf example_file_ops).
  - apply new_filebuf_closed.
  - apply new_filebuf_empty.
  - split; [right; by eexists|]. split; [reflexivity|discriminate].
  - cbn. repeat split; try discriminate; try lia.
Defined.

Lemma filebuf_roundtrip_witness :
  ∃ s1 s2 s3 s4 s5, filebuf_open disk_name (Z.lor om_out om_trunc) new_filebuf = Ret (true, s1) ∧
    xsputn [1; 2; 3; 4; 5]%Z s1 = Ret (5, s2) ∧ filebuf_close s2 = Ret (true, s3) ∧
    fb_closed disk_named disk_name (Some [1; 2; 3; 4; 5]%Z) s3 ∧ filebuf_open disk_name om_in s3 = Ret (true, s4) ∧
    xsgetn 4 s4 = Ret ([1; 2; 3; 4]%Z, s5).
Proof.
  apply (filebuf_roundtrip disk_named disk_opened disk_name (Some [97; 98; 99]%Z) new_filebuf [1; 2; 3; 4; 5]%Z 4);
    [apply new_filebuf_closed|apply new_filebuf_empty].
Defined.
