(* ===== verification/FileWide.v ===== *)
(** * Wide file buffers, and what goes wrong with file buffers

    A buffer of wide characters converts them one by one (_CS_cvt_unbuffered of
    srccxx/convert.cc with the facet of src/wcodecvt.cpp); it works only without
    buffering. The theorem about hazards shows where the file buffers of the
    library do not behave as files. *)
From S2P Require Import Prelude StreamBuf StringBuf StringText Ios FileBuf FileText.

Section wide.
Context {W : Type} `{!SysFiles W}.
Context (named : W → list Z → option (list Z) → Prop) (opened : W → Z → list Z → sys_access → open_file → Prop).
Context `{!RegularFiles W named opened}.
Context (name : list Z) (access : sys_access) (id : Z).
Implicit Types (s : sbuf (filebuf W)) (f : open_file).

Definition no_areas s : Prop :=
  sb_gbeg s = None ∧ sb_gcur s = None ∧ sb_gend s = None ∧ sb_pbeg s = None ∧ sb_pcur s = None ∧ sb_pend s = None.

(** An unbuffered buffer of wide characters without a file; with the file [f]. *)
Record wide_closed (d : option (list Z)) s : Prop := WideClosed {
  wc_fd : sf_fd (fb_file (sb_derived s)) = (-1)%Z;
  wc_buffered : fb_buffered (sb_derived s) = false;
  wc_facet : fb_facet (sb_derived s) = w_codecvt id;
  wc_named : named (fb_sys (sb_derived s)) name d;
  wc_areas : no_areas s;
}.
Record wide_at b f s : Prop := WideAt {
  wa_open : opened (fb_sys (sb_derived s)) (sf_fd (fb_file (sb_derived s))) name access f;
  wa_buffered : fb_buffered (sb_derived s) = false;
  wa_facet : fb_facet (sb_derived s) = w_codecvt id;
  wa_cvt : fb_cvt (sb_derived s) = Some (CvUnbuffered (w_codecvt id) 1 (Some (b, 0)));
  wa_block : ∃ a, sb_mem s !! b = Some a ∧ 0 < length a ≤ 4;
  wa_areas : no_areas s;
}.

Lemma w_out_1 c : w_writable c → w_out [c] 1024 = (cv_ok, 1, [wrapu 8 c]).
Proof. intros Hc. by rewrite w_out_all by by apply Forall_singleton. Qed.

Lemma wide_sputc b f s c : wide_at b f s → access ≠ acc_rdonly → w_writable c →
  ∃ s', sputc c s = Ret (Some c, s') ∧ wide_at b (file_put f (wrapu 8 c)) s'.
Proof.
  intros Hat Hacc Hc. destruct Hat as [Ho Hb Hf Hcv Ha (? & ? & ? & H1 & H2 & H3)]. unfold sputc. rewrite H2, H3, decide_True by done.
  cbn [v_overflow filebuf_virtuals]. unfold cvtbuf_overflow. rewrite H1, H2. cbn [ptr_sub or_ub mbind outcome_bind].
  rewrite decide_False by auto. rewrite Hcv. cbn [cvt_overflow length unbuffered_overflow]. rewrite decide_False by lia.
  change (drop 0 [c]) with [c]. cbn [cv_out w_codecvt]. rewrite w_out_1 by done.
  destruct (rf_write _ _ _ _ _ [wrapu 8 c] Ho Hacc) as (w & Hw & Ho'). unfold on_file. rewrite sf_write_sys, Hw.
  cbn [length]. rewrite decide_False by auto. cbn. eexists. split; [done|]. by split.
Qed.
Lemma wide_sbumpc b f s : wide_at b f s → access ≠ acc_wronly →
  ∃ s', sbumpc s = Ret (wraps 8 <$> head (file_rest f), s') ∧ wide_at b (file_next f) s'.
Proof.
  intros Hat Hacc. destruct Hat as [Ho Hb Hf Hcv (a & Ha & Hl) (? & H1 & H2 & ? & ? & ?)]. unfold sbumpc.
  rewrite H1, H2, decide_False by auto. cbn [v_uflow filebuf_virtuals]. unfold cvtbuf_uflow. rewrite H1, H2, decide_True, Hcv by done.
  cbn [cvt_underflow unbuffered_underflow]. unfold on_file. rewrite sf_read_sys.
  destruct (rf_read _ _ _ _ _ 1 Ho Hacc) as (w & -> & Ho'); [done|]. change (Z.to_nat 1) with 1 in *.
  unfold file_next. destruct (file_rest f) as [|c r] eqn:Hr; cbn [take length head fmap option_fmap option_map] in *.
  - rewrite decide_False by lia. rewrite decide_True by done. cbn. eexists. split; [done|]. rewrite file_skip_0 in Ho'. split; try done.
    by exists a.
  - rewrite take_0 in *. rewrite decide_False by (cbn; lia). rewrite decide_False by auto. cbn [cv_in w_codecvt]. unfold w_in.
    rewrite cv_clip_fits by done. cbn [length fmap list_fmap]. fb_cbn. cbn [mem_copy mbind option_bind]. rewrite Ha.
    cbn [mbind option_bind]. rewrite decide_True by (cbn; lia). cbn [or_ub mbind outcome_bind].
    rewrite decide_True by done. cbn [mbind outcome_bind]. rewrite decide_False, decide_True by done.
    fb_cbn. cbn [mem_load mbind option_bind]. rewrite lookup_insert_eq. destruct a as [|x a]; [cbn in Hl; lia|]. cbn in Hl |- *.
    eexists. split; [done|]. split; fb_cbn; try done. eexists. rewrite lookup_insert_eq. split; [done|]. cbn. lia.
Qed.

Lemma wide_put_each cs count b f s : wide_at b f s → access ≠ acc_rdonly → Forall w_writable cs →
  ∃ s', put_each count cs s = Ret (count + length cs, s') ∧ wide_at b (file_write (wrapu 8 <$> cs) f) s'.
Proof.
  intros Hat Hacc Hcs. revert count f s Hat. induction Hcs as [|c cs Hc _ IH]; intros count f s Hat; cbn [put_each length].
  { exists s. by rewrite Nat.add_0_r. }
  destruct (wide_sputc b f s c Hat Hacc Hc) as (s1 & -> & Hat1). cbn [mbind outcome_bind].
  destruct (IH (S count) _ s1 Hat1) as (s2 & -> & Hat2). exists s2. by rewrite Nat.add_succ_r.
Qed.
Lemma wide_get_each n acc b f s : wide_at b f s → access ≠ acc_wronly →
  ∃ s', get_each n acc s = Ret (acc ++ (wraps 8 <$> (file_read n f).1), s') ∧ wide_at b (file_read n f).2 s'.
Proof.
  revert acc f s. induction n as [|n IH]; intros acc f s Hat Hacc; cbn [get_each].
  - exists s. unfold file_read. cbn. by rewrite app_nil_r, file_skip_0.
  - destruct (wide_sbumpc b f s Hat Hacc) as (s1 & -> & Hat1). cbn [mbind outcome_bind]. unfold file_next in Hat1.
    destruct (file_rest f) as [|c l] eqn:Hf; cbn [head fmap option_fmap option_map].
    + exists s1. rewrite file_read_nil by by rewrite Hf. by rewrite app_nil_r.
    + destruct (IH (acc ++ [wraps 8 c]) (file_skip 1 f) s1 Hat1 Hacc) as (s2 & -> & Hat2). exists s2.
      rewrite (file_read_S n f c) by by rewrite Hf. cbn [fst snd fmap list_fmap]. by rewrite <-app_assoc.
Qed.
Lemma wide_areas b f s : wide_at b f s → fb_areas s.
Proof.
  intros [_ _ _ Hc (a & Ha & Hl) (? & H1 & H2 & H3 & H4 & H5)]. split.
  - unfold areas_ok. rewrite H1, H2, H4, H5. split; [done|]. split; [done|apply area_init_nil].
  - by rewrite H3, H4.
  - intros ??. by rewrite Hc.
  - rewrite H2, H5, Hc. split_and!; [done..|]. intros c [= <-]. exists a. split; [done|lia].
Qed.
End wide.

Section opening.
Context {W : Type} `{!SysFiles W}.
Context (named : W → list Z → option (list Z) → Prop) (opened : W → Z → list Z → sys_access → open_file → Prop).
Context `{!RegularFiles W named opened}.
Context (name : list Z) (id : Z).
Implicit Types (s : sbuf (filebuf W)) (f : open_file).

Lemma wide_setbuf m (w : W) d : named w name d →
  ∃ s', cvtbuf_setbuf true 0 (filebuf_ctor m w (w_codecvt id)) = Ret s' ∧ wide_closed named name id d s'.
Proof.
  intros Hn. unfold cvtbuf_setbuf. cbn [filebuf_ctor sbuf_ctor sb_derived fb_cvt mbind outcome_bind].
  unfold cvtbuf_init. fb_cbn. cbn. eexists. split; [done|]. by split.
Qed.
Lemma wide_open mode d s : wide_closed named name id d s → mode_ok mode d →
  ∃ s' b, filebuf_open name mode s = Ret (true, s') ∧
    wide_at opened name (of_access (sf_flags mode)) id b (mode_file mode d) s'.
Proof.
  intros [Hfd Hbuf Hfac Hn Ha] Hm. destruct (sf_open_ok named opened name mode d _ _ Hfd Hn Hm) as (f' & w' & Ho & _ & Hop).
  unfold filebuf_open. rewrite Ho. cbn [mbind outcome_bind]. unfold cvtbuf_init. fb_cbn. rewrite Hbuf, Hfac. cbn [mem_new mbind outcome_bind].
  eexists _, _. split; [done|]. split; fb_cbn; try done. eexists. rewrite lookup_insert_eq. split; [done|]. cbn. lia.
Qed.
Lemma wide_close access b f s : wide_at opened name access id b f s →
  ∃ s', filebuf_close s = Ret (true, s') ∧ wide_closed named name id (Some (of_data f)) s'.
Proof.
  intros [Ho Hb Hf Hc (a & Ha & _) Har]. unfold filebuf_close, filebuf_is_open, sf_is_open.
  rewrite bool_decide_eq_false_2 by (by eapply rf_fd). cbn [negb]. unfold cvtbuf_sync, cvtbuf_push.
  pose proof Har as (_ & _ & _ & -> & -> & _). rewrite decide_False by auto. cbn [mbind outcome_bind].
  unfold cvtbuf_finish. rewrite Hc. cbn [mem_delete mbind option_bind]. rewrite Ha. cbn [mbind option_bind].
  rewrite decide_True by done. cbn [or_ub mbind outcome_bind]. unfold sf_close, sf_is_open. fb_cbn.
  rewrite bool_decide_eq_false_2 by (by eapply rf_fd). cbn [negb]. eexists. split; [done|].
  split; fb_cbn; try done. by eapply rf_close.
Qed.
End opening.

Lemma low_byte_id c : wraps 8 (wrapu 8 c) = c ↔ w_faithful c.
Proof.
  split; [|intros Hc; by apply wraps_wrapu]. unfold w_faithful, wraps. rewrite wrapu_idem by done.
  pose proof (wrapu_range 8 c ltac:(done)) as [? ?]. case_decide; lia.
Qed.
Lemma low_bytes_id cs : (λ c, wraps 8 (wrapu 8 c)) <$> cs = cs ↔ Forall w_faithful cs.
Proof.
  induction cs as [|c cs IH]; [done|]. rewrite fmap_cons, Forall_cons, <-IH, <-low_byte_id. split; [by intros [= ? ?]|].
  intros [H1 H2]. by f_equal.
Qed.
Lemma file_read_from_start n l : (file_read n (mode_file om_in (Some l))).1 = take n l.
Proof. done. Qed.
Lemma list_fmap_compose_take {A B C} (g : B → C) (f : A → B) n l : g <$> take n (f <$> l) = (λ a, g (f a)) <$> take n l.
Proof. by rewrite <-fmap_take, <-list_fmap_compose. Qed.

(** ** Properties *)

(** An unbuffered buffer of wide characters writes characters below 255 to a new
    or truncated file one byte each and reads them back as their low eight bits
    with the sign; this gives the characters back exactly when all are between
    -128 and 127. *)
Theorem wfilebuf_roundtrip {W} `{!SysFiles W} named opened `{!RegularFiles W named opened} name id d m (w : W) cs n :
  named w name d → Forall w_writable cs →
  ∃ s0 s1 s2 s3 s4 s5, cvtbuf_setbuf true 0 (filebuf_ctor m w (w_codecvt id)) = Ret s0 ∧
    filebuf_open name (Z.lor om_out om_trunc) s0 = Ret (true, s1) ∧ xsputn cs s1 = Ret (length cs, s2) ∧
    filebuf_close s2 = Ret (true, s3) ∧ named (fb_sys (sb_derived s3)) name (Some (wrapu 8 <$> cs)) ∧
    filebuf_open name om_in s3 = Ret (true, s4) ∧
    xsgetn n s4 = Ret ((λ c, wraps 8 (wrapu 8 c)) <$> take (Z.to_nat n) cs, s5) ∧
    (((λ c, wraps 8 (wrapu 8 c)) <$> cs) = cs ↔ Forall w_faithful cs).
Proof.
  intros Hn Hcs. destruct (wide_setbuf named name id m w d Hn) as (s0 & H0 & Hc0).
  destruct (wide_open named opened name id (Z.lor om_out om_trunc) d s0 Hc0) as (s1 & b & H1 & Hat1).
  { split; [by left|]. split; [done|by cbn]. }
  destruct (wide_put_each named opened name _ id cs 0 b _ s1 Hat1) as (s2 & H2 & Hat2); [done..|].
  destruct (wide_close named opened name id _ b _ s2 Hat2) as (s3 & H3 & Hc3).
  assert (Hd : of_data (file_write (wrapu 8 <$> cs) (mode_file (Z.lor om_out om_trunc) d)) = wrapu 8 <$> cs).
  { change (mode_file (Z.lor om_out om_trunc) d) with (OpenFile [] (length (@nil Z))). by rewrite file_write_end. }
  rewrite Hd in Hc3.
  destruct (wide_open named opened name id om_in (Some (wrapu 8 <$> cs)) s3 Hc3) as (s4 & b' & H4 & Hat4).
  { split; [right; eauto|]. by split. }
  destruct (wide_get_each named opened name _ id (Z.to_nat n) [] b' _ s4 Hat4) as (s5 & H5 & _); [done|].
  exists s0, s1, s2, s3, s4, s5. rewrite (xsputn_each fb_areas) by by eapply wide_areas.
  rewrite (xsgetn_each fb_areas) by by eapply wide_areas. split_and!; try done; [by destruct Hc3|..].
  - by rewrite H5, file_read_from_start, list_fmap_compose_take.
  - apply low_bytes_id.
Qed.

(** *** Hazards *)
Definition stale_get : outcome (option Z) :=
  '(_, s) ← filebuf_open disk_name om_in new_filebuf; '(_, s) ← sbumpc s; '(_, s) ← filebuf_close s;
  '(_, s) ← filebuf_open other_name om_in s; '(c, s) ← sbumpc s; Ret c.
Definition early_tell : outcome Z :=
  '(_, s) ← filebuf_open disk_name om_in new_filebuf; '(_, s) ← sbumpc s; '(n, s) ← cvtbuf_seekoff 0 seek_cur om_inout s; Ret n.
Definition bad_seek : outcome (Z * option Z) :=
  '(_, s) ← filebuf_open disk_name om_in new_filebuf; '(_, s) ← sbumpc s; '(n, s) ← cvtbuf_seekpos (-1) om_inout s;
  '(c, s) ← sbumpc s; Ret (n, c).
Definition write_readonly : outcome (option Z * Z * bool * option (list Z)) :=
  '(_, s) ← filebuf_open disk_name om_in new_filebuf; '(c, s) ← sputc 65%Z s; '(n, s) ← cvtbuf_sync s; '(b, s) ← filebuf_close s;
  Ret (c, n, b, dk_files (fb_sys (sb_derived s)) !! disk_name).
Definition read_writeonly : outcome (option Z * sbuf (filebuf disk)) :=
  '(_, s) ← filebuf_open disk_name om_out new_filebuf; sgetc s.
Definition imbue_pending : outcome (option Z * bool * option (list Z)) :=
  '(_, s) ← filebuf_open disk_name om_out new_filebuf; '(c, s) ← sputc 65%Z s; s ← cvtbuf_imbue (c_codecvt 1) s;
  '(b, s) ← filebuf_close s; Ret (c, b, dk_files (fb_sys (sb_derived s)) !! disk_name).
Definition put_closed : outcome (option Z) :=
  '(_, s) ← filebuf_open disk_name om_out new_filebuf; '(_, s) ← filebuf_close s; '(c, s) ← sputc 65%Z s; Ret c.
Definition unbuffered_seek : outcome (option Z * Z * option Z) :=
  s ← cvtbuf_setbuf true 0 new_filebuf; '(_, s) ← filebuf_open disk_name om_in s; '(c, s) ← sgetc s;
  '(n, s) ← cvtbuf_seekpos 2 om_inout s; '(d, s) ← sgetc s; Ret (c, n, d).
Definition unbuffered_closed : outcome (option Z * sbuf (filebuf disk)) :=
  s ← cvtbuf_setbuf true 0 new_filebuf; '(_, s) ← filebuf_open disk_name om_in s; '(_, s) ← sgetc s;
  '(_, s) ← filebuf_close s; sgetc s.
Definition leaked_array : outcome bool :=
  '(_, s) ← filebuf_open disk_name om_in new_filebuf; '(_, s) ← filebuf_close s; '(m, _) ← filebuf_dtor s; Ret (bool_decide (m = ∅)).

(** Where file buffers are not files, by example on a file with the text abc and
    another with xyz: the get area outlives close, so that the next file begins
    with characters of the last one; the position reported while reading is the one
    of the file descriptor until a position has been set; a position which cannot
    be set drops the get area all the same; writing to a file opened for reading
    reports success up to close and reading one opened for writing sets the get
    area before its array; imbue loses the characters of the put area, and on a
    buffer never opened it makes a put area before an array without elements; a
    closed buffer accepts characters; without buffering a position leaves the get
    area alone, and reading after close uses a deleted array; a buffer of wide
    characters cannot be opened with buffering; the array of the converter is never
    deleted. *)
Theorem filebuf_hazards :
  stale_get = Ret (Some 98%Z) ∧
  early_tell = Ret 3%Z ∧
  bad_seek = Ret ((-1)%Z, None) ∧
  write_readonly = Ret (Some 65%Z, 0%Z, true, Some [97; 98; 99]%Z) ∧
  read_writeonly = UB ∧
  imbue_pending = Ret (Some 65%Z, true, Some [97; 98; 99]%Z) ∧
  cvtbuf_imbue (c_codecvt 1) new_filebuf = UB ∧
  put_closed = Ret (Some 65%Z) ∧
  unbuffered_seek = Ret (Some 97%Z, 2%Z, Some 97%Z) ∧
  unbuffered_closed = UB ∧
  filebuf_open disk_name om_out (filebuf_ctor ∅ new_disk (w_codecvt 0)) = UB ∧
  leaked_array = Ret false.
Proof. repeat split; vm_compute; reflexivity. Qed.

(** ** Witnesses *)
Lemma wfilebuf_roundtrip_witness :
  ∃ s0 s1 s2 s3 s4 s5, cvtbuf_setbuf true 0 (filebuf_ctor ∅ new_disk (w_codecvt 0)) = Ret s0 ∧
    filebuf_open disk_name (Z.lor om_out om_trunc) s0 = Ret (true, s1) ∧ xsputn [65; 200; -3]%Z s1 = Ret (3, s2) ∧
    filebuf_close s2 = Ret (true, s3) ∧ disk_named (fb_sys (sb_derived s3)) disk_name (Some [65; 200; 253]%Z) ∧
    filebuf_open disk_name om_in s3 = Ret (true, s4) ∧ xsgetn 7 s4 = Ret ([65; -56; -3]%Z, s5) ∧
    (((λ c, wraps 8 (wrapu 8 c)) <$> [65; 200; -3]%Z) = [65; 200; -3]%Z ↔ Forall w_faithful [65; 200; -3]%Z).
Proof.
  apply (wfilebuf_roundtrip disk_named disk_opened disk_name 0 (Some [97; 98; 99]%Z) ∅ new_disk [65; 200; -3]%Z 7); [reflexivity|].
  repeat constructor; unfold w_writable; lia.
Defined.
