(* ===== verification/FStream.v ===== *)
(** * File streams

    basic_ifstream, basic_ofstream and basic_fstream of cxxrt-source
    (srccxx/fstream.cc): a stream object (Ios) with a file buffer (FileBuf) of its
    own. Each buffer has its own copy of the state of the operating system: that
    two open streams share a file is not modelled. *)
From S2P Require Import Prelude LocaleCache NumPut NumGet StreamBuf StringBuf StringText Ios StreamRun OStream IStream FileBuf FileText.

Section fstream.
Context {W : Type} `{!SysFiles W}.
Notation D := (filebuf W).
Implicit Types (i b : nat) (loc : locale) (cv : codecvt) (w : W) (name : list Z) (mode : Z).

(** The member [_CS_m_buf] of the virtual base class, then basic_ios. *)
Definition fs_base loc b w cv i : io (iosys D) () :=
  _ ← io_modify (sys_put_buf b (filebuf_ctor ∅ w cv)); ios_ctor loc (Some b) i.
Definition fs_buf_open name mode b : io (iosys D) bool := on_buf (filebuf_open name mode) b.
Definition fs_is_open b : io (iosys D) bool := on_buf (λ s, Ret (filebuf_is_open s, s)) b.
Definition fs_close b : io (iosys D) () := _ ← on_buf filebuf_close b; mret ().
(** The default constructors of the three classes. *)
Definition fs_ctor loc b w cv i : io (iosys D) () := _ ← fs_base loc b w cv i; ios_init (Some b) i.

Definition ifstream_ctor loc name mode b w cv i : io (iosys D) () :=
  _ ← fs_base loc b w cv i; _ ← ios_init (Some b) i;
  ok ← fs_buf_open name (Z.lor mode om_in) b;
  if ok : bool then mret () else ios_setstate failbit i.
Definition ifstream_open name mode b i : io (iosys D) () :=
  ok ← fs_buf_open name (Z.lor mode om_in) b;
  if ok : bool then ios_init (Some b) i else ios_setstate failbit i.

Definition ofstream_ctor loc name mode b w cv i : io (iosys D) () :=
  _ ← fs_base loc b w cv i; _ ← fs_buf_open name (Z.lor mode om_out) b; ios_init (Some b) i.
Definition ofstream_open name mode b i : io (iosys D) () :=
  _ ← fs_buf_open name (Z.lor mode om_out) b; ios_init (Some b) i.

Definition fstream_ctor loc name mode b w cv i : io (iosys D) () :=
  _ ← fs_base loc b w cv i; _ ← fs_buf_open name (Z.lor (Z.lor mode om_in) om_out) b; ios_init (Some b) i.
Definition fstream_open name mode b i : io (iosys D) () :=
  _ ← fs_buf_open name (Z.lor (Z.lor mode om_in) om_out) b; ios_init (Some b) i.

(** The destructors: basic_ios, then the buffer. What is left of the operating
    system is returned. *)
Definition fs_dtor (cb_run : nat → ios_event → nat → Z → io (iosys D) ()) b i : io (iosys D) W :=
  _ ← ios_dtor cb_run i;
  '(_, w) ← on_buf (λ s, r ← filebuf_dtor s; Ret (r, s)) b;
  _ ← io_modify (λ s, sys_set_bufs (delete b (io_bufs s)) s);
  mret w.

(** ** The parts *)
Definition fresh_ios loc b : ios :=
  i_set_newline (loc_widen loc 10) (i_set_fill (loc_widen loc 32) (i_set_sbuf (Some b) (ios_base_init loc))).

Lemma ios_init_fresh loc b i x : i_sbuf x = Some b → i_flags x = Z.lor fl_dec fl_skipws →
  i_set_newline (loc_widen (i_loc x) 10) (i_set_fill (loc_widen (i_loc x) 32) (i_set_tie None (i_set_exceptions goodbit (i_set_state goodbit x)))) = fresh_ios loc b →
  steps_to (D := D) i (ios_init (Some b) i) x () (fresh_ios loc b).
Proof.
  intros Hb Hf <-. unfold ios_init.
  eapply steps_bind; [apply steps_modify|]. eapply steps_bind; [apply steps_modify|]. eapply steps_bind; [apply steps_ret|].
  eapply steps_bind; [apply steps_modify|]. eapply steps_bind; [apply steps_modify|]. eapply steps_bind; [apply steps_modify|].
  assert (i_set_sbuf (Some b) x = x) as -> by (rewrite <-Hb; by destruct x).
  exact (steps_modify i (λ x, i_set_newline (loc_widen (i_loc x) 10) x) _).
Qed.
Lemma fs_base_ok loc b w cv i (v : iosys D) :
  fs_base loc b w cv i v = IoRet () (sys_put_stream i (fresh_ios loc b) (sys_put_buf b (filebuf_ctor ∅ w cv) v)).
Proof.
  set (v' := sys_put_buf b (filebuf_ctor ∅ w cv) v).
  change (fs_base loc b w cv i v) with (ios_init (Some b) i (sys_put_stream i (i_set_state goodbit (i_set_sbuf (Some b) (ios_base_init loc))) v')).
  rewrite (ios_init_fresh loc b i (i_set_sbuf (Some b) (ios_base_init loc)) eq_refl eq_refl eq_refl) by apply put_stream_at.
  by rewrite put_stream_put.
Qed.

Lemma init_fresh loc b i (v : iosys D) : io_streams v !! i = Some (fresh_ios loc b) → ios_init (Some b) i v = IoRet () v.
Proof.
  intros Hv. rewrite (ios_init_fresh loc b i (fresh_ios loc b) eq_refl eq_refl eq_refl v Hv). by rewrite put_stream_id.
Qed.

(** Opening as a step of the stream and its buffer. *)
Lemma buf_runs {A} (f : sbuf D → outcome (A * sbuf D)) b i x s a s' : f s = Ret (a, s') → runs i b (on_buf f b) (x, s) (Done a) (x, s').
Proof. intros Hf. exact (runs_ptr (i := i) (b := b) f (x, s) a s' Hf). Qed.
Lemma init_runs loc b i (s : sbuf D) : runs i b (ios_init (Some b) i) (fresh_ios loc b, s) (Done ()) (fresh_ios loc b, s).
Proof.
  intros v Hv. split; [done|]. rewrite update_view by done. destruct Hv as (Hv & _). by apply (init_fresh loc b).
Qed.
Lemma fresh_ready loc b : ready (fresh_ios loc b).
Proof. by split. Qed.
Lemma base_view loc b w cv i (v : iosys D) :
  view i b (fresh_ios loc b, filebuf_ctor ∅ w cv) (sys_put_stream i (fresh_ios loc b) (sys_put_buf b (filebuf_ctor ∅ w cv) v)).
Proof. split; [apply lookup_insert_eq|]. split; [apply lookup_insert_eq|done]. Qed.

(** The constructors, given what opening the buffer does. *)
Lemma ofstream_ctor_ok loc name mode b w cv i (v : iosys D) ok s :
  filebuf_open name (Z.lor mode om_out) (filebuf_ctor ∅ w cv) = Ret (ok, s) →
  ofstream_ctor loc name mode b w cv i v = IoRet () (update i b (fresh_ios loc b, s) v).
Proof.
  intros Ho. unfold ofstream_ctor. rewrite (io_bind_Ret _ _ _ _ _ (fs_base_ok loc b w cv i v)).
  assert (Hr : runs i b (_ ← fs_buf_open name (Z.lor mode om_out) b; ios_init (Some b) i)
    (fresh_ios loc b, filebuf_ctor ∅ w cv) (Done ()) (fresh_ios loc b, s)).
  { eapply runs_bind; [by apply buf_runs|]. apply init_runs. }
  destruct (Hr _ (base_view loc b w cv i v)) as [_ ->]. f_equal. apply (update_update i b (fresh_ios loc b, filebuf_ctor ∅ w cv)).
Qed.
Lemma fstream_ctor_ok loc name mode b w cv i (v : iosys D) ok s :
  filebuf_open name (Z.lor (Z.lor mode om_in) om_out) (filebuf_ctor ∅ w cv) = Ret (ok, s) →
  fstream_ctor loc name mode b w cv i v = IoRet () (update i b (fresh_ios loc b, s) v).
Proof. intros Ho. by apply (ofstream_ctor_ok loc name (Z.lor mode om_in) b w cv i v ok s). Qed.
Lemma ifstream_ctor_ok loc name mode b w cv i (v : iosys D) ok s :
  filebuf_open name (Z.lor mode om_in) (filebuf_ctor ∅ w cv) = Ret (ok, s) →
  ifstream_ctor loc name mode b w cv i v =
    IoRet () (update i b (if ok then fresh_ios loc b else ios_cleared failbit (fresh_ios loc b), s) v).
Proof.
  intros Ho. unfold ifstream_ctor. rewrite (io_bind_Ret _ _ _ _ _ (fs_base_ok loc b w cv i v)).
  assert (Hr : runs i b (_ ← ios_init (Some b) i; ok ← fs_buf_open name (Z.lor mode om_in) b;
      if ok : bool then mret () else ios_setstate failbit i)
    (fresh_ios loc b, filebuf_ctor ∅ w cv) (Done ()) (if ok then fresh_ios loc b else ios_cleared failbit (fresh_ios loc b), s)).
  { eapply runs_bind; [apply init_runs|]. eapply runs_bind; [by apply buf_runs|]. destruct ok; [apply runs_ret|].
    apply runs_steps; [|done]. apply (steps_setstate i failbit (fresh_ios loc b) eq_refl). }
  destruct (Hr _ (base_view loc b w cv i v)) as [_ ->]. f_equal. apply (update_update i b (fresh_ios loc b, filebuf_ctor ∅ w cv)).
Qed.
End fstream.

(** ** Writing and reading blocks *)
Section blocks.
Context {W : Type} `{!SysFiles W}.
Notation D := (filebuf W).
Implicit Types (s : sbuf D) (x : ios).

Lemma good_runs i b x s : runs i b (ios_good i) (x, s) (Done (bool_decide (i_state x = goodbit))) (x, s).
Proof. apply (runs_get (i := i) (b := b) (λ x, bool_decide (i_state x = goodbit)) (x, s)). Qed.

Lemma write_runs i b x s s' cs : ready x → i_sbuf x = Some b → flag_set (i_flags x) fl_unitbuf = false →
  xsputn cs s = Ret (length cs, s') → runs i b (os_write cs i) (x, s) (Done ()) (x, s').
Proof.
  intros [Hg Ht _] Hb Hu Hs. unfold os_write, with_os_sentry, os_sentry.
  eapply runs_bind.
  { eapply runs_bind; [apply runs_get|]. cbn [fst]. rewrite Ht. eapply runs_bind; [apply runs_ret|]. apply good_runs. }
  rewrite bool_decide_eq_true_2 by done. eapply runs_dtor.
  - apply runs_try. eapply runs_bind; [apply runs_rdbuf; exact Hs|]. rewrite bool_decide_eq_false_2 by auto. apply runs_ret.
  - unfold os_sentry_dtor. eapply runs_bind; [apply (runs_get (λ x, Z.land (i_flags x) fl_fmtmask))|]. cbn [fst].
    assert (flag_set (Z.land (i_flags x) fl_fmtmask) fl_unitbuf = false) as ->; [|apply runs_ret].
    unfold flag_set in *. by rewrite <-Z.land_assoc.
Qed.

(** What a stream is after [read(n)] has stored [cs]. *)
Definition read_ios (n : Z) (cs : list Z) x : ios :=
  let x := i_set_gcount (Z.of_nat (length cs)) (i_set_stored cs x) in
  if bool_decide (Z.of_nat (length cs) < n)%Z then ios_cleared (Z.lor (i_state x) (Z.lor eofbit failbit)) x else x.
Lemma read_runs fuel n i b x s s' cs : ready x → i_exceptions x = goodbit → i_sbuf x = Some b →
  xsgetn n s = Ret (cs, s') → runs i b (is_read fuel n i) (x, s) (Done ()) (read_ios n cs x, s').
Proof.
  intros [Hg Ht _] He Hb Hs. unfold is_read.
  assert (Hgood : runs i b (ios_good i) (x, s) (Done true) (x, s)).
  { pose proof (good_runs i b x s) as H. by rewrite bool_decide_eq_true_2 in H. }
  eapply (runs_bind _ _ (x, s) true (x, s)).
  { eapply runs_bind; [exact Hgood|]. eapply runs_bind; [|exact Hgood]. cbn [io_when]. apply runs_try.
    eapply runs_bind; [apply runs_get|]. cbn [fst]. rewrite Ht. eapply runs_bind; [apply runs_ret|].
    eapply runs_bind; [apply (runs_get (λ x, Z.land (i_flags x) fl_fmtmask))|]. apply runs_ret. }
  cbn [guarded]. apply runs_try. eapply runs_bind; [apply runs_rdbuf; exact Hs|].
  eapply runs_bind; [by apply runs_modify|]. eapply runs_bind; [by apply runs_modify|].
  unfold read_ios. cbn [fst snd]. apply runs_when; intros Hn; rewrite Hn; [|done].
  apply runs_steps; [by apply steps_setstate|done].
Qed.
End blocks.

(** ** Properties *)

(** C28: A text written through an ofstream to a new or truncated file is read back
    through an ifstream opened on the file afterwards: the streams stay good, the
    file holds exactly the text in between, and asking for more than the text
    stores all of it and sets eofbit and failbit. The system calls obey the laws of
    [RegularFiles]: what is written fits on the device, no call is interrupted, and
    the block size is below 2^30, so that an int holds that of the buffer. *)
Theorem fstream_roundtrip {W} `{!SysFiles W} named opened `{!RegularFiles W named opened} loc name d id (w : W) cs n fuel
    (v : iosys (filebuf W)) i b j c :
  named w name d →
  ∃ s1 s2, let v1 := update i b (fresh_ios loc b, s1) v in
    (_ ← ofstream_ctor loc name om_trunc b w (c_codecvt id) i; _ ← os_write cs i; fs_close b) v = IoRet () v1 ∧
    let w1 := fb_sys (sb_derived s1) in
    named w1 name (Some cs) ∧
    (_ ← ifstream_ctor loc name om_in c w1 (c_codecvt id) j; is_read fuel n j) v1 =
      IoRet () (update j c (read_ios n (take (Z.to_nat n) cs) (fresh_ios loc c), s2) v1).
Proof.
  intros Hn. assert (Hcl0 : fb_closed named name d (filebuf_ctor ∅ w (c_codecvt id))) by by split.
  destruct (filebuf_open_ok named opened name (Z.lor om_trunc om_out) d _ Hcl0) as (sa & Ho & Hrep); [done|by split; [left|]|].
  destruct (rep_put_each named opened name _ cs 0 _ _ _ sa Hrep) as (sb & Hp & Hrep2); [done..|].
  destruct (filebuf_close_ok named opened name _ _ _ _ sb Hrep2) as (s1 & Hc & Hcl & _); [done|].
  assert (Hd : of_data (file_write cs (mode_file (Z.lor om_trunc om_out) d)) = cs).
  { change (mode_file (Z.lor om_trunc om_out) d) with (OpenFile [] (length (@nil Z))). by rewrite file_write_end. }
  rewrite Hd in Hcl. pose proof (fc_named _ _ _ _ Hcl) as Hn1.
  assert (Hcl1 : fb_closed named name (Some cs) (filebuf_ctor ∅ (fb_sys (sb_derived s1)) (c_codecvt id))) by by split.
  destruct (filebuf_open_ok named opened name om_in (Some cs) _ Hcl1) as (sc & Ho4 & Hrep4); [done|split; [right; eauto|by split]|].
  destruct (reading_get_each named opened name _ (Z.to_nat n) [] _ _ sc (rep_reading opened name _ _ _ _ _ Hrep4 ltac:(done))) as (s2 & Hr & _); [done|].
  exists s1, s2. cbn zeta. split_and!; [|done|].
  - rewrite (io_bind_Ret _ _ _ _ _ (ofstream_ctor_ok loc name om_trunc b w _ i v true sa Ho)).
    assert (Hruns : runs i b (_ ← os_write cs i; fs_close b) (fresh_ios loc b, sa) (Done ()) (fresh_ios loc b, s1)).
    { eapply runs_bind; [apply write_runs; [apply fresh_ready|done|done|]|].
      - rewrite (xsputn_each fb_areas) by by eapply rep_areas. exact Hp.
      - eapply runs_bind; [by apply buf_runs|apply runs_ret]. }
    destruct (Hruns _ (view_update i b (fresh_ios loc b, sa) v eq_refl)) as [_ ->]. by rewrite update_update.
  - rewrite (io_bind_Ret _ _ _ _ _ (ifstream_ctor_ok loc name om_in c _ _ j _ true sc Ho4)).
    assert (Hruns : runs j c (is_read fuel n j) (fresh_ios loc c, sc) (Done ()) (read_ios n (take (Z.to_nat n) cs) (fresh_ios loc c), s2)).
    { apply read_runs; [apply fresh_ready|done|done|]. rewrite (xsgetn_each fb_areas) by by eapply rep_areas. exact Hr. }
    destruct (Hruns _ (view_update j c (fresh_ios loc c, sc) (update i b (fresh_ios loc b, s1) v) eq_refl)) as [_ ->].
    by rewrite update_update.
Qed.

(** *** A file which cannot be opened *)
Section failure.
Context {W : Type} `{!SysFiles W}.
Notation D := (filebuf W).
Implicit Types (s : sbuf D) (x : ios).

(** A buffer without a file: nothing can be put, read or flushed. *)
Record no_file s : Prop := NoFile {
  nf_closed : filebuf_is_open s = false;
  nf_put c : sputc c s = Ret (None, s);
  nf_get : sbumpc s = Ret (None, s);
  nf_sync : cvtbuf_sync s = Ret (0%Z, s);
}.
Lemma open_fails name mode (w w' : W) cv :
  sys_open name (sf_flags mode) w = ((-1)%Z, w') →
  ∃ s, filebuf_open name mode (filebuf_ctor ∅ w cv) = Ret (false, s) ∧ no_file s.
Proof.
  intros Ho. unfold filebuf_open. cbn [filebuf_ctor sbuf_ctor sb_derived fb_file fb_sys]. unfold sf_open. cbn [sysfile_ctor sf_is_open].
  rewrite Ho. cbn. eexists. by split.
Qed.

Lemma put_fails loc b i s (v : iosys D) c : no_file s →
  os_put c i (update i b (fresh_ios loc b, s) v) = IoRet () (update i b (ios_cleared badbit (fresh_ios loc b), s) v).
Proof.
  intros Hs.
  assert (Hr : runs i b (os_put c i) (fresh_ios loc b, s) (Done ()) (ios_cleared badbit (fresh_ios loc b), s)).
  { unfold os_put. eapply runs_bind; [apply runs_get|]. cbn [fst]. apply runs_try.
    eapply runs_bind; [apply runs_rdbuf, (nf_put _ Hs)|]. rewrite bool_decide_eq_true_2 by done. cbn [io_when fst].
    apply runs_steps; [|done]. exact (steps_setstate i badbit (fresh_ios loc b) eq_refl). }
  destruct (Hr _ (view_update i b (fresh_ios loc b, s) v eq_refl)) as [_ ->]. by rewrite update_update.
Qed.
Lemma get_fails loc b i s (v : iosys D) fuel : no_file s →
  is_get_char fuel i (update i b (fresh_ios loc b, s) v) =
    IoRet None (update i b (i_set_gcount 0 (ios_cleared (Z.lor failbit eofbit) (fresh_ios loc b)), s) v).
Proof.
  intros Hs. assert (Hgood : runs i b (ios_good i) (fresh_ios loc b, s) (Done true) (fresh_ios loc b, s)).
  { apply (good_runs i b (fresh_ios loc b) s). }
  assert (Hr : runs i b (is_get_char fuel i) (fresh_ios loc b, s) (Done None)
    (i_set_gcount 0 (ios_cleared (Z.lor failbit eofbit) (fresh_ios loc b)), s)).
  { eapply (runs_bind _ _ (fresh_ios loc b, s) true (fresh_ios loc b, s)).
    { eapply runs_bind; [exact Hgood|]. eapply runs_bind; [|exact Hgood]. cbn [io_when]. apply runs_try.
      eapply runs_bind; [apply runs_get|]. eapply runs_bind; [apply runs_ret|].
      eapply runs_bind; [apply (runs_get (λ x, Z.land (i_flags x) fl_fmtmask))|]. apply runs_ret. }
    cbn [guarded]. apply runs_try. eapply runs_bind; [apply runs_rdbuf, (nf_get _ Hs)|].
    eapply (runs_bind _ _ _ () (ios_cleared (Z.lor failbit eofbit) (fresh_ios loc b), s)).
    { apply runs_steps; [|done]. exact (steps_setstate i (Z.lor failbit eofbit) (fresh_ios loc b) eq_refl). }
    eapply runs_bind; [by apply runs_modify|]. apply runs_ret. }
  destruct (Hr _ (view_update i b (fresh_ios loc b, s) v eq_refl)) as [_ ->]. by rewrite update_update.
Qed.
Lemma flush_silent loc b i s (v : iosys D) : no_file s →
  os_flush i (update i b (fresh_ios loc b, s) v) = IoRet () (update i b (fresh_ios loc b, s) v).
Proof.
  intros Hs. assert (Hr : runs i b (os_flush i) (fresh_ios loc b, s) (Done ()) (fresh_ios loc b, s)).
  { eapply runs_bind; [apply runs_get|]. cbn [fst fresh_ios i_sbuf].
    eapply runs_bind; [apply (buf_runs v_sync), (nf_sync _ Hs)|]. apply runs_ret. }
  destruct (Hr _ (view_update i b (fresh_ios loc b, s) v eq_refl)) as [_ ->]. by rewrite update_update.
Qed.

(** Opening after the default constructor is what the other constructor does. *)
Lemma fs_ctor_ok loc b (w : W) cv i (v : iosys D) : fs_ctor loc b w cv i v = fs_base loc b w cv i v.
Proof.
  unfold fs_ctor. rewrite (io_bind_Ret _ _ _ _ _ (fs_base_ok loc b w cv i v)), fs_base_ok.
  apply (init_fresh loc b), put_stream_at.
Qed.
Lemma open_later loc b (w : W) cv i (v : iosys D) (m : io (iosys D) ()) :
  (_ ← fs_ctor loc b w cv i; m) v = (_ ← fs_base loc b w cv i; m) v.
Proof. unfold mbind, io_bind. by rewrite fs_ctor_ok. Qed.
Lemma ifstream_open_fails loc name mode b (w : W) cv i (v : iosys D) s :
  filebuf_open name (Z.lor mode om_in) (filebuf_ctor ∅ w cv) = Ret (false, s) →
  (_ ← fs_ctor loc b w cv i; ifstream_open name mode b i) v =
    IoRet () (update i b (ios_cleared failbit (fresh_ios loc b), s) v).
Proof.
  intros Ho. rewrite open_later, (io_bind_Ret _ _ _ _ _ (fs_base_ok loc b w cv i v)).
  assert (Hr : runs i b (ifstream_open name mode b i) (fresh_ios loc b, filebuf_ctor ∅ w cv) (Done ())
    (ios_cleared failbit (fresh_ios loc b), s)).
  { eapply runs_bind; [by apply buf_runs|]. apply runs_steps; [|done].
    exact (steps_setstate i failbit (fresh_ios loc b) eq_refl). }
  destruct (Hr _ (base_view loc b w cv i v)) as [_ ->]. f_equal. apply (update_update i b (fresh_ios loc b, filebuf_ctor ∅ w cv)).
Qed.
End failure.

(** C40: When the system cannot open the file, an ifstream gets failbit, but an
    ofstream and an fstream are in the good state afterwards, whether constructed
    with the name or opened after their default construction. Their buffer is
    closed; flushing them does not show the failure either, but putting a character
    sets badbit, and reading one from an fstream sets failbit and eofbit. *)
Theorem fstream_open_failure {W} `{!SysFiles W} loc name mode cv (w : W) (v : iosys (filebuf W)) i b :
  let fresh := fresh_ios loc b in
  (∀ w', sys_open name (sf_flags (Z.lor mode om_in)) w = ((-1)%Z, w') →
    ∃ s, let v1 := update i b (ios_cleared failbit fresh, s) v in
      ifstream_ctor loc name mode b w cv i v = IoRet () v1 ∧
      (_ ← fs_ctor loc b w cv i; ifstream_open name mode b i) v = IoRet () v1 ∧
      i_state (ios_cleared failbit fresh) = failbit ∧ filebuf_is_open s = false) ∧
  (∀ w', sys_open name (sf_flags (Z.lor mode om_out)) w = ((-1)%Z, w') →
    ∃ s, let v1 := update i b (fresh, s) v in
      ofstream_ctor loc name mode b w cv i v = IoRet () v1 ∧
      (_ ← fs_ctor loc b w cv i; ofstream_open name mode b i) v = IoRet () v1 ∧
      i_state fresh = goodbit ∧ filebuf_is_open s = false ∧ os_flush i v1 = IoRet () v1 ∧
      ∀ c, os_put c i v1 = IoRet () (update i b (ios_cleared badbit fresh, s) v) ∧
        i_state (ios_cleared badbit fresh) = badbit) ∧
  (∀ w', sys_open name (sf_flags (Z.lor (Z.lor mode om_in) om_out)) w = ((-1)%Z, w') →
    ∃ s, let v1 := update i b (fresh, s) v in
      let y := i_set_gcount 0 (ios_cleared (Z.lor failbit eofbit) fresh) in
      fstream_ctor loc name mode b w cv i v = IoRet () v1 ∧
      (_ ← fs_ctor loc b w cv i; fstream_open name mode b i) v = IoRet () v1 ∧
      i_state fresh = goodbit ∧ filebuf_is_open s = false ∧ os_flush i v1 = IoRet () v1 ∧
      (∀ c, os_put c i v1 = IoRet () (update i b (ios_cleared badbit fresh, s) v)) ∧
      (∀ fuel, is_get_char fuel i v1 = IoRet None (update i b (y, s) v)) ∧ i_state y = Z.lor failbit eofbit).
Proof.
  intros fresh. split; [|split]; intros w' Ho; destruct (open_fails _ _ _ _ cv Ho) as (s & Hs & Hn); exists s; cbv zeta.
  - rewrite (ifstream_ctor_ok loc name mode b w cv i v false s Hs), (ifstream_open_fails loc name mode b w cv i v s Hs).
    split_and!; [done..|apply Hn].
  - rewrite open_later. change (_ ← fs_base loc b w cv i; ofstream_open name mode b i) with (ofstream_ctor loc name mode b w cv i).
    rewrite (ofstream_ctor_ok loc name mode b w cv i v false s Hs).
    split_and!; [done..|apply Hn|by apply flush_silent|]. intros c. split; [by apply put_fails|done].
  - rewrite open_later. change (_ ← fs_base loc b w cv i; fstream_open name mode b i) with (fstream_ctor loc name mode b w cv i).
    rewrite (fstream_ctor_ok loc name mode b w cv i v false s Hs).
    split_and!; [done..|apply Hn|by apply flush_silent|intros c; by apply put_fails|intros fuel; by apply get_fails|done].
Qed.

(** ** Witnesses *)
Definition file_sys : iosys (filebuf disk) := IoSys ∅ ∅ ∅ false 0 true 1.
Lemma fstream_roundtrip_witness :
  ∃ s1 s2, let v1 := update 0 0 (fresh_ios classic_locale 0, s1) file_sys in
    (_ ← ofstream_ctor classic_locale disk_name om_trunc 0 new_disk (c_codecvt 0) 0; _ ← os_write (codes "hello") 0; fs_close 0) file_sys = IoRet () v1 ∧
    let w1 := fb_sys (sb_derived s1) in
    disk_named w1 disk_name (Some (codes "hello")) ∧
    (_ ← ifstream_ctor classic_locale disk_name om_in 1 w1 (c_codecvt 0) 1; is_read 1 9 1) v1 =
      IoRet () (update 1 1 (read_ios 9 (codes "hello") (fresh_ios classic_locale 1), s2) v1).
Proof. apply (fstream_roundtrip disk_named disk_opened classic_locale disk_name (Some [97; 98; 99]%Z) 0 new_disk (codes "hello") 9 1 file_sys 0 0 1 1). reflexivity. Defined.

Definition missing_name : list Z := [120; 121]%Z.
(** The disk of the other witnesses, but one on which no file can be created. *)
#[local] Instance full_disk : SysFiles disk := {|
  sys_open := λ name flags w, match dk_files w !! name with None => ((-1)%Z, w) | Some _ => dk_open name flags w end;
  sys_close := dk_close; sys_read := dk_read; sys_write := dk_write; sys_lseek := dk_lseek;
  sys_fstat := @sys_fstat disk disk_files;
|}.
Lemma fstream_open_failure_witness :
  let fresh := fresh_ios classic_locale 0 in
  let v : iosys (filebuf disk) := file_sys in
  (∃ s, let v1 := update 0 0 (ios_cleared failbit fresh, s) v in
    ifstream_ctor classic_locale missing_name om_in 0 new_disk (c_codecvt 0) 0 v = IoRet () v1 ∧
    (_ ← fs_ctor classic_locale 0 new_disk (c_codecvt 0) 0; ifstream_open missing_name om_in 0 0) v = IoRet () v1 ∧
    i_state (ios_cleared failbit fresh) = failbit ∧ filebuf_is_open s = false) ∧
  (∃ s, let v1 := update 0 0 (fresh, s) v in
    ofstream_ctor classic_locale missing_name om_out 0 new_disk (c_codecvt 0) 0 v = IoRet () v1 ∧
    (_ ← fs_ctor classic_locale 0 new_disk (c_codecvt 0) 0; ofstream_open missing_name om_out 0 0) v = IoRet () v1 ∧
    i_state fresh = goodbit ∧ filebuf_is_open s = false ∧ os_flush 0 v1 = IoRet () v1 ∧
    ∀ c, os_put c 0 v1 = IoRet () (update 0 0 (ios_cleared badbit fresh, s) v) ∧ i_state (ios_cleared badbit fresh) = badbit) ∧
  (∃ s, let v1 := update 0 0 (fresh, s) v in
    let y := i_set_gcount 0 (ios_cleared (Z.lor failbit eofbit) fresh) in
    fstream_ctor classic_locale missing_name om_in 0 new_disk (c_codecvt 0) 0 v = IoRet () v1 ∧
    (_ ← fs_ctor classic_locale 0 new_disk (c_codecvt 0) 0; fstream_open missing_name om_in 0 0) v = IoRet () v1 ∧
    i_state fresh = goodbit ∧ filebuf_is_open s = false ∧ os_flush 0 v1 = IoRet () v1 ∧
    (∀ c, os_put c 0 v1 = IoRet () (update 0 0 (ios_cleared badbit fresh, s) v)) ∧
    (∀ fuel, is_get_char fuel 0 v1 = IoRet None (update 0 0 (y, s) v)) ∧ i_state y = Z.lor failbit eofbit).
Proof.
  intros fresh v.
  destruct (fstream_open_failure classic_locale missing_name om_in (c_codecvt 0) new_disk v 0 0) as (H1 & _ & H3).
  destruct (fstream_open_failure classic_locale missing_name om_out (c_codecvt 0) new_disk v 0 0) as (_ & H2 & _).
  split; [apply (H1 new_disk); reflexivity|]. split; [apply (H2 new_disk); reflexivity|apply (H3 new_disk); reflexivity].
Defined.
